(* ===== verification/_CoqProject ===== *)
-Q . S2P
Prelude.v
Bits.v
Multiprecision.v
DivOpt.v
BTree.v
Space.v
Address.v
LoadImage.v
RangeList.v
Manager.v
Join.v
MemBank.v
MemWords.v
MemPage.v
MemState.v
MemHash.v
PartMap.v
OrderedIndex.v
Arena.v
OpList.v
GlobalContext.v
ContextValues.v
ContextCoherence.v
Float.v
FloatRound.v
Heritage.v
HeritageMap.v
HeritageQueue.v
SleighBits.v
SleighPattern.v
SleighDecision.v
SleighExpr.v
StdSort.v
RangeMap.v
RangeTree.v
RangeInsert.v
Crc32.v
Opcodes.v
Cover.v
CoverBlocks.v
CoverFlow.v
Packed.v
PackedTrip.v
OpBehavior.v
CircleRange.v
CirclePull.v
CirclePush.v
BitRange.v
Block.v
BlockGraph.v
Dominators.v
BlockEdges.v
BlockDom.v
BlockTree.v
BlockLoops.v
