(* ===== verification/Prelude.v ===== *)
(** * A verification library for the core of the decompiler

    The program (a Rust port of Ghidra's decompiler) translates machine code to
    p-code, builds a data-flow graph from it, rewrites that graph with rules and
    prints C.  This library models the parts every phase leans on: machine
    words, addresses and the containers keyed by them, the meaning of the p-code
    operations, and the ranges of values that switch recovery computes with.

    ** Files and the sources they model

    - [Prelude]: the error type ([src/src/error.rs]), the outcome monad for
      [Result], panics and loops that run out of fuel, casts between machine
      widths and the lemmas on them.
    - [Bits]: the free functions at the end of [src/src/address.rs]
      ([calc_mask], [sign_extend], [byte_swap], [leastsigbit_set], ...).
    - [Multiprecision]: [src/src/multiprecision.rs], 128-bit numbers as pairs of
      words, with Knuth's division on 32-bit digits.
    - [DivOpt]: [RuleDivOpt::calc_divisor] of [src/src/ruleaction/division.rs],
      which recovers the divisor of a division that the compiler turned into a
      multiplication.
    - [BTree]: the ordered map and set of the standard library that the next
      files use, as sorted association lists, with the class [OrdKey] of keys.
    - [Space], [Address], [RangeList]: [src/src/space.rs] and
      [src/src/address.rs]: spaces and their wrap-around, addresses, sequence
      numbers and their orders, and the sets of address ranges.
    - [BitRange]: the runs of bits inside a container of bytes, in
      [src/src/address.rs].
    - [PartMap]: [src/src/partmap.rs], a map that is constant between split
      points.
    - [OrderedIndex]: [src/src/orderedindex.rs], an ordered map with a prefetch
      buffer behind a version counter.
    - [Manager]: [AddrSpaceManager] of [src/src/translate.rs], the registry of
      spaces.  Spaces are shared and change after registration, so they live in a
      store and the tables hold references into it.
    - [Join]: [VarnodeData] of [src/src/pcoderaw.rs] and the joins of
      [src/src/translate.rs]: values split over several places, the table of
      their records and the addresses constructed from it.
    - [Arena], [OpList]: [src/src/arena.rs] and [src/src/oplist.rs], the slots that
      hold the objects of the data-flow graph and the lists linked through them.
    - [Packed], [PackedTrip]: the packed format of [src/src/marshal.rs], with the
      decoder as a state-and-error monad over its positions in the input;
      [PackedTrip] has the theorems on input that the encoder wrote.
    - [Block], [BlockGraph], [BlockEdges]: the flow graph of [src/src/block.rs]:
      blocks, the operations on their edges, membership in a graph, removal,
      splicing and reachability.
    - [BlockTree], [BlockLoops]: the depth-first search of [src/src/block.rs], the
      marking of irreducible edges and of loops.
    - [Dominators], [BlockDom]: the dominators of [src/src/block.rs].  [Dominators]
      is the iteration on numbers alone, [BlockDom] the code on the arena.
    - [StdSort]: [src/src/stdsort.rs], the introspective sort that orders jump
      tables, covers and loop bodies.
    - [Crc32]: [src/src/crc32.rs], the checksum of the dynamic hashes.
    - [LoadImage]: the raw image of [src/src/loadimage.rs].
    - [MemBank], [MemWords], [MemPage], [MemHash], [MemState]:
      [src/src/memstate.rs], memory as banks of words.  [MemBank] has the
      definitions; [MemWords] proves the accesses to values against the classes
      [WordReader] and [WordBank]; [MemPage] and [MemHash] are the two overlays
      and [MemState] composes them with images and the table of banks.
    - [RangeMap], [RangeTree], [RangeInsert]: [src/src/rangemap.rs], the intervals of
      records that may overlap, under the symbol and scope tables.  [RangeMap] has
      the definitions, [RangeTree] the order of the entries and the lookups,
      [RangeInsert] the insertion against the class [RecordLaws].
    - [GlobalContext], [ContextValues], [ContextCoherence]:
      [src/src/globalcontext.rs], the context variables of the instruction
      decoder at every address, on top of [PartMap], and the cache in front of
      them.  The maps are keyed by [AddressKey], which is all they use of an
      address.
    - [Float], [FloatRound]: the integer part of [src/src/float.rs]: formats,
      encodings, rounding, and conversion between formats.
    - [SleighBits], [SleighPattern], [SleighDecision], [SleighExpr]: the part of
      the instruction decoder that looks at bits: the readers of
      [src/src/context.rs], the patterns of [src/src/slghpattern.rs], the decision
      tree of [src/src/slghsymbol.rs] and the expressions of
      [src/src/slghpatexpress.rs].
    - [Heritage], [HeritageMap], [HeritageQueue]: the containers of
      [src/src/heritage.rs] under the construction of SSA form: the ranges linked
      by earlier passes, the ranges of a pass, and the queue of blocks by depth.
    - [Cover], [CoverBlocks], [CoverFlow]: the covers of [src/src/cover.rs], the
      live ranges of variables that merging compares.  [Cover] has the
      definitions, [CoverBlocks] the intersection and merging, [CoverFlow] the
      construction of a cover from the uses of a variable.
    - [Opcodes]: [src/src/opcodes.rs], the operations and their tables of names.
    - [OpBehavior]: [src/src/opbehavior.rs], what each p-code operation computes
      and how its inputs are recovered from its output.
    - [CircleRange], [CirclePull], [CirclePush]: [CircleRange] of
      [src/src/rangeutil.rs], strided arcs of the circle of machine words, moved
      backward and forward through p-code operations.

    A method that changes its receiver is a function to the changed value (and
    to the method's result); a method that returns a reference to be written is
    a function that takes the value written.  Integers are [Z] with the wrap of
    their width written out ([u64], [i32], ...): the release profile has no
    overflow checks, so plain operators wrap too.  Shifts take their count modulo
    the width where the source uses the wrapping methods.

    ** What the theorems show

    - Arithmetic: division of 128-bit numbers is exact and total for non-zero
      divisors; a recovered divisor is right for every dividend.
    - Containers: the range list stays sorted and disjoint and its operations
      are the set operations; the partition map changes only the interval it is
      asked to; the prefetching index cannot be told from a plain map.
    - Registry and joins: the tables of spaces stay in step through every
      operation, failed ones included; records of joins are disjoint and found by
      both searches; cutting, wrapping and merging joins moves no byte.
    - Graph storage: an arena is a map that never reuses an identifier; an
      intrusive list is a plain list.
    - Packed format: the decoder returns on every input, its slice of the buffer included; what the encoder wrote is
      read back; attributes are found by id; unread children are skipped.
    - Flow graph: the two ends of every edge name each other through every
      sequence of operations, which is what the consistency check of the source
      decides; removing, splicing and redirecting blocks change the flow as they
      should; the search numbers the blocks in reverse post order and labels the
      edges by kind; on a graph with one entry, structuring loops ends after one
      round, and the dominators computed after it are the immediate dominators of the flow.
    - Sorting: the result is a sorted permutation, no index leaves the slice, and
      the quicksort leaves every element near its place.
    - Memory: a page overlay with words of eight bytes is a map from addresses to
      bytes for accesses of every size and alignment; the hash table keeps words apart and fails only when
      the slots of a word are taken; images serve the bytes of the file.
    - Interval maps: insertion cuts the line without losing a point of any record,
      and a lookup after any insertions finds exactly the records there.
    - Context database: a variable set at an address or over a region has its
      value exactly there, other variables keep theirs; the cache is invisible
      to a program that works in one space.
    - Floating point: a conversion gives the nearest encoding, ties to even, but
      for the numbers that round up to the smallest normal one.
    - Instruction decoding: normalized patterns match what was written, the walk
      of the decision tree finds what a search of all patterns would find, and
      fields of tokens and of the context read the number their bits spell.
    - SSA containers: ranges of earlier passes stay disjoint and lookups know
      exactly what was added, but for a range added before all others; the queue
      gives the deepest blocks first.
    - Covers: two covers intersect exactly when they share a point, merging loses no
      point, and the cover that [rebuild] leaves is exactly the live range of the
      variable.
    - Addresses: containment, overlap and movement across the wrap of a space;
      the keys of the containers order addresses as addresses order themselves;
      bit runs are cut and shifted as sets of bits.
    - Semantics: every arithmetic behaviour is the mathematical operation modulo
      its width, recovered inputs are the inputs, the negated comparison negates.
    - Value ranges: union and intersection are exact when they report success;
      ranges pulled back through comparisons, sums, negations are exact
      preimages; ranges pushed forward through sums, negations and extensions
      lose nothing.  The theorems are proved against the behaviours of
      [OpBehavior].  Where the source loses values, a theorem exhibits the case.

    ** Fuel

    Loops whose recursion is not structural take fuel, with a lemma that it
    suffices: 3 rounds of the correction of a trial digit, one more than the
    number of words in a shift, 7 doublings in [coveringmask], 75 probes in the
    search of the 74 names, 32 doublings of a stride (see
    [CirclePush.step_loops_complete]).
    The loops of the packed decoder get one round more than the input has bytes
    ([Packed.decoder_total] shows that this is enough on every input), the search
    for a shortcut 28 rounds, the binary searches of the join table two rounds
    more than there are records.
    The searches of the flow graph get a round per block and edge, the iteration
    for dominators one more than the square of the number of blocks, which
    [Dominators.rank_bound] shows to be enough.  The rounds of
    [block_structure_loops] are an argument; one is enough.
    Scans and partitions of a slice get a round per element, a page access one
    more than its bytes, a chunk one more than its bytes.
    The insertion into an interval map gets three rounds per entry and one more
    ([RangeInsert.insert_step_ok] counts them).
    The loops over the bytes of a word of a pattern get four rounds, the loops
    over the bytes of a field one per byte.
    The recursion that builds a cover gets one level more than there are blocks, its
    outer loop one round per variable on the path ([CoverFlow.rebuild_exact]).
    The search for a level of the queue in use gets a round per level and one more.


    ** Not modelled

    The arithmetic of [src/src/float.rs] runs on the host's floating point: the
    behaviours that use it take it as an interface, the class [FloatFormat].  The
    operations and variables of the data-flow graph ([funcdata], [varnode],
    [op]), the structured kinds of blocks built on the flow graph, and what works
    on them (SSA construction, merging, rules, actions, switch recovery, the
    solver of value sets) are one large mutable state that few functions leave;
    the states of the
    instruction parser, its symbol table and its p-code templates are filled from
    compiled language files; the type system, the symbol
    database, loading, the console and the C printer are input, output and
    configuration around these.  Encoding to XML and printing are not modelled
    for the types above. *)
From stdpp Require Import base list numbers strings.
From coqutil Require Import Z.bitblast Z.PushPullMod.
From Stdlib Require Import ZArith Lia.

Declare Scope rust_scope.
Delimit Scope rust_scope with rust.
Open Scope Z_scope.

(** Facts on the order of keys, on sorted trees, and on machine words. *)
Create HintDb order.
Create HintDb tree.
Create HintDb words.

(** ** Errors, panics and loops *)

(** [crate::error::Error], with the message each variant carries. *)
Inductive Error : Type :=
  | Lowlevel (message : string)
  | Recov (message : string)
  | Parse (message : string)
  | Decoder (message : string)
  | BadData (message : string)
  | Unimpl (message : string) (instruction_length : Z)
  | DataUnavail (message : string)
  | Evaluation (message : string)
  | Sleigh (message : string)
  | JumptableThunk (message : string)
  | ParamUnassigned (message : string)
  | DuplicateFunction (address function_name : string).

(** [Error::explain]. *)
Definition explain (e : Error) : string :=
  match e with
  | Lowlevel message | Recov message | Parse message | Decoder message
  | BadData message | DataUnavail message | Evaluation message | Sleigh message
  | JumptableThunk message | ParamUnassigned message => message
  | Unimpl message _ => message
  | DuplicateFunction _ _ => "Duplicate Function"
  end.

(** [Error::is_lowlevel]. *)
Definition is_lowlevel (e : Error) : bool :=
  match e with Decoder _ => false | _ => true end.

(** [Error::is_recov]. *)
Definition is_recov (e : Error) : bool :=
  match e with Recov _ | DuplicateFunction _ _ => true | _ => false end.

(** What a Rust call can do: return a value, return [Err], panic (a failed
    index, [expect] or assertion), or use up the fuel of a modelled loop.
    [Diverge] is never the outcome of a theorem below: it exists so that
    termination is something to prove. *)
Inductive outcome (A : Type) : Type :=
  | Ok (a : A)
  | Err (e : Error)
  | Panic
  | Diverge.
Arguments Ok {A} _.
Arguments Err {A} _.
Arguments Panic {A}.
Arguments Diverge {A}.

(** [Result::is_ok]. *)
Definition is_ok {A} (o : outcome A) : bool := match o with Ok _ => true | _ => false end.

Definition obind {A B} (m : outcome A) (f : A -> outcome B) : outcome B :=
  match m with
  | Ok a => f a
  | Err e => Err e
  | Panic => Panic
  | Diverge => Diverge
  end.

Notation "'let!' x ':=' m 'in' f" := (obind m (fun x => f))
  (at level 10, x pattern, m at level 100, f at level 200) : rust_scope.
Open Scope rust_scope.

(** [slice\[i\]] and [slice\[i\] = x]: both panic out of range. *)
Definition index {A} (l : list A) (i : nat) : outcome A :=
  match l !! i with Some x => Ok x | None => Panic end.

Definition store {A} (l : list A) (i : nat) (x : A) : outcome (list A) :=
  if decide (i < length l)%nat then Ok (<[i := x]> l) else Panic.

(** [for i in lo..lo+n { body }] and [for i in (lo..lo+n).rev() { body }]. *)
Fixpoint for_up {S} (n lo : nat) (body : nat -> S -> outcome S) (s : S) : outcome S :=
  match n with
  | O => Ok s
  | Datatypes.S n => let! s := body lo s in for_up n (Datatypes.S lo) body s
  end.

Fixpoint for_down {S} (n lo : nat) (body : nat -> S -> outcome S) (s : S) : outcome S :=
  match n with
  | O => Ok s
  | Datatypes.S n => let! s := body (lo + n)%nat s in for_down n lo body s
  end.

(** [loop { body }] where the body says whether to go on ([inl]) or to leave
    ([inr]). *)
Fixpoint loop {S R} (fuel : nat) (body : S -> outcome (S + R)) (s : S) : outcome R :=
  match fuel with
  | O => Diverge
  | Datatypes.S fuel =>
      let! r := body s in
      match r with inl s => loop fuel body s | inr r => Ok r end
  end.

(** Methods that change their receiver and can fail: the state is kept on every
    path, errors included, as the source keeps it. *)
Definition stm (S A : Type) : Type := S -> S * outcome A.

Definition sret {S A} (a : A) : stm S A := fun s => (s, Ok a).
Definition serr {S A} (e : Error) : stm S A := fun s => (s, Err e).
Definition sget {S} : stm S S := fun s => (s, Ok s).
Definition smodify {S} (f : S -> S) : stm S unit := fun s => (f s, Ok tt).
Definition slift {S A} (o : outcome A) : stm S A := fun s => (s, o).

Definition sbind {S A B} (m : stm S A) (f : A -> stm S B) : stm S B := fun s =>
  match m s with
  | (s, Ok a) => f a s
  | (s, Err e) => (s, Err e)
  | (s, Panic) => (s, Panic)
  | (s, Diverge) => (s, Diverge)
  end.

Notation "'do!' x '<-' m ';;' f" := (sbind m (fun x => f))
  (at level 10, x pattern, m at level 99, f at level 200) : rust_scope.
Notation "m ';;!' f" := (sbind m (fun _ => f)) (at level 199, right associativity) : rust_scope.

Fixpoint sloop {S X R} (fuel : nat) (body : X -> stm S (X + R)) (x : X) : stm S R :=
  match fuel with
  | O => fun s => (s, Diverge)
  | Datatypes.S fuel => sbind (body x) (fun r => match r with inl x => sloop fuel body x | inr r => sret r end)
  end.

Lemma sbind_ok {S A B} (m : stm S A) (f : A -> stm S B) s s' a : m s = (s', Ok a) -> sbind m f s = f a s'.
Proof. unfold sbind. by intros ->. Qed.

Lemma sbind_inv {S A B} (m : stm S A) (f : A -> stm S B) s s2 b : sbind m f s = (s2, Ok b) ->
  exists s1 a, m s = (s1, Ok a) /\ f a s1 = (s2, Ok b).
Proof. unfold sbind. destruct (m s) as [s1 [a| | |]]; naive_solver. Qed.

Lemma sbind_lift {S A B} (a : A) (f : A -> stm S B) s : sbind (slift (Ok a)) f s = f a s.
Proof. done. Qed.

Lemma sbind_get {S B} (f : S -> stm S B) s : sbind sget f s = f s s.
Proof. done. Qed.

Lemma sbind_modify {S B} g (f : unit -> stm S B) s : sbind (smodify g) f s = f tt (g s).
Proof. done. Qed.

(** Runs the primitive computations of the hypotheses. *)
Ltac srun := unfold sret, serr, sget, smodify, slift in *; simplify_eq/=.

(** Runs the next bind of a computation whose head is already a value. *)
Ltac ostep := cbv beta iota delta [obind].

Lemma obind_ok {A B} (m : outcome A) (f : A -> outcome B) b :
  obind m f = Ok b <-> exists a, m = Ok a /\ f a = Ok b.
Proof. destruct m; simpl; naive_solver. Qed.

Lemma index_ok {A} (l : list A) i x : l !! i = Some x -> index l i = Ok x.
Proof. by unfold index; intros ->. Qed.

Lemma index_nth {A} (l : list A) i d : (i < length l)%nat -> index l i = Ok (nth i l d).
Proof.
  intros Hi. destruct (lookup_lt_is_Some_2 l i Hi) as [x Hx].
  rewrite (index_ok _ _ _ Hx). f_equal. symmetry. by apply nth_lookup_Some.
Qed.

Lemma store_ok {A} (l : list A) i x : (i < length l)%nat -> store l i x = Ok (<[i := x]> l).
Proof. intros. unfold store. by rewrite decide_True by done. Qed.

(** The loop rules: an invariant indexed by the counter. *)
Lemma for_up_inv {S} (I : nat -> S -> Prop) (body : nat -> S -> outcome S) n lo s :
  I lo s ->
  (forall i s, (lo <= i < lo + n)%nat -> I i s -> exists s', body i s = Ok s' /\ I (Datatypes.S i) s') ->
  exists s', for_up n lo body s = Ok s' /\ I (lo + n)%nat s'.
Proof.
  revert lo s. induction n as [|n IH]; intros lo s H0 Hstep; simpl.
  - exists s. split; [done|]. by replace (lo + 0)%nat with lo by lia.
  - destruct (Hstep lo s) as (s' & -> & H'); [lia|done|]. simpl.
    replace (lo + Datatypes.S n)%nat with (Datatypes.S lo + n)%nat by lia.
    apply IH; [done|]. intros i t Hi. apply Hstep. lia.
Qed.

Lemma for_down_inv {S} (I : nat -> S -> Prop) (body : nat -> S -> outcome S) n lo s :
  I (lo + n)%nat s ->
  (forall i s, (lo <= i < lo + n)%nat -> I (Datatypes.S i) s -> exists s', body i s = Ok s' /\ I i s') ->
  exists s', for_down n lo body s = Ok s' /\ I lo s'.
Proof.
  revert s. induction n as [|n IH]; intros s H0 Hstep; simpl.
  - exists s. split; [done|]. by replace lo with (lo + 0)%nat by lia.
  - destruct (Hstep (lo + n)%nat s) as (s' & -> & H'); [lia| |].
    { by replace (Datatypes.S (lo + n)) with (lo + Datatypes.S n)%nat by lia. }
    simpl. apply IH; [done|]. intros i t Hi. apply Hstep. lia.
Qed.

(** A loop whose body keeps [I] and lowers the measure [m] until it leaves
    with [Q] returns when its fuel exceeds the measure. *)
Lemma loop_inv {S R} (I : S -> Prop) (Q : R -> Prop) (m : S -> nat)
    (body : S -> outcome (S + R)) fuel s :
  I s -> (m s < fuel)%nat ->
  (forall s, I s -> (exists s', body s = Ok (inl s') /\ I s' /\ (m s' < m s)%nat)
                 \/ (exists r, body s = Ok (inr r) /\ Q r)) ->
  exists r, loop fuel body s = Ok r /\ Q r.
Proof.
  revert s. induction fuel as [|fuel IH]; intros s HI Hm Hstep; [lia|]. simpl.
  destruct (Hstep s HI) as [(s' & -> & HI' & Hlt)|(r & -> & HQ)]; simpl.
  - apply IH; [done|lia|done].
  - by exists r.
Qed.

(** ** Machine integers

    A value of type [u64], [u32] or [u8] is a [Z] in range, one of type [i64]
    or [i32] a [Z] in the signed range.  [uw w] and [sw w] are the casts
    [as uW] and [as iW]; every operation that can leave the range is followed
    by the cast that the source's [wrapping_*] call, or the release profile's
    plain operator, performs. *)
Definition uw (w z : Z) : Z := z mod 2 ^ w.
Definition sw (w z : Z) : Z := (z + 2 ^ (w - 1)) mod 2 ^ w - 2 ^ (w - 1).

Abbreviation u8 := (uw 8).
Abbreviation u32 := (uw 32).
Abbreviation u64 := (uw 64).
Abbreviation i32 := (sw 32).
Abbreviation i64 := (sw 64).

Definition is_u (w z : Z) : Prop := 0 <= z < 2 ^ w.
Definition is_s (w z : Z) : Prop := - 2 ^ (w - 1) <= z < 2 ^ (w - 1).

Abbreviation is_u8 := (is_u 8).
Abbreviation is_u32 := (is_u 32).
Abbreviation is_u64 := (is_u 64).
Abbreviation is_i32 := (is_s 32).
Abbreviation is_i64 := (is_s 64).

(** [wrapping_shl]/[wrapping_shr] on [u64] and [i64]: the shift count is taken
    modulo 64; the right shift of an [i64] is arithmetic. *)
Definition shl64 (x s : Z) : Z := u64 (Z.shiftl x (s mod 64)).
Definition shr64 (x s : Z) : Z := Z.shiftr x (s mod 64).
Definition ishl64 (x s : Z) : Z := i64 (Z.shiftl x (s mod 64)).
Definition ishr64 (x s : Z) : Z := Z.shiftr x (s mod 64).

(** [!x] on [u64]. *)
Definition not64 (x : Z) : Z := u64 (Z.lnot x).

Definition b2z (b : bool) : Z := if b then 1 else 0.

(** [u64::trailing_zeros], [u64::leading_zeros], [u64::count_ones]. *)
Fixpoint pos_tz (p : positive) : Z :=
  match p with xO p => 1 + pos_tz p | _ => 0 end.

Definition trailing_zeros (x : Z) : Z :=
  match x with Zpos p => pos_tz p | _ => 64 end.

Definition leading_zeros (x : Z) : Z := if x =? 0 then 64 else 63 - Z.log2 x.

Fixpoint pos_ones (p : positive) : Z :=
  match p with xH => 1 | xO p => pos_ones p | xI p => 1 + pos_ones p end.

Definition count_ones (x : Z) : Z :=
  match x with Zpos p => pos_ones p | _ => 0 end.

(** *** Casts *)

Lemma pow2_pos n : 0 <= n -> 0 < 2 ^ n.
Proof. intros. by apply Z.pow_pos_nonneg. Qed.

Lemma pow2_pred w : 0 < w -> 2 ^ w = 2 * 2 ^ (w - 1).
Proof. intros. rewrite <- Z.pow_succ_r by lia. f_equal. lia. Qed.

Lemma uw_range w z : 0 <= w -> is_u w (uw w z).
Proof. intros. apply Z.mod_pos_bound, pow2_pos. done. Qed.

Lemma sw_range w z : 0 < w -> is_s w (sw w z).
Proof.
  intros. unfold sw, is_s. pose proof (pow2_pred w).
  pose proof (Z.mod_pos_bound (z + 2 ^ (w - 1)) (2 ^ w) ltac:(by apply pow2_pos; lia)). lia.
Qed.

Lemma uw_small w z : is_u w z -> uw w z = z.
Proof. apply Z.mod_small. Qed.

Lemma sw_small w z : 0 < w -> is_s w z -> sw w z = z.
Proof.
  unfold sw, is_s. intros Hw Hz. pose proof (pow2_pred w Hw). rewrite Z.mod_small by lia. lia.
Qed.

Lemma sw_eq w z : 0 < w -> sw w z = uw w z \/ sw w z = uw w z - 2 ^ w.
Proof.
  intros Hw. unfold sw, uw. pose proof (pow2_pos w ltac:(lia)) as Hp. pose proof (pow2_pred w Hw) as Hq.
  pose proof (Z.mod_pos_bound z (2 ^ w) Hp).
  rewrite (Z.div_mod z (2 ^ w)) at 1 3 by lia.
  replace (2 ^ w * (z / 2 ^ w) + z mod 2 ^ w + 2 ^ (w - 1))
    with (z mod 2 ^ w + 2 ^ (w - 1) + (z / 2 ^ w) * 2 ^ w) by ring.
  rewrite Z.mod_add by lia.
  destruct (Z.lt_ge_cases (z mod 2 ^ w) (2 ^ (w - 1))).
  - rewrite Z.mod_small by lia. lia.
  - right. replace (z mod 2 ^ w + 2 ^ (w - 1)) with (z mod 2 ^ w - 2 ^ (w - 1) + 1 * 2 ^ w) by lia.
    rewrite Z.mod_add by lia. rewrite Z.mod_small by lia. lia.
Qed.

(** The signed value of a word: below the sign bit it is the word itself, from
    the sign bit on it is the word minus [2^w]. *)
Lemma sw_uw_cases w z : 0 < w ->
  sw w z = if uw w z <? 2 ^ (w - 1) then uw w z else uw w z - 2 ^ w.
Proof.
  intros Hw. pose proof (sw_range w z Hw) as Hr. pose proof (uw_range w z ltac:(lia)) as Hu.
  unfold is_s, is_u in *. pose proof (pow2_pred w Hw).
  destruct (sw_eq w z Hw); destruct (Z.ltb_spec (uw w z) (2 ^ (w - 1))); lia.
Qed.

Lemma uw_sw w z : 0 < w -> uw w (sw w z) = uw w z.
Proof.
  intros Hw. unfold uw at 1. destruct (sw_eq w z Hw) as [-> | ->]; unfold uw.
  - by rewrite Z.mod_mod by (pose proof (pow2_pos w); lia).
  - replace (z mod 2 ^ w - 2 ^ w) with (z mod 2 ^ w + (-1) * 2 ^ w) by lia.
    pose proof (pow2_pos w ltac:(lia)). by rewrite Z.mod_add, Z.mod_mod by lia.
Qed.

Lemma sw_uw w z : 0 < w -> sw w (uw w z) = sw w z.
Proof. intros Hw. unfold sw, uw. by rewrite Zplus_mod_idemp_l. Qed.

Lemma sw_congr w a b : uw w a = uw w b -> sw w a = sw w b.
Proof.
  unfold sw, uw. intros H. rewrite <- (Zplus_mod_idemp_l a), H, Zplus_mod_idemp_l. done.
Qed.

Lemma uw_idem w v z : 0 <= w <= v -> uw w (uw v z) = uw w z.
Proof.
  intros. unfold uw. replace v with (w + (v - w)) by lia. rewrite Z.pow_add_r by lia.
  pose proof (pow2_pos w ltac:(lia)). pose proof (pow2_pos (v - w) ltac:(lia)).
  rewrite Z.rem_mul_r by lia.
  rewrite Z.mul_comm, Z.mod_add by lia. by rewrite Z.mod_mod by lia.
Qed.

(** Shifting left and then arithmetically right keeps the low [w - s] bits as a
    signed number; logically right, as an unsigned one. *)
Lemma sw_shift w s z : 0 <= s < w -> Z.shiftr (sw w (Z.shiftl z s)) s = sw (w - s) z.
Proof.
  intros Hs. rewrite Z.shiftr_div_pow2, Z.shiftl_mul_pow2 by lia. unfold sw.
  pose proof (pow2_pos s ltac:(lia)). pose proof (pow2_pos (w - s) ltac:(lia)).
  replace (2 ^ w) with (2 ^ (w - s) * 2 ^ s) by (rewrite <- Z.pow_add_r by lia; f_equal; lia).
  replace (2 ^ (w - 1)) with (2 ^ (w - s - 1) * 2 ^ s) by (rewrite <- Z.pow_add_r by lia; f_equal; lia).
  rewrite <- Z.mul_add_distr_r, Z.mul_mod_distr_r by lia.
  rewrite <- Z.mul_sub_distr_r, Z.div_mul by lia. done.
Qed.

Lemma uw_shift w s z : 0 <= s <= w -> Z.shiftr (uw w (Z.shiftl z s)) s = uw (w - s) z.
Proof.
  intros Hs. rewrite Z.shiftr_div_pow2, Z.shiftl_mul_pow2 by lia. unfold uw.
  pose proof (pow2_pos s ltac:(lia)). pose proof (pow2_pos (w - s) ltac:(lia)).
  replace (2 ^ w) with (2 ^ (w - s) * 2 ^ s) by (rewrite <- Z.pow_add_r by lia; f_equal; lia).
  rewrite Z.mul_mod_distr_r by lia. by rewrite Z.div_mul by lia.
Qed.

(** *** Bits *)

Lemma testbit_uw w z i : 0 <= w -> Z.testbit (uw w z) i = (i <? w) && Z.testbit z i.
Proof. intros. by apply Z.testbit_mod_pow2. Qed.

Lemma testbit_above w z i : is_u w z -> 0 <= w <= i -> Z.testbit z i = false.
Proof.
  intros Hz Hi. rewrite <- (uw_small w z Hz), testbit_uw by lia.
  by destruct (Z.ltb_spec i w); [lia|].
Qed.

Lemma is_u_bits w z : 0 <= w -> 0 <= z -> (forall i, w <= i -> Z.testbit z i = false) -> is_u w z.
Proof.
  intros Hw Hz H. assert (z = uw w z) as ->; [|by apply uw_range].
  apply Z.bits_inj'. intros i Hi. rewrite testbit_uw by done.
  destruct (Z.ltb_spec i w); [done|]. rewrite H; done.
Qed.

Lemma land_is_u w a b : 0 <= w -> is_u w a -> 0 <= b -> is_u w (Z.land a b).
Proof.
  intros Hw Ha Hb. apply is_u_bits; [done|apply Z.land_nonneg; unfold is_u in *; lia|].
  intros i Hi. rewrite Z.land_spec, (testbit_above w a) by (done || lia). done.
Qed.

Lemma lor_is_u w a b : 0 <= w -> is_u w a -> is_u w b -> is_u w (Z.lor a b).
Proof.
  intros Hw Ha Hb. apply is_u_bits; [done|apply Z.lor_nonneg; unfold is_u in *; lia|].
  intros i Hi. rewrite Z.lor_spec, (testbit_above w a), (testbit_above w b) by (done || lia). done.
Qed.

Lemma lxor_is_u w a b : 0 <= w -> is_u w a -> is_u w b -> is_u w (Z.lxor a b).
Proof.
  intros Hw Ha Hb. apply is_u_bits; [done|apply Z.lxor_nonneg; unfold is_u in *; lia|].
  intros i Hi. rewrite Z.lxor_spec, (testbit_above w a), (testbit_above w b) by (done || lia). done.
Qed.

(** Disjoint bits add. *)
Lemma lor_add k a b : 0 <= k -> is_u k b -> Z.lor (Z.shiftl a k) b = a * 2 ^ k + b.
Proof.
  intros Hk Hb. rewrite <- Z.shiftl_mul_pow2 by done. apply Z.or_to_plus.
  apply Z.bits_inj'. intros i Hi. rewrite Z.land_spec, Z.bits_0, Z.shiftl_spec by done.
  destruct (Z.lt_ge_cases i k).
  - by rewrite Z.testbit_neg_r by lia.
  - rewrite (testbit_above k b) by (done || lia). apply andb_false_r.
Qed.

Lemma land_ones_uw w z : 0 <= w -> Z.land z (Z.ones w) = uw w z.
Proof. intros. by apply Z.land_ones. Qed.

(** The sign bit decides between the two readings of a word. *)
Lemma testbit_sign w z : 0 < w -> Z.testbit z (w - 1) = negb (uw w z <? 2 ^ (w - 1)).
Proof.
  intros Hw. pose proof (pow2_pred w Hw). pose proof (uw_range w z ltac:(lia)) as Hu.
  pose proof (pow2_pos (w - 1) ltac:(lia)).
  replace (Z.testbit z (w - 1)) with (Z.testbit (uw w z) (w - 1)).
  2:{ rewrite testbit_uw by lia. by destruct (Z.ltb_spec (w - 1) w); [|lia]. }
  unfold is_u in Hu. destruct (Z.ltb_spec (uw w z) (2 ^ (w - 1))); simpl.
  - apply (testbit_above (w - 1)); [unfold is_u|]; lia.
  - apply Z.testbit_true; [lia|].
    replace (uw w z / 2 ^ (w - 1)) with 1; [done|].
    apply (Z.div_unique _ _ _ (uw w z - 2 ^ (w - 1))); lia.
Qed.

Lemma sw_neg_iff w z : 0 < w -> (sw w z < 0 <-> Z.testbit z (w - 1) = true).
Proof.
  intros Hw. rewrite testbit_sign, sw_uw_cases by done.
  pose proof (uw_range w z ltac:(lia)) as Hu. unfold is_u in Hu.
  destruct (Z.ltb_spec (uw w z) (2 ^ (w - 1))); simpl; intuition (lia || discriminate).
Qed.

(** A word in range: its sign bit and its signed value. *)
Lemma word_cases w z : 0 < w -> is_u w z ->
  (z < 2 ^ (w - 1) /\ Z.testbit z (w - 1) = false /\ sw w z = z) \/
  (2 ^ (w - 1) <= z /\ Z.testbit z (w - 1) = true /\ sw w z = z - 2 ^ w).
Proof.
  intros Hw Hz. rewrite testbit_sign, sw_uw_cases, uw_small by done.
  destruct (Z.ltb_spec z (2 ^ (w - 1))); [left|right]; done.
Qed.

(** Sums and differences of words wrap at most once. *)
Lemma uw_add_cases w a b : 0 <= w -> is_u w a -> is_u w b ->
  uw w (a + b) = if a + b <? 2 ^ w then a + b else a + b - 2 ^ w.
Proof.
  unfold is_u, uw. intros Hw Ha Hb. destruct (Z.ltb_spec (a + b) (2 ^ w)).
  - apply Z.mod_small. lia.
  - symmetry. apply Z.mod_unique_pos with 1; lia.
Qed.

Lemma uw_sub_cases w a b : 0 <= w -> is_u w a -> is_u w b ->
  uw w (a - b) = if a <? b then a - b + 2 ^ w else a - b.
Proof.
  unfold is_u, uw. intros Hw Ha Hb. destruct (Z.ltb_spec a b).
  - symmetry. apply Z.mod_unique_pos with (-1); lia.
  - apply Z.mod_small. lia.
Qed.

(** Whether a mathematical result fits the signed range of a width. *)
Definition fits (w z : Z) : bool := (- 2 ^ (w - 1) <=? z) && (z <? 2 ^ (w - 1)).

Lemma uw_sw_le w v z : 0 <= w <= v -> 0 < v -> uw w (sw v z) = uw w z.
Proof. intros. rewrite <- (uw_idem w v (sw v z)), uw_sw, uw_idem by lia. done. Qed.

Lemma uw_neg_congr w a b : uw w a = uw w b -> uw w (- a - 1) = uw w (- b - 1).
Proof.
  unfold uw. intros E. replace (- a - 1) with (-1 - a) by lia. replace (- b - 1) with (-1 - b) by lia.
  by rewrite Zminus_mod, E, <- Zminus_mod.
Qed.

(** Bits of a signed value: the sign bit repeats. *)
Lemma testbit_sw w z i : 0 < w -> 0 <= i -> Z.testbit (sw w z) i = Z.testbit z (Z.min i (w - 1)).
Proof.
  intros Hw Hi. destruct (Z.lt_ge_cases i w) as [Hlt|Hge].
  - rewrite Z.min_l by lia. assert (Ht : forall x, Z.testbit x i = Z.testbit (uw w x) i).
    { intros x. rewrite testbit_uw by lia. by destruct (Z.ltb_spec i w); [|lia]. }
    by rewrite Ht, uw_sw, <- Ht by done.
  - rewrite Z.min_r by lia. pose proof (sw_range w z Hw) as Hr. unfold is_s in Hr.
    assert (2 ^ (w - 1) <= 2 ^ i) by (apply Z.pow_le_mono_r; lia).
    pose proof (sw_neg_iff w z Hw) as Hn. destruct (Z.testbit z (w - 1)).
    + apply Z.testbit_true; [done|]. replace (sw w z / 2 ^ i) with (-1); [done|].
      apply (Z.div_unique_pos _ _ _ (sw w z + 2 ^ i)); intuition lia.
    + apply Z.testbit_false; [done|]. rewrite Z.div_small; [done|].
      assert (~ sw w z < 0) by (intros ?%Hn; done). lia.
Qed.

Lemma uw_add_idem w v a b : 0 <= w <= v -> uw w (a + uw v b) = uw w (a + b).
Proof.
  intros. unfold uw at 1. rewrite <- Zplus_mod_idemp_r. fold (uw w (uw v b)).
  rewrite uw_idem by done. unfold uw. apply Zplus_mod_idemp_r.
Qed.

(** Shifting a word out entirely. *)
Lemma uw_shiftl_out w x s : 0 <= w <= s -> uw w (x * 2 ^ s) = 0.
Proof.
  intros. replace s with (s - w + w) by lia. rewrite Z.pow_add_r, Z.mul_assoc by lia. unfold uw.
  pose proof (pow2_pos w). apply Z.mod_mul. lia.
Qed.

Lemma div_pow_out w x s : 0 < w <= s -> is_u w x -> x / 2 ^ s = 0 /\ sw w x / 2 ^ s = - b2z (Z.testbit x (w - 1)).
Proof.
  intros Hs Hx. assert (2 ^ w <= 2 ^ s) by (apply Z.pow_le_mono_r; lia). pose proof (pow2_pred w ltac:(lia)).
  pose proof (pow2_pos (w - 1) ltac:(lia)).
  unfold is_u in Hx. split; [apply Z.div_small; lia|].
  destruct (word_cases w x ltac:(lia) Hx) as [(? & -> & ->)|(? & -> & ->)]; simpl.
  - apply Z.div_small. lia.
  - symmetry. apply (Z.div_unique_pos _ _ _ (x - 2 ^ w + 2 ^ s)); lia.
Qed.

(** *** Congruence of words *)

(** Integers with the same low [w] bits: coarser than equality, and preserved by
    the ring operations, so that casts of a wider type can be dropped by
    rewriting inside them. *)
Definition eqw (w a b : Z) : Prop := uw w a = uw w b.

Notation "a ≡⟨ w ⟩ b" := (eqw w a b) (at level 70, w at level 50) : rust_scope.

#[export] Instance eqw_equivalence w : Equivalence (eqw w).
Proof. unfold eqw. split; repeat intro; congruence. Qed.

#[export] Instance eqw_add w : Proper (eqw w ==> eqw w ==> eqw w) Z.add.
Proof. intros a a' E b b' F. unfold eqw, uw in *. by rewrite Zplus_mod, E, F, <- Zplus_mod. Qed.

#[export] Instance eqw_sub w : Proper (eqw w ==> eqw w ==> eqw w) Z.sub.
Proof. intros a a' E b b' F. unfold eqw, uw in *. by rewrite Zminus_mod, E, F, <- Zminus_mod. Qed.

#[export] Instance eqw_mul w : Proper (eqw w ==> eqw w ==> eqw w) Z.mul.
Proof. intros a a' E b b' F. unfold eqw, uw in *. by rewrite Zmult_mod, E, F, <- Zmult_mod. Qed.

#[export] Instance eqw_opp w : Proper (eqw w ==> eqw w) Z.opp.
Proof. intros a a' E. unfold eqw in *. rewrite <- (Z.sub_0_l a), <- (Z.sub_0_l a'). by apply eqw_sub. Qed.

#[export] Instance eqw_uw w : Proper (eqw w ==> eq) (uw w).
Proof. intros a a' E. exact E. Qed.

#[export] Instance eqw_sw w : Proper (eqw w ==> eq) (sw w).
Proof. intros a a' E. by apply sw_congr. Qed.

Lemma eqw_wider w v z : 0 <= w <= v -> (uw v z ≡⟨w⟩ z)%rust.
Proof. apply uw_idem. Qed.

Lemma eqw_signed w v z : 0 <= w <= v -> 0 < v -> (sw v z ≡⟨w⟩ z)%rust.
Proof. apply uw_sw_le. Qed.

(** Proves [uw w a = uw w b] where [a] and [b] are equal up to the casts in them. *)
Ltac word_ring :=
  match goal with |- uw ?w ?a = uw ?w ?b =>
    change (eqw w a b);
    repeat match goal with
    | |- context [uw ?v ?z] => rewrite (eqw_wider w v z) by lia
    | |- context [sw ?v ?z] => rewrite (eqw_signed w v z) by lia
    end; apply (f_equal (uw w)); unfold Z.lnot, Z.pred in *; ring
  end.

#[export] Hint Resolve uw_range sw_range pow2_pos : words.
#[export] Hint Rewrite uw_small using assumption : words.
