(* ===== verification/Bits.v ===== *)
(** The bit utilities at the end of [src/src/address.rs]: size masks, sign and
    zero extension, byte swapping, bit scans and the covering mask.  They are
    the vocabulary of the p-code behaviours and of the value-set analysis.
    Each is a total function; the loops are structural or run on fuel that
    their own counters bound. *)
From stdpp Require Import base list numbers.
From coqutil Require Import Z.bitblast Z.PushPullMod.
From Stdlib Require Import ZArith Lia.
From S2P Require Import Prelude.

(** ** Definitions *)

Definition UINTBMASKS : list Z :=
  [0; 0xff; 0xffff; 0xffffff; 0xffffffff; 0xffffffffff; 0xffffffffffff;
   0xffffffffffffff; 0xffffffffffffffff].

Definition calc_mask (size : Z) : Z :=
  nth (if u32 size <? 8 then Z.to_nat size else 8%nat) UINTBMASKS 0.

Definition calc_uint_max (size : Z) : Z := calc_mask size.

Definition calc_int_max (size : Z) : Z := Z.shiftr (calc_mask size) 1.

Definition calc_int_min (size : Z) : Z :=
  shl64 1 (u32 (i32 (i32 (size * 8) - 1))).

Definition pcode_right (val sa : Z) : Z :=
  if negb ((0 <=? sa) && (sa <? 64)) then 0 else Z.shiftr val sa.

Definition pcode_left (val sa : Z) : Z :=
  if negb ((0 <=? sa) && (sa <? 64)) then 0 else u64 (Z.shiftl val sa).

Definition minimalmask (val : Z) : Z :=
  if 0xffffffff <? val then 2 ^ 64 - 1
  else if 0xffff <? val then 0xffffffff
  else if 0xff <? val then 0xffff
  else 0xff.

(** [sign_extend]: [val] and the result are [i64]. *)
Definition sign_extend (val bit : Z) : Z :=
  let sa := u32 (i32 (64 - i32 (bit + 1))) in
  ishr64 (ishl64 val sa) sa.

Definition zero_extend (val bit : Z) : Z :=
  let sa := u32 (i32 (64 - i32 (bit + 1))) in
  i64 (shr64 (shl64 (u64 val) sa) sa).

Definition signbit_negative (val size : Z) : bool :=
  let mask := shl64 0x80 (u32 (i32 (8 * i32 (size - 1)))) in
  negb (Z.land val mask =? 0).

Definition uintb_negate (input size : Z) : Z :=
  Z.land (not64 input) (calc_mask size).

Definition sign_extend_size (input sizein sizeout : Z) : Z :=
  let sizein := if u32 sizein <? 8 then sizein else 8 in
  let sizeout := if u32 sizeout <? 8 then sizeout else 8 in
  let sval := i64 input in
  let sval := ishl64 sval (u32 (i32 ((8 - sizein) * 8))) in
  let res := u64 (ishr64 sval (u32 (i32 ((sizeout - sizein) * 8)))) in
  shr64 res (u32 (i32 ((8 - sizeout) * 8))).

Definition extend_signbit (val numbits size : Z) : Z :=
  if numbits <? i32 (size * 8) then
    let sa := u32 (i32 (64 - numbits)) in
    let sval := i64 val in
    let val := u64 (ishr64 (ishl64 sval sa) sa) in
    Z.land val (calc_mask size)
  else val.

(** [while size > 0] of [byte_swap_signed] and [byte_swap]: [size] rounds. *)
Fixpoint byte_swap_signed_loop (size : nat) (val res : Z) : Z :=
  match size with
  | O => res
  | S size =>
      let res := ishl64 res 8 in
      let res := Z.lor res (Z.land val 0xff) in
      byte_swap_signed_loop size (Z.shiftr val 8) res
  end.

Definition byte_swap_signed (val size : Z) : Z :=
  byte_swap_signed_loop (Z.to_nat size) val 0.

Fixpoint byte_swap_loop (size : nat) (val res : Z) : Z :=
  match size with
  | O => res
  | S size =>
      let res := shl64 res 8 in
      let res := Z.lor res (Z.land val 0xff) in
      byte_swap_loop size (Z.shiftr val 8) res
  end.

Definition byte_swap (val size : Z) : Z := byte_swap_loop (Z.to_nat size) val 0.

Definition leastsigbit_set (val : Z) : Z :=
  if val =? 0 then -1 else trailing_zeros val.

Definition mostsigbit_set (val : Z) : Z :=
  if val =? 0 then -1 else 63 - leading_zeros val.

Definition popcount (val : Z) : Z := count_ones val.

Definition count_leading_zeros (val : Z) : Z := leading_zeros val.

(** [while sz < 64 { res |= res >> sz; sz <<= 1 }]. *)
Fixpoint coveringmask_loop (fuel : nat) (res sz : Z) : Z :=
  match fuel with
  | O => res
  | S fuel =>
      if sz <? 64 then coveringmask_loop fuel (Z.lor res (Z.shiftr res sz)) (i32 (Z.shiftl sz 1))
      else res
  end.

(** [sz] takes the values 1, 2, 4, ..., 64: seven tests of the condition. *)
Definition coveringmask (val : Z) : Z := coveringmask_loop 7 val 1.

(** [for _ in 1..8 * sz]: at most [8 * sz - 1] rounds, left when [val] is 0. *)
Fixpoint bit_transitions_loop (rounds : nat) (val last res : Z) : Z :=
  match rounds with
  | O => res
  | S rounds =>
      let val := Z.shiftr val 1 in
      let cur := Z.land val 1 in
      let '(res, last) := if negb (cur =? last) then (res + 1, cur) else (res, last) in
      if val =? 0 then res else bit_transitions_loop rounds val last res
  end.

Definition bit_transitions (val sz : Z) : Z :=
  bit_transitions_loop (Z.to_nat (i32 (8 * sz) - 1)) val (Z.land val 1) 0.

(** ** Size masks *)

Lemma i32_small z : - 2 ^ 31 <= z < 2 ^ 31 -> i32 z = z.
Proof. intros. apply sw_small; [lia|]. unfold is_s. lia. Qed.

Lemma u32_small z : 0 <= z < 2 ^ 32 -> u32 z = z.
Proof. intros. by apply uw_small. Qed.

Lemma u64_small z : 0 <= z < 2 ^ 64 -> u64 z = z.
Proof. intros. by apply uw_small. Qed.

(** Removes the width casts of small values, leaving plain [Z] arithmetic. *)
Ltac nocast :=
  repeat match goal with
  | |- context [sw 32 ?z] => rewrite (i32_small z) by lia
  | |- context [uw 32 ?z] => rewrite (u32_small z) by lia
  | |- context [uw 64 ?z] => rewrite (u64_small z) by lia
  end.

(** Casts of a size between 0 and 8 by running through the nine values. *)
Ltac size_cases n :=
  let H := fresh in
  assert (H : n = 0 \/ n = 1 \/ n = 2 \/ n = 3 \/ n = 4 \/ n = 5 \/ n = 6 \/ n = 7 \/ n = 8) by lia;
  destruct H as [-> | [-> | [-> | [-> | [-> | [-> | [-> | [-> | ->]]]]]]]].

Lemma calc_mask_ones size : is_i32 size -> 0 <= size -> calc_mask size = Z.ones (8 * Z.min size 8).
Proof.
  unfold is_s. intros Hs H0. unfold calc_mask. rewrite u32_small by lia.
  destruct (Z.ltb_spec size 8).
  - size_cases size; reflexivity || lia.
  - by rewrite Z.min_r by lia.
Qed.

Lemma calc_mask_size size : 0 <= size <= 8 -> calc_mask size = Z.ones (8 * size).
Proof. intros. rewrite calc_mask_ones by (unfold is_s; lia). by rewrite Z.min_l by lia. Qed.

Lemma calc_mask_pow size : 0 <= size <= 8 -> calc_mask size = 2 ^ (8 * size) - 1.
Proof. intros. rewrite calc_mask_size by done. rewrite Z.ones_equiv. lia. Qed.

Lemma land_calc_mask z size : 0 <= size <= 8 -> Z.land z (calc_mask size) = uw (8 * size) z.
Proof. intros. rewrite calc_mask_size, land_ones_uw by lia. done. Qed.

(** Masking a 64-bit wrapped value is wrapping at the smaller width. *)
Lemma land_u64_calc_mask z size :
  0 <= size <= 8 -> Z.land (u64 z) (calc_mask size) = uw (8 * size) z.
Proof. intros. rewrite land_calc_mask by done. apply uw_idem. lia. Qed.

(** ** Sign and zero extension *)

(** C-level statement: the bits above [bit] become copies of it. *)
Lemma sign_extend_eq val bit : 0 <= bit < 64 -> sign_extend val bit = sw (bit + 1) val.
Proof.
  intros Hb. unfold sign_extend, ishr64, ishl64. nocast.
  rewrite Z.mod_small by lia. rewrite sw_shift by lia. f_equal. lia.
Qed.

Lemma zero_extend_eq val bit : 0 <= bit < 63 -> zero_extend val bit = uw (bit + 1) val.
Proof.
  intros Hb. unfold zero_extend, shr64, shl64. nocast.
  rewrite Z.mod_small by lia. rewrite uw_shift by lia.
  replace (64 - (64 - (bit + 1))) with (bit + 1) by lia.
  rewrite uw_idem by lia. apply sw_small; [lia|].
  pose proof (uw_range (bit + 1) val ltac:(lia)) as H. unfold is_u, is_s in *.
  pose proof (Z.pow_le_mono_r 2 (bit + 1) 63). lia.
Qed.

Lemma zero_extend_u64 val bit : 0 <= bit < 64 -> u64 (zero_extend val bit) = uw (bit + 1) val.
Proof.
  intros Hb. unfold zero_extend, shr64, shl64. nocast.
  rewrite uw_sw by lia. rewrite Z.mod_small by lia. rewrite uw_shift by lia.
  replace (64 - (64 - (bit + 1))) with (bit + 1) by lia.
  rewrite (uw_idem (bit + 1)) by lia. apply uw_small.
  pose proof (uw_range (bit + 1) val ltac:(lia)) as H. unfold is_u in *.
  pose proof (Z.pow_le_mono_r 2 (bit + 1) 64). lia.
Qed.

(** [sign_extend_size] reads the low [sizein] bytes as a signed number and
    writes it in [sizeout] bytes. *)
Lemma sign_extend_size_eq input sizein sizeout :
  1 <= sizein <= sizeout -> sizeout <= 8 ->
  sign_extend_size input sizein sizeout = uw (8 * sizeout) (sw (8 * sizein) input).
Proof.
  intros Hi Ho. unfold sign_extend_size, ishr64, ishl64, shr64. nocast.
  replace (if sizein <? 8 then sizein else 8) with sizein by (destruct (Z.ltb_spec sizein 8); lia).
  replace (if sizeout <? 8 then sizeout else 8) with sizeout by (destruct (Z.ltb_spec sizeout 8); lia).
  nocast. rewrite !Z.mod_small by lia.
  (* the value after the first shift is the signed low part, shifted up *)
  set (a := (8 - sizein) * 8). set (b := (8 - sizeout) * 8).
  replace ((sizeout - sizein) * 8) with (a - b) by lia.
  assert (E : i64 (Z.shiftl (i64 input) a) = Z.shiftl (sw (8 * sizein) input) a).
  { replace (8 * sizein) with (64 - a) by lia. rewrite <- (sw_shift 64 a input) by lia.
    rewrite (sw_congr 64 (Z.shiftl (i64 input) a) (Z.shiftl input a)).
    2:{ unfold uw. rewrite !Z.shiftl_mul_pow2 by lia. rewrite <- Z.mul_mod_idemp_l by lia.
        change (i64 input mod 2 ^ 64) with (u64 (i64 input)). rewrite uw_sw by lia.
        unfold uw. by rewrite Z.mul_mod_idemp_l by lia. }
    rewrite Z.shiftl_mul_pow2, Z.shiftr_div_pow2 by lia.
    pose proof (pow2_pos a ltac:(lia)).
    rewrite Z.shiftl_mul_pow2 by lia. rewrite (Z.mul_comm (i64 (input * 2 ^ a) / 2 ^ a)).
    apply Z.div_exact; [lia|]. unfold sw.
    replace (2 ^ 64) with (2 ^ (64 - a) * 2 ^ a) by (rewrite <- Z.pow_add_r by lia; f_equal; lia).
    replace (2 ^ (64 - 1)) with (2 ^ (64 - a - 1) * 2 ^ a) by (rewrite <- Z.pow_add_r by lia; f_equal; lia).
    rewrite <- Z.mul_add_distr_r, Z.mul_mod_distr_r, <- Z.mul_sub_distr_r by lia.
    by apply Z.mod_mul; lia. }
  rewrite E.
  replace (Z.shiftr (Z.shiftl (sw (8 * sizein) input) a) (a - b)) with (Z.shiftl (sw (8 * sizein) input) b).
  2:{ rewrite Z.shiftr_shiftl_l by lia. f_equal. lia. }
  rewrite uw_shift by lia. f_equal. lia.
Qed.

(** The sign-bit mask of a size selects the top bit. *)
Lemma land_signmask val size : 1 <= size <= 8 ->
  Z.land val (shl64 0x80 (u32 (i32 (8 * i32 (size - 1))))) =
  if Z.testbit val (8 * size - 1) then 2 ^ (8 * size - 1) else 0.
Proof.
  intros Hs. unfold shl64. nocast. rewrite Z.mod_small by lia.
  change 0x80 with (2 ^ 7). rewrite Z.shiftl_mul_pow2, <- Z.pow_add_r by lia.
  replace (7 + 8 * (size - 1)) with (8 * size - 1) by lia.
  rewrite u64_small.
  2:{ split; [apply Z.pow_nonneg; lia|]. apply Z.pow_lt_mono_r; lia. }
  apply Z.bits_inj'. intros i Hi. rewrite Z.land_spec, Z.pow2_bits_eqb by lia.
  destruct (Z.testbit val (8 * size - 1)) eqn:T.
  - rewrite Z.pow2_bits_eqb by lia. destruct (Z.eqb_spec (8 * size - 1) i); [subst; by rewrite T|apply andb_false_r].
  - rewrite Z.bits_0. destruct (Z.eqb_spec (8 * size - 1) i); [subst; by rewrite T|apply andb_false_r].
Qed.

Lemma signbit_negative_eq val size : 1 <= size <= 8 ->
  signbit_negative val size = Z.testbit val (8 * size - 1).
Proof.
  intros Hs. unfold signbit_negative. rewrite land_signmask by done. destruct (Z.testbit _ _); [|done].
  pose proof (pow2_pos (8 * size - 1) ltac:(lia)). by destruct (Z.eqb_spec (2 ^ (8 * size - 1)) 0); [lia|].
Qed.

Lemma uintb_negate_eq input size : 0 <= size <= 8 ->
  uintb_negate input size = uw (8 * size) (- input - 1).
Proof.
  intros. unfold uintb_negate, not64. rewrite land_u64_calc_mask by done. done.
Qed.

(** ** Byte swapping *)

(** The low [n] bytes of a word, least significant first, and the number that
    a list of bytes spells with the most significant byte first. *)
Fixpoint le_bytes (n : nat) (val : Z) : list Z :=
  match n with O => [] | S n => u8 val :: le_bytes n (Z.shiftr val 8) end.

Definition be_val (l : list Z) : Z := fold_left (fun acc b => acc * 2 ^ 8 + b) l 0.

Lemma be_val_app l b : be_val (l ++ [b]) = be_val l * 2 ^ 8 + b.
Proof. unfold be_val. by rewrite fold_left_app. Qed.

Lemma be_val_range l : Forall is_u8 l -> 0 <= be_val l < 2 ^ (8 * Z.of_nat (length l)).
Proof.
  induction l as [|b l IH] using rev_ind; [done|]. rewrite be_val_app, length_app. simpl.
  intros [Hl Hb]%Forall_app. rewrite Forall_singleton in Hb. unfold is_u in Hb.
  specialize (IH Hl). replace (8 * Z.of_nat (length l + 1)) with (8 * Z.of_nat (length l) + 8) by lia.
  rewrite Z.pow_add_r by lia. lia.
Qed.

Lemma le_bytes_u8 n val : Forall is_u8 (le_bytes n val).
Proof. revert val. induction n; simpl; constructor; auto. by apply uw_range. Qed.

Lemma le_bytes_length n val : length (le_bytes n val) = n.
Proof. revert val. induction n; simpl; auto. Qed.

Lemma byte_swap_loop_eq n : forall val l, (n + length l <= 8)%nat -> Forall is_u8 l ->
  byte_swap_loop n val (be_val l) = be_val (l ++ le_bytes n val).
Proof.
  induction n as [|n IH]; intros val l Hn Hl; simpl; [by rewrite app_nil_r|].
  pose proof (be_val_range l Hl) as Hr.
  replace (Z.lor (shl64 (be_val l) 8) (Z.land val 255)) with (be_val (l ++ [u8 val])).
  - rewrite (IH (Z.shiftr val 8)); [by rewrite <- app_assoc|rewrite length_app; simpl; lia|].
    apply Forall_app. split; [done|]. constructor; [by apply uw_range|constructor].
  - rewrite be_val_app. change 255 with (Z.ones 8). rewrite land_ones_uw by lia.
    unfold shl64. rewrite (Z.mod_small 8) by lia. rewrite u64_small.
    + rewrite lor_add; [done|lia|by apply uw_range].
    + rewrite Z.shiftl_mul_pow2 by lia.
      pose proof (Z.pow_le_mono_r 2 (8 * Z.of_nat (length l)) 56). lia.
Qed.

Lemma byte_swap_eq val size : 0 <= size <= 8 ->
  byte_swap val size = be_val (le_bytes (Z.to_nat size) val).
Proof. intros. apply (byte_swap_loop_eq _ _ []); [simpl; lia|constructor]. Qed.

Lemma le_bytes_app l b n : length l = n -> Forall is_u8 (l ++ [b]) ->
  le_bytes (S n) (be_val (l ++ [b])) = b :: le_bytes n (be_val l).
Proof.
  intros Hn [Hl Hb]%Forall_app. rewrite Forall_singleton in Hb. unfold is_u in Hb.
  cbn [le_bytes]. rewrite be_val_app. f_equal.
  - unfold uw. rewrite Z.add_comm, Z.mod_add by lia. apply Z.mod_small. lia.
  - f_equal. rewrite Z.shiftr_div_pow2 by lia. rewrite Z.add_comm, Z.div_add by lia.
    rewrite Z.div_small by lia. lia.
Qed.

Lemma le_bytes_be_val l : Forall is_u8 l -> le_bytes (length l) (be_val l) = rev l.
Proof.
  induction l as [|b l IH] using rev_ind; [done|]. intros H.
  rewrite length_app, Nat.add_comm. simpl Nat.add. rewrite le_bytes_app by done.
  rewrite rev_app_distr. simpl. f_equal. apply IH. by apply Forall_app in H as [].
Qed.

(** Reading the bytes back most significant first restores the value. *)
Lemma be_val_rev_le_bytes n val : be_val (rev (le_bytes n val)) = uw (8 * Z.of_nat n) val.
Proof.
  revert val. induction n as [|n IH]; intros val; simpl.
  - unfold uw. change (2 ^ 0) with 1. by rewrite Z.mod_1_r.
  - rewrite be_val_app, IH. unfold uw. rewrite Z.shiftr_div_pow2 by lia.
    replace (8 * Z.of_nat (S n)) with (8 + 8 * Z.of_nat n) by lia.
    pose proof (pow2_pos (8 * Z.of_nat n) ltac:(lia)).
    rewrite Z.pow_add_r, Z.rem_mul_r by lia. lia.
Qed.

(** Swapping the bytes twice gives the word back. *)
Theorem byte_swap_involutive val size :
  0 <= size <= 8 -> 0 <= val < 2 ^ (8 * size) -> byte_swap (byte_swap val size) size = val.
Proof.
  intros Hs Hv. rewrite !byte_swap_eq by done.
  replace (Z.to_nat size) with (length (le_bytes (Z.to_nat size) val)) at 1 by apply le_bytes_length.
  rewrite le_bytes_be_val by apply le_bytes_u8. rewrite be_val_rev_le_bytes.
  rewrite Z2Nat.id by lia. by apply uw_small.
Qed.

(** ** Bit scans *)

Lemma log2_u64 val : 0 < val < 2 ^ 64 -> 0 <= Z.log2 val < 64.
Proof. intros. split; [apply Z.log2_nonneg|]. apply Z.log2_lt_pow2; lia. Qed.

Lemma mostsigbit_set_eq val : 0 < val -> mostsigbit_set val = Z.log2 val.
Proof.
  intros. unfold mostsigbit_set, leading_zeros. destruct (Z.eqb_spec val 0); lia.
Qed.

Lemma pos_tz_spec p :
  0 <= pos_tz p /\ Z.testbit (Zpos p) (pos_tz p) = true /\
  forall i, 0 <= i < pos_tz p -> Z.testbit (Zpos p) i = false.
Proof.
  induction p as [p IH|p IH|]; simpl pos_tz; [split; [lia|split; [done|lia]]| |split; [lia|split; [done|lia]]].
  destruct IH as (H0 & H1 & H2). split; [lia|]. rewrite (Pos2Z.inj_xO p). split.
  - replace (1 + pos_tz p) with (Z.succ (pos_tz p)) by lia.
    by rewrite Z.double_bits_succ.
  - intros i Hi. destruct (Z.eq_dec i 0) as [->|]; [by rewrite Z.testbit_even_0|].
    replace i with (Z.succ (i - 1)) by lia. rewrite Z.double_bits_succ. apply H2. lia.
Qed.

Lemma leastsigbit_set_spec val : 0 < val ->
  0 <= leastsigbit_set val /\ Z.testbit val (leastsigbit_set val) = true /\
  forall i, 0 <= i < leastsigbit_set val -> Z.testbit val i = false.
Proof.
  intros Hv. unfold leastsigbit_set. destruct val as [|p|p]; try lia. apply pos_tz_spec.
Qed.

(** One round of [coveringmask]: if [res] at [i] says whether some bit of [val]
    is set in [i .. i + sz - 1], the next [res] says it for [2 * sz] bits. *)
Definition covers (val res sz : Z) : Prop :=
  forall i, 0 <= i -> (Z.testbit res i = true <-> exists j, i <= j < i + sz /\ Z.testbit val j = true).

Lemma covers_step val res sz : 0 < sz -> covers val res sz -> covers val (Z.lor res (Z.shiftr res sz)) (2 * sz).
Proof.
  intros Hs H i Hi. rewrite Z.lor_spec, Z.shiftr_spec, orb_true_iff by done.
  rewrite (H i Hi), (H (i + sz)) by lia. split.
  - intros [(j & Hj & T)|(j & Hj & T)]; exists j; (split; [lia|done]).
  - intros (j & Hj & T). destruct (Z.lt_ge_cases j (i + sz)); [left|right]; exists j; (split; [lia|done]).
Qed.

Lemma coveringmask_covers val : covers val (coveringmask val) 64.
Proof.
  assert (covers val val 1) as H1.
  { intros i Hi. split; [intros; exists i; split; [lia|done]|].
    intros (j & Hj & T). by replace i with j by lia. }
  assert (64 = 2 * (2 * (2 * (2 * (2 * (2 * 1)))))) as -> by done.
  unfold coveringmask. simpl coveringmask_loop.
  repeat (apply covers_step; [lia|]). done.
Qed.

Lemma coveringmask_eq val : 0 < val < 2 ^ 64 -> coveringmask val = Z.ones (Z.log2 val + 1).
Proof.
  intros Hv. pose proof (log2_u64 val Hv). apply Z.bits_inj'. intros i Hi.
  apply eq_true_iff_eq. rewrite (coveringmask_covers val i Hi). split.
  - intros (j & Hj & T). rewrite Z.testbit_ones_nonneg by lia. apply Z.ltb_lt.
    destruct (Z.lt_ge_cases i (Z.log2 val + 1)); [done|].
    rewrite (Z.bits_above_log2 val j) in T by lia. done.
  - rewrite Z.testbit_ones_nonneg by lia. intros ?%Z.ltb_lt. exists (Z.log2 val).
    split; [lia|]. apply Z.bit_log2. lia.
Qed.

(** The number of positions [lo <= i < lo + n] where bits [i] and [i+1] differ. *)
Fixpoint flips (n : nat) (lo val : Z) : Z :=
  match n with
  | O => 0
  | S n => b2z (xorb (Z.testbit val lo) (Z.testbit val (lo + 1))) + flips n (lo + 1) val
  end.

Lemma flips_shift n lo val : 0 <= lo -> flips n lo (Z.shiftr val 1) = flips n (lo + 1) val.
Proof.
  revert lo. induction n as [|n IH]; intros lo Hlo; cbn [flips]; [done|].
  rewrite !Z.shiftr_spec by lia. by rewrite IH by lia.
Qed.

Lemma flips_0 n lo : flips n lo 0 = 0.
Proof. revert lo. induction n as [|n IH]; intros lo; cbn [flips]; [done|]. by rewrite !Z.bits_0, IH. Qed.

Lemma land_1 x : Z.land x 1 = b2z (Z.testbit x 0).
Proof.
  change (Z.land x 1) with (Z.land x (Z.ones 1)). rewrite Z.land_ones by lia.
  change (2 ^ 1) with 2. rewrite Zmod_odd, Z.bit0_odd. by destruct (Z.odd x).
Qed.

Lemma bit_transitions_loop_eq n : forall val res,
  bit_transitions_loop n val (Z.land val 1) res = res + flips n 0 val.
Proof.
  induction n as [|n IH]; intros val res; cbn [bit_transitions_loop flips]; [lia|].
  set (v := Z.shiftr val 1).
  assert (E : Z.testbit v 0 = Z.testbit val (0 + 1)) by (unfold v; by rewrite Z.shiftr_spec).
  assert (F : flips n (0 + 1) val = flips n 0 v) by (unfold v; by rewrite flips_shift).
  rewrite F. rewrite !land_1, E.
  destruct (Z.testbit val 0) eqn:T0, (Z.testbit val (0 + 1)) eqn:T1; cbn [b2z xorb];
    try change (negb (1 =? 1)) with false; try change (negb (0 =? 0)) with false;
    try change (negb (1 =? 0)) with true; try change (negb (0 =? 1)) with true; cbv iota;
    destruct (Z.eqb_spec v 0) as [V|V]; try (rewrite V, flips_0; lia).
  all: try (specialize (IH v); rewrite land_1, E in IH; cbn [b2z] in IH; rewrite IH; lia).
Qed.

Lemma bit_transitions_eq val sz : 0 <= sz < 2 ^ 28 ->
  bit_transitions val sz = flips (Z.to_nat (8 * sz - 1)) 0 val.
Proof. intros. unfold bit_transitions. nocast. rewrite bit_transitions_loop_eq. lia. Qed.
