(* ===== verification/Multiprecision.v ===== *)
(** [src/src/multiprecision.rs]: 128-bit arithmetic on little-endian pairs of
    [u64], the base of the division-by-multiplication rules.  Array accesses
    are checked, so a theorem that a call returns [Ok] also says that no index
    is out of range.  The main result is that [udiv128], which runs Knuth's
    Algorithm D on 32-bit limbs, returns the quotient and the remainder. *)
From stdpp Require Import base list numbers strings.
From Stdlib Require Import ZArith Lia.
From S2P Require Import Prelude Bits.

(** ** Definitions *)

(** Subtraction of [usize]: below zero it overflows, and every use here then
    indexes with the result. *)
Definition usub (a b : nat) : outcome nat :=
  if decide (b <= a)%nat then Ok (a - b)%nat else Panic.

(** An [i32] used as an index with [as usize]: negative values are huge. *)
Definition indexi {A} (l : list A) (i : Z) : outcome A :=
  if i <? 0 then Panic else index l (Z.to_nat i).

Definition storei {A} (l : list A) (i : Z) (x : A) : outcome (list A) :=
  if i <? 0 then Panic else store l (Z.to_nat i) x.

(** [while out_index >= 0 { output\[out_index\] = 0; out_index -= 1 }]. *)
Definition zero_fill (num : nat) (output : list Z) (out_index : Z) : outcome (list Z) :=
  loop (S num) (fun '(output, out_index) =>
    if out_index >=? 0 then
      let! output := storei output out_index 0 in
      Ok (inl (output, out_index - 1))
    else Ok (inr output)) (output, out_index).

Definition leftshift (num : nat) (input output : list Z) (shift_amount : Z) : outcome (list Z) :=
  let in_index := i32 (Z.of_nat num - 1 - Z.quot shift_amount 64) in
  let shift := Z.rem shift_amount 64 in
  let out_index := Z.of_nat num - 1 in
  if shift =? 0 then
    let! (output, out_index) :=
      loop (S num) (fun '(output, out_index, in_index) =>
        if in_index >=? 0 then
          let! x := indexi input in_index in
          let! output := storei output out_index x in
          Ok (inl (output, out_index - 1, in_index - 1))
        else Ok (inr (output, out_index))) (output, out_index, in_index) in
    zero_fill num output out_index
  else
    let! (output, out_index) :=
      loop (S num) (fun '(output, out_index, in_index) =>
        if in_index >? 0 then
          let! x := indexi input in_index in
          let! y := indexi input (in_index - 1) in
          let! output := storei output out_index (Z.lor (shl64 x shift) (shr64 y (64 - shift))) in
          Ok (inl (output, out_index - 1, in_index - 1))
        else Ok (inr (output, out_index))) (output, out_index, in_index) in
    let! x := index input 0 in
    let! output := storei output out_index (shl64 x shift) in
    zero_fill num output (out_index - 1).

Definition leftshift128 (input : list Z) (shift_amount : Z) : outcome (list Z) :=
  leftshift 2 input [0; 0] shift_amount.

(** [for slot in (0..num).rev()] with an early return. *)
Fixpoint ucompare (num : nat) (first second : list Z) : outcome Z :=
  match num with
  | O => Ok 0
  | S slot =>
      let! a := index first slot in
      let! b := index second slot in
      if negb (a =? b) then Ok (if a <? b then -1 else 1)
      else ucompare slot first second
  end.

Definition uless128 (first second : list Z) : outcome bool :=
  let! c := ucompare 2 first second in Ok (c <? 0).

Definition ulessequal128 (first second : list Z) : outcome bool :=
  let! c := ucompare 2 first second in Ok (c <=? 0).

Definition add (num : nat) (first second output : list Z) : outcome (list Z) :=
  let! (output, _) :=
    for_up num 0 (fun slot '(output, carry) =>
      let! s := index second slot in
      let! f := index first slot in
      let tmp := u64 (s + carry) in
      let tmp2 := u64 (f + tmp) in
      let! output := store output slot tmp2 in
      Ok (output, if (tmp <? s) || (tmp2 <? tmp) then 1 else 0)) (output, 0) in
  Ok output.

Definition add128 (first second : list Z) : outcome (list Z) := add 2 first second [0; 0].

Definition subtract (num : nat) (first second output : list Z) : outcome (list Z) :=
  let! (output, _) :=
    for_up num 0 (fun slot '(output, borrow) =>
      let! s := index second slot in
      let! f := index first slot in
      let tmp := u64 (s + borrow) in
      let borrow := if (tmp <? s) || (f <? tmp) then 1 else 0 in
      let! output := store output slot (u64 (f - tmp)) in
      Ok (output, borrow)) (output, 0) in
  Ok output.

Definition subtract128 (first second : list Z) : outcome (list Z) := subtract 2 first second [0; 0].

Definition split64_32 (num : nat) (val res : list Z) : outcome (list Z * Z) :=
  for_up num 0 (fun slot '(res, count) =>
    let! v := index val slot in
    let hi := u32 (Z.shiftr v 32) in
    let lo := u32 (Z.land v 0xffffffff) in
    let count := if negb (hi =? 0) then Z.of_nat slot * 2 + 2
                 else if negb (lo =? 0) then Z.of_nat slot * 2 + 1 else count in
    let! res := store res (slot * 2) lo in
    let! res := store res (slot * 2 + 1) hi in
    Ok (res, count)) (res, 0).

Definition pack32_64 (num : nat) (max : Z) (output input : list Z) : outcome (list Z) :=
  let! (output, _) :=
    for_down num 0 (fun slot '(output, pos) =>
      let! val := if pos <? max then indexi input pos else Ok 0 in
      let val := u64 (Z.shiftl val 32) in
      let pos := pos - 1 in
      let! val := if pos <? max then let! w := indexi input pos in Ok (Z.lor val w) else Ok val in
      let pos := pos - 1 in
      let! output := store output slot val in
      Ok (output, pos)) (output, Z.of_nat num * 2 - 1) in
  Ok output.

(** [u32] shifts by an in-range count. *)
Definition shl32 (x s : Z) : Z := u32 (Z.shiftl x (s mod 32)).
Definition shr32 (x s : Z) : Z := Z.shiftr x (s mod 32).

Definition shift_left (arr : list Z) (size : nat) (shift : Z) : outcome (list Z) :=
  if shift =? 0 then Ok arr else
  let! arr := for_down (size - 1) 1 (fun slot arr =>
    let! x := index arr slot in
    let! y := index arr (slot - 1) in
    store arr slot (Z.lor (shl32 x shift) (shr32 y (32 - shift)))) arr in
  let! x := index arr 0 in
  store arr 0 (shl32 x shift).

Definition shift_right (arr : list Z) (size : nat) (shift : Z) : outcome (list Z) :=
  if shift =? 0 then Ok arr else
  let! size1 := usub size 1 in
  let! arr := for_up size1 0 (fun slot arr =>
    let! x := index arr slot in
    let! y := index arr (slot + 1) in
    store arr slot (Z.lor (shr32 x shift) (shl32 y (32 - shift)))) arr in
  let! x := index arr size1 in
  store arr size1 (shr32 x shift).

(** The correction loop on the trial digit.  [rhat] grows by [top >= 2^31] in
    each round and the loop is left when it exceeds 32 bits: two rounds. *)
Definition trial_digit (qhat rhat top v2 u2 : Z) : outcome Z :=
  loop 3 (fun '(qhat, rhat) =>
    if (qhat <=? 0xffffffff) && (u64 (qhat * v2) <=? u64 (u64 (Z.shiftl rhat 32) + u2))
    then Ok (inr qhat)
    else
      let qhat := u64 (qhat - 1) in
      let rhat := u64 (rhat + top) in
      if rhat >? 0xffffffff then Ok (inr qhat) else Ok (inl (qhat, rhat))) (qhat, rhat).

(** Subtracts [qhat] times the divisor from the limbs at [position]. *)
Definition mulsub (denom_len position : nat) (qhat : Z) (numer denom : list Z) : outcome (list Z * Z) :=
  for_up denom_len 0 (fun slot '(numer, carry) =>
    let! d := index denom slot in
    let! x := index numer (slot + position) in
    let tmp := u64 (qhat * d) in
    let signed_tmp := i64 (u64 (u64 (x - carry) - Z.land tmp 0xffffffff)) in
    let! numer := store numer (slot + position) (u32 signed_tmp) in
    Ok (numer, u64 (Z.shiftr tmp 32 - u64 (Z.shiftr signed_tmp 32)))) (numer, 0).

(** Adds the divisor back to the limbs at [position]. *)
Definition addback (denom_len position : nat) (numer denom : list Z) : outcome (list Z * Z) :=
  for_up denom_len 0 (fun slot '(numer, carry) =>
    let! x := index numer (slot + position) in
    let! d := index denom slot in
    let tmp := u64 (x + u64 (d + carry)) in
    let! numer := store numer (slot + position) (u32 tmp) in
    Ok (numer, Z.shiftr tmp 32)) (numer, 0).

(** The trial digit for [position], from the leading limbs. *)
Definition trial_quotient (denom_len : nat) (top : Z) (numer denom : list Z) (position : nat) : outcome Z :=
  let! d1 := usub denom_len 1 in
  let! d2 := usub denom_len 2 in
  let! u0 := index numer (denom_len + position) in
  let! u1 := index numer (d1 + position) in
  let tmp := u64 (Z.shiftl u0 32 + u1) in
  if top =? 0 then Panic else
  let! v2 := index denom d2 in
  let! u2 := index numer (d2 + position) in
  trial_digit (tmp / top) (tmp mod top) top v2 u2.

(** The repair of a digit that was one too large. *)
Definition addback_digit (denom_len position : nat) (numer denom : list Z) : outcome (list Z) :=
  let! (numer, carry) := addback denom_len position numer denom in
  let! x := index numer (position + denom_len) in
  store numer (position + denom_len) (u32 (x + u32 carry)).

(** One digit of the quotient: the body of [for position in ...rev()]. *)
Definition knuth_step (denom_len : nat) (top : Z) (denom : list Z) (position : nat)
    '((numer, quotient) : list Z * list Z) : outcome (list Z * list Z) :=
  let! qhat := trial_quotient denom_len top numer denom position in
  let! (numer, carry) := mulsub denom_len position qhat numer denom in
  let! x := index numer (position + denom_len) in
  let signed_tmp := i64 (u64 (x - carry)) in
  let! numer := store numer (position + denom_len) (u32 signed_tmp) in
  let! quotient := store quotient position (u32 qhat) in
  if signed_tmp <? 0 then
    let! q := index quotient position in
    let! quotient := store quotient position (u32 (q - 1)) in
    let! numer := addback_digit denom_len position numer denom in
    Ok (numer, quotient)
  else Ok (numer, quotient).

Definition knuth_algorithm_d (numer_len denom_len : nat) (numer denom quotient : list Z) :
    outcome (list Z * list Z * list Z) :=
  let! d1 := usub denom_len 1 in
  let! d := index denom d1 in
  let shift := leading_zeros d - 32 in
  let! denom := shift_left denom denom_len shift in
  let! numer := shift_left numer numer_len shift in
  let! top := index denom d1 in
  let! digits := usub numer_len denom_len in
  let! (numer, quotient) := for_down digits 0 (knuth_step denom_len top denom) (numer, quotient) in
  let! numer := shift_right numer numer_len shift in
  Ok (numer, denom, quotient).

(** [for slot in (0..numer_len).rev()] of the one-limb divisor. *)
Definition short_divide (numer_len : nat) (divisor : Z) (numer quotient : list Z) :
    outcome (list Z * list Z * Z) :=
  for_down numer_len 0 (fun slot '(numer, quotient, rem) =>
    let! x := index numer slot in
    let tmp := u64 (u64 (Z.shiftl rem 32) + x) in
    if divisor =? 0 then Panic else
    let! quotient := store quotient slot (u32 (tmp / divisor)) in
    let! numer := store numer slot 0 in
    Ok (numer, quotient, tmp mod divisor)) (numer, quotient, 0).

Definition udiv128 (numer denom : list Z) : outcome (list Z * list Z) :=
  let! n0 := index numer 0 in
  let! n1 := index numer 1 in
  let! d0 := index denom 0 in
  let! d1 := index denom 1 in
  if (n1 =? 0) && (d1 =? 0) then
    if d0 =? 0 then Err (Lowlevel "divide by 0")
    else Ok ([n0 / d0; 0], [n0 mod d0; 0])
  else
  let! (denom_words, denom_len) := split64_32 2 denom [0; 0; 0; 0] in
  if denom_len =? 0 then Err (Lowlevel "divide by 0") else
  let! (numer_words, numer_len) := split64_32 2 numer [0; 0; 0; 0; 0] in
  let! smaller :=
    if numer_len <? denom_len then Ok true
    else if denom_len =? numer_len then
      let! a := indexi numer_words (denom_len - 1) in
      let! b := indexi denom_words (denom_len - 1) in
      Ok (a <? b)
    else Ok false in
  if (smaller : bool) then Ok ([0; 0], [n0; n1])
  else
  let! (numer_words, quotient_words) :=
    if denom_len =? 1 then
      let! divisor := index denom_words 0 in
      let! (numer_words, quotient_words, rem) :=
        short_divide (Z.to_nat numer_len) divisor numer_words [0; 0; 0; 0] in
      let! numer_words := store numer_words 0 (u32 rem) in
      Ok (numer_words, quotient_words)
    else
      let! numer_words := storei numer_words numer_len 0 in
      let! (numer_words, _, quotient_words) :=
        knuth_algorithm_d (Z.to_nat (numer_len + 1)) (Z.to_nat denom_len) numer_words denom_words [0; 0; 0; 0] in
      Ok (numer_words, quotient_words) in
  let! quotient := pack32_64 2 (numer_len - denom_len + 1) [0; 0] quotient_words in
  let! remainder := pack32_64 2 numer_len [0; 0] numer_words in
  Ok (quotient, remainder).

Definition set_u128 (val : Z) : list Z := [val; 0].

Example udiv128_ex :
  udiv128 [0x123456789abcdef0; 0xfedcba9876543210] [0xdeadbeefcafebabe; 0x0000000012345678]
  = let n := 0x123456789abcdef0 + 2 ^ 64 * 0xfedcba9876543210 in
    let d := 0xdeadbeefcafebabe + 2 ^ 64 * 0x12345678 in
    Ok ([(n / d) mod 2 ^ 64; (n / d) / 2 ^ 64], [(n mod d) mod 2 ^ 64; (n mod d) / 2 ^ 64]).
Proof. vm_compute. reflexivity. Qed.

(** ** Values of limb arrays *)

Notation limb l i := (nth i l 0).

(** [sval b l s n] is the number spelled by the [n] digits of [l] from index
    [s], least significant first, in base [b]. *)
Fixpoint sval (b : Z) (l : list Z) (s n : nat) : Z :=
  match n with
  | O => 0
  | S n => sval b l s n + limb l (s + n) * b ^ Z.of_nat n
  end.

Abbreviation B32 := (2 ^ 32).
Abbreviation B64 := (2 ^ 64).
Abbreviation val32 := (sval B32).
Abbreviation val64 := (sval B64).

(** The number a 128-bit pair stands for. *)
Definition value (l : list Z) : Z := val64 l 0 2.

(** An argument of type [&[u64; 2]]. *)
Definition is_u128 (l : list Z) : Prop := length l = 2%nat /\ Forall is_u64 l.

Lemma limb_insert_eq (l : list Z) i x : (i < length l)%nat -> limb (<[i:=x]> l) i = x.
Proof. intros. apply nth_lookup_Some. by apply list_lookup_insert_eq. Qed.

Lemma limb_insert_ne (l : list Z) i j x : i <> j -> limb (<[i:=x]> l) j = limb l j.
Proof. intros. rewrite !nth_lookup. by rewrite list_lookup_insert_ne. Qed.

Lemma limb_range w (l : list Z) i : 0 <= w -> Forall (is_u w) l -> 0 <= limb l i < 2 ^ w.
Proof.
  intros Hw Hl. rewrite nth_lookup. destruct (l !! i) eqn:E; simpl.
  - by apply (Forall_lookup_1 _ _ _ _ Hl E).
  - pose proof (pow2_pos w Hw). lia.
Qed.

Lemma sval_ext b l l' s s' n :
  (forall i, (i < n)%nat -> limb l (s + i) = limb l' (s' + i)) -> sval b l s n = sval b l' s' n.
Proof.
  induction n as [|n IH]; intros H; simpl; [done|]. rewrite IH by (intros; apply H; lia).
  by rewrite H by lia.
Qed.

Lemma sval_insert_out b l i x s n :
  (i < s \/ s + n <= i)%nat -> sval b (<[i:=x]> l) s n = sval b l s n.
Proof. intros H. apply sval_ext. intros j Hj. apply limb_insert_ne. lia. Qed.

Lemma sval_split b l s m n : b <> 0 ->
  sval b l s (m + n) = sval b l s m + b ^ Z.of_nat m * sval b l (s + m) n.
Proof.
  intros Hb. induction n as [|n IH]; [rewrite Nat.add_0_r; simpl; lia|].
  rewrite Nat.add_succ_r. simpl. rewrite IH, Nat2Z.inj_add, Z.pow_add_r, Nat.add_assoc by lia. lia.
Qed.

Lemma sval_range w l s n : 0 <= w -> Forall (is_u w) l -> 0 <= sval (2 ^ w) l s n < (2 ^ w) ^ Z.of_nat n.
Proof.
  intros Hw Hl. induction n as [|n IH]; [simpl; lia|]. cbn [sval].
  pose proof (limb_range w l (s + n) Hw Hl). rewrite Nat2Z.inj_succ, Z.pow_succ_r by lia. nia.
Qed.

Lemma sval_zeros b l s n : (forall i, (i < n)%nat -> limb l (s + i) = 0) -> sval b l s n = 0.
Proof.
  induction n as [|n IH]; intros H; simpl; [done|]. rewrite IH by (intros; apply H; lia).
  rewrite H by lia. lia.
Qed.

Lemma Forall_store w (l : list Z) i z : 0 <= w -> Forall (is_u w) l -> Forall (is_u w) (<[i:=uw w z]> l).
Proof. intros. apply Forall_insert; [done|]. by apply uw_range. Qed.

(** Destructs a two-limb argument. *)
Lemma is_u128_pair l : is_u128 l -> exists a b, l = [a; b] /\ is_u64 a /\ is_u64 b.
Proof.
  intros [Hn Hf]. destruct l as [|a [|b [|]]]; simpl in Hn; try lia.
  exists a, b. apply Forall_cons in Hf as [? Hf]. by apply Forall_cons in Hf as [? Hf].
Qed.

Ltac pair128 l a b :=
  let H := fresh in let Ha := fresh "Ha" in let Hb := fresh "Hb" in
  match goal with X : is_u128 l |- _ =>
    destruct (is_u128_pair l X) as (a & b & -> & Ha & Hb); clear X;
    unfold is_u in Ha, Hb
  end.

Lemma value_pair a b : value [a; b] = a + b * B64.
Proof. unfold value. simpl. lia. Qed.

(** ** Addition, subtraction, comparison and shift *)

(** The carry test of [add]: one 64-bit column. *)
Lemma add_column s f carry : is_u64 s -> is_u64 f -> 0 <= carry <= 1 ->
  let tmp := u64 (s + carry) in
  let tmp2 := u64 (f + tmp) in
  let carry' := if (tmp <? s) || (tmp2 <? tmp) then 1 else 0 in
  f + s + carry = tmp2 + carry' * B64.
Proof.
  unfold is_u, uw. intros Hs Hf Hc. cbv zeta.
  destruct (Z.lt_ge_cases (s + carry) B64) as [H|H].
  - rewrite (Z.mod_small (s + carry)) by lia.
    assert ((s + carry <? s) = false) as -> by (apply Z.ltb_ge; lia). simpl orb.
    destruct (Z.lt_ge_cases (f + (s + carry)) B64).
    + rewrite Z.mod_small by lia. assert ((f + (s + carry) <? s + carry) = false) as -> by (apply Z.ltb_ge; lia). lia.
    + replace (f + (s + carry)) with (f + (s + carry) - B64 + 1 * B64) at 1 2 by lia.
      rewrite Z.mod_add, Z.mod_small by lia.
      assert ((f + (s + carry) - B64 <? s + carry) = true) as -> by (apply Z.ltb_lt; lia). lia.
  - assert (s + carry = B64) as -> by lia. rewrite Z_mod_same_full. simpl (_ + 0).
    assert ((0 <? s) = true) as -> by (apply Z.ltb_lt; lia). simpl.
    rewrite Z.add_0_r, Z.mod_small by lia. lia.
Qed.

Lemma sub_column s f borrow : is_u64 s -> is_u64 f -> 0 <= borrow <= 1 ->
  let tmp := u64 (s + borrow) in
  let borrow' := if (tmp <? s) || (f <? tmp) then 1 else 0 in
  f - s - borrow = u64 (f - tmp) - borrow' * B64.
Proof.
  unfold is_u, uw. intros Hs Hf Hc. cbv zeta.
  destruct (Z.lt_ge_cases (s + borrow) B64) as [H|H].
  - rewrite (Z.mod_small (s + borrow)) by lia.
    assert ((s + borrow <? s) = false) as -> by (apply Z.ltb_ge; lia). simpl orb.
    destruct (Z.ltb_spec f (s + borrow)).
    + replace (f - (s + borrow)) with (f - (s + borrow) + B64 + (-1) * B64) at 1 by lia.
      rewrite Z.mod_add, Z.mod_small by lia. lia.
    + rewrite Z.mod_small by lia. lia.
  - assert (s + borrow = B64) as -> by lia. rewrite Z_mod_same_full.
    assert ((0 <? s) = true) as -> by (apply Z.ltb_lt; lia). simpl.
    rewrite Z.sub_0_r, Z.mod_small by lia. lia.
Qed.

Lemma carry_bit (b : bool) : 0 <= (if b then 1 else 0) <= 1.
Proof. destruct b; lia. Qed.

Lemma mod_unique_pow a r q m : a = r + q * m -> 0 <= r < m -> a mod m = r.
Proof. intros -> H. rewrite Z.mod_add by lia. by apply Z.mod_small. Qed.

Lemma is_u128_intro a b : is_u64 a -> is_u64 b -> is_u128 [a; b].
Proof. intros. split; [done|]. constructor; [done|]. constructor; [done|]. constructor. Qed.

(** Evaluates two stores into a two-limb array. *)
Ltac two_stores :=
  repeat match goal with
  | |- context [<[1%nat:=?x]> (<[0%nat:=?y]> [?u; ?v])] =>
      change (<[1%nat:=x]> (<[0%nat:=y]> [u; v])) with [y; x]
  | |- context [<[0%nat:=?x]> (<[1%nat:=?y]> [?u; ?v])] =>
      change (<[0%nat:=x]> (<[1%nat:=y]> [u; v])) with [x; y]
  end.

Lemma add128_value a b : is_u128 a -> is_u128 b ->
  exists r, add128 a b = Ok r /\ is_u128 r /\ value r = (value a + value b) mod 2 ^ 128.
Proof.
  intros H1 H2. pair128 a a0 a1. pair128 b b0 b1.
  unfold add128, add. cbn -[uw Z.ltb value]. eexists. split; [reflexivity|]. two_stores.
  set (c := if (u64 (b0 + 0) <? b0) || (u64 (a0 + u64 (b0 + 0)) <? u64 (b0 + 0)) then 1 else 0).
  pose proof (add_column b0 a0 0 Ha0 Ha ltac:(lia)) as E0. cbv zeta in E0. fold c in E0.
  assert (Hc : 0 <= c <= 1) by apply carry_bit.
  pose proof (add_column b1 a1 c Hb0 Hb Hc) as E1. cbv zeta in E1.
  match type of E1 with _ = _ + ?c' * _ => set (c1 := c') in * end.
  split; [apply is_u128_intro; by apply uw_range|]. rewrite !value_pair. symmetry.
  pose proof (uw_range 64 (a0 + u64 (b0 + 0)) ltac:(lia)) as R0.
  pose proof (uw_range 64 (a1 + u64 (b1 + c)) ltac:(lia)) as R1. unfold is_u in R0, R1.
  apply mod_unique_pow with c1; [|lia]. change (2 ^ 128) with (B64 * B64). lia.
Qed.

Lemma subtract128_value a b : is_u128 a -> is_u128 b ->
  exists r, subtract128 a b = Ok r /\ is_u128 r /\ value r = (value a - value b) mod 2 ^ 128.
Proof.
  intros H1 H2. pair128 a a0 a1. pair128 b b0 b1.
  unfold subtract128, subtract. cbn -[uw Z.ltb value]. eexists. split; [reflexivity|]. two_stores.
  set (c := if (u64 (b0 + 0) <? b0) || (a0 <? u64 (b0 + 0)) then 1 else 0).
  pose proof (sub_column b0 a0 0 Ha0 Ha ltac:(lia)) as E0. cbv zeta in E0. fold c in E0.
  assert (Hc : 0 <= c <= 1) by apply carry_bit.
  pose proof (sub_column b1 a1 c Hb0 Hb Hc) as E1. cbv zeta in E1.
  match type of E1 with _ = _ - ?c' * _ => set (c1 := c') in * end.
  split; [apply is_u128_intro; by apply uw_range|]. rewrite !value_pair. symmetry.
  pose proof (uw_range 64 (a0 - u64 (b0 + 0)) ltac:(lia)) as R0.
  pose proof (uw_range 64 (a1 - u64 (b1 + c)) ltac:(lia)) as R1. unfold is_u in R0, R1.
  apply mod_unique_pow with (- c1); [|lia]. change (2 ^ 128) with (B64 * B64). lia.
Qed.

Lemma ucompare_value a b : is_u128 a -> is_u128 b ->
  ucompare 2 a b = Ok (match value a ?= value b with Lt => -1 | Eq => 0 | Gt => 1 end).
Proof.
  intros H1 H2. pair128 a a0 a1. pair128 b b0 b1. rewrite !value_pair. cbn -[Z.ltb Z.eqb Z.compare].
  destruct (Z.eqb_spec a1 b1) as [->|N]; simpl negb; cbv iota.
  - destruct (Z.eqb_spec a0 b0) as [->|N]; simpl negb; cbv iota.
    + by rewrite Z.compare_refl.
    + f_equal. destruct (Z.ltb_spec a0 b0); destruct (Z.compare_spec (a0 + b1 * B64) (b0 + b1 * B64)); lia.
  - f_equal. destruct (Z.ltb_spec a1 b1); destruct (Z.compare_spec (a0 + a1 * B64) (b0 + b1 * B64)); lia.
Qed.

(** Splitting a shifted 64-bit digit: the part that stays and the part that
    moves to the next digit. *)
Lemma shl64_split x s : is_u64 x -> 0 < s < 64 ->
  x * 2 ^ s = shl64 x s + shr64 x (64 - s) * B64.
Proof.
  unfold is_u, shl64, shr64, uw. intros Hx Hs. rewrite !Z.mod_small with (b := 64) by lia.
  rewrite Z.shiftl_mul_pow2, Z.shiftr_div_pow2 by lia.
  pose proof (pow2_pos s ltac:(lia)). pose proof (pow2_pos (64 - s) ltac:(lia)).
  assert (E : B64 = 2 ^ (64 - s) * 2 ^ s) by (rewrite <- Z.pow_add_r by lia; f_equal; lia).
  rewrite E, Z.mul_mod_distr_r by lia. pose proof (Z.div_mod x (2 ^ (64 - s)) ltac:(lia)). nia.
Qed.

Lemma shr64_range x s : is_u64 x -> 0 < s < 64 -> 0 <= shr64 x (64 - s) < 2 ^ s.
Proof.
  intros Hx Hs. unfold is_u, shr64 in *. rewrite Z.mod_small, Z.shiftr_div_pow2 by lia.
  split; [apply Z.div_pos; [lia|apply pow2_pos; lia]|].
  apply Z.div_lt_upper_bound; [apply pow2_pos; lia|]. rewrite <- Z.pow_add_r by lia.
  replace (64 - s + s) with 64 by lia. lia.
Qed.

Lemma shl64_lor x y s : is_u64 x -> is_u64 y -> 0 < s < 64 ->
  Z.lor (shl64 x s) (shr64 y (64 - s)) = shl64 x s + shr64 y (64 - s).
Proof.
  intros Hx Hy Hs. assert (Hr : is_u s (shr64 y (64 - s))).
  { by apply shr64_range. }
  assert (E : shl64 x s = Z.shiftl (uw (64 - s) x) s).
  { unfold shl64, uw. rewrite Z.mod_small with (b := 64), !Z.shiftl_mul_pow2 by lia.
    replace B64 with (2 ^ (64 - s) * 2 ^ s) by (rewrite <- Z.pow_add_r by lia; f_equal; lia).
    pose proof (pow2_pos s ltac:(lia)). pose proof (pow2_pos (64 - s) ltac:(lia)).
    by rewrite Z.mul_mod_distr_r by lia. }
  rewrite E. rewrite lor_add; [by rewrite Z.shiftl_mul_pow2 by lia|lia|done].
Qed.


(** A shift by [0 <= s < 128] multiplies modulo [2^128]. *)
Lemma leftshift128_value a s : is_u128 a -> 0 <= s < 128 ->
  exists r, leftshift128 a s = Ok r /\ is_u128 r /\ value r = (value a * 2 ^ s) mod 2 ^ 128.
Proof.
  intros H1 Hs. pair128 a a0 a1.
  assert (Hq : s = 64 * Z.quot s 64 + Z.rem s 64) by (apply Z.quot_rem'; lia).
  assert (Hr : 0 <= Z.rem s 64 < 64) by (apply Z.rem_bound_pos; lia).
  assert (Hq' : Z.quot s 64 = 0 \/ Z.quot s 64 = 1) by lia.
  unfold leftshift128, leftshift. set (q := Z.quot s 64) in *. set (t := Z.rem s 64) in *.
  change (2 ^ 128) with (B64 * B64).
  destruct (Z.eqb_spec t 0) as [T|T], Hq' as [Q|Q]; rewrite Q in *.
  - exists [a0; a1]. split; [reflexivity|]. split; [by apply is_u128_intro|].
    replace s with 0 by lia. rewrite value_pair. symmetry. apply mod_unique_pow with 0; lia.
  - exists [0; a0]. split; [reflexivity|]. split; [by apply is_u128_intro|].
    replace s with 64 by lia. rewrite !value_pair. symmetry. apply mod_unique_pow with a1; lia.
  - exists [shl64 a0 t; Z.lor (shl64 a1 t) (shr64 a0 (64 - t))]. split; [reflexivity|].
    rewrite shl64_lor by (unfold is_u; lia). pose proof (shl64_split a0 t Ha ltac:(lia)).
    pose proof (shl64_split a1 t Hb ltac:(lia)). pose proof (shr64_range a0 t Ha ltac:(lia)).
    pose proof (shl64_lor a1 a0 t Hb Ha ltac:(lia)) as E.
    assert (R1 : is_u64 (Z.lor (shl64 a1 t) (shr64 a0 (64 - t)))).
    { apply lor_is_u; [lia|by apply uw_range|]. unfold is_u.
      pose proof (Z.pow_lt_mono_r 2 t 64). lia. }
    rewrite E in R1. pose proof (uw_range 64 (Z.shiftl a0 (t mod 64)) ltac:(lia)) as R0.
    fold (shl64 a0 t) in R0. split; [by apply is_u128_intro|]. unfold is_u in R0, R1.
    replace s with t by lia. rewrite !value_pair. symmetry.
    apply mod_unique_pow with (shr64 a1 (64 - t)); [|lia].
    rewrite Z.mul_add_distr_r, <- Z.mul_assoc, (Z.mul_comm B64), Z.mul_assoc. lia.
  - exists [0; shl64 a0 t]. split; [reflexivity|].
    pose proof (uw_range 64 (Z.shiftl a0 (t mod 64)) ltac:(lia)) as R0. fold (shl64 a0 t) in R0.
    split; [by apply is_u128_intro|]. unfold is_u in R0. pose proof (shl64_split a0 t Ha ltac:(lia)).
    replace s with (64 + t) by lia. rewrite !value_pair, Z.pow_add_r by lia. symmetry.
    apply mod_unique_pow with (shr64 a0 (64 - t) + a1 * 2 ^ t); [|lia]. lia.
Qed.

(** ** Limb shifts *)

Lemma Forall_limbs w (l : list Z) :
  (forall i, (i < length l)%nat -> is_u w (limb l i)) -> Forall (is_u w) l.
Proof.
  intros H. apply Forall_lookup. intros i x Hx. pose proof (lookup_lt_Some _ _ _ Hx) as Hi.
  specialize (H i Hi). by rewrite (nth_lookup_Some _ _ _ _ Hx) in H.
Qed.

Lemma limb_is_u w l i : 0 <= w -> Forall (is_u w) l -> is_u w (limb l i).
Proof. apply limb_range. Qed.

Lemma shr32_range x s : is_u32 x -> 0 < s < 32 -> 0 <= shr32 x (32 - s) < 2 ^ s.
Proof.
  intros Hx Hs. unfold is_u, shr32 in *. rewrite Z.mod_small, Z.shiftr_div_pow2 by lia.
  split; [apply Z.div_pos; [lia|apply pow2_pos; lia]|].
  apply Z.div_lt_upper_bound; [apply pow2_pos; lia|]. rewrite <- Z.pow_add_r by lia.
  replace (32 - s + s) with 32 by lia. lia.
Qed.

Lemma shl32_mul x s : 0 < s < 32 -> shl32 x s = uw (32 - s) x * 2 ^ s.
Proof.
  intros Hs. unfold shl32, uw. rewrite Z.mod_small with (b := 32), Z.shiftl_mul_pow2 by lia.
  replace B32 with (2 ^ (32 - s) * 2 ^ s) by (rewrite <- Z.pow_add_r by lia; f_equal; lia).
  pose proof (pow2_pos s ltac:(lia)). pose proof (pow2_pos (32 - s) ltac:(lia)).
  by rewrite Z.mul_mod_distr_r by lia.
Qed.

Lemma shl32_lor x y s : is_u32 y -> 0 < s < 32 ->
  Z.lor (shl32 x s) (shr32 y (32 - s)) = shl32 x s + shr32 y (32 - s).
Proof.
  intros Hy Hs. rewrite shl32_mul, <- Z.shiftl_mul_pow2 by lia.
  rewrite lor_add; [by rewrite Z.shiftl_mul_pow2 by lia|lia|]. by apply shr32_range.
Qed.

Lemma shl32_split x s : is_u32 x -> 0 < s < 32 ->
  x * 2 ^ s = shl32 x s + shr32 x (32 - s) * B32.
Proof.
  intros Hx Hs. rewrite shl32_mul by done. unfold shr32, uw.
  rewrite (Z.mod_small (32 - s) 32), Z.shiftr_div_pow2 by lia.
  assert (E : B32 = 2 ^ (32 - s) * 2 ^ s) by (rewrite <- Z.pow_add_r by lia; f_equal; lia).
  rewrite E. pose proof (pow2_pos (32 - s) ltac:(lia)).
  pose proof (Z.div_mod x (2 ^ (32 - s)) ltac:(lia)). nia.
Qed.

Lemma shift_left_limbs arr size s :
  0 < s < 32 -> (1 <= size <= length arr)%nat ->
  exists arr', shift_left arr size s = Ok arr' /\ length arr' = length arr /\
    limb arr' 0 = shl32 (limb arr 0) s /\
    (forall k, (0 < k < size)%nat ->
       limb arr' k = Z.lor (shl32 (limb arr k) s) (shr32 (limb arr (k - 1)) (32 - s))) /\
    (forall k, (size <= k)%nat -> limb arr' k = limb arr k).
Proof.
  intros Hs Hn. unfold shift_left. destruct (Z.eqb_spec s 0); [lia|].
  set (I := fun i (a : list Z) => length a = length arr /\
    (forall k, (i <= k < size)%nat ->
       limb a k = Z.lor (shl32 (limb arr k) s) (shr32 (limb arr (k - 1)) (32 - s))) /\
    (forall k, (k < i \/ size <= k)%nat -> limb a k = limb arr k)).
  match goal with |- context [for_down ?n ?lo ?body ?s0] =>
    destruct (for_down_inv I body n lo s0) as (a & -> & HL & HS & HU) end.
  - split; [done|]. split; [lia|done].
  - intros i a Hi (HL & HS & HU).
    rewrite (index_nth a i 0), (index_nth a (i - 1) 0) by lia. ostep.
    rewrite store_ok by lia. eexists. split; [reflexivity|]. split; [by rewrite length_insert|]. split.
    + intros k Hk. destruct (decide (k = i)) as [->|].
      * rewrite limb_insert_eq by lia. by rewrite !HU by lia.
      * rewrite limb_insert_ne by lia. apply HS. lia.
    + intros k Hk. rewrite limb_insert_ne by lia. apply HU. lia.
  - ostep. rewrite (index_nth a 0 0) by lia. ostep. rewrite store_ok by lia.
    eexists. split; [reflexivity|]. rewrite length_insert. split; [done|].
    split; [rewrite limb_insert_eq by lia; by rewrite HU by lia|].
    split; intros k Hk; rewrite limb_insert_ne by lia; [apply HS|apply HU]; lia.
Qed.

Lemma sval_shift_left a arr s n :
  0 < s < 32 -> Forall is_u32 arr -> (1 <= n)%nat ->
  limb a 0 = shl32 (limb arr 0) s ->
  (forall k, (0 < k < n)%nat -> limb a k = Z.lor (shl32 (limb arr k) s) (shr32 (limb arr (k - 1)) (32 - s))) ->
  val32 a 0 n + shr32 (limb arr (n - 1)) (32 - s) * B32 ^ Z.of_nat n = val32 arr 0 n * 2 ^ s.
Proof.
  intros Hs Hf Hn H0 Hk. induction n as [|n IH]; [lia|].
  pose proof (shl32_split (limb arr n) s (limb_is_u 32 arr n ltac:(lia) Hf) Hs) as E.
  destruct n as [|n].
  - cbn [sval]. simpl Nat.add. change (S 0 - 1)%nat with 0%nat. rewrite H0.
    change (Z.of_nat 1) with 1. change (Z.of_nat 0) with 0. rewrite Z.pow_1_r, Z.pow_0_r. lia.
  - cbn [sval Nat.add] in *.
    specialize (IH ltac:(lia) ltac:(intros; apply Hk; lia)).
    rewrite (Hk (S n)) by lia. rewrite shl32_lor; [|apply limb_is_u; [lia|done]|done].
    replace (S n - 1)%nat with n in * by lia. replace (S (S n) - 1)%nat with (S n) by lia.
    rewrite (Nat2Z.inj_succ (S n)), Z.pow_succ_r by lia. nia.
Qed.

(** [shift_left] multiplies by [2^s] when nothing is shifted out. *)
Lemma shift_left_value arr size s :
  0 <= s < 32 -> (1 <= size <= length arr)%nat -> Forall is_u32 arr ->
  val32 arr 0 size * 2 ^ s < B32 ^ Z.of_nat size ->
  exists arr', shift_left arr size s = Ok arr' /\ length arr' = length arr /\ Forall is_u32 arr' /\
    val32 arr' 0 size = val32 arr 0 size * 2 ^ s /\
    (forall k, (size <= k)%nat -> limb arr' k = limb arr k).
Proof.
  intros Hs Hn Hf Hv. destruct (Z.eq_dec s 0) as [->|].
  { exists arr. unfold shift_left. simpl. repeat split; try done. lia. }
  destruct (shift_left_limbs arr size s) as (a & E & HL & H0 & Hk & HU); [lia|done|].
  assert (Ha : Forall is_u32 a).
  { apply Forall_limbs. intros i Hi. destruct (decide (i = 0)%nat) as [->|].
    - rewrite H0. by apply uw_range.
    - destruct (decide (i < size)%nat); [|rewrite HU by lia; by apply limb_is_u].
      rewrite Hk by lia. apply lor_is_u; [lia|by apply uw_range|].
      pose proof (shr32_range (limb arr (i - 1)) s (limb_is_u 32 arr _ ltac:(lia) Hf) ltac:(lia)).
      pose proof (Z.pow_lt_mono_r 2 s 32). unfold is_u. lia. }
  exists a. repeat split; try done.
  pose proof (sval_shift_left a arr s size ltac:(lia) Hf ltac:(lia) H0 Hk) as S.
  pose proof (sval_range 32 a 0 size ltac:(lia) Ha).
  pose proof (shr32_range (limb arr (size - 1)) s (limb_is_u 32 arr _ ltac:(lia) Hf) ltac:(lia)).
  assert (0 < B32 ^ Z.of_nat size) by (apply Z.pow_pos_nonneg; lia).
  set (X := shr32 _ _) in *. destruct (Z.eq_dec X 0) as [E0|]; [rewrite E0 in *; lia|].
  pose proof (Z.mul_le_mono_nonneg_r 1 X (B32 ^ Z.of_nat size)). lia.
Qed.

Lemma shift_right_limbs arr size s :
  0 < s < 32 -> (1 <= size <= length arr)%nat ->
  exists arr', shift_right arr size s = Ok arr' /\ length arr' = length arr /\
    limb arr' (size - 1) = shr32 (limb arr (size - 1)) s /\
    (forall k, (k < size - 1)%nat ->
       limb arr' k = Z.lor (shr32 (limb arr k) s) (shl32 (limb arr (k + 1)) (32 - s))) /\
    (forall k, (size <= k)%nat -> limb arr' k = limb arr k).
Proof.
  intros Hs Hn. unfold shift_right. destruct (Z.eqb_spec s 0); [lia|].
  unfold usub. rewrite decide_True by lia. ostep.
  set (I := fun i (a : list Z) => length a = length arr /\
    (forall k, (k < i)%nat ->
       limb a k = Z.lor (shr32 (limb arr k) s) (shl32 (limb arr (k + 1)) (32 - s))) /\
    (forall k, (i <= k)%nat -> limb a k = limb arr k)).
  match goal with |- context [for_up ?n ?lo ?body ?s0] =>
    destruct (for_up_inv I body n lo s0) as (a & -> & HL & HS & HU) end.
  - split; [done|]. split; [lia|done].
  - intros i a Hi (HL & HS & HU).
    rewrite (index_nth a i 0), (index_nth a (i + 1) 0) by lia. ostep.
    rewrite store_ok by lia. eexists. split; [reflexivity|]. split; [by rewrite length_insert|]. split.
    + intros k Hk. destruct (decide (k = i)) as [->|].
      * rewrite limb_insert_eq by lia. by rewrite !HU by lia.
      * rewrite limb_insert_ne by lia. apply HS. lia.
    + intros k Hk. rewrite limb_insert_ne by lia. apply HU. lia.
  - simpl Nat.add in *. ostep. rewrite (index_nth a (size - 1) 0) by lia. ostep.
    rewrite store_ok by lia.
    eexists. split; [reflexivity|]. rewrite length_insert. split; [done|].
    split; [rewrite limb_insert_eq by lia; by rewrite HU by lia|].
    split; intros k Hk; rewrite limb_insert_ne by lia; [apply HS|apply HU]; lia.
Qed.

Lemma shr32_shl32_lor x y s : is_u32 x -> is_u32 y -> 0 < s < 32 ->
  2 ^ s * Z.lor (shr32 x s) (shl32 y (32 - s)) = x - uw s x + uw s y * B32.
Proof.
  intros Hx Hy Hs. pose proof (pow2_pos s ltac:(lia)).
  replace (shr32 x s) with (shr32 x (32 - (32 - s))) by (f_equal; lia).
  rewrite Z.lor_comm, shl32_lor, shl32_mul by (done || lia).
  replace (32 - (32 - s)) with s by lia. unfold shr32.
  rewrite Z.mod_small, Z.shiftr_div_pow2 by lia. unfold uw.
  assert (E : B32 = 2 ^ (32 - s) * 2 ^ s) by (rewrite <- Z.pow_add_r by lia; f_equal; lia).
  rewrite E. pose proof (Z.div_mod x (2 ^ s) ltac:(lia)). lia.
Qed.

Lemma shr32_mul x s : 0 < s < 32 -> 2 ^ s * shr32 x s = x - uw s x.
Proof.
  intros Hs. unfold shr32, uw. rewrite Z.mod_small, Z.shiftr_div_pow2 by lia.
  pose proof (pow2_pos s ltac:(lia)). pose proof (Z.div_mod x (2 ^ s) ltac:(lia)). lia.
Qed.

Lemma sval_shift_right a arr s n :
  0 < s < 32 -> Forall is_u32 arr ->
  (forall k, (k < n)%nat -> limb a k = Z.lor (shr32 (limb arr k) s) (shl32 (limb arr (k + 1)) (32 - s))) ->
  2 ^ s * val32 a 0 n = val32 arr 0 n - uw s (limb arr 0) + uw s (limb arr n) * B32 ^ Z.of_nat n.
Proof.
  intros Hs Hf Hk. induction n as [|n IH]; cbn [sval Nat.add]; [rewrite Z.pow_0_r; lia|].
  specialize (IH ltac:(intros; apply Hk; lia)).
  pose proof (shr32_shl32_lor (limb arr n) (limb arr (n + 1)) s
    (limb_is_u 32 arr _ ltac:(lia) Hf) (limb_is_u 32 arr _ ltac:(lia) Hf) Hs) as E.
  rewrite (Hk n) by lia. rewrite Nat.add_1_r in *.
  rewrite Nat2Z.inj_succ, Z.pow_succ_r by lia. nia.
Qed.

(** [shift_right] divides by [2^s] when nothing is shifted out. *)
Lemma shift_right_value arr size s v :
  0 <= s < 32 -> (1 <= size <= length arr)%nat -> Forall is_u32 arr ->
  val32 arr 0 size = v * 2 ^ s ->
  exists arr', shift_right arr size s = Ok arr' /\ length arr' = length arr /\ Forall is_u32 arr' /\
    val32 arr' 0 size = v /\
    (forall k, (size <= k)%nat -> limb arr' k = limb arr k).
Proof.
  intros Hs Hn Hf Hv. destruct (Z.eq_dec s 0) as [->|Hs0].
  { exists arr. unfold shift_right. simpl. repeat split; try done. rewrite Hv. lia. }
  destruct (shift_right_limbs arr size s) as (a & E & HL & Htop & Hk & HU); [lia|done|].
  assert (Ha : Forall is_u32 a).
  { apply Forall_limbs. intros i Hi.
    assert (Hr : forall k, is_u32 (shr32 (limb arr k) s)).
    { intros k. replace s with (32 - (32 - s)) by lia.
      pose proof (shr32_range (limb arr k) (32 - s) (limb_is_u 32 arr _ ltac:(lia) Hf) ltac:(lia)).
      pose proof (Z.pow_lt_mono_r 2 (32 - s) 32). unfold is_u. lia. }
    destruct (decide (i < size - 1)%nat); [|destruct (decide (i = size - 1)%nat) as [->|]].
    - rewrite Hk by lia. apply lor_is_u; [lia|apply Hr|by apply uw_range].
    - rewrite Htop. apply Hr.
    - rewrite HU by lia. by apply limb_is_u. }
  exists a. repeat split; try done.
  pose proof (sval_shift_right a arr s (size - 1) ltac:(lia) Hf Hk) as SS.
  destruct size as [|n]; [lia|]. replace (S n - 1)%nat with n in * by lia. cbn [sval Nat.add] in *.
  rewrite Htop. pose proof (shr32_mul (limb arr n) s ltac:(lia)) as Et.
  pose proof (pow2_pos s ltac:(lia)).
  assert (Hz : uw s (limb arr 0) = 0).
  { assert (Hm : (val32 arr 0 (S n)) mod 2 ^ s = 0) by (cbn [sval Nat.add]; rewrite Hv; by apply Z.mod_mul; lia).
    change (S n) with (1 + n)%nat in Hm. rewrite sval_split in Hm by lia. cbn [sval Nat.add] in Hm.
    rewrite Z.pow_0_r, Z.mul_1_r, Z.add_0_l in Hm. change (Z.of_nat 1) with 1 in Hm. rewrite Z.pow_1_r in Hm.
    replace B32 with (2 ^ (32 - s) * 2 ^ s) in Hm by (rewrite <- Z.pow_add_r by lia; f_equal; lia).
    unfold uw. etransitivity; [symmetry|exact Hm].
    replace (2 ^ (32 - s) * 2 ^ s * sval (2 ^ (32 - s) * 2 ^ s) arr 1 n)
      with ((2 ^ (32 - s) * sval (2 ^ (32 - s) * 2 ^ s) arr 1 n) * 2 ^ s) by ring.
    by rewrite Z.mod_add by lia. }
  rewrite Hz in SS. nia.
Qed.

(** ** One digit of Algorithm D *)

(** The division step on numbers: [v] has leading digits [top], [v2] and [u]
    leading digits [tmp], [u2], over a common tail of weight [w]. *)
Section TrialDigit.
Variables (w top v2 vlow tmp u2 ulow : Z).
Hypotheses (Hw : 0 < w) (Htop : B32 <= 2 * top) (Htop' : top < B32)
  (Hv2 : 0 <= v2 < B32) (Hu2 : 0 <= u2 < B32)
  (Hvlow : 0 <= vlow < w) (Hulow : 0 <= ulow < w).

Let v := vlow + w * (v2 + B32 * top).
Let u := ulow + w * (u2 + B32 * tmp).

Lemma trial_v_pos : 0 < v.
Proof using All. unfold v. nia. Qed.

(** A failed test means that the trial digit is too large. *)
Lemma trial_too_large qhat rhat : qhat * top + rhat = tmp -> 0 <= qhat ->
  rhat * B32 + u2 < qhat * v2 -> u / v < qhat.
Proof using All.
  intros E Hq Ht. apply Z.div_lt_upper_bound; [apply trial_v_pos|].
  assert (u2 + B32 * tmp + 1 <= qhat * (v2 + B32 * top)) by nia.
  assert (w * (u2 + B32 * tmp + 1) <= w * (qhat * (v2 + B32 * top))) by (apply Z.mul_le_mono_nonneg_l; lia).
  assert (0 <= qhat * vlow) by nia. unfold u, v. nia.
Qed.

(** A passed test means that it is too large by at most one. *)
Lemma trial_close qhat rhat : qhat * top + rhat = tmp -> 0 <= qhat <= 0xffffffff ->
  qhat * v2 <= rhat * B32 + u2 -> qhat <= u / v + 1.
Proof using All.
  intros E Hq Ht. pose proof trial_v_pos as Hv.
  assert (qhat * (v2 + B32 * top) <= u2 + B32 * tmp) by nia.
  assert (w * (qhat * (v2 + B32 * top)) <= w * (u2 + B32 * tmp)) by (apply Z.mul_le_mono_nonneg_l; lia).
  assert (qhat * vlow <= B32 * w) by nia.
  assert (B32 * w <= v) by (unfold v; nia).
  assert (Hle : (qhat - 1) * v <= u) by (unfold u, v in *; nia).
  enough (qhat - 1 <= u / v) by lia. apply Z.div_le_lower_bound; lia.
Qed.

(** The loop ends after at most two rounds with the digit or the digit plus
    one, given that the quotient is a single digit. *)
Lemma trial_digit_spec : 0 <= tmp -> u < B32 * v -> tmp <= top * B32 + (B32 - 1) ->
  exists qhat, trial_digit (tmp / top) (tmp mod top) top v2 u2 = Ok qhat /\
    u / v <= qhat <= u / v + 1 /\ 0 <= qhat <= 0xffffffff.
Proof using All.
  intros Htmp Hu Hmax. pose proof trial_v_pos as Hv.
  assert (Hq1 : u / v < B32) by (apply Z.div_lt_upper_bound; lia).
  set (I := fun '(qhat, rhat) => qhat * top + rhat = tmp /\ 0 <= rhat < B32 /\ u / v <= qhat /\ 0 <= qhat <= B32 + 1).
  set (m := fun p : Z * Z => Z.to_nat ((B32 - 1 - snd p) / top)).
  unfold trial_digit. apply (loop_inv I _ m).
  - pose proof (Z.mod_pos_bound tmp top ltac:(lia)). pose proof (Z.div_mod tmp top ltac:(lia)).
    unfold I. repeat split; try lia.
    + enough (u / v < tmp / top + 1) by lia. apply Z.div_lt_upper_bound; [lia|].
      assert (tmp < top * (tmp / top + 1)) by lia.
      assert (w * (u2 + B32 * tmp + 1) <= w * (B32 * (top * (tmp / top + 1)))) by (apply Z.mul_le_mono_nonneg_l; lia).
      assert (0 <= tmp / top) by (apply Z.div_pos; lia).
      assert (0 <= (vlow + w * v2) * (tmp / top + 1)) by nia. unfold u, v. nia.
    + apply Z.div_pos; lia.
    + assert (tmp / top < B32 + 2); [|lia]. apply Z.div_lt_upper_bound; [lia|]. nia.
  - pose proof (Z.mod_pos_bound tmp top ltac:(lia)). unfold m. cbn [snd].
    assert ((B32 - 1 - tmp mod top) / top < 2) by (apply Z.div_lt_upper_bound; lia). lia.
  - intros [qhat rhat] (E & Hr & Hlow & Hqr).
    rewrite (u64_small (Z.shiftl rhat 32)) by (rewrite Z.shiftl_mul_pow2 by lia; lia).
    rewrite Z.shiftl_mul_pow2 by lia. rewrite (u64_small (rhat * B32 + u2)) by lia.
    destruct ((qhat <=? 4294967295) && (u64 (qhat * v2) <=? rhat * B32 + u2)) eqn:T.
    + right. exists qhat. split; [done|]. apply andb_prop in T as [T1%Z.leb_le T2%Z.leb_le].
      rewrite u64_small in T2 by nia. split; [split; [done|]|lia]. apply (trial_close qhat rhat); lia.
    + assert (Hlt : u / v < qhat).
      { destruct (Z.leb_spec qhat 4294967295); [|lia]. simpl in T. apply Z.leb_gt in T.
        rewrite u64_small in T by nia. apply (trial_too_large qhat rhat); lia. }
      assert (0 <= u / v) by (apply Z.div_pos; [unfold u|]; nia).
      rewrite (u64_small (qhat - 1)) by lia. rewrite (u64_small (rhat + top)) by lia.
      rewrite Z.gtb_ltb. destruct (Z.ltb_spec 4294967295 (rhat + top)).
      * right. exists (qhat - 1). split; [done|].
        assert (Hb : 0 <= qhat - 1 <= 4294967295) by nia.
        split; [split; [lia|]|done]. apply (trial_close (qhat - 1) (rhat + top)); [lia|done|].
        pose proof (Z.mul_le_mono_nonneg (qhat - 1) 4294967295 v2 (B32 - 1)). lia.
      * left. exists (qhat - 1, rhat + top). split; [done|]. split; [unfold I; repeat split; lia|].
        unfold m. cbn [snd]. replace (B32 - 1 - rhat) with (B32 - 1 - (rhat + top) + 1 * top) by lia.
        rewrite Z.div_add by lia. pose proof (Z.div_pos (B32 - 1 - (rhat + top)) top). lia.
Qed.
End TrialDigit.

(** Arrays that agree outside the window [s .. s + n - 1]. *)
Definition same_outside (l l' : list Z) (s n : nat) : Prop :=
  forall k, (k < s \/ s + n <= k)%nat -> limb l' k = limb l k.

(** One column of the multiply-and-subtract loop. *)
Lemma mulsub_column x d carry qhat : is_u32 x -> is_u32 d -> 0 <= carry <= B32 -> 0 <= qhat <= 0xffffffff ->
  let tmp := u64 (qhat * d) in
  let st := i64 (u64 (u64 (x - carry) - Z.land tmp 0xffffffff)) in
  let carry' := u64 (Z.shiftr tmp 32 - u64 (Z.shiftr st 32)) in
  0 <= carry' <= B32 /\ u32 st + carry = x - qhat * d + carry' * B32.
Proof.
  unfold is_u. intros Hx Hd Hc Hq. cbv zeta.
  assert (Hp : 0 <= qhat * d <= (B32 - 1) * (B32 - 1)) by nia.
  rewrite (u64_small (qhat * d)) by lia. set (t := qhat * d) in *.
  change 0xffffffff with (Z.ones 32). rewrite land_ones_uw by lia.
  pose proof (uw_range 32 t ltac:(lia)) as Hlo. unfold is_u in Hlo.
  assert (Est : i64 (u64 (u64 (x - carry) - u32 t)) = x - carry - u32 t).
  { rewrite sw_uw by lia. rewrite (sw_congr 64 _ (x - carry - u32 t)).
    - apply sw_small; [lia|]. unfold is_s. lia.
    - unfold uw at 1 2 4. by rewrite Zminus_mod_idemp_l. }
  rewrite Est. set (st := x - carry - u32 t). rewrite !Z.shiftr_div_pow2 by lia.
  assert (Hdiv : -2 <= st / B32 <= 0).
  { split; [apply Z.div_le_lower_bound|]; try lia.
    enough (st / B32 < 1) by lia. apply Z.div_lt_upper_bound; lia. }
  assert (Ht : 0 <= t / B32 <= B32 - 2).
  { split; [apply Z.div_pos; lia|]. enough (t / B32 < B32 - 1) by lia. apply Z.div_lt_upper_bound; lia. }
  assert (Ec : u64 (t / B32 - u64 (st / B32)) = t / B32 - st / B32).
  { unfold uw. rewrite Zminus_mod_idemp_r. apply Z.mod_small. lia. }
  rewrite Ec. split; [lia|]. unfold st in *. unfold uw in *.
  pose proof (Z.div_mod (x - carry - t mod B32) B32 ltac:(lia)). pose proof (Z.div_mod t B32 ltac:(lia)).
  lia.
Qed.

Lemma mulsub_spec n j qhat numer denom :
  Forall is_u32 numer -> Forall is_u32 denom -> (n <= length denom)%nat -> (n + j <= length numer)%nat ->
  0 <= qhat <= 0xffffffff ->
  exists numer' carry, mulsub n j qhat numer denom = Ok (numer', carry) /\
    length numer' = length numer /\ Forall is_u32 numer' /\ 0 <= carry <= B32 /\
    same_outside numer numer' j n /\
    val32 numer' j n = val32 numer j n - qhat * val32 denom 0 n + carry * B32 ^ Z.of_nat n.
Proof.
  intros Hf Hd Hn Hm Hq. unfold mulsub.
  set (I := fun k (st : list Z * Z) => let '(l, carry) := st in
    length l = length numer /\ Forall is_u32 l /\ 0 <= carry <= B32 /\
    same_outside numer l j k /\
    val32 l j k = val32 numer j k - qhat * val32 denom 0 k + carry * B32 ^ Z.of_nat k).
  match goal with |- context [for_up ?n ?lo ?body ?s0] =>
    destruct (for_up_inv I body n lo s0) as ([l c] & -> & HI) end.
  - unfold I. split; [done|]. split; [done|]. split; [lia|]. split; [by intros k|]. simpl. lia.
  - intros k [l c] Hk (HL & HF & Hc & HS & HV).
    rewrite (index_nth denom k 0), (index_nth l (k + j) 0) by lia. ostep.
    rewrite store_ok by lia. eexists. split; [reflexivity|].
    destruct (mulsub_column (limb l (k + j)) (limb denom k) c qhat) as [Hc' E]; try done;
      [by apply limb_is_u|by apply limb_is_u|].
    set (st := i64 (u64 (u64 (limb l (k + j) - c) - Z.land (u64 (qhat * limb denom k)) 4294967295))) in *.
    set (c' := u64 _) in *. cbn -[Z.pow Z.of_nat].
    split; [by rewrite length_insert|]. split; [by apply Forall_store|]. split; [done|]. split.
    + intros i Hi. rewrite limb_insert_ne by lia. apply HS. lia.
    + rewrite sval_insert_out by lia. rewrite HV. rewrite (Nat.add_comm j k), limb_insert_eq by lia.
      rewrite (HS (k + j)%nat) in E by lia.
      rewrite (Nat2Z.inj_succ k), Z.pow_succ_r by lia. nia.
  - exists l, c. by split.
Qed.

Lemma addback_spec n j numer denom :
  Forall is_u32 numer -> Forall is_u32 denom -> (n <= length denom)%nat -> (n + j <= length numer)%nat ->
  exists numer' carry, addback n j numer denom = Ok (numer', carry) /\
    length numer' = length numer /\ Forall is_u32 numer' /\ 0 <= carry <= 1 /\
    same_outside numer numer' j n /\
    val32 numer' j n + carry * B32 ^ Z.of_nat n = val32 numer j n + val32 denom 0 n.
Proof.
  intros Hf Hd Hn Hm. unfold addback.
  set (I := fun k (st : list Z * Z) => let '(l, carry) := st in
    length l = length numer /\ Forall is_u32 l /\ 0 <= carry <= 1 /\
    same_outside numer l j k /\
    val32 l j k + carry * B32 ^ Z.of_nat k = val32 numer j k + val32 denom 0 k).
  match goal with |- context [for_up ?n ?lo ?body ?s0] =>
    destruct (for_up_inv I body n lo s0) as ([l c] & -> & HI) end.
  - unfold I. split; [done|]. split; [done|]. split; [lia|]. split; [by intros k|]. simpl. lia.
  - intros k [l c] Hk (HL & HF & Hc & HS & HV).
    rewrite (index_nth denom k 0), (index_nth l (k + j) 0) by lia. ostep.
    rewrite store_ok by lia. eexists. split; [reflexivity|].
    pose proof (limb_range 32 l (k + j) ltac:(lia) HF). pose proof (limb_range 32 denom k ltac:(lia) Hd).
    rewrite (u64_small (limb denom k + c)) by lia.
    rewrite (u64_small (limb l (k + j) + (limb denom k + c))) by lia.
    set (t := limb l (k + j) + (limb denom k + c)).
    assert (Et : t = u32 t + Z.shiftr t 32 * B32).
    { rewrite Z.shiftr_div_pow2 by lia. unfold uw. pose proof (Z.div_mod t B32). lia. }
    cbn -[Z.pow Z.shiftr Z.of_nat].
    split; [by rewrite length_insert|]. split; [by apply Forall_store|]. split.
    { rewrite Z.shiftr_div_pow2 by lia. split; [apply Z.div_pos; lia|].
      enough (t / B32 < 2) by lia. apply Z.div_lt_upper_bound; lia. }
    split.
    + intros i Hi. rewrite limb_insert_ne by lia. apply HS. lia.
    + rewrite sval_insert_out by lia. rewrite (Nat.add_comm j k), limb_insert_eq by lia.
      unfold t in Et at 1. rewrite (HS (k + j)%nat) in Et by lia.
      rewrite (Nat2Z.inj_succ k), Z.pow_succ_r by lia. nia.
  - exists l, c. by split.
Qed.

(** The two leading limbs of the divisor and three of the dividend, as
    [TrialDigit] wants them. *)
Lemma val32_lead2 l s k :
  val32 l s (S (S k)) = val32 l s k + B32 ^ Z.of_nat k * (limb l (s + k) + B32 * limb l (s + S k)).
Proof. cbn [sval]. rewrite Nat2Z.inj_succ, Z.pow_succ_r by lia. lia. Qed.

Lemma val32_lead3 l s k :
  val32 l s (S (S (S k))) = val32 l s k + B32 ^ Z.of_nat k *
    (limb l (s + k) + B32 * (limb l (s + S (S k)) * B32 + limb l (s + S k))).
Proof. cbn [sval]. rewrite !Nat2Z.inj_succ, !Z.pow_succ_r by lia. lia. Qed.

Lemma val32_cons l s n : val32 l s (S n) = limb l s + B32 * val32 l (S s) n.
Proof.
  change (S n) with (1 + n)%nat. rewrite sval_split by lia. cbn [sval].
  rewrite Nat.add_0_r, Nat.add_1_r. change (Z.of_nat 1) with 1. change (Z.of_nat 0) with 0.
  rewrite Z.pow_0_r, Z.pow_1_r. lia.
Qed.

(** After the subtraction: the window's value, and what the borrow says. *)
Lemma after_mulsub n u v qhat low st :
  0 < v < B32 ^ Z.of_nat n -> 0 <= low < B32 ^ Z.of_nat n -> u / v <= qhat <= u / v + 1 ->
  u - qhat * v = low + B32 ^ Z.of_nat n * st ->
  (0 <= st -> qhat = u / v /\ low = u mod v /\ st = 0) /\
  (st < 0 -> qhat = u / v + 1 /\ low + v + B32 ^ Z.of_nat n * st = u mod v).
Proof.
  intros Hv Hl Hq E. set (P := B32 ^ Z.of_nat n) in *.
  pose proof (Z.div_mod u v ltac:(lia)) as D. pose proof (Z.mod_pos_bound u v ltac:(lia)) as M.
  assert (qhat = u / v \/ qhat = u / v + 1) as [-> | ->] by lia.
  - assert (st = 0) by nia. split; intros; [|lia]. subst st. repeat split; lia.
  - assert (st < 0) by nia. split; intros; [lia|]. split; [done|]. lia.
Qed.

(** The digit step for divisor [denom] at [position = j]: its context. *)
Section DigitStep.
Variables (n j : nat) (numer denom : list Z).
Let u := val32 numer j (S n).
Let v := val32 denom 0 n.
Hypotheses (Hn : (2 <= n <= length denom)%nat) (Hl : (n + j < length numer)%nat)
  (Hf : Forall is_u32 numer) (Hd : Forall is_u32 denom)
  (Htop : B32 <= 2 * limb denom (n - 1)) (Hlt : val32 numer (S j) n < v).

Lemma digit_bounds : 0 <= u < B32 * v /\ 0 < v < B32 ^ Z.of_nat n.
Proof using All.
  pose proof (sval_range 32 denom 0 n ltac:(lia) Hd) as Hv. fold v in Hv.
  pose proof (limb_range 32 numer j ltac:(lia) Hf).
  pose proof (sval_range 32 numer (S j) n ltac:(lia) Hf).
  unfold u. rewrite val32_cons. lia.
Qed.

Lemma digit_range : 0 <= u / v < B32.
Proof using All.
  destruct digit_bounds. split; [apply Z.div_pos; lia|]. apply Z.div_lt_upper_bound; lia.
Qed.

Lemma trial_quotient_spec :
  exists qhat, trial_quotient n (limb denom (n - 1)) numer denom j = Ok qhat /\
    u / v <= qhat <= u / v + 1 /\ 0 <= qhat <= 0xffffffff.
Proof using All.
  destruct digit_bounds as [Hu Hv]. unfold trial_quotient, usub. rewrite !decide_True by lia. ostep.
  clear Hlt. destruct n as [|[|k]]; try lia.
  replace (S (S k) - 1)%nat with (S k) in * by lia. replace (S (S k) - 2)%nat with k by lia.
  rewrite (index_nth numer (S (S k) + j) 0), (index_nth numer (S k + j) 0) by lia. ostep.
  pose proof (limb_range 32 numer (S (S k) + j) ltac:(lia) Hf) as R0.
  pose proof (limb_range 32 numer (S k + j) ltac:(lia) Hf) as R1.
  pose proof (limb_range 32 numer (k + j) ltac:(lia) Hf) as R2.
  pose proof (limb_range 32 denom (S k) ltac:(lia) Hd) as D1.
  pose proof (limb_range 32 denom k ltac:(lia) Hd) as D2.
  rewrite Z.shiftl_mul_pow2 by lia. set (top := limb denom (S k)) in *.
  set (tmp := limb numer (S (S k) + j) * B32 + limb numer (S k + j)).
  rewrite (u64_small tmp) by (unfold tmp; lia).
  destruct (Z.eqb_spec top 0) as [|_]; [lia|].
  rewrite (index_nth denom k 0), (index_nth numer (k + j) 0) by lia. ostep.
  assert (Eu : u = val32 numer j k + B32 ^ Z.of_nat k * (limb numer (k + j) + B32 * tmp)).
  { unfold u, tmp. rewrite val32_lead3. rewrite !(Nat.add_comm j). done. }
  assert (Ev : v = val32 denom 0 k + B32 ^ Z.of_nat k * (limb denom k + B32 * top)).
  { unfold v. by rewrite val32_lead2. }
  pose proof (sval_range 32 numer j k ltac:(lia) Hf) as Hulow.
  pose proof (sval_range 32 denom 0 k ltac:(lia) Hd) as Hvlow.
  assert (Hw : 0 < B32 ^ Z.of_nat k) by (apply Z.pow_pos_nonneg; lia).
  assert (Htmp : 0 <= tmp) by (unfold tmp; lia).
  rewrite Eu, Ev. apply trial_digit_spec; try lia.
  assert (limb numer (S (S k) + j) <= top); [|unfold tmp; lia].
  rewrite Eu, Ev in Hu. unfold tmp in Hu. nia.
Qed.
End DigitStep.

Lemma addback_digit_spec n j l denom st r :
  Forall is_u32 l -> Forall is_u32 denom -> (n <= length denom)%nat -> (n + j < length l)%nat ->
  0 <= r < B32 ^ Z.of_nat n -> val32 l j n + val32 denom 0 n + B32 ^ Z.of_nat n * st = r ->
  exists l', addback_digit n j (<[(j + n)%nat:=u32 st]> l) denom = Ok l' /\
    length l' = length l /\ Forall is_u32 l' /\ same_outside l l' j (S n) /\
    val32 l' j n = r /\ limb l' (j + n) = 0.
Proof.
  intros HF Hd Hn Hj Hr Er. unfold addback_digit.
  destruct (addback_spec n j (<[(j + n)%nat:=u32 st]> l) denom) as (l2 & c2 & -> & HL2 & HF2 & Hc2 & HS2 & HV2).
  { by apply Forall_store. } { done. } { lia. } { rewrite length_insert. lia. }
  rewrite length_insert in HL2. ostep. rewrite (index_nth l2 (j + n) 0) by lia.
  ostep. rewrite store_ok by lia. rewrite (HS2 (j + n)%nat), limb_insert_eq by lia.
  rewrite (u32_small c2) by lia. rewrite sval_insert_out in HV2 by lia.
  pose proof (sval_range 32 l2 j n ltac:(lia) HF2) as Hlow2.
  set (P := B32 ^ Z.of_nat n) in *. assert (E : val32 l2 j n + P * (st + c2) = r) by lia.
  assert (Ez : st + c2 = 0) by nia.
  replace (u32 (u32 st + c2)) with 0 by (unfold uw; rewrite Zplus_mod_idemp_l, Ez; done).
  eexists. split; [reflexivity|]. rewrite length_insert. split; [lia|].
  split; [apply Forall_insert; [done|unfold is_u; lia]|]. split; [|split].
  - intros i Hi. rewrite limb_insert_ne, (HS2 i), limb_insert_ne by lia. done.
  - rewrite sval_insert_out by lia. rewrite Ez in E. lia.
  - by rewrite limb_insert_eq by lia.
Qed.

Lemma knuth_step_spec n j numer quotient denom (u := val32 numer j (S n)) (v := val32 denom 0 n) :
  (2 <= n <= length denom)%nat -> (n + j < length numer)%nat -> (j < length quotient)%nat ->
  Forall is_u32 numer -> Forall is_u32 denom -> B32 <= 2 * limb denom (n - 1) ->
  val32 numer (S j) n < v ->
  exists numer', knuth_step n (limb denom (n - 1)) denom j (numer, quotient) =
      Ok (numer', <[j := u / v]> quotient) /\
    length numer' = length numer /\ Forall is_u32 numer' /\ same_outside numer numer' j (S n) /\
    val32 numer' j n = u mod v /\ limb numer' (j + n) = 0.
Proof.
  intros Hn Hl Hq Hf Hd Htop Hlt.
  destruct (digit_bounds n j numer denom) as [Hu Hv]; try done. fold u v in Hu, Hv.
  pose proof (digit_range n j numer denom Hn Hl Hf Hd Htop Hlt) as Hd32. fold u v in Hd32.
  unfold knuth_step.
  destruct (trial_quotient_spec n j numer denom) as (qhat & -> & Hqh & Hq32); try done.
  fold u v in Hqh. ostep.
  destruct (mulsub_spec n j qhat numer denom) as (l & c & -> & HL & HF & Hc & HS & HV); try done; [lia..|].
  fold v in HV. ostep. rewrite (index_nth l (j + n) 0) by lia. ostep.
  pose proof (limb_range 32 l (j + n) ltac:(lia) HF) as Rx.
  assert (Est : i64 (u64 (limb l (j + n) - c)) = limb l (j + n) - c).
  { rewrite sw_uw by lia. apply sw_small; [lia|]. unfold is_s. lia. }
  rewrite Est. set (st := limb l (j + n) - c).
  rewrite (store_ok l) by lia. ostep. rewrite (store_ok quotient) by lia. ostep.
  assert (Ew : u - qhat * v = val32 l j n + B32 ^ Z.of_nat n * st).
  { unfold u, st. cbn [sval]. rewrite HV, (HS (j + n)%nat) by lia. lia. }
  pose proof (sval_range 32 l j n ltac:(lia) HF) as Hlow.
  destruct (after_mulsub n u v qhat (val32 l j n) st) as [Hpos Hneg]; [lia|done|done|done|].
  pose proof (Z.mod_pos_bound u v ltac:(lia)) as Hmod. rewrite (u32_small qhat) by lia.
  destruct (Z.ltb_spec st 0) as [Hst|Hst].
  - destruct (Hneg Hst) as [Eq Er]. rewrite (index_nth _ j 0) by (rewrite length_insert; lia).
    ostep. rewrite store_ok by (rewrite length_insert; lia). ostep.
    rewrite limb_insert_eq, list_insert_insert_eq by lia.
    replace (u32 (qhat - 1)) with (u / v) by (rewrite u32_small; lia).
    destruct (addback_digit_spec n j l denom st (u mod v)) as (l' & -> & HL' & HF' & HS' & HV' & H0'); try done; try lia.
    exists l'. repeat split; try done; [lia|]. intros i Hi. rewrite HS' by done. apply HS. lia.
  - destruct (Hpos Hst) as (-> & Er & E0). rewrite E0. change (u32 0) with 0.
    eexists. split; [reflexivity|]. rewrite length_insert. split; [done|].
    split; [apply Forall_insert; [done|unfold is_u; lia]|]. split; [|split].
    + intros i Hi. rewrite limb_insert_ne by lia. apply HS. lia.
    + rewrite sval_insert_out by lia. done.
    + by rewrite limb_insert_eq by lia.
Qed.

(** ** Algorithm D *)

(** The digit loop: dividing the [n + m] limbs of [numer0] by a normalized
    divisor of [n] limbs. *)
Section DigitLoop.
Variables (n m : nat) (numer0 denom quotient0 : list Z).
Let v := val32 denom 0 n.
Let u := val32 numer0 0 (n + m).
Hypotheses (Hn : (2 <= n <= length denom)%nat) (Hl : (n + m <= length numer0)%nat)
  (Hm : (m <= length quotient0)%nat) (Hf : Forall is_u32 numer0) (Hd : Forall is_u32 denom)
  (Hq : Forall is_u32 quotient0)
  (Htop : B32 <= 2 * limb denom (n - 1)) (Hlt : val32 numer0 m n < v).

(** The digits from [i] on are found; what is left of the dividend is in the
    low [n + i] limbs, its leading [n] limbs below the divisor. *)
Definition digits_found (i : nat) (st : list Z * list Z) : Prop :=
  let '(numer, quotient) := st in
  length numer = length numer0 /\ Forall is_u32 numer /\
  length quotient = length quotient0 /\ Forall is_u32 quotient /\
  (forall k, (n + i <= k < n + m)%nat -> limb numer k = 0) /\
  (forall k, (m <= k)%nat -> limb quotient k = limb quotient0 k) /\
  val32 numer i n < v /\
  u = v * val32 quotient i (m - i) * B32 ^ Z.of_nat i + val32 numer 0 (n + i).

Lemma digits_found_step i st : (i < m)%nat -> digits_found (S i) st ->
  exists st', knuth_step n (limb denom (n - 1)) denom i st = Ok st' /\ digits_found i st'.
Proof using All.
  destruct st as [numer quotient]. intros Hi (HL & HF & HLq & HFq & HZ & HQ & HV & HU).
  destruct (knuth_step_spec n i numer quotient denom) as (l & -> & HL' & HF' & HS & Hr & H0); try done; try lia.
  set (w := val32 numer i (S n)) in *. fold v in Hr |- *.
  pose proof (digit_range n i numer denom Hn ltac:(lia) HF Hd Htop HV) as Hd32.
  destruct (digit_bounds n i numer denom) as [Hw Hv]; try done; try lia. fold w v in Hd32, Hw, Hv.
  eexists. split; [reflexivity|]. unfold digits_found. rewrite length_insert.
  split; [lia|]. split; [done|]. split; [done|]. split; [by apply Forall_insert|].
  split; [|split; [|split]].
  - intros k Hk. destruct (decide (k = n + i)%nat) as [->|].
    + by rewrite Nat.add_comm.
    + rewrite HS by lia. apply HZ. lia.
  - intros k Hk. rewrite limb_insert_ne by lia. by apply HQ.
  - rewrite Hr. apply Z.mod_pos_bound. lia.
  - replace (m - i)%nat with (S (m - S i)) by lia. rewrite val32_cons, limb_insert_eq by lia.
    rewrite sval_insert_out by lia. rewrite HU.
    replace (n + S i)%nat with (i + S n)%nat by lia. rewrite (sval_split B32 numer 0 i (S n)) by lia.
    rewrite (Nat.add_comm n i), (sval_split B32 l 0 i n) by lia. simpl Nat.add. fold w.
    rewrite (sval_ext B32 l numer 0 0 i) by (intros; apply HS; lia).
    rewrite Hr, (Nat2Z.inj_succ i), Z.pow_succ_r by lia.
    pose proof (Z.div_mod w v ltac:(lia)) as D. rewrite D at 1. ring.
Qed.

Lemma digits_found_all : exists numer quotient,
  for_down m 0 (knuth_step n (limb denom (n - 1)) denom) (numer0, quotient0) = Ok (numer, quotient) /\
  length numer = length numer0 /\ Forall is_u32 numer /\ Forall is_u32 quotient /\
  length quotient = length quotient0 /\
  (forall k, (m <= k)%nat -> limb quotient k = limb quotient0 k) /\
  val32 quotient 0 m = u / v /\ val32 numer 0 (n + m) = u mod v.
Proof using All.
  destruct (for_down_inv digits_found (knuth_step n (limb denom (n - 1)) denom) m 0 (numer0, quotient0))
    as ([l q] & -> & HL & HF & HLq & HFq & HZ & HQ & HV & HU).
  - simpl. repeat split; try done; [lia|]. rewrite Nat.sub_diag. simpl. unfold u. lia.
  - intros i st Hi. apply digits_found_step. lia.
  - exists l, q. rewrite Nat.sub_0_r, Nat.add_0_r, Z.pow_0_r, Z.mul_1_r in *.
    pose proof (sval_range 32 l 0 n ltac:(lia) HF) as Hr.
    rewrite (sval_split B32 l 0 n m) by lia. rewrite (sval_zeros B32 l (0 + n) m) by (intros; apply HZ; lia).
    rewrite Z.mul_0_r, Z.add_0_r. rewrite HU.
    rewrite (Z.mul_comm v), Z.div_add_l, (Z.add_comm (_ * _)), Z.mod_add by lia.
    rewrite Z.div_small, Z.mod_small by lia. repeat split; try done; lia.
Qed.
End DigitLoop.

(** The shift that normalizes a divisor with leading limb [d]. *)
Lemma norm_shift d (s := leading_zeros d - 32) : 0 < d < B32 ->
  0 <= s < 32 /\ 2 ^ 31 <= d * 2 ^ s /\ (d + 1) * 2 ^ s <= B32.
Proof.
  intros Hd. unfold s, leading_zeros. destruct (Z.eqb_spec d 0); [lia|].
  pose proof (Z.log2_spec d ltac:(lia)) as [L1 L2].
  assert (0 <= Z.log2 d < 32) by (split; [apply Z.log2_nonneg|apply Z.log2_lt_pow2; lia]).
  replace (63 - Z.log2 d - 32) with (31 - Z.log2 d) by lia.
  assert (E1 : 2 ^ 31 = 2 ^ Z.log2 d * 2 ^ (31 - Z.log2 d)) by (rewrite <- Z.pow_add_r by lia; f_equal; lia).
  assert (E2 : B32 = 2 ^ Z.succ (Z.log2 d) * 2 ^ (31 - Z.log2 d)) by (rewrite <- Z.pow_add_r by lia; f_equal; lia).
  pose proof (pow2_pos (31 - Z.log2 d) ltac:(lia)).
  split; [lia|]. rewrite E1. rewrite E2. split; apply Z.mul_le_mono_nonneg_r; lia.
Qed.

(** The leading limb bounds the value on both sides. *)
Lemma val32_top l n : Forall is_u32 l -> (1 <= n)%nat ->
  limb l (n - 1) * B32 ^ Z.of_nat (n - 1) <= val32 l 0 n < (limb l (n - 1) + 1) * B32 ^ Z.of_nat (n - 1).
Proof.
  intros Hf Hn. destruct n as [|n]; [lia|]. replace (S n - 1)%nat with n by lia.
  cbn [sval Nat.add]. pose proof (sval_range 32 l 0 n ltac:(lia) Hf). lia.
Qed.

Lemma knuth_algorithm_d_spec n m numer denom quotient :
  (2 <= n <= length denom)%nat -> (1 <= m <= length quotient)%nat -> (n + m <= length numer)%nat ->
  Forall is_u32 numer -> Forall is_u32 denom -> Forall is_u32 quotient ->
  limb denom (n - 1) <> 0 -> limb numer (n + m - 1) = 0 ->
  exists numer' denom' quotient',
    knuth_algorithm_d (n + m) n numer denom quotient = Ok (numer', denom', quotient') /\
    length numer' = length numer /\ Forall is_u32 numer' /\
    length quotient' = length quotient /\ Forall is_u32 quotient' /\
    (forall k, (m <= k)%nat -> limb quotient' k = limb quotient k) /\
    val32 quotient' 0 m = val32 numer 0 (n + m) / val32 denom 0 n /\
    val32 numer' 0 (n + m) = val32 numer 0 (n + m) mod val32 denom 0 n.
Proof.
  intros Hn Hm Hl Hf Hd Hq Hd0 Hn0. unfold knuth_algorithm_d, usub. rewrite !decide_True by lia. ostep.
  rewrite (index_nth denom (n - 1) 0) by lia. ostep.
  pose proof (limb_range 32 denom (n - 1) ltac:(lia) Hd) as Rd.
  destruct (norm_shift (limb denom (n - 1)) ltac:(lia)) as (Hs & Hlo & Hhi).
  set (s := leading_zeros _ - 32) in *.
  pose proof (val32_top denom n Hd ltac:(lia)) as Td. pose proof (val32_top numer (n + m) Hf ltac:(lia)) as Tn.
  rewrite Hn0 in Tn. pose proof (pow2_pos s ltac:(lia)) as Hp.
  set (D := val32 denom 0 n) in *. set (N := val32 numer 0 (n + m)) in *.
  assert (EP : B32 ^ Z.of_nat n = B32 * B32 ^ Z.of_nat (n - 1)) by (rewrite <- Z.pow_succ_r by lia; f_equal; lia).
  assert (0 < B32 ^ Z.of_nat (n - 1)) by (apply Z.pow_pos_nonneg; lia).
  set (P := B32 ^ Z.of_nat (n - 1)) in *.
  destruct (shift_left_value denom n s) as (dn & -> & Ldn & Fdn & Vdn & _); [done|lia|done| |].
  { fold D. rewrite EP. nia. }
  ostep.
  destruct (shift_left_value numer (n + m) s) as (nn & -> & Lnn & Fnn & Vnn & _); [done|lia|done| |].
  { fold N. assert (2 ^ s < B32) by (apply Z.pow_lt_mono_r; lia).
    replace (B32 ^ Z.of_nat (n + m)) with (B32 * B32 ^ Z.of_nat (n + m - 1)) by (rewrite <- Z.pow_succ_r by lia; f_equal; lia).
    pose proof (sval_range 32 numer 0 (n + m) ltac:(lia) Hf) as HN. fold N in HN. nia. }
  ostep. rewrite (index_nth dn (n - 1) 0) by lia. ostep. fold D in Vdn. fold N in Vnn.
  pose proof (val32_top dn n Fdn ltac:(lia)) as Tdn. rewrite Vdn in Tdn.
  assert (Htop : B32 <= 2 * limb dn (n - 1)).
  { fold P in Tdn. assert (2 ^ 31 * P <= D * 2 ^ s) by nia. nia. }
  assert (HD : 0 < D) by nia.
  assert (Hlt : val32 nn m n < val32 dn 0 n).
  { rewrite Vdn. rewrite (Nat.add_comm n m), (sval_split B32 nn 0 m n) in Vnn by lia. simpl Nat.add in Vnn.
    pose proof (sval_range 32 nn 0 m ltac:(lia) Fnn).
    replace (B32 ^ Z.of_nat (n + m - 1)) with (P * B32 ^ Z.of_nat m) in Tn
      by (unfold P; rewrite <- Z.pow_add_r by lia; f_equal; lia).
    set (M := B32 ^ Z.of_nat m) in *. assert (M * val32 nn m n < M * (P * 2 ^ s)) by nia.
    assert (P * 2 ^ s <= D * 2 ^ s) by nia. nia. }
  replace (n + m - n)%nat with m by lia.
  destruct (digits_found_all n m nn dn quotient) as (l & q & -> & HL & HF & HFq & HLq & HQ & HVq & HVr); try done; try lia.
  ostep. rewrite Vdn, Vnn in HVq, HVr.
  rewrite Z.div_mul_cancel_r in HVq by lia. rewrite Z.mul_mod_distr_r in HVr by lia.
  destruct (shift_right_value l (n + m) s (N mod D)) as (l' & -> & HL' & HF' & HV' & _); try done; [lia|].
  ostep. exists l', dn, q. repeat split; try done; lia.
Qed.

(** ** Splitting, packing and the full division *)

(** The four 32-bit words of a pair and the number of significant ones. *)
Definition words (a b : Z) : list Z := [u32 a; Z.shiftr a 32; u32 b; Z.shiftr b 32].

Definition significant (a b : Z) : Z :=
  if negb (Z.shiftr b 32 =? 0) then 4 else if negb (u32 b =? 0) then 3
  else if negb (Z.shiftr a 32 =? 0) then 2 else if negb (u32 a =? 0) then 1 else 0.

Lemma hi_word a : is_u64 a -> is_u32 (Z.shiftr a 32).
Proof.
  unfold is_u. intros. rewrite Z.shiftr_div_pow2 by lia.
  split; [apply Z.div_pos; lia|apply Z.div_lt_upper_bound; lia].
Qed.

Lemma word_split a : a = u32 a + Z.shiftr a 32 * B32.
Proof. rewrite Z.shiftr_div_pow2 by lia. unfold uw. pose proof (Z.div_mod a B32). lia. Qed.

Lemma split64_32_words a b tail : is_u64 a -> is_u64 b ->
  split64_32 2 [a; b] (0 :: 0 :: 0 :: 0 :: tail) = Ok (words a b ++ tail, significant a b).
Proof.
  intros Ha Hb. pose proof (hi_word a Ha) as Ra. pose proof (hi_word b Hb) as Rb.
  unfold split64_32. cbn -[uw Z.shiftr Z.land Z.eqb].
  change 4294967295 with (Z.ones 32). rewrite !land_ones_uw by lia.
  rewrite !(uw_idem 32 32) by lia. rewrite !(uw_small 32 (Z.shiftr _ _)) by done.
  reflexivity.
Qed.

Lemma words_ok a b : is_u64 a -> is_u64 b ->
  Forall is_u32 (words a b) /\ val32 (words a b) 0 4 = value [a; b].
Proof.
  intros Ha Hb. split.
  - unfold words. repeat (apply Forall_cons; split; [first [by apply uw_range|by apply hi_word]|]). done.
  - rewrite value_pair. unfold words. cbn -[uw Z.shiftr Z.pow].
    pose proof (word_split a). pose proof (word_split b). lia.
Qed.

(** [significant] is the length of the base-2^32 representation. *)
Lemma significant_spec a b tail c : c = Z.to_nat (significant a b) ->
  (c <= 4)%nat /\ significant a b = Z.of_nat c /\
  (forall k, (c <= k < 4)%nat -> limb (words a b ++ tail) k = 0) /\
  ((0 < c)%nat -> limb (words a b ++ tail) (c - 1) <> 0).
Proof.
  unfold significant, words.
  destruct (Z.eqb_spec (Z.shiftr b 32) 0) as [Z3|]; cbn [negb];
  [destruct (Z.eqb_spec (u32 b) 0) as [Z2|]; cbn [negb];
  [destruct (Z.eqb_spec (Z.shiftr a 32) 0) as [Z1|]; cbn [negb];
  [destruct (Z.eqb_spec (u32 a) 0) as [Z0|]; cbn [negb]|]|]|];
  intros ->; (split; [lia|]); (split; [lia|]); (split; [|cbn -[uw Z.shiftr]; try lia; done]);
  intros k Hk; do 4 (destruct k as [|k]; [cbn -[uw Z.shiftr]; try done; lia|]); lia.
Qed.

Lemma lor_words hi lo : is_u32 hi -> is_u32 lo -> Z.lor (u64 (Z.shiftl hi 32)) lo = lo + hi * B32.
Proof.
  unfold is_u. intros. rewrite u64_small by (rewrite Z.shiftl_mul_pow2 by lia; lia).
  rewrite lor_add by (unfold is_u; lia). lia.
Qed.

(** [pack32_64] keeps the low [max] words. *)
Lemma pack32_64_value max input :
  0 <= max <= 4 -> (4 <= length input)%nat -> Forall is_u32 input ->
  exists r, pack32_64 2 max [0; 0] input = Ok r /\ is_u128 r /\ value r = val32 input 0 (Z.to_nat max).
Proof.
  intros Hm Hl Hf. destruct input as [|w0 [|w1 [|w2 [|w3 tail]]]]; simpl in Hl; try lia. clear Hl.
  apply Forall_cons in Hf as [H0 Hf]. apply Forall_cons in Hf as [H1 Hf].
  apply Forall_cons in Hf as [H2 Hf]. apply Forall_cons in Hf as [H3 Hf].
  assert (Hz : is_u32 0) by (unfold is_u; lia).
  assert (Hp : forall hi lo, is_u32 hi -> is_u32 lo -> is_u64 (lo + hi * B32)) by (unfold is_u; intros; lia).
  assert (max = 0 \/ max = 1 \/ max = 2 \/ max = 3 \/ max = 4) as Hc by lia.
  destruct Hc as [-> | [-> | [-> | [-> | ->]]]];
    unfold pack32_64; cbn -[uw Z.shiftl Z.lor value Z.pow];
    eexists; (split; [reflexivity|]); two_stores;
    rewrite ?lor_words, ?(Z.shiftl_0_l 32) by done; change (u64 0) with 0;
    rewrite ?Z.lor_0_l, ?value_pair;
    (split; [apply is_u128_intro; first [by apply Hp|unfold is_u in *; lia]|]); simpl; lia.
Qed.

(** Long division by one word. *)
Lemma short_divide_value len d numer quotient :
  0 < d < B32 -> (len <= length numer)%nat -> (len <= length quotient)%nat ->
  Forall is_u32 numer -> Forall is_u32 quotient ->
  exists numer' quotient' rem, short_divide len d numer quotient = Ok (numer', quotient', rem) /\
    length numer' = length numer /\ Forall is_u32 numer' /\
    length quotient' = length quotient /\ Forall is_u32 quotient' /\
    (forall k, (k < len)%nat -> limb numer' k = 0) /\
    val32 quotient' 0 len = val32 numer 0 len / d /\ rem = val32 numer 0 len mod d.
Proof.
  intros Hd Hl Hq Hf Hfq. unfold short_divide.
  set (I := fun i (st : list Z * list Z * Z) => let '(l, q, rem) := st in
    length l = length numer /\ Forall is_u32 l /\ length q = length quotient /\ Forall is_u32 q /\
    (forall k, (i <= k < len)%nat -> limb l k = 0) /\ (forall k, (k < i)%nat -> limb l k = limb numer k) /\
    0 <= rem < d /\ val32 numer i (len - i) = d * val32 q i (len - i) + rem).
  match goal with |- context [for_down ?n ?lo ?body ?s0] =>
    destruct (for_down_inv I body n lo s0) as ([[l q] r] & -> & HL & HF & HLq & HFq & HZ & _ & Hr & HV) end.
  - unfold I. simpl. rewrite Nat.sub_diag. simpl. repeat split; try done; lia.
  - intros i [[l q] r] Hi (HL & HF & HLq & HFq & HZ & HU & Hr & HV).
    rewrite (index_nth l i 0) by lia. ostep. pose proof (limb_range 32 l i ltac:(lia) HF) as Rx.
    rewrite (u64_small (Z.shiftl r 32)) by (rewrite Z.shiftl_mul_pow2 by lia; lia).
    rewrite Z.shiftl_mul_pow2 by lia. rewrite u64_small by lia. set (t := r * B32 + limb l i).
    destruct (Z.eqb_spec d 0); [lia|]. rewrite !store_ok by lia. ostep.
    assert (Ht : 0 <= t / d < B32).
    { split; [apply Z.div_pos; lia|]. apply Z.div_lt_upper_bound; unfold t; nia. }
    rewrite (u32_small (t / d)) by lia.
    eexists. split; [reflexivity|]. unfold I. rewrite !length_insert.
    split; [done|]. split; [apply Forall_insert; [done|unfold is_u; lia]|]. split; [done|].
    split; [apply Forall_insert; [done|unfold is_u; lia]|].
    split; [|split; [|split]].
    + intros k Hk. destruct (decide (k = i)) as [->|]; [by rewrite limb_insert_eq by lia|].
      rewrite limb_insert_ne by lia. apply HZ. lia.
    + intros k Hk. rewrite limb_insert_ne by lia. apply HU. lia.
    + apply Z.mod_pos_bound. lia.
    + replace (len - i)%nat with (S (len - S i)) by lia. rewrite !val32_cons, limb_insert_eq by lia.
      rewrite sval_insert_out by lia. rewrite HV. pose proof (Z.div_mod t d ltac:(lia)) as D.
      unfold t in D at 1. rewrite HU in D by lia. nia.
  - exists l, q, r. rewrite Nat.sub_0_r in HV. rewrite HV.
    rewrite (Z.mul_comm d), Z.div_add_l, (Z.add_comm (_ * _)), Z.mod_add by lia.
    rewrite Z.div_small, Z.mod_small by lia. repeat split; try done; try lia. intros k Hk. apply HZ. lia.
Qed.

Lemma val32_significant a b tail (k := Z.to_nat (significant a b)) : is_u64 a -> is_u64 b ->
  val32 (words a b ++ tail) 0 k = value [a; b].
Proof.
  intros Ha Hb. destruct (significant_spec a b tail k) as (Hk & _ & Hz & _); [done|].
  destruct (words_ok a b Ha Hb) as [_ <-].
  transitivity (val32 (words a b ++ tail) 0 4); [|apply sval_ext; intros i Hi; simpl Nat.add; by rewrite app_nth1].
  replace 4%nat with (k + (4 - k))%nat by lia. rewrite sval_split by lia.
  rewrite (sval_zeros B32 _ (0 + k)) by (intros; apply Hz; lia). lia.
Qed.

(** The division of a pair by a non-zero pair, on its words. *)
Section UDiv.
Variables (n0 n1 d0 d1 : Z).
Hypotheses (Hn0 : is_u64 n0) (Hn1 : is_u64 n1) (Hd0 : is_u64 d0) (Hd1 : is_u64 d1).
Let N := value [n0; n1].
Let D := value [d0; d1].
Let nw := words n0 n1 ++ [0].
Let dw := words d0 d1.
Let e := Z.to_nat (significant n0 n1).
Let c := Z.to_nat (significant d0 d1).

Lemma nw_facts : length nw = 5%nat /\ Forall is_u32 nw /\ val32 nw 0 e = N /\ (e <= 4)%nat /\
  significant n0 n1 = Z.of_nat e /\ (forall k, (e <= k)%nat -> limb nw k = 0).
Proof using All.
  destruct (significant_spec n0 n1 [0] e) as (He & Es & Hz & _); [done|].
  split; [done|]. split; [apply Forall_app; split; [by apply words_ok|]; constructor; [unfold is_u; lia|constructor]|].
  split; [by apply val32_significant|]. split; [done|]. split; [done|].
  intros k Hk. destruct (decide (k < 4)%nat); [by apply Hz; lia|].
  destruct (decide (k = 4)%nat) as [->|]; [done|]. apply nth_overflow. simpl. lia.
Qed.

Lemma dw_facts : length dw = 4%nat /\ Forall is_u32 dw /\ val32 dw 0 c = D /\ (c <= 4)%nat /\
  significant d0 d1 = Z.of_nat c /\ ((0 < c)%nat -> limb dw (c - 1) <> 0).
Proof using All.
  destruct (significant_spec d0 d1 [] c) as (Hc & Es & _ & Ht); [done|]. rewrite app_nil_r in Ht.
  split; [done|]. split; [by apply words_ok|].
  split; [pose proof (val32_significant d0 d1 [] Hd0 Hd1) as H; by rewrite app_nil_r in H|]. done.
Qed.

Lemma c_pos : D <> 0 -> (0 < c)%nat.
Proof using All.
  destruct dw_facts as (_ & _ & V & _). destruct (decide (c = 0)%nat) as [E|]; [|lia].
  rewrite E in V. simpl in V. lia.
Qed.

(** The early exit is taken only for a dividend below the divisor. *)
Lemma smaller_sound : (0 < c)%nat ->
  ((e < c)%nat \/ c = e /\ limb nw (c - 1) < limb dw (c - 1)) -> N < D.
Proof using All.
  intros Hc Hs. destruct nw_facts as (_ & Fn & Vn & _). destruct dw_facts as (_ & Fd & Vd & _ & _ & Ht).
  specialize (Ht Hc). pose proof (val32_top dw c Fd ltac:(lia)) as Td.
  pose proof (limb_range 32 dw (c - 1) ltac:(lia) Fd) as Rd.
  assert (0 < B32 ^ Z.of_nat (c - 1)) by (apply Z.pow_pos_nonneg; lia). rewrite <- Vn, <- Vd.
  destruct Hs as [Hs|[Hs Hlt]].
  - pose proof (sval_range 32 nw 0 e ltac:(lia) Fn) as Rn.
    assert (B32 ^ Z.of_nat e <= B32 ^ Z.of_nat (c - 1)) by (apply Z.pow_le_mono_r; lia). nia.
  - rewrite <- Hs. pose proof (val32_top nw c Fn ltac:(lia)) as Tn. nia.
Qed.

(** Both ways to divide leave the quotient words and the remainder words. *)
Definition divide_words : outcome (list Z * list Z) :=
  if Z.of_nat c =? 1 then
    let! divisor := index dw 0 in
    let! (numer_words, quotient_words, rem) := short_divide e divisor nw [0; 0; 0; 0] in
    let! numer_words := store numer_words 0 (u32 rem) in
    Ok (numer_words, quotient_words)
  else
    let! numer_words := storei nw (Z.of_nat e) 0 in
    let! (numer_words, _, quotient_words) :=
      knuth_algorithm_d (Z.to_nat (Z.of_nat e + 1)) c numer_words dw [0; 0; 0; 0] in
    Ok (numer_words, quotient_words).

Lemma divide_words_spec : (0 < c <= e)%nat ->
  exists r q, divide_words = Ok (r, q) /\ (4 <= length r)%nat /\ Forall is_u32 r /\
    (4 <= length q)%nat /\ Forall is_u32 q /\ val32 q 0 (e - c + 1) = N / D /\ val32 r 0 e = N mod D.
Proof using All.
  intros Hce. destruct nw_facts as (Ln & Fn & Vn & He & _ & Zn). destruct dw_facts as (Ld & Fd & Vd & Hc & _ & Ht).
  specialize (Ht ltac:(lia)). pose proof (limb_range 32 dw (c - 1) ltac:(lia) Fd) as Rd.
  assert (Fz : Forall is_u32 [0; 0; 0; 0]) by (repeat (apply Forall_cons; split; [unfold is_u; lia|]); done).
  unfold divide_words. destruct (Z.eqb_spec (Z.of_nat c) 1) as [E|E].
  - assert (c = 1)%nat as E1 by lia. rewrite E1 in *. change (1 - 1)%nat with 0%nat in *.
    rewrite (index_nth dw 0 0) by lia. ostep.
    assert (ED : D = limb dw 0) by (rewrite <- Vd; simpl sval; rewrite Z.mul_1_r; done). rewrite <- ED in *.
    destruct (short_divide_value e D nw [0; 0; 0; 0]) as (r & q & m & -> & Lr & Fr & Lq & Fq & Zr & Vq & Em);
      [lia|lia|cbn [length]; lia|assumption|assumption|].
    ostep. rewrite store_ok by lia. ostep. rewrite Vn in Vq, Em.
    pose proof (Z.mod_pos_bound N D ltac:(lia)) as Rm. rewrite <- Em in Rm.
    eexists _, _. split; [reflexivity|]. rewrite length_insert. split; [lia|].
    split; [by apply Forall_store|]. split; [rewrite Lq; simpl; lia|]. split; [exact Fq|].
    split; [by replace (e - 1 + 1)%nat with e by lia|].
    replace e with (S (e - 1)) by lia. rewrite val32_cons, limb_insert_eq by lia.
    rewrite sval_insert_out, u32_small by lia. rewrite (sval_zeros B32 r 1) by (intros; apply Zr; lia). lia.
  - unfold storei. destruct (Z.ltb_spec (Z.of_nat e) 0); [lia|]. rewrite Nat2Z.id, store_ok by lia. ostep.
    replace (Z.to_nat (Z.of_nat e + 1)) with (c + (e - c + 1))%nat by lia.
    destruct (knuth_algorithm_d_spec c (e - c + 1) (<[e:=0]> nw) dw [0; 0; 0; 0])
      as (r & dn & q & -> & Lr & Fr & Lq & Fq & _ & Vq & Vr);
      [lia|cbn [length]; lia|rewrite length_insert; lia|apply Forall_insert; [assumption|unfold is_u; lia]
      |assumption|assumption|assumption| |].
    { replace (c + (e - c + 1) - 1)%nat with e by lia. apply limb_insert_eq. lia. }
    ostep. rewrite length_insert in Lr.
    replace (c + (e - c + 1))%nat with (S e) in * by lia. cbn [sval Nat.add] in Vq, Vr.
    rewrite sval_insert_out, limb_insert_eq, Vn, Vd, Z.mul_0_l, Z.add_0_r in Vq, Vr by lia.
    eexists _, _. split; [reflexivity|]. split; [lia|]. split; [done|]. split; [rewrite Lq; simpl; lia|]. split; [exact Fq|].
    split; [exact Vq|].
    assert (HD : 0 < D) by (pose proof (val32_top dw c Fd ltac:(lia)); assert (0 < B32 ^ Z.of_nat (c - 1)) by (apply Z.pow_pos_nonneg; lia); nia).
    pose proof (Z.mod_pos_bound N D HD). pose proof (sval_range 32 dw 0 c ltac:(lia) Fd). rewrite Vd in *.
    assert (B32 ^ Z.of_nat c <= B32 ^ Z.of_nat e) by (apply Z.pow_le_mono_r; lia).
    pose proof (limb_range 32 r e ltac:(lia) Fr). pose proof (sval_range 32 r 0 e ltac:(lia) Fr).
    assert (limb r e = 0) by nia. nia.
Qed.

(** [udiv128] past its one-word shortcut. *)
Lemma udiv128_unfold : (n1 =? 0) && (d1 =? 0) = false ->
  udiv128 [n0; n1] [d0; d1] =
  if (c =? 0)%nat then Err (Lowlevel "divide by 0")
  else if (e <? c)%nat || ((c =? e)%nat && (limb nw (c - 1) <? limb dw (c - 1)))
  then Ok ([0; 0], [n0; n1])
  else let! (r, q) := divide_words in
       let! quotient := pack32_64 2 (Z.of_nat e - Z.of_nat c + 1) [0; 0] q in
       let! remainder := pack32_64 2 (Z.of_nat e) [0; 0] r in
       Ok (quotient, remainder).
Proof using All.
  intros Hslow. destruct nw_facts as (Ln & Fn & Vn & He & Es & Zn). destruct dw_facts as (Ld & Fd & Vd & Hc & Ds & Ht).
  unfold udiv128. rewrite !(index_nth _ _ 0) by (cbn [length]; lia). cbn [nth]. ostep. rewrite Hslow.
  rewrite (split64_32_words d0 d1 []), (split64_32_words n0 n1 [0]) by assumption. rewrite app_nil_r. ostep.
  fold dw nw. rewrite Es, Ds. unfold divide_words. rewrite !Nat2Z.id.
  destruct (Nat.eqb_spec c 0) as [C|C]; [by rewrite C|].
  destruct (Z.eqb_spec (Z.of_nat c) 0); [lia|].
  destruct (Nat.ltb_spec e c); destruct (Z.ltb_spec (Z.of_nat e) (Z.of_nat c)); try lia; [done|]. cbn [orb].
  destruct (Nat.eqb_spec c e); destruct (Z.eqb_spec (Z.of_nat c) (Z.of_nat e)); try lia; [|done]. cbn [andb].
  unfold indexi. destruct (Z.ltb_spec (Z.of_nat c - 1) 0); [lia|].
  replace (Z.to_nat (Z.of_nat c - 1)) with (c - 1)%nat by lia.
  rewrite (index_nth nw (c - 1) 0), (index_nth dw (c - 1) 0) by lia. done.
Qed.

Lemma udiv128_slow : (n1 =? 0) && (d1 =? 0) = false -> D <> 0 ->
  exists quotient remainder, udiv128 [n0; n1] [d0; d1] = Ok (quotient, remainder) /\
    is_u128 quotient /\ is_u128 remainder /\ value quotient = N / D /\ value remainder = N mod D.
Proof using All.
  intros Hslow HD. pose proof (c_pos HD) as Hc. rewrite udiv128_unfold by exact Hslow.
  destruct nw_facts as (_ & _ & _ & He & _). destruct (Nat.eqb_spec c 0); [lia|].
  destruct (_ || _) eqn:S.
  - assert (HN : N < D).
    { apply smaller_sound; [exact Hc|]. apply orb_true_iff in S as [?%Nat.ltb_lt|[?%Nat.eqb_eq ?%Z.ltb_lt]%andb_true_iff]; lia. }
    assert (0 <= N) by (unfold N; rewrite value_pair; unfold is_u in *; lia).
    exists [0; 0], [n0; n1]. split; [reflexivity|].
    rewrite (Z.div_small N D), (Z.mod_small N D) by lia.
    split; [apply is_u128_intro; unfold is_u; lia|]. split; [by apply is_u128_intro|].
    split; [rewrite value_pair; lia|reflexivity].
  - apply orb_false_iff in S as [?%Nat.ltb_ge _].
    destruct (divide_words_spec ltac:(lia)) as (r & q & -> & Lr & Fr & Lq & Fq & Vq & Vr). ostep.
    destruct (pack32_64_value (Z.of_nat e - Z.of_nat c + 1) q) as (qq & -> & Uq & Eq); [lia|assumption|assumption|].
    ostep. destruct (pack32_64_value (Z.of_nat e) r) as (rr & -> & Ur & Er); [lia|assumption|assumption|].
    ostep. exists qq, rr. split; [reflexivity|]. split; [assumption|]. split; [assumption|].
    rewrite Eq, Er. replace (Z.to_nat (Z.of_nat e - Z.of_nat c + 1)) with (e - c + 1)%nat by lia.
    rewrite Nat2Z.id. split; assumption.
Qed.
End UDiv.

Lemma udiv128_value numer denom :
  is_u128 numer -> is_u128 denom -> value denom <> 0 ->
  exists quotient remainder, udiv128 numer denom = Ok (quotient, remainder) /\
    is_u128 quotient /\ is_u128 remainder /\
    value quotient = value numer / value denom /\ value remainder = value numer mod value denom.
Proof.
  intros H1 H2 HD. pair128 numer n0 n1. pair128 denom d0 d1.
  destruct ((n1 =? 0) && (d1 =? 0)) eqn:F; [|by apply udiv128_slow].
  pose proof F as [->%Z.eqb_eq ->%Z.eqb_eq]%andb_true_iff. rewrite value_pair in HD.
  exists [n0 / d0; 0], [n0 mod d0; 0].
  pose proof (Z.mod_pos_bound n0 d0 ltac:(lia)). pose proof (Z.div_pos n0 d0).
  pose proof (Z.div_le_upper_bound n0 d0 n0 ltac:(lia) ltac:(nia)).
  split. { unfold udiv128. cbn [index nth]. ostep. cbn -[Z.div Z.modulo Z.eqb].
    change (0 =? 0) with true. cbn [andb]. by destruct (Z.eqb_spec d0 0); [lia|]. }
  rewrite !value_pair, !Z.mul_0_l, !Z.add_0_r.
  split; [apply is_u128_intro; unfold is_u; lia|]. split; [apply is_u128_intro; unfold is_u; lia|]. done.
Qed.

(** C1: [udiv128] divides: for every 128-bit dividend and every non-zero
    128-bit divisor the call returns, without a panic, the quotient and the
    remainder as pairs of [u64]. *)
Theorem udiv128_correct numer denom :
  is_u128 numer -> is_u128 denom -> value denom <> 0 ->
  exists quotient remainder, udiv128 numer denom = Ok (quotient, remainder) /\
    is_u128 quotient /\ is_u128 remainder /\
    value quotient = value numer / value denom /\ value remainder = value numer mod value denom.
Proof. intros. by apply udiv128_value. Qed.

Lemma udiv128_correct_witness :
  exists quotient remainder,
    udiv128 [5; 7] [0x100000000; 1] = Ok (quotient, remainder) /\
    is_u128 quotient /\ is_u128 remainder /\
    value quotient = value [5; 7] / value [0x100000000; 1] /\
    value remainder = value [5; 7] mod value [0x100000000; 1].
Proof.
  apply (udiv128_correct [5; 7] [0x100000000; 1]).
  - apply is_u128_intro; unfold is_u; lia.
  - apply is_u128_intro; unfold is_u; lia.
  - rewrite value_pair. lia.
Defined.

Lemma udiv128_by_zero numer denom : is_u128 numer -> is_u128 denom -> value denom = 0 ->
  udiv128 numer denom = Err (Lowlevel "divide by 0").
Proof.
  intros H1 H2 E. pair128 numer n0 n1. pair128 denom d0 d1. rewrite value_pair in E.
  assert (d0 = 0) as -> by lia. assert (d1 = 0) as -> by lia.
  destruct ((n1 =? 0) && (0 =? 0)) eqn:F.
  - apply andb_true_iff in F as [->%Z.eqb_eq _]. reflexivity.
  - rewrite udiv128_unfold by assumption. reflexivity.
Qed.

(** Division by zero is the only error of [udiv128], and it is reported
    as the low-level error "divide by 0" on both paths. *)
Theorem udiv128_zero numer denom :
  is_u128 numer -> is_u128 denom ->
  (udiv128 numer denom = Err (Lowlevel "divide by 0") <-> value denom = 0).
Proof.
  intros H1 H2. split.
  - intros E. destruct (Z.eq_dec (value denom) 0) as [|HD]; [done|].
    pair128 numer n0 n1. pair128 denom d0 d1.
    destruct ((n1 =? 0) && (d1 =? 0)) eqn:F.
    + apply andb_true_iff in F as [->%Z.eqb_eq ->%Z.eqb_eq]. rewrite value_pair in HD.
      unfold udiv128 in E. cbn -[Z.div Z.modulo Z.eqb] in E. change (0 =? 0) with true in E. cbn [andb] in E.
      destruct (Z.eqb_spec d0 0); [lia|done].
    + destruct (udiv128_slow n0 n1 d0 d1) as (q & r & E' & _); try assumption. rewrite E' in E. done.
  - by apply udiv128_by_zero.
Qed.

Lemma udiv128_zero_witness :
  udiv128 [5; 7] [0; 0] = Err (Lowlevel "divide by 0") <-> value [0; 0] = 0.
Proof. apply udiv128_zero; apply is_u128_intro; unfold is_u; lia. Defined.

(** Addition, subtraction and left shift are exact modulo [2^128], for
    every shift from 0 to 127. *)
Theorem arith128_correct a b s :
  is_u128 a -> is_u128 b -> 0 <= s < 128 ->
  (exists r, add128 a b = Ok r /\ is_u128 r /\ value r = (value a + value b) mod 2 ^ 128) /\
  (exists r, subtract128 a b = Ok r /\ is_u128 r /\ value r = (value a - value b) mod 2 ^ 128) /\
  (exists r, leftshift128 a s = Ok r /\ is_u128 r /\ value r = (value a * 2 ^ s) mod 2 ^ 128).
Proof.
  intros Ha Hb Hs. split; [by apply add128_value|]. split; [by apply subtract128_value|].
  by apply leftshift128_value.
Qed.

Lemma arith128_correct_witness :
  (exists r, add128 [2 ^ 64 - 1; 1] [1; 0] = Ok r /\ is_u128 r /\
     value r = (value [2 ^ 64 - 1; 1] + value [1; 0]) mod 2 ^ 128) /\
  (exists r, subtract128 [2 ^ 64 - 1; 1] [1; 0] = Ok r /\ is_u128 r /\
     value r = (value [2 ^ 64 - 1; 1] - value [1; 0]) mod 2 ^ 128) /\
  (exists r, leftshift128 [2 ^ 64 - 1; 1] 65 = Ok r /\ is_u128 r /\
     value r = (value [2 ^ 64 - 1; 1] * 2 ^ 65) mod 2 ^ 128).
Proof. apply arith128_correct; [apply is_u128_intro; unfold is_u; lia|apply is_u128_intro; unfold is_u; lia|lia]. Defined.

Lemma uless128_value a b : is_u128 a -> is_u128 b -> uless128 a b = Ok (value a <? value b).
Proof.
  intros Ha Hb. unfold uless128. rewrite ucompare_value by done. ostep.
  unfold Z.ltb. by destruct (value a ?= value b).
Qed.

Lemma ulessequal128_value a b : is_u128 a -> is_u128 b -> ulessequal128 a b = Ok (value a <=? value b).
Proof.
  intros Ha Hb. unfold ulessequal128. rewrite ucompare_value by done. ostep.
  unfold Z.leb. by destruct (value a ?= value b).
Qed.

(** The comparisons order pairs by the numbers they stand for. *)
Theorem compare128_correct a b : is_u128 a -> is_u128 b ->
  uless128 a b = Ok (value a <? value b) /\ ulessequal128 a b = Ok (value a <=? value b).
Proof. intros. split; [by apply uless128_value|by apply ulessequal128_value]. Qed.

Lemma compare128_correct_witness :
  uless128 [9; 1] [0; 2] = Ok (value [9; 1] <? value [0; 2]) /\
  ulessequal128 [9; 1] [0; 2] = Ok (value [9; 1] <=? value [0; 2]).
Proof. apply compare128_correct; apply is_u128_intro; unfold is_u; lia. Defined.
