(* ===== verification/DivOpt.v ===== *)
(** [RuleDivOpt::calc_divisor] of [src/src/ruleaction/division.rs]: given the
    multiplier and the shift of a multiply-high idiom, find the divisor the
    compiler started from.  The theorem is what the rewrite relies on: when a
    divisor is returned, the idiom computes exactly that division on every
    value of the recovered width. *)
From stdpp Require Import base list numbers strings.
From Stdlib Require Import ZArith Lia.
From S2P Require Import Prelude Bits Multiprecision.

(** The middle of the search: when the remainder is not below the quotient, the
    next divisor up is tried.  [None] is the early [return Ok(0)]; otherwise the
    quotient, the remainder and the base of [diff]. *)
Definition round_divisor (quotient remainder multiplier : list Z) : outcome (option (list Z * list Z * Z)) :=
  let! less := uless128 remainder quotient in
  if negb less then
    let! q0 := index quotient 0 in
    let! quotient := store quotient 0 (u64 (q0 + 1)) in
    let! remainder := subtract128 remainder multiplier in
    let! remainder := add128 remainder quotient in
    let! less := uless128 remainder quotient in
    if negb less then Ok None
    else let! q0 := index quotient 0 in Ok (Some (quotient, remainder, q0))
  else Ok (Some (quotient, remainder, 0)).

(** The call returns the divisor (0 for "none") and the multiplier, which it
    decrements in place. *)
Definition calc_divisor (shift_amount : Z) (multiplier : list Z) (xsize : Z) : outcome (Z * list Z) :=
  if (shift_amount >? 127) || (xsize >? 64) then Ok (0, multiplier) else
  let power := set_u128 1 in
  let! small := ulessequal128 multiplier power in
  if (small : bool) then Ok (0, multiplier) else
  let! multiplier := subtract128 multiplier power in
  let! power := leftshift128 power (i32 shift_amount) in
  let! (quotient, remainder) := udiv128 power multiplier in
  let! q1 := index quotient 1 in
  if negb (q1 =? 0) then Ok (0, multiplier) else
  let! below := uless128 multiplier quotient in
  if (below : bool) then Ok (0, multiplier) else
  let! found := round_divisor quotient remainder multiplier in
  match found with
  | None => Ok (0, multiplier)
  | Some (quotient, remainder, diff) =>
      let maxx := if xsize =? 64 then 0 else shl64 1 xsize in
      let maxx := u64 (maxx - 1) in
      let! q0 := index quotient 0 in
      let! r0 := index remainder 0 in
      let diff := u64 (diff + u64 (q0 - r0)) in
      let denom := set_u128 diff in
      let! (tmp, _) := udiv128 power denom in
      let! t1 := index tmp 1 in
      let! t0 := index tmp 0 in
      if negb (t1 =? 0) then Ok (q0, multiplier)
      else if t0 <=? maxx then Ok (0, multiplier)
      else Ok (q0, multiplier)
  end.

(** Division by 7 on 32 bits: multiplier 0x124924925, shift 35. *)
Example calc_divisor_7 : calc_divisor 35 [0x124924925; 0] 32 = Ok (7, [0x124924924; 0]).
Proof. vm_compute. reflexivity. Qed.

(** ** The arithmetic of the idiom *)

(** If [d * y = 2^n + diff] and [x * diff < 2^n], the scaled product floors to
    the quotient. *)
Lemma scaled_quotient P y d diff x :
  0 < P -> 0 < d -> 0 <= diff -> d * y = P + diff -> 0 <= x -> x * diff < P ->
  (x * y) / P = x / d.
Proof.
  intros HP Hd Hdiff E Hx Hlt. symmetry. apply Z.div_unique_pos with (x * y - P * (x / d)); [|lia].
  pose proof (Z.div_mod x d ltac:(lia)) as D. pose proof (Z.mod_pos_bound x d Hd) as M.
  assert (E2 : d * (x * y - P * (x / d)) = P * (x mod d) + x * diff).
  { replace (d * (x * y - P * (x / d))) with (x * (d * y) - P * (d * (x / d))) by ring.
    rewrite E. replace (d * (x / d)) with (x - x mod d) by lia. ring. }
  split.
  - assert (0 <= d * (x * y - P * (x / d))) by (rewrite E2; nia). nia.
  - assert (d * (x * y - P * (x / d)) < d * P) by (rewrite E2; nia). nia.
Qed.

(** What the final test establishes for every [x] of the width. *)
Lemma width_bound P diff x maxx : 0 < diff -> 0 <= P -> maxx < P / diff -> 0 <= x <= maxx -> x * diff < P.
Proof. intros Hd HP Ht Hx. pose proof (Z.mul_div_le P diff Hd). nia. Qed.

Lemma is_u128_value l : is_u128 l -> 0 <= value l < 2 ^ 128.
Proof. intros H. pair128 l a b. rewrite value_pair. lia. Qed.

Lemma is_u128_one : is_u128 (set_u128 1).
Proof. apply is_u128_intro; unfold is_u; lia. Qed.

(** The rounding-up branch never needs a correction above [2^64], so the 64-bit
    sum is exact or exactly zero. *)
Lemma round_up_diff n y' q r (P := 2 ^ n) :
  0 <= n <= 127 -> 0 < y' -> P = q * y' + r -> 0 <= r < y' -> q <= r -> 0 <= q ->
  0 <= r - y' + (q + 1) -> 2 * (q + 1) - (r - y' + (q + 1)) <= 2 ^ 64.
Proof.
  intros Hn Hy E Hr Hqr Hq Hr1. assert (P <= 2 ^ 127) by (apply Z.pow_le_mono_r; lia).
  destruct (Z.le_gt_cases (y' + 1) (2 ^ 64)); [lia|].
  assert (q <= 2 ^ 63) by nia. destruct (Z.eq_dec q (2 ^ 63)) as [->|]; [nia|lia].
Qed.

(** The two words the search leaves: a divisor [q], a correction [diff] (before
    the 64-bit wrap), with [q * y = 2^n + diff]. *)
Definition search_ok (n y q r dbase : Z) : Prop :=
  0 < q < 2 ^ 64 /\ 0 <= r < q /\ 0 <= dbase + (q - r) <= 2 ^ 64 /\ 0 < dbase + (q - r) /\
  q * y = 2 ^ n + (dbase + (q - r)).

Definition found_ok (n y : Z) (found : option (list Z * list Z * Z)) : Prop :=
  match found with
  | None => True
  | Some (quotient, remainder, dbase) => exists q r,
      quotient = [q; 0] /\ remainder = [r; 0] /\ is_u64 dbase /\ search_ok n y q r dbase
  end.

Lemma u128_small l : is_u128 l -> value l < 2 ^ 64 -> l = [value l; 0].
Proof.
  intros H Hv. pair128 l a b. rewrite value_pair in *.
  assert (b = 0) as -> by (unfold is_u in *; lia). do 2 f_equal; lia.
Qed.

(** The wrapped 128-bit update of the remainder, when it is accepted, did not
    wrap, and neither did the quotient. *)
Lemma round_up_wrap q r y' r2 : is_u64 q -> 0 <= r < 2 ^ 128 -> 0 <= y' < 2 ^ 128 -> r < y' ->
  r2 = (r - y' + u64 (q + 1)) mod 2 ^ 128 -> r2 < u64 (q + 1) ->
  u64 (q + 1) = q + 1 /\ r2 = r - y' + (q + 1) /\ 0 <= r2.
Proof.
  intros Hq Hr Hy Hry E Hlt. unfold is_u in *.
  pose proof (Z.mod_pos_bound (r - y' + u64 (q + 1)) (2 ^ 128) ltac:(lia)).
  destruct (Z.eq_dec (q + 1) (2 ^ 64)) as [Eq|Nq].
  { rewrite Eq in *. change (u64 (2 ^ 64)) with 0 in *. lia. }
  rewrite u64_small in * by lia. split; [done|].
  destruct (Z.le_gt_cases 0 (r - y' + (q + 1))); [rewrite Z.mod_small in E by lia; lia|].
  assert ((r - y' + (q + 1)) mod 2 ^ 128 = r - y' + (q + 1) + 2 ^ 128); [|lia].
  symmetry. apply Z.mod_unique with (-1); lia.
Qed.

Lemma round_divisor_spec n q remainder multiplier :
  0 <= n <= 127 -> is_u64 q -> is_u128 remainder -> is_u128 multiplier ->
  2 ^ n = q * value multiplier + value remainder -> value remainder < value multiplier ->
  q <= value multiplier ->
  exists found, round_divisor [q; 0] remainder multiplier = Ok found /\
    found_ok n (value multiplier + 1) found.
Proof.
  intros Hn Hq Hr Hm E Hrm Hqm. unfold round_divisor.
  assert (Hq128 : is_u128 [q; 0]) by (apply is_u128_intro; [done|unfold is_u; lia]).
  rewrite uless128_value, value_pair by done. ostep.
  destruct (Z.ltb_spec (value remainder) (q + 0 * B64)) as [Hlt|Hge]; cbn [negb].
  - eexists; split; [reflexivity|]. exists q, (value remainder).
    pose proof (is_u128_value _ Hr). unfold is_u in *.
    split; [done|]. split; [apply u128_small; [done|lia]|]. split; [lia|].
    unfold search_ok. repeat split; try lia.
  - change (index [q; 0] 0) with (Ok q). ostep.
    change (store [q; 0] 0 (u64 (q + 1))) with (Ok [u64 (q + 1); 0]). ostep.
    destruct (subtract128_value remainder multiplier Hr Hm) as (r1 & -> & Hr1 & Vr1). ostep.
    assert (Hq1 : is_u128 [u64 (q + 1); 0]) by (apply is_u128_intro; [by apply uw_range|unfold is_u; lia]).
    destruct (add128_value r1 [u64 (q + 1); 0] Hr1 Hq1) as (r2 & -> & Hr2 & Vr2). ostep.
    rewrite uless128_value by done. ostep.
    destruct (Z.ltb_spec (value r2) (value [u64 (q + 1); 0])) as [Hlt|_]; cbn [negb]; [|by eexists; split].
    change (index [u64 (q + 1); 0] 0) with (Ok (u64 (q + 1))). ostep.
    eexists; split; [reflexivity|]. rewrite value_pair in *.
    destruct (round_up_wrap q (value remainder) (value multiplier) (value r2)) as (Eq1 & Er2 & Hr2'); try done.
    { by apply is_u128_value. } { by apply is_u128_value. }
    { rewrite Vr2, Vr1. unfold uw. by rewrite Zplus_mod_idemp_l, Z.mul_0_l, Z.add_0_r. }
    { lia. }
    pose proof (uw_range 64 (q + 1) ltac:(lia)) as Hu.
    rewrite Eq1 in *. exists (q + 1), (value r2). unfold is_u in *.
    split; [done|]. split; [apply u128_small; [done|lia]|]. split; [lia|].
    pose proof (is_u128_value _ Hr).
    pose proof (round_up_diff n (value multiplier) q (value remainder)
      Hn ltac:(lia) E ltac:(lia) ltac:(lia) ltac:(lia) ltac:(lia)) as Hd. unfold search_ok. repeat split; lia.
Qed.

(** The last part of the call, on the words the search leaves. *)
Definition check_width (power : list Z) (q r dbase xsize : Z) (multiplier : list Z) : outcome (Z * list Z) :=
  let diff := u64 (dbase + u64 (q - r)) in
  let! (tmp, _) := udiv128 power (set_u128 diff) in
  let! t1 := index tmp 1 in
  let! t0 := index tmp 0 in
  if negb (t1 =? 0) then Ok (q, multiplier)
  else if t0 <=? u64 ((if xsize =? 64 then 0 else shl64 1 xsize) - 1) then Ok (0, multiplier)
  else Ok (q, multiplier).

Lemma maxx_value xsize : 0 <= xsize <= 64 ->
  u64 ((if xsize =? 64 then 0 else shl64 1 xsize) - 1) = 2 ^ xsize - 1.
Proof.
  intros Hx. destruct (Z.eqb_spec xsize 64) as [->|N]; [done|].
  unfold shl64. rewrite Z.mod_small, Z.shiftl_1_l by lia.
  pose proof (pow2_pos xsize ltac:(lia)).
  assert (2 ^ xsize < 2 ^ 64) by (apply Z.pow_lt_mono_r; lia).
  rewrite !u64_small; [done| |]; rewrite ?u64_small; lia.
Qed.

Lemma check_width_sound n y q r dbase xsize power multiplier d m' x :
  0 <= n -> 0 <= xsize <= 64 -> is_u128 power -> value power = 2 ^ n -> is_u64 dbase ->
  search_ok n y q r dbase ->
  check_width power q r dbase xsize multiplier = Ok (d, m') -> d <> 0 ->
  0 <= x < 2 ^ xsize -> (x * y) / 2 ^ n = x / d.
Proof.
  intros Hn Hxs Hp Vp Hdb (Hq & Hr & Hle & Hpos & E) Hrun Hd Hx. unfold check_width in Hrun.
  rewrite maxx_value in Hrun by done.
  assert (Ediff : u64 (dbase + u64 (q - r)) = (dbase + (q - r)) mod 2 ^ 64).
  { unfold uw. by rewrite Zplus_mod_idemp_r. }
  rewrite Ediff in Hrun. destruct (Z.eq_dec (dbase + (q - r)) (2 ^ 64)) as [E64|N64].
  - exfalso. rewrite E64 in Hrun. change (2 ^ 64 mod 2 ^ 64) with 0 in Hrun.
    rewrite udiv128_by_zero in Hrun; [by simpl in Hrun|done|by apply is_u128_intro|done].
  - rewrite Z.mod_small in Hrun by lia.
    destruct (udiv128_value power (set_u128 (dbase + (q - r)))) as (t & t' & Et & Ht & _ & Vt & _); try done.
    { apply is_u128_intro; unfold is_u; lia. } { unfold set_u128. rewrite value_pair. lia. }
    rewrite Et in Hrun. unfold set_u128 in Vt. rewrite value_pair, Vp in Vt. pair128 t t0 t1.
    rewrite value_pair in Vt. cbn [obind index lookup list_lookup] in Hrun.
    assert (d = q /\ 2 ^ xsize - 1 < 2 ^ n / (dbase + (q - r))) as [-> Hw].
    { assert (2 ^ xsize <= 2 ^ 64) by (apply Z.pow_le_mono_r; lia). unfold is_u in *.
      rewrite Z.mul_0_l, Z.add_0_r in Vt. rewrite <- Vt.
      destruct (Z.eqb_spec t1 0) as [E1|N1]; cbn [negb] in Hrun.
      - destruct (Z.leb_spec t0 (2 ^ xsize - 1)); simplify_eq; lia.
      - simplify_eq. split; [done|]. lia. }
    apply scaled_quotient with (dbase + (q - r)); try lia. eapply width_bound; [lia|lia|exact Hw|lia].
Qed.

Lemma calc_divisor_unfold n y xsize : is_u128 y -> 0 <= n <= 127 -> 0 <= xsize <= 64 -> 1 < value y ->
  exists m power q r, is_u128 m /\ value m = value y - 1 /\ is_u128 power /\ value power = 2 ^ n /\
    is_u128 q /\ is_u128 r /\ value q = 2 ^ n / value m /\ value r = 2 ^ n mod value m /\
    calc_divisor n y xsize =
      (let! q1 := index q 1 in
       if negb (q1 =? 0) then Ok (0, m)
       else if value m <? value q then Ok (0, m)
       else let! found := round_divisor q r m in
       match found with
       | None => Ok (0, m)
       | Some (quotient, remainder, dbase) =>
           let! q0 := index quotient 0 in
           let! r0 := index remainder 0 in
           check_width power q0 r0 dbase xsize m
       end).
Proof.
  intros Hy Hn Hx H1. unfold calc_divisor, check_width.
  replace ((n >? 127) || (xsize >? 64)) with false by (symmetry; apply orb_false_iff; lia).
  pose proof is_u128_one as H1u. pose proof (is_u128_value _ Hy).
  assert (V1 : value (set_u128 1) = 1) by (unfold set_u128; rewrite value_pair; lia).
  rewrite ulessequal128_value by done. ostep. rewrite V1.
  destruct (Z.leb_spec (value y) 1) as [|_]; [lia|].
  destruct (subtract128_value y (set_u128 1)) as (m & -> & Hm & Vm); try done. ostep.
  rewrite V1, Z.mod_small in Vm by lia.
  assert (2 ^ n <= 2 ^ 127) by (apply Z.pow_le_mono_r; lia). pose proof (pow2_pos n ltac:(lia)).
  rewrite i32_small by lia.
  destruct (leftshift128_value (set_u128 1) n) as (power & -> & Hp & Vp); [done|lia|]. ostep.
  rewrite V1, Z.mul_1_l, Z.mod_small in Vp by lia.
  destruct (udiv128_value power m) as (q & r & -> & Hq & Hr & Vq & Vr); [done|done|lia|]. ostep.
  rewrite Vp in *. exists m, power, q, r. do 8 (split; [assumption|]).
  pair128 q q0 q1. change (index [q0; q1] 1) with (Ok q1). ostep.
  destruct (negb (q1 =? 0)); [done|].
  rewrite uless128_value by (done || by apply is_u128_intro). done.
Qed.

(** C2: when [calc_divisor] returns a divisor, multiplying by the multiplier and
    shifting right by [n] divides by it, for every value of [xsize] bits. *)
Theorem calc_divisor_sound n y xsize d m x :
  is_u128 y -> 0 <= n -> 0 <= xsize -> calc_divisor n y xsize = Ok (d, m) -> d <> 0 ->
  0 <= x < 2 ^ xsize -> (x * value y) / 2 ^ n = x / d.
Proof.
  intros Hy Hn Hxs Hrun Hd Hx.
  assert (n <= 127 /\ xsize <= 64) as [Hn' Hxs'].
  { unfold calc_divisor in Hrun. destruct ((n >? 127) || (xsize >? 64)) eqn:F; [simplify_eq|lia]. }
  assert (1 < value y) as Hy1.
  { apply Z.nle_gt. intros Hle. unfold calc_divisor in Hrun.
    replace ((n >? 127) || (xsize >? 64)) with false in Hrun by (symmetry; apply orb_false_iff; lia).
    rewrite ulessequal128_value in Hrun by (done || apply is_u128_one). cbn [obind] in Hrun.
    unfold set_u128 in Hrun. rewrite value_pair, Z.mul_0_l in Hrun.
    destruct (Z.leb_spec (value y) (1 + 0)); [simplify_eq|lia]. }
  destruct (calc_divisor_unfold n y xsize) as (mm & power & q & r & Hm & Vm & Hp & Vp & Hq & Hr & Vq & Vr & E);
    try done; try lia. rewrite E in Hrun.
  pair128 q q0 q1. change (index [q0; q1] 1) with (Ok q1) in Hrun. cbn [obind] in Hrun.
  destruct (Z.eqb_spec q1 0) as [E1|]; cbn [negb] in Hrun; [|simplify_eq].
  destruct (Z.ltb_spec (value mm) (value [q0; q1])) as [|Hle]; [simplify_eq|]. rewrite E1 in *.
  rewrite value_pair, Z.mul_0_l, Z.add_0_r in *.
  destruct (round_divisor_spec n q0 r mm) as (found & Ef & Hf); try done.
  { rewrite Vq, Vr, Z.mul_comm. apply Z.div_mod. lia. }
  { rewrite Vr. apply Z.mod_pos_bound. lia. }
  rewrite Ef in Hrun. cbn [obind] in Hrun. replace (value mm + 1) with (value y) in Hf by lia.
  destruct found as [[[qq rr] dbase]|]; [|simplify_eq]. destruct Hf as (q' & r' & -> & -> & Hdb & Hs).
  cbn [obind index lookup list_lookup] in Hrun. eapply (check_width_sound n (value y) q' r' dbase xsize power); eauto.
Qed.

(** Division by 7 on 32 bits, at 4294967291. *)
Lemma calc_divisor_sound_witness :
  calc_divisor 35 [0x124924925; 0] 32 = Ok (7, [0x124924924; 0]) /\
  (4294967291 * value [0x124924925; 0]) / 2 ^ 35 = 4294967291 / 7.
Proof.
  split; [vm_compute; reflexivity|].
  apply (calc_divisor_sound 35 [0x124924925; 0] 32 7 [0x124924924; 0] 4294967291); try lia.
  - apply is_u128_intro; unfold is_u; lia.
  - vm_compute. reflexivity.
Defined.

(** The 64-bit correction can wrap to exactly zero; the search then ends
    with the error of the division instead of with "no divisor". *)
Theorem calc_divisor_wrapped_diff :
  calc_divisor 127 [0; 1] 64 = Err (Lowlevel "divide by 0").
Proof. vm_compute. reflexivity. Qed.
