(* ===== verification/BTree.v ===== *)
(** Rust's [BTreeMap] and [BTreeSet] as the components use them: a list of
    entries in strictly increasing order of a key.  The operations are the ones
    the source calls (insert, remove, lookup, [range(..).next()],
    [range(..).next_back()]); each is specified by the entries it leaves or
    returns, so that the components reason about membership and order only. *)
From Stdlib Require Import ZArith Lia.
From S2P Require Import Prelude.
From stdpp Require Import base list sets numbers sorting.

(** ** Ordered keys: the [Ord] trait *)

Class OrdKey (K : Type) := {
  kcmp : K -> K -> comparison;
  kcmp_eq : forall a b, kcmp a b = Eq <-> a = b;
  kcmp_opp : forall a b, kcmp b a = CompOpp (kcmp a b);
  kcmp_trans : forall a b c, kcmp a b = Lt -> kcmp b c = Lt -> kcmp a c = Lt;
}.

#[export] Instance Z_ordkey : OrdKey Z.
Proof.
  refine {| kcmp := Z.compare |}.
  - apply Z.compare_eq_iff.
  - intros. apply Z.compare_antisym.
  - intros a b c. rewrite !Z.compare_lt_iff. lia.
Defined.

(** [a.cmp(&b).then(...)]: lexicographic order on pairs, as [derive(Ord)] gives
    it for a struct of two fields. *)
Definition cmp_then (c d : comparison) : comparison := match c with Eq => d | _ => c end.

#[export] Instance pair_ordkey {A B} `{OrdKey A, OrdKey B} : OrdKey (A * B).
Proof.
  refine {| kcmp := fun x y => cmp_then (kcmp x.1 y.1) (kcmp x.2 y.2) |}.
  - intros [a b] [c d]. simpl. rewrite pair_equal_spec, <- (kcmp_eq a c), <- (kcmp_eq b d).
    destruct (kcmp a c); simpl; intuition congruence.
  - intros [a b] [c d]. simpl. rewrite (kcmp_opp a c), (kcmp_opp b d). by destruct (kcmp a c), (kcmp b d).
  - intros [a b] [c d] [e f]. simpl.
    destruct (kcmp a c) eqn:E1; simpl; try discriminate.
    + apply kcmp_eq in E1 as ->. destruct (kcmp c e); simpl; try done. intros ??. by eapply kcmp_trans.
    + intros _. destruct (kcmp c e) eqn:E2; simpl; try discriminate.
      * apply kcmp_eq in E2 as <-. by rewrite E1.
      * intros _. by rewrite (kcmp_trans a c e).
Defined.

#[export] Instance comparison_eq_dec : EqDecision comparison.
Proof. solve_decision. Defined.

(** Keys are compared by their order. *)
#[export] Instance ordkey_eq_dec {K} `{OrdKey K} : EqDecision K | 100.
Proof. intros a b. refine (cast_if (decide (kcmp a b = Eq))); abstract (by rewrite <- kcmp_eq). Defined.

Section Order.
Context {K : Type} `{OrdKey K}.

Definition klt (a b : K) : Prop := kcmp a b = Lt.
Definition kle (a b : K) : Prop := kcmp a b <> Gt.
Definition kltb (a b : K) : bool := match kcmp a b with Lt => true | _ => false end.
Definition kleb (a b : K) : bool := match kcmp a b with Gt => false | _ => true end.

Lemma kltb_spec a b : kltb a b = true <-> klt a b.
Proof. unfold kltb, klt. by destruct (kcmp a b). Qed.

Lemma kleb_spec a b : kleb a b = true <-> kle a b.
Proof. unfold kleb, kle. destruct (kcmp a b); naive_solver. Qed.

Lemma kcmp_refl a : kcmp a a = Eq.
Proof. by apply kcmp_eq. Qed.

Lemma klt_irrefl a : ~ klt a a.
Proof. unfold klt. by rewrite kcmp_refl. Qed.

Lemma klt_neq a b : klt a b -> a <> b.
Proof. intros Hlt ->. by apply klt_irrefl in Hlt. Qed.

Lemma klt_trans a b c : klt a b -> klt b c -> klt a c.
Proof. apply kcmp_trans. Qed.

Lemma kle_lt_eq a b : kle a b <-> klt a b \/ a = b.
Proof. unfold kle, klt. rewrite <- (kcmp_eq a b). destruct (kcmp a b); naive_solver. Qed.

Lemma not_kle a b : ~ kle a b <-> klt b a.
Proof. unfold kle, klt. rewrite (kcmp_opp a b). destruct (kcmp a b); simpl; naive_solver. Qed.

Lemma not_klt a b : ~ klt a b <-> kle b a.
Proof. unfold kle, klt. rewrite (kcmp_opp a b). destruct (kcmp a b); simpl; naive_solver. Qed.

Lemma kcmp_gt a b : kcmp a b = Gt <-> klt b a.
Proof. unfold klt. rewrite (kcmp_opp a b). by destruct (kcmp a b). Qed.

Lemma kle_trans a b c : kle a b -> kle b c -> kle a c.
Proof. rewrite !kle_lt_eq. intros [|<-] [|<-]; eauto using klt_trans. Qed.

Lemma klt_kle_trans a b c : klt a b -> kle b c -> klt a c.
Proof. rewrite !kle_lt_eq. intros ? [|<-]; eauto using klt_trans. Qed.

Lemma kle_klt_trans a b c : kle a b -> klt b c -> klt a c.
Proof. rewrite !kle_lt_eq. intros [|<-] ?; eauto using klt_trans. Qed.

Lemma kle_refl a : kle a a.
Proof. apply kle_lt_eq. by right. Qed.

Lemma kle_antisym a b : kle a b -> kle b a -> a = b.
Proof. rewrite !kle_lt_eq. intros [H1|] [H2|]; try done. by destruct (klt_irrefl a); eapply klt_trans. Qed.

Lemma kle_total a b : kle a b \/ klt b a.
Proof. rewrite <- not_kle. unfold kle. destruct (kcmp a b); naive_solver. Qed.

#[export] Instance klt_dec a b : Decision (klt a b).
Proof. refine (cast_if (decide (kltb a b = true))); abstract (by rewrite <- kltb_spec). Defined.
#[export] Instance kle_dec a b : Decision (kle a b).
Proof. refine (cast_if (decide (kleb a b = true))); abstract (by rewrite <- kleb_spec). Defined.
End Order.

#[export] Hint Resolve klt_trans kle_refl klt_kle_trans kle_klt_trans kle_trans : order.

(** ** Trees *)

Section Tree.
Context {K A : Type} `{OrdKey K} (key : A -> K).

Fixpoint tree_get (k : K) (l : list A) : option A :=
  match l with
  | [] => None
  | x :: l => match kcmp k (key x) with Eq => Some x | _ => tree_get k l end
  end.

(** [BTreeMap::insert] replaces the value under an equal key, [BTreeSet::insert]
    keeps the element that is already there. *)
Fixpoint map_insert (x : A) (l : list A) : list A :=
  match l with
  | [] => [x]
  | y :: l' =>
      match kcmp (key x) (key y) with
      | Lt => x :: l
      | Eq => x :: l'
      | Gt => y :: map_insert x l'
      end
  end.

Fixpoint set_insert (x : A) (l : list A) : list A :=
  match l with
  | [] => [x]
  | y :: l' =>
      match kcmp (key x) (key y) with
      | Lt => x :: l
      | Eq => l
      | Gt => y :: set_insert x l'
      end
  end.

Definition tree_remove (k : K) (l : list A) : list A :=
  filter (fun x => kcmp k (key x) <> Eq) l.

(** [range((Unbounded, Included(k))).next_back()], [range((Excluded(k),
    Unbounded)).next()] and the ranges with both ends or only the lower one. *)
Definition before_incl (k : K) (l : list A) : option A := list.last (filter (fun x => kle (key x) k) l).
Definition after_excl (k : K) (l : list A) : option A := head (filter (fun x => klt k (key x)) l).
Definition range_incl (lo hi : K) (l : list A) : list A :=
  filter (fun x => kle lo (key x) /\ kle (key x) hi) l.
Definition range_excl (lo hi : K) (l : list A) : list A :=
  filter (fun x => klt lo (key x) /\ klt (key x) hi) l.
Definition range_from (lo : K) (l : list A) : list A := filter (fun x => kle lo (key x)) l.

Lemma filter_id (P : A -> Prop) `{!forall x, Decision (P x)} (l : list A) :
  (forall x, x ∈ l -> P x) -> filter P l = l.
Proof.
  induction l as [|x l IH]; intros HP; [done|]. rewrite filter_cons, decide_True by (apply HP; by left).
  f_equal. apply IH. intros y Hy. apply HP. by right.
Qed.

(** *** Order *)

Definition sorted (l : list A) : Prop := StronglySorted (fun x y => klt (key x) (key y)) l.

Lemma sorted_cons x l : sorted (x :: l) <-> sorted l /\ forall y, y ∈ l -> klt (key x) (key y).
Proof.
  unfold sorted. rewrite <- Forall_forall. split; [apply StronglySorted_inv|].
  intros [??]. by constructor.
Qed.

Lemma sorted_key_inj l x y : sorted l -> x ∈ l -> y ∈ l -> key x = key y -> x = y.
Proof.
  induction l as [|z l IH]; [by intros _ ?%elem_of_nil|].
  rewrite sorted_cons, !elem_of_cons. intros [Hs Hz] [->|Hx] [->|Hy] E; try done.
  - by apply (klt_neq (key z) (key y)) in E; [|apply Hz].
  - symmetry in E. by apply (klt_neq (key z) (key x)) in E; [|apply Hz].
  - by apply IH.
Qed.

Lemma sorted_filter (P : A -> Prop) `{!forall x, Decision (P x)} l : sorted l -> sorted (filter P l).
Proof.
  induction l as [|x l IH]; [done|]. rewrite sorted_cons. intros [Hs Hx]. rewrite filter_cons.
  case_decide; [|by apply IH]. apply sorted_cons. split; [by apply IH|].
  intros y [_ Hy]%list_elem_of_filter. by apply Hx.
Qed.

Lemma sorted_app_l l1 l2 : sorted (l1 ++ l2) -> sorted l1.
Proof.
  induction l1 as [|x l1 IH]; intros Hs; [constructor|]. simpl in Hs. apply sorted_cons in Hs as [Hs Hx].
  apply sorted_cons. split; [by apply IH|]. intros y Hy. apply Hx. apply elem_of_app. by left.
Qed.

Lemma sorted_NoDup l : sorted l -> NoDup l.
Proof.
  induction l as [|x l IH]; [intros; apply NoDup_nil_2|]. rewrite sorted_cons. intros [Hs Hx].
  apply NoDup_cons_2; [|by apply IH]. intros Hin. by apply (klt_irrefl (key x)), Hx.
Qed.

(** A sorted list is determined by its elements. *)
Lemma sorted_ext l1 : forall l2, sorted l1 -> sorted l2 -> (forall x, x ∈ l1 <-> x ∈ l2) -> l1 = l2.
Proof.
  induction l1 as [|x l1 IH]; intros [|y l2] H1 H2 E.
  - done.
  - destruct (not_elem_of_nil y). apply E. by left.
  - destruct (not_elem_of_nil x). apply E. by left.
  - apply sorted_cons in H1 as [H1 Hx]. apply sorted_cons in H2 as [H2 Hy].
    assert (x = y) as ->.
    { assert (x ∈ y :: l2) as [->|Hxy]%elem_of_cons by (apply E; by left); [done|].
      assert (y ∈ x :: l1) as [->|Hyx]%elem_of_cons by (apply E; by left); [done|].
      destruct (klt_irrefl (key x)). eapply klt_trans; [by apply Hx|by apply Hy]. }
    f_equal. apply IH; [done..|]. intros z. specialize (E z). rewrite !elem_of_cons in E.
    split; intros Hz; destruct E as [E1 E2].
    + destruct E1 as [->|]; [by right| |done]. by destruct (klt_irrefl (key y)); apply Hx.
    + destruct E2 as [->|]; [by right| |done]. by destruct (klt_irrefl (key y)); apply Hy.
Qed.

(** *** Insertion, removal, lookup *)

Lemma elem_of_map_insert x l y : sorted l ->
  y ∈ map_insert x l <-> y = x \/ (y ∈ l /\ key y <> key x).
Proof.
  induction l as [|z l IH]; simpl.
  - intros _. rewrite list_elem_of_singleton. set_solver.
  - rewrite sorted_cons. intros [Hs Hz]. destruct (kcmp (key x) (key z)) eqn:E.
    + apply kcmp_eq in E. rewrite !elem_of_cons. split.
      * intros [->|Hy]; [by left|]. right. split; [by right|]. intros E'.
        apply (klt_neq (key z) (key y)); [by apply Hz|congruence].
      * intros [->|[[->|Hy] N]]; [by left|congruence|by right].
    + rewrite !elem_of_cons. split.
      * intros [->|[->|Hy]]; [by left| |].
        -- right. split; [by left|]. intros E'. by apply (klt_neq (key x) (key z)).
        -- right. split; [by right|]. intros E'. destruct (klt_irrefl (key x)).
           eapply klt_trans; [done|]. rewrite <- E'. by apply Hz.
      * naive_solver.
    + apply kcmp_gt in E. rewrite !elem_of_cons, IH by done. split.
      * intros [->|[->|[Hy N]]]; [|by left|right; by split; [right|]].
        right. split; [by left|]. by apply klt_neq.
      * naive_solver.
Qed.

Lemma elem_of_set_insert x l y : sorted l ->
  y ∈ set_insert x l <-> y ∈ l \/ (y = x /\ forall z, z ∈ l -> key z <> key x).
Proof.
  induction l as [|z l IH]; simpl.
  - intros _. rewrite list_elem_of_singleton. set_solver.
  - rewrite sorted_cons. intros [Hs Hz]. destruct (kcmp (key x) (key z)) eqn:E.
    + apply kcmp_eq in E. split; [by left|]. intros [?|[-> N]]; [done|].
      destruct (N z); [by left|done].
    + rewrite elem_of_cons. split; [|naive_solver]. intros [->|Hy]; [|by left].
      right. split; [done|]. intros w [->|Hw]%elem_of_cons E'; symmetry in E'; revert E'; apply klt_neq; [done|].
      eapply klt_trans; [done|by apply Hz].
    + apply kcmp_gt in E. rewrite !elem_of_cons, IH by done. split.
      * intros [->|[Hy|[-> N]]]; [by left; left|by left; right|].
        right. split; [done|]. intros w [->|Hw]%elem_of_cons; [|by apply N].
        by apply klt_neq.
      * intros [[->|Hy]|[-> N]]; [by left|by right; left|]. right. right.
        split; [done|]. intros w Hw. apply N. by right.
Qed.

Lemma sorted_map_insert x l : sorted l -> sorted (map_insert x l).
Proof.
  induction l as [|z l IH]; simpl; intros Hs.
  - apply sorted_cons. split; [done|set_solver].
  - pose proof Hs as Hsz. apply sorted_cons in Hsz as [Hs' Hz]. destruct (kcmp (key x) (key z)) eqn:E.
    + apply kcmp_eq in E. apply sorted_cons. by rewrite E.
    + apply sorted_cons. split; [done|]. intros y [->|Hy]%elem_of_cons; [done|].
      eapply klt_trans; [done|by apply Hz].
    + apply sorted_cons. split; [by apply IH|]. intros y.
      rewrite elem_of_map_insert by done. intros [->|[? _]]; [by apply kcmp_gt|by apply Hz].
Qed.

Lemma sorted_set_insert x l : sorted l -> sorted (set_insert x l).
Proof.
  induction l as [|z l IH]; simpl; intros Hs.
  - apply sorted_cons. split; [done|set_solver].
  - pose proof Hs as Hsz. apply sorted_cons in Hsz as [Hs' Hz]. destruct (kcmp (key x) (key z)) eqn:E.
    + done.
    + apply sorted_cons. split; [done|]. intros y [->|Hy]%elem_of_cons; [done|].
      eapply klt_trans; [done|by apply Hz].
    + apply sorted_cons. split; [by apply IH|]. intros y.
      rewrite elem_of_set_insert by done. intros [?|[-> _]]; [by apply Hz|by apply kcmp_gt].
Qed.

Lemma elem_of_tree_remove k l y : y ∈ tree_remove k l <-> y ∈ l /\ key y <> k.
Proof.
  unfold tree_remove. rewrite list_elem_of_filter, kcmp_eq. naive_solver.
Qed.

Lemma sorted_tree_remove k l : sorted l -> sorted (tree_remove k l).
Proof. apply sorted_filter. Qed.

Lemma tree_get_Some k l x : sorted l -> tree_get k l = Some x <-> x ∈ l /\ key x = k.
Proof.
  induction l as [|z l IH]; simpl; [set_solver|]. rewrite sorted_cons. intros [Hs Hz].
  rewrite elem_of_cons. destruct (kcmp k (key z)) eqn:E.
  - apply kcmp_eq in E as ->. split; [intros [= <-]; by split; [left|]|].
    intros [[->|Hx] E]; [done|]. symmetry in E. by apply (klt_neq (key z) (key x)) in E; [|apply Hz].
  - rewrite IH by done. split; [naive_solver|]. intros [[->|Hx] <-]; [by rewrite kcmp_refl in E|done].
  - rewrite IH by done. split; [naive_solver|]. intros [[->|Hx] <-]; [by rewrite kcmp_refl in E|done].
Qed.

Lemma tree_get_None k l : sorted l -> tree_get k l = None <-> forall x, x ∈ l -> key x <> k.
Proof.
  intros Hs. split.
  - intros E x Hx Ek. assert (tree_get k l = Some x) by (by apply tree_get_Some). congruence.
  - intros HN. destruct (tree_get k l) as [x|] eqn:E; [|done].
    apply tree_get_Some in E as [??]; [|done]. naive_solver.
Qed.

(** *** Neighbours *)

Lemma sorted_head l x : sorted l -> head l = Some x <-> x ∈ l /\ forall y, y ∈ l -> kle (key x) (key y).
Proof.
  destruct l as [|z l]; [set_solver|]. rewrite sorted_cons. intros [Hs Hz]. simpl. split.
  - intros [= <-]. split; [by left|]. intros y [->|Hy]%elem_of_cons; [apply kle_refl|].
    apply kle_lt_eq. left. by apply Hz.
  - intros [[->|Hx]%elem_of_cons Hm]; [done|]. destruct (klt_irrefl (key x)).
    eapply kle_klt_trans; [apply (Hm z); by left|by apply Hz].
Qed.

Lemma sorted_last l x : sorted l -> list.last l = Some x <-> x ∈ l /\ forall y, y ∈ l -> kle (key y) (key x).
Proof.
  induction l as [|z l IH]; [set_solver|]. rewrite sorted_cons. intros [Hs Hz].
  destruct l as [|w l]; simpl list.last.
  - split.
    + intros [= <-]. split; [by left|]. intros y ->%list_elem_of_singleton. apply kle_refl.
    + intros [->%list_elem_of_singleton _]. done.
  - change (list.last (w :: l) = Some x <-> x ∈ z :: w :: l /\ forall y, y ∈ z :: w :: l -> kle (key y) (key x)).
    rewrite IH by done. split.
    + intros [Hx Hm]. split; [by right|]. intros y [->|Hy]%elem_of_cons; [|by apply Hm].
      apply kle_lt_eq. left. by apply Hz.
    + intros [[->|Hx]%elem_of_cons Hm]; [|split; [done|]; intros y Hy; apply Hm; by right].
      destruct (klt_irrefl (key z)). eapply klt_kle_trans; [apply (Hz w); by left|]. apply Hm. right. by left.
Qed.

Lemma before_incl_Some k l x : sorted l ->
  before_incl k l = Some x <->
  x ∈ l /\ kle (key x) k /\ forall y, y ∈ l -> kle (key y) k -> kle (key y) (key x).
Proof.
  intros Hs. unfold before_incl. rewrite sorted_last by (by apply sorted_filter).
  setoid_rewrite list_elem_of_filter. naive_solver.
Qed.

Lemma before_incl_None k l : before_incl k l = None <-> forall y, y ∈ l -> klt k (key y).
Proof.
  unfold before_incl. rewrite list.last_None. split.
  - intros E y Hy. apply not_kle. intros Hle.
    assert (y ∈ filter (fun x => kle (key x) k) l) as Hf by (by apply list_elem_of_filter).
    rewrite E in Hf. by apply not_elem_of_nil in Hf.
  - intros HN. destruct (filter _ l) as [|y t] eqn:E; [done|].
    assert (y ∈ filter (fun x => kle (key x) k) l) as [Hle Hy]%list_elem_of_filter by (rewrite E; by left).
    apply HN in Hy. by apply not_kle in Hy.
Qed.

Lemma after_excl_Some k l x : sorted l ->
  after_excl k l = Some x <->
  x ∈ l /\ klt k (key x) /\ forall y, y ∈ l -> klt k (key y) -> kle (key x) (key y).
Proof.
  intros Hs. unfold after_excl. rewrite sorted_head by (by apply sorted_filter).
  setoid_rewrite list_elem_of_filter. naive_solver.
Qed.

Lemma after_excl_None k l : after_excl k l = None <-> forall y, y ∈ l -> kle (key y) k.
Proof.
  unfold after_excl. rewrite head_None. split.
  - intros E y Hy. apply not_klt. intros Hlt.
    assert (y ∈ filter (fun x => klt k (key x)) l) as Hf by (by apply list_elem_of_filter).
    rewrite E in Hf. by apply not_elem_of_nil in Hf.
  - intros HN. destruct (filter _ l) as [|y t] eqn:E; [done|].
    assert (y ∈ filter (fun x => klt k (key x)) l) as [Hlt Hy]%list_elem_of_filter by (rewrite E; by left).
    apply HN in Hy. by apply not_klt in Hy.
Qed.

End Tree.

#[export] Hint Resolve sorted_filter sorted_map_insert sorted_set_insert sorted_tree_remove : tree.
