(* ===== verification/Space.v ===== *)
(** Address spaces ([src/src/space.rs]): the fields of [AddrSpace], its
    constructors, the derived bounds, and the wrapping of an offset into the
    space.  The atomic fields are plain fields.  A [SpaceRef] is a number, the
    place of the shared space in a store ([Manager] has the store).  Of the
    payloads of [SpaceKind] the references to other spaces are kept; the join
    table and the base register are not part of the model. *)
From stdpp Require Import base list numbers strings.
From Stdlib Require Import ZArith Lia.
From S2P Require Import Prelude Bits.

(** ** Definitions *)

Inductive SpaceType : Type :=
  | Constant | Processor | Spacebase | Internal | Fspec | Iop | Join.

#[export] Instance SpaceType_eq_dec : EqDecision SpaceType.
Proof. solve_decision. Defined.

Inductive SpaceKind : Type :=
  | KindBase | KindConstant | KindOther | KindUnique | KindJoin | KindOverlay (base_space : nat)
  | KindSpacebase (contain : option nat) | KindFspec | KindIop | KindMaximal.

Record AddrSpace : Type := {
  kind : SpaceKind;
  space_type : SpaceType;
  flags : Z;
  shortcut : Z;
  highest : Z;
  pointer_lower_bound : Z;
  pointer_upper_bound : Z;
  name : string;
  address_size : Z;
  wordsize : Z;
  minimum_pointer_size : Z;
  space_index : Z;
  delay : Z;
  deadcodedelay : Z;
}.

Definition CONSTANT_SPACE_NAME : string := "const".
Definition CONSTANT_SPACE_INDEX : Z := 0.
Definition OTHER_SPACE_NAME : string := "OTHER".
Definition OTHER_SPACE_INDEX : Z := 1.
Definition UNIQUE_SPACE_NAME : string := "unique".
Definition UNIQUE_SPACE_SIZE : Z := 4.
Definition JOIN_SPACE_NAME : string := "join".
Definition FSPEC_SPACE_NAME : string := "fspec".
Definition IOP_SPACE_NAME : string := "iop".

Definition BIG_ENDIAN : Z := 1.
Definition HERITAGED : Z := 2.
Definition DOES_DEADCODE : Z := 4.
Definition PROGRAMSPECIFIC : Z := 8.
Definition REVERSE_JUSTIFICATION : Z := 16.
Definition FORMAL_STACKSPACE : Z := 0x20.
Definition OVERLAY : Z := 0x40.
Definition OVERLAYBASE : Z := 0x80.
Definition TRUNCATED : Z := 0x100.
Definition HASPHYSICAL : Z := 0x200.
Definition IS_OTHERSPACE : Z := 0x400.
Definition HAS_NEARPOINTERS : Z := 0x800.
Definition ALLOWS_WRAPPED_RANGE : Z := 0x1000.
Definition ADDRESSABLE_ALL : Z := 0x2000.
Definition ADDRESSABLE_NONE : Z := 0x4000.

(** Functional update of the fields the operations write. *)
Definition with_flags (s : AddrSpace) (fl : Z) : AddrSpace :=
  {| kind := kind s; space_type := space_type s; flags := fl; shortcut := shortcut s;
     highest := highest s; pointer_lower_bound := pointer_lower_bound s;
     pointer_upper_bound := pointer_upper_bound s; name := name s;
     address_size := address_size s; wordsize := wordsize s;
     minimum_pointer_size := minimum_pointer_size s; space_index := space_index s;
     delay := delay s; deadcodedelay := deadcodedelay s |}.

Definition with_bounds (s : AddrSpace) (hi lower upper : Z) : AddrSpace :=
  {| kind := kind s; space_type := space_type s; flags := flags s; shortcut := shortcut s;
     highest := hi; pointer_lower_bound := lower; pointer_upper_bound := upper;
     name := name s; address_size := address_size s; wordsize := wordsize s;
     minimum_pointer_size := minimum_pointer_size s; space_index := space_index s;
     delay := delay s; deadcodedelay := deadcodedelay s |}.

Definition with_size (s : AddrSpace) (size minptr : Z) : AddrSpace :=
  {| kind := kind s; space_type := space_type s; flags := flags s; shortcut := shortcut s;
     highest := highest s; pointer_lower_bound := pointer_lower_bound s;
     pointer_upper_bound := pointer_upper_bound s; name := name s;
     address_size := size; wordsize := wordsize s;
     minimum_pointer_size := minptr; space_index := space_index s;
     delay := delay s; deadcodedelay := deadcodedelay s |}.

Definition set_flags (s : AddrSpace) (fl : Z) : AddrSpace := with_flags s (Z.lor (flags s) fl).

(** [fetch_and(!fl)] on [u32]. *)
Definition clear_flags (s : AddrSpace) (fl : Z) : AddrSpace :=
  with_flags s (Z.land (flags s) (u32 (Z.lnot fl))).

Definition calc_scale_mask (s : AddrSpace) : AddrSpace :=
  let ws := u64 (wordsize s) in
  let hi := calc_mask (i32 (address_size s)) in
  let hi := u64 (u64 (hi * ws) + u64 (ws - 1)) in
  let buffer_size := if address_size s <? 3 then 0x100 else 0x1000 in
  with_bounds s hi buffer_size (u64 (hi - buffer_size)).

Definition new (kd : SpaceKind) (tp : SpaceType) (nm : string) (big_end : bool)
    (size ws ind fl dl dead : Z) : AddrSpace :=
  let flg := Z.land fl HASPHYSICAL in
  let flg := if big_end then Z.lor flg BIG_ENDIAN else flg in
  let flg := Z.lor flg (Z.lor HERITAGED DOES_DEADCODE) in
  let spc := {| kind := kd; space_type := tp; flags := flg; shortcut := 32; highest := 0;
    pointer_lower_bound := 0; pointer_upper_bound := 0; name := nm; address_size := size;
    wordsize := ws; minimum_pointer_size := 0; space_index := ind; delay := dl;
    deadcodedelay := dead |} in
  let spc := calc_scale_mask spc in
  set_flags spc (if delay spc =? 0 then ADDRESSABLE_NONE else ADDRESSABLE_ALL).

Definition new_for_decode (kd : SpaceKind) (tp : SpaceType) : AddrSpace :=
  {| kind := kd; space_type := tp; flags := Z.lor HERITAGED DOES_DEADCODE; shortcut := 32;
     highest := 0; pointer_lower_bound := 0; pointer_upper_bound := 0; name := "";
     address_size := 0; wordsize := 1; minimum_pointer_size := 0; space_index := 0;
     delay := 0; deadcodedelay := 0 |}.

Definition new_processor (nm : string) (big_end : bool) (size ws ind fl dl dead : Z) : AddrSpace :=
  new KindBase Processor nm big_end size ws ind fl dl dead.

Definition new_constant : AddrSpace :=
  clear_flags (new KindConstant Constant CONSTANT_SPACE_NAME false 8 1 CONSTANT_SPACE_INDEX 0 0 0)
    (Z.lor (Z.lor HERITAGED DOES_DEADCODE) BIG_ENDIAN).

Definition new_other (_ind : Z) : AddrSpace :=
  let spc := new KindOther Processor OTHER_SPACE_NAME false 8 1 OTHER_SPACE_INDEX 0 0 0 in
  let spc := clear_flags spc (Z.lor HERITAGED DOES_DEADCODE) in
  set_flags spc IS_OTHERSPACE.

Definition new_unique (big_end : bool) (ind fl : Z) : AddrSpace :=
  set_flags (new KindUnique Internal UNIQUE_SPACE_NAME big_end UNIQUE_SPACE_SIZE 1 ind fl 0 0) HASPHYSICAL.

Definition new_join (big_end : bool) (ind : Z) : AddrSpace :=
  clear_flags (new KindJoin Join JOIN_SPACE_NAME big_end 4 1 ind 0 0 0) HERITAGED.

(** [base_ref] is the reference and [base] the space it refers to. *)
Definition new_spacebase (nm : string) (big_end : bool) (ind sz : Z) (base_ref : nat) (base : AddrSpace) (dl : Z)
    (is_formal : bool) : AddrSpace :=
  let spc := new (KindSpacebase (Some base_ref)) Spacebase nm big_end sz (wordsize base) ind 0 dl dl in
  let spc := set_flags spc ALLOWS_WRAPPED_RANGE in
  if is_formal then set_flags spc FORMAL_STACKSPACE else spc.

Definition new_fspec (ind : Z) : AddrSpace :=
  clear_flags (new KindFspec Fspec FSPEC_SPACE_NAME false 8 1 ind 0 1 1)
    (Z.lor (Z.lor HERITAGED DOES_DEADCODE) BIG_ENDIAN).

Definition new_iop (ind : Z) : AddrSpace :=
  clear_flags (new KindIop Iop IOP_SPACE_NAME false 8 1 ind 0 1 1)
    (Z.lor (Z.lor HERITAGED DOES_DEADCODE) BIG_ENDIAN).

(** [AddrSpace::maximal]: the space of the largest index, for the sentinel
    address. *)
Definition maximal : AddrSpace :=
  let s := new_for_decode KindMaximal Processor in
  {| kind := kind s; space_type := space_type s; flags := flags s; shortcut := shortcut s;
     highest := highest s; pointer_lower_bound := pointer_lower_bound s;
     pointer_upper_bound := pointer_upper_bound s; name := name s;
     address_size := address_size s; wordsize := wordsize s;
     minimum_pointer_size := minimum_pointer_size s; space_index := 2 ^ 31 - 1;
     delay := delay s; deadcodedelay := deadcodedelay s |}.

Definition truncate_space (s : AddrSpace) (newsize : Z) : AddrSpace :=
  let s := set_flags s TRUNCATED in
  let s := with_size s newsize (i32 newsize) in
  calc_scale_mask s.

Definition has_flag (s : AddrSpace) (fl : Z) : bool := negb (Z.land (flags s) fl =? 0).
Definition is_heritaged (s : AddrSpace) : bool := has_flag s HERITAGED.
Definition does_deadcode (s : AddrSpace) : bool := has_flag s DOES_DEADCODE.
Definition has_physical (s : AddrSpace) : bool := has_flag s HASPHYSICAL.
Definition is_big_endian (s : AddrSpace) : bool := has_flag s BIG_ENDIAN.
Definition is_reverse_justified (s : AddrSpace) : bool := has_flag s REVERSE_JUSTIFICATION.
Definition is_formal_stack_space (s : AddrSpace) : bool := has_flag s FORMAL_STACKSPACE.
Definition is_overlay (s : AddrSpace) : bool := has_flag s OVERLAY.
Definition is_overlay_base (s : AddrSpace) : bool := has_flag s OVERLAYBASE.
Definition is_other_space (s : AddrSpace) : bool := has_flag s IS_OTHERSPACE.
Definition is_truncated (s : AddrSpace) : bool := has_flag s TRUNCATED.
Definition no_high_ptr_possible (s : AddrSpace) : bool := has_flag s ADDRESSABLE_NONE.
Definition has_near_pointers (s : AddrSpace) : bool := has_flag s HAS_NEARPOINTERS.
Definition allows_wrapped_range (s : AddrSpace) : bool := has_flag s ALLOWS_WRAPPED_RANGE.

Definition wrap_offset (s : AddrSpace) (off : Z) : Z :=
  if off <=? highest s then off else
  let modulus := i64 (u64 (highest s + 1)) in
  if modulus =? 0 then off else
  let res := i64 (Z.rem (i64 off) modulus) in
  let res := if res <? 0 then i64 (res + modulus) else res in
  u64 res.

Definition get_contain (s : AddrSpace) : option nat :=
  match kind s with
  | KindSpacebase contain => contain
  | KindOverlay base_space => Some base_space
  | _ => None
  end.

Definition is_maximal (s : AddrSpace) : bool := match kind s with KindMaximal => true | _ => false end.

Definition set_shortcut (s : AddrSpace) (sc : Z) : AddrSpace :=
  {| kind := kind s; space_type := space_type s; flags := flags s; shortcut := sc;
     highest := highest s; pointer_lower_bound := pointer_lower_bound s;
     pointer_upper_bound := pointer_upper_bound s; name := name s;
     address_size := address_size s; wordsize := wordsize s;
     minimum_pointer_size := minimum_pointer_size s; space_index := space_index s;
     delay := delay s; deadcodedelay := deadcodedelay s |}.

Definition set_minimum_ptr_size (s : AddrSpace) (size : Z) : AddrSpace := with_size s (address_size s) size.

Definition set_pointer_bounds (s : AddrSpace) (lower upper : Z) : AddrSpace := with_bounds s (highest s) lower upper.

(** ** Bounds of a space *)

(** A space whose byte size is [2^k]: every space with a power-of-two word size
    that fits 64 bits. *)
Definition pow2_space (s : AddrSpace) (k : Z) : Prop := 0 < k <= 64 /\ highest s = 2 ^ k - 1.

Lemma calc_scale_mask_highest s j : 1 <= address_size s <= 8 -> 0 <= j -> wordsize s = 2 ^ j ->
  8 * address_size s + j <= 64 -> pow2_space (calc_scale_mask s) (8 * address_size s + j).
Proof.
  intros Ha Hj Hw Hk. unfold calc_scale_mask, pow2_space. cbn [highest with_bounds]. split; [lia|].
  nocast. rewrite calc_mask_pow, Hw by lia.
  pose proof (pow2_pos j Hj). pose proof (pow2_pos (8 * address_size s) ltac:(lia)).
  assert (2 ^ (8 * address_size s + j) = 2 ^ (8 * address_size s) * 2 ^ j) as E by (apply Z.pow_add_r; lia).
  assert (2 ^ (8 * address_size s + j) <= 2 ^ 64) by (apply Z.pow_le_mono_r; lia).
  assert (2 ^ 1 <= 2 ^ (8 * address_size s)) by (apply Z.pow_le_mono_r; lia).
  rewrite E in *. revert H H0 H1 H2. generalize (2 ^ j) (2 ^ (8 * address_size s)).
  intros W A HW HA Hle H2. rewrite (u64_small W) by nia.
  rewrite (u64_small ((A - 1) * W)), (u64_small (W - 1)) by nia. rewrite u64_small; nia.
Qed.

Lemma rem_pow2_neg x k : 0 <= k -> x < 0 -> Z.rem x (2 ^ k) = if x mod 2 ^ k =? 0 then 0 else x mod 2 ^ k - 2 ^ k.
Proof.
  intros Hk Hx. pose proof (pow2_pos k Hk). replace x with (- (- x)) at 1 by lia.
  rewrite Z.rem_opp_l, Z.rem_mod_nonneg by lia.
  destruct (Z.eqb_spec (x mod 2 ^ k) 0) as [E|N].
  - rewrite Z.mod_opp_l_z by lia. done.
  - rewrite Z.mod_opp_l_nz by lia. lia.
Qed.

Lemma uw_add_i64 a b : u64 (a + i64 b) = u64 (a + b).
Proof.
  unfold uw at 1. rewrite <- Zplus_mod_idemp_r. fold (u64 (i64 b)). rewrite uw_sw by lia.
  unfold uw. apply Zplus_mod_idemp_r.
Qed.

Lemma wrap_offset_pow2 s k off : pow2_space s k -> is_u64 off -> wrap_offset s off = off mod 2 ^ k.
Proof.
  intros [Hk Hh] Ho. unfold wrap_offset. rewrite Hh. replace (2 ^ k - 1 + 1) with (2 ^ k) by lia.
  pose proof (pow2_pos k ltac:(lia)) as Hp. unfold is_u in Ho.
  destruct (Z.leb_spec off (2 ^ k - 1)); [rewrite Z.mod_small by lia; done|].
  destruct (Z.eq_dec k 64) as [->|]; [lia|].
  assert (2 ^ k <= 2 ^ 63) by (apply Z.pow_le_mono_r; lia). rewrite u64_small by lia.
  assert (Hmod : i64 off mod 2 ^ k = off mod 2 ^ k).
  { change (i64 off mod 2 ^ k) with (uw k (sw 64 off)). by rewrite uw_sw_le by lia. }
  pose proof (Z.mod_pos_bound off (2 ^ k) Hp) as Hb. rewrite <- Hmod in Hb |- *.
  pose proof (sw_range 64 off ltac:(lia)) as Hr. unfold is_s in Hr.
  assert (Em : i64 (2 ^ k) = 2 ^ k \/ i64 (2 ^ k) = - 2 ^ k).
  { destruct (Z.eq_dec k 63) as [->|]; [by right|]. left. apply sw_small; [lia|]. unfold is_s.
    assert (2 ^ k < 2 ^ 63) by (apply Z.pow_lt_mono_r; lia). lia. }
  assert (Hrem : Z.rem (i64 off) (i64 (2 ^ k)) = Z.rem (i64 off) (2 ^ k)).
  { destruct Em as [-> | ->]; [done|]. by rewrite Z.rem_opp_r by lia. }
  rewrite Hrem. destruct (Z.eqb_spec (i64 (2 ^ k)) 0) as [|_]; [lia|].
  destruct (Z.le_gt_cases 0 (i64 off)) as [Hpos|Hneg].
  - rewrite Z.rem_mod_nonneg by lia. rewrite (sw_small 64 (i64 off mod 2 ^ k)) by (unfold is_s; lia).
    destruct (Z.ltb_spec (i64 off mod 2 ^ k) 0); [lia|]. apply u64_small. lia.
  - rewrite rem_pow2_neg by lia. destruct (Z.eqb_spec (i64 off mod 2 ^ k) 0) as [E|N].
    + by rewrite E.
    + rewrite (sw_small 64 (i64 off mod 2 ^ k - 2 ^ k)) by (unfold is_s; lia).
      destruct (Z.ltb_spec (i64 off mod 2 ^ k - 2 ^ k) 0); [|lia].
      rewrite uw_sw by lia. rewrite uw_add_i64 by lia. rewrite Z.sub_add. apply u64_small. lia.
Qed.

Lemma pow2_space_flags s fl k : pow2_space s k -> pow2_space (set_flags s fl) k.
Proof. done. Qed.

(** A space of [size] address bytes and [2^j]-byte words wraps offsets at
    exactly its byte size, at creation and after truncation. *)
Theorem space_wraps kd tp nm big_end size j ind fl dl dead off :
  1 <= size <= 8 -> 0 <= j -> 8 * size + j <= 64 -> is_u64 off ->
  let spc := new kd tp nm big_end size (2 ^ j) ind fl dl dead in
  wrap_offset spc off = off mod 2 ^ (8 * size + j) /\
  forall newsize, 1 <= newsize <= size ->
    wrap_offset (truncate_space spc newsize) off = off mod 2 ^ (8 * newsize + j).
Proof.
  intros Hs Hj Hk Ho spc. split.
  - apply wrap_offset_pow2; [|done]. apply pow2_space_flags.
    by apply (calc_scale_mask_highest {| address_size := size; wordsize := 2 ^ j |}).
  - intros n Hn. apply wrap_offset_pow2; [|done].
    apply (calc_scale_mask_highest (with_size (set_flags spc TRUNCATED) n (i32 n)) j); simpl; lia || done.
Qed.

(** A 32-bit space wraps 2^32 + 5 and -1. *)
Lemma space_wraps_witness :
  wrap_offset (new_processor "ram" false 4 1 3 0 1 1) (2 ^ 32 + 5) = 5 /\
  wrap_offset (new_processor "ram" false 4 1 3 0 1 1) (2 ^ 64 - 1) = 2 ^ 32 - 1.
Proof.
  split; [apply (space_wraps KindBase Processor "ram" false 4 0 3 0 1 1 (2 ^ 32 + 5))
         |apply (space_wraps KindBase Processor "ram" false 4 0 3 0 1 1 (2 ^ 64 - 1))]; unfold is_u; lia.
Defined.
