(* ===== verification/Address.v ===== *)
(** Addresses and sequence numbers ([Address] and [SeqNum] of
    [src/src/address.rs]): construction, offset arithmetic in the space,
    containment and overlap of storage ranges, and the orderings used as keys.
    Operations that need the space of an invalid address panic, as
    [Address::base] does. *)
From stdpp Require Import base list numbers strings.
From Stdlib Require Import ZArith Lia.
From S2P Require Import Prelude Bits BTree Space.

(** ** Definitions *)

Inductive MachExtreme : Type := Minimal | Maximal.

Record AddressKey : Type := mk_AddressKey { key_space : Z; key_offset : Z }.
Record Address : Type := mk_Address { space : option AddrSpace; offset : Z }.
Record SeqKey : Type := mk_SeqKey { key_pc : AddressKey; key_uniq : Z }.

(** The free function [space_index]. *)
Definition base_index (spc : option AddrSpace) : option Z := space_index <$> spc.

Definition address_new (spc : AddrSpace) (off : Z) : Address := mk_Address (Some spc) off.
Definition from_parts (spc : option AddrSpace) (off : Z) : Address := mk_Address spc off.
Definition invalid : Address := mk_Address None 0.

Definition extreme (ex : MachExtreme) : Address :=
  match ex with
  | Minimal => mk_Address None 0
  | Maximal => mk_Address (Some maximal) (2 ^ 64 - 1)
  end.

Definition is_invalid (a : Address) : bool := match space a with None => true | Some _ => false end.

Definition ordering_key (a : Address) : AddressKey :=
  mk_AddressKey (match space a with None => -1 | Some spc => space_index spc end) (offset a).

Definition base (a : Address) : outcome AddrSpace :=
  match space a with Some spc => Ok spc | None => Panic end.

Definition get_addr_size (a : Address) : outcome Z := let! spc := base a in Ok (i32 (address_size spc)).
Definition addr_is_big_endian (a : Address) : outcome bool := let! spc := base a in Ok (is_big_endian spc).
Definition is_constant (a : Address) : outcome bool := let! spc := base a in Ok (bool_decide (space_type spc = Constant)).
Definition is_join (a : Address) : outcome bool := let! spc := base a in Ok (bool_decide (space_type spc = Join)).

(** [Address::add] and [Address::sub]: [off] is an [i64]. *)
Definition addr_add (a : Address) (off : Z) : outcome Address :=
  let! spc := base a in
  Ok (mk_Address (space a) (wrap_offset spc (u64 (offset a + u64 off)))).

Definition addr_sub (a : Address) (off : Z) : outcome Address :=
  let! spc := base a in
  Ok (mk_Address (space a) (wrap_offset spc (u64 (offset a - u64 off)))).

Definition is_valid_range (a : Address) (size : Z) : outcome bool :=
  let! spc := base a in Ok (u64 (size - 1) <=? u64 (highest spc - offset a)).

Definition same_base (a op2 : Address) : bool := bool_decide (base_index (space a) = base_index (space op2)).

Definition contained_by (a : Address) (sz : Z) (op2 : Address) (sz2 : Z) : bool :=
  if negb (same_base a op2) then false
  else if offset op2 >? offset a then false
  else
    let off1 := u64 (offset a + u64 (i64 (sz - 1))) in
    let off2 := u64 (offset op2 + u64 (i64 (sz2 - 1))) in
    off2 >=? off1.

Definition justified_contain (a : Address) (sz : Z) (op2 : Address) (sz2 : Z) (forceleft : bool) : outcome Z :=
  if negb (same_base a op2) then Ok (-1)
  else if offset op2 <? offset a then Ok (-1)
  else
    let off1 := u64 (offset a + u64 (i64 (sz - 1))) in
    let off2 := u64 (offset op2 + u64 (i64 (sz2 - 1))) in
    if off2 >? off1 then Ok (-1)
    else
      let! spc := base a in
      if is_big_endian spc && negb forceleft then Ok (i32 (u64 (off1 - off2)))
      else Ok (i32 (u64 (offset op2 - offset a))).

Definition overlap (a : Address) (skip : Z) (op : Address) (size : Z) : outcome Z :=
  if negb (same_base a op) then Ok (-1)
  else
    let! spc := base a in
    if decide (space_type spc = Constant) then Ok (-1)
    else
      let dist := wrap_offset spc (u64 (u64 (offset a + u64 (i64 skip)) - offset op)) in
      if dist >=? u64 (i64 size) then Ok (-1) else Ok (i32 dist).

Definition is_contiguous (a : Address) (sz : Z) (loaddr : Address) (losz : Z) : outcome bool :=
  if negb (same_base a loaddr) then Ok false
  else
    let! spc := base a in
    if is_big_endian spc then
      let nextoff := wrap_offset spc (u64 (offset a + u64 (i64 sz))) in
      Ok (nextoff =? offset loaddr)
    else
      let nextoff := wrap_offset spc (u64 (offset loaddr + u64 (i64 losz))) in
      Ok (nextoff =? offset a).

(** [PartialEq] and [Ord] of addresses. *)
Definition addr_eq (a b : Address) : bool := same_base a b && (offset a =? offset b).

Definition addr_cmp (a b : Address) : comparison :=
  match space a, space b with
  | None, None => Z.compare (offset a) (offset b)
  | None, Some _ => Lt
  | Some _, None => Gt
  | Some spc1, Some spc2 =>
      cmp_then (Z.compare (space_index spc1) (space_index spc2)) (Z.compare (offset a) (offset b))
  end.

(** [derive(Ord)] on [AddressKey] and [SeqKey]. *)
Definition address_key_cmp (a b : AddressKey) : comparison :=
  cmp_then (Z.compare (key_space a) (key_space b)) (Z.compare (key_offset a) (key_offset b)).

Definition seq_key_cmp (a b : SeqKey) : comparison :=
  cmp_then (address_key_cmp (key_pc a) (key_pc b)) (Z.compare (key_uniq a) (key_uniq b)).

(** *** Sequence numbers *)

Record SeqNum : Type := mk_SeqNum { pc : Address; uniq : Z; order : Z }.

Definition seqnum_new (p : Address) (u : Z) : SeqNum := mk_SeqNum p u 0.

Definition seqnum_extreme (ex : MachExtreme) : SeqNum :=
  mk_SeqNum (extreme ex) (match ex with Minimal => 0 | Maximal => 2 ^ 32 - 1 end) 0.

Definition seq_key_new (p : Address) (u : Z) : SeqKey := mk_SeqKey (ordering_key p) u.
Definition seqnum_ordering_key (s : SeqNum) : SeqKey := mk_SeqKey (ordering_key (pc s)) (uniq s).
Definition set_order (s : SeqNum) (ord : Z) : SeqNum := mk_SeqNum (pc s) (uniq s) ord.

Definition seqnum_eq (a b : SeqNum) : bool := uniq a =? uniq b.

Definition seqnum_cmp (a b : SeqNum) : comparison :=
  if addr_eq (pc a) (pc b) then Z.compare (uniq a) (uniq b) else addr_cmp (pc a) (pc b).

(** ** Orderings *)

(** A space index is never negative; the invalid address sorts before all. *)
Definition valid_address (a : Address) : Prop :=
  is_u64 (offset a) /\ forall spc, space a = Some spc -> 0 <= space_index spc.

Lemma addr_cmp_key a b : valid_address a -> valid_address b ->
  addr_cmp a b = address_key_cmp (ordering_key a) (ordering_key b).
Proof.
  intros [_ Ha] [_ Hb]. unfold addr_cmp, address_key_cmp, ordering_key. simpl.
  destruct (space a) as [sa|], (space b) as [sb|]; [done| | |done].
  - specialize (Ha sa eq_refl). destruct (Z.compare_spec (space_index sa) (-1)); [lia|lia|done].
  - specialize (Hb sb eq_refl). destruct (Z.compare_spec (-1) (space_index sb)); [lia|done|lia].
Qed.

Lemma addr_eq_cmp a b : addr_eq a b = true <-> addr_cmp a b = Eq.
Proof.
  unfold addr_eq, addr_cmp, same_base, base_index. rewrite andb_true_iff, bool_decide_eq_true, Z.eqb_eq.
  destruct (space a) as [sa|], (space b) as [sb|]; simpl; [|naive_solver|naive_solver|].
  - rewrite <- Z.compare_eq_iff. unfold cmp_then.
    destruct (Z.compare_spec (space_index sa) (space_index sb)); [split; [by intros [_ ?]|intros; split; [by f_equal|done]]|..]; (split; [intros [[= ?] _]; lia|discriminate]).
  - rewrite Z.compare_eq_iff. naive_solver.
Qed.

(** The key under which addresses and sequence numbers are filed orders
    them exactly as their own [cmp] does, and two sequence numbers compare equal
    exactly when both their address and their time agree. *)
Theorem ordering_keys_agree (s t : SeqNum) : valid_address (pc s) -> valid_address (pc t) ->
  addr_cmp (pc s) (pc t) = address_key_cmp (ordering_key (pc s)) (ordering_key (pc t)) /\
  seqnum_cmp s t = seq_key_cmp (seqnum_ordering_key s) (seqnum_ordering_key t) /\
  (seqnum_cmp s t = Eq <-> addr_eq (pc s) (pc t) = true /\ uniq s = uniq t).
Proof.
  intros Hs Ht. split; [by apply addr_cmp_key|]. split.
  - unfold seqnum_cmp, seq_key_cmp, seqnum_ordering_key. cbn [key_pc key_uniq].
    rewrite <- addr_cmp_key by done. destruct (addr_eq (pc s) (pc t)) eqn:E.
    + apply addr_eq_cmp in E. by rewrite E.
    + destruct (addr_cmp (pc s) (pc t)) eqn:C; [|done..]. apply addr_eq_cmp in C. congruence.
  - unfold seqnum_cmp. destruct (addr_eq (pc s) (pc t)) eqn:E; [rewrite Z.compare_eq_iff; naive_solver|].
    split; [|naive_solver]. intros C%addr_eq_cmp. congruence.
Qed.

Definition ram32 : AddrSpace := new_processor "ram" false 4 1 3 0 1 1.

Lemma ordering_keys_agree_witness :
  seqnum_cmp (seqnum_new (address_new ram32 4) 7) (seqnum_new (address_new ram32 8) 3) = Lt /\
  seqnum_eq (seqnum_new (address_new ram32 4) 7) (seqnum_new (address_new ram32 8) 7) = true /\
  seqnum_cmp (seqnum_new (address_new ram32 4) 7) (seqnum_new (address_new ram32 8) 7) <> Eq.
Proof.
  assert (forall o, is_u64 o -> valid_address (address_new ram32 o)) as Hv.
  { intros o Ho. split; [done|]. intros spc [= <-]. vm_compute. discriminate. }
  destruct (ordering_keys_agree (seqnum_new (address_new ram32 4) 7) (seqnum_new (address_new ram32 8) 7))
    as (_ & _ & E); [apply Hv; unfold is_u; simpl; lia..|].
  split; [reflexivity|]. split; [reflexivity|]. rewrite E. intros [N _]. vm_compute in N. discriminate.
Defined.

(** ** Arithmetic in a space *)

Section InSpace.
Variables (spc : AddrSpace) (k : Z).
Hypothesis Hspc : pow2_space spc k.

Lemma wrap_u64 z : wrap_offset spc (u64 z) = z mod 2 ^ k.
Proof.
  rewrite (wrap_offset_pow2 spc k) by (done || by apply uw_range).
  destruct Hspc as [Hk _]. change (uw k (u64 z) = uw k z). apply uw_idem. lia.
Qed.

(** Moving an address forth and back inside its space, with wrap-around at
    the end of the space. *)
Theorem address_add_sub off off' a : is_i64 off -> is_i64 off' ->
  space a = Some spc -> 0 <= offset a < 2 ^ k ->
  addr_add a off = Ok (mk_Address (Some spc) ((offset a + off) mod 2 ^ k)) /\
  addr_sub a off = Ok (mk_Address (Some spc) ((offset a - off) mod 2 ^ k)) /\
  (let! b := addr_add a off in addr_sub b off) = Ok a /\
  (let! b := addr_add a off in addr_add b off') = addr_add a (off + off').
Proof.
  intros Ho Ho' Hs Ha. pose proof (proj1 Hspc) as Hk. pose proof (pow2_pos k ltac:(lia)) as Hp.
  assert (Hadd : forall o z, wrap_offset spc (u64 (o + u64 z)) = (o + z) mod 2 ^ k).
  { intros o z. rewrite wrap_u64. exact (uw_add_idem k 64 o z ltac:(lia)). }
  assert (Hsub : forall o z, wrap_offset spc (u64 (o - u64 z)) = (o - z) mod 2 ^ k).
  { intros o z. rewrite wrap_u64, Zminus_mod, (Zminus_mod o z). do 2 f_equal.
    exact (uw_idem k 64 z ltac:(lia)). }
  unfold addr_add, addr_sub, base. rewrite Hs. cbn [obind space offset].
  rewrite !Hadd, !Hsub. split; [done|]. split; [done|]. split.
  - rewrite Zminus_mod_idemp_l. replace (offset a + off - off) with (offset a) by lia.
    rewrite Z.mod_small by done. destruct a. simpl in *. congruence.
  - rewrite Zplus_mod_idemp_l. do 3 f_equal. lia.
Qed.

(** The overlap of a byte with a range, across the wrap of the space:
    every answer [d >= 0] is below the size and names the byte, every byte of
    the range is found at its position, and otherwise the answer is -1. *)
Theorem overlap_correct a op skip size : space a = Some spc ->
  base_index (space op) = Some (space_index spc) -> space_type spc <> Constant ->
  0 <= offset a < 2 ^ k -> 0 <= offset op < 2 ^ k -> is_i32 skip -> is_i32 size -> 0 < size <= 2 ^ k ->
  exists d, overlap a skip op size = Ok d /\ -1 <= d < size /\
    forall i, 0 <= i < size -> (d = i <-> (offset op + i) mod 2 ^ k = (offset a + skip) mod 2 ^ k).
Proof.
  intros Hs Hop Hc Ha Ho Hskip Hsize Hle. pose proof (proj1 Hspc) as Hk.
  pose proof (pow2_pos k ltac:(lia)) as Hp. unfold is_s in *.
  unfold overlap, same_base, base. rewrite Hs, Hop. rewrite bool_decide_true by done. cbn [negb obind].
  destruct (decide (space_type spc = Constant)) as [|_]; [done|].
  assert (wrap_offset spc (u64 (u64 (offset a + u64 (i64 skip)) - offset op)) =
    (offset a + skip - offset op) mod 2 ^ k) as ->.
  { rewrite wrap_u64, Zminus_mod. fold (uw k (u64 (offset a + u64 (i64 skip)))).
    rewrite (uw_idem k 64) by lia. rewrite (uw_add_idem k 64), (sw_small 64) by (unfold is_s; lia).
    unfold uw. by rewrite <- Zminus_mod. }
  set (dist := (offset a + skip - offset op) mod 2 ^ k).
  pose proof (Z.mod_pos_bound (offset a + skip - offset op) (2 ^ k) Hp) as Hd. fold dist in Hd.
  rewrite (sw_small 64), u64_small by (unfold is_s; lia).
  assert (Hi : forall i, 0 <= i < size ->
    (dist = i <-> (offset op + i) mod 2 ^ k = (offset a + skip) mod 2 ^ k)).
  { intros i Hi. unfold dist. split.
    - intros <-. rewrite Zplus_mod_idemp_r. f_equal. lia.
    - intros E. rewrite Zminus_mod, <- E, <- Zminus_mod.
      replace (offset op + i - offset op) with i by lia. apply Z.mod_small. lia. }
  rewrite Z.geb_leb. destruct (Z.leb_spec size dist).
  - exists (-1). split; [done|]. split; [lia|]. intros i Hi'. split; [lia|]. intros E%Hi; lia.
  - exists dist. rewrite i32_small by lia. split; [done|]. split; [lia|]. done.
Qed.
End InSpace.

(** Byte 2^32 - 1 + 1 = 0 of a 32-bit space is byte 2 of the range at 2^32 - 2. *)
Lemma overlap_correct_witness : exists d,
  overlap (address_new ram32 (2 ^ 32 - 1)) 1 (address_new ram32 (2 ^ 32 - 2)) 4 = Ok d /\ d = 2.
Proof.
  destruct (overlap_correct ram32 32) with (a := address_new ram32 (2 ^ 32 - 1)) (skip := 1)
    (op := address_new ram32 (2 ^ 32 - 2)) (size := 4) as (d & E & _ & H);
    first [split; [lia|reflexivity] | reflexivity | discriminate | unfold is_s; simpl; lia | idtac].
  exists d. split; [exact E|]. apply (H 2); [lia|reflexivity].
Defined.

Lemma address_add_sub_witness :
  addr_add (address_new ram32 (2 ^ 32 - 1)) 5 = Ok (address_new ram32 4) /\
  (let! b := addr_add (address_new ram32 3) (-5) in addr_sub b (-5)) = Ok (address_new ram32 3).
Proof.
  split; [apply (address_add_sub ram32 32) with (off' := 0)|apply (address_add_sub ram32 32) with (off' := 0)];
    first [split; [lia|reflexivity] | reflexivity | unfold is_s; simpl; lia | idtac].
Defined.

(** ** Containment *)

(** The storage range [off, off + sz) of the address does not leave 64 bits. *)
Definition range_fits (a : Address) (sz : Z) : Prop :=
  0 <= offset a /\ 0 < sz < 2 ^ 31 /\ offset a + sz <= 2 ^ 64.

Lemma range_end a sz : range_fits a sz -> u64 (offset a + u64 (i64 (sz - 1))) = offset a + sz - 1.
Proof.
  intros (H0 & H1 & H2). rewrite sw_small by (unfold is_s; lia). rewrite !u64_small; rewrite ?u64_small; lia.
Qed.

Definition subrange (a : Address) (sz : Z) (b : Address) (sz2 : Z) : Prop :=
  base_index (space a) = base_index (space b) /\
  forall o, offset a <= o < offset a + sz -> offset b <= o < offset b + sz2.

Lemma subrange_bounds a sz b sz2 : 0 < sz ->
  subrange a sz b sz2 <->
  base_index (space a) = base_index (space b) /\ offset b <= offset a /\ offset a + sz <= offset b + sz2.
Proof.
  intros Hsz. unfold subrange. split; [|naive_solver lia]. intros [Hb H]. split; [done|].
  pose proof (H (offset a) ltac:(lia)). pose proof (H (offset a + sz - 1) ltac:(lia)). lia.
Qed.

(** Containment of storage ranges.  [contained_by] decides inclusion;
    [justified_contain] returns -1 exactly when the range is not included, and
    otherwise the number of bytes between the range and the justified end: the
    low end, or the high end in a big-endian space unless [forceleft]. *)
Theorem containment_correct a sz b sz2 spc forceleft :
  range_fits a sz -> range_fits b sz2 -> space b = Some spc ->
  (contained_by a sz b sz2 = true <-> subrange a sz b sz2) /\
  exists r, justified_contain b sz2 a sz forceleft = Ok r /\
    (r = -1 <-> ~ subrange a sz b sz2) /\
    (subrange a sz b sz2 ->
       r = if is_big_endian spc && negb forceleft
           then offset b + sz2 - (offset a + sz) else offset a - offset b).
Proof.
  intros Ha Hb Hs. pose proof (range_end a sz Ha) as Ea. pose proof (range_end b sz2 Hb) as Eb.
  unfold contained_by, justified_contain, same_base. rewrite Ea, Eb.
  destruct Ha as (? & ? & ?), Hb as (? & ? & ?). pose proof (subrange_bounds a sz b sz2 ltac:(lia)) as HS.
  generalize dependent (subrange a sz b sz2). intros S HS. unfold base. rewrite Hs in *.
  change (base_index (Some spc)) with (Some (space_index spc)) in *.
  rewrite Z.gtb_ltb, Z.geb_leb, Z.gtb_ltb.
  assert (no : ~ S -> (false = true <-> S) /\ exists r, Ok (-1) = Ok r /\ (r = -1 <-> ~ S) /\ (S -> r =
     if is_big_endian spc && negb forceleft then offset b + sz2 - (offset a + sz) else offset a - offset b)).
  { intros N. split; [by split|]. exists (-1). by split; [|split]. }
  destruct (bool_decide_reflect (base_index (space a) = Some (space_index spc))) as [E|N].
  2:{ rewrite bool_decide_false by done. cbn [negb]. apply no. rewrite HS. by intros [? _]. }
  rewrite bool_decide_true by done. cbn [negb].
  destruct (Z.ltb_spec (offset a) (offset b)); [apply no; rewrite HS; lia|].
  destruct (Z.ltb_spec (offset b + sz2 - 1) (offset a + sz - 1)).
  { destruct (Z.leb_spec (offset a + sz - 1) (offset b + sz2 - 1)); [lia|]. apply no. rewrite HS. lia. }
  assert S as HSt by (apply HS; split; [done|lia]).
  destruct (Z.leb_spec (offset a + sz - 1) (offset b + sz2 - 1)); [|lia]. split; [by split|].
  cbn [obind]. destruct (is_big_endian spc && negb forceleft); eexists; (split; [reflexivity|]);
    rewrite u64_small, i32_small by lia; (split; [split; [lia|done]|lia]).
Qed.

(** Bytes 2..3 of an 8-byte range, in a little- and in a big-endian space. *)
Definition ram32be : AddrSpace := new_processor "ram" true 4 1 3 0 1 1.

Lemma containment_correct_witness :
  contained_by (address_new ram32 0x102) 2 (address_new ram32 0x100) 8 = true /\
  justified_contain (address_new ram32be 0x100) 8 (address_new ram32be 0x102) 2 false = Ok 4.
Proof.
  split.
  - apply (containment_correct (address_new ram32 0x102) 2 (address_new ram32 0x100) 8 ram32 false);
      first [unfold range_fits; simpl; lia | reflexivity | idtac].
    apply subrange_bounds; [lia|]. simpl. split; [done|lia].
  - destruct (containment_correct (address_new ram32be 0x102) 2 (address_new ram32be 0x100) 8 ram32be false)
      as (_ & r & E & _ & H); [unfold range_fits; simpl; lia..|reflexivity|].
    rewrite E, H; [reflexivity|]. apply subrange_bounds; [lia|]. simpl. split; [done|lia].
Defined.
