(* ===== verification/LoadImage.v ===== *)
(** Load images, [src/src/loadimage.rs]: the trait that serves the bytes of a
    program, and the raw image, a flat file mapped at an address.  A load that
    starts inside the file is filled with zeros past its end; one that starts
    outside it is an error. *)
From stdpp Require Import base list numbers strings.
From Stdlib Require Import ZArith Lia.
From S2P Require Import Prelude Space Address.
Local Open Scope Z_scope.
Local Open Scope rust_scope.

(** ** Definitions *)

(** [LoadImage::load_fill]: the buffer before the call and after it.  The other
    methods of the trait are queries about symbols and sections. *)
Definition LoadFill : Type := list Z -> Address -> outcome (list Z).

(** [slice\[pos..pos + src.len()\].copy_from_slice(src)] and
    [&slice\[pos..\]]. *)
Definition copy_at (l : list Z) (pos : nat) (src : list Z) : outcome (list Z) :=
  if decide (pos + length src <= length l)%nat then Ok (take pos l ++ src ++ drop (pos + length src) l) else Panic.

Definition slice_from (l : list Z) (pos : nat) : outcome (list Z) :=
  if decide (pos <= length l)%nat then Ok (drop pos l) else Panic.

Definition slice_of (l : list Z) (pos count : nat) : outcome (list Z) :=
  if decide (pos + count <= length l)%nat then Ok (take count (drop pos l)) else Panic.

(** [LoadImage::load]. *)
Definition load (fill : LoadFill) (size : Z) (addr : Address) : outcome (list Z) :=
  fill (replicate (Z.to_nat (Z.max size 0)) 0) addr.

Record RawLoadImage : Type := mk_RawLoadImage {
  filename : string;
  vma : Z;
  content : option (list Z);
  spaceid : option AddrSpace
}.

Definition raw_new (fname : string) : RawLoadImage := mk_RawLoadImage fname 0 None None.

Definition from_bytes (fname : string) (bytes : list Z) : RawLoadImage := mk_RawLoadImage fname 0 (Some bytes) None.

Definition attach_to_space (img : RawLoadImage) (id : AddrSpace) : RawLoadImage :=
  mk_RawLoadImage (filename img) (vma img) (content img) (Some id).

(** [file] is what [std::fs::read] finds under the name. *)
Definition raw_open (file : string -> option (list Z)) : stm RawLoadImage unit := fun img =>
  match content img with
  | Some _ => (img, Err (Lowlevel "loadimage is already open"))
  | None =>
      match file (filename img) with
      | Some bytes => (mk_RawLoadImage (filename img) (vma img) (Some bytes) (spaceid img), Ok tt)
      | None => (img, Err (Lowlevel ("Unable to open raw image file: " +:+ filename img)))
      end
  end.

(** The loop of [load_fill]; [inl] says how many bytes are missing when it
    breaks. *)
Definition fill_step (bytes : list Z) (st : list Z * nat * nat * Z)
    : outcome (list Z * nat * nat * Z + (nat + list Z)) :=
  let '(ptr, off, size, curaddr) := st in
  let filesize := Z.of_nat (length bytes) in
  if (0 <? size)%nat then
    if filesize <=? curaddr then
      if (off =? 0)%nat then Ok (inr (inl size))
      else
        let! ptr := copy_at ptr off (replicate (length ptr - off) 0) in
        Ok (inr (inr ptr))
    else
      let readsize := Z.of_nat size in
      let readsize := if filesize <? u64 (curaddr + readsize) then u64 (filesize - curaddr) else readsize in
      let count := Z.to_nat readsize in
      let! src := slice_of bytes (Z.to_nat curaddr) count in
      let! ptr := copy_at ptr off src in
      Ok (inl (ptr, (off + count)%nat, (size - count)%nat, u64 (curaddr + readsize)))
  else Ok (inr (inr ptr)).

(** [unavailable] renders the message, which prints the address. *)
Definition raw_load_fill (unavailable : nat -> Address -> string) (img : RawLoadImage) : LoadFill := fun ptr addr =>
  let bytes := default [] (content img) in
  let curaddr := u64 (offset addr - vma img) in
  let! r := loop (S (S (length ptr))) (fill_step bytes) (ptr, 0%nat, length ptr, curaddr) in
  match r with
  | inl size => Err (DataUnavail (unavailable size addr))
  | inr ptr => Ok ptr
  end.

Definition adjust_vma (img : RawLoadImage) (adjust : Z) : RawLoadImage :=
  let ws := match spaceid img with Some spc => wordsize spc | None => 1 end in
  let adjust := i64 (adjust * ws) in
  mk_RawLoadImage (filename img) (u64 (vma img + u64 adjust)) (content img) (spaceid img).

(** ** The bytes an image serves *)

(** The [n] bytes from [a] on of a memory. *)
Definition bytes_at (m : Z -> Z) (a : Z) (n : nat) : list Z := (fun i => m (u64 (a + Z.of_nat i))) <$> seq 0 n.

Definition raw_byte (img : RawLoadImage) (a : Z) : Z :=
  let bytes := default [] (content img) in
  let d := u64 (a - vma img) in
  if d <? Z.of_nat (length bytes) then default 0 (bytes !! Z.to_nat d) else 0.

Lemma raw_byte_eq img a : raw_byte img a = default 0 (default [] (content img) !! Z.to_nat (u64 (a - vma img))).
Proof.
  unfold raw_byte. destruct (Z.ltb_spec (u64 (a - vma img)) (Z.of_nat (length (default [] (content img))))); [done|].
  by rewrite lookup_ge_None_2 by lia.
Qed.

Lemma bytes_at_length m a n : length (bytes_at m a n) = n.
Proof. unfold bytes_at. by rewrite length_fmap, length_seq. Qed.

Lemma bytes_at_lookup m a n i : (i < n)%nat -> bytes_at m a n !! i = Some (m (u64 (a + Z.of_nat i))).
Proof. intros Hi. unfold bytes_at. by rewrite list_lookup_fmap, lookup_seq_lt by done. Qed.

(** Bytes are read in order, so a buffer is known by its bytes. *)
Lemma bytes_at_eq l m a n : length l = n -> (forall i, (i < n)%nat -> l !! i = Some (m (u64 (a + Z.of_nat i)))) ->
  l = bytes_at m a n.
Proof.
  intros Hl Hi. apply list_eq_same_length with n; [by rewrite bytes_at_length|done|].
  intros i x y Hlt Hx Hy. rewrite Hi in Hx by done. rewrite bytes_at_lookup in Hy by done. congruence.
Qed.

Lemma copy_at_ok l pos src : (pos + length src <= length l)%nat ->
  copy_at l pos src = Ok (take pos l ++ src ++ drop (pos + length src) l).
Proof. intros. unfold copy_at. by rewrite decide_True. Qed.

Lemma slice_of_ok l pos count : (pos + count <= length l)%nat -> slice_of l pos count = Ok (take count (drop pos l)).
Proof. intros. unfold slice_of. by rewrite decide_True. Qed.

Lemma slice_from_ok l pos : (pos <= length l)%nat -> slice_from l pos = Ok (drop pos l).
Proof. intros. unfold slice_from. by rewrite decide_True. Qed.

Lemma raw_fill_ok unavailable img ptr addr : let bytes := default [] (content img) in
  let cur := u64 (offset addr - vma img) in
  Z.of_nat (length ptr) + Z.of_nat (length bytes) < 2 ^ 64 -> cur < Z.of_nat (length bytes) ->
  raw_load_fill unavailable img ptr addr = Ok (bytes_at (raw_byte img) (offset addr) (length ptr)).
Proof.
  intros bytes cur Hlen Hcur. set (n := length ptr) in *. set (c := Z.to_nat cur).
  assert (0 <= cur) by (apply uw_range; lia).
  assert (forall i, (i < n)%nat -> raw_byte img (u64 (offset addr + Z.of_nat i)) = default 0 (bytes !! (c + i)%nat)) as Hview.
  { intros i Hi. rewrite raw_byte_eq. replace (u64 (u64 (offset addr + Z.of_nat i) - vma img)) with (cur + Z.of_nat i).
    - do 2 f_equal. unfold c. lia.
    - rewrite <- (uw_small 64 (cur + Z.of_nat i)) by (unfold is_u; lia). unfold cur, uw.
      rewrite Zminus_mod_idemp_l, Zplus_mod_idemp_l. f_equal. lia. }
  destruct (decide (n = 0)%nat) as [Hn|Hn].
  { unfold raw_load_fill. fold n. rewrite Hn. simpl. by apply nil_length_inv in Hn as ->. }
  unfold raw_load_fill. fold bytes cur n. set (k := Nat.min n (length bytes - c)).
  assert (Z.of_nat c = cur) by (unfold c; lia).
  assert (fill_step bytes (ptr, 0%nat, n, cur) = Ok (inl (take k (drop c bytes) ++ drop k ptr, k, (n - k)%nat, cur + Z.of_nat k)))
    as E1.
  { unfold fill_step. destruct (Nat.ltb_spec 0 n); [|lia]. destruct (Z.leb_spec (Z.of_nat (length bytes)) cur); [lia|].
    rewrite (uw_small 64 (cur + Z.of_nat n)) by (unfold is_u; lia).
    assert ((if Z.of_nat (length bytes) <? cur + Z.of_nat n then u64 (Z.of_nat (length bytes) - cur) else Z.of_nat n)
      = Z.of_nat k) as ->.
    { destruct (Z.ltb_spec (Z.of_nat (length bytes)) (cur + Z.of_nat n)); [|lia].
      rewrite uw_small by (unfold is_u; lia). lia. }
    rewrite Nat2Z.id. fold c. rewrite slice_of_ok by lia. ostep.
    assert (length (take k (drop c bytes)) = k) as Hk by (rewrite length_take, length_drop; lia).
    rewrite copy_at_ok by (rewrite Hk; fold n; lia). ostep. rewrite Hk. simpl.
    by rewrite uw_small by (unfold is_u; lia). }
  assert (exists l, loop (S (S n)) (fill_step bytes) (ptr, 0%nat, n, cur) = Ok (inr l) /\ length l = n /\
    forall i, (i < n)%nat -> l !! i = Some (default 0 (bytes !! (c + i)%nat))) as (l & -> & Hl & Hi); last first.
  { ostep. f_equal. apply bytes_at_eq; [done|]. intros i Hlt. by rewrite Hi, Hview. }
  assert (length (take k (drop c bytes)) = k) as Hk by (rewrite length_take, length_drop; lia).
  assert (length (take k (drop c bytes) ++ drop k ptr) = n) as Hlen1 by (rewrite length_app, length_drop, Hk; lia).
  assert (forall i, (i < k)%nat -> take k (drop c bytes) !! i = Some (default 0 (bytes !! (c + i)%nat))) as Hread.
  { intros i Hik. rewrite lookup_take_lt, lookup_drop by done.
    destruct (lookup_lt_is_Some_2 bytes (c + i) ltac:(lia)) as [x ->]. done. }
  cbn [loop]. rewrite E1. ostep. destruct n as [|n'] eqn:En; [done|]. rewrite <- En in *. cbn [loop].
  unfold fill_step at 1. destruct (Nat.ltb_spec 0 (n - k)).
  - destruct (Z.leb_spec (Z.of_nat (length bytes)) (cur + Z.of_nat k)); [|lia].
    destruct (Nat.eqb_spec k 0); [lia|].
    rewrite copy_at_ok by (rewrite length_replicate; lia). ostep. eexists. split; [done|].
    rewrite Hlen1, length_replicate. rewrite (drop_ge _ (k + (n - k))) by lia. rewrite app_nil_r.
    rewrite take_app_le, take_ge by lia. split; [rewrite length_app, length_replicate; lia|].
    intros i Hlt. destruct (decide (i < k)%nat).
    + rewrite lookup_app_l by lia. by apply Hread.
    + rewrite lookup_app_r, lookup_replicate_2 by lia. by rewrite lookup_ge_None_2 by lia.
  - eexists. split; [done|]. split; [done|]. intros i Hlt. rewrite lookup_app_l by lia. apply Hread. lia.
Qed.

(** A load that starts outside the file fails. *)
Lemma raw_fill_unavailable unavailable img ptr addr : (0 < length ptr)%nat ->
  Z.of_nat (length (default [] (content img))) <= u64 (offset addr - vma img) ->
  raw_load_fill unavailable img ptr addr = Err (DataUnavail (unavailable (length ptr) addr)).
Proof.
  intros Hn Hcur. unfold raw_load_fill. cbn [loop]. unfold fill_step at 1.
  destruct (Nat.ltb_spec 0 (length ptr)); [|lia]. destruct (Z.leb_spec (Z.of_nat (length (default [] (content img)))) (u64 (offset addr - vma img))); [done|lia].
Qed.
