(* ===== verification/RangeList.v ===== *)
(** [Range] and [RangeList] of [src/src/address.rs]: a set of addresses kept as
    disjoint ranges in a [BTreeSet] ordered by space and first offset.  The
    abstract view is the set of (space index, offset) pairs the ranges cover;
    the theorems say what each operation does to that set and that the ranges
    stay sorted, non-empty and disjoint. *)
From stdpp Require Import base list sets numbers strings.
From Stdlib Require Import ZArith Lia.
From S2P Require Import Prelude Bits BTree Space Address.

(** ** Definitions *)

Record Range : Type := mk_Range { spc : AddrSpace; first : Z; last : Z }.

Definition range_index (r : Range) : Z := space_index (spc r).

(** [Ord for Range] compares this pair. *)
Definition range_key (r : Range) : Z * Z := (range_index r, first r).

Definition get_first_addr (r : Range) : Address := address_new (spc r) (first r).
Definition get_last_addr (r : Range) : Address := address_new (spc r) (last r).

Definition range_contains (r : Range) (addr : Address) : bool :=
  match space addr with
  | Some s =>
      if space_index s =? range_index r then
        if first r >? offset addr then false
        else if last r <? offset addr then false
        else true
      else false
  | None => false
  end.

(** The tree: ranges in increasing order of their key. *)
Definition RangeList : Type := list Range.

Definition num_ranges (l : RangeList) : Z := i32 (Z.of_nat (length l)).
Definition get_first_range (l : RangeList) : option Range := head l.
Definition get_last_range (l : RangeList) : option Range := list.last l.

Definition upper_bound (l : RangeList) (key : Range) : option Range :=
  after_excl range_key (range_key key) l.
Definition before_upper_bound (l : RangeList) (key : Range) : option Range :=
  before_incl range_key (range_key key) l.

Definition get_last_signed_range (l : RangeList) (spaceid : AddrSpace) : option Range :=
  let midway := highest spaceid / 2 in
  let range := mk_Range spaceid midway midway in
  let fallback :=
    let range := mk_Range spaceid (highest spaceid) (highest spaceid) in
    match before_upper_bound l range with
    | Some found => if range_index found =? space_index spaceid then Some found else None
    | None => None
    end in
  match before_upper_bound l range with
  | Some found => if range_index found =? space_index spaceid then Some found else fallback
  | None => fallback
  end.

Definition get_range (l : RangeList) (spaceid : AddrSpace) (off : Z) : option Range :=
  match l with
  | [] => None
  | _ =>
      let key := mk_Range spaceid off off in
      match before_upper_bound l key with
      | None => None
      | Some found =>
          if negb (range_index found =? space_index spaceid) then None
          else if last found >=? off then Some found
          else None
      end
  end.

Definition get_nearest_range (l : RangeList) (spaceid : AddrSpace) (off : Z) : option Range :=
  match l with
  | [] => None
  | _ =>
      let key := mk_Range spaceid off off in
      let after :=
        match upper_bound l key with
        | Some range => if range_index range =? space_index spaceid then Some range else None
        | None => None
        end in
      match before_upper_bound l key with
      | None => after
      | Some before =>
          if negb (range_index before =? space_index spaceid) then after
          else
            match after with
            | None => Some before
            | Some after =>
                if last before >=? off then Some before
                else
                  let distafter := u64 (first after - off) in
                  let distbefore := u64 (off - last before) in
                  if distafter <? distbefore then Some after else Some before
            end
      end
  end.

Definition overlapping_start (l : RangeList) (s : AddrSpace) (fst : Z) : option Range :=
  let key := mk_Range s fst fst in
  match before_upper_bound l key with
  | Some prev =>
      if (range_index prev =? space_index s) && (last prev >=? fst) then Some prev
      else upper_bound l key
  | None => upper_bound l key
  end.

Definition collect_span (l : RangeList) (s : AddrSpace) (fst lst : Z) : list Range :=
  match overlapping_start l s fst with
  | None => []
  | Some start =>
      let end_ := mk_Range s lst lst in
      if decide (klt (range_key end_) (range_key start)) then []
      else range_incl range_key (range_key start) (range_key end_) l
  end.

(** The loop of [insert_range]: the tree and the bounds as they grow. *)
Definition insert_step (st : RangeList * Z * Z) (range : Range) : RangeList * Z * Z :=
  let '(l, fst, lst) := st in
  let fst := if first range <? fst then first range else fst in
  let lst := if last range >? lst then last range else lst in
  (tree_remove range_key (range_key range) l, fst, lst).

Definition insert_range (l : RangeList) (s : AddrSpace) (fst lst : Z) : RangeList :=
  let '(l, fst, lst) := fold_left insert_step (collect_span l s fst lst) (l, fst, lst) in
  set_insert range_key (mk_Range s fst lst) l.

Definition insert (l : RangeList) (rng : Range) : RangeList := insert_range l (spc rng) (first rng) (last rng).

Definition remove_step (s : AddrSpace) (fst lst : Z) (l : RangeList) (range : Range) : RangeList :=
  let lower := first range in
  let upper := last range in
  let l := tree_remove range_key (range_key range) l in
  let l := if lower <? fst then set_insert range_key (mk_Range s lower (u64 (fst - 1))) l else l in
  if upper >? lst then set_insert range_key (mk_Range s (u64 (lst + 1)) upper) l else l.

Definition remove_range (l : RangeList) (s : AddrSpace) (fst lst : Z) : RangeList :=
  match l with
  | [] => []
  | _ => fold_left (remove_step s fst lst) (collect_span l s fst lst) l
  end.

Definition remove (l : RangeList) (rng : Range) : RangeList := remove_range l (spc rng) (first rng) (last rng).

Definition merge (l op2 : RangeList) : RangeList := fold_left insert op2 l.

Definition in_range (l : RangeList) (addr : Address) (size : Z) : bool :=
  match space addr with
  | None => true
  | Some s =>
      match l with
      | [] => false
      | _ =>
          let key := mk_Range s (offset addr) (offset addr) in
          match before_upper_bound l key with
          | None => false
          | Some found =>
              if negb (range_index found =? space_index s) then false
              else
                let end_ := u64 (u64 (offset addr + size) - 1) in
                if end_ <? offset addr then false else last found >=? end_
          end
      end
  end.

Definition in_range_range (l : RangeList) (rng : Range) : bool :=
  match l with
  | [] => false
  | _ =>
      match before_upper_bound l rng with
      | None => false
      | Some found =>
          if negb (range_index found =? range_index rng) then false else last found >=? last rng
      end
  end.

(** The loop of [longest_fit] over the ranges from the first overlapping one. *)
Fixpoint longest_fit_loop (ranges : list Range) (index off sizeres maxsize : Z) : Z :=
  match ranges with
  | [] => sizeres
  | range :: ranges =>
      if negb (range_index range =? index) then sizeres
      else if first range >? off then sizeres
      else
        let sizeres := u64 (sizeres + u64 (u64 (last range + 1) - off)) in
        let off := u64 (last range + 1) in
        if sizeres >=? maxsize then sizeres
        else longest_fit_loop ranges index off sizeres maxsize
  end.

Definition longest_fit (l : RangeList) (addr : Address) (maxsize : Z) : Z :=
  match space addr with
  | None => 0
  | Some s =>
      match l with
      | [] => 0
      | _ =>
          let off := offset addr in
          let key := mk_Range s off off in
          match before_upper_bound l key with
          | None => 0
          | Some start =>
              if last start <? off then 0
              else longest_fit_loop (range_from range_key (range_key start) l) (space_index s) off 0 maxsize
          end
      end
  end.

(** ** The invariant and the set of addresses *)

Definition overlaps (s : AddrSpace) (fst lst : Z) (r : Range) : Prop :=
  range_index r = space_index s /\ first r <= lst /\ fst <= last r.

#[export] Instance overlaps_dec s fst lst r : Decision (overlaps s fst lst r).
Proof. unfold overlaps. apply _. Defined.

Definition in_word (r : Range) : Prop := 0 <= first r <= last r /\ last r < 2 ^ 64.

Definition disjoint_ranges (l : RangeList) : Prop :=
  forall r1 r2, r1 ∈ l -> r2 ∈ l -> range_index r1 = range_index r2 -> first r1 < first r2 -> last r1 < first r2.

Definition wf (l : RangeList) : Prop :=
  sorted range_key l /\ (forall r, r ∈ l -> in_word r) /\ disjoint_ranges l.

Definition covers (l : RangeList) (i o : Z) : Prop :=
  exists r, r ∈ l /\ range_index r = i /\ first r <= o <= last r.

Lemma wf_nil : wf [].
Proof. split; [constructor|]. split; [intros r Hr|intros r1 r2 Hr]; by apply elem_of_nil in Hr. Qed.

Lemma key_lt (a b : Z * Z) : klt a b <-> a.1 < b.1 \/ (a.1 = b.1 /\ a.2 < b.2).
Proof.
  destruct a as [i f], b as [j g]. unfold klt. simpl. unfold cmp_then.
  destruct (Z.compare_spec i j); subst; rewrite ?Z.compare_lt_iff; intuition (congruence || lia).
Qed.

Lemma key_le (a b : Z * Z) : kle a b <-> a.1 < b.1 \/ (a.1 = b.1 /\ a.2 <= b.2).
Proof.
  rewrite kle_lt_eq, key_lt. destruct a as [i f], b as [j g]. simpl. rewrite pair_equal_spec. lia.
Qed.

(** Turns order facts on keys into arithmetic. *)
Ltac keys :=
  repeat match goal with
  | H : klt _ _ |- _ => apply key_lt in H
  | H : kle _ _ |- _ => apply key_le in H
  | |- klt _ _ => apply key_lt
  | |- kle _ _ => apply key_le
  end; unfold range_key in *; cbn [fst snd range_index spc first last] in *; unfold range_index in *;
  cbn [spc first last] in *.

Section WF.
Variable l : RangeList.
Hypothesis Hwf : wf l.

Lemma wf_sorted : sorted range_key l.
Proof using Hwf. apply Hwf. Qed.

Lemma same_key r1 r2 : r1 ∈ l -> r2 ∈ l -> range_index r1 = range_index r2 -> first r1 = first r2 -> r1 = r2.
Proof using Hwf.
  intros H1 H2 Ei Ef. apply (sorted_key_inj range_key l); [apply wf_sorted|done|done|].
  unfold range_key. congruence.
Qed.

(** Two ranges of a space that share an offset are the same. *)
Lemma common_offset r1 r2 o : r1 ∈ l -> r2 ∈ l -> range_index r1 = range_index r2 ->
  first r1 <= o <= last r1 -> first r2 <= o <= last r2 -> r1 = r2.
Proof using Hwf.
  intros H1 H2 Ei Ho1 Ho2. apply same_key; [done..|]. destruct Hwf as (_ & _ & Hd).
  pose proof (Hd r1 r2 H1 H2 Ei). pose proof (Hd r2 r1 H2 H1 (eq_sym Ei)). lia.
Qed.

(** The query that finds the range containing an offset. *)
Lemma before_containing x s o : x ∈ l -> range_index x = space_index s -> first x <= o <= last x ->
  before_upper_bound l (mk_Range s o o) = Some x.
Proof using Hwf.
  intros Hx Ei Ho. apply before_incl_Some; [apply wf_sorted|]. split; [done|]. split; [keys; lia|].
  intros y Hy Hle. destruct Hwf as (_ & _ & Hd). pose proof (Hd x y Hx Hy). keys. lia.
Qed.

Lemma before_found s o x : before_upper_bound l (mk_Range s o o) = Some x ->
  x ∈ l /\ kle (range_key x) (space_index s, o) /\
  forall y, y ∈ l -> kle (range_key y) (space_index s, o) -> kle (range_key y) (range_key x).
Proof using Hwf. intros H. apply before_incl_Some in H; [done|apply wf_sorted]. Qed.

Lemma elem_of_collect_span s fst lst x : fst <= lst ->
  x ∈ collect_span l s fst lst <-> x ∈ l /\ overlaps s fst lst x.
Proof using Hwf.
  intros Hfl. unfold collect_span, overlapping_start.
  assert (Hup : forall prev_not : forall y, y ∈ l -> range_index y = space_index s -> first y <= fst -> last y < fst,
    x ∈ match upper_bound l (mk_Range s fst fst) with
        | None => []
        | Some start => if decide (klt (range_key (mk_Range s lst lst)) (range_key start)) then []
            else range_incl range_key (range_key start) (range_key (mk_Range s lst lst)) l
        end <-> x ∈ l /\ overlaps s fst lst x).
  { intros Hno. destruct (upper_bound l (mk_Range s fst fst)) as [u|] eqn:Hu.
    - apply after_excl_Some in Hu as (Hul & Hlt & Hmin); [|apply wf_sorted].
      assert (Hx : x ∈ l -> overlaps s fst lst x -> kle (range_key u) (range_key x)).
      { intros Hx (Ei & H1 & H2). apply Hmin; [done|]. pose proof (Hno x Hx Ei). keys. lia. }
      destruct (decide _) as [Hlate|Hnot].
      + split; [by intros ?%elem_of_nil|]. intros [Hxl Ho]. specialize (Hx Hxl Ho).
        destruct Ho as (Ei & H1 & H2). keys. lia.
      + unfold range_incl. rewrite list_elem_of_filter. split.
        * intros [[H1 H2] Hxl]. split; [done|]. destruct Hwf as (_ & Hin & _). destruct (Hin x Hxl).
          unfold overlaps. keys. lia.
        * intros [Hxl Ho]. split; [|done]. split; [by apply Hx|]. destruct Ho as (Ei & H1 & H2). keys. lia.
    - pose proof (proj1 (after_excl_None range_key _ l) Hu) as Hall. split; [by intros ?%elem_of_nil|].
      intros [Hxl (Ei & H1 & H2)]. pose proof (Hall x Hxl). pose proof (Hno x Hxl Ei). keys. lia. }
  destruct (before_upper_bound l (mk_Range s fst fst)) as [prev|] eqn:Hb.
  - destruct (before_found _ _ _ Hb) as (Hp & Hle & Hmax).
    destruct ((range_index prev =? space_index s) && (last prev >=? fst)) eqn:Ho.
    + apply andb_true_iff in Ho as [Ei%Z.eqb_eq Hl]. rewrite Z.geb_leb in Hl. apply Z.leb_le in Hl.
      destruct (decide _) as [Hlate|Hnot]; [keys; lia|]. unfold range_incl. rewrite list_elem_of_filter. split.
      * intros [[H1 H2] Hxl]. split; [done|]. destruct Hwf as (_ & Hin & _). destruct (Hin x Hxl).
        pose proof (Hmax x Hxl) as Hm. destruct (decide (kle (range_key x) (space_index s, fst))) as [Hk|Hk].
        -- assert (x = prev) as ->; [|unfold overlaps; keys; lia].
           apply (sorted_key_inj range_key l); [apply wf_sorted|done|done|]. apply kle_antisym; [by apply Hm|done].
        -- apply not_kle in Hk. unfold overlaps. keys. lia.
      * intros [Hxl (Eix & H1 & H2)]. split; [|done]. destruct Hwf as (_ & _ & Hd).
        pose proof (Hd x prev Hxl Hp). split; keys; lia.
    + apply Hup. intros y Hy Ey Hf. apply Z.lt_nge. intros Hge.
      rewrite (before_containing y s fst) in Hb by (done || lia). injection Hb as <-.
      rewrite Ey, Z.eqb_refl, Z.geb_leb, (proj2 (Z.leb_le _ _) Hge) in Ho. done.
  - apply Hup. intros y Hy Ey Hf. apply Z.lt_nge. intros Hge.
    by rewrite (before_containing y s fst) in Hb by (done || lia).
Qed.
End WF.

(** ** Insertion *)

Lemma fold_insert span : forall l f t l' f' t', sorted range_key l ->
  fold_left insert_step span (l, f, t) = (l', f', t') ->
  sorted range_key l' /\
  (forall x, x ∈ l' <-> x ∈ l /\ forall r, r ∈ span -> range_key x <> range_key r) /\
  (f' <= f /\ (forall r, r ∈ span -> f' <= first r) /\ (f' = f \/ exists r, r ∈ span /\ f' = first r)) /\
  (t <= t' /\ (forall r, r ∈ span -> last r <= t') /\ (t' = t \/ exists r, r ∈ span /\ t' = last r)).
Proof.
  induction span as [|r span IH]; intros l f t l' f' t' Hs E; simpl in E.
  - injection E as <- <- <-. split; [done|]. split; [set_solver|]. split; (split; [lia|]; split; [set_solver|by left]).
  - apply IH in E; [|by apply sorted_tree_remove]. destruct E as (H1 & H2 & (F1 & F2 & F3) & (T1 & T2 & T3)).
    rewrite Z.gtb_ltb in *. split; [done|]. split; [|split].
    + intros x. rewrite H2, elem_of_tree_remove. setoid_rewrite elem_of_cons. split.
      * intros [[Hx Hr] Hq]. split; [done|]. intros q [->|?]; auto.
      * intros [Hx Hq]. auto 6.
    + destruct (Z.ltb_spec (first r) f); (split; [lia|]); (split; [intros q [->|Hq]%elem_of_cons; [lia|by apply F2]|]).
      * right. destruct F3 as [->|(q & Hq & ->)]; [exists r|exists q]; set_solver.
      * destruct F3 as [->|(q & Hq & ->)]; [by left|right; exists q; set_solver].
    + destruct (Z.ltb_spec t (last r)); (split; [lia|]); (split; [intros q [->|Hq]%elem_of_cons; [lia|by apply T2]|]).
      * right. destruct T3 as [->|(q & Hq & ->)]; [exists r|exists q]; set_solver.
      * destruct T3 as [->|(q & Hq & ->)]; [by left|right; exists q; set_solver].
Qed.

(** The entries after an insertion: the untouched ranges and one range that
    spans the new one and everything it overlapped. *)
Lemma insert_range_entries l s fst lst : wf l -> 0 <= fst <= lst -> lst < 2 ^ 64 ->
  exists f t, f <= fst /\ lst <= t /\ 0 <= f /\ t < 2 ^ 64 /\
    sorted range_key (insert_range l s fst lst) /\
    (forall x, x ∈ insert_range l s fst lst <-> x = mk_Range s f t \/ (x ∈ l /\ ~ overlaps s fst lst x)) /\
    (forall r, r ∈ l -> overlaps s fst lst r -> f <= first r /\ last r <= t) /\
    (f = fst \/ exists r, r ∈ l /\ overlaps s fst lst r /\ f = first r) /\
    (t = lst \/ exists r, r ∈ l /\ overlaps s fst lst r /\ t = last r).
Proof.
  intros Hwf Hfl Hl. unfold insert_range.
  destruct (fold_left insert_step (collect_span l s fst lst) (l, fst, lst)) as [[l' f] t] eqn:E.
  apply fold_insert in E as (Hs & Hm & (F1 & F2 & F3) & (T1 & T2 & T3)); [|by apply wf_sorted].
  pose proof (fun x => elem_of_collect_span l Hwf s fst lst x ltac:(lia)) as Hspan.
  pose proof Hwf as (Hsl & Hin & Hd).
  assert (Hf : f = fst \/ exists r, r ∈ l /\ overlaps s fst lst r /\ f = first r).
  { destruct F3 as [?|(r & Hr%Hspan & ->)]; [by left|right; exists r; by destruct Hr]. }
  assert (Ht : t = lst \/ exists r, r ∈ l /\ overlaps s fst lst r /\ t = last r).
  { destruct T3 as [?|(r & Hr%Hspan & ->)]; [by left|right; exists r; by destruct Hr]. }
  assert (Hm' : forall x, x ∈ l' <-> x ∈ l /\ ~ overlaps s fst lst x).
  { intros x. rewrite Hm. split.
    - intros [Hx Hk]. split; [done|]. intros Ho. by apply (Hk x); [apply Hspan|].
    - intros [Hx Ho]. split; [done|]. intros r [Hr Hor]%Hspan Ek. apply Ho.
      by rewrite (sorted_key_inj range_key l x r). }
  exists f, t. split; [done|]. split; [done|].
  split; [destruct Hf as [->|(r & Hr & _ & ->)]; [lia|]; apply Hin in Hr; unfold in_word in Hr; lia|].
  split; [destruct Ht as [->|(r & Hr & _ & ->)]; [lia|]; apply Hin in Hr; unfold in_word in Hr; lia|].
  split; [by apply sorted_set_insert|]. split.
  - intros x. rewrite elem_of_set_insert, Hm' by done. split; [intros [?|[-> _]]; [by right|by left]|].
    intros [->|Hx]; [|by left]. right. split; [done|]. intros z [Hz Hno]%Hm' Ek. apply Hno.
    unfold range_key in Ek. simpl in Ek. injection Ek as Ei Ef. destruct (Hin z Hz).
    split; [done|]. destruct Hf as [->|(r & Hr & Ho & ->)]; [split; lia|].
    destruct Ho as (? & ? & ?). rewrite (same_key l Hwf z r); [split; lia|done|done| |done].
    rewrite Ei. unfold range_index. simpl. by symmetry.
  - split; [|done]. intros r Hr Ho. split; [apply F2|apply T2]; by apply Hspan.
Qed.

(** A range that touches no old range of its space keeps the list well formed. *)
Lemma insert_range_wf l s fst lst : wf l -> 0 <= fst <= lst -> lst < 2 ^ 64 -> wf (insert_range l s fst lst).
Proof.
  intros Hwf Hfl Hl.
  destruct (insert_range_entries l s fst lst Hwf Hfl Hl) as (f & t & Hf & Ht & H0 & H64 & Hs & Hm & _ & Hfe & Hte).
  pose proof Hwf as (_ & Hin & Hd). split; [done|]. split.
  - intros r [->|[Hr _]]%Hm; [unfold in_word; simpl; lia|by apply Hin].
  - assert (Hsep : forall r, r ∈ l -> ~ overlaps s fst lst r -> range_index r = space_index s ->
      last r < f \/ t < first r).
    { intros r Hr Hno Ei. pose proof (Hin r Hr) as [Hw _]. unfold overlaps in Hno.
      assert (last r < fst \/ lst < first r) as Hside by (destruct (Z.lt_ge_cases (last r) fst); lia || tauto).
      destruct Hside as [Hlo|Hhi].
      - left. destruct Hfe as [->|(q & Hq & (Eq & Hq1 & Hq2) & ->)]; [done|]. apply (Hd r q); try done; [congruence|].
        destruct (Z.lt_ge_cases (first r) (first q)); [done|].
        destruct (Z.eq_dec (first q) (first r)) as [E|]; [by rewrite (same_key l Hwf q r) in Hq2 by (done || congruence); lia|].
        pose proof (Hd q r Hq Hr ltac:(congruence)). lia.
      - right. destruct Hte as [->|(q & Hq & (Eq & Hq1 & Hq2) & ->)]; [done|]. apply (Hd q r); try done; [congruence|]. lia. }
    intros r1 r2 [->|[H1 N1]]%Hm [->|[H2 N2]]%Hm Ei Hlt; simpl in *; [lia| | |by apply Hd].
    + destruct (Hsep r2 H2 N2); [done| |done]. pose proof (Hin r2 H2) as [? _]. lia.
    + destruct (Hsep r1 H1 N1 Ei); [done|]. pose proof (Hin r1 H1) as [? _]. lia.
Qed.

Lemma insert_range_covers l s fst lst i o : wf l -> 0 <= fst <= lst -> lst < 2 ^ 64 ->
  covers (insert_range l s fst lst) i o <-> covers l i o \/ (i = space_index s /\ fst <= o <= lst).
Proof.
  intros Hwf Hfl Hl.
  destruct (insert_range_entries l s fst lst Hwf Hfl Hl) as (f & t & Hf & Ht & _ & _ & _ & Hm & Hov & Hfe & Hte).
  unfold covers. split.
  - intros (r & [->|[Hr _]]%Hm & <- & Ho); [|left; by exists r]. simpl in Ho.
    destruct (Z.lt_ge_cases o fst).
    + left. destruct Hfe as [->|(q & Hq & (Eq & ? & ?) & ->)]; [lia|]. exists q. split; [done|]. split; [done|]. lia.
    + destruct (Z.lt_ge_cases lst o); [|right; done].
      left. destruct Hte as [->|(q & Hq & (Eq & ? & ?) & ->)]; [lia|]. exists q. split; [done|]. split; [done|]. lia.
  - intros [(r & Hr & <- & Ho)|[-> Ho]].
    + destruct (decide (overlaps s fst lst r)) as [Hor|Hno].
      * exists (mk_Range s f t). split; [apply Hm; by left|]. destruct (Hov r Hr Hor). simpl.
        split; [symmetry; apply Hor|lia].
      * exists r. split; [apply Hm; by right|done].
    + exists (mk_Range s f t). split; [apply Hm; by left|]. simpl. split; [done|lia].
Qed.

(** ** Removal *)

(** What is left of a range after cutting [fst, lst] out of it. *)
Definition pieces (s : AddrSpace) (fst lst : Z) (r : Range) : list Range :=
  (if first r <? fst then [mk_Range s (first r) (fst - 1)] else []) ++
  (if lst <? last r then [mk_Range s (lst + 1) (last r)] else []).

Lemma elem_of_pieces s fst lst r x : x ∈ pieces s fst lst r <->
  (first r < fst /\ x = mk_Range s (first r) (fst - 1)) \/ (lst < last r /\ x = mk_Range s (lst + 1) (last r)).
Proof.
  unfold pieces. rewrite elem_of_app.
  destruct (Z.ltb_spec (first r) fst), (Z.ltb_spec lst (last r));
    rewrite ?list_elem_of_singleton, ?elem_of_nil; intuition (lia || done).
Qed.

Section Remove.
Variables (s : AddrSpace) (fst lst : Z).
Hypothesis Hfl : 0 <= fst <= lst.
Hypothesis Hl64 : lst < 2 ^ 64.

(** The only entry of [l] that starts inside [r] is [r]. *)
Definition alone (l : list Range) (r : Range) : Prop :=
  forall z, z ∈ l -> range_index z = range_index r -> first r <= first z <= last r -> z = r.

Lemma piece_inside r x : in_word r -> overlaps s fst lst r -> x ∈ pieces s fst lst r ->
  range_index x = range_index r /\ first r <= first x /\ first x <= last x <= last r.
Proof using Hfl.
  intros [Hw _] (Ei & H1 & H2) [[Hlt ->]|[Hlt ->]]%elem_of_pieces; unfold range_index in *; simpl; lia.
Qed.

Lemma remove_step_entries l r : sorted range_key l -> alone l r -> in_word r -> overlaps s fst lst r ->
  sorted range_key (remove_step s fst lst l r) /\
  forall x, x ∈ remove_step s fst lst l r <-> (x ∈ l /\ x <> r) \/ x ∈ pieces s fst lst r.
Proof using Hfl Hl64.
  intros Hs Ha [Hw Hw64] (Ei & H1 & H2). unfold remove_step.
  set (l0 := tree_remove range_key (range_key r) l).
  assert (Hs0 : sorted range_key l0) by (by apply sorted_tree_remove).
  assert (Hl0 : forall x, x ∈ l0 <-> x ∈ l /\ x <> r).
  { intros x. unfold l0. rewrite elem_of_tree_remove. split; intros [Hx N]; (split; [done|]); [congruence|].
    intros Ek. unfold range_key in Ek. injection Ek as Ei' Ef. apply N, Ha; [done|done|lia]. }
  assert (Hfresh : forall z f, z ∈ l0 -> first r <= f <= last r -> range_key z <> (space_index s, f)).
  { intros z f [Hz N]%Hl0 Hf Ek. unfold range_key in Ek. injection Ek as Ez Ef. apply N, Ha; [done|congruence|lia]. }
  set (l1 := if first r <? fst then set_insert range_key (mk_Range s (first r) (u64 (fst - 1))) l0 else l0).
  assert (Hs1 : sorted range_key l1) by (unfold l1; destruct (_ <? _); [by apply sorted_set_insert|done]).
  assert (Hl1 : forall x, x ∈ l1 <-> x ∈ l0 \/ (first r < fst /\ x = mk_Range s (first r) (fst - 1))).
  { intros x. unfold l1. destruct (Z.ltb_spec (first r) fst) as [Hlt|Hge]; [|intuition lia].
    rewrite u64_small, elem_of_set_insert by (done || lia). split.
    - intros [?|[-> _]]; [by left|by right].
    - intros [?|[_ ->]]; [by left|]. right. split; [done|]. intros z Hz. apply (Hfresh z (first r)); [done|lia]. }
  rewrite Z.gtb_ltb. destruct (Z.ltb_spec lst (last r)) as [Hlt|Hge].
  - split; [by apply sorted_set_insert|]. intros x. rewrite u64_small, elem_of_set_insert by (done || lia).
    rewrite Hl1, Hl0, elem_of_pieces. split.
    + intros [[?|?]|[-> _]]; [by left|by right; left|by right; right].
    + intros [?|[?|[_ ->]]]; [by left; left|by left; right|]. right. split; [done|].
      intros z [Hz|[Hz ->]]%Hl1; [apply (Hfresh z (lst + 1)); [done|lia]|].
      unfold range_key. simpl. intros Ek. injection Ek. lia.
  - split; [done|]. intros x. rewrite Hl1, Hl0, elem_of_pieces. intuition lia.
Qed.

Lemma fold_remove span : forall l, sorted range_key l -> NoDup span ->
  (forall r, r ∈ span -> in_word r /\ overlaps s fst lst r /\ alone l r) ->
  (forall r r' o, r ∈ span -> r' ∈ span -> first r <= o <= last r -> first r' <= o <= last r' -> r = r') ->
  sorted range_key (fold_left (remove_step s fst lst) span l) /\
  forall x, x ∈ fold_left (remove_step s fst lst) span l <->
    (x ∈ l /\ x ∉ span) \/ exists r, r ∈ span /\ x ∈ pieces s fst lst r.
Proof using Hfl Hl64.
  induction span as [|r span IH]; intros l Hs Hnd Hr Hcom; simpl.
  - split; [done|]. intros x. split; [intros; left; split; [done|apply not_elem_of_nil]|].
    intros [[? _]|(r & Hx & _)]; [done|by apply elem_of_nil in Hx].
  - apply NoDup_cons in Hnd as [Hnr Hnd].
    destruct (Hr r ltac:(by left)) as (Hw & Ho & Ha).
    destruct (remove_step_entries l r Hs Ha Hw Ho) as [Hs' Hm].
    destruct (IH (remove_step s fst lst l r)) as [Hs2 Hm2]; [done|done| | |].
    + intros q Hq. destruct (Hr q ltac:(by right)) as (Hwq & Hoq & Haq). split; [done|]. split; [done|].
      intros z Hz Ei Hf. apply Hm in Hz as [[Hz _]|Hz]; [by apply Haq|].
      destruct (piece_inside r z Hw Ho Hz) as (_ & H1 & H2).
      rewrite <- (Hcom r q (first z)) in Hq; [done|by left|by right|lia|done].
    + intros q q' o Hq Hq'. apply Hcom; by right.
    + split; [done|]. intros x. rewrite Hm2, Hm. setoid_rewrite elem_of_cons. split.
      * intros [[[[Hx N]|Hx] Hns]|(q & Hq & Hx)].
        -- left. split; [done|]. by intros [?|?].
        -- right. exists r. by split; [left|].
        -- right. exists q. by split; [right|].
      * intros [[Hx Hn]|(q & [->|Hq] & Hx)].
        -- left. split; [left; split; [done|]|]; intros ?; apply Hn; [by left|by right].
        -- left. split; [by right|]. intros Hxs. destruct (Hr x ltac:(by right)) as ([Hwx _] & _ & _).
           destruct (piece_inside r x Hw Ho Hx) as (_ & H1 & H2).
           apply Hnr. rewrite (Hcom r x (first x)); [done|by left|by right|lia|lia].
        -- right. by exists q.
Qed.
End Remove.

Lemma range_in_collect l s fst lst : sorted range_key l -> sorted range_key (collect_span l s fst lst).
Proof.
  intros Hs. unfold collect_span. destruct (overlapping_start l s fst); [|constructor].
  destruct (decide _); [constructor|]. by apply sorted_filter.
Qed.

Lemma remove_range_entries l s fst lst : wf l -> 0 <= fst <= lst -> lst < 2 ^ 64 ->
  sorted range_key (remove_range l s fst lst) /\
  forall x, x ∈ remove_range l s fst lst <->
    (x ∈ l /\ ~ overlaps s fst lst x) \/ exists r, r ∈ l /\ overlaps s fst lst r /\ x ∈ pieces s fst lst r.
Proof.
  intros Hwf Hfl Hl. pose proof Hwf as (Hs & Hin & Hd).
  pose proof (fun x => elem_of_collect_span l Hwf s fst lst x ltac:(lia)) as Hspan.
  assert (remove_range l s fst lst = fold_left (remove_step s fst lst) (collect_span l s fst lst) l) as ->.
  { unfold remove_range. destruct l; [|done]. done. }
  destruct (fold_remove s fst lst Hfl Hl (collect_span l s fst lst) l) as [H1 H2]; [done| | | |].
  - apply (sorted_NoDup range_key). by apply range_in_collect.
  - intros r [Hr Ho]%Hspan. split; [by apply Hin|]. split; [done|]. intros z Hz Ei Hf.
    apply (common_offset l Hwf z r (first z)); try done. pose proof (Hin z Hz) as [? _]. lia.
  - intros r r' o [Hr Hor]%Hspan [Hr' Hor']%Hspan. apply common_offset with l; try done.
    destruct Hor as [-> _], Hor' as [-> _]. done.
  - split; [done|]. intros x. rewrite H2. setoid_rewrite Hspan. split.
    + intros [[Hx N]|(r & [Hr Ho] & Hx)]; [left; split; [done|]; intros ?; by apply N|right; by exists r].
    + intros [[Hx N]|(r & Hr & Ho & Hx)]; [left; split; [done|]; by intros [_ ?]|right; by exists r].
Qed.

(** Every entry after a removal lies inside an old entry. *)
Lemma remove_range_inside l s fst lst x : wf l -> 0 <= fst <= lst -> lst < 2 ^ 64 ->
  x ∈ remove_range l s fst lst ->
  in_word x /\ (~ overlaps s fst lst x) /\
  exists r, r ∈ l /\ range_index x = range_index r /\ first r <= first x /\ last x <= last r.
Proof.
  intros Hwf Hfl Hl Hx. pose proof Hwf as (_ & Hin & _).
  apply (proj2 (remove_range_entries l s fst lst Hwf Hfl Hl)) in Hx as [[Hx N]|(r & Hr & Ho & Hx)].
  - split; [by apply Hin|]. split; [done|]. exists x. split; [done|]. split; [done|]. lia.
  - pose proof (Hin r Hr) as [Hw Hw64].
    destruct (piece_inside s fst lst Hfl r x (conj Hw Hw64) Ho Hx) as (Ei & H1 & H2).
    split; [split; lia|]. split.
    + apply elem_of_pieces in Hx as [[? ->]|[? ->]]; unfold overlaps; simpl; lia.
    + exists r. split; [done|]. split; [done|]. lia.
Qed.

Lemma remove_range_wf l s fst lst : wf l -> 0 <= fst <= lst -> lst < 2 ^ 64 -> wf (remove_range l s fst lst).
Proof.
  intros Hwf Hfl Hl. destruct (remove_range_entries l s fst lst Hwf Hfl Hl) as [Hs Hm].
  pose proof Hwf as (_ & Hin & Hd). split; [done|]. split.
  - intros r Hr. by eapply remove_range_inside.
  - intros r1 r2 H1 H2 Ei Hlt.
    assert (Hord : forall p q, p ∈ l -> q ∈ l -> range_index p = range_index q ->
      last p < first q \/ p = q \/ last q < first p).
    { intros p q Hp Hq E. pose proof (Hd p q Hp Hq E). pose proof (Hd q p Hq Hp (eq_sym E)).
      destruct (Z.lt_trichotomy (first p) (first q)) as [|[|]]; [left; lia|right; left; by apply (same_key l Hwf)|].
      right. right. lia. }
    apply Hm in H1 as [[H1 N1]|(p1 & Hp1 & Ho1 & H1)]; apply Hm in H2 as [[H2 N2]|(p2 & Hp2 & Ho2 & H2)];
      try destruct (piece_inside s fst lst Hfl p1 r1 (Hin p1 Hp1) Ho1 H1) as (E1 & F1 & L1);
      try destruct (piece_inside s fst lst Hfl p2 r2 (Hin p2 Hp2) Ho2 H2) as (E2 & F2 & L2).
    + by apply Hd.
    + destruct (Hord r1 p2) as [?|[->|?]]; try done; [congruence|lia|lia].
    + destruct (Hord p1 r2) as [?|[->|?]]; try done; [congruence|lia|].
      pose proof (Hin r2 H2) as [? _]. lia.
    + destruct (Hord p1 p2) as [?|[->|?]]; try done; [congruence|lia| |lia].
      apply elem_of_pieces in H1 as [[? ->]|[? ->]], H2 as [[? ->]|[? ->]]; simpl in *; lia.
Qed.

Lemma remove_range_covers l s fst lst i o : wf l -> 0 <= fst <= lst -> lst < 2 ^ 64 ->
  covers (remove_range l s fst lst) i o <-> covers l i o /\ ~ (i = space_index s /\ fst <= o <= lst).
Proof.
  intros Hwf Hfl Hl. destruct (remove_range_entries l s fst lst Hwf Hfl Hl) as [_ Hm]. unfold covers. split.
  - intros (x & Hx & <- & Ho).
    destruct (remove_range_inside l s fst lst x Hwf Hfl Hl Hx) as (_ & N & r & Hr & Ei & F & L). split.
    + exists r. split; [done|]. split; [done|]. lia.
    + intros [E Hio]. apply N. split; [done|]. lia.
  - intros [(r & Hr & <- & Ho) N]. destruct (decide (overlaps s fst lst r)) as [Hor|Hno].
    + destruct Hor as (Ei & H1 & H2). destruct (Z.lt_ge_cases o fst).
      * exists (mk_Range s (first r) (fst - 1)). split; [|split; [by symmetry|simpl; lia]].
        apply Hm. right. exists r. split; [done|]. split; [done|]. apply elem_of_pieces. left. split; [lia|done].
      * exists (mk_Range s (lst + 1) (last r)). assert (lst < o) by (apply Z.nle_gt; intros ?; apply N; split; [done|lia]).
        split; [|split; [by symmetry|simpl; lia]].
        apply Hm. right. exists r. split; [done|]. split; [done|]. apply elem_of_pieces. right. split; [lia|done].
    + exists r. split; [apply Hm; by left|done].
Qed.

(** ** Lookups *)

Lemma get_range_Some l s o r : wf l ->
  get_range l s o = Some r <-> r ∈ l /\ range_index r = space_index s /\ first r <= o <= last r.
Proof.
  intros Hwf. unfold get_range. destruct l as [|r0 l0] eqn:El; [set_solver|]. rewrite <- El in *. clear El.
  split.
  - destruct (before_upper_bound l (mk_Range s o o)) as [found|] eqn:Hb; [|done].
    destruct (before_found l Hwf _ _ _ Hb) as (Hf & Hle & _).
    destruct (Z.eqb_spec (range_index found) (space_index s)); [|done]. cbn [negb]. rewrite Z.geb_leb.
    destruct (Z.leb_spec o (last found)); [|done]. intros [= <-]. split; [done|]. split; [done|]. keys. lia.
  - intros (Hr & Ei & Ho). rewrite (before_containing l Hwf r) by done. rewrite Ei, Z.eqb_refl, Z.geb_leb. cbn [negb].
    by rewrite (proj2 (Z.leb_le _ _) (proj2 Ho)).
Qed.

Lemma before_last_ge l s f t : wf l -> 0 <= f <= t ->
  match before_upper_bound l (mk_Range s f t) with
  | Some found => range_index found = space_index s /\ t <= last found
  | None => False
  end <-> exists r, r ∈ l /\ range_index r = space_index s /\ first r <= f /\ t <= last r.
Proof.
  intros Hwf Hft. change (before_upper_bound l (mk_Range s f t)) with (before_upper_bound l (mk_Range s f f)). split.
  - destruct (before_upper_bound l (mk_Range s f f)) as [found|] eqn:Hb; [|done]. intros [Ei Hl].
    destruct (before_found l Hwf _ _ _ Hb) as (Hf & Hle & _). exists found. split; [done|]. split; [done|]. keys. lia.
  - intros (r & Hr & Ei & H1 & H2). rewrite (before_containing l Hwf r) by (done || lia). done.
Qed.

(** C4: inserting a range adds exactly its addresses and keeps the list sorted,
    non-empty and disjoint. *)
Theorem insert_range_correct l s fst lst : wf l -> 0 <= fst <= lst -> lst < 2 ^ 64 ->
  wf (insert_range l s fst lst) /\
  forall i o, covers (insert_range l s fst lst) i o <->
    covers l i o \/ (i = space_index s /\ fst <= o <= lst).
Proof. intros. split; [by apply insert_range_wf|]. intros. by apply insert_range_covers. Qed.

(** Two ranges and one that bridges them; a third space is untouched. *)
Definition sample_list : RangeList := [mk_Range ram32 0x10 0x1f; mk_Range ram32 0x30 0x3f].

Lemma sample_wf : wf sample_list.
Proof.
  unfold sample_list. split; [|split].
  - apply sorted_cons. split; [apply sorted_cons; split; [constructor|set_solver]|].
    intros y ->%list_elem_of_singleton. keys. simpl. lia.
  - intros r [->| ->%list_elem_of_singleton]%elem_of_cons; unfold in_word; simpl; lia.
  - intros r1 r2 [->| ->%list_elem_of_singleton]%elem_of_cons [->| ->%list_elem_of_singleton]%elem_of_cons;
      simpl; lia.
Qed.

Lemma insert_range_correct_witness :
  wf (insert_range sample_list ram32 0x18 0x37) /\
  insert_range sample_list ram32 0x18 0x37 = [mk_Range ram32 0x10 0x3f].
Proof. split; [|reflexivity]. apply insert_range_correct; [apply sample_wf|lia|lia]. Defined.

(** C32: removing a range removes exactly its addresses and keeps the list
    sorted, non-empty and disjoint. *)
Theorem remove_range_correct l s fst lst : wf l -> 0 <= fst <= lst -> lst < 2 ^ 64 ->
  wf (remove_range l s fst lst) /\
  forall i o, covers (remove_range l s fst lst) i o <->
    covers l i o /\ ~ (i = space_index s /\ fst <= o <= lst).
Proof. intros. split; [by apply remove_range_wf|]. intros. by apply remove_range_covers. Qed.

Lemma remove_range_correct_witness :
  wf (remove_range sample_list ram32 0x14 0x37) /\
  remove_range sample_list ram32 0x14 0x37 = [mk_Range ram32 0x10 0x13; mk_Range ram32 0x38 0x3f].
Proof. split; [|reflexivity]. apply remove_range_correct; [apply sample_wf|lia|lia]. Defined.

Lemma merge_covers ranges : forall l, wf l -> (forall r, r ∈ ranges -> in_word r) ->
  wf (merge l ranges) /\ forall i o, covers (merge l ranges) i o <-> covers l i o \/ covers ranges i o.
Proof.
  induction ranges as [|r ranges IH]; intros l Hwf Hin; simpl.
  - split; [done|]. intros i o. split; [by left|]. intros [?|(r & Hr & _)]; [done|set_solver].
  - destruct (Hin r ltac:(by left)) as [Hw Hw64].
    destruct (IH (insert l r)) as [Hwf' Hc].
    { by apply insert_range_wf. } { intros q Hq. apply Hin. by right. }
    split; [done|]. intros i o. rewrite Hc. unfold insert. rewrite insert_range_covers by done.
    unfold covers. setoid_rewrite elem_of_cons. split.
    + intros [[?|[-> Ho]]|(q & Hq & E)]; [by left|right; exists r; by split; [left|]|right; exists q; by split; [right|]].
    + intros [?|(q & [->|Hq] & E & Ho)]; [by left; left|left; right; by split|right; by exists q].
Qed.

(** Merging two lists gives the union of their addresses. *)
Theorem merge_correct l op2 : wf l -> wf op2 ->
  wf (merge l op2) /\ forall i o, covers (merge l op2) i o <-> covers l i o \/ covers op2 i o.
Proof. intros Hwf (_ & Hin & _). by apply merge_covers. Qed.

Lemma merge_correct_witness :
  wf (merge sample_list [mk_Range ram32 0x20 0x2f]) /\ covers (merge sample_list sample_list) 3 0x35.
Proof.
  split.
  - apply merge_correct; [apply sample_wf|]. split; [apply sorted_cons; split; [constructor|set_solver]|].
    split; [intros r ->%list_elem_of_singleton; unfold in_word; simpl; lia|].
    intros r1 r2 ->%list_elem_of_singleton ->%list_elem_of_singleton. lia.
  - apply merge_correct; [apply sample_wf..|]. left. exists (mk_Range ram32 0x30 0x3f).
    split; [right; by left|]. split; [reflexivity|simpl; lia].
Defined.

Lemma in_range_spec l s o size : wf l -> 0 <= o -> 1 <= size -> o + size <= 2 ^ 64 ->
  in_range l (address_new s o) size = true <->
  exists r, r ∈ l /\ range_index r = space_index s /\ first r <= o /\ o + size - 1 <= last r.
Proof.
  intros Hwf Ho Hs H64. rewrite <- (before_last_ge l s o (o + size - 1)) by (done || lia).
  change (before_upper_bound l (mk_Range s o (o + size - 1))) with (before_upper_bound l (mk_Range s o o)).
  unfold in_range. cbn [space address_new offset].
  destruct l as [|q ql]; [naive_solver|]. destruct (before_upper_bound _ _) as [found|]; [|naive_solver].
  assert (u64 (u64 (o + size) - 1) = o + size - 1) as ->.
  { destruct (Z.eq_dec (o + size) (2 ^ 64)) as [->|]; [done|]. rewrite !u64_small; rewrite ?u64_small; lia. }
  destruct (Z.eqb_spec (range_index found) (space_index s)); cbn [negb]; [|naive_solver].
  destruct (Z.ltb_spec (o + size - 1) o); [lia|]. rewrite Z.geb_leb, Z.leb_le. naive_solver.
Qed.

Lemma in_range_range_spec l rng : wf l -> 0 <= first rng <= last rng ->
  in_range_range l rng = true <->
  exists r, r ∈ l /\ range_index r = space_index (spc rng) /\ first r <= first rng /\ last rng <= last r.
Proof.
  intros Hwf Hw. rewrite <- (before_last_ge l (spc rng) (first rng) (last rng)) by (done || lia).
  replace (mk_Range (spc rng) (first rng) (last rng)) with rng by by destruct rng.
  unfold in_range_range. destruct l as [|q ql]; [naive_solver|].
  destruct (before_upper_bound _ _) as [found|]; [|naive_solver].
  change (space_index (spc rng)) with (range_index rng).
  destruct (Z.eqb_spec (range_index found) (range_index rng)); cbn [negb]; [|naive_solver].
  rewrite Z.geb_leb, Z.leb_le. naive_solver.
Qed.

(** The membership queries.  [get_range] returns the range that contains the
    offset; [in_range] and [in_range_range] hold exactly when one range of the
    list contains the whole interval. *)
Theorem lookup_correct l s o size rng r : wf l -> 0 <= o -> 1 <= size -> o + size <= 2 ^ 64 ->
  spc rng = s -> in_word rng ->
  (get_range l s o = Some r <-> r ∈ l /\ range_index r = space_index s /\ first r <= o <= last r) /\
  (in_range l (address_new s o) size = true <->
     exists r, r ∈ l /\ range_index r = space_index s /\ first r <= o /\ o + size - 1 <= last r) /\
  (in_range_range l rng = true <->
     exists r, r ∈ l /\ range_index r = space_index s /\ first r <= first rng /\ last rng <= last r).
Proof.
  intros Hwf Ho Hs H64 Hspc [Hw _]. split; [by apply get_range_Some|]. split; [by apply in_range_spec|].
  rewrite <- Hspc. by apply in_range_range_spec.
Qed.

Lemma lookup_correct_witness :
  get_range sample_list ram32 0x35 = Some (mk_Range ram32 0x30 0x3f) /\
  in_range sample_list (address_new ram32 0x1e) 2 = true.
Proof.
  split.
  - apply (lookup_correct sample_list ram32 0x35 1 (mk_Range ram32 0 0)); try (simpl; lia);
      [apply sample_wf|reflexivity|unfold in_word; simpl; lia|].
    split; [right; by left|]. split; [reflexivity|simpl; lia].
  - apply (lookup_correct sample_list ram32 0x1e 2 (mk_Range ram32 0 0) (mk_Range ram32 0 0)); try (simpl; lia);
      [apply sample_wf|reflexivity|unfold in_word; simpl; lia|].
    exists (mk_Range ram32 0x10 0x1f). split; [by left|]. split; [reflexivity|simpl; lia].
Defined.

Section LongestFit.
Variables (l : RangeList) (idx off0 maxsize : Z).
Hypothesis Hwf : wf l.
Hypothesis Hoff : 0 <= off0.
Hypothesis Hhigh : forall r, r ∈ l -> range_index r = idx -> last r < 2 ^ 64 - 1.

(** What [longest_fit] promises: the whole run is covered, and it stops only
    when it is long enough or the next byte is not in the list. *)
Definition fit_ok (n : Z) : Prop :=
  0 <= n /\ (forall o, off0 <= o < off0 + n -> covers l idx o) /\
  (maxsize <= n \/ ~ covers l idx (off0 + n)).

Lemma longest_fit_loop_spec ranges : forall c, off0 <= c < 2 ^ 64 ->
  sorted range_key ranges -> (forall r, r ∈ ranges -> r ∈ l /\ idx <= range_index r) ->
  (forall r, r ∈ ranges -> range_index r = idx -> c <= last r) ->
  (forall r, r ∈ l -> range_index r = idx -> c <= last r -> r ∈ ranges) ->
  (forall o, off0 <= o < c -> covers l idx o) ->
  fit_ok (longest_fit_loop ranges idx c (c - off0) maxsize).
Proof using Hwf Hoff Hhigh.
  induction ranges as [|r ranges IH]; intros c Hc Hs Hin Hlast Hall Hcov; cbn [longest_fit_loop].
  { split; [lia|]. replace (off0 + (c - off0)) with c by lia. split; [done|]. right.
    intros (q & Hq & E & Ho). apply Hall in Hq; [by apply elem_of_nil in Hq|done|lia]. }
  apply sorted_cons in Hs as [Hs Hlt]. destruct (Hin r ltac:(by left)) as [Hr Hi].
  assert (Hfirst : forall q, q ∈ l -> range_index q = idx -> first q <= c <= last q -> kle (range_key r) (range_key q)).
  { intros q Hq E Ho. assert (q ∈ r :: ranges) as [->|Hq']%elem_of_cons by (apply Hall; done || lia).
    - apply kle_refl.
    - apply kle_lt_eq. left. by apply Hlt. }
  assert (Hstop : forall P : Prop, (covers l idx c -> False) ->
    fit_ok (c - off0)).
  { intros _ N. split; [lia|]. replace (off0 + (c - off0)) with c by lia. split; [done|by right]. }
  destruct (Z.eqb_spec (range_index r) idx) as [Ei|N]; cbn [negb].
  2:{ apply (Hstop True). intros (q & Hq & E & Ho). pose proof (Hfirst q Hq E Ho). keys. lia. }
  rewrite Z.gtb_ltb. destruct (Z.ltb_spec c (first r)) as [Hgt|Hle].
  { apply (Hstop True). intros (q & Hq & E & Ho). pose proof (Hfirst q Hq E Ho). keys. lia. }
  pose proof (Hhigh r Hr Ei) as Hh. pose proof (Hlast r ltac:(by left) Ei) as Hl.
  assert (u64 (c - off0 + u64 (u64 (last r + 1) - c)) = last r + 1 - off0) as ->.
  { rewrite !u64_small; rewrite ?u64_small; rewrite ?u64_small; lia. }
  rewrite (u64_small (last r + 1)), Z.geb_leb by lia.
  assert (Hcov' : forall o, off0 <= o < last r + 1 -> covers l idx o).
  { intros o Ho. destruct (Z.lt_ge_cases o c); [apply Hcov; lia|]. exists r. split; [done|]. split; [done|]. lia. }
  destruct (Z.leb_spec maxsize (last r + 1 - off0)).
  { split; [lia|]. split; [|by left]. intros o Ho. apply Hcov'. lia. }
  apply IH; [lia|done| | | |done].
  - intros q Hq. apply Hin. by right.
  - intros q Hq E. destruct (Hin q ltac:(by right)) as [Hql _]. pose proof (Hlt q Hq).
    destruct Hwf as (_ & Hw & Hd). pose proof (Hd r q Hr Hql ltac:(congruence)).
    destruct (Hw q Hql). keys. lia.
  - intros q Hq E Hlq. assert (q ∈ r :: ranges) as [->|]%elem_of_cons by (apply Hall; done || lia); [lia|done].
Qed.
End LongestFit.

(** [longest_fit] returns the length of a run of covered bytes that starts
    at the address and is either as long as asked or cannot be extended.  The
    last byte of a 64-bit space is excluded: there the length would need 65
    bits. *)
Theorem longest_fit_correct l s o maxsize : wf l -> is_u64 o ->
  (forall r, r ∈ l -> range_index r = space_index s -> last r < 2 ^ 64 - 1) ->
  fit_ok l (space_index s) o maxsize (longest_fit l (address_new s o) maxsize).
Proof.
  intros Hwf Ho Hh. unfold is_u in Ho. unfold longest_fit. cbn [space address_new offset].
  assert (Hzero : ~ covers l (space_index s) o -> fit_ok l (space_index s) o maxsize 0).
  { intros N. split; [lia|]. rewrite Z.add_0_r. split; [lia|by right]. }
  destruct l as [|q ql] eqn:El.
  { apply Hzero. intros (r & Hr & _). by apply elem_of_nil in Hr. }
  rewrite <- El in *. clear El.
  destruct (before_upper_bound l (mk_Range s o o)) as [start|] eqn:Hb.
  2:{ apply Hzero. intros (r & Hr & E & Hor). by rewrite (before_containing l Hwf r) in Hb. }
  assert (Hcont : forall r, r ∈ l -> range_index r = space_index s -> first r <= o <= last r -> start = r).
  { intros r Hr E Hor. rewrite (before_containing l Hwf r) in Hb by done. congruence. }
  destruct (before_found l Hwf _ _ _ Hb) as (Hst & Hle & Hmax).
  destruct (Z.ltb_spec (last start) o).
  { apply Hzero. intros (r & Hr & E & Hor). rewrite <- (Hcont r) in Hor by done. lia. }
  destruct (decide (range_index start = space_index s)) as [Ei|N].
  - replace 0 with (o - o) by lia. pose proof (wf_sorted l Hwf) as Hsl. destruct (Hwf) as (_ & Hw & Hd).
    apply longest_fit_loop_spec; try done; try lia.
    + by apply sorted_filter.
    + intros r [Hk Hr]%list_elem_of_filter. split; [done|]. keys. lia.
    + intros r [Hk Hr]%list_elem_of_filter E. pose proof (Hd start r Hst Hr ltac:(congruence)).
      destruct (Z.eq_dec (first start) (first r)) as [Ef|]; [by rewrite <- (same_key l Hwf start r) by (done || congruence)|].
      destruct (Hw r Hr). keys. lia.
    + intros r Hr E Hl. apply list_elem_of_filter. split; [|done].
      pose proof (Hd r start Hr Hst ltac:(congruence)). keys. lia.
  - assert (longest_fit_loop (range_from range_key (range_key start) l) (space_index s) o 0 maxsize = 0) as ->.
    { assert (range_from range_key (range_key start) l = [] \/ exists t, range_from range_key (range_key start) l = start :: t)
        as [->|[t ->]]; [|done|].
      - assert (start ∈ range_from range_key (range_key start) l) as Hin.
        { apply list_elem_of_filter. split; [apply kle_refl|done]. }
        pose proof (sorted_filter range_key (fun x => kle (range_key start) (range_key x)) l (wf_sorted l Hwf)) as Hsf.
        assert (head (range_from range_key (range_key start) l) = Some start) as Hhead.
        { apply (sorted_head range_key); [done|]. split; [done|]. by intros y [Hy _]%list_elem_of_filter. }
        right. destruct (range_from _ _ _); [done|]. injection Hhead as ->. eauto.
      - simpl. by rewrite (proj2 (Z.eqb_neq _ _) N). }
    apply Hzero. intros (r & Hr & E & Hor). apply N. by rewrite (Hcont r).
Qed.

(** 0x10..0x1f and 0x20..0x27 are adjacent. *)
Lemma longest_fit_correct_witness :
  fit_ok [mk_Range ram32 0x10 0x1f; mk_Range ram32 0x20 0x27] 3 0x14 100
    (longest_fit [mk_Range ram32 0x10 0x1f; mk_Range ram32 0x20 0x27] (address_new ram32 0x14) 100) /\
  longest_fit [mk_Range ram32 0x10 0x1f; mk_Range ram32 0x20 0x27] (address_new ram32 0x14) 100 = 0x14.
Proof.
  split; [|reflexivity]. apply (longest_fit_correct _ ram32).
  - split; [|split].
    + apply sorted_cons. split; [apply sorted_cons; split; [constructor|set_solver]|].
      intros y ->%list_elem_of_singleton. keys. simpl. lia.
    + intros r [->| ->%list_elem_of_singleton]%elem_of_cons; unfold in_word; simpl; lia.
    + intros r1 r2 [->| ->%list_elem_of_singleton]%elem_of_cons [->| ->%list_elem_of_singleton]%elem_of_cons;
        simpl; lia.
  - unfold is_u. lia.
  - intros r [->| ->%list_elem_of_singleton]%elem_of_cons; simpl; lia.
Defined.

(** The distance of an offset from a range: 0 inside it. *)
Definition distance (r : Range) (o : Z) : Z :=
  if o <? first r then first r - o else if last r <? o then o - last r else 0.

(** [get_nearest_range] returns a range of the space at minimal distance
    from the offset, and none exactly when the space has no range. *)
Theorem get_nearest_range_correct l s o : wf l -> is_u64 o ->
  match get_nearest_range l s o with
  | None => forall r, r ∈ l -> range_index r <> space_index s
  | Some r => r ∈ l /\ range_index r = space_index s /\
      forall q, q ∈ l -> range_index q = space_index s -> distance r o <= distance q o
  end.
Proof.
  intros Hwf Ho. unfold is_u in Ho. unfold get_nearest_range. destruct l as [|q0 ql] eqn:El; [by intros r ?%elem_of_nil|].
  rewrite <- El in *. clear El. pose proof Hwf as (Hs & Hw & Hd).
  set (after := match upper_bound l (mk_Range s o o) with
                | Some range => if range_index range =? space_index s then Some range else None
                | None => None end).
  assert (Hafter : match after with
    | None => forall q, q ∈ l -> range_index q = space_index s -> first q <= o
    | Some a => a ∈ l /\ range_index a = space_index s /\ o < first a /\
        forall q, q ∈ l -> range_index q = space_index s -> o < first q -> first a <= first q
    end).
  { unfold after. destruct (upper_bound l (mk_Range s o o)) as [a|] eqn:Hu.
    - apply after_excl_Some in Hu as (Ha & Hlt & Hmin); [|done].
      destruct (Z.eqb_spec (range_index a) (space_index s)) as [E|N].
      + split; [done|]. split; [done|]. split; [keys; lia|]. intros q Hq Eq Hlq.
        assert (kle (range_key a) (range_key q)) by (apply Hmin; [done|]; keys; lia). keys. lia.
      + intros q Hq Eq. apply Z.nlt_ge. intros Hlq.
        assert (kle (range_key a) (range_key q)) by (apply Hmin; [done|]; keys; lia). keys. lia.
    - intros q Hq Eq. pose proof (proj1 (after_excl_None range_key _ l) Hu q Hq). keys. lia. }
  clearbody after.
  assert (Hnobefore : (forall q, q ∈ l -> range_index q = space_index s -> o < first q) ->
    match after with
    | None => forall r, r ∈ l -> range_index r <> space_index s
    | Some r => r ∈ l /\ range_index r = space_index s /\
        forall q, q ∈ l -> range_index q = space_index s -> distance r o <= distance q o end).
  { intros Hall. destruct after as [a|].
    - destruct Hafter as (Ha & Ea & Hla & Hmin). split; [done|]. split; [done|]. intros q Hq Eq. unfold distance.
      pose proof (Hall q Hq Eq). pose proof (Hmin q Hq Eq H).
      destruct (Z.ltb_spec o (first a)), (Z.ltb_spec o (first q)); lia.
    - intros r Hr E. pose proof (Hall r Hr E). pose proof (Hafter r Hr E). lia. }
  destruct (before_upper_bound l (mk_Range s o o)) as [b|] eqn:Hb.
  2:{ apply Hnobefore. intros q Hq Eq. pose proof (proj1 (before_incl_None range_key _ l) Hb q Hq). keys. lia. }
  destruct (before_found l Hwf _ _ _ Hb) as (Hbl & Hle & Hmax).
  destruct (Z.eqb_spec (range_index b) (space_index s)) as [E|N]; cbn [negb].
  2:{ apply Hnobefore. intros q Hq Eq. apply Z.nle_gt. intros Hle'.
      assert (kle (range_key q) (range_key b)) by (apply Hmax; [done|]; keys; lia). keys. lia. }
  assert (Hbf : first b <= o) by (keys; lia). pose proof (Hw b Hbl) as [Hwb _].
  assert (Hbefore : forall q, q ∈ l -> range_index q = space_index s -> first q <= o -> distance b o <= distance q o).
  { intros q Hq Eq Hfq. assert (kle (range_key q) (range_key b)) by (apply Hmax; [done|]; keys; lia).
    destruct (Z.eq_dec (first q) (first b)) as [Ef|]; [by rewrite (same_key l Hwf q b) by (done || congruence)|].
    pose proof (Hd q b Hq Hbl ltac:(congruence)). unfold distance. pose proof (Hw q Hq) as [? _]. keys.
    destruct (Z.ltb_spec o (first b)), (Z.ltb_spec o (first q)), (Z.ltb_spec (last b) o), (Z.ltb_spec (last q) o); lia. }
  destruct after as [a|].
  - destruct Hafter as (Ha & Ea & Hla & Hmin). pose proof (Hw a Ha) as [? _].
    assert (Hfar : forall q, q ∈ l -> range_index q = space_index s -> o < first q -> distance a o <= distance q o).
    { intros q Hq Eq Hlq. pose proof (Hmin q Hq Eq Hlq). unfold distance.
      destruct (Z.ltb_spec o (first a)), (Z.ltb_spec o (first q)); lia. }
    assert (Hboth : forall r, (distance r o <= distance b o) -> (distance r o <= distance a o) ->
      forall q, q ∈ l -> range_index q = space_index s -> distance r o <= distance q o).
    { intros r Hrb Hra q Hq Eq. pose proof (Hfar q Hq Eq). pose proof (Hbefore q Hq Eq). lia. }
    rewrite Z.geb_leb. destruct (Z.leb_spec o (last b)).
    + split; [done|]. split; [done|]. apply Hboth; [lia|]. unfold distance.
      destruct (Z.ltb_spec o (first b)), (Z.ltb_spec (last b) o), (Z.ltb_spec o (first a)); lia.
    + pose proof (Hw a Ha) as [_ ?]. rewrite !u64_small by lia.
      destruct (Z.ltb_spec (first a - o) (o - last b)); (split; [done|]; split; [done|]); apply Hboth; try lia;
        unfold distance; destruct (Z.ltb_spec o (first b)), (Z.ltb_spec (last b) o), (Z.ltb_spec o (first a)); lia.
  - split; [done|]. split; [done|]. intros q Hq Eq. apply Hbefore; [done|done|]. by apply Hafter.
Qed.

Lemma get_nearest_range_correct_witness :
  get_nearest_range sample_list ram32 0x2c = Some (mk_Range ram32 0x30 0x3f) /\
  distance (mk_Range ram32 0x30 0x3f) 0x2c <= distance (mk_Range ram32 0x10 0x1f) 0x2c.
Proof.
  split; [reflexivity|].
  pose proof (get_nearest_range_correct sample_list ram32 0x2c sample_wf ltac:(unfold is_u; lia)) as H.
  apply H; [by left|reflexivity].
Defined.
