(* ===== verification/Manager.v ===== *)
(** [AddrSpaceManager] of [src/src/translate.rs]: the registry of address spaces.
    Spaces are shared objects with fields that change after registration (flags,
    shortcut, sizes), so they live in a store and the tables hold references,
    the places in the store.  The resolvers of segmented addresses and the join
    table are not part of the model. *)
From stdpp Require Import base list gmap numbers strings.
From Stdlib Require Import ZArith Lia Ascii.
From S2P Require Import Prelude Bits BTree Space Address RangeList.

(** ** Definitions *)

(** The store and the fields of [ManagerState]. *)
Record Manager : Type := mk_Manager {
  spaces : list AddrSpace;
  baselist : list (option nat);
  name2space : gmap string nat;
  shortcut2space : gmap Z nat;
  constantspace : option nat;
  defaultcodespace : option nat;
  defaultdataspace : option nat;
  iopspace : option nat;
  fspecspace : option nat;
  joinspace : option nat;
  stackspace : option nat;
  uniqspace : option nat;
  nohighptr : RangeList;
}.

(** The space a reference refers to; references always refer to a space. *)
Definition deref (m : Manager) (r : nat) : AddrSpace := default maximal (spaces m !! r).

Definition with_spaces (m : Manager) (h : list AddrSpace) : Manager :=
  mk_Manager h (baselist m) (name2space m) (shortcut2space m) (constantspace m) (defaultcodespace m)
    (defaultdataspace m) (iopspace m) (fspecspace m) (joinspace m) (stackspace m) (uniqspace m) (nohighptr m).

(** A change to a shared space. *)
Definition update_space (m : Manager) (r : nat) (f : AddrSpace -> AddrSpace) : Manager :=
  with_spaces m (alter f r (spaces m)).

Definition with_tables (m : Manager) (b : list (option nat)) (n : gmap string nat) (s : gmap Z nat) : Manager :=
  mk_Manager (spaces m) b n s (constantspace m) (defaultcodespace m)
    (defaultdataspace m) (iopspace m) (fspecspace m) (joinspace m) (stackspace m) (uniqspace m) (nohighptr m).

(** Records [r] as the space of a special type; only a stack is recorded for the
    spacebase spaces. *)
Definition with_special (m : Manager) (tp : SpaceType) (r : nat) : Manager :=
  let set (here : bool) (old : option nat) := if here then Some r else old in
  let same t := bool_decide (tp = t) in
  mk_Manager (spaces m) (baselist m) (name2space m) (shortcut2space m)
    (set (same Constant) (constantspace m)) (defaultcodespace m) (defaultdataspace m)
    (set (same Iop) (iopspace m)) (set (same Fspec) (fspecspace m)) (set (same Join) (joinspace m))
    (set (same Spacebase) (stackspace m)) (set (same Internal) (uniqspace m)) (nohighptr m).

Definition with_defaults (m : Manager) (code data : option nat) : Manager :=
  mk_Manager (spaces m) (baselist m) (name2space m) (shortcut2space m) (constantspace m) code
    data (iopspace m) (fspecspace m) (joinspace m) (stackspace m) (uniqspace m) (nohighptr m).

Definition with_nohighptr (m : Manager) (l : RangeList) : Manager :=
  mk_Manager (spaces m) (baselist m) (name2space m) (shortcut2space m) (constantspace m) (defaultcodespace m)
    (defaultdataspace m) (iopspace m) (fspecspace m) (joinspace m) (stackspace m) (uniqspace m) l.

(** An empty manager over the spaces of a store. *)
Definition manager_new (h : list AddrSpace) : Manager :=
  mk_Manager h [] ∅ ∅ None None None None None None None None [].

(** The queries. *)
Definition num_spaces (m : Manager) : Z := i32 (Z.of_nat (length (baselist m))).

Definition get_space (m : Manager) (index : Z) : option nat :=
  if index <? 0 then None else mjoin (baselist m !! Z.to_nat index).

Definition get_space_by_name (m : Manager) (nm : string) : option nat := name2space m !! nm.

(** [byte as i8 as i32]. *)
Definition shortcut_key (byte : Z) : Z := sw 8 byte.

Definition get_space_by_shortcut (m : Manager) (sc : Z) : option nat :=
  let key := if sc <? 0x100 then shortcut_key (uw 8 sc) else i32 sc in
  shortcut2space m !! key.

Fixpoint first_from (l : list (option nat)) : option nat :=
  match l with
  | [] => None
  | Some r :: _ => Some r
  | None :: l => first_from l
  end.

(** [get_next_space_in_order]: the next space, the space after all others
    ([inr tt]), or none. *)
Definition get_next_space_in_order (m : Manager) (spc : option AddrSpace) : option (nat + unit) :=
  match spc with
  | None => inl <$> mjoin (baselist m !! 0%nat)
  | Some s =>
      if is_maximal s then None else
      match first_from (drop (Z.to_nat (u64 (i32 (space_index s + 1)))) (baselist m)) with
      | Some r => Some (inl r)
      | None => Some (inr tt)
      end
  end.

Definition get_constant (m : Manager) (val : Z) : Address := from_parts (deref m <$> constantspace m) val.

Definition get_default_size (m : Manager) : Z :=
  match defaultcodespace m with Some r => i32 (address_size (deref m r)) | None => 0 end.

Definition high_ptr_possible (m : Manager) (loc : Address) (size : Z) : bool :=
  match space loc with
  | None => true
  | Some s =>
      let fl := Z.land (flags s) (Z.lor ADDRESSABLE_ALL ADDRESSABLE_NONE) in
      if negb (fl =? 0) then fl =? ADDRESSABLE_ALL
      else negb (in_range (nohighptr m) loc (u64 size))
  end.

(** *** Registration *)

Definition wrong_type (nm : string) : Error := Lowlevel ("Space " ++ nm ++ " was initialized with wrong type").
Definition duplicate (nm : string) : Error := Lowlevel ("Space " ++ nm ++ " was initialized more than once").

(** The first byte of a name, as a key. *)
Definition first_key (nm : string) : Z :=
  match nm with EmptyString => 0 | String c _ => shortcut_key (Z.of_N (N_of_ascii c)) end.

Definition initial_shortcut (s : AddrSpace) : Z :=
  let sc :=
    match space_type s with
    | Constant => 0x23
    | Processor => if bool_decide (name s = "register"%string) then 0x25 else first_key (name s)
    | Spacebase => 0x73
    | Internal => 0x75
    | Fspec => 0x66
    | Join => 0x6a
    | Iop => 0x69
    end in
  if (0x41 <=? sc) && (sc <=? 0x5a) then sc + 0x20 else sc.

(** The loop of [assign_shortcut]: the free key, or [None] after 26 collisions.
    It runs at most 27 times. *)
Fixpoint free_shortcut (fuel : nat) (taken : gmap Z nat) (sc collisions : Z) : outcome (option Z) :=
  match fuel with
  | O => Diverge
  | S fuel =>
      match taken !! sc with
      | None => Ok (Some sc)
      | Some _ =>
          let collisions := collisions + 1 in
          if collisions >? 26 then Ok None else
          let sc := sw 8 (sc + 1) in
          let sc := if (sc <? 0x61) || (sc >? 0x7a) then 0x61 else sc in
          free_shortcut fuel taken sc collisions
      end
  end.

Definition assign_shortcut (r : nat) : stm Manager unit :=
  do! m <- sget ;;
  let current := shortcut (deref m r) in
  if negb (current =? 0x20) then
    smodify (fun m =>
      match shortcut2space m !! shortcut_key current with
      | Some _ => m
      | None => with_tables m (baselist m) (name2space m) (<[shortcut_key current := r]> (shortcut2space m))
      end)
  else
    do! found <- slift (free_shortcut 28 (shortcut2space m) (initial_shortcut (deref m r)) 0) ;;
    match found with
    | None => smodify (fun m => update_space m r (fun s => set_shortcut s 0x7a))
    | Some sc =>
        smodify (fun m => with_tables m (baselist m) (name2space m) (<[sc := r]> (shortcut2space m))) ;;!
        smodify (fun m => update_space m r (fun s => set_shortcut s (uw 8 sc)))
    end.

(** A special space must have its name and be new. *)
Definition register_special (s : AddrSpace) (r : nat) (required : string) (old : option nat) : stm Manager unit :=
  if negb (bool_decide (name s = required)) then serr (wrong_type (name s))
  else match old with
       | Some _ => serr (duplicate (name s))
       | None => smodify (fun m => with_special m (space_type s) r)
       end.

(** The match on the type of the space. *)
Definition check_type (r : nat) : stm Manager unit :=
  do! m <- sget ;;
  let s := deref m r in
  match space_type s with
  | Constant =>
      if negb (bool_decide (name s = CONSTANT_SPACE_NAME)) then serr (wrong_type (name s))
      else if negb (space_index s =? CONSTANT_SPACE_INDEX) then serr (Lowlevel "const space must be assigned index 0")
      else smodify (fun m => with_special m Constant r)
  | Internal => register_special s r UNIQUE_SPACE_NAME (uniqspace m)
  | Fspec => register_special s r "fspec" (fspecspace m)
  | Join => register_special s r JOIN_SPACE_NAME (joinspace m)
  | Iop => register_special s r "iop" (iopspace m)
  | Spacebase | Processor =>
      (if bool_decide (space_type s = Spacebase) && bool_decide (name s = "stack"%string) then
         match stackspace m with
         | Some _ => serr (duplicate (name s))
         | None => smodify (fun m => with_special m Spacebase r)
         end
       else sret tt) ;;!
      if is_overlay s then
        match get_contain s with
        | Some contain => smodify (fun m => update_space m contain (fun s => set_flags s OVERLAYBASE))
        | None => sret tt
        end
      else if is_other_space s && negb (space_index s =? OTHER_SPACE_INDEX) then
        serr (Lowlevel "OTHER space must be assigned index 1")
      else sret tt
  end.

(** [Vec::resize] with [None]. *)
Definition resize_to (l : list (option nat)) (n : nat) : list (option nat) :=
  if decide (length l < n)%nat then l ++ replicate (n - length l) None else l.

(** The part of [insert_space] after the match on the type. *)
Definition register_slot (r : nat) : stm Manager unit :=
  do! m <- sget ;;
  let s := deref m r in
  if space_index s <? 0 then serr (Lowlevel ("Space " ++ name s ++ " was assigned an invalid index")) else
  let slot := Z.to_nat (space_index s) in
  smodify (fun m => with_tables m (resize_to (baselist m) (S slot)) (name2space m) (shortcut2space m)) ;;!
  do! m <- sget ;;
  match baselist m !! slot with
  | None => slift Panic
  | Some (Some existing) =>
      serr (Lowlevel ("Space " ++ name s ++ " was assigned id duplicating: " ++ name (deref m existing)))
  | Some None =>
      match name2space m !! name s with
      | Some _ => serr (duplicate (name s))
      | None =>
          smodify (fun m => with_tables m (<[slot := Some r]> (baselist m)) (<[name s := r]> (name2space m)) (shortcut2space m)) ;;!
          assign_shortcut r
      end
  end.

Definition insert_space (r : nat) : stm Manager unit := check_type r ;;! register_slot r.

Definition set_default_code_space (index : Z) : stm Manager unit :=
  do! m <- sget ;;
  match defaultcodespace m with
  | Some _ => serr (Lowlevel "Default space set multiple times")
  | None =>
      match get_space m index with
      | None => serr (Lowlevel "Bad index for default space")
      | Some r => smodify (fun m => with_defaults m (Some r) (Some r))
      end
  end.

Definition set_default_data_space (index : Z) : stm Manager unit :=
  do! m <- sget ;;
  match defaultcodespace m with
  | None => serr (Lowlevel "Default data space must be set after the code space")
  | Some _ =>
      match get_space m index with
      | None => serr (Lowlevel "Bad index for default data space")
      | Some r => smodify (fun m => with_defaults m (defaultcodespace m) (Some r))
      end
  end.

Definition set_reverse_justified (r : nat) : stm Manager unit :=
  smodify (fun m => update_space m r (fun s => set_flags s REVERSE_JUSTIFICATION)).

Definition mark_near_pointers (r : nat) (size : Z) : stm Manager unit :=
  smodify (fun m => update_space m r (fun s => set_flags s HAS_NEARPOINTERS)) ;;!
  do! m <- sget ;;
  let s := deref m r in
  if (minimum_pointer_size s =? 0) && negb (i32 (address_size s) =? size)
  then smodify (fun m => update_space m r (fun s => set_minimum_ptr_size s size))
  else sret tt.

Definition add_no_high_ptr (r : nat) (first last : Z) : stm Manager unit :=
  do! m <- sget ;;
  let fl := flags (deref m r) in
  if negb (Z.land fl ADDRESSABLE_NONE =? 0) then sret tt else
  (if negb (Z.land fl ADDRESSABLE_ALL =? 0)
   then smodify (fun m => update_space m r (fun s => clear_flags s ADDRESSABLE_ALL)) else sret tt) ;;!
  smodify (fun m => with_nohighptr m (insert_range (nohighptr m) (deref m r) first last)) ;;!
  do! m <- sget ;;
  if in_range_range (nohighptr m) (mk_Range (deref m r) 0 (highest (deref m r)))
  then smodify (fun m => update_space m r (fun s => set_flags s ADDRESSABLE_NONE))
  else sret tt.

Definition set_infer_ptr_bounds (r : nat) (first last : Z) : stm Manager unit :=
  smodify (fun m => update_space m r (fun s => set_pointer_bounds s first last)).

Definition manager_truncate_space (nm : string) (size : Z) : stm Manager unit :=
  do! m <- sget ;;
  match get_space_by_name m nm with
  | None => serr (Lowlevel ("Unknown space in <truncate_space> command: " ++ nm))
  | Some r => smodify (fun m => update_space m r (fun s => truncate_space s size))
  end.

Definition copy_each (rs : list nat) : stm Manager unit :=
  fold_right (fun r k => insert_space r ;;! k) (sret tt) rs.

(** [copy_spaces]: [op2] is another manager over the same store. *)
Definition copy_spaces (op2 : Manager) : stm Manager unit :=
  copy_each (omap id (baselist op2)) ;;!
  let index_of (m : Manager) o := match o with Some r => space_index (deref m r) | None => -1 end in
  do! m <- sget ;;
  set_default_code_space (index_of m (defaultcodespace op2)) ;;!
  set_default_data_space (index_of m (defaultdataspace op2)).

(** ** The registry *)

(** What never changes of a space. *)
Definition identity (s : AddrSpace) : SpaceKind * SpaceType * string * Z := (kind s, space_type s, name s, space_index s).

(** Two managers that differ only in what can change of their spaces, and in
    the tables of shortcuts and special spaces. *)
Definition same_tables (m m' : Manager) : Prop :=
  length (spaces m') = length (spaces m) /\ (forall r, identity (deref m' r) = identity (deref m r)) /\
  baselist m' = baselist m /\ name2space m' = name2space m.

#[export] Instance same_tables_preorder : PreOrder same_tables.
Proof.
  split; [intros m; by repeat split|]. intros m1 m2 m3 (L1 & I1 & B1 & N1) (L2 & I2 & B2 & N2).
  repeat split; [congruence|intros; by rewrite I2, I1|congruence..].
Qed.

Record registry (m : Manager) : Prop := {
  reg_slot : forall i r, baselist m !! i = Some (Some r) ->
    (r < length (spaces m))%nat /\ space_index (deref m r) = Z.of_nat i /\ name2space m !! name (deref m r) = Some r;
  reg_name : forall nm r, name2space m !! nm = Some r -> name (deref m r) = nm /\
    0 <= space_index (deref m r) /\ baselist m !! Z.to_nat (space_index (deref m r)) = Some (Some r);
}.

Lemma identity_fields s t : identity s = identity t ->
  kind s = kind t /\ space_type s = space_type t /\ name s = name t /\ space_index s = space_index t.
Proof. unfold identity. intros H. by simplify_eq. Qed.

Lemma registry_same m m' : same_tables m m' -> registry m -> registry m'.
Proof.
  intros (L & I & B & N) [Hs Hn]. split.
  - intros i r. rewrite B, N, L. destruct (identity_fields _ _ (I r)) as (_ & _ & -> & ->). apply Hs.
  - intros nm r. rewrite B, N. destruct (identity_fields _ _ (I r)) as (_ & _ & -> & ->). apply Hn.
Qed.

Lemma deref_update m r f x : (r < length (spaces m))%nat ->
  deref (update_space m r f) x = if decide (x = r) then f (deref m r) else deref m x.
Proof.
  intros Hr. unfold deref, update_space. simpl. destruct (lookup_lt_is_Some_2 _ _ Hr) as [s Hs].
  case_decide as E; [subst; by rewrite list_lookup_alter_eq, Hs|by rewrite list_lookup_alter_ne].
Qed.

Lemma update_same m r f : (forall s, identity (f s) = identity s) -> same_tables m (update_space m r f).
Proof.
  intros Hf. repeat split; [apply length_alter|]. intros x.
  unfold deref, update_space. simpl. destruct (decide (x = r)) as [->|].
  - rewrite list_lookup_alter_eq. destruct (spaces m !! r); [apply Hf|done].
  - by rewrite list_lookup_alter_ne.
Qed.

Lemma special_same m tp r : same_tables m (with_special m tp r).
Proof. by repeat split. Qed.

#[local] Hint Resolve special_same update_same : core.

(** Whether the type of a space allows it to be registered. *)
Definition type_ok (m : Manager) (s : AddrSpace) : Prop :=
  let other_ok := is_overlay s = false -> is_other_space s = true -> space_index s = OTHER_SPACE_INDEX in
  match space_type s with
  | Constant => name s = CONSTANT_SPACE_NAME /\ space_index s = CONSTANT_SPACE_INDEX
  | Internal => name s = UNIQUE_SPACE_NAME /\ uniqspace m = None
  | Fspec => name s = FSPEC_SPACE_NAME /\ fspecspace m = None
  | Join => name s = JOIN_SPACE_NAME /\ joinspace m = None
  | Iop => name s = IOP_SPACE_NAME /\ iopspace m = None
  | Spacebase => (name s = "stack"%string -> stackspace m = None) /\ other_ok
  | Processor => other_ok
  end.

Definition settles (o : outcome unit) (P : Prop) : Prop := (o = Ok tt /\ P) \/ ((exists e, o = Err e) /\ ~ P).

Lemma register_special_spec s r required old m m' o : register_special s r required old m = (m', o) ->
  same_tables m m' /\ settles o (name s = required /\ old = None).
Proof.
  unfold register_special, settles. case_bool_decide as E; simpl; [destruct old|]; intros H; srun.
  - split; [done|]. right. split; [by eexists|]. by intros [_ ?].
  - split; [auto|by left].
  - split; [done|]. right. split; [by eexists|]. by intros [? _].
Qed.

Lemma set_flags_identity fl s : identity (set_flags s fl) = identity s.
Proof. done. Qed.

Lemma overlay_base_spec s m m' o :
  (if is_overlay s then
     match get_contain s with
     | Some contain => smodify (fun m => update_space m contain (fun s => set_flags s OVERLAYBASE))
     | None => sret tt
     end
   else if is_other_space s && negb (space_index s =? OTHER_SPACE_INDEX) then
     serr (Lowlevel "OTHER space must be assigned index 1")
   else sret tt) m = (m', o) ->
  same_tables m m' /\
  settles o (is_overlay s = false -> is_other_space s = true -> space_index s = OTHER_SPACE_INDEX).
Proof.
  unfold settles. destruct (is_overlay s).
  { destruct (get_contain s); intros H; srun; (split; [|by left]); [by apply update_same|done]. }
  destruct (is_other_space s); simpl; [|intros H; srun; by split; [|left]].
  destruct (Z.eqb_spec (space_index s) OTHER_SPACE_INDEX); simpl; intros H; srun; (split; [done|]).
  - by left.
  - right. split; [by eexists|]. auto.
Qed.

Lemma check_type_spec m r m' o : check_type r m = (m', o) -> same_tables m m' /\ settles o (type_ok m (deref m r)).
Proof.
  unfold check_type, sbind at 1, sget. cbv zeta. unfold type_ok. destruct (space_type (deref m r)) eqn:T.
  - unfold settles. case_bool_decide as E; simpl.
    + destruct (Z.eqb_spec (space_index (deref m r)) CONSTANT_SPACE_INDEX); simpl; intros H; srun.
      * split; [auto|by left].
      * split; [done|]. right. split; [by eexists|]. by intros [_ ?].
    + intros H; srun. split; [done|]. right. split; [by eexists|]. by intros [? _].
  - unfold sbind, sret. simpl. apply overlay_base_spec.
  - rewrite bool_decide_true by done. simpl. case_bool_decide as E; simpl; [|unfold sbind, sret; intros [? [[-> Hp]|[He Hp]]]%overlay_base_spec].
    + unfold sbind at 1. destruct (stackspace m) eqn:Es; simpl.
      * intros H; srun. split; [done|]. right. split; [by eexists|]. intros [Hn _]. by specialize (Hn E).
      * intros [Hs Hp]%overlay_base_spec. split; [by etrans; [apply special_same|exact Hs]|].
        destruct Hp as [[-> Hp]|[He Hp]]; [left|right]; (split; [done|]); [done|by intros [_ ?]].
    + split; [done|]. by left.
    + split; [done|]. right. split; [done|]. by intros [_ ?].
  - apply register_special_spec.
  - apply register_special_spec.
  - apply register_special_spec.
  - apply register_special_spec.
Qed.

(** *** Shortcuts *)

(** The letters in the order the search tries them. *)
Definition letter (j : Z) : Z := 0x61 + j mod 26.

Lemma next_letter j :
  (let sc := sw 8 (letter j + 1) in if (sc <? 0x61) || (sc >? 0x7a) then 0x61 else sc) = letter (j + 1).
Proof.
  unfold letter. pose proof (Z.mod_pos_bound j 26 eq_refl) as Hb. cbv zeta.
  rewrite sw_small by (unfold is_s; lia).
  assert (E : (j + 1) mod 26 = if j mod 26 =? 25 then 0 else j mod 26 + 1).
  { pose proof (Z.div_mod j 26 ltac:(lia)). destruct (Z.eqb_spec (j mod 26) 25); symmetry.
    - apply (Z.mod_unique _ _ (j / 26 + 1)); lia.
    - apply (Z.mod_unique _ _ (j / 26)); lia. }
  rewrite E. destruct (Z.eqb_spec (j mod 26) 25) as [->|]; [done|].
  destruct (Z.ltb_spec (0x61 + j mod 26 + 1) 0x61), (Z.gtb_spec (0x61 + j mod 26 + 1) 0x7a); simpl; lia.
Qed.

Lemma free_letter fuel : forall taken j c, c <= 26 -> (Z.to_nat (26 - c) < fuel)%nat ->
  exists found, free_shortcut fuel taken (letter j) c = Ok found /\
  match found with
  | Some k => taken !! k = None /\ exists i, j <= i <= j + 26 - c /\ k = letter i
  | None => forall i, j <= i <= j + 26 - c -> is_Some (taken !! letter i)
  end.
Proof.
  induction fuel as [|fuel IH]; intros taken j c Hc Hf; [lia|]. cbn [free_shortcut].
  destruct (taken !! letter j) as [r|] eqn:Ek; [|exists (Some (letter j)); split; [done|]; split; [done|]; exists j; lia].
  destruct (Z.gtb_spec (c + 1) 26).
  { exists None. split; [done|]. intros i Hi. replace i with j by lia. by eexists. }
  rewrite next_letter. destruct (IH taken (j + 1) (c + 1)) as ([k|] & -> & Hk); [lia..| |].
  - exists (Some k). split; [done|]. destruct Hk as [? (i & ? & ?)]. split; [done|]. exists i. split; [lia|done].
  - exists None. split; [done|]. intros i Hi. destruct (Z.eq_dec i j) as [->|]; [by eexists|]. apply Hk. lia.
Qed.

Lemma letters_cover j k : 0x61 <= k <= 0x7a -> exists i, j <= i <= j + 25 /\ k = letter i.
Proof.
  intros Hk. exists (j + (k - 0x61 - j) mod 26). pose proof (Z.mod_pos_bound (k - 0x61 - j) 26 eq_refl).
  split; [lia|]. unfold letter. rewrite Zplus_mod_idemp_r. rewrite Z.mod_small; lia.
Qed.

Lemma free_shortcut_spec n taken sc : (26 < n)%nat -> -128 <= sc < 128 ->
  exists found, free_shortcut (S n) taken sc 0 = Ok found /\
  match found with
  | Some k => taken !! k = None /\ -128 <= k < 128
  | None => is_Some (taken !! sc) /\ forall k, 0x61 <= k <= 0x7a -> is_Some (taken !! k)
  end.
Proof.
  intros Hn Hsc. cbn [free_shortcut].
  destruct (taken !! sc) eqn:E; [|exists (Some sc); by split].
  destruct (Z.gtb_spec (0 + 1) 26); [lia|].
  set (sc1 := if _ || _ then 0x61 else _).
  assert (Hl : exists j, sc1 = letter j).
  { unfold sc1. destruct (Z.ltb_spec (sw 8 (sc + 1)) 0x61), (Z.gtb_spec (sw 8 (sc + 1)) 0x7a); simpl;
      [by exists 0|by exists 0|by exists 0|]. exists (sw 8 (sc + 1) - 0x61). unfold letter. rewrite Z.mod_small; lia. }
  destruct Hl as [j ->]. destruct (free_letter n taken j (0 + 1)) as ([k|] & -> & Hk); [lia..| |].
  - exists (Some k). split; [done|]. destruct Hk as [? (i & _ & ->)]. split; [done|].
    unfold letter. pose proof (Z.mod_pos_bound i 26 eq_refl). lia.
  - exists None. split; [done|]. split; [done|]. intros k (i & Hi & ->)%(letters_cover j). apply Hk. lia.
Qed.

Lemma initial_shortcut_range s : -128 <= initial_shortcut s < 128.
Proof.
  unfold initial_shortcut.
  set (sc := match space_type s with Constant => _ | _ => _ end).
  assert (Hsc : -128 <= sc < 128).
  { unfold sc. destruct (space_type s); try lia. case_bool_decide; [lia|]. unfold first_key.
    destruct (name s); [lia|]. pose proof (sw_range 8 (Z.of_N (N_of_ascii a)) ltac:(lia)) as Hs.
    unfold is_s in Hs. unfold shortcut_key. lia. }
  destruct (Z.leb_spec 0x41 sc), (Z.leb_spec sc 0x5a); simpl; lia.
Qed.

Lemma shortcut_same m r b n s sc : b = baselist m -> n = name2space m ->
  same_tables m (update_space (with_tables m b n s) r (fun x => set_shortcut x sc)).
Proof. intros -> ->. trans (with_tables m (baselist m) (name2space m) s); [by repeat split|]. by apply update_same. Qed.

Lemma assign_shortcut_spec m r : (r < length (spaces m))%nat -> exists m',
  assign_shortcut r m = (m', Ok tt) /\ same_tables m m' /\
  if shortcut (deref m r) =? 0x20 then
    (exists k, -128 <= k < 128 /\ shortcut2space m !! k = None /\
       shortcut2space m' = <[k := r]> (shortcut2space m) /\ shortcut (deref m' r) = uw 8 k) \/
    (shortcut2space m' = shortcut2space m /\ shortcut (deref m' r) = 0x7a /\
       forall k, 0x61 <= k <= 0x7a -> is_Some (shortcut2space m !! k))
  else forall k, shortcut2space m' !! k =
    if decide (k = shortcut_key (shortcut (deref m r))) then
      Some (default r (shortcut2space m !! k)) else shortcut2space m !! k.
Proof.
  intros Hr. unfold assign_shortcut. rewrite sbind_get. cbv zeta.
  destruct (Z.eqb_spec (shortcut (deref m r)) 0x20) as [E|E]; cbv beta iota delta [negb].
  - destruct (free_shortcut_spec 27 (shortcut2space m) (initial_shortcut (deref m r))) as (found & Hf & Hp);
      [lia|apply initial_shortcut_range|]. erewrite sbind_ok by (unfold slift; by rewrite Hf).
    destruct found as [k|].
    + destruct Hp as [Hk Hr8]. eexists. split; [reflexivity|]. split; [by apply shortcut_same|]. left. exists k.
      split_and!; [lia..|done|done|]. rewrite deref_update by done. by rewrite decide_True.
    + destruct Hp as [_ Hp]. eexists. split; [reflexivity|]. split; [by apply update_same|]. right.
      split; [done|]. split; [|done]. rewrite deref_update by done. by rewrite decide_True.
  - eexists. split; [reflexivity|]. cbv beta.
    destruct (shortcut2space m !! shortcut_key (shortcut (deref m r))) as [x|] eqn:Ek.
    + split; [done|]. intros k. case_decide as D; [subst; by rewrite Ek|done].
    + split; [by repeat split|]. intros k. simpl. case_decide as D; [subst; by rewrite lookup_insert_eq, Ek|].
      by rewrite lookup_insert_ne.
Qed.

Definition same_shortcuts (m m' : Manager) : Prop :=
  shortcut2space m' = shortcut2space m /\ forall x, shortcut (deref m' x) = shortcut (deref m x).

Lemma set_flags_shortcuts m r fl : same_shortcuts m (update_space m r (fun s => set_flags s fl)).
Proof.
  split; [done|]. intros x. unfold deref, update_space. simpl. destruct (decide (x = r)) as [->|].
  - rewrite list_lookup_alter_eq. by destruct (spaces m !! r).
  - by rewrite list_lookup_alter_ne.
Qed.

Lemma check_type_shortcuts m r : same_shortcuts m (check_type r m).1.
Proof.
  unfold check_type. rewrite sbind_get. cbv zeta. set (s := deref m r).
  assert (Hspecial : forall required old, same_shortcuts m (register_special s r required old m).1).
  { intros required old. unfold register_special. case_bool_decide; simpl; [destruct old|]; done. }
  assert (Hover : forall m1, same_shortcuts m m1 -> same_shortcuts m ((if is_overlay s then
      match get_contain s with
      | Some contain => smodify (fun m => update_space m contain (fun s => set_flags s OVERLAYBASE))
      | None => sret tt end
    else if is_other_space s && negb (space_index s =? OTHER_SPACE_INDEX) then
      serr (Lowlevel "OTHER space must be assigned index 1") else sret tt) m1).1).
  { intros m1 [E1 E2]. destruct (is_overlay s); [|by destruct (is_other_space s && _)].
    destruct (get_contain s) as [c|]; [|done]. simpl. destruct (set_flags_shortcuts m1 c OVERLAYBASE) as [E3 E4].
    split; [congruence|]. intros x. by rewrite E4. }
  destruct (space_type s); try apply Hspecial.
  - case_bool_decide; simpl; [|done]. by destruct (space_index s =? CONSTANT_SPACE_INDEX).
  - by apply Hover.
  - rewrite bool_decide_true by done. simpl. case_bool_decide; [|by apply Hover].
    unfold sbind. destruct (stackspace m); [done|]. simpl. by apply Hover.
Qed.

Lemma resize_lookup l n i : mjoin (resize_to l n !! i) = mjoin (l !! i).
Proof.
  unfold resize_to. case_decide; [|done]. destruct (decide (i < length l)%nat).
  - by rewrite lookup_app_l.
  - rewrite lookup_app_r by lia. rewrite (lookup_ge_None_2 l i) by lia.
    destruct (replicate _ None !! _) as [x|] eqn:E; [|done]. by apply lookup_replicate in E as [-> _].
Qed.

Lemma resize_length l n : (n <= length (resize_to l n))%nat.
Proof. unfold resize_to. case_decide; [rewrite length_app, length_replicate; lia|lia]. Qed.

(** The tables of a manager after the slot list has grown. *)
Lemma resize_registry m n : registry m ->
  registry (with_tables m (resize_to (baselist m) n) (name2space m) (shortcut2space m)).
Proof.
  intros [Hs Hn]. split; simpl.
  - intros i r H. apply Hs. pose proof (resize_lookup (baselist m) n i) as E. rewrite H in E. simpl in E.
    destruct (baselist m !! i) as [x|]; simpl in E; congruence.
  - intros nm r H. destruct (Hn nm r H) as (? & ? & E). split; [done|]. split; [done|].
    unfold deref in *. simpl. unfold resize_to. case_decide; [|done]. by apply lookup_app_l_Some.
Qed.

Lemma register_registry m r slot : registry m -> (r < length (spaces m))%nat ->
  space_index (deref m r) = Z.of_nat slot -> baselist m !! slot = Some None ->
  name2space m !! name (deref m r) = None ->
  registry (with_tables m (<[slot := Some r]> (baselist m)) (<[name (deref m r) := r]> (name2space m)) (shortcut2space m)).
Proof.
  intros [Hs Hn] Hr Hi Hb Hname. pose proof (lookup_lt_Some _ _ _ Hb) as Hl. split; simpl.
  - intros i x H. change (deref (with_tables _ _ _ _) x) with (deref m x). destruct (decide (i = slot)) as [->|Hne].
    + rewrite list_lookup_insert_eq in H by done. injection H as <-. by rewrite lookup_insert_eq.
    + rewrite list_lookup_insert_ne in H by done. destruct (Hs i x H) as (? & ? & ?).
      split_and!; [done..|]. rewrite lookup_insert_ne; [done|congruence].
  - intros nm x H. change (deref (with_tables _ _ _ _) x) with (deref m x). destruct (decide (nm = name (deref m r))) as [->|Hne].
    + rewrite lookup_insert_eq in H. injection H as <-. rewrite Hi, Nat2Z.id. split_and!; [done|lia|].
      by apply list_lookup_insert_eq.
    + rewrite lookup_insert_ne in H by done. destruct (Hn nm x H) as (? & ? & E). split_and!; [done..|].
      rewrite list_lookup_insert_ne; [done|]. intros Es. rewrite Es in Hb. congruence.
Qed.

(** What [insert_space] asks of a space. *)
Definition accepted (m : Manager) (s : AddrSpace) : Prop :=
  type_ok m s /\ 0 <= space_index s /\ get_space m (space_index s) = None /\ get_space_by_name m (name s) = None.

(** Where the lookups of [m'] differ from those of [m]: only at [r], and only
    when it was registered. *)
Definition registered_at (m m' : Manager) (o : outcome unit) (r : nat) : Prop :=
  let s := deref m r in
  (forall i, get_space m' i = if is_ok o && (i =? space_index s) then Some r else get_space m i) /\
  (forall nm, get_space_by_name m' nm =
     if is_ok o && bool_decide (nm = name s) then Some r else get_space_by_name m nm).

Lemma get_space_same m m' i : same_tables m m' -> get_space m' i = get_space m i.
Proof. intros (_ & _ & B & _). unfold get_space. by rewrite B. Qed.

Lemma get_space_insert m b n s slot r i : (slot < length b)%nat ->
  get_space (with_tables m (<[slot := Some r]> b) n s) i =
  if i =? Z.of_nat slot then Some r else get_space (with_tables m b n s) i.
Proof.
  intros Hl. unfold get_space. simpl. destruct (Z.ltb_spec i 0); destruct (Z.eqb_spec i (Z.of_nat slot)); try lia; [done| |].
  - subst. rewrite Nat2Z.id. by rewrite list_lookup_insert_eq.
  - rewrite list_lookup_insert_ne by lia. done.
Qed.

Lemma register_slot_spec m r m' o : registry m -> (r < length (spaces m))%nat -> register_slot r m = (m', o) ->
  let s := deref m r in
  registry m' /\ length (spaces m') = length (spaces m) /\ registered_at m m' o r /\
  settles o (0 <= space_index s /\ get_space m (space_index s) = None /\ get_space_by_name m (name s) = None).
Proof.
  intros Hreg Hr. unfold register_slot. rewrite sbind_get. cbv zeta. set (s := deref m r).
  destruct (Z.ltb_spec (space_index s) 0) as [Hneg|Hpos].
  { intros H; srun. split_and!; [done..|]. right. split; [by eexists|]. lia. }
  rewrite sbind_modify, sbind_get. cbv zeta. set (slot := Z.to_nat (space_index s)).
  set (m1 := with_tables m (resize_to (baselist m) (S slot)) (name2space m) (shortcut2space m)).
  assert (Hreg1 : registry m1) by by apply resize_registry.
  assert (Hget : forall i, get_space m1 i = get_space m i).
  { intros i. unfold get_space. destruct (i <? 0); [done|]. apply resize_lookup. }
  assert (Hslot : get_space m (space_index s) = mjoin (baselist m1 !! slot)).
  { rewrite <- Hget. unfold get_space. destruct (Z.ltb_spec (space_index s) 0); [lia|done]. }
  destruct (baselist m1 !! slot) as [[existing|]|] eqn:Eb; simpl in Hslot.
  - intros H; srun. split_and!; [done|done|by split|]. right. split; [by eexists|]. rewrite Hslot. by intros (_ & ? & _).
  - change (name2space m1) with (name2space m). unfold get_space_by_name.
    destruct (name2space m !! name s) eqn:En.
    { intros H; srun. split_and!; [done|done|by split|]. right. split; [by eexists|]. by intros (_ & _ & ?). }
    rewrite sbind_modify. set (m2 := with_tables m1 _ _ _). intros H.
    destruct (assign_shortcut_spec m2 r Hr) as (m3 & E & Hs & _). rewrite E in H. injection H as <- <-.
    split; [|split; [apply Hs|split; [|by left]]].
    + eapply registry_same; [exact Hs|]. apply register_registry; [done..| |done|done].
      change (deref m1 r) with s. unfold slot. lia.
    + split.
      * intros i. rewrite (get_space_same _ _ _ Hs). unfold m2. rewrite get_space_insert by (by eapply lookup_lt_Some).
        change (get_space (with_tables m1 _ _ _) i) with (get_space m1 i). rewrite Hget. simpl. unfold slot. fold s.
        by rewrite Z2Nat.id by lia.
      * intros nm. unfold get_space_by_name. destruct Hs as (_ & _ & _ & ->). simpl.
        case_bool_decide as D; [subst; by rewrite lookup_insert_eq|by rewrite lookup_insert_ne].
  - apply lookup_ge_None in Eb. pose proof (resize_length (baselist m) (S slot)). simpl in Eb. lia.
Qed.

Lemma insert_space_spec m r m' o : registry m -> (r < length (spaces m))%nat -> insert_space r m = (m', o) ->
  registry m' /\ length (spaces m') = length (spaces m) /\ registered_at m m' o r /\ settles o (accepted m (deref m r)).
Proof.
  intros Hreg Hr. unfold insert_space, sbind. destruct (check_type r m) as [m1 o1] eqn:E1.
  destruct (check_type_spec _ _ _ _ E1) as [Hs Ht]. pose proof (registry_same _ _ Hs Hreg) as Hreg1.
  pose proof Hs as (L & I & B & N). destruct (identity_fields _ _ (I r)) as (_ & _ & En & Ei).
  unfold accepted. destruct Ht as [[-> Ht]|[[e ->] Ht]].
  - intros H. destruct (register_slot_spec m1 r m' o Hreg1 ltac:(lia) H) as (Hreg' & L' & [Ha1 Ha2] & Hset).
    split; [done|]. split; [lia|]. unfold settles in *.
    assert (Hn : forall nm, get_space_by_name m1 nm = get_space_by_name m nm) by (unfold get_space_by_name; by rewrite N).
    rewrite En, Ei, Hn, (get_space_same _ _ _ Hs) in Hset. split.
    + split; [intros i|intros nm]; [rewrite Ha1, Ei|rewrite Ha2, En, Hn]; [by rewrite (get_space_same _ _ _ Hs)|done].
    + destruct Hset as [[-> ?]|[? Hset]]; [by left|]. right. split; [done|]. by intros [_ ?].
  - intros H. simplify_eq. split; [done|]. split; [done|]. split.
    + split; [intros i; apply get_space_same|intros nm; unfold get_space_by_name; rewrite N]; done.
    + right. split; [by eexists|]. by intros [? _].
Qed.

Lemma insert_space_shortcuts m r m' : (r < length (spaces m))%nat -> insert_space r m = (m', Ok tt) ->
  exists m2, same_shortcuts m m2 /\ (r < length (spaces m2))%nat /\ assign_shortcut r m2 = (m', Ok tt).
Proof.
  intros Hr (m1 & [] & E1 & E2)%sbind_inv. pose proof (check_type_shortcuts m r) as Hsc. rewrite E1 in Hsc.
  destruct (check_type_spec _ _ _ _ E1) as [(L & _) _].
  unfold register_slot in E2. rewrite sbind_get in E2. cbv zeta in E2.
  destruct (_ <? 0); [done|]. rewrite sbind_modify, sbind_get in E2. cbv zeta in E2.
  destruct (baselist _ !! _) as [[]|]; [done| |done]. destruct (name2space _ !! _); [done|].
  rewrite sbind_modify in E2. eexists. split; [|split; [|exact E2]]; [done|simpl; lia].
Qed.

(** The slot of a special space is set before the duplicate checks: a second
    constant space is refused because its index is taken, and has by then
    replaced the first one as the manager's constant space. *)
Lemma failed_insert_sets_constant m r existing : space_type (deref m r) = Constant -> name (deref m r) = CONSTANT_SPACE_NAME ->
  space_index (deref m r) = CONSTANT_SPACE_INDEX -> get_space m 0 = Some existing ->
  exists m' e, insert_space r m = (m', Err e) /\ constantspace m' = Some r /\ get_space m' 0 = Some existing.
Proof.
  intros Ht Hn Hi Hg. unfold insert_space, check_type, sbind at 1. rewrite sbind_get. cbv zeta. rewrite Ht, Hn, Hi.
  rewrite bool_decide_eq_true_2 by done. cbn [negb Z.eqb CONSTANT_SPACE_INDEX smodify].
  unfold register_slot. rewrite sbind_get. cbv zeta. change (deref (with_special m Constant r) r) with (deref m r). rewrite Hi.
  cbn [Z.ltb Z.compare CONSTANT_SPACE_INDEX]. rewrite sbind_modify, sbind_get. cbv zeta.
  assert (E : baselist m !! 0%nat = Some (Some existing)).
  { unfold get_space in Hg. change (0 <? 0) with false in Hg. cbv iota in Hg. change (Z.to_nat 0) with 0%nat in Hg.
    by destruct (baselist m !! 0%nat) as [[x|]|]; inversion Hg. }
  assert (El : resize_to (baselist m) 1 = baselist m).
  { unfold resize_to. apply lookup_lt_Some in E. by rewrite decide_False by lia. }
  change (Z.to_nat CONSTANT_SPACE_INDEX) with 0%nat. change (baselist (with_special m Constant r)) with (baselist m). rewrite El.
  cbn [baselist with_tables]. rewrite E. do 2 eexists. split; [done|]. split; [done|].
  exact Hg.
Qed.

(** C30: registering a space keeps the tables in step.  It succeeds exactly when
    the space has the name and place its type asks for and neither its index
    nor its name is in use, and otherwise returns an error; afterwards the space
    is found by its index and by its name, and every other index and name is looked
    up as before, also after an error (the slots of the special spaces may have
    changed by then: see [failed_insert_sets_constant]).  No shortcut changes its owner, and a space without
    one gets one of its own as long as a letter is free. *)
Theorem insert_space_correct m r m' o : registry m -> (r < length (spaces m))%nat -> insert_space r m = (m', o) ->
  registry m' /\ registered_at m m' o r /\ settles o (accepted m (deref m r)) /\
  (o = Ok tt ->
   (forall k x, shortcut2space m !! k = Some x -> shortcut2space m' !! k = Some x) /\
   (shortcut (deref m r) = 0x20 -> (exists k, 0x61 <= k <= 0x7a /\ shortcut2space m !! k = None) ->
    get_space_by_shortcut m' (shortcut (deref m' r)) = Some r)).
Proof.
  intros Hreg Hr H. destruct (insert_space_spec m r m' o Hreg Hr H) as (? & _ & ? & ?). split_and!; [done..|].
  intros ->. destruct (insert_space_shortcuts m r m' Hr H) as (m2 & [S1 S2] & Hr2 & E).
  destruct (assign_shortcut_spec m2 r Hr2) as (m3 & E' & _ & Hsc). rewrite E in E'. injection E' as <-.
  rewrite S1, S2 in Hsc. destruct (Z.eqb_spec (shortcut (deref m r)) 0x20) as [E0|E0].
  - destruct Hsc as [(k & Hk & Hfree & Et & ->)|(-> & _ & Hall)].
    + split; [intros k' x Hx; rewrite Et, lookup_insert_ne; [done|congruence]|]. intros _ _.
      unfold get_space_by_shortcut, shortcut_key. pose proof (uw_range 8 k ltac:(lia)) as Hb. unfold is_u in Hb.
      destruct (Z.ltb_spec (uw 8 k) 0x100); [|lia]. rewrite uw_idem, sw_uw by lia.
      rewrite sw_small by (unfold is_s; lia). rewrite Et. apply lookup_insert_eq.
    + split; [done|]. intros _ (k & Hk & Hf). destruct (Hall k Hk). congruence.
  - split; [|done]. intros k x Hx. rewrite Hsc, Hx. by case_decide.
Qed.

(** *** Every operation keeps the registry *)

Inductive manager_op : Type :=
  | Insert (r : nat)
  | DefaultCode (index : Z)
  | DefaultData (index : Z)
  | ReverseJustified (r : nat)
  | NearPointers (r : nat) (size : Z)
  | NoHighPtr (r : nat) (first last : Z)
  | PtrBounds (r : nat) (first last : Z)
  | Truncate (nm : string) (size : Z)
  | Copy (op2 : Manager).

Definition run_op (op : manager_op) : stm Manager unit :=
  match op with
  | Insert r => insert_space r
  | DefaultCode index => set_default_code_space index
  | DefaultData index => set_default_data_space index
  | ReverseJustified r => set_reverse_justified r
  | NearPointers r size => mark_near_pointers r size
  | NoHighPtr r first last => add_no_high_ptr r first last
  | PtrBounds r first last => set_infer_ptr_bounds r first last
  | Truncate nm size => manager_truncate_space nm size
  | Copy op2 => copy_spaces op2
  end.

(** The references an operation registers are references of the store. *)
Definition refs_ok (n : nat) (op : manager_op) : Prop :=
  match op with
  | Insert r => (r < n)%nat
  | Copy op2 => forall r, Some r ∈ baselist op2 -> (r < n)%nat
  | _ => True
  end.

(** A computation that keeps the registry and the number of spaces, and returns. *)
Definition keeps (n : nat) (p : stm Manager unit) : Prop := forall m, registry m -> length (spaces m) = n ->
  registry (p m).1 /\ length (spaces (p m).1) = n /\ ((p m).2 = Ok tt \/ exists e, (p m).2 = Err e).

Lemma keeps_bind n p q : keeps n p -> keeps n q -> keeps n (p ;;! q).
Proof.
  intros Hp Hq m Hreg Hn. unfold sbind. destruct (Hp m Hreg Hn) as (H1 & H2 & H3).
  destruct (p m) as [m1 [[]|e| |]]; simpl in *; [by apply Hq|eauto|naive_solver..].
Qed.

Lemma keeps_get n f : (forall m, keeps n (f m)) -> keeps n (do! m <- sget ;; f m).
Proof. intros Hf m. rewrite sbind_get. apply Hf. Qed.

Lemma keeps_ret n : keeps n (sret tt).
Proof. intros m. simpl. auto. Qed.

Lemma keeps_err n e : keeps n (serr e).
Proof. intros m. simpl. eauto. Qed.

Lemma keeps_same n f : (forall m, same_tables m (f m)) -> keeps n (smodify f).
Proof.
  intros Hf m Hreg Hn. simpl. split; [by apply (registry_same m)|]. destruct (Hf m) as (L & _). split; [lia|by left].
Qed.

Lemma keeps_insert n r : (r < n)%nat -> keeps n (insert_space r).
Proof.
  intros Hr m Hreg Hn. destruct (insert_space r m) as [m' o] eqn:E.
  destruct (insert_space_spec m r m' o Hreg ltac:(lia) E) as (H1 & L & _ & Hset). split; [done|]. split; [simpl; lia|].
  destruct Hset as [[? _]|[? _]]; auto.
Qed.

#[local] Hint Resolve keeps_bind keeps_get keeps_ret keeps_err keeps_same keeps_insert update_same : core.
#[local] Hint Extern 1 (same_tables _ _) => by repeat split : core.
#[local] Hint Extern 1 (identity _ = identity _) => reflexivity : core.

Lemma keeps_code n i : keeps n (set_default_code_space i).
Proof. apply keeps_get. intros m. destruct (defaultcodespace m); [auto|]. destruct (get_space m i); auto. Qed.

Lemma keeps_data n i : keeps n (set_default_data_space i).
Proof. apply keeps_get. intros m. destruct (defaultcodespace m); [|auto]. destruct (get_space m i); auto. Qed.

Lemma keeps_copy n rs : (forall r, r ∈ rs -> (r < n)%nat) -> keeps n (copy_each rs).
Proof.
  induction rs as [|r rs IH]; intros Hrs; simpl; [auto|]. apply keeps_bind; [apply keeps_insert|apply IH; intros; apply Hrs];
    set_solver.
Qed.

Lemma run_op_keeps n op : refs_ok n op -> keeps n (run_op op).
Proof.
  destruct op; simpl; intros Hop; auto using keeps_code, keeps_data.
  - unfold set_reverse_justified. auto.
  - apply keeps_bind; [auto|]. apply keeps_get. intros m. destruct (_ && _); auto.
  - apply keeps_get. intros m. destruct (negb _); [auto|]. apply keeps_bind; [destruct (negb _); auto|].
    apply keeps_bind; [auto|]. apply keeps_get. intros m2. destruct (in_range_range _ _); auto.
  - unfold set_infer_ptr_bounds. auto.
  - apply keeps_get. intros m. destruct (get_space_by_name m nm); auto.
  - apply keeps_bind.
    + apply keeps_copy. intros r ([x|] & Hx & E)%list_elem_of_omap; simpl in E; simplify_eq. auto.
    + apply keeps_get. intros m. apply keeps_bind; auto using keeps_code, keeps_data.
Qed.

(** The state after a sequence of operations, some of which may have failed. *)
Definition run_ops (ops : list manager_op) (m : Manager) : Manager := fold_left (fun m op => (run_op op m).1) ops m.

Lemma run_ops_registry ops : forall m, registry m -> (forall op, op ∈ ops -> refs_ok (length (spaces m)) op) ->
  registry (run_ops ops m) /\ length (spaces (run_ops ops m)) = length (spaces m).
Proof.
  induction ops as [|op ops IH]; intros m Hreg Hops; simpl; [done|].
  destruct (run_op_keeps (length (spaces m)) op ltac:(set_solver) m Hreg eq_refl) as (H1 & H2 & _).
  rewrite <- H2. apply IH; [done|]. intros op' Hop'. rewrite H2. set_solver.
Qed.

Lemma empty_registry h : registry (manager_new h).
Proof. split; simpl; [intros i r H|intros nm r H]; [by rewrite lookup_nil in H|by rewrite lookup_empty in H]. Qed.

(** In every manager built by any sequence of operations, failed ones
    included, lookup by index and lookup by name agree: what is found at an
    index has that index and is what its name finds, and what is found under a
    name has that name and is what its index finds. *)
Theorem manager_lookups_agree h ops r : (forall op, op ∈ ops -> refs_ok (length h) op) ->
  let m := run_ops ops (manager_new h) in
  (forall i, get_space m i = Some r -> space_index (deref m r) = i /\ get_space_by_name m (name (deref m r)) = Some r) /\
  (forall nm, get_space_by_name m nm = Some r -> name (deref m r) = nm /\ get_space m (space_index (deref m r)) = Some r).
Proof.
  intros Hops m. destruct (run_ops_registry ops (manager_new h) (empty_registry h) Hops) as [[Hs Hn] _]. fold m in Hs, Hn.
  split.
  - intros i Hi. unfold get_space in Hi. destruct (Z.ltb_spec i 0); [done|].
    destruct (baselist m !! Z.to_nat i) as [[x|]|] eqn:E; simpl in Hi; simplify_eq.
    destruct (Hs _ _ E) as (_ & -> & ?). split; [lia|done].
  - intros nm Hnm. destruct (Hn nm r Hnm) as (-> & Hp & E). split; [done|]. unfold get_space.
    destruct (Z.ltb_spec (space_index (deref m r)) 0); [lia|]. by rewrite E.
Qed.

(** *** Pointers *)

Lemma land_all_none fl : Z.land fl ADDRESSABLE_ALL = 0 -> Z.land fl ADDRESSABLE_NONE = 0 ->
  Z.land fl (Z.lor ADDRESSABLE_ALL ADDRESSABLE_NONE) = 0.
Proof. intros H1 H2. by rewrite Z.land_lor_distr_r, H1, H2. Qed.

(** An address of a space in which no pointer can go anywhere. *)
Lemma none_impossible m s off size : Z.land (flags s) ADDRESSABLE_NONE <> 0 ->
  high_ptr_possible m (address_new s off) size = false.
Proof.
  intros Hn. unfold high_ptr_possible. cbn [space address_new].
  rewrite Z.land_lor_distr_r.
  assert (Hlt : forall z, Z.land z ADDRESSABLE_NONE <> 0 ->
    Z.lor (Z.land z ADDRESSABLE_ALL) (Z.land z ADDRESSABLE_NONE) <> 0 /\
    Z.lor (Z.land z ADDRESSABLE_ALL) (Z.land z ADDRESSABLE_NONE) <> ADDRESSABLE_ALL).
  { intros z Hz. assert (Hb : Z.testbit z 14 = true).
    { destruct (Z.testbit z 14) eqn:E; [done|]. destruct Hz. apply Z.bits_inj'. intros i Hi.
      rewrite Z.land_spec, Z.bits_0. destruct (Z.eq_dec i 14) as [->|]; [by rewrite E|].
      change ADDRESSABLE_NONE with (2 ^ 14). by rewrite Z.pow2_bits_false, andb_false_r by done. }
    split; intros E; apply (f_equal (fun x => Z.testbit x 14)) in E;
      rewrite Z.lor_spec, !Z.land_spec, Hb in E; done. }
  destruct (Hlt _ Hn) as [E1 E2]. destruct (Z.eqb_spec (Z.lor (Z.land (flags s) ADDRESSABLE_ALL) (Z.land (flags s) ADDRESSABLE_NONE)) 0); [done|].
  simpl. by apply Z.eqb_neq.
Qed.

Lemma clear_all_land s : Z.land (flags (clear_flags s ADDRESSABLE_ALL)) ADDRESSABLE_ALL = 0.
Proof.
  simpl. rewrite <- Z.land_assoc. change (Z.land (u32 (Z.lnot ADDRESSABLE_ALL)) ADDRESSABLE_ALL) with 0. apply Z.land_0_r.
Qed.

Lemma clear_all_none s : Z.land (flags s) ADDRESSABLE_NONE = 0 ->
  Z.land (flags (clear_flags s ADDRESSABLE_ALL)) ADDRESSABLE_NONE = 0.
Proof.
  intros H. simpl. rewrite <- Z.land_assoc.
  by change (Z.land (u32 (Z.lnot ADDRESSABLE_ALL)) ADDRESSABLE_NONE) with ADDRESSABLE_NONE.
Qed.

(** The space after [ADDRESSABLE_ALL] was cleared if it was set. *)
Definition ranged (s : AddrSpace) : AddrSpace :=
  if negb (Z.land (flags s) ADDRESSABLE_ALL =? 0) then clear_flags s ADDRESSABLE_ALL else s.

Lemma ranged_spec s : Z.land (flags s) ADDRESSABLE_NONE = 0 ->
  Z.land (flags (ranged s)) (Z.lor ADDRESSABLE_ALL ADDRESSABLE_NONE) = 0 /\
  space_index (ranged s) = space_index s /\ highest (ranged s) = highest s.
Proof.
  intros Hn. unfold ranged. destruct (Z.eqb_spec (Z.land (flags s) ADDRESSABLE_ALL) 0); simpl; (split; [|done]);
    apply land_all_none; [done|done|apply clear_all_land|by apply clear_all_none].
Qed.

Lemma add_no_high_ptr_run m r f t : (r < length (spaces m))%nat -> Z.land (flags (deref m r)) ADDRESSABLE_NONE = 0 ->
  let s := ranged (deref m r) in
  let l := insert_range (nohighptr m) s f t in
  exists m', add_no_high_ptr r f t m = (m', Ok tt) /\ nohighptr m' = l /\
    deref m' r = if in_range_range l (mk_Range s 0 (highest s)) then set_flags s ADDRESSABLE_NONE else s.
Proof.
  intros Hr Hn s l. unfold add_no_high_ptr. rewrite sbind_get. cbv zeta. rewrite Hn. cbn [Z.eqb negb].
  set (m1 := if negb (Z.land (flags (deref m r)) ADDRESSABLE_ALL =? 0)
             then update_space m r (fun s => clear_flags s ADDRESSABLE_ALL) else m).
  rewrite (sbind_ok _ _ m m1 tt) by (unfold m1; by destruct (negb _)).
  assert (Hr1 : (r < length (spaces m1))%nat) by (unfold m1; destruct (negb _); [by rewrite <- (proj1 (update_same m r (fun s => clear_flags s ADDRESSABLE_ALL) ltac:(done))) in Hr|done]).
  assert (Hd : deref m1 r = s).
  { unfold m1, s, ranged. destruct (negb _); [|done]. rewrite deref_update by done. by rewrite decide_True. }
  assert (Hnh : nohighptr m1 = nohighptr m) by (unfold m1; by destruct (negb _)).
  rewrite sbind_modify, sbind_get. cbn [nohighptr with_nohighptr].
  change (deref (with_nohighptr m1 ?l0) r) with (deref m1 r). rewrite Hd, Hnh. fold l.
  destruct (in_range_range l _); (eexists; split; [reflexivity|]; split; [done|]); [|exact Hd].
  rewrite deref_update by done. rewrite decide_True by done. by rewrite <- Hd.
Qed.

Lemma ranged_possible m s off size : Z.land (flags s) (Z.lor ADDRESSABLE_ALL ADDRESSABLE_NONE) = 0 ->
  high_ptr_possible m (address_new s off) size = negb (in_range (nohighptr m) (address_new s off) (u64 size)).
Proof. intros H. unfold high_ptr_possible. cbn [space address_new]. by rewrite H. Qed.

Lemma set_none_land s : Z.land (flags (set_flags s ADDRESSABLE_NONE)) ADDRESSABLE_NONE <> 0.
Proof. simpl. rewrite Z.land_lor_distr_l, Z.lor_eq_0_iff. by intros [_ ?]. Qed.

(** A range marked as unreachable by pointers is: nothing inside it can be
    pointed to any more.  Every other byte of the space that was not marked
    before can still be pointed to, unless the whole space was already
    unreachable. *)
Theorem no_high_ptr_correct m r f t off size :
  (r < length (spaces m))%nat -> wf (nohighptr m) -> 0 <= f <= t -> t < 2 ^ 64 -> 0 <= off -> 1 <= size < 2 ^ 31 ->
  exists m', add_no_high_ptr r f t m = (m', Ok tt) /\ wf (nohighptr m') /\
    (f <= off -> off + size - 1 <= t -> high_ptr_possible m' (address_new (deref m' r) off) size = false) /\
    (Z.land (flags (deref m r)) ADDRESSABLE_NONE = 0 -> off <= highest (deref m r) < 2 ^ 64 ->
     ~ covers (nohighptr m) (space_index (deref m r)) off -> ~ (f <= off <= t) ->
     high_ptr_possible m' (address_new (deref m' r) off) 1 = true).
Proof.
  intros Hr Hwf Hft Ht Hoff Hsize. destruct (Z.eq_dec (Z.land (flags (deref m r)) ADDRESSABLE_NONE) 0) as [Hn|Hn].
  2: { exists m. split; [unfold add_no_high_ptr; rewrite sbind_get; cbv zeta|].
       - by rewrite (proj2 (Z.eqb_neq _ _) Hn).
       - split; [done|]. split; [|done]. intros _ _. by apply none_impossible. }
  destruct (ranged_spec (deref m r) Hn) as (Hfl & Hi & Hh).
  destruct (add_no_high_ptr_run m r f t Hr Hn) as (m' & -> & El & Ed). exists m'. split; [done|].
  set (s := ranged (deref m r)) in *. rewrite El. assert (Hwf' := insert_range_wf (nohighptr m) s f t Hwf Hft Ht).
  pose proof (fun i o => insert_range_covers (nohighptr m) s f t i o Hwf Hft Ht) as Hcov. split; [done|].
  set (l := insert_range (nohighptr m) s f t) in *. rewrite Ed, Hi in *.
  destruct (in_range_range l (mk_Range s 0 (highest s))) eqn:Ew.
  - split; [intros _ _; apply none_impossible, set_none_land|]. intros _ Ho Hc Hr'. exfalso.
    apply in_range_range_spec in Ew as (x & Hx & Ex & Hx1 & Hx2); [|done|simpl; lia]. simpl in *.
    destruct (proj1 (Hcov (space_index (deref m r)) off)) as [?|[_ ?]]; [|done|done].
    exists x. split_and!; [done|congruence|lia..].
  - rewrite !ranged_possible, El by done. split.
    + intros H1 H2. rewrite u64_small by lia. apply negb_false_iff, in_range_spec; [done|lia..|].
      destruct (insert_range_entries (nohighptr m) s f t Hwf Hft Ht) as (f' & t' & Hf' & Ht' & _ & _ & _ & Hm & _).
      exists (mk_Range s f' t'). split; [apply Hm; by left|]. split; [done|]. simpl. lia.
    + intros _ Ho Hc Hr'. apply negb_true_iff. destruct (in_range l (address_new s off) (u64 1)) eqn:Ein; [|done].
      exfalso. change (u64 1) with 1 in Ein. apply in_range_spec in Ein as (x & Hx & Ex & Hx1 & Hx2); [|done|lia..].
      destruct (proj1 (Hcov (space_index (deref m r)) off)) as [?|[_ ?]]; [|done|done].
      exists x. split_and!; [done|congruence|lia..].
Qed.

(** ** Examples *)

(** A store with the constant space, a memory, and two spaces that cannot be
    registered beside them. *)
Definition sample_store : list AddrSpace :=
  [new_constant; new_processor "ram" false 8 1 2 0 1 1; new_processor "rom" false 8 1 2 0 1 1;
   new_processor "register" false 4 1 3 0 0 0].

Definition sample_ops : list manager_op := [Insert 0; Insert 1; Insert 2; DefaultCode 2; Insert 3; NoHighPtr 1 0x100 0x1ff].

Definition sample_manager : Manager := run_ops [Insert 0; Insert 1] (manager_new sample_store).

Lemma sample_registry : registry sample_manager /\ length (spaces sample_manager) = 4%nat.
Proof.
  apply run_ops_registry; [apply empty_registry|]. intros op Hop. simpl.
  rewrite !elem_of_cons, elem_of_nil in Hop. destruct Hop as [->|[->|[]]]; simpl; lia.
Qed.

Lemma insert_space_correct_witness :
  (insert_space 2 sample_manager).2 = Err (Lowlevel "Space rom was assigned id duplicating: ram") /\
  get_space_by_shortcut (insert_space 3 sample_manager).1 0x25 = Some 3%nat.
Proof.
  split; [vm_compute; reflexivity|]. destruct sample_registry as [Hreg Hl].
  destruct (insert_space_correct sample_manager 3 (insert_space 3 sample_manager).1 (Ok tt)) as (_ & _ & _ & H).
  - exact Hreg.
  - rewrite Hl. lia.
  - rewrite (surjective_pairing (insert_space 3 sample_manager)) at 1. f_equal.
  - destruct (H eq_refl) as [_ Hs].
    assert (shortcut (deref (insert_space 3 sample_manager).1 3) = 0x25) as E by (vm_compute; reflexivity).
    rewrite <- E. apply Hs; [vm_compute; reflexivity|]. exists 0x61. split; [lia|vm_compute; reflexivity].
Defined.

Lemma manager_lookups_agree_witness :
  let m := run_ops sample_ops (manager_new sample_store) in
  get_space_by_name m "register" = Some 3%nat /\ get_space m 3 = Some 3%nat /\ get_space_by_name m "rom" = None.
Proof.
  split; [vm_compute; reflexivity|]. split; [|vm_compute; reflexivity].
  destruct (manager_lookups_agree sample_store sample_ops 3) as [_ H].
  - intros op Hop. unfold sample_ops in Hop. rewrite !elem_of_cons, elem_of_nil in Hop.
    destruct Hop as [->|[->|[->|[->|[->|[->|[]]]]]]]; simpl; lia || done.
  - destruct (H "register"%string) as [_ E]; [vm_compute; reflexivity|].
    assert (space_index (deref (run_ops sample_ops (manager_new sample_store)) 3) = 3) as Ei by (vm_compute; reflexivity).
    rewrite Ei in E. exact E.
Defined.

Lemma no_high_ptr_correct_witness :
  let m' := (add_no_high_ptr 1 0x100 0x1ff sample_manager).1 in
  high_ptr_possible m' (address_new (deref m' 1) 0x180) 4 = false /\
  high_ptr_possible m' (address_new (deref m' 1) 0x200) 1 = true.
Proof.
  destruct sample_registry as [_ Hl].
  assert (Hw : wf (nohighptr sample_manager)) by (replace (nohighptr sample_manager) with (@nil Range) by (vm_compute; reflexivity); apply wf_nil).
  split.
  - destruct (no_high_ptr_correct sample_manager 1 0x100 0x1ff 0x180 4) as (m' & E & _ & H & _);
      [lia|exact Hw|lia..|]. rewrite E. apply H; lia.
  - destruct (no_high_ptr_correct sample_manager 1 0x100 0x1ff 0x200 1) as (m' & E & _ & _ & H);
      [lia|exact Hw|lia..|]. rewrite E. apply H; [vm_compute; reflexivity|vm_compute; split; congruence| |lia].
    intros (x & Hx & _). replace (nohighptr sample_manager) with (@nil Range) in Hx by (vm_compute; reflexivity).
    by apply elem_of_nil in Hx.
Defined.
