(* ===== verification/Join.v ===== *)
(** The locations of values split over several places: [VarnodeData] of
    [src/src/pcoderaw.rs], and [JoinRecord], [JoinTable] and the construction of
    joined addresses in [src/src/translate.rs].  The join space is held by a weak
    reference that is taken to be alive.  The names of registers come from the
    translator, here the arguments [register_name] and [exact_register_name]. *)
From stdpp Require Import base list gmap numbers strings sorting.
From Stdlib Require Import ZArith Lia.
From S2P Require Import Prelude Bits BTree Space Address RangeList Manager.

(** ** Definitions *)

(** *** Places *)

Record VarnodeData : Type := mk_VarnodeData { vspace : option AddrSpace; voffset : Z; vsize : Z }.

Definition space_key (spc : option AddrSpace) : option Z := space_index <$> spc.

(** What [PartialEq] compares. *)
Definition varnode_key (v : VarnodeData) : option Z * Z * Z := (space_key (vspace v), voffset v, vsize v).

Definition varnode_eq (a b : VarnodeData) : bool := bool_decide (varnode_key a = varnode_key b).

Definition option_cmp (a b : option Z) : comparison :=
  match a, b with
  | None, None => Eq
  | None, Some _ => Lt
  | Some _, None => Gt
  | Some x, Some y => Z.compare x y
  end.

Definition varnode_cmp (a b : VarnodeData) : comparison :=
  cmp_then (cmp_then (option_cmp (space_key (vspace a)) (space_key (vspace b))) (Z.compare (voffset a) (voffset b)))
    (Z.compare (vsize b) (vsize a)).

Definition varnode_addr (v : VarnodeData) : Address := from_parts (vspace v) (voffset v).

Definition get_space_from_const (v : VarnodeData) (m : Manager) : option nat :=
  if voffset v >? 2 ^ 31 - 1 then None else get_space m (i32 (voffset v)).

Definition varnode_contains (v op2 : VarnodeData) : bool :=
  if negb (bool_decide (space_key (vspace v) = space_key (vspace op2))) then false
  else if voffset op2 <? voffset v then false
  else
    let self_end := u64 (voffset v + u64 (vsize v - 1)) in
    let op2_end := u64 (voffset op2 + u64 (vsize op2 - 1)) in
    if self_end <? op2_end then false else true.

Definition varnode_contiguous (v lo : VarnodeData) : bool :=
  if negb (bool_decide (space_key (vspace v) = space_key (vspace lo))) then false
  else
    match vspace v with
    | None => false
    | Some spc =>
        if is_big_endian spc then wrap_offset spc (u64 (voffset v + vsize v)) =? voffset lo
        else wrap_offset spc (u64 (voffset lo + vsize lo)) =? voffset v
    end.

(** *** Records *)

Record JoinRecord : Type := mk_JoinRecord {
  pieces : list VarnodeData;
  unified_space : option AddrSpace;
  unified_offset : Z;
  unified_size : Z;
}.

Definition num_pieces (rec : JoinRecord) : Z := i32 (Z.of_nat (length (pieces rec))).

Definition is_float_extension (rec : JoinRecord) : bool := bool_decide (length (pieces rec) = 1%nat).

Definition get_piece (rec : JoinRecord) (ind : Z) : outcome VarnodeData := index (pieces rec) (Z.to_nat (u64 ind)).

Definition get_unified (rec : JoinRecord) : VarnodeData :=
  mk_VarnodeData (unified_space rec) (unified_offset rec) (unified_size rec).

(** Whether the first piece is in a big-endian space. *)
Definition record_big_endian (ps : list VarnodeData) : bool :=
  match ps with
  | v :: _ => match vspace v with Some spc => is_big_endian spc | None => false end
  | [] => false
  end.

(** The two loops of [get_equivalent_address]: over the pieces from the front
    with [step = 1] or from the back with [step = -1]; the piece that holds the
    byte with the position of the byte in it, and the place of the piece. *)
Fixpoint find_piece (ps : list VarnodeData) (small_off pos step : Z) : option (VarnodeData * Z) * Z :=
  match ps with
  | [] => (None, pos)
  | piece :: ps =>
      let piece_size := i32 (vsize piece) in
      if small_off <? piece_size then (Some (piece, small_off), pos)
      else find_piece ps (i32 (small_off - piece_size)) (i32 (pos + step)) step
  end.

Definition get_equivalent_address (rec : JoinRecord) (off : Z) : Address * Z :=
  if off <? unified_offset rec then (invalid, -1) else
  let small_off := i32 (u64 (off - unified_offset rec)) in
  let count := i32 (Z.of_nat (length (pieces rec))) in
  let '(found, pos) :=
    if record_big_endian (pieces rec) then find_piece (pieces rec) small_off 0 1
    else find_piece (rev (pieces rec)) small_off (i32 (count - 1)) (-1) in
  match found with
  | None => (invalid, pos)
  | Some (piece, small_off) => (from_parts (vspace piece) (u64 (voffset piece + u64 small_off)), pos)
  end.

(** *** Merging neighbouring places *)

Section Merge.
Variable exact_register_name : AddrSpace -> Z -> Z -> string.

Fixpoint some_contiguous (seq : list VarnodeData) : bool :=
  match seq with
  | hi :: (lo :: _) as rest => if varnode_contiguous hi lo then true else some_contiguous rest
  | _ => false
  end.

(** [hi] extended by its neighbour [lo]. *)
Definition extend (hi lo : VarnodeData) : VarnodeData :=
  let big_endian := match vspace hi with Some spc => is_big_endian spc | None => false end in
  mk_VarnodeData (vspace hi) (if big_endian then voffset hi else voffset lo) (u32 (vsize hi + vsize lo)).

(** The loop: [res] is the result so far without its last entry, which is [hi]. *)
Fixpoint merge_loop (res : list VarnodeData) (hi : VarnodeData) (last_is_informal : bool) (seq : list VarnodeData) :
    list VarnodeData * bool :=
  match seq with
  | [] => (res ++ [hi], last_is_informal)
  | lo :: seq =>
      if varnode_contiguous hi lo then
        let hi' := extend hi lo in
        let last_is_informal :=
          match vspace hi' with
          | Some spc =>
              if bool_decide (space_type spc = Spacebase) then last_is_informal
              else bool_decide (exact_register_name spc (voffset hi') (i32 (vsize hi')) = ""%string)
          | None => last_is_informal
          end in
        merge_loop res hi' last_is_informal seq
      else if last_is_informal then (res ++ [hi], true)
      else merge_loop (res ++ [hi]) lo false seq
  end.

Definition merge_sequence (seq : list VarnodeData) : list VarnodeData :=
  if negb (some_contiguous seq) then seq else
  match seq with
  | [] => seq
  | v :: rest =>
      let '(res, last_is_informal) := merge_loop [] v false rest in
      if last_is_informal then seq else res
  end.

End Merge.

(** *** The table *)

Record JoinState : Type := mk_JoinState {
  joinallocate : Z;
  splitset : gmap (Z * list (option Z * Z * Z)) JoinRecord;
  splitlist : list JoinRecord;
  join_space : option AddrSpace;
}.

Definition table_new : JoinState := mk_JoinState 0 ∅ [] None.

Definition set_join_space (st : JoinState) (spc : AddrSpace) : JoinState :=
  mk_JoinState (joinallocate st) (splitset st) (splitlist st) (Some spc).

Definition num_records (st : JoinState) : nat := length (splitlist st).

(** The sum of the sizes, in [u32]. *)
Definition sum_sizes (ps : list VarnodeData) : Z := fold_left (fun accum piece => u32 (accum + vsize piece)) ps 0.

(** The size of the whole, and the errors. *)
Definition join_size (ps : list VarnodeData) (logicalsize : Z) : outcome Z :=
  if bool_decide (ps = []) then Err (Lowlevel "Cannot create a join without pieces")
  else if bool_decide (length ps = 1%nat) && (logicalsize =? 0)
  then Err (Lowlevel "Cannot create a single piece join without a logical size")
  else if negb (logicalsize =? 0) then
    if negb (bool_decide (length ps = 1%nat))
    then Err (Lowlevel "Cannot specify logical size for multiple piece join")
    else Ok logicalsize
  else if sum_sizes ps =? 0 then Err (Lowlevel "Cannot create a zero size join")
  else Ok (sum_sizes ps).

Definition find_add_join (ps : list VarnodeData) (logicalsize : Z) : stm JoinState JoinRecord :=
  do! totalsize <- slift (join_size ps logicalsize) ;;
  do! st <- sget ;;
  let key := (totalsize, varnode_key <$> ps) in
  match splitset st !! key with
  | Some existing => sret existing
  | None =>
      let roundsize := Z.land (u32 (totalsize + 15)) (u32 (Z.lnot 0xf)) in
      let record := mk_JoinRecord ps (join_space st) (joinallocate st) totalsize in
      smodify (fun st => mk_JoinState (u64 (joinallocate st + roundsize)) (<[key := record]> (splitset st))
                           (splitlist st ++ [record]) (join_space st)) ;;!
      sret record
  end.

(** The binary searches: [min] and [max] are [i32].  Each round narrows the
    interval, so the length of the list bounds the rounds. *)
Definition search (st : JoinState) (probe : JoinRecord -> comparison) : outcome (option JoinRecord) :=
  loop (S (S (length (splitlist st)))) (fun '(min, max) =>
    if min <=? max then
      let mid := i32 (Z.quot (i32 (min + max)) 2) in
      let! rec := index (splitlist st) (Z.to_nat (u64 mid)) in
      match probe rec with
      | Lt => Ok (inl (i32 (mid + 1), max))
      | Gt => Ok (inl (min, i32 (mid - 1)))
      | Eq => Ok (inr (Some rec))
      end
    else Ok (inr None)) (0, i32 (i32 (Z.of_nat (length (splitlist st))) - 1)).

(** Where a record lies relative to an offset: before ([Lt]), after ([Gt]) or on it. *)
Definition probe_internal (off : Z) (rec : JoinRecord) : comparison :=
  let val := unified_offset rec in
  if u64 (val + unified_size rec) <=? off then Lt else if val >? off then Gt else Eq.

Definition probe_exact (off : Z) (rec : JoinRecord) : comparison :=
  let val := unified_offset rec in
  if val =? off then Eq else if val <? off then Lt else Gt.

Definition find_join_internal (st : JoinState) (off : Z) : outcome (option JoinRecord) := search st (probe_internal off).

Definition find_join (st : JoinState) (off : Z) : outcome JoinRecord :=
  let! found := search st (probe_exact off) in
  match found with Some rec => Ok rec | None => Err (Lowlevel "Unlinked join address") end.

(** [v.size = v.size.wrapping_sub(by as u32)] and [v.offset = off]. *)
Definition shrink (by_ : Z) (v : VarnodeData) : VarnodeData := mk_VarnodeData (vspace v) (voffset v) (u32 (vsize v - u32 by_)).
Definition at_offset (off : Z) (v : VarnodeData) : VarnodeData := mk_VarnodeData (vspace v) off (vsize v).

(** The pieces from [lo] to [hi], both included. *)
Definition slice (ps : list VarnodeData) (lo hi : Z) : list VarnodeData :=
  take (Z.to_nat (hi - lo + 1)) (drop (Z.to_nat lo) ps).

(** Changes the first and the last element. *)
Definition on_first (f : VarnodeData -> VarnodeData) (l : list VarnodeData) : list VarnodeData := alter f 0%nat l.
Definition on_last (f : VarnodeData -> VarnodeData) (l : list VarnodeData) : list VarnodeData := alter f (length l - 1)%nat l.

(** The pieces of the part of a record between byte [addr1] of piece [pos1] and
    byte [addr2] of piece [pos2]. *)
Definition cut_pieces (ps : list VarnodeData) (addr1 : Address) (pos1 : Z) (addr2 : Address) (pos2 : Z) :
    outcome (list VarnodeData) :=
  let! piece1 := index ps (Z.to_nat (u64 pos1)) in
  let! piece2 := index ps (Z.to_nat (u64 pos2)) in
  let size_trunc1 := i32 (u64 (offset addr1 - voffset piece1)) in
  let size_trunc2 := i32 (i32 (i32 (vsize piece2) - i32 (u64 (offset addr2 - voffset piece2))) - 1) in
  if pos2 <? pos1 then
    let l := on_last (fun v => shrink size_trunc1 (at_offset (offset addr1) v)) (slice ps pos2 pos1) in
    Ok (on_first (shrink size_trunc2) l)
  else
    let l := on_first (fun v => shrink size_trunc1 (at_offset (offset addr1) v)) (slice ps pos1 pos2) in
    Ok (on_last (shrink size_trunc2) l).

Definition renormalize_join_address (addr : Address) (size : Z) : stm JoinState Address :=
  do! st <- sget ;;
  do! found <- slift (find_join_internal st (offset addr)) ;;
  match found with
  | None => serr (Lowlevel "Join address not covered by a JoinRecord")
  | Some rec =>
      if (offset addr =? unified_offset rec) && (u32 size =? unified_size rec) then sret addr else
      let '(addr1, pos1) := get_equivalent_address rec (offset addr) in
      let '(addr2, pos2) := get_equivalent_address rec (u64 (offset addr + u64 (i64 (size - 1)))) in
      if is_invalid addr2 then serr (Lowlevel "Join address range not covered")
      else if pos1 =? pos2 then sret addr1
      else
        do! new_pieces <- slift (cut_pieces (pieces rec) addr1 pos1 addr2 pos2) ;;
        do! new_rec <- find_add_join new_pieces 0 ;;
        sret (varnode_addr (get_unified new_rec))
  end.

(** *** Construction of addresses *)

Definition construct_float_extension_address (realaddr : Address) (realsize logicalsize : Z) : stm JoinState Address :=
  if logicalsize =? realsize then sret realaddr else
  do! join <- find_add_join [mk_VarnodeData (space realaddr) (offset realaddr) (u32 realsize)] (u32 logicalsize) ;;
  sret (varnode_addr (get_unified join)).

Section Construct.
Variable register_name : AddrSpace -> Z -> Z -> string.
(** The index of the default code space. *)
Variable default_index : option Z.

Definition construct_join_address (hiaddr : Address) (hisz : Z) (loaddr : Address) (losz : Z) : stm JoinState Address :=
  let bad := serr (Lowlevel "Trying to join in appropriate locations") in
  match space hiaddr, space loaddr with
  | Some hispace, Some lospace =>
      let plain s := bool_decide (space_type s = Spacebase) || bool_decide (space_type s = Processor) in
      if negb (plain hispace) || negb (plain lospace) then bad else
      let usejoinspace := negb (bool_decide (space_type hispace = Spacebase) || bool_decide (space_type lospace = Spacebase)
        || bool_decide (Some (space_index hispace) = default_index) || bool_decide (Some (space_index lospace) = default_index)) in
      do! contiguous <- slift (is_contiguous hiaddr hisz loaddr losz) ;;
      let first_of := if is_big_endian hispace then hiaddr else loaddr in
      let first_space := if is_big_endian hispace then hispace else lospace in
      if contiguous && (negb usejoinspace ||
           negb (bool_decide (register_name first_space (offset first_of) (i32 (hisz + losz)) = ""%string)))
      then sret first_of
      else
        do! join <- find_add_join [mk_VarnodeData (Some hispace) (offset hiaddr) (u32 hisz);
                                   mk_VarnodeData (Some lospace) (offset loaddr) (u32 losz)] 0 ;;
        sret (varnode_addr (get_unified join))
  | _, _ => bad
  end.

End Construct.

Definition construct_wrapping_address (addr : Address) (size : Z) : stm JoinState Address :=
  match space addr with
  | None => sret addr
  | Some spc =>
      if negb (is_heritaged spc) then sret addr else
      let dist := u64 (u64 (highest spc - offset addr) + 1) in
      if u64 (i64 size) <=? dist then sret addr
      else if negb (allows_wrapped_range spc) then
        serr (Lowlevel ("Trying to construct memory range beyond end of address space: " ++ name spc))
      else
        let sizehi := i32 dist in
        let sizelo := i32 (size - sizehi) in
        let high := mk_VarnodeData (Some spc) (offset addr) (u32 sizehi) in
        let low := mk_VarnodeData (Some spc) 0 (u32 sizelo) in
        do! join <- find_add_join (if is_big_endian spc then [high; low] else [low; high]) 0 ;;
        sret (varnode_addr (get_unified join))
  end.

Definition strip_join_piece (join : JoinRecord) (ind : Z) : stm JoinState VarnodeData :=
  let n := num_pieces join in
  let go (start end_ : Z) :=
    if start =? end_ then slift (get_piece join start)
    else
      do! new_pieces <- slift (fold_right (fun i acc => let! v := get_piece join i in let! l := acc in Ok (v :: l))
                                 (Ok []) (seqZ start (end_ - start + 1))) ;;
      do! new_rec <- find_add_join new_pieces 0 ;;
      sret (get_unified new_rec) in
  if ind =? 0 then go 1 (i32 (n - 1))
  else if ind =? i32 (n - 1) then go 0 (i32 (n - 2))
  else serr (Lowlevel "Stripping middle piece from JoinRecord").

(** ** The table *)

(** A record occupies the bytes from its offset on. *)
Definition occupies (rec : JoinRecord) (off : Z) : Prop := unified_offset rec <= off < unified_offset rec + unified_size rec.

Definition record_key (rec : JoinRecord) : Z * list (option Z * Z * Z) := (unified_size rec, varnode_key <$> pieces rec).

Definition precedes (r1 r2 : JoinRecord) : Prop := unified_offset r1 + unified_size r1 <= unified_offset r2.

(** The records lie one after the other below [joinallocate], and the set finds
    each under its key. *)
Record table_wf (st : JoinState) : Prop := {
  tw_sorted : StronglySorted precedes (splitlist st);
  tw_bounds : forall rec, rec ∈ splitlist st -> 0 <= unified_offset rec /\ 0 < unified_size rec < 2 ^ 32 /\
    unified_offset rec + unified_size rec <= joinallocate st;
  tw_limit : 0 <= joinallocate st < 2 ^ 64;
  tw_set : forall key rec, splitset st !! key = Some rec <-> rec ∈ splitlist st /\ key = record_key rec;
  tw_length : Z.of_nat (length (splitlist st)) < 2 ^ 30;
}.

Lemma table_wf_new : table_wf table_new.
Proof.
  split; simpl; [constructor|intros rec H; by apply elem_of_nil in H|lia| |lia].
  intros key rec. rewrite lookup_empty, elem_of_nil. naive_solver.
Qed.

Section Search.
Variables (st : JoinState) (probe : JoinRecord -> comparison).
Notation l := (splitlist st).
Hypothesis Hlen : Z.of_nat (length l) < 2 ^ 30.
(** The probe answers [Lt] on a first part of the list and [Gt] on a last part. *)
Hypothesis Hlt : forall i j ri rj, (i <= j)%nat -> l !! i = Some ri -> l !! j = Some rj -> probe rj = Lt -> probe ri = Lt.
Hypothesis Hgt : forall i j ri rj, (i <= j)%nat -> l !! i = Some ri -> l !! j = Some rj -> probe ri = Gt -> probe rj = Gt.

Definition narrowed (b : Z * Z) : Prop :=
  0 <= b.1 <= b.2 + 1 /\ b.2 < Z.of_nat (length l) /\
  (forall i r, l !! i = Some r -> Z.of_nat i < b.1 -> probe r = Lt) /\
  (forall i r, l !! i = Some r -> b.2 < Z.of_nat i -> probe r = Gt).

Lemma search_spec : exists found, search st probe = Ok found /\
  match found with
  | Some rec => rec ∈ l /\ probe rec = Eq
  | None => forall rec, rec ∈ l -> probe rec <> Eq
  end.
Proof using Hlen Hlt Hgt.
  assert (El : i32 (i32 (Z.of_nat (length l)) - 1) = Z.of_nat (length l) - 1).
  { rewrite (sw_small 32 (Z.of_nat _)) by (unfold is_s; lia). apply sw_small; [lia|]. unfold is_s. lia. }
  unfold search. rewrite El. apply (loop_inv narrowed _ (fun b => Z.to_nat (b.2 + 1 - b.1))).
  - unfold narrowed. simpl. split_and!; try lia; intros i r Hi; apply lookup_lt_Some in Hi; lia.
  - simpl. lia.
  - intros [mn mx] (Hb & Hx & Hlow & Hhigh). simpl in *. destruct (Z.leb_spec mn mx) as [Hle|Hgt'].
    + assert (Hmid : mn <= (mn + mx) / 2 <= mx).
      { split; [apply Z.div_le_lower_bound|apply Z.div_le_upper_bound]; lia. }
      assert (Em : i32 (Z.quot (i32 (mn + mx)) 2) = (mn + mx) / 2).
      { rewrite (sw_small 32 (mn + mx)) by (unfold is_s; lia). rewrite Z.quot_div_nonneg by lia.
        apply sw_small; [lia|]. unfold is_s. lia. }
      rewrite Em. set (mid := (mn + mx) / 2). fold mid in Hmid.
      rewrite u64_small by lia. destruct (lookup_lt_is_Some_2 l (Z.to_nat mid)) as [rec Hrec]; [lia|].
      rewrite (index_ok _ _ _ Hrec). simpl. destruct (probe rec) eqn:Ep.
      * right. eexists. split; [done|]. split; [by apply list_elem_of_lookup_2 in Hrec|done].
      * left. rewrite (sw_small 32 (mid + 1)) by (unfold is_s; lia). eexists. split; [done|]. simpl. split; [|lia].
        unfold narrowed. simpl. split_and!; try lia; [|exact Hhigh]. intros i r Hi Hlt'.
        apply (Hlt i (Z.to_nat mid) r rec); [lia|done..].
      * left. rewrite (sw_small 32 (mid - 1)) by (unfold is_s; lia). eexists. split; [done|]. simpl. split; [|lia].
        unfold narrowed. simpl. split_and!; try lia; [exact Hlow|]. intros i r Hi Hgt'.
        apply (Hgt (Z.to_nat mid) i rec r); [lia|done..].
    + right. eexists. split; [done|]. simpl. intros rec [i Hi]%list_elem_of_lookup_1.
      destruct (Z.lt_ge_cases (Z.of_nat i) mn) as [H|H]; [by rewrite (Hlow i rec)|by rewrite (Hhigh i rec) by (done || lia)].
Qed.

End Search.

Lemma sorted_lookup (l : list JoinRecord) i j ri rj : StronglySorted precedes l -> (i < j)%nat ->
  l !! i = Some ri -> l !! j = Some rj -> precedes ri rj.
Proof.
  intros Hs. revert i j. induction Hs as [|x l Hs IH Hall]; intros i j Hij Hi Hj; [done|].
  destruct i, j; simpl in *; try lia; [|eapply IH; [|done..]; lia]. simplify_eq.
  rewrite Forall_forall in Hall. apply Hall. by eapply list_elem_of_lookup_2.
Qed.

Section Table.
Variable st : JoinState.
Hypothesis Hst : table_wf st.

Lemma record_before i j ri rj : (i <= j)%nat -> splitlist st !! i = Some ri -> splitlist st !! j = Some rj ->
  ri = rj \/ precedes ri rj.
Proof using Hst.
  intros Hij Hi Hj. destruct (decide (i = j)) as [->|]; [left; congruence|]. right.
  eapply sorted_lookup; [apply Hst| |done..]. lia.
Qed.

Lemma record_in i r : splitlist st !! i = Some r -> 0 <= unified_offset r /\ 0 < unified_size r < 2 ^ 32 /\
    unified_offset r + unified_size r < 2 ^ 64.
Proof using Hst.
  intros H%list_elem_of_lookup_2. destruct (tw_bounds _ Hst r H) as (? & ? & ?). pose proof (tw_limit _ Hst). lia.
Qed.

(** Records do not overlap. *)
Lemma record_unique r1 r2 off : r1 ∈ splitlist st -> r2 ∈ splitlist st -> occupies r1 off -> occupies r2 off -> r1 = r2.
Proof using Hst.
  unfold occupies. intros [i Hi]%list_elem_of_lookup_1 [j Hj]%list_elem_of_lookup_1 H1 H2.
  destruct (Nat.le_ge_cases i j) as [H|H].
  - destruct (record_before i j r1 r2 H Hi Hj) as [|Hp]; [done|]. unfold precedes in Hp. lia.
  - destruct (record_before j i r2 r1 H Hj Hi) as [|Hp]; [done|]. unfold precedes in Hp. lia.
Qed.

Lemma occupies_start r : r ∈ splitlist st -> occupies r (unified_offset r).
Proof using Hst. intros H. destruct (tw_bounds _ Hst r H) as (? & ? & ?). unfold occupies. lia. Qed.

Lemma probe_internal_spec i r off : splitlist st !! i = Some r ->
  probe_internal off r = if unified_offset r + unified_size r <=? off then Lt else if unified_offset r >? off then Gt else Eq.
Proof using Hst. intros H%record_in. unfold probe_internal. by rewrite u64_small by lia. Qed.

Lemma find_internal_spec off : exists found, find_join_internal st off = Ok found /\
  forall rec, found = Some rec <-> rec ∈ splitlist st /\ occupies rec off.
Proof using Hst.
  destruct (search_spec st (probe_internal off)) as (found & E & Hf); [apply Hst|..].
  - intros i j ri rj Hij Hi Hj. rewrite (probe_internal_spec i ri), (probe_internal_spec j rj) by done.
    pose proof (record_in _ _ Hi). pose proof (record_in _ _ Hj).
    destruct (record_before i j ri rj Hij Hi Hj) as [->|Hp]; [done|]. unfold precedes in Hp.
    destruct (Z.leb_spec (unified_offset rj + unified_size rj) off); [|by destruct (_ >? _)].
    destruct (Z.leb_spec (unified_offset ri + unified_size ri) off); [done|lia].
  - intros i j ri rj Hij Hi Hj. rewrite (probe_internal_spec i ri), (probe_internal_spec j rj) by done.
    pose proof (record_in _ _ Hi). pose proof (record_in _ _ Hj).
    destruct (record_before i j ri rj Hij Hi Hj) as [->|Hp]; [done|]. unfold precedes in Hp.
    destruct (Z.leb_spec (unified_offset ri + unified_size ri) off); [done|].
    destruct (Z.gtb_spec (unified_offset ri) off); [|done]. intros _.
    destruct (Z.leb_spec (unified_offset rj + unified_size rj) off); [lia|]. destruct (Z.gtb_spec (unified_offset rj) off); [done|lia].
  - exists found. split; [done|]. intros rec.
    assert (Heq : forall r, r ∈ splitlist st -> probe_internal off r = Eq <-> occupies r off).
    { intros r [i Hi]%list_elem_of_lookup_1. rewrite (probe_internal_spec i r) by done. unfold occupies.
      destruct (Z.leb_spec (unified_offset r + unified_size r) off); [split; [done|lia]|].
      destruct (Z.gtb_spec (unified_offset r) off); split; done || lia. }
    destruct found as [r|].
    + destruct Hf as [Hin Hp]. split; [intros [= <-]; split; [done|by apply Heq]|]. intros [Hin2 Ho].
      f_equal. by apply (record_unique r rec off); [..|apply Heq|].
    + split; [done|]. intros [Hin Ho]. destruct (Hf rec Hin). by apply Heq.
Qed.

Lemma find_exact_spec off rec : find_join st off = Ok rec <-> rec ∈ splitlist st /\ unified_offset rec = off.
Proof using Hst.
  destruct (search_spec st (probe_exact off)) as (found & E & Hf); [apply Hst|..].
  - intros i j ri rj Hij Hi Hj. unfold probe_exact.
    pose proof (record_in _ _ Hi). pose proof (record_in _ _ Hj).
    destruct (record_before i j ri rj Hij Hi Hj) as [->|Hp]; [done|]. unfold precedes in Hp.
    destruct (Z.eqb_spec (unified_offset rj) off), (Z.ltb_spec (unified_offset rj) off),
      (Z.eqb_spec (unified_offset ri) off), (Z.ltb_spec (unified_offset ri) off); done || lia.
  - intros i j ri rj Hij Hi Hj. unfold probe_exact.
    pose proof (record_in _ _ Hi). pose proof (record_in _ _ Hj).
    destruct (record_before i j ri rj Hij Hi Hj) as [->|Hp]; [done|]. unfold precedes in Hp.
    destruct (Z.eqb_spec (unified_offset rj) off), (Z.ltb_spec (unified_offset rj) off),
      (Z.eqb_spec (unified_offset ri) off), (Z.ltb_spec (unified_offset ri) off); done || lia.
  - unfold find_join. rewrite E. simpl.
    assert (Heq : forall r, probe_exact off r = Eq <-> unified_offset r = off).
    { intros r. unfold probe_exact. destruct (Z.eqb_spec (unified_offset r) off); [done|]. by destruct (_ <? _). }
    destruct found as [r|].
    + destruct Hf as [Hin Hp]. split; [intros [= <-]; split; [done|by apply Heq]|]. intros [Hin2 Ho].
      f_equal. apply Heq in Hp. apply (record_unique r rec off); [done..| |].
      * rewrite <- Hp. by apply occupies_start.
      * rewrite <- Ho. by apply occupies_start.
    + split; [done|]. intros [Hin Ho]. destruct (Hf rec Hin). by apply Heq.
Qed.

End Table.

(** *** Adding a record *)

Definition total (ps : list VarnodeData) : Z := foldr (fun v acc => vsize v + acc) 0 ps.

Lemma total_app ps qs : total (ps ++ qs) = total ps + total qs.
Proof. induction ps as [|v ps IH]; simpl; lia. Qed.

Lemma total_rev ps : total (rev ps) = total ps.
Proof. induction ps as [|v ps IH]; simpl; [done|]. rewrite total_app, IH. simpl. lia. Qed.

(** Places of at least one byte. *)
Definition sized (ps : list VarnodeData) : Prop := Forall (fun v => 0 < vsize v) ps.

Lemma total_nonneg ps : sized ps -> 0 <= total ps.
Proof. induction 1; simpl; lia. Qed.

Lemma sum_sizes_total ps : sized ps -> total ps < 2 ^ 32 -> sum_sizes ps = total ps.
Proof.
  intros Hs Ht. unfold sum_sizes. assert (H : forall a, 0 <= a -> a + total ps < 2 ^ 32 ->
    fold_left (fun accum piece => u32 (accum + vsize piece)) ps a = a + total ps); [|by apply H].
  clear Ht. induction Hs as [|v ps Hv Hs IH]; simpl; intros a Ha Ht; [lia|]. pose proof (total_nonneg ps Hs).
  rewrite uw_small by (unfold is_u; lia). rewrite IH; lia.
Qed.

Lemma roundsize_spec n : 0 <= n -> n + 15 < 2 ^ 32 ->
  let r := Z.land (u32 (n + 15)) (u32 (Z.lnot 0xf)) in n <= r <= n + 15 /\ r mod 16 = 0.
Proof.
  intros Hn Hb. cbv zeta. rewrite (uw_small 32 (n + 15)) by (unfold is_u; lia).
  assert (E : Z.land (n + 15) (u32 (Z.lnot 0xf)) = (n + 15) / 16 * 16).
  { change (u32 (Z.lnot 0xf)) with (Z.land (Z.lnot 0xf) (Z.ones 32)). rewrite Z.land_assoc, (Z.land_comm (n + 15)), <- Z.land_assoc.
    rewrite Z.land_ones by lia. rewrite (Z.mod_small (n + 15)) by lia. rewrite Z.land_comm. change 0xf with (Z.ones 4).
    rewrite <- Z.ldiff_land, Z.ldiff_ones_r by lia. rewrite Z.shiftr_div_pow2, Z.shiftl_mul_pow2 by lia. done. }
  rewrite E, Z.mod_mul by lia. pose proof (Z.div_mod (n + 15) 16 ltac:(lia)). pose proof (Z.mod_pos_bound (n + 15) 16 ltac:(lia)). lia.
Qed.

(** Room for one more record of [n] bytes. *)
Definition room (st : JoinState) (n : Z) : Prop :=
  joinallocate st + n + 15 < 2 ^ 64 /\ Z.of_nat (length (splitlist st)) + 1 < 2 ^ 30.

Lemma sorted_snoc l rec : StronglySorted precedes l -> (forall r, r ∈ l -> precedes r rec) ->
  StronglySorted precedes (l ++ [rec]).
Proof.
  induction 1 as [|x l Hs IH Hx]; intros Hall; simpl; [repeat constructor|].
  constructor; [apply IH; intros; apply Hall; set_solver|]. apply Forall_app. split; [done|].
  constructor; [apply Hall; set_solver|constructor].
Qed.

Lemma find_add_join_spec st ps logicalsize n : table_wf st -> join_size ps logicalsize = Ok n ->
  0 < n -> n + 15 < 2 ^ 32 -> room st n ->
  exists st' rec, find_add_join ps logicalsize st = (st', Ok rec) /\ table_wf st' /\
    rec ∈ splitlist st' /\ record_key rec = (n, varnode_key <$> ps) /\ join_space st' = join_space st /\
    ((st' = st) \/ (splitlist st' = splitlist st ++ [rec] /\ rec = mk_JoinRecord ps (join_space st) (joinallocate st) n)).
Proof.
  intros Hst Hsize Hn Hb [Hr1 Hr2]. unfold find_add_join.
  erewrite sbind_ok by (unfold slift; by rewrite Hsize). rewrite sbind_get. cbv zeta.
  destruct (splitset st !! (n, varnode_key <$> ps)) as [rec|] eqn:E.
  { apply (tw_set _ Hst) in E as [Hin Hk]. exists st, rec. split_and!; [done..|by left]. }
  rewrite sbind_modify. destruct (roundsize_spec n ltac:(lia) Hb) as [Hround _].
  set (round := Z.land _ _) in *. pose proof (tw_limit _ Hst) as Hl. set (rec := mk_JoinRecord ps _ _ n).
  eexists _, rec. split; [reflexivity|]. split; [|split_and!; [|done..|right; done]].
  2: { simpl. apply elem_of_app. right. by apply list_elem_of_singleton. }
  split; simpl.
  - assert (Hall : forall r, r ∈ splitlist st -> precedes r rec) by (intros r Hr; apply (tw_bounds _ Hst r Hr)).
    apply sorted_snoc; [apply Hst|done].
  - rewrite u64_small by lia. intros r [Hr| ->%list_elem_of_singleton]%elem_of_app; simpl; [|lia].
    destruct (tw_bounds _ Hst r Hr) as (? & ? & ?). lia.
  - rewrite u64_small by lia. lia.
  - intros key r. destruct (decide (key = (n, varnode_key <$> ps))) as [->|Hne].
    + rewrite lookup_insert_eq, elem_of_app, list_elem_of_singleton. split.
      * intros [= <-]. split; [by right|done].
      * intros [[Hr| ->] Hk]; [|done]. assert (H := proj2 (tw_set _ Hst _ r) (conj Hr Hk)). congruence.
    + rewrite lookup_insert_ne by done. rewrite (tw_set _ Hst), elem_of_app, list_elem_of_singleton. split; [naive_solver|].
      intros [[Hr| ->] Hk]; done.
  - rewrite length_app. simpl. lia.
Qed.

(** C31: asking for the join of some places returns a record of exactly these
    places that both searches then find, and asking again returns the same
    record without changing the table; the records stay disjoint. *)
Theorem find_add_join_correct st ps logicalsize n : table_wf st -> join_size ps logicalsize = Ok n ->
  0 < n -> n + 15 < 2 ^ 32 -> room st n ->
  exists st' rec, find_add_join ps logicalsize st = (st', Ok rec) /\ table_wf st' /\
    record_key rec = (n, varnode_key <$> ps) /\
    find_join st' (unified_offset rec) = Ok rec /\
    (forall off, occupies rec off -> find_join_internal st' off = Ok (Some rec)) /\
    find_add_join ps logicalsize st' = (st', Ok rec) /\
    (forall off old, find_join st off = Ok old -> find_join st' off = Ok old).
Proof.
  intros Hst Hsize Hn Hb Hroom.
  destruct (find_add_join_spec st ps logicalsize n Hst Hsize Hn Hb Hroom) as (st' & rec & E & Hst' & Hin & Hk & _ & Hor).
  exists st', rec. split_and!; [done..| | | |].
  - by apply find_exact_spec.
  - intros off Ho. destruct (find_internal_spec st' Hst' off) as (found & -> & Hf). f_equal. by apply Hf.
  - unfold find_add_join. erewrite sbind_ok by (unfold slift; by rewrite Hsize). rewrite sbind_get. cbv zeta.
    assert (H := proj2 (tw_set _ Hst' _ rec) (conj Hin eq_refl)). rewrite Hk in H. by rewrite H.
  - intros off old Hold. apply find_exact_spec in Hold as [Hold <-]; [|done]. apply find_exact_spec; [done|].
    split; [|done]. destruct Hor as [->|[-> _]]; [done|]. apply elem_of_app. by left.
Qed.

Definition sample_pieces : list VarnodeData := [mk_VarnodeData (Some ram32) 0x100 4; mk_VarnodeData (Some ram32) 0x200 2].

Lemma find_add_join_correct_witness : exists st' rec,
  find_add_join sample_pieces 0 table_new = (st', Ok rec) /\ find_join st' 0 = Ok rec /\ unified_size rec = 6.
Proof.
  destruct (find_add_join_correct table_new sample_pieces 0 6) as (st' & rec & E & _ & Hk & Hf & _);
    [apply table_wf_new|reflexivity|lia|lia|split; simpl; lia|].
  exists st', rec. split; [exact E|].
  assert (E0 : match (find_add_join sample_pieces 0 table_new).2 with Ok r => unified_offset r | _ => 1 end = 0)
    by (vm_compute; reflexivity).
  rewrite E in E0. simpl in E0. rewrite E0 in Hf. split; [exact Hf|]. unfold record_key in Hk. by injection Hk.
Defined.

(** ** The bytes of a join *)

(** Where each byte of a place is, in the order of addresses. *)
Definition vbytes (v : VarnodeData) : list Address :=
  (fun i => from_parts (vspace v) (u64 (voffset v + i))) <$> seqZ 0 (vsize v).

(** The pieces in the order in which their bytes follow each other. *)
Definition in_order (ps : list VarnodeData) : list VarnodeData := if record_big_endian ps then ps else rev ps.

Definition bytes (ps : list VarnodeData) : list Address := concat (vbytes <$> ps).

Definition join_bytes (ps : list VarnodeData) : list Address := bytes (in_order ps).

Lemma length_vbytes v : 0 <= vsize v -> Z.of_nat (length (vbytes v)) = vsize v.
Proof. intros H. unfold vbytes. rewrite length_fmap, length_seqZ. lia. Qed.

Lemma vbytes_lookup v i : 0 <= i < vsize v ->
  vbytes v !! Z.to_nat i = Some (from_parts (vspace v) (u64 (voffset v + i))).
Proof.
  intros Hi. unfold vbytes. apply list_lookup_fmap_Some. exists i. split; [done|].
  apply lookup_seqZ. lia.
Qed.

Lemma bytes_app ps qs : bytes (ps ++ qs) = bytes ps ++ bytes qs.
Proof. unfold bytes. by rewrite fmap_app, concat_app. Qed.

Lemma bytes_cons v ps : bytes (v :: ps) = vbytes v ++ bytes ps.
Proof. done. Qed.

Lemma length_bytes ps : sized ps -> Z.of_nat (length (bytes ps)) = total ps.
Proof.
  induction 1 as [|v ps Hv Hs IH]; [done|]. rewrite bytes_cons, length_app, Nat2Z.inj_add, IH, length_vbytes by lia. done.
Qed.

(** Byte [k] of the pieces [ps] is byte [k - total before] of the piece after
    the pieces [before]. *)
Lemma bytes_lookup before v after k : sized (before ++ v :: after) -> total before <= k < total before + vsize v ->
  bytes (before ++ v :: after) !! Z.to_nat k = Some (from_parts (vspace v) (u64 (voffset v + (k - total before)))).
Proof.
  intros Hs Hk. apply Forall_app in Hs as [Hb Hv]. apply Forall_cons in Hv as [Hv _].
  pose proof (length_bytes before Hb) as Hl. pose proof (total_nonneg before Hb).
  rewrite bytes_app, lookup_app_r by lia. rewrite bytes_cons.
  replace (Z.to_nat k - length (bytes before))%nat with (Z.to_nat (k - total before)) by lia.
  rewrite lookup_app_l by (pose proof (length_vbytes v); lia). rewrite vbytes_lookup by lia. done.
Qed.

(** The piece that holds byte [k]. *)
Lemma locate ps : forall k, sized ps -> 0 <= k < total ps ->
  exists before v after, ps = before ++ v :: after /\ total before <= k < total before + vsize v.
Proof.
  induction ps as [|v ps IH]; intros k Hs Hk; simpl in *; [lia|]. apply Forall_cons in Hs as [Hv Hs].
  destruct (Z.lt_ge_cases k (vsize v)) as [Hlt|Hge]; [exists [], v, ps; simpl; split; [done|lia]|].
  destruct (IH (k - vsize v) Hs ltac:(lia)) as (before & w & after & -> & Hb).
  exists (v :: before), w, after. simpl. split; [done|lia].
Qed.

(** Two bytes are in one piece or in two. *)
Lemma locate_two ps k1 k2 : sized ps -> 0 <= k1 <= k2 -> k2 < total ps ->
  (exists A v B, ps = A ++ v :: B /\ total A <= k1 /\ k2 < total A + vsize v) \/
  (exists A v1 M v2 B, ps = A ++ v1 :: M ++ v2 :: B /\ total A <= k1 < total A + vsize v1 /\
     total (A ++ v1 :: M) <= k2 < total (A ++ v1 :: M) + vsize v2).
Proof.
  intros Hs Hk Ht. destruct (locate ps k1 Hs ltac:(lia)) as (A & v1 & C & -> & H1).
  destruct (Z.lt_ge_cases k2 (total A + vsize v1)) as [Hlt|Hge]; [left; exists A, v1, C; split; [done|lia]|]. right.
  rewrite total_app in Ht. simpl in Ht. apply Forall_app in Hs as [HA HC]. apply Forall_cons in HC as [Hv HC].
  destruct (locate C (k2 - total A - vsize v1) HC ltac:(lia)) as (M & v2 & B & -> & H2).
  exists A, v1, M, v2, B. rewrite total_app. simpl. split_and!; lia || done.
Qed.

Lemma find_piece_found before v after k pos step : sized (before ++ v :: after) -> total (before ++ v :: after) < 2 ^ 31 ->
  total before <= k < total before + vsize v -> (step = 1 \/ step = -1) ->
  is_i32 pos -> is_i32 (pos + step * Z.of_nat (length before)) ->
  find_piece (before ++ v :: after) k pos step =
  (Some (v, k - total before), pos + step * Z.of_nat (length before)).
Proof.
  revert k pos. induction before as [|w before IH]; intros k pos Hs Ht Hk Hstep Hp Hq; simpl in *.
  - apply Forall_cons in Hs as [Hv Hs]. pose proof (total_nonneg _ Hs).
    rewrite (sw_small 32 (vsize v)) by (unfold is_s; lia). destruct (Z.ltb_spec k (vsize v)); [|lia].
    repeat f_equal; lia.
  - apply Forall_cons in Hs as [Hw Hs]. pose proof (total_nonneg _ Hs) as Hn. rewrite total_app in *. simpl in *.
    assert (sized before /\ sized (v :: after)) as [Hb Hv] by by apply Forall_app.
    apply Forall_cons in Hv as [Hv Ha]. pose proof (total_nonneg _ Hb). pose proof (total_nonneg _ Ha).
    rewrite (sw_small 32 (vsize w)) by (unfold is_s; lia). destruct (Z.ltb_spec k (vsize w)); [lia|].
    assert (is_i32 (pos + step)) by (unfold is_s in *; destruct Hstep as [-> | ->]; lia).
    rewrite (sw_small 32 (k - vsize w)), (sw_small 32 (pos + step)) by (done || (unfold is_s; lia)).
    assert (Ep : pos + step + step * Z.of_nat (length before) = pos + step * Z.of_nat (S (length before))) by lia.
    rewrite IH; [rewrite Ep, <- Z.sub_add_distr; done|done|simpl; lia|lia|done|done|by rewrite Ep].
Qed.

Lemma find_piece_past ps : forall k pos step, sized ps -> total ps <= k -> k < 2 ^ 31 -> (step = 1 \/ step = -1) ->
  (find_piece ps k pos step).1 = None.
Proof.
  induction ps as [|w ps IH]; intros k pos step Hs Hk Hk2 Hstep; simpl in *; [done|].
  apply Forall_cons in Hs as [Hw Hs]. pose proof (total_nonneg _ Hs).
  rewrite (sw_small 32 (vsize w)) by (unfold is_s; lia). destruct (Z.ltb_spec k (vsize w)); [lia|].
  apply IH; [done|rewrite sw_small by (unfold is_s; lia); lia..|done].
Qed.

Lemma length_total ps : sized ps -> Z.of_nat (length ps) <= total ps.
Proof. induction 1; simpl; lia. Qed.

Lemma in_order_perm ps : in_order ps ≡ₚ ps.
Proof. unfold in_order. destruct (record_big_endian ps); [done|]. rewrite <- Permutation_rev. done. Qed.

Lemma total_in_order ps : total (in_order ps) = total ps.
Proof. unfold in_order. destruct (record_big_endian ps); [done|]. apply total_rev. Qed.

Lemma sized_in_order ps : sized ps -> sized (in_order ps).
Proof. unfold sized. by rewrite in_order_perm. Qed.

(** The place in the list of the piece that is at place [j] of the order of bytes. *)
Definition place (ps : list VarnodeData) (j : nat) : Z :=
  if record_big_endian ps then Z.of_nat j else Z.of_nat (length ps) - 1 - Z.of_nat j.

Lemma place_lookup ps before v after : in_order ps = before ++ v :: after ->
  ps !! Z.to_nat (place ps (length before)) = Some v /\ 0 <= place ps (length before) < Z.of_nat (length ps).
Proof.
  intros Ho. assert (Hl : length ps = (length before + S (length after))%nat).
  { rewrite <- (in_order_perm ps), Ho, length_app. done. }
  unfold place, in_order in *. destruct (record_big_endian ps); (split; [|lia]).
  - rewrite Ho, Nat2Z.id. by apply list_lookup_middle.
  - apply (f_equal (@rev VarnodeData)) in Ho. rewrite rev_involutive, rev_app_distr in Ho. simpl in Ho.
    rewrite <- app_assoc in Ho. rewrite Hl, Ho. apply list_lookup_middle. rewrite length_rev. lia.
Qed.

(** A record whose size is the size of its pieces. *)
Definition whole (rec : JoinRecord) : Prop :=
  sized (pieces rec) /\ total (pieces rec) < 2 ^ 31 /\ unified_size rec = total (pieces rec) /\
  0 <= unified_offset rec /\ unified_offset rec + unified_size rec < 2 ^ 64.

Lemma equivalent_found rec k before v after : whole rec -> in_order (pieces rec) = before ++ v :: after ->
  total before <= k < total before + vsize v ->
  get_equivalent_address rec (unified_offset rec + k) =
  (from_parts (vspace v) (u64 (voffset v + (k - total before))), place (pieces rec) (length before)).
Proof.
  intros (Hs & Ht & Hu & H0 & H64) Ho Hk. pose proof (sized_in_order _ Hs) as Hso. pose proof (total_in_order (pieces rec)) as Hto.
  rewrite Ho in Hso, Hto. pose proof (length_total _ Hs) as Hl.
  assert (Hlen : length (pieces rec) = (length before + S (length after))%nat).
  { rewrite <- (in_order_perm (pieces rec)), Ho, length_app. done. }
  assert (total (before ++ v :: after) = total before + (vsize v + total after)) as Et by (rewrite total_app; done).
  assert (sized before /\ sized (v :: after)) as [Hb Hv] by by apply Forall_app.
  apply Forall_cons in Hv as [Hv Ha]. pose proof (total_nonneg _ Hb). pose proof (total_nonneg _ Ha).
  unfold get_equivalent_address. destruct (Z.ltb_spec (unified_offset rec + k) (unified_offset rec)); [lia|].
  rewrite Z.add_simpl_l, (u64_small k), (sw_small 32 k), (sw_small 32 (Z.of_nat _)) by (lia || (unfold is_s; lia)).
  rewrite (sw_small 32 (_ - 1)) by (lia || (unfold is_s; lia)).
  unfold in_order, place in *. destruct (record_big_endian (pieces rec)); rewrite Ho, find_piece_found;
    try (unfold is_s; lia); try done; try lia; try by left; try by right.
  all: rewrite (u64_small (k - total before)) by lia; f_equal; lia.
Qed.

Lemma equivalent_past rec k : whole rec -> total (pieces rec) <= k < 2 ^ 31 -> unified_offset rec + k < 2 ^ 64 ->
  is_invalid (get_equivalent_address rec (unified_offset rec + k)).1 = true.
Proof.
  intros (Hs & Ht & Hu & H0 & H64) Hk Hb. pose proof (total_nonneg _ Hs). pose proof (sized_in_order _ Hs) as Hso.
  pose proof (total_in_order (pieces rec)) as Hto.
  unfold get_equivalent_address. destruct (Z.ltb_spec (unified_offset rec + k) (unified_offset rec)); [lia|].
  rewrite Z.add_simpl_l, (u64_small k), (sw_small 32 k) by (lia || (unfold is_s; lia)).
  unfold in_order in *. destruct (record_big_endian (pieces rec)).
  - pose proof (find_piece_past (pieces rec) k 0 1 Hso ltac:(lia) ltac:(lia) (or_introl eq_refl)) as E.
    destruct (find_piece _ _ _ _) as [[[]|] pos]; simpl in *; done.
  - pose proof (find_piece_past (rev (pieces rec)) k (i32 (i32 (Z.of_nat (length (pieces rec))) - 1)) (-1) Hso ltac:(lia) ltac:(lia) (or_intror eq_refl)) as E.
    destruct (find_piece _ _ _ _) as [[[]|] pos]; simpl in *; done.
Qed.

Lemma equivalent_bytes rec k : whole rec -> 0 <= k < total (pieces rec) ->
  join_bytes (pieces rec) !! Z.to_nat k = Some (get_equivalent_address rec (unified_offset rec + k)).1.
Proof.
  intros Hw Hk. pose proof Hw as (Hs & _).
  destruct (locate (in_order (pieces rec)) k) as (before & v & after & Ho & Hb);
    [by apply sized_in_order|by rewrite total_in_order|]. rewrite (equivalent_found rec k before v after Hw Ho Hb).
  unfold join_bytes. rewrite Ho. apply bytes_lookup; [|done]. rewrite <- Ho. by apply sized_in_order.
Qed.

(** The byte of a join at an offset is the byte of the piece that holds it:
    the bytes of a record are the bytes of its pieces, the first piece lowest in
    a big-endian space and highest in a little-endian one, and an offset past
    them has no place. *)
Theorem equivalent_address_correct rec k : whole rec -> 0 <= k < 2 ^ 31 -> unified_offset rec + k < 2 ^ 64 ->
  let '(a, pos) := get_equivalent_address rec (unified_offset rec + k) in
  if k <? total (pieces rec) then
    join_bytes (pieces rec) !! Z.to_nat k = Some a /\
    exists v, pieces rec !! Z.to_nat pos = Some v /\ 0 <= pos /\ a ∈ vbytes v
  else is_invalid a = true.
Proof.
  intros Hw Hk Hb. pose proof (equivalent_past rec k Hw) as Hp. pose proof (equivalent_bytes rec k Hw) as Hbytes.
  destruct (Z.ltb_spec k (total (pieces rec))) as [Hlt|Hge].
  2: { destruct (get_equivalent_address rec _) as [a pos]. apply Hp; lia. }
  pose proof Hw as (Hs & _). destruct (locate (in_order (pieces rec)) k) as (before & v & after & Ho & Hk');
    [by apply sized_in_order|rewrite total_in_order; lia|]. rewrite (equivalent_found rec k before v after Hw Ho Hk') in Hbytes |- *.
  split; [apply Hbytes; lia|]. exists v.
  destruct (place_lookup _ _ _ _ Ho) as [Hv Hpos].
  split; [done|]. split; [lia|]. unfold vbytes. apply list_elem_of_fmap. exists (k - total before). split; [done|].
  apply elem_of_seqZ. lia.
Qed.

(** *** Cutting a part out of a record *)

(** A place without its first [t] bytes, and its first [t + 1] bytes. *)
Definition from_byte (t : Z) (v : VarnodeData) : VarnodeData := mk_VarnodeData (vspace v) (u64 (voffset v + t)) (vsize v - t).
Definition to_byte (t : Z) (v : VarnodeData) : VarnodeData := mk_VarnodeData (vspace v) (voffset v) (t + 1).

Lemma slice_middle xs a ys b zs lo hi : lo = Z.of_nat (length xs) -> hi = lo + 1 + Z.of_nat (length ys) ->
  slice (xs ++ a :: ys ++ b :: zs) lo hi = a :: ys ++ [b].
Proof.
  intros -> ->. unfold slice. rewrite Nat2Z.id, drop_app_length.
  change (a :: ys ++ b :: zs) with ((a :: ys) ++ [b] ++ zs). rewrite app_assoc, take_app_length'; [done|].
  rewrite length_app. simpl. lia.
Qed.

Lemma on_last_snoc f a ys b : on_last f (a :: ys ++ [b]) = a :: ys ++ [f b].
Proof.
  unfold on_last. change (a :: ys ++ [b]) with ((a :: ys) ++ [b]).
  replace (length ((a :: ys) ++ [b]) - 1)%nat with (length (a :: ys) + 0)%nat by (rewrite length_app; simpl; lia).
  by rewrite alter_app_r.
Qed.

Lemma trunc_front v t : 0 <= voffset v < 2 ^ 64 -> 0 <= t < vsize v -> vsize v < 2 ^ 31 ->
  i32 (u64 (u64 (voffset v + t) - voffset v)) = t.
Proof.
  intros Hv Ht Hs. assert (E : u64 (u64 (voffset v + t) - voffset v) = t).
  { transitivity (u64 t); [|apply u64_small; lia]. word_ring. }
  rewrite E. apply sw_small; [lia|]. unfold is_s. lia.
Qed.

Lemma shrink_front v t : 0 <= t < vsize v -> vsize v < 2 ^ 31 ->
  shrink t (at_offset (u64 (voffset v + t)) v) = from_byte t v.
Proof.
  intros Ht Hs. unfold shrink, at_offset, from_byte. simpl. rewrite (uw_small 32 t) by (unfold is_u; lia).
  rewrite (uw_small 32 (_ - t)) by (unfold is_u; lia). done.
Qed.

Lemma shrink_back v t : 0 <= t < vsize v -> vsize v < 2 ^ 31 ->
  shrink (i32 (i32 (i32 (vsize v) - t) - 1)) v = to_byte t v.
Proof.
  intros Ht Hs. unfold shrink, to_byte.
  rewrite (sw_small 32 (vsize v)), (sw_small 32 (vsize v - t)), (sw_small 32 (vsize v - t - 1)) by (lia || (unfold is_s; lia)).
  rewrite (uw_small 32 (vsize v - t - 1)) by (unfold is_u; lia). rewrite uw_small by (unfold is_u; lia). f_equal. lia.
Qed.

Lemma vbytes_from t v : 0 <= t <= vsize v -> vbytes (from_byte t v) = drop (Z.to_nat t) (vbytes v).
Proof.
  intros Ht. apply list_eq. intros i. rewrite lookup_drop. destruct (Z.lt_ge_cases (Z.of_nat i) (vsize v - t)) as [Hi|Hi].
  - rewrite <- (Nat2Z.id i) at 1. rewrite vbytes_lookup by (simpl; lia).
    replace (Z.to_nat t + i)%nat with (Z.to_nat (t + Z.of_nat i)) by lia. rewrite vbytes_lookup by lia.
    simpl. do 2 f_equal. word_ring.
  - pose proof (length_vbytes (from_byte t v)) as H1. pose proof (length_vbytes v). simpl in H1.
    rewrite !lookup_ge_None_2 by lia. done.
Qed.

Lemma vbytes_to t v : 0 <= t < vsize v -> vbytes (to_byte t v) = take (Z.to_nat (t + 1)) (vbytes v).
Proof.
  intros Ht. apply list_eq. intros i. destruct (Z.lt_ge_cases (Z.of_nat i) (t + 1)) as [Hi|Hi].
  - rewrite lookup_take_lt by lia. rewrite <- (Nat2Z.id i). rewrite !vbytes_lookup by (simpl; lia). done.
  - pose proof (length_vbytes (to_byte t v)) as H1. simpl in H1. rewrite lookup_take_ge by lia.
    by rewrite lookup_ge_None_2 by lia.
Qed.

(** The bytes of the part. *)
Lemma bytes_cut A v1 M v2 B t1 t2 : sized A -> 0 <= t1 < vsize v1 -> 0 <= t2 < vsize v2 ->
  exists pre post, bytes (A ++ v1 :: M ++ v2 :: B) = pre ++ bytes (from_byte t1 v1 :: M ++ [to_byte t2 v2]) ++ post /\
    Z.of_nat (length pre) = total A + t1.
Proof.
  intros HA H1 H2. exists (bytes A ++ take (Z.to_nat t1) (vbytes v1)), (drop (Z.to_nat (t2 + 1)) (vbytes v2) ++ bytes B).
  rewrite !bytes_app, !bytes_cons, !bytes_app, !bytes_cons, vbytes_from, vbytes_to by lia.
  split.
  - unfold bytes at 6. simpl. rewrite app_nil_r, <- !app_assoc. f_equal.
    rewrite (app_assoc (take (Z.to_nat (t2 + 1)) _)), take_drop. rewrite (app_assoc (take (Z.to_nat t1) _)), take_drop. done.
  - pose proof (length_vbytes v1 ltac:(lia)). pose proof (length_bytes A HA). rewrite length_app, length_take. lia.
Qed.

(** A place of a known space that is not a join. *)
Section Places.
(** The space of each index. *)
Variable space_of : Z -> AddrSpace.

Definition placed (big_endian : bool) (v : VarnodeData) : Prop :=
  exists s, vspace v = Some s /\ s = space_of (space_index s) /\ is_big_endian s = big_endian /\ space_type s <> Join /\
    0 <= voffset v < 2 ^ 64.

Lemma placed_endian e ps : Forall (placed e) ps -> ps <> [] -> record_big_endian ps = e.
Proof. destruct 1 as [|v ps (s & Hv & _ & <- & _) _]; [done|]. intros _. simpl. by rewrite Hv. Qed.

Lemma placed_valid e v off : placed e v -> is_invalid (from_parts (vspace v) off) = false.
Proof. intros (s & Hs & _). unfold is_invalid. simpl. by rewrite Hs. Qed.

Lemma placed_middle e ps A v B : Forall (placed e) ps -> in_order ps = A ++ v :: B -> placed e v.
Proof.
  intros Hp Ho. assert (Hpo : Forall (placed e) (in_order ps)) by (by rewrite in_order_perm).
  rewrite Ho, Forall_app, Forall_cons in Hpo. apply Hpo.
Qed.

Lemma placed_key_inj e1 e2 v w : placed e1 v -> placed e2 w -> varnode_key v = varnode_key w -> v = w.
Proof.
  intros (s & Hs & Es & _) (t & Ht & Et & _). destruct v, w. unfold varnode_key, space_key. simpl in *. subst vspace0 vspace1.
  simpl. intros [= Ei -> ->]. f_equal. f_equal. rewrite Es, Et. by rewrite Ei.
Qed.

Lemma placed_keys_inj e1 e2 ps : forall qs, Forall (placed e1) ps -> Forall (placed e2) qs ->
  varnode_key <$> ps = varnode_key <$> qs -> ps = qs.
Proof.
  induction ps as [|v ps IH]; intros [|w qs] Hp Hq E; [done..|].
  apply Forall_cons in Hp as [Hv Hp], Hq as [Hw Hq].
  rewrite !fmap_cons in E. assert (varnode_key v = varnode_key w /\ varnode_key <$> ps = varnode_key <$> qs) as [Ek Eks]
    by (split; congruence). f_equal; [by eapply placed_key_inj|by apply IH].
Qed.

(** The part of a record between two of its pieces. *)
Lemma cut_pieces_spec e ps A v1 M v2 B t1 t2 : Forall (placed e) ps -> sized ps -> total ps < 2 ^ 31 ->
  in_order ps = A ++ v1 :: M ++ v2 :: B -> 0 <= t1 < vsize v1 -> 0 <= t2 < vsize v2 ->
  exists new,
    cut_pieces ps (from_parts (vspace v1) (u64 (voffset v1 + t1))) (place ps (length A))
      (from_parts (vspace v2) (u64 (voffset v2 + t2))) (place ps (length A + S (length M))) = Ok new /\
    (if record_big_endian ps then new else rev new) = from_byte t1 v1 :: M ++ [to_byte t2 v2].
Proof.
  intros Hp Hs Ht Ho H1 H2. pose proof (sized_in_order ps Hs) as Hso. pose proof (total_in_order ps) as Hto.
  pose proof (length_total ps Hs) as Hlen.
  assert (Hpo : Forall (placed e) (in_order ps)) by by rewrite in_order_perm.
  assert (Ho2 : in_order ps = (A ++ v1 :: M) ++ v2 :: B) by (rewrite Ho, <- app_assoc; done).
  destruct (place_lookup ps A v1 _ Ho) as [L1 P1]. destruct (place_lookup ps _ v2 B Ho2) as [L2 P2].
  rewrite length_app in L2, P2. simpl in L2, P2.
  assert (Hl : length ps = (length A + S (length M + S (length B)))%nat).
  { rewrite <- (in_order_perm ps), Ho. repeat (rewrite length_app; simpl). lia. }
  rewrite Ho in Hso, Hto, Hpo. unfold sized in Hso. rewrite Forall_app, Forall_cons, Forall_app, Forall_cons in Hso, Hpo.
  destruct Hso as (SA & S1 & SM & S2 & SB). destruct Hpo as (_ & (s1 & _ & _ & _ & _ & O1) & _ & (s2 & _ & _ & _ & _ & O2) & _).
  rewrite total_app in Hto. simpl in Hto. rewrite total_app in Hto. simpl in Hto.
  pose proof (total_nonneg _ SA). pose proof (total_nonneg _ SM). pose proof (total_nonneg _ SB).
  unfold cut_pieces. rewrite (u64_small (place ps _)), (u64_small (place ps (length A + _))) by lia.
  rewrite (index_ok _ _ _ L1), (index_ok _ _ _ L2). cbn [obind offset from_parts].
  rewrite !trunc_front by lia. set (f := fun v => shrink t1 _).
  assert (Ef : f v1 = from_byte t1 v1) by (apply shrink_front; lia). set (g := shrink (i32 _)).
  assert (Eg : g v2 = to_byte t2 v2) by (apply shrink_back; lia).
  unfold place, in_order in *. destruct (record_big_endian ps).
  - destruct (Z.ltb_spec (Z.of_nat (length A + S (length M))) (Z.of_nat (length A))); [lia|].
    eexists. split; [reflexivity|]. rewrite Ho, slice_middle by lia. change (on_first f (v1 :: M ++ [v2])) with (f v1 :: M ++ [v2]).
    by rewrite on_last_snoc, Ef, Eg.
  - destruct (Z.ltb_spec (Z.of_nat (length ps) - 1 - Z.of_nat (length A + S (length M))) (Z.of_nat (length ps) - 1 - Z.of_nat (length A))); [|lia].
    eexists. split; [reflexivity|].
    apply (f_equal (@rev VarnodeData)) in Ho. rewrite rev_involutive, !rev_app_distr in Ho. simpl in Ho.
    rewrite rev_app_distr in Ho. simpl in Ho. rewrite <- !app_assoc in Ho. simpl in Ho.
    rewrite Hl, Ho, slice_middle by (rewrite ?length_rev; lia). rewrite on_last_snoc. change (on_first g (v2 :: rev M ++ [f v1])) with (g v2 :: rev M ++ [f v1]).
    simpl. rewrite rev_app_distr. simpl. by rewrite rev_involutive, Ef, Eg.
Qed.

(** The space of the joins. *)
Variable js : AddrSpace.
Hypothesis Hjs : space_type js = Join.

Record table_ok (st : JoinState) : Prop := {
  to_wf : table_wf st;
  to_space : join_space st = Some js;
  to_records : forall rec, rec ∈ splitlist st -> unified_space rec = Some js /\ exists e, Forall (placed e) (pieces rec);
}.

(** Where byte [k] of the value at [a] is: looked up in the table when [a] is in
    the join space, and otherwise just the byte at that address. *)
Definition resolve (st : JoinState) (a : Address) (k : Z) : option Address :=
  match space a with
  | Some s =>
      if bool_decide (space_type s = Join) then
        match find_join_internal st (offset a + k) with
        | Ok (Some rec) => join_bytes (pieces rec) !! Z.to_nat (offset a + k - unified_offset rec)
        | _ => None
        end
      else Some (from_parts (space a) (u64 (offset a + k)))
  | None => None
  end.

Lemma resolve_join st a rec k : table_wf st -> rec ∈ splitlist st -> space a = Some js -> occupies rec (offset a + k) ->
  resolve st a k = join_bytes (pieces rec) !! Z.to_nat (offset a + k - unified_offset rec).
Proof using Hjs.
  intros Hst Hin Ha Ho. unfold resolve. rewrite Ha, bool_decide_true by done.
  destruct (find_internal_spec st Hst (offset a + k)) as (found & -> & Hf). by rewrite (proj2 (Hf rec) (conj Hin Ho)).
Qed.

(** Adding places whose sizes add up to [n]. *)
Lemma find_add_placed e st ps : table_ok st -> Forall (placed e) ps -> sized ps -> (2 <= length ps)%nat ->
  total ps + 15 < 2 ^ 32 -> room st (total ps) ->
  exists st' rec, find_add_join ps 0 st = (st', Ok rec) /\ table_ok st' /\ rec ∈ splitlist st' /\
    pieces rec = ps /\ unified_size rec = total ps.
Proof.
  intros [Hwf Hsp Hrec] Hp Hs Hl Ht Hroom. pose proof (length_total ps Hs).
  assert (Hsize : join_size ps 0 = Ok (total ps)).
  { unfold join_size. rewrite bool_decide_false by (intros ->; simpl in Hl; lia).
    rewrite bool_decide_false by lia. simpl. rewrite sum_sizes_total by (done || lia).
    destruct (Z.eqb_spec (total ps) 0); [lia|done]. }
  destruct (find_add_join_spec st ps 0 _ Hwf Hsize ltac:(lia) Ht Hroom) as (st' & rec & E & Hwf' & Hin & Hk & Hsp' & Hor).
  exists st', rec. split; [done|]. unfold record_key in Hk.
  assert (Hks : unified_size rec = total ps /\ varnode_key <$> pieces rec = varnode_key <$> ps) by (split; congruence).
  destruct Hor as [-> | [El Er]].
  - destruct (Hrec rec Hin) as [_ [e2 He2]]. split_and!; [done..| |apply Hks].
    by eapply placed_keys_inj; [..|apply Hks].
  - split; [|split_and!; [done|by rewrite Er|by rewrite Er]]. split; [done|congruence|]. rewrite El. intros r [Hr| ->%list_elem_of_singleton]%elem_of_app; [by apply Hrec|].
    rewrite Er. simpl. split; [done|]. by exists e.
Qed.

Lemma placed_part e ps A v1 M v2 B t1 t2 new : Forall (placed e) ps -> sized ps ->
  in_order ps = A ++ v1 :: M ++ v2 :: B -> 0 <= t1 < vsize v1 -> 0 <= t2 < vsize v2 ->
  (if record_big_endian ps then new else rev new) = from_byte t1 v1 :: M ++ [to_byte t2 v2] ->
  Forall (placed e) new /\ sized new /\ (2 <= length new)%nat /\ total new = vsize v1 - t1 + total M + t2 + 1 /\
  in_order new = from_byte t1 v1 :: M ++ [to_byte t2 v2].
Proof.
  intros Hp Hs Ho H1 H2 En. assert (Hpo : Forall (placed e) (in_order ps)) by by rewrite in_order_perm.
  pose proof (sized_in_order ps Hs) as Hso. rewrite Ho in Hpo, Hso. unfold sized in *.
  rewrite Forall_app, Forall_cons, Forall_app, Forall_cons in Hpo, Hso.
  destruct Hpo as (_ & (s1 & E1 & F1 & G1 & J1 & O1) & PM & (s2 & E2 & F2 & G2 & J2 & O2) & _).
  destruct Hso as (_ & _ & SM & _ & _).
  assert (Hperm : new ≡ₚ from_byte t1 v1 :: M ++ [to_byte t2 v2]).
  { rewrite <- En. destruct (record_big_endian ps); [done|]. by rewrite <- Permutation_rev. }
  assert (Hnew : Forall (placed e) new).
  { rewrite Hperm. repeat (rewrite ?Forall_cons, ?Forall_app, ?Forall_nil). split_and!; [|done| |done].
    - exists s1. do 4 (split; [done|]). apply (uw_range 64). lia.
    - by exists s2. }
  assert (Hlen : (2 <= length new)%nat) by (rewrite Hperm; simpl; rewrite length_app; simpl; lia).
  split; [done|]. split; [|split; [done|split]].
  - rewrite Hperm. repeat (rewrite ?Forall_cons, ?Forall_app, ?Forall_nil). simpl. split_and!; lia || done.
  - replace (total new) with (total (if record_big_endian ps then new else rev new)) by (destruct (record_big_endian ps); [done|apply total_rev]).
    rewrite En. simpl. rewrite total_app. simpl. lia.
  - rewrite <- En. unfold in_order. rewrite (placed_endian e new), (placed_endian e ps); [done|done| |done|].
    + intros ->. by destruct A.
    + intros ->. simpl in Hlen. lia.
Qed.

(** C7: putting an address inside a join into normal form keeps every byte of
    the value where it was.  The result is an address outside the join space,
    or the start of a record of exactly the size of the value, which is added
    when there is none. *)
Theorem renormalize_correct st addr size rec :
  table_ok st -> rec ∈ splitlist st -> whole rec -> space addr = Some js -> 0 < size ->
  unified_offset rec <= offset addr -> offset addr + size <= unified_offset rec + unified_size rec -> room st size ->
  exists st' addr', renormalize_join_address addr size st = (st', Ok addr') /\ table_ok st' /\
    (forall k, 0 <= k < size -> resolve st' addr' k = resolve st addr k /\ is_Some (resolve st addr k)) /\
    ((exists s, space addr' = Some s /\ space_type s <> Join) \/
     (exists rec', find_join st' (offset addr') = Ok rec' /\ unified_size rec' = size)).
Proof using Hjs.
  intros Hok Hin Hw Ha Hsize Hlo Hhi Hroom. pose proof Hok as [Hwf Hsp Hrec]. pose proof Hw as (Hs & Ht & Hu & H0 & H64).
  destruct (Hrec rec Hin) as [_ [e He]].
  set (k0 := offset addr - unified_offset rec). assert (Ek : offset addr = unified_offset rec + k0) by (unfold k0; lia).
  assert (Hbytes : forall k, 0 <= k < size -> resolve st addr k = join_bytes (pieces rec) !! Z.to_nat (k0 + k)).
  { intros k Hk. rewrite (resolve_join st addr rec k); [f_equal; lia|done..|]. unfold occupies. lia. }
  assert (Hsome : forall k, 0 <= k < size -> is_Some (resolve st addr k)).
  { intros k Hk. rewrite Hbytes, equivalent_bytes by (done || lia). by eexists. }
  unfold renormalize_join_address. rewrite sbind_get. cbv zeta.
  destruct (find_internal_spec st Hwf (offset addr)) as (found & Ef & Hf).
  rewrite (proj2 (Hf rec)) in Ef by (split; [done|unfold occupies; lia]).
  erewrite sbind_ok by (unfold slift; by rewrite Ef). cbv beta iota.
  rewrite (uw_small 32 size) by (unfold is_u; lia).
  destruct ((offset addr =? unified_offset rec) && (size =? unified_size rec)) eqn:Eq.
  { apply andb_true_iff in Eq as [E1%Z.eqb_eq E2%Z.eqb_eq]. exists st, addr. split_and!; [done..|by auto|].
    right. exists rec. split; [|done]. by apply find_exact_spec. }
  replace (u64 (offset addr + u64 (i64 (size - 1)))) with (unified_offset rec + (k0 + size - 1))
    by (rewrite sw_small by (lia || (unfold is_s; lia)); rewrite (u64_small (size - 1)), u64_small by lia; lia).
  rewrite Ek. destruct (locate_two (in_order (pieces rec)) k0 (k0 + size - 1)) as [(A & v & B & Ho & H1 & H2)|(A & v1 & M & v2 & B & Ho & H1 & H2)];
    [by apply sized_in_order|lia|rewrite total_in_order; lia|..].
  - rewrite !(equivalent_found rec _ A v B Hw Ho) by lia.
    pose proof (placed_middle e _ _ _ _ He Ho) as Hv.
    rewrite (placed_valid e v _ Hv). destruct Hv as (s & Es & _ & _ & Hj & _). rewrite Z.eqb_refl. eexists st, _. split; [reflexivity|]. split; [done|]. split; [|left; by exists s].
    intros k Hk. split; [|by auto]. rewrite Hbytes by done. unfold resolve. cbn [space from_parts offset].
    rewrite Es, bool_decide_false by done. unfold join_bytes. rewrite Ho, (bytes_lookup A v B) by (lia || (rewrite <- Ho; by apply sized_in_order)).
    rewrite Es. do 2 f_equal. word_ring.
  - assert (Ho2 : in_order (pieces rec) = (A ++ v1 :: M) ++ v2 :: B) by (rewrite Ho, <- app_assoc; done).
    rewrite (equivalent_found rec k0 A v1 _ Hw Ho), (equivalent_found rec _ _ v2 B Hw Ho2) by lia.
    pose proof (placed_middle e _ _ _ _ He Ho2) as Hv.
    rewrite (placed_valid e v2 _ Hv), length_app. change (length (v1 :: M)) with (S (length M)).
    destruct (Z.eqb_spec (place (pieces rec) (length A)) (place (pieces rec) (length A + S (length M)))) as [Epl|_];
      [unfold place in Epl; destruct (record_big_endian _); lia|].
    destruct (cut_pieces_spec e (pieces rec) A v1 M v2 B (k0 - total A) (k0 + size - 1 - total (A ++ v1 :: M)))
      as (new & Ec & En); [done..|lia|lia|].
    destruct (placed_part e _ A v1 M v2 B (k0 - total A) (k0 + size - 1 - total (A ++ v1 :: M)) new He Hs Ho)
      as (Pn & Sn & Ln & Tn & On); [lia|lia|exact En|].
    assert (Et : total new = size) by (rewrite total_app in Tn; simpl in Tn; lia).
    rewrite <- Et in Hroom. destruct (find_add_placed e st new Hok Pn Sn Ln ltac:(lia) Hroom) as (st' & rec' & Ea & Hok' & Hin' & Ep & Eu).
    cbv beta iota. erewrite sbind_ok by (unfold slift; by rewrite Ec). rewrite (sbind_ok _ _ _ _ _ Ea).
    destruct (to_records _ Hok' rec' Hin') as [Ejs _]. eexists st', _. split; [reflexivity|]. split; [done|]. split.
    + intros k Hk. split; [|by auto]. rewrite Hbytes by done.
      rewrite (resolve_join st' _ rec' k); [|apply Hok'|done|exact Ejs|unfold occupies; simpl; lia]. cbn [offset varnode_addr from_parts get_unified voffset].
      rewrite Z.add_simpl_l, Ep. unfold join_bytes. rewrite On, Ho. assert (HA : sized A).
      { pose proof (sized_in_order _ Hs) as Hso. rewrite Ho in Hso. apply Forall_app in Hso. apply Hso. }
      destruct (bytes_cut A v1 M v2 B (k0 - total A) (k0 + size - 1 - total (A ++ v1 :: M))) as (pre & post & -> & Hpre); [done|lia|lia|].
      pose proof (length_bytes _ (sized_in_order _ Sn)) as Hbl. rewrite total_in_order, On in Hbl.
      rewrite lookup_app_r by lia. rewrite lookup_app_l by lia. f_equal. lia.
    + right. exists rec'. split; [|lia]. apply find_exact_spec; [apply Hok'|done].
Qed.

(** A value that runs over the end of a space whose addresses wrap around is
    given a join address whose bytes are the bytes of the value in the space. *)
Theorem wrapping_address_correct st addr size spc w :
  table_ok st -> space addr = Some spc -> spc = space_of (space_index spc) -> space_type spc <> Join ->
  is_heritaged spc = true -> allows_wrapped_range spc = true -> pow2_space spc w ->
  0 <= offset addr < 2 ^ w -> 0 < size < 2 ^ 31 -> size <= 2 ^ w < offset addr + size -> room st size ->
  exists st' addr', construct_wrapping_address addr size st = (st', Ok addr') /\ table_ok st' /\
    forall k, 0 <= k < size ->
      resolve st' addr' k = Some (from_parts (Some spc) (wrap_offset spc (u64 (offset addr + k)))).
Proof using Hjs.
  intros Hok Ha Hspc Hj Hh Hall [Hw Hhi] Ho Hs Hwrap Hroom.
  assert (Hp64 : 2 ^ w <= 2 ^ 64) by (apply Z.pow_le_mono_r; lia).
  set (dist := 2 ^ w - offset addr). assert (Hd : 0 < dist < size) by (unfold dist; lia).
  set (high := mk_VarnodeData (Some spc) (offset addr) dist). set (low := mk_VarnodeData (Some spc) 0 (size - dist)).
  set (ps := if is_big_endian spc then [high; low] else [low; high]).
  assert (Hplaced : forall v, v = high \/ v = low -> placed (is_big_endian spc) v).
  { intros v [-> | ->]; exists spc; split_and!; simpl; lia || done. }
  assert (Hps : Forall (placed (is_big_endian spc)) ps) by (unfold ps; destruct (is_big_endian spc) eqn:Eb; repeat constructor; auto).
  assert (Hsz : sized ps /\ length ps = 2%nat /\ total ps = size) by (unfold ps, sized; destruct (is_big_endian spc);
    (split_and!; [repeat constructor; simpl; lia|done|simpl; lia])).
  destruct Hsz as (Hsz & Hlen & Htot). rewrite <- Htot in Hroom.
  destruct (find_add_placed (is_big_endian spc) st ps Hok Hps Hsz ltac:(lia) ltac:(lia) Hroom) as (st' & rec & E & Hok' & Hin & Ep & Eu).
  destruct (to_records _ Hok' rec Hin) as [Ejs _].
  assert (Erun : construct_wrapping_address addr size st = (st', Ok (varnode_addr (get_unified rec)))).
  { unfold construct_wrapping_address. rewrite Ha, Hh, Hall, Hhi. cbn [negb].
    replace (u64 (u64 (2 ^ w - 1 - offset addr) + 1)) with dist by (rewrite (u64_small (_ - _ - _)), u64_small by lia; unfold dist; lia).
    rewrite (sw_small 64 size), (u64_small size) by (lia || (unfold is_s; lia)).
    destruct (Z.leb_spec size dist); [lia|]. rewrite (sw_small 32 dist), (sw_small 32 (size - dist)) by (lia || (unfold is_s; lia)).
    rewrite (uw_small 32 dist), (uw_small 32 (size - dist)) by (unfold is_u; lia). cbv zeta. fold high low ps.
    by rewrite (sbind_ok _ _ _ _ _ E). }
  exists st', (varnode_addr (get_unified rec)). split; [done|]. split; [done|]. intros k Hk.
  rewrite (resolve_join st' _ rec k); [|apply Hok'|done|exact Ejs|unfold occupies; simpl; lia].
  cbn [offset varnode_addr from_parts get_unified voffset]. rewrite Z.add_simpl_l, Ep. unfold join_bytes, in_order.
  rewrite (placed_endian (is_big_endian spc)) by (done || (intros ->; done)).
  assert (Eo : (if is_big_endian spc then ps else rev ps) = [high; low]) by (unfold ps; by destruct (is_big_endian spc)).
  rewrite Eo. assert (Hsz2 : sized [high; low]) by (repeat constructor; simpl; lia).
  rewrite (wrap_u64 spc w) by done. destruct (Z.lt_ge_cases k dist) as [Hlt|Hge].
  - rewrite (bytes_lookup [] high [low]) by (done || (simpl; lia)). simpl. rewrite Z.mod_small by lia.
    rewrite u64_small by lia. do 2 f_equal. lia.
  - rewrite (bytes_lookup [high] low []) by (done || (simpl; lia)). simpl. rewrite u64_small by lia. do 2 f_equal.
    apply (Z.mod_unique _ _ 1); unfold dist in *; lia.
Qed.

End Places.

(** *** Examples *)

Definition sample_join : AddrSpace := new_join false 4.
Definition sample_stack : AddrSpace := set_flags (new_processor "stack" false 4 1 5 0 1 1) ALLOWS_WRAPPED_RANGE.
Definition sample_spaces (i : Z) : AddrSpace := if i =? 5 then sample_stack else ram32.

Definition sample_base : JoinState := set_join_space table_new sample_join.

Lemma sample_base_ok : table_ok sample_spaces sample_join sample_base.
Proof.
  split; [|done|intros rec H; by apply elem_of_nil in H]. destruct table_wf_new as [? ? ? ? ?]. by split.
Qed.

Lemma sample_pieces_placed : Forall (placed sample_spaces false) sample_pieces.
Proof.
  repeat constructor; exists ram32; (split; [done|]; split; [done|]; split; [done|]; split; [done|]; simpl; lia).
Qed.

Lemma sample_table : exists st rec, find_add_join sample_pieces 0 sample_base = (st, Ok rec) /\
  table_ok sample_spaces sample_join st /\ rec ∈ splitlist st /\ whole rec /\ pieces rec = sample_pieces /\
  unified_offset rec = 0 /\ joinallocate st = 16 /\ length (splitlist st) = 1%nat.
Proof.
  destruct (find_add_placed sample_spaces sample_join false sample_base sample_pieces sample_base_ok sample_pieces_placed)
    as (st & rec & E & Hok & Hin & Ep & Eu); [repeat constructor|simpl; lia|simpl; lia|split; simpl; lia|].
  exists st, rec.
  assert (E1 : match (find_add_join sample_pieces 0 sample_base).2 with Ok r => unified_offset r | _ => 1 end = 0)
    by (vm_compute; reflexivity).
  assert (E2 : joinallocate (find_add_join sample_pieces 0 sample_base).1 = 16) by (vm_compute; reflexivity).
  assert (E3 : length (splitlist (find_add_join sample_pieces 0 sample_base).1) = 1%nat) by (vm_compute; reflexivity).
  rewrite E in E1, E2, E3. simpl in E1, E2, E3. split_and!; [done..| |done|done|done|done].
  unfold whole. rewrite Ep, Eu, E1. split_and!; [repeat constructor|vm_compute; done..].
Qed.

Lemma equivalent_address_correct_witness : exists rec,
  whole rec /\ pieces rec = sample_pieces /\ (get_equivalent_address rec 2).1 = address_new ram32 0x100.
Proof.
  destruct sample_table as (st & rec & _ & _ & _ & Hw & Ep & E0 & _). exists rec. split; [exact Hw|]. split; [exact Ep|].
  pose proof (equivalent_address_correct rec 2 Hw ltac:(lia) ltac:(lia)) as H. rewrite E0, Ep in H. change (0 + 2) with 2 in H.
  destruct (get_equivalent_address rec 2) as [a pos]. destruct H as [H _]. vm_compute in H. injection H as <-. reflexivity.
Defined.

(** Bytes 1 to 3 of the join are the second byte of the low piece and the first
    two of the high piece. *)
Lemma renormalize_correct_witness : exists st st' addr',
  renormalize_join_address (address_new sample_join 1) 3 st = (st', Ok addr') /\
  resolve st' addr' 0 = resolve st (address_new sample_join 1) 0 /\
  resolve st' addr' 1 = resolve st (address_new sample_join 1) 1.
Proof.
  destruct sample_table as (st & rec & _ & Hok & Hin & Hw & Ep & E0 & Ej & El).
  assert (Hu : unified_size rec = 6) by (destruct Hw as (_ & _ & -> & _); rewrite Ep; reflexivity).
  destruct (renormalize_correct sample_spaces sample_join eq_refl st (address_new sample_join 1) 3 rec)
    as (st' & addr' & E & _ & Hr & _); [exact Hok|exact Hin|exact Hw|reflexivity|lia|simpl; lia|simpl; lia|split; lia|].
  exists st, st', addr'. split; [exact E|]. split; apply Hr; lia.
Defined.

(** Eight bytes at the last four bytes of a 32-bit stack continue at zero. *)
Lemma wrapping_address_correct_witness : exists st' addr',
  construct_wrapping_address (address_new sample_stack (2 ^ 32 - 4)) 8 sample_base = (st', Ok addr') /\
  resolve st' addr' 5 = Some (address_new sample_stack 1).
Proof.
  destruct (wrapping_address_correct sample_spaces sample_join eq_refl sample_base (address_new sample_stack (2 ^ 32 - 4)) 8
    sample_stack 32) as (st' & addr' & E & _ & Hr);
    [exact sample_base_ok|reflexivity|reflexivity|discriminate|reflexivity|reflexivity|split; [lia|reflexivity]|simpl; lia|lia|simpl; lia|split; simpl; lia|].
  exists st', addr'. split; [exact E|]. rewrite Hr by lia. vm_compute. reflexivity.
Defined.

(** ** Merging neighbouring places *)

Section Merging.
Variable exact_register_name : AddrSpace -> Z -> Z -> string.
Variable space_of : Z -> AddrSpace.

(** A place of a known space of a power-of-two size. *)
Definition located (v : VarnodeData) : Prop :=
  exists s w, vspace v = Some s /\ s = space_of (space_index s) /\ pow2_space s w /\ 0 <= voffset v < 2 ^ w /\ 0 < vsize v.

(** The bytes from an offset on, with the wrap of the space. *)
Definition wrapped (s : AddrSpace) (off n : Z) : list Address :=
  (fun i => from_parts (Some s) (wrap_offset s (u64 (off + i)))) <$> seqZ 0 n.

(** The bytes of a place, most significant first. *)
Definition significant (v : VarnodeData) : list Address :=
  match vspace v with
  | Some s => if is_big_endian s then wrapped s (voffset v) (vsize v) else rev (wrapped s (voffset v) (vsize v))
  | None => []
  end.

Definition significant_all (ps : list VarnodeData) : list Address := concat (significant <$> ps).

Lemma wrapped_app s w off n m : pow2_space s w -> 0 <= n -> 0 <= m ->
  wrapped s off (n + m) = wrapped s off n ++ wrapped s (wrap_offset s (u64 (off + n))) m.
Proof.
  intros Hw Hn Hm. unfold wrapped. rewrite seqZ_app, fmap_app by lia. f_equal.
  replace (seqZ (0 + n) m) with (Z.add n <$> seqZ 0 m) by (rewrite fmap_add_seqZ; f_equal; lia).
  rewrite <- list_fmap_compose. apply list_fmap_ext. intros _ i _. simpl. f_equal.
  rewrite !(wrap_u64 s w) by done. rewrite Zplus_mod_idemp_l. f_equal. lia.
Qed.

Lemma extend_spec hi lo : located hi -> located lo -> vsize hi + vsize lo < 2 ^ 32 -> varnode_contiguous hi lo = true ->
  located (extend hi lo) /\ vsize (extend hi lo) = vsize hi + vsize lo /\
  significant (extend hi lo) = significant hi ++ significant lo.
Proof.
  intros (s & w & Hs & Es & Hw & Ho & Hz) (t & w' & Ht & Et & Hw' & Ho' & Hz') Hsum. unfold varnode_contiguous.
  case_bool_decide as Ek; [|done]. cbn [negb]. unfold space_key in Ek. rewrite Hs, Ht in Ek. simpl in Ek.
  assert (t = s) as -> by (rewrite Es, Et; congruence). rewrite Hs.
  assert (Esum : u32 (vsize hi + vsize lo) = vsize hi + vsize lo) by (apply uw_small; unfold is_u; lia).
  unfold extend. rewrite Hs. destruct (is_big_endian s) eqn:Eb; intros E%Z.eqb_eq.
  - split; [exists s, w; split_and!; simpl; lia || done|]. split; [done|]. unfold significant. simpl. rewrite Hs, Ht, Eb, Esum.
    rewrite (wrapped_app s w) by (done || lia). by rewrite E.
  - split; [exists s, w'; split_and!; simpl; lia || done|]. split; [done|]. unfold significant. simpl. rewrite Hs, Ht, Eb, Esum.
    rewrite Z.add_comm, (wrapped_app s w) by (done || lia). by rewrite E, rev_app_distr.
Qed.

Lemma merge_loop_spec seq : forall res hi informal out, located hi -> Forall located seq -> vsize hi + total seq < 2 ^ 32 ->
  merge_loop exact_register_name res hi informal seq = (out, false) ->
  significant_all out = significant_all res ++ significant hi ++ significant_all seq.
Proof.
  induction seq as [|lo seq IH]; intros res hi informal out Hhi Hseq Hsum; simpl.
  - intros [= <- _]. unfold significant_all. by rewrite fmap_app, concat_app.
  - apply Forall_cons in Hseq as [Hlo Hseq]. simpl in Hsum.
    assert (0 <= total seq) by (apply total_nonneg; eapply Forall_impl; [exact Hseq|]; intros v (s & w & Hv); apply Hv).
    assert (0 < vsize hi /\ 0 < vsize lo) by (destruct Hhi as (? & ? & Hhi), Hlo as (? & ? & Hlo); split; [apply Hhi|apply Hlo]).
    destruct (varnode_contiguous hi lo) eqn:Ec.
    + destruct (extend_spec hi lo Hhi Hlo ltac:(lia) Ec) as (He & Es & Eb). intros E. apply IH in E; [|done..|lia].
      rewrite E, Eb. unfold significant_all. simpl. by rewrite !app_assoc.
    + destruct informal; [done|]. intros E. apply IH in E; [|done..|lia]. rewrite E. unfold significant_all.
      rewrite fmap_app, concat_app. simpl. by rewrite app_nil_r, <- !app_assoc.
Qed.

(** Merging neighbouring places of a value does not move any of its bytes,
    whatever names the registers have. *)
Theorem merge_sequence_correct seq : Forall located seq -> total seq < 2 ^ 32 ->
  significant_all (merge_sequence exact_register_name seq) = significant_all seq.
Proof.
  intros Hseq Hsum. unfold merge_sequence. destruct (negb _); [done|]. destruct seq as [|v rest]; [done|].
  apply Forall_cons in Hseq as [Hv Hseq]. destruct (merge_loop _ [] v false rest) as [res informal] eqn:E.
  destruct informal; [done|]. apply merge_loop_spec in E; [|done..]. rewrite E. done.
Qed.

End Merging.

Lemma merge_sequence_correct_witness :
  let seq := [mk_VarnodeData (Some ram32) 0x102 2; mk_VarnodeData (Some ram32) 0x100 2] in
  merge_sequence (fun _ _ _ => "r0"%string) seq = [mk_VarnodeData (Some ram32) 0x100 4] /\
  significant_all [mk_VarnodeData (Some ram32) 0x100 4] = significant_all seq.
Proof.
  split; [reflexivity|].
  apply (merge_sequence_correct (fun _ _ _ => "r0"%string) sample_spaces
    [mk_VarnodeData (Some ram32) 0x102 2; mk_VarnodeData (Some ram32) 0x100 2]); [|simpl; lia].
  repeat constructor; exists ram32, 32; (split; [reflexivity|]; split; [reflexivity|]; split; [split; [lia|reflexivity]|simpl; lia]).
Defined.
