(* ===== verification/MemBank.v ===== *)
(** Memory banks and memory states, [src/src/memstate.rs]: the word operations
    of the read-only image, the page overlay and the hash overlay, the methods
    the trait derives from them, and the table of banks.  This file holds the
    definitions; the theorems are in the files that follow. *)
From stdpp Require Import base list numbers strings gmap.
From Stdlib Require Import ZArith Lia.
From S2P Require Import Prelude Bits Space Address LoadImage Join.
Local Open Scope Z_scope.
Local Open Scope rust_scope.

(** ** Definitions *)

Record MemoryBankBase : Type := mk_MemoryBankBase { bank_wordsize : Z; pagesize : Z; bank_space : AddrSpace }.

(** A negative [i32] cast to [usize] is past the end of every slice. *)
Definition usize_of (z : Z) : outcome nat := if z <? 0 then Panic else Ok (Z.to_nat z).

Definition construct_value (ptr : list Z) (size : Z) (bigendian : bool) : outcome Z :=
  let! n := usize_of size in
  let step := fun i res => let! b := index ptr i in Ok (u64 (shl64 res 8 + b)) in
  if bigendian then for_up n 0 step 0 else for_down n 0 step 0.

Definition deconstruct_value (ptr : list Z) (val size : Z) (bigendian : bool) : outcome (list Z) :=
  let! n := usize_of size in
  let step := fun i st =>
    let '(ptr, val) := st in
    let! ptr := store ptr i (Z.land val 0xff) in
    Ok (ptr, Z.shiftr val 8) in
  let! (ptr, _) := if bigendian then for_down n 0 step (ptr, val) else for_up n 0 step (ptr, val) in
  Ok ptr.

(** The three implementations of the trait.  [underlie] is a bank of its own;
    the overlays only read it.  The slices of the hash overlay are parallel. *)
Inductive MemoryBank : Type :=
  | MemoryImage (base : MemoryBankBase) (loader : LoadFill)
  | MemoryPageOverlay (base : MemoryBankBase) (underlie : option MemoryBank) (page : gmap Z (list Z))
  | MemoryHashOverlay (base : MemoryBankBase) (underlie : option MemoryBank) (alignshift collideskip : Z)
      (address value : list Z).

Definition bank_base (b : MemoryBank) : MemoryBankBase :=
  match b with
  | MemoryImage base _ | MemoryPageOverlay base _ _ | MemoryHashOverlay base _ _ _ _ _ => base
  end.

Definition image_new (spc : AddrSpace) (ws ps : Z) (ld : LoadFill) : MemoryBank :=
  MemoryImage (mk_MemoryBankBase ws ps spc) ld.

Definition page_overlay_new (spc : AddrSpace) (ws ps : Z) (ul : option MemoryBank) : MemoryBank :=
  MemoryPageOverlay (mk_MemoryBankBase ws ps spc) ul ∅.

(** [while remaining != 0 { alignshift += 1; remaining >>= 1; }] on a [u32]. *)
Fixpoint count_shift (fuel : nat) (remaining alignshift : Z) : Z :=
  match fuel with
  | O => alignshift
  | S fuel => if remaining =? 0 then alignshift else count_shift fuel (Z.shiftr remaining 1) (alignshift + 1)
  end.

Definition HASH_EMPTY : Z := 0xBADBEEF.

Definition hash_overlay_new (spc : AddrSpace) (ws ps hashsize : Z) (ul : option MemoryBank) : outcome MemoryBank :=
  let! n := usize_of hashsize in
  Ok (MemoryHashOverlay (mk_MemoryBankBase ws ps spc) ul (count_shift 33 (u32 (u32 ws - 1)) 0) 1023
    (replicate n HASH_EMPTY) (replicate n 0)).

(** *** The image *)

(** [find] of the image: the bytes of the word, little endian, swapped for a
    big-endian space; a word that is not available reads as zero.  A word of
    more than eight bytes would be a slice past the end of the buffer. *)
Definition image_find (base : MemoryBankBase) (loader : LoadFill) (addr : Z) : outcome Z :=
  let! n := usize_of (bank_wordsize base) in
  if (8 <? n)%nat then Panic else
  let! res :=
    match loader (replicate n 0) (address_new (bank_space base) addr) with
    | Ok bytes => Ok (be_val (rev bytes))
    | Err (DataUnavail _) => Ok 0
    | Err err => Err err
    | Panic => Panic
    | Diverge => Diverge
    end in
  Ok (if is_big_endian (bank_space base) then byte_swap res (bank_wordsize base) else res).

Definition image_get_page (base : MemoryBankBase) (loader : LoadFill) (addr : Z) (res : list Z) (skip size : Z)
    : outcome (list Z) :=
  let! n := usize_of size in
  let! target := slice_of res 0 n in
  match loader target (address_new (bank_space base) (u64 (addr + u64 skip))) with
  | Ok target => copy_at res 0 target
  | Err (DataUnavail _) => copy_at res 0 (replicate n 0)
  | Err err => Err err
  | Panic => Panic
  | Diverge => Diverge
  end.

(** *** The default [get_page] and [set_page] *)

(** The part of the word at [startalign] that a page access uses: where it
    starts in the word and how many bytes it has. *)
Definition page_chunk (ws addr startalign endaddr : Z) : Z * Z :=
  let '(start, chunk_size) :=
    if startalign <? addr then (u64 (addr - startalign), i64 (ws - i64 (addr - startalign))) else (0, ws) in
  let chunk_size :=
    if endaddr <? u64 (startalign + u64 ws)
    then i64 (chunk_size - i64 (u64 (u64 (startalign + u64 ws) - endaddr))) else chunk_size in
  (start, chunk_size).

(** [startalign] and [endalign] of a page access. *)
Definition page_bounds (ws addr skip size : Z) : Z * Z * Z :=
  let alignmask := u64 (u64 ws - 1) in
  let ptraddr := u64 (addr + u64 skip) in
  let endaddr := u64 (ptraddr + u64 size) in
  let startalign := Z.land ptraddr (not64 alignmask) in
  let endalign := Z.land endaddr (not64 alignmask) in
  let endalign := if negb (Z.land endaddr alignmask =? 0) then u64 (endalign + u64 ws) else endalign in
  (startalign, endalign, endaddr).

Definition get_page_step (base : MemoryBankBase) (find : Z -> outcome Z) (addr endalign endaddr : Z)
    (st : Z * nat * list Z) : outcome (Z * nat * list Z + list Z) :=
  let ws := bank_wordsize base in
  let '(startalign, position, res) := st in
  let! curval := find startalign in
  let curval := if is_big_endian (bank_space base) then byte_swap curval ws else curval in
  let bytes := le_bytes 8 curval in
  let '(start, chunk_size) := page_chunk ws addr startalign endaddr in
  let! (res, position) :=
    if 0 <? chunk_size then
      let count := Z.to_nat chunk_size in
      let! src := slice_of bytes (Z.to_nat start) count in
      let! res := copy_at res position src in
      Ok (res, (position + count)%nat)
    else Ok (res, position) in
  let startalign := u64 (startalign + u64 ws) in
  Ok (if startalign =? endalign then inr res else inl (startalign, position, res)).

(** An access of [size > 0] bytes touches at most [size + 1] words. *)
Definition default_get_page (base : MemoryBankBase) (find : Z -> outcome Z) (addr : Z) (res : list Z) (skip size : Z)
    : outcome (list Z) :=
  let '(startalign, endalign, endaddr) := page_bounds (bank_wordsize base) addr skip size in
  loop (S (S (Z.to_nat size))) (get_page_step base find addr endalign endaddr) (startalign, 0%nat, res).

(** *** Reading *)

(** The probe sequence of the hash overlay. *)
Definition hash_start (alignshift addr size : Z) : outcome Z :=
  if size =? 0 then Panic else Ok (Z.shiftr addr alignshift mod size).

(** [Some slot] where the address is found. *)
Fixpoint hash_search (n : nat) (collideskip : Z) (address : list Z) (addr offset : Z) : outcome (option nat) :=
  match n with
  | O => Ok None
  | S n =>
      let! a := index address (Z.to_nat offset) in
      if a =? addr then Ok (Some (Z.to_nat offset))
      else if a =? HASH_EMPTY then Ok None
      else hash_search n collideskip address addr (u64 (offset + collideskip) mod Z.of_nat (length address))
  end.

Fixpoint find (b : MemoryBank) (addr : Z) : outcome Z :=
  match b with
  | MemoryImage base loader => image_find base loader addr
  | MemoryPageOverlay base underlie page =>
      let pagemask := u64 (u64 (pagesize base) - 1) in
      let pageaddr := Z.land addr (not64 pagemask) in
      match page !! pageaddr with
      | None =>
          match underlie with
          | None => Ok 0
          | Some underlie => find underlie addr
          end
      | Some pagedata =>
          let pageoffset := Z.to_nat (Z.land addr pagemask) in
          let! rest := slice_from pagedata pageoffset in
          construct_value rest (bank_wordsize base) (is_big_endian (bank_space base))
      end
  | MemoryHashOverlay base underlie alignshift collideskip address value =>
      let! offset := hash_start alignshift addr (Z.of_nat (length address)) in
      let! slot := hash_search (length address) collideskip address addr offset in
      match slot with
      | Some slot => index value slot
      | None =>
          match underlie with
          | None => Ok 0
          | Some underlie => find underlie addr
          end
      end
  end.

Fixpoint get_page (b : MemoryBank) (addr : Z) (res : list Z) (skip size : Z) : outcome (list Z) :=
  match b with
  | MemoryImage base loader => image_get_page base loader addr res skip size
  | MemoryPageOverlay base underlie page =>
      match page !! addr with
      | None =>
          match underlie with
          | None =>
              let! n := usize_of size in
              copy_at res 0 (replicate n 0)
          | Some underlie => get_page underlie addr res skip size
          end
      | Some pagedata =>
          let! lo := usize_of skip in
          let! n := usize_of size in
          let! src := slice_of pagedata lo n in
          copy_at res 0 src
      end
  | MemoryHashOverlay base _ _ _ _ _ => default_get_page base (find b) addr res skip size
  end.

(** *** Writing *)

(** The page that a write changes, made from [underlie] when it is new. *)
Definition fetch_page (base : MemoryBankBase) (underlie : option MemoryBank) (fill : bool) (page : gmap Z (list Z))
    (pageaddr : Z) : outcome (list Z) :=
  match page !! pageaddr with
  | Some pagedata => Ok pagedata
  | None =>
      let! n := usize_of (pagesize base) in
      let pagedata := replicate n 0 in
      match underlie with
      | Some underlie => if fill then get_page underlie pageaddr pagedata 0 (pagesize base) else Ok pagedata
      | None => Ok pagedata
      end
  end.

(** The slot that takes the address: the one that has it or the first empty
    one. *)
Fixpoint hash_slot (n : nat) (collideskip : Z) (address : list Z) (addr offset : Z) : outcome nat :=
  match n with
  | O => Err (Lowlevel "Memory state hash_table is full")
  | S n =>
      let! a := index address (Z.to_nat offset) in
      if a =? addr then Ok (Z.to_nat offset)
      else if a =? HASH_EMPTY then Ok (Z.to_nat offset)
      else hash_slot n collideskip address addr (u64 (offset + collideskip) mod Z.of_nat (length address))
  end.

(** A failed call leaves the bank as it was. *)
Definition commit {A} (o : outcome A) (make : A -> MemoryBank) : stm MemoryBank unit := fun b =>
  match o with
  | Ok a => (make a, Ok tt)
  | Err e => (b, Err e)
  | Panic => (b, Panic)
  | Diverge => (b, Diverge)
  end.

Definition insert (addr val : Z) : stm MemoryBank unit := fun b =>
  match b with
  | MemoryImage _ _ => (b, Err (Lowlevel "Writing to read-only MemoryBank"))
  | MemoryPageOverlay base underlie page =>
      let pagemask := u64 (u64 (pagesize base) - 1) in
      let pageaddr := Z.land addr (not64 pagemask) in
      let pageoffset := Z.to_nat (Z.land addr pagemask) in
      commit (
        let! pagedata := fetch_page base underlie true page pageaddr in
        let! rest := slice_from pagedata pageoffset in
        let! rest := deconstruct_value rest val (bank_wordsize base) (is_big_endian (bank_space base)) in
        Ok (take pageoffset pagedata ++ rest))
        (fun pagedata => MemoryPageOverlay base underlie (<[pageaddr := pagedata]> page)) b
  | MemoryHashOverlay base underlie alignshift collideskip address value =>
      commit (
        let! offset := hash_start alignshift addr (Z.of_nat (length address)) in
        let! slot := hash_slot (length address) collideskip address addr offset in
        let! address := store address slot addr in
        let! value := store value slot val in
        Ok (address, value))
        (fun '(address, value) => MemoryHashOverlay base underlie alignshift collideskip address value) b
  end.

Definition set_page_step (base : MemoryBankBase) (addr endalign endaddr : Z) (val : list Z) (st : Z * nat)
    : stm MemoryBank (Z * nat + unit) :=
  let ws := bank_wordsize base in
  let '(startalign, position) := st in
  let '(start, chunk_size) := page_chunk ws addr startalign endaddr in
  let count := Z.to_nat (Z.max chunk_size 0) in
  do! b <- sget ;;
  do! curval <- slift (
    if negb (chunk_size =? ws) then
      let! curval := find b startalign in
      let! src := slice_of val position count in
      let! bytes := copy_at (le_bytes 8 curval) (Z.to_nat start) src in
      Ok (be_val (rev bytes))
    else
      let available := Nat.min (length val - position) 8 in
      let! src := slice_of val position available in
      Ok (be_val (rev (src ++ replicate (8 - available) 0)))) ;;
  let curval := if is_big_endian (bank_space base) then byte_swap curval ws else curval in
  insert startalign curval ;;!
  let startalign := u64 (startalign + u64 ws) in
  sret (if startalign =? endalign then inr tt else inl (startalign, (position + count)%nat)).

Definition default_set_page (base : MemoryBankBase) (addr : Z) (val : list Z) (skip size : Z) : stm MemoryBank unit :=
  let '(startalign, endalign, endaddr) := page_bounds (bank_wordsize base) addr skip size in
  sloop (S (S (Z.to_nat size))) (set_page_step base addr endalign endaddr val) (startalign, 0%nat).

Definition set_page (addr : Z) (val : list Z) (skip size : Z) : stm MemoryBank unit := fun b =>
  match b with
  | MemoryPageOverlay base underlie page =>
      commit (
        let! pagedata := fetch_page base underlie (negb (size =? pagesize base)) page addr in
        let! lo := usize_of skip in
        let! n := usize_of size in
        let! src := slice_of val 0 n in
        copy_at pagedata lo src)
        (fun pagedata => MemoryPageOverlay base underlie (<[addr := pagedata]> page)) b
  | MemoryImage base _ | MemoryHashOverlay base _ _ _ _ _ => default_set_page base addr val skip size b
  end.

(** *** Values and chunks *)

Definition set_value (off size val : Z) : stm MemoryBank unit :=
  do! b <- sget ;;
  let ws := bank_wordsize (bank_base b) in
  let bigendian := is_big_endian (bank_space (bank_base b)) in
  let alignmask := u64 (u64 ws - 1) in
  let ind := Z.land off (not64 alignmask) in
  let ind2 := u64 (ind + u64 ws) in
  let skip := i32 (Z.land off alignmask) in
  let size1 := i32 (ws - skip) in
  if size1 <? size then
    let size2 := i32 (size - size1) in
    do! val1 <- slift (find b ind) ;;
    do! val2 <- slift (find b ind2) ;;
    let gap := i32 (i32 (ws - size2) * 8) in
    let skip := i32 (skip * 8) in
    if bigendian then
      let val1 := Z.land val1 (shl64 (2 ^ 64 - 1) (u32 (i32 (8 * size1)))) in
      let val1 := Z.lor val1 (shr64 val (u32 (i32 (8 * size2)))) in
      insert ind val1 ;;!
      let val2 := Z.land val2 (shr64 (2 ^ 64 - 1) (u32 (i32 (8 * size2)))) in
      let val2 := Z.lor val2 (shl64 val (u32 gap)) in
      insert ind2 val2
    else
      let val1 := Z.land val1 (shr64 (2 ^ 64 - 1) (u32 (i32 (8 * size1)))) in
      let val1 := Z.lor val1 (shl64 val (u32 skip)) in
      insert ind val1 ;;!
      let val2 := Z.land val2 (shl64 (2 ^ 64 - 1) (u32 (i32 (8 * size2)))) in
      let val2 := Z.lor val2 (shr64 val (u32 (i32 (8 * size1)))) in
      insert ind2 val2
  else if size =? ws then insert ind val
  else
    do! val1 <- slift (find b ind) ;;
    let gap := i32 (i32 (size1 - size) * 8) in
    let skip := i32 (skip * 8) in
    let sa := u32 (if bigendian then gap else skip) in
    let val1 := Z.land val1 (not64 (shl64 (calc_mask size) sa)) in
    let val1 := Z.lor val1 (shl64 val sa) in
    insert ind val1.

Definition get_value (b : MemoryBank) (off size : Z) : outcome Z :=
  let ws := bank_wordsize (bank_base b) in
  let bigendian := is_big_endian (bank_space (bank_base b)) in
  let alignmask := u64 (u64 ws - 1) in
  let ind := Z.land off (not64 alignmask) in
  let skip := i32 (Z.land off alignmask) in
  let size1 := i32 (ws - skip) in
  if size1 <? size then
    let size2 := i32 (size - size1) in
    let! val1 := find b ind in
    let! val2 := find b (u64 (ind + u64 ws)) in
    let gap := i32 (ws - size2) in
    let res :=
      if bigendian then Z.lor (shl64 val1 (u32 (i32 (8 * size2)))) (shr64 val2 (u32 (i32 (8 * gap))))
      else Z.lor (shr64 val1 (u32 (i32 (skip * 8)))) (shl64 val2 (u32 (i32 (size1 * 8)))) in
    Ok (Z.land res (calc_mask size))
  else
    let! val1 := find b ind in
    if size =? ws then Ok val1
    else
      let gap := i32 (size1 - size) in
      let res := if bigendian then shr64 val1 (u32 (i32 (8 * gap))) else shr64 val1 (u32 (i32 (skip * 8))) in
      Ok (Z.land res (calc_mask size)).

(** The part of a chunk that lies in one page: the page, where the part starts
    in it and its size. *)
Definition chunk_part (ps off size count : Z) : Z * Z * Z :=
  let pagemask := u64 (u64 ps - 1) in
  let offalign := Z.land off (not64 pagemask) in
  let '(skip, cursize) :=
    if negb (offalign =? off) then
      let skip := i32 (u64 (off - offalign)) in
      (skip, i32 (ps - skip))
    else (0, ps) in
  let cursize := if i32 (size - count) <? cursize then i32 (size - count) else cursize in
  (offalign, skip, cursize).

Definition set_chunk_step (size : Z) (val : list Z) (st : Z * Z) : stm MemoryBank (Z * Z + unit) :=
  let '(off, count) := st in
  if count <? size then
    do! b <- sget ;;
    let '(offalign, skip, cursize) := chunk_part (pagesize (bank_base b)) off size count in
    do! n <- slift (usize_of count) ;;
    do! rest <- slift (slice_from val n) ;;
    set_page offalign rest skip cursize ;;!
    sret (inl (u64 (off + u64 cursize), i32 (count + cursize)))
  else sret (inr tt).

(** A part that lies in a page of positive size has at least one byte, so
    [size + 1] rounds are enough. *)
Definition set_chunk (off size : Z) (val : list Z) : stm MemoryBank unit :=
  sloop (S (Z.to_nat size)) (set_chunk_step size val) (off, 0).

Definition get_chunk_step (b : MemoryBank) (size : Z) (st : Z * Z * list Z) : outcome (Z * Z * list Z + list Z) :=
  let '(off, count, res) := st in
  if count <? size then
    let '(offalign, skip, cursize) := chunk_part (pagesize (bank_base b)) off size count in
    let! n := usize_of count in
    let! rest := slice_from res n in
    let! rest := get_page b offalign rest skip cursize in
    Ok (inl (u64 (off + u64 cursize), i32 (count + cursize), take n res ++ rest))
  else Ok (inr res).

Definition get_chunk (b : MemoryBank) (off size : Z) (res : list Z) : outcome (list Z) :=
  loop (S (Z.to_nat size)) (get_chunk_step b size) (off, 0, res).

(** ** The table of banks *)

(** [MemoryState] without its translator, whose register table is an argument
    of the operations that use names. *)
Record MemoryState : Type := mk_MemoryState { memspace : list (option MemoryBank) }.

Definition state_new : MemoryState := mk_MemoryState [].

Definition set_memory_bank (st : MemoryState) (bank : MemoryBank) : MemoryState :=
  let ix := Z.to_nat (space_index (bank_space (bank_base bank))) in
  let banks := memspace st ++ replicate (S ix - length (memspace st)) None in
  mk_MemoryState (<[ix := Some bank]> banks).

Definition get_memory_bank (st : MemoryState) (spc : AddrSpace) : option MemoryBank :=
  match memspace st !! Z.to_nat (space_index spc) with
  | Some (Some bank) => Some bank
  | _ => None
  end.

(** A method of the bank of a space, run on the state. *)
Definition with_bank (spc : AddrSpace) (missing : string) (f : stm MemoryBank unit) : stm MemoryState unit := fun st =>
  match get_memory_bank st spc with
  | None => (st, Err (Lowlevel (missing +:+ name spc)))
  | Some bank =>
      let '(bank, r) := f bank in
      (mk_MemoryState (<[Z.to_nat (space_index spc) := Some bank]> (memspace st)), r)
  end.

Definition state_set_value (spc : AddrSpace) (off size cval : Z) : stm MemoryState unit :=
  with_bank spc "Setting value for unmapped memory space: " (set_value off size cval).

Definition state_get_value (st : MemoryState) (spc : AddrSpace) (off size : Z) : outcome Z :=
  if bool_decide (space_type spc = Constant) then Ok off
  else
    match get_memory_bank st spc with
    | None => Err (Lowlevel ("Getting value from unmapped memory space: " +:+ name spc))
    | Some mspace => get_value mspace off size
    end.

Definition vnode_space (vn : VarnodeData) : outcome AddrSpace :=
  match vspace vn with Some spc => Ok spc | None => Panic end.

Definition set_value_varnode (vn : VarnodeData) (cval : Z) : stm MemoryState unit :=
  do! spc <- slift (vnode_space vn) ;;
  state_set_value spc (voffset vn) (i32 (vsize vn)) cval.

Definition get_value_varnode (st : MemoryState) (vn : VarnodeData) : outcome Z :=
  let! spc := vnode_space vn in
  state_get_value st spc (voffset vn) (i32 (vsize vn)).

Definition set_value_by_name (get_register : string -> outcome VarnodeData) (nm : string) (cval : Z)
    : stm MemoryState unit :=
  do! vdata <- slift (get_register nm) ;;
  set_value_varnode vdata cval.

Definition get_value_by_name (get_register : string -> outcome VarnodeData) (st : MemoryState) (nm : string) : outcome Z :=
  let! vdata := get_register nm in
  get_value_varnode st vdata.

Definition state_get_chunk (st : MemoryState) (res : list Z) (spc : AddrSpace) (off size : Z) : outcome (list Z) :=
  match get_memory_bank st spc with
  | None => Err (Lowlevel ("Getting chunk from unmapped memory space: " +:+ name spc))
  | Some mspace => get_chunk mspace off size res
  end.

Definition state_set_chunk (val : list Z) (spc : AddrSpace) (off size : Z) : stm MemoryState unit :=
  with_bank spc "Setting chunk of unmapped memory space: " (set_chunk off size val).

(** ** Runs *)

Definition le_space : AddrSpace := new_processor "ram" false 8 1 3 0 0 0.
Definition be_space : AddrSpace := new_processor "ram" true 8 1 3 0 0 0.

Definition run {A} (m : stm MemoryBank A) (b : MemoryBank) : MemoryBank := fst (m b).

(** Values that cross words and pages, in both byte orders. *)
Example page_overlay_runs :
  let b := run (set_value 4093 7 0x11223344556677) (page_overlay_new le_space 8 4096 None) in
  let c := run (set_value 4093 7 0x11223344556677) (page_overlay_new be_space 8 4096 None) in
  get_value b 4093 7 = Ok 0x11223344556677 /\ get_value b 4096 2 = Ok 0x3344 /\
  get_value c 4093 7 = Ok 0x11223344556677 /\ get_value c 4096 2 = Ok 0x4455 /\
  get_chunk b 4094 4 [0; 0; 0; 0] = Ok [0x66; 0x55; 0x44; 0x33] /\
  get_chunk (run (set_chunk 4094 4 [1; 2; 3; 4]) b) 4092 8 (replicate 8 0) = Ok [0; 0x77; 1; 2; 3; 4; 0x22; 0x11].
Proof. vm_compute. done. Qed.
