(* ===== verification/MemWords.v ===== *)
(** [get_value] and [set_value] of a memory bank: the value of any size and
    alignment is spelled by its bytes in the byte order of the space.  The
    theorems are proved against an interface, [WordBank], that says what the
    word operations [find] and [insert] of an implementation promise. *)
From stdpp Require Import base list numbers strings gmap.
From Stdlib Require Import ZArith Lia.
From S2P Require Import Prelude Bits Space Address LoadImage MemBank.
Local Open Scope Z_scope.
Local Open Scope rust_scope.

(** ** Bytes of a word *)

(** The [k]-th byte of a word, least significant first. *)
Definition byte (z k : Z) : Z := u8 (Z.shiftr z (8 * k)).

(** Where that byte lies in memory, for a value of [n] bytes. *)
Definition place (be : bool) (n k : Z) : Z := if be then n - 1 - k else k.

Lemma byte_bit z k j : 0 <= k -> 0 <= j < 8 -> Z.testbit (byte z k) j = Z.testbit z (8 * k + j).
Proof.
  intros. unfold byte. rewrite testbit_uw by lia. destruct (Z.ltb_spec j 8); [|lia]. simpl.
  rewrite Z.shiftr_spec by lia. f_equal. lia.
Qed.

Lemma byte_u8 z k : is_u8 (byte z k).
Proof. by apply uw_range. Qed.

(** Bytes are equal when their eight bits are. *)
Lemma u8_bits a b : is_u8 a -> is_u8 b -> (forall j, 0 <= j < 8 -> Z.testbit a j = Z.testbit b j) -> a = b.
Proof.
  intros Ha Hb H. apply Z.bits_inj'. intros j Hj. destruct (decide (j < 8)) as [|]; [by apply H|].
  by rewrite (testbit_above 8 a), (testbit_above 8 b) by (try done; lia).
Qed.

Lemma byte_eq a b i k : 0 <= i -> 0 <= k ->
  (forall j, 0 <= j < 8 -> Z.testbit a (8 * i + j) = Z.testbit b (8 * k + j)) -> byte a i = byte b k.
Proof.
  intros Hi Hk H. apply u8_bits; [apply byte_u8..|]. intros j Hj. by rewrite !byte_bit, H.
Qed.

(** [v] is the value of the [n] bytes of [m] at [a]. *)
Definition holds (be : bool) (m : Z -> Z) (a n v : Z) : Prop :=
  is_u (8 * n) v /\ forall k, 0 <= k < n -> byte v k = m (u64 (a + place be n k)).

(** The memory after the [n] low bytes of [v] are stored at [a]. *)
Definition write (be : bool) (m : Z -> Z) (a n v : Z) : Z -> Z := fun x =>
  let d := u64 (x - a) in if d <? n then byte v (place be n d) else m x.

Definition aligned (w a : Z) : Prop := is_u64 a /\ a mod w = 0.

(** What the implementations of the trait promise: words are read as the bytes
    of a memory, and a bank that can be written puts them there in memory
    order. *)
Class WordReader (e : Z) (be : bool) (inv : MemoryBank -> (Z -> Z) -> Prop) : Prop := {
  wb_size : 0 <= e <= 3;
  wb_base b m : inv b m -> bank_wordsize (bank_base b) = 2 ^ e /\ is_big_endian (bank_space (bank_base b)) = be;
  wb_mem b m x : inv b m -> is_u64 x -> is_u8 (m x);
  wb_find b m a : inv b m -> aligned (2 ^ e) a -> exists v, find b a = Ok v /\ holds be m a (2 ^ e) v
}.

Class WordBank (e : Z) (be : bool) (inv : MemoryBank -> (Z -> Z) -> Prop) : Prop := {
  wb_reader :: WordReader e be inv;
  wb_ext b m m' : inv b m -> (forall x, is_u64 x -> m x = m' x) -> inv b m';
  wb_insert b m a v : inv b m -> aligned (2 ^ e) a -> is_u64 v ->
    exists b', insert a v b = (b', Ok tt) /\ inv b' (write be m a (2 ^ e) v)
}.

(** ** Alignment *)

Lemma pow2_mask e : 0 <= e <= 63 -> u64 (u64 (2 ^ e) - 1) = Z.ones e.
Proof.
  intros He. pose proof (Z.pow_lt_mono_r 2 e 64). pose proof (pow2_pos e ltac:(lia)).
  rewrite (uw_small 64 (2 ^ e)) by (unfold is_u; lia). rewrite uw_small by (unfold is_u; lia).
  rewrite Z.ones_equiv. lia.
Qed.

Lemma land_align off e : 0 <= e <= 63 -> is_u64 off -> Z.land off (not64 (Z.ones e)) = off - off mod 2 ^ e.
Proof.
  intros He Hoff. unfold not64. rewrite <- land_ones_uw by lia. rewrite Z.land_assoc, (Z.land_comm _ (Z.ones 64)).
  rewrite Z.land_assoc, (Z.land_comm (Z.ones 64)), land_ones_uw, (uw_small 64 off) by (try done; lia).
  rewrite <- Z.ldiff_land, Z.ldiff_ones_r by lia. rewrite Z.shiftr_div_pow2, Z.shiftl_mul_pow2 by lia.
  pose proof (Z.div_mod off (2 ^ e)). pose proof (pow2_pos e). lia.
Qed.

Lemma align_down off e : 0 <= e <= 63 -> is_u64 off -> aligned (2 ^ e) (off - off mod 2 ^ e).
Proof.
  intros He Hoff. pose proof (pow2_pos e ltac:(lia)). pose proof (Z.mod_pos_bound off (2 ^ e) ltac:(lia)).
  pose proof (Z.mod_le off (2 ^ e)). unfold is_u in *. split; [unfold is_u in *; lia|].
  replace (off - off mod 2 ^ e) with (off / 2 ^ e * 2 ^ e) by (pose proof (Z.div_mod off (2 ^ e)); lia).
  apply Z.mod_mul. lia.
Qed.

(** The next word; past the last one the address wraps to zero. *)
Lemma align_next a e : 0 <= e <= 63 -> aligned (2 ^ e) a -> aligned (2 ^ e) (u64 (a + 2 ^ e)).
Proof.
  intros He [Ha Hm]. split; [by apply uw_range|]. pose proof (pow2_pos e ltac:(lia)).
  unfold uw. replace 64 with (e + (64 - e)) by lia. rewrite Z.pow_add_r by lia.
  rewrite Z.rem_mul_r by lia. rewrite (Z.mul_comm (2 ^ e)), Z.mod_add, Z.mod_mod by lia.
  rewrite <- Zplus_mod_idemp_r, Z.mod_same, Z.add_0_r by lia. done.
Qed.

(** ** Shifts by whole bytes *)

Lemma shl64_bit x n i : 0 <= n < 64 -> 0 <= i -> Z.testbit (shl64 x n) i = (i <? 64) && Z.testbit x (i - n).
Proof.
  intros. unfold shl64. rewrite testbit_uw by lia. rewrite (Z.mod_small n) by lia. by rewrite Z.shiftl_spec by lia.
Qed.

Lemma shr64_bit x n i : 0 <= n < 64 -> 0 <= i -> Z.testbit (shr64 x n) i = Z.testbit x (i + n).
Proof. intros. unfold shr64. rewrite (Z.mod_small n) by lia. by rewrite Z.shiftr_spec by lia. Qed.

Lemma not64_bit x i : 0 <= i < 64 -> Z.testbit (not64 x) i = negb (Z.testbit x i).
Proof.
  intros. unfold not64. rewrite testbit_uw by lia. destruct (Z.ltb_spec i 64); [|lia]. by rewrite Z.lnot_spec by lia.
Qed.

Lemma mask_bit n i : 0 <= n <= 8 -> 0 <= i -> Z.testbit (calc_mask n) i = (i <? 8 * n).
Proof.
  intros. rewrite calc_mask_size by done. rewrite Z.testbit_ones by lia.
  destruct (Z.leb_spec 0 i); [|lia]. done.
Qed.

Lemma all_ones_bit i : 0 <= i -> Z.testbit (2 ^ 64 - 1) i = (i <? 64).
Proof.
  intros. replace (2 ^ 64 - 1) with (Z.ones 64) by done. rewrite Z.testbit_ones by lia.
  destruct (Z.leb_spec 0 i); [done|lia].
Qed.

(** Evaluates the bit tests of a goal whose positions [lia] can compare. *)
Ltac bits :=
  rewrite ?Z.lor_spec, ?Z.land_spec, ?shl64_bit, ?shr64_bit, ?not64_bit, ?mask_bit, ?all_ones_bit by lia;
  rewrite ?shl64_bit, ?shr64_bit, ?mask_bit, ?all_ones_bit by lia;
  repeat match goal with |- context [?a <? ?b] => destruct (Z.ltb_spec a b); try lia end;
  rewrite ?andb_true_r, ?andb_false_r, ?orb_false_r, ?andb_true_l; cbn [andb orb negb].

(** A value stored [s] bytes up in the word [a]: the single-word store. *)
Lemma store_inside a v s n k : 0 <= s -> 1 <= n -> s + n <= 8 -> is_u (8 * n) v -> 0 <= k < 8 ->
  byte (Z.lor (Z.land a (not64 (shl64 (calc_mask n) (8 * s)))) (shl64 v (8 * s))) k =
    if (s <=? k) && (k <? s + n) then byte v (k - s) else byte a k.
Proof.
  intros Hs Hn Hsn Hv Hk. destruct (Z.leb_spec s k); [destruct (Z.ltb_spec k (s + n))|]; cbn [andb];
    apply byte_eq; try lia; intros j Hj; bits.
  - f_equal. lia.
  - rewrite (testbit_above (8 * n) v) by (try done; lia). by rewrite orb_false_r.
  - rewrite (Z.testbit_neg_r _ (8 * k + j - 8 * s)), (Z.testbit_neg_r v) by lia. by rewrite andb_true_r, orb_false_r.
Qed.

(** The word that takes the value above its [s] low bytes. *)
Lemma store_high a v s k : 0 < s < 8 -> 0 <= k < 8 ->
  byte (Z.lor (Z.land a (shr64 (2 ^ 64 - 1) (8 * (8 - s)))) (shl64 v (8 * s))) k =
    if k <? s then byte a k else byte v (k - s).
Proof.
  intros Hs Hk. destruct (Z.ltb_spec k s); apply byte_eq; try lia; intros j Hj; bits.
  - rewrite (Z.testbit_neg_r v) by lia. by rewrite orb_false_r.
  - f_equal. lia.
Qed.

(** The word that takes the part of the value above its [r] low bytes into
    its own [s] low bytes. *)
Lemma store_low a v s r k : 0 < s < 8 -> 0 < r < 8 -> is_u (8 * (s + r)) v -> 0 <= k < 8 ->
  byte (Z.lor (Z.land a (shl64 (2 ^ 64 - 1) (8 * s))) (shr64 v (8 * r))) k =
    if k <? s then byte v (k + r) else byte a k.
Proof.
  intros Hs Hr Hv Hk. destruct (Z.ltb_spec k s); apply byte_eq; try lia; intros j Hj; bits.
  - rewrite (Z.testbit_neg_r _ (8 * k + j - 8 * s)) by lia. rewrite andb_false_r. simpl. f_equal. lia.
  - rewrite (testbit_above (8 * (s + r)) v) by (try done; lia). by rewrite orb_false_r.
Qed.

(** ** Reading a value *)

Lemma pow_words e : 0 <= e <= 3 -> 1 <= 2 ^ e <= 8.
Proof. intros. assert (e = 0 \/ e = 1 \/ e = 2 \/ e = 3) as [->|[->|[->| ->]]] by lia; lia. Qed.

Lemma holds_bit be m a n v k j : holds be m a n v -> 0 <= k < n -> 0 <= j < 8 ->
  Z.testbit v (8 * k + j) = Z.testbit (m (u64 (a + place be n k))) j.
Proof. intros [_ H] Hk Hj. rewrite <- H by done. symmetry. apply byte_bit; lia. Qed.

Lemma holds_above be m a n v i : holds be m a n v -> 0 <= 8 * n <= i -> Z.testbit v i = false.
Proof. intros [H _] Hi. by apply (testbit_above (8 * n)). Qed.

(** A masked value is right when its bits are. *)
Lemma holds_masked be m a n r : 0 <= n <= 8 -> (forall x, is_u64 x -> is_u8 (m x)) ->
  (forall k j, 0 <= k < n -> 0 <= j < 8 -> Z.testbit r (8 * k + j) = Z.testbit (m (u64 (a + place be n k))) j) ->
  holds be m a n (Z.land r (calc_mask n)).
Proof.
  intros Hn Hm Hlow. split.
  - rewrite calc_mask_size, land_ones_uw by lia. apply uw_range. lia.
  - intros k Hk. apply u8_bits; [apply byte_u8|apply Hm, uw_range; lia|]. intros j Hj.
    rewrite byte_bit, Z.land_spec, mask_bit by lia. destruct (Z.ltb_spec (8 * k + j) (8 * n)); [|lia].
    rewrite andb_true_r. by apply Hlow.
Qed.

Lemma u64_shift a b c : u64 (u64 (a + b) + c) = u64 (a + b + c).
Proof. unfold uw. by rewrite Zplus_mod_idemp_l. Qed.

Lemma u64_sub x a b : u64 (x - (a + b)) = u64 (u64 (x - a) - b).
Proof. unfold uw. rewrite Zminus_mod_idemp_l. f_equal. lia. Qed.

(** The [i32] and [u32] casts of sizes and bit counts do nothing. *)
Lemma i32_id z : -128 <= z <= 128 -> i32 z = z.
Proof. intros. apply sw_small; [lia|]. unfold is_s. lia. Qed.

Lemma u32_id z : 0 <= z <= 128 -> u32 z = z.
Proof. intros. apply uw_small. unfold is_u. lia. Qed.

Ltac sizes :=
  repeat match goal with
  | |- context [sw 32 ?z] => rewrite (i32_id z) by lia
  | |- context [uw 32 ?z] => rewrite (u32_id z) by lia
  end.

Lemma place_place be n k : place be n (place be n k) = k.
Proof. unfold place. destruct be; lia. Qed.

Lemma place_range be n k : 0 <= k < n -> 0 <= place be n k < n.
Proof. unfold place. destruct be; lia. Qed.

Lemma u64_back x a : is_u64 x -> u64 (a + u64 (x - a)) = x.
Proof.
  intros Hx. unfold uw. rewrite Zplus_mod_idemp_r. replace (a + (x - a)) with x by lia. by apply Z.mod_small.
Qed.

(** The distance of a byte from the value, in terms of its distance from the
    word the value starts in. *)
Lemma off_distance x ind skip size : is_u64 x -> 0 <= skip <= 8 -> 0 <= size <= 8 -> let d := u64 (x - ind) in
  (u64 (x - (ind + skip)) <? size) = (skip <=? d) && (d <? skip + size) /\
  (skip <= d < skip + size -> u64 (x - (ind + skip)) = d - skip).
Proof.
  intros Hx Hs Hn d. assert (is_u64 d) as Hd by (apply uw_range; lia). rewrite u64_sub. fold d. unfold is_u in Hd.
  destruct (Z.leb_spec skip d).
  - rewrite uw_small by (unfold is_u; lia). split; [|done]. cbn [andb].
    destruct (Z.ltb_spec (d - skip) size), (Z.ltb_spec d (skip + size)); lia.
  - split; [|lia]. cbn [andb]. apply Z.ltb_ge.
    assert (u64 (d - skip) = d - skip + 2 ^ 64) as ->; [|lia].
    rewrite <- (uw_small 64 (d - skip + 2 ^ 64)) by (unfold is_u; lia). unfold uw.
    rewrite <- (Z.mul_1_l (2 ^ 64)) at 2. by rewrite Z.mod_add by lia.
Qed.

(** A store into one word. *)
Lemma write_inside be m ind skip w size v1 v' val : holds be m ind w v1 -> 1 <= w <= 8 -> 0 <= skip -> 1 <= size ->
  skip + size <= w -> let s := if be then w - skip - size else skip in
  (forall k, 0 <= k < w -> byte v' k = if (s <=? k) && (k <? s + size) then byte val (k - s) else byte v1 k) ->
  forall x, is_u64 x -> write be m ind w v' x = write be m (ind + skip) size val x.
Proof.
  intros H1 Hw Hskip Hsize Hfit s Hv' x Hx. unfold write.
  destruct (off_distance x ind skip size Hx ltac:(lia) ltac:(lia)) as [-> Hd].
  set (d := u64 (x - ind)) in *. assert (is_u64 d) as Hdr by (apply uw_range; lia). unfold is_u in Hdr.
  destruct (Z.ltb_spec d w) as [Hdw|Hdw].
  - rewrite Hv' by (apply place_range; lia).
    assert ((s <=? place be w d) && (place be w d <? s + size) = (skip <=? d) && (d <? skip + size)) as ->.
    { unfold s, place. destruct be; [|done].
      destruct (Z.leb_spec (w - skip - size) (w - 1 - d)), (Z.ltb_spec (w - 1 - d) (w - skip - size + size)),
        (Z.leb_spec skip d), (Z.ltb_spec d (skip + size)); done || lia. }
    destruct (Z.leb_spec skip d), (Z.ltb_spec d (skip + size)); cbn [andb].
    + rewrite Hd by lia. f_equal. unfold s, place. destruct be; lia.
    + rewrite (proj2 H1) by (apply place_range; lia). rewrite place_place. f_equal. by apply u64_back.
    + rewrite (proj2 H1) by (apply place_range; lia). rewrite place_place. f_equal. by apply u64_back.
    + lia.
  - destruct (Z.leb_spec skip d), (Z.ltb_spec d (skip + size)); cbn [andb]; done || lia.
Qed.

(** A store into two words of eight bytes. *)
Lemma write_across be m ind skip size v1 v2 v1' v2' val : holds be m ind 8 v1 -> holds be m (u64 (ind + 8)) 8 v2 ->
  0 <= skip < 8 -> size <= 8 -> 8 - skip < size -> let size2 := skip + size - 8 in
  (forall k, 0 <= k < 8 -> byte v1' k =
    if be then (if k <? 8 - skip then byte val (k + size2) else byte v1 k)
    else (if k <? skip then byte v1 k else byte val (k - skip))) ->
  (forall k, 0 <= k < 8 -> byte v2' k =
    if be then (if k <? 8 - size2 then byte v2 k else byte val (k - (8 - size2)))
    else (if k <? size2 then byte val (k + (8 - skip)) else byte v2 k)) ->
  forall x, is_u64 x -> write be (write be m ind 8 v1') (u64 (ind + 8)) 8 v2' x = write be m (ind + skip) size val x.
Proof.
  intros H1 H2 Hskip Hsize Hlong size2 Hv1 Hv2 x Hx. unfold write at 1 3.
  destruct (off_distance x ind skip size Hx ltac:(lia) ltac:(lia)) as [-> Hd].
  assert (u64 (x - u64 (ind + 8)) = u64 (x - (ind + 8))) as -> by (unfold uw; by rewrite Zminus_mod_idemp_r).
  destruct (off_distance x ind 8 8 Hx ltac:(lia) ltac:(lia)) as [-> Hd2]. unfold write.
  set (d := u64 (x - ind)) in *. assert (is_u64 d) as Hdr by (apply uw_range; lia). unfold is_u in Hdr.
  destruct (Z.leb_spec 8 d); [destruct (Z.ltb_spec d (8 + 8))|]; cbn [andb].
  - rewrite Hd2 by lia. rewrite Hv2 by (apply place_range; lia).
    assert (byte v2 (place be 8 (d - 8)) = m x) as Hold.
    { rewrite (proj2 H2), place_place by (apply place_range; lia). rewrite u64_shift. f_equal.
      replace (ind + 8 + (d - 8)) with (ind + d) by lia. by apply u64_back. }
    destruct (Z.leb_spec skip d); [|lia].
    destruct (Z.ltb_spec d (skip + size)); cbn [andb].
    + rewrite Hd by lia. unfold place, size2 in *. destruct be.
      * destruct (Z.ltb_spec (8 - 1 - (d - 8)) (8 - (skip + size - 8))); [lia|]. f_equal. lia.
      * destruct (Z.ltb_spec (d - 8) (skip + size - 8)); [|lia]. f_equal. lia.
    + unfold place, size2 in *. destruct be.
      * by destruct (Z.ltb_spec (8 - 1 - (d - 8)) (8 - (skip + size - 8))); [|lia].
      * by destruct (Z.ltb_spec (d - 8) (skip + size - 8)); [lia|].
  - destruct (Z.ltb_spec d 8); [lia|]. destruct (Z.leb_spec skip d), (Z.ltb_spec d (skip + size)); done || lia.
  - destruct (Z.ltb_spec d 8); [|lia]. rewrite Hv1 by (apply place_range; lia).
    assert (byte v1 (place be 8 d) = m x) as Hold.
    { rewrite (proj2 H1), place_place by (apply place_range; lia). f_equal. by apply u64_back. }
    destruct (Z.ltb_spec d (skip + size)); [|lia]. destruct (Z.leb_spec skip d); cbn [andb].
    + rewrite Hd by lia. unfold place, size2 in *. destruct be.
      * destruct (Z.ltb_spec (8 - 1 - d) (8 - skip)); [|lia]. f_equal. lia.
      * destruct (Z.ltb_spec d skip); [lia|]. done.
    + unfold place, size2 in *. destruct be.
      * by destruct (Z.ltb_spec (8 - 1 - d) (8 - skip)); [lia|].
      * by destruct (Z.ltb_spec d skip); [|lia].
Qed.

Lemma shl64_u64 x n : is_u64 (shl64 x n).
Proof. by apply uw_range. Qed.

Lemma shr64_u64 x n : is_u64 x -> is_u64 (shr64 x n).
Proof.
  intros Hx. unfold shr64. pose proof (Z.mod_pos_bound n 64 ltac:(lia)).
  apply is_u_bits; [lia|apply Z.shiftr_nonneg; apply Hx|]. intros i Hi. rewrite Z.shiftr_spec by lia.
  apply (testbit_above 64); [done|lia].
Qed.

Lemma word_u64 w v : 1 <= w <= 8 -> is_u (8 * w) v -> is_u64 v.
Proof. intros Hw Hv. unfold is_u in *. pose proof (Z.pow_le_mono_r 2 (8 * w) 64). lia. Qed.

(** The words that are stored stay in range. *)
Lemma stored_u64 a x v : is_u64 a -> is_u64 x -> is_u64 v -> is_u64 (Z.lor (Z.land a x) v).
Proof. intros Ha Hx Hv. apply lor_is_u; [lia|apply land_is_u; [lia|done|apply Hx]|done]. Qed.

Lemma ones_u64 : is_u64 (2 ^ 64 - 1).
Proof. unfold is_u. lia. Qed.

#[export] Hint Resolve stored_u64 ones_u64 shl64_u64 shr64_u64 : words.

Section Reading.
Context {e : Z} {be : bool} {inv : MemoryBank -> (Z -> Z) -> Prop} `{!WordReader e be inv}.

(** The words an access starts in: [skip] is the part of the first word before
    it. *)
Lemma access_words b m off : inv b m -> is_u64 off ->
  let w := 2 ^ e in let skip := off mod w in let ind := off - skip in
  0 <= skip < w /\ aligned w ind /\ aligned w (u64 (ind + w)) /\
  Z.land off (not64 (u64 (u64 (bank_wordsize (bank_base b)) - 1))) = ind /\
  Z.land off (u64 (u64 (bank_wordsize (bank_base b)) - 1)) = skip.
Proof.
  intros Hb Hoff w skip ind. pose proof (wb_size (inv := inv)) as He. pose proof (pow2_pos e ltac:(lia)).
  rewrite (proj1 (wb_base _ _ Hb)), pow2_mask by lia. fold w.
  assert (aligned w ind) by (apply align_down; [lia|done]).
  split; [apply Z.mod_pos_bound; lia|]. split; [done|]. split; [apply align_next; [lia|done]|].
  split; [apply land_align; [lia|done]|apply Z.land_ones; lia].
Qed.

Lemma get_value_ok b m off size : inv b m -> is_u64 off -> 1 <= size <= 8 -> off mod 2 ^ e + size <= 2 * 2 ^ e ->
  exists v, get_value b off size = Ok v /\ holds be m off size v.
Proof.
  intros Hb Hoff Hsize Htwo. pose proof (pow_words e (wb_size (inv := inv))) as Hw.
  destruct (access_words b m off Hb Hoff) as (Hskip & Hal1 & Hal2 & Eind & Eskip).
  unfold get_value. rewrite Eind, Eskip. destruct (wb_base _ _ Hb) as [-> ->].
  set (w := 2 ^ e) in *. set (skip := off mod w) in *. set (ind := off - skip) in *.
  rewrite (uw_small 64 w) by (unfold is_u; lia).
  destruct (wb_find _ _ _ Hb Hal1) as (v1 & E1 & H1). destruct (wb_find _ _ _ Hb Hal2) as (v2 & E2 & H2).
  fold w in H1, H2. rewrite E1. ostep. pose proof (proj1 H1) as R1. pose proof (proj1 H2) as R2.
  pose proof (fun x => wb_mem _ _ x Hb) as Hmem. assert (forall i, u64 (ind + w + i) = u64 (u64 (ind + w) + i)) as Hnext.
  { intros. by rewrite u64_shift. }
  sizes. destruct (Z.ltb_spec (w - skip) size) as [Hlt|Hge].
  - rewrite E2. ostep. sizes. eexists. split; [done|]. apply holds_masked; [lia|done|]. intros k j Hk Hj.
    destruct be; cbn [place] in *.
    + rewrite Z.lor_spec, shl64_bit, shr64_bit by lia. destruct (Z.ltb_spec (8 * k + j) 64); [|lia]. cbn [andb].
      destruct (decide (k < size - (w - skip))).
      * rewrite Z.testbit_neg_r by lia. cbn [orb].
        replace (8 * k + j + 8 * (w - (size - (w - skip)))) with (8 * (k + (w - (size - (w - skip)))) + j) by lia.
        rewrite (holds_bit _ _ _ _ _ _ _ H2) by lia. cbn [place]. rewrite <- Hnext. do 3 f_equal. unfold ind. lia.
      * replace (8 * k + j - 8 * (size - (w - skip))) with (8 * (k - (size - (w - skip))) + j) by lia.
        rewrite (holds_bit _ _ _ _ _ _ _ H1), (holds_above _ _ _ _ _ _ H2), orb_false_r by lia.
        cbn [place]. do 3 f_equal. unfold ind. lia.
    + rewrite Z.lor_spec, shl64_bit, shr64_bit by lia. destruct (Z.ltb_spec (8 * k + j) 64); [|lia]. cbn [andb].
      destruct (decide (k < w - skip)).
      * rewrite (Z.testbit_neg_r v2) by lia. rewrite orb_false_r.
        replace (8 * k + j + skip * 8) with (8 * (k + skip) + j) by lia.
        rewrite (holds_bit _ _ _ _ _ _ _ H1) by lia. cbn [place]. do 3 f_equal. unfold ind. lia.
      * replace (8 * k + j - (w - skip) * 8) with (8 * (k - (w - skip)) + j) by lia.
        rewrite (holds_bit _ _ _ _ _ _ _ H2), (holds_above _ _ _ _ _ _ H1) by lia.
        cbn [place orb]. rewrite <- Hnext. do 3 f_equal. unfold ind. lia.
  - destruct (Z.eqb_spec size w) as [->|Hne].
    + exists v1. split; [done|]. assert (skip = 0) by lia. replace off with ind by lia. done.
    + sizes. eexists. split; [done|]. apply holds_masked; [lia|done|]. intros k j Hk Hj.
      destruct be; cbn [place] in *; rewrite shr64_bit by lia.
      * replace (8 * k + j + 8 * (w - skip - size)) with (8 * (k + (w - skip - size)) + j) by lia.
        rewrite (holds_bit _ _ _ _ _ _ _ H1) by lia. cbn [place]. do 3 f_equal. unfold ind. lia.
      * replace (8 * k + j + skip * 8) with (8 * (k + skip) + j) by lia.
        rewrite (holds_bit _ _ _ _ _ _ _ H1) by lia. cbn [place]. do 3 f_equal. unfold ind. lia.
Qed.

End Reading.

(** ** Writing a value *)

Section Writing.
Context {e : Z} {be : bool} {inv : MemoryBank -> (Z -> Z) -> Prop} `{!WordBank e be inv}.

(** Two stores, one after the other. *)
Lemma insert_two b m m' a1 v1 a2 v2 : inv b m -> aligned (2 ^ e) a1 -> aligned (2 ^ e) a2 -> is_u64 v1 -> is_u64 v2 ->
  (forall x, is_u64 x -> write be (write be m a1 (2 ^ e) v1) a2 (2 ^ e) v2 x = m' x) ->
  exists b', (insert a1 v1 ;;! insert a2 v2) b = (b', Ok tt) /\ inv b' m'.
Proof.
  intros Hb A1 A2 Hv1 Hv2 Hx. destruct (wb_insert _ _ _ _ Hb A1 Hv1) as (b1 & I1 & Hb1).
  destruct (wb_insert _ _ _ _ Hb1 A2 Hv2) as (b2 & I2 & Hb2). exists b2.
  rewrite (sbind_ok _ _ _ _ _ I1). split; [done|]. by apply (wb_ext _ _ _ Hb2).
Qed.

Lemma insert_one b m m' a v : inv b m -> aligned (2 ^ e) a -> is_u64 v ->
  (forall x, is_u64 x -> write be m a (2 ^ e) v x = m' x) ->
  exists b', insert a v b = (b', Ok tt) /\ inv b' m'.
Proof.
  intros Hb A Hv Hx. destruct (wb_insert _ _ _ _ Hb A Hv) as (b1 & I1 & Hb1). exists b1.
  split; [done|]. by apply (wb_ext _ _ _ Hb1).
Qed.

Lemma set_value_ok b m off size val : inv b m -> is_u64 off -> 1 <= size <= 8 -> is_u (8 * size) val ->
  off mod 2 ^ e + size <= 2 ^ e \/ e = 3 ->
  exists b', set_value off size val b = (b', Ok tt) /\ inv b' (write be m off size val).
Proof.
  intros Hb Hoff Hsize Hval Hfit. pose proof (pow_words e (wb_size (inv := inv))) as Hw.
  destruct (access_words b m off Hb Hoff) as (Hskip & Hal1 & Hal2 & Eind & Eskip).
  unfold set_value. rewrite sbind_get, Eind, Eskip. destruct (wb_base _ _ Hb) as [-> ->].
  set (w := 2 ^ e) in *. set (skip := off mod w) in *. set (ind := off - skip) in *.
  rewrite (uw_small 64 w) by (unfold is_u; lia).
  destruct (wb_find _ _ _ Hb Hal1) as (v1 & E1 & H1). destruct (wb_find _ _ _ Hb Hal2) as (v2 & E2 & H2).
  fold w in H1, H2. assert (off = ind + skip) as Eoff by lia.
  pose proof (word_u64 size val ltac:(lia) Hval) as Hval64.
  pose proof (word_u64 w v1 Hw (proj1 H1)). pose proof (word_u64 w v2 Hw (proj1 H2)).
  sizes. destruct (Z.ltb_spec (w - skip) size) as [Hlt|Hge].
  - destruct Hfit as [|He]; [lia|]. assert (w = 8) as Ew by (unfold w; by rewrite He).
    rewrite (sbind_ok _ _ _ b v1) by (unfold slift; by rewrite E1).
    rewrite (sbind_ok _ _ _ b v2) by (unfold slift; by rewrite E2). sizes. rewrite Eoff. rewrite Ew in *.
    pose proof (write_across be m ind skip size v1 v2) as Hacross.
    case_eq be; intros Ebe; (apply (insert_two _ m); fold w; rewrite ?Ew; auto with words); rewrite Ebe in *.
    + apply Hacross; try done; try lia; intros k Hk.
      * rewrite (store_low _ _ (8 - skip) (size - (8 - skip))) by (try done; try lia; by replace (8 - skip + (size - (8 - skip))) with size by lia).
        destruct (k <? 8 - skip); [|done]. f_equal. lia.
      * replace (8 * (size - (8 - skip))) with (8 * (8 - (8 - (size - (8 - skip))))) by lia.
        replace ((8 - (size - (8 - skip))) * 8) with (8 * (8 - (size - (8 - skip)))) by lia.
        rewrite store_high by lia. replace (8 - (skip + size - 8)) with (8 - (size - (8 - skip))) by lia. done.
    + apply Hacross; try done; try lia; intros k Hk.
      * replace (skip * 8) with (8 * skip) by lia. by rewrite store_high by lia.
      * rewrite (store_low _ _ (size - (8 - skip)) (8 - skip)) by (try done; try lia; by replace (size - (8 - skip) + (8 - skip)) with size by lia).
        by replace (skip + size - 8) with (size - (8 - skip)) by lia.
  - destruct (Z.eqb_spec size w) as [->|Hne].
    { assert (skip = 0) by lia. replace off with ind by lia. by apply (insert_one _ m). }
    rewrite (sbind_ok _ _ _ b v1) by (unfold slift; by rewrite E1). sizes. rewrite Eoff.
    assert ((if be then (w - skip - size) * 8 else skip * 8) = 8 * (if be then w - skip - size else skip)) as Esa
      by (destruct be; lia).
    rewrite Esa. clear Esa. set (s := if be then w - skip - size else skip).
    assert (0 <= s /\ s + size <= w) by (unfold s; destruct be; lia). rewrite u32_id by lia.
    apply (insert_one _ m); [done|done| |].
    + apply stored_u64; [done|apply uw_range; lia|apply shl64_u64].
    + fold w. apply (write_inside be _ _ _ _ _ v1); try done; try lia. fold s. intros k Hk.
      by rewrite store_inside by (try done; lia).
Qed.
End Writing.
