(* ===== verification/MemPage.v ===== *)
(** The page overlay of [src/src/memstate.rs] is a byte memory: it implements
    the word interface of [MemWords], its chunks are runs of bytes, and what it
    does not hold shows through from the bank underneath.  Overlays stack, and
    an image over a raw file can be at the bottom. *)
From stdpp Require Import base list numbers strings gmap.
From Stdlib Require Import ZArith Lia.
From S2P Require Import Prelude Bits Space Address LoadImage MemBank MemWords.
Local Open Scope Z_scope.
Local Open Scope rust_scope.

(** ** Words as lists of bytes *)

Lemma usize_of_ok z : 0 <= z -> usize_of z = Ok (Z.to_nat z).
Proof. intros. unfold usize_of. by destruct (Z.ltb_spec z 0); [lia|]. Qed.

Lemma be_val_cons b l : be_val (b :: l) = b * 2 ^ (8 * Z.of_nat (length l)) + be_val l.
Proof.
  induction l as [|c l IH] using rev_ind; [unfold be_val; simpl; lia|].
  rewrite app_comm_cons, !be_val_app, IH, length_app. simpl (length [c]).
  replace (8 * Z.of_nat (length l + 1)) with (8 * Z.of_nat (length l) + 8) by lia. rewrite Z.pow_add_r by lia. lia.
Qed.

(** The bytes of a value that is spelled most significant byte first. *)
Lemma be_val_byte l i x : Forall is_u8 l -> l !! i = Some x -> byte (be_val l) (Z.of_nat (length l) - 1 - Z.of_nat i) = x.
Proof.
  intros Hl. revert i. induction l as [|b l IH]; intros i Hi; [done|].
  apply Forall_cons in Hl as [Hb Hl]. pose proof (be_val_range l Hl) as Hr. rewrite be_val_cons.
  replace (Z.of_nat (length (b :: l)) - 1 - Z.of_nat i) with (Z.of_nat (length l) - Z.of_nat i) by (simpl; lia).
  unfold byte. rewrite Z.shiftr_div_pow2 by (apply lookup_lt_Some in Hi; simpl in Hi; lia).
  destruct i as [|i]; simpl in Hi.
  - simplify_eq. rewrite Z.sub_0_r, Z.div_add_l, Z.div_small by lia. rewrite Z.add_0_r. by apply uw_small.
  - pose proof (lookup_lt_Some _ _ _ Hi). rewrite <- (IH Hl i Hi). unfold byte.
    rewrite Z.shiftr_div_pow2 by lia.
    replace (8 * Z.of_nat (length l)) with (8 * (Z.of_nat i + 1) + 8 * (Z.of_nat (length l) - 1 - Z.of_nat i)) by lia.
    replace (Z.of_nat (length l) - Z.of_nat (S i)) with (Z.of_nat (length l) - 1 - Z.of_nat i) by lia.
    rewrite Z.pow_add_r, Z.mul_assoc, Z.div_add_l by lia.
    replace (8 * (Z.of_nat i + 1)) with (8 * Z.of_nat i + 8) by lia. rewrite Z.pow_add_r, Z.mul_assoc by lia.
    unfold uw. by rewrite Z.add_comm, Z.mod_add by lia.
Qed.

(** One byte more. *)
Lemma shift_in l b : Forall is_u8 (l ++ [b]) -> (length l < 8)%nat -> u64 (shl64 (be_val l) 8 + b) = be_val (l ++ [b]).
Proof.
  intros Hl Hn. pose proof (be_val_range _ Hl) as Hr. rewrite be_val_app in *. rewrite length_app in Hr. simpl in Hr.
  apply Forall_app in Hl as [Hl Hb]. rewrite Forall_singleton in Hb. pose proof (be_val_range l Hl).
  pose proof (Z.pow_le_mono_r 2 (8 * Z.of_nat (length l + 1)) 64 ltac:(lia) ltac:(lia)).
  unfold shl64. rewrite (Z.mod_small 8), Z.shiftl_mul_pow2 by lia. unfold is_u in Hb.
  rewrite (uw_small 64 (be_val l * 2 ^ 8)) by (unfold is_u; lia). apply uw_small. unfold is_u; lia.
Qed.

Lemma construct_value_eq ptr w be : 0 <= w <= 8 -> w <= Z.of_nat (length ptr) -> Forall is_u8 ptr ->
  let bytes := take (Z.to_nat w) ptr in
  construct_value ptr w be = Ok (be_val (if be then bytes else rev bytes)).
Proof.
  intros Hw Hlen Hp bytes. unfold construct_value. rewrite usize_of_ok by lia. cbn [obind]. cbv zeta.
  set (n := Z.to_nat w) in *. set (step := fun i res => let! b := index ptr i in Ok (u64 (shl64 res 8 + b))).
  assert (forall i l, (length l < 8)%nat -> Forall is_u8 l -> (i < n)%nat ->
    exists x, ptr !! i = Some x /\ is_u8 x /\ step i (be_val l) = Ok (be_val (l ++ [x]))) as Hstep.
  { intros i l Hl Hu Hi. destruct (lookup_lt_is_Some_2 ptr i ltac:(lia)) as [x Hx].
    assert (is_u8 x) by exact (Forall_lookup_1 _ _ _ _ Hp Hx). exists x. split; [done|]. split; [done|]. unfold step.
    rewrite (index_ok _ _ _ Hx). ostep. f_equal. apply shift_in; [|done].
    apply Forall_app. by rewrite Forall_singleton. }
  destruct be.
  - destruct (for_up_inv (fun i res => res = be_val (take i ptr)) step n 0 0) as (v & -> & ->); [done| |done].
    intros i s Hi ->. destruct (Hstep i (take i ptr)) as (x & Hx & _ & ->); [rewrite length_take; lia|by apply Forall_take|lia|].
    eexists. split; [done|]. by rewrite (take_S_r _ _ _ Hx).
  - destruct (for_down_inv (fun i res => res = be_val (rev (drop i bytes))) step n 0 0) as (v & -> & ->); [| |done].
    + rewrite drop_ge by (unfold bytes; rewrite length_take; lia). done.
    + intros i s Hi ->. destruct (Hstep i (rev (drop (S i) bytes))) as (x & Hx & _ & ->).
      * rewrite length_rev, length_drop. unfold bytes. rewrite length_take. lia.
      * rewrite <- Permutation_rev. by apply Forall_drop, Forall_take.
      * lia.
      * eexists. split; [done|]. rewrite (drop_S bytes x i); [done|]. unfold bytes. by rewrite lookup_take_lt by lia.
Qed.

(** The word that bytes in memory spell. *)
Definition spell (be : bool) (bytes : list Z) : Z := be_val (if be then bytes else rev bytes).

Lemma spell_ok be bytes w : Z.of_nat (length bytes) = w -> Forall is_u8 bytes ->
  is_u (8 * w) (spell be bytes) /\
  forall k x, 0 <= k < w -> bytes !! Z.to_nat (place be w k) = Some x -> byte (spell be bytes) k = x.
Proof.
  intros Hb Hu. unfold spell. assert (Forall is_u8 (rev bytes)) as Hur by (by rewrite <- Permutation_rev). split.
  - destruct be; [pose proof (be_val_range _ Hu)|pose proof (be_val_range _ Hur)]; rewrite ?length_rev, Hb in *; done.
  - intros k x Hk Hx. destruct be; simpl place in Hx.
    + rewrite <- (be_val_byte bytes (Z.to_nat (w - 1 - k)) x Hu) by done. f_equal. lia.
    + rewrite <- (be_val_byte (rev bytes) (Z.to_nat (w - 1 - k)) x Hur).
      * f_equal. rewrite length_rev. lia.
      * rewrite rev_alt. fold (reverse bytes). rewrite reverse_lookup by lia. rewrite <- Hx. f_equal. lia.
Qed.

Lemma construct_value_ok ptr w be : 0 <= w <= 8 -> w <= Z.of_nat (length ptr) -> Forall is_u8 ptr ->
  exists v, construct_value ptr w be = Ok v /\ is_u (8 * w) v /\
    forall k x, 0 <= k < w -> ptr !! Z.to_nat (place be w k) = Some x -> byte v k = x.
Proof.
  intros Hw Hlen Hp. rewrite construct_value_eq by done. eexists. split; [done|].
  destruct (spell_ok be (take (Z.to_nat w) ptr) w) as [Hr Hb]; [rewrite length_take; lia|by apply Forall_take|].
  split; [done|]. intros k x Hk Hx. apply Hb; [done|]. pose proof (place_range be w k Hk).
  by rewrite lookup_take_lt by lia.
Qed.

(** The value of a run of bytes is the one its bytes determine. *)
Definition value_at (be : bool) (m : Z -> Z) (a size : Z) : Z := spell be (bytes_at m a (Z.to_nat size)).

Lemma value_at_holds be m a n : 0 <= n -> (forall x, is_u64 x -> is_u8 (m x)) -> holds be m a n (value_at be m a n).
Proof.
  intros Hn Hm. destruct (spell_ok be (bytes_at m a (Z.to_nat n)) n) as [Hr Hb].
  - rewrite bytes_at_length. lia.
  - apply Forall_lookup. intros i y Hy. pose proof (lookup_lt_Some _ _ _ Hy) as Hlt. rewrite bytes_at_length in Hlt.
    rewrite bytes_at_lookup in Hy by done. simplify_eq. apply Hm, uw_range. lia.
  - split; [done|]. intros k Hk. pose proof (place_range be n k Hk). apply Hb; [done|].
    rewrite bytes_at_lookup, Z2Nat.id by lia. done.
Qed.

Lemma holds_unique be m a n v v' : 0 <= n -> holds be m a n v -> holds be m a n v' -> v = v'.
Proof.
  intros Hn [Hv Hb] [Hv' Hb']. apply Z.bits_inj'. intros i Hi. destruct (decide (i < 8 * n)).
  - replace i with (8 * (i / 8) + i mod 8) by (symmetry; apply Z.div_mod; lia).
    pose proof (Z.mod_pos_bound i 8 ltac:(lia)). pose proof (Z.div_pos i 8 ltac:(lia) ltac:(lia)).
    assert (i / 8 < n) by (apply Z.div_lt_upper_bound; lia).
    rewrite <- !byte_bit by lia. by rewrite Hb, Hb' by lia.
  - by rewrite (testbit_above (8 * n) v), (testbit_above (8 * n) v') by (try done; lia).
Qed.

Lemma holds_value be m a n v : 0 <= n -> (forall x, is_u64 x -> is_u8 (m x)) -> holds be m a n v -> v = value_at be m a n.
Proof. intros Hn Hm Hv. apply (holds_unique be m a n); [done|done|]. by apply value_at_holds. Qed.

(** The bytes a word leaves in memory. *)
Lemma deconstruct_value_ok ptr v w be : 0 <= w -> w <= Z.of_nat (length ptr) ->
  exists ptr', deconstruct_value ptr v w be = Ok ptr' /\ length ptr' = length ptr /\
    forall i, ptr' !! i = if decide (i < Z.to_nat w)%nat then Some (byte v (place be w (Z.of_nat i))) else ptr !! i.
Proof.
  intros Hw Hlen. unfold deconstruct_value. rewrite usize_of_ok by lia. cbn [obind]. cbv zeta.
  set (n := Z.to_nat w). set (step := fun i st => _).
  assert (forall i l u, (i < length l)%nat -> step i (l, u) = Ok (<[i := u8 u]> l, Z.shiftr u 8)) as Hstep.
  { intros i l u Hi. unfold step. rewrite store_ok by done. ostep. do 3 f_equal. apply (land_ones_uw 8). lia. }
  destruct be.
  - destruct (for_down_inv (fun i st => length st.1 = length ptr /\ st.2 = Z.shiftr v (8 * (w - Z.of_nat i)) /\
      forall j, st.1 !! j = if decide (i <= j < n)%nat then Some (byte v (w - 1 - Z.of_nat j)) else ptr !! j)
      step n 0 (ptr, v)) as ([l u] & -> & Hl & _ & Hj).
    + split; [done|]. split; [simpl; by replace (8 * (w - Z.of_nat n)) with 0 by lia|].
      intros j. by destruct (decide _); [lia|].
    + intros i [l u] Hi (Hl & Hu & Hj). simpl in Hl, Hu, Hj. rewrite Hstep by lia. eexists. split; [done|]. simpl.
      split; [by rewrite length_insert|]. split.
      * rewrite Hu, Z.shiftr_shiftr by lia. f_equal. lia.
      * intros j. destruct (decide (j = i)) as [->|Hne].
        -- rewrite list_lookup_insert_eq by lia. destruct (decide _); [|lia]. unfold byte. rewrite Hu. do 3 f_equal. lia.
        -- rewrite list_lookup_insert_ne by lia. rewrite Hj. do 2 (destruct (decide _)); try lia; done.
    + ostep. exists l. split; [done|]. split; [done|]. intros i. simpl in Hj. rewrite Hj. simpl place.
      do 2 (destruct (decide _)); try lia; done.
  - destruct (for_up_inv (fun i st => length st.1 = length ptr /\ st.2 = Z.shiftr v (8 * Z.of_nat i) /\
      forall j, st.1 !! j = if decide (j < i)%nat then Some (byte v (Z.of_nat j)) else ptr !! j)
      step n 0 (ptr, v)) as ([l u] & -> & Hl & _ & Hj).
    + split; [done|]. split; [done|]. intros j. by destruct (decide _); [lia|].
    + intros i [l u] Hi (Hl & Hu & Hj). simpl in Hl, Hu, Hj. rewrite Hstep by lia. eexists. split; [done|]. simpl.
      split; [by rewrite length_insert|]. split.
      * rewrite Hu, Z.shiftr_shiftr by lia. f_equal. lia.
      * intros j. destruct (decide (j = i)) as [->|Hne].
        -- rewrite list_lookup_insert_eq by lia. destruct (decide _); [|lia]. unfold byte. by rewrite Hu.
        -- rewrite list_lookup_insert_ne by lia. rewrite Hj. do 2 (destruct (decide _)); try lia; done.
    + ostep. exists l. split; [done|]. split; [done|]. intros i. simpl in Hj. rewrite Hj. simpl place.
      done.
Qed.

(** ** Pages *)

(** The memory after a run of bytes is stored at [a]. *)
Definition write_bytes (m : Z -> Z) (a : Z) (l : list Z) : Z -> Z := fun x =>
  let d := u64 (x - a) in if d <? Z.of_nat (length l) then default 0 (l !! Z.to_nat d) else m x.

Lemma write_bytes_eq m a l x :
  write_bytes m a l x = match l !! Z.to_nat (u64 (x - a)) with Some y => y | None => m x end.
Proof.
  unfold write_bytes. assert (is_u64 (u64 (x - a))) as Hd by (apply uw_range; lia). unfold is_u in Hd.
  destruct (Z.ltb_spec (u64 (x - a)) (Z.of_nat (length l))).
  - by destruct (lookup_lt_is_Some_2 l (Z.to_nat (u64 (x - a))) ltac:(lia)) as [y ->].
  - by rewrite lookup_ge_None_2 by lia.
Qed.

(** What a bank serves to the overlay above it: words as the bytes of [m], and
    any part of a page. *)
Record serves (e p : Z) (be : bool) (u : MemoryBank) (m : Z -> Z) : Prop := {
  sv_mem x : is_u64 x -> is_u8 (m x);
  sv_find a : aligned (2 ^ e) a -> exists v, find u a = Ok v /\ holds be m a (2 ^ e) v;
  sv_page a res skip size : aligned (2 ^ p) a -> 0 <= skip -> 0 <= size -> skip + size <= 2 ^ p ->
    size <= Z.of_nat (length res) ->
    get_page u a res skip size = Ok (bytes_at m (a + skip) (Z.to_nat size) ++ drop (Z.to_nat size) res)
}.

(** The bytes of a page, and where an address lies in them. *)
Lemma in_page p a n x : 0 <= p <= 63 -> is_u64 a -> is_u64 x -> 0 <= n -> a mod 2 ^ p + n <= 2 ^ p ->
  (u64 (x - a) < n <-> x - x mod 2 ^ p = a - a mod 2 ^ p /\ a mod 2 ^ p <= x mod 2 ^ p < a mod 2 ^ p + n) /\
  (u64 (x - a) < n -> u64 (x - a) = x mod 2 ^ p - a mod 2 ^ p).
Proof.
  intros Hp Ha Hx Hn Hfit. pose proof (pow2_pos p ltac:(lia)) as Hpos.
  set (d := u64 (x - a)). assert (is_u64 d) as Hd by (apply uw_range; lia). unfold is_u in *.
  pose proof (Z.mod_pos_bound a (2 ^ p) Hpos). pose proof (Z.mod_pos_bound x (2 ^ p) Hpos).
  assert (d < n -> x = a + d /\ x mod 2 ^ p = a mod 2 ^ p + d) as Hin.
  { intros Hdn. assert (x = a + d) as Exd.
    { assert (a + d < 2 ^ 64).
      { pose proof (Z.div_mod a (2 ^ p) ltac:(lia)). assert (a / 2 ^ p < 2 ^ (64 - p)).
        { apply Z.div_lt_upper_bound; [lia|]. rewrite <- Z.pow_add_r by lia. replace (p + (64 - p)) with 64 by lia. lia. }
        assert (2 ^ 64 = 2 ^ p * 2 ^ (64 - p)) by (rewrite <- Z.pow_add_r by lia; f_equal; lia). nia. }
      rewrite <- (u64_back x a) by (unfold is_u; lia). fold d. apply uw_small. unfold is_u. lia. }
    split; [done|]. rewrite Exd, <- Zplus_mod_idemp_l. apply Z.mod_small. lia. }
  split; [split|].
  - intros Hdn. destruct (Hin Hdn). lia.
  - intros [E1 E2]. unfold d. rewrite uw_small; [lia|]. unfold is_u. lia.
  - intros Hdn. destruct (Hin Hdn). lia.
Qed.

Section Overlay.
Context (e p : Z) (be : bool) (He : 0 <= e <= 3) (Hp : e <= p <= 30).

(** What shows through where the overlay has no page. *)
Definition beneath (ul : option MemoryBank) (um : Z -> Z) : Prop :=
  match ul with
  | None => forall x, is_u64 x -> um x = 0
  | Some u => serves e p be u um
  end.

Definition page_of (x : Z) : Z := x - x mod 2 ^ p.

Definition page_view (page : gmap Z (list Z)) (um : Z -> Z) (x : Z) : Z :=
  match page !! page_of x with
  | Some pd => default 0 (pd !! Z.to_nat (x mod 2 ^ p))
  | None => um x
  end.

(** A page overlay with pages of [2 ^ p] bytes and words of [2 ^ e] that holds
    the bytes of [m]. *)
Record page_inv (base : MemoryBankBase) (ul : option MemoryBank) (page : gmap Z (list Z)) (um m : Z -> Z) : Prop := {
  pv_word : bank_wordsize base = 2 ^ e;
  pv_size : pagesize base = 2 ^ p;
  pv_order : is_big_endian (bank_space base) = be;
  pv_under : beneath ul um;
  pv_pages a pd : page !! a = Some pd -> Z.of_nat (length pd) = 2 ^ p /\ Forall is_u8 pd;
  pv_view x : is_u64 x -> m x = page_view page um x
}.

Definition overlays (b : MemoryBank) (m : Z -> Z) : Prop :=
  match b with
  | MemoryPageOverlay base ul page => exists um, page_inv base ul page um m
  | _ => False
  end.

Lemma page_pos : 2 ^ e <= 2 ^ p <= 2 ^ 30.
Proof. split; apply Z.pow_le_mono_r; lia. Qed.

Lemma under_u8 ul um x : beneath ul um -> is_u64 x -> is_u8 (um x).
Proof. destruct ul; simpl; intros H Hx; [by apply (sv_mem _ _ _ _ _ H)|]. rewrite H by done. unfold is_u. lia. Qed.

Lemma view_u8 base ul page um m x : page_inv base ul page um m -> is_u64 x -> is_u8 (m x).
Proof.
  intros HI Hx. rewrite (pv_view _ _ _ _ _ HI) by done. unfold page_view.
  destruct (page !! page_of x) as [pd|] eqn:E; [|by apply (under_u8 ul), Hx; apply HI].
  destruct (pv_pages _ _ _ _ _ HI _ _ E) as [_ Hu]. destruct (pd !! _) as [y|] eqn:Ey; simpl.
  - exact (Forall_lookup_1 _ _ _ _ Hu Ey).
  - unfold is_u. lia.
Qed.

(** An address and its place in a page. *)
Lemma page_place a i : aligned (2 ^ p) a -> 0 <= i < 2 ^ p ->
  is_u64 (a + i) /\ page_of (a + i) = a /\ (a + i) mod 2 ^ p = i.
Proof.
  intros [Ha Hm] Hi. pose proof (pow2_pos p ltac:(lia)).
  assert ((a + i) mod 2 ^ p = i) as E by (rewrite <- Zplus_mod_idemp_l, Hm; apply Z.mod_small; lia).
  unfold page_of. rewrite E. split; [|lia].
  pose proof (Z.div_mod a (2 ^ p) ltac:(lia)). unfold is_u in *. assert (a / 2 ^ p < 2 ^ (64 - p)).
  { apply Z.div_lt_upper_bound; [lia|]. rewrite <- Z.pow_add_r by lia. replace (p + (64 - p)) with 64 by lia. lia. }
  assert (2 ^ 64 = 2 ^ p * 2 ^ (64 - p)) by (rewrite <- Z.pow_add_r by lia; f_equal; lia). nia.
Qed.

Lemma page_aligned x : is_u64 x -> aligned (2 ^ p) (page_of x) /\ 0 <= x mod 2 ^ p < 2 ^ p /\ x = page_of x + x mod 2 ^ p.
Proof.
  intros Hx. split; [apply align_down; [lia|done]|]. split; [apply Z.mod_pos_bound, pow2_pos; lia|]. unfold page_of. lia.
Qed.

(** The page a write starts from holds the bytes of the memory. *)
Lemma fetch_ok base ul page um m a : page_inv base ul page um m -> aligned (2 ^ p) a ->
  exists pd, fetch_page base ul true page a = Ok pd /\ Z.of_nat (length pd) = 2 ^ p /\ Forall is_u8 pd /\
    forall i, 0 <= i < 2 ^ p -> pd !! Z.to_nat i = Some (m (a + i)).
Proof.
  intros HI Ha. pose proof (pow2_pos p ltac:(lia)).
  unfold fetch_page. rewrite (pv_size _ _ _ _ _ HI).
  assert (forall i, 0 <= i < 2 ^ p -> m (a + i) = match page !! a with Some pd => default 0 (pd !! Z.to_nat i) | None => um (a + i) end) as Hview.
  { intros i Hi. destruct (page_place a i Ha Hi) as (Hx & Epg & Eoff). rewrite (pv_view _ _ _ _ _ HI) by done.
    unfold page_view. by rewrite Epg, Eoff. }
  destruct (page !! a) as [pd|] eqn:E.
  - destruct (pv_pages _ _ _ _ _ HI _ _ E) as [Hlen Hu]. exists pd. split; [done|]. split; [done|]. split; [done|].
    intros i Hi. rewrite Hview by done. destruct (lookup_lt_is_Some_2 pd (Z.to_nat i) ltac:(lia)) as [y ->]. done.
  - rewrite usize_of_ok by lia. ostep. pose proof (pv_under _ _ _ _ _ HI) as Hul. destruct ul as [u|]; simpl in Hul.
    + rewrite (sv_page _ _ _ _ _ Hul) by (try done; rewrite ?length_replicate; lia).
      rewrite drop_ge by (rewrite length_replicate; lia). rewrite app_nil_r, Z.add_0_r.
      eexists. split; [done|]. rewrite bytes_at_length. split; [lia|]. split.
      * apply Forall_lookup. intros i y Hy. pose proof (lookup_lt_Some _ _ _ Hy) as Hlt. rewrite bytes_at_length in Hlt.
        rewrite bytes_at_lookup in Hy by done. simplify_eq. apply (sv_mem _ _ _ _ _ Hul), uw_range. lia.
      * intros i Hi. rewrite bytes_at_lookup by lia. rewrite Z2Nat.id, Hview by lia.
        rewrite uw_small; [done|]. by apply page_place.
    + eexists. split; [done|]. rewrite length_replicate. split; [lia|]. split.
      * apply Forall_replicate. unfold is_u. lia.
      * intros i Hi. rewrite lookup_replicate_2 by lia. rewrite Hview, Hul by (try done; by apply page_place). done.
Qed.

(** Replacing a page by one with the bytes of a new memory. *)
Lemma replace_ok base ul page um m m' a pd : page_inv base ul page um m -> aligned (2 ^ p) a ->
  Z.of_nat (length pd) = 2 ^ p -> Forall is_u8 pd ->
  (forall i, 0 <= i < 2 ^ p -> pd !! Z.to_nat i = Some (m' (a + i))) ->
  (forall x, is_u64 x -> page_of x <> a -> m' x = m x) ->
  page_inv base ul (<[a := pd]> page) um m'.
Proof.
  intros HI Ha Hlen Hu Hin Hout. split; try apply HI.
  - intros c pc. destruct (decide (a = c)) as [->|Hne].
    + rewrite lookup_insert_eq. intros [= <-]. done.
    + rewrite lookup_insert_ne by done. apply HI.
  - intros x Hx. destruct (page_aligned x Hx) as (Hal & Hoff & Ex). unfold page_view.
    destruct (decide (a = page_of x)) as [->|Hne].
    + rewrite lookup_insert_eq, Hin by done. simpl. by rewrite <- Ex.
    + rewrite lookup_insert_ne, Hout by done. by apply HI.
Qed.

(** Masks of a page size. *)
Lemma page_masks base ul page um m x : page_inv base ul page um m -> is_u64 x ->
  Z.land x (not64 (u64 (u64 (pagesize base) - 1))) = page_of x /\
  Z.land x (u64 (u64 (pagesize base) - 1)) = x mod 2 ^ p.
Proof.
  intros HI Hx. rewrite (pv_size _ _ _ _ _ HI), pow2_mask by lia.
  split; [apply land_align; [lia|done]|apply Z.land_ones; lia].
Qed.

(** A word does not leave its page. *)
Lemma word_in_page a : aligned (2 ^ e) a -> a mod 2 ^ p + 2 ^ e <= 2 ^ p.
Proof.
  intros [Ha Hm]. pose proof (pow2_pos e ltac:(lia)). pose proof (pow2_pos p ltac:(lia)).
  pose proof (pow2_pos (p - e) ltac:(lia)).
  assert (2 ^ p = 2 ^ e * 2 ^ (p - e)) as E by (rewrite <- Z.pow_add_r by lia; f_equal; lia).
  rewrite E, Z.rem_mul_r, Hm by lia. pose proof (Z.mod_pos_bound (a / 2 ^ e) (2 ^ (p - e)) ltac:(lia)). nia.
Qed.

Lemma word_place a k : aligned (2 ^ e) a -> 0 <= k < 2 ^ e ->
  u64 (a + k) = a + k /\ is_u64 (a + k) /\ page_of (a + k) = page_of a /\ (a + k) mod 2 ^ p = a mod 2 ^ p + k.
Proof.
  intros Ha Hk. pose proof (word_in_page a Ha). destruct (page_aligned a (proj1 Ha)) as (Hal & Hoff & Ea).
  destruct (page_place (page_of a) (a mod 2 ^ p + k) Hal ltac:(lia)) as (Hu & Hpg & Hmod).
  replace (page_of a + (a mod 2 ^ p + k)) with (a + k) in * by lia.
  split; [by apply uw_small|]. done.
Qed.

Lemma overlay_find b m a : overlays b m -> aligned (2 ^ e) a ->
  exists v, find b a = Ok v /\ holds be m a (2 ^ e) v.
Proof.
  intros Hb Ha. destruct b as [|base ul page|]; try done. destruct Hb as [um HI]. simpl.
  destruct (page_masks _ _ _ _ _ a HI (proj1 Ha)) as [-> ->]. pose proof (pow_words e He).
  assert (forall k, 0 <= k < 2 ^ e -> m (u64 (a + place be (2 ^ e) k)) =
    match page !! page_of a with
    | Some pd => default 0 (pd !! Z.to_nat (a mod 2 ^ p + place be (2 ^ e) k))
    | None => um (u64 (a + place be (2 ^ e) k)) end) as Hview.
  { intros k Hk. destruct (word_place a (place be (2 ^ e) k) Ha) as (-> & Hu & Hpg & Hmod); [by apply place_range|].
    rewrite (pv_view _ _ _ _ _ HI) by done. unfold page_view. by rewrite Hpg, Hmod. }
  destruct (page !! page_of a) as [pd|] eqn:E.
  - destruct (pv_pages _ _ _ _ _ HI _ _ E) as [Hlen Hu]. pose proof (word_in_page a Ha).
    pose proof (Z.mod_pos_bound a (2 ^ p) ltac:(apply pow2_pos; lia)).
    rewrite slice_from_ok by lia. ostep. rewrite (pv_word _ _ _ _ _ HI), (pv_order _ _ _ _ _ HI).
    destruct (construct_value_ok (drop (Z.to_nat (a mod 2 ^ p)) pd) (2 ^ e) be) as (v & -> & Hr & Hbytes).
    { lia. } { rewrite length_drop. lia. } { by apply Forall_drop. }
    exists v. split; [done|]. split; [done|]. intros k Hk. rewrite Hview by done.
    pose proof (place_range be (2 ^ e) k Hk).
    destruct (lookup_lt_is_Some_2 pd (Z.to_nat (a mod 2 ^ p + place be (2 ^ e) k)) ltac:(lia)) as [y Hy].
    rewrite Hy. apply Hbytes; [done|]. rewrite lookup_drop. by rewrite <- Z2Nat.inj_add by lia.
  - pose proof (pv_under _ _ _ _ _ HI) as Hul. destruct ul as [u|]; simpl in Hul.
    + destruct (sv_find _ _ _ _ _ Hul a Ha) as (v & -> & Hv). exists v. split; [done|]. split; [apply Hv|].
      intros k Hk. rewrite Hview by done. by apply Hv.
    + exists 0. split; [done|]. split; [unfold is_u; lia|]. intros k Hk. rewrite Hview by done.
      rewrite Hul by (apply uw_range; lia). unfold byte. by rewrite Z.shiftr_0_l.
Qed.

Lemma overlay_insert b m a v : overlays b m -> aligned (2 ^ e) a ->
  exists b', insert a v b = (b', Ok tt) /\ overlays b' (write be m a (2 ^ e) v).
Proof.
  intros Hb Ha. destruct b as [|base ul page|]; try done. destruct Hb as [um HI]. unfold insert.
  destruct (page_masks _ _ _ _ _ a HI (proj1 Ha)) as [-> ->]. pose proof (pow_words e He).
  destruct (page_aligned a (proj1 Ha)) as (Hal & Hoff & Ea). pose proof (word_in_page a Ha) as Hfit.
  destruct (fetch_ok _ _ _ _ _ _ HI Hal) as (pd & -> & Hlen & Hu & Hpd). cbn [obind].
  set (po := a mod 2 ^ p) in *. rewrite slice_from_ok by lia. cbn [obind].
  rewrite (pv_word _ _ _ _ _ HI), (pv_order _ _ _ _ _ HI).
  destruct (deconstruct_value_ok (drop (Z.to_nat po) pd) v (2 ^ e) be) as (rest & -> & Hrl & Hrest).
  { lia. } { rewrite length_drop. lia. }
  cbn [obind commit]. eexists. split; [done|]. exists um.
  assert (forall i, 0 <= i < 2 ^ p -> (take (Z.to_nat po) pd ++ rest) !! Z.to_nat i =
    Some (write be m a (2 ^ e) v (page_of a + i))) as Hnew.
  { intros i Hi. destruct (page_place (page_of a) i Hal Hi) as (Hx & Epg & Eoff).
    destruct (in_page p a (2 ^ e) (page_of a + i) ltac:(lia) (proj1 Ha) Hx ltac:(lia) Hfit) as [Hiff Hdist].
    change (page_of a + i - (page_of a + i) mod 2 ^ p) with (page_of (page_of a + i)) in Hiff.
    change (a - a mod 2 ^ p) with (page_of a) in Hiff. fold po in Hiff, Hdist. rewrite Epg, Eoff in *.
    unfold write. rewrite lookup_app, lookup_take. destruct (decide (Z.to_nat i < Z.to_nat po)%nat).
    - rewrite Hpd by done. destruct (Z.ltb_spec (u64 (page_of a + i - a)) (2 ^ e)); [lia|done].
    - rewrite Hrest, length_take, Nat.min_l by lia. destruct (decide _) as [Hlt|Hge].
      + destruct (Z.ltb_spec (u64 (page_of a + i - a)) (2 ^ e)); [|lia]. rewrite Hdist by done. do 3 f_equal. lia.
      + rewrite lookup_drop. replace (Z.to_nat po + (Z.to_nat i - Z.to_nat po))%nat with (Z.to_nat i) by lia.
        rewrite Hpd by done. destruct (Z.ltb_spec (u64 (page_of a + i - a)) (2 ^ e)); [lia|done]. }
  apply (replace_ok base ul page um m); [done|done| | |exact Hnew|].
  - rewrite length_app, length_take, Hrl, length_drop. lia.
  - apply Forall_app. split; [by apply Forall_take|]. apply Forall_lookup. intros i y. rewrite Hrest.
    destruct (decide _); [intros [= <-]; apply byte_u8|]. intros Hy. rewrite lookup_drop in Hy.
    exact (Forall_lookup_1 _ _ _ _ Hu Hy).
  - intros x Hx Hne. unfold write.
    destruct (in_page p a (2 ^ e) x ltac:(lia) (proj1 Ha) Hx ltac:(lia) Hfit) as [Hiff _].
    destruct (Z.ltb_spec (u64 (x - a)) (2 ^ e)) as [Hlt|]; [|done]. apply Hiff in Hlt as [Heq _].
    by destruct Hne.
Qed.

Lemma overlay_ext b m m' : overlays b m -> (forall x, is_u64 x -> m x = m' x) -> overlays b m'.
Proof.
  intros Hb Hx. destruct b as [|base ul page|]; try done. destruct Hb as [um HI]. exists um.
  split; try apply HI. intros x Hu. rewrite <- Hx by done. by apply HI.
Qed.

(** The overlay keeps the promises of a word bank. *)
#[local] Instance overlay_bank : WordBank e be overlays.
Proof.
  split.
  - split.
    + done.
    + intros [|base ul page|] m Hb; try done. destruct Hb as [um HI]. by split; apply HI.
    + intros [|base ul page|] m x Hb; try done. destruct Hb as [um HI]. by apply (view_u8 _ _ _ _ _ _ HI).
    + apply overlay_find.
  - apply overlay_ext.
  - intros b m a v Hb Ha _. by apply overlay_insert.
Qed.

(** ** Chunks *)

Lemma overlay_set_page b m a val skip size : overlays b m -> aligned (2 ^ p) a -> 0 <= skip -> 0 < size ->
  skip + size <= 2 ^ p -> size <= Z.of_nat (length val) -> Forall is_u8 val ->
  exists b', set_page a val skip size b = (b', Ok tt) /\
    overlays b' (write_bytes m (a + skip) (take (Z.to_nat size) val)).
Proof.
  intros Hb Ha Hskip Hsize Hfit Hval Hu8. destruct b as [|base ul page|]; try done. destruct Hb as [um HI]. unfold set_page.
  pose proof (pow2_pos p ltac:(lia)).
  assert (exists pd, fetch_page base ul (negb (size =? pagesize base)) page a = Ok pd /\
    Z.of_nat (length pd) = 2 ^ p /\ Forall is_u8 pd /\
    forall i, 0 <= i < 2 ^ p -> ~ (skip <= i < skip + size) -> pd !! Z.to_nat i = Some (m (a + i))) as (pd & -> & Hlen & Hu & Hpd).
  { destruct (fetch_ok _ _ _ _ _ _ HI Ha) as (pd & E & Hlen & Hu & Hpd). rewrite (pv_size _ _ _ _ _ HI).
    destruct (Z.eqb_spec size (2 ^ p)) as [->|]; cbn [negb].
    - unfold fetch_page in *. destruct (page !! a) as [pd0|] eqn:Ep.
      + exists pd0. destruct (pv_pages _ _ _ _ _ HI _ _ Ep). split; [done|]. split; [done|]. split; [done|]. intros; lia.
      + rewrite (pv_size _ _ _ _ _ HI), usize_of_ok by lia. cbn [obind]. exists (replicate (Z.to_nat (2 ^ p)) 0).
        split; [by destruct ul|]. rewrite length_replicate. split; [lia|].
        split; [apply Forall_replicate; unfold is_u; lia|]. intros; lia.
    - exists pd. auto. }
  cbn [obind]. rewrite !usize_of_ok by lia. cbn [obind].
  rewrite slice_of_ok by lia. cbn [obind]. rewrite drop_0. set (src := take (Z.to_nat size) val).
  assert (length src = Z.to_nat size) as Hsrc by (unfold src; rewrite length_take; lia).
  rewrite copy_at_ok by lia. cbn [commit]. eexists. split; [done|]. exists um.
  assert (forall x, is_u64 x -> (page_of x = a /\ skip <= x mod 2 ^ p < skip + size ->
      write_bytes m (a + skip) src x = default 0 (src !! Z.to_nat (x mod 2 ^ p - skip))) /\
    (~ (page_of x = a /\ skip <= x mod 2 ^ p < skip + size) -> write_bytes m (a + skip) src x = m x)) as Hwrite.
  { intros x Hx. destruct (page_place a skip Ha ltac:(lia)) as (Hx0 & Epg0 & Eoff0).
    destruct (in_page p (a + skip) size x ltac:(lia) Hx0 Hx ltac:(lia) ltac:(lia)) as [Hiff Hdist].
    change (x - x mod 2 ^ p) with (page_of x) in Hiff.
    change (a + skip - (a + skip) mod 2 ^ p) with (page_of (a + skip)) in Hiff. rewrite Epg0 in Hiff. rewrite Eoff0 in Hiff, Hdist.
    assert (is_u64 (u64 (x - (a + skip)))) as Hd by (apply uw_range; lia). unfold is_u in Hd. rewrite write_bytes_eq. split.
    - intros Hin. rewrite Hdist by (by apply Hiff).
      by destruct (lookup_lt_is_Some_2 src (Z.to_nat (x mod 2 ^ p - skip)) ltac:(lia)) as [y ->].
    - intros Hout. rewrite lookup_ge_None_2; [done|]. rewrite Hsrc.
      destruct (decide (u64 (x - (a + skip)) < size)) as [Hlt|]; [by apply Hiff in Hlt|lia]. }
  apply (replace_ok base ul page um m); [done|done| | | |].
  - rewrite !length_app, length_take, length_drop, Hsrc. lia.
  - rewrite !Forall_app. split; [by apply Forall_take|]. split; [by apply Forall_take|by apply Forall_drop].
  - intros i Hi. destruct (page_place a i Ha Hi) as (Hx & Epg & Eoff). destruct (Hwrite (a + i) Hx) as [Hin Hout].
    rewrite Epg, Eoff in *. rewrite lookup_app, lookup_take. destruct (decide (Z.to_nat i < Z.to_nat skip)%nat).
    { rewrite Hpd, Hout by lia. done. }
    rewrite length_take, Nat.min_l, lookup_app by lia. destruct (decide (i < skip + size)) as [Hlt|Hge].
    + destruct (lookup_lt_is_Some_2 src (Z.to_nat i - Z.to_nat skip) ltac:(lia)) as [y Hy].
      rewrite Hy, Hin by lia. rewrite Z2Nat.inj_sub, Hy by lia. done.
    + rewrite lookup_ge_None_2 by lia. rewrite lookup_drop, Hout by lia. rewrite Hsrc.
      rewrite <- Hpd by lia. f_equal. lia.
  - intros x Hx Hne. apply Hwrite; [done|]. naive_solver.
Qed.

(** Reading part of a page: what a page overlay serves to one above it. *)
Lemma overlay_get_page b m a res skip size : overlays b m -> aligned (2 ^ p) a -> 0 <= skip -> 0 <= size ->
  skip + size <= 2 ^ p -> size <= Z.of_nat (length res) ->
  get_page b a res skip size = Ok (bytes_at m (a + skip) (Z.to_nat size) ++ drop (Z.to_nat size) res).
Proof.
  intros Hb Ha Hskip Hsize Hfit Hres. destruct b as [|base ul page|]; try done. destruct Hb as [um HI]. simpl.
  assert (forall i, (i < Z.to_nat size)%nat -> u64 (a + skip + Z.of_nat i) = a + (skip + Z.of_nat i) /\
    is_u64 (a + (skip + Z.of_nat i)) /\ m (a + (skip + Z.of_nat i)) = match page !! a with
    | Some pd => default 0 (pd !! (Z.to_nat skip + i)%nat) | None => um (a + (skip + Z.of_nat i)) end) as Hview.
  { intros i Hi. destruct (page_place a (skip + Z.of_nat i) Ha ltac:(lia)) as (Hx & Epg & Eoff).
    rewrite (pv_view _ _ _ _ _ HI) by done. unfold page_view. rewrite Epg, Eoff.
    split; [rewrite <- Z.add_assoc; by apply uw_small|]. split; [done|]. rewrite Z2Nat.inj_add, Nat2Z.id by lia. done. }
  destruct (page !! a) as [pd|] eqn:E.
  - destruct (pv_pages _ _ _ _ _ HI _ _ E) as [Hlen Hu]. rewrite !usize_of_ok by lia. cbn [obind].
    rewrite slice_of_ok by lia. cbn [obind].
    assert (take (Z.to_nat size) (drop (Z.to_nat skip) pd) = bytes_at m (a + skip) (Z.to_nat size)) as ->.
    { apply bytes_at_eq; [rewrite length_take, length_drop; lia|]. intros i Hi. destruct (Hview i Hi) as (-> & _ & ->).
      rewrite lookup_take_lt, lookup_drop by done.
      by destruct (lookup_lt_is_Some_2 pd (Z.to_nat skip + i) ltac:(lia)) as [y ->]. }
    rewrite copy_at_ok by (rewrite bytes_at_length; lia). by rewrite bytes_at_length.
  - assert (bytes_at um (a + skip) (Z.to_nat size) = bytes_at m (a + skip) (Z.to_nat size)) as Hsame.
    { apply bytes_at_eq; [apply bytes_at_length|]. intros i Hi. rewrite bytes_at_lookup by done.
      by destruct (Hview i Hi) as (-> & _ & ->). }
    pose proof (pv_under _ _ _ _ _ HI) as Hul. destruct ul as [u|]; simpl in Hul.
    + rewrite (sv_page _ _ _ _ _ Hul) by done. by rewrite Hsame.
    + rewrite usize_of_ok by lia. cbn [obind]. rewrite copy_at_ok by (rewrite length_replicate; lia).
      rewrite length_replicate. simpl. do 2 f_equal. rewrite <- Hsame. apply bytes_at_eq; [apply length_replicate|].
      intros i Hi. rewrite lookup_replicate_2 by done. destruct (Hview i Hi) as (-> & Hx & _). by rewrite Hul.
Qed.

(** Overlays stack. *)
Lemma overlay_serves b m : overlays b m -> serves e p be b m.
Proof.
  intros Hb. split.
  - intros x Hx. by apply (wb_mem _ _ _ Hb).
  - intros a Ha. by apply overlay_find.
  - intros. by apply overlay_get_page.
Qed.

(** One run of bytes after another is one run. *)
Lemma write_bytes_app m a l1 l2 x : is_u64 x -> Z.of_nat (length l1 + length l2) <= 2 ^ 64 ->
  write_bytes (write_bytes m a l1) (u64 (a + Z.of_nat (length l1))) l2 x = write_bytes m a (l1 ++ l2) x.
Proof.
  intros Hx Hlen. rewrite !write_bytes_eq. set (d := u64 (x - a)). assert (is_u64 d) as Hd by (apply uw_range; lia).
  unfold is_u in Hd. assert (u64 (x - u64 (a + Z.of_nat (length l1))) = u64 (d - Z.of_nat (length l1))) as ->.
  { unfold d, uw. rewrite Zminus_mod_idemp_l, Zminus_mod_idemp_r. f_equal. lia. }
  rewrite lookup_app. destruct (decide (d < Z.of_nat (length l1))) as [Hlt|Hge].
  - destruct (lookup_lt_is_Some_2 l1 (Z.to_nat d) ltac:(lia)) as [y ->].
    rewrite (lookup_ge_None_2 l2); [done|].
    assert (u64 (d - Z.of_nat (length l1)) = d - Z.of_nat (length l1) + 2 ^ 64) as ->; [|lia].
    rewrite <- (uw_small 64 (d - Z.of_nat (length l1) + 2 ^ 64)) by (unfold is_u; lia). unfold uw.
    rewrite <- (Z.mul_1_l (2 ^ 64)) at 2. by rewrite Z.mod_add by lia.
  - rewrite (lookup_ge_None_2 l1) by lia. rewrite uw_small by (unfold is_u; lia).
    by replace (Z.to_nat d - length l1)%nat with (Z.to_nat (d - Z.of_nat (length l1))) by lia.
Qed.

Lemma bytes_at_app m a n k : bytes_at m a n ++ bytes_at m (u64 (a + Z.of_nat n)) k = bytes_at m a (n + k).
Proof.
  apply bytes_at_eq; [by rewrite length_app, !bytes_at_length|]. intros i Hi. rewrite lookup_app.
  destruct (decide (i < n)%nat).
  - by rewrite bytes_at_lookup by done.
  - rewrite lookup_ge_None_2 by (rewrite bytes_at_length; lia). rewrite bytes_at_length, bytes_at_lookup by lia.
    rewrite u64_shift. do 3 f_equal. lia.
Qed.

(** The part of a chunk that one round handles. *)
Lemma chunk_part_eq off size count : is_u64 off -> 0 <= count < size -> size < 2 ^ 31 ->
  let n := Z.min (2 ^ p - off mod 2 ^ p) (size - count) in
  chunk_part (2 ^ p) off size count = (page_of off, off mod 2 ^ p, n) /\ 0 < n /\ off mod 2 ^ p + n <= 2 ^ p.
Proof.
  intros Hoff Hc Hs n. destruct (page_aligned off Hoff) as (Hal & Hm & Eoff). pose proof page_pos.
  assert (2 ^ 30 < 2 ^ 31) by (apply Z.pow_lt_mono_r; lia).
  split; [|unfold n; lia]. unfold chunk_part. rewrite pow2_mask, land_align by (try done; lia). fold (page_of off).
  rewrite (sw_small 32 (size - count)) by (unfold is_s; lia).
  destruct (Z.eqb_spec (page_of off) off) as [E|E]; cbn [negb].
  - assert (off mod 2 ^ p = 0) by lia. destruct (Z.ltb_spec (size - count) (2 ^ p)); unfold n; repeat f_equal; lia.
  - replace (off - page_of off) with (off mod 2 ^ p) by lia.
    rewrite (uw_small 64 (off mod 2 ^ p)) by (unfold is_u; lia).
    rewrite (sw_small 32 (off mod 2 ^ p)) by (unfold is_s; lia).
    rewrite (sw_small 32 (2 ^ p - off mod 2 ^ p)) by (unfold is_s; lia).
    destruct (Z.ltb_spec (size - count) (2 ^ p - off mod 2 ^ p)); unfold n; repeat f_equal; lia.
Qed.

Lemma overlay_pagesize b m : overlays b m -> pagesize (bank_base b) = 2 ^ p.
Proof. destruct b as [|base ul page|]; try done. intros [um HI]. apply HI. Qed.

Lemma set_chunk_ok b m off size val : overlays b m -> is_u64 off -> 0 <= size < 2 ^ 31 ->
  size <= Z.of_nat (length val) -> Forall is_u8 val ->
  exists b', set_chunk off size val b = (b', Ok tt) /\ overlays b' (write_bytes m off (take (Z.to_nat size) val)).
Proof.
  intros Hb0 Hoff Hsize Hval Hu. unfold set_chunk.
  assert (forall fuel c b, (Z.to_nat size - c < fuel)%nat -> (c <= Z.to_nat size)%nat ->
    overlays b (write_bytes m off (take c val)) ->
    exists b', sloop fuel (set_chunk_step size val) (u64 (off + Z.of_nat c), Z.of_nat c) b = (b', Ok tt) /\
      overlays b' (write_bytes m off (take (Z.to_nat size) val))) as Hloop.
  { induction fuel as [|fuel IH]; intros c b1 Hf Hc Hb; [lia|]. cbn [sloop]. unfold set_chunk_step at 1.
    destruct (Z.ltb_spec (Z.of_nat c) size).
    - set (cur := u64 (off + Z.of_nat c)).
      assert (is_u64 cur) as Hcur by (apply uw_range; lia).
      destruct (chunk_part_eq cur size (Z.of_nat c) Hcur ltac:(lia) ltac:(lia)) as (Epart & Hn & Hin).
      set (n := Z.min (2 ^ p - cur mod 2 ^ p) (size - Z.of_nat c)) in *.
      destruct (page_aligned cur Hcur) as (Hal & Hm & Ecur).
      destruct (overlay_set_page b1 (write_bytes m off (take c val)) (page_of cur) (drop c val) (cur mod 2 ^ p) n)
        as (b2 & Eset & Hb2); [done|done|lia|lia|lia|rewrite length_drop; lia|by apply Forall_drop|].
      erewrite sbind_ok; last first.
      { rewrite sbind_get, (overlay_pagesize _ _ Hb), Epart.
        rewrite (sbind_ok _ _ _ b1 c) by (unfold slift; by rewrite usize_of_ok, Nat2Z.id by lia).
        rewrite (sbind_ok _ _ _ b1 (drop c val)) by (unfold slift; by rewrite slice_from_ok by lia).
        rewrite (sbind_ok _ _ _ _ _ Eset). done. }
      cbv beta iota.
      assert (n < 2 ^ 31) by lia. rewrite (uw_small 64 n) by (unfold is_u; lia).
      rewrite (sw_small 32 (Z.of_nat c + n)) by (unfold is_s; lia).
      replace (Z.of_nat c + n) with (Z.of_nat (c + Z.to_nat n)) by lia.
      replace (u64 (cur + n)) with (u64 (off + Z.of_nat (c + Z.to_nat n))) by (unfold cur; rewrite u64_shift; f_equal; lia).
      apply IH; [lia|lia|]. apply (overlay_ext _ _ _ Hb2). intros x Hx. rewrite <- Ecur, <- take_take_drop.
      rewrite <- write_bytes_app; [|done|rewrite !length_take, length_drop; lia].
      by rewrite length_take, Nat.min_l by lia.
    - exists b1. split; [done|]. by replace (Z.to_nat size) with c by lia. }
  destruct (Hloop (S (Z.to_nat size)) 0%nat b) as (b' & E & Hb'); [lia|lia| |].
  - rewrite take_0. apply (overlay_ext _ _ _ Hb0). intros x _. by rewrite write_bytes_eq.
  - rewrite Z.add_0_r, (uw_small 64 off Hoff) in E. eauto.
Qed.

Lemma get_chunk_ok b m off size res : overlays b m -> is_u64 off -> 0 <= size < 2 ^ 31 ->
  size <= Z.of_nat (length res) ->
  get_chunk b off size res = Ok (bytes_at m off (Z.to_nat size) ++ drop (Z.to_nat size) res).
Proof.
  intros Hb Hoff Hsize Hres. unfold get_chunk.
  assert (forall fuel c, (Z.to_nat size - c < fuel)%nat -> (c <= Z.to_nat size)%nat ->
    loop fuel (get_chunk_step b size) (u64 (off + Z.of_nat c), Z.of_nat c, bytes_at m off c ++ drop c res) =
      Ok (bytes_at m off (Z.to_nat size) ++ drop (Z.to_nat size) res)) as Hloop.
  { induction fuel as [|fuel IH]; intros c Hf Hc; [lia|]. cbn [loop]. unfold get_chunk_step at 1.
    destruct (Z.ltb_spec (Z.of_nat c) size).
    - rewrite (overlay_pagesize _ _ Hb). set (cur := u64 (off + Z.of_nat c)).
      assert (is_u64 cur) as Hcur by (apply uw_range; lia).
      destruct (chunk_part_eq cur size (Z.of_nat c) Hcur ltac:(lia) ltac:(lia)) as (-> & Hn & Hin).
      set (n := Z.min (2 ^ p - cur mod 2 ^ p) (size - Z.of_nat c)) in *.
      destruct (page_aligned cur Hcur) as (Hal & Hm & Ecur).
      rewrite usize_of_ok, Nat2Z.id by lia. cbn [obind].
      assert (drop c (bytes_at m off c ++ drop c res) = drop c res) as Erest
        by (rewrite drop_app_length'; [done|by rewrite bytes_at_length]).
      rewrite slice_from_ok by (rewrite length_app, bytes_at_length; lia). rewrite Erest. cbn [obind].
      rewrite (overlay_get_page b m) by (try done; rewrite ?length_drop; lia). cbn [obind].
      rewrite (uw_small 64 n) by (unfold is_u; lia). rewrite (sw_small 32 (Z.of_nat c + n)) by (unfold is_s; lia).
      rewrite <- Ecur, take_app_length' by (by rewrite bytes_at_length). rewrite app_assoc. unfold cur at 2.
      rewrite bytes_at_app, drop_drop.
      replace (Z.of_nat c + n) with (Z.of_nat (c + Z.to_nat n)) by lia.
      replace (u64 (cur + n)) with (u64 (off + Z.of_nat (c + Z.to_nat n))) by (unfold cur; rewrite u64_shift; f_equal; lia).
      apply IH; lia.
    - cbn [obind]. by replace (Z.to_nat size) with c by lia. }
  pose proof (Hloop (S (Z.to_nat size)) 0%nat ltac:(lia) ltac:(lia)) as E.
  by rewrite Z.add_0_r, (uw_small 64 off Hoff) in E.
Qed.
End Overlay.
