(* ===== verification/MemState.v ===== *)
(** What the memory of [src/src/memstate.rs] promises as a whole: a page
    overlay over nothing, over other overlays or over a raw image answers every
    sequence of reads and writes the way a map from addresses to bytes does,
    and the read-only image serves the values of the jump-table recovery. *)
From stdpp Require Import base list numbers strings gmap.
From Stdlib Require Import ZArith Lia.
From S2P Require Import Prelude Bits Space Address LoadImage MemBank MemWords MemPage.
Local Open Scope Z_scope.
Local Open Scope rust_scope.

(** ** The image over a raw file *)

Section Image.
Context (e p : Z) (be : bool) (He : 0 <= e <= 3) (Hp : e <= p <= 30).
Context (unavailable : nat -> Address -> string) (img : RawLoadImage) (base : MemoryBankBase).
Context (Hword : bank_wordsize base = 2 ^ e) (Horder : is_big_endian (bank_space base) = be).
Context (Hsize : Z.of_nat (length (default [] (content img))) < 2 ^ 63).
Context (Hbytes : Forall is_u8 (default [] (content img))) (Hvma : aligned (2 ^ p) (vma img)).

Abbreviation filesize := (Z.of_nat (length (default [] (content img)))).
Abbreviation image := (MemoryImage base (raw_load_fill unavailable img)).

Lemma raw_byte_u8 x : is_u8 (raw_byte img x).
Proof.
  rewrite raw_byte_eq. destruct (_ !! _) as [y|] eqn:E; simpl; [exact (Forall_lookup_1 _ _ _ _ Hbytes E)|unfold is_u; lia].
Qed.

(** Where a read that starts past the file ends, it is still past the file:
    the file starts on a page. *)
Lemma raw_byte_past a n i : is_u64 a -> a mod 2 ^ p + n <= 2 ^ p -> 0 <= i < n ->
  filesize <= u64 (a - vma img) -> raw_byte img (u64 (a + i)) = 0.
Proof.
  intros Ha Hn Hi Hpast. rewrite raw_byte_eq, lookup_ge_None_2; [done|].
  destruct Hvma as [Hv Hmod]. pose proof (pow2_pos p ltac:(lia)).
  set (c := u64 (a - vma img)) in *. assert (is_u64 c) as Hc by (apply uw_range; lia).
  assert (c mod 2 ^ p = a mod 2 ^ p) as Ec.
  { unfold c, uw. replace 64 with (p + (64 - p)) by lia. rewrite Z.pow_add_r by lia.
    rewrite Z.rem_mul_r, (Z.mul_comm (2 ^ p)), Z.mod_add, Z.mod_mod by lia.
    rewrite Zminus_mod, Hmod, Z.sub_0_r, Z.mod_mod by lia. done. }
  assert (u64 (u64 (a + i) - vma img) = c + i) as ->; [|unfold is_u in Hc; lia].
  assert (u64 (u64 (a + i) - vma img) = u64 (c + i)) as ->.
  { unfold c, uw. rewrite Zminus_mod_idemp_l, Zplus_mod_idemp_l. f_equal. lia. }
  apply uw_small. destruct (page_aligned e p He Hp c Hc) as (Hal & Hm & Epg).
  replace (c + i) with (page_of p c + (c mod 2 ^ p + i)) by lia. apply (page_place e p He Hp); [done|lia].
Qed.

(** The bytes of a read, present or not. *)
Lemma image_load a n : is_u64 a -> (0 < n)%nat -> a mod 2 ^ p + Z.of_nat n <= 2 ^ p ->
  forall ptr, length ptr = n ->
  raw_load_fill unavailable img ptr (address_new (bank_space base) a) = Ok (bytes_at (raw_byte img) a n) \/
  (exists message, raw_load_fill unavailable img ptr (address_new (bank_space base) a) = Err (DataUnavail message)) /\
    bytes_at (raw_byte img) a n = replicate n 0.
Proof.
  intros Ha Hn Hfit ptr Hptr. pose proof (Z.mod_pos_bound a (2 ^ p) ltac:(apply pow2_pos; lia)).
  pose proof (page_pos e p Hp). destruct (decide (filesize <= u64 (a - vma img))) as [Hpast|Hin].
  - right. split.
    + eexists. apply raw_fill_unavailable; [lia|done].
    + symmetry. apply bytes_at_eq; [apply length_replicate|]. intros i Hi. rewrite lookup_replicate_2 by done.
      f_equal. symmetry. apply (raw_byte_past _ (Z.of_nat n)); [done|done|lia|done].
  - left. rewrite <- Hptr. apply (raw_fill_ok unavailable img ptr (address_new (bank_space base) a)); [lia|]. simpl. lia.
Qed.

Lemma image_find_ok a : aligned (2 ^ e) a -> exists v, find image a = Ok v /\ holds be (raw_byte img) a (2 ^ e) v.
Proof.
  intros Ha. pose proof (pow_words e He). pose proof (word_in_page e p He Hp a Ha) as Hfit.
  exists (value_at be (raw_byte img) a (2 ^ e)). split; [|apply value_at_holds; [lia|intros; apply raw_byte_u8]].
  simpl. unfold image_find. rewrite Hword, Horder, usize_of_ok by lia. cbn [obind].
  destruct (Nat.ltb_spec 8 (Z.to_nat (2 ^ e))); [lia|].
  assert (forall l, Z.of_nat (length l) = 2 ^ e -> Forall is_u8 l ->
    (if be then byte_swap (be_val (rev l)) (2 ^ e) else be_val (rev l)) = spell be l) as Hswap.
  { intros l Hl Hu. unfold spell. destruct be; [|done]. rewrite byte_swap_eq by lia. f_equal.
    replace (Z.to_nat (2 ^ e)) with (length (rev l)) by (rewrite length_rev; lia).
    rewrite le_bytes_be_val by (by rewrite <- Permutation_rev). apply rev_involutive. }
  assert (Forall is_u8 (bytes_at (raw_byte img) a (Z.to_nat (2 ^ e)))) as Hu.
  { apply Forall_lookup. intros i y Hy. apply list_lookup_fmap_Some in Hy as (j & -> & _). apply raw_byte_u8. }
  unfold value_at. destruct (image_load a (Z.to_nat (2 ^ e)) (proj1 Ha) ltac:(lia) ltac:(lia)
    (replicate (Z.to_nat (2 ^ e)) 0) (length_replicate _ _)) as [->|([message ->] & Ez)]; cbn [obind].
  - by rewrite Hswap by (try done; rewrite bytes_at_length; lia).
  - rewrite <- Hswap by (try done; rewrite bytes_at_length; lia). rewrite Ez.
    assert (be_val (rev (replicate (Z.to_nat (2 ^ e)) 0)) = 0) as ->; [|done].
    generalize (Z.to_nat (2 ^ e)) as n. induction n as [|n IH]; [done|]. simpl. by rewrite be_val_app, IH.
Qed.

Lemma image_serves : serves e p be image (raw_byte img).
Proof.
  split; [intros; apply raw_byte_u8|apply image_find_ok|].
  intros a res skip size Ha Hskip Hsize0 Hfit Hres. simpl. unfold image_get_page.
  rewrite usize_of_ok by lia. cbn [obind]. rewrite slice_of_ok by lia. cbn [obind]. rewrite drop_0.
  pose proof (page_pos e p Hp). assert (2 ^ 30 < 2 ^ 64) by (apply Z.pow_lt_mono_r; lia).
  rewrite (uw_small 64 skip) by (unfold is_u; lia). destruct (decide (size = 0)) as [->|Hne].
  { simpl. unfold raw_load_fill. simpl. unfold copy_at. by rewrite decide_True by (simpl; lia). }
  destruct (page_place e p He Hp a skip Ha ltac:(lia)) as (Hx & Epg & Emod).
  rewrite (uw_small 64 (a + skip)) by done.
  destruct (image_load (a + skip) (Z.to_nat size) Hx ltac:(lia) ltac:(lia) (take (Z.to_nat size) res)) as [->|([message ->] & Ez)].
  { rewrite length_take. lia. }
  - rewrite copy_at_ok by (rewrite bytes_at_length; lia). by rewrite bytes_at_length.
  - rewrite copy_at_ok by (rewrite length_replicate; lia). by rewrite length_replicate, Ez.
Qed.

#[local] Instance image_reader : WordReader e be (fun b m => b = image /\ m = raw_byte img).
Proof.
  split; [done| | |].
  - by intros b m [-> ->].
  - intros b m x [-> ->] _. apply raw_byte_u8.
  - intros b m a [-> ->]. apply image_find_ok.
Qed.

Lemma image_value_ok off size : is_u64 off -> 1 <= size <= 8 -> off mod 2 ^ e + size <= 2 * 2 ^ e ->
  get_value image off size = Ok (value_at be (raw_byte img) off size).
Proof.
  intros Hoff Hs Htwo. destruct (get_value_ok image (raw_byte img) off size) as (v & -> & Hv); [done|done|done|done|].
  f_equal. apply holds_value; [lia|intros; apply raw_byte_u8|done].
Qed.
End Image.

(** ** Sequences of operations *)

Inductive mem_op : Type :=
  | GetValue (off size : Z)
  | SetValue (off size val : Z)
  | GetChunk (off : Z) (n : nat)
  | SetChunk (off : Z) (bytes : list Z).

Inductive mem_reply : Type :=
  | ReplyValue (v : Z)
  | ReplyBytes (l : list Z)
  | ReplyDone.

(** The calls the operations stand for; a chunk is read into a fresh buffer. *)
Definition run_op (op : mem_op) : stm MemoryBank mem_reply := fun b =>
  match op with
  | GetValue off size => (do! v <- slift (get_value b off size) ;; sret (ReplyValue v)) b
  | SetValue off size val => (set_value off size val ;;! sret ReplyDone) b
  | GetChunk off n => (do! l <- slift (get_chunk b off (Z.of_nat n) (replicate n 0)) ;; sret (ReplyBytes l)) b
  | SetChunk off bytes => (set_chunk off (Z.of_nat (length bytes)) bytes ;;! sret ReplyDone) b
  end.

Fixpoint run_ops (ops : list mem_op) : stm MemoryBank (list mem_reply) :=
  match ops with
  | [] => sret []
  | op :: ops => do! r <- run_op op ;; do! rs <- run_ops ops ;; sret (r :: rs)
  end.

(** The same operations on a map from addresses to bytes. *)
Definition spec_op (be : bool) (op : mem_op) (m : Z -> Z) : (Z -> Z) * mem_reply :=
  match op with
  | GetValue off size => (m, ReplyValue (value_at be m off size))
  | SetValue off size val => (write be m off size val, ReplyDone)
  | GetChunk off n => (m, ReplyBytes (bytes_at m off n))
  | SetChunk off bytes => (write_bytes m off bytes, ReplyDone)
  end.

Fixpoint spec_ops (be : bool) (ops : list mem_op) (m : Z -> Z) : (Z -> Z) * list mem_reply :=
  match ops with
  | [] => (m, [])
  | op :: ops =>
      let '(m, r) := spec_op be op m in
      let '(m, rs) := spec_ops be ops m in (m, r :: rs)
  end.

(** Values have one to eight bytes, chunks fewer than [2 ^ 31]. *)
Definition op_ok (op : mem_op) : Prop :=
  match op with
  | GetValue off size => is_u64 off /\ 1 <= size <= 8
  | SetValue off size val => is_u64 off /\ 1 <= size <= 8 /\ is_u (8 * size) val
  | GetChunk off n => is_u64 off /\ Z.of_nat n < 2 ^ 31
  | SetChunk off bytes => is_u64 off /\ Z.of_nat (length bytes) < 2 ^ 31 /\ Forall is_u8 bytes
  end.

Lemma run_op_ok p be b m op : 3 <= p <= 30 -> overlays 3 p be b m -> op_ok op ->
  exists b', run_op op b = (b', Ok (spec_op be op m).2) /\ overlays 3 p be b' (spec_op be op m).1.
Proof.
  intros Hp Hb Hop. assert (0 <= 3 <= 3) as He by lia.
  pose proof (overlay_bank 3 p be He Hp) as Hbank.
  destruct op as [off size|off size val|off n|off bytes]; simpl in *.
  - destruct Hop as [Hoff Hs]. pose proof (Z.mod_pos_bound off 8 ltac:(lia)).
    destruct (get_value_ok b m off size Hb Hoff Hs) as (v & E & Hv); [change (2 ^ 3) with 8; lia|].
    exists b. rewrite (sbind_ok _ _ _ b v) by (unfold slift; by rewrite E). split; [|done]. unfold sret. do 3 f_equal.
    apply holds_value; [lia|intros x Hx; by apply (wb_mem _ _ _ Hb)|done].
  - destruct Hop as (Hoff & Hs & Hval).
    destruct (set_value_ok b m off size val Hb Hoff Hs Hval) as (b' & E & Hb'); [by right|].
    exists b'. by rewrite (sbind_ok _ _ _ _ _ E).
  - destruct Hop as [Hoff Hn]. exists b. erewrite (sbind_ok _ _ _ b); [done|]. unfold slift.
    rewrite (get_chunk_ok 3 p be He Hp b m) by (try done; rewrite ?length_replicate; lia).
    by rewrite Nat2Z.id, drop_ge, app_nil_r by (rewrite length_replicate; lia).
  - destruct Hop as (Hoff & Hn & Hu).
    destruct (set_chunk_ok 3 p be He Hp b m off (Z.of_nat (length bytes)) bytes Hb Hoff) as (b' & E & Hb'); [lia|lia|done|].
    exists b'. rewrite (sbind_ok _ _ _ _ _ E). by rewrite Nat2Z.id, firstn_all in Hb'.
Qed.

Lemma run_ops_ok p be b m ops : 3 <= p <= 30 -> overlays 3 p be b m -> Forall op_ok ops ->
  exists b', run_ops ops b = (b', Ok (spec_ops be ops m).2) /\ overlays 3 p be b' (spec_ops be ops m).1.
Proof.
  intros Hp Hb Hops. revert b m Hb. induction Hops as [|op ops Hop _ IH]; intros b m Hb; simpl.
  { by exists b. }
  destruct (run_op_ok p be b m op Hp Hb Hop) as (b1 & E1 & Hb1). destruct (spec_op be op m) as [m1 r]. simpl in *.
  destruct (IH b1 m1 Hb1) as (b2 & E2 & Hb2). destruct (spec_ops be ops m1) as [m2 rs]. simpl in *.
  exists b2. rewrite (sbind_ok _ _ _ _ _ E1), (sbind_ok _ _ _ _ _ E2). done.
Qed.

Lemma new_overlays p be spc ul um : 3 <= p <= 30 -> is_big_endian spc = be -> beneath 3 p be ul um ->
  overlays 3 p be (page_overlay_new spc 8 (2 ^ p) ul) um.
Proof.
  intros Hp Hbe Hul. exists um. split; try done.
Qed.

(** ** Properties *)

(** C8: a page overlay with eight-byte words, over nothing or over a bank that
    serves the bytes of [um], answers every sequence of value and chunk reads
    and writes with the replies of a map from addresses to bytes that starts as
    [um], without an error or a panic; the chunks and values may cross words,
    pages and the end of the address space. *)
Theorem page_overlay_refines (p : Z) (spc : AddrSpace) (ul : option MemoryBank) (um : Z -> Z) (ops : list mem_op) :
  let be := is_big_endian spc in
  3 <= p <= 30 -> beneath 3 p be ul um -> Forall op_ok ops ->
  exists b, run_ops ops (page_overlay_new spc 8 (2 ^ p) ul) = (b, Ok (spec_ops be ops um).2) /\
    overlays 3 p be b (spec_ops be ops um).1.
Proof. intros be Hp Hul Hops. apply run_ops_ok; [done| |done]. by apply new_overlays. Qed.

(** The read-only image over a raw file, with words of one to eight bytes,
    reads a value that spans at most two words as its bytes in the byte order
    of the space; bytes past the file are zero. *)
Theorem image_value_correct (e p : Z) (unavailable : nat -> Address -> string) (img : RawLoadImage)
    (base : MemoryBankBase) (off size : Z) :
  0 <= e <= 3 -> e <= p <= 30 -> bank_wordsize base = 2 ^ e -> aligned (2 ^ p) (vma img) ->
  Z.of_nat (length (default [] (content img))) < 2 ^ 63 -> Forall is_u8 (default [] (content img)) ->
  is_u64 off -> 1 <= size <= 8 -> off mod 2 ^ e + size <= 2 * 2 ^ e ->
  get_value (MemoryImage base (raw_load_fill unavailable img)) off size =
    Ok (value_at (is_big_endian (bank_space base)) (raw_byte img) off size).
Proof. intros. by apply (image_value_ok e p). Qed.

(** A file of twelve bytes at 0x1000, and what is under it. *)
Definition sample_file : RawLoadImage :=
  mk_RawLoadImage "sample" 0x1000 (Some [1; 2; 3; 4; 5; 6; 7; 8; 9; 10; 11; 12]) None.

Definition no_message (n : nat) (a : Address) : string := "Unable to load".

Definition sample_image (spc : AddrSpace) (ws : Z) : MemoryBank :=
  MemoryImage (mk_MemoryBankBase ws 4096 spc) (raw_load_fill no_message sample_file).

Lemma sample_bytes : Forall is_u8 (default [] (content sample_file)).
Proof. repeat constructor; unfold is_u; lia. Qed.

Lemma sample_serves e spc : 0 <= e <= 3 -> serves e 12 (is_big_endian spc) (sample_image spc (2 ^ e)) (raw_byte sample_file).
Proof.
  intros He. apply image_serves; try done; try lia; apply sample_bytes || (split; [unfold is_u; simpl; lia|done]).
Qed.

Definition sample_ops : list mem_op :=
  [GetValue 0x1002 4; SetValue 0x1ffd 6 0xa1a2a3a4a5a6; SetChunk 0x1006 [1; 2; 3]; GetChunk 0x1005 6; GetValue 0x1ffe 8].

(** The sequence runs over an image of a big-endian space: the replies are
    those of the map. *)
Lemma page_overlay_refines_witness :
  (exists b, run_ops sample_ops (page_overlay_new be_space 8 (2 ^ 12) (Some (sample_image be_space 8))) =
    (b, Ok (spec_ops true sample_ops (raw_byte sample_file)).2) /\
    overlays 3 12 true b (spec_ops true sample_ops (raw_byte sample_file)).1) /\
  (spec_ops true sample_ops (raw_byte sample_file)).2 =
    [ReplyValue 0x03040506; ReplyDone; ReplyDone; ReplyBytes [6; 1; 2; 3; 10; 11]; ReplyValue 0xa2a3a4a5a6000000].
Proof.
  split; [|vm_compute; reflexivity].
  apply (page_overlay_refines 12 be_space (Some (sample_image be_space 8)) (raw_byte sample_file) sample_ops); [lia| |].
  - exact (sample_serves 3 be_space ltac:(lia)).
  - repeat constructor; unfold is_u; simpl; lia.
Defined.

Lemma image_value_correct_witness :
  get_value (sample_image le_space 4) 0x1003 5 = Ok (value_at false (raw_byte sample_file) 0x1003 5) /\
  value_at false (raw_byte sample_file) 0x1003 5 = 0x0807060504.
Proof.
  split; [|vm_compute; reflexivity].
  apply (image_value_correct 2 12 no_message sample_file (mk_MemoryBankBase 4 4096 le_space) 0x1003 5);
    try apply sample_bytes; done || lia.
Defined.

(** ** Where the code falls short *)

(** With four-byte words a value of eight bytes that starts inside a word takes
    three words, of which [get_value] reads two: the top bytes are lost. *)
Example get_value_three_words :
  get_value (sample_image le_space 4) 0x1002 8 = Ok 0x080706050403 /\
  value_at false (raw_byte sample_file) 0x1002 8 = 0x0a09080706050403.
Proof. vm_compute. done. Qed.

(** With words of fewer than eight bytes [set_value] leaves old bits in the
    bytes it writes when the value crosses a word. *)
Example set_value_small_words :
  let b := run (set_value 0 4 0xffffffff) (page_overlay_new le_space 4 4096 None) in
  get_value (run (set_value 2 4 0) b) 2 4 = Ok 0xffff.
Proof. vm_compute. done. Qed.

(** The default [get_page] and [set_page], which the hash overlay uses, take the
    first word from its start and not from the byte that is asked for: a chunk
    that starts inside a word runs past its buffer. *)
Example hash_chunk_misaligned :
  match hash_overlay_new le_space 8 4096 97 None with
  | Ok b => get_chunk b 0x102 4 [0; 0; 0; 0] = Panic /\ (set_chunk 0x102 4 [1; 2; 3; 4] b).2 = Panic
  | _ => False
  end.
Proof. vm_compute. done. Qed.

(** ** The table of banks *)

Lemma set_bank_lookup st bank i : memspace (set_memory_bank st bank) !! i =
  if decide (i = Z.to_nat (space_index (bank_space (bank_base bank)))) then Some (Some bank)
  else if decide (i < length (memspace st))%nat then memspace st !! i
  else if decide (i <= Z.to_nat (space_index (bank_space (bank_base bank))))%nat then Some None else None.
Proof.
  unfold set_memory_bank. cbn [memspace]. set (ix := Z.to_nat _). destruct (decide (i = ix)) as [->|Hne].
  - apply list_lookup_insert_eq. rewrite length_app, length_replicate. lia.
  - rewrite list_lookup_insert_ne by done. destruct (decide (i < length (memspace st))%nat); [by rewrite lookup_app_l|].
    rewrite lookup_app_r by lia. destruct (decide (i <= ix)%nat); [by rewrite lookup_replicate_2 by lia|].
    apply lookup_ge_None_2. rewrite length_replicate. lia.
Qed.

(** The table of banks: an installed bank is the one its space finds, other
    spaces keep theirs; a write to a space changes its bank the way the bank's
    own write does and no other, a read answers what the bank answers, and
    both are errors on a space without a bank, except that a constant reads as
    its offset. *)
Theorem memory_state_correct (st : MemoryState) (bank : MemoryBank) (spc other : AddrSpace) (off size val : Z) :
  let ix s := Z.to_nat (space_index s) in
  ix (bank_space (bank_base bank)) = ix spc -> ix other <> ix spc ->
  get_memory_bank (set_memory_bank st bank) spc = Some bank /\
  get_memory_bank (set_memory_bank st bank) other = get_memory_bank st other /\
  (forall b, get_memory_bank st spc = Some b ->
    let '(b', r) := set_value off size val b in
    exists st', state_set_value spc off size val st = (st', r) /\ get_memory_bank st' spc = Some b' /\
      get_memory_bank st' other = get_memory_bank st other) /\
  (forall b, get_memory_bank st spc = Some b -> space_type spc <> Constant ->
    state_get_value st spc off size = get_value b off size) /\
  (get_memory_bank st spc = None ->
    state_set_value spc off size val st = (st, Err (Lowlevel ("Setting value for unmapped memory space: " +:+ name spc))) /\
    (space_type spc <> Constant -> state_get_value st spc off size =
      Err (Lowlevel ("Getting value from unmapped memory space: " +:+ name spc)))) /\
  (space_type spc = Constant -> state_get_value st spc off size = Ok off).
Proof.
  intros ix Hix Hother. unfold ix in *. split; [|split; [|split; [|split; [|split]]]].
  - unfold get_memory_bank. rewrite set_bank_lookup, Hix. by destruct (decide _).
  - unfold get_memory_bank. rewrite set_bank_lookup, Hix. destruct (decide _); [done|].
    destruct (decide _); [done|]. rewrite (lookup_ge_None_2 (memspace st)) by lia. by destruct (decide _).
  - intros b Hb. destruct (set_value off size val b) as [b' r] eqn:E. unfold state_set_value, with_bank. rewrite Hb, E.
    eexists. split; [done|]. unfold get_memory_bank in *. cbn [memspace].
    split; [|by rewrite list_lookup_insert_ne by done].
    rewrite list_lookup_insert_eq; [done|]. destruct (memspace st !! Z.to_nat (space_index spc)) eqn:Es; [|done].
    by apply lookup_lt_Some in Es.
  - intros b Hb Hc. unfold state_get_value. by rewrite bool_decide_false, Hb.
  - intros Hb. split; [unfold state_set_value, with_bank; by rewrite Hb|].
    intros Hc. unfold state_get_value. by rewrite bool_decide_false, Hb.
  - intros Hc. unfold state_get_value. by rewrite bool_decide_true.
Qed.

Lemma memory_state_correct_witness :
  get_memory_bank (set_memory_bank state_new (page_overlay_new le_space 8 4096 None)) le_space =
    Some (page_overlay_new le_space 8 4096 None).
Proof.
  apply (memory_state_correct state_new (page_overlay_new le_space 8 4096 None) le_space (new_unique false 4 0) 0 8 1); [done|].
  vm_compute. lia.
Defined.
