(* ===== verification/MemHash.v ===== *)
(** The hash overlay of [src/src/memstate.rs]: an open-addressed table whose
    [insert] and [find] walk the same sequence of slots.  The theorem says that
    a successful insertion changes exactly one word and that an insertion fails
    only when every slot of its sequence holds another word; the sentinel that
    marks empty slots cannot be stored. *)
From stdpp Require Import base list numbers strings gmap.
From Stdlib Require Import ZArith Lia.
From S2P Require Import Prelude Bits Space Address LoadImage MemBank.
Local Open Scope Z_scope.
Local Open Scope rust_scope.

Section Table.
Context (alignshift collideskip : Z).
Implicit Types (address : list Z) (addr : Z).

Definition next_slot (n : nat) (off : Z) : Z := u64 (off + collideskip) mod Z.of_nat n.

(** The [k]-th slot of the sequence that starts at [off]. *)
Fixpoint probe (n k : nat) (off : Z) : Z :=
  match k with O => off | S k => probe n k (next_slot n off) end.

Definition start (n : nat) (addr : Z) : Z := Z.shiftr addr alignshift mod Z.of_nat n.

(** The slot holds another word. *)
Definition blocked address addr (off : Z) (k : nat) : Prop :=
  exists a, address !! Z.to_nat (probe (length address) k off) = Some a /\ a <> addr /\ a <> HASH_EMPTY.

(** The walk stops at its [k]-th slot, which holds [x]: the word itself or
    nothing. *)
Definition stops address addr (off : Z) (r k : nat) (x : Z) : Prop :=
  (k < r)%nat /\ address !! Z.to_nat (probe (length address) k off) = Some x /\ (x = addr \/ x = HASH_EMPTY) /\
  forall j, (j < k)%nat -> blocked address addr off j.

Lemma stops_unique address addr off r k1 x1 k2 x2 : stops address addr off r k1 x1 -> stops address addr off r k2 x2 ->
  k1 = k2 /\ x1 = x2.
Proof.
  intros (_ & E1 & D1 & B1) (_ & E2 & D2 & B2).
  assert (k1 = k2) as ->; [|split; [done|congruence]].
  destruct (decide (k1 < k2)%nat) as [Hlt|]; [destruct (B2 k1 Hlt) as (a & Ea & ? & ?); simplify_eq; naive_solver|].
  destruct (decide (k2 < k1)%nat) as [Hlt|]; [destruct (B1 k2 Hlt) as (a & Ea & ? & ?); simplify_eq; naive_solver|lia].
Qed.

Lemma next_range n off : (0 < n)%nat -> 0 <= next_slot n off < Z.of_nat n.
Proof. intros. apply Z.mod_pos_bound. lia. Qed.

(** A walk seen from its second slot. *)
Lemma stops_next address addr off r k x : blocked address addr off 0 ->
  stops address addr (next_slot (length address) off) r k x -> stops address addr off (S r) (S k) x.
Proof.
  intros B0 (Hk & Hx & Hd & Hb). split; [lia|]. split; [done|]. split; [done|].
  intros [|j] Hj; [done|]. apply (Hb j). lia.
Qed.

(** The walk of [insert] or [find]: it stops, or everything is taken. *)
Lemma walk address addr : (0 < length address)%nat -> forall r off, 0 <= off < Z.of_nat (length address) ->
  (exists k x, stops address addr off r k x) \/ (forall k, (k < r)%nat -> blocked address addr off k).
Proof.
  intros Hn. induction r as [|r IH]; intros off Hoff; [right; lia|].
  destruct (lookup_lt_is_Some_2 address (Z.to_nat off) ltac:(lia)) as [a Ha].
  destruct (decide (a = addr \/ a = HASH_EMPTY)) as [Hstop|Hgo].
  { left. exists 0%nat, a. split; [lia|]. split; [done|]. split; [done|]. lia. }
  assert (blocked address addr off 0) as B0 by (exists a; naive_solver).
  destruct (IH (next_slot (length address) off) (next_range _ _ Hn)) as [(k & x & Hs)|Hall].
  - left. exists (S k), x. by apply stops_next.
  - right. intros [|k] Hk; [done|]. apply (Hall k). lia.
Qed.

(** What [hash_slot] and [hash_search] answer for either case. *)
Lemma slot_stops address addr r : forall off k x, stops address addr off r k x ->
  hash_slot r collideskip address addr off = Ok (Z.to_nat (probe (length address) k off)) /\
  hash_search r collideskip address addr off =
    Ok (if x =? addr then Some (Z.to_nat (probe (length address) k off)) else None).
Proof.
  induction r as [|r IH]; intros off k x (Hk & Hx & Hd & Hb); [lia|]. cbn [hash_slot hash_search].
  destruct k as [|k].
  - simpl in Hx. rewrite (index_ok _ _ _ Hx). cbn [obind probe]. destruct (Z.eqb_spec x addr) as [->|Hne]; [done|].
    destruct Hd as [|Hd]; [done|]. rewrite Hd. done.
  - destruct (Hb 0%nat ltac:(lia)) as (a & Ea & Hne & Hfull). simpl in Ea. rewrite (index_ok _ _ _ Ea). cbn [obind].
    destruct (Z.eqb_spec a addr); [done|]. destruct (Z.eqb_spec a HASH_EMPTY); [done|].
    apply (IH (next_slot (length address) off)). split; [lia|]. split; [done|]. split; [done|].
    intros j Hj. apply (Hb (S j)). lia.
Qed.

Lemma slot_blocked address addr r : forall off, (forall k, (k < r)%nat -> blocked address addr off k) ->
  hash_slot r collideskip address addr off = Err (Lowlevel "Memory state hash_table is full") /\
  hash_search r collideskip address addr off = Ok None.
Proof.
  induction r as [|r IH]; intros off Hb; [done|]. cbn [hash_slot hash_search].
  destruct (Hb 0%nat ltac:(lia)) as (a & Ea & Hne & Hfull). simpl in Ea. rewrite (index_ok _ _ _ Ea). cbn [obind].
  destruct (Z.eqb_spec a addr); [done|]. destruct (Z.eqb_spec a HASH_EMPTY); [done|].
  apply (IH (next_slot (length address) off)). intros k Hk. apply (Hb (S k)). lia.
Qed.

(** Every word of the table is the first stop of its own walk. *)
Definition placed address : Prop := forall s a, address !! s = Some a -> a <> HASH_EMPTY ->
  exists k, stops address a (start (length address) a) (length address) k a /\
    Z.to_nat (probe (length address) k (start (length address) a)) = s.

Lemma start_range n addr : (0 < n)%nat -> 0 <= start n addr < Z.of_nat n.
Proof. intros. apply Z.mod_pos_bound. lia. Qed.

(** In such a table the search finds exactly the words that are there. *)
Lemma search_placed address a : placed address -> (0 < length address)%nat -> a <> HASH_EMPTY ->
  (exists s, address !! s = Some a /\
    hash_search (length address) collideskip address a (start (length address) a) = Ok (Some s) /\
    forall t, address !! t = Some a -> t = s) \/
  (hash_search (length address) collideskip address a (start (length address) a) = Ok None /\
    forall t, address !! t <> Some a).
Proof.
  intros HP Hn Ha. destruct (decide (a ∈ address)) as [Hin|Hout].
  - left. apply list_elem_of_lookup in Hin as [s Hs]. destruct (HP s a Hs Ha) as (k & Hstop & Hslot).
    exists s. split; [done|]. destruct (slot_stops _ _ _ _ _ _ Hstop) as [_ ->]. rewrite Z.eqb_refl, Hslot.
    split; [done|]. intros t Ht. destruct (HP t a Ht Ha) as (k2 & Hstop2 & Hslot2).
    destruct (stops_unique _ _ _ _ _ _ _ _ Hstop Hstop2) as [-> _]. congruence.
  - right. assert (forall t, address !! t <> Some a) as Hno by (intros t Ht; apply Hout; by eapply list_elem_of_lookup_2).
    split; [|done].
    destruct (walk address a Hn (length address) (start (length address) a) (start_range _ _ Hn)) as [(k & x & Hs)|Hall].
    + destruct (slot_stops _ _ _ _ _ _ Hs) as [_ ->]. destruct (Z.eqb_spec x a) as [->|]; [|done].
      destruct Hs as (_ & Hx & _). by apply Hno in Hx.
    + by destruct (slot_blocked _ _ _ _ Hall) as [_ ->].
Qed.

(** Storing a word where its walk stops keeps the table in order. *)
Lemma store_placed address addr k x : placed address -> addr <> HASH_EMPTY ->
  stops address addr (start (length address) addr) (length address) k x ->
  placed (<[Z.to_nat (probe (length address) k (start (length address) addr)) := addr]> address).
Proof.
  intros HP Hne Hstop. set (s := Z.to_nat _) in *. destruct Hstop as (Hk & Hx & Hd & Hb).
  pose proof (lookup_lt_Some _ _ _ Hx) as Hlt. fold s in Hx, Hlt.
  assert (forall t a, address !! t = Some a -> a <> HASH_EMPTY -> t <> s -> a <> addr) as Hother.
  { intros t a Ht Ha Hts ->. destruct (HP t addr Ht Ha) as (k2 & Hs2 & Eslot). apply Hts. rewrite <- Eslot.
    destruct (stops_unique _ _ _ _ _ _ _ _ Hs2 (conj Hk (conj Hx (conj Hd Hb)))) as [-> _]. done. }
  assert (forall a off j, a <> addr ->
    blocked address a off j -> blocked (<[s := addr]> address) a off j) as Hkeep.
  { intros a off j Haddr (c & Hc & ? & ?). unfold blocked. rewrite length_insert.
    destruct (decide (s = Z.to_nat (probe (length address) j off))) as [Es|Es].
    - rewrite <- Es, list_lookup_insert_eq by done. by exists addr.
    - rewrite list_lookup_insert_ne by done. eauto. }
  intros t a Ht Ha. rewrite length_insert. destruct (decide (t = s)) as [->|Hts].
  - rewrite list_lookup_insert_eq in Ht by done. simplify_eq. exists k. split; [|done].
    split; [done|]. rewrite length_insert. fold s. rewrite list_lookup_insert_eq by done.
    split; [done|]. split; [by left|]. intros j Hj. destruct (Hb j Hj) as (c & Hc & ? & ?).
    exists c. rewrite length_insert, list_lookup_insert_ne; [done|]. intros Es. rewrite <- Es in Hc.
    destruct Hd; congruence.
  - rewrite list_lookup_insert_ne in Ht by done. destruct (HP t a Ht Ha) as (k2 & (Hk2 & Hx2 & _ & Hb2) & Hslot).
    exists k2. split; [|done]. split; [done|]. rewrite length_insert, Hslot, list_lookup_insert_ne by done.
    split; [done|]. split; [by left|]. intros j Hj. apply Hkeep; [by apply (Hother t)|by apply Hb2].
Qed.
End Table.

(** ** Properties *)

(** The table of a hash overlay in order. *)
Definition table_ok (b : MemoryBank) : Prop :=
  match b with
  | MemoryHashOverlay _ _ alignshift collideskip address value =>
      (0 < length address)%nat /\ length value = length address /\ placed alignshift collideskip address
  | _ => False
  end.

(** Every slot that an insertion of [addr] looks at holds another word. *)
Definition table_full (b : MemoryBank) (addr : Z) : Prop :=
  match b with
  | MemoryHashOverlay _ _ alignshift collideskip address _ =>
      forall k, (k < length address)%nat -> blocked collideskip address addr (start alignshift (length address) addr) k
  | _ => False
  end.

Lemma hash_start_ok alignshift addr n : (0 < n)%nat -> hash_start alignshift addr (Z.of_nat n) = Ok (start alignshift n addr).
Proof. intros. unfold hash_start. by destruct (Z.eqb_spec (Z.of_nat n) 0); [lia|]. Qed.

Lemma table_ok_new spc ws ps hashsize ul : 0 < hashsize ->
  exists b, hash_overlay_new spc ws ps hashsize ul = Ok b /\ table_ok b.
Proof.
  intros Hs. unfold hash_overlay_new, usize_of. destruct (Z.ltb_spec hashsize 0); [lia|]. cbn [obind].
  eexists. split; [reflexivity|]. unfold table_ok.
  rewrite !length_replicate. split; [lia|]. split; [done|]. intros s a Hs2 Ha.
  apply lookup_replicate in Hs2 as [-> _]. by destruct Ha.
Qed.

(** C37: on a hash overlay in order, inserting a word at an address other than the
    one that marks a free slot (0xBADBEEF) either succeeds, and then the table is
    in order, the word is found with its new value and every other word but the
    one at the marker reads as before, or fails because every slot on its way is taken, and
    changes nothing. *)
Theorem hash_insert_correct (b : MemoryBank) (addr val : Z) : table_ok b -> addr <> HASH_EMPTY ->
  (exists b', insert addr val b = (b', Ok tt) /\ table_ok b' /\ find b' addr = Ok val /\
    forall a, a <> addr -> a <> HASH_EMPTY -> find b' a = find b a) \/
  (insert addr val b = (b, Err (Lowlevel "Memory state hash_table is full")) /\ table_full b addr).
Proof.
  intros Hok Hne. destruct b as [| |base ul sh sk address value]; try done. destruct Hok as (Hn & Hlen & HP).
  unfold insert. rewrite hash_start_ok by done. cbn [obind].
  destruct (walk sk address addr Hn (length address) (start sh (length address) addr) (start_range _ _ _ Hn))
    as [(k & x & Hs)|Hall]; last first.
  { right. destruct (slot_blocked _ _ _ _ _ Hall) as [-> _]. done. }
  left. destruct (slot_stops _ _ _ _ _ _ _ Hs) as [-> _]. cbn [obind].
  pose proof (store_placed sh sk address addr k x HP Hne Hs) as HP'.
  set (s := Z.to_nat _) in *. assert (s < length address)%nat as Hlt by (destruct Hs as (_ & Hx & _); by apply lookup_lt_Some in Hx).
  rewrite !store_ok by lia. cbn [obind commit]. eexists. split; [done|].
  assert (0 < length (<[s := addr]> address))%nat as Hn' by (by rewrite length_insert).
  split; [simpl; rewrite !length_insert; done|]. split.
  - simpl. rewrite hash_start_ok by done. cbn [obind].
    destruct (search_placed sh sk (<[s := addr]> address) addr HP' Hn' Hne) as [(t & Ht & -> & Hu)|[_ Hno]].
    + cbn [obind]. rewrite <- (Hu s) by (by apply list_lookup_insert_eq). by rewrite (index_ok _ _ val) by (apply list_lookup_insert_eq; lia).
    + destruct (Hno s). by apply list_lookup_insert_eq.
  - intros a Ha Hfull. simpl. rewrite !hash_start_ok by done. cbn [obind].
    assert (forall t, <[s := addr]> address !! t = Some a <-> address !! t = Some a) as Hsame.
    { intros t. destruct (decide (t = s)) as [->|]; [|by rewrite list_lookup_insert_ne by done].
      rewrite list_lookup_insert_eq by done. destruct Hs as (_ & Hx & Hd & _). fold s in Hx. split; [intros [= <-]; by destruct Ha|].
      intros E. rewrite E in Hx. destruct Hd; congruence. }
    destruct (search_placed sh sk (<[s := addr]> address) a HP' Hn' Hfull) as [(t & Ht & -> & Hu)|[-> Hno]],
      (search_placed sh sk address a HP Hn Hfull) as [(t2 & Ht2 & -> & Hu2)|[-> Hno2]]; cbn [obind].
    + apply Hsame in Ht. rewrite (Hu2 t Ht) in *. unfold index. rewrite list_lookup_insert_ne; [done|].
      intros Est. destruct Hs as (_ & Hx & Hd & _). fold s in Hx. rewrite Est in Hx. destruct Hd; congruence.
    + apply Hsame in Ht. by apply Hno2 in Ht.
    + apply Hsame in Ht2. by apply Hno in Ht2.
    + done.
Qed.

Definition sample_table : MemoryBank :=
  MemoryHashOverlay (mk_MemoryBankBase 8 4096 le_space) None 3 1023 (replicate 4 HASH_EMPTY) (replicate 4 0).

Lemma sample_table_ok : table_ok sample_table.
Proof.
  split; [simpl; lia|]. split; [done|]. intros s a Hs Ha. apply lookup_replicate in Hs as [-> _]. by destruct Ha.
Qed.

Lemma hash_insert_correct_witness :
  (exists b', insert 0x100 7 sample_table = (b', Ok tt) /\ table_ok b' /\ find b' 0x100 = Ok 7 /\
    forall a, a <> 0x100 -> a <> HASH_EMPTY -> find b' a = find sample_table a) \/
  (insert 0x100 7 sample_table = (sample_table, Err (Lowlevel "Memory state hash_table is full")) /\
    table_full sample_table 0x100).
Proof. apply (hash_insert_correct sample_table 0x100 7 sample_table_ok). unfold HASH_EMPTY. lia. Defined.

(** The word at the sentinel's address is never read from underneath, and what
    is stored there is lost to the next word of its slot. *)
Example sentinel_address :
  let under := run (set_value HASH_EMPTY 1 0x55) (page_overlay_new le_space 1 4096 None) in
  match hash_overlay_new le_space 1 4096 4 (Some under) with
  | Ok b =>
      let c := run (insert (HASH_EMPTY + 4) 9) (run (insert HASH_EMPTY 8) b) in
      find under HASH_EMPTY = Ok 0x55 /\ find b HASH_EMPTY = Ok 0 /\ find c HASH_EMPTY = Ok 0
  | _ => False
  end.
Proof. vm_compute. done. Qed.

(** A table whose size divides the step probes one slot only. *)
Example short_probe :
  match hash_overlay_new le_space 8 4096 33 None with
  | Ok b => (insert (33 * 8) 1 (run (insert 0 1) b)).2 = Err (Lowlevel "Memory state hash_table is full")
  | _ => False
  end.
Proof. vm_compute. done. Qed.
