(* ===== verification/PartMap.v ===== *)
(** [PartMap] of [src/src/partmap.rs]: a total map over an ordered line given by
    its split points.  The abstract view of a [PartMap] is the function
    [get_value]; the theorems say what [split], a write through the reference it
    returns, and [clear_range] do to that function, and that none of the
    [expect] calls can fail. *)
From stdpp Require Import base list sets numbers.
From Stdlib Require Import ZArith Lia.
From S2P Require Import Prelude BTree.

(** ** Definitions *)

Record PartMap (L V : Type) : Type := mk_PartMap { database : list (L * V); defaultvalue : V }.
Arguments mk_PartMap {L V} _ _.
Arguments database {L V} _.
Arguments defaultvalue {L V} _.

Record PartBounds (L : Type) : Type := mk_PartBounds { before : option L; after : option L; valid : Z }.
Arguments mk_PartBounds {L} _ _ _.
Arguments before {L} _.
Arguments after {L} _.
Arguments valid {L} _.

Section PartMap.
Context {L V : Type} `{OrdKey L}.

(** [V::default()] is an argument. *)
Definition partmap_new (d : V) : PartMap L V := mk_PartMap [] d.

Definition duplicate (m : PartMap L V) (copy : V -> V) : PartMap L V :=
  mk_PartMap ((fun e => (e.1, copy e.2)) <$> database m) (copy (defaultvalue m)).

Definition last_at_or_before (m : PartMap L V) (pnt : L) : option L :=
  fst <$> before_incl fst pnt (database m).

Definition get_value (m : PartMap L V) (pnt : L) : V :=
  match before_incl fst pnt (database m) with
  | Some (_, value) => value
  | None => defaultvalue m
  end.

(** A write through [database.get_mut(key).expect(..)]. *)
Definition write_key (m : PartMap L V) (key : L) (value : V) : outcome (PartMap L V) :=
  match tree_get fst key (database m) with
  | Some _ => Ok (mk_PartMap (map_insert fst (key, value) (database m)) (defaultvalue m))
  | None => Panic
  end.

(** A write through the reference [get_value_mut] returns. *)
Definition get_value_mut (m : PartMap L V) (pnt : L) (value : V) : outcome (PartMap L V) :=
  match last_at_or_before m pnt with
  | Some key => write_key m key value
  | None => Ok (mk_PartMap (database m) value)
  end.

Definition get_partition_key (m : PartMap L V) (pnt : L) : option L := last_at_or_before m pnt.

Definition get_by_key (m : PartMap L V) (key : option L) : V :=
  match key with
  | Some key => default (defaultvalue m) (snd <$> tree_get fst key (database m))
  | None => defaultvalue m
  end.

Definition bounds (m : PartMap L V) (pnt : L) : V * PartBounds L :=
  match database m with
  | [] => (defaultvalue m, mk_PartBounds None None 3)
  | _ =>
      let after := fst <$> after_excl fst pnt (database m) in
      match before_incl fst pnt (database m) with
      | Some (before_key, value) =>
          (value, mk_PartBounds (Some before_key) after (match after with None => 2 | Some _ => 0 end))
      | None => (defaultvalue m, mk_PartBounds None after 1)
      end
  end.

(** [split] leaves the map with an entry at [pnt]; its result is the reference
    to that entry, a write through which is [write_key _ pnt].  The new entry is
    a [clone] of the value there; [split] itself is for values whose clone is the
    value. *)
Definition split_clone (clone : V -> V) (m : PartMap L V) (pnt : L) : outcome (PartMap L V) :=
  match last_at_or_before m pnt with
  | Some key =>
      match kcmp key pnt with
      | Eq => match tree_get fst pnt (database m) with Some _ => Ok m | None => Panic end
      | _ =>
          match tree_get fst key (database m) with
          | Some (_, copy) => Ok (mk_PartMap (map_insert fst (pnt, clone copy) (database m)) (defaultvalue m))
          | None => Panic
          end
      end
  | None => Ok (mk_PartMap (map_insert fst (pnt, clone (defaultvalue m)) (database m)) (defaultvalue m))
  end.

Definition split (m : PartMap L V) (pnt : L) : outcome (PartMap L V) := split_clone (fun v => v) m pnt.

(** The loop over the doomed keys of [clear_range]. *)
Definition remove_keys (keys : list L) (db : list (L * V)) : list (L * V) :=
  fold_left (fun db key => tree_remove fst key db) keys db.

(** [clear_range] returns the reference to the entry at [pnt1]. *)
Definition clear_range (m : PartMap L V) (pnt1 pnt2 : L) : outcome (PartMap L V) :=
  let! m := split m pnt1 in
  let! m := split m pnt2 in
  let m :=
    if kltb pnt1 pnt2 then
      let doomed := fst <$> range_excl fst pnt1 pnt2 (database m) in
      mk_PartMap (remove_keys doomed (database m)) (defaultvalue m)
    else m in
  match tree_get fst pnt1 (database m) with Some _ => Ok m | None => Panic end.

Definition keys_from (m : PartMap L V) (pnt : L) : list L := fst <$> range_from fst pnt (database m).

Definition get_mut (m : PartMap L V) (key : L) (value : V) : option (PartMap L V) :=
  match tree_get fst key (database m) with
  | Some _ => Some (mk_PartMap (map_insert fst (key, value) (database m)) (defaultvalue m))
  | None => None
  end.

Definition clear (m : PartMap L V) : PartMap L V := mk_PartMap [] (defaultvalue m).
Definition empty (m : PartMap L V) : bool := match database m with [] => true | _ => false end.

(** ** The value at a point *)

Definition pm_wf (m : PartMap L V) : Prop := sorted fst (database m).

(** [k] is the split point that governs [x]. *)
Definition governs (m : PartMap L V) (k x : L) : Prop :=
  kle k x /\ forall e, e ∈ database m -> kle e.1 x -> kle e.1 k.

Lemma get_value_entry m k v x : pm_wf m -> (k, v) ∈ database m -> governs m k x -> get_value m x = v.
Proof.
  intros Hs Hkv [Hle Hmax]. unfold get_value.
  assert (before_incl fst x (database m) = Some (k, v)) as ->; [|done].
  apply before_incl_Some; [done|]. split; [done|]. split; [done|]. intros y Hy Hyx. by apply Hmax.
Qed.

Lemma get_value_default m x : (forall e, e ∈ database m -> klt x e.1) -> get_value m x = defaultvalue m.
Proof. intros Hall. unfold get_value. by rewrite (proj2 (before_incl_None fst x (database m)) Hall). Qed.

(** The value at a point depends only on the entries at or before it. *)
Lemma get_value_cases m x : pm_wf m ->
  (exists k v, (k, v) ∈ database m /\ governs m k x /\ get_value m x = v) \/
  ((forall e, e ∈ database m -> klt x e.1) /\ get_value m x = defaultvalue m).
Proof.
  intros Hs. destruct (before_incl fst x (database m)) as [[k v]|] eqn:E.
  - left. exists k, v. pose proof (proj1 (before_incl_Some fst x _ (k, v) Hs) E) as (Hin & Hle & Hmax).
    split; [done|]. split; [split; [done|by intros; apply Hmax]|]. unfold get_value. by rewrite E.
  - right. split; [by apply before_incl_None|]. unfold get_value. by rewrite E.
Qed.

#[export] Instance governs_dec m k x : Decision (governs m k x).
Proof.
  refine (cast_if (decide (kle k x /\ Forall (fun e => kle e.1 x -> kle e.1 k) (database m))));
    abstract (unfold governs; rewrite <- list.Forall_forall; done).
Defined.

(** Two maps with the same entries between a split point and [x] agree at [x]. *)
Lemma get_value_agree m m' x k : pm_wf m -> pm_wf m' ->
  (exists v, (k, v) ∈ database m) -> kle k x ->
  (forall e, kle k e.1 -> kle e.1 x -> (e ∈ database m <-> e ∈ database m')) ->
  get_value m' x = get_value m x.
Proof.
  intros Hs Hs' [v0 Hk] Hkx Hagree. destruct (get_value_cases m x Hs) as [(j & v & Hj & [Hle Hmax] & ->)|[Hall _]].
  - assert (kle k j) as Hkj by (apply (Hmax (k, v0)); done).
    apply (get_value_entry m' j v); [done|by apply Hagree|]. split; [done|]. intros e He Hex.
    destruct (kle_total e.1 j) as [?|Hlt]; [done|]. apply (Hmax e); [|done].
    apply Hagree; [|done|done]. apply kle_lt_eq. left. by eapply kle_klt_trans.
  - exfalso. specialize (Hall _ Hk). simpl in Hall. by apply not_kle in Hall.
Qed.

Lemma get_value_agree_below m m' x : pm_wf m -> pm_wf m' -> defaultvalue m' = defaultvalue m ->
  (forall e, kle e.1 x -> (e ∈ database m <-> e ∈ database m')) -> get_value m' x = get_value m x.
Proof.
  intros Hs Hs' Hd Hagree. destruct (get_value_cases m x Hs) as [(j & v & Hj & [Hle Hmax] & ->)|[Hall ->]].
  - apply (get_value_entry m' j v); [done|by apply Hagree|]. split; [done|]. intros e He Hex.
    apply (Hmax e); [|done]. by apply Hagree.
  - rewrite <- Hd. apply get_value_default. intros e He. apply not_kle. intros Hle.
    apply (not_kle e.1 x); [|done]. apply Hall. by apply Hagree.
Qed.

(** An insertion changes the value exactly where the new point governs. *)
Lemma get_value_insert m p v x : pm_wf m ->
  get_value (mk_PartMap (map_insert fst (p, v) (database m)) (defaultvalue m)) x =
  if decide (governs m p x) then v else get_value m x.
Proof.
  intros Hs. set (m' := mk_PartMap _ _).
  assert (Hs' : pm_wf m') by (by apply sorted_map_insert).
  assert (Hm' : forall e, e ∈ database m' <-> e = (p, v) \/ (e ∈ database m /\ e.1 <> p)).
  { intros e. by apply elem_of_map_insert. }
  destruct (decide (governs m p x)) as [[Hle Hmax]|N].
  - apply (get_value_entry m' p v); [done|apply Hm'; by left|]. split; [done|].
    intros e [->|[He _]]%Hm' Hex; [apply kle_refl|by apply Hmax].
  - destruct (kle_total p x) as [Hle|Hlt].
    + assert (exists e, e ∈ database m /\ kle e.1 x /\ klt p e.1) as ([k w] & Hk & Hkx & Hpk).
      { destruct (decide (Exists (fun e : L * V => kle e.1 x /\ klt p e.1) (database m))) as [(e & He & ?)%list.Exists_exists|Hno].
        - by exists e.
        - destruct N. split; [done|]. intros e He Hex. apply not_klt. intros Hlt. apply Hno.
          apply list.Exists_exists. by exists e. }
      apply (get_value_agree m m' x k); [done|done|by exists w|done|]. intros e Hke _.
      rewrite Hm'. split; [|intros [->|[? _]]; [|done]].
      * intros He. right. split; [done|]. intros E. rewrite E in Hke. by apply not_kle in Hpk.
      * by apply not_kle in Hpk.
    + apply get_value_agree_below; [done..|]. intros e Hex. rewrite Hm'. split; [|intros [->|[? _]]; [|done]].
      * intros He. right. split; [done|]. intros E. rewrite E in Hex. by apply not_kle in Hlt.
      * by apply not_kle in Hlt.
Qed.

Lemma get_value_governed m p x : pm_wf m -> governs m p x -> get_value m x = get_value m p.
Proof.
  intros Hs [Hle Hmax]. destruct (get_value_cases m p Hs) as [(k & v & Hk & [Hkp Hkmax] & ->)|[Hall ->]].
  - apply (get_value_entry m k v); [done|done|]. split; [by eapply kle_trans|].
    intros e He Hex. apply Hkmax; [done|]. by apply Hmax.
  - apply get_value_default. intros e He. apply not_kle. intros Hex.
    apply (not_kle e.1 p); [by apply Hall|]. by apply Hmax.
Qed.

Lemma last_at_or_before_Some m p k : pm_wf m -> last_at_or_before m p = Some k ->
  exists v, (k, v) ∈ database m /\ tree_get fst k (database m) = Some (k, v) /\ governs m k p /\ get_value m p = v.
Proof.
  intros Hs. unfold last_at_or_before. destruct (before_incl fst p (database m)) as [[j v]|] eqn:E; [|done].
  simpl. intros [= <-]. exists v. unfold get_value. rewrite E.
  apply before_incl_Some in E as (Hin & Hle & Hmax); [|done].
  split; [done|]. split; [by apply tree_get_Some|]. split; [split; [done|by intros; apply Hmax]|done].
Qed.

(** Splitting inserts the current value at the point, whichever branch runs. *)
Lemma split_ok m p : pm_wf m -> exists m', split m p = Ok m' /\ pm_wf m' /\ defaultvalue m' = defaultvalue m /\
  database m' = map_insert fst (p, get_value m p) (database m).
Proof.
  intros Hs. unfold split, split_clone. destruct (last_at_or_before m p) as [k|] eqn:E.
  - destruct (last_at_or_before_Some m p k Hs E) as (v & Hin & Hget & Hgov & Hv). rewrite Hv.
    destruct (kcmp k p) eqn:C; [|rewrite Hget; eexists; split; [done|]; split; [by apply sorted_map_insert|done]..].
    apply kcmp_eq in C as ->. rewrite Hget. exists m. split; [done|]. split; [done|]. split; [done|].
    apply (sorted_ext fst); [done|by apply sorted_map_insert|]. intros e. rewrite elem_of_map_insert by done. split.
    + intros He. destruct (decide (kcmp e.1 p = Eq)) as [C|N].
      * left. apply kcmp_eq in C. by apply (sorted_key_inj fst (database m)).
      * right. split; [done|]. simpl. by rewrite <- kcmp_eq.
    + intros [->|[? _]]; done.
  - eexists. split; [done|]. split; [by apply sorted_map_insert|]. split; [done|]. simpl. do 2 f_equal.
    unfold last_at_or_before in E. unfold get_value. by destruct (before_incl fst p (database m)).
Qed.

Lemma split_value m m' p x : pm_wf m -> defaultvalue m' = defaultvalue m ->
  database m' = map_insert fst (p, get_value m p) (database m) -> get_value m' x = get_value m x.
Proof.
  intros Hs Hd Hdb. destruct m' as [db' d']. simpl in *. subst. rewrite get_value_insert by done.
  destruct (decide (governs m p x)) as [Hg|]; [|done]. symmetry. by apply get_value_governed.
Qed.

Lemma write_key_ok m k v : pm_wf m -> (exists w, (k, w) ∈ database m) ->
  write_key m k v = Ok (mk_PartMap (map_insert fst (k, v) (database m)) (defaultvalue m)).
Proof.
  intros Hs [w Hw]. unfold write_key.
  by rewrite (proj2 (tree_get_Some fst k _ (k, w) Hs) (conj Hw eq_refl)).
Qed.

(** *** Entries edited in place *)

(** The value filed at a key. *)
Definition entry (m : PartMap L V) (k : L) : option V := snd <$> tree_get fst k (database m).

Lemma entry_Some m k v : pm_wf m -> entry m k = Some v <-> (k, v) ∈ database m.
Proof.
  intros Hs. unfold entry. split.
  - destruct (tree_get fst k (database m)) as [[j w]|] eqn:E; [|done]. intros [= <-].
    by apply tree_get_Some in E as [Hin [= ->]].
  - intros Hin. by rewrite (proj2 (tree_get_Some fst k _ (k, v) Hs) (conj Hin eq_refl)).
Qed.

Lemma entry_insert m p v k : pm_wf m ->
  entry (mk_PartMap (map_insert fst (p, v) (database m)) (defaultvalue m)) k = if decide (k = p) then Some v else entry m k.
Proof.
  intros Hs. set (m' := mk_PartMap _ _). assert (pm_wf m') as Hs' by (by apply sorted_map_insert).
  assert (forall w, entry m' k = Some w <-> (k = p /\ w = v) \/ (entry m k = Some w /\ k <> p)) as Hw.
  { intros w. rewrite !entry_Some by done. unfold m'. simpl. rewrite elem_of_map_insert by done. simpl. naive_solver. }
  destruct (decide (k = p)) as [->|Hne].
  - apply Hw. by left.
  - destruct (entry m k) as [w|] eqn:E; [apply Hw; by right|].
    destruct (entry m' k) as [w|] eqn:E'; [|done]. by destruct (proj1 (Hw w) eq_refl) as [[? _]|[? _]].
Qed.

(** The key that governs a point. *)
Lemma governing_key m x j : pm_wf m -> last_at_or_before m x = Some j <-> is_Some (entry m j) /\ governs m j x.
Proof.
  intros Hs. split.
  - intros E. destruct (last_at_or_before_Some m x j Hs E) as (v & Hin & _ & Hg & _).
    split; [exists v; by apply entry_Some|done].
  - intros [[v Hv%entry_Some] [Hle Hmax]]; [|done]. unfold last_at_or_before.
    assert (before_incl fst x (database m) = Some (j, v)) as ->; [|done].
    apply before_incl_Some; [done|]. split; [done|]. split; [done|]. intros y Hy Hyx. by apply Hmax.
Qed.

Lemma no_governing_key m x : pm_wf m -> last_at_or_before m x = None <-> forall j, is_Some (entry m j) -> klt x j.
Proof.
  intros Hs. unfold last_at_or_before. rewrite fmap_None, before_incl_None. split.
  - intros Hall j [v Hv%entry_Some]; [|done]. by apply (Hall (j, v)).
  - intros Hall [j v] Hin. apply Hall. exists v. by apply entry_Some.
Qed.

(** A map whose entries are those of another, each changed in its own way. *)
Lemma edited_value m m' (F : L -> V -> V) x : pm_wf m -> pm_wf m' -> defaultvalue m' = defaultvalue m ->
  (forall j, entry m' j = F j <$> entry m j) ->
  last_at_or_before m' x = last_at_or_before m x /\
  get_value m' x = match last_at_or_before m x with Some j => F j (get_value m x) | None => get_value m x end.
Proof.
  intros Hs Hs' Hd He. assert (forall j, is_Some (entry m' j) <-> is_Some (entry m j)) as Hkeys by (intros j; by rewrite He, fmap_is_Some).
  assert (forall j, governs m' j x <-> governs m j x) as Hg.
  { assert (forall m1 m2, pm_wf m1 -> pm_wf m2 -> (forall j, is_Some (entry m1 j) -> is_Some (entry m2 j)) -> forall j, governs m2 j x -> governs m1 j x) as Hhalf.
    { intros m1 m2 Hs1 Hs2 Hk j [Hle Hmax]. split; [done|]. intros [i w] Hi Hix.
      destruct (Hk i) as [w' Hw']; [exists w; by apply entry_Some|]. apply (Hmax (i, w')); [by apply entry_Some|done]. }
    intros j. split; apply Hhalf; try done; intros i; apply Hkeys. }
  destruct (last_at_or_before m x) as [j|] eqn:E.
  - apply governing_key in E as [[v Hv] Hgov]; [|done]. split.
    + apply governing_key; [done|]. rewrite Hkeys, Hg. split; [by exists v|done].
    + rewrite (get_value_entry m j v x) by (done || by apply entry_Some).
      apply (get_value_entry m' j); [done|apply entry_Some; [done|by rewrite He, Hv]|by apply Hg].
  - pose proof (proj1 (no_governing_key m x Hs) E) as Hall. split.
    + apply no_governing_key; [done|]. intros j. rewrite Hkeys. apply Hall.
    + rewrite !get_value_default, Hd; [done| |]; intros [j v] Hin; apply Hall; [|apply Hkeys]; exists v; by apply entry_Some.
Qed.

(** Splitting adds an entry where there was none, with a clone of the value. *)
Lemma split_clone_ok clone m p : pm_wf m -> exists m', split_clone clone m p = Ok m' /\ pm_wf m' /\ defaultvalue m' = defaultvalue m /\
  forall j, entry m' j = if decide (j = p) then Some (default (clone (get_value m p)) (entry m p)) else entry m j.
Proof.
  intros Hs. unfold split_clone.
  assert (forall v, exists m', Ok (mk_PartMap (map_insert fst (p, v) (database m)) (defaultvalue m)) = Ok m' /\ pm_wf m' /\
    defaultvalue m' = defaultvalue m /\ forall j, entry m' j = if decide (j = p) then Some v else entry m j) as Hins.
  { intros v. eexists. split; [done|]. split; [by apply sorted_map_insert|]. split; [done|]. intros j. by apply entry_insert. }
  destruct (last_at_or_before m p) as [k|] eqn:E.
  - destruct (last_at_or_before_Some m p k Hs E) as (v & Hin & Hget & Hgov & Hv). rewrite Hv.
    destruct (kcmp k p) eqn:C.
    { apply kcmp_eq in C as ->. rewrite Hget. exists m. do 3 (split; [done|]). intros j.
      assert (entry m p = Some v) as -> by (by apply entry_Some). destruct (decide (j = p)) as [->|]; [by apply entry_Some|done]. }
    all: rewrite Hget; assert (entry m p = None) as ->; [|by apply Hins].
    all: destruct (entry m p) as [w|] eqn:Ep; [|done]; apply entry_Some in Ep; [|done].
    all: destruct Hgov as [Hle Hmax]; pose proof (Hmax (p, w) Ep (kle_refl p)) as Hpk; pose proof (kle_antisym _ _ Hle Hpk) as ->.
    all: by rewrite kcmp_refl in C.
  - assert (entry m p = None) as ->.
    { destruct (entry m p) as [w|] eqn:Ep; [|done]. exfalso. apply (klt_irrefl p).
      apply (proj1 (no_governing_key m p Hs) E). by eexists. }
    assert (get_value m p = defaultvalue m) as ->; [|by apply Hins].
    unfold last_at_or_before in E. unfold get_value. by destruct (before_incl fst p (database m)).
Qed.

(** [split] never fails and changes no value; a write through the reference
    it returns changes exactly the points from the split point up to the next
    one. *)
Theorem split_write_correct m p v : pm_wf m ->
  exists m' m'', split m p = Ok m' /\ (forall x, get_value m' x = get_value m x) /\
    write_key m' p v = Ok m'' /\ pm_wf m'' /\
    forall x, get_value m'' x = if decide (governs m p x) then v else get_value m x.
Proof.
  intros Hs. destruct (split_ok m p Hs) as (m' & E & Hs' & Hd & Hdb). exists m'.
  assert (Hv : forall x, get_value m' x = get_value m x) by (intros; by eapply split_value).
  eexists. split; [done|]. split; [done|]. split.
  { apply write_key_ok; [done|]. exists (get_value m p). rewrite Hdb. apply elem_of_map_insert; [done|by left]. }
  split; [by apply sorted_map_insert|]. intros x. rewrite get_value_insert by done.
  assert (Hg : governs m' p x <-> governs m p x).
  { unfold governs. rewrite Hdb. setoid_rewrite elem_of_map_insert; [|done]. split; intros [Hle Hmax]; (split; [done|]).
    - intros e He Hex. destruct (decide (kcmp e.1 p = Eq)) as [C|N].
      + apply kcmp_eq in C. rewrite C. apply kle_refl.
      + apply Hmax; [|done]. right. split; [done|]. by rewrite <- kcmp_eq.
    - intros e [->|[He _]] Hex; [apply kle_refl|by apply Hmax]. }
  destruct (decide (governs m' p x)), (decide (governs m p x)); tauto || done.
Qed.

Lemma elem_of_remove_keys ks : forall db e, e ∈ remove_keys ks db <-> e ∈ db /\ e.1 ∉ ks.
Proof.
  induction ks as [|k ks IH]; intros db e; simpl; [set_solver|].
  rewrite IH, elem_of_tree_remove, not_elem_of_cons. tauto.
Qed.

Lemma sorted_remove_keys ks : forall db, sorted fst db -> sorted fst (remove_keys ks db).
Proof. induction ks as [|k ks IH]; intros db Hs; simpl; [done|]. by apply IH, sorted_tree_remove. Qed.

(** C33: [clear_range] never fails, and a write through the reference it returns
    makes the map constant on [\[pnt1, pnt2)] and leaves every other point
    alone. *)
Theorem clear_range_correct m p1 p2 v : pm_wf m -> klt p1 p2 ->
  exists m' m'', clear_range m p1 p2 = Ok m' /\ write_key m' p1 v = Ok m'' /\ pm_wf m'' /\
    forall x, get_value m'' x = if decide (kle p1 x /\ klt x p2) then v else get_value m x.
Proof.
  intros Hs Hlt. unfold clear_range.
  destruct (split_ok m p1 Hs) as (m1 & -> & Hs1 & Hd1 & Hdb1). cbn [obind].
  destruct (split_ok m1 p2 Hs1) as (m2 & -> & Hs2 & Hd2 & Hdb2). cbn [obind].
  assert (Hv : forall x, get_value m2 x = get_value m x).
  { intros x. rewrite (split_value m1 m2 p2 x) by done. by apply (split_value m m1 p1 x). }
  rewrite (proj2 (kltb_spec p1 p2) Hlt).
  set (m3 := mk_PartMap (remove_keys _ _) _).
  assert (Hs3 : pm_wf m3) by (by apply sorted_remove_keys).
  assert (Hm3 : forall e, e ∈ database m3 <-> e ∈ database m2 /\ ~ (klt p1 e.1 /\ klt e.1 p2)).
  { intros e. unfold m3. simpl. rewrite elem_of_remove_keys. split; intros [He N]; (split; [done|]); intros Hk; apply N.
    - apply list_elem_of_fmap. exists e. split; [done|]. by apply list_elem_of_filter.
    - apply list_elem_of_fmap in Hk as (y & E & Hy). apply list_elem_of_filter in Hy as [? _]. by rewrite E. }
  assert (Hp2 : exists w, (p2, w) ∈ database m2).
  { exists (get_value m1 p2). rewrite Hdb2. apply elem_of_map_insert; [done|by left]. }
  assert (Hp1 : exists w, (p1, w) ∈ database m3).
  { exists (get_value m p1). apply Hm3. split; [|intros [? _]; by apply (klt_irrefl p1)].
    rewrite Hdb2. apply elem_of_map_insert; [done|]. right. split; [|simpl; by apply klt_neq].
    rewrite Hdb1. apply elem_of_map_insert; [done|by left]. }
  destruct Hp1 as [w1 Hw1]. rewrite (proj2 (tree_get_Some fst p1 _ (p1, w1) Hs3) (conj Hw1 eq_refl)).
  exists m3. eexists. split; [done|]. split; [apply write_key_ok; [done|by exists w1]|].
  split; [by apply sorted_map_insert|]. intros x. rewrite get_value_insert by done.
  destruct (decide (kle p1 x /\ klt x p2)) as [[H1 H2]|Hout].
  - rewrite decide_True; [done|]. split; [done|]. intros e [He N]%Hm3 Hex.
    apply not_klt. intros Hlo. apply N. split; [done|]. by eapply kle_klt_trans.
  - rewrite <- Hv. destruct (kle_total p1 x) as [Hge|Hless].
    + assert (kle p2 x) as H2 by (destruct (kle_total p2 x); [done|tauto]).
      destruct Hp2 as [w2 Hp2]. rewrite decide_False.
      * apply (get_value_agree m2 m3 x p2); [done|done|by exists w2|done|]. intros e Hpe _. rewrite Hm3.
        split; [|tauto]. intros He. split; [done|]. intros [_ ?]. by apply not_kle in Hpe.
      * intros [_ Hmax]. apply (not_kle p2 p1); [done|]. apply (Hmax (p2, w2)); [|done]. apply Hm3.
        split; [done|]. intros [_ ?]. by apply (klt_irrefl p2).
    + rewrite decide_False by (intros [Hle _]; by apply not_kle in Hless).
      apply get_value_agree_below; [done..|]. intros e Hex. rewrite Hm3. split; [|tauto].
      intros He. split; [done|]. intros [Hlo _]. apply (klt_irrefl p1).
      eapply klt_trans; [done|]. by eapply kle_klt_trans.
Qed.

(** [bounds] returns the value at the point and a region around it on which
    the map is constant: from [before] (or the start of the line) up to, but not
    including, [after] (or its end); [valid] says which ends are open. *)
Theorem bounds_correct m p : pm_wf m ->
  let '(v, b) := bounds m p in
  v = get_value m p /\
  (match before b with Some k => kle k p | None => True end) /\
  (match after b with Some k => klt p k | None => True end) /\
  (forall x, (match before b with Some k => kle k x | None => True end) ->
             (match after b with Some k => klt x k | None => True end) -> get_value m x = v) /\
  valid b = (match before b with None => 1 | Some _ => 0 end) + (match after b with None => 2 | Some _ => 0 end).
Proof.
  intros Hs. unfold bounds. destruct (database m) as [|e0 db0] eqn:Edb.
  { simpl. assert (forall x, get_value m x = defaultvalue m) as Hall.
    { intros x. apply get_value_default. rewrite Edb. by intros e ?%elem_of_nil. }
    rewrite Hall. auto. }
  rewrite <- Edb in *.
  assert (Hafter : forall x e, e ∈ database m -> kle e.1 x ->
    match fst <$> after_excl fst p (database m) with Some k => klt x k | None => True end -> kle e.1 p).
  { intros x e He Hex Hx. destruct (after_excl fst p (database m)) as [[k w]|] eqn:Ea; simpl in Hx.
    - apply after_excl_Some in Ea as (_ & _ & Hmin); [|done]. apply not_klt. intros Hlt.
      specialize (Hmin e He Hlt). apply (not_kle k x); [done|]. by eapply kle_trans.
    - by apply (proj1 (after_excl_None fst p (database m)) Ea). }
  assert (Hpa : match fst <$> after_excl fst p (database m) with Some k => klt p k | None => True end).
  { destruct (after_excl fst p (database m)) as [[k w]|] eqn:Ea; simpl; [|done].
    by apply after_excl_Some in Ea as (_ & ? & _). }
  destruct (before_incl fst p (database m)) as [[k v]|] eqn:Eb; cbn [before after valid].
  - unfold get_value at 1. rewrite Eb. apply before_incl_Some in Eb as (Hin & Hle & Hmax); [|done].
    split; [done|]. split; [done|]. split; [done|]. split; [|by destruct (fst <$> _)].
    intros x Hkx Hxa. apply (get_value_entry m k v); [done|done|]. split; [done|].
    intros e He Hex. apply Hmax; [done|]. by apply (Hafter x).
  - unfold get_value at 1. rewrite Eb. pose proof (proj1 (before_incl_None fst p (database m)) Eb) as Hall.
    split; [done|]. split; [done|]. split; [done|]. split.
    + intros x _ Hxa. apply get_value_default. intros e He. apply not_kle. intros Hex.
      apply (not_kle e.1 p); [by apply Hall|]. by apply (Hafter x).
    + destruct (after_excl fst p (database m)) as [[k w]|] eqn:Ea; [done|].
      assert (e0 ∈ database m) as He0 by (rewrite Edb; by left).
      exfalso. apply (not_kle e0.1 p); [by apply Hall|]. by apply (proj1 (after_excl_None fst p (database m)) Ea).
Qed.
End PartMap.

(** A map over offsets: value 0 before 10, 1 from 10, 2 from 20. *)
Definition sample_map : PartMap Z Z := mk_PartMap [(10, 1); (20, 2)] 0.

Lemma sample_map_wf : pm_wf sample_map.
Proof.
  apply sorted_cons. split; [apply sorted_cons; split; [constructor|set_solver]|].
  intros y ->%list_elem_of_singleton. reflexivity.
Qed.

Lemma split_write_correct_witness : exists m' m'',
  split sample_map 15 = Ok m' /\ write_key m' 15 7 = Ok m'' /\
  get_value m'' 14 = 1 /\ get_value m'' 19 = 7 /\ get_value m'' 20 = 2.
Proof.
  destruct (split_write_correct sample_map 15 7 sample_map_wf) as (m' & m'' & E1 & _ & E2 & _ & Hv).
  exists m', m''. split; [exact E1|]. split; [exact E2|]. rewrite !Hv. split; [|split]; reflexivity.
Defined.

Lemma clear_range_correct_witness : exists m' m'',
  clear_range sample_map 5 15 = Ok m' /\ write_key m' 5 9 = Ok m'' /\
  get_value m'' 4 = 0 /\ get_value m'' 12 = 9 /\ get_value m'' 15 = 1.
Proof.
  destruct (clear_range_correct sample_map 5 15 9 sample_map_wf eq_refl) as (m' & m'' & E1 & E2 & _ & Hv).
  exists m', m''. split; [exact E1|]. split; [exact E2|]. rewrite !Hv. split; [|split]; reflexivity.
Defined.

Lemma bounds_correct_witness :
  bounds sample_map 12 = (1, mk_PartBounds (Some 10) (Some 20) 0) /\ get_value sample_map 19 = 1.
Proof.
  split; [reflexivity|].
  pose proof (bounds_correct sample_map 12 sample_map_wf) as (_ & _ & _ & H & _).
  apply (H 19); simpl; [discriminate|reflexivity].
Defined.
