(* ===== verification/OrderedIndex.v ===== *)
(** [OrderedIndex] of [src/src/orderedindex.rs]: a [BTreeMap] with a prefetch
    buffer for cursors that walk it in order.  [entry_from] reads through the
    interior-mutable buffer, so its model returns the index with the buffer it
    leaves.  The theorem is that the buffer is invisible: on every sequence of
    insertions, removals, clears and queries, each query answers what the plain
    map answers. *)
From stdpp Require Import base list sets numbers.
From Stdlib Require Import ZArith Lia.
From S2P Require Import Prelude BTree.

(** ** Definitions *)

Definition MINIMUM_PREFETCH_LENGTH : nat := 2.
Definition MAXIMUM_PREFETCH_LENGTH : nat := 16.

Section OrderedIndex.
Context {K V : Type} `{OrdKey K}.

Record Prefetch : Type := mk_Prefetch {
  p_version : Z;
  start : option K;
  entries : list (K * V);
  complete : bool;
  length_ : nat;
}.

Record OrderedIndex : Type := mk_OrderedIndex {
  tree : list (K * V);
  version : Z;
  prefetch : Prefetch;
}.

Definition index_default : OrderedIndex :=
  mk_OrderedIndex [] 0 (mk_Prefetch (2 ^ 64 - 1) None [] false MINIMUM_PREFETCH_LENGTH).

Definition index_insert (ix : OrderedIndex) (key : K) (value : V) : OrderedIndex * option V :=
  (mk_OrderedIndex (map_insert fst (key, value) (tree ix)) (u64 (version ix + 1)) (prefetch ix),
   snd <$> tree_get fst key (tree ix)).

Definition index_remove (ix : OrderedIndex) (key : K) : OrderedIndex * option V :=
  (mk_OrderedIndex (tree_remove fst key (tree ix)) (u64 (version ix + 1)) (prefetch ix),
   snd <$> tree_get fst key (tree ix)).

Definition index_clear (ix : OrderedIndex) : OrderedIndex :=
  mk_OrderedIndex [] (u64 (version ix + 1)) (prefetch ix).

Definition answer : Type := option (K * V * option K).

Definition buffered_answer (p : Prefetch) : option answer :=
  match entries p with
  | (current, value) :: (next, _) :: _ => Some (Some (current, value, Some next))
  | [(current, value)] => if complete p then Some (Some (current, value, None)) else None
  | [] => if complete p then Some None else None
  end.

(** The loop that pops the entries before the key. *)
Fixpoint pop_before (key : K) (l : list (K * V)) : list (K * V) :=
  match l with
  | (found, value) :: l' => if kltb found key then pop_before key l' else l
  | [] => []
  end.

Definition reusable (ix : OrderedIndex) (key : K) : bool :=
  (p_version (prefetch ix) =? version ix) &&
  match start (prefetch ix) with Some s => kleb s key | None => false end.

(** The refill at the end of [entry_from]. *)
Definition refill (ix : OrderedIndex) (len : nat) (key : K) : Prefetch :=
  let found := take len (range_from fst key (tree ix)) in
  mk_Prefetch (version ix) (Some key) found (length found <? len)%nat len.

Definition entry_from (ix : OrderedIndex) (key : K) : OrderedIndex * answer :=
  let p := prefetch ix in
  let reuse := reusable ix key in
  let popped := mk_Prefetch (p_version p) (Some key) (pop_before key (entries p)) (complete p) (length_ p) in
  let p := if reuse then popped else p in
  match (if reuse then buffered_answer p else None) with
  | Some a => (mk_OrderedIndex (tree ix) (version ix) p, a)
  | None =>
      let len := if reuse then Nat.min (length_ p * 2) MAXIMUM_PREFETCH_LENGTH
                 else MINIMUM_PREFETCH_LENGTH in
      let p := refill ix len key in
      (mk_OrderedIndex (tree ix) (version ix) p, default None (buffered_answer p))
  end.

(** ** The reference: a query on the plain map *)

Definition answer_of (l : list (K * V)) : answer :=
  match l with
  | [] => None
  | (k, v) :: l => Some (k, v, fst <$> head l)
  end.

Definition expected_entry (m : list (K * V)) (key : K) : answer := answer_of (range_from fst key m).

(** ** The invariant *)

(** The buffer holds a prefix of the map from its start, all of it when it says
    so. *)
Definition buffers (m : list (K * V)) (p : Prefetch) (s : K) : Prop :=
  exists rest, range_from fst s m = entries p ++ rest /\ (complete p = true -> rest = []).

Definition index_inv (n : Z) (ix : OrderedIndex) : Prop :=
  sorted fst (tree ix) /\ (version ix = n /\ 0 <= n) /\ (1 <= length_ (prefetch ix))%nat /\
  match start (prefetch ix) with
  | None => True
  | Some s => 0 <= p_version (prefetch ix) <= n /\
      (p_version (prefetch ix) = n -> buffers (tree ix) (prefetch ix) s)
  end.

Lemma pop_before_filter key l : sorted fst l -> pop_before key l = range_from fst key l.
Proof.
  unfold range_from. induction l as [|[k v] l IH]; [done|]. intros Hs. simpl. rewrite filter_cons. simpl.
  apply sorted_cons in Hs as [Hs Hk]. destruct (kltb k key) eqn:E.
  - apply kltb_spec in E. rewrite decide_False by (by apply not_kle). by apply IH.
  - assert (kle key k) as Hle by (apply not_klt; rewrite <- kltb_spec; congruence).
    rewrite decide_True by done. f_equal. symmetry. apply filter_id. intros [k' v'] Hin.
    apply kle_lt_eq. left. eapply kle_klt_trans; [done|]. by apply (Hk (k', v')).
Qed.

Lemma range_from_mono s key (l : list (K * V)) : kle s key ->
  range_from fst key l = range_from fst key (range_from fst s l).
Proof.
  intros Hle. unfold range_from. rewrite list_filter_filter. apply list_filter_iff.
  intros e. split; [|tauto]. intros He. split; [done|]. by eapply kle_trans.
Qed.

Lemma buffered_answer_of l p rest : l = entries p ++ rest -> (complete p = true -> rest = []) ->
  forall a, buffered_answer p = Some a -> a = answer_of l.
Proof.
  intros -> Hc a. unfold buffered_answer. destruct (entries p) as [|[k v] [|[k' v'] t]]; simpl.
  - destruct (complete p); [|done]. intros [= <-]. by rewrite Hc.
  - destruct (complete p); [|done]. intros [= <-]. by rewrite Hc.
  - by intros [= <-].
Qed.

(** A refill of two entries or more can always answer. *)
Lemma refill_answer ix len key : (2 <= len)%nat ->
  buffered_answer (refill ix len key) = Some (expected_entry (tree ix) key) /\
  buffers (tree ix) (refill ix len key) key.
Proof.
  intros Hlen. unfold refill, buffers, buffered_answer, expected_entry. cbn [entries complete].
  set (l := range_from fst key (tree ix)). split.
  - destruct l as [|[k v] [|[k' v'] l']]; destruct len as [|[|len]]; try lia; reflexivity.
  - exists (drop len l). split; [by rewrite take_drop|]. intros Hlt%Nat.ltb_lt.
    rewrite length_take in Hlt. apply drop_ge. lia.
Qed.

Lemma entry_from_ok n ix key : index_inv n ix ->
  (entry_from ix key).2 = expected_entry (tree ix) key /\
  index_inv n (entry_from ix key).1 /\ tree (entry_from ix key).1 = tree ix.
Proof.
  intros (Hs & [Hv Hn] & Hlen & Hp). unfold entry_from.
  assert (Hrefill : forall len, (2 <= len)%nat ->
    default None (buffered_answer (refill ix len key)) = expected_entry (tree ix) key /\
    index_inv n (mk_OrderedIndex (tree ix) (version ix) (refill ix len key)) /\
    tree (mk_OrderedIndex (tree ix) (version ix) (refill ix len key)) = tree ix).
  { intros len Hl. destruct (refill_answer ix len key Hl) as [Ha Hb]. rewrite Ha. split; [done|]. split; [|done].
    split; [done|]. split; [done|]. split; [simpl; lia|]. simpl. rewrite Hv. split; [lia|done]. }
  destruct (reusable ix key) eqn:Hr; [|apply Hrefill; unfold MINIMUM_PREFETCH_LENGTH; lia].
  unfold reusable in Hr. apply andb_true_iff in Hr as [Hpv%Z.eqb_eq Hst].
  destruct (start (prefetch ix)) as [s|]; [|done]. apply kleb_spec in Hst.
  destruct Hp as [Hver Hbuf]. destruct (Hbuf ltac:(congruence)) as (rest & Hrest & Hc).
  set (p := mk_Prefetch (p_version (prefetch ix)) (Some key) (pop_before key (entries (prefetch ix)))
              (complete (prefetch ix)) (length_ (prefetch ix))).
  assert (Hp : range_from fst key (tree ix) = entries p ++ range_from fst key rest).
  { simpl. rewrite pop_before_filter.
    - rewrite (range_from_mono s key) by done. rewrite Hrest. apply list.filter_app.
    - assert (sorted fst (entries (prefetch ix) ++ rest)) as Hsr by (rewrite <- Hrest; by apply sorted_filter).
      by apply sorted_app_l in Hsr. }
  assert (Hc' : complete p = true -> range_from fst key rest = []) by (intros Hcp; by rewrite Hc).
  destruct (buffered_answer p) as [a|] eqn:Ha; cbn [fst snd].
  - split; [by eapply buffered_answer_of|]. split; [|done]. split; [done|]. split; [done|]. split; [done|].
    simpl. split; [done|]. intros _. by eexists.
  - apply Hrefill. unfold p, MAXIMUM_PREFETCH_LENGTH. simpl. lia.
Qed.

(** ** Sequences of operations *)

Inductive op : Type :=
  | Insert (key : K) (value : V)
  | Remove (key : K)
  | Clear
  | EntryFrom (key : K).

Inductive reply : Type := Old (v : option V) | Done | Entry (a : answer).

Definition step (ix : OrderedIndex) (o : op) : OrderedIndex * reply :=
  match o with
  | Insert key value => let (ix, v) := index_insert ix key value in (ix, Old v)
  | Remove key => let (ix, v) := index_remove ix key in (ix, Old v)
  | Clear => (index_clear ix, Done)
  | EntryFrom key => let (ix, a) := entry_from ix key in (ix, Entry a)
  end.

(** The same operation on a map without a buffer. *)
Definition map_step (m : list (K * V)) (o : op) : list (K * V) * reply :=
  match o with
  | Insert key value => (map_insert fst (key, value) m, Old (snd <$> tree_get fst key m))
  | Remove key => (tree_remove fst key m, Old (snd <$> tree_get fst key m))
  | Clear => ([], Done)
  | EntryFrom key => (m, Entry (expected_entry m key))
  end.

Fixpoint run {S} (f : S -> op -> S * reply) (s : S) (ops : list op) : list reply :=
  match ops with
  | [] => []
  | o :: ops => let (s, r) := f s o in r :: run f s ops
  end.

Lemma inv_mutate n ix m : index_inv n ix -> n + 1 < 2 ^ 64 -> sorted fst m ->
  index_inv (n + 1) (mk_OrderedIndex m (u64 (version ix + 1)) (prefetch ix)).
Proof.
  intros (_ & [-> Hn] & Hlen & Hp) Hb Hm. split; [done|]. cbn [version prefetch].
  split; [split; [apply uw_small; unfold is_u|]; lia|]. split; [done|].
  destruct (start (prefetch ix)); [|done]. destruct Hp as [Hv _]. split; [lia|]. lia.
Qed.

Lemma step_refines n ix o : index_inv n ix -> n + 1 < 2 ^ 64 ->
  (step ix o).2 = (map_step (tree ix) o).2 /\ tree (step ix o).1 = (map_step (tree ix) o).1 /\
  exists n', n <= n' <= n + 1 /\ index_inv n' (step ix o).1.
Proof.
  intros Hi Hb. pose proof Hi as (Hs & _). destruct o as [key value|key| |key]; cbn [step map_step].
  - split; [done|]. split; [done|]. exists (n + 1). split; [lia|]. apply inv_mutate; [done|lia|by apply sorted_map_insert].
  - split; [done|]. split; [done|]. exists (n + 1). split; [lia|]. apply inv_mutate; [done|lia|by apply sorted_tree_remove].
  - split; [done|]. split; [done|]. exists (n + 1). split; [lia|]. apply inv_mutate; [done|lia|constructor].
  - destruct (entry_from_ok n ix key Hi) as (H1 & H2 & H3). destruct (entry_from ix key) as [ix' a].
    cbn [fst snd] in *. split; [by rewrite H1|]. split; [done|]. exists n. split; [lia|done].
Qed.

Lemma run_refines ops : forall n ix, index_inv n ix -> n + Z.of_nat (length ops) < 2 ^ 64 ->
  run step ix ops = run map_step (tree ix) ops.
Proof.
  induction ops as [|o ops IH]; intros n ix Hi Hb; [done|]. cbn [length] in Hb.
  destruct (step_refines n ix o Hi ltac:(lia)) as (H1 & H2 & n' & Hn' & Hi'). simpl run.
  destruct (step ix o) as [ix' r], (map_step (tree ix) o) as [m' r']. cbn [fst snd] in *. subst.
  f_equal. apply (IH n'); [done|lia].
Qed.

(** C3: the prefetch buffer is invisible: from an empty index, fewer than
    [2^64] operations get the replies a plain ordered map gives. *)
Theorem ordered_index_refines ops : Z.of_nat (length ops) < 2 ^ 64 ->
  run step index_default ops = run map_step [] ops.
Proof.
  intros Hb. apply (run_refines ops 0); [|lia]. split; [constructor|]. split; [done|]. split; [|done].
  simpl. unfold MINIMUM_PREFETCH_LENGTH. lia.
Qed.
End OrderedIndex.

Lemma ordered_index_refines_witness :
  run step (index_default (K := Z) (V := Z))
    [Insert 5 50; Insert 3 30; EntryFrom 0; EntryFrom 4; Insert 4 40; EntryFrom 4; Remove 5; EntryFrom 5] =
  [Old None; Old None; Entry (Some (3, 30, Some 5)); Entry (Some (5, 50, None)); Old None;
   Entry (Some (4, 40, Some 5)); Old (Some 50); Entry None].
Proof. rewrite (ordered_index_refines (K := Z) (V := Z)); [reflexivity|simpl; lia]. Defined.
