(* ===== verification/Arena.v ===== *)
(** [Arena] of [src/src/arena.rs]: values in slots that are never reused, named by
    their index.  An identifier is the index; making one of an index past the
    range of [u32] panics, as does the use of an identifier whose slot is empty.
    [get_mut] and the index operators are [get] followed by [put]. *)
From stdpp Require Import base list gmap numbers.
From Stdlib Require Import ZArith Lia.
From S2P Require Import Prelude Bits.

(** ** Definitions *)

Record Arena (T : Type) : Type := mk_Arena { slots : list (option T); live : Z }.
Arguments mk_Arena {T} _ _.
Arguments slots {T} _.
Arguments live {T} _.

Section Operations.
Context {T : Type}.

Definition arena_new : Arena T := mk_Arena [] 0.

(** [ArenaId::from_index], of the identifiers [define_id!] makes. *)
Definition arena_from_index (i : nat) : outcome nat :=
  if Z.of_nat i <? 2 ^ 32 then Ok i else Panic.

Definition alloc_with (a : Arena T) (build : nat -> T) : outcome (Arena T * nat) :=
  let! id := arena_from_index (length (slots a)) in
  let value := build id in
  Ok (mk_Arena (slots a ++ [Some value]) (u64 (live a + 1)), id).

Definition alloc (a : Arena T) (value : T) : outcome (Arena T * nat) :=
  let! id := arena_from_index (length (slots a)) in
  Ok (mk_Arena (slots a ++ [Some value]) (u64 (live a + 1)), id).

Definition next_id (a : Arena T) : outcome nat := arena_from_index (length (slots a)).

Definition try_get (a : Arena T) (id : nat) : option T := mjoin (slots a !! id).

Definition arena_contains (a : Arena T) (id : nat) : bool :=
  match slots a !! id with Some (Some _) => true | _ => false end.

Definition get (a : Arena T) (id : nat) : outcome T :=
  match slots a !! id with Some (Some value) => Ok value | _ => Panic end.

(** A write through [get_mut] (or [try_get_mut], or [a\[id\]]). *)
Definition put (a : Arena T) (id : nat) (value : T) : outcome (Arena T) :=
  match slots a !! id with
  | Some (Some _) => Ok (mk_Arena (<[id := Some value]> (slots a)) (live a))
  | _ => Panic
  end.

(** [get2_mut]: the two values, for distinct live identifiers. *)
Definition get2_mut (a : Arena T) (first second : nat) : outcome (T * T) :=
  if decide (first = second) then Panic else
  let '(low, high, swapped) :=
    if decide (first < second)%nat then (first, second, false) else (second, first, true) in
  let head := take high (slots a) in
  let tail := drop high (slots a) in
  if decide (length (slots a) < high)%nat then Panic else
  match head !! low, tail !! 0%nat with
  | Some (Some low_value), Some (Some high_value) =>
      Ok (if swapped : bool then (high_value, low_value) else (low_value, high_value))
  | _, _ => Panic
  end.

Definition arena_remove (a : Arena T) (id : nat) : outcome (Arena T * T) :=
  match slots a !! id with
  | Some (Some value) => Ok (mk_Arena (<[id := None]> (slots a)) (u64 (live a - 1)), value)
  | _ => Panic
  end.

Definition arena_clear (a : Arena T) : Arena T := mk_Arena ((fun _ => None) <$> slots a) 0.

Definition arena_len (a : Arena T) : Z := live a.
Definition arena_is_empty (a : Arena T) : bool := live a =? 0.
Definition capacity_ids (a : Arena T) : nat := length (slots a).

(** [iter] and [ids]: the live slots in order of their index. *)
Definition iter (a : Arena T) : list (nat * T) :=
  omap (fun p => (fun value => (p.1, value)) <$> p.2) (imap pair (slots a)).

Definition ids (a : Arena T) : list nat := (iter a).*1.

(** ** The arena as a finite map *)

Lemma get_try a id : get a id = match try_get a id with Some v => Ok v | None => Panic end.
Proof. unfold get, try_get. by destruct (slots a !! id) as [[]|]. Qed.

Lemma put_ok a id v v0 : try_get a id = Some v0 -> exists a', put a id v = Ok a' /\ length (slots a') = length (slots a) /\
  live a' = live a /\ try_get a' id = Some v /\ forall j, j <> id -> try_get a' j = try_get a j.
Proof.
  unfold put, try_get. destruct (slots a !! id) as [[x|]|] eqn:E; [|done..]. intros _. eexists. split; [done|].
  cbn [slots live]. split; [apply length_insert|]. split; [done|]. split.
  - rewrite list_lookup_insert_eq; [done|]. by eapply lookup_lt_Some.
  - intros j Hj. by rewrite list_lookup_insert_ne.
Qed.

Lemma iter_spec a i v : (i, v) ∈ iter a <-> try_get a i = Some v.
Proof.
  unfold iter, try_get. rewrite list_elem_of_omap. split.
  - intros ([j o] & Hj & E). apply elem_of_lookup_imap in Hj as (k & o' & [= -> ->] & Hk). cbn in E.
    destruct o'; [|done]. injection E as -> ->. by rewrite Hk.
  - destruct (slots a !! i) as [[x|]|] eqn:E; cbn; [|done..]. intros [= ->]. exists (i, Some v). split; [|done].
    apply elem_of_lookup_imap. by exists i, (Some v).
Qed.

End Operations.

(** ** Refinement of a map with fresh names *)

Section Refinement.
Context {T : Type}.

Inductive arena_op : Type :=
  | OpAlloc (v : T) | OpGet (id : nat) | OpPut (id : nat) (v : T) | OpRemove (id : nat) | OpClear | OpLen.

Inductive arena_reply : Type := Id (id : nat) | Value (v : T) | Size (n : Z) | Unit.

Definition arena_step (a : Arena T) (o : arena_op) : outcome (Arena T * arena_reply) :=
  match o with
  | OpAlloc v => let! r := alloc a v in Ok (r.1, Id r.2)
  | OpGet id => let! v := get a id in Ok (a, Value v)
  | OpPut id v => let! a' := put a id v in Ok (a', Unit)
  | OpRemove id => let! r := arena_remove a id in Ok (r.1, Value r.2)
  | OpClear => Ok (arena_clear a, Unit)
  | OpLen => Ok (a, Size (arena_len a))
  end.

(** The map of live values and the number of names given out so far. *)
Definition names : Type := nat * gmap nat T.

Definition names_step (s : names) (o : arena_op) : outcome (names * arena_reply) :=
  let (n, m) := s in
  match o with
  | OpAlloc v => if Z.of_nat n <? 2 ^ 32 then Ok ((S n, <[n := v]> m), Id n) else Panic
  | OpGet id => match m !! id with Some v => Ok (s, Value v) | None => Panic end
  | OpPut id v => match m !! id with Some _ => Ok ((n, <[id := v]> m), Unit) | None => Panic end
  | OpRemove id => match m !! id with Some v => Ok ((n, delete id m), Value v) | None => Panic end
  | OpClear => Ok ((n, ∅), Unit)
  | OpLen => Ok (s, Size (Z.of_nat (size m)))
  end.

(** The replies up to the first panic. *)
Fixpoint replies {S} (step : S -> arena_op -> outcome (S * arena_reply)) (s : S) (ops : list arena_op)
    : list (outcome arena_reply) :=
  match ops with
  | [] => []
  | o :: ops =>
      match step s o with
      | Ok (s', r) => Ok r :: replies step s' ops
      | Err e => [Err e]
      | Panic => [Panic]
      | Diverge => [Diverge]
      end
  end.

Definition stands_for (a : Arena T) (s : names) : Prop :=
  s.1 = length (slots a) /\ (forall i, s.2 !! i = try_get a i) /\ live a = Z.of_nat (size s.2) /\
  (size s.2 <= s.1)%nat /\ Z.of_nat s.1 <= 2 ^ 32.

Lemma try_get_beyond (a : Arena T) i : (length (slots a) <= i)%nat -> try_get a i = None.
Proof. intros Hi. unfold try_get. by rewrite lookup_ge_None_2. Qed.

Lemma alloc_stands_for a s v : stands_for a s ->
  match names_step s (OpAlloc v), arena_step a (OpAlloc v) with
  | Ok (s', r), Ok (a', r') => r = r' /\ stands_for a' s'
  | Panic, Panic => True
  | _, _ => False
  end.
Proof.
  intros (Hn & Hm & Hl & Hs & Hb). destruct s as [n m]. cbn in *. subst n. unfold alloc, arena_from_index.
  destruct (Z.ltb_spec (Z.of_nat (length (slots a))) (2 ^ 32)); cbn; [|done]. split; [done|].
  assert (Hnone : m !! length (slots a) = None) by (by rewrite Hm, try_get_beyond).
  unfold stands_for. cbn. rewrite length_app, map_size_insert_None by done. cbn. repeat split; try lia.
  - intros i. unfold try_get. cbn. destruct (decide (i = length (slots a))) as [->|Hne].
    + rewrite lookup_insert_eq, lookup_app_r, Nat.sub_diag by lia. done.
    + rewrite lookup_insert_ne by done. rewrite Hm. unfold try_get.
      destruct (decide (i < length (slots a))%nat) as [Hlt|Hge]; [by rewrite lookup_app_l|].
      rewrite !lookup_ge_None_2; [done|rewrite length_app; cbn; lia|lia].
  - rewrite u64_small by lia. lia.
Qed.

Lemma live_is_Some a s id v : stands_for a s -> s.2 !! id = Some v -> slots a !! id = Some (Some v).
Proof.
  intros (_ & Hm & _) E. rewrite Hm in E. unfold try_get in E. by destruct (slots a !! id) as [[]|]; cbn in E; simplify_eq.
Qed.

Lemma dead_not_Some a s id : stands_for a s -> s.2 !! id = None ->
  match slots a !! id with Some (Some _) => False | _ => True end.
Proof. intros (_ & Hm & _) E. rewrite Hm in E. unfold try_get in E. by destruct (slots a !! id) as [[]|]. Qed.

(** Every step of the arena is a step of the map. *)
Lemma step_stands_for a s o : stands_for a s ->
  match names_step s o, arena_step a o with
  | Ok (s', r), Ok (a', r') => r = r' /\ stands_for a' s'
  | Panic, Panic => True
  | _, _ => False
  end.
Proof.
  intros H. destruct o as [v|id|id v|id| |]; [by apply alloc_stands_for|..];
    pose proof H as (Hn & Hm & Hl & Hs & Hb); destruct s as [n m].
  - pose proof (live_is_Some a (n, m) id) as Hlive. pose proof (dead_not_Some a (n, m) id H) as Hdead. cbn in *.
    unfold get. destruct (m !! id) as [v|] eqn:E.
    + by rewrite (Hlive v H eq_refl).
    + specialize (Hdead eq_refl). by destruct (slots a !! id) as [[]|].
  - pose proof (live_is_Some a (n, m) id) as Hlive. pose proof (dead_not_Some a (n, m) id H) as Hdead. cbn in *.
    unfold put. destruct (m !! id) as [v0|] eqn:E.
    + rewrite (Hlive v0 H eq_refl). cbn. split; [done|]. unfold stands_for. cbn.
      rewrite length_insert, map_size_insert_Some by (by rewrite E). repeat split; try done.
      intros i. unfold try_get. cbn. destruct (decide (i = id)) as [->|Hne].
      * rewrite lookup_insert_eq, list_lookup_insert_eq; [done|]. eapply lookup_lt_Some. by apply (Hlive v0).
      * rewrite lookup_insert_ne, list_lookup_insert_ne by done. apply Hm.
    + specialize (Hdead eq_refl). by destruct (slots a !! id) as [[]|].
  - pose proof (live_is_Some a (n, m) id) as Hlive. pose proof (dead_not_Some a (n, m) id H) as Hdead. cbn in *.
    unfold arena_remove. destruct (m !! id) as [v0|] eqn:E.
    + rewrite (Hlive v0 H eq_refl). cbn. split; [done|]. unfold stands_for. cbn.
      assert (0 < size m)%nat by (destruct (size m) eqn:Es; [|lia]; apply map_size_empty_inv in Es; subst m; done).
      rewrite length_insert, map_size_delete_Some by (by rewrite E). repeat split; try lia.
      * intros i. unfold try_get. cbn. destruct (decide (i = id)) as [->|Hne].
        -- rewrite lookup_delete_eq, list_lookup_insert_eq; [done|]. eapply lookup_lt_Some. by apply (Hlive v0).
        -- rewrite lookup_delete_ne, list_lookup_insert_ne by done. apply Hm.
      * rewrite u64_small by lia. lia.
    + specialize (Hdead eq_refl). by destruct (slots a !! id) as [[]|].
  - cbn in *. split; [done|]. unfold stands_for, arena_clear. cbn. rewrite length_fmap, map_size_empty.
    repeat split; try lia. intros i. unfold try_get. cbn. rewrite lookup_empty, list_lookup_fmap.
    by destruct (slots a !! i).
  - cbn in *. unfold arena_len. by rewrite Hl.
Qed.

(** An arena is a map with fresh names: it gives the replies, and panics at
    the point, that a finite map with a counter of names does, whatever the
    operations; a name is never given out twice. *)
Theorem arena_refines (ops : list arena_op) :
  replies arena_step (arena_new : Arena T) ops = replies names_step (0%nat, ∅) ops.
Proof.
  assert (H : stands_for (arena_new : Arena T) (0%nat, ∅)) by (unfold stands_for; cbn; rewrite map_size_empty; repeat split; lia).
  revert H. generalize (arena_new : Arena T) (0%nat, ∅ : gmap nat T). induction ops as [|o ops IH]; intros a s H; [done|].
  cbn [replies]. pose proof (step_stands_for a s o H) as Hs.
  destruct (names_step s o) as [[s' r]| | |], (arena_step a o) as [[a' r']| | |]; try done.
  destruct Hs as [<- Hs]. f_equal. by apply IH.
Qed.

End Refinement.
