(* ===== verification/OpList.v ===== *)
(** [IntrusiveList] of [src/src/oplist.rs]: doubly linked lists through the links
    that nodes of an arena carry, several lists per node (a slot each).  The
    methods take the arena and return it changed.  [debug_assert] is not part of
    a release build and is left out. *)
From stdpp Require Import base list gmap numbers.
From Stdlib Require Import ZArith Lia.
From S2P Require Import Prelude Bits Arena.

(** ** Definitions *)

Record ListLinks : Type := mk_links { prev : option nat; next : option nat }.

Definition links_default : ListLinks := mk_links None None.

(** The trait [LinkedNode]: the links of a node, one pair per slot. *)
Class LinkedNode (T : Type) : Type := {
  links : T -> nat -> ListLinks;
  set_links : T -> nat -> ListLinks -> T;
  links_set_same : forall t s l, links (set_links t s l) s = l;
  links_set_other : forall t s s' l, s <> s' -> links (set_links t s l) s' = links t s';
}.

Record IntrusiveList : Type := mk_list { head : option nat; tail : option nat; len : Z; slot : nat }.

Section Operations.
Context {T : Type} `{LinkedNode T}.

Definition list_new (s : nat) : IntrusiveList := mk_list None None 0 s.

Definition front (l : IntrusiveList) : option nat := head l.
Definition back (l : IntrusiveList) : option nat := tail l.
Definition list_len (l : IntrusiveList) : Z := len l.
Definition list_is_empty (l : IntrusiveList) : bool := len l =? 0.

Definition next_of (l : IntrusiveList) (nodes : Arena T) (id : nat) : outcome (option nat) :=
  let! n := get nodes id in Ok (next (links n (slot l))).

Definition prev_of (l : IntrusiveList) (nodes : Arena T) (id : nat) : outcome (option nat) :=
  let! n := get nodes id in Ok (prev (links n (slot l))).

(** [nodes.get_mut(id).links_mut(slot)] and a write to the whole, to [next] or to
    [prev]. *)
Definition write_links (nodes : Arena T) (s id : nat) (f : ListLinks -> ListLinks) : outcome (Arena T) :=
  let! n := get nodes id in put nodes id (set_links n s (f (links n s))).

Definition insert (l : IntrusiveList) (nodes : Arena T) (pos : option nat) (id : nat)
    : outcome (IntrusiveList * Arena T) :=
  let s := slot l in
  let! prv :=
    match pos with
    | Some position => let! n := get nodes position in Ok (prev (links n s))
    | None => Ok (tail l)
    end in
  let! nodes := write_links nodes s id (fun _ => mk_links prv pos) in
  let! r :=
    match prv with
    | Some previous =>
        let! nodes := write_links nodes s previous (fun k => mk_links (prev k) (Some id)) in Ok (head l, nodes)
    | None => Ok (Some id, nodes)
    end in
  let (hd, nodes) := r : option nat * Arena T in
  let! r :=
    match pos with
    | Some position =>
        let! nodes := write_links nodes s position (fun k => mk_links (Some id) (next k)) in Ok (tail l, nodes)
    | None => Ok (Some id, nodes)
    end in
  let (tl, nodes) := r : option nat * Arena T in
  Ok (mk_list hd tl (u64 (len l + 1)) s, nodes).

Definition push_back (l : IntrusiveList) (nodes : Arena T) (id : nat) := insert l nodes None id.

Definition push_front (l : IntrusiveList) (nodes : Arena T) (id : nat) := insert l nodes (head l) id.

Definition insert_before (l : IntrusiveList) (nodes : Arena T) (pos id : nat) := insert l nodes (Some pos) id.

Definition insert_after (l : IntrusiveList) (nodes : Arena T) (pos id : nat) :=
  let! n := get nodes pos in
  let following := next (links n (slot l)) in
  insert l nodes following id.

Definition remove (l : IntrusiveList) (nodes : Arena T) (id : nat)
    : outcome (IntrusiveList * Arena T * option nat) :=
  let s := slot l in
  let! n := get nodes id in
  let prv := prev (links n s) in
  let nxt := next (links n s) in
  let! r :=
    match prv with
    | Some previous =>
        let! nodes := write_links nodes s previous (fun k => mk_links (prev k) nxt) in Ok (head l, nodes)
    | None => Ok (nxt, nodes)
    end in
  let (hd, nodes) := r : option nat * Arena T in
  let! r :=
    match nxt with
    | Some following =>
        let! nodes := write_links nodes s following (fun k => mk_links prv (next k)) in Ok (tail l, nodes)
    | None => Ok (prv, nodes)
    end in
  let (tl, nodes) := r : option nat * Arena T in
  let! nodes := write_links nodes s id (fun _ => links_default) in
  Ok (mk_list hd tl (u64 (len l - 1)) s, nodes, nxt).

(** The two loops over moved nodes. *)
Fixpoint remove_each (l : IntrusiveList) (nodes : Arena T) (moved : list nat) : outcome (IntrusiveList * Arena T) :=
  match moved with
  | [] => Ok (l, nodes)
  | node :: moved =>
      let! r := remove l nodes node in
      remove_each r.1.1 r.1.2 moved
  end.

Fixpoint insert_each (l : IntrusiveList) (nodes : Arena T) (pos : option nat) (moved : list nat)
    : outcome (IntrusiveList * Arena T) :=
  match moved with
  | [] => Ok (l, nodes)
  | node :: moved =>
      let! r := insert l nodes pos node in
      insert_each r.1 r.2 pos moved
  end.

(** The first loop of [splice_range]: the nodes from [first] up to [end_], or
    [None] when [pos] is one of them. *)
Definition splice_step (s : nat) (nodes : Arena T) (pos end_ : option nat) (st : option nat * list nat)
    : outcome (option nat * list nat + option (list nat)) :=
  let (current, moved) := st in
  if decide (current = end_) then Ok (inr (Some moved)) else
  match current with
  | None => Panic
  | Some node =>
      if decide (Some node = pos) then Ok (inr None) else
      let! n := get nodes node in
      Ok (inl (next (links n s), moved ++ [node]))
  end.

(** A list has at most as many nodes as the arena has slots. *)
Definition splice_range (l : IntrusiveList) (nodes : Arena T) (pos : option nat) (first : nat) (end_ : option nat)
    : outcome (IntrusiveList * Arena T) :=
  if decide (Some first = end_) then Ok (l, nodes)
  else if decide (pos = Some first) then Ok (l, nodes)
  else
    let! moved := loop (S (length (slots nodes))) (splice_step (slot l) nodes pos end_) (Some first, []) in
    match moved with
    | None => Ok (l, nodes)
    | Some moved =>
        let! r := remove_each l nodes moved in
        insert_each r.1 r.2 pos moved
    end.

(** [ListIter]: [remaining] bounds the walk from the front and from the back. *)
Fixpoint walk (s : nat) (nodes : Arena T) (forward : bool) (remaining : nat) (cursor : option nat) : outcome (list nat) :=
  match remaining with
  | O => Ok []
  | S remaining =>
      match cursor with
      | None => Ok []
      | Some current =>
          let! n := get nodes current in
          let! rest := walk s nodes forward remaining (if forward then next (links n s) else prev (links n s)) in
          Ok (current :: rest)
      end
  end.

Definition to_vec (l : IntrusiveList) (nodes : Arena T) : outcome (list nat) :=
  walk (slot l) nodes true (Z.to_nat (len l)) (head l).

(** [iter().rev()]. *)
Definition to_vec_rev (l : IntrusiveList) (nodes : Arena T) : outcome (list nat) :=
  walk (slot l) nodes false (Z.to_nat (len l)) (tail l).

Fixpoint push_back_each (l : IntrusiveList) (nodes : Arena T) (moved : list nat) : outcome (IntrusiveList * Arena T) :=
  match moved with
  | [] => Ok (l, nodes)
  | node :: moved =>
      let! r := push_back l nodes node in
      push_back_each r.1 r.2 moved
  end.

(** Both lists, then the nodes. *)
Definition append_all (l : IntrusiveList) (nodes : Arena T) (other : IntrusiveList)
    : outcome (IntrusiveList * IntrusiveList * Arena T) :=
  let! moved := to_vec other nodes in
  let! r := remove_each other nodes moved in
  let! q := push_back_each l r.2 moved in
  Ok (q.1, r.1, q.2).

Fixpoint unlink_each (s : nat) (nodes : Arena T) (all : list nat) : outcome (Arena T) :=
  match all with
  | [] => Ok nodes
  | node :: all =>
      let! nodes := if arena_contains nodes node then write_links nodes s node (fun _ => links_default) else Ok nodes in
      unlink_each s nodes all
  end.

Definition list_clear (l : IntrusiveList) (nodes : Arena T) : outcome (IntrusiveList * Arena T) :=
  let! all := to_vec l nodes in
  let! nodes := unlink_each (slot l) nodes all in
  Ok (mk_list None None 0 (slot l), nodes).

End Operations.

(** ** Chains of links *)

(** The first element, or what follows; the last element, or what precedes. *)
Definition hd_or (xs : list nat) (n : option nat) : option nat := match xs with [] => n | x :: _ => Some x end.

Fixpoint last_or (p : option nat) (xs : list nat) : option nat :=
  match xs with [] => p | x :: xs => last_or (Some x) xs end.

(** The links [f] chain [xs] between the neighbours [p] and [n]. *)
Fixpoint chain (f : nat -> option ListLinks) (p : option nat) (xs : list nat) (n : option nat) : Prop :=
  match xs with
  | [] => True
  | x :: xs => f x = Some (mk_links p (hd_or xs n)) /\ chain f (Some x) xs n
  end.

Lemma hd_or_app l1 l2 n : hd_or (l1 ++ l2) n = hd_or l1 (hd_or l2 n).
Proof. by destruct l1. Qed.

Lemma last_or_app p l1 l2 : last_or p (l1 ++ l2) = last_or (last_or p l1) l2.
Proof. revert p. induction l1 as [|x l1 IH]; intros p; [done|]. apply IH. Qed.

Lemma chain_app f p l1 l2 n :
  chain f p (l1 ++ l2) n <-> chain f p l1 (hd_or l2 n) /\ chain f (last_or p l1) l2 n.
Proof.
  revert p. induction l1 as [|x l1 IH]; intros p; cbn; [tauto|]. rewrite IH, hd_or_app. tauto.
Qed.

Lemma chain_ext f g p xs n : (forall x, x ∈ xs -> f x = g x) -> chain f p xs n -> chain g p xs n.
Proof.
  revert p. induction xs as [|x xs IH]; intros p E; [done|]. cbn. rewrite <- E by (by left). intros [Hx Hc].
  split; [done|]. apply IH; [|done]. intros y Hy. apply E. by right.
Qed.

Lemma chain_last f p xs x n : chain f p (xs ++ [x]) n <-> chain f p xs (Some x) /\ f x = Some (mk_links (last_or p xs) n).
Proof. rewrite chain_app. cbn. tauto. Qed.

Lemma chain_live f p xs n x : chain f p xs n -> x ∈ xs -> is_Some (f x).
Proof.
  revert p. induction xs as [|y xs IH]; intros p Hc Hx; [by apply not_elem_of_nil in Hx|]. destruct Hc as [Hy Hc].
  apply elem_of_cons in Hx as [-> |Hx]; [by eexists|by eapply IH].
Qed.

Section Links.
Context {T : Type} `{LinkedNode T}.

Definition links_at (nodes : Arena T) (s x : nat) : option ListLinks := (fun n => links n s) <$> try_get nodes x.

(** The same nodes, with other links. *)
Definition same_nodes (a b : Arena T) : Prop :=
  length (slots a) = length (slots b) /\ live a = live b /\
  forall x, is_Some (try_get a x) <-> is_Some (try_get b x).

#[global] Instance same_nodes_equivalence : Equivalence same_nodes.
Proof.
  split.
  - repeat split; auto.
  - intros a b (? & ? & Hs). split; [done|]. split; [done|]. intros x. by rewrite Hs.
  - intros a b c (E1 & F1 & S1) (E2 & F2 & S2). split; [congruence|]. split; [congruence|]. intros x. by rewrite S1, S2.
Qed.

Lemma read_links nodes s x k : links_at nodes s x = Some k -> exists n, get nodes x = Ok n /\ links n s = k.
Proof.
  unfold links_at. rewrite get_try. destruct (try_get nodes x) as [n|]; [|done]. intros [= <-]. by exists n.
Qed.

Lemma write_links_ok nodes s x f k : links_at nodes s x = Some k ->
  exists nodes', write_links nodes s x f = Ok nodes' /\ same_nodes nodes nodes' /\
  forall s' y, links_at nodes' s' y = if decide (s' = s /\ y = x) then Some (f k) else links_at nodes s' y.
Proof.
  intros E. destruct (read_links _ _ _ _ E) as (n & Hg & Hk). unfold write_links. rewrite Hg. cbn [obind].
  rewrite get_try in Hg. destruct (try_get nodes x) as [n'|] eqn:Et; [|done]. injection Hg as ->.
  destruct (put_ok nodes x (set_links n s (f (links n s))) n Et) as (nodes' & -> & Hlen & Hlive & Hx & Ho).
  exists nodes'. split; [done|]. split.
  { split; [done|]. split; [done|]. intros y. destruct (decide (y = x)) as [->|Hne]; [rewrite Et, Hx; split; eauto|by rewrite Ho]. }
  intros s' y. unfold links_at. destruct (decide (s' = s /\ y = x)) as [[-> ->]|Hne].
  - rewrite Hx. cbn. by rewrite links_set_same, Hk.
  - destruct (decide (y = x)) as [->|Hy]; [|by rewrite Ho]. rewrite Hx, Et. cbn. rewrite links_set_other; [done|naive_solver].
Qed.

(** ** The list a header and its links stand for *)

Definition linked (nodes : Arena T) (l : IntrusiveList) (xs : list nat) : Prop :=
  head l = hd_or xs None /\ tail l = last_or None xs /\ len l = Z.of_nat (length xs) /\ NoDup xs /\
  chain (links_at nodes (slot l)) None xs None /\ Z.of_nat (length (slots nodes)) <= 2 ^ 32.

(** Links outside one list are left alone. *)
Definition frame (s : nat) (ys : list nat) (a b : Arena T) : Prop :=
  same_nodes a b /\ forall s' y, s' <> s \/ y ∉ ys -> links_at b s' y = links_at a s' y.

Lemma links_at_bound nodes s x : is_Some (links_at nodes s x) -> (x < length (slots nodes))%nat.
Proof.
  unfold links_at, try_get. intros [k Hk]. destruct (slots nodes !! x) eqn:E; [|done]. by eapply lookup_lt_Some.
Qed.

(** A list is no longer than the arena. *)
Lemma linked_length nodes l xs : linked nodes l xs -> (length xs <= length (slots nodes))%nat.
Proof.
  intros (_ & _ & _ & Hnd & Hc & _).
  rewrite <- (length_seq (length (slots nodes)) 0). apply submseteq_length, NoDup_submseteq; [done|].
  intros x Hx. apply elem_of_seq. pose proof (links_at_bound nodes (slot l) x (chain_live _ _ _ _ _ Hc Hx)). lia.
Qed.

Lemma last_or_nonempty p q xs : xs <> [] -> last_or p xs = last_or q xs.
Proof. by destruct xs. Qed.

Lemma hd_or_nonempty p q xs : xs <> [] -> hd_or xs p = hd_or xs q.
Proof. by destruct xs. Qed.

(** Pointing the last node before a gap at [x]. *)
Lemma relink_next nodes s l1 n0 x hd0 : NoDup l1 -> chain (links_at nodes s) None l1 n0 ->
  (l1 <> [] -> hd0 = hd_or l1 None) ->
  exists nodes', match last_or None l1 with
    | Some q => let! nodes := write_links nodes s q (fun k => mk_links (prev k) x) in Ok (hd0, nodes)
    | None => Ok (x, nodes)
    end = Ok (hd_or l1 x, nodes') /\
  frame s l1 nodes nodes' /\ chain (links_at nodes' s) None l1 x.
Proof.
  intros Hnd Hc Hhd. destruct l1 as [|q l1 _] using rev_ind.
  { exists nodes. cbn. split; [done|]. split; [|done]. split; [reflexivity|done]. }
  rewrite last_or_app. cbn [last_or]. apply chain_last in Hc as [Hc Hq].
  destruct (write_links_ok nodes s q (fun k => mk_links (prev k) x) _ Hq) as (nodes' & -> & Hs & Hf).
  exists nodes'. cbn [obind]. rewrite Hhd by (by destruct l1).
  rewrite (hd_or_nonempty None x) by (by destruct l1). split; [done|].
  apply list.NoDup_app in Hnd as (_ & Hd & _). split.
  - split; [done|]. intros s' y Hy. rewrite Hf. rewrite decide_False; [done|].
    intros [-> ->]. destruct Hy as [?|Hy]; [done|]. apply Hy. apply elem_of_app. right. by left.
  - apply chain_last. split.
    + eapply chain_ext; [|exact Hc]. intros y Hy. rewrite Hf, decide_False; [done|]. intros [_ ->]. apply (Hd q Hy). by left.
    + by rewrite Hf, decide_True.
Qed.

(** Pointing the first node after a gap back at [x]. *)
Lemma relink_prev nodes s l2 p0 x tl0 : NoDup l2 -> chain (links_at nodes s) p0 l2 None ->
  (l2 <> [] -> tl0 = last_or None l2) ->
  exists nodes', match hd_or l2 None with
    | Some y => let! nodes := write_links nodes s y (fun k => mk_links x (next k)) in Ok (tl0, nodes)
    | None => Ok (x, nodes)
    end = Ok (last_or x l2, nodes') /\
  frame s l2 nodes nodes' /\ chain (links_at nodes' s) x l2 None.
Proof.
  intros Hnd Hc Htl. destruct l2 as [|y l2].
  { exists nodes. cbn. split; [done|]. split; [|done]. split; [reflexivity|done]. }
  destruct Hc as [Hy Hc]. cbn [hd_or].
  destruct (write_links_ok nodes s y (fun k => mk_links x (next k)) _ Hy) as (nodes' & -> & Hs & Hf).
  exists nodes'. cbn [obind]. rewrite Htl by done. split; [done|]. apply list.NoDup_cons in Hnd as [Hny _]. split.
  - split; [done|]. intros s' z Hz. rewrite Hf, decide_False; [done|]. intros [-> ->]. destruct Hz as [?|Hz]; [done|].
    apply Hz. by left.
  - split; [by rewrite Hf, decide_True|]. eapply chain_ext; [|exact Hc]. intros z Hz.
    rewrite Hf, decide_False; [done|]. by intros [_ ->].
Qed.

Lemma frame_chain s ys a b p xs n : frame s ys a b -> (forall x, x ∈ xs -> x ∉ ys) ->
  chain (links_at a s) p xs n -> chain (links_at b s) p xs n.
Proof. intros [_ Hf] Hd. apply chain_ext. intros x Hx. symmetry. apply Hf. right. by apply Hd. Qed.

Lemma frame_trans s ys zs a b c : frame s ys a b -> frame s zs b c -> frame s (ys ++ zs) a c.
Proof.
  intros [S1 F1] [S2 F2]. split; [by transitivity b|]. intros s' y Hy. rewrite F2, F1; [done|..];
    (destruct Hy as [?|Hy]; [by left|right]); rewrite elem_of_app in Hy; tauto.
Qed.

Lemma frame_weaken s ys zs a b : frame s ys a b -> ys ⊆ zs -> frame s zs a b.
Proof. intros [S F] Hsub. split; [done|]. intros s' y Hy. apply F. destruct Hy as [?|Hy]; [by left|right]. set_solver. Qed.

(** ** Insertion and removal *)

Lemma insert_spec nodes l l1 l2 id : linked nodes l (l1 ++ l2) -> is_Some (try_get nodes id) -> id ∉ l1 ++ l2 ->
  exists l' nodes', insert l nodes (hd_or l2 None) id = Ok (l', nodes') /\ slot l' = slot l /\
  linked nodes' l' (l1 ++ id :: l2) /\ frame (slot l) (id :: l1 ++ l2) nodes nodes'.
Proof.
  intros Hk Hid Hni. pose proof (linked_length _ _ _ Hk) as Hlen. destruct Hk as (Hhd & Htl & Hl & Hnd & Hc & Hb).
  apply chain_app in Hc as [Hc1 Hc2]. pose proof Hnd as (Hnd1 & Hd & Hnd2)%list.NoDup_app.
  rewrite not_elem_of_app in Hni. destruct Hni as [Hni1 Hni2]. set (s := slot l) in *.
  assert (Hlive : exists k, links_at nodes s id = Some k) by (unfold links_at; destruct Hid as [v ->]; by eexists).
  destruct Hlive as [k Hlive]. unfold insert. fold s.
  assert (E : match hd_or l2 None with
    | Some position => let! n := get nodes position in Ok (prev (links n s)) | None => Ok (tail l) end = Ok (last_or None l1)).
  { destruct l2 as [|y l2]; cbn [hd_or].
    - by rewrite Htl, app_nil_r.
    - destruct Hc2 as [Hy _]. destruct (read_links _ _ _ _ Hy) as (n & -> & En). cbn. by rewrite En. }
  rewrite E. cbn [obind]. clear E.
  destruct (write_links_ok nodes s id (fun _ => mk_links (last_or None l1) (hd_or l2 None)) k Hlive) as (n1 & -> & Hs1 & Hf1).
  cbn [obind]. assert (F1 : frame s [id] nodes n1).
  { split; [done|]. intros s' y Hy. rewrite Hf1, decide_False; [done|]. intros [-> ->]. destruct Hy as [?|Hy]; [done|].
    apply Hy. by left. }
  assert (Hid1 : forall (ys : list nat) x, id ∉ ys -> x ∈ ys -> x ∉ [id]).
  { intros ys x Hn Hx ->%list_elem_of_singleton. done. }
  destruct (relink_next n1 s l1 (hd_or l2 None) (Some id) (head l)) as (n2 & -> & F2 & C1); [done| | |].
  { eapply frame_chain; [exact F1|intros x; by apply Hid1|done]. }
  { intros Hne. rewrite Hhd, hd_or_app. by apply hd_or_nonempty. }
  cbn [obind].
  destruct (relink_prev n2 s l2 (last_or None l1) (Some id) (tail l)) as (n3 & -> & F3 & C2); [done| | |].
  { eapply frame_chain; [exact F2|intros x Hx Hx1; by apply (Hd x)|]. eapply frame_chain; [exact F1|intros x; by apply Hid1|done]. }
  { intros Hne. rewrite Htl, last_or_app. by apply last_or_nonempty. }
  cbn [obind]. eexists _, n3. split; [done|]. split; [done|].
  pose proof (frame_trans _ _ _ _ _ _ (frame_trans _ _ _ _ _ _ F1 F2) F3) as F. split.
  - split; [by rewrite hd_or_app|]. split; [by rewrite last_or_app|]. split.
    { cbn [len]. rewrite Hl, !length_app in *. cbn in *. rewrite u64_small by lia. lia. }
    split. { apply list.NoDup_app. split; [done|]. split; [|by apply list.NoDup_cons]. intros x Hx [-> |Hx2]%elem_of_cons; [done|by apply (Hd x)]. }
    split; [|by destruct F as [(<- & _) _]]. cbn [slot]. apply chain_app. split.
    + eapply frame_chain; [exact F3|intros x Hx; by apply Hd|done].
    + cbn. split; [|done]. destruct F3 as [_ ->]; [|by right]. destruct F2 as [_ ->]; [|by right].
      by rewrite Hf1, decide_True.
  - eapply frame_weaken; [exact F|]. set_solver.
Qed.

Lemma remove_spec nodes l l1 l2 id : linked nodes l (l1 ++ id :: l2) ->
  exists l' nodes', remove l nodes id = Ok (l', nodes', hd_or l2 None) /\ slot l' = slot l /\
  linked nodes' l' (l1 ++ l2) /\ frame (slot l) (l1 ++ id :: l2) nodes nodes' /\
  links_at nodes' (slot l) id = Some links_default.
Proof.
  intros Hk. pose proof (linked_length _ _ _ Hk) as Hlen. destruct Hk as (Hhd & Htl & Hl & Hnd & Hc & Hb).
  apply chain_app in Hc as [Hc1 [Hid Hc2]]. pose proof Hnd as (Hnd1 & Hd & [Hni2 Hnd2]%list.NoDup_cons)%list.NoDup_app.
  assert (Hni1 : id ∉ l1) by (intros Hx; apply (Hd id Hx); by left).
  assert (Hd2 : forall x, x ∈ l1 -> x ∉ l2) by (intros x Hx Hx2; apply (Hd x Hx); by right).
  set (s := slot l) in *. unfold remove. fold s.
  destruct (read_links _ _ _ _ Hid) as (n & -> & En). cbn [obind]. rewrite En. cbn [prev next].
  destruct (relink_next nodes s l1 (Some id) (hd_or l2 None) (head l)) as (n1 & -> & F1 & C1); [done|done| |].
  { intros Hne. rewrite Hhd, hd_or_app. by apply hd_or_nonempty. }
  cbn [obind].
  destruct (relink_prev n1 s l2 (Some id) (last_or None l1) (tail l)) as (n2 & -> & F2 & C2); [done| | |].
  { eapply frame_chain; [exact F1|intros x Hx Hx1; by apply (Hd2 x)|done]. }
  { intros Hne. rewrite Htl, last_or_app. cbn. by apply last_or_nonempty. }
  cbn [obind]. assert (Hid2 : links_at n2 s id = Some (mk_links (last_or None l1) (hd_or l2 None))).
  { destruct F2 as [_ ->]; [|by right]. destruct F1 as [_ ->]; [done|by right]. }
  destruct (write_links_ok n2 s id (fun _ => links_default) _ Hid2) as (n3 & -> & Hs3 & Hf3). cbn [obind].
  assert (F3 : frame s [id] n2 n3).
  { split; [done|]. intros s' y Hy. rewrite Hf3, decide_False; [done|]. intros [-> ->]. destruct Hy as [?|Hy]; [done|].
    apply Hy. by left. }
  pose proof (frame_trans _ _ _ _ _ _ (frame_trans _ _ _ _ _ _ F1 F2) F3) as F.
  eexists _, n3. split; [done|]. split; [done|]. split.
  - split; [by rewrite hd_or_app|]. split; [by rewrite last_or_app|]. split.
    { cbn [len]. rewrite Hl, !length_app in *. cbn in *. rewrite u64_small by lia. lia. }
    split. { by apply list.NoDup_app. }
    split; [|by destruct F as [(<- & _) _]]. cbn [slot]. apply chain_app. split.
    + eapply frame_chain; [exact F3|by intros x Hx ->%list_elem_of_singleton|].
      eapply frame_chain; [exact F2|intros x Hx; by apply Hd2|done].
    + eapply frame_chain; [exact F3|by intros x Hx ->%list_elem_of_singleton|done].
  - split; [|by rewrite Hf3, decide_True]. eapply frame_weaken; [exact F|]. set_solver.
Qed.

(** ** Walks *)

Lemma walk_forward nodes s p xs : chain (links_at nodes s) p xs None ->
  walk s nodes true (length xs) (hd_or xs None) = Ok xs.
Proof.
  revert p. induction xs as [|x xs IH]; intros p Hc; [done|]. destruct Hc as [Hx Hc]. cbn.
  destruct (read_links _ _ _ _ Hx) as (n & -> & En). cbn [obind]. rewrite En. cbn [next]. by rewrite (IH _ Hc).
Qed.

Lemma walk_backward nodes s xs n : chain (links_at nodes s) None xs n ->
  walk s nodes false (length xs) (last_or None xs) = Ok (rev xs).
Proof.
  revert n. induction xs as [|x xs IH] using rev_ind; intros n Hc; [done|]. apply chain_last in Hc as [Hc Hx].
  rewrite last_or_app, length_app, Nat.add_comm, rev_app_distr. cbn.
  destruct (read_links _ _ _ _ Hx) as (m & -> & Em). cbn [obind]. rewrite Em. cbn [prev]. by rewrite (IH _ Hc).
Qed.

Lemma to_vec_spec nodes l xs : linked nodes l xs -> to_vec l nodes = Ok xs /\ to_vec_rev l nodes = Ok (rev xs).
Proof.
  intros (Hhd & Htl & Hl & _ & Hc & _). unfold to_vec, to_vec_rev. rewrite Hhd, Htl, Hl, Nat2Z.id.
  split; [by eapply walk_forward|by eapply walk_backward].
Qed.

(** ** Moving several nodes *)

Lemma remove_each_spec seg nodes l l1 l2 : linked nodes l (l1 ++ seg ++ l2) ->
  exists l' nodes', remove_each l nodes seg = Ok (l', nodes') /\ slot l' = slot l /\
  linked nodes' l' (l1 ++ l2) /\ frame (slot l) (l1 ++ seg ++ l2) nodes nodes'.
Proof.
  revert nodes l. induction seg as [|x seg IH]; intros nodes l Hk.
  - exists l, nodes. split; [done|]. split; [done|]. split; [done|]. split; [reflexivity|done].
  - destruct (remove_spec nodes l l1 (seg ++ l2) x Hk) as (l' & nodes' & E & Hs & Hk' & F & _).
    cbn [remove_each]. rewrite E. cbn [obind fst snd]. destruct (IH nodes' l' Hk') as (l2' & n2 & E2 & Hs2 & Hk2 & F2).
    exists l2', n2. rewrite Hs in F2, Hs2. split; [done|]. split; [done|]. split; [done|].
    eapply frame_weaken; [exact (frame_trans _ _ _ _ _ _ F F2)|]. set_solver.
Qed.

Lemma same_nodes_live a b x : same_nodes a b -> is_Some (try_get a x) -> is_Some (try_get b x).
Proof. intros (_ & _ & Hs). by apply Hs. Qed.

Lemma insert_each_spec seg nodes l l1 l2 : linked nodes l (l1 ++ l2) -> NoDup seg ->
  (forall x, x ∈ seg -> is_Some (try_get nodes x) /\ x ∉ l1 ++ l2) ->
  exists l' nodes', insert_each l nodes (hd_or l2 None) seg = Ok (l', nodes') /\ slot l' = slot l /\
  linked nodes' l' (l1 ++ seg ++ l2) /\ frame (slot l) (l1 ++ seg ++ l2) nodes nodes'.
Proof.
  revert nodes l l1. induction seg as [|x seg IH]; intros nodes l l1 Hk Hnd Hx.
  - exists l, nodes. split; [done|]. split; [done|]. split; [done|]. split; [reflexivity|done].
  - destruct (Hx x) as [Hlive Hni]; [by left|]. apply list.NoDup_cons in Hnd as [Hns Hnd].
    destruct (insert_spec nodes l l1 l2 x Hk Hlive Hni) as (l' & nodes' & E & Hs & Hk' & F).
    cbn [insert_each]. rewrite E. cbn [obind fst snd].
    destruct (IH nodes' l' (l1 ++ [x])) as (l2' & n2 & E2 & Hs2 & Hk2 & F2).
    + by rewrite <- app_assoc.
    + done.
    + intros y Hy. destruct (Hx y) as [Hly Hny]; [by right|]. split; [eapply same_nodes_live; [apply F|done]|].
      rewrite !not_elem_of_app in *. rewrite list_elem_of_singleton. split; [|tauto]. split; [tauto|]. by intros ->.
    + exists l2', n2. rewrite Hs in F2, Hs2. split; [done|]. split; [done|]. rewrite <- app_assoc in Hk2. split; [done|].
      eapply frame_weaken; [exact (frame_trans _ _ _ _ _ _ F F2)|]. set_solver.
Qed.

(** The collecting loop of [splice_range]. *)
Lemma splice_loop nodes s pos p end_ seg acc fuel : chain (links_at nodes s) p seg end_ ->
  (forall x, x ∈ seg -> pos <> Some x /\ end_ <> Some x) -> (length seg < fuel)%nat ->
  loop fuel (splice_step s nodes pos end_) (hd_or seg end_, acc) = Ok (Some (acc ++ seg)).
Proof.
  revert p acc fuel. induction seg as [|x seg IH]; intros p acc fuel Hc Hx Hf; (destruct fuel as [|fuel]; [cbn in Hf; lia|]).
  - cbn. rewrite decide_True by done. cbn. by rewrite app_nil_r.
  - destruct Hc as [Hlx Hc]. destruct (Hx x) as [Hp He]; [by left|]. cbn [loop hd_or splice_step].
    rewrite !decide_False by congruence. destruct (read_links _ _ _ _ Hlx) as (n & -> & En). cbn [obind]. rewrite En.
    cbn [next]. rewrite (IH (Some x)); [by rewrite <- app_assoc|done| |cbn in Hf; lia].
    intros y Hy. apply Hx. by right.
Qed.

Lemma splice_loop_inside nodes s y p end_ seg acc fuel : chain (links_at nodes s) p seg end_ ->
  (forall x, x ∈ seg -> end_ <> Some x) -> y ∈ seg -> (length seg < fuel)%nat ->
  loop fuel (splice_step s nodes (Some y) end_) (hd_or seg end_, acc) = Ok None.
Proof.
  revert p acc fuel. induction seg as [|x seg IH]; intros p acc fuel Hc Hx Hy Hf; [by apply not_elem_of_nil in Hy|].
  destruct fuel as [|fuel]; [cbn in Hf; lia|]. destruct Hc as [Hlx Hc]. assert (end_ <> Some x) by (apply Hx; by left).
  cbn [loop hd_or splice_step]. rewrite decide_False by congruence.
  destruct (decide (Some x = Some y)) as [E|Hne]; [done|].
  destruct (read_links _ _ _ _ Hlx) as (n & -> & En). cbn [obind]. rewrite En. cbn [next].
  apply (IH (Some x)); [done| | |cbn in Hf; lia].
  - intros z Hz. apply Hx. by right.
  - apply elem_of_cons in Hy as [-> |?]; done.
Qed.

(** The neighbour after a segment is not in it. *)
Lemma hd_or_not_in l1 l2 (x : nat) : NoDup (l1 ++ l2) -> x ∈ l1 -> hd_or l2 None <> Some x.
Proof. intros (_ & Hd & _)%list.NoDup_app Hx. destruct l2; cbn; [done|]. intros [= ->]. apply (Hd x Hx). by left. Qed.

Lemma splice_spec nodes l l1 first seg l2 m1 m2 : linked nodes l (l1 ++ (first :: seg) ++ l2) -> l1 ++ l2 = m1 ++ m2 ->
  exists l' nodes', splice_range l nodes (hd_or m2 None) first (hd_or l2 None) = Ok (l', nodes') /\ slot l' = slot l /\
  linked nodes' l' (m1 ++ (first :: seg) ++ m2) /\ frame (slot l) (l1 ++ (first :: seg) ++ l2) nodes nodes'.
Proof.
  intros Hk Em. pose proof (linked_length _ _ _ Hk) as Hlen. pose proof Hk as (_ & _ & _ & Hnd & Hc & _).
  apply chain_app in Hc as [_ Hc]. apply chain_app in Hc as [Hc _].
  pose proof Hnd as (_ & Hd1 & Hnd2)%list.NoDup_app. pose proof Hnd2 as (Hnds & Hd2 & _)%list.NoDup_app.
  assert (Hout : forall x, x ∈ first :: seg -> x ∉ l1 ++ l2).
  { intros x Hx. rewrite not_elem_of_app. split; [|by apply Hd2]. intros Hx1. apply (Hd1 x Hx1). apply elem_of_app. by left. }
  assert (Hend : forall x, x ∈ first :: seg -> hd_or l2 None <> Some x) by (intros x; by apply hd_or_not_in).
  assert (Hpos : forall x, x ∈ first :: seg -> hd_or m2 None <> Some x).
  { intros x Hx E. apply (Hout x Hx). rewrite Em. destruct m2; [done|]. injection E as ->. apply elem_of_app. right. by left. }
  unfold splice_range. rewrite !decide_False; [|by apply Hpos; left|by apply not_eq_sym, Hend; left].
  pose proof (splice_loop nodes (slot l) (hd_or m2 None) _ _ (first :: seg) [] (S (length (slots nodes))) Hc) as El.
  cbn [hd_or] in El. rewrite El; [|intros x Hx; split; by auto|rewrite !length_app in Hlen; cbn in Hlen |- *; lia].
  cbn [obind app].
  destruct (remove_each_spec (first :: seg) nodes l l1 l2 Hk) as (l' & n1 & -> & Hs & Hk' & F). cbn [obind fst snd].
  rewrite Em in Hk'. destruct (insert_each_spec (first :: seg) n1 l' m1 m2 Hk' Hnds) as (l2' & n2 & -> & Hs2 & Hk2 & F2).
  { intros x Hx. split; [|rewrite <- Em; by apply Hout]. eapply same_nodes_live; [apply F|].
    pose proof (chain_live _ _ _ _ x Hc Hx) as [k Hk0]. unfold links_at in Hk0. by destruct (try_get nodes x). }
  exists l2', n2. split; [done|]. rewrite Hs in Hs2, F2. split; [done|]. split; [done|].
  eapply frame_weaken; [exact (frame_trans _ _ _ _ _ _ F F2)|].
  assert (m1 ++ (first :: seg) ++ m2 ⊆ l1 ++ (first :: seg) ++ l2); [|set_solver].
  intros x Hx. assert (x ∈ m1 ++ m2 \/ x ∈ first :: seg) as [Hm|?] by set_solver; [|set_solver].
  rewrite <- Em in Hm. set_solver.
Qed.

(** [splice_range] moves the nodes from [first] up to [end] in front of [pos],
    wherever that is in the rest of the list, and does nothing when [pos] is one
    of the nodes to move; no other list is touched, through this slot or another. *)
Theorem splice_range_correct nodes l l1 first seg l2 : linked nodes l (l1 ++ (first :: seg) ++ l2) ->
  (forall m1 m2, l1 ++ l2 = m1 ++ m2 ->
    exists l' nodes', splice_range l nodes (hd_or m2 None) first (hd_or l2 None) = Ok (l', nodes') /\
    linked nodes' l' (m1 ++ (first :: seg) ++ m2) /\ frame (slot l) (l1 ++ (first :: seg) ++ l2) nodes nodes') /\
  (forall y, y ∈ first :: seg -> splice_range l nodes (Some y) first (hd_or l2 None) = Ok (l, nodes)).
Proof.
  intros Hk. split.
  - intros m1 m2 Em. destruct (splice_spec nodes l l1 first seg l2 m1 m2 Hk Em) as (l' & n' & E & _ & Hk' & F). eauto.
  - intros y Hy. pose proof (linked_length _ _ _ Hk) as Hlen. destruct Hk as (_ & _ & _ & Hnd & Hc & _).
    apply chain_app in Hc as [_ Hc]. apply chain_app in Hc as [Hc _].
    pose proof Hnd as (_ & _ & Hnd2)%list.NoDup_app.
    assert (Hend : forall x, x ∈ first :: seg -> hd_or l2 None <> Some x) by (intros x; by apply hd_or_not_in).
    unfold splice_range. rewrite decide_False by (by apply not_eq_sym, Hend; left). case_decide as E; [done|].
    pose proof (splice_loop_inside nodes (slot l) y _ _ (first :: seg) [] (S (length (slots nodes))) Hc Hend Hy) as El.
    cbn [hd_or] in El. rewrite El; [done|]. rewrite !length_app in Hlen. cbn in Hlen |- *. lia.
Qed.

(** [append_all] moves every node of the other list to the end of this one. *)
Lemma push_back_each_eq l nodes moved : push_back_each l nodes moved = insert_each l nodes None moved.
Proof.
  revert l nodes. induction moved as [|x moved IH]; intros l nodes; [done|]. cbn [push_back_each insert_each].
  unfold push_back. destruct (insert l nodes None x) as [[l' nodes']| | |]; cbn [obind fst snd]; [apply IH|reflexivity..].
Qed.

Lemma frame_linked s ys a b l xs : frame s ys a b -> s <> slot l \/ (forall x, x ∈ xs -> x ∉ ys) ->
  linked a l xs -> linked b l xs.
Proof.
  intros F Hd (? & ? & ? & ? & Hc & Hb). do 4 (split; [done|]). split; [|by destruct F as [(<- & _) _]].
  eapply chain_ext; [|exact Hc]. intros x Hx. symmetry. apply F. destruct Hd as [?|Hd]; [by left; auto|right; by apply Hd].
Qed.

Lemma append_all_spec nodes l other xs ys : linked nodes l xs -> linked nodes other ys -> (forall x, x ∈ xs -> x ∉ ys) ->
  exists l' other' nodes', append_all l nodes other = Ok (l', other', nodes') /\
  linked nodes' l' (xs ++ ys) /\ head other' = None /\ tail other' = None /\ len other' = 0.
Proof.
  intros Hk Ho Hd. unfold append_all. rewrite (proj1 (to_vec_spec _ _ _ Ho)). cbn [obind].
  destruct (remove_each_spec ys nodes other [] []) as (o' & n1 & -> & Hs & Ho' & F); [by rewrite app_nil_r|]. cbn [obind fst snd].
  assert (Hk1 : linked n1 l (xs ++ [])).
  { rewrite app_nil_r. eapply frame_linked; [exact F|right|done]. intros x Hx. rewrite app_nil_r. by apply Hd. }
  rewrite push_back_each_eq. destruct (insert_each_spec ys n1 l xs [] Hk1) as (l' & n2 & E & _ & Hk2 & _).
  - by destruct Ho as (_ & _ & _ & ? & _).
  - intros x Hx. rewrite app_nil_r. split; [|intros Hx1; by apply (Hd x)]. eapply same_nodes_live; [apply F|].
    destruct Ho as (_ & _ & _ & _ & Hc & _). pose proof (chain_live _ _ _ _ x Hc Hx) as [k Hk0].
    unfold links_at in Hk0. by destruct (try_get nodes x).
  - cbn [hd_or] in E. rewrite E. cbn [obind fst snd]. eexists _, _, _. split; [done|]. rewrite app_nil_r in Hk2.
    split; [done|]. by destruct Ho' as (? & ? & ? & _).
Qed.

Lemma unlink_each_spec s nodes all : exists nodes', unlink_each s nodes all = Ok nodes' /\ frame s all nodes nodes'.
Proof.
  revert nodes. induction all as [|x all IH]; intros nodes.
  - exists nodes. split; [done|]. split; [reflexivity|done].
  - cbn [unlink_each]. unfold arena_contains. destruct (slots nodes !! x) as [[v|]|] eqn:E; cbn [obind].
    + assert (Hl : links_at nodes s x = Some (links v s)) by (unfold links_at, try_get; by rewrite E).
      destruct (write_links_ok nodes s x (fun _ => links_default) _ Hl) as (n1 & -> & Hs & Hf). cbn [obind].
      destruct (IH n1) as (n2 & -> & F2). exists n2. split; [done|].
      apply (frame_trans s [x] all nodes n1 n2); [|done]. split; [done|]. intros s' y Hy. rewrite Hf, decide_False; [done|].
      intros [-> ->]. destruct Hy as [?|Hy]; [done|]. apply Hy. by left.
    + destruct (IH nodes) as (n2 & -> & F2). exists n2. split; [done|]. eapply frame_weaken; [exact F2|]. set_solver.
    + destruct (IH nodes) as (n2 & -> & F2). exists n2. split; [done|]. eapply frame_weaken; [exact F2|]. set_solver.
Qed.

(** ** Refinement of a plain list *)

Inductive list_op : Type :=
  | PushBack (id : nat) | PushFront (id : nat) | InsertBefore (pos id : nat) | InsertAfter (pos id : nat)
  | Remove (id : nat) | Clear.

Definition list_step (st : IntrusiveList * Arena T) (o : list_op) : outcome (IntrusiveList * Arena T) :=
  let (l, nodes) := st in
  match o with
  | PushBack id => push_back l nodes id
  | PushFront id => push_front l nodes id
  | InsertBefore pos id => insert_before l nodes pos id
  | InsertAfter pos id => insert_after l nodes pos id
  | Remove id => let! r := remove l nodes id in Ok r.1
  | Clear => list_clear l nodes
  end.

Fixpoint list_run (st : IntrusiveList * Arena T) (ops : list list_op) : outcome (IntrusiveList * Arena T) :=
  match ops with [] => Ok st | o :: ops => let! st := list_step st o in list_run st ops end.
End Links.

(** The parts of a list before and after an element. *)
Fixpoint split_at (x : nat) (xs : list nat) : option (list nat * list nat) :=
  match xs with
  | [] => None
  | y :: xs =>
      if decide (x = y) then Some ([], xs)
      else match split_at x xs with Some (l1, l2) => Some (y :: l1, l2) | None => None end
  end.

(** The same operations on a list of names; [None] for an operation that is not
    allowed: a name that is already in the list, or a position that is not. *)
Definition plain_step (xs : list nat) (o : list_op) : option (list nat) :=
  match o with
  | PushBack id => if decide (id ∈ xs) then None else Some (xs ++ [id])
  | PushFront id => if decide (id ∈ xs) then None else Some (id :: xs)
  | InsertBefore pos id =>
      if decide (id ∈ xs) then None
      else match split_at pos xs with Some (l1, l2) => Some (l1 ++ id :: pos :: l2) | None => None end
  | InsertAfter pos id =>
      if decide (id ∈ xs) then None
      else match split_at pos xs with Some (l1, l2) => Some (l1 ++ pos :: id :: l2) | None => None end
  | Remove id => match split_at id xs with Some (l1, l2) => Some (l1 ++ l2) | None => None end
  | Clear => Some []
  end.

Fixpoint plain_run (xs : list nat) (ops : list list_op) : option (list nat) :=
  match ops with [] => Some xs | o :: ops => match plain_step xs o with Some xs => plain_run xs ops | None => None end end.

(** The name an operation adds. *)
Definition added (o : list_op) : list nat :=
  match o with
  | PushBack id | PushFront id | InsertBefore _ id | InsertAfter _ id => [id]
  | Remove _ | Clear => []
  end.

Lemma split_at_spec x xs l1 l2 : split_at x xs = Some (l1, l2) -> xs = l1 ++ x :: l2.
Proof.
  revert l1. induction xs as [|y xs IH]; intros l1; cbn; [done|]. case_decide as E; [by intros [= <- <-]; rewrite E|].
  destruct (split_at x xs) as [[k1 k2]|]; [|done]. intros [= <- <-]. cbn. f_equal. by apply IH.
Qed.

Lemma plain_step_names xs o ys : plain_step xs o = Some ys -> ys ⊆ added o ++ xs.
Proof.
  destruct o as [id|id|pos id|pos id|id|]; cbn; try case_decide; try done;
    try (destruct (split_at _ xs) as [[l1 l2]|] eqn:E; [apply split_at_spec in E as ->|done]); intros [= <-]; set_solver.
Qed.

Section Refinement.
Context {T : Type} `{LinkedNode T}.

Lemma list_step_refines (nodes : Arena T) l xs o ys : linked nodes l xs -> (forall id, id ∈ added o -> is_Some (try_get nodes id)) ->
  plain_step xs o = Some ys ->
  exists l' nodes', list_step (l, nodes) o = Ok (l', nodes') /\ slot l' = slot l /\ linked nodes' l' ys /\
  frame (slot l) (added o ++ xs) nodes nodes'.
Proof.
  intros Hk Ha. pose proof Hk as (Hhd & _). destruct o as [id|id|pos id|pos id|id|]; cbn [plain_step list_step added] in *.
  - case_decide; [done|]. intros [= <-]. unfold push_back.
    destruct (insert_spec nodes l xs [] id) as (l' & n' & E & R); [by rewrite app_nil_r|apply Ha; by left|by rewrite app_nil_r|].
    rewrite app_nil_r in R. eauto.
  - case_decide; [done|]. intros [= <-]. unfold push_front. rewrite Hhd.
    destruct (insert_spec nodes l [] xs id) as (l' & n' & E & R); [done|apply Ha; by left|done|]. eauto.
  - case_decide; [done|]. destruct (split_at pos xs) as [[l1 l2]|] eqn:E; [|done]. intros [= <-].
    apply split_at_spec in E as ->. apply (insert_spec nodes l l1 (pos :: l2) id); [done|apply Ha; by left|done].
  - case_decide; [done|]. destruct (split_at pos xs) as [[l1 l2]|] eqn:E; [|done]. intros [= <-].
    apply split_at_spec in E as ->. pose proof Hk as (_ & _ & _ & _ & Hc & _). apply chain_app in Hc as [_ [Hp _]].
    unfold insert_after. destruct (read_links _ _ _ _ Hp) as (n & -> & En). cbn [obind]. rewrite En. cbn [next].
    assert (Eq : l1 ++ pos :: l2 = (l1 ++ [pos]) ++ l2) by (by rewrite <- app_assoc). rewrite Eq in *.
    destruct (insert_spec nodes l (l1 ++ [pos]) l2 id) as (l' & n' & E & Hs & Hk' & F); [done|apply Ha; by left|done|].
    exists l', n'. rewrite <- (app_assoc l1) in Hk'. done.
  - destruct (split_at id xs) as [[l1 l2]|] eqn:E; [|done]. intros [= <-]. apply split_at_spec in E as ->.
    destruct (remove_spec nodes l l1 l2 id Hk) as (l' & n' & -> & Hs & Hk' & F & _). cbn [obind fst]. exists l', n'. done.
  - intros [= <-]. unfold list_clear. rewrite (proj1 (to_vec_spec _ _ _ Hk)). cbn [obind].
    destruct (unlink_each_spec (slot l) nodes xs) as (n' & -> & F). cbn [obind]. eexists _, n'. split; [done|]. split; [done|].
    split; [|done]. split; [done|]. split; [done|]. split; [done|]. split; [constructor|]. split; [done|].
    destruct F as [(<- & _) _]. by destruct Hk as (_ & _ & _ & _ & _ & ?).
Qed.

(** C29: a linked list is a list: every sequence of operations that is allowed on
    a list of names, on nodes that are in the arena, runs without a panic; the
    links then hold exactly that list, read from either end, and the links
    of other lists, through other slots or of other nodes, are untouched. *)
Theorem oplist_refines (nodes : Arena T) l xs ops ys : linked nodes l xs ->
  (forall id, id ∈ ops ≫= added -> is_Some (try_get nodes id)) -> plain_run xs ops = Some ys ->
  exists l' nodes', list_run (l, nodes) ops = Ok (l', nodes') /\ linked nodes' l' ys /\
  to_vec l' nodes' = Ok ys /\ to_vec_rev l' nodes' = Ok (rev ys) /\
  frame (slot l) ((ops ≫= added) ++ xs) nodes nodes'.
Proof.
  revert nodes l xs. induction ops as [|o ops IH]; intros nodes l xs Hk Ha.
  - intros [= <-]. destruct (to_vec_spec _ _ _ Hk). exists l, nodes. do 4 (split; [done|]). split; [reflexivity|done].
  - cbn [plain_run]. destruct (plain_step xs o) as [zs|] eqn:Eo; [|done]. intros Er.
    destruct (list_step_refines nodes l xs o zs) as (l1 & n1 & E & Hs & Hk1 & F); [done| |done|].
    { intros id Hid. apply Ha. cbn. apply elem_of_app. by left. }
    destruct (IH n1 l1 zs Hk1) as (l2 & n2 & E2 & Hk2 & Hv & Hr & F2); [|done|].
    { intros id Hid. eapply same_nodes_live; [apply F|]. apply Ha. cbn. apply elem_of_app. by right. }
    exists l2, n2. cbn [list_run]. rewrite E. cbn [obind]. do 4 (split; [done|]).
    rewrite Hs in F2. eapply frame_weaken; [exact (frame_trans _ _ _ _ _ _ F F2)|].
    pose proof (plain_step_names xs o zs Eo). cbn. set_solver.
Qed.
End Refinement.

(** ** Samples *)

(** Nodes that are nothing but their links. *)
#[export] Instance gmap_linked_node : LinkedNode (gmap nat ListLinks).
Proof.
  refine {| links t s := default links_default (t !! s); set_links t s l := <[s := l]> t |}.
  - intros t s l. by rewrite lookup_insert_eq.
  - intros t s s' l Hne. by rewrite lookup_insert_ne.
Defined.

Definition sample_nodes : Arena (gmap nat ListLinks) := mk_Arena [Some ∅; Some ∅; Some ∅] 3.

Lemma oplist_refines_witness :
  plain_run [] [PushBack 0; PushFront 1; InsertAfter 1 2; Remove 0] = Some [1; 2]%nat /\
  exists l' nodes', list_run (list_new 1, sample_nodes) [PushBack 0; PushFront 1; InsertAfter 1 2; Remove 0]%nat = Ok (l', nodes') /\
  to_vec l' nodes' = Ok [1; 2]%nat.
Proof.
  split; [reflexivity|].
  destruct (oplist_refines sample_nodes (list_new 1) [] [PushBack 0; PushFront 1; InsertAfter 1 2; Remove 0]%nat [1; 2]%nat)
    as (l' & nodes' & E & _ & Hv & _).
  - do 3 (split; [reflexivity|]). split; [constructor|]. split; [exact I|]. cbn. lia.
  - intros id Hid. cbn in Hid. rewrite !elem_of_cons, elem_of_nil in Hid. destruct Hid as [-> |[-> |[-> |[]]]]; by eexists.
  - reflexivity.
  - by exists l', nodes'.
Defined.

(** Three nodes in one list. *)
Definition sample_linked : Arena (gmap nat ListLinks) := mk_Arena
  [Some {[ 0%nat := mk_links None (Some 1%nat) ]};
   Some {[ 0%nat := mk_links (Some 0%nat) (Some 2%nat) ]};
   Some {[ 0%nat := mk_links (Some 1%nat) None ]}] 3.

Lemma splice_range_correct_witness : exists l' nodes',
  splice_range (mk_list (Some 0%nat) (Some 2%nat) 3 0) sample_linked (Some 2%nat) 0 (Some 1%nat) = Ok (l', nodes') /\
  linked nodes' l' [1; 0; 2]%nat.
Proof.
  destruct (proj1 (splice_range_correct sample_linked (mk_list (Some 0%nat) (Some 2%nat) 3 0) [] 0 [] [1; 2]%nat
    ltac:(do 3 (split; [reflexivity|]); split; [apply (bool_decide_unpack _); vm_compute; exact I|];
      split; [repeat split; reflexivity|cbn; lia])) [1]%nat [2]%nat eq_refl) as (l' & nodes' & E & Hk & _).
  by exists l', nodes'.
Defined.
