(* ===== verification/GlobalContext.v ===== *)
(** The context database of [src/src/globalcontext.rs]: the context variables of
    the instruction decoder, packed into words, with a value at every address
    ([ContextInternal], two [PartMap]s), and the cache the decoder reads it
    through ([ContextCache]).  The maps are keyed by addresses, which [PartMap]
    only compares, so the keys here are [AddressKey]s.  The theorems are in
    [ContextValues] and [ContextCoherence]. *)
From stdpp Require Import base list numbers gmap strings.
From Stdlib Require Import ZArith Lia.
From S2P Require Import Prelude Bits Multiprecision BTree Space Address Join PartMap.
Local Open Scope Z_scope.
Local Open Scope rust_scope.

(** ** Definitions *)

#[export] Instance key_ordkey : OrdKey AddressKey.
Proof.
  refine {| kcmp := address_key_cmp |}.
  - intros [s o] [s' o']. unfold address_key_cmp. simpl. destruct (Z.compare_spec s s'); simpl; [|split; [done|intros [=]; lia]..].
    rewrite Z.compare_eq_iff. split; [by intros ->; subst|by intros [=]].
  - intros [s o] [s' o']. unfold address_key_cmp. simpl. rewrite (Z.compare_antisym s s'). destruct (Z.compare_spec s s'); simpl; [|done..].
    apply Z.compare_antisym.
  - intros [s o] [s' o'] [s'' o'']. unfold address_key_cmp. simpl.
    destruct (Z.compare_spec s s'), (Z.compare_spec s' s''), (Z.compare_spec s s''); simpl; try done; try lia.
    rewrite !Z.compare_lt_iff. lia.
Defined.

(** [vec\[i as usize\]] for an [i32]: a negative index is out of range. *)
Definition slot_get (vec : list Z) (i : Z) : outcome Z := if i <? 0 then Panic else index vec (Z.to_nat i).
Definition slot_set (vec : list Z) (i : Z) (x : Z) : outcome (list Z) := if i <? 0 then Panic else store vec (Z.to_nat i) x.

Definition not32 (x : Z) : Z := u32 (Z.lnot x).

(** *** The bits of a variable *)

Record ContextBitRange : Type := mk_ContextBitRange { word : Z; startbit : Z; endbit : Z; shift : Z; range_mask : Z }.

Definition bitrange_new (sbit ebit : Z) : ContextBitRange :=
  let word := Z.quot sbit 32 in
  let startbit := i32 (sbit - i32 (word * 32)) in
  let endbit := i32 (ebit - i32 (word * 32)) in
  let shift := i32 (i32 (32 - endbit) - 1) in
  let mask := shr32 (2 ^ 32 - 1) (u32 (i32 (startbit + shift))) in
  mk_ContextBitRange word startbit endbit shift mask.

Definition bitrange_set_value (r : ContextBitRange) (vec : list Z) (val : Z) : outcome (list Z) :=
  let! newval := slot_get vec (word r) in
  let newval := Z.land newval (not32 (shl32 (range_mask r) (u32 (shift r)))) in
  let newval := Z.lor newval (shl32 (Z.land val (range_mask r)) (u32 (shift r))) in
  slot_set vec (word r) newval.

Definition bitrange_get_value (r : ContextBitRange) (vec : list Z) : outcome Z :=
  let! x := slot_get vec (word r) in
  Ok (Z.land (shr32 x (u32 (shift r))) (range_mask r)).

(** *** Tracked registers *)

Record TrackedContext : Type := mk_TrackedContext { loc : VarnodeData; tracked_val : Z }.

Definition TrackedSet : Type := list TrackedContext.

Record ContextBounds : Type := mk_ContextBounds { cb_first : Z; cb_last : Z; cb_key : option AddressKey }.

(** [get_tracked_value], over the set of its point. *)
Fixpoint tracked_lookup (mem : VarnodeData) (tset : TrackedSet) : Z :=
  match tset with
  | [] => 0
  | tcont :: rest =>
      let endoff := u64 (u64 (voffset mem + u64 (vsize mem)) - 1) in
      let tendoff := u64 (u64 (voffset (loc tcont) + u64 (vsize (loc tcont))) - 1) in
      if negb (bool_decide (space_key (vspace (loc tcont)) = space_key (vspace mem))) then tracked_lookup mem rest
      else if voffset mem <? voffset (loc tcont) then tracked_lookup mem rest
      else if tendoff <? endoff then tracked_lookup mem rest
      else
        let big_endian := match vspace (loc tcont) with Some spc => is_big_endian spc | None => false end in
        let res :=
          if big_endian then
            if negb (endoff =? tendoff) then shr64 (tracked_val tcont) (u32 (u64 (8 * u64 (tendoff - voffset mem)))) else tracked_val tcont
          else if negb (voffset mem =? voffset (loc tcont)) then
            shr64 (tracked_val tcont) (u32 (u64 (8 * u64 (voffset mem - voffset (loc tcont)))))
          else tracked_val tcont in
        Z.land res (calc_mask (i32 (vsize mem)))
  end.

(** *** The arrays of the database *)

Record FreeArray : Type := mk_FreeArray { array : list Z; fa_mask : list Z }.

Definition exact_copy (f : FreeArray) : FreeArray := mk_FreeArray (array f) (fa_mask f).

(** [Clone] forgets which bits were set at the point it copies. *)
Definition fa_clone (f : FreeArray) : FreeArray := mk_FreeArray (array f) (replicate (length (fa_mask f)) 0).

Definition fa_reset (f : FreeArray) (sz : Z) : outcome FreeArray :=
  let size := Z.to_nat (Z.max sz 0) in
  let min := Nat.min size (length (array f)) in
  if decide (min <= length (fa_mask f))%nat then
    Ok (mk_FreeArray (take min (array f) ++ replicate (size - min) 0) (take min (fa_mask f) ++ replicate (size - min) 0))
  else Panic.

Record ContextInternal : Type := mk_ContextInternal {
  ctx_size : Z;
  variables : gmap string ContextBitRange;
  ctx_database : PartMap AddressKey FreeArray;
  trackbase : PartMap AddressKey TrackedSet
}.

Definition context_new : ContextInternal := mk_ContextInternal 0 ∅ (partmap_new (mk_FreeArray [] [])) (partmap_new []).

Definition context_duplicate (c : ContextInternal) : ContextInternal :=
  mk_ContextInternal (ctx_size c) (variables c) (duplicate (ctx_database c) exact_copy) (duplicate (trackbase c) (fun t => t)).

Definition with_database (c : ContextInternal) (m : PartMap AddressKey FreeArray) : ContextInternal :=
  mk_ContextInternal (ctx_size c) (variables c) m (trackbase c).

Definition with_trackbase (c : ContextInternal) (m : PartMap AddressKey TrackedSet) : ContextInternal :=
  mk_ContextInternal (ctx_size c) (variables c) (ctx_database c) m.

Definition get_context_size (c : ContextInternal) : Z := ctx_size c.

Definition register_variable (c : ContextInternal) (nm : string) (sbit ebit : Z) : outcome ContextInternal :=
  if negb (empty (ctx_database c)) then
    Err (Lowlevel "Cannot register new context variables after database is initialized")
  else
    let bitrange := bitrange_new sbit ebit in
    let sz := i32 (Z.quot sbit 32 + 1) in
    if negb (i32 (Z.quot ebit 32 + 1) =? sz) then Err (Lowlevel "Context variable does not fit in one word")
    else
      let! (size, db) :=
        if ctx_size c <? sz then
          let! d := fa_reset (defaultvalue (ctx_database c)) sz in
          Ok (sz, mk_PartMap (database (ctx_database c)) d)
        else Ok (ctx_size c, ctx_database c) in
      Ok (mk_ContextInternal size (<[nm := bitrange]> (variables c)) db (trackbase c)).

Definition get_context (c : ContextInternal) (addr : Address) : list Z :=
  array (get_value (ctx_database c) (ordering_key addr)).

(** The space and offset of an address that is a key: the invalid address has
    no space. *)
Definition key_index (k : AddressKey) : option Z := if key_space k =? -1 then None else Some (key_space k).

Definition get_context_bounds (c : ContextInternal) (addr : Address) : ContextBounds :=
  let b := (bounds (ctx_database c) (ordering_key addr)).2 in
  let addr_space := base_index (space addr) in
  let before_space := before b ≫= key_index in
  let after_space := after b ≫= key_index in
  let first :=
    if negb (Z.land (valid b) 1 =? 0) || negb (bool_decide (before_space = addr_space)) then 0
    else match before b with Some k => key_offset k | None => 0 end in
  let last :=
    if negb (Z.land (valid b) 2 =? 0) || negb (bool_decide (after_space = addr_space)) then
      match space addr with Some spc => highest spc | None => 0 end
    else match after b with Some k => u64 (key_offset k - 1) | None => 0 end in
  mk_ContextBounds first last (if negb (Z.land (valid b) 1 =? 0) then None else before b).

Definition get_context_by_key (c : ContextInternal) (key : option AddressKey) : list Z := array (get_by_key (ctx_database c) key).

Definition get_tracked_set (c : ContextInternal) (addr : Address) : TrackedSet := get_value (trackbase c) (ordering_key addr).

(** [create_set] empties the interval and returns the reference to its set,
    which starts empty. *)
Definition create_set (c : ContextInternal) (addr1 addr2 : Address) : outcome ContextInternal :=
  let! m := clear_range (trackbase c) (ordering_key addr1) (ordering_key addr2) in
  let! m := write_key m (ordering_key addr1) [] in
  Ok (with_trackbase c m).

Definition get_tracked_value (c : ContextInternal) (mem : VarnodeData) (point : Address) : Z :=
  tracked_lookup mem (get_tracked_set c point).

Definition get_variable (c : ContextInternal) (nm : string) : outcome ContextBitRange :=
  match variables c !! nm with
  | Some r => Ok r
  | None => Err (Lowlevel ("Non-existent context variable: " +:+ nm))
  end.

(** *** Changing a region *)

(** [entry.mask\[slot\] |= mask]. *)
Definition note_mask (num mask : Z) (f : FreeArray) : outcome FreeArray :=
  let! x := slot_get (fa_mask f) num in
  let! masks := slot_set (fa_mask f) num (Z.lor x mask) in
  Ok (mk_FreeArray (array f) masks).

(** [apply(&mut entry.array)]. *)
Definition apply_array (apply : list Z -> outcome (list Z)) (f : FreeArray) : outcome FreeArray :=
  let! a := apply (array f) in Ok (mk_FreeArray a (fa_mask f)).

(** [get_mut(&key).expect(..)] and a change of the entry. *)
Definition edit_key (m : PartMap AddressKey FreeArray) (key : AddressKey) (f : FreeArray -> outcome FreeArray)
    : outcome (PartMap AddressKey FreeArray) :=
  match tree_get fst key (database m) with
  | Some (_, entry) => let! entry := f entry in write_key m key entry
  | None => Panic
  end.

Fixpoint set_keys (num mask : Z) (apply : list Z -> outcome (list Z)) (stop : option AddressKey) (keys : list AddressKey)
    (m : PartMap AddressKey FreeArray) : outcome (PartMap AddressKey FreeArray) :=
  match keys with
  | [] => Ok m
  | key :: keys =>
      if match stop with Some last => kleb last key | None => false end then Ok m
      else
        let! m := edit_key m key (fun entry => let! entry := note_mask num mask entry in apply_array apply entry) in
        set_keys num mask apply stop keys m
  end.

Definition get_region_for_set (c : ContextInternal) (addr1 addr2 : Address) (num mask : Z) (apply : list Z -> outcome (list Z))
    : outcome ContextInternal :=
  let k1 := ordering_key addr1 in
  let k2 := ordering_key addr2 in
  let! m := split_clone fa_clone (ctx_database c) k1 in
  let bounded := negb (is_invalid addr2) in
  let! m := if bounded then split_clone fa_clone m k2 else Ok m in
  if bounded && addr_eq addr1 addr2 then Ok (with_database c m)
  else
    let stop_at_end := bounded && kltb k1 k2 in
    let! m := set_keys num mask apply (if stop_at_end then Some k2 else None) (keys_from m k1) m in
    Ok (with_database c m).

(** The keys after the first, up to the next point where the bits were set. *)
Fixpoint change_keys (num mask : Z) (apply : list Z -> outcome (list Z)) (keys : list AddressKey)
    (m : PartMap AddressKey FreeArray) : outcome (PartMap AddressKey FreeArray) :=
  match keys with
  | [] => Ok m
  | key :: keys =>
      match tree_get fst key (database m) with
      | Some (_, entry) =>
          let! x := slot_get (fa_mask entry) num in
          if negb (Z.land x mask =? 0) then Ok m
          else
            let! m := edit_key m key (apply_array apply) in
            change_keys num mask apply keys m
      | None => Panic
      end
  end.

Definition get_region_to_change_point (c : ContextInternal) (addr : Address) (num mask : Z) (apply : list Z -> outcome (list Z))
    : outcome ContextInternal :=
  let! m := split_clone fa_clone (ctx_database c) (ordering_key addr) in
  match keys_from m (ordering_key addr) with
  | [] => Ok (with_database c m)
  | first_key :: keys =>
      let! m := edit_key m first_key (fun entry => let! entry := apply_array apply entry in note_mask num mask entry) in
      let! m := change_keys num mask apply keys m in
      Ok (with_database c m)
  end.

(** *** The methods of [ContextDatabase] *)

Definition get_default_value (c : ContextInternal) : list Z := array (defaultvalue (ctx_database c)).

(** A write through [get_default_value_mut]. *)
Definition set_default_value (c : ContextInternal) (vec : list Z) : ContextInternal :=
  with_database c (mk_PartMap (database (ctx_database c)) (mk_FreeArray vec (fa_mask (defaultvalue (ctx_database c))))).

Definition set_variable_default (c : ContextInternal) (nm : string) (val : Z) : outcome ContextInternal :=
  let! var := get_variable c nm in
  let! vec := bitrange_set_value var (get_default_value c) val in
  Ok (set_default_value c vec).

Definition get_default_value_by_name (c : ContextInternal) (nm : string) : outcome Z :=
  let! var := get_variable c nm in
  bitrange_get_value var (get_default_value c).

Definition shifted_mask (r : ContextBitRange) : Z := shl32 (range_mask r) (u32 (shift r)).

Definition set_variable (c : ContextInternal) (nm : string) (addr : Address) (value : Z) : outcome ContextInternal :=
  let! bitrange := get_variable c nm in
  get_region_to_change_point c addr (word bitrange) (shifted_mask bitrange) (fun context => bitrange_set_value bitrange context value).

Definition get_variable_value (c : ContextInternal) (nm : string) (addr : Address) : outcome Z :=
  let! bitrange := get_variable c nm in
  bitrange_get_value bitrange (get_context c addr).

(** The two closures that change one word. *)
Definition put_bits (num mask value : Z) (context : list Z) : outcome (list Z) :=
  let! x := slot_get context num in
  slot_set context num (Z.lor (Z.land x (not32 mask)) value).

Definition set_context_change_point (c : ContextInternal) (addr : Address) (num mask value : Z) : outcome ContextInternal :=
  get_region_to_change_point c addr num mask (put_bits num mask value).

Definition set_context_region (c : ContextInternal) (addr1 addr2 : Address) (num mask value : Z) : outcome ContextInternal :=
  get_region_for_set c addr1 addr2 num mask (put_bits num mask value).

Definition set_variable_region (c : ContextInternal) (nm : string) (begad endad : Address) (value : Z) : outcome ContextInternal :=
  let! bitrange := get_variable c nm in
  get_region_for_set c begad endad (word bitrange) (shifted_mask bitrange) (fun context => bitrange_set_value bitrange context value).

(** *** The cache *)

Record CacheWindow : Type := mk_CacheWindow { w_space : Z; w_first : Z; w_last : Z; w_key : option AddressKey }.

Record ContextCache : Type := mk_ContextCache { allowset : bool; window : option CacheWindow; c_first : Z; c_last : Z }.

Definition cache_new : ContextCache := mk_ContextCache true None 0 0.

Definition allow_set (h : ContextCache) (val : bool) : ContextCache := mk_ContextCache val (window h) (c_first h) (c_last h).

Definition no_window (h : ContextCache) : ContextCache := mk_ContextCache (allowset h) None (c_first h) (c_last h).

(** [buf\[..size\].copy_from_slice(&context\[..size\])]. *)
Definition copy_context (c : ContextInternal) (context buf : list Z) : outcome (list Z) :=
  let size := Z.to_nat (Z.max (ctx_size c) 0) in
  if decide (size <= length buf /\ size <= length context)%nat then Ok (take size context ++ drop size buf) else Panic.

Definition cache_hit (h : ContextCache) (addr : Address) : bool :=
  match window h with
  | Some w => bool_decide (Some (w_space w) = base_index (space addr)) && (w_first w <=? offset addr) && (offset addr <=? w_last w)
  | None => false
  end.

Definition cache_get_context (h : ContextCache) (c : ContextInternal) (addr : Address) (buf : list Z)
    : outcome (ContextCache * list Z) :=
  if negb (cache_hit h addr) then
    let b := get_context_bounds c addr in
    let w := (fun i => mk_CacheWindow i (cb_first b) (cb_last b) (cb_key b)) <$> base_index (space addr) in
    let h := mk_ContextCache (allowset h) w (cb_first b) (cb_last b) in
    let! buf := copy_context c (get_context_by_key c (cb_key b)) buf in
    Ok (h, buf)
  else
    let! buf := copy_context c (get_context_by_key c (window h ≫= w_key)) buf in
    Ok (h, buf).

Definition in_window (h : ContextCache) (addr : Address) : bool :=
  match window h with
  | Some w => bool_decide (base_index (space addr) = Some (w_space w)) && (c_first h <=? offset addr) && (offset addr <=? c_last h)
  | None => false
  end.

Definition cache_set_context (h : ContextCache) (c : ContextInternal) (addr : Address) (num mask value : Z)
    : outcome (ContextCache * ContextInternal) :=
  if negb (allowset h) then Ok (h, c)
  else
    let! c := set_context_change_point c addr num mask value in
    Ok (if in_window h addr then no_window h else h, c).

Definition cache_set_region (h : ContextCache) (c : ContextInternal) (addr1 addr2 : Address) (num mask value : Z)
    : outcome (ContextCache * ContextInternal) :=
  if negb (allowset h) then Ok (h, c)
  else
    let! c := set_context_region c addr1 addr2 num mask value in
    let h := if in_window h addr1 then no_window h else h in
    let h := if (c_first h <=? offset addr2) && (offset addr2 <=? c_last h) then no_window h else h in
    let h := if (offset addr1 <=? c_first h) && (c_first h <=? offset addr2) then no_window h else h in
    Ok (h, c).
