(* ===== verification/ContextValues.v ===== *)
(** What the operations of the context database do to the context at every
    address, and to the value of every variable. *)
From stdpp Require Import base list numbers gmap strings sorting.
From Stdlib Require Import ZArith Lia.
From S2P Require Import Prelude Bits Multiprecision BTree Space Address Join PartMap GlobalContext.
Local Open Scope Z_scope.
Local Open Scope rust_scope.

(** ** Keys *)

Lemma keys_from_elem {V} (m : PartMap AddressKey V) k j : pm_wf m -> j ∈ keys_from m k <-> is_Some (entry m j) /\ kle k j.
Proof.
  intros Hs. unfold keys_from, range_from. rewrite list_elem_of_fmap. split.
  - intros ([i v] & -> & [Hle Hin]%list_elem_of_filter). split; [exists v; by apply entry_Some|done].
  - intros [[v Hv%entry_Some] Hle]; [|done]. exists (j, v). split; [done|]. by apply list_elem_of_filter.
Qed.

Lemma keys_from_sorted {V} (m : PartMap AddressKey V) k : pm_wf m -> StronglySorted klt (keys_from m k).
Proof.
  intros Hs. unfold keys_from, range_from. pose proof (sorted_filter fst (fun x : AddressKey * V => kle k x.1) _ Hs) as Hf.
  induction Hf as [|x l Hl IH Hall]; simpl; [constructor|]. apply StronglySorted_cons. split; [|done].
  apply Forall_forall. intros j (y & -> & Hy)%list_elem_of_fmap. by apply (proj1 (Forall_forall _ _) Hall).
Qed.

(** The keys from a key on begin with it. *)
Lemma keys_from_head {V} (m : PartMap AddressKey V) k : pm_wf m -> is_Some (entry m k) -> exists rest,
  keys_from m k = k :: rest /\ StronglySorted klt rest /\ forall j, j ∈ rest <-> is_Some (entry m j) /\ klt k j.
Proof.
  intros Hs Hk. pose proof (keys_from_sorted m k Hs) as Ho. pose proof (keys_from_elem m k) as He.
  assert (k ∈ keys_from m k) as Hin by (apply He; [done|split; [done|apply kle_refl]]).
  destruct (keys_from m k) as [|k0 rest] eqn:E; [by apply not_elem_of_nil in Hin|].
  apply StronglySorted_cons in Ho as [Hall Ho]. rewrite Forall_forall in Hall.
  assert (k0 = k) as ->.
  { apply elem_of_cons in Hin as [|Hin]; [done|]. pose proof (Hall k Hin) as Hlt.
    destruct (proj1 (He k0 Hs) ltac:(by left)) as [_ Hle]. by apply not_kle in Hlt. }
  exists rest. split; [done|]. split; [done|]. intros j. split.
  - intros Hj. split; [apply (He j Hs); by right|by apply Hall].
  - intros [Hj Hlt]. assert (j ∈ k :: rest) as Hin'; [apply He; [done|]; split; [done|]; apply kle_lt_eq; by left|].
    apply elem_of_cons in Hin' as [->|]; [by apply klt_irrefl in Hlt|done].
Qed.

(** ** The arrays *)

Definition good (n : nat) (f : FreeArray) : Prop := length (array f) = n /\ length (fa_mask f) = n.

Record arrays_ok (n : nat) (m : PartMap AddressKey FreeArray) : Prop := {
  ao_wf : pm_wf m;
  ao_default : good n (defaultvalue m);
  ao_entry j e : entry m j = Some e -> good n e
}.

Definition ctx_ok (c : ContextInternal) : Prop := 0 <= ctx_size c /\ arrays_ok (Z.to_nat (ctx_size c)) (ctx_database c).

Lemma value_good n m x : arrays_ok n m -> good n (get_value m x).
Proof.
  intros [Hs Hd He]. destruct (get_value_cases m x Hs) as [(k & v & Hin & _ & ->)|[_ ->]]; [|done].
  apply (He k). by apply entry_Some.
Qed.

(** The context at an address. *)
Definition context_at (c : ContextInternal) (x : AddressKey) : list Z := array (get_value (ctx_database c) x).

Lemma split_arrays n m p : arrays_ok n m -> exists m', split_clone fa_clone m p = Ok m' /\ arrays_ok n m' /\
  (forall x, array (get_value m' x) = array (get_value m x)) /\ is_Some (entry m' p) /\
  (forall j, j <> p -> entry m' j = entry m j) /\
  (forall e, entry m p = Some e -> entry m' p = Some e) /\ defaultvalue m' = defaultvalue m.
Proof.
  intros [Hs Hd He]. destruct (split_clone_ok fa_clone m p Hs) as (m' & E & Hs' & Hd' & Hent). exists m'. split; [done|].
  assert (forall j, j <> p -> entry m' j = entry m j) as Hother by (intros j Hj; by rewrite Hent, decide_False).
  assert (entry m' p = Some (default (fa_clone (get_value m p)) (entry m p))) as Hp by (by rewrite Hent, decide_True).
  split; [|split; [|split; [by rewrite Hp|split; [done|split; [by intros e Ee; rewrite Hp, Ee|done]]]]].
  - constructor; [done|by rewrite Hd'|]. intros j e. destruct (decide (j = p)) as [->|Hj]; [|rewrite Hother by done; apply He].
    rewrite Hp. intros [= <-]. destruct (entry m p) as [e|] eqn:Ep; simpl; [by apply (He p)|].
    destruct (value_good n m p ltac:(by constructor)) as [H1 H2]. split; [done|]. simpl. by rewrite length_replicate.
  - intros x. destruct (entry m p) as [e|] eqn:Ep.
    { simpl in Hp. assert (forall j, entry m' j = (fun v => v) <$> entry m j) as Hid.
      { intros j. rewrite option_fmap_id. destruct (decide (j = p)) as [->|Hj]; [by rewrite Hp|by apply Hother]. }
      destruct (edited_value m m' (fun _ v => v) x Hs Hs' Hd' Hid) as [_ ->]. by destruct (last_at_or_before m x). }
    assert (forall y, get_value (mk_PartMap (map_insert fst (p, fa_clone (get_value m p)) (database m)) (defaultvalue m)) y = get_value m' y) as Hsame.
    { intros y. set (m2 := mk_PartMap _ _). assert (pm_wf m2) as Hs2 by (by apply sorted_map_insert).
      assert (forall j, entry m2 j = (fun v => v) <$> entry m' j) as Hid.
      { intros j. rewrite option_fmap_id. unfold m2. rewrite entry_insert by done. rewrite Hent. by destruct (decide (j = p)). }
      destruct (edited_value m' m2 (fun _ v => v) y Hs' Hs2 ltac:(done) Hid) as [_ ->]. by destruct (last_at_or_before m' y). }
    rewrite <- Hsame, get_value_insert by done. destruct (decide (governs m p x)) as [Hg|]; [|done].
    by rewrite (get_value_governed m p x Hs Hg).
Qed.

(** ** The loops over the keys *)

Section Region.
Context (n : nat) (num mask : Z) (apply : list Z -> outcome (list Z)) (f : list Z -> list Z).
Context (Hnum : 0 <= num < Z.of_nat n) (Happly : forall v, length v = n -> apply v = Ok (f v) /\ length (f v) = n).
Implicit Types (m : PartMap AddressKey FreeArray) (e : FreeArray).

Local Abbreviation slot := (Z.to_nat num).

(** The bits of the slot that were set at the point of an entry. *)
Definition bits_set e : Z := nth slot (fa_mask e) 0.

(** Were bits of the variable set there? *)
Definition is_point e : bool := negb (Z.land (bits_set e) mask =? 0).

Definition changed e : FreeArray := mk_FreeArray (f (array e)) (fa_mask e).

Definition noted e : FreeArray := mk_FreeArray (f (array e)) (<[slot := Z.lor (bits_set e) mask]> (fa_mask e)).

Lemma slot_get_ok v : length v = n -> slot_get v num = Ok (nth slot v 0).
Proof.
  intros Hl. unfold slot_get. destruct (Z.ltb_spec num 0); [lia|].
  apply index_ok. destruct (lookup_lt_is_Some_2 v slot ltac:(lia)) as [x Hx]. by rewrite Hx, (nth_lookup_Some _ _ _ _ Hx).
Qed.

Lemma slot_set_ok v x : length v = n -> slot_set v num x = Ok (<[slot := x]> v).
Proof. intros Hl. unfold slot_set. destruct (Z.ltb_spec num 0); [lia|]. apply store_ok. lia. Qed.

Lemma changed_good e : good n e -> apply_array apply e = Ok (changed e) /\ good n (changed e).
Proof. intros [Ha Hm]. destruct (Happly (array e) Ha) as [E Hl]. unfold apply_array. rewrite E. by split. Qed.

Lemma note_mask_ok e : good n e -> note_mask num mask e = Ok (mk_FreeArray (array e) (<[slot := Z.lor (bits_set e) mask]> (fa_mask e))).
Proof. intros [Ha Hm]. unfold note_mask. rewrite slot_get_ok by done. ostep. by rewrite slot_set_ok. Qed.

Lemma noted_good e : good n e -> good n (noted e).
Proof. intros [Ha Hm]. split; simpl; [by apply Happly|by rewrite length_insert]. Qed.

Lemma edit_key_ok m k e e' g : arrays_ok n m -> entry m k = Some e -> g e = Ok e' -> good n e' ->
  exists m', edit_key m k g = Ok m' /\ arrays_ok n m' /\ defaultvalue m' = defaultvalue m /\
  forall j, entry m' j = if decide (j = k) then Some e' else entry m j.
Proof.
  intros [Hs Hd He] Hk Hg Hgood. unfold edit_key. pose proof Hk as Hin. apply entry_Some in Hin; [|done].
  rewrite (proj2 (tree_get_Some fst k _ (k, e) Hs) (conj Hin eq_refl)), Hg. ostep.
  rewrite write_key_ok by (done || by exists e). eexists. split; [done|].
  assert (forall j, entry (mk_PartMap (map_insert fst (k, e') (database m)) (defaultvalue m)) j = if decide (j = k) then Some e' else entry m j) as Hent
    by (intros j; by apply entry_insert).
  split; [|done]. constructor; [by apply sorted_map_insert|done|]. intros j x. rewrite Hent. destruct (decide (j = k)); [by intros [= <-]|apply He].
Qed.

(** *** Up to a given end *)

Definition before_stop (stop : option AddressKey) (j : AddressKey) : bool :=
  match stop with Some last => negb (kleb last j) | None => true end.

Lemma set_keys_ok stop keys : forall m, arrays_ok n m -> StronglySorted klt keys -> (forall j, j ∈ keys -> is_Some (entry m j)) ->
  exists m', set_keys num mask apply stop keys m = Ok m' /\ arrays_ok n m' /\ defaultvalue m' = defaultvalue m /\
  forall j, entry m' j = (if bool_decide (j ∈ keys) && before_stop stop j then noted else fun e => e) <$> entry m j.
Proof.
  induction keys as [|key keys IH]; intros m Hm Ho Hkeys; simpl.
  { exists m. do 3 (split; [done|]). intros j. by destruct (entry m j). }
  apply StronglySorted_cons in Ho as [Hall Ho]. rewrite Forall_forall in Hall.
  assert (key ∉ keys) as Hni by (intros Hin; by apply (klt_irrefl key), Hall).
  destruct (match stop with Some last => kleb last key | None => false end) eqn:Es.
  { exists m. do 3 (split; [done|]). intros j. destruct (bool_decide (j ∈ key :: keys) && before_stop stop j) eqn:Ej; [|by destruct (entry m j)].
    apply andb_true_iff in Ej as [Hj%bool_decide_eq_true Hb]. destruct stop as [last|]; [|done]. simpl in Hb.
    apply negb_true_iff, not_true_iff_false in Hb. exfalso. apply Hb. apply kleb_spec in Es. apply kleb_spec.
    apply elem_of_cons in Hj as [->|Hj]; [done|]. apply (kle_trans _ key); [done|]. apply kle_lt_eq. left. by apply Hall. }
  destruct (Hkeys key ltac:(by left)) as [e He]. pose proof (ao_entry _ _ Hm key e He) as Hg.
  destruct (edit_key_ok m key e (noted e) (fun entry => let! entry := note_mask num mask entry in apply_array apply entry))
    as (m1 & E1 & Hm1 & Hd1 & Hent1); [done|done| |by apply noted_good|].
  { rewrite note_mask_ok by done. ostep. unfold apply_array. destruct (Happly (array e)) as [E _]; [apply Hg|]. simpl. by rewrite E. }
  rewrite E1. ostep. destruct (IH m1 Hm1 Ho) as (m' & E & Hm' & Hd' & Hent).
  { intros j Hj. rewrite Hent1. destruct (decide (j = key)) as [->|]; [by eexists|]. apply Hkeys. by right. }
  exists m'. split; [done|]. split; [done|]. split; [by rewrite Hd'|]. intros j. rewrite Hent, Hent1.
  destruct (decide (j = key)) as [->|Hj].
  - rewrite (bool_decide_eq_false_2 (key ∈ keys)) by done. rewrite (bool_decide_eq_true_2 (key ∈ key :: keys)) by (by left). rewrite He. simpl.
    assert (before_stop stop key = true) as ->; [|done]. unfold before_stop. destruct stop; [by rewrite Es|done].
  - rewrite (bool_decide_ext (j ∈ key :: keys) (j ∈ keys)); [done|]. rewrite elem_of_cons. naive_solver.
Qed.

(** *** Up to the next change *)

(** No key up to [j] is a point where the bits were set. *)
Definition open_to m keys (j : AddressKey) : bool :=
  bool_decide (j ∈ keys) &&
  forallb (fun i => negb (kleb i j) || match entry m i with Some e => negb (is_point e) | None => true end) keys.

Lemma change_keys_ok keys : forall m, arrays_ok n m -> StronglySorted klt keys -> (forall j, j ∈ keys -> is_Some (entry m j)) ->
  exists m', change_keys num mask apply keys m = Ok m' /\ arrays_ok n m' /\ defaultvalue m' = defaultvalue m /\
  forall j, entry m' j = (if open_to m keys j then changed else fun e => e) <$> entry m j.
Proof.
  induction keys as [|key keys IH]; intros m Hm Ho Hkeys; simpl.
  { exists m. do 3 (split; [done|]). intros j. by destruct (entry m j). }
  apply StronglySorted_cons in Ho as [Hall Ho]. rewrite Forall_forall in Hall.
  assert (key ∉ keys) as Hni by (intros Hin; by apply (klt_irrefl key), Hall).
  assert (forall i, i ∈ keys -> kleb i key = false) as Hafter.
  { intros i Hi. apply not_true_iff_false. rewrite kleb_spec. apply not_kle. by apply Hall. }
  destruct (Hkeys key ltac:(by left)) as [e He]. pose proof (ao_entry _ _ Hm key e He) as Hg. pose proof (ao_wf _ _ Hm) as Hs.
  pose proof He as Hin. apply entry_Some in Hin; [|done]. rewrite (proj2 (tree_get_Some fst key _ (key, e) Hs) (conj Hin eq_refl)).
  rewrite slot_get_ok by apply Hg. ostep. fold (bits_set e). fold (is_point e). destruct (is_point e) eqn:Ep.
  { exists m. do 3 (split; [done|]). intros j. destruct (open_to m (key :: keys) j) eqn:Ej; [|by destruct (entry m j)].
    unfold open_to in Ej. simpl in Ej. rewrite He, Ep, orb_false_r in Ej.
    apply andb_true_iff in Ej as [Hj%bool_decide_eq_true [Hk _]%andb_true_iff].
    apply negb_true_iff, not_true_iff_false in Hk. exfalso. apply Hk, kleb_spec.
    apply elem_of_cons in Hj as [->|Hj]; [apply kle_refl|]. apply kle_lt_eq. left. by apply Hall. }
  destruct (edit_key_ok m key e (changed e) (apply_array apply)) as (m1 & E1 & Hm1 & Hd1 & Hent1); [done|done|by apply changed_good..|].
  rewrite E1. ostep. destruct (IH m1 Hm1 Ho) as (m' & E & Hm' & Hd' & Hent).
  { intros j Hj. rewrite Hent1. destruct (decide (j = key)) as [->|]; [by eexists|]. apply Hkeys. by right. }
  exists m'. split; [done|]. split; [done|]. split; [by rewrite Hd'|]. intros j. rewrite Hent, Hent1.
  destruct (decide (j = key)) as [->|Hj].
  - assert (open_to m1 keys key = false) as -> by (unfold open_to; by rewrite bool_decide_eq_false_2).
    assert (open_to m (key :: keys) key = true) as ->; [|by rewrite He].
    unfold open_to. rewrite bool_decide_eq_true_2 by (by left). simpl. rewrite He, Ep, orb_true_r. simpl.
    apply forallb_forall. intros i Hi%list_elem_of_In. by rewrite Hafter.
  - assert (open_to m1 keys j = open_to m (key :: keys) j) as ->; [|done]. unfold open_to. simpl. rewrite He, Ep, orb_true_r. simpl.
    f_equal; [apply bool_decide_ext; rewrite elem_of_cons; naive_solver|].
    assert (forall i, i ∈ keys -> entry m1 i = entry m i) as Hsame by (intros i Hi; rewrite Hent1, decide_False; [done|by intros ->]).
    clear -Hsame. induction keys as [|i keys IH]; simpl; [done|]. rewrite Hsame by (by left). f_equal. apply IH. intros i' Hi'. apply Hsame. by right.
Qed.

(** *** The effect at a point *)

(** A point at or after a key is governed by a key at or after it. *)
Lemma governed_from m k x : pm_wf m -> is_Some (entry m k) -> kle k x ->
  exists j, last_at_or_before m x = Some j /\ kle k j /\ kle j x.
Proof.
  intros Hs [v Hv] Hle. destruct (last_at_or_before m x) as [j|] eqn:E.
  - exists j. split; [done|]. apply governing_key in E as [_ [Hjx Hmax]]; [|done]. split; [|done].
    apply (Hmax (k, v)); [by apply entry_Some|done].
  - exfalso. apply (not_kle k x); [|done]. by apply (proj1 (no_governing_key m x Hs) E).
Qed.

Lemma set_region_value stop m k : arrays_ok n m -> is_Some (entry m k) -> (forall l, stop = Some l -> is_Some (entry m l)) ->
  exists m', set_keys num mask apply stop (keys_from m k) m = Ok m' /\ arrays_ok n m' /\
  (forall j, is_Some (entry m' j) <-> is_Some (entry m j)) /\
  forall x, array (get_value m' x) =
    if decide (kle k x /\ before_stop stop x = true) then f (array (get_value m x)) else array (get_value m x).
Proof.
  intros Hm Hk Hstop. pose proof (ao_wf _ _ Hm) as Hs.
  destruct (set_keys_ok stop (keys_from m k) m Hm (keys_from_sorted m k Hs)) as (m' & E & Hm' & Hd & Hent).
  { intros j Hj. by apply (keys_from_elem m k j Hs) in Hj as [? _]. }
  exists m'. split; [done|]. split; [done|]. split; [intros j; by rewrite Hent, fmap_is_Some|]. intros x.
  destruct (edited_value m m' _ x Hs (ao_wf _ _ Hm') Hd Hent) as [_ ->].
  assert (forall j l, last_at_or_before m x = Some j -> is_Some (entry m l) -> kleb l j = kleb l x) as Hsame.
  { intros j l Hj [v Hv%entry_Some]; [|done]. apply governing_key in Hj as [_ [Hjx Hmax]]; [|done].
    apply eq_true_iff_eq. rewrite !kleb_spec. split; [intros; by eapply kle_trans|]. intros Hlx. by apply (Hmax (l, v)). }
  assert (forall j, last_at_or_before m x = Some j -> before_stop stop j = before_stop stop x) as Hbs.
  { intros j Hj. unfold before_stop. destruct stop as [l|]; [|done]. by rewrite (Hsame j l Hj (Hstop l eq_refl)). }
  destruct (decide (kle k x /\ before_stop stop x = true)) as [[Hkx Hb]|Hno].
  - destruct (governed_from m k x Hs Hk Hkx) as (j & Ej & Hkj & Hjx). rewrite Ej, (Hbs j Ej), Hb.
    rewrite bool_decide_eq_true_2; [done|]. apply keys_from_elem; [done|]. apply governing_key in Ej as [? _]; done.
  - destruct (last_at_or_before m x) as [j|] eqn:Ej; [|done].
    destruct (bool_decide (j ∈ keys_from m k) && before_stop stop j) eqn:Eb; [|done].
    apply andb_true_iff in Eb as [Hj%bool_decide_eq_true Hb]. destruct Hno. rewrite <- (Hbs j eq_refl). split; [|done].
    apply keys_from_elem in Hj as [_ Hkj]; [|done]. apply governing_key in Ej as [_ [Hjx _]]; [|done]. by eapply kle_trans.
Qed.

(** The change reaches a point when no bits were set at a key in between. *)
Definition reaches m (k x : AddressKey) : Prop :=
  kle k x /\ forall i e, entry m i = Some e -> klt k i -> kle i x -> is_point e = false.

Lemma change_value m k : arrays_ok n m -> is_Some (entry m k) -> exists m' first rest, keys_from m k = first :: rest /\
  (let! m := edit_key m first (fun entry => let! entry := apply_array apply entry in note_mask num mask entry) in
   change_keys num mask apply rest m) = Ok m' /\ arrays_ok n m' /\
  (forall j, is_Some (entry m' j) <-> is_Some (entry m j)) /\
  (forall x, (reaches m k x -> array (get_value m' x) = f (array (get_value m x))) /\
    (~ reaches m k x -> array (get_value m' x) = array (get_value m x))) /\
  (forall j, j <> k -> fa_mask <$> entry m' j = fa_mask <$> entry m j) /\
  (forall e, entry m k = Some e -> exists e', entry m' k = Some e' /\ bits_set e' = Z.lor (bits_set e) mask).
Proof.
  intros Hm [e He]. pose proof (ao_wf _ _ Hm) as Hs.
  destruct (keys_from_head m k Hs) as (rest & Ek & Ho & Hrest); [by exists e|].
  pose proof (ao_entry _ _ Hm k e He) as Hg.
  destruct (edit_key_ok m k e (noted e) (fun entry => let! entry := apply_array apply entry in note_mask num mask entry))
    as (m1 & E1 & Hm1 & Hd1 & Hent1); [done|done| |by apply noted_good|].
  { destruct (changed_good e Hg) as [-> Hc]. ostep. by rewrite note_mask_ok. }
  assert (k ∉ rest) as Hk by (intros Hin; apply Hrest in Hin as [_ Hlt]; by apply klt_irrefl in Hlt).
  assert (forall j, j ∈ rest -> entry m1 j = entry m j) as Hsame by (intros j Hj; rewrite Hent1, decide_False; [done|by intros ->]).
  destruct (change_keys_ok rest m1 Hm1 Ho) as (m' & E & Hm' & Hd & Hent).
  { intros j Hj. rewrite Hsame by done. by apply Hrest. }
  exists m', k, rest. split; [done|]. split; [by rewrite E1|]. split; [done|].
  assert (forall j, entry m' j = (if decide (j = k) then noted else if open_to m1 rest j then changed else fun e => e) <$> entry m j) as Hall.
  { intros j. rewrite Hent, Hent1. destruct (decide (j = k)) as [->|]; [|done]. rewrite He.
    assert (open_to m1 rest k = false) as ->; [|done]. unfold open_to. by rewrite bool_decide_eq_false_2. }
  split; [intros j; by rewrite Hall, fmap_is_Some|]. split; [|split].
  - intros x. destruct (edited_value m m' _ x Hs (ao_wf _ _ Hm') ltac:(congruence) Hall) as [_ Hv].
    assert (forall j, last_at_or_before m x = Some j -> kle k j -> j <> k -> open_to m1 rest j = true <-> reaches m k x) as Hopen.
    { intros j Hj Hkj Hne. apply governing_key in Hj as [Hjm [Hjx Hmax]]; [|done]. apply kle_lt_eq in Hkj as [Hkj|]; [|congruence].
      assert (j ∈ rest) as Hjr by (by apply Hrest). unfold open_to. rewrite (bool_decide_eq_true_2 (j ∈ rest)) by done. simpl.
      rewrite forallb_forall. unfold reaches. split.
      - intros Hf. split; [apply (kle_trans _ j); [apply kle_lt_eq; by left|done]|]. intros i ei Hi Hki Hix.
        assert (i ∈ rest) as Hir by (apply Hrest; split; [by exists ei|done]).
        specialize (Hf i (proj1 (list_elem_of_In _ _) Hir)). rewrite Hsame, Hi in Hf by done.
        assert (kleb i j = true) as Eij by (apply kleb_spec, (Hmax (i, ei)); [by apply entry_Some|done]).
        rewrite Eij in Hf. by apply negb_true_iff in Hf.
      - intros [_ Hr] i Hir%list_elem_of_In. rewrite Hsame by done. apply Hrest in Hir as [[ei Hi] Hki]. rewrite Hi.
        destruct (kleb i j) eqn:Eij; [|done]. apply kleb_spec in Eij. simpl. apply negb_true_iff. apply (Hr i); [done|done|by eapply kle_trans]. }
    split.
    + intros Hr. destruct Hr as [Hkx Hr']. destruct (governed_from m k x Hs ltac:(by exists e) Hkx) as (j & Ej & Hkj & Hjx).
      rewrite Hv, Ej. destruct (decide (j = k)); [done|]. rewrite (proj2 (Hopen j Ej Hkj n0)) by done. done.
    + intros Hno. rewrite Hv. destruct (last_at_or_before m x) as [j|] eqn:Ej; [|done].
      destruct (decide (j = k)) as [->|Hne].
      * destruct Hno. apply governing_key in Ej as [_ [Hkx Hmax]]; [|done]. split; [done|]. intros i ei Hi Hki Hix.
        exfalso. apply (not_kle i k); [done|]. apply (Hmax (i, ei)); [by apply entry_Some|done].
      * destruct (open_to m1 rest j) eqn:Eo; [|done]. destruct Hno. apply (Hopen j); [done| |done|done].
        unfold open_to in Eo. apply andb_true_iff in Eo as [Hj%bool_decide_eq_true _]. apply kle_lt_eq. left. by apply Hrest.
  - intros j Hj. rewrite Hall, decide_False by done. destruct (open_to m1 rest j), (entry m j); done.
  - intros e' He'. rewrite He in He'. injection He' as <-. exists (noted e). rewrite Hall, decide_True, He by done. split; [done|].
    unfold bits_set at 1, noted. simpl. apply nth_lookup_Some. rewrite list_lookup_insert_eq; [done|]. destruct Hg as [_ Hg]. lia.
Qed.
End Region.

(** ** Regions of the database *)

Section Database.
Context (num mask : Z) (apply : list Z -> outcome (list Z)) (f : list Z -> list Z).
Implicit Types (c : ContextInternal).

(** What [apply] must do with the arrays of the database. *)
Definition applies c : Prop := 0 <= num < ctx_size c /\
  forall v, length v = Z.to_nat (ctx_size c) -> apply v = Ok (f v) /\ length (f v) = Z.to_nat (ctx_size c).

(** The keys of the database. *)
Definition has_key c (j : AddressKey) : Prop := is_Some (entry (ctx_database c) j).

(** Nothing but the arrays differs. *)
Definition same_frame c c' : Prop := ctx_size c' = ctx_size c /\ variables c' = variables c /\ trackbase c' = trackbase c.

Lemma ctx_ok_with c m : 0 <= ctx_size c -> arrays_ok (Z.to_nat (ctx_size c)) m -> ctx_ok (with_database c m).
Proof. by split. Qed.

(** Splitting adds one key. *)
Lemma split_keys (m m' : PartMap AddressKey FreeArray) p : is_Some (entry m' p) -> (forall j, j <> p -> entry m' j = entry m j) ->
  (forall e, entry m p = Some e -> entry m' p = Some e) -> forall j, is_Some (entry m' j) <-> is_Some (entry m j) \/ j = p.
Proof.
  intros Hp Ho Hold j. destruct (decide (j = p)) as [->|Hne]; [naive_solver|]. rewrite Ho by done. naive_solver.
Qed.

Lemma region_for_set_ok c addr1 addr2 : ctx_ok c -> applies c -> addr_eq addr1 addr2 = false ->
  let stop := if negb (is_invalid addr2) && kltb (ordering_key addr1) (ordering_key addr2) then Some (ordering_key addr2) else None in
  exists c', get_region_for_set c addr1 addr2 num mask apply = Ok c' /\ ctx_ok c' /\ same_frame c c' /\
  (forall j, has_key c' j <-> has_key c j \/ j = ordering_key addr1 \/ (is_invalid addr2 = false /\ j = ordering_key addr2)) /\
  forall x, context_at c' x =
    if decide (kle (ordering_key addr1) x /\ before_stop stop x = true) then f (context_at c x) else context_at c x.
Proof.
  intros [Hsz Hc] [Hnum Happ] Hne stop. unfold get_region_for_set. set (k1 := ordering_key addr1) in *. set (k2 := ordering_key addr2) in *.
  destruct (split_arrays _ _ k1 Hc) as (m1 & -> & Hm1 & Hv1 & Hk1 & Ho1 & Hold1 & _). ostep.
  pose proof (split_keys _ _ k1 Hk1 Ho1 Hold1) as Hkeys1.
  assert (exists m2, (if negb (is_invalid addr2) then split_clone fa_clone m1 k2 else Ok m1) = Ok m2 /\ arrays_ok (Z.to_nat (ctx_size c)) m2 /\
    (forall x, array (get_value m2 x) = context_at c x) /\ is_Some (entry m2 k1) /\
    (is_invalid addr2 = false -> is_Some (entry m2 k2)) /\
    (forall j, is_Some (entry m2 j) <-> has_key c j \/ j = k1 \/ (is_invalid addr2 = false /\ j = k2))) as (m2 & -> & Hm2 & Hv2 & Hk12 & Hk2 & Hkeys).
  { destruct (is_invalid addr2); simpl; [exists m1; do 5 (split; [done|]); intros j; rewrite Hkeys1; unfold has_key; naive_solver|].
    destruct (split_arrays _ _ k2 Hm1) as (m2 & -> & Hm2 & Hv2 & Hk2 & Ho2 & Hold2 & _).
    exists m2. split; [done|]. split; [done|].
    split; [intros x; unfold context_at; by rewrite Hv2, Hv1|]. pose proof (split_keys _ _ k2 Hk2 Ho2 Hold2) as Hkeys2.
    split; [apply Hkeys2; by left|]. split; [done|]. intros j. rewrite Hkeys2, Hkeys1. unfold has_key. naive_solver. }
  ostep. rewrite Hne, andb_false_r.
  destruct (set_region_value (Z.to_nat (ctx_size c)) num mask apply f ltac:(lia) Happ stop m2 k1 Hm2 Hk12) as (m' & E & Hm' & Hkeys' & Hv').
  { intros l. unfold stop. destruct (is_invalid addr2); simpl; [done|]. destruct (kltb k1 k2); [|done]. intros [= <-]. by apply Hk2. }
  unfold stop in E. rewrite E. ostep. eexists. split; [done|]. split; [by apply ctx_ok_with|]. split; [done|].
  split; [intros j; unfold has_key at 1; simpl; by rewrite Hkeys', Hkeys|]. intros x. unfold context_at at 1. simpl. by rewrite Hv', Hv2.
Qed.

(** An empty region only adds its keys. *)
Lemma region_empty_ok c addr1 addr2 : ctx_ok c -> is_invalid addr2 = false -> addr_eq addr1 addr2 = true ->
  exists c', get_region_for_set c addr1 addr2 num mask apply = Ok c' /\ ctx_ok c' /\ same_frame c c' /\
  (forall j, has_key c' j <-> has_key c j \/ j = ordering_key addr1 \/ j = ordering_key addr2) /\
  forall x, context_at c' x = context_at c x.
Proof.
  intros [Hsz Hc] Hinv Heq. unfold get_region_for_set. rewrite Hinv, Heq. simpl.
  destruct (split_arrays _ _ (ordering_key addr1) Hc) as (m1 & -> & Hm1 & Hv1 & Hk1 & Ho1 & Hold1 & _). ostep.
  destruct (split_arrays _ _ (ordering_key addr2) Hm1) as (m2 & -> & Hm2 & Hv2 & Hk2 & Ho2 & Hold2 & _). ostep.
  eexists. split; [done|]. split; [by apply ctx_ok_with|]. split; [done|]. split.
  - intros j. unfold has_key. simpl. rewrite (split_keys _ _ _ Hk2 Ho2 Hold2), (split_keys _ _ _ Hk1 Ho1 Hold1). tauto.
  - intros x. unfold context_at. simpl. by rewrite Hv2, Hv1.
Qed.

(** Was the variable set at a key between the two addresses? *)
Definition context_reaches c (k x : AddressKey) : Prop := reaches num mask (ctx_database c) k x.

Lemma region_to_change_ok c addr : ctx_ok c -> applies c ->
  exists c', get_region_to_change_point c addr num mask apply = Ok c' /\ ctx_ok c' /\ same_frame c c' /\
  (forall j, has_key c' j <-> has_key c j \/ j = ordering_key addr) /\
  (forall x, (context_reaches c (ordering_key addr) x -> context_at c' x = f (context_at c x)) /\
    (~ context_reaches c (ordering_key addr) x -> context_at c' x = context_at c x)) /\
  exists e, entry (ctx_database c') (ordering_key addr) = Some e /\ Z.land (bits_set num e) mask = mask.
Proof.
  intros [Hsz Hc] [Hnum Happ]. unfold get_region_to_change_point. set (k := ordering_key addr).
  destruct (split_arrays _ _ k Hc) as (m1 & -> & Hm1 & Hv1 & Hk1 & Ho1 & Hold1 & _). ostep.
  destruct (change_value (Z.to_nat (ctx_size c)) num mask apply f ltac:(lia) Happ m1 k Hm1 Hk1)
    as (m' & first & rest & -> & E & Hm' & Hkeys & Hx & _ & Hpoint).
  cbv beta iota delta [obind] in E. destruct (edit_key m1 first _) as [m2| | |]; [|done..]. rewrite E.
  eexists. split; [done|]. split; [by apply ctx_ok_with|]. split; [done|].
  split; [intros j; unfold has_key; simpl; rewrite Hkeys; by apply split_keys|].
  assert (forall x, reaches num mask m1 k x <-> context_reaches c k x) as Hr.
  { intros x. unfold context_reaches, reaches. split; intros [Hkx Hi]; (split; [done|]); intros i e He Hki Hix; apply (Hi i); try done.
    - rewrite Ho1; [done|]. intros ->. by apply klt_irrefl in Hki.
    - rewrite <- Ho1; [done|]. intros ->. by apply klt_irrefl in Hki. }
  split.
  - intros x. unfold context_at. simpl. destruct (Hx x) as [Hyes Hno]. rewrite Hr in Hyes, Hno. split; intros Hc'.
    + by rewrite Hyes, Hv1.
    + by rewrite Hno, Hv1.
  - destruct Hk1 as [e He]. destruct (Hpoint e He) as (e' & He' & Hb). exists e'. split; [done|]. rewrite Hb.
    apply Z.bits_inj. intros i. rewrite Z.land_spec, Z.lor_spec. by destruct (Z.testbit mask i), (Z.testbit (bits_set num e) i).
Qed.
End Database.

(** ** Variables *)

(** The bits of a variable lie in one of [n] words. *)
Record var_ok (n : Z) (r : ContextBitRange) : Prop := {
  vo_word : 0 <= word r < n;
  vo_bits : 0 <= startbit r <= endbit r /\ endbit r < 32;
  vo_shift : shift r = 31 - endbit r;
  vo_mask : range_mask r = Z.ones (endbit r - startbit r + 1)
}.

Lemma bitrange_new_ok n sbit ebit : 0 <= sbit <= ebit -> ebit < 2 ^ 31 -> sbit / 32 = ebit / 32 -> sbit / 32 < n -> var_ok n (bitrange_new sbit ebit).
Proof.
  intros Hs He Hw Hn. unfold bitrange_new. rewrite Z.quot_div_nonneg by lia.
  pose proof (Z.div_mod sbit 32 ltac:(lia)). pose proof (Z.mod_pos_bound sbit 32 ltac:(lia)).
  pose proof (Z.div_mod ebit 32 ltac:(lia)). pose proof (Z.mod_pos_bound ebit 32 ltac:(lia)).
  assert (0 <= sbit / 32) by (apply Z.div_pos; lia).
  rewrite !(i32_small (sbit / 32 * 32)), !(i32_small (sbit - sbit / 32 * 32)), !(i32_small (ebit - sbit / 32 * 32)) by lia.
  rewrite !(i32_small (32 - (ebit - sbit / 32 * 32))), !(i32_small (32 - (ebit - sbit / 32 * 32) - 1)) by lia.
  rewrite (i32_small (sbit - sbit / 32 * 32 + (32 - (ebit - sbit / 32 * 32) - 1))) by lia.
  constructor; simpl; [lia|lia|lia|]. unfold shr32. rewrite u32_small by lia. rewrite Z.mod_small by lia.
  apply Z.bits_inj_iff'. intros i Hi. change (2 ^ 32 - 1) with (Z.ones 32). rewrite Z.shiftr_spec by lia. rewrite !Z.testbit_ones_nonneg by lia.
  apply eq_true_iff_eq. rewrite !Z.ltb_lt. lia.
Qed.

(** The value of a variable in an array. *)
Definition field (r : ContextBitRange) (v : list Z) : Z :=
  Z.land (Z.shiftr (nth (Z.to_nat (word r)) v 0) (shift r)) (range_mask r).

Definition with_field (r : ContextBitRange) (val : Z) (v : list Z) : list Z :=
  <[Z.to_nat (word r) := Z.lor (Z.land (nth (Z.to_nat (word r)) v 0) (not32 (shifted_mask r)))
                                (shl32 (Z.land val (range_mask r)) (u32 (shift r)))]> v.

Section Fields.
Context (n : Z) (r : ContextBitRange) (Hr : var_ok n r).

Lemma get_field v : length v = Z.to_nat n -> bitrange_get_value r v = Ok (field r v).
Proof.
  intros Hl. destruct Hr as [Hw Hb Hs Hm]. unfold bitrange_get_value. rewrite (slot_get_ok (Z.to_nat n)) by lia. ostep.
  unfold field, shr32. rewrite u32_small, Z.mod_small by lia. done.
Qed.

Lemma set_field v val : length v = Z.to_nat n -> bitrange_set_value r v val = Ok (with_field r val v) /\ length (with_field r val v) = Z.to_nat n.
Proof.
  intros Hl. destruct Hr as [Hw Hb Hs Hm]. unfold bitrange_set_value. rewrite (slot_get_ok (Z.to_nat n)) by lia. ostep.
  rewrite (slot_set_ok (Z.to_nat n)) by lia. split; [done|]. unfold with_field. by rewrite length_insert.
Qed.

(** The bits of a variable within its word. *)
Definition owns (i : Z) : Prop := 31 - endbit r <= i <= 31 - startbit r.

Lemma own_mask_bit i : 0 <= i -> Z.testbit (shifted_mask r) i = bool_decide (owns i).
Proof.
  intros Hi. destruct Hr as [Hw Hb Hs Hm]. unfold shifted_mask, shl32. rewrite (u32_small (shift r)), Z.mod_small by lia.
  rewrite testbit_uw, Z.shiftl_spec by lia. rewrite Hm. apply eq_true_iff_eq. rewrite andb_true_iff, bool_decide_eq_true, Z.ltb_lt. unfold owns.
  destruct (Z.lt_ge_cases (i - shift r) 0); [rewrite Z.testbit_neg_r by lia; split; [by intros []|lia]|].
  rewrite Z.testbit_ones_nonneg, Z.ltb_lt by lia. lia.
Qed.

Lemma value_bit val i : 0 <= i -> Z.testbit (shl32 (Z.land val (range_mask r)) (u32 (shift r))) i = bool_decide (owns i) && Z.testbit val (i - shift r).
Proof.
  intros Hi. rewrite <- own_mask_bit by done. destruct Hr as [Hw Hb Hs Hm]. unfold shifted_mask, shl32. rewrite (u32_small (shift r)), Z.mod_small by lia.
  rewrite !testbit_uw, !Z.shiftl_spec, Z.land_spec by lia. destruct (i <? 32), (Z.testbit (range_mask r) (i - shift r)); by rewrite ?andb_true_r, ?andb_false_r.
Qed.

Lemma word_bit v val i : 0 <= i < 32 -> length v = Z.to_nat n ->
  Z.testbit (nth (Z.to_nat (word r)) (with_field r val v) 0) i =
  if decide (owns i) then Z.testbit val (i - shift r) else Z.testbit (nth (Z.to_nat (word r)) v 0) i.
Proof.
  intros Hi Hl. unfold with_field. erewrite nth_lookup_Some by (apply list_lookup_insert_eq; destruct Hr; lia).
  rewrite Z.lor_spec, Z.land_spec, value_bit by lia. unfold not32. rewrite testbit_uw, Z.lnot_spec, own_mask_bit by lia.
  rewrite (proj2 (Z.ltb_lt i 32)) by lia. destruct (decide (owns i)) as [Ho|Ho].
  - rewrite !bool_decide_eq_true_2 by done. simpl. by rewrite andb_false_r.
  - rewrite !bool_decide_eq_false_2 by done. simpl. by rewrite andb_true_r, orb_false_r.
Qed.
End Fields.

Lemma field_bit n r v i : var_ok n r -> 0 <= i ->
  Z.testbit (field r v) i = (i <=? endbit r - startbit r) && Z.testbit (nth (Z.to_nat (word r)) v 0) (i + shift r).
Proof.
  intros [Hw Hb Hs Hm] Hi. unfold field. rewrite Z.land_spec, Z.shiftr_spec, Hm, Z.testbit_ones_nonneg by lia.
  rewrite andb_comm. f_equal. apply eq_true_iff_eq. rewrite Z.ltb_lt, Z.leb_le. lia.
Qed.

Lemma field_same n r v val : var_ok n r -> length v = Z.to_nat n -> field r (with_field r val v) = Z.land val (range_mask r).
Proof.
  intros Hr Hl. apply Z.bits_inj_iff'. intros i Hi. rewrite (field_bit n), Z.land_spec by done. pose proof Hr as [Hw Hb Hs Hm].
  rewrite Hm, Z.testbit_ones_nonneg by lia. destruct (Z.leb_spec i (endbit r - startbit r)); simpl.
  - rewrite (word_bit n) by (done || lia). rewrite decide_True by (unfold owns; lia). rewrite (proj2 (Z.ltb_lt _ _)) by lia.
    rewrite andb_true_r. f_equal. lia.
  - rewrite (proj2 (Z.ltb_ge _ _)) by lia. by rewrite andb_false_r.
Qed.

(** Two variables that share no bit. *)
Definition apart (r r' : ContextBitRange) : Prop := word r = word r' -> endbit r < startbit r' \/ endbit r' < startbit r.

Lemma field_other n r r' v val : var_ok n r -> var_ok n r' -> apart r r' -> length v = Z.to_nat n -> field r' (with_field r val v) = field r' v.
Proof.
  intros Hr Hr' Hap Hl. apply Z.bits_inj_iff'. intros i Hi. rewrite !(field_bit n) by done.
  pose proof Hr as [Hw Hb Hs Hm]. pose proof Hr' as [Hw' Hb' Hs' Hm']. destruct (Z.leb_spec i (endbit r' - startbit r')); [|done]. simpl.
  destruct (decide (word r = word r')) as [E|Hne].
  - rewrite <- E, (word_bit n) by (done || lia). rewrite decide_False; [done|]. unfold owns. specialize (Hap E). lia.
  - unfold with_field. rewrite !nth_lookup, list_lookup_insert_ne by lia. done.
Qed.

Definition vars_ok (c : ContextInternal) : Prop := forall nm r, variables c !! nm = Some r -> var_ok (ctx_size c) r.

(** The value of a registered variable at an address. *)
Lemma variable_value c nm r x : ctx_ok c -> vars_ok c -> variables c !! nm = Some r ->
  get_variable_value c nm x = Ok (field r (context_at c (ordering_key x))).
Proof.
  intros [_ Hc] Hv Hnm. unfold get_variable_value, get_variable. rewrite Hnm. ostep. apply (get_field (ctx_size c)); [by eapply Hv|].
  by apply (value_good _ _ (ordering_key x)) in Hc as [? _].
Qed.

Lemma context_length c x : ctx_ok c -> length (context_at c x) = Z.to_nat (ctx_size c).
Proof. intros [_ Hc]. by apply (value_good _ _ x) in Hc as [? _]. Qed.

Lemma field_applies c r val : vars_ok c -> var_ok (ctx_size c) r ->
  applies (word r) (fun context => bitrange_set_value r context val) (with_field r val) c.
Proof. intros Hv Hr. split; [apply Hr|]. intros v Hl. by apply (set_field (ctx_size c)). Qed.

(** C12: setting a variable at an address gives it the value, cut to its bits,
    from there up to the next address where its bits were set before, leaves it
    alone everywhere else, and changes no variable that shares no bit with it
    anywhere; the address is then one where the bits were set. *)
Theorem set_variable_correct c nm r addr val : ctx_ok c -> vars_ok c -> variables c !! nm = Some r ->
  exists c', set_variable c nm addr val = Ok c' /\ ctx_ok c' /\ same_frame c c' /\
  (forall x, (context_reaches (word r) (shifted_mask r) c (ordering_key addr) (ordering_key x) ->
      get_variable_value c' nm x = Ok (Z.land val (range_mask r))) /\
    (~ context_reaches (word r) (shifted_mask r) c (ordering_key addr) (ordering_key x) ->
      get_context c' x = get_context c x)) /\
  (forall nm' r' x, variables c !! nm' = Some r' -> apart r r' -> get_variable_value c' nm' x = get_variable_value c nm' x) /\
  exists e, entry (ctx_database c') (ordering_key addr) = Some e /\ Z.land (bits_set (word r) e) (shifted_mask r) = shifted_mask r.
Proof.
  intros Hc Hv Hnm. pose proof (Hv nm r Hnm) as Hr. unfold set_variable, get_variable. rewrite Hnm. ostep.
  destruct (region_to_change_ok (word r) (shifted_mask r) _ _ c addr Hc (field_applies c r val Hv Hr)) as (c' & E & Hc' & Hf & _ & Hx & Hpoint).
  assert (vars_ok c') as Hv' by (destruct Hf as (Es & Ev & _); intros n0 r0; rewrite Es, Ev; apply Hv).
  pose proof Hf as (_ & Ev & _). exists c'. split; [exact E|]. split; [done|]. split; [done|]. split; [|split; [|done]].
  - intros x. destruct (Hx (ordering_key x)) as [Hyes Hno]. split; [|exact Hno]. intros Hre.
    rewrite (variable_value c' nm r) by (done || by rewrite Ev). rewrite Hyes by done. f_equal.
    apply (field_same (ctx_size c)); [done|by apply context_length].
  - intros nm' r' x Hnm' Hap. pose proof (Hv nm' r' Hnm') as Hr'.
    rewrite (variable_value c' nm' r'), (variable_value c nm' r') by (done || by rewrite Ev). f_equal.
    assert (forall v, length v = Z.to_nat (ctx_size c) -> field r' (with_field r val v) = field r' v) as Hsame by (intros; by apply (field_other (ctx_size c))).
    destruct (Hx (ordering_key x)) as [Hyes Hno].
    destruct (decide (context_at c' (ordering_key x) = context_at c (ordering_key x))) as [->|Hd]; [done|].
    assert (~ ~ context_reaches (word r) (shifted_mask r) c (ordering_key addr) (ordering_key x)) as Hnn by (intros Hn; by apply Hd, Hno).
    destruct (decide (field r' (context_at c' (ordering_key x)) = field r' (context_at c (ordering_key x)))) as [|Hbad]; [done|].
    destruct Hnn. intros Hre. apply Hbad. rewrite Hyes by done. by apply Hsame, context_length.
Qed.

(** Setting a variable over a region gives it the value, cut to its bits, at
    exactly the addresses from the first up to the last, which is excluded, or
    without end when the last is the invalid address, and changes no variable
    that shares no bit with it. *)
Theorem set_variable_region_correct c nm r addr1 addr2 val : ctx_ok c -> vars_ok c -> variables c !! nm = Some r ->
  is_invalid addr2 = true /\ addr_eq addr1 addr2 = false \/ klt (ordering_key addr1) (ordering_key addr2) /\ is_invalid addr2 = false ->
  exists c', set_variable_region c nm addr1 addr2 val = Ok c' /\ ctx_ok c' /\ same_frame c c' /\
  (forall x, get_variable_value c' nm x =
    if decide (kle (ordering_key addr1) (ordering_key x) /\ (is_invalid addr2 = false -> klt (ordering_key x) (ordering_key addr2)))
    then Ok (Z.land val (range_mask r)) else get_variable_value c nm x) /\
  (forall nm' r' x, variables c !! nm' = Some r' -> apart r r' -> get_variable_value c' nm' x = get_variable_value c nm' x).
Proof.
  intros Hc Hv Hnm Hends. pose proof (Hv nm r Hnm) as Hr. unfold set_variable_region, get_variable. rewrite Hnm. ostep.
  assert (addr_eq addr1 addr2 = false) as Hne.
  { destruct Hends as [[_ ?]|[Hlt Hinv]]; [done|]. apply not_true_iff_false. unfold addr_eq, same_base. intros [Hs%bool_decide_eq_true Ho%Z.eqb_eq]%andb_true_iff.
    apply (klt_irrefl (ordering_key addr1)). unfold ordering_key in Hlt |- *. rewrite <- Ho in Hlt. unfold base_index in Hs.
    destruct (space addr1), (space addr2); simpl in *; try discriminate; [injection Hs as Hs; by rewrite <- Hs in Hlt|done]. }
  destruct (region_for_set_ok (word r) (shifted_mask r) _ _ c addr1 addr2 Hc (field_applies c r val Hv Hr) Hne) as (c' & E & Hc' & Hf & _ & Hx).
  assert (vars_ok c') as Hv' by (destruct Hf as (Es & Ev & _); intros n0 r0; rewrite Es, Ev; apply Hv).
  pose proof Hf as (_ & Ev & _). exists c'. split; [exact E|]. split; [done|]. split; [done|]. split.
  - intros x. rewrite (variable_value c' nm r), (variable_value c nm r), Hx by (done || by rewrite Ev).
    match goal with |- Ok (field r (if decide ?P then _ else _)) = if decide ?Q then _ else _ => assert (P <-> Q) as HPQ end.
    { destruct Hends as [[-> _]|[Hlt Hinv]]; simpl; [naive_solver|]. rewrite Hinv, (proj2 (kltb_spec _ _) Hlt). simpl.
      rewrite negb_true_iff, <- not_true_iff_false, kleb_spec. setoid_rewrite <- not_kle. naive_solver. }
    destruct (decide _) as [Hp|Hp], (decide _) as [Hq|Hq]; try tauto. f_equal. apply (field_same (ctx_size c)); [done|by apply context_length].
  - intros nm' r' x Hnm' Hap. pose proof (Hv nm' r' Hnm') as Hr'.
    rewrite (variable_value c' nm' r'), (variable_value c nm' r'), Hx by (done || by rewrite Ev). f_equal.
    destruct (decide _); [|done]. by apply (field_other (ctx_size c)), context_length.
Qed.

(** ** Registration *)

Lemma reset_good n d sz : good n d -> Z.of_nat n < sz -> exists d', fa_reset d sz = Ok d' /\ good (Z.to_nat sz) d'.
Proof.
  intros [Ha Hm] Hsz. unfold fa_reset. rewrite Z.max_l by lia. rewrite Ha, Nat.min_r by lia. rewrite decide_True by lia.
  eexists. split; [done|]. split; simpl; rewrite length_app, length_take, length_replicate; lia.
Qed.

(** Registering a variable whose bits lie in one word, before anything is set,
    makes room for it; a variable over two words and a late registration are
    errors. *)
Lemma register_variable_ok c nm sbit ebit : ctx_ok c -> vars_ok c -> 0 <= sbit <= ebit -> ebit < 2 ^ 31 - 32 ->
  (empty (ctx_database c) = true -> sbit / 32 = ebit / 32 ->
    exists c', register_variable c nm sbit ebit = Ok c' /\ ctx_ok c' /\ vars_ok c' /\ empty (ctx_database c') = true /\
      variables c' = <[nm := bitrange_new sbit ebit]> (variables c)) /\
  (empty (ctx_database c) = false \/ sbit / 32 <> ebit / 32 -> exists msg, register_variable c nm sbit ebit = Err (Lowlevel msg)).
Proof.
  intros [Hsz Hc] Hv Hbits Hbig. unfold register_variable. rewrite !Z.quot_div_nonneg by lia.
  assert (0 <= sbit / 32 <= ebit / 32) as Hdiv by (split; [apply Z.div_pos; lia|apply Z.div_le_mono; lia]).
  assert (ebit / 32 < 2 ^ 31 - 1) as Hdiv2 by (pose proof (Z.div_mod ebit 32 ltac:(lia)); pose proof (Z.mod_pos_bound ebit 32 ltac:(lia)); lia).
  rewrite !i32_small by lia. destruct (empty (ctx_database c)) eqn:Ee; simpl; [|split; [done|intros _; by eexists]].
  destruct (Z.eqb_spec (ebit / 32 + 1) (sbit / 32 + 1)) as [Ew|Hw]; simpl; [|split; [intros _ ?; lia|intros _; by eexists]].
  split; [|intros [?|?]; [done|lia]]. intros _ _.
  assert (database (ctx_database c) = []) as Edb by (unfold empty in Ee; by destruct (database (ctx_database c))).
  destruct (Z.ltb_spec (ctx_size c) (sbit / 32 + 1)) as [Hgrow|Hfits].
  - destruct (reset_good (Z.to_nat (ctx_size c)) (defaultvalue (ctx_database c)) (sbit / 32 + 1) (ao_default _ _ Hc) ltac:(lia)) as (d & -> & Hd).
    ostep. eexists. split; [done|]. split; [|split; [|by rewrite Edb]].
    + split; simpl; [lia|]. constructor; simpl; [apply Hc|done|]. intros j e. unfold entry. simpl. by rewrite Edb.
    + intros nm' r. simpl. rewrite lookup_insert_Some. intros [[-> <-]|[_ Hr]]; [apply bitrange_new_ok; lia|].
      destruct (Hv nm' r Hr). constructor; try done. lia.
  - ostep. eexists. split; [done|]. split; [by split|]. split; [|by unfold empty; simpl; rewrite Edb].
    intros nm' r. simpl. rewrite lookup_insert_Some. intros [[-> <-]|[_ Hr]]; [apply bitrange_new_ok; lia|by apply (Hv nm')].
Qed.

Lemma context_new_ok : ctx_ok context_new /\ vars_ok context_new.
Proof.
  split; [|by intros nm r]. split; [done|]. constructor; [constructor|done|done].
Qed.

(** ** Witnesses *)

Definition sample_range : ContextBitRange := bitrange_new 4 7.

Definition sample_context : ContextInternal :=
  mk_ContextInternal 1 {[ "mode" := sample_range ]} (mk_PartMap [] (mk_FreeArray [0] [0])) (partmap_new []).

Lemma sample_context_ok : ctx_ok sample_context /\ vars_ok sample_context.
Proof.
  split; [split; [done|constructor; [constructor|done|done]]|].
  intros nm r. change (variables sample_context) with ({["mode" := sample_range]} : gmap string ContextBitRange).
  intros [_ <-]%lookup_singleton_Some. by apply bitrange_new_ok.
Qed.

Lemma set_variable_correct_witness : exists c', set_variable sample_context "mode" (address_new ram32 64) 9 = Ok c' /\ ctx_ok c'.
Proof.
  destruct (set_variable_correct sample_context "mode" sample_range (address_new ram32 64) 9 (proj1 sample_context_ok) (proj2 sample_context_ok) eq_refl)
    as (c' & E & Hc & _). by exists c'.
Defined.

Lemma set_variable_region_correct_witness : exists c',
  set_variable_region sample_context "mode" (address_new ram32 64) (address_new ram32 128) 9 = Ok c' /\ ctx_ok c'.
Proof.
  destruct (set_variable_region_correct sample_context "mode" sample_range (address_new ram32 64) (address_new ram32 128) 9
    (proj1 sample_context_ok) (proj2 sample_context_ok) eq_refl) as (c' & E & Hc & _); [by right|]. by exists c'.
Defined.
