(* ===== verification/ContextCoherence.v ===== *)
(** The cache in front of the context database: within one space, every read
    through it is a read of the database, whatever was set in between. *)
From stdpp Require Import base list numbers gmap strings sorting.
From Stdlib Require Import ZArith Lia.
From S2P Require Import Prelude Bits Multiprecision BTree Space Address Join PartMap GlobalContext ContextValues.
Local Open Scope Z_scope.
Local Open Scope rust_scope.

Section Cache.
Context (spc : AddrSpace) (Hindex : 0 <= space_index spc).
Implicit Types (c : ContextInternal) (h : ContextCache).

Local Abbreviation at_off := (address_new spc).
Local Abbreviation key_of := (mk_AddressKey (space_index spc)).

(** Every point that was set is in the space. *)
Definition one_space c : Prop := forall j, has_key c j -> key_space j = space_index spc /\ 0 <= key_offset j < 2 ^ 64.

(** The key a window holds governs every offset in it. *)
Record window_ok c (w : CacheWindow) : Prop := {
  wi_space : w_space w = space_index spc;
  wi_key : w_key w = Some (key_of (w_first w)) \/ (w_key w = None /\ w_first w = 0);
  wi_cell o : 0 <= o -> w_first w <= o <= w_last w -> last_at_or_before (ctx_database c) (key_of o) = w_key w
}.

Definition cache_ok c h : Prop := forall w, window h = Some w -> window_ok c w /\ c_first h = w_first w /\ c_last h = w_last w.

Lemma key_kle o o' : kle (key_of o) (key_of o') <-> o <= o'.
Proof.
  unfold kle. cbn. unfold address_key_cmp. cbn [key_space key_offset]. rewrite Z.compare_refl. simpl. rewrite Z.compare_gt_iff. lia.
Qed.

Lemma key_klt o o' : klt (key_of o) (key_of o') <-> o < o'.
Proof. unfold klt. cbn. unfold address_key_cmp. cbn [key_space key_offset]. rewrite Z.compare_refl. simpl. by rewrite Z.compare_lt_iff. Qed.

Lemma key_in_space c j : one_space c -> has_key c j -> exists o, j = key_of o /\ 0 <= o < 2 ^ 64.
Proof. intros Ho Hj. destruct (Ho j Hj) as [Es Hoff]. exists (key_offset j). destruct j. simpl in *. by subst. Qed.

Lemma by_key_value c x : ctx_ok c -> get_context_by_key c (last_at_or_before (ctx_database c) x) = context_at c x.
Proof.
  intros [_ Hc]. unfold get_context_by_key, context_at, get_by_key. f_equal. destruct (last_at_or_before (ctx_database c) x) as [j|] eqn:E.
  - destruct (last_at_or_before_Some _ x j (ao_wf _ _ Hc) E) as (v & _ & -> & _ & ->). done.
  - unfold last_at_or_before in E. unfold get_value. by destruct (before_incl fst x (database (ctx_database c))).
Qed.

(** The cell of the partition that an offset lies in. *)
Section Cell.
Context (m : PartMap AddressKey FreeArray) (Hs : pm_wf m) (o : Z).
Context (Hkeys : forall j, is_Some (entry m j) -> exists o, j = key_of o /\ 0 <= o < 2 ^ 64).

(** No key between [o] and [o']. *)
Definition no_key_to (o' : Z) : Prop := forall o2, is_Some (entry m (key_of o2)) -> o < o2 -> o' < o2.

Lemma next_key af : fst <$> after_excl fst (key_of o) (database m) = Some af ->
  exists oa, af = key_of oa /\ o < oa < 2 ^ 64 /\ forall o', o' < oa -> no_key_to o'.
Proof.
  destruct (after_excl fst (key_of o) (database m)) as [[af' v]|] eqn:E; [|done]. intros [= ->].
  apply after_excl_Some in E as (Hin & Hlt & Hmin); [|done]. destruct (Hkeys af) as (oa & -> & Hoa); [exists v; by apply entry_Some|].
  simpl in Hlt. rewrite key_klt in Hlt. exists oa. split; [done|]. split; [lia|]. intros o' Ho' o2 [v2 Hv2%entry_Some] Hlt2; [|done].
  assert (oa <= o2); [|lia]. apply key_kle. apply (Hmin (key_of o2, v2)); [done|]. by apply key_klt.
Qed.

Lemma no_next_key o' : fst <$> after_excl fst (key_of o) (database m) = None -> no_key_to o'.
Proof.
  intros E%fmap_None o2 [v2 Hv2%entry_Some] Hlt; [|done]. exfalso.
  pose proof (proj1 (after_excl_None fst (key_of o) (database m)) E (key_of o2, v2) Hv2) as Hle. apply key_kle in Hle. lia.
Qed.

Lemma cell_before bk v o' : before_incl fst (key_of o) (database m) = Some (bk, v) -> no_key_to o' ->
  exists ob, bk = key_of ob /\ ob <= o /\ (ob <= o' -> last_at_or_before m (key_of o') = Some bk).
Proof.
  intros Eb Hnext. apply before_incl_Some in Eb as (Hin & Hle & Hmax); [|done].
  destruct (Hkeys bk) as (ob & -> & Hob); [exists v; by apply entry_Some|]. simpl in Hle. rewrite key_kle in Hle.
  exists ob. split; [done|]. split; [done|]. intros Hbo. apply governing_key; [done|]. split; [exists v; by apply entry_Some|]. split; [by apply key_kle|].
  intros [j v2] Hj Hjo. simpl in *. destruct (Hkeys j) as (o2 & -> & Ho2); [exists v2; by apply entry_Some|]. rewrite key_kle in Hjo.
  destruct (Z.lt_ge_cases o o2) as [Hlt|Hge]; [specialize (Hnext o2 ltac:(exists v2; by apply entry_Some) Hlt); lia|].
  apply (Hmax (key_of o2, v2)); [done|]. by apply key_kle.
Qed.

Lemma cell_none o' : before_incl fst (key_of o) (database m) = None -> no_key_to o' -> last_at_or_before m (key_of o') = None.
Proof.
  intros Eb Hnext. apply no_governing_key; [done|]. intros j [v2 Hv2]. destruct (Hkeys j) as (o2 & -> & Ho2); [by exists v2|].
  apply key_klt. apply Hnext; [by exists v2|]. apply key_klt.
  apply (proj1 (before_incl_None fst (key_of o) (database m)) Eb (key_of o2, v2)). by apply entry_Some.
Qed.
End Cell.

(** What a miss puts into the window. *)
Lemma bounds_window c o : ctx_ok c -> one_space c -> 0 <= o < 2 ^ 64 -> let b := get_context_bounds c (at_off o) in
  window_ok c (mk_CacheWindow (space_index spc) (cb_first b) (cb_last b) (cb_key b)) /\
  cb_key b = last_at_or_before (ctx_database c) (key_of o).
Proof.
  intros [Hsz Hc] Hone Hoff b. pose proof (ao_wf _ _ Hc) as Hs. set (m := ctx_database c) in *.
  assert (forall j, is_Some (entry m j) -> exists o, j = key_of o /\ 0 <= o < 2 ^ 64) as Hkeys by (intros j Hj; by apply (key_in_space c)).
  unfold b, get_context_bounds. cbn [base_index]. change (ordering_key (at_off o)) with (key_of o). fold m.
  assert (forall o', key_index (key_of o') = Some (space_index spc)) as Hki
    by (intros o'; unfold key_index; simpl; destruct (Z.eqb_spec (space_index spc) (-1)); [lia|done]).
  unfold bounds. destruct (database m) as [|e0 db] eqn:Edb.
  { cbn. assert (forall x, last_at_or_before m x = None) as Hnone by (intros x; unfold last_at_or_before; by rewrite Edb).
    split; [|by rewrite Hnone]. constructor; simpl; [done|by right|]. intros o' _ _. by rewrite Hnone. }
  rewrite <- Edb. clear e0 db Edb.
  destruct (before_incl fst (key_of o) (database m)) as [[bk v]|] eqn:Eb.
  - assert (last_at_or_before m (key_of o) = Some bk) as El by (unfold last_at_or_before; by rewrite Eb).
    destruct (cell_before m Hs o Hkeys bk v o Eb) as (ob & -> & Hob & _); [by intros o2 _|].
    assert (forall o', ob <= o' -> no_key_to m o o' -> last_at_or_before m (key_of o') = Some (key_of ob)) as Hcell.
    { intros o' Hbo Hn. destruct (cell_before m Hs o Hkeys (key_of ob) v o' Eb Hn) as (ob' & [= <-] & _ & Hl). by apply Hl. }
    destruct (fst <$> after_excl fst (key_of o) (database m)) as [af|] eqn:Eaf; simpl.
    + destruct (next_key m Hs o Hkeys af Eaf) as (oa & -> & Hoa & Hn). rewrite !Hki, !bool_decide_eq_true_2 by done. simpl. rewrite u64_small by lia.
      split; [|by rewrite El]. constructor; simpl; [done|by left|]. intros o' _ Ho'. apply Hcell; [lia|]. apply Hn. lia.
    + rewrite Hki, bool_decide_eq_true_2 by done. simpl.
      split; [|by rewrite El]. constructor; simpl; [done|by left|]. intros o' _ Ho'. apply Hcell; [lia|]. by apply no_next_key.
  - assert (last_at_or_before m (key_of o) = None) as El by (unfold last_at_or_before; by rewrite Eb).
    destruct (fst <$> after_excl fst (key_of o) (database m)) as [af|] eqn:Eaf; simpl.
    + destruct (next_key m Hs o Hkeys af Eaf) as (oa & -> & Hoa & Hn). rewrite !Hki, !bool_decide_eq_true_2 by done. simpl. rewrite u64_small by lia.
      split; [|by rewrite El]. constructor; simpl; [done|by right|]. intros o' _ Ho'. apply cell_none with o; [done..|]. apply Hn. lia.
    + split; [|by rewrite El]. constructor; simpl; [done|by right|]. intros o' _ Ho'. apply cell_none with o; [done..|]. by apply no_next_key.
Qed.

(** A window survives new keys outside it. *)
Lemma window_keep c c' w : ctx_ok c -> ctx_ok c' -> window_ok c w ->
  (forall j, has_key c' j -> has_key c j \/ exists o, j = key_of o /\ 0 <= o /\ ~ w_first w <= o <= w_last w) ->
  (forall j, has_key c j -> has_key c' j) -> window_ok c' w.
Proof.
  intros [_ Hc] [_ Hc'] [Hsp Hkey Hcell] Hnew Hold. pose proof (ao_wf _ _ Hc) as Hs. pose proof (ao_wf _ _ Hc') as Hs'.
  constructor; [done|done|]. intros o Ho Hin. specialize (Hcell o Ho Hin). destruct Hkey as [Ek|[Ek E0]]; rewrite Ek in Hcell |- *.
  - apply governing_key in Hcell as [Hk [Hle Hmax]]; [|done]. apply governing_key; [done|]. split; [by apply Hold|]. split; [done|].
    intros [j v] Hj Hjo. simpl in *. destruct (Hnew j) as [[v' Hv']|(o2 & -> & Ho2 & Hout)]; [exists v; by apply entry_Some| |].
    + apply (Hmax (j, v')); [by apply entry_Some|done].
    + apply key_kle. rewrite key_kle in Hjo. lia.
  - apply no_governing_key; [done|]. intros j Hj. destruct (Hnew j Hj) as [Hj'|(o2 & -> & Ho2 & Hout)].
    + by apply (proj1 (no_governing_key _ _ Hs) Hcell).
    + apply key_klt. lia.
Qed.

(** *** Reads and writes through the cache *)

Inductive cache_op : Type :=
  | CacheGet (o : Z) | CacheSet (o num mask value : Z) | CacheRegion (o1 : Z) (o2 : option Z) (num mask value : Z) | CacheAllow (val : bool).

Definition end_addr (o2 : option Z) : Address := match o2 with Some o => at_off o | None => invalid end.

Definition op_ok (n : Z) (op : cache_op) : Prop :=
  match op with
  | CacheGet o => 0 <= o < 2 ^ 64
  | CacheSet o num _ _ => 0 <= o < 2 ^ 64 /\ 0 <= num < n
  | CacheRegion o1 o2 num _ _ => 0 <= o1 < 2 ^ 64 /\ 0 <= num < n /\ (forall o, o2 = Some o -> 0 <= o < 2 ^ 64)
  | CacheAllow _ => True
  end.

Definition cached_step (st : ContextCache * ContextInternal) (op : cache_op) : outcome (ContextCache * ContextInternal * option (list Z)) :=
  let (h, c) := st in
  match op with
  | CacheGet o => let! (h, buf) := cache_get_context h c (at_off o) (replicate (Z.to_nat (ctx_size c)) 0) in Ok (h, c, Some buf)
  | CacheSet o num mask value => let! (h, c) := cache_set_context h c (at_off o) num mask value in Ok (h, c, None)
  | CacheRegion o1 o2 num mask value => let! (h, c) := cache_set_region h c (at_off o1) (end_addr o2) num mask value in Ok (h, c, None)
  | CacheAllow val => Ok (allow_set h val, c, None)
  end.

(** The same calls on the database alone. *)
Definition direct_step (st : bool * ContextInternal) (op : cache_op) : outcome (bool * ContextInternal * option (list Z)) :=
  let (allow, c) := st in
  match op with
  | CacheGet o => Ok (allow, c, Some (get_context c (at_off o)))
  | CacheSet o num mask value =>
      let! c := if allow then set_context_change_point c (at_off o) num mask value else Ok c in Ok (allow, c, None)
  | CacheRegion o1 o2 num mask value =>
      let! c := if allow then set_context_region c (at_off o1) (end_addr o2) num mask value else Ok c in Ok (allow, c, None)
  | CacheAllow val => Ok (val, c, None)
  end.

(** The answers of a sequence of calls. *)
Fixpoint answers {St} (step : St -> cache_op -> outcome (St * option (list Z))) (st : St) (ops : list cache_op) : outcome (list (list Z)) :=
  match ops with
  | [] => Ok []
  | op :: ops =>
      let! (st, a) := step st op in
      let! rest := answers step st ops in
      Ok (match a with Some v => v :: rest | None => rest end)
  end.

Lemma put_bits_applies c num mask value : 0 <= num < ctx_size c ->
  applies num (put_bits num mask value) (fun v => <[Z.to_nat num := Z.lor (Z.land (nth (Z.to_nat num) v 0) (not32 mask)) value]> v) c.
Proof.
  intros Hn. split; [done|]. intros v Hl. unfold put_bits. rewrite (slot_get_ok (Z.to_nat (ctx_size c))) by lia. ostep.
  rewrite (slot_set_ok (Z.to_nat (ctx_size c))) by lia. by rewrite length_insert.
Qed.

Lemma one_space_grow c c' : one_space c -> (forall j, has_key c' j -> has_key c j \/ exists o, j = key_of o /\ 0 <= o < 2 ^ 64) -> one_space c'.
Proof. intros Ho Hk j [Hj|(o & -> & Hoff)]%Hk; [by apply Ho|done]. Qed.

Lemma cache_get_ok h c o : ctx_ok c -> one_space c -> cache_ok c h -> 0 <= o < 2 ^ 64 ->
  exists h', cache_get_context h c (at_off o) (replicate (Z.to_nat (ctx_size c)) 0) = Ok (h', get_context c (at_off o)) /\
  cache_ok c h' /\ allowset h' = allowset h.
Proof.
  intros Hc Hone Hh Ho. assert (forall v, length v = Z.to_nat (ctx_size c) -> copy_context c v (replicate (Z.to_nat (ctx_size c)) 0) = Ok v) as Hcopy.
  { intros v Hl. unfold copy_context. destruct Hc as [Hsz _]. rewrite Z.max_l by lia. rewrite length_replicate, decide_True by lia.
    rewrite take_ge, drop_replicate, Nat.sub_diag by lia. simpl. by rewrite app_nil_r. }
  unfold cache_get_context. destruct (cache_hit h (at_off o)) eqn:Ehit; cbn [negb].
  - unfold cache_hit in Ehit. destruct (window h) as [w|] eqn:Ew; [|done]. simpl in Ehit. destruct (Hh w Ew) as ([Hsp Hkey Hcell] & _ & _).
    apply andb_true_iff in Ehit as [[_ H1%Z.leb_le]%andb_true_iff H2%Z.leb_le]. simpl.
    rewrite <- (Hcell o ltac:(lia) ltac:(lia)), by_key_value by done. rewrite Hcopy by (by apply context_length). ostep. by exists h.
  - destruct (bounds_window c o Hc Hone Ho) as [Hw Ek]. replace (get_context_by_key c (cb_key (get_context_bounds c (at_off o)))) with (context_at c (key_of o))
      by (rewrite Ek; symmetry; by apply by_key_value).
    rewrite Hcopy by (by apply context_length). ostep. eexists. split; [done|]. split; [|done]. intros w [= <-]. simpl. by split.
Qed.

Lemma in_window_false h w o : window h = Some w -> w_space w = space_index spc -> c_first h = w_first w -> c_last h = w_last w ->
  in_window h (at_off o) = false -> ~ w_first w <= o <= w_last w.
Proof.
  intros Ew Es E1 E2. unfold in_window. rewrite Ew, E1, E2. simpl. rewrite bool_decide_eq_true_2 by (by rewrite Es). simpl.
  intros Hf [Ha Hb]. rewrite (proj2 (Z.leb_le _ _) Ha), (proj2 (Z.leb_le _ _) Hb) in Hf. done.
Qed.

Lemma cache_set_ok h c o num mask value : ctx_ok c -> one_space c -> cache_ok c h -> 0 <= o < 2 ^ 64 -> 0 <= num < ctx_size c ->
  exists c' h', set_context_change_point c (at_off o) num mask value = Ok c' /\ ctx_ok c' /\ one_space c' /\ ctx_size c' = ctx_size c /\
  cache_ok c' h' /\ allowset h' = allowset h /\ h' = (if in_window h (at_off o) then no_window h else h).
Proof.
  intros Hc Hone Hh Ho Hn.
  destruct (region_to_change_ok num mask _ _ c (at_off o) Hc (put_bits_applies c num mask value Hn)) as (c' & E & Hc' & (Es & _) & Hkeys & _).
  change (ordering_key (at_off o)) with (key_of o) in Hkeys.
  exists c', (if in_window h (at_off o) then no_window h else h). split; [exact E|]. split; [done|]. split.
  { apply (one_space_grow c); [done|]. intros j [Hj| ->]%Hkeys; [by left|right; by exists o]. }
  split; [done|]. destruct (in_window h (at_off o)) eqn:Ei; [by split|]. split; [|done]. intros w Ew. destruct (Hh w Ew) as (Hw & E1 & E2).
  split; [|done]. apply (window_keep c); [done..| |intros j Hj; apply Hkeys; by left].
  intros j [Hj| ->]%Hkeys; [by left|]. right. exists o. split; [done|]. split; [lia|]. eapply in_window_false; try done. apply Hw.
Qed.

Lemma cache_region_ok h c o1 o2 num mask value : ctx_ok c -> one_space c -> cache_ok c h -> 0 <= o1 < 2 ^ 64 ->
  0 <= num < ctx_size c -> (forall o, o2 = Some o -> 0 <= o < 2 ^ 64) -> allowset h = true ->
  exists c' h', set_context_region c (at_off o1) (end_addr o2) num mask value = Ok c' /\ ctx_ok c' /\ one_space c' /\ ctx_size c' = ctx_size c /\
  cache_ok c' h' /\ allowset h' = allowset h /\ cache_set_region h c (at_off o1) (end_addr o2) num mask value = Ok (h', c').
Proof.
  intros Hc Hone Hh Ho1 Hn Ho2 Hallow.
  assert (exists c', set_context_region c (at_off o1) (end_addr o2) num mask value = Ok c' /\ ctx_ok c' /\ ctx_size c' = ctx_size c /\
    forall j, has_key c' j <-> has_key c j \/ j = key_of o1 \/ (exists o, o2 = Some o /\ j = key_of o)) as (c' & E & Hc' & Es & Hkeys).
  { unfold set_context_region. destruct o2 as [o2|]; simpl.
    - destruct (addr_eq (at_off o1) (at_off o2)) eqn:Eq.
      + destruct (region_empty_ok num mask (put_bits num mask value) c (at_off o1) (at_off o2) Hc eq_refl Eq) as (c' & E & Hc' & (Es & _) & Hk & _).
        exists c'. do 3 (split; [done|]). intros j. rewrite Hk. naive_solver.
      + destruct (region_for_set_ok num mask _ _ c (at_off o1) (at_off o2) Hc (put_bits_applies c num mask value Hn) Eq) as (c' & E & Hc' & (Es & _) & Hk & _).
        exists c'. do 3 (split; [done|]). intros j. rewrite Hk. naive_solver.
    - destruct (region_for_set_ok num mask _ _ c (at_off o1) invalid Hc (put_bits_applies c num mask value Hn) eq_refl) as (c' & E & Hc' & (Es & _) & Hk & _).
      exists c'. do 3 (split; [done|]). intros j. rewrite Hk. naive_solver. }
  unfold cache_set_region. rewrite Hallow, E. ostep. simpl negb. cbv iota.
  set (h1 := if in_window h (at_off o1) then no_window h else h).
  set (h2 := if (c_first h1 <=? offset (end_addr o2)) && (offset (end_addr o2) <=? c_last h1) then no_window h1 else h1).
  set (h3 := if (offset (at_off o1) <=? c_first h2) && (c_first h2 <=? offset (end_addr o2)) then no_window h2 else h2).
  exists c', h3. split; [done|]. split; [done|]. split.
  { apply (one_space_grow c); [done|]. intros j [Hj|[->|(o & Eo & ->)]]%Hkeys; [by left|right; by exists o1|right; exists o; by auto]. }
  split; [done|].
  assert (allowset h3 = allowset h) as Ea by (unfold h3, h2, h1; repeat case_match; done).
  split; [|by rewrite Ea]. intros w Ew.
  assert (h3 = h /\ in_window h (at_off o1) = false /\ (c_first h <=? offset (end_addr o2)) && (offset (end_addr o2) <=? c_last h) = false) as (E3 & Ei & E2).
  { unfold h3, h2, h1 in Ew |- *. destruct (in_window h (at_off o1)); [by repeat case_match|].
    destruct ((c_first h <=? offset (end_addr o2)) && (offset (end_addr o2) <=? c_last h)); [by repeat case_match|].
    by destruct ((offset (at_off o1) <=? c_first h) && (c_first h <=? offset (end_addr o2))). }
  rewrite E3 in Ew |- *. destruct (Hh w Ew) as (Hw & Ef & El). split; [|done].
  apply (window_keep c); [done..| |intros j Hj; apply Hkeys; by left].
  intros j [Hj|[->|(o & Eo & ->)]]%Hkeys; [by left| |]; right.
  - exists o1. split; [done|]. split; [lia|]. eapply in_window_false; try done. apply Hw.
  - exists o. split; [done|]. split; [by apply Ho2|]. rewrite Eo, Ef, El in E2. simpl in E2. intros [Ha Hb].
    by rewrite (proj2 (Z.leb_le _ _) Ha), (proj2 (Z.leb_le _ _) Hb) in E2.
Qed.

(** C11: in one space the cache is invisible: any sequence of reads, settings of
    bits at an address or over a region, and switches of the permission to set,
    runs to its end, and every read through the cache is the context of the
    database. *)
Theorem cache_invisible ops : forall h c, ctx_ok c -> one_space c -> cache_ok c h -> Forall (op_ok (ctx_size c)) ops ->
  exists out, answers cached_step (h, c) ops = Ok out /\ answers direct_step (allowset h, c) ops = Ok out.
Proof.
  induction ops as [|op ops IH]; intros h c Hc Hone Hh Hops; [by exists []|]. apply Forall_cons in Hops as [Hop Hops]. simpl.
  destruct op as [o|o num mask value|o1 o2 num mask value|val]; simpl in Hop |- *.
  - destruct (cache_get_ok h c o Hc Hone Hh Hop) as (h' & E & Hh' & Ea). rewrite E. ostep.
    destruct (IH h' c Hc Hone Hh' Hops) as (out & E1 & E2). rewrite E1, <- Ea, E2. by eexists.
  - destruct Hop as [Ho Hn]. unfold cache_set_context. destruct (allowset h) eqn:Ea; simpl.
    + destruct (cache_set_ok h c o num mask value Hc Hone Hh Ho Hn) as (c' & h' & E & Hc' & Hone' & Es & Hh' & Ea' & Eh).
      rewrite E. ostep. rewrite <- Eh. rewrite <- Es in Hops. destruct (IH h' c' Hc' Hone' Hh' Hops) as (out & E1 & E2).
      rewrite Ea', Ea in E2. rewrite E1, E2. by eexists.
    + destruct (IH h c Hc Hone Hh Hops) as (out & E1 & E2). rewrite Ea in E2. rewrite E1, E2. by eexists.
  - destruct Hop as (Ho1 & Hn & Ho2). destruct (allowset h) eqn:Ea.
    + destruct (cache_region_ok h c o1 o2 num mask value Hc Hone Hh Ho1 Hn Ho2 Ea) as (c' & h' & E & Hc' & Hone' & Es & Hh' & Ea' & Er).
      rewrite Er, E. ostep. rewrite <- Es in Hops. destruct (IH h' c' Hc' Hone' Hh' Hops) as (out & E1 & E2).
      rewrite Ea', Ea in E2. rewrite E1, E2. by eexists.
    + unfold cache_set_region. rewrite Ea. simpl. destruct (IH h c Hc Hone Hh Hops) as (out & E1 & E2). rewrite Ea in E2. rewrite E1, E2. by eexists.
  - assert (cache_ok c (allow_set h val)) as Hh' by (intros w Ew; by apply Hh). destruct (IH (allow_set h val) c Hc Hone Hh' Hops) as (out & E1 & E2).
    simpl in E2. rewrite E1, E2. by eexists.
Qed.
End Cache.

Lemma cache_invisible_witness : exists out,
  answers (cached_step ram32) (cache_new, sample_context) [CacheGet 16; CacheSet 64 0 240 32; CacheGet 80; CacheRegion 0 (Some 8) 0 15 3; CacheGet 4] = Ok out /\
  answers (direct_step ram32) (true, sample_context) [CacheGet 16; CacheSet 64 0 240 32; CacheGet 80; CacheRegion 0 (Some 8) 0 15 3; CacheGet 4] = Ok out.
Proof.
  apply (cache_invisible ram32 ltac:(done) [CacheGet 16; CacheSet 64 0 240 32; CacheGet 80; CacheRegion 0 (Some 8) 0 15 3; CacheGet 4] cache_new sample_context).
  - apply sample_context_ok.
  - by intros j [e He].
  - done.
  - repeat (apply Forall_cons_2; [simpl; split_and?; (lia || (intros ? [= <-]; lia))|]). apply Forall_nil_2.
Defined.

(** Across spaces it is not: a key set in a space of a lower index governs the
    addresses after it, but does not close the window that holds them. *)
Definition reg16 : AddrSpace := new_processor "register" false 4 1 2 0 0 0.

Example cache_stale :
  (let! (h, _) := cache_get_context cache_new sample_context (address_new ram32 64) [0] in
   let! (h, c) := cache_set_context h sample_context (address_new reg16 0) 0 240 32 in
   let! (_, buf) := cache_get_context h c (address_new ram32 64) [0] in
   Ok (buf, get_context c (address_new ram32 64))) = Ok ([0], [32]).
Proof. vm_compute. done. Qed.
