(* ===== verification/Float.v ===== *)
(** The encodings of [src/src/float.rs]: the layout of a floating-point format,
    rounding, and the conversion of an encoding to another format, which work on
    integers alone.  The host's [f64], its arithmetic and its decimal printing
    are not modelled. *)
From stdpp Require Import base list numbers.
From Stdlib Require Import ZArith Lia.
From S2P Require Import Prelude Bits.
Local Open Scope Z_scope.

(** ** Definitions *)

Inductive FloatClass : Type := Normalized | Infinity | Zero | Nan | Denormalized.

(** The two decimal precisions, which only printing uses, are left out. *)
Record FloatFormat : Type := mk_FloatFormat {
  float_size : Z;
  signbit_pos : Z;
  frac_pos : Z;
  frac_size : Z;
  exp_pos : Z;
  exp_size : Z;
  bias : Z;
  maxexponent : Z;
  jbitimplied : bool
}.

Definition format_new (sz : Z) : FloatFormat :=
  if sz =? 4 then mk_FloatFormat sz 31 0 23 23 8 127 (i32 (Z.shiftl 1 8) - 1) true
  else if sz =? 8 then mk_FloatFormat sz 63 0 52 52 11 1023 (i32 (Z.shiftl 1 11) - 1) true
  else mk_FloatFormat sz 0 0 0 0 0 0 (i32 (Z.shiftl 1 0) - 1) false.

(** [round_to_nearest_even]: the new significand and whether it was rounded up. *)
Definition round_to_nearest_even (signif lowbitpos : Z) : Z * bool :=
  let lowbitmask := if u32 lowbitpos <? 64 then shl64 1 lowbitpos else 0 in
  let midbitmask := shl64 1 (u32 (i32 (lowbitpos - 1))) in
  let epsmask := u64 (midbitmask - 1) in
  let odd := negb (Z.land signif lowbitmask =? 0) in
  if negb (Z.land signif midbitmask =? 0) && (negb (Z.land signif epsmask =? 0) || odd) then (u64 (signif + midbitmask), true)
  else (signif, false).

Section Format.
Context (self : FloatFormat).

Definition extract_fractional_code (encoding : Z) : Z :=
  shl64 (shr64 encoding (u32 (frac_pos self))) (u32 (i32 (64 - frac_size self))).

Definition extract_sign (encoding : Z) : bool := negb (Z.land (shr64 encoding (u32 (signbit_pos self))) 1 =? 0).

Definition extract_exponent_code (encoding : Z) : Z :=
  let encoding := shr64 encoding (u32 (exp_pos self)) in
  let mask := u64 (shl64 1 (u32 (exp_size self)) - 1) in
  i32 (Z.land encoding mask).

Definition get_exponent (encoding : Z) : Z := i32 (extract_exponent_code encoding - bias self).

Definition set_fractional_code (encoding code : Z) : Z :=
  let code := shr64 code (u32 (i32 (64 - frac_size self))) in
  Z.lor encoding (shl64 code (u32 (frac_pos self))).

Definition set_sign (encoding : Z) (sign : bool) : Z :=
  if negb sign then encoding else Z.lor encoding (shl64 1 (u32 (signbit_pos self))).

Definition set_exponent_code (encoding code : Z) : Z := Z.lor encoding (shl64 code (u32 (exp_pos self))).

Definition get_zero_encoding (sgn : bool) : Z := set_sign (set_exponent_code (set_fractional_code 0 0) 0) sgn.

Definition get_infinity_encoding (sgn : bool) : Z :=
  set_sign (set_exponent_code (set_fractional_code 0 0) (u64 (maxexponent self))) sgn.

Definition get_nan_encoding (sgn : bool) : Z :=
  set_sign (set_exponent_code (set_fractional_code 0 (shl64 1 63)) (u64 (maxexponent self))) sgn.

Definition get_class (encoding : Z) : FloatClass :=
  let exp := extract_exponent_code encoding in
  if exp =? 0 then if extract_fractional_code encoding =? 0 then Zero else Denormalized
  else if exp =? maxexponent self then if extract_fractional_code encoding =? 0 then Infinity else Nan
  else Normalized.

(** The step after a rounding that ran over the top bit. *)
Definition renormalize (rounded : Z * bool) (exp : Z) : Z * Z :=
  let (signif, up) := rounded in
  if up && (shr64 signif 63 =? 0) then (shl64 1 63, i32 (exp + 1)) else (signif, exp).

Definition encode_rounded (sgn : bool) (signif exp : Z) : Z :=
  let exp := i32 (exp + bias self) in
  if exp <? - frac_size self then get_zero_encoding sgn
  else if exp <? 1 then
    let (signif, exp) := renormalize (round_to_nearest_even signif (i32 (i32 (64 - frac_size self) - exp))) exp in
    set_fractional_code (get_zero_encoding sgn) (shr64 signif (u32 (i32 (- exp))))
  else
    let (signif, exp) := renormalize (round_to_nearest_even signif (i32 (i32 (64 - frac_size self) - 1))) exp in
    if maxexponent self <=? exp then get_infinity_encoding sgn
    else
      let signif := if jbitimplied self && negb (exp =? 0) then shl64 signif 1 else signif in
      set_sign (set_exponent_code (set_fractional_code 0 signif) (u64 exp)) sgn.
End Format.

Definition convert_encoding (self : FloatFormat) (encoding : Z) (formin : FloatFormat) : Z :=
  let sgn := extract_sign formin encoding in
  let signif := extract_fractional_code formin encoding in
  let exp := extract_exponent_code formin encoding in
  if exp =? maxexponent formin then
    if negb (signif =? 0) then get_nan_encoding self sgn else get_infinity_encoding self sgn
  else if exp =? 0 then
    if signif =? 0 then get_zero_encoding self sgn
    else
      let lz := count_leading_zeros signif in
      encode_rounded self sgn (shl64 signif lz) (i32 (i32 (- bias formin) - lz))
  else
    let exp := i32 (exp - bias formin) in
    let signif := if jbitimplied self then Z.lor (shl64 1 63) (Z.shiftr signif 1) else signif in
    encode_rounded self sgn signif exp.

(** [op_float2float]. *)
Definition op_float2float (self : FloatFormat) (first : Z) (outformat : FloatFormat) : Z := convert_encoding outformat first self.

(** The largest number below the normal ones of the smaller format is nearer to
    the smallest of those than to any other, but becomes zero. *)
Example rounds_to_zero : convert_encoding (format_new 4) 0x380fffffffffffff (format_new 8) = 0.
Proof. vm_compute. done. Qed.

Example rounds_down_before : convert_encoding (format_new 4) 0x380fffffc0000000 (format_new 8) = 0x007ffffe + 1.
Proof. vm_compute. done. Qed.

Example widen_one : convert_encoding (format_new 8) 0x3f800000 (format_new 4) = 0x3ff0000000000000.
Proof. vm_compute. done. Qed.

Example narrow_third : convert_encoding (format_new 4) 0x3fd5555555555555 (format_new 8) = 0x3eaaaaab.
Proof. vm_compute. done. Qed.

Example widen_tiny : convert_encoding (format_new 8) 1 (format_new 4) = 0x36a0000000000000 /\ convert_encoding (format_new 4) 0x36a0000000000000 (format_new 8) = 1.
Proof. vm_compute. done. Qed.
