(* ===== verification/FloatRound.v ===== *)
(** Rounding into a floating-point format: [encode_rounded] gives the nearest
    encoding, ties to even, and conversion between formats keeps the value. *)
From stdpp Require Import base list numbers.
From Stdlib Require Import ZArith Lia.
From S2P Require Import Prelude Bits Float.
Local Open Scope Z_scope.

(** ** Shifts as arithmetic *)

Lemma shr64_div x n : 0 <= n < 64 -> shr64 x n = x / 2 ^ n.
Proof. intros Hn. unfold shr64. by rewrite Z.mod_small, Z.shiftr_div_pow2 by lia. Qed.

Lemma shl64_mul x n : 0 <= n < 64 -> shl64 x n = u64 (x * 2 ^ n).
Proof. intros Hn. unfold shl64. by rewrite Z.mod_small, Z.shiftl_mul_pow2 by lia. Qed.

Lemma one_shl64 n : 0 <= n < 64 -> shl64 1 n = 2 ^ n.
Proof.
  intros Hn. rewrite shl64_mul, Z.mul_1_l by done. apply u64_small. split; [pose proof (pow2_pos n); lia|]. apply Z.pow_lt_mono_r; lia.
Qed.

Lemma pow_split a b : 0 <= a <= b -> 2 ^ b = 2 ^ a * 2 ^ (b - a).
Proof. intros Hab. rewrite <- Z.pow_add_r by lia. f_equal. lia. Qed.

(** A bit in front of smaller numbers. *)
Lemma lor_high x y k : 0 <= k -> 0 <= y < 2 ^ k -> Z.lor (x * 2 ^ k) y = x * 2 ^ k + y.
Proof. intros Hk Hy. rewrite <- Z.shiftl_mul_pow2 by done. rewrite lor_add by done. by rewrite Z.shiftl_mul_pow2. Qed.

Lemma land_bit_zero x k : 0 <= k -> (Z.land x (2 ^ k) =? 0) = negb (Z.testbit x k).
Proof.
  intros Hk. apply eq_true_iff_eq. rewrite Z.eqb_eq, negb_true_iff. split.
  - intros E. assert (Z.testbit (Z.land x (2 ^ k)) k = false) as Hb by (by rewrite E, Z.bits_0).
    rewrite Z.land_spec, Z.pow2_bits_true, andb_true_r in Hb by done. done.
  - intros Hb. apply Z.bits_inj'. intros i Hi. rewrite Z.land_spec, Z.bits_0, Z.pow2_bits_eqb by done.
    destruct (Z.eqb_spec k i) as [->|]; [by rewrite Hb|by rewrite andb_false_r].
Qed.

(** ** Rounding *)

(** Half to even: [x / 2 ^ k], rounded. *)
Definition rhe (x k : Z) : Z :=
  let q := x / 2 ^ k in
  let r := x mod 2 ^ k in
  if (2 ^ k <? 2 * r) || ((2 * r =? 2 ^ k) && Z.odd q) then q + 1 else q.

(** The significand before it is cut to 64 bits. *)
Definition rounded_up (x k : Z) : Z := if snd (round_to_nearest_even x k) then x + 2 ^ (k - 1) else x.

Lemma round_ok x k : 0 <= x < 2 ^ 64 -> 1 <= k <= 64 ->
  fst (round_to_nearest_even x k) = u64 (rounded_up x k) /\ rounded_up x k / 2 ^ k = rhe x k /\ x <= rounded_up x k < x + 2 ^ k.
Proof.
  intros Hx Hk. unfold rounded_up, round_to_nearest_even. rewrite (u32_small k), (i32_small (k - 1)), (u32_small (k - 1)) by lia.
  rewrite (one_shl64 (k - 1)) by lia. pose proof (pow2_pos (k - 1) ltac:(lia)) as Hp. pose proof (pow2_pred k ltac:(lia)) as Hpk.
  assert (2 ^ (k - 1) < 2 ^ 64) as Hlt by (apply Z.pow_lt_mono_r; lia). rewrite (u64_small (2 ^ (k - 1) - 1)) by lia.
  rewrite land_bit_zero, negb_involutive by lia. replace (2 ^ (k - 1) - 1) with (Z.ones (k - 1)) by (rewrite Z.ones_equiv; lia).
  rewrite Z.land_ones by lia. pose proof (Z.div_mod x (2 ^ k) ltac:(lia)) as Hdm. pose proof (Z.mod_pos_bound x (2 ^ k) ltac:(lia)) as Hr.
  assert (Z.odd (x / 2 ^ k) = negb (Z.land x (if k <? 64 then shl64 1 k else 0) =? 0)) as <-.
  { destruct (Z.ltb_spec k 64).
    - rewrite one_shl64, land_bit_zero, negb_involutive by lia. rewrite Z.testbit_odd, Z.shiftr_div_pow2 by lia. done.
    - replace k with 64 by lia. rewrite Z.land_0_r, Z.div_small by lia. done. }
  assert (Z.testbit x (k - 1) = (2 ^ (k - 1) <=? x mod 2 ^ k) /\ x mod 2 ^ (k - 1) = (x mod 2 ^ k) mod 2 ^ (k - 1)) as [-> Em].
  { split.
    - rewrite <- (Z.mod_pow2_bits_low x k (k - 1)) by lia. rewrite Z.testbit_odd, Z.shiftr_div_pow2 by lia.
      destruct (Z.leb_spec (2 ^ (k - 1)) (x mod 2 ^ k)).
      + replace (x mod 2 ^ k / 2 ^ (k - 1)) with 1; [done|]. apply (Z.div_unique _ _ _ (x mod 2 ^ k - 2 ^ (k - 1))); lia.
      + by rewrite Z.div_small by lia.
    - apply Znumtheory.Zmod_div_mod; [lia|lia|]. exists 2. lia. }
  rewrite Em. set (q := x / 2 ^ k) in *. set (r := x mod 2 ^ k) in *.
  assert (r mod 2 ^ (k - 1) = if 2 ^ (k - 1) <=? r then r - 2 ^ (k - 1) else r) as ->.
  { destruct (Z.leb_spec (2 ^ (k - 1)) r); [|apply Z.mod_small; lia]. symmetry. apply (Z.mod_unique_pos _ _ 1); lia. }
  assert (rhe x k = if (2 ^ k <? 2 * r) || ((2 * r =? 2 ^ k) && Z.odd q) then q + 1 else q) as -> by done.
  assert (forall d, 0 <= d < 2 ^ k -> (q * 2 ^ k + d) / 2 ^ k = q) as Hq by (intros d Hd; symmetry; apply (Z.div_unique _ _ _ d); lia).
  assert (forall d, 0 <= d < 2 ^ k -> (q * 2 ^ k + (2 ^ k + d)) / 2 ^ k = q + 1) as Hq1 by (intros d Hd; symmetry; apply (Z.div_unique _ _ _ d); lia).
  destruct (Z.leb_spec (2 ^ (k - 1)) r) as [Hmid|Hlow]; simpl.
  - destruct (Z.eqb_spec (r - 2 ^ (k - 1)) 0) as [Etie|Hmore]; simpl.
    + rewrite (proj2 (Z.ltb_ge _ _)), (proj2 (Z.eqb_eq _ _)) by lia. simpl. destruct (Z.odd q); simpl.
      * split; [done|]. split; [|lia]. replace (x + 2 ^ (k - 1)) with (q * 2 ^ k + (2 ^ k + 0)) by lia. apply Hq1. lia.
      * split; [by rewrite u64_small|]. split; [|lia]. done.
    + rewrite (proj2 (Z.ltb_lt _ _)) by lia. simpl. split; [done|]. split; [|lia].
      replace (x + 2 ^ (k - 1)) with (q * 2 ^ k + (2 ^ k + (r - 2 ^ (k - 1)))) by lia. apply Hq1. lia.
  - rewrite (proj2 (Z.ltb_ge _ _)), (proj2 (Z.eqb_neq _ _)) by lia. simpl. split; [by rewrite u64_small|]. split; [|lia]. done.
Qed.

(** A number too small to round up. *)
Lemma rhe_tiny x k : 0 <= x < 2 ^ (k - 1) -> 1 <= k -> rhe x k = 0.
Proof.
  intros Hx Hk. pose proof (pow2_pred k ltac:(lia)). unfold rhe. rewrite Z.div_small, Z.mod_small by lia.
  rewrite (proj2 (Z.ltb_ge _ _)), (proj2 (Z.eqb_neq _ _)) by lia. done.
Qed.

Lemma renormalize_ok x k exp : 2 ^ 63 <= x < 2 ^ 64 -> 1 <= k <= 64 -> - 2 ^ 20 <= exp <= 2 ^ 20 ->
  renormalize (round_to_nearest_even x k) exp =
  if rounded_up x k <? 2 ^ 64 then (rounded_up x k, exp) else (2 ^ 63, exp + 1).
Proof.
  intros Hx Hk He. destruct (round_ok x k ltac:(lia) Hk) as (E1 & _ & Hb). unfold renormalize, rounded_up in *.
  destruct (round_to_nearest_even x k) as [s up]. cbn [fst snd] in *. subst s. rewrite shr64_div by lia. pose proof (pow2_pred k ltac:(lia)).
  assert (2 ^ (k - 1) <= 2 ^ 63) as Hp by (apply Z.pow_le_mono_r; lia). pose proof (pow2_pos (k - 1) ltac:(lia)).
  destruct up; simpl.
  - destruct (Z.ltb_spec (x + 2 ^ (k - 1)) (2 ^ 64)).
    + rewrite u64_small by lia. destruct (Z.eqb_spec ((x + 2 ^ (k - 1)) / 2 ^ 63) 0) as [E|]; [|done].
      apply Z.div_small_iff in E; lia.
    + assert (u64 (x + 2 ^ (k - 1)) = x + 2 ^ (k - 1) - 2 ^ 64) as ->.
      { symmetry. apply (Z.mod_unique_pos _ _ 1); lia. }
      rewrite Z.div_small by lia. simpl. rewrite one_shl64, i32_small by lia. done.
  - rewrite u64_small, (proj2 (Z.ltb_lt _ _)) by lia. done.
Qed.

(** The rounded number is a power of two when it runs over. *)
Lemma rhe_over x k : 0 <= x < 2 ^ 64 -> 1 <= k <= 64 -> 2 ^ 64 <= rounded_up x k -> rhe x k = 2 ^ (64 - k).
Proof.
  intros Hx Hk Hover. destruct (round_ok x k Hx Hk) as (_ & <- & Hb). pose proof (pow_split k 64 ltac:(lia)) as Hp.
  assert (rounded_up x k < 2 ^ 64 + 2 ^ k) by lia. symmetry. apply (Z.div_unique _ _ _ (rounded_up x k - 2 ^ 64)); lia.
Qed.

(** ** The layout of a format *)

(** The layout the two formats share: fraction, exponent and sign, from the low
    bits up. *)
Record ieee (f : FloatFormat) : Prop := {
  ie_frac : 2 <= frac_size f <= 52;
  ie_exp : 2 <= exp_size f <= 11;
  ie_frac_pos : frac_pos f = 0;
  ie_exp_pos : exp_pos f = frac_size f;
  ie_sign : signbit_pos f = frac_size f + exp_size f;
  ie_width : signbit_pos f <= 63;
  ie_bias : bias f = 2 ^ (exp_size f - 1) - 1;
  ie_max : maxexponent f = 2 ^ exp_size f - 1;
  ie_implied : jbitimplied f = true
}.

Lemma format_ieee sz : sz = 4 \/ sz = 8 -> ieee (format_new sz).
Proof. intros [->| ->]; constructor; done. Qed.

Section Layout.
Context (f : FloatFormat) (Hf : ieee f).

Local Abbreviation fs := (frac_size f).
Local Abbreviation es := (exp_size f).

(** The encoding of a sign, an exponent code and a fraction. *)
Definition assemble (sgn : bool) (code frac : Z) : Z := (if sgn then 2 ^ (fs + es) else 0) + code * 2 ^ fs + frac.

Lemma sizes : 0 < 2 ^ fs /\ 0 < 2 ^ es /\ 2 ^ (fs + es) = 2 ^ fs * 2 ^ es /\ 2 ^ (fs + es) <= 2 ^ 63 /\ 2 ^ fs <= 2 ^ 52 /\ 4 <= 2 ^ es <= 2 ^ 11.
Proof.
  destruct Hf. split; [apply pow2_pos; lia|]. split; [apply pow2_pos; lia|]. rewrite <- Z.pow_add_r by lia. split; [done|].
  split; [apply Z.pow_le_mono_r; lia|]. split; [apply Z.pow_le_mono_r; lia|].
  split; [change 4 with (2 ^ 2); apply Z.pow_le_mono_r; lia|apply Z.pow_le_mono_r; lia].
Qed.

(** The top bits of a word are a fraction. *)
Lemma frac_range x : 0 <= x < 2 ^ 64 -> 0 <= x / 2 ^ (64 - fs) < 2 ^ fs.
Proof.
  intros Hx. destruct Hf. pose proof (pow2_pos (64 - fs) ltac:(lia)). split; [apply Z.div_pos; lia|]. apply Z.div_lt_upper_bound; [lia|].
  rewrite <- Z.pow_add_r by lia. replace (64 - fs + fs) with 64 by lia. lia.
Qed.

Lemma set_fraction enc x : 0 <= x < 2 ^ 64 -> set_fractional_code f enc x = Z.lor enc (x / 2 ^ (64 - fs)).
Proof.
  intros Hx. destruct Hf. unfold set_fractional_code. rewrite ie_frac_pos0, i32_small, !u32_small by lia. rewrite shr64_div by lia.
  rewrite shl64_mul, Z.pow_0_r, Z.mul_1_r by lia. rewrite u64_small; [done|]. pose proof (pow2_pos (64 - fs) ltac:(lia)).
  split; [apply Z.div_pos; lia|]. apply (Z.le_lt_trans _ x); [|lia]. apply Z.div_le_upper_bound; nia.
Qed.

Lemma set_code enc code : 0 <= code < 2 ^ es -> set_exponent_code f enc code = Z.lor enc (code * 2 ^ fs).
Proof.
  intros Hc. pose proof sizes as (H1 & H2 & H3 & H4 & _). destruct Hf. unfold set_exponent_code. rewrite ie_exp_pos0, u32_small by lia.
  rewrite shl64_mul by lia. rewrite u64_small; [done|]. nia.
Qed.

Lemma set_sign_add x sgn : 0 <= x < 2 ^ (fs + es) -> set_sign f x sgn = (if sgn then 2 ^ (fs + es) else 0) + x.
Proof.
  intros Hx. destruct Hf. unfold set_sign. destruct sgn; simpl; [|done]. rewrite ie_sign0, u32_small by lia. rewrite one_shl64 by lia.
  rewrite Z.lor_comm. rewrite <- (Z.mul_1_l (2 ^ (fs + es))) at 1. rewrite lor_high by lia. lia.
Qed.

Lemma assemble_parts sgn code x : 0 <= code < 2 ^ es -> 0 <= x < 2 ^ 64 ->
  set_sign f (set_exponent_code f (set_fractional_code f 0 x) code) sgn = assemble sgn code (x / 2 ^ (64 - fs)).
Proof.
  intros Hc Hx. pose proof sizes as (H1 & H2 & H3 & _). pose proof Hf as Hf'. destruct Hf'. rewrite set_fraction, Z.lor_0_l, set_code by done.
  pose proof (frac_range x Hx) as Hq.
  rewrite Z.lor_comm, lor_high by lia. rewrite set_sign_add; [unfold assemble; lia|]. nia.
Qed.

Lemma zero_encoding sgn : get_zero_encoding f sgn = assemble sgn 0 0.
Proof. pose proof sizes. unfold get_zero_encoding. rewrite assemble_parts by lia. by rewrite Z.div_0_l by (apply Z.pow_nonzero; destruct Hf; lia). Qed.

Lemma infinity_encoding sgn : get_infinity_encoding f sgn = assemble sgn (2 ^ es - 1) 0.
Proof.
  pose proof sizes as (_ & ? & _ & _ & _ & ?). pose proof Hf as []. unfold get_infinity_encoding. rewrite ie_max0, u64_small by lia. rewrite assemble_parts by lia.
  by rewrite Z.div_0_l by (apply Z.pow_nonzero; lia).
Qed.

(** *** The nearest encoding *)

(** The encoding nearest to [signif * 2 ^ (exp - 63)], ties to even: the number
    is counted in units of the last place of its binade, or of the lowest one;
    the count carries into the exponent by itself, and past the largest binade
    is infinity. *)
Definition nearest (sgn : bool) (signif exp : Z) : Z :=
  let e := exp + bias f in
  let binade := Z.max e 1 in
  let units := rhe signif (63 - fs + (binade - e)) in
  (if sgn then 2 ^ (fs + es) else 0) + Z.min (units + (binade - 1) * 2 ^ fs) (maxexponent f * 2 ^ fs).

(** The one case the code gets wrong: a number below the normal ones that rounds
    to the smallest of those. *)
Definition rounds_to_normal (signif exp : Z) : Prop := exp + bias f = 0 /\ 2 ^ 64 <= rounded_up signif (64 - fs).

(** Below the normal numbers. *)
Lemma encode_low sgn signif e : 2 ^ 63 <= signif < 2 ^ 64 -> - fs <= e < 1 ->
  (let (signif, exp) := renormalize (round_to_nearest_even signif (64 - fs - e)) e in
   set_fractional_code f (get_zero_encoding f sgn) (shr64 signif (u32 (i32 (- exp))))) =
  if decide (e = 0 /\ 2 ^ 64 <= rounded_up signif (64 - fs)) then assemble sgn 0 0 else assemble sgn 0 (rhe signif (64 - fs - e)).
Proof.
  intros Hs He. pose proof sizes as (H1 & H2 & H3 & H4 & H5 & H6). pose proof Hf as []. set (k := 64 - fs - e).
  rewrite renormalize_ok by lia. destruct (round_ok signif k ltac:(lia) ltac:(lia)) as (_ & Eq & Hb).
  assert (forall y q, 0 <= y < 2 ^ 64 -> y / 2 ^ (64 - fs) = q -> set_fractional_code f (get_zero_encoding f sgn) y = assemble sgn 0 q) as Hset.
  { intros y q Hy <-. rewrite set_fraction, zero_encoding by done.
    pose proof (frac_range y Hy) as Hq.
    unfold assemble. destruct sgn; [|by rewrite Z.lor_0_l]. rewrite !Z.mul_0_l, !Z.add_0_r. rewrite <- (Z.mul_1_l (2 ^ (fs + es))) at 1.
    rewrite lor_high by nia. lia. }
  destruct (Z.ltb_spec (rounded_up signif k) (2 ^ 64)) as [Hin|Hover].
  - rewrite decide_False by (unfold k in Hin; intros [-> ?]; rewrite Z.sub_0_r in Hin; lia).
    rewrite i32_small, u32_small by lia. rewrite shr64_div by lia. apply Hset.
    + pose proof (pow2_pos (- e) ltac:(lia)). split; [apply Z.div_pos; lia|]. apply (Z.le_lt_trans _ (rounded_up signif k)); [|lia]. apply Z.div_le_upper_bound; nia.
    + rewrite Z.div_div by (apply Z.pow_nonzero || apply pow2_pos; lia). rewrite <- Z.pow_add_r by lia. by replace (- e + (64 - fs)) with k by lia.
  - rewrite (rhe_over signif k) by lia. destruct (decide (e = 0 /\ 2 ^ 64 <= rounded_up signif (64 - fs))) as [[-> _]|Hno].
    + change (u32 (i32 (- (0 + 1)))) with (2 ^ 32 - 1). unfold shr64. change ((2 ^ 32 - 1) mod 64) with 63.
      apply Hset; [by vm_compute|]. apply Z.div_small. change (Z.shiftr (2 ^ 63) 63) with 1. split; [lia|]. apply Z.pow_gt_1; lia.
    + assert (e <> 0) by (unfold k in Hover; intros ->; rewrite Z.sub_0_r in Hover; tauto).
      rewrite i32_small, u32_small by lia. rewrite shr64_div by lia. rewrite (pow_split (- (e + 1)) 63) by lia.
      rewrite Z.mul_comm, Z.div_mul by (apply Z.pow_nonzero; lia). apply Hset.
      * split; [apply Z.lt_le_incl, pow2_pos; lia|]. apply Z.pow_lt_mono_r; lia.
      * rewrite (pow_split (64 - fs) (63 - - (e + 1))) by lia. rewrite Z.mul_comm, Z.div_mul by (apply Z.pow_nonzero; lia). f_equal. lia.
Qed.

(** From the smallest normal number on. *)
Lemma encode_normal sgn signif e : 2 ^ 63 <= signif < 2 ^ 64 -> 1 <= e <= 2 ^ 20 - 1 ->
  (let (signif, exp) := renormalize (round_to_nearest_even signif (63 - fs)) e in
   if maxexponent f <=? exp then get_infinity_encoding f sgn
   else
     let signif := if jbitimplied f && negb (exp =? 0) then shl64 signif 1 else signif in
     set_sign f (set_exponent_code f (set_fractional_code f 0 signif) (u64 exp)) sgn) =
  (if sgn then 2 ^ (fs + es) else 0) + Z.min (rhe signif (63 - fs) + (e - 1) * 2 ^ fs) (maxexponent f * 2 ^ fs).
Proof.
  intros Hs He. pose proof sizes as (H1 & H2 & H3 & H4 & H5 & H6). pose proof Hf as []. set (k := 63 - fs).
  assert (2 ^ 63 = 2 ^ k * 2 ^ fs) as Hk by (rewrite <- Z.pow_add_r by lia; f_equal; lia). pose proof (pow2_pos k ltac:(lia)) as Hk0.
  rewrite renormalize_ok by lia. destruct (round_ok signif k ltac:(lia) ltac:(lia)) as (_ & Eq & Hb). rewrite infinity_encoding, ie_implied0, ie_max0.
  destruct (Z.ltb_spec (rounded_up signif k) (2 ^ 64)) as [Hin|Hover].
  - assert (2 ^ fs <= rhe signif k < 2 * 2 ^ fs) as Hq.
    { rewrite <- Eq. split; [apply Z.div_le_lower_bound; lia|apply Z.div_lt_upper_bound; lia]. }
    destruct (Z.leb_spec (2 ^ es - 1) e) as [Hbig|Hsmall].
    + rewrite Z.min_r by nia. unfold assemble. lia.
    + rewrite Z.min_l by nia. destruct (Z.eqb_spec e 0); [lia|]. simpl. rewrite u64_small by lia. rewrite shl64_mul by lia.
      assert (u64 (rounded_up signif k * 2 ^ 1) = 2 * (rounded_up signif k - 2 ^ 63)) as ->.
      { symmetry. apply (Z.mod_unique_pos _ _ 1); lia. }
      rewrite assemble_parts by lia. assert (2 * (rounded_up signif k - 2 ^ 63) / 2 ^ (64 - fs) = rhe signif k - 2 ^ fs) as ->.
      { replace (64 - fs) with (k + 1) by lia. rewrite Z.pow_add_r, (Z.mul_comm (2 ^ k)) by lia. rewrite Z.div_mul_cancel_l by lia.
        rewrite <- Eq, Hk. replace (rounded_up signif k - 2 ^ k * 2 ^ fs) with (rounded_up signif k + (- 2 ^ fs) * 2 ^ k) by lia. rewrite Z.div_add by lia. lia. }
      unfold assemble. lia.
  - rewrite (rhe_over signif k) by lia. replace (64 - k) with (fs + 1) by lia. rewrite (Z.pow_add_r 2 fs 1) by lia.
    destruct (Z.leb_spec (2 ^ es - 1) (e + 1)) as [Hbig|Hsmall].
    + rewrite Z.min_r by nia. unfold assemble. lia.
    + rewrite Z.min_l by nia. destruct (Z.eqb_spec (e + 1) 0); [lia|]. cbn [andb negb]. rewrite u64_small by lia.
      change (shl64 (2 ^ 63) 1) with 0. rewrite assemble_parts by lia. rewrite Z.div_0_l by (apply Z.pow_nonzero; lia). unfold assemble. lia.
Qed.

Lemma encode_rounded_eq sgn signif exp : 2 ^ 63 <= signif < 2 ^ 64 -> - 2 ^ 16 <= exp <= 2 ^ 16 ->
  encode_rounded f sgn signif exp = if decide (rounds_to_normal signif exp) then assemble sgn 0 0 else nearest sgn signif exp.
Proof.
  intros Hs He. pose proof sizes as (H1 & H2 & H3 & H4 & H5 & H6). pose proof Hf as [].
  assert (0 <= bias f <= 2 ^ 11) as Hbias by (pose proof (pow2_pred (es) ltac:(lia)); pose proof (pow2_pos (es - 1) ltac:(lia)); lia).
  unfold encode_rounded, nearest, rounds_to_normal. cbv zeta. rewrite (i32_small (exp + bias f)), (i32_small (64 - fs)) by lia. set (e := exp + bias f) in *.
  destruct (Z.ltb_spec e (- fs)) as [Htiny|Hlow].
  - rewrite decide_False by lia. rewrite zero_encoding, Z.max_r by lia. replace (63 - fs + (1 - e)) with (64 - fs - e) by lia.
    rewrite rhe_tiny; [unfold assemble; rewrite ie_max0, Z.min_l by nia; lia| |lia]. split; [lia|]. apply (Z.lt_le_trans _ (2 ^ 64)); [lia|]. apply Z.pow_le_mono_r; lia.
  - destruct (Z.ltb_spec e 1).
    + rewrite (i32_small (64 - fs - e)) by lia. rewrite encode_low by lia. destruct (decide _); [done|]. rewrite Z.max_r by lia.
      replace (63 - fs + (1 - e)) with (64 - fs - e) by lia. rewrite Z.min_l; [unfold assemble; lia|].
      destruct (round_ok signif (64 - fs - e) ltac:(lia) ltac:(lia)) as (_ & Eq & Hb).
      destruct (Z.lt_ge_cases (rounded_up signif (64 - fs - e)) (2 ^ 64)) as [Hin|Hover].
      * assert (rhe signif (64 - fs - e) < 2 ^ fs); [|nia]. rewrite <- Eq. apply Z.div_lt_upper_bound; [apply pow2_pos; lia|].
        rewrite <- Z.pow_add_r by lia. apply (Z.lt_le_trans _ _ _ Hin). apply Z.pow_le_mono_r; lia.
      * rewrite rhe_over by lia. assert (2 ^ (64 - (64 - fs - e)) <= 2 ^ fs) by (apply Z.pow_le_mono_r; lia). nia.
    + rewrite (i32_small (64 - fs - 1)) by lia. rewrite decide_False by lia. rewrite Z.max_l by lia. rewrite Z.sub_diag, Z.add_0_r.
      replace (64 - fs - 1) with (63 - fs) by lia. apply encode_normal; lia.
Qed.
End Layout.

(** ** Conversion *)

(** A finite number [m * 2 ^ e] as the code and the fraction of a format give it. *)
Definition finite_value (f : FloatFormat) (code frac : Z) : Z * Z :=
  if code =? 0 then (frac, 1 - bias f - frac_size f) else (2 ^ frac_size f + frac, code - bias f - frac_size f).

(** What the code makes of [m * 2 ^ e]: the nearest encoding of the number with
    its top bit moved to bit 63. *)
Definition encode_value (g : FloatFormat) (sgn : bool) (m e : Z) : Z :=
  let s := 63 - Z.log2 m in
  if decide (rounds_to_normal g (m * 2 ^ s) (e - s + 63)) then assemble g sgn 0 0 else nearest g sgn (m * 2 ^ s) (e - s + 63).

Section Extract.
Context (f : FloatFormat) (Hf : ieee f) (sgn : bool) (code frac : Z).
Context (Hcode : 0 <= code < 2 ^ exp_size f) (Hfrac : 0 <= frac < 2 ^ frac_size f).

Local Abbreviation fs := (frac_size f).
Local Abbreviation es := (exp_size f).
Local Abbreviation enc := (assemble f sgn code frac).

Lemma assemble_range : 0 <= enc < 2 ^ 64.
Proof. pose proof (sizes f Hf) as (H1 & H2 & H3 & H4 & H5 & H6). unfold assemble. destruct sgn; nia. Qed.

Lemma extract_fraction_eq : extract_fractional_code f enc = frac * 2 ^ (64 - fs).
Proof.
  pose proof (sizes f Hf) as (H1 & H2 & H3 & H4 & H5 & H6). pose proof Hf as []. unfold extract_fractional_code.
  rewrite ie_frac_pos0, i32_small, !u32_small by lia. rewrite shr64_div, Z.pow_0_r, Z.div_1_r, shl64_mul by lia.
  assert (2 ^ 64 = 2 ^ (64 - fs) * 2 ^ fs) as Hp by (rewrite <- Z.pow_add_r by lia; f_equal; lia). pose proof (pow2_pos (64 - fs) ltac:(lia)).
  unfold u64, uw. symmetry. apply (Z.mod_unique_pos _ _ ((if sgn then 2 ^ es else 0) + code)); [nia|]. unfold assemble. destruct sgn; nia.
Qed.

Lemma extract_code_eq : extract_exponent_code f enc = code.
Proof.
  pose proof (sizes f Hf) as (H1 & H2 & H3 & H4 & H5 & H6). pose proof Hf as []. unfold extract_exponent_code. rewrite ie_exp_pos0, !u32_small by lia.
  rewrite shr64_div, one_shl64 by lia. rewrite u64_small by lia. replace (2 ^ es - 1) with (Z.ones es) by (rewrite Z.ones_equiv; lia). rewrite Z.land_ones by lia.
  assert (enc / 2 ^ fs = (if sgn then 1 else 0) * 2 ^ es + code) as ->.
  { symmetry. apply (Z.div_unique_pos _ _ _ frac); [lia|]. unfold assemble. destruct sgn; nia. }
  rewrite Z.add_comm, Z.mod_add, Z.mod_small by lia. apply i32_small. lia.
Qed.

Lemma extract_sign_eq : extract_sign f enc = sgn.
Proof.
  pose proof (sizes f Hf) as (H1 & H2 & H3 & H4 & H5 & H6). pose proof Hf as []. unfold extract_sign. rewrite ie_sign0, u32_small, shr64_div by lia.
  assert (enc / 2 ^ (fs + es) = if sgn then 1 else 0) as ->; [|by destruct sgn].
  symmetry. apply (Z.div_unique_pos _ _ _ (code * 2 ^ fs + frac)); [nia|]. unfold assemble. destruct sgn; nia.
Qed.

(** Conversion is by the value. *)
Lemma convert_eq g : ieee g -> convert_encoding g enc f =
  if code =? maxexponent f then if frac =? 0 then get_infinity_encoding g sgn else get_nan_encoding g sgn
  else if (finite_value f code frac).1 =? 0 then get_zero_encoding g sgn
  else encode_value g sgn (finite_value f code frac).1 (finite_value f code frac).2.
Proof.
  intros Hg. pose proof (sizes f Hf) as (H1 & H2 & H3 & H4 & H5 & H6). pose proof Hf as []. pose proof (pow2_pos (64 - fs) ltac:(lia)) as Hp.
  assert (2 ^ 63 = 2 ^ fs * 2 ^ (63 - fs)) as Hp63 by (apply pow_split; lia). pose proof (pow2_pred (64 - fs) ltac:(lia)) as Hp64.
  replace (64 - fs - 1) with (63 - fs) in Hp64 by lia.
  assert (0 <= bias f < 2 ^ 11) as Hbias by (pose proof (pow2_pred es ltac:(lia)); pose proof (pow2_pos (es - 1) ltac:(lia)); lia).
  unfold convert_encoding. rewrite extract_sign_eq, extract_fraction_eq, extract_code_eq.
  assert ((frac * 2 ^ (64 - fs) =? 0) = (frac =? 0)) as -> by (apply eq_true_iff_eq; rewrite !Z.eqb_eq; nia).
  destruct (Z.eqb_spec code (maxexponent f)) as [|Hfin]; [by destruct (frac =? 0)|]. unfold finite_value, encode_value.
  destruct (Z.eqb_spec code 0) as [->|Hc]; simpl fst; simpl snd.
  - destruct (Z.eqb_spec frac 0) as [->|Hne]; [done|]. pose proof (Z.log2_spec frac ltac:(lia)) as Hlog.
    assert (0 <= Z.log2 frac < fs) as Hlb by (split; [apply Z.log2_nonneg|apply Z.log2_lt_pow2; lia]).
    unfold count_leading_zeros, leading_zeros. destruct (Z.eqb_spec (frac * 2 ^ (64 - fs)) 0); [nia|].
    rewrite Z.log2_mul_pow2 by lia. set (s := 63 - Z.log2 frac). set (lz := 63 - (64 - fs + Z.log2 frac)).
    assert (0 <= lz < 64) by lia. rewrite shl64_mul by lia.
    assert (frac * 2 ^ (64 - fs) * 2 ^ lz = frac * 2 ^ s) as -> by (rewrite <- Z.mul_assoc, <- Z.pow_add_r by lia; do 2 f_equal; lia).
    assert (2 ^ 63 <= frac * 2 ^ s < 2 ^ 64) as Hs.
    { rewrite Z.pow_succ_r in Hlog by lia. assert (2 ^ 63 = 2 ^ Z.log2 frac * 2 ^ s) by (rewrite <- Z.pow_add_r by lia; f_equal; lia).
      pose proof (pow2_pos s ltac:(lia)). nia. }
    rewrite u64_small by lia. rewrite (i32_small (- bias f)), i32_small by lia. rewrite encode_rounded_eq by (done || lia).
    replace (- bias f - lz) with (1 - bias f - fs - s + 63) by lia. done.
  - destruct (Z.eqb_spec (2 ^ fs + frac) 0); [lia|]. assert (Z.log2 (2 ^ fs + frac) = fs) as -> by (apply Z.log2_unique; [lia|rewrite Z.pow_succ_r by lia; lia]).
    rewrite (ie_implied g Hg). rewrite i32_small by lia. rewrite one_shl64 by lia.
    rewrite Z.shiftr_div_pow2 by lia. rewrite Hp64, Z.pow_1_r. replace (frac * (2 * 2 ^ (63 - fs))) with (frac * 2 ^ (63 - fs) * 2) by lia. rewrite Z.div_mul by lia.
    rewrite <- (Z.mul_1_l (2 ^ 63)). rewrite lor_high by (pose proof (pow2_pos (63 - fs) ltac:(lia)); nia).
    replace (1 * 2 ^ 63 + frac * 2 ^ (63 - fs)) with ((2 ^ fs + frac) * 2 ^ (63 - fs)) by lia.
    rewrite encode_rounded_eq by (done || (pose proof (pow2_pos (63 - fs) ltac:(lia)); nia)).
    replace (code - bias f - fs - (63 - fs) + 63) with (code - bias f) by lia. done.
Qed.
End Extract.

(** C21: converting an encoding to another format gives infinity for infinity, a
    NaN for a NaN and a zero for a zero, each with the sign, and for any other
    number the nearest encoding, ties to even, overflow to infinity and gradual
    underflow included, but for one case: a number below the normal ones that
    rounds to the smallest of those becomes zero. *)
Theorem convert_correct f g sgn code frac : ieee f -> ieee g -> 0 <= code < 2 ^ exp_size f -> 0 <= frac < 2 ^ frac_size f ->
  convert_encoding g (assemble f sgn code frac) f =
  if code =? maxexponent f then
    if frac =? 0 then assemble g sgn (maxexponent g) 0 else assemble g sgn (maxexponent g) (2 ^ (frac_size g - 1))
  else
    let (m, e) := finite_value f code frac in
    let s := 63 - Z.log2 m in
    if (m =? 0) || bool_decide (rounds_to_normal g (m * 2 ^ s) (e - s + 63)) then assemble g sgn 0 0
    else nearest g sgn (m * 2 ^ s) (e - s + 63).
Proof.
  intros Hf Hg Hcode Hfrac. rewrite (convert_eq f Hf) by done.
  assert (get_nan_encoding g sgn = assemble g sgn (maxexponent g) (2 ^ (frac_size g - 1))) as ->.
  { pose proof (sizes g Hg) as (_ & ? & _ & _ & _ & ?). pose proof Hg as []. unfold get_nan_encoding. rewrite ie_max0, u64_small by lia.
    rewrite one_shl64 by lia. rewrite (assemble_parts g Hg) by lia. f_equal. rewrite (pow_split (64 - frac_size g) 63) by lia.
    rewrite Z.mul_comm, Z.div_mul by (apply Z.pow_nonzero; lia). f_equal. lia. }
  rewrite (infinity_encoding g Hg), (zero_encoding g Hg), <- (ie_max g Hg).
  destruct (code =? maxexponent f); [done|]. destruct (finite_value f code frac) as [m e]. simpl fst. simpl snd.
  destruct (m =? 0); [done|]. unfold encode_value. rewrite orb_false_l. case_bool_decide; by repeat case_decide.
Qed.

(** *** Exact conversions *)

Lemma rhe_exact m k : 0 <= k -> rhe (m * 2 ^ k) k = m.
Proof.
  intros Hk. pose proof (pow2_pos k Hk). unfold rhe. rewrite Z.div_mul, Z.mod_mul by lia.
  rewrite (proj2 (Z.ltb_ge _ _)), (proj2 (Z.eqb_neq _ _)) by lia. done.
Qed.

(** A number that needs no more bits than the format has is not rounded. *)
Lemma nearest_exact g sgn signif exp m k : ieee g -> k = 63 - frac_size g + (Z.max (exp + bias g) 1 - (exp + bias g)) ->
  signif = m * 2 ^ k -> 0 <= k -> nearest g sgn signif exp =
  (if sgn then 2 ^ (frac_size g + exp_size g) else 0) + Z.min (m + (Z.max (exp + bias g) 1 - 1) * 2 ^ frac_size g) (maxexponent g * 2 ^ frac_size g).
Proof. intros Hg Ek -> Hk. unfold nearest. by rewrite <- Ek, rhe_exact. Qed.

Lemma exact_stays g m k exp : ieee g -> 0 <= m -> k = 64 - frac_size g -> m * 2 ^ k < 2 ^ 64 -> ~ rounds_to_normal g (m * 2 ^ k) exp.
Proof.
  intros Hg Hm Ek Hx [_ Hover]. pose proof Hg as []. pose proof (pow2_pos k ltac:(lia)).
  destruct (round_ok (m * 2 ^ k) k ltac:(nia) ltac:(lia)) as (_ & Eq & _). rewrite rhe_exact in Eq by lia. rewrite <- Ek in Hover.
  pose proof (pow_split k 64 ltac:(lia)) as Hp. pose proof (Z.mul_succ_div_gt (rounded_up (m * 2 ^ k) k) (2 ^ k) ltac:(lia)). nia.
Qed.

Lemma finite_normal f code frac : code <> 0 -> finite_value f code frac = (2 ^ frac_size f + frac, code - bias f - frac_size f).
Proof. intros Hc. unfold finite_value. by destruct (Z.eqb_spec code 0). Qed.

(** A format inside another. *)
Record narrower (f g : FloatFormat) : Prop := {
  na_frac : frac_size f <= frac_size g;
  na_low : bias f + frac_size f <= bias g
}.

Section Widen.
Context (f g : FloatFormat) (Hf : ieee f) (Hg : ieee g) (Hn : narrower f g) (sgn : bool) (code frac : Z).
Context (Hcode : 0 <= code < maxexponent f) (Hfrac : 0 <= frac < 2 ^ frac_size f) (Hpos : (finite_value f code frac).1 <> 0).

Local Abbreviation m := (finite_value f code frac).1.
Local Abbreviation e := (finite_value f code frac).2.
Local Abbreviation s := (63 - Z.log2 m).
Local Abbreviation exp := (e - s + 63).

Lemma finite_facts : 0 < m /\ 0 <= Z.log2 m <= frac_size f /\ 2 ^ 63 <= m * 2 ^ s < 2 ^ 64 /\ 1 - bias f - frac_size f <= exp <= bias f /\
  (code = 0 -> exp + bias f = 1 + Z.log2 m - frac_size f /\ Z.log2 m < frac_size f) /\ (code <> 0 -> Z.log2 m = frac_size f /\ exp + bias f = code).
Proof.
  pose proof (sizes f Hf) as (H1 & H2 & H3 & H4 & H5 & H6). pose proof Hf as []. pose proof (pow2_pred (exp_size f) ltac:(lia)) as Hp.
  assert (0 < m) as Hm by (unfold finite_value in *; destruct (code =? 0); simpl in *; lia).
  pose proof (Z.log2_nonneg m) as Hl. pose proof (Z.log2_spec m Hm) as Hlog. rewrite Z.pow_succ_r in Hlog by lia.
  assert (Z.log2 m <= frac_size f /\ (code = 0 -> exp + bias f = 1 + Z.log2 m - frac_size f /\ Z.log2 m < frac_size f) /\ (code <> 0 -> Z.log2 m = frac_size f /\ exp + bias f = code)) as (Hle & Hz & Hnz).
  { unfold finite_value in *. destruct (Z.eqb_spec code 0); simpl in *.
    - pose proof (proj1 (Z.log2_lt_pow2 frac (frac_size f) Hm) ltac:(lia)). lia.
    - assert (Z.log2 (2 ^ frac_size f + frac) = frac_size f) by (apply Z.log2_unique; [lia|rewrite Z.pow_succ_r by lia; lia]). lia. }
  split; [done|]. split; [lia|]. split.
  - assert (2 ^ 63 = 2 ^ Z.log2 m * 2 ^ s) by (rewrite <- Z.pow_add_r by lia; f_equal; lia). pose proof (pow2_pos s ltac:(lia)). nia.
  - split; [|by split]. destruct (decide (code = 0)) as [->|Hc]; [pose proof (Hz eq_refl)|pose proof (Hnz Hc)]; lia.
Qed.

Lemma widen_eq : convert_encoding g (assemble f sgn code frac) f =
  assemble g sgn (exp + bias g) (m * 2 ^ (frac_size g - Z.log2 m) - 2 ^ frac_size g).
Proof.
  destruct finite_facts as (Hm & Hlog & Hs & Hexp & _). pose proof Hf as []. pose proof Hg as []. destruct Hn as [Hnf Hnl].
  rewrite (convert_eq f Hf) by (done || lia). destruct (Z.eqb_spec code (maxexponent f)); [lia|]. destruct (Z.eqb_spec m 0); [lia|]. unfold encode_value.
  assert (m * 2 ^ s = m * 2 ^ (frac_size g - Z.log2 m) * 2 ^ (63 - frac_size g)) as Es by (rewrite <- Z.mul_assoc, <- Z.pow_add_r by lia; do 2 f_equal; lia).
  rewrite decide_False by (intros [? _]; lia).
  rewrite (nearest_exact g sgn _ exp (m * 2 ^ (frac_size g - Z.log2 m)) (63 - frac_size g)); [|done|lia|done|lia].
  rewrite Z.max_l by lia. unfold assemble. pose proof (sizes g Hg) as (H1 & H2 & H3 & H4 & H5 & H6). pose proof (pow2_pred (exp_size g) ltac:(lia)) as Hp.
  assert (m * 2 ^ (frac_size g - Z.log2 m) < 2 * 2 ^ frac_size g) as Hb.
  { assert (2 ^ 64 = 2 * 2 ^ frac_size g * 2 ^ (63 - frac_size g)) by (rewrite <- Z.mul_assoc, <- Z.pow_add_r by lia; by replace (frac_size g + (63 - frac_size g)) with 63 by lia).
    pose proof (pow2_pos (63 - frac_size g) ltac:(lia)). nia. }
  rewrite Z.min_l by nia. lia.
Qed.

(** Back, the significand and the exponent are the same. *)
Lemma narrow_back : convert_encoding f (convert_encoding g (assemble f sgn code frac) f) g = encode_value f sgn m e.
Proof.
  destruct finite_facts as (Hm & Hlog & Hs & Hexp & _). pose proof Hf as []. pose proof Hg as []. destruct Hn as [Hnf Hnl]. rewrite widen_eq.
  pose proof (pow2_pred (exp_size g) ltac:(lia)) as Hp. set (M := m * 2 ^ (frac_size g - Z.log2 m)).
  assert (m * 2 ^ s = M * 2 ^ (63 - frac_size g)) as Es by (unfold M; rewrite <- Z.mul_assoc, <- Z.pow_add_r by lia; do 2 f_equal; lia).
  assert (2 ^ frac_size g <= M < 2 * 2 ^ frac_size g) as HM.
  { assert (2 ^ 63 = 2 ^ frac_size g * 2 ^ (63 - frac_size g)) by (apply pow_split; lia). pose proof (pow2_pos (63 - frac_size g) ltac:(lia)). nia. }
  rewrite (convert_eq g Hg) by (done || lia). destruct (Z.eqb_spec (exp + bias g) (maxexponent g)); [lia|].
  rewrite (finite_normal g (exp + bias g)) by lia. cbn [fst snd].
  replace (2 ^ frac_size g + (M - 2 ^ frac_size g)) with M by lia. destruct (Z.eqb_spec M 0); [pose proof (pow2_pos (frac_size g)); lia|].
  unfold encode_value. assert (Z.log2 M = frac_size g) as -> by (apply Z.log2_unique; [lia|rewrite Z.pow_succ_r by lia; lia]).
  rewrite <- Es. by replace (exp + bias g - bias g - frac_size g - (63 - frac_size g) + 63) with exp by lia.
Qed.

(** A number is its own nearest encoding. *)
Lemma encode_own : encode_value f sgn m e = assemble f sgn code frac.
Proof.
  destruct finite_facts as (Hm & Hlog & Hs & Hexp & Hz & Hnz). pose proof Hf as []. pose proof (sizes f Hf) as (H1 & H2 & H3 & H4 & H5 & H6).
  assert (forall k, 0 <= k <= s -> m * 2 ^ s = m * 2 ^ (s - k) * 2 ^ k) as Hsplit by (intros k Hk; rewrite <- Z.mul_assoc, <- Z.pow_add_r by lia; do 2 f_equal; lia).
  unfold encode_value, assemble. destruct (decide (code = 0)) as [Ec|Hc].
  - destruct (Hz Ec) as [Ee Hl]. rewrite decide_False.
    2: { rewrite (Hsplit (64 - frac_size f)) by lia. apply exact_stays; [done|pose proof (pow2_pos (s - (64 - frac_size f)) ltac:(lia)); nia|done|]. rewrite <- Hsplit; lia. }
    rewrite (nearest_exact f sgn _ exp m s); [|done|lia|done|lia]. rewrite Z.max_r by lia. unfold finite_value in *. rewrite Ec in *. simpl in *. rewrite Z.min_l by nia. lia.
  - destruct (Hnz Hc) as [El Ee]. rewrite decide_False by (intros [? _]; lia).
    rewrite (nearest_exact f sgn _ exp m s); [|done|lia|done|lia]. rewrite Z.max_l by lia. unfold finite_value in *.
    destruct (Z.eqb_spec code 0); [done|]. simpl in *. rewrite Ee. rewrite Z.min_l by nia. lia.
Qed.
End Widen.

(** C22: converting a 32-bit encoding that is not a NaN to 64 bits and back gives
    the encoding, signed zeros, numbers below the normal ones and infinities
    included. *)
Theorem widen_narrow_roundtrip x : 0 <= x < 2 ^ 32 -> get_class (format_new 4) x <> Nan ->
  convert_encoding (format_new 4) (convert_encoding (format_new 8) x (format_new 4)) (format_new 8) = x.
Proof.
  intros Hx Hclass. set (f := format_new 4) in *. set (g := format_new 8) in *.
  assert (ieee f) as Hf by (apply format_ieee; by left). assert (ieee g) as Hg by (apply format_ieee; by right).
  set (sgn := 2 ^ 31 <=? x). set (code := (x / 2 ^ 23) mod 2 ^ 8). set (frac := x mod 2 ^ 23).
  assert (0 <= code < 2 ^ exp_size f) as Hcode by (apply Z.mod_pos_bound; done). assert (0 <= frac < 2 ^ frac_size f) as Hfrac by (apply Z.mod_pos_bound; done).
  assert (x = assemble f sgn code frac) as Ex.
  { unfold assemble, sgn, code, frac. change (frac_size f) with 23. change (exp_size f) with 8. pose proof (Z.div_mod x (2 ^ 23) ltac:(lia)).
    pose proof (Z.mod_pos_bound x (2 ^ 23) ltac:(lia)). pose proof (Z.div_mod (x / 2 ^ 23) (2 ^ 8) ltac:(lia)). pose proof (Z.mod_pos_bound (x / 2 ^ 23) (2 ^ 8) ltac:(lia)).
    assert (0 <= x / 2 ^ 23 / 2 ^ 8 < 2) by (split; [apply Z.div_pos; [apply Z.div_pos; lia|lia]|apply Z.div_lt_upper_bound; lia]).
    destruct (Z.leb_spec (2 ^ 31) x); lia. }
  clearbody sgn code frac. subst x. rewrite (convert_eq f Hf sgn code frac Hcode Hfrac g Hg).
  destruct (Z.eqb_spec code (maxexponent f)) as [Em|Hm].
  - unfold get_class in Hclass. rewrite (extract_code_eq f Hf), (extract_fraction_eq f Hf), Em in Hclass by done.
    destruct (Z.eqb_spec frac 0) as [->|Hne].
    + rewrite Em. by destruct sgn.
    + exfalso. apply Hclass. change (2 ^ (64 - frac_size f)) with (2 ^ 41). rewrite (proj2 (Z.eqb_neq (frac * 2 ^ 41) 0)) by lia. done.
  - destruct (Z.eqb_spec (finite_value f code frac).1 0) as [E0|Hne].
    + assert (code = 0 /\ frac = 0) as [-> ->]; [|by destruct sgn].
      unfold finite_value in E0. destruct (Z.eqb_spec code 0); simpl in E0; lia.
    + change (maxexponent f) with 255 in Hm. change (2 ^ exp_size f) with 256 in Hcode. assert (0 <= code < maxexponent f) as Hc by (change (maxexponent f) with 255; lia).
      rewrite <- (encode_own f Hf sgn code frac Hc Hfrac Hne).
      rewrite <- (narrow_back f g Hf Hg ltac:(by constructor) sgn code frac Hc Hfrac Hne).
      rewrite (convert_eq f Hf sgn code frac) by done. destruct (Z.eqb_spec code (maxexponent f)); [lia|]. by destruct (Z.eqb_spec (finite_value f code frac).1 0).
Qed.

Lemma convert_correct_witness : convert_encoding (format_new 4) (assemble (format_new 8) false 1023 (2 ^ 51)) (format_new 8) = 0x3fc00000.
Proof. rewrite (convert_correct (format_new 8) (format_new 4)); [vm_compute; reflexivity|apply format_ieee; by right|apply format_ieee; by left|done|done]. Defined.

Lemma widen_narrow_roundtrip_witness : convert_encoding (format_new 4) (convert_encoding (format_new 8) 0x00000007 (format_new 4)) (format_new 8) = 7.
Proof. apply widen_narrow_roundtrip; [done|vm_compute; discriminate]. Defined.
