(* ===== verification/Heritage.v ===== *)
(** The containers of [src/src/heritage.rs], which drive the construction of SSA
    form: [LocationMap], the ranges of addresses that earlier passes have linked,
    [TaskList], the ranges of the current pass, and [PriorityQueue], the blocks that
    wait for a place in the dominator tree, deepest first. *)
From stdpp Require Import base list numbers strings.
From Stdlib Require Import ZArith Lia.
From S2P Require Import Prelude Bits Multiprecision BTree Space Address GlobalContext.
Local Open Scope Z_scope.
Local Open Scope rust_scope.

(** ** Definitions *)

(** *** Ranges linked by earlier passes *)

Record SizePass : Type := mk_SizePass { sp_size : Z; sp_pass : Z }.

(** The values of the map are pairs of the address and its [SizePass], under the key of
    the address. *)
Abbreviation LocEntry := (Address * SizePass)%type.
Abbreviation LocationMap := (list (Address * SizePass)).
Definition ekey (e : Address * SizePass) : AddressKey := ordering_key e.1.
Definition esize (e : Address * SizePass) : Z := sp_size e.2.
Definition epass (e : Address * SizePass) : Z := sp_pass e.2.

(** [range(..k).next_back()]. *)
Definition before_excl (k : AddressKey) (m : LocationMap) : option LocEntry := list.last (filter (fun e => klt (ekey e) k) m).

(** The entry the search starts from. *)
Definition search_from (m : LocationMap) (k : AddressKey) : option AddressKey :=
  match before_excl k m with
  | Some e => Some (ekey e)
  | None => ekey <$> head m
  end.

(** The first entry is passed over when [addr] is not inside it. *)
Definition skip_first (addr : Address) (entries : LocationMap) : outcome LocationMap :=
  match entries with
  | [] => Ok []
  | e :: rest => let! position := overlap addr 0 e.1 (esize e) in Ok (if position =? -1 then rest else entries)
  end.

(** What the loops of [add] change: the range, its pass, [*intersect] and the keys to
    be removed. *)
Record Merge : Type := mk_Merge { mg_addr : Address; mg_size : Z; mg_pass : Z; mg_intersect : Z; mg_keys : list AddressKey }.

(** The entry that holds [addr]: it holds the whole range, or is merged. *)
Definition merge_first (addr : Address) (size pass : Z) (entries : LocationMap) : outcome ((Address * Z) + (Merge * LocationMap)) :=
  let start := mk_Merge addr size pass 0 [] in
  match entries with
  | [] => Ok (inr (start, []))
  | e :: rest =>
    let! position := overlap addr 0 e.1 (esize e) in
    if position =? -1 then Ok (inr (start, entries))
    else if i32 (position + size) <=? esize e then Ok (inl (e.1, if epass e <? pass then 2 else 0))
    else
      let lower := epass e <? pass in
      Ok (inr (mk_Merge e.1 (i32 (size + position)) (if lower then epass e else pass) (if lower then 1 else 0) [ekey e], rest))
  end.

(** The entries that start inside the range are merged too. *)
Fixpoint merge_rest (entries : LocationMap) (g : Merge) : outcome Merge :=
  match entries with
  | [] => Ok g
  | e :: rest =>
    let! position := overlap e.1 0 (mg_addr g) (mg_size g) in
    if position =? -1 then Ok g
    else
      let reach := i32 (position + esize e) in
      let lower := epass e <? mg_pass g in
      merge_rest rest (mk_Merge (mg_addr g) (if mg_size g <? reach then reach else mg_size g)
        (if lower then epass e else mg_pass g) (if lower then 1 else mg_intersect g) (mg_keys g ++ [ekey e]))
  end.

Definition merge_finish (m : LocationMap) (g : Merge) : LocationMap * Address * Z :=
  let m := fold_left (fun m k => tree_remove ekey k m) (mg_keys g) m in
  (map_insert ekey (mg_addr g, mk_SizePass (mg_size g) (mg_pass g)) m, mg_addr g, mg_intersect g).

Definition location_add (m : LocationMap) (addr : Address) (size pass : Z) : outcome (LocationMap * Address * Z) :=
  match search_from m (ordering_key addr) with
  | None => Ok (merge_finish m (mk_Merge addr size pass 0 []))
  | Some k =>
    let! entries := skip_first addr (range_from ekey k m) in
    let! found := merge_first addr size pass entries in
    match found with
    | inl (start, intersect) => Ok (m, start, intersect)
    | inr (g, rest) => let! g := merge_rest rest g in Ok (merge_finish m g)
    end
  end.

Definition next_key (m : LocationMap) (k : AddressKey) : option AddressKey := ekey <$> after_excl ekey k m.

Definition location_find (m : LocationMap) (addr : Address) : outcome (option Address) :=
  match before_incl ekey (ordering_key addr) m with
  | None => Ok None
  | Some e => let! position := overlap addr 0 e.1 (esize e) in Ok (if position =? -1 then None else Some e.1)
  end.

Definition find_pass (m : LocationMap) (addr : Address) : outcome Z :=
  match before_incl ekey (ordering_key addr) m with
  | None => Ok (-1)
  | Some e => let! position := overlap addr 0 e.1 (esize e) in Ok (if position =? -1 then -1 else epass e)
  end.

(** [self.themap\[&found\].0]. *)
Definition location_at (m : LocationMap) (k : option AddressKey) : outcome (option Address) :=
  match k with
  | None => Ok None
  | Some k => match tree_get ekey k m with Some e => Ok (Some e.1) | None => Panic end
  end.

Definition location_erase (m : LocationMap) (iter : Address) : outcome (LocationMap * option Address) :=
  let k := ordering_key iter in
  let m := tree_remove ekey k m in
  let! next := location_at m (next_key m k) in
  Ok (m, next).

Definition location_begin (m : LocationMap) : option Address := fst <$> head m.
Definition location_get (m : LocationMap) (iter : Address) : outcome SizePass :=
  match tree_get ekey (ordering_key iter) m with Some e => Ok e.2 | None => Panic end.
(** A write of [f] through the reference that [get_mut] returns. *)
Definition location_get_mut (m : LocationMap) (iter : Address) (f : SizePass -> SizePass) : outcome LocationMap :=
  match tree_get ekey (ordering_key iter) m with Some e => Ok (map_insert ekey (e.1, f e.2) m) | None => Panic end.
Definition location_next (m : LocationMap) (iter : Address) : outcome (option Address) := location_at m (next_key m (ordering_key iter)).

(** *** Ranges of the current pass *)

Record MemRange : Type := mk_MemRange { mr_addr : Address; mr_size : Z; mr_flags : Z }.
Definition NEW_ADDRESSES : Z := 1.
Definition OLD_ADDRESSES : Z := 2.
Definition new_addresses (r : MemRange) : bool := negb (Z.land (mr_flags r) NEW_ADDRESSES =? 0).
Definition old_addresses (r : MemRange) : bool := negb (Z.land (mr_flags r) OLD_ADDRESSES =? 0).
Definition clear_property (r : MemRange) (val : Z) : MemRange := mk_MemRange (mr_addr r) (mr_size r) (Z.land (mr_flags r) (u32 (Z.lnot val))).

Definition task_add (tasks : list MemRange) (addr : Address) (size fl : Z) : outcome (list MemRange) :=
  match list.last tasks with
  | None => Ok (tasks ++ [mk_MemRange addr size fl])
  | Some r =>
    let! over := overlap addr 0 (mr_addr r) (mr_size r) in
    if 0 <=? over then
      let relsize := i32 (size + over) in
      Ok (take (pred (length tasks)) tasks ++ [mk_MemRange (mr_addr r) (if mr_size r <? relsize then relsize else mr_size r) (Z.lor (mr_flags r) fl)])
    else Ok (tasks ++ [mk_MemRange addr size fl])
  end.

Definition task_insert (tasks : list MemRange) (pos : nat) (addr : Address) (size fl : Z) : outcome (list MemRange) :=
  if (pos <=? length tasks)%nat then Ok (take pos tasks ++ mk_MemRange addr size fl :: drop pos tasks) else Panic.
Definition task_erase (tasks : list MemRange) (iter : nat) : outcome (list MemRange) :=
  if (iter <? length tasks)%nat then Ok (take iter tasks ++ drop (S iter) tasks) else Panic.

(** *** Blocks waiting, deepest first *)

Record PriorityQueue : Type := mk_PriorityQueue { queue : list (list nat); curdepth : Z }.

Definition queue_new : PriorityQueue := mk_PriorityQueue [] (-2).

(** A length below zero is a huge [usize], which no allocation serves. *)
Definition queue_reset (q : PriorityQueue) (maxdepth : Z) : outcome PriorityQueue :=
  if (curdepth q =? -1) && (u64 (i64 maxdepth) =? u64 (Z.of_nat (length (queue q)) - 1)) then Ok q
  else
    let n := i32 (maxdepth + 1) in
    if n <? 0 then Panic else Ok (mk_PriorityQueue (replicate (Z.to_nat n) []) (-1)).

(** [self.queue\[depth as usize\]]. *)
Definition level (q : list (list nat)) (depth : Z) : outcome (list nat) := if depth <? 0 then Panic else index q (Z.to_nat depth).

Definition queue_insert (q : PriorityQueue) (bl : nat) (depth : Z) : outcome PriorityQueue :=
  let! l := level (queue q) depth in
  Ok (mk_PriorityQueue (<[Z.to_nat depth := l ++ [bl]]> (queue q)) (if curdepth q <? depth then depth else curdepth q)).

(** The [while] loop down to a level that is not empty; [fuel] is the number of levels. *)
Fixpoint drop_level (fuel : nat) (q : list (list nat)) (depth : Z) : outcome Z :=
  match fuel with
  | O => Diverge
  | S fuel =>
    let! l := level q depth in
    match l with
    | [] => let depth := i32 (depth - 1) in if depth <? 0 then Ok depth else drop_level fuel q depth
    | _ => Ok depth
    end
  end.

Definition queue_extract (q : PriorityQueue) : outcome (PriorityQueue * nat) :=
  let! l := level (queue q) (curdepth q) in
  match list.last l with
  | None => Panic
  | Some res =>
    let levels := <[Z.to_nat (curdepth q) := take (pred (length l)) l]> (queue q) in
    let! depth := drop_level (S (length levels)) levels (curdepth q) in
    Ok (mk_PriorityQueue levels depth, res)
  end.

Definition queue_empty (q : PriorityQueue) : bool := curdepth q =? -1.

Section Examples.
Definition stack_at (off : Z) : Address := address_new ram32 off.
Definition one_entry : LocationMap := [(stack_at 0x108, mk_SizePass 8 3)].

(** An overlap with a later start merges when an entry comes first. *)
Example add_merges : location_add ((stack_at 0x10, mk_SizePass 4 0) :: one_entry) (stack_at 0x100) 12 5 =
  Ok ([(stack_at 0x10, mk_SizePass 4 0); (stack_at 0x100, mk_SizePass 16 3)], stack_at 0x100, 1).
Proof. by vm_compute. Qed.

(** The same range added before every entry is not merged: the entries overlap. *)
Example add_before_all : location_add one_entry (stack_at 0x100) 12 5 =
  Ok ([(stack_at 0x100, mk_SizePass 12 5); (stack_at 0x108, mk_SizePass 8 3)], stack_at 0x100, 0).
Proof. by vm_compute. Qed.

Example extract_deepest : (let! q := queue_reset queue_new 3 in let! q := queue_insert q 7 1 in let! q := queue_insert q 9 3 in
    let! q := queue_insert q 5 1 in let! r := queue_extract q in Ok (r.2, curdepth r.1)) = Ok (9%nat, 1).
Proof. by vm_compute. Qed.
End Examples.
