(* ===== verification/HeritageMap.v ===== *)
(** What the containers of [Heritage] promise.  The ranges of a [LocationMap] stay
    disjoint; adding a range merges it with exactly the ranges it meets, with the
    lowest pass among them, and the lookups find the range that holds an address.  The
    queue hands out a block of the greatest depth. *)
From stdpp Require Import base list sorting sets numbers strings.
From Stdlib Require Import ZArith Lia.
From S2P Require Import Prelude Bits Multiprecision BTree Space Address GlobalContext Heritage.
Local Open Scope Z_scope.
Local Open Scope rust_scope.

(** ** Ranges *)

Definition idx (a : Address) : Z := key_space (ordering_key a).
Definition elo (e : LocEntry) : Z := offset e.1.
Definition ehi (e : LocEntry) : Z := offset e.1 + esize e.
Definition eidx (e : LocEntry) : Z := idx e.1.

(** [a] is an address of the range of [size] bytes at [b]. *)
Definition inside (a b : Address) (size : Z) : Prop := idx a = idx b /\ offset b <= offset a < offset b + size.
#[export] Instance inside_dec a b size : Decision (inside a b size).
Proof. unfold inside. apply _. Defined.

Lemma addr_key_lt a b : klt (ordering_key a) (ordering_key b) <-> idx a < idx b \/ (idx a = idx b /\ offset a < offset b).
Proof.
  unfold klt, idx, ordering_key. simpl. unfold address_key_cmp. simpl.
  destruct (Z.compare_spec (match space a with Some spc => space_index spc | None => -1 end) (match space b with Some spc => space_index spc | None => -1 end)); simpl; rewrite ?Z.compare_lt_iff; split; (lia || done).
Qed.

Lemma key_eq a b : ordering_key a = ordering_key b <-> idx a = idx b /\ offset a = offset b.
Proof. unfold idx, ordering_key. simpl. split; [by intros [= -> ->]|by intros [-> ->]]. Qed.

Section Split.
Context (m : LocationMap) (Hm : sorted ekey m) (k : AddressKey).

(** A sorted map is what lies before a key and what does not. *)
Lemma sorted_split : m = filter (fun e => klt (ekey e) k) m ++ filter (fun e => kle k (ekey e)) m.
Proof.
  clear -Hm. induction m as [|e l IH]; [done|]. apply sorted_cons in Hm as [Hl He]. rewrite !filter_cons. destruct (decide (klt (ekey e) k)) as [Hlt|Hge].
  - rewrite (decide_False (P := kle k (ekey e))) by (by apply not_kle). simpl. f_equal. by apply IH.
  - apply not_klt in Hge. rewrite decide_True by done.
    assert (filter (fun e => klt (ekey e) k) l = []) as ->.
    { destruct (filter _ l) as [|x t] eqn:E; [done|]. assert (x ∈ filter (fun e => klt (ekey e) k) l) as [Hx Hin]%list_elem_of_filter by (rewrite E; by left).
      destruct (klt_irrefl k). eapply kle_klt_trans; [exact Hge|]. eapply klt_trans; [by apply He|done]. }
    simpl. f_equal. symmetry. apply filter_id. intros x Hx. apply kle_lt_eq. left. eapply kle_klt_trans; [exact Hge|by apply He].
Qed.

Abbreviation Lo := (filter (fun e => klt (ekey e) k) m).
Abbreviation Hi := (filter (fun e => kle k (ekey e)) m).

Lemma range_from_last L0 e0 : Lo = L0 ++ [e0] -> range_from ekey (ekey e0) m = e0 :: Hi.
Proof.
  intros E. unfold range_from. rewrite sorted_split at 1. rewrite E. pose proof Hm as Hs. rewrite sorted_split, E in Hs.
  rewrite !filter_app. assert (filter (fun x => kle (ekey e0) (ekey x)) L0 = []) as ->.
  { destruct (filter _ L0) as [|x t] eqn:F; [done|]. assert (x ∈ filter (fun x => kle (ekey e0) (ekey x)) L0) as [Hx Hin]%list_elem_of_filter by (rewrite F; by left).
    exfalso. rewrite <- app_assoc in Hs. unfold sorted in Hs. apply StronglySorted_app in Hs as (Hs & _).
    rewrite <- not_klt in Hx. apply Hx. apply (Hs x e0); [done|set_solver]. }
  simpl. rewrite filter_cons_True by apply kle_refl. simpl. f_equal. apply filter_id. intros x [Hx _]%list_elem_of_filter.
  assert (e0 ∈ Lo) as [He _]%list_elem_of_filter by (rewrite E; set_solver). apply kle_lt_eq. left. by eapply klt_kle_trans.
Qed.
End Split.

(** ** Maps of disjoint ranges *)

Section Locations.
(** The number of address bits of the space with an index. *)
Context (width : Z -> Z).

(** A range in a space of data that does not wrap around its end. *)
Definition range_ok (a : Address) (size : Z) : Prop :=
  exists spc, space a = Some spc /\ pow2_space spc (width (space_index spc)) /\ space_type spc <> Constant /\
    0 <= offset a /\ 0 < size < 2 ^ 31 /\ offset a + size <= 2 ^ width (space_index spc).

Definition apart (e e' : LocEntry) : Prop := eidx e = eidx e' -> ehi e <= elo e' \/ ehi e' <= elo e.

Definition map_ok (m : LocationMap) : Prop :=
  sorted ekey m /\ Forall (fun e => range_ok e.1 (esize e)) m /\ forall e e', e ∈ m -> e' ∈ m -> e <> e' -> apart e e'.

Lemma overlap_spec a sa b sb : range_ok a sa -> range_ok b sb -> overlap a 0 b sb = Ok (if decide (inside a b sb) then offset a - offset b else -1).
Proof.
  intros (sp & Ha & Hk & Hc & Hoa & Hsa & Hea) (sp' & Hb & Hk' & Hc' & Hob & Hsb & Heb).
  assert (idx a = space_index sp) as Ia by (unfold idx, ordering_key; by rewrite Ha). assert (idx b = space_index sp') as Ib by (unfold idx, ordering_key; by rewrite Hb).
  destruct (decide (space_index sp = space_index sp')) as [Eidx|Hne].
  - rewrite Eidx in *. destruct (overlap_correct sp (width (space_index sp')) Hk a b 0 sb) as (d & -> & Hd & Hi);
      [done|by rewrite Hb; simpl; rewrite Eidx|done|lia|lia|done|unfold is_s; lia|lia|]. f_equal.
    assert (forall i, 0 <= i < sb -> d = i <-> offset b + i = offset a) as Hpos.
    { intros i Hb'. rewrite Hi by done. rewrite !Z.mod_small by lia. split; lia. }
    destruct (decide _) as [[_ Hin]|Hout].
    + apply Hpos; lia.
    + destruct (Z.lt_ge_cases d 0); [lia|]. pose proof (proj1 (Hpos d ltac:(lia)) eq_refl). exfalso. apply Hout. split; [congruence|lia].
  - unfold overlap, same_base. rewrite Ha, Hb. simpl. rewrite bool_decide_false by congruence. simpl.
    rewrite decide_False; [done|]. intros [E _]. congruence.
Qed.

(** ** Lookups *)

(** The entry that holds an address is the last one that does not start after it. *)
Lemma holder_last m e a : map_ok m -> e ∈ m -> inside a e.1 (esize e) -> before_incl ekey (ordering_key a) m = Some e.
Proof.
  intros (Hs & Hok & Hap) He [Hi Hr]. apply before_incl_Some; [done|]. split; [done|]. split.
  - apply not_klt. unfold ekey. rewrite addr_key_lt. lia.
  - intros y Hy Hle. rewrite <- not_klt in *. unfold ekey in *. rewrite addr_key_lt in *. intros Hlt.
    assert (e <> y) as Hne by (intros ->; lia). specialize (Hap e y He Hy Hne). unfold apart, eidx, elo, ehi in Hap.
    rewrite Forall_forall in Hok. destruct (Hok y Hy) as (_ & _ & _ & _ & _ & Hsz & _). lia.
Qed.

Lemma loc_before_entry m e a size : map_ok m -> range_ok a size -> before_incl ekey (ordering_key a) m = Some e ->
  e ∈ m /\ overlap a 0 e.1 (esize e) = Ok (if decide (inside a e.1 (esize e)) then offset a - elo e else -1).
Proof.
  intros (Hs & Hok & _) Ha Hb. apply before_incl_Some in Hb as (He & _ & _); [|done]. split; [done|]. rewrite Forall_forall in Hok.
  by apply (overlap_spec a size), Hok.
Qed.

(** The answer of a lookup, found and not found. *)
Lemma find_cases m a size : map_ok m -> range_ok a size ->
  (exists e, e ∈ m /\ inside a e.1 (esize e) /\ location_find m a = Ok (Some e.1) /\ find_pass m a = Ok (epass e)) \/
  ((forall e, e ∈ m -> ~ inside a e.1 (esize e)) /\ location_find m a = Ok None /\ find_pass m a = Ok (-1)).
Proof.
  intros Hm Ha. unfold location_find, find_pass. destruct (before_incl ekey (ordering_key a) m) as [e|] eqn:E.
  - destruct (loc_before_entry m e a size Hm Ha E) as [He ->]. cbn [obind]. destruct (decide _) as [Hin|Hout].
    + left. exists e. rewrite (proj2 (Z.eqb_neq _ _)) by (destruct Hin; unfold elo; lia). done.
    + right. split_and!; [|done..]. intros e' He' Hin. pose proof (holder_last m e' a Hm He' Hin) as E'. congruence.
  - right. split_and!; [|done..]. intros e He Hin. pose proof (holder_last m e a Hm He Hin). congruence.
Qed.

(** ** Merging *)

Section Add.
Context (m : LocationMap) (Hm : map_ok m) (addr : Address) (size pass : Z) (Ha : range_ok addr size).
Abbreviation lo0 := (offset addr).
Abbreviation hi0 := (offset addr + size).

(** The entry shares an address with the range to be added. *)
Definition meets (e : LocEntry) : Prop := eidx e = idx addr /\ elo e < hi0 /\ lo0 < ehi e.

(** The intervals that can be merged, and that they fit in one [i32] together. *)
Definition part (l h : Z) : Prop := (l = lo0 /\ h = hi0) \/ exists e, e ∈ m /\ meets e /\ l = elo e /\ h = ehi e.
Definition near : Prop := forall l h l' h', part l h -> part l' h' -> h' - l < 2 ^ 31.
Context (Hnear : near).

Definition ghi (g : Merge) : Z := offset (mg_addr g) + mg_size g.

(** The state of the merge after the entries [A]. *)
Record merging (A : LocationMap) (g : Merge) : Prop := mk_merging {
  mo_range : range_ok (mg_addr g) (mg_size g) /\ idx (mg_addr g) = idx addr;
  mo_ends : (exists h, part (offset (mg_addr g)) h) /\ exists l, part l (ghi g);
  mo_hull : forall p, offset (mg_addr g) <= p < ghi g <-> lo0 <= p < hi0 \/ exists e, e ∈ A /\ elo e <= p < ehi e;
  mo_sub : forall e, e ∈ A -> e ∈ m /\ meets e;
  mo_keys : mg_keys g = ekey <$> A;
  mo_pass : mg_pass g <= pass /\ (forall e, e ∈ A -> mg_pass g <= epass e) /\ (mg_pass g = pass \/ exists e, e ∈ A /\ mg_pass g = epass e);
  mo_intersect : mg_intersect g = if mg_pass g <? pass then 1 else 0 }.

Lemma entry_ok e : e ∈ m -> range_ok e.1 (esize e).
Proof. destruct Hm as (_ & Hok & _). rewrite Forall_forall in Hok. apply Hok. Qed.

Lemma loc_entry_pos e : e ∈ m -> elo e < ehi e.
Proof. intros (_ & _ & _ & _ & _ & Hs & _)%entry_ok. unfold elo, ehi. lia. Qed.

Lemma size_pos : lo0 < hi0.
Proof. destruct Ha as (_ & _ & _ & _ & _ & Hs & _). lia. Qed.

(** A range between the ends of two ranges of one space is a range. *)
Lemma hull_ok a sa b sb s : range_ok a sa -> range_ok b sb -> idx a = idx b -> 0 < s < 2 ^ 31 -> offset a + s <= offset b + sb -> range_ok a s.
Proof.
  intros (sp & Hs & Hk & Hc & Ho & _ & _) (sp' & Hs' & _ & _ & _ & _ & He) Hi Hsz Hend. exists sp. split_and!; [done..|lia|lia|].
  unfold idx, ordering_key in Hi. rewrite Hs, Hs' in Hi. simpl in Hi. rewrite Hi. lia.
Qed.

Lemma merging_start : merging [] (mk_Merge addr size pass 0 []).
Proof.
  split; simpl; [done| | |set_solver|done|split_and!; [lia|set_solver|by left]|by rewrite Z.ltb_irrefl].
  - split; [exists hi0|exists lo0]; by left.
  - intros p. unfold ghi. simpl. set_solver.
Qed.

(** The pass and the flag after one more entry. *)
Lemma lower_pass A p x e : (p <= pass /\ (forall e, e ∈ A -> p <= epass e) /\ (p = pass \/ exists e, e ∈ A /\ p = epass e)) -> x = (if p <? pass then 1 else 0) ->
  let lower := epass e <? p in let p' := if lower then epass e else p in
  (p' <= pass /\ (forall e', e' ∈ A ++ [e] -> p' <= epass e') /\ (p' = pass \/ exists e', e' ∈ A ++ [e] /\ p' = epass e')) /\
  (if lower then 1 else x) = (if p' <? pass then 1 else 0).
Proof.
  intros (H1 & H2 & H3) Hx. cbv zeta. destruct (Z.ltb_spec (epass e) p).
  - rewrite (proj2 (Z.ltb_lt (epass e) pass)) by lia. split; [|done]. split_and!; [lia| |right; exists e; set_solver].
    intros e' [Hin| ->%list_elem_of_singleton]%elem_of_app; [|lia]. specialize (H2 e' Hin). lia.
  - split; [|done]. split_and!; [lia| |destruct H3 as [?|(e' & ? & ?)]; [by left|right; exists e'; set_solver]].
    intros e' [Hin| ->%list_elem_of_singleton]%elem_of_app; [by apply H2|lia].
Qed.

Lemma merging_first e : e ∈ m -> inside addr e.1 (esize e) -> esize e < (lo0 - elo e) + size ->
  let lower := epass e <? pass in
  merging [e] (mk_Merge e.1 (i32 (size + (lo0 - elo e))) (if lower then epass e else pass) (if lower then 1 else 0) [ekey e]) /\
  elo e + i32 (size + (lo0 - elo e)) = hi0.
Proof.
  intros He [Hi Hr] Hbig lower. pose proof size_pos as Hs. pose proof (entry_ok e He) as Hok. pose proof (loc_entry_pos e He).
  assert (meets e) as Hme by (unfold meets, eidx, elo, ehi in *; lia).
  assert (size + (lo0 - elo e) < 2 ^ 31) as Hfit.
  { pose proof (Hnear (elo e) (ehi e) lo0 hi0) as Hn. assert (hi0 - elo e < 2 ^ 31); [apply Hn; [right; by exists e|by left]|]. lia. }
  unfold elo in *. rewrite i32_small by lia. split; [|lia]. destruct (lower_pass [] pass 0 e) as [Hp Hx]; [split_and!; [lia|set_solver|by left]|by rewrite Z.ltb_irrefl|].
  split; simpl; [|split| |intros e' ->%list_elem_of_singleton; done|done|done|done].
  - split; [|unfold eidx in *; congruence]. apply (hull_ok e.1 (esize e) addr size); try done; lia.
  - exists (ehi e). right. by exists e.
  - exists lo0. left. unfold ghi. simpl. lia.
  - intros p. unfold ghi, elo, ehi in *. simpl. split.
    + intros Hpt. destruct (Z.lt_ge_cases p lo0); [right; exists e; split; [by left|lia]|left; lia].
    + intros [?|(e' & ->%list_elem_of_singleton & ?)]; lia.
Qed.

Lemma merging_step A g e : merging A g -> e ∈ m -> meets e -> inside e.1 (mg_addr g) (mg_size g) ->
  let reach := i32 (elo e - offset (mg_addr g) + esize e) in let lower := epass e <? mg_pass g in
  let g' := mk_Merge (mg_addr g) (if mg_size g <? reach then reach else mg_size g)
    (if lower then epass e else mg_pass g) (if lower then 1 else mg_intersect g) (mg_keys g ++ [ekey e]) in
  merging (A ++ [e]) g' /\ ghi g' = Z.max (ghi g) (ehi e).
Proof.
  intros [[Hok Hidx] [[h Hh] [l Hl]] Hhull Hsub Hkeys Hpass Hx] He Hme [Hi Hr] reach lower g'. pose proof (entry_ok e He) as Heok. pose proof (loc_entry_pos e He) as Hpos.
  assert (reach = ehi e - offset (mg_addr g)) as Hreach.
  { unfold reach. rewrite i32_small; [unfold ehi, elo; lia|]. pose proof (Hnear _ _ _ _ Hh (or_intror (ex_intro _ e (conj He (conj Hme (conj eq_refl eq_refl)))))) as Hn.
    unfold elo, ehi in *. lia. }
  assert (ghi g' = Z.max (ghi g) (ehi e)) as Hghi.
  { unfold ghi, g'. simpl. rewrite Hreach. destruct (Z.ltb_spec (mg_size g) (ehi e - offset (mg_addr g))); lia. }
  split; [|done]. destruct (lower_pass A (mg_pass g) (mg_intersect g) e Hpass Hx) as [Hp Hx']. fold lower in Hp, Hx'.
  split; [|split| | |unfold g'; simpl; by rewrite Hkeys, fmap_app|done|done].
  - split; [|done]. unfold g'. simpl. rewrite Hreach. destruct (Z.ltb_spec (mg_size g) (ehi e - offset (mg_addr g))) as [Hlt|]; [|done].
    apply (hull_ok (mg_addr g) (mg_size g) e.1 (esize e)); try done; [destruct Hok as (_ & _ & _ & _ & _ & Hsz & _)|unfold ehi; lia].
    pose proof (Hnear _ _ _ _ Hh (or_intror (ex_intro _ e (conj He (conj Hme (conj eq_refl eq_refl)))))). lia.
  - by exists h.
  - destruct (Z.max_spec (ghi g) (ehi e)) as [[_ E]|[_ E]]; rewrite E in Hghi; rewrite Hghi; [exists (elo e); right; by exists e|by exists l].
  - intros p. rewrite Hghi. change (mg_addr g') with (mg_addr g). unfold elo in *. split.
    + intros Hpt. destruct (Z.lt_ge_cases p (ghi g)).
      * destruct (proj1 (Hhull p) ltac:(lia)) as [?|(e' & ? & ?)]; [by left|right; exists e'; set_solver].
      * right. exists e. split; [set_solver|unfold ghi in *; lia].
    + intros [Hpt|(e' & [Hin| ->%list_elem_of_singleton]%elem_of_app & Hpt)].
      * pose proof (proj2 (Hhull p) (or_introl Hpt)). lia.
      * pose proof (proj2 (Hhull p) (or_intror (ex_intro _ e' (conj Hin Hpt)))). lia.
      * lia.
  - intros e' [Hin| ->%list_elem_of_singleton]%elem_of_app; [by apply Hsub|done].
Qed.

(** Two entries in order: the first ends before the second starts. *)
Lemma in_order e e' : e ∈ m -> e' ∈ m -> klt (ekey e) (ekey e') -> eidx e = eidx e' -> ehi e <= elo e'.
Proof.
  intros He He' Hlt Hi. destruct Hm as (_ & _ & Hap). pose proof (loc_entry_pos e He). pose proof (loc_entry_pos e' He'). unfold ekey in Hlt. rewrite addr_key_lt in Hlt. unfold eidx, elo, ehi in *.
  destruct (Hap e e' He He') as [?|?]; [intros ->; lia|done|done|unfold elo, ehi in *; lia].
Qed.

Lemma hull_covers A g : merging A g -> offset (mg_addr g) <= lo0 /\ hi0 <= ghi g.
Proof.
  intros HA. pose proof size_pos. pose proof (mo_hull A g HA lo0) as H1. pose proof (mo_hull A g HA (hi0 - 1)) as H2.
  assert (offset (mg_addr g) <= lo0 < ghi g) by (apply H1; left; lia). assert (offset (mg_addr g) <= hi0 - 1 < ghi g) by (apply H2; left; lia). lia.
Qed.

(** The loop takes exactly the entries that meet the range. *)
Lemma merge_rest_spec R : forall A g, merging A g -> sorted ekey R -> (forall e, e ∈ R -> e ∈ m /\ kle (ordering_key addr) (ekey e)) ->
  ghi g = hi0 \/ (forall e, e ∈ R -> eidx e = idx addr -> ghi g <= elo e) ->
  exists A' B g', R = A' ++ B /\ merge_rest R g = Ok g' /\ merging (A ++ A') g' /\ forall e, e ∈ B -> ~ meets e.
Proof.
  induction R as [|e R IH]; intros A g HA Hs Hin Hend; [exists [], [], g; rewrite (app_nil_r A); split_and!; [done..|by intros e ?%not_elem_of_nil]|]. cbn [merge_rest].
  apply sorted_cons in Hs as [Hs He]. destruct (Hin e) as [Hem Hge]; [by left|]. pose proof (mo_range A g HA) as [Hok Hidx]. pose proof (hull_covers A g HA) as Hcov.
  rewrite (overlap_spec e.1 (esize e)) by (done || by apply entry_ok). cbn [obind]. rewrite <- not_klt in Hge. unfold ekey in Hge. rewrite addr_key_lt in Hge.
  pose proof (loc_entry_pos e Hem) as Hpos. destruct (decide (inside e.1 (mg_addr g) (mg_size g))) as [Hins|Hout].
  - pose proof Hins as [Hi Hr]. rewrite (proj2 (Z.eqb_neq _ _)) by lia.
    assert (meets e) as Hme.
    { unfold meets, eidx. split; [congruence|]. destruct Hend as [E|Hlater]; unfold ghi, elo, ehi in *; [rewrite Hidx in Hi; lia|].
      specialize (Hlater e ltac:(by left) ltac:(unfold eidx; congruence)). lia. }
    destruct (merging_step A g e HA Hem Hme Hins) as [HA' Hg'].
    destruct (IH _ _ HA' Hs) as (A' & B & g'' & -> & E & HA'' & HB).
    + intros x Hx. apply Hin. by right.
    + unfold meets, elo, ehi in *. destruct Hend as [Hend|Hlater]; [|specialize (Hlater e ltac:(by left) ltac:(tauto)); unfold ghi in *; lia].
      destruct (Z.le_gt_cases (ehi e) hi0); [left; rewrite Hg'; unfold ehi in *; lia|]. right. intros x Hx Hxi. rewrite Hg'.
      pose proof (in_order e x Hem (proj1 (Hin x ltac:(by right))) (He x Hx)) as Ho. unfold ehi, elo in *. destruct Hme as (Hme & _). specialize (Ho ltac:(congruence)). lia.
    + exists (e :: A'), B, g''. split; [done|]. split; [exact E|]. split; [by rewrite <- app_assoc in HA''|done].
  - exists [], (e :: R), g. rewrite (app_nil_r A). split_and!; [done|done|done|].
    assert (eidx e = idx addr -> hi0 <= elo e) as Hfar.
    { intros Hi. destruct (Z.le_gt_cases hi0 (elo e)) as [|Hlt]; [done|]. exfalso. apply Hout. unfold eidx, elo, ghi in *. split; [congruence|lia]. }
    intros x [->|Hx]%elem_of_cons (Hi & Hlt & _); [specialize (Hfar Hi); lia|]. pose proof (He x Hx) as Hk. destruct (Hin x) as [Hxm _]; [by right|].
    unfold ekey in Hk. rewrite addr_key_lt in Hk. unfold eidx, elo in *. destruct (Z.eq_dec (idx e.1) (idx addr)) as [Ei|Ei]; [specialize (Hfar Ei)|]; lia.
Qed.

Lemma loc_fold_remove ks : forall l e, e ∈ fold_left (fun m k => tree_remove ekey k m) ks l <-> e ∈ l /\ ekey e ∉ ks.
Proof.
  induction ks as [|k ks IH]; intros l e; simpl; [set_solver|]. rewrite IH, elem_of_tree_remove. set_solver.
Qed.

Lemma sorted_fold_remove ks : forall l, sorted ekey l -> sorted ekey (fold_left (fun m k => tree_remove ekey k m) ks l).
Proof. induction ks as [|k ks IH]; intros l Hl; simpl; [done|]. by apply IH, sorted_tree_remove. Qed.

Definition merged_entry (g : Merge) : LocEntry := (mg_addr g, mk_SizePass (mg_size g) (mg_pass g)).

(** An entry that does not meet the range keeps clear of the merged one. *)
Lemma kept_clear A g e : merging A g -> e ∈ m -> ~ meets e -> eidx e = idx addr -> ehi e <= offset (mg_addr g) \/ ghi g <= elo e.
Proof.
  intros HA He Hno Hi. destruct (Z.le_gt_cases (ehi e) (offset (mg_addr g))) as [|Hlt]; [by left|]. right. destruct (Z.le_gt_cases (ghi g) (elo e)) as [|Hgt]; [done|]. exfalso.
  pose proof (loc_entry_pos e He) as Hpos. pose proof (mo_hull A g HA (Z.max (elo e) (offset (mg_addr g)))) as Hh.
  assert (offset (mg_addr g) < ghi g) as Hg by (pose proof (hull_covers A g HA); pose proof size_pos; lia).
  destruct (proj1 Hh ltac:(lia)) as [Hr|(x & Hx & Hr)].
  - apply Hno. unfold meets. split; [done|]. lia.
  - destruct (mo_sub A g HA x Hx) as [Hxm Hxme]. destruct Hm as (_ & _ & Hap). destruct (Hap e x He Hxm) as [?|?]; [by intros ->|destruct Hxme; congruence|lia|lia].
Qed.

Lemma finish_ok A g : merging A g -> (forall e, e ∈ m -> meets e -> e ∈ A) ->
  exists m', merge_finish m g = (m', mg_addr g, mg_intersect g) /\ map_ok m' /\ forall e, e ∈ m' <-> e = merged_entry g \/ (e ∈ m /\ ~ meets e).
Proof.
  intros HA Hall. unfold merge_finish. eexists. split; [done|]. destruct Hm as (Hs & Hok & Hap). pose proof (mo_range A g HA) as [Hgok Hgi].
  set (rest := fold_left _ _ _). fold (merged_entry g). assert (sorted ekey rest) as Hrs by (by apply sorted_fold_remove).
  assert (forall e, e ∈ rest <-> e ∈ m /\ ~ meets e) as Hrest.
  { intros e. unfold rest. rewrite loc_fold_remove, (mo_keys A g HA), list_elem_of_fmap. split; intros [He Hk]; (split; [done|]).
    - intros Hme. apply Hk. exists e. split; [done|]. by apply Hall.
    - intros (x & Ek & Hx). destruct (mo_sub A g HA x Hx) as [Hxm Hxme]. apply Hk. by rewrite (sorted_key_inj ekey m e x). }
  assert (forall e, e ∈ map_insert ekey (merged_entry g) rest <-> e = merged_entry g \/ (e ∈ m /\ ~ meets e)) as Hmem.
  { intros e. rewrite elem_of_map_insert by done. rewrite Hrest. split; [tauto|]. intros [?|[He Hno]]; [by left|]. right. split; [done|].
    intros Ek. unfold ekey in Ek. apply key_eq in Ek as [Ei Eo]. simpl in *. destruct (kept_clear A g e HA He Hno) as [?|?]; [unfold eidx; congruence|..];
      pose proof (loc_entry_pos e He); pose proof (hull_covers A g HA); pose proof size_pos; unfold elo, ehi in *; lia. }
  split; [|done]. split_and!; [by apply sorted_map_insert| |].
  - apply Forall_forall. intros e [->|[He _]]%Hmem; [done|]. by apply entry_ok.
  - assert (forall e, e ∈ m -> ~ meets e -> apart e (merged_entry g)) as Hclear.
    { intros e He Hno Hi. apply (kept_clear A g e HA He Hno). unfold eidx, merged_entry in Hi. simpl in Hi. unfold eidx. congruence. }
    intros e e' [->|[He Hno]]%Hmem [->|[He' Hno']]%Hmem Hne; [done| |by apply Hclear|by apply Hap].
    intros Hi. destruct (Hclear e' He' Hno' (eq_sym Hi)); auto.
Qed.

(** The first range of the map does not start inside the new range, past its start. *)
Definition first_clear : Prop := forall e, head m = Some e -> meets e -> elo e <= lo0.

(** Where the search begins: past entries that do not meet the range, at an entry that
    holds its start or does not come before it. *)
Lemma skip_spec : first_clear -> m <> [] -> exists k P S, search_from m (ordering_key addr) = Some k /\ m = P ++ S /\
  skip_first addr (range_from ekey k m) = Ok S /\ (forall e, e ∈ P -> ~ meets e) /\
  (forall e, e ∈ tail S -> kle (ordering_key addr) (ekey e)) /\ (forall e, head S = Some e -> inside addr e.1 (esize e) \/ kle (ordering_key addr) (ekey e)).
Proof.
  intros Hfirst Hne. destruct Hm as (Hs & _ & _). pose proof (sorted_split m Hs (ordering_key addr)) as Hsplit.
  set (Hi := filter (fun e => kle (ordering_key addr) (ekey e)) m) in *. assert (forall e, e ∈ Hi -> e ∈ m /\ kle (ordering_key addr) (ekey e)) as HHi by (intros e [? ?]%list_elem_of_filter; done).
  unfold search_from, before_excl. destruct (list.last (filter (fun e => klt (ekey e) (ordering_key addr)) m)) as [e0|] eqn:El.
  - apply list.last_Some in El as [L0 EL]. rewrite EL in Hsplit. exists (ekey e0). rewrite (range_from_last m Hs (ordering_key addr) L0 e0 EL). fold Hi.
    assert (forall e, e ∈ L0 ++ [e0] -> e ∈ m /\ klt (ekey e) (ordering_key addr)) as HLo by (intros e He; rewrite <- EL in He; by apply list_elem_of_filter in He as [? ?]).
    destruct (HLo e0) as [H0 Hlt0]; [set_solver|]. cbn [skip_first]. rewrite (overlap_spec addr size) by (done || by apply entry_ok). cbn [obind].
    assert (forall e, e ∈ L0 -> ~ meets e) as HL0.
    { intros e He (Ei & _ & Hgt). destruct (HLo e) as [Hem Hlt]; [set_solver|]. pose proof Hs as Hs'. rewrite Hsplit, <- app_assoc in Hs'.
      apply StronglySorted_app in Hs' as (Hord & _). specialize (Hord e e0 He ltac:(set_solver)). pose proof (in_order e e0 Hem H0 Hord) as Ho. pose proof (loc_entry_pos e0 H0).
      unfold ekey in *. rewrite addr_key_lt in *. unfold eidx, elo, ehi in *. destruct (Z.eq_dec (idx e0.1) (idx addr)) as [E|E]; [specialize (Ho ltac:(congruence))|]; lia. }
    destruct (decide (inside addr e0.1 (esize e0))) as [Hin|Hout].
    + exists L0, (e0 :: Hi). rewrite <- app_assoc in Hsplit. rewrite (proj2 (Z.eqb_neq _ _)) by (destruct Hin; lia). split_and!; [done..| |]; [intros e He; by apply HHi|by intros e [= <-]; left].
    + exists (L0 ++ [e0]), Hi. split_and!; [done..| | |].
      * intros e [He| ->%list_elem_of_singleton]%elem_of_app; [by apply HL0|]. intros (Ei & _ & Hgt). apply Hout. unfold ekey in Hlt0. rewrite addr_key_lt in Hlt0.
        unfold eidx, ehi in *. split; [done|lia].
      * intros e He. apply HHi. destruct Hi; [done|by right].
      * intros e He. right. apply HHi. destruct Hi; [done|]. injection He as ->. by left.
  - apply list.last_None in El. rewrite El in Hsplit. simpl in Hsplit. rewrite <- Hsplit in HHi.
    assert (exists e1 l, m = e1 :: l) as (e1 & l & Em) by (destruct m; [done|eauto]). assert (e1 ∈ m) as H1 by (rewrite Em; by left).
    exists (ekey e1). assert (range_from ekey (ekey e1) m = e1 :: l) as ->.
    { rewrite Em. apply filter_id. rewrite Em in Hs. intros x [->|Hx]%elem_of_cons; [apply kle_refl|]. apply kle_lt_eq. left. apply sorted_cons in Hs as [_ Hs]. by apply Hs. }
    assert (head m = Some e1) as Hhead by (by rewrite Em). rewrite Hhead.
    assert (forall e, e ∈ l -> e ∈ m /\ kle (ordering_key addr) (ekey e)) as Hl by (intros e He; apply HHi; rewrite Em; by right).
    cbn [skip_first]. rewrite (overlap_spec addr size) by (done || by apply entry_ok). cbn [obind].
    destruct (decide (inside addr e1.1 (esize e1))) as [Hin|Hout].
    + exists [], (e1 :: l). rewrite (proj2 (Z.eqb_neq _ _)) by (destruct Hin; lia). split_and!; [done..|by intros e ?%not_elem_of_nil| |by intros e [= <-]; left]. intros e He. by apply Hl.
    + exists [e1], l. split_and!; [done..| | |].
      * intros e ->%list_elem_of_singleton Hme. pose proof (Hfirst e1 Hhead Hme) as Hle. apply Hout. destruct Hme as (Ei & _ & ?). destruct (HHi e1 H1) as [_ Hk].
        rewrite <- not_klt in Hk. unfold ekey in Hk. rewrite addr_key_lt in Hk. unfold eidx, elo, ehi in *. split; [done|lia].
      * intros e He. apply Hl. destruct l; [done|by right].
      * intros e He. right. apply Hl. destruct l; [done|]. injection He as ->. by left.
Qed.

(** What [add] leaves: the entry of the range, what it covers, and the others. *)
Record added (m' : LocationMap) (e' : LocEntry) : Prop := mk_added {
  ad_ok : map_ok m';
  ad_idx : eidx e' = idx addr;
  ad_members : forall e, e ∈ m' <-> e = e' \/ (e ∈ m /\ ~ meets e);
  ad_cover : forall p, elo e' <= p < ehi e' <-> lo0 <= p < hi0 \/ exists e, e ∈ m /\ meets e /\ elo e <= p < ehi e }.

(** The pass and the answer when ranges were merged. *)
Definition lowest (e' : LocEntry) (x : Z) : Prop :=
  epass e' <= pass /\ (forall e, e ∈ m -> meets e -> epass e' <= epass e) /\
  (epass e' = pass \/ exists e, e ∈ m /\ meets e /\ epass e' = epass e) /\ x = (if epass e' <? pass then 1 else 0).

Lemma add_merged A g : merging A g -> (forall e, e ∈ m -> meets e -> e ∈ A) ->
  exists m' e', merge_finish m g = (m', e'.1, mg_intersect g) /\ added m' e' /\ lowest e' (mg_intersect g).
Proof.
  intros HA Hall. destruct (finish_ok A g HA Hall) as (m' & E & Hok & Hmem). exists m', (merged_entry g). pose proof (mo_sub A g HA) as Hsub. split; [done|]. split.
  - split; [done|apply (mo_range A g HA)|done|]. intros p. unfold elo, ehi, merged_entry. simpl. rewrite (mo_hull A g HA p).
    split; (intros [?|(e & He & Hp)]; [by left|right; exists e]); [destruct (Hsub e He); done|destruct Hp as [Hme Hp]; split; [by apply Hall|done]].
  - destruct (mo_pass A g HA) as (H1 & H2 & H3). split_and!; [done| | |apply (mo_intersect A g HA)].
    + intros e He Hme. by apply H2, Hall.
    + destruct H3 as [?|(e & He & ?)]; [by left|right; exists e; destruct (Hsub e He); done].
Qed.

Lemma add_contained e : e ∈ m -> inside addr e.1 (esize e) -> hi0 <= ehi e -> added m e.
Proof.
  intros He [Hi Hr] Hend. pose proof size_pos. assert (meets e) as Hme by (unfold meets, eidx, elo, ehi in *; lia). destruct Hm as (_ & _ & Hap).
  split; [done|done| |].
  - intros x. split; [|by intros [->|[? _]]]. intros Hx. destruct (Z.eq_dec (elo x) (elo e)) as [Eo|No].
    + destruct (Z.eq_dec (eidx x) (eidx e)) as [Ei|Ni]; [|right; split; [done|]; unfold meets, eidx in *; lia].
      left. destruct Hm as (Hs & _ & _). apply (sorted_key_inj ekey m); try done. unfold ekey. by apply key_eq.
    + right. split; [done|]. intros (Ei & H1 & H2). destruct (Hap x e Hx He) as [?|?]; [by intros ->|unfold eidx in *; congruence|..]; unfold elo, ehi in *; lia.
  - intros p. split; [intros Hp; right; by exists e|]. intros [Hp|(x & Hx & (Ei & H1 & H2) & Hp)]; [unfold elo, ehi in *; lia|].
    pose proof (loc_entry_pos x Hx). destruct (Z.eq_dec (elo x) (elo e)) as [Eo|No].
    + assert (x = e) as ->; [|done]. destruct Hm as (Hs & _ & _). apply (sorted_key_inj ekey m); try done. unfold ekey. apply key_eq. unfold eidx in Ei. by split; [congruence|].
    + destruct (Hap x e Hx He) as [?|?]; [by intros ->|unfold eidx in *; congruence|..]; unfold elo, ehi in *; lia.
Qed.

Lemma add_spec : first_clear -> exists m' e' x, location_add m addr size pass = Ok (m', e'.1, x) /\ added m' e' /\
  ((e' ∈ m /\ x = if epass e' <? pass then 2 else 0) \/ lowest e' x).
Proof.
  intros Hfirst. unfold location_add. destruct (decide (m = [])) as [Em|Hne].
  { assert (search_from m (ordering_key addr) = None) as -> by (by rewrite Em). destruct (add_merged [] _ merging_start) as (m' & e' & -> & Had & Hlow); [by rewrite Em; intros e ?%not_elem_of_nil|].
    exists m', e', 0. split; [done|]. split; [done|by right]. }
  destruct (skip_spec Hfirst Hne) as (k & P & S & -> & Hsplit & -> & HP & Htail & Hhead). cbn [obind].
  assert (forall e, e ∈ S -> e ∈ m) as HS by (intros e He; rewrite Hsplit; set_solver). assert (sorted ekey S) as Hs.
  { destruct Hm as (Hs & _ & _). rewrite Hsplit in Hs. by apply StronglySorted_app in Hs as (_ & _ & ?). }
  assert (forall A R g, merging A g -> S = A ++ R -> (forall e, e ∈ R -> kle (ordering_key addr) (ekey e)) -> ghi g = hi0 ->
    exists m' e' x, (let! g := merge_rest R g in Ok (merge_finish m g)) = Ok (m', e'.1, x) /\ added m' e' /\ ((e' ∈ m /\ x = if epass e' <? pass then 2 else 0) \/ lowest e' x)) as Hrest.
  { intros A R g HA -> Hge Hend. apply StronglySorted_app in Hs as (_ & _ & Hs). destruct (merge_rest_spec R A g HA Hs) as (A' & B & g' & -> & -> & HA' & HB).
    - intros e He. split; [apply HS; set_solver|by apply Hge].
    - by left.
    - cbn [obind]. destruct (add_merged _ g' HA') as (m' & e' & -> & Had & Hlow); [|exists m', e', (mg_intersect g'); split; [done|split; [done|by right]]].
      intros e He Hme. rewrite Hsplit in He. apply elem_of_app in He as [He|He]; [by destruct (HP e He)|]. rewrite app_assoc in He. apply elem_of_app in He as [He|He]; [done|by destruct (HB e He)]. }
  destruct S as [|e S]; cbn [merge_first obind]; [by apply (Hrest [] []); [apply merging_start|done|by intros e ?%not_elem_of_nil|]|].
  assert (e ∈ m) as He by (apply HS; by left). rewrite (overlap_spec addr size) by (done || by apply entry_ok). cbn [obind].
  destruct (decide (inside addr e.1 (esize e))) as [Hin|Hout].
  - pose proof Hin as [_ Hr]. rewrite (proj2 (Z.eqb_neq _ _)) by lia. pose proof (merging_first e He Hin) as Hmf. cbv zeta in Hmf. pose proof size_pos as Hsz.
    rewrite i32_small; [destruct (Z.leb_spec (lo0 - offset e.1 + size) (esize e)) as [Hle|Hgt]|].
    + exists m, e, (if epass e <? pass then 2 else 0). split; [done|]. split; [apply add_contained; [done..|unfold ehi; lia]|by left].
    + cbn [obind]. destruct Hmf as [HA Hend]; [unfold elo; lia|]. by apply (Hrest [e] S); [exact HA|done|apply Htail|exact Hend].
    + assert (meets e) as Hme by (destruct Hin; unfold meets, eidx, elo, ehi in *; pose proof (loc_entry_pos e He); unfold elo, ehi in *; lia).
      assert (hi0 - elo e < 2 ^ 31) by (apply (Hnear (elo e) (ehi e) lo0 hi0); [right; by exists e|by left]). unfold elo in *. lia.
  - cbn [obind]. apply (Hrest [] (e :: S)); [apply merging_start|done| |done]. intros x [->|Hx]%elem_of_cons; [|by apply Htail]. by destruct (Hhead e eq_refl).
Qed.
End Add.
End Locations.

(** C19: adding a range to a map of disjoint ranges.  When the ranges it meets fit in an
    [i32] with it, and the first range of the map does not start strictly inside it,
    [add] always returns; the map stays sorted and disjoint; one entry, whose start is
    the answer, covers exactly the new range and the ranges it met, and the others are
    kept.  Either an entry held the range already and the answer tells whether its pass
    is earlier (2) or not (0), or the entry has the lowest pass of the parts and the
    answer tells whether that is earlier than the new one (1) or not (0). *)
Theorem location_add_correct width m addr size pass : map_ok width m -> range_ok width addr size -> near m addr size -> first_clear m addr size ->
  exists m' e' x, location_add m addr size pass = Ok (m', e'.1, x) /\ added width m addr size m' e' /\
    ((e' ∈ m /\ x = if epass e' <? pass then 2 else 0) \/ lowest m addr size pass e' x).
Proof. intros Hm Ha Hn Hf. by apply add_spec. Qed.

(** The concrete map of the witnesses. *)
Definition two_entries : LocationMap := (stack_at 0x10, mk_SizePass 4 0) :: one_entry.
Definition width32 (_ : Z) : Z := 32.

Lemma stack_range off size : 0 <= off -> 0 < size < 2 ^ 31 -> off + size <= 2 ^ 32 -> range_ok width32 (stack_at off) size.
Proof. intros Ho Hs He. exists ram32. unfold width32. split; [done|]. split; [split; [lia|reflexivity]|]. split; [discriminate|]. simpl offset. lia. Qed.

Lemma two_entries_ok : map_ok width32 two_entries.
Proof.
  unfold two_entries, one_entry. split_and!.
  - repeat (apply sorted_cons; split; [|intros y [->|Hy]%elem_of_cons; [done|by apply not_elem_of_nil in Hy] || by intros y Hy%not_elem_of_nil]). constructor.
  - rewrite !Forall_cons. split_and!; [apply stack_range; unfold esize; simpl; lia|apply stack_range; unfold esize; simpl; lia|constructor].
  - intros e e' [->|[->|[]%not_elem_of_nil]%elem_of_cons]%elem_of_cons [->|[->|[]%not_elem_of_nil]%elem_of_cons]%elem_of_cons Hne _; try done; vm_compute; intuition discriminate.
Qed.

Lemma location_add_correct_witness : exists e', location_add two_entries (stack_at 0x100) 12 5 =
  Ok ([(stack_at 0x10, mk_SizePass 4 0); (stack_at 0x100, mk_SizePass 16 3)], e'.1, 1) /\ elo e' = 0x100 /\ ehi e' = 0x110.
Proof.
  destruct (location_add_correct width32 two_entries (stack_at 0x100) 12 5) as (m' & e' & x & E & Had & _).
  - apply two_entries_ok.
  - apply stack_range; lia.
  - assert (forall l h, part two_entries (stack_at 0x100) 12 l h -> 0x10 <= l /\ h <= 0x110) as Hp.
    { intros l h [[-> ->]|(e & He & _ & -> & ->)]; [simpl; lia|]. unfold two_entries, one_entry in He. apply elem_of_cons in He as [->|[->|[]%not_elem_of_nil]%elem_of_cons]; unfold elo, ehi, esize; simpl; lia. }
    intros l h l' h' H1%Hp H2%Hp. lia.
  - intros e [= <-] (_ & _ & Hlt). vm_compute in Hlt. discriminate.
  - exists e'. assert (location_add two_entries (stack_at 0x100) 12 5 = Ok ([(stack_at 0x10, mk_SizePass 4 0); (stack_at 0x100, mk_SizePass 16 3)], stack_at 0x100, 1)) as F by by vm_compute.
    rewrite F in E. injection E as Em Ee Ex. rewrite F, <- Ee. split; [done|].
    assert (e' ∈ m') as Hin by (apply (ad_members _ _ _ _ _ _ Had); by left). rewrite <- Em in Hin.
    apply elem_of_cons in Hin as [->|[->|[]%not_elem_of_nil]%elem_of_cons]; [done|by split].
Defined.

(** ** A history of additions *)

(** The map after a sequence of additions, each of which finds the map as
    [location_add_correct] wants it. *)
Inductive adds (width : Z -> Z) : list (Address * Z) -> LocationMap -> Prop :=
  | adds_nil : adds width [] []
  | adds_snoc ranges m addr size pass m' a x : adds width ranges m -> range_ok width addr size -> near m addr size -> first_clear m addr size ->
      location_add m addr size pass = Ok (m', a, x) -> adds width (ranges ++ [(addr, size)]) m'.

Lemma adds_ok width ranges m : adds width ranges m -> map_ok width m /\
  (forall i p, (exists e, e ∈ m /\ eidx e = i /\ elo e <= p < ehi e) <-> exists r, r ∈ ranges /\ idx r.1 = i /\ offset r.1 <= p < offset r.1 + r.2) /\
  forall r, r ∈ ranges -> exists e, e ∈ m /\ eidx e = idx r.1 /\ elo e <= offset r.1 /\ offset r.1 + r.2 <= ehi e.
Proof.
  induction 1 as [|ranges m addr size pass m' a x _ (Hm & Hpts & Hwhole) Ha Hn Hf E].
  - split_and!; [split_and!; [constructor|constructor|by intros e e' ?%not_elem_of_nil]| |by intros r ?%not_elem_of_nil]. intros i p. split; intros (y & Hy%not_elem_of_nil & _); done.
  - destruct (add_spec width m Hm addr size pass Ha Hn Hf) as (m1 & e' & x1 & E1 & [Hok Hi Hmem Hcov] & _). rewrite E in E1. injection E1 as <- _ _.
    assert (offset addr < offset addr + size) as Hsz by (destruct Ha as (_ & _ & _ & _ & _ & Hsz & _); lia).
    assert (elo e' <= offset addr /\ offset addr + size <= ehi e') as [Hlo Hhi].
    { pose proof (proj2 (Hcov (offset addr)) ltac:(left; lia)). pose proof (proj2 (Hcov (offset addr + size - 1)) ltac:(left; lia)). lia. }
    assert (e' ∈ m') as He' by (apply Hmem; by left). split_and!; [done| |].
    + intros i p. split.
      * intros (e & [->|[He Hno]]%Hmem & Ei & Hp).
        -- destruct (proj1 (Hcov p) Hp) as [Hr|(y & Hy & (Yi & _) & Hr)]; [exists (addr, size); simpl; split; [set_solver|split; [congruence|done]]|].
           destruct (proj1 (Hpts i p)) as (r & Hr' & ?); [exists y; split; [done|split; [congruence|done]]|exists r; set_solver].
        -- destruct (proj1 (Hpts i p)) as (r & Hr & ?); [by exists e|exists r; set_solver].
      * intros (r & [Hr| ->%list_elem_of_singleton]%elem_of_app & Ei & Hp); [|exists e'; simpl in *; split; [done|split; [congruence|]]; apply Hcov; by left].
        destruct (proj2 (Hpts i p)) as (e & He & Ei' & Hp'); [by exists r|]. destruct (decide (eidx e = idx addr /\ elo e < offset addr + size /\ offset addr < ehi e)) as [Hme|Hno].
        -- exists e'. split; [done|]. split; [destruct Hme; congruence|]. apply Hcov. right. by exists e.
        -- exists e. split; [apply Hmem; by right|done].
    + intros r [Hr| ->%list_elem_of_singleton]%elem_of_app; [|by exists e'].
      destruct (Hwhole r Hr) as (e & He & Ei & Hl & Hh). destruct (decide (eidx e = idx addr /\ elo e < offset addr + size /\ offset addr < ehi e)) as [Hme|Hno].
      * exists e'. split; [done|]. split; [destruct Hme; congruence|]. destruct Hm as (Hs & Hoks & _). rewrite Forall_forall in Hoks. destruct (Hoks e He) as (_ & _ & _ & _ & _ & Hse & _). unfold elo, ehi in *.
        pose proof (proj2 (Hcov (elo e)) ltac:(right; exists e; unfold elo, ehi; split_and!; done || lia)). pose proof (proj2 (Hcov (ehi e - 1)) ltac:(right; exists e; unfold elo, ehi; split_and!; done || lia)). unfold elo, ehi in *. lia.
      * exists e. split; [apply Hmem; by right|done].
Qed.

(** C18: after any sequence of additions, each of which merges into ranges of less
    than 2^31 bytes ([near]) and does not start before the whole map while it
    reaches into the first range ([first_clear]), the lookups know exactly the
    addresses that were added.  [find] answers with the start of a range exactly for the addresses of
    some range that was added, [find_pass] answers -1 exactly for the others (when no
    pass is -1), and each range that was added lies in one range of the map. *)
Theorem find_after_adds width ranges m a size : adds width ranges m -> range_ok width a size ->
  exists found p, location_find m a = Ok found /\ find_pass m a = Ok p /\
    (is_Some found <-> exists r, r ∈ ranges /\ inside a r.1 r.2) /\ (found = None -> p = -1) /\
    (forall e, e ∈ m -> inside a e.1 (esize e) -> found = Some e.1 /\ p = epass e) /\
    (forall r, r ∈ ranges -> exists e, e ∈ m /\ eidx e = idx r.1 /\ elo e <= offset r.1 /\ offset r.1 + r.2 <= ehi e).
Proof.
  intros Had Ha. destruct (adds_ok width ranges m Had) as (Hm & Hpts & Hwhole). destruct (find_cases width m a size Hm Ha) as [(e & He & Hin & -> & ->)|(Hno & -> & ->)].
  - exists (Some e.1), (epass e). split_and!; [done..| |done| |done].
    + split; [|done]. intros _. destruct Hin as [Hi Hr]. destruct (proj1 (Hpts (idx a) (offset a))) as (r & Hr' & Hri & Hrr); [exists e; split; [done|split; [by symmetry|done]]|].
      exists r. split; [done|]. split; [congruence|done].
    + intros e2 He2 Hin2. pose proof (holder_last width m e a Hm He Hin) as E1. pose proof (holder_last width m e2 a Hm He2 Hin2) as E2. rewrite E1 in E2. by injection E2 as ->.
  - exists None, (-1). split_and!; [done..| |done| |done].
    + split; [by intros [? ?]|]. intros (r & Hr & Hi & Hrr). exfalso. destruct (proj2 (Hpts (idx a) (offset a))) as (e & He & Hei & Her); [exists r; split; [done|split; [by symmetry|done]]|].
      apply (Hno e He). by split.
    + intros e He Hin. by destruct (Hno e He).
Qed.

Lemma part_of_nothing addr size l h : part [] addr size l h -> l = offset addr /\ h = offset addr + size.
Proof. intros [?|(e & []%not_elem_of_nil & _)]; done. Qed.

Lemma find_after_adds_witness : exists found, location_find [(stack_at 0x108, mk_SizePass 8 3)] (stack_at 0x10f) = Ok found /\ found = Some (stack_at 0x108).
Proof.
  destruct (find_after_adds width32 ([] ++ [(stack_at 0x108, 8)]) [(stack_at 0x108, mk_SizePass 8 3)] (stack_at 0x10f) 1) as (found & p & E & _ & _ & _ & Hhold & _).
  - apply (adds_snoc width32 [] [] (stack_at 0x108) 8 3 _ (stack_at 0x108) 0).
    + constructor.
    + apply stack_range; lia.
    + intros l h l' h' [-> ->]%part_of_nothing [-> ->]%part_of_nothing. simpl. lia.
    + by intros e [=].
    + by vm_compute.
  - apply stack_range; lia.
  - exists found. split; [exact E|]. apply (Hhold (stack_at 0x108, mk_SizePass 8 3)); [by left|]. split; [done|]. unfold esize. simpl. lia.
Defined.

(** The search of [add] begins at the first entry of the map when no entry comes before
    the new range, and passes over it when it does not hold the start of the range: a
    range that starts before the whole map and reaches into its first entry is not
    merged with it, and the map is no longer disjoint. *)
Lemma add_skips_first : exists m addr size pass m' a x, map_ok width32 m /\ range_ok width32 addr size /\
  location_add m addr size pass = Ok (m', a, x) /\ ~ map_ok width32 m'.
Proof.
  exists one_entry, (stack_at 0x100), 12, 5. do 3 eexists. split; [|split; [apply stack_range; lia|split; [by vm_compute|]]].
  - unfold one_entry. split_and!; [|rewrite Forall_singleton; apply stack_range; unfold esize; simpl; lia|].
    + apply sorted_cons. split; [constructor|by intros y Hy%not_elem_of_nil].
    + intros e e' ->%list_elem_of_singleton ->%list_elem_of_singleton. done.
  - intros (_ & _ & Hap). destruct (Hap (stack_at 0x100, mk_SizePass 12 5) (stack_at 0x108, mk_SizePass 8 3)) as [H|H]; [by left|right; by left|done|done|..]; vm_compute in H; by apply H.
Qed.

(** ** The ranges of a pass *)

Definition task_covers (tasks : list MemRange) (i p : Z) : Prop :=
  exists r, r ∈ tasks /\ idx (mr_addr r) = i /\ offset (mr_addr r) <= p < offset (mr_addr r) + mr_size r.

(** A task joins the last one when it starts inside it, and the list then covers exactly
    what it covered and the new range. *)
Lemma task_add_covers width tasks addr size fl : Forall (fun r => range_ok width (mr_addr r) (mr_size r)) tasks -> range_ok width addr size ->
  (forall r, list.last tasks = Some r -> inside addr (mr_addr r) (mr_size r) -> offset addr + size - offset (mr_addr r) < 2 ^ 31) ->
  exists tasks', task_add tasks addr size fl = Ok tasks' /\
    forall i p, task_covers tasks' i p <-> task_covers tasks i p \/ (idx addr = i /\ offset addr <= p < offset addr + size).
Proof.
  intros Hok Ha Hfit. assert (forall i p, task_covers (tasks ++ [mk_MemRange addr size fl]) i p <-> task_covers tasks i p \/ (idx addr = i /\ offset addr <= p < offset addr + size)) as Hpush.
  { intros i p. split.
    - intros (r & [Hr| ->%list_elem_of_singleton]%elem_of_app & Hp); [left; by exists r|by right].
    - intros [(r & Hr & Hp)|Hp]; [exists r; split; [set_solver|done]|exists (mk_MemRange addr size fl); split; [set_solver|done]]. }
  unfold task_add. destruct (list.last tasks) as [r|] eqn:E; [|by eexists]. apply list.last_Some in E as [init ->].
  apply Forall_app in Hok as [_ Hr]. rewrite Forall_singleton in Hr. rewrite (overlap_spec width addr size) by done. cbn [obind]. destruct (decide _) as [[Hi Hin]|Hout]; [|by eexists].
  rewrite (proj2 (Z.leb_le _ _)) by lia. specialize (Hfit r eq_refl (conj Hi Hin)). destruct Ha as (_ & _ & _ & _ & _ & Hsz & _).
  rewrite i32_small by lia. rewrite length_app, Nat.add_comm. simpl. rewrite take_app_length. eexists. split; [done|]. intros i p. unfold task_covers.
  set (s := if mr_size r <? size + (offset addr - offset (mr_addr r)) then size + (offset addr - offset (mr_addr r)) else mr_size r).
  assert (mr_size r <= s /\ size + (offset addr - offset (mr_addr r)) <= s /\ (s = mr_size r \/ s = size + (offset addr - offset (mr_addr r)))) as Hs
    by (unfold s; destruct (Z.ltb_spec (mr_size r) (size + (offset addr - offset (mr_addr r)))); lia).
  split.
  - intros (y & [Hy| ->%list_elem_of_singleton]%elem_of_app & Ei & Hp); [left; exists y; set_solver|]. simpl in *.
    destruct (Z.lt_ge_cases p (offset (mr_addr r) + mr_size r)); [left; exists r; split; [set_solver|split; [done|lia]]|right; split; [congruence|lia]].
  - intros [(y & [Hy| ->%list_elem_of_singleton]%elem_of_app & Ei & Hp)|[Ei Hp]]; [exists y; set_solver|..];
      (eexists; split; [apply elem_of_app; right; by left|]); simpl; (split; [congruence|lia]).
Qed.
