(* ===== verification/HeritageQueue.v ===== *)
(** The queue of [Heritage] is a list of blocks with their depths, from which a block
    of the greatest depth is taken, the one that came last among those. *)
From stdpp Require Import base list sets numbers strings.
From Stdlib Require Import ZArith Lia.
From S2P Require Import Prelude Bits Multiprecision Heritage.
Local Open Scope Z_scope.
Local Open Scope rust_scope.

(** The blocks of one depth, in the order of their insertion. *)
Definition at_depth (d : Z) (l : list (Z * nat)) : list nat := (filter (fun p => p.1 = d) l).*2.

(** The queue holds the pairs of the list. *)
Record holds (q : PriorityQueue) (l : list (Z * nat)) : Prop := mk_holds {
  ho_size : Z.of_nat (length (queue q)) < 2 ^ 31;
  ho_levels : forall d, (d < length (queue q))%nat -> queue q !! d = Some (at_depth (Z.of_nat d) l);
  ho_range : forall p, p ∈ l -> 0 <= p.1 < Z.of_nat (length (queue q)) /\ p.1 <= curdepth q;
  ho_top : -1 <= curdepth q < Z.of_nat (length (queue q)) /\ (curdepth q = -1 \/ exists p, p ∈ l /\ p.1 = curdepth q) }.

Lemma at_depth_app d l l' : at_depth d (l ++ l') = at_depth d l ++ at_depth d l'.
Proof. unfold at_depth. by rewrite filter_app, fmap_app. Qed.

Lemma at_depth_one d p : at_depth d [p] = if decide (p.1 = d) then [p.2] else [].
Proof. unfold at_depth. rewrite filter_cons, filter_nil. by destruct (decide _). Qed.

Lemma at_depth_nil d l : at_depth d l = [] <-> forall p, p ∈ l -> p.1 <> d.
Proof.
  unfold at_depth. split.
  - intros E%fmap_nil_inv p Hp Hd. assert (p ∈ filter (fun p => p.1 = d) l) as Hf by (by apply list_elem_of_filter). rewrite E in Hf. by apply not_elem_of_nil in Hf.
  - intros Hno. destruct (filter _ l) as [|p t] eqn:E; [done|]. assert (p ∈ filter (fun p => p.1 = d) l) as [Hd Hp]%list_elem_of_filter by (rewrite E; by left). by destruct (Hno p Hp).
Qed.

(** The last block of a depth, in the whole list. *)
Lemma at_depth_last d l b t : at_depth d l = t ++ [b] -> exists l1 l2, l = l1 ++ (d, b) :: l2 /\ at_depth d l1 = t /\ forall p, p ∈ l2 -> p.1 <> d.
Proof.
  revert t. induction l as [|p l IH] using rev_ind; intros t E; [by destruct t|]. rewrite at_depth_app, at_depth_one in E. destruct (decide (p.1 = d)) as [Hd|Hd].
  - apply app_inj_2 in E as [Et [= Eb]]; [|done]. exists l, []. destruct p as [d' b']. simpl in *. subst. split_and!; [done..|by intros p ?%not_elem_of_nil].
  - rewrite app_nil_r in E. destruct (IH t E) as (l1 & l2 & -> & Et & Hno). exists l1, (l2 ++ [p]). rewrite <- app_assoc. split_and!; [done..|].
    intros x [Hx| ->%list_elem_of_singleton]%elem_of_app; [by apply Hno|done].
Qed.

Section Queue.
Context (q : PriorityQueue) (l : list (Z * nat)) (Hq : holds q l).

Lemma level_at d : 0 <= d < Z.of_nat (length (queue q)) -> level (queue q) d = Ok (at_depth d l).
Proof.
  intros Hd. unfold level. rewrite (proj2 (Z.ltb_ge _ _)) by lia. erewrite index_ok; [done|]. rewrite (ho_levels q l Hq) by lia. by rewrite Z2Nat.id by lia.
Qed.

Lemma queue_insert_spec b d : 0 <= d < Z.of_nat (length (queue q)) -> exists q', queue_insert q b d = Ok q' /\ holds q' (l ++ [(d, b)]) /\ length (queue q') = length (queue q).
Proof.
  intros Hd. unfold queue_insert. rewrite level_at by done. cbn [obind]. eexists. split; [done|]. destruct Hq as [Hs Hl Hr [Ht1 Ht2]]. simpl. rewrite length_insert. split; [|done].
  split; simpl; rewrite ?length_insert; [done| | |].
  - intros k Hk. rewrite at_depth_app, at_depth_one. simpl. destruct (decide (k = Z.to_nat d)) as [->|Hne].
    + rewrite list_lookup_insert_eq by lia. rewrite Z2Nat.id by lia. by rewrite decide_True by done.
    + rewrite list_lookup_insert_ne by lia. rewrite decide_False by lia. rewrite app_nil_r. by apply Hl.
  - intros p [Hp| ->%list_elem_of_singleton]%elem_of_app; simpl; [specialize (Hr p Hp)|]; destruct (Z.ltb_spec (curdepth q) d); lia.
  - destruct (Z.ltb_spec (curdepth q) d); (split; [lia|]); [right; exists (d, b); set_solver|]. destruct Ht2 as [?|(p & ? & ?)]; [lia|right; exists p; set_solver].
Qed.
End Queue.

(** The loop stops at the deepest level in use, or below zero. *)
Lemma drop_level_spec l levels fuel : forall d, Z.of_nat (length levels) < 2 ^ 31 -> (forall k, (k < length levels)%nat -> levels !! k = Some (at_depth (Z.of_nat k) l)) ->
  0 <= d < Z.of_nat fuel -> d < Z.of_nat (length levels) -> (forall p, p ∈ l -> 0 <= p.1 <= d) ->
  exists d', drop_level fuel levels d = Ok d' /\ -1 <= d' <= d /\ (forall p, p ∈ l -> p.1 <= d') /\ (d' = -1 \/ exists p, p ∈ l /\ p.1 = d').
Proof.
  induction fuel as [|fuel IH]; intros d Hs Hl Hd Hlen Hr; [lia|]. cbn [drop_level]. unfold level at 1. rewrite (proj2 (Z.ltb_ge _ _)) by lia.
  erewrite index_ok by (apply Hl; lia). cbn [obind]. rewrite Z2Nat.id by lia. destruct (at_depth d l) as [|b t] eqn:E.
  - pose proof (proj1 (at_depth_nil d l) E) as Hno. rewrite i32_small by lia. destruct (Z.ltb_spec (d - 1) 0).
    + exists (d - 1). split_and!; [done|lia|lia| |left; lia]. intros p Hp. specialize (Hr p Hp). specialize (Hno p Hp). lia.
    + destruct (IH (d - 1)) as (d' & -> & Hd' & H1 & H2); [done|done|lia|lia|intros p Hp; specialize (Hr p Hp); specialize (Hno p Hp); lia|].
      exists d'. split_and!; [done|lia|lia|done|done].
  - exists d. split_and!; [done|lia|lia|intros p Hp; specialize (Hr p Hp); lia|]. right. destruct (decide (Forall (fun p => p.1 <> d) l)) as [Hall|Hex].
    + rewrite Forall_forall in Hall. rewrite (proj2 (at_depth_nil d l) Hall) in E. done.
    + apply not_Forall_Exists in Hex; [|apply _]. apply Exists_exists in Hex as (p & Hp & Hd'). exists p. split; [done|]. by apply dec_stable.
Qed.

Lemma extract_spec q l : holds q l -> l <> [] -> exists q' b l1 l2, queue_extract q = Ok (q', b) /\ l = l1 ++ (curdepth q, b) :: l2 /\
  holds q' (l1 ++ l2) /\ length (queue q') = length (queue q) /\ (forall p, p ∈ l -> p.1 <= curdepth q) /\ (forall p, p ∈ l2 -> p.1 < curdepth q).
Proof.
  intros Hq Hne. destruct (ho_top q l Hq) as [Hd Htop]. assert (exists p, p ∈ l /\ p.1 = curdepth q) as (p & Hp & Hpd).
  { destruct Htop as [Hm|?]; [|done]. destruct l as [|p l']; [done|]. destruct (ho_range q _ Hq p ltac:(by left)). lia. }
  destruct (ho_range q l Hq p Hp) as [Hp0 _]. unfold queue_extract. rewrite (level_at q l Hq) by lia. cbn [obind].
  destruct (at_depth (curdepth q) l) as [|x t] eqn:E using rev_ind; [by destruct (proj1 (at_depth_nil _ _) E p Hp)|]. clear IHt.
  destruct (at_depth_last _ _ _ _ E) as (l1 & l2 & El & Et & Hno). rewrite last_snoc.
  set (levels := <[_ := _]> (queue q)). assert (length levels = length (queue q)) as Hlen by apply length_insert.
  assert (forall k, (k < length levels)%nat -> levels !! k = Some (at_depth (Z.of_nat k) (l1 ++ l2))) as Hlev.
  { intros k Hk. unfold levels. destruct (decide (k = Z.to_nat (curdepth q))) as [->|Hk'].
    - rewrite list_lookup_insert_eq by lia. f_equal. rewrite Z2Nat.id by lia. rewrite length_app, Nat.add_comm. simpl. rewrite take_app_length. rewrite at_depth_app, Et.
      rewrite (proj2 (at_depth_nil (curdepth q) l2) Hno). by rewrite app_nil_r.
    - rewrite list_lookup_insert_ne by lia. rewrite (ho_levels q l Hq) by lia. f_equal. rewrite El. change ((curdepth q, x) :: l2) with ([(curdepth q, x)] ++ l2).
      rewrite !at_depth_app, at_depth_one. rewrite decide_False by (simpl; lia). done. }
  assert (forall p, p ∈ l1 ++ l2 -> p ∈ l) as Hsub by (intros y Hy; rewrite El; set_solver). pose proof (ho_size q l Hq) as Hs.
  destruct (drop_level_spec (l1 ++ l2) levels (S (length levels)) (curdepth q)) as (d' & -> & Hd' & H1 & H2); [lia|done|lia|lia|intros y Hy; destruct (ho_range q l Hq y (Hsub y Hy)); lia|].
  cbn [obind]. exists (mk_PriorityQueue levels d'), x, l1, l2. split_and!; [done|done| |done| |].
  - split; simpl; [lia|done| |split; [lia|done]]. intros y Hy. destruct (ho_range q l Hq y (Hsub y Hy)). specialize (H1 y Hy). lia.
  - intros y Hy. by destruct (ho_range q l Hq y Hy).
  - intros y Hy. pose proof (Hno y Hy). destruct (ho_range q l Hq y); [rewrite El; set_solver|]. lia.
Qed.

(** A queue that was made, and perhaps used. *)
Definition used (q : PriorityQueue) : Prop := q = queue_new \/ exists l, holds q l.

Lemma reset_spec q maxdepth : used q -> -1 <= maxdepth < 2 ^ 31 - 1 ->
  exists q', queue_reset q maxdepth = Ok q' /\ holds q' [] /\ Z.of_nat (length (queue q')) = maxdepth + 1.
Proof.
  intros Hu Hd. unfold queue_reset. destruct ((curdepth q =? -1) && (u64 (i64 maxdepth) =? u64 (Z.of_nat (length (queue q)) - 1))) eqn:E.
  - apply andb_prop in E as [Ec%Z.eqb_eq El%Z.eqb_eq]. destruct Hu as [->|[l Hl]]; [done|]. assert (l = []) as ->.
    { destruct l as [|p l]; [done|]. destruct (ho_range q _ Hl p ltac:(by left)). lia. }
    exists q. split; [done|]. split; [done|]. pose proof (ho_size q [] Hl). rewrite (sw_small 64) in El by (unfold is_s; lia).
    assert (maxdepth mod 2 ^ 64 = (Z.of_nat (length (queue q)) - 1) mod 2 ^ 64) as Em by done.
    rewrite <- (Z.mod_add maxdepth 1), <- (Z.mod_add (Z.of_nat (length (queue q)) - 1) 1) in Em by lia.
    destruct (Z.eq_dec maxdepth (-1)) as [->|], (Z.eq_dec (Z.of_nat (length (queue q)) - 1) (-1)) as [El'|]; [lia|..].
    + rewrite Z.mod_small in Em by lia. rewrite Z.mod_add, Z.mod_small in Em by lia. lia.
    + rewrite El' in Em. rewrite Z.mod_add, Z.mod_small in Em by lia. rewrite Z.mod_small in Em by lia. lia.
    + rewrite !Z.mod_add, !Z.mod_small in Em by lia. lia.
  - rewrite i32_small by lia. rewrite (proj2 (Z.ltb_ge _ _)) by lia. eexists. split; [done|]. simpl. rewrite length_replicate. split; [|lia].
    split; simpl; rewrite ?length_replicate; [lia| |by intros p ?%not_elem_of_nil|split; [lia|by left]]. intros d Hlt. by rewrite lookup_replicate_2.
Qed.

(** ** Sequences of calls *)

Inductive qop : Type := QInsert (bl : nat) (depth : Z) | QExtract.

Fixpoint run_queue (q : PriorityQueue) (ops : list qop) : outcome (PriorityQueue * list nat) :=
  match ops with
  | [] => Ok (q, [])
  | QInsert bl depth :: ops => let! q := queue_insert q bl depth in run_queue q ops
  | QExtract :: ops => let! r := queue_extract q in let! rest := run_queue r.1 ops in Ok (rest.1, r.2 :: rest.2)
  end.

(** Depths are in range and nothing is taken from an empty queue of [n] blocks. *)
Fixpoint calls_ok (maxdepth : Z) (n : nat) (ops : list qop) : bool :=
  match ops with
  | [] => true
  | QInsert _ depth :: ops => (0 <=? depth) && (depth <=? maxdepth) && calls_ok maxdepth (S n) ops
  | QExtract :: ops => match n with O => false | S n => calls_ok maxdepth n ops end
  end.

(** The queue as a list of blocks with depths: what is taken is deepest, and last of
    those. *)
Inductive deepest_first : list (Z * nat) -> list qop -> list nat -> list (Z * nat) -> Prop :=
  | df_nil l : deepest_first l [] [] l
  | df_insert l bl d ops outs l' : deepest_first (l ++ [(d, bl)]) ops outs l' -> deepest_first l (QInsert bl d :: ops) outs l'
  | df_extract l l1 d bl l2 ops outs l' : l = l1 ++ (d, bl) :: l2 -> (forall p, p ∈ l -> p.1 <= d) -> (forall p, p ∈ l2 -> p.1 < d) ->
      deepest_first (l1 ++ l2) ops outs l' -> deepest_first l (QExtract :: ops) (bl :: outs) l'.

Lemma run_queue_spec maxdepth ops : forall q l, holds q l -> Z.of_nat (length (queue q)) = maxdepth + 1 -> calls_ok maxdepth (length l) ops = true ->
  exists q' outs l', run_queue q ops = Ok (q', outs) /\ deepest_first l ops outs l' /\ holds q' l'.
Proof.
  induction ops as [|[bl d|] ops IH]; intros q l Hq Hlen Hok; cbn [run_queue calls_ok] in *.
  - exists q, [], l. by split_and!; [|constructor|].
  - apply andb_prop in Hok as [[H1%Z.leb_le H2%Z.leb_le]%andb_prop Hok]. destruct (queue_insert_spec q l Hq bl d) as (q1 & -> & Hq1 & Hl1); [lia|]. cbn [obind].
    destruct (IH q1 _ Hq1) as (q' & outs & l' & E & Hd & Hh); [lia|by rewrite length_app, Nat.add_comm|]. exists q', outs, l'. by split_and!; [|constructor|].
  - destruct l as [|p l]; [done|]. destruct (extract_spec q _ Hq ltac:(done)) as (q1 & b & l1 & l2 & -> & El & Hq1 & Hl1 & Hmax & Hlast). cbn [obind fst snd].
    destruct (IH q1 _ Hq1) as (q' & outs & l' & -> & Hd & Hh); [lia| |].
    + assert (length (l1 ++ l2) = length l) as ->; [|done]. apply (f_equal length) in El. rewrite !length_app in *. simpl in *. lia.
    + exists q', (b :: outs), l'. split_and!; [done| |done]. by apply (df_extract _ l1 (curdepth q) b l2).
Qed.

(** C20: the queue of blocks is a priority queue.  After a reset for depths up to
    [maxdepth], of a new queue or of one that was used, every sequence of insertions at
    such depths and extractions of what is there runs to its end; each extraction gives
    a block of the greatest depth in the queue, the last inserted of them; and the queue
    reports itself empty exactly when everything was taken. *)
Theorem queue_refines q0 maxdepth ops : used q0 -> -1 <= maxdepth < 2 ^ 31 - 1 -> calls_ok maxdepth 0 ops = true ->
  exists q outs left_over, (let! q := queue_reset q0 maxdepth in run_queue q ops) = Ok (q, outs) /\ deepest_first [] ops outs left_over /\
    (queue_empty q = true <-> left_over = []) /\ used q.
Proof.
  intros Hu Hd Hok. destruct (reset_spec q0 maxdepth Hu Hd) as (q1 & -> & Hq1 & Hlen). cbn [obind].
  destruct (run_queue_spec maxdepth ops q1 [] Hq1 Hlen Hok) as (q & outs & l & E & Hdf & Hh). exists q, outs, l. split_and!; [done..| |right; by exists l].
  unfold queue_empty. rewrite Z.eqb_eq. destruct (ho_top q l Hh) as [_ Ht]. split.
  - intros Hc. destruct l as [|p l]; [done|]. destruct (ho_range q _ Hh p ltac:(by left)). lia.
  - intros ->. destruct Ht as [?|(p & []%not_elem_of_nil & _)]. done.
Qed.

Definition demo_calls : list qop := [QInsert 7 1; QInsert 9 3; QInsert 5 1; QExtract; QExtract; QExtract].

Lemma queue_refines_witness : exists q, (let! q := queue_reset queue_new 3 in run_queue q demo_calls) = Ok (q, [9; 5; 7]%nat) /\ queue_empty q = true.
Proof.
  destruct (queue_refines queue_new 3 demo_calls) as (q & outs & l & E & _ & Hempty & _); [by left|lia|reflexivity|].
  exists q. assert ((let! q := queue_reset queue_new 3 in run_queue q demo_calls) = Ok (mk_PriorityQueue [[]; []; []; []] (-1), [9; 5; 7]%nat)) as F by by vm_compute.
  rewrite F in E. injection E as <- _. split; [exact F|reflexivity].
Defined.
