(* ===== verification/SleighBits.v ===== *)
(** Reading fields of an instruction and of its context: the readers of
    [ParserContext] and [ParserWalker] in [src/src/context.rs].  A walker is the
    bytes of the instruction, the words of the context and the offset of the
    current operand; fields are slices of the two strings of bits, which both
    begin with the highest bit of their first element. *)
From stdpp Require Import base list numbers strings.
From Stdlib Require Import ZArith Lia.
From S2P Require Import Prelude Bits Multiprecision.
Local Open Scope Z_scope.
Local Open Scope rust_scope.

(** ** Definitions *)

Definition MAX_INSTRUCTION_LEN : Z := 16.

(** The state a walker reads: [buf] and [context] of [ParserContext], and
    [offset] of the construct state it points at. *)
Record Walker : Type := mk_Walker { buf : list Z; context : list Z; point_offset : Z }.

Definition too_long : Error := BadData "Instruction is using more than 16 bytes".

(** [self.buf.get(i).copied().unwrap_or(0)]. *)
Definition buf_byte (bytes : list Z) (i : nat) : Z := nth i bytes 0.

(** The loop over [n] bytes from [pos] on. *)
Fixpoint gather (bytes : list Z) (pos n : nat) (res : Z) : Z :=
  match n with
  | O => res
  | S n => gather bytes (S pos) n (Z.lor (shl32 res 8) (buf_byte bytes pos))
  end.

Definition context_instruction_bytes (bytes : list Z) (bytestart size off : Z) : outcome Z :=
  let off := u32 (off + u32 bytestart) in
  if MAX_INSTRUCTION_LEN <=? off then Err too_long
  else Ok (gather bytes (Z.to_nat off) (Z.to_nat (Z.max size 0)) 0).

Definition context_instruction_bits (bytes : list Z) (startbit size off : Z) : outcome Z :=
  let off := u32 (off + u32 (Z.quot startbit 8)) in
  if MAX_INSTRUCTION_LEN <=? off then Err too_long
  else
    let startbit := Z.rem startbit 8 in
    let bytesize := i32 (Z.quot (i32 (i32 (startbit + size) - 1)) 8 + 1) in
    let res := gather bytes (Z.to_nat off) (Z.to_nat (Z.max bytesize 0)) 0 in
    let res := shl32 res (u32 (i32 (i32 (8 * i32 (4 - bytesize)) + startbit))) in
    Ok (shr32 res (u32 (i32 (32 - size)))).

Definition context_word (words : list Z) (i : Z) : Z := if i <? 0 then 0 else nth (Z.to_nat i) words 0.

Definition set_context_word (words : list Z) (i val mask : Z) : list Z :=
  if i <? 0 then words
  else
    match words !! Z.to_nat i with
    | Some word => <[Z.to_nat i := Z.lor (Z.land word (u32 (Z.lnot mask))) (Z.land mask val)]> words
    | None => words
    end.

Definition context_context_bytes (words : list Z) (bytestart size : Z) : Z :=
  let intstart := Z.quot bytestart 4 in
  let byte_offset := Z.rem bytestart 4 in
  let res := shl32 (context_word words intstart) (u32 (i32 (byte_offset * 8))) in
  let res := shr32 res (u32 (i32 (i32 (4 - size) * 8))) in
  let remaining := i32 (i32 (size - 4) + byte_offset) in
  if 0 <? remaining then
    let intstart := i32 (intstart + 1) in
    if intstart <? i32 (Z.of_nat (length words)) then
      Z.lor res (shr32 (context_word words intstart) (u32 (i32 (i32 (4 - remaining) * 8))))
    else res
  else res.

Definition context_context_bits (words : list Z) (startbit size : Z) : Z :=
  let intstart := Z.quot startbit 32 in
  let bit_offset := Z.rem startbit 32 in
  let res := shl32 (context_word words intstart) (u32 bit_offset) in
  let res := shr32 res (u32 (i32 (32 - size))) in
  let remaining := i32 (i32 (size - 32) + bit_offset) in
  if 0 <? remaining then
    let intstart := i32 (intstart + 1) in
    if intstart <? i32 (Z.of_nat (length words)) then
      Z.lor res (shr32 (context_word words intstart) (u32 (i32 (32 - remaining))))
    else res
  else res.

(** The readers of [ParserWalker]. *)
Definition get_instruction_bytes (w : Walker) (byteoff numbytes : Z) : outcome Z :=
  context_instruction_bytes (buf w) byteoff numbytes (point_offset w).
Definition get_context_bytes (w : Walker) (byteoff numbytes : Z) : Z := context_context_bytes (context w) byteoff numbytes.
Definition get_instruction_bits (w : Walker) (startbit size : Z) : outcome Z :=
  context_instruction_bits (buf w) startbit size (point_offset w).
Definition get_context_bits (w : Walker) (startbit size : Z) : Z := context_context_bits (context w) startbit size.

(** ** Strings of bits *)

(** The number whose binary digits are the bits from [start] on. *)
Fixpoint bit_slice (b : Z -> bool) (start : Z) (n : nat) : Z :=
  match n with
  | O => 0
  | S n => 2 * bit_slice b start n + b2z (b (start + Z.of_nat n))
  end.

(** The bits of a list of [k]-bit numbers, high bits first. *)
Definition bits_of (k : Z) (l : list Z) (i : Z) : bool :=
  if i <? 0 then false else Z.testbit (nth (Z.to_nat (i / k)) l 0) (k - 1 - i mod k).

Abbreviation byte_bits := (bits_of 8).
Abbreviation word_bits := (bits_of 32).

Lemma slice_bit b start n j : 0 <= j -> Z.testbit (bit_slice b start n) j = (j <? Z.of_nat n) && b (start + Z.of_nat n - 1 - j).
Proof.
  revert j. induction n as [|n IH]; intros j Hj; cbn [bit_slice].
  - rewrite Z.bits_0. destruct (Z.ltb_spec j (Z.of_nat 0)); [lia|done].
  - destruct (decide (j = 0)) as [->|Hne].
    + replace (2 * bit_slice b start n + b2z (b (start + Z.of_nat n))) with (b2z (b (start + Z.of_nat n)) + 2 * bit_slice b start n) by lia.
      rewrite (proj2 (Z.ltb_lt _ _)) by lia. unfold b2z. replace (start + Z.of_nat (S n) - 1 - 0) with (start + Z.of_nat n) by lia.
      destruct (b (start + Z.of_nat n)); [rewrite Z.add_comm; apply Z.testbit_odd_0|rewrite Z.add_0_l; apply Z.testbit_even_0].
    + replace j with (Z.succ (j - 1)) at 1 by lia. unfold b2z.
      assert (forall c : bool, Z.testbit (2 * bit_slice b start n + (if c then 1 else 0)) (Z.succ (j - 1)) = Z.testbit (bit_slice b start n) (j - 1)) as ->.
      { intros []; [apply Z.testbit_odd_succ; lia|rewrite Z.add_0_r; apply Z.testbit_even_succ; lia]. }
      rewrite IH by lia. f_equal; [apply eq_true_iff_eq; rewrite !Z.ltb_lt; lia|f_equal; lia].
Qed.

Lemma slice_range b start n : 0 <= bit_slice b start n < 2 ^ Z.of_nat n.
Proof.
  induction n as [|n IH]; [done|]. cbn [bit_slice]. replace (Z.of_nat (S n)) with (Z.succ (Z.of_nat n)) by lia. rewrite Z.pow_succ_r by lia.
  unfold b2z. destruct (b _); lia.
Qed.

Lemma slice_ext b b' start start' n : (forall i, 0 <= i < Z.of_nat n -> b (start + i) = b' (start' + i)) -> bit_slice b start n = bit_slice b' start' n.
Proof.
  induction n as [|n IH]; intros Hb; [done|]. cbn [bit_slice]. rewrite IH by (intros; apply Hb; lia). by rewrite Hb by lia.
Qed.

Lemma slice_app b start n m : bit_slice b start (n + m) = bit_slice b start n * 2 ^ Z.of_nat m + bit_slice b (start + Z.of_nat n) m.
Proof.
  induction m as [|m IH]; [rewrite Nat.add_0_r; cbn; lia|]. replace (n + S m)%nat with (S (n + m)) by lia. cbn [bit_slice]. rewrite IH.
  replace (Z.of_nat (S m)) with (Z.succ (Z.of_nat m)) by lia. rewrite Z.pow_succ_r by lia.
  replace (start + Z.of_nat (n + m)) with (start + Z.of_nat n + Z.of_nat m) by lia. lia.
Qed.

(** A number is told from its bits below its width. *)
Lemma eq_slice x b start n : 0 <= x -> (forall j, Z.of_nat n <= j -> Z.testbit x j = false) ->
  (forall j, 0 <= j < Z.of_nat n -> Z.testbit x j = b (start + Z.of_nat n - 1 - j)) -> x = bit_slice b start n.
Proof.
  intros Hx Hhigh Hlow. apply Z.bits_inj'. intros j Hj. rewrite slice_bit by done. destruct (Z.ltb_spec j (Z.of_nat n)); [by apply Hlow|by apply Hhigh].
Qed.

(** An element of the list is the slice at its place. *)
Lemma element_slice k l i : 0 < k -> Forall (is_u k) l -> nth i l 0 = bit_slice (bits_of k l) (k * Z.of_nat i) (Z.to_nat k).
Proof.
  intros Hk Hl. assert (is_u k (nth i l 0)) as Hu.
  { destruct (nth_in_or_default i l 0) as [Hin| ->]; [|split; [lia|by apply pow2_pos; lia]]. rewrite Forall_forall in Hl. by apply Hl, list_elem_of_In. }
  apply eq_slice; [apply Hu|intros j Hj; apply (testbit_above k); [done|lia]|]. intros j Hj. rewrite Z2Nat.id in Hj |- * by lia. unfold bits_of.
  destruct (Z.ltb_spec (k * Z.of_nat i + k - 1 - j) 0); [nia|]. replace (k * Z.of_nat i + k - 1 - j) with ((k - 1 - j) + Z.of_nat i * k) by lia.
  rewrite Z.div_add, Z.mod_add by lia. rewrite Z.div_small, Z.mod_small by lia. f_equal; [|lia]. f_equal. lia.
Qed.

(** ** The readers read slices *)

Section Readers.
Context (bytes words : list Z) (Hbytes : Forall (is_u 8) bytes) (Hwords : Forall (is_u 32) words).

Lemma gather_slice n : forall pos m s, 8 * Z.of_nat pos = s + Z.of_nat m -> (m + 8 * n <= 32)%nat ->
  gather bytes pos n (bit_slice (byte_bits bytes) s m) = bit_slice (byte_bits bytes) s (m + 8 * n).
Proof.
  induction n as [|n IH]; intros pos m s Hpos Hm; [by rewrite Nat.mul_0_r, Nat.add_0_r|]. cbn [gather].
  assert (Z.lor (shl32 (bit_slice (byte_bits bytes) s m) 8) (buf_byte bytes pos) = bit_slice (byte_bits bytes) s (m + 8)) as ->.
  { pose proof (slice_range (byte_bits bytes) s m). pose proof (Z.pow_le_mono_r 2 (Z.of_nat m) 24 ltac:(lia) ltac:(lia)).
    unfold shl32, buf_byte. change (8 mod 32) with 8. rewrite u32_small by (rewrite Z.shiftl_mul_pow2 by lia; lia).
    rewrite (element_slice 8 bytes pos) by (done || lia). rewrite lor_add by (lia || apply (slice_range _ _ 8)).
    rewrite slice_app. by rewrite Hpos. }
  rewrite IH by lia. f_equal. lia.
Qed.

(** The loop from the empty prefix. *)
Lemma gather_from n pos s : 8 * Z.of_nat pos = s -> (8 * n <= 32)%nat -> gather bytes pos n 0 = bit_slice (byte_bits bytes) s (8 * n).
Proof. intros Hs Hn. by apply (gather_slice n pos 0 s); lia. Qed.

Lemma instruction_bytes_slice bytestart size off : 0 <= off -> 0 <= bytestart -> off + bytestart < 16 -> 0 <= size <= 4 ->
  context_instruction_bytes bytes bytestart size off = Ok (bit_slice (byte_bits bytes) (8 * (off + bytestart)) (Z.to_nat (8 * size))).
Proof.
  intros Ho Hb Hlen Hs. unfold context_instruction_bytes, MAX_INSTRUCTION_LEN. rewrite (u32_small bytestart), u32_small by lia.
  destruct (Z.leb_spec 16 (off + bytestart)); [lia|]. rewrite Z.max_l by lia.
  rewrite (gather_from (Z.to_nat size) (Z.to_nat (off + bytestart)) (8 * (off + bytestart))) by lia. do 2 f_equal. lia.
Qed.

Lemma instruction_bits_slice startbit size off : 0 <= off -> 0 <= startbit -> off + startbit / 8 < 16 -> 1 <= size -> startbit mod 8 + size <= 32 ->
  context_instruction_bits bytes startbit size off = Ok (bit_slice (byte_bits bytes) (8 * off + startbit) (Z.to_nat size)).
Proof.
  intros Ho Hs Hlen Hsz Hfit. unfold context_instruction_bits, MAX_INSTRUCTION_LEN. rewrite Z.quot_div_nonneg, Z.rem_mod_nonneg by lia.
  pose proof (Z.div_mod startbit 8 ltac:(lia)) as Hdm. pose proof (Z.mod_pos_bound startbit 8 ltac:(lia)) as Hm. assert (0 <= startbit / 8) by (apply Z.div_pos; lia).
  rewrite (u32_small (startbit / 8)), (u32_small (off + startbit / 8)) by lia. destruct (Z.leb_spec 16 (off + startbit / 8)); [lia|].
  set (sb := startbit mod 8) in *. rewrite (i32_small (sb + size)), (i32_small (sb + size - 1)) by lia. rewrite Z.quot_div_nonneg by lia.
  pose proof (Z.div_mod (sb + size - 1) 8 ltac:(lia)) as Hdm2. pose proof (Z.mod_pos_bound (sb + size - 1) 8 ltac:(lia)) as Hm2.
  set (k := (sb + size - 1) / 8) in *. assert (0 <= k <= 3) as Hk by (split; [apply Z.div_pos; lia|lia]). rewrite (i32_small (k + 1)) by lia.
  rewrite (i32_small (4 - (k + 1))), (i32_small (8 * (4 - (k + 1)))), (i32_small (8 * (4 - (k + 1)) + sb)), (i32_small (32 - size)), !u32_small by lia.
  rewrite Z.max_l by lia. rewrite (gather_from (Z.to_nat (k + 1)) (Z.to_nat (off + startbit / 8)) (8 * (off + startbit / 8))) by lia. f_equal.
  unfold shl32, shr32. rewrite !Z.mod_small by lia. apply eq_slice.
  - apply Z.shiftr_nonneg. apply Z.mod_pos_bound. done.
  - intros j Hj. rewrite Z.shiftr_spec, testbit_uw by lia. destruct (Z.ltb_spec (j + (32 - size)) 32); [lia|done].
  - intros j Hj. rewrite Z.shiftr_spec, testbit_uw, Z.shiftl_spec by lia. rewrite (proj2 (Z.ltb_lt _ _)) by lia. rewrite slice_bit by lia.
    rewrite (proj2 (Z.ltb_lt _ _)) by lia. rewrite !andb_true_l. f_equal. lia.
Qed.

(** A bit of a word of the context. *)
Lemma word_bit_at i j : 0 <= i -> 0 <= j < 32 -> Z.testbit (context_word words i) j = word_bits words (32 * i + 31 - j).
Proof.
  intros Hi Hj. unfold context_word, bits_of. destruct (Z.ltb_spec i 0), (Z.ltb_spec (32 * i + 31 - j) 0); try lia.
  replace (32 * i + 31 - j) with (31 - j + i * 32) by lia. rewrite Z.div_add, Z.mod_add by lia. rewrite Z.div_small, Z.mod_small by lia. f_equal. lia.
Qed.

Lemma word_above i j : 32 <= j -> Z.testbit (context_word words i) j = false.
Proof.
  intros Hj. apply (testbit_above 32); [|lia]. unfold context_word. destruct (i <? 0); [done|].
  destruct (nth_in_or_default (Z.to_nat i) words 0) as [Hin| ->]; [|done]. pose proof Hwords as Hw. rewrite Forall_forall in Hw. by apply Hw, list_elem_of_In.
Qed.

Lemma word_past i : Z.of_nat (length words) <= i -> context_word words i = 0.
Proof. intros Hi. unfold context_word. destruct (Z.ltb_spec i 0); [done|]. apply nth_overflow. lia. Qed.

(** The two words a field of the context lies in, put together. *)
Lemma two_words i off size : 0 <= i -> 0 <= off < 32 -> 1 <= size <= 32 -> Z.of_nat (length words) < 2 ^ 31 -> i < 2 ^ 30 ->
  (let res := shr32 (shl32 (context_word words i) off) (32 - size) in
   let remaining := size - 32 + off in
   if 0 <? remaining then
     if i + 1 <? Z.of_nat (length words) then Z.lor res (shr32 (context_word words (i + 1)) (32 - remaining)) else res
   else res) = bit_slice (word_bits words) (32 * i + off) (Z.to_nat size).
Proof.
  intros Hi Ho Hs Hlen Hbig. cbv zeta. set (rem := size - 32 + off).
  assert ((if 0 <? rem then if i + 1 <? Z.of_nat (length words) then Z.lor (shr32 (shl32 (context_word words i) off) (32 - size)) (shr32 (context_word words (i + 1)) (32 - rem))
      else shr32 (shl32 (context_word words i) off) (32 - size) else shr32 (shl32 (context_word words i) off) (32 - size)) =
    Z.lor (shr32 (shl32 (context_word words i) off) (32 - size)) (if 0 <? rem then shr32 (context_word words (i + 1)) (32 - rem) else 0)) as ->.
  { destruct (0 <? rem); [|by rewrite Z.lor_0_r]. destruct (Z.ltb_spec (i + 1) (Z.of_nat (length words))); [done|].
    rewrite (word_past (i + 1)) by lia. unfold shr32. by rewrite Z.shiftr_0_l, Z.lor_0_r. }
  unfold shl32, shr32. rewrite !(Z.mod_small off), !(Z.mod_small (32 - size)) by lia.
  assert (forall x, 0 <= Z.shiftr (context_word words (i + 1)) x) as Hpos.
  { intros x. apply Z.shiftr_nonneg. unfold context_word. destruct (Z.ltb_spec (i + 1) 0); [done|].
    destruct (nth_in_or_default (Z.to_nat (i + 1)) words 0) as [Hin| ->]; [|done]. pose proof Hwords as Hw. rewrite Forall_forall in Hw. by apply Hw, list_elem_of_In. }
  apply eq_slice.
  - apply Z.lor_nonneg. split; [apply Z.shiftr_nonneg, Z.mod_pos_bound; done|]. destruct (0 <? rem); [apply Hpos|done].
  - intros j Hj. rewrite Z.lor_spec, Z.shiftr_spec, testbit_uw by lia. destruct (Z.ltb_spec (j + (32 - size)) 32); [lia|]. simpl.
    destruct (Z.ltb_spec 0 rem); [|by rewrite Z.bits_0]. rewrite Z.mod_small, Z.shiftr_spec by lia. apply word_above. lia.
  - intros j Hj. rewrite Z.lor_spec, Z.shiftr_spec, testbit_uw, Z.shiftl_spec by lia. rewrite (proj2 (Z.ltb_lt _ _)) by lia. rewrite andb_true_l.
    destruct (Z.ltb_spec 0 rem) as [Hr|Hr].
    + rewrite (Z.mod_small (32 - rem)), Z.shiftr_spec by lia. destruct (Z.lt_ge_cases j rem).
      * rewrite (Z.testbit_neg_r _ (j + (32 - size) - off)) by lia. rewrite word_bit_at by lia. simpl. f_equal. lia.
      * rewrite word_bit_at by lia. rewrite word_above by lia. rewrite orb_false_r. f_equal. lia.
    + rewrite Z.bits_0, orb_false_r. rewrite word_bit_at by lia. f_equal. lia.
Qed.

Lemma context_bits_slice startbit size : 0 <= startbit < 2 ^ 30 -> 1 <= size <= 32 -> Z.of_nat (length words) < 2 ^ 31 ->
  context_context_bits words startbit size = bit_slice (word_bits words) startbit (Z.to_nat size).
Proof.
  intros Hs Hsz Hlen. unfold context_context_bits. rewrite Z.quot_div_nonneg, Z.rem_mod_nonneg by lia.
  pose proof (Z.div_mod startbit 32 ltac:(lia)) as Hdm. pose proof (Z.mod_pos_bound startbit 32 ltac:(lia)) as Hm. assert (0 <= startbit / 32) by (apply Z.div_pos; lia).
  rewrite (i32_small (32 - size)), (i32_small (size - 32)), (i32_small (size - 32 + startbit mod 32)), (i32_small (startbit / 32 + 1)), (i32_small (Z.of_nat (length words))) by lia.
  rewrite (i32_small (32 - (size - 32 + startbit mod 32))) by lia. rewrite (u32_small (startbit mod 32)), (u32_small (32 - size)) by lia.
  replace (bit_slice (word_bits words) startbit) with (bit_slice (word_bits words) (32 * (startbit / 32) + startbit mod 32)) by (f_equal; lia). rewrite <- (two_words (startbit / 32) (startbit mod 32) size) by lia. cbv zeta.
  destruct (Z.ltb_spec 0 (size - 32 + startbit mod 32)); [|done]. by rewrite u32_small by lia.
Qed.

Lemma context_bytes_slice bytestart size : 0 <= bytestart < 2 ^ 27 -> 1 <= size <= 4 -> Z.of_nat (length words) < 2 ^ 31 ->
  context_context_bytes words bytestart size = bit_slice (word_bits words) (8 * bytestart) (Z.to_nat (8 * size)).
Proof.
  intros Hs Hsz Hlen. unfold context_context_bytes. rewrite Z.quot_div_nonneg, Z.rem_mod_nonneg by lia.
  pose proof (Z.div_mod bytestart 4 ltac:(lia)) as Hdm. pose proof (Z.mod_pos_bound bytestart 4 ltac:(lia)) as Hm. assert (0 <= bytestart / 4) by (apply Z.div_pos; lia).
  rewrite (i32_small (bytestart mod 4 * 8)), (i32_small (4 - size)), (i32_small ((4 - size) * 8)), (i32_small (size - 4)), (i32_small (size - 4 + bytestart mod 4)),
    (i32_small (bytestart / 4 + 1)), (i32_small (Z.of_nat (length words))), (i32_small (4 - (size - 4 + bytestart mod 4))) by lia.
  rewrite (i32_small ((4 - (size - 4 + bytestart mod 4)) * 8)) by lia. rewrite (u32_small (bytestart mod 4 * 8)), (u32_small ((4 - size) * 8)) by lia.
  replace (8 * bytestart) with (32 * (bytestart / 4) + bytestart mod 4 * 8) by lia.
  rewrite <- (two_words (bytestart / 4) (bytestart mod 4 * 8) (8 * size)) by lia. cbv zeta.
  replace (32 - 8 * size) with ((4 - size) * 8) by lia. replace (8 * size - 32 + bytestart mod 4 * 8) with ((size - 4 + bytestart mod 4) * 8) by lia.
  assert ((0 <? (size - 4 + bytestart mod 4) * 8) = (0 <? size - 4 + bytestart mod 4)) as -> by (apply eq_true_iff_eq; rewrite !Z.ltb_lt; lia).
  destruct (Z.ltb_spec 0 (size - 4 + bytestart mod 4)); [|done]. rewrite u32_small by lia.
  by replace (32 - (size - 4 + bytestart mod 4) * 8) with ((4 - (size - 4 + bytestart mod 4)) * 8) by lia.
Qed.
End Readers.
