(* ===== verification/SleighPattern.v ===== *)
(** Bit patterns of instructions and contexts: [PatternBlock] and
    [DisjointPattern] of [src/src/slghpattern.rs].  A block is a string of mask
    bits and a string of value bits at an offset; it matches the data whose bits
    under the mask are the value bits.  [block_normalize] trims the strings and keeps
    what they match. *)
From stdpp Require Import base list numbers strings.
From Stdlib Require Import ZArith Lia.
From S2P Require Import Prelude Bits Multiprecision SleighBits.
Local Open Scope Z_scope.
Local Open Scope rust_scope.

(** ** Definitions *)

Record PatternBlock : Type := mk_PatternBlock { offset : Z; nonzerosize : Z; maskvec : list Z; valvec : list Z }.

Definition block_new_bool (tf : bool) : PatternBlock := mk_PatternBlock 0 (if tf then 0 else -1) [] [].

(** The loop over the leading words whose mask is zero: how many, and the offset
    after them. *)
Fixpoint cut_loop (words : list Z) (off : Z) : nat * Z :=
  match words with
  | word :: words => if word =? 0 then let '(cut, off) := cut_loop words (i32 (off + 4)) in (S cut, off) else (O, off)
  | [] => (O, off)
  end.

(** The loop that counts the bytes of [tmp], which is below [2 ^ (8 * fuel)]. *)
Fixpoint suboff_loop (fuel : nat) (tmp : Z) : Z :=
  match fuel with
  | O => 0
  | S fuel => if tmp =? 0 then 0 else 1 + suboff_loop fuel (Z.shiftr tmp 8)
  end.

(** The loop that moves every word up and takes the top bytes of the next one. *)
Fixpoint shift_words (words : list Z) (shift_left shift_right : Z) : list Z :=
  match words with
  | [] => []
  | word :: rest =>
    match rest with
    | [] => [shl32 word shift_left]
    | next :: _ => Z.lor (shl32 word shift_left) (shr32 next shift_right) :: shift_words rest shift_left shift_right
    end
  end.

(** The loop back over the trailing zero words. *)
Fixpoint end_loop (words : list Z) (fin : nat) : nat :=
  match fin with
  | O => O
  | S k => if nth k words 0 =? 0 then end_loop words k else fin
  end.

(** The loop over the zero bytes at the bottom of a word that is not zero. *)
Fixpoint nonzero_loop (fuel : nat) (tmp size : Z) : Z :=
  match fuel with
  | O => size
  | S fuel => if Z.land tmp 0xff =? 0 then nonzero_loop fuel (Z.shiftr tmp 8) (i32 (size - 1)) else size
  end.

(** The middle of [block_normalize]: the strings are moved so that the first byte of the
    mask is not zero, and trailing zero words are dropped. *)
Definition align (off : Z) (mask val : list Z) : Z * list Z * list Z :=
  match mask with
  | [] => (off, mask, val)
  | first :: _ =>
    let suboff := 4 - suboff_loop 4 first in
    let '(off, mask, val) :=
      if suboff =? 0 then (off, mask, val)
      else (i32 (off + suboff), shift_words mask (suboff * 8) ((4 - suboff) * 8), shift_words val (suboff * 8) ((4 - suboff) * 8)) in
    let fin := end_loop mask (length mask) in
    (off, take fin mask, take fin val)
  end.

Definition block_normalize (b : PatternBlock) : PatternBlock :=
  if nonzerosize b <=? 0 then mk_PatternBlock 0 (nonzerosize b) [] []
  else
    let '(cut, off) := cut_loop (maskvec b) (offset b) in
    let '(off, mask, val) := align off (drop cut (maskvec b)) (drop cut (valvec b)) in
    match last mask with
    | None => mk_PatternBlock 0 0 mask val
    | Some tmp => mk_PatternBlock off (nonzero_loop 4 tmp (i32 (Z.of_nat (length mask) * 4))) mask val
    end.

Definition block_length (b : PatternBlock) : Z := i32 (offset b + nonzerosize b).

Definition vec_word (vec : list Z) (wordnum : Z) : Z :=
  if (wordnum <? 0) || (Z.of_nat (length vec) <=? wordnum) then 0 else nth (Z.to_nat wordnum) vec 0.

Definition get_bits (vec : list Z) (offset startbit size : Z) : Z :=
  let startbit := i32 (startbit - i32 (8 * offset)) in
  let wordnum1 := i32 (u32 startbit / 32) in
  let shift := i32 (u32 startbit mod 32) in
  let wordnum2 := i32 (u32 (i32 (i32 (startbit + size) - 1)) / 32) in
  let res := shl32 (vec_word vec wordnum1) (u32 shift) in
  let res := if wordnum1 =? wordnum2 then res else Z.lor res (shr32 (vec_word vec wordnum2) (u32 (i32 (32 - shift)))) in
  shr32 res (u32 (i32 (32 - size))).

Definition block_get_mask (b : PatternBlock) (startbit size : Z) : Z := get_bits (maskvec b) (offset b) startbit size.
Definition block_get_value (b : PatternBlock) (startbit size : Z) : Z := get_bits (valvec b) (offset b) startbit size.
Definition always_true (b : PatternBlock) : bool := nonzerosize b =? 0.
Definition always_false (b : PatternBlock) : bool := nonzerosize b =? -1.

(** The loop of [is_instruction_match] over the words of the block. *)
Fixpoint instruction_words (w : Walker) (words : list (Z * Z)) (off : Z) : outcome bool :=
  match words with
  | [] => Ok true
  | (mask, val) :: words =>
    let! data := get_instruction_bytes w off 4 in
    if Z.land mask data =? val then instruction_words w words (i32 (off + 4)) else Ok false
  end.

Definition is_instruction_match (b : PatternBlock) (w : Walker) : outcome bool :=
  if nonzerosize b <=? 0 then Ok (nonzerosize b =? 0) else instruction_words w (zip (maskvec b) (valvec b)) (offset b).

Fixpoint context_words (w : Walker) (words : list (Z * Z)) (off : Z) : bool :=
  match words with
  | [] => true
  | (mask, val) :: words =>
    if Z.land mask (get_context_bytes w off 4) =? val then context_words w words (i32 (off + 4)) else false
  end.

Definition is_context_match (b : PatternBlock) (w : Walker) : bool :=
  if nonzerosize b <=? 0 then nonzerosize b =? 0 else context_words w (zip (maskvec b) (valvec b)) (offset b).

Inductive DisjointPattern : Type :=
  | PInstruction (block : PatternBlock)
  | PContext (block : PatternBlock)
  | PCombine (cblock instr : PatternBlock).

Definition get_block (p : DisjointPattern) (ctx : bool) : option PatternBlock :=
  match p with
  | PInstruction block => if ctx then None else Some block
  | PContext block => if ctx then Some block else None
  | PCombine cblock instr => if ctx then Some cblock else Some instr
  end.

Definition pattern_get_mask (p : DisjointPattern) (startbit size : Z) (ctx : bool) : Z :=
  match get_block p ctx with Some b => block_get_mask b startbit size | None => 0 end.
Definition pattern_get_value (p : DisjointPattern) (startbit size : Z) (ctx : bool) : Z :=
  match get_block p ctx with Some b => block_get_value b startbit size | None => 0 end.
Definition pattern_length (p : DisjointPattern) (ctx : bool) : Z :=
  match get_block p ctx with Some b => block_length b | None => 0 end.

Definition is_match (p : DisjointPattern) (w : Walker) : outcome bool :=
  match p with
  | PInstruction block => is_instruction_match block w
  | PContext block => Ok (is_context_match block w)
  | PCombine cblock instr =>
    let! hit := is_instruction_match instr w in
    if hit then Ok (is_context_match cblock w) else Ok false
  end.

Section Examples.
(** [0x0f40] under [0xfff0] from the second byte on, given with three useless bytes. *)
Definition raw : PatternBlock := mk_PatternBlock 0 12 [0; 0x00fff000; 0] [0; 0x00f40000; 0].
Definition demo : Walker := mk_Walker [1; 2; 3; 4; 5; 0xf4; 0x0b; 7] [0x12345678; 0x9abcdef0] 0.
Example normalize_raw : block_normalize raw = mk_PatternBlock 5 2 [0xfff00000] [0xf4000000].
Proof. reflexivity. Qed.
Example match_raw : is_instruction_match (block_normalize raw) demo = Ok true /\ is_instruction_match raw demo = Ok true.
Proof. by vm_compute. Qed.
Example mask_raw : block_get_mask (block_normalize raw) 36 8 = 0x0f /\ block_get_value (block_normalize raw) 40 8 = 0xf4.
Proof. by vm_compute. Qed.
End Examples.

(** ** What a block matches *)

Definition mask_bit (b : PatternBlock) (i : Z) : bool := word_bits (maskvec b) (i - 8 * offset b).
Definition value_bit (b : PatternBlock) (i : Z) : bool := word_bits (valvec b) (i - 8 * offset b).

(** The block matches a string of bits: under the mask the bits are the value. *)
Definition block_matches (b : PatternBlock) (data : Z -> bool) : Prop :=
  nonzerosize b = 0 \/ (0 < nonzerosize b /\ forall i, value_bit b i = mask_bit b i && data i).

(** The two strings a walker shows. *)
Definition instruction_data (w : Walker) (i : Z) : bool := byte_bits (buf w) (8 * point_offset w + i).
Definition context_data (w : Walker) (i : Z) : bool := word_bits (context w) i.

Definition walker_ok (w : Walker) : Prop :=
  Forall is_u8 (buf w) /\ Forall is_u32 (context w) /\ 0 <= point_offset w < 2 ^ 31 /\ Z.of_nat (length (context w)) < 2 ^ 31.

Definition block_ok (b : PatternBlock) : Prop :=
  length (maskvec b) = length (valvec b) /\ Forall is_u32 (maskvec b) /\ Forall is_u32 (valvec b) /\
  0 <= offset b /\ offset b + 4 * Z.of_nat (length (maskvec b)) < 2 ^ 26.

(** No value bit is set where the mask is clear. *)
Definition block_masked (b : PatternBlock) : Prop := forall i, value_bit b i = true -> mask_bit b i = true.

Lemma word_bits_neg l i : i < 0 -> word_bits l i = false.
Proof. intros Hi. unfold bits_of. by rewrite (proj2 (Z.ltb_lt _ _)) by lia. Qed.

Lemma word_bits_nil i : word_bits [] i = false.
Proof. unfold bits_of. destruct (i <? 0); [done|]. destruct (Z.to_nat _); apply Z.bits_0. Qed.

Lemma word_bits_head x l i : 0 <= i < 32 -> word_bits (x :: l) i = Z.testbit x (31 - i).
Proof.
  intros Hi. unfold bits_of. rewrite (proj2 (Z.ltb_ge _ _)) by lia. rewrite Z.div_small, Z.mod_small by lia. done.
Qed.

Lemma word_bits_nth l i : 0 <= i -> word_bits l i = Z.testbit (nth (Z.to_nat (i / 32)) l 0) (31 - i mod 32).
Proof. intros Hi. unfold bits_of. by rewrite (proj2 (Z.ltb_ge _ _)) by lia. Qed.

(** Words at the front that hold no bits can be dropped. *)
Lemma drop_bits n l i : (forall j, j < 32 * Z.of_nat n -> word_bits l j = false) -> word_bits (drop n l) (i - 32 * Z.of_nat n) = word_bits l i.
Proof.
  intros Hz. destruct (Z.lt_ge_cases i (32 * Z.of_nat n)) as [Hi|Hi]; [by rewrite word_bits_neg, Hz by lia|].
  rewrite !word_bits_nth by lia. replace (i - 32 * Z.of_nat n) with (i + (- Z.of_nat n) * 32) by lia. rewrite Z.div_add, Z.mod_add by lia.
  f_equal. rewrite !nth_lookup, lookup_drop. do 2 f_equal. pose proof (Z.div_mod i 32 ltac:(lia)). pose proof (Z.mod_pos_bound i 32 ltac:(lia)). lia.
Qed.

Lemma word_bits_tail x l i : 32 <= i -> word_bits (x :: l) i = word_bits l (i - 32).
Proof.
  intros Hi. rewrite !word_bits_nth by lia. replace (i - 32) with (i + (-1) * 32) by lia. rewrite Z.div_add, Z.mod_add by lia.
  f_equal. pose proof (Z.div_mod i 32 ltac:(lia)). pose proof (Z.mod_pos_bound i 32 ltac:(lia)).
  replace (Z.to_nat (i / 32)) with (S (Z.to_nat (i / 32 + -1))) by lia. done.
Qed.

(** Words at the end that hold no bits can be dropped. *)
Lemma take_bits n l i : (forall j, 32 * Z.of_nat n <= j -> word_bits l j = false) -> word_bits (take n l) i = word_bits l i.
Proof.
  intros Hz. destruct (Z.lt_ge_cases i 0) as [Hn|Hn]; [by rewrite !word_bits_neg|].
  pose proof (Z.div_mod i 32 ltac:(lia)) as Hdm. pose proof (Z.mod_pos_bound i 32 ltac:(lia)).
  destruct (Z.lt_ge_cases i (32 * Z.of_nat n)) as [Hi|Hi].
  - rewrite !word_bits_nth by lia. f_equal. rewrite !nth_lookup, lookup_take. by rewrite decide_True by lia.
  - rewrite Hz by lia. rewrite word_bits_nth, nth_lookup by lia. rewrite lookup_take, decide_False by lia. apply Z.bits_0.
Qed.

Lemma word_bits_past l i : 32 * Z.of_nat (length l) <= i -> word_bits l i = false.
Proof.
  intros Hi. pose proof (Z.div_mod i 32 ltac:(lia)) as Hdm. pose proof (Z.mod_pos_bound i 32 ltac:(lia)).
  rewrite word_bits_nth by lia. rewrite nth_overflow by lia. apply Z.bits_0.
Qed.

(** A word is zero when it holds no bit. *)
Lemma word_zero x : is_u32 x -> (forall i, 0 <= i < 32 -> Z.testbit x (31 - i) = false) -> x = 0.
Proof.
  intros Hx Hz. apply Z.bits_inj'. intros j Hj. rewrite Z.bits_0. destruct (Z.lt_ge_cases j 32); [|by apply (testbit_above 32)].
  replace j with (31 - (31 - j)) by lia. apply Hz. lia.
Qed.

Lemma word_nonzero x : is_u32 x -> x <> 0 -> exists i, 0 <= i < 32 /\ Z.testbit x (31 - i) = true.
Proof.
  intros Hx Hne. exists (31 - Z.log2 x). pose proof (Z.log2_nonneg x). assert (Z.log2 x < 32) by (apply Z.log2_lt_pow2; unfold is_u in Hx; lia).
  split; [lia|]. replace (31 - (31 - Z.log2 x)) with (Z.log2 x) by lia. apply Z.bit_log2. unfold is_u in Hx. lia.
Qed.

(** ** The loops compare every bit *)

(** The loop both matches run, over a string of bits. *)
Fixpoint scan (data : Z -> bool) (words : list (Z * Z)) (off : Z) : bool :=
  match words with
  | [] => true
  | (mask, val) :: words => if Z.land mask (bit_slice data (8 * off) 32) =? val then scan data words (off + 4) else false
  end.

Lemma word_match data mask val s : is_u32 mask -> is_u32 val ->
  (Z.land mask (bit_slice data s 32) =? val) = true <-> forall i, 0 <= i < 32 -> Z.testbit val (31 - i) = Z.testbit mask (31 - i) && data (s + i).
Proof.
  intros Hm Hv. rewrite Z.eqb_eq. split.
  - intros <- i Hi. rewrite Z.land_spec, slice_bit by lia. rewrite (proj2 (Z.ltb_lt _ _)) by lia. simpl. do 2 f_equal. lia.
  - intros Hb. apply Z.bits_inj'. intros j Hj. rewrite Z.land_spec, slice_bit by lia. destruct (Z.lt_ge_cases j 32).
    + rewrite (proj2 (Z.ltb_lt _ _)) by lia. specialize (Hb (31 - j) ltac:(lia)). replace (31 - (31 - j)) with j in Hb by lia.
      rewrite Hb. simpl. do 2 f_equal. lia.
    + by rewrite (testbit_above 32 mask), (testbit_above 32 val) by (done || lia).
Qed.

Lemma scan_spec data mask : forall val off, length mask = length val -> Forall is_u32 mask -> Forall is_u32 val ->
  scan data (zip mask val) off = true <-> forall i, word_bits val i = word_bits mask i && data (8 * off + i).
Proof.
  induction mask as [|m mask IH]; intros [|v val] off Hlen Hm Hv; try done.
  - split; [|done]. intros _ i. by rewrite !word_bits_nil.
  - apply Forall_cons in Hm as [Hm Hms], Hv as [Hv Hvs]. cbn [zip_with scan].
    assert (scan data (zip mask val) (off + 4) = true <-> forall i, 32 <= i -> word_bits (v :: val) i = word_bits (m :: mask) i && data (8 * off + i)) as Htail.
    { rewrite IH by (done || (simpl in Hlen; lia)). split; intros Hb i.
      - intros Hi. rewrite !word_bits_tail by lia. rewrite Hb. do 2 f_equal. lia.
      - destruct (Z.lt_ge_cases i 0); [by rewrite !word_bits_neg by lia|]. specialize (Hb (i + 32) ltac:(lia)). rewrite !word_bits_tail in Hb by lia.
        replace (i + 32 - 32) with i in Hb by lia. rewrite Hb. do 2 f_equal. lia. }
    destruct (Z.land m _ =? v) eqn:E.
    + rewrite Htail. rewrite word_match in E by done. split; [|auto]. intros Hb i.
      destruct (Z.lt_ge_cases i 0); [by rewrite !word_bits_neg by lia|]. destruct (Z.lt_ge_cases i 32); [|by apply Hb].
      rewrite !word_bits_head by lia. by apply E.
    + split; [done|]. intros Hb. exfalso. apply not_true_iff_false in E. apply E. rewrite word_match by done.
      intros i Hi. specialize (Hb i). by rewrite !word_bits_head in Hb by lia.
Qed.

Lemma context_words_scan w words : forall off, walker_ok w -> 0 <= off -> off + 4 * Z.of_nat (length words) < 2 ^ 26 ->
  context_words w words off = scan (context_data w) words off.
Proof.
  induction words as [|[m v] words IH]; intros off (Hb & Hc & Hp & Hl) Ho Hlen; [done|]. cbn [context_words scan length] in *.
  unfold get_context_bytes. rewrite context_bytes_slice by (done || lia). change (Z.to_nat (8 * 4)) with 32%nat.
  rewrite (i32_small (off + 4)) by lia. rewrite IH by (done || lia). done.
Qed.

Lemma instruction_words_scan w words : forall off, walker_ok w -> 0 <= off ->
  (words <> [] -> point_offset w + off + 4 * Z.of_nat (length words) < 20) ->
  instruction_words w words off = Ok (scan (instruction_data w) words off).
Proof.
  induction words as [|[m v] words IH]; intros off (Hb & Hc & Hp & Hl) Ho Hlen; [done|]. cbn [instruction_words scan length] in *.
  specialize (Hlen ltac:(done)). unfold get_instruction_bytes. rewrite instruction_bytes_slice by (done || lia). cbn [obind]. change (Z.to_nat (8 * 4)) with 32%nat.
  replace (bit_slice (byte_bits (buf w)) (8 * (point_offset w + off)) 32) with (bit_slice (instruction_data w) (8 * off) 32)
    by (apply slice_ext; intros i Hi; unfold instruction_data; f_equal; lia).
  rewrite (i32_small (off + 4)) by lia. rewrite IH by (done || (intros; lia)). by destruct (_ =? v).
Qed.

(** The block reads inside the instruction. *)
Definition reads_inside (b : PatternBlock) (w : Walker) : Prop :=
  0 < nonzerosize b -> maskvec b <> [] -> point_offset w + offset b + 4 * Z.of_nat (length (maskvec b)) < 20.

Lemma scan_matches b data : block_ok b -> 0 < nonzerosize b -> scan data (zip (maskvec b) (valvec b)) (offset b) = true <-> block_matches b data.
Proof.
  intros (Hlen & Hm & Hv & Ho & Hb) Hnz. rewrite scan_spec by done. unfold block_matches, mask_bit, value_bit. split.
  - intros Hs. right. split; [done|]. intros i. rewrite Hs. do 2 f_equal. lia.
  - intros [?|[_ Hs]]; [lia|]. intros i. specialize (Hs (8 * offset b + i)). by replace (8 * offset b + i - 8 * offset b) with i in Hs by lia.
Qed.

Lemma context_match_spec b w : block_ok b -> walker_ok w -> is_context_match b w = true <-> block_matches b (context_data w).
Proof.
  intros Hb Hw. unfold is_context_match. destruct (Z.leb_spec (nonzerosize b) 0).
  - rewrite Z.eqb_eq. unfold block_matches. split; [auto|]. intros [?|[? _]]; lia.
  - destruct Hb as (Hlen & Hb). rewrite context_words_scan by (rewrite ?length_zip; tauto || lia). by apply scan_matches.
Qed.

Lemma instruction_match_spec b w : block_ok b -> walker_ok w -> reads_inside b w ->
  exists hit, is_instruction_match b w = Ok hit /\ (hit = true <-> block_matches b (instruction_data w)).
Proof.
  intros Hb Hw Hr. unfold is_instruction_match. destruct (Z.leb_spec (nonzerosize b) 0).
  - eexists. split; [done|]. rewrite Z.eqb_eq. unfold block_matches. split; [auto|]. intros [?|[? _]]; lia.
  - eexists. destruct Hb as (Hlen & Hb). split; [|by apply scan_matches]. apply instruction_words_scan; [done|tauto|].
    rewrite length_zip. intros Hne. specialize (Hr ltac:(lia)). assert (maskvec b <> []) by (intros E; rewrite E in Hne; done). specialize (Hr H0). lia.
Qed.

(** ** The fields of a block *)

Lemma vec_word_nth vec k : vec_word vec k = if k <? 0 then 0 else nth (Z.to_nat k) vec 0.
Proof.
  unfold vec_word. destruct (Z.ltb_spec k 0); [done|]. simpl. destruct (Z.leb_spec (Z.of_nat (length vec)) k); [|done].
  by rewrite nth_overflow by lia.
Qed.

Section Field.
Context (vec : list Z) (Hvec : Forall is_u32 vec) (Hlen : Z.of_nat (length vec) < 2 ^ 24).

Lemma u32_split s : - 2 ^ 30 < s < 2 ^ 30 ->
  u32 s / 32 = (if s <? 0 then s / 32 + 2 ^ 27 else s / 32) /\ u32 s mod 32 = s mod 32.
Proof.
  intros Hs. unfold uw. destruct (Z.ltb_spec s 0).
  - assert (s mod 2 ^ 32 = s + 2 ^ 27 * 32) as -> by (rewrite <- (Z.mod_add s 1) by lia; apply Z.mod_small; lia).
    rewrite Z.div_add, Z.mod_add by lia. done.
  - by rewrite (Z.mod_small s) by lia.
Qed.

Lemma field_word s : - 2 ^ 30 < s < 2 ^ 30 -> vec_word vec (i32 (u32 s / 32)) = context_word vec (s / 32).
Proof.
  intros Hs. destruct (u32_split s Hs) as [-> _]. pose proof (Z.div_mod s 32 ltac:(lia)). pose proof (Z.mod_pos_bound s 32 ltac:(lia)).
  rewrite vec_word_nth. unfold context_word. destruct (Z.ltb_spec s 0).
  - rewrite i32_small by lia. destruct (Z.ltb_spec (s / 32 + 2 ^ 27) 0), (Z.ltb_spec (s / 32) 0); try lia. apply nth_overflow. lia.
  - by rewrite i32_small by lia.
Qed.

Lemma field_word_bit k j : 0 <= j < 32 -> Z.testbit (context_word vec k) j = word_bits vec (32 * k + 31 - j).
Proof.
  intros Hj. destruct (Z.lt_ge_cases k 0); [|by apply word_bit_at]. rewrite word_bits_neg by lia. unfold context_word.
  rewrite (proj2 (Z.ltb_lt _ _)) by lia. apply Z.bits_0.
Qed.

Lemma context_word_pos k : 0 <= context_word vec k.
Proof.
  unfold context_word. destruct (k <? 0); [done|]. destruct (nth_in_or_default (Z.to_nat k) vec 0) as [Hin| ->]; [|done].
  rewrite Forall_forall in Hvec. by apply Hvec, list_elem_of_In.
Qed.

(** A field is the slice of the string, wherever it lies. *)
Lemma get_bits_slice off startbit size : 0 <= off < 2 ^ 26 -> 0 <= startbit < 2 ^ 29 -> 1 <= size <= 32 ->
  get_bits vec off startbit size = bit_slice (fun i => word_bits vec (i - 8 * off)) startbit (Z.to_nat size).
Proof.
  intros Ho Hs Hsz. unfold get_bits. rewrite (i32_small (8 * off)), (i32_small (startbit - 8 * off)) by lia.
  set (s := startbit - 8 * off). assert (- 2 ^ 29 < s < 2 ^ 29) as Hb by lia.
  rewrite (i32_small (s + size)), (i32_small (s + size - 1)), !field_word, (i32_small (32 - size)) by lia.
  destruct (u32_split s ltac:(lia)) as [Hd1 Hm1], (u32_split (s + size - 1) ltac:(lia)) as [Hd2 _]. rewrite Hm1, Hd1, Hd2. clear Hm1 Hd1 Hd2.
  pose proof (Z.div_mod s 32 ltac:(lia)) as Hdm. pose proof (Z.mod_pos_bound s 32 ltac:(lia)) as Hm.
  pose proof (Z.div_mod (s + size - 1) 32 ltac:(lia)) as Hdm2. pose proof (Z.mod_pos_bound (s + size - 1) 32 ltac:(lia)) as Hm2.
  set (q := s / 32) in *. set (sh := s mod 32) in *. set (q2 := (s + size - 1) / 32) in *.
  rewrite (i32_small sh), (u32_small sh), (u32_small (32 - size)) by lia. rewrite (i32_small (32 - sh)) by lia. rewrite !(u32_small (32 - sh)) by lia.
  assert ((i32 (if s <? 0 then q + 2 ^ 27 else q) =? i32 (if s + size - 1 <? 0 then q2 + 2 ^ 27 else q2)) = (q =? q2)) as ->.
  { apply eq_true_iff_eq. rewrite !Z.eqb_eq. destruct (Z.ltb_spec s 0), (Z.ltb_spec (s + size - 1) 0); rewrite !i32_small by lia; lia. }
  apply eq_slice.
  - unfold shr32. apply Z.shiftr_nonneg. destruct (q =? q2); [apply Z.mod_pos_bound; lia|]. apply Z.lor_nonneg.
    split; [apply Z.mod_pos_bound; lia|apply Z.shiftr_nonneg, context_word_pos].
  - intros j Hj. unfold shl32, shr32. rewrite !(Z.mod_small sh), (Z.mod_small (32 - size)) by lia. rewrite Z.shiftr_spec by lia.
    destruct (q =? q2); rewrite ?Z.lor_spec, testbit_uw by lia; rewrite (proj2 (Z.ltb_ge _ _)) by lia; simpl; [done|].
    rewrite Z.shiftr_spec by lia. apply word_above; [done|]. pose proof (Z.mod_pos_bound (32 - sh) 32 ltac:(lia)). lia.
  - intros j Hj. unfold shl32, shr32. rewrite !(Z.mod_small sh), (Z.mod_small (32 - size)) by lia. rewrite Z.shiftr_spec by lia.
    destruct (Z.eqb_spec q q2) as [E|E]; rewrite ?Z.lor_spec, testbit_uw by lia; rewrite (proj2 (Z.ltb_lt _ _)) by lia; rewrite andb_true_l, Z.shiftl_spec by lia.
    + rewrite field_word_bit by lia. f_equal. lia.
    + rewrite (Z.mod_small (32 - sh)), Z.shiftr_spec by lia. destruct (Z.lt_ge_cases (j + (32 - size)) sh).
      * rewrite Z.testbit_neg_r by lia. rewrite field_word_bit by lia. simpl. f_equal. lia.
      * rewrite field_word_bit by lia. rewrite word_above by (done || lia). rewrite orb_false_r. f_equal. lia.
Qed.
End Field.

(** ** Normalization *)

Lemma cut_loop_spec words : forall off, 0 <= off -> off + 4 * Z.of_nat (length words) < 2 ^ 26 ->
  exists cut, cut_loop words off = (cut, off + 4 * Z.of_nat cut) /\ (cut <= length words)%nat /\
    (forall i, i < 32 * Z.of_nat cut -> word_bits words i = false) /\
    (forall first rest, drop cut words = first :: rest -> first <> 0).
Proof.
  induction words as [|x words IH]; intros off Ho Hlen; simpl.
  - exists O. split_and!; [f_equal; lia|lia|by intros; apply word_bits_nil|done].
  - destruct (Z.eqb_spec x 0) as [->|Hx].
    + cbn [length] in Hlen. rewrite i32_small by lia. destruct (IH (off + 4)) as (cut & -> & Hc & Hz & Hf); [lia..|].
      exists (S cut). split_and!; [f_equal; lia|lia| |done]. intros i Hi.
      destruct (Z.lt_ge_cases i 0); [by apply word_bits_neg|]. destruct (Z.lt_ge_cases i 32); [rewrite word_bits_head by lia; apply Z.bits_0|].
      rewrite word_bits_tail by lia. apply Hz. lia.
    + exists O. split_and!; [f_equal; lia|lia| |by intros ?? [= <- _]]. intros i Hi. apply word_bits_neg. lia.
Qed.

Lemma suboff_spec fuel : forall x, 0 < x < 2 ^ (8 * Z.of_nat fuel) ->
  1 <= suboff_loop fuel x <= Z.of_nat fuel /\ 2 ^ (8 * (suboff_loop fuel x - 1)) <= x < 2 ^ (8 * suboff_loop fuel x).
Proof.
  induction fuel as [|fuel IH]; intros x Hx; [simpl in Hx; lia|]. cbn [suboff_loop]. rewrite (proj2 (Z.eqb_neq _ _)) by lia.
  rewrite Z.shiftr_div_pow2 by lia. change (2 ^ 8) with 256. pose proof (Z.div_mod x 256 ltac:(lia)) as Hdm. pose proof (Z.mod_pos_bound x 256 ltac:(lia)).
  replace (8 * Z.of_nat (S fuel)) with (8 + 8 * Z.of_nat fuel) in Hx by lia. rewrite Z.pow_add_r in Hx by lia. change (2 ^ 8) with 256 in Hx.
  destruct (Z.eq_dec (x / 256) 0) as [E|E].
  - assert (suboff_loop fuel (x / 256) = 0) as -> by (rewrite E; by destruct fuel). rewrite E in Hdm. change (2 ^ (8 * (1 + 0 - 1))) with 1. change (2 ^ (8 * (1 + 0))) with 256. lia.
  - destruct (IH (x / 256)) as [Hr [Hlo Hhi]].
    { split; [pose proof (Z.div_pos x 256 ltac:(lia) ltac:(lia)); lia|apply Z.div_lt_upper_bound; lia]. }
    set (k := suboff_loop fuel (x / 256)) in *. split; [lia|]. replace (8 * (1 + k - 1)) with (8 + 8 * (k - 1)) by lia. replace (8 * (1 + k)) with (8 + 8 * k) by lia.
    rewrite !Z.pow_add_r by lia. change (2 ^ 8) with 256. lia.
Qed.

Lemma length_shift_words words l r : length (shift_words words l r) = length words.
Proof. induction words as [|x [|y words] IH]; [done|done|]. cbn [shift_words length] in *. by rewrite IH. Qed.

Lemma shift_words_u32 words l r : Forall is_u32 words -> Forall is_u32 (shift_words words l r).
Proof.
  induction words as [|x [|y words] IH]; intros Hw; [constructor|repeat constructor; apply uw_range; lia|].
  apply Forall_cons in Hw as [Hx Hw]. constructor; [|by apply IH]. apply lor_is_u; [lia|apply uw_range; lia|].
  apply Forall_cons in Hw as [Hy _]. unfold shr32. rewrite Z.shiftr_div_pow2 by (pose proof (Z.mod_pos_bound r 32 ltac:(lia)); lia).
  pose proof (pow2_pos (r mod 32)) as Hp. pose proof (Z.mod_pos_bound r 32 ltac:(lia)). unfold is_u in *. split; [apply Z.div_pos; lia|].
  apply Z.div_lt_upper_bound; [lia|]. nia.
Qed.

(** Every bit moves up by the shift. *)
Lemma shift_words_bits words s i : Forall is_u32 words -> 0 < s < 32 -> 0 <= i ->
  word_bits (shift_words words s (32 - s)) i = word_bits words (i + s).
Proof.
  intros Hw Hs. revert i. induction words as [|x words IH]; intros i Hi; [by rewrite !word_bits_nil|].
  apply Forall_cons in Hw as [Hx Hw]. specialize (IH Hw).
  assert (forall j, 0 <= j < 32 -> Z.testbit (shl32 x s) (31 - j) = (j + s <? 32) && Z.testbit x (31 - (j + s))) as Hshl.
  { intros j Hj. unfold shl32. rewrite Z.mod_small, testbit_uw, Z.shiftl_spec by lia. rewrite (proj2 (Z.ltb_lt (31 - j) 32)) by lia. simpl.
    destruct (Z.ltb_spec (j + s) 32); [simpl; f_equal; lia|]. by rewrite Z.testbit_neg_r by lia. }
  destruct words as [|y words]; cbn [shift_words].
  - destruct (Z.lt_ge_cases i 32).
    + rewrite word_bits_head, Hshl by lia. destruct (Z.ltb_spec (i + s) 32); [by rewrite word_bits_head by lia|]. by rewrite word_bits_past by (simpl; lia).
    + by rewrite !word_bits_past by (simpl; lia).
  - destruct (Z.lt_ge_cases i 32).
    + rewrite word_bits_head, Z.lor_spec, Hshl by lia. unfold shr32. rewrite Z.mod_small, Z.shiftr_spec by lia. apply Forall_cons in Hw as [Hy _].
      destruct (Z.ltb_spec (i + s) 32).
      * rewrite word_bits_head by lia. rewrite (testbit_above 32 y) by (done || lia). apply orb_false_r.
      * rewrite word_bits_tail, word_bits_head by lia. simpl. f_equal. lia.
    + rewrite (word_bits_tail _ (shift_words (y :: words) s (32 - s))) by lia. rewrite IH by lia. rewrite (word_bits_tail x (y :: words)) by lia. f_equal. lia.
Qed.

Lemma end_loop_spec words fin : let n := end_loop words fin in
  (n <= fin)%nat /\ (forall k, (n <= k < fin)%nat -> nth k words 0 = 0) /\ (n = O \/ nth (pred n) words 0 <> 0).
Proof.
  induction fin as [|fin IH]; simpl; [split_and!; [lia|lia|by left]|]. destruct (Z.eqb_spec (nth fin words 0) 0) as [E|E].
  - destruct IH as (H1 & H2 & H3). split_and!; [lia| |done]. intros k Hk. destruct (decide (k = fin)) as [->|]; [done|]. apply H2. lia.
  - split_and!; [lia|lia|by right].
Qed.

Lemma nonzero_loop_spec fuel : forall x size, 0 < x < 2 ^ (8 * Z.of_nat fuel) -> Z.of_nat fuel <= size < 2 ^ 30 ->
  exists k, nonzero_loop fuel x size = size - k /\ 0 <= k < Z.of_nat fuel /\ x mod 2 ^ (8 * k) = 0 /\ x mod 2 ^ (8 * (k + 1)) <> 0.
Proof.
  induction fuel as [|fuel IH]; intros x size Hx Hs; [simpl in Hx; lia|]. cbn [nonzero_loop].
  change 0xff with (Z.ones 8). rewrite Z.land_ones by lia. destruct (Z.eqb_spec (x mod 2 ^ 8) 0) as [E|E].
  - rewrite Z.shiftr_div_pow2 by lia. change (2 ^ 8) with 256 in *. pose proof (Z.div_mod x 256 ltac:(lia)) as Hdm.
    replace (8 * Z.of_nat (S fuel)) with (8 + 8 * Z.of_nat fuel) in Hx by lia. rewrite Z.pow_add_r in Hx by lia. change (2 ^ 8) with 256 in Hx.
    rewrite i32_small by lia. destruct (IH (x / 256) (size - 1)) as (k & -> & Hk & H1 & H2); [|lia|].
    { split; [lia|apply Z.div_lt_upper_bound; lia]. }
    exists (k + 1). split_and!; [lia|lia|lia| |].
    + replace (8 * (k + 1)) with (8 + 8 * k) by lia. rewrite Z.pow_add_r by lia. change (2 ^ 8) with 256. pose proof (pow2_pos (8 * k) ltac:(lia)). rewrite Z.rem_mul_r, H1, E by lia. lia.
    + replace (8 * (k + 1 + 1)) with (8 + 8 * (k + 1)) by lia. rewrite Z.pow_add_r by lia. change (2 ^ 8) with 256.
      pose proof (pow2_pos (8 * (k + 1)) ltac:(lia)). rewrite Z.rem_mul_r, E by lia. lia.
  - exists 0. split_and!; [lia|lia|lia|apply Z.mod_1_r|done].
Qed.

(** The words moved up by [s] bytes, or left alone. *)
Definition moved (s : Z) (words : list Z) : list Z := if s =? 0 then words else shift_words words (s * 8) ((4 - s) * 8).

Lemma moved_bits s words i : Forall is_u32 words -> 0 <= s <= 3 -> (forall j, j < 8 * s -> word_bits words j = false) ->
  word_bits (moved s words) (i - 8 * s) = word_bits words i.
Proof.
  intros Hw Hs Hz. unfold moved. destruct (Z.eqb_spec s 0) as [->|]; [f_equal; lia|].
  destruct (Z.lt_ge_cases i (8 * s)); [by rewrite word_bits_neg, Hz by lia|]. replace ((4 - s) * 8) with (32 - s * 8) by lia.
  rewrite shift_words_bits by (done || lia). f_equal. lia.
Qed.

Lemma moved_ok s words : length (moved s words) = length words /\ (Forall is_u32 words -> Forall is_u32 (moved s words)).
Proof. unfold moved. destruct (s =? 0); [done|]. split; [apply length_shift_words|apply shift_words_u32]. Qed.

Lemma align_eq off first rest val : let mask := first :: rest in let s := 4 - suboff_loop 4 first in
  - 2 ^ 31 <= off < 2 ^ 31 - 4 -> 0 <= s <= 4 ->
  align off mask val = (off + s, take (end_loop (moved s mask) (length mask)) (moved s mask), take (end_loop (moved s mask) (length mask)) (moved s val)).
Proof.
  intros mask s Ho Hs. unfold align, mask. fold s. destruct (moved_ok s mask) as [Hl _]. unfold moved in *. destruct (Z.eqb_spec s 0) as [E|E].
  - by rewrite E, Z.add_0_r.
  - fold mask. rewrite Hl. by rewrite i32_small by lia.
Qed.

(** What the words look like when the trimming is over. *)
Record trimmed (off : Z) (mask val : list Z) (off' : Z) (mask' val' : list Z) : Prop := mk_trimmed {
  trim_mask : forall i, word_bits mask' (i - 8 * off') = word_bits mask (i - 8 * off);
  trim_val : forall i, word_bits val' (i - 8 * off') = word_bits val (i - 8 * off);
  trim_len : length mask' = length val';
  trim_u32 : Forall is_u32 mask' /\ Forall is_u32 val';
  trim_off : off <= off' /\ off' + 4 * Z.of_nat (length mask') <= off + 4 * Z.of_nat (length mask) + 3 }.

(** The first byte of the mask is in use, and so is its last word. *)
Definition tight (mask : list Z) : Prop :=
  (exists i, 0 <= i < 8 /\ word_bits mask i = true) /\ exists x, last mask = Some x /\ x <> 0.

Lemma first_bits first : is_u32 first -> first <> 0 -> let s := 4 - suboff_loop 4 first in 0 <= s <= 3 /\
  (forall i, 0 <= i < 8 * s -> Z.testbit first (31 - i) = false) /\ exists i, 8 * s <= i < 8 * s + 8 /\ i < 32 /\ Z.testbit first (31 - i) = true.
Proof.
  intros Hu Hne s. destruct (suboff_spec 4 first) as [Hr [Hlo Hhi]]; [unfold is_u in Hu; simpl; lia|]. set (n := suboff_loop 4 first) in *. fold n in s.
  assert (8 * (n - 1) <= Z.log2 first < 8 * n) as Hlog.
  { split; [apply Z.log2_le_pow2; unfold is_u in Hu; lia|apply Z.log2_lt_pow2; unfold is_u in Hu; lia]. }
  split_and!; [lia..| |].
  - intros i Hi. apply Z.bits_above_log2; [unfold is_u in Hu; lia|lia].
  - exists (31 - Z.log2 first). split_and!; [lia..|]. replace (31 - (31 - Z.log2 first)) with (Z.log2 first) by lia. apply Z.bit_log2. unfold is_u in Hu. lia.
Qed.

(** The words from [end_loop] on hold no bits. *)
Lemma end_loop_bits words i : 32 * Z.of_nat (end_loop words (length words)) <= i -> word_bits words i = false.
Proof.
  intros Hi. destruct (end_loop_spec words (length words)) as (Hle & Hz & _). pose proof (Z.div_mod i 32 ltac:(lia)). pose proof (Z.mod_pos_bound i 32 ltac:(lia)).
  rewrite word_bits_nth by lia. destruct (decide (Z.to_nat (i / 32) < length words)%nat); [rewrite Hz by lia|rewrite nth_overflow by lia]; apply Z.bits_0.
Qed.

Lemma end_loop_last words : words <> [] -> (exists i, word_bits words i = true) ->
  exists x, last (take (end_loop words (length words)) words) = Some x /\ x <> 0.
Proof.
  intros Hne [i Hi]. destruct (end_loop_spec words (length words)) as (Hle & _ & Hl). pose proof (end_loop_bits words i) as Hb.
  set (n := end_loop words (length words)) in *. destruct Hl as [Hn|Hl].
  - exfalso. rewrite Hn in Hb. destruct (Z.lt_ge_cases i 0); [by rewrite word_bits_neg in Hi by lia|]. rewrite Hb in Hi by lia. done.
  - destruct (decide (n = O)) as [Hn|Hn].
    + exfalso. rewrite Hn in Hb. destruct (Z.lt_ge_cases i 0); [by rewrite word_bits_neg in Hi by lia|]. rewrite Hb in Hi by lia. done.
    + exists (nth (pred n) words 0). split; [|done]. rewrite last_lookup, length_take, Nat.min_l by lia. rewrite lookup_take, decide_True by lia.
      rewrite nth_lookup. destruct (lookup_lt_is_Some_2 words (pred n) ltac:(lia)) as [y ->]. done.
Qed.

Section Align.
Context (off first : Z) (rest val : list Z).
Abbreviation mask := (first :: rest).
Context (Hfirst : first <> 0) (Hm : Forall is_u32 mask) (Hv : Forall is_u32 val) (Hlen : length mask = length val).
Context (Hsub : forall i, word_bits val i = true -> word_bits mask i = true).
Abbreviation s := (4 - suboff_loop 4 first).
Abbreviation fin := (end_loop (moved s mask) (length mask)).

Lemma shift_range : 0 <= s <= 3.
Proof. apply Forall_cons in Hm as [Hu _]. apply (first_bits first Hu Hfirst). Qed.

Lemma mask_low j : j < 8 * s -> word_bits mask j = false.
Proof.
  intros Hj. pose proof shift_range. apply Forall_cons in Hm as [Hu _]. destruct (Z.lt_ge_cases j 0); [by apply word_bits_neg|].
  rewrite word_bits_head by lia. apply (first_bits first Hu Hfirst). lia.
Qed.

(** Trimming keeps a string that lies under the mask. *)
Lemma trim_bits words i : Forall is_u32 words -> (forall j, word_bits words j = true -> word_bits mask j = true) ->
  word_bits (take fin (moved s words)) (i - 8 * (off + s)) = word_bits words (i - 8 * off).
Proof.
  intros Hw Hunder. pose proof shift_range as Hs. assert (forall j, j < 8 * s -> word_bits words j = false) as Hlow.
  { intros j Hj. apply not_true_iff_false. intros E. apply Hunder in E. by rewrite mask_low in E. }
  replace (i - 8 * (off + s)) with (i - 8 * off - 8 * s) by lia. rewrite take_bits; [by apply moved_bits|].
  intros j Hj. pose proof (moved_bits s words (j + 8 * s) Hw Hs Hlow) as E. replace (j + 8 * s - 8 * s) with j in E by lia. rewrite E.
  apply not_true_iff_false. intros Ht. apply Hunder in Ht. rewrite <- (moved_bits s mask (j + 8 * s) Hm Hs mask_low) in Ht.
  replace (j + 8 * s - 8 * s) with j in Ht by lia. destruct (moved_ok s mask) as [Hl _]. rewrite <- Hl in Hj. by rewrite end_loop_bits in Ht.
Qed.

Lemma first_byte : exists i, 0 <= i < 8 /\ word_bits (moved s mask) i = true.
Proof.
  pose proof shift_range as Hs. pose proof Hm as [Hu _]%Forall_cons. destruct (first_bits first Hu Hfirst) as (_ & _ & i & Hi & Hi32 & Hb).
  exists (i - 8 * s). split; [lia|]. rewrite (moved_bits s mask i Hm Hs mask_low). by rewrite word_bits_head by lia.
Qed.

Lemma align_trims : 0 <= off -> off + 4 * Z.of_nat (length mask) < 2 ^ 26 ->
  exists off' mask' val', align off mask val = (off', mask', val') /\ trimmed off mask val off' mask' val' /\ tight mask'.
Proof.
  intros Ho Hb. pose proof shift_range as Hs. cbn [length] in Hb. do 3 eexists. split; [apply align_eq; lia|].
  destruct (moved_ok s mask) as [Hml Hmu], (moved_ok s val) as [Hvl Hvu]. destruct first_byte as (i & Hi & Hbit). split.
  - split; [intros j; by apply trim_bits|intros j; by apply trim_bits|by rewrite !length_take, Hml, Hvl, Hlen|split; apply Forall_take; auto|].
    rewrite length_take, Hml. pose proof (Nat.le_min_r fin (length mask)). lia.
  - split; [exists i; split; [done|]; rewrite take_bits; [done|]; intros j Hj; rewrite <- Hml in Hj; by apply end_loop_bits|].
    rewrite <- Hml. apply end_loop_last; [by intros E; rewrite E in Hml|by exists i].
Qed.
End Align.

(** The last byte in use, from the last word. *)
Lemma last_bits mask x k : let len := Z.of_nat (length mask) in last mask = Some x -> is_u32 x -> 0 <= k < 4 ->
  x mod 2 ^ (8 * k) = 0 -> x mod 2 ^ (8 * (k + 1)) <> 0 ->
  (forall j, word_bits mask j = true -> j < 8 * (4 * len - k)) /\ exists j, 8 * (4 * len - k - 1) <= j /\ word_bits mask j = true.
Proof.
  intros len Hlast Hx Hk Hlow Hbyte. assert (0 < len) as Hlen by (unfold len; destruct mask; [done|simpl; lia]).
  assert (nth (Z.to_nat (len - 1)) mask 0 = x) as Hnth.
  { rewrite last_lookup in Hlast. rewrite nth_lookup. replace (Z.to_nat (len - 1)) with (pred (length mask)) by lia. by rewrite Hlast. }
  assert (forall p, 0 <= p < 32 -> word_bits mask (32 * len - 1 - p) = Z.testbit x p) as Hpos.
  { intros p Hp. rewrite word_bits_nth by lia. replace (32 * len - 1 - p) with (31 - p + (len - 1) * 32) by lia.
    rewrite Z.div_add, Z.mod_add by lia. rewrite Z.div_small, Z.mod_small by lia. rewrite Z.add_0_l, Hnth. f_equal. lia. }
  split.
  - intros j Hj. destruct (Z.lt_ge_cases j (8 * (4 * len - k))) as [|Hge]; [done|]. exfalso.
    destruct (Z.lt_ge_cases j (32 * len)); [|rewrite word_bits_past in Hj by (fold len; lia); done].
    specialize (Hpos (32 * len - 1 - j) ltac:(lia)). replace (32 * len - 1 - (32 * len - 1 - j)) with j in Hpos by lia. rewrite Hj in Hpos.
    assert (Z.testbit (x mod 2 ^ (8 * k)) (32 * len - 1 - j) = true) as Ht by (rewrite Z.mod_pow2_bits_low by lia; done).
    rewrite Hlow, Z.bits_0 in Ht. done.
  - set (y := x mod 2 ^ (8 * (k + 1))) in *. assert (0 < y < 2 ^ (8 * (k + 1))) as Hy by (pose proof (Z.mod_pos_bound x (2 ^ (8 * (k + 1))) (pow2_pos (8 * (k + 1)) ltac:(lia))); lia).
    pose proof (Z.log2_nonneg y). assert (Z.log2 y < 8 * (k + 1)) by (apply Z.log2_lt_pow2; lia). exists (32 * len - 1 - Z.log2 y).
    split; [lia|]. rewrite Hpos by lia.
    rewrite <- (Z.mod_pow2_bits_low x (8 * (k + 1)) (Z.log2 y)) by lia. apply Z.bit_log2. lia.
Qed.

(** What [block_normalize] makes of a block with words. *)
Lemma normalize_words b : block_ok b -> block_masked b -> 0 < nonzerosize b ->
  exists off mask val, trimmed (offset b) (maskvec b) (valvec b) off mask val /\
  ((mask = [] /\ val = [] /\ block_normalize b = mk_PatternBlock 0 0 [] [] /\ forall i, mask_bit b i = false) \/
   (tight mask /\ exists x k, last mask = Some x /\ is_u32 x /\ 0 <= k < 4 /\ x mod 2 ^ (8 * k) = 0 /\ x mod 2 ^ (8 * (k + 1)) <> 0 /\
      block_normalize b = mk_PatternBlock off (4 * Z.of_nat (length mask) - k) mask val)).
Proof.
  intros (Hlen & Hm & Hv & Ho & Hb) Hsub Hnz. unfold block_normalize. rewrite (proj2 (Z.leb_gt _ _)) by lia.
  assert (forall i, word_bits (valvec b) i = true -> word_bits (maskvec b) i = true) as Hunder.
  { intros i. specialize (Hsub (8 * offset b + i)). unfold mask_bit, value_bit in Hsub. by replace (8 * offset b + i - 8 * offset b) with i in Hsub by lia. }
  destruct (cut_loop_spec (maskvec b) (offset b)) as (cut & -> & Hcut & Hz & Hfirst); [lia..|]. set (off := offset b + 4 * Z.of_nat cut).
  assert (forall words i, (forall j, word_bits words j = true -> word_bits (maskvec b) j = true) ->
    word_bits (drop cut words) (i - 8 * off) = word_bits words (i - 8 * offset b)) as Hdrop.
  { intros words i Hu. unfold off. replace (i - 8 * (offset b + 4 * Z.of_nat cut)) with (i - 8 * offset b - 32 * Z.of_nat cut) by lia. apply drop_bits.
    intros j Hj. apply not_true_iff_false. intros E. apply Hu in E. by rewrite Hz in E. }
  pose proof (length_drop (maskvec b) cut) as Hdl. pose proof (length_drop (valvec b) cut) as Hdv.
  destruct (drop cut (maskvec b)) as [|first rest] eqn:E.
  - exists off, [], []. assert (drop cut (valvec b) = []) as -> by (apply nil_length_inv; simpl in Hdl; lia). simpl.
    assert (forall i, word_bits (maskvec b) (i - 8 * offset b) = false) as Hnone.
    { intros i. rewrite <- Hdrop, E by done. apply word_bits_nil. }
    split; [|by left; split_and!; [..|intros i; apply Hnone]]. split; [intros i; by rewrite Hnone, word_bits_nil| |done|by split|unfold off; simpl in *; lia].
    intros i. rewrite word_bits_nil. symmetry. apply not_true_iff_false. intros Ht. apply Hunder in Ht. by rewrite Hnone in Ht.
  - assert (forall i, word_bits (first :: rest) (i - 8 * off) = word_bits (maskvec b) (i - 8 * offset b)) as Hkeep by (intros i; rewrite <- E; by apply Hdrop).
    destruct (align_trims off first rest (drop cut (valvec b))) as (off' & mask' & val' & -> & [H1 H2 H3 H4 H5] & Htight).
    + by apply (Hfirst first rest).
    + rewrite <- E. by apply Forall_drop.
    + by apply Forall_drop.
    + rewrite Hdl, Hdv, Hlen. done.
    + intros i Hi. specialize (Hdrop (valvec b) (i + 8 * off) Hunder) as Ev. pose proof (Hkeep (i + 8 * off)) as Em.
      replace (i + 8 * off - 8 * off) with i in * by lia. rewrite Em. apply Hunder. by rewrite <- Ev.
    + unfold off. lia.
    + unfold off. rewrite Hdl. lia.
    + exists off', mask', val'. rewrite Hdl in H5. split; [split; [intros i; rewrite H1; by apply Hkeep|intros i; rewrite H2; by apply Hdrop|done|done|unfold off in *; lia]|].
      right. split; [done|]. destruct Htight as [_ (x & Hx & Hx0)]. rewrite Hx. destruct H4 as [Hu _].
      assert (is_u32 x) as Hxu by (rewrite last_lookup in Hx; by eapply Forall_lookup_1; [exact Hu|exact Hx]).
      rewrite i32_small by (unfold off in *; lia).
      assert ((1 <= length mask')%nat) by (destruct mask'; [done|simpl; lia]).
      destruct (nonzero_loop_spec 4 x (Z.of_nat (length mask') * 4)) as (k & -> & Hk & Hk1 & Hk2); [unfold is_u in Hxu; simpl; lia|unfold off in *; lia|].
      exists x, k. split_and!; [done|done|lia|lia|done|done|]. f_equal. lia.
Qed.

(** The bits of the block before and after. *)
Lemma normalize_bits b : block_ok b -> block_masked b -> 0 < nonzerosize b ->
  forall i, mask_bit (block_normalize b) i = mask_bit b i /\ value_bit (block_normalize b) i = value_bit b i.
Proof.
  intros Hok Hsub Hnz i. destruct (normalize_words b Hok Hsub Hnz) as (off & mask & val & [H1 H2 _ _ _] & [(-> & -> & -> & Hnone)|(_ & x & k & _ & _ & _ & _ & _ & ->)]).
  - rewrite Hnone. unfold mask_bit, value_bit. simpl. rewrite !word_bits_nil. split; [done|]. rewrite <- H2. by rewrite word_bits_nil.
  - unfold mask_bit, value_bit. simpl. by rewrite H1, H2.
Qed.

(** The block stays well formed and matches the same data. *)
Lemma normalize_keeps b : block_ok b -> offset b + 4 * Z.of_nat (length (maskvec b)) + 3 < 2 ^ 26 -> block_masked b ->
  block_ok (block_normalize b) /\ forall data, block_matches (block_normalize b) data <-> block_matches b data.
Proof.
  intros Hok Hbound Hsub. destruct (Z.le_gt_cases (nonzerosize b) 0) as [Hnz|Hnz].
  - unfold block_normalize. rewrite (proj2 (Z.leb_le _ _)) by lia. split; [by repeat split|].
    intros data. unfold block_matches. simpl. split; intros [?|[? _]]; auto; lia.
  - pose proof (normalize_bits b Hok Hsub Hnz) as Hbits.
    destruct (normalize_words b Hok Hsub Hnz) as (off & mask & val & [_ _ H3 [H4 H4'] H5] & [(_ & _ & Hn & Hnone)|(_ & x & k & Hx & _ & Hk & _ & _ & Hn)]); rewrite Hn in *.
    + split; [by repeat split|]. intros data. unfold block_matches. simpl. split; intros _; [right|by left]. split; [done|]. intros i. destruct (Hbits i) as [_ <-].
      rewrite Hnone. unfold value_bit. simpl. by rewrite word_bits_nil.
    + destruct Hok as (Hlen & Hm & Hv & Ho & Hb). assert ((1 <= length mask)%nat) as Hne by (destruct mask; [done|simpl; lia]).
      split; [split_and!; simpl; done || lia|]. intros data. unfold block_matches. simpl.
      split; (intros [?|[? Hd]]; [lia|right; split; [lia|]]; intros i; specialize (Hd i); destruct (Hbits i) as [E1 E2]; congruence).
Qed.

(** C15: normalizing a block of a compiled language keeps what it matches.  For a
    block whose value bits lie under its mask, [block_normalize] gives a block with the
    same mask bits (if it has words at all) that matches exactly the same data; and
    when mask bits are left, the block begins with the first byte that has a mask bit
    and its length ends with the last such byte. *)
Theorem normalize_correct b : block_ok b -> offset b + 4 * Z.of_nat (length (maskvec b)) + 3 < 2 ^ 26 -> block_masked b ->
  let n := block_normalize b in
  block_ok n /\ (forall data, block_matches n data <-> block_matches b data) /\
  (0 < nonzerosize b -> forall i, mask_bit n i = mask_bit b i) /\
  (0 < nonzerosize n ->
     (forall i, mask_bit b i = true -> 8 * offset n <= i < 8 * block_length n) /\
     (exists i, mask_bit b i = true /\ i < 8 * (offset n + 1)) /\ (exists i, mask_bit b i = true /\ 8 * (block_length n - 1) <= i)).
Proof.
  intros Hok Hbound Hsub. cbv zeta. destruct (normalize_keeps b Hok Hbound Hsub) as [Hnok Hmatch]. split; [done|split; [done|]].
  destruct (Z.le_gt_cases (nonzerosize b) 0) as [Hnz|Hnz]; [split; [lia|]; unfold block_normalize; rewrite (proj2 (Z.leb_le _ _)) by lia; simpl; lia|].
  pose proof (normalize_bits b Hok Hsub Hnz) as Hbits. split; [intros _ i; apply Hbits|].
  destruct (normalize_words b Hok Hsub Hnz) as (off & mask & val & [_ _ _ _ H5] & [(_ & _ & Hn & _)|([Hfirst _] & x & k & Hx & Hxu & Hk & Hk1 & Hk2 & Hn)]); rewrite Hn in *; [simpl; lia|].
  intros _. destruct Hok as (_ & _ & _ & Ho & _). pose proof (last_bits mask x k Hx Hxu Hk Hk1 Hk2) as [Hend Hlastbyte]. cbv zeta in *.
  unfold block_length. cbn [offset nonzerosize]. rewrite i32_small by lia.
  assert (forall j, mask_bit b (j + 8 * off) = word_bits mask j) as Hat.
  { intros j. destruct (Hbits (j + 8 * off)) as [<- _]. unfold mask_bit. simpl. f_equal. lia. }
  split_and!.
  - intros i Hi. pose proof (Hat (i - 8 * off)) as E. replace (i - 8 * off + 8 * off) with i in E by lia. rewrite Hi in E.
    pose proof (Hend (i - 8 * off) ltac:(done)). destruct (Z.lt_ge_cases (i - 8 * off) 0); [rewrite word_bits_neg in E by lia; done|]. lia.
  - destruct Hfirst as (i & Hi & Hbit). exists (i + 8 * off). rewrite Hat. split; [done|lia].
  - destruct Hlastbyte as (j & Hj & Hbit). exists (j + 8 * off). rewrite Hat. split; [done|lia].
Qed.

(** Value bits lie under mask bits when every pair of words says so. *)
Lemma masked_words b : length (maskvec b) = length (valvec b) -> zip_with Z.land (maskvec b) (valvec b) = valvec b -> block_masked b.
Proof.
  intros Hlen Hz i. unfold value_bit, mask_bit. set (j := i - 8 * offset b). destruct (Z.lt_ge_cases j 0); [by rewrite word_bits_neg|].
  rewrite !word_bits_nth by lia. rewrite !nth_lookup. set (k := Z.to_nat (j / 32)). rewrite <- Hz at 1. rewrite lookup_zip_with.
  destruct (maskvec b !! k) as [m|]; [|by rewrite Z.bits_0]. simpl. destruct (valvec b !! k) as [v|]; simpl; [|by rewrite Z.bits_0].
  rewrite Z.land_spec. by intros [? _]%andb_prop.
Qed.

Lemma raw_masked : block_masked raw.
Proof. by apply masked_words. Qed.

Lemma normalize_correct_witness :
  offset (block_normalize raw) = 5 /\ block_length (block_normalize raw) = 7 /\ forall data, block_matches (block_normalize raw) data <-> block_matches raw data.
Proof.
  split; [reflexivity|split; [reflexivity|]].
  apply (normalize_correct raw); [repeat split; simpl; (lia || (repeat constructor; done))|reflexivity|apply raw_masked].
Defined.

(** The match of a pattern, by cases on its blocks. *)
Lemma is_match_spec p w : walker_ok w ->
  (forall b, get_block p false = Some b -> block_ok b /\ reads_inside b w) -> (forall b, get_block p true = Some b -> block_ok b) ->
  exists hit, is_match p w = Ok hit /\
    (hit = true <-> (forall b, get_block p false = Some b -> block_matches b (instruction_data w)) /\
                    (forall b, get_block p true = Some b -> block_matches b (context_data w))).
Proof.
  intros Hw Hi Hc. destruct p as [b|b|c b]; simpl in *.
  - destruct (Hi b eq_refl) as [Hok Hin]. destruct (instruction_match_spec b w Hok Hw Hin) as (hit & -> & Hhit). exists hit. split; [done|]. rewrite Hhit. naive_solver.
  - eexists. split; [done|]. rewrite (context_match_spec b w) by (auto || done). naive_solver.
  - destruct (Hi b eq_refl) as [Hok Hin]. destruct (instruction_match_spec b w Hok Hw Hin) as (hit & -> & Hhit). pose proof (context_match_spec c w (Hc c eq_refl) Hw) as Hctx.
    cbn [obind]. destruct hit; eexists; (split; [done|]); [rewrite Hctx|]; naive_solver.
Qed.

(** The pattern with its blocks as [decode] leaves them. *)
Definition map_blocks (f : PatternBlock -> PatternBlock) (p : DisjointPattern) : DisjointPattern :=
  match p with
  | PInstruction b => PInstruction (f b)
  | PContext b => PContext (f b)
  | PCombine c b => PCombine (f c) (f b)
  end.

Lemma get_block_map f p ctx : get_block (map_blocks f p) ctx = f <$> get_block p ctx.
Proof. by destruct p, ctx. Qed.

(** One side of the pattern, before and after. *)
Lemma normalized_side p ctx data :
  (forall ctx b, get_block p ctx = Some b -> block_ok (block_normalize b) /\ forall data, block_matches (block_normalize b) data <-> block_matches b data) ->
  (forall b, get_block (map_blocks block_normalize p) ctx = Some b -> block_matches b data) <-> (forall b, get_block p ctx = Some b -> block_matches b data).
Proof.
  intros Hn. split; intros Hd b.
  - intros Hb. apply (Hn ctx b Hb), Hd. by rewrite get_block_map, Hb.
  - rewrite get_block_map. intros (b' & Hb & ->)%fmap_Some. by apply (Hn ctx b' Hb), Hd.
Qed.

(** C14: the match of a pattern is a test of bits.  Take a pattern as it is written in
    a compiled language, value bits under mask bits.  Once its blocks are normalized,
    as they are when it is read, and if they read inside the sixteen bytes of an
    instruction, [is_match] gives an answer, and answers true exactly when the bits of
    the instruction and of the context agree with the blocks as they were written. *)
Theorem is_match_correct p w : walker_ok w ->
  (forall ctx b, get_block p ctx = Some b -> block_ok b /\ offset b + 4 * Z.of_nat (length (maskvec b)) + 3 < 2 ^ 26 /\ block_masked b) ->
  (forall b, get_block p false = Some b -> reads_inside (block_normalize b) w) ->
  exists hit, is_match (map_blocks block_normalize p) w = Ok hit /\
    (hit = true <-> (forall b, get_block p false = Some b -> block_matches b (instruction_data w)) /\
                    (forall b, get_block p true = Some b -> block_matches b (context_data w))).
Proof.
  intros Hw Hok Hin. assert (forall ctx b, get_block p ctx = Some b -> block_ok (block_normalize b) /\ forall data, block_matches (block_normalize b) data <-> block_matches b data) as Hn.
  { intros ctx b Hb. destruct (Hok ctx b Hb) as (H1 & H2 & H3). by apply normalize_keeps. }
  destruct (is_match_spec (map_blocks block_normalize p) w Hw) as (hit & E & Hhit).
  - intros b'. rewrite get_block_map. intros (b & Hb & ->)%fmap_Some. split; [by apply (Hn false)|by apply Hin].
  - intros b'. rewrite get_block_map. intros (b & Hb & ->)%fmap_Some. by apply (Hn true).
  - exists hit. split; [done|]. rewrite Hhit. f_equiv.
    + by apply normalized_side with (ctx := false).
    + by apply normalized_side with (ctx := true).
Qed.

Lemma is_match_correct_witness : exists hit, is_match (map_blocks block_normalize (PCombine (mk_PatternBlock 4 4 [0xff000000] [0x9a000000]) raw)) demo = Ok hit /\ hit = true.
Proof.
  destruct (is_match_correct (PCombine (mk_PatternBlock 4 4 [0xff000000] [0x9a000000]) raw) demo) as (hit & E & _).
  - repeat split; simpl; (lia || (repeat constructor; lia)).
  - intros [] b [= <-]; (split; [repeat split; simpl; (lia || (repeat constructor; done))|split; [done|]]); [|apply raw_masked].
    apply masked_words; by vm_compute.
  - intros b [= <-] _ _. by vm_compute.
  - exists hit. split; [exact E|]. assert (Ok hit = Ok true) as F by (rewrite <- E; by vm_compute). by injection F.
Defined.
