(* ===== verification/SleighDecision.v ===== *)
(** Choosing the constructor of an instruction: [DecisionNode::resolve] of
    [src/src/slghsymbol.rs].  A node of the tree reads a field and follows the child
    it numbers, a leaf tries its patterns in order.  For a tree that was split by the
    fields it reads, the walk finds what a search of the whole list would find. *)
From stdpp Require Import base list numbers strings.
From Stdlib Require Import ZArith Lia.
From S2P Require Import Prelude Bits Multiprecision SleighBits SleighPattern.
Local Open Scope Z_scope.
Local Open Scope rust_scope.

(** ** Definitions *)

Inductive DecisionNode : Type :=
  mk_DecisionNode (plist : list (DisjointPattern * Z)) (children : list DecisionNode) (num : Z) (contextdecision : bool) (startbit bitsize : Z).

Record ConstructorRef : Type := mk_ConstructorRef { table : Z; ctindex : Z }.

(** The loop over the patterns of a leaf. *)
Fixpoint first_match (pats : list (DisjointPattern * Z)) (w : Walker) : outcome (option Z) :=
  match pats with
  | [] => Ok None
  | (pat, ct) :: pats => let! hit := is_match pat w in if hit then Ok (Some ct) else first_match pats w
  end.

Definition no_child : Error := Lowlevel "decision tree has no child for field value".

(** [place] is the text of the address of the instruction, with the shortcut of its
    space in front. *)
Definition unresolved (place : string) : Error := BadData (place ++ ": Unable to resolve constructor").

Definition leaf_result (tab : Z) (place : string) (found : option Z) : outcome ConstructorRef :=
  match found with Some ct => Ok (mk_ConstructorRef tab ct) | None => Err (unresolved place) end.

Definition read_field (ctx : bool) (startbit bitsize : Z) (w : Walker) : outcome Z :=
  if ctx then Ok (get_context_bits w startbit bitsize) else get_instruction_bits w startbit bitsize.

Fixpoint node_resolve (node : DecisionNode) (w : Walker) (tab : Z) (place : string) : outcome ConstructorRef :=
  match node with
  | mk_DecisionNode plist children num ctx startbit bitsize =>
    if bitsize =? 0 then let! found := first_match plist w in leaf_result tab place found
    else
      let! val := read_field ctx startbit bitsize w in
      (fix pick (l : list DecisionNode) (k : nat) :=
         match l with
         | [] => Err no_child
         | child :: l => match k with O => node_resolve child w tab place | S k => pick l k end
         end) children (Z.to_nat val)
  end.

(** ** The tree and the list *)

(** A pattern can match when the field holds [v]. *)
Definition compatible (ctx : bool) (startbit bitsize v : Z) (pat : DisjointPattern * Z) : bool :=
  Z.land (pattern_get_mask pat.1 startbit bitsize ctx) v =? pattern_get_value pat.1 startbit bitsize ctx.

(** The field lies inside what can be read. *)
Definition field_inside (w : Walker) (ctx : bool) (startbit bitsize : Z) : Prop :=
  0 <= startbit < 2 ^ 29 /\ 1 <= bitsize <= 32 /\ (ctx = false -> point_offset w + startbit / 8 < 16 /\ startbit mod 8 + bitsize <= 32).

(** The tree was made by splitting the list: the child for a value of the field holds
    the patterns that can match with that value, in their order. *)
Inductive decides (w : Walker) : list (DisjointPattern * Z) -> DecisionNode -> Prop :=
  | decides_leaf pats children num ctx startbit : decides w pats (mk_DecisionNode pats children num ctx startbit 0)
  | decides_branch pats plist children num ctx startbit bitsize :
      field_inside w ctx startbit bitsize -> length children = Z.to_nat (2 ^ bitsize) ->
      (forall v child, 0 <= v < 2 ^ bitsize -> children !! Z.to_nat v = Some child ->
         decides w (List.filter (compatible ctx startbit bitsize v) pats) child) ->
      decides w pats (mk_DecisionNode plist children num ctx startbit bitsize).

Definition block_trimmed (b : PatternBlock) : Prop := nonzerosize b <= 0 -> maskvec b = [] /\ valvec b = [].

Definition pattern_ok (w : Walker) (p : DisjointPattern) : Prop :=
  (forall b, get_block p false = Some b -> block_ok b /\ reads_inside b w) /\ (forall ctx b, get_block p ctx = Some b -> block_ok b /\ block_trimmed b).

(** Blocks that were normalized hold no words unless they test something. *)
Lemma normalize_trimmed b : block_ok b -> block_masked b -> block_trimmed (block_normalize b).
Proof.
  intros Hok Hsub Hnz. destruct (Z.le_gt_cases (nonzerosize b) 0) as [Hle|Hgt].
  - unfold block_normalize. by rewrite (proj2 (Z.leb_le _ _)) by lia.
  - destruct (normalize_words b Hok Hsub Hgt) as (off & mask & val & Htr & [(-> & -> & -> & _)|(_ & x & k & Hx & _ & Hk & _ & _ & E)]); [done|].
    rewrite E in Hnz. simpl in Hnz. destruct mask; [done|]. simpl in Hnz. lia.
Qed.

Definition side_data (w : Walker) (ctx : bool) : Z -> bool := if ctx then context_data w else instruction_data w.

(** The field a node reads is the slice of the data. *)
Lemma read_field_slice w ctx startbit bitsize : walker_ok w -> field_inside w ctx startbit bitsize ->
  read_field ctx startbit bitsize w = Ok (bit_slice (side_data w ctx) startbit (Z.to_nat bitsize)).
Proof.
  intros (Hb & Hc & Hp & Hl) (Hs & Hz & Hi). unfold read_field, get_context_bits, get_instruction_bits. destruct ctx; simpl.
  - by rewrite context_bits_slice by (done || lia).
  - destruct (Hi eq_refl) as [Hi1 Hi2]. rewrite instruction_bits_slice by (done || lia). f_equal.
    apply slice_ext. intros i Hr. unfold instruction_data. f_equal. lia.
Qed.

(** The field of a mask over data the block matches is the field of the value. *)
Lemma matches_field b data startbit bitsize : block_ok b -> block_trimmed b -> block_matches b data -> 0 <= startbit < 2 ^ 29 -> 1 <= bitsize <= 32 ->
  Z.land (block_get_mask b startbit bitsize) (bit_slice data startbit (Z.to_nat bitsize)) = block_get_value b startbit bitsize.
Proof.
  intros (Hlen & Hm & Hv & Ho & Hb) Htr Hd Hs Hz. unfold block_get_mask, block_get_value. rewrite !get_bits_slice by (done || lia).
  apply Z.bits_inj'. intros j Hj. rewrite Z.land_spec, !slice_bit by lia. destruct (j <? _); [|done]. simpl.
  destruct Hd as [Hd|[Hd Hall]].
  - destruct (Htr ltac:(lia)) as [-> ->]. by rewrite !word_bits_nil.
  - symmetry. apply Hall.
Qed.

Section Resolve.
Context (w : Walker) (Hw : walker_ok w).

Lemma pattern_answers p : pattern_ok w p -> exists hit, is_match p w = Ok hit.
Proof. intros [Hi Hc]. destruct (is_match_spec p w Hw Hi) as (hit & E & _); [by intros b Hb; apply (Hc true)|by exists hit]. Qed.

(** A pattern that matches can match with the value the field holds. *)
Lemma match_compatible ctx startbit bitsize pat : pattern_ok w pat.1 -> field_inside w ctx startbit bitsize -> is_match pat.1 w = Ok true ->
  compatible ctx startbit bitsize (bit_slice (side_data w ctx) startbit (Z.to_nat bitsize)) pat = true.
Proof.
  intros [Hi Hc] (Hs & Hz & _) Ht. destruct (is_match_spec pat.1 w Hw Hi) as (hit & E & Hhit); [by intros b Hb; apply (Hc true)|].
  rewrite E in Ht. injection Ht as ->. destruct (proj1 Hhit eq_refl) as [Hinstr Hctx]. unfold compatible, pattern_get_mask, pattern_get_value. rewrite Z.eqb_eq.
  destruct (get_block pat.1 ctx) as [b|] eqn:Eb; [|apply Z.land_0_l]. destruct (Hc ctx b Eb) as [Hok Htr].
  apply matches_field; [done..| |lia|lia]. destruct ctx; [by apply Hctx|by apply Hinstr].
Qed.

(** Leaving out patterns that cannot match changes no search. *)
Lemma first_match_filter f pats : Forall (fun pat => pattern_ok w pat.1) pats -> (forall pat, pat ∈ pats -> is_match pat.1 w = Ok true -> f pat = true) ->
  first_match (List.filter f pats) w = first_match pats w.
Proof.
  induction pats as [|[p ct] pats IH]; intros Hok Hf; [done|]. apply Forall_cons in Hok as [Hp Hok]. destruct (pattern_answers p Hp) as [hit E].
  assert (first_match (List.filter f pats) w = first_match pats w) as IH' by (apply IH; [done|]; intros pat Hin; apply Hf; by right).
  cbn [List.filter first_match]. destruct (f (p, ct)) eqn:Ef; cbn [first_match]; rewrite E; cbn [obind]; destruct hit; try done.
  rewrite Hf in Ef; [done|by left|done].
Qed.

Lemma forall_filter {A} (P : A -> Prop) f l : Forall P l -> Forall P (List.filter f l).
Proof. induction 1 as [|x l Hx Hl IH]; [done|]. simpl. destruct (f x); [by constructor|done]. Qed.

Lemma first_match_answers pats : Forall (fun pat => pattern_ok w pat.1) pats -> exists found, first_match pats w = Ok found.
Proof.
  induction 1 as [|[p ct] pats Hp _ [found IH]]; [by eexists|]. destruct (pattern_answers p Hp) as [hit E]. simpl. rewrite E. simpl.
  destruct hit; [by eexists|]. by exists found.
Qed.

(** The walk to the child a value numbers. *)
Lemma resolve_branch plist children num ctx startbit bitsize tab place v child : bitsize <> 0 -> read_field ctx startbit bitsize w = Ok v ->
  children !! Z.to_nat v = Some child -> node_resolve (mk_DecisionNode plist children num ctx startbit bitsize) w tab place = node_resolve child w tab place.
Proof.
  intros Hne Hr. cbn [node_resolve]. rewrite (proj2 (Z.eqb_neq _ _)) by done. rewrite Hr. cbn [obind]. generalize (Z.to_nat v). clear Hr.
  induction children as [|c children IH]; intros [|k]; [done|done|by intros [= ->]|apply IH].
Qed.

Lemma resolve_search pats node tab place : decides w pats node -> Forall (fun pat => pattern_ok w pat.1) pats ->
  node_resolve node w tab place = (let! found := first_match pats w in leaf_result tab place found).
Proof.
  induction 1 as [pats children num ctx startbit|pats plist children num ctx startbit bitsize Hf Hlen _ IH]; intros Hok; [done|].
  pose proof (slice_range (side_data w ctx) startbit (Z.to_nat bitsize)) as Hv. pose proof Hf as (Hs & Hz & _). rewrite Z2Nat.id in Hv by lia.
  set (v := bit_slice (side_data w ctx) startbit (Z.to_nat bitsize)) in *.
  destruct (lookup_lt_is_Some_2 children (Z.to_nat v)) as [child Hchild]; [rewrite Hlen; lia|].
  erewrite resolve_branch; [|lia|by apply read_field_slice|exact Hchild]. rewrite (IH v child) by (done || by apply forall_filter).
  rewrite first_match_filter; [done|done|]. intros pat Hin. apply match_compatible; [|done]. rewrite Forall_forall in Hok. by apply Hok.
Qed.
End Resolve.

(** C13: the decision tree is the list, searched faster.  If every branch of a tree
    reads a field inside the instruction or the context and its children hold the
    patterns that can match with each value of the field, then [node_resolve] always gives an
    answer: the constructor of the first pattern of the whole list that matches the bits
    of the instruction and its context, and the error that nothing was found exactly when
    none of them matches. *)
Theorem resolve_correct w pats node tab place : walker_ok w -> Forall (fun pat => pattern_ok w pat.1) pats -> decides w pats node ->
  (exists before pat ct after, pats = before ++ (pat, ct) :: after /\ node_resolve node w tab place = Ok (mk_ConstructorRef tab ct) /\
     is_match pat w = Ok true /\ Forall (fun pat => is_match pat.1 w = Ok false) before) \/
  (node_resolve node w tab place = Err (unresolved place) /\ Forall (fun pat => is_match pat.1 w = Ok false) pats).
Proof.
  intros Hw Hok Hd. rewrite (resolve_search w Hw pats node tab place Hd Hok). clear Hd. induction Hok as [|[p ct] pats Hp Hok IH]; [right; by split|].
  destruct (pattern_answers w Hw p Hp) as [hit E]. cbn [first_match]. rewrite E. cbn [obind]. destruct hit.
  - left. exists [], p, ct, pats. by split_and!.
  - destruct IH as [(before & q & c & after & -> & Hr & Ht & Hb)|[Hr Hall]].
    + left. exists ((p, ct) :: before), q, c, after. split_and!; [done..|]. by constructor.
    + right. split; [done|]. by constructor.
Qed.

(** A table of three constructors, split by the first bit of the instruction: [1.......],
    [0.....11] and everything else. *)
Definition top_set : DisjointPattern := PInstruction (mk_PatternBlock 0 1 [0x80000000] [0x80000000]).
Definition low_set : DisjointPattern := PInstruction (mk_PatternBlock 0 1 [0x83000000] [0x03000000]).
Definition any : DisjointPattern := PInstruction (block_new_bool true).
Definition demo_pats : list (DisjointPattern * Z) := [(top_set, 0); (low_set, 1); (any, 2)].
Definition demo_tree : DecisionNode :=
  mk_DecisionNode [] [mk_DecisionNode [(low_set, 1); (any, 2)] [] 2 false 0 0; mk_DecisionNode [(top_set, 0); (any, 2)] [] 2 false 0 0] 3 false 0 1.

Definition demo_walker : Walker := mk_Walker [0x43; 0x10] [] 0.

Lemma demo_decides : decides demo_walker demo_pats demo_tree.
Proof.
  apply decides_branch; [|reflexivity|].
  - split; [lia|split; [lia|]]. intros _. by split.
  - intros v child Hv. assert (v = 0 \/ v = 1) as [-> | ->] by lia; intros [= <-]; apply decides_leaf.
Qed.

Lemma demo_patterns_ok : Forall (fun pat => pattern_ok demo_walker pat.1) demo_pats.
Proof.
  unfold demo_pats. rewrite !Forall_cons. split_and!; [..|done];
    (split; [intros b [= <-]; split; [repeat split; simpl; (lia || (repeat constructor; done))|intros _ _; by vm_compute]|]);
    intros [] b [= <-]; (split; [repeat split; simpl; (lia || (repeat constructor; done))|done]).
Qed.

Lemma resolve_correct_witness : exists pat before after, demo_pats = before ++ (pat, 1) :: after /\ is_match pat demo_walker = Ok true /\
  node_resolve demo_tree demo_walker 7 "r0x100" = Ok (mk_ConstructorRef 7 1).
Proof.
  destruct (resolve_correct demo_walker demo_pats demo_tree 7 "r0x100") as [(before & pat & ct & after & Hp & E & Ht & _)|[E _]].
  - repeat split; simpl; (lia || (repeat constructor; lia)).
  - apply demo_patterns_ok.
  - apply demo_decides.
  - exists pat, before, after. vm_compute in E. injection E as <-. split_and!; [exact Hp|exact Ht|reflexivity].
  - vm_compute in E. discriminate E.
Defined.
