(* ===== verification/SleighExpr.v ===== *)
(** The values of pattern expressions: [src/src/slghpatexpress.rs].  A field of an
    instruction or of its context is read through 64-bit words, put in byte order,
    shifted down and extended; fields are joined by arithmetic that wraps. *)
From stdpp Require Import base list numbers strings.
From Stdlib Require Import ZArith Lia.
From S2P Require Import Prelude Bits Multiprecision SleighBits SleighPattern SleighDecision.
Local Open Scope Z_scope.
Local Open Scope rust_scope.

(** ** Definitions *)

Record TokenField : Type := mk_TokenField {
  tf_bigendian : bool; tf_signbit : bool; tf_bitstart : Z; tf_bitend : Z; tf_bytestart : Z; tf_byteend : Z; tf_shift : Z }.

Record ContextField : Type := mk_ContextField {
  cf_startbit : Z; cf_endbit : Z; cf_startbyte : Z; cf_endbyte : Z; cf_shift : Z; cf_signbit : bool }.

Definition context_field_new (signbit : bool) (startbit endbit : Z) : ContextField :=
  mk_ContextField startbit endbit (Z.quot startbit 8) (Z.quot endbit 8) (i32 (7 - Z.rem endbit 8)) signbit.

Inductive BinaryOperator : Type := OPlus | OSub | OMult | OLeftShift | ORightShift | OAnd | OOr | OXor | ODiv.
Inductive UnaryOperator : Type := OMinus | ONot.

Inductive PatternExpression : Type :=
  | ETokenField (field : TokenField)
  | EContextField (field : ContextField)
  | EConstant (val : Z)
  | EOperand (index : Z) (ct : ConstructorRef)
  | EStartInstruction
  | EEndInstruction
  | ENext2Instruction
  | EBinary (op : BinaryOperator) (lhs rhs : PatternExpression)
  | EUnary (op : UnaryOperator) (unary : PatternExpression).

(** The [while] loop over words of four bytes; [fuel] is the number of bytes. *)
Fixpoint instruction_loop (fuel : nat) (w : Walker) (bytestart tmpsize res : Z) : outcome (Z * Z * Z) :=
  match fuel with
  | O => Ok (bytestart, tmpsize, res)
  | S fuel =>
    if 4 <=? tmpsize then
      let! tmp := SleighBits.get_instruction_bytes w bytestart 4 in
      instruction_loop fuel w (i32 (bytestart + 4)) (i32 (tmpsize - 4)) (Z.lor (ishl64 res 32) tmp)
    else Ok (bytestart, tmpsize, res)
  end.

Definition field_instruction_bytes (w : Walker) (bytestart byteend : Z) (bigendian : bool) : outcome Z :=
  let size := i32 (i32 (byteend - bytestart) + 1) in
  let! rest := instruction_loop (Z.to_nat size) w bytestart size 0 in
  let '(bytestart, tmpsize, res) := rest in
  let! res :=
    if 0 <? tmpsize then
      let! tmp := SleighBits.get_instruction_bytes w bytestart tmpsize in
      Ok (Z.lor (ishl64 res (u32 (i32 (8 * tmpsize)))) tmp)
    else Ok res in
  Ok (if bigendian then res else byte_swap_signed res size).

Fixpoint context_loop (fuel : nat) (w : Walker) (bytestart byteend size res : Z) : Z * Z * Z :=
  match fuel with
  | O => (bytestart, size, res)
  | S fuel =>
    if 4 <=? size then
      let tmp := SleighBits.get_context_bytes w bytestart 4 in
      let bytestart := i32 (bytestart + 4) in
      context_loop fuel w bytestart byteend (i32 (i32 (byteend - bytestart) + 1)) (Z.lor (ishl64 res 32) tmp)
    else (bytestart, size, res)
  end.

Definition field_context_bytes (w : Walker) (bytestart byteend : Z) : Z :=
  let size := i32 (i32 (byteend - bytestart) + 1) in
  let '(bytestart, size, res) := context_loop (Z.to_nat size) w bytestart byteend size 0 in
  if 0 <? size then Z.lor (ishl64 res (u32 (i32 (8 * size)))) (SleighBits.get_context_bytes w bytestart size) else res.

Definition extend_value (signbit : bool) (res bit : Z) : Z := if signbit then sign_extend res bit else zero_extend res bit.

Definition token_value (f : TokenField) (w : Walker) : outcome Z :=
  let! res := field_instruction_bytes w (tf_bytestart f) (tf_byteend f) (tf_bigendian f) in
  Ok (extend_value (tf_signbit f) (ishr64 res (u32 (tf_shift f))) (i32 (tf_bitend f - tf_bitstart f))).

Definition context_value (f : ContextField) (w : Walker) : Z :=
  let res := field_context_bytes w (cf_startbyte f) (cf_endbyte f) in
  extend_value (cf_signbit f) (ishr64 res (u32 (cf_shift f))) (i32 (cf_endbit f - cf_startbit f)).

Definition binary_value (op : BinaryOperator) (leftval rightval : Z) : outcome Z :=
  match op with
  | OPlus => Ok (i64 (leftval + rightval))
  | OSub => Ok (i64 (leftval - rightval))
  | OMult => Ok (i64 (leftval * rightval))
  | OLeftShift => Ok (ishl64 leftval (u32 rightval))
  | ORightShift => Ok (ishr64 leftval (u32 rightval))
  | OAnd => Ok (Z.land leftval rightval)
  | OOr => Ok (Z.lor leftval rightval)
  | OXor => Ok (Z.lxor leftval rightval)
  | ODiv => if rightval =? 0 then Err (Lowlevel "divide by 0") else Ok (i64 (Z.quot leftval rightval))
  end.

Definition unary_value (op : UnaryOperator) (val : Z) : Z :=
  match op with OMinus => i64 (- val) | ONot => Z.lnot val end.

(** An address as an expression sees it: its byte offset and the word size of its
    space, or 1 for an address without a space. *)
Definition address_value (offset wordsize : Z) : Z := i64 (offset / wordsize).

(** What the walker knows besides the bytes: the addresses of the instruction and of
    the two after it, and [operand_value_get_value], which evaluates the expression
    that defines an operand of a constructor at that operand's own offset. *)
Record Scene : Type := mk_Scene {
  scene_addr : Z * Z; scene_naddr : Z * Z; scene_n2addr : outcome (Z * Z); scene_operand : Z -> ConstructorRef -> outcome Z }.

Fixpoint expression_value (sc : Scene) (w : Walker) (e : PatternExpression) : outcome Z :=
  match e with
  | ETokenField f => token_value f w
  | EContextField f => Ok (context_value f w)
  | EConstant val => Ok val
  | EOperand index ct => scene_operand sc index ct
  | EStartInstruction => Ok (address_value (scene_addr sc).1 (scene_addr sc).2)
  | EEndInstruction => Ok (address_value (scene_naddr sc).1 (scene_naddr sc).2)
  | ENext2Instruction => let! addr := scene_n2addr sc in Ok (address_value addr.1 addr.2)
  | EBinary op lhs rhs =>
    let! leftval := expression_value sc w lhs in
    let! rightval := expression_value sc w rhs in
    binary_value op leftval rightval
  | EUnary op unary => let! val := expression_value sc w unary in Ok (unary_value op val)
  end.

Definition operand_used : Error := Sleigh "Operand used in pattern expression".

Definition min_value (e : PatternExpression) : outcome Z :=
  match e with
  | EConstant val => Ok val
  | EOperand _ _ => Err operand_used
  | _ => Ok 0
  end.

Definition max_value (e : PatternExpression) : outcome Z :=
  match e with
  | ETokenField f => Ok (zero_extend (-1) (i32 (tf_bitend f - tf_bitstart f)))
  | EContextField f => Ok (zero_extend (-1) (i32 (cf_endbit f - cf_startbit f)))
  | EConstant val => Ok val
  | EOperand _ _ => Err operand_used
  | _ => Ok 0
  end.

Definition as_context_field (e : PatternExpression) : option ContextField :=
  match e with EContextField f => Some f | _ => None end.

(** ** The fields are slices *)

Lemma i64_lor x y k : 0 <= k < 64 -> is_u k y -> Z.lor (i64 (Z.shiftl x k)) y = i64 (x * 2 ^ k + y).
Proof.
  intros Hk Hy. rewrite <- lor_add by (done || lia). apply Z.bits_inj'. intros i Hi. rewrite Z.lor_spec, !testbit_sw, Z.lor_spec by lia.
  destruct (Z.lt_ge_cases i 64); [by rewrite Z.min_l by lia|]. rewrite Z.min_r by lia.
  by rewrite !(testbit_above k y) by (done || lia).
Qed.

(** Bits join what was read before: shifting the 64-bit word drops what is too high. *)
Lemma join_slice b s m k : (k < 64)%nat -> Z.lor (ishl64 (i64 (bit_slice b s m)) (Z.of_nat k)) (bit_slice b (s + Z.of_nat m) k) = i64 (bit_slice b s (m + k)).
Proof.
  intros Hk. unfold ishl64. rewrite Z.mod_small by lia. rewrite slice_app.
  rewrite <- i64_lor by (lia || apply slice_range). f_equal. rewrite !Z.shiftl_mul_pow2 by lia. apply sw_congr. unfold uw, sw.
  pose proof (sw_eq 64 (bit_slice b s m) ltac:(lia)) as [E|E]; unfold sw, uw in E; rewrite E.
  - rewrite Z.mul_mod_idemp_l by lia. done.
  - rewrite Z.mul_sub_distr_r. rewrite Zminus_mod, Z.mul_mod_idemp_l by lia. rewrite (Z.mul_comm (2 ^ 64)), Z.mod_mul by lia. rewrite Z.sub_0_r. by rewrite Z.mod_mod by lia.
Qed.

Lemma join_slice_to b s m k : 0 <= k < 64 ->
  Z.lor (ishl64 (i64 (bit_slice b s m)) k) (bit_slice b (s + Z.of_nat m) (Z.to_nat k)) = i64 (bit_slice b s (m + Z.to_nat k)).
Proof. intros Hk. rewrite <- join_slice by lia. by rewrite Z2Nat.id by lia. Qed.

Section Loops.
Context (w : Walker) (Hw : walker_ok w).

Lemma read_instruction bytestart size : 0 <= bytestart -> point_offset w + bytestart < 16 -> 0 <= size <= 4 ->
  SleighBits.get_instruction_bytes w bytestart size = Ok (bit_slice (instruction_data w) (8 * bytestart) (Z.to_nat (8 * size))).
Proof.
  intros Hs Hin Hz. destruct Hw as (Hb & _ & Hp & _). unfold SleighBits.get_instruction_bytes. rewrite instruction_bytes_slice by (done || lia). f_equal.
  apply slice_ext. intros i Hi. unfold instruction_data. f_equal. lia.
Qed.

Lemma read_context bytestart size : 0 <= bytestart < 2 ^ 27 -> 1 <= size <= 4 ->
  SleighBits.get_context_bytes w bytestart size = bit_slice (context_data w) (8 * bytestart) (Z.to_nat (8 * size)).
Proof. intros Hs Hz. destruct Hw as (_ & Hc & _ & Hl). unfold SleighBits.get_context_bytes. by rewrite context_bytes_slice by (done || lia). Qed.

(** The loops read all but the last one to three bytes. *)
Lemma instruction_loop_spec fuel : forall start n m s, 0 <= start -> 0 <= n <= Z.of_nat fuel -> point_offset w + start + n <= 16 -> 8 * start = s + Z.of_nat m ->
  exists k, 0 <= k <= n /\ n - k < 4 /\
  instruction_loop fuel w start n (i64 (bit_slice (instruction_data w) s m)) = Ok (start + k, n - k, i64 (bit_slice (instruction_data w) s (m + Z.to_nat (8 * k)))).
Proof.
  assert (0 <= point_offset w) as Hp by (destruct Hw as (_ & _ & ? & _); lia).
  induction fuel as [|fuel IH]; intros start n m s Hs Hn Hin Hm; cbn [instruction_loop].
  - exists 0. split_and!; [lia..|]. repeat f_equal; lia.
  - destruct (Z.leb_spec 4 n).
    + rewrite read_instruction by lia. cbn [obind]. change (Z.to_nat (8 * 4)) with 32%nat. rewrite Hm.
      rewrite (join_slice _ _ _ 32) by lia. rewrite !i32_small by lia.
      destruct (IH (start + 4) (n - 4) (m + 32)%nat s) as (k & Hk & Hk4 & ->); [lia..|]. exists (k + 4). split_and!; [lia..|].
      replace (m + 32 + Z.to_nat (8 * k))%nat with (m + Z.to_nat (8 * (k + 4)))%nat by lia.
      by replace (start + 4 + k) with (start + (k + 4)) by lia; replace (n - 4 - k) with (n - (k + 4)) by lia.
    + exists 0. split_and!; [lia..|]. repeat f_equal; lia.
Qed.

Lemma context_loop_spec fuel : forall start fin n m s, 0 <= start -> 0 <= n <= Z.of_nat fuel -> start + n < 2 ^ 27 -> fin = start + n - 1 -> 8 * start = s + Z.of_nat m ->
  exists k, 0 <= k <= n /\ n - k < 4 /\
  context_loop fuel w start fin n (i64 (bit_slice (context_data w) s m)) = (start + k, n - k, i64 (bit_slice (context_data w) s (m + Z.to_nat (8 * k)))).
Proof.
  induction fuel as [|fuel IH]; intros start fin n m s Hs Hn Hin Hf Hm; cbn [context_loop].
  - exists 0. split_and!; [lia..|]. repeat f_equal; lia.
  - destruct (Z.leb_spec 4 n).
    + rewrite read_context by lia. change (Z.to_nat (8 * 4)) with 32%nat. rewrite Hm.
      rewrite (join_slice _ _ _ 32) by lia. rewrite (i32_small (start + 4)), (i32_small (fin - (start + 4))), (i32_small (fin - (start + 4) + 1)) by lia.
      destruct (IH (start + 4) fin (fin - (start + 4) + 1) (m + 32)%nat s) as (k & Hk & Hk4 & ->); [lia..|]. exists (k + 4). split_and!; [lia..|].
      replace (m + 32 + Z.to_nat (8 * k))%nat with (m + Z.to_nat (8 * (k + 4)))%nat by lia.
      by replace (start + 4 + k) with (start + (k + 4)) by lia; replace (fin - (start + 4) + 1 - k) with (n - (k + 4)) by lia.
    + exists 0. split_and!; [lia..|]. repeat f_equal; lia.
Qed.
End Loops.

(** ** The values of fields *)

Lemma field_context_slice w start fin : walker_ok w -> 0 <= start <= fin -> fin < 2 ^ 26 ->
  field_context_bytes w start fin = i64 (bit_slice (context_data w) (8 * start) (Z.to_nat (8 * (fin - start + 1)))).
Proof.
  intros Hw Hs Hf. unfold field_context_bytes. rewrite (i32_small (fin - start)), (i32_small (fin - start + 1)) by lia.
  destruct (context_loop_spec w Hw (Z.to_nat (fin - start + 1)) start fin (fin - start + 1) 0 (8 * start)) as (k & Hk & Hk4 & E); [lia..|].
  cbn [bit_slice] in E. change (i64 0) with 0 in E. rewrite E. clear E. destruct (Z.ltb_spec 0 (fin - start + 1 - k)).
  - rewrite (i32_small (8 * _)), u32_small, read_context by (done || lia).
    replace (8 * (start + k)) with (8 * start + Z.of_nat (0 + Z.to_nat (8 * k))) by lia.
    rewrite join_slice_to by lia. do 2 f_equal. lia.
  - do 2 f_equal. lia.
Qed.

Lemma field_instruction_slice w start fin big : walker_ok w -> 0 <= start <= fin -> point_offset w + fin < 16 ->
  let V := i64 (bit_slice (instruction_data w) (8 * start) (Z.to_nat (8 * (fin - start + 1)))) in
  field_instruction_bytes w start fin big = Ok (if big then V else byte_swap_signed V (fin - start + 1)).
Proof.
  intros Hw Hs Hf. cbv zeta. unfold field_instruction_bytes. pose proof Hw as (_ & _ & Hp & _).
  rewrite (i32_small (fin - start)), (i32_small (fin - start + 1)) by lia.
  destruct (instruction_loop_spec w Hw (Z.to_nat (fin - start + 1)) start (fin - start + 1) 0 (8 * start)) as (k & Hk & Hk4 & E); [lia..|].
  cbn [bit_slice] in E. change (i64 0) with 0 in E. rewrite E. clear E. cbn [obind]. destruct (Z.ltb_spec 0 (fin - start + 1 - k)).
  - rewrite (i32_small (8 * _)), u32_small, read_instruction by (done || lia). cbn [obind].
    replace (8 * (start + k)) with (8 * start + Z.of_nat (0 + Z.to_nat (8 * k))) by lia.
    rewrite join_slice_to by lia.
    by replace (0 + Z.to_nat (8 * k) + Z.to_nat (8 * (fin - start + 1 - k)))%nat with (Z.to_nat (8 * (fin - start + 1))) by lia.
  - cbn [obind]. by replace (0 + Z.to_nat (8 * k))%nat with (Z.to_nat (8 * (fin - start + 1))) by lia.
Qed.

(** Shifting a 64-bit word down and extending a field that fits in it. *)
Definition extended (signbit : bool) (k x : Z) : Z := if signbit then sw k x else uw k x.

Lemma extend_field signbit V shift bit : 0 <= shift -> 0 <= bit < 63 -> shift + bit < 64 ->
  extend_value signbit (ishr64 (i64 V) shift) bit = extended signbit (bit + 1) (Z.shiftr V shift).
Proof.
  intros Hs Hb Hfit. unfold extend_value, extended, ishr64. rewrite Z.mod_small by lia.
  assert (uw (bit + 1) (Z.shiftr (i64 V) shift) = uw (bit + 1) (Z.shiftr V shift)) as E.
  { apply Z.bits_inj'. intros i Hi. rewrite !testbit_uw by lia. destruct (Z.ltb_spec i (bit + 1)); [simpl|done].
    rewrite !Z.shiftr_spec, testbit_sw by lia. by rewrite Z.min_l by lia. }
  destruct signbit; [rewrite sign_extend_eq by lia; by apply sw_congr|by rewrite zero_extend_eq].
Qed.

(** C16: a field of the context made by [ContextField::new] reads its own bits.  For a
    field whose bytes fit in a 64-bit word, the value of the expression is the number
    the bits from [startbit] to [endbit] of the context spell, the first of them the
    highest, taken as signed when the field is signed. *)
Theorem context_field_correct w signbit startbit endbit : walker_ok w -> 0 <= startbit <= endbit -> endbit < 2 ^ 28 -> endbit / 8 - startbit / 8 < 8 -> endbit - startbit < 63 ->
  let k := endbit - startbit + 1 in
  context_value (context_field_new signbit startbit endbit) w = extended signbit k (bit_slice (context_data w) startbit (Z.to_nat k)).
Proof.
  intros Hw Hs He Hspan Hbits. cbv zeta. unfold context_value, context_field_new. cbn [cf_startbyte cf_endbyte cf_signbit cf_shift cf_endbit cf_startbit].
  rewrite !Z.quot_div_nonneg, Z.rem_mod_nonneg by lia. pose proof (Z.div_mod startbit 8 ltac:(lia)). pose proof (Z.mod_pos_bound startbit 8 ltac:(lia)).
  pose proof (Z.div_mod endbit 8 ltac:(lia)). pose proof (Z.mod_pos_bound endbit 8 ltac:(lia)).
  assert (startbit / 8 <= endbit / 8) by (apply Z.div_le_mono; lia). assert (0 <= startbit / 8) by (apply Z.div_pos; lia).
  rewrite (i32_small (7 - _)), u32_small, (i32_small (endbit - startbit)), field_context_slice by (done || lia). rewrite extend_field by lia.
  unfold extended. assert (forall k x y, uw k x = uw k y -> (if signbit then sw k x else uw k x) = (if signbit then sw k y else uw k y)) as Hcong
    by (intros k x y E; destruct signbit; [by apply sw_congr|done]).
  apply Hcong. apply Z.bits_inj'. intros i Hi. rewrite !testbit_uw by lia. destruct (Z.ltb_spec i (endbit - startbit + 1)); [simpl|done].
  rewrite Z.shiftr_spec, !slice_bit by lia. rewrite !(proj2 (Z.ltb_lt _ _)) by lia. simpl. f_equal. lia.
Qed.

Definition demo_context : Walker := mk_Walker [0x12; 0xf0; 0x34; 0x56] [0x0000abcd; 0xe0000000] 1.

Lemma context_field_correct_witness : context_value (context_field_new true 28 35) demo_context = -34.
Proof.
  assert (walker_ok demo_context) as Hw by (repeat split; simpl; (lia || (repeat constructor; lia))).
  exact (context_field_correct demo_context true 28 35 Hw ltac:(lia) ltac:(lia) ltac:(done) ltac:(lia)).
Defined.

(** ** The bytes of a token *)

Definition bytes_from (bytes : list Z) (pos n : nat) : list Z := map (buf_byte bytes) (seq pos n).

Lemma bytes_from_u8 bytes pos n : Forall is_u8 bytes -> Forall is_u8 (bytes_from bytes pos n).
Proof.
  intros Hb. apply Forall_map, Forall_forall. intros i _. simpl. unfold buf_byte.
  destruct (nth_in_or_default i bytes 0) as [Hin| ->]; [|done]. rewrite Forall_forall in Hb. by apply Hb, list_elem_of_In.
Qed.

Lemma slice_bytes bytes pos n : Forall is_u8 bytes -> bit_slice (byte_bits bytes) (8 * Z.of_nat pos) (8 * n) = be_val (bytes_from bytes pos n).
Proof.
  intros Hb. induction n as [|n IH]; [done|]. unfold bytes_from in *. rewrite seq_S, map_app. cbn [map]. rewrite be_val_app, <- IH.
  replace (8 * S n)%nat with (8 * n + 8)%nat by lia. rewrite slice_app. f_equal. unfold buf_byte. rewrite (element_slice 8 bytes) by (done || lia).
  change (Z.to_nat 8) with 8%nat. f_equal. lia.
Qed.

(** Bytes swapped in a signed word. *)
Lemma byte_swap_signed_loop_eq n : forall val l, Forall is_u8 l -> byte_swap_signed_loop n val (i64 (be_val l)) = i64 (be_val (l ++ le_bytes n val)).
Proof.
  induction n as [|n IH]; intros val l Hl; [by rewrite app_nil_r|]. cbn [byte_swap_signed_loop le_bytes].
  assert (Z.lor (ishl64 (i64 (be_val l)) 8) (Z.land val 255) = i64 (be_val (l ++ [u8 val]))) as ->.
  { rewrite be_val_app. change 255 with (Z.ones 8). rewrite land_ones_uw by lia. rewrite <- i64_lor by (lia || apply uw_range; lia). f_equal.
    unfold ishl64. change (8 mod 64) with 8. apply sw_congr. rewrite !Z.shiftl_mul_pow2 by lia. by rewrite (eqw_signed 64 64 (be_val l)) by lia. }
  rewrite IH; [by rewrite <- app_assoc|]. apply Forall_app. split; [done|]. constructor; [by apply uw_range|constructor].
Qed.

Lemma le_bytes_congr n : forall x y, uw (8 * Z.of_nat n) x = uw (8 * Z.of_nat n) y -> le_bytes n x = le_bytes n y.
Proof.
  induction n as [|n IH]; intros x y E; [done|]. cbn [le_bytes].
  assert (forall i, 0 <= i < 8 * Z.of_nat (S n) -> Z.testbit x i = Z.testbit y i) as Hbits.
  { intros i Hi. pose proof (testbit_uw (8 * Z.of_nat (S n)) x i ltac:(lia)) as Ex. rewrite E, testbit_uw in Ex by lia.
    rewrite (proj2 (Z.ltb_lt _ _)) in Ex by lia. by simpl in Ex. }
  f_equal.
  - apply Z.bits_inj'. intros i Hi. rewrite !testbit_uw by lia. destruct (Z.ltb_spec i 8); [|done]. simpl. apply Hbits. lia.
  - apply IH. apply Z.bits_inj'. intros i Hi. rewrite !testbit_uw by lia. destruct (Z.ltb_spec i (8 * Z.of_nat n)); [|done]. simpl.
    rewrite !Z.shiftr_spec by lia. apply Hbits. lia.
Qed.

Lemma swap_bytes l : Forall is_u8 l -> (length l <= 8)%nat -> byte_swap_signed (i64 (be_val l)) (Z.of_nat (length l)) = i64 (be_val (rev l)).
Proof.
  intros Hl Hn. unfold byte_swap_signed. rewrite Nat2Z.id. rewrite (byte_swap_signed_loop_eq (length l) _ []) by done. rewrite app_nil_l. do 2 f_equal.
  rewrite <- le_bytes_be_val by done. apply le_bytes_congr. apply uw_sw_le; lia.
Qed.

(** C17: a field of a token reads its own bytes in its own order.  When the bytes from
    [bytestart] to [byteend] of the operand lie inside the instruction and fit in a
    64-bit word, the value of the field is the number they spell, the first byte the
    highest for a big endian token and the lowest for a little endian one, shifted down
    and cut to the width of the field, as signed when the field is signed. *)
Theorem token_field_correct f w : walker_ok w -> 0 <= tf_bytestart f <= tf_byteend f -> point_offset w + tf_byteend f < 16 ->
  tf_byteend f - tf_bytestart f < 8 -> 0 <= tf_shift f -> 0 <= tf_bitend f - tf_bitstart f < 63 -> tf_shift f + (tf_bitend f - tf_bitstart f) < 64 ->
  let l := bytes_from (buf w) (Z.to_nat (point_offset w + tf_bytestart f)) (Z.to_nat (tf_byteend f - tf_bytestart f + 1)) in
  token_value f w = Ok (extended (tf_signbit f) (tf_bitend f - tf_bitstart f + 1) (Z.shiftr (be_val (if tf_bigendian f then l else rev l)) (tf_shift f))).
Proof.
  intros Hw Hb Hin Hspan Hs Hbits Hfit. cbv zeta. pose proof Hw as (Hbuf & _ & Hp & _). unfold token_value. rewrite field_instruction_slice by done. cbn [obind].
  set (n := Z.to_nat (tf_byteend f - tf_bytestart f + 1)). set (l := bytes_from _ _ n).
  assert (bit_slice (instruction_data w) (8 * tf_bytestart f) (Z.to_nat (8 * (tf_byteend f - tf_bytestart f + 1))) = be_val l) as ->.
  { unfold l. rewrite <- slice_bytes by done. replace (Z.to_nat (8 * (tf_byteend f - tf_bytestart f + 1))) with (8 * n)%nat by lia.
    apply slice_ext. intros i Hi. unfold instruction_data. f_equal. lia. }
  assert (length l = n) as Hl by (unfold l, bytes_from; by rewrite length_map, length_seq).
  replace (tf_byteend f - tf_bytestart f + 1) with (Z.of_nat (length l)) by lia.
  rewrite swap_bytes by (lia || by apply bytes_from_u8). rewrite u32_small, i32_small by lia. f_equal.
  rewrite <- extend_field by lia. by destruct (tf_bigendian f).
Qed.

Lemma token_field_correct_witness :
  token_value (mk_TokenField false true 4 11 0 1 4) demo_context = Ok 0x4f.
Proof.
  assert (walker_ok demo_context) as Hw by (repeat split; simpl; (lia || (repeat constructor; lia))).
  apply (token_field_correct (mk_TokenField false true 4 11 0 1 4) demo_context Hw); simpl; lia.
Defined.
