(* ===== verification/StdSort.v ===== *)
(** The introspective sort of [src/src/stdsort.rs]: quicksort by a median of
    three down to runs of sixteen, heap sort where the recursion gets too deep,
    and an insertion sort over the result.  The theorems say that on a strict
    weak order no index leaves the slice, every loop ends, the result is a
    sorted permutation, and that the quicksort alone already puts any two
    elements sixteen or more places apart in order, which is what keeps the
    final insertion sort short. *)
From stdpp Require Import base list sets numbers.
From Stdlib Require Import Lia.
From S2P Require Import Prelude.
Local Open Scope nat_scope.
Local Open Scope rust_scope.

(** ** Definitions *)

Definition SORT_THRESHOLD : nat := 16.

Section Sort.
Context {T : Type} (less : T -> T -> bool).

(** Positions are natural numbers.  A [usize] subtraction below zero is a
    panic here: it would wrap to a position outside the slice, and the theorems
    show that it does not happen. *)
Definition usub (a b : nat) : outcome nat := if b <=? a then Ok (a - b) else Panic.

(** [slice.swap(a, b)]. *)
Definition swap (l : list T) (a b : nat) : outcome (list T) :=
  let! x := index l a in
  let! y := index l b in
  Ok (<[b := x]> (<[a := y]> l)).

(** [slice\[a..=b\].rotate_right(1)]. *)
Definition rotate_right (l : list T) (a b : nat) : outcome (list T) :=
  let! x := index l b in
  if a <=? b then Ok (take a l ++ x :: take (b - a) (drop a l) ++ drop (S b) l) else Panic.

Definition move_median_to_first (l : list T) (result first_pos mid_pos last_pos : nat) : outcome (list T) :=
  let! first := index l first_pos in
  let! mid := index l mid_pos in
  if less first mid then
    let! last := index l last_pos in
    if less mid last then swap l result mid_pos
    else if less first last then swap l result last_pos
    else swap l result first_pos
  else
    let! last := index l last_pos in
    if less first last then swap l result first_pos
    else if less mid last then swap l result last_pos
    else swap l result mid_pos.

(** [while less(&slice\[first\], &slice\[pivot\]) { first += 1; }], and the
    loop that runs down. *)
Definition scan_up (l : list T) (pivot first : nat) : outcome nat :=
  loop (S (length l)) (fun first =>
    let! x := index l first in
    let! p := index l pivot in
    Ok (if less x p then inl (S first) else inr first)) first.

Definition scan_down (l : list T) (pivot last : nat) : outcome nat :=
  loop (S (length l)) (fun last =>
    let! p := index l pivot in
    let! x := index l last in
    if less p x then let! last := usub last 1 in Ok (inl last) else Ok (inr last)) last.

Definition partition_step (pivot : nat) (st : list T * nat * nat) : outcome (list T * nat * nat + list T * nat) :=
  let '(l, first, last) := st in
  let! first := scan_up l pivot first in
  let! last := usub last 1 in
  let! last := scan_down l pivot last in
  if last <=? first then Ok (inr (l, first))
  else
    let! l := swap l first last in
    Ok (inl (l, S first, last)).

Definition unguarded_partition (l : list T) (first last pivot : nat) : outcome (list T * nat) :=
  loop (S (length l)) (partition_step pivot) (l, first, last).

Definition unguarded_partition_pivot (l : list T) (first last : nat) : outcome (list T * nat) :=
  let! width := usub last first in
  let mid := first + width / 2 in
  let! last_pos := usub last 1 in
  let! l := move_median_to_first l first (first + 1) mid last_pos in
  unguarded_partition l (first + 1) last first.

(** The indices of [adjust_heap] are [isize] in the source; they are never
    negative, since [len] is at least one at every call and [(0 - 1) / 2] is
    zero in both readings. *)
Definition sift_step (first len : nat) (st : list T * nat) : outcome (list T * nat + list T * nat) :=
  let '(l, hole_index) := st in
  if hole_index <? (len - 1) / 2 then
    let second_child := 2 * (hole_index + 1) in
    let! x := index l (first + second_child) in
    let! y := index l (first + (second_child - 1)) in
    let second_child := if less x y then second_child - 1 else second_child in
    let! z := index l (first + second_child) in
    let! l := store l (first + hole_index) z in
    Ok (inl (l, second_child))
  else Ok (inr (l, hole_index)).

Definition last_child (l : list T) (first hole_index len : nat) : outcome (list T * nat) :=
  if Nat.even len && (hole_index =? (len - 2) / 2) then
    let second_child := 2 * (hole_index + 1) in
    let! z := index l (first + (second_child - 1)) in
    let! l := store l (first + hole_index) z in
    Ok (l, second_child - 1)
  else Ok (l, hole_index).

Definition push_step (first top_index : nat) (value : T) (st : list T * nat) : outcome (list T * nat + list T * nat) :=
  let '(l, hole_index) := st in
  let parent := (hole_index - 1) / 2 in
  if top_index <? hole_index then
    let! x := index l (first + parent) in
    if less x value then
      let! l := store l (first + hole_index) x in
      Ok (inl (l, parent))
    else Ok (inr (l, hole_index))
  else Ok (inr (l, hole_index)).

Definition adjust_heap (l : list T) (first hole_index len : nat) (value : T) : outcome (list T) :=
  let top_index := hole_index in
  let! (l, hole_index) := loop (S len) (sift_step first len) (l, hole_index) in
  let! (l, hole_index) := last_child l first hole_index len in
  let! (l, hole_index) := loop (S len) (push_step first top_index value) (l, hole_index) in
  store l (first + hole_index) value.

(** The first loop of [heap_sort_range], from [parent] down to zero. *)
Fixpoint build_heap (l : list T) (first len parent : nat) : outcome (list T) :=
  let! value := index l (first + parent) in
  let! l := adjust_heap l first parent len value in
  match parent with
  | O => Ok l
  | S parent => build_heap l first len parent
  end.

(** Its second loop, with [count = end - first]. *)
Fixpoint pop_all (l : list T) (first count : nat) : outcome (list T) :=
  match count with
  | S (S _ as count) =>
      let! value := index l (first + count) in
      let! top := index l first in
      let! l := store l (first + count) top in
      let! l := adjust_heap l first 0 count value in
      pop_all l first count
  | _ => Ok l
  end.

Definition heap_sort_range (l : list T) (first last : nat) : outcome (list T) :=
  let! len := usub last first in
  let! l := if 2 <=? len then build_heap l first len ((len - 2) / 2) else Ok l in
  pop_all l first len.

(** One iteration of the [while] loop of [introsort_loop] lowers [depth_limit]
    by one, for the recursive call and for the iterations after it. *)
Fixpoint introsort_loop (depth_limit : nat) (l : list T) (first last : nat) : outcome (list T) :=
  let! width := usub last first in
  if SORT_THRESHOLD <? width then
    match depth_limit with
    | O => heap_sort_range l first last
    | S depth_limit =>
        let! (l, cut) := unguarded_partition_pivot l first last in
        let! l := introsort_loop depth_limit l cut last in
        introsort_loop depth_limit l first cut
    end
  else Ok l.

(** [while hole > lower_bound && less(&value, &slice\[hole - 1\])], counting
    down from [hole]. *)
Fixpoint find_hole (l : list T) (value : T) (lower_bound hole : nat) : outcome nat :=
  match hole with
  | O => Ok O
  | S prev =>
      if lower_bound <? hole then
        let! x := index l prev in
        if less value x then find_hole l value lower_bound prev else Ok hole
      else Ok hole
  end.

Definition unguarded_linear_insert (l : list T) (last lower_bound : nat) : outcome (list T) :=
  let! value := index l last in
  let! hole := find_hole l value lower_bound last in
  rotate_right l hole last.

Definition insertion_step (first position : nat) (l : list T) : outcome (list T) :=
  let! x := index l position in
  let! y := index l first in
  if less x y then rotate_right l first position else unguarded_linear_insert l position first.

(** A range whose end is not above its start is empty. *)
Definition insertion_sort (l : list T) (first last : nat) : outcome (list T) :=
  if first =? last then Ok l
  else for_up (last - (first + 1)) (first + 1) (insertion_step first) l.

Definition final_insertion_sort (l : list T) (first last : nat) : outcome (list T) :=
  let! width := usub last first in
  if SORT_THRESHOLD <? width then
    let! l := insertion_sort l first (first + SORT_THRESHOLD) in
    for_up (last - (first + SORT_THRESHOLD)) (first + SORT_THRESHOLD)
      (fun position l => unguarded_linear_insert l position first) l
  else insertion_sort l first last.

(** [usize::BITS - 1 - len.leading_zeros()] is the logarithm of a positive
    [len]. *)
Definition std_sort (l : list T) : outcome (list T) :=
  let len := length l in
  if len =? 0 then Ok l
  else
    let depth_limit := 2 * Nat.log2 len in
    let! l := introsort_loop depth_limit l 0 len in
    final_insertion_sort l 0 len.

Definition std_partial_sort_full (l : list T) : outcome (list T) :=
  heap_sort_range l 0 (length l).

End Sort.

Example std_sort_runs :
  std_sort Nat.ltb [5;3;9;1;12;7;7;2;20;18;4;6;11;10;15;14;13;8;16;19;17;0;3] =
    Ok [0;1;2;3;3;4;5;6;7;7;8;9;10;11;12;13;14;15;16;17;18;19;20] /\
  std_partial_sort_full Nat.ltb [5;3;9;1;12;7;7;2;20] = Ok [1;2;3;5;7;7;9;12;20].
Proof. vm_compute. done. Qed.

(** ** Slices that are permuted inside a range *)

(** The result is a permutation and agrees with the original outside
    [lo, hi). *)
Definition permutes {T} (lo hi : nat) (l l' : list T) : Prop :=
  l ≡ₚ l' /\ forall i, i < lo \/ hi <= i -> l' !! i = l !! i.

Section Permutes.
Context {T : Type}.
Implicit Types l : list T.

Lemma permutes_refl lo hi l : permutes lo hi l l.
Proof. done. Qed.

Lemma permutes_trans lo hi l1 l2 l3 : permutes lo hi l1 l2 -> permutes lo hi l2 l3 -> permutes lo hi l1 l3.
Proof. intros [P1 O1] [P2 O2]. split; [by etrans|]. intros i Hi. by rewrite O2, O1. Qed.

Lemma permutes_wider lo hi lo' hi' l l' : lo' <= lo -> hi <= hi' -> permutes lo hi l l' -> permutes lo' hi' l l'.
Proof. intros ?? [P O]. split; [done|]. intros i Hi. apply O. lia. Qed.

Lemma permutes_length lo hi l l' : permutes lo hi l l' -> length l' = length l.
Proof. intros [P _]. by rewrite P. Qed.

Lemma permutes_swap lo hi l a b x y : l !! a = Some x -> l !! b = Some y -> lo <= a < hi -> lo <= b < hi ->
  permutes lo hi l (<[b := x]> (<[a := y]> l)).
Proof.
  intros Ha Hb ??. split.
  - symmetry. by apply Permutation_insert_swap.
  - intros i Hi. by rewrite !list_lookup_insert_ne by lia.
Qed.

(** Inside the range the new values are the old values. *)
Lemma permutes_from lo hi l l' i x : permutes lo hi l l' -> lo <= i < hi -> l' !! i = Some x ->
  exists j, lo <= j < hi /\ l !! j = Some x.
Proof.
  intros HP Hi Hx. pose proof (permutes_length _ _ _ _ HP) as Hlen. destruct HP as [P O].
  assert (take lo l' = take lo l) as Ht.
  { apply list_eq. intros k. destruct (decide (k < lo)).
    - rewrite !lookup_take_lt by lia. apply O. lia.
    - by rewrite !lookup_take_ge by lia. }
  assert (drop hi l' = drop hi l) as Hd.
  { apply list_eq. intros k. rewrite !lookup_drop. apply O. lia. }
  assert (forall k : list T, k = take lo k ++ take (hi - lo) (drop lo k) ++ drop hi k) as split3.
  { intros k. rewrite <- (take_drop lo k) at 1. f_equal.
    rewrite <- (take_drop (hi - lo) (drop lo k)) at 1. f_equal. rewrite drop_drop. f_equal. lia. }
  rewrite (split3 l), (split3 l'), Ht, Hd in P.
  apply (inj (take lo l ++.)), (inj (.++ drop hi l)) in P.
  assert (x ∈ take (hi - lo) (drop lo l)) as Hin.
  { rewrite P. apply list_elem_of_lookup. exists (i - lo).
    rewrite lookup_take_lt, lookup_drop by lia. by replace (lo + (i - lo)) with i by lia. }
  apply list_elem_of_lookup in Hin as [k Hk]. apply lookup_take_Some in Hk as [Hk ?].
  rewrite lookup_drop in Hk. exists (lo + k). split; [lia|done].
Qed.

End Permutes.

(** ** Strict weak orders *)

(** What [std_sort] asks of its comparison. *)
Class StrictWeak {T} (less : T -> T -> bool) : Prop := {
  less_asym x y : less x y = true -> less y x = false;
  less_split x y z : less x z = true -> less x y = true \/ less y z = true
}.

#[export] Instance ltb_strict_weak : StrictWeak Nat.ltb.
Proof.
  split; intros *; rewrite ?Nat.ltb_lt, ?Nat.ltb_ge; lia.
Qed.

(** Elements [d] or more places apart are in order. *)
Definition apart {T} (less : T -> T -> bool) (d lo hi : nat) (l : list T) : Prop :=
  forall i j x y, lo <= i -> i + d <= j -> j < hi -> l !! i = Some x -> l !! j = Some y -> less y x = false.

Definition sorted {T} (less : T -> T -> bool) (l : list T) : Prop := apart less 1 0 (length l) l.

Section Correct.
Context {T : Type} (less : T -> T -> bool) `{!StrictWeak less}.
Implicit Types l : list T.

Abbreviation leq x y := (less y x = false).

Lemma le_refl x : leq x x.
Proof. destruct (less x x) eqn:E; [|done]. pose proof (less_asym _ _ E). congruence. Qed.

Lemma le_trans x y z : leq x y -> leq y z -> leq x z.
Proof.
  intros Hxy Hyz. destruct (less z x) eqn:E; [|done]. destruct (less_split z y x E); congruence.
Qed.

Lemma le_of_less x y : less x y = true -> leq x y.
Proof. apply less_asym. Qed.

Lemma lookup_in l i : i < length l -> exists x, l !! i = Some x.
Proof. intros. by apply lookup_lt_is_Some_2. Qed.

Lemma usub_ok a b : b <= a -> usub a b = Ok (a - b).
Proof. intros. unfold usub. by rewrite (proj2 (Nat.leb_le b a)) by done. Qed.

Lemma swap_ok l a b x y : l !! a = Some x -> l !! b = Some y -> swap l a b = Ok (<[b := x]> (<[a := y]> l)).
Proof. intros Ha Hb. unfold swap. by rewrite (index_ok _ _ _ Ha), (index_ok _ _ _ Hb). Qed.

(** *** The partition *)

Lemma scan_up_ok l pivot p a g y : l !! pivot = Some p -> a <= g -> l !! g = Some y -> leq p y ->
  exists a', scan_up less l pivot a = Ok a' /\ a <= a' <= g /\ (exists x, l !! a' = Some x /\ leq p x) /\
    forall i x, a <= i < a' -> l !! i = Some x -> leq x p.
Proof.
  intros Hp Hag Hg Hy. unfold scan_up.
  pose proof (lookup_lt_Some _ _ _ Hg) as Hlen.
  apply (loop_inv (fun i => a <= i <= g /\ forall k x, a <= k < i -> l !! k = Some x -> leq x p)
    _ (fun i => g - i)).
  - split; [lia|]. intros; lia.
  - lia.
  - intros i [Hi Hk]. destruct (lookup_in l i ltac:(lia)) as [x Hx].
    rewrite (index_ok _ _ _ Hx), (index_ok _ _ _ Hp). ostep. destruct (less x p) eqn:E.
    + left. exists (S i). assert (i <> g) by (intros ->; congruence).
      split; [done|]. split; [|lia]. split; [lia|]. intros k z Hkz Hz.
      destruct (decide (k = i)) as [->|]; [|apply (Hk k); [lia|done]].
      simplify_eq. by apply le_of_less.
    + right. exists i. split; [done|]. split; [lia|]. split; [by eauto|]. done.
Qed.

Lemma scan_down_ok l pivot p b g y : l !! pivot = Some p -> g <= b -> b < length l -> l !! g = Some y -> leq y p ->
  exists b', scan_down less l pivot b = Ok b' /\ g <= b' <= b /\ (exists x, l !! b' = Some x /\ leq x p) /\
    forall i x, b' < i <= b -> l !! i = Some x -> leq p x.
Proof.
  intros Hp Hgb Hb Hg Hy. unfold scan_down.
  apply (loop_inv (fun i => g <= i <= b /\ forall k x, i < k <= b -> l !! k = Some x -> leq p x)
    _ (fun i => i - g)).
  - split; [lia|]. intros; lia.
  - lia.
  - intros i [Hi Hk]. destruct (lookup_in l i ltac:(lia)) as [x Hx].
    rewrite (index_ok _ _ _ Hx), (index_ok _ _ _ Hp). ostep. destruct (less p x) eqn:E.
    + left. exists (i - 1). assert (i <> g) by (intros ->; congruence).
      rewrite usub_ok by lia. split; [done|]. split; [|lia]. split; [lia|]. intros k z Hkz Hz.
      destruct (decide (k = i)) as [->|]; [|apply (Hk k); [lia|done]].
      simplify_eq. by apply le_of_less.
    + right. exists i. split; [done|]. split; [lia|]. split; [by eauto|]. done.
Qed.

(** What the pivot at [pivot], below the range, splits: everything in
    [lo, cut) is at most the pivot, everything in [cut, hi) at least. *)
Definition cut_at (p : T) (lo cut hi : nat) (l : list T) : Prop :=
  (forall i x, lo <= i < cut -> l !! i = Some x -> leq x p) /\
  (forall i x, cut <= i < hi -> l !! i = Some x -> leq p x).

(** The state of the partition loop: the part below [a] and the part from [b]
    on are done, and something stops either scan. *)
Record partition_inv (l0 : list T) (p : T) (lo hi : nat) (l : list T) (a b : nat) : Prop := {
  pi_perm : permutes lo hi l0 l;
  pi_range : lo <= a <= b /\ b <= hi;
  pi_low : forall i x, lo <= i < a -> l !! i = Some x -> leq x p;
  pi_high : forall i x, b <= i < hi -> l !! i = Some x -> leq p x;
  pi_up : exists g x, a <= g < hi /\ l !! g = Some x /\ leq p x;
  pi_down : exists g x, lo <= g < b /\ l !! g = Some x /\ leq x p
}.

Lemma partition_swap l0 p lo hi l a b a' b' x y : partition_inv l0 p lo hi l a b ->
  a <= a' -> a' < b' -> b' < b -> l !! a' = Some x -> l !! b' = Some y -> leq p x -> leq y p ->
  (forall i x, a <= i < a' -> l !! i = Some x -> leq x p) ->
  (forall i x, b' < i < b -> l !! i = Some x -> leq p x) ->
  partition_inv l0 p lo hi (<[b' := x]> (<[a' := y]> l)) (S a') b'.
Proof.
  intros [HP HR HL HH _ _] ??? Hx Hy Hpx Hyp Hlow Hhigh.
  pose proof (lookup_lt_Some _ _ _ Hx). pose proof (lookup_lt_Some _ _ _ Hy).
  split.
  - apply (permutes_trans _ _ _ _ _ HP). by apply permutes_swap; [done|done|lia..].
  - lia.
  - intros i z Hi. rewrite list_lookup_insert_ne by lia. destruct (decide (i = a')) as [->|].
    + rewrite list_lookup_insert_eq by lia. by intros [= <-].
    + rewrite list_lookup_insert_ne by lia. destruct (decide (i < a)); [apply HL|apply Hlow]; lia.
  - intros i z Hi. destruct (decide (i = b')) as [->|].
    + rewrite list_lookup_insert_eq by (rewrite length_insert; lia). by intros [= <-].
    + rewrite !list_lookup_insert_ne by lia. destruct (decide (i < b)); [apply Hhigh|apply HH]; lia.
  - exists b', x. rewrite list_lookup_insert_eq by (rewrite length_insert; lia). split; [lia|done].
  - exists a', y. rewrite list_lookup_insert_ne, list_lookup_insert_eq by lia. split; [lia|done].
Qed.

Lemma unguarded_partition_ok l pivot p lo hi : l !! pivot = Some p -> pivot < lo -> hi <= length l ->
  (exists g x, lo <= g < hi /\ l !! g = Some x /\ leq p x) ->
  (exists g x, lo <= g < hi /\ l !! g = Some x /\ leq x p) ->
  exists l' cut, unguarded_partition less l lo hi pivot = Ok (l', cut) /\
    permutes lo hi l l' /\ lo <= cut < hi /\ cut_at p lo cut hi l'.
Proof.
  intros Hp Hpl Hhi Hup Hdown. unfold unguarded_partition.
  destruct (loop_inv (fun st => partition_inv l p lo hi st.1.1 st.1.2 st.2)
    (fun r => permutes lo hi l r.1 /\ lo <= r.2 < hi /\ cut_at p lo r.2 hi r.1) (fun st => st.2 - st.1.2)
    (partition_step less pivot) (S (length l)) (l, lo, hi)) as ([l' cut] & E & H); [| | |by eauto].
  { destruct Hup as (? & ? & ? & ?). split; simpl; [done|lia|lia|lia|by eauto..]. }
  { simpl. lia. }
  intros [[k a] b] HI. simpl in HI.
  pose proof (permutes_length _ _ _ _ (pi_perm _ _ _ _ _ _ _ HI)) as Hlen.
  assert (k !! pivot = Some p) as Hkp by (rewrite (proj2 (pi_perm _ _ _ _ _ _ _ HI)) by lia; done).
  destruct (pi_up _ _ _ _ _ _ _ HI) as (g & x & Hg & Hgx & Hx).
  destruct (pi_down _ _ _ _ _ _ _ HI) as (h & y & Hh & Hhy & Hy).
  pose proof (pi_range _ _ _ _ _ _ _ HI) as HR.
  destruct (scan_up_ok k pivot p a g x) as (a' & Ea & Ha & (xa & Hxa & Hpa) & Hlow); [done|lia|done|done|].
  destruct (scan_down_ok k pivot p (b - 1) h y) as (b' & Eb & Hb & (xb & Hxb & Hbp) & Hhigh); [done|lia|lia|done|done|].
  unfold partition_step. rewrite Ea. ostep. rewrite usub_ok by lia. ostep. rewrite Eb. ostep.
  destruct (Nat.leb_spec b' a').
  - right. exists (k, a'). split; [done|]. simpl. split; [apply HI|]. split; [lia|]. split.
    + intros i z Hi. destruct (decide (i < a)); [apply (pi_low _ _ _ _ _ _ _ HI)|apply Hlow]; lia.
    + intros i z Hi Hz. destruct (decide (i = a')) as [->|]; [by simplify_eq|].
      destruct (decide (i < b)); [apply (Hhigh i)|apply (pi_high _ _ _ _ _ _ _ HI i)]; solve [lia|done].
  - left. rewrite (swap_ok _ _ _ _ _ Hxa Hxb). ostep. eexists. split; [done|]. simpl. split; [|lia].
    apply (partition_swap _ _ _ _ _ a b); try done; try lia. intros i z Hi. apply Hhigh. lia.
Qed.

(** The median of three: the pivot goes to the front, and what it leaves
    behind stops both scans. *)
Lemma move_median_ok l r a m b : r < a -> a < m < b -> b < length l ->
  exists l' p, move_median_to_first less l r a m b = Ok l' /\ permutes r (S b) l l' /\ l' !! r = Some p /\
    (exists g x, a <= g < S b /\ l' !! g = Some x /\ leq p x) /\
    (exists g x, a <= g < S b /\ l' !! g = Some x /\ leq x p).
Proof.
  intros Hr Hm Hb.
  destruct (lookup_in l r ltac:(lia)) as [xr Hxr]. destruct (lookup_in l a ltac:(lia)) as [xa Hxa].
  destruct (lookup_in l m ltac:(lia)) as [xm Hxm]. destruct (lookup_in l b ltac:(lia)) as [xb Hxb].
  assert (forall s u v xs xu xv, l !! s = Some xs -> l !! u = Some xu -> l !! v = Some xv ->
    a <= s <= b -> a <= u <= b -> a <= v <= b -> s <> u -> s <> v -> leq xs xu -> leq xv xs ->
    exists l' p, swap l r s = Ok l' /\ permutes r (S b) l l' /\ l' !! r = Some p /\
    (exists g x, a <= g < S b /\ l' !! g = Some x /\ leq p x) /\
    (exists g x, a <= g < S b /\ l' !! g = Some x /\ leq x p)) as finish.
  { intros s u v xs xu xv Hs Hu Hv ?????. exists (<[s := xr]> (<[r := xs]> l)), xs.
    split; [by apply swap_ok|]. split; [apply permutes_swap; [done|done|lia|lia]|].
    rewrite list_lookup_insert_ne, list_lookup_insert_eq by lia. split; [done|].
    split; [exists u, xu|exists v, xv]; rewrite !list_lookup_insert_ne by lia; (split; [lia|done]). }
  unfold move_median_to_first. rewrite (index_ok _ _ _ Hxa), (index_ok _ _ _ Hxm). ostep.
  destruct (less xa xm) eqn:E1; rewrite (index_ok _ _ _ Hxb); ostep.
  - destruct (less xm xb) eqn:E2; [|destruct (less xa xb) eqn:E3].
    + apply (finish m b a xm xb xa); try done; try lia; by apply le_of_less.
    + apply (finish b m a xb xm xa); try done; try lia; by apply le_of_less.
    + apply (finish a m b xa xm xb); try done; try lia; by apply le_of_less.
  - destruct (less xa xb) eqn:E2; [|destruct (less xm xb) eqn:E3].
    + apply (finish a b m xa xb xm); try done; try lia; by apply le_of_less.
    + apply (finish b a m xb xa xm); try done; try lia; by apply le_of_less.
    + apply (finish m a b xm xa xb); try done; try lia; by apply le_of_less.
Qed.

Lemma partition_pivot_ok l first last : first + SORT_THRESHOLD < last -> last <= length l ->
  exists l' cut p, unguarded_partition_pivot less l first last = Ok (l', cut) /\
    permutes first last l l' /\ first < cut < last /\ cut_at p first cut last l'.
Proof.
  unfold SORT_THRESHOLD. intros Hw Hlen. unfold unguarded_partition_pivot. rewrite !usub_ok by lia. ostep.
  assert (8 <= (last - first) / 2 < last - first - 1) as Hmid.
  { split; [apply Nat.div_le_lower_bound; lia|]. apply Nat.Div0.div_lt_upper_bound. lia. }
  destruct (move_median_ok l first (first + 1) (first + (last - first) / 2) (last - 1))
    as (l1 & p & -> & HP1 & Hp & Hup & Hdown); [lia..|]. ostep.
  replace (S (last - 1)) with last in * by lia. pose proof (permutes_length _ _ _ _ HP1).
  destruct (unguarded_partition_ok l1 first p (first + 1) last)
    as (l2 & cut & -> & HP2 & Hcut & HL & HH); [done|lia|lia|done|done|].
  exists l2, cut, p. split; [done|]. split.
  { apply (permutes_trans _ _ _ _ _ HP1), (permutes_wider (first + 1) last); [lia|lia|done]. }
  split; [lia|]. split; [|done]. intros i x Hi Hx. destruct (decide (i = first)) as [->|].
  - rewrite (proj2 HP2) in Hx by lia. simplify_eq. apply le_refl.
  - apply (HL i); [lia|done].
Qed.

(** *** The heap *)

(** The parents from [k] on of the first [len] elements are at least their
    children. *)
Definition heap_from (l : list T) (first k len : nat) : Prop :=
  forall j x y, 0 < j < len -> k <= (j - 1) / 2 ->
    l !! (first + (j - 1) / 2) = Some x -> l !! (first + j) = Some y -> leq y x.

(** A child names its parent. *)
Lemma child_parent j h : 0 < j -> (j - 1) / 2 = h -> j = 2 * h + 1 \/ j = 2 * h + 2.
Proof. intros ? <-. pose proof (Nat.div_mod_eq (j - 1) 2). pose proof (Nat.mod_upper_bound (j - 1) 2). lia. Qed.

Lemma parent_lt j : 0 < j -> (j - 1) / 2 < j.
Proof. intros. apply Nat.Div0.div_lt_upper_bound; lia. Qed.

(** Only the edge from [h] to its children is open while the hole is at the
    top; below the top the old value of the hole keeps the heap in order. *)
Definition holed (l : list T) (first top h len : nat) : Prop :=
  heap_from l first (if h =? top then S top else top) len.

(** A value that is at least the children of the hole and at most its parent
    fills it. *)
Lemma heap_fill l first top len h v : holed l first top h len -> first + h < length l ->
  (forall j y, 0 < j < len -> (j - 1) / 2 = h -> l !! (first + j) = Some y -> leq y v) ->
  (forall x, 0 < h -> top <= (h - 1) / 2 -> l !! (first + (h - 1) / 2) = Some x -> leq v x) ->
  heap_from (<[first + h := v]> l) first top len.
Proof.
  intros Hheap Hlen Hkids Hpar j x y Hj Hk Hx Hy. pose proof (parent_lt j ltac:(lia)).
  destruct (decide ((j - 1) / 2 = h)) as [E|E].
  - rewrite E, list_lookup_insert_eq in Hx by lia. rewrite list_lookup_insert_ne in Hy by lia. simplify_eq.
    by apply (Hkids j).
  - rewrite list_lookup_insert_ne in Hx by lia. destruct (decide (j = h)) as [->|].
    + rewrite list_lookup_insert_eq in Hy by lia. simplify_eq. by apply Hpar; [lia|..].
    + rewrite list_lookup_insert_ne in Hy by lia. apply (Hheap j); [done| |done|done].
      destruct (Nat.eqb_spec h top); lia.
Qed.

Lemma heap_holed l first top h len : heap_from l first top len -> holed l first top h len.
Proof. intros H j x y Hj Hk. apply H; [done|]. destruct (h =? top); lia. Qed.

Lemma holed_heap l first top h len : holed l first top h len -> top < h -> heap_from l first top len.
Proof. unfold holed. destruct (Nat.eqb_spec h top); [lia|done]. Qed.

(** The slice with the saved value put back into the hole. *)
Definition plug (l : list T) (first h : nat) (v : T) : list T := <[first + h := v]> l.

Lemma plug_move l first h c v z lo hi : l !! (first + c) = Some z -> first + h < length l -> h <> c ->
  lo <= first + h < hi -> lo <= first + c < hi ->
  permutes lo hi (plug l first h v) (plug (<[first + h := z]> l) first c v).
Proof.
  intros Hz Hh Hne ??. unfold plug.
  rewrite <- (list_insert_insert_eq l (first + h) z v).
  apply permutes_swap; [by rewrite list_lookup_insert_eq|by rewrite list_lookup_insert_ne by lia|lia|lia].
Qed.

(** One move of the hole from [h] down to its child [c], the larger one. *)
Lemma sift_move l first top h c len z : holed l first top h len -> first + len <= length l -> top <= h ->
  0 < c < len -> (c - 1) / 2 = h -> l !! (first + c) = Some z ->
  (forall j y, 0 < j < len -> (j - 1) / 2 = h -> l !! (first + j) = Some y -> leq y z) ->
  heap_from (<[first + h := z]> l) first top len.
Proof.
  intros Hh Hlen Htop Hc Hpc Hz Hmax. pose proof (parent_lt c ltac:(lia)).
  apply heap_fill; [done|lia|done|]. intros x Hpos Hk Hx. pose proof (parent_lt h Hpos).
  destruct (lookup_in l (first + h) ltac:(lia)) as [w Hw].
  pose proof (holed_heap _ _ _ _ _ Hh ltac:(lia)) as Hheap.
  apply (le_trans _ w); [|by apply (Hheap h); [lia|..]].
  apply (Hheap c); rewrite ?Hpc; try done; lia.
Qed.

(** [h] is [top] or below it in the heap. *)
Inductive under (top : nat) : nat -> Prop :=
  | under_top : under top top
  | under_child c : 0 < c -> under top ((c - 1) / 2) -> under top c.

Lemma under_le top h : under top h -> top <= h.
Proof. induction 1 as [|c Hc _ IH]; [done|]. pose proof (parent_lt c Hc). lia. Qed.

Lemma under_up top h : under top h -> top < h -> under top ((h - 1) / 2).
Proof. destruct 1; [lia|done]. Qed.

(** The state of both loops of [adjust_heap]. *)
Record heap_inv (m : list T) (first top len : nat) (v : T) (l : list T) (h : nat) : Prop := {
  hi_perm : permutes (first + top) (first + len) m (plug l first h v);
  hi_heap : holed l first top h len;
  hi_under : under top h;
  hi_range : top <= h < len;
  hi_len : first + len <= length l
}.

Lemma heap_inv_down m first top len v l h c z : heap_inv m first top len v l h ->
  0 < c < len -> (c - 1) / 2 = h -> l !! (first + c) = Some z ->
  (forall j y, 0 < j < len -> (j - 1) / 2 = h -> l !! (first + j) = Some y -> leq y z) ->
  heap_inv m first top len v (<[first + h := z]> l) c.
Proof.
  intros [HP HH HU HR HL] Hc Hpc Hz Hmax. pose proof (parent_lt c ltac:(lia)). split.
  - apply (permutes_trans _ _ _ _ _ HP). apply plug_move; [done|lia..].
  - apply heap_holed. apply (sift_move _ _ _ _ c); [done|done|lia|done..].
  - apply under_child; [lia|]. by rewrite Hpc.
  - lia.
  - by rewrite length_insert.
Qed.

(** The first part of [adjust_heap] takes the hole down to a leaf. *)
Lemma sift_ok m first top len v l : heap_inv m first top len v l top ->
  exists l1 h1 l2 h2, loop (S len) (sift_step less first len) (l, top) = Ok (l1, h1) /\
    last_child l1 first h1 len = Ok (l2, h2) /\ heap_inv m first top len v l2 h2 /\ len <= 2 * h2 + 1.
Proof.
  intros HI0.
  destruct (loop_inv (fun st => heap_inv m first top len v st.1 st.2)
    (fun r => heap_inv m first top len v r.1 r.2 /\ (len - 1) / 2 <= r.2) (fun st => len - st.2)
    (sift_step less first len) (S len) (l, top)) as ([l1 h1] & E & HI & Hleaf); [done|simpl; lia| |].
  { intros [k h] HI. simpl in HI. pose proof (hi_range _ _ _ _ _ _ _ HI). pose proof (hi_len _ _ _ _ _ _ _ HI).
    unfold sift_step. destruct (Nat.ltb_spec h ((len - 1) / 2)) as [Hlt|]; [|by right; eexists].
    pose proof (Nat.Div0.mul_div_le (len - 1) 2). left.
    destruct (lookup_in k (first + 2 * (h + 1)) ltac:(lia)) as [x Hx].
    destruct (lookup_in k (first + (2 * (h + 1) - 1)) ltac:(lia)) as [y Hy].
    rewrite (index_ok _ _ _ Hx), (index_ok _ _ _ Hy). ostep.
    assert ((2 * (h + 1) - 1) / 2 = h) by (symmetry; apply (Nat.div_unique _ _ _ 1); lia).
    assert ((2 * (h + 1) - 1 - 1) / 2 = h) by (symmetry; apply (Nat.div_unique _ _ _ 0); lia).
    destruct (less x y) eqn:Exy; [rewrite (index_ok _ _ _ Hy)|rewrite (index_ok _ _ _ Hx)]; ostep;
      rewrite store_ok by lia; eexists; (split; [done|]); simpl; (split; [|lia]).
    - apply (heap_inv_down _ _ _ _ _ _ h _ y); [done|lia|done|done|].
      intros j w Hj Hpj Hw. destruct (child_parent j h ltac:(lia) Hpj) as [->| ->].
      + replace (2 * h + 1) with (2 * (h + 1) - 1) in Hw by lia. simplify_eq. apply le_refl.
      + replace (2 * h + 2) with (2 * (h + 1)) in Hw by lia. simplify_eq. by apply le_of_less.
    - apply (heap_inv_down _ _ _ _ _ _ h _ x); [done|lia|done|done|].
      intros j w Hj Hpj Hw. destruct (child_parent j h ltac:(lia) Hpj) as [->| ->].
      + by replace (2 * h + 1) with (2 * (h + 1) - 1) in Hw by lia; simplify_eq.
      + replace (2 * h + 2) with (2 * (h + 1)) in Hw by lia. simplify_eq. apply le_refl. }
  cbn [fst snd] in HI, Hleaf. exists l1, h1. pose proof (hi_range _ _ _ _ _ _ _ HI). pose proof (hi_len _ _ _ _ _ _ _ HI).
  pose proof (Nat.div_mod_eq (len - 1) 2). pose proof (Nat.mod_upper_bound (len - 1) 2 ltac:(lia)).
  unfold last_child. destruct (Nat.even len && (h1 =? (len - 2) / 2)) eqn:Elast.
  - apply andb_true_iff in Elast as [[m2 Em]%Nat.even_spec Eh%Nat.eqb_eq].
    assert ((len - 2) / 2 = m2 - 1) as Ed by (symmetry; apply (Nat.div_unique _ _ _ 0); lia).
    destruct (lookup_in l1 (first + (2 * (h1 + 1) - 1)) ltac:(lia)) as [y Hy].
    rewrite (index_ok _ _ _ Hy). ostep. rewrite store_ok by lia.
    eexists _, _. split; [done|]. split; [done|]. split; [|lia].
    apply (heap_inv_down _ _ _ _ _ _ h1 _ y); [done|lia| |done|].
    + symmetry. apply (Nat.div_unique _ _ _ 0); lia.
    + intros j w Hj Hpj Hw. destruct (child_parent j h1 ltac:(lia) Hpj) as [->| ->]; [|lia].
      replace (2 * h1 + 1) with (2 * (h1 + 1) - 1) in Hw by lia. simplify_eq. apply le_refl.
  - exists l1, h1. split; [done|]. split; [done|]. split; [done|].
    destruct (Nat.even len) eqn:Ev.
    + apply Nat.even_spec in Ev as [m2 Em]. apply Nat.eqb_neq in Elast.
      assert ((len - 2) / 2 = m2 - 1) as Ed by (symmetry; apply (Nat.div_unique _ _ _ 0); lia). lia.
    + assert (Nat.odd len = true) as [m2 Em]%Nat.odd_spec by (by rewrite <- Nat.negb_even, Ev). lia.
Qed.

(** The second part takes it up again to the place of the value. *)
Lemma push_ok m first top len v l h : heap_inv m first top len v l h -> len <= 2 * h + 1 ->
  exists l' h', loop (S len) (push_step less first top v) (l, h) = Ok (l', h') /\
    first + h' < length l' /\ permutes (first + top) (first + len) m (plug l' first h' v) /\
    heap_from (plug l' first h' v) first top len.
Proof.
  intros HI0 Hleaf.
  destruct (loop_inv (fun st => heap_inv m first top len v st.1 st.2 /\
      forall j y, 0 < j < len -> (j - 1) / 2 = st.2 -> st.1 !! (first + j) = Some y -> leq y v)
    (fun r => first + r.2 < length r.1 /\ permutes (first + top) (first + len) m (plug r.1 first r.2 v) /\
      heap_from (plug r.1 first r.2 v) first top len) (fun st => st.2)
    (push_step less first top v) (S len) (l, h)) as ([l' h'] & E & H); [| | |by eauto].
  { split; [done|]. intros j y Hj Hp. destruct (child_parent j h ltac:(lia) Hp); lia. }
  { pose proof (hi_range _ _ _ _ _ _ _ HI0). simpl. lia. }
  intros [k g] [HI Hkids]. cbn [fst snd] in HI, Hkids. destruct HI as [HP HH HU HR HL]. unfold push_step.
  destruct (Nat.ltb_spec top g) as [Hgt|Hge].
  - pose proof (parent_lt g ltac:(lia)) as Hpar. destruct (lookup_in k (first + (g - 1) / 2) ltac:(lia)) as [x Hx].
    rewrite (index_ok _ _ _ Hx). ostep. destruct (less x v) eqn:Ex.
    + left. rewrite store_ok by lia. eexists. split; [done|]. cbn [fst snd]. split; [|done].
      pose proof (holed_heap _ _ _ _ _ HH Hgt) as Hheap.
      pose proof (under_up _ _ HU Hgt) as HU'. pose proof (under_le _ _ HU').
      assert (forall j y, 0 < j < len -> (j - 1) / 2 = g -> k !! (first + j) = Some y -> leq y x) as Hbelow.
      { intros j y Hj Hp Hy. destruct (lookup_in k (first + g) ltac:(lia)) as [w Hw].
        apply (le_trans _ w); [apply (Hheap j)|apply (Hheap g)]; rewrite ?Hp; solve [done|lia]. }
      split; [split|].
      * apply (permutes_trans _ _ _ _ _ HP). apply plug_move; [done|lia..].
      * apply heap_holed, heap_fill; [done|lia|done|]. intros z _ _ Hz. simplify_eq. apply le_refl.
      * done.
      * lia.
      * by rewrite length_insert.
      * intros j y Hj Hp Hy. destruct (decide (j = g)) as [->|].
        -- rewrite list_lookup_insert_eq in Hy by lia. simplify_eq. by apply le_of_less.
        -- rewrite list_lookup_insert_ne in Hy by lia. apply (le_trans _ x); [|by apply le_of_less].
           apply (Hheap j); rewrite ?Hp; solve [done|lia].
    + right. eexists. split; [done|]. cbn [fst snd]. split; [lia|]. split; [done|].
      apply heap_fill; [done|lia|done|]. intros z _ _ Hz. by simplify_eq.
  - right. eexists. split; [done|]. cbn [fst snd]. split; [lia|]. split; [done|].
    apply heap_fill; [done|lia|done|]. intros z Hg0 Hk. pose proof (parent_lt g Hg0). lia.
Qed.

Lemma adjust_heap_ok l first top len v : top < len -> first + len <= length l -> heap_from l first (S top) len ->
  exists l', adjust_heap less l first top len v = Ok l' /\
    permutes (first + top) (first + len) (plug l first top v) l' /\ heap_from l' first top len.
Proof.
  intros Htop Hlen Hheap.
  destruct (sift_ok (plug l first top v) first top len v l) as (l1 & h1 & l2 & h2 & E1 & E2 & HI & Hleaf).
  { split; [apply permutes_refl|unfold holed; by rewrite Nat.eqb_refl|constructor|lia|done]. }
  destruct (push_ok _ _ _ _ _ _ _ HI Hleaf) as (l3 & h3 & E3 & Hh & HP & HH).
  exists (plug l3 first h3 v). split; [|done].
  unfold adjust_heap. rewrite E1. ostep. rewrite E2. ostep. rewrite E3. ostep. by apply store_ok.
Qed.

Lemma build_heap_ok l first len parent : parent < len -> first + len <= length l ->
  heap_from l first (S parent) len ->
  exists l', build_heap less l first len parent = Ok l' /\ permutes first (first + len) l l' /\
    heap_from l' first 0 len.
Proof.
  revert l. induction parent as [|parent IH]; intros l Hp Hlen Hheap; simpl.
  - destruct (lookup_in l (first + 0) ltac:(lia)) as [v Hv]. rewrite (index_ok _ _ _ Hv). ostep.
    destruct (adjust_heap_ok l first 0 len v) as (l1 & -> & HP & HH); [lia|done|done|].
    ostep. exists l1. split; [done|]. split; [|done]. unfold plug in HP. rewrite list_insert_id in HP by done.
    by rewrite Nat.add_0_r in HP.
  - destruct (lookup_in l (first + S parent) ltac:(lia)) as [v Hv]. rewrite (index_ok _ _ _ Hv). ostep.
    destruct (adjust_heap_ok l first (S parent) len v) as (l1 & -> & HP & HH); [lia|done|done|].
    ostep. unfold plug in HP. rewrite list_insert_id in HP by done.
    destruct (IH l1) as (l2 & -> & HP2 & HH2); [lia|by rewrite (permutes_length _ _ _ _ HP)|done|].
    exists l2. split; [done|]. split; [|done]. refine (permutes_trans _ _ _ _ _ _ HP2).
    apply (permutes_wider (first + S parent) (first + len)); [lia|lia|done].
Qed.

(** The root of a heap is its largest element. *)
Lemma heap_max l first len x : heap_from l first 0 len -> l !! first = Some x -> first + len <= length l ->
  forall i y, i < len -> l !! (first + i) = Some y -> leq y x.
Proof.
  intros Hheap Hx Hlen i. induction (lt_wf i) as [i _ IH]. intros y Hi Hy.
  destruct (decide (i = 0)) as [->|Hpos].
  { rewrite Nat.add_0_r in Hy. simplify_eq. apply le_refl. }
  pose proof (parent_lt i ltac:(lia)) as Hlt.
  destruct (lookup_in l (first + (i - 1) / 2) ltac:(lia)) as [z Hz].
  apply (le_trans _ z); [apply (Hheap i); [lia..|done|done]|apply (IH ((i - 1) / 2)); [done|lia|done]].
Qed.

(** The state of the second loop: [count] elements in a heap, the largest ones
    behind them in order. *)
Record pop_inv (first hi : nat) (l : list T) (count : nat) : Prop := {
  po_heap : heap_from l first 0 count;
  po_tail : apart less 1 (first + count) hi l;
  po_cross : forall i j x y, first <= i < first + count -> first + count <= j < hi ->
    l !! i = Some x -> l !! j = Some y -> leq x y
}.

Lemma pop_step l first hi count top value : pop_inv first hi l (S count) -> first + S count <= hi -> hi <= length l ->
  0 < count -> l !! first = Some top -> l !! (first + count) = Some value ->
  exists l', adjust_heap less (<[first + count := top]> l) first 0 count value = Ok l' /\
    permutes first (first + S count) l l' /\ pop_inv first hi l' count.
Proof.
  intros [HH HT HC] Hhi Hlen Hpos Htop Hval. set (m := <[first + count := top]> l).
  destruct (adjust_heap_ok m first 0 count value) as (l1 & -> & HP & HH1).
  { lia. } { unfold m. rewrite length_insert. lia. }
  { intros j x y Hj Hk. pose proof (parent_lt j ltac:(lia)). unfold m.
    rewrite !list_lookup_insert_ne by lia. apply HH; lia. }
  exists l1. split; [done|]. rewrite Nat.add_0_r in HP.
  assert (permutes first (first + S count) l l1) as HP1.
  { apply (permutes_trans _ _ _ (plug m first 0 value)).
    - unfold plug, m. rewrite Nat.add_0_r, list_insert_insert_ne by lia.
      apply permutes_swap; [done|done|lia|lia].
    - apply (permutes_wider first (first + count)); [lia|lia|done]. }
  split; [done|].
  assert (l1 !! (first + count) = Some top) as Hend.
  { rewrite (proj2 HP) by lia. unfold plug, m. rewrite list_lookup_insert_ne, list_lookup_insert_eq by lia. done. }
  split; [done| |].
  - intros i j x y Hi Hij Hj Hx Hy. rewrite (proj2 HP1) in Hy by lia.
    destruct (decide (i = first + count)) as [->|].
    + simplify_eq. apply (HC first j); [lia|lia|done|done].
    + rewrite (proj2 HP1) in Hx by lia. apply (HT i j); [lia|lia|done|done|done].
  - intros i j x y Hi Hj Hx Hy.
    destruct (permutes_from _ _ _ _ i _ HP1 ltac:(lia) Hx) as (k & Hk & Hkx).
    destruct (decide (j = first + count)) as [->|].
    + simplify_eq. apply (heap_max l first (S count) top HH Htop ltac:(lia) (k - first)); [lia|].
      by replace (first + (k - first)) with k by lia.
    + rewrite (proj2 HP1) in Hy by lia. apply (HC k j); [lia|lia|done|done].
Qed.

Lemma pop_all_ok l first hi count : pop_inv first hi l count -> first + count <= hi -> hi <= length l ->
  exists l', pop_all less l first count = Ok l' /\ permutes first (first + count) l l' /\ apart less 1 first hi l'.
Proof.
  revert l. induction count as [|count IH]; intros l HI Hhi Hlen.
  { exists l. split; [done|]. split; [done|]. pose proof (po_tail _ _ _ _ HI) as HT.
    by rewrite Nat.add_0_r in HT. }
  destruct count as [|count].
  { exists l. split; [done|]. split; [done|]. destruct HI as [_ HT HC]. intros i j x y Hi Hij Hj Hx Hy.
    destruct (decide (i = first)) as [->|]; [apply (HC first j)|apply (HT i j)]; solve [lia|done]. }
  destruct (lookup_in l first ltac:(lia)) as [top Htop].
  destruct (lookup_in l (first + S count) ltac:(lia)) as [value Hval].
  destruct (pop_step l first hi (S count) top value HI) as (l1 & E & HP & HI1); [lia|lia|lia|done|done|].
  destruct (IH l1 HI1) as (l2 & E2 & HP2 & HS); [lia|by rewrite (permutes_length _ _ _ _ HP)|].
  exists l2. split; [|split; [|done]].
  - change (pop_all less l first (S (S count))) with
      (let! value := index l (first + S count) in let! top := index l first in
       let! l := store l (first + S count) top in let! l := adjust_heap less l first 0 (S count) value in
       pop_all less l first (S count)).
    rewrite (index_ok _ _ _ Hval), (index_ok _ _ _ Htop). ostep. rewrite store_ok by lia. ostep. by rewrite E.
  - apply (permutes_trans _ _ _ _ _ HP), (permutes_wider first (first + S count)); [lia|lia|done].
Qed.

Lemma heap_sort_ok l first last : first <= last -> last <= length l ->
  exists l', heap_sort_range less l first last = Ok l' /\ permutes first last l l' /\ apart less 1 first last l'.
Proof.
  intros Hfl Hlen. unfold heap_sort_range. rewrite usub_ok by done. ostep.
  set (len := last - first). assert (first + len = last) as Hlast by lia.
  assert (exists l1, (if 2 <=? len then build_heap less l first len ((len - 2) / 2) else Ok l) = Ok l1 /\
    permutes first last l l1 /\ heap_from l1 first 0 len) as (l1 & -> & HP & HH).
  { destruct (Nat.leb_spec 2 len).
    - destruct (build_heap_ok l first len ((len - 2) / 2)) as (l1 & E & HP & HH).
      + apply Nat.Div0.div_lt_upper_bound. lia.
      + lia.
      + intros j x y Hj Hk. assert ((j - 1) / 2 <= (len - 2) / 2) by (apply Nat.Div0.div_le_mono; lia). lia.
      + rewrite Hlast in HP. eauto.
    - exists l. split; [done|]. split; [done|]. intros j x y Hj. lia. }
  ostep. destruct (pop_all_ok l1 first last len) as (l2 & -> & HP2 & HS).
  - split; [done| |]; intros i j; lia.
  - lia.
  - by rewrite (permutes_length _ _ _ _ HP).
  - exists l2. split; [done|]. split; [|done]. rewrite Hlast in HP2. by apply (permutes_trans _ _ _ l1).
Qed.

(** *** The quicksort *)

Lemma introsort_loop_ok depth l first last : first <= last -> last <= length l ->
  exists l', introsort_loop less depth l first last = Ok l' /\ permutes first last l l' /\
    apart less SORT_THRESHOLD first last l'.
Proof.
  revert l first last. induction depth as [|depth IH]; intros l first last Hfl Hlen; simpl;
    rewrite usub_ok by done; ostep; destruct (Nat.ltb_spec SORT_THRESHOLD (last - first)) as [Hw|Hw].
  all: try (exists l; split; [done|]; split; [done|]; intros i j x y; lia).
  - destruct (heap_sort_ok l first last Hfl Hlen) as (l' & -> & HP & HS).
    exists l'. split; [done|]. split; [done|]. intros i j x y ??? Hx. apply (HS i j); [done|unfold SORT_THRESHOLD in *; lia|done|done].
  - destruct (partition_pivot_ok l first last) as (l1 & cut & p & -> & HP1 & Hcut & HL & HH); [lia|done|].
    ostep. pose proof (permutes_length _ _ _ _ HP1).
    destruct (IH l1 cut last) as (l2 & -> & HP2 & HA2); [lia|lia|]. ostep. pose proof (permutes_length _ _ _ _ HP2).
    destruct (IH l2 first cut) as (l3 & -> & HP3 & HA3); [lia|lia|].
    exists l3. split; [done|]. split.
    { apply (permutes_trans _ _ _ _ _ HP1), (permutes_trans _ _ _ l2).
      - apply (permutes_wider cut last); [lia|lia|done].
      - apply (permutes_wider first cut); [lia|lia|done]. }
    intros i j x y Hi Hij Hj Hx Hy. destruct (decide (j < cut)).
    { apply (HA3 i j); [lia|lia|lia|done|done]. }
    rewrite (proj2 HP3) in Hy by lia. destruct (decide (i < cut)).
    + destruct (permutes_from _ _ _ _ i _ HP3 ltac:(lia) Hx) as (i1 & Hi1 & Hx1).
      rewrite (proj2 HP2) in Hx1 by lia.
      destruct (permutes_from _ _ _ _ j _ HP2 ltac:(lia) Hy) as (j1 & Hj1 & Hy1).
      apply (le_trans _ p); [by apply (HL i1)|by apply (HH j1)].
    + rewrite (proj2 HP3) in Hx by lia. apply (HA2 i j); [lia|lia|lia|done|done].
Qed.

(** *** The insertion sort *)

Lemma rotate_ok l a b v : a <= b -> l !! b = Some v ->
  exists l', rotate_right l a b = Ok l' /\ permutes a (S b) l l' /\ l' !! a = Some v /\
    forall i, a < i <= b -> l' !! i = l !! (i - 1).
Proof.
  intros Hab Hv. pose proof (lookup_lt_Some _ _ _ Hv) as Hlen.
  unfold rotate_right. rewrite (index_ok _ _ _ Hv). ostep. rewrite (proj2 (Nat.leb_le a b)) by done.
  set (mid := take (b - a) (drop a l)).
  assert (length mid = b - a) as Hmid by (unfold mid; rewrite length_take, length_drop; lia).
  assert (l = take a l ++ mid ++ v :: drop (S b) l) as Hl.
  { unfold mid. rewrite <- (take_drop a l) at 1. f_equal.
    etrans; [symmetry; apply (take_drop_middle (drop a l) (b - a) v)|].
    - rewrite lookup_drop. by replace (a + (b - a)) with b by lia.
    - rewrite drop_drop. do 3 f_equal. lia. }
  eexists. split; [done|]. assert (length (take a l) = a) as Ha by (rewrite length_take; lia). split; [split|split].
  - rewrite Hl at 1. by rewrite <- Permutation_middle.
  - intros i [Hi|Hi].
    + rewrite lookup_app_l by lia. by rewrite lookup_take_lt.
    + rewrite lookup_app_r by lia. rewrite lookup_cons_ne_0 by lia. rewrite lookup_app_r by lia.
      rewrite lookup_drop. f_equal. lia.
  - rewrite lookup_app_r by lia. by rewrite Ha, Nat.sub_diag.
  - intros i Hi. rewrite lookup_app_r by lia. rewrite lookup_cons_ne_0, lookup_app_l by lia.
    unfold mid. rewrite lookup_take_lt, lookup_drop by lia. f_equal. lia.
Qed.

(** A value moved between what is at most it and what is at least it keeps the
    run in order. *)
Lemma rotate_sorted l lo h last v : lo <= h <= last -> l !! last = Some v -> apart less 1 lo last l ->
  (forall i x, lo <= i < h -> l !! i = Some x -> leq x v) ->
  (forall i x, h <= i < last -> l !! i = Some x -> leq v x) ->
  exists l', rotate_right l h last = Ok l' /\ permutes lo (S last) l l' /\ apart less 1 lo (S last) l'.
Proof.
  intros Hh Hv HS Hlow Hhigh. destruct (rotate_ok l h last v ltac:(lia) Hv) as (l' & E & HP & Hhole & Hmoved).
  exists l'. split; [done|]. split; [apply (permutes_wider h (S last)); [lia|lia|done]|].
  intros i j x y Hi Hij Hj Hx Hy.
  destruct (decide (j < h)) as [|Hjh].
  { rewrite (proj2 HP) in Hx, Hy by lia. apply (HS i j); [lia|lia|lia|done|done]. }
  destruct (decide (j = h)) as [->|].
  { simplify_eq. rewrite (proj2 HP) in Hx by lia. apply (Hlow i); [lia|done]. }
  rewrite Hmoved in Hy by lia. destruct (decide (i = h)) as [->|].
  { simplify_eq. apply (Hhigh (j - 1)); [lia|done]. }
  destruct (decide (i < h)).
  - rewrite (proj2 HP) in Hx by lia. apply (HS i (j - 1)); [lia|lia|lia|done|done].
  - rewrite Hmoved in Hx by lia. apply (HS (i - 1) (j - 1)); [lia|lia|lia|done|done].
Qed.

Lemma find_hole_ok l v lo hole : lo <= hole -> hole <= length l ->
  exists h, find_hole less l v lo hole = Ok h /\ lo <= h <= hole /\
    (forall i x, h <= i < hole -> l !! i = Some x -> leq v x) /\
    (h = lo \/ exists x, l !! (h - 1) = Some x /\ leq x v).
Proof.
  induction hole as [|hole IH]; intros Hlo Hlen; simpl.
  { exists 0. split; [done|]. split; [lia|]. split; [lia|]. left. lia. }
  destruct (Nat.ltb_spec lo (S hole)).
  - destruct (lookup_in l hole ltac:(lia)) as [x Hx]. rewrite (index_ok _ _ _ Hx). ostep.
    destruct (less v x) eqn:Ev.
    + destruct IH as (h & -> & Hh & Hab & Hst); [lia|lia|]. exists h. split; [done|]. split; [lia|]. split; [|done].
      intros i y Hi Hy. destruct (decide (i = hole)) as [->|]; [|apply (Hab i); [lia|done]].
      simplify_eq. by apply le_of_less.
    + exists (S hole). split; [done|]. split; [lia|]. split; [lia|]. right. exists x.
      by rewrite Nat.sub_succ, Nat.sub_0_r.
  - exists (S hole). split; [done|]. split; [lia|]. split; [lia|]. left. lia.
Qed.

Lemma linear_insert_ok l last lo : lo <= last -> last < length l -> apart less 1 lo last l ->
  exists l', unguarded_linear_insert less l last lo = Ok l' /\ permutes lo (S last) l l' /\ apart less 1 lo (S last) l'.
Proof.
  intros Hlo Hlen HS. unfold unguarded_linear_insert.
  destruct (lookup_in l last Hlen) as [v Hv]. rewrite (index_ok _ _ _ Hv). ostep.
  destruct (find_hole_ok l v lo last Hlo ltac:(lia)) as (h & -> & Hh & Hab & Hst). ostep.
  apply (rotate_sorted _ _ _ _ v); [done|done|done| |done].
  intros i x Hi Hx. destruct Hst as [->|(y & Hy & Hyv)]; [lia|].
  destruct (decide (i = h - 1)) as [->|]; [by simplify_eq|].
  apply (le_trans _ y); [|done]. apply (HS i (h - 1)); [lia|lia|lia|done|done].
Qed.

Lemma insertion_step_ok l first position : first < position -> position < length l -> apart less 1 first position l ->
  exists l', insertion_step less first position l = Ok l' /\ permutes first (S position) l l' /\
    apart less 1 first (S position) l'.
Proof.
  intros Hlt Hlen HS. unfold insertion_step.
  destruct (lookup_in l position Hlen) as [x Hx]. destruct (lookup_in l first ltac:(lia)) as [y Hy].
  rewrite (index_ok _ _ _ Hx), (index_ok _ _ _ Hy). ostep. destruct (less x y) eqn:E.
  - apply (rotate_sorted _ _ _ _ x); [lia|done|done|lia|]. intros i z Hi Hz.
    apply (le_trans _ y); [by apply le_of_less|]. destruct (decide (i = first)) as [->|].
    + simplify_eq. apply le_refl.
    + apply (HS first i); [lia|lia|lia|done|done].
  - apply linear_insert_ok; [lia|done|done].
Qed.

(** The loop that inserts the elements from [lo] to [hi] one after the other. *)
Lemma insert_all_ok (body : nat -> list T -> outcome (list T)) l first lo hi : first <= lo <= hi -> hi <= length l ->
  apart less 1 first lo l ->
  (forall i k, lo <= i < hi -> length k = length l -> apart less 1 first i k ->
    exists k', body i k = Ok k' /\ permutes first (S i) k k' /\ apart less 1 first (S i) k') ->
  exists l', for_up (hi - lo) lo body l = Ok l' /\ permutes first hi l l' /\ apart less 1 first hi l'.
Proof.
  intros Hr Hlen HS Hbody.
  destruct (for_up_inv (fun i k => permutes first hi l k /\ apart less 1 first i k) body (hi - lo) lo l)
    as (l' & E & HP & HA); [done| |].
  - intros i k Hi [HP HA]. destruct (Hbody i k) as (k' & -> & HP' & HA'); [lia|by apply permutes_length in HP|done|].
    exists k'. split; [done|]. split; [|done]. apply (permutes_trans _ _ _ _ _ HP).
    apply (permutes_wider first (S i)); [lia|lia|done].
  - exists l'. replace (lo + (hi - lo)) with hi in HA by lia. done.
Qed.

Lemma insertion_sort_ok l first last : first <= last -> last <= length l ->
  exists l', insertion_sort less l first last = Ok l' /\ permutes first last l l' /\ apart less 1 first last l'.
Proof.
  intros Hfl Hlen. unfold insertion_sort. destruct (Nat.eqb_spec first last) as [->|].
  { exists l. split; [done|]. split; [done|]. intros i j; lia. }
  apply insert_all_ok; [lia|done|intros i j; lia|].
  intros i k Hi Hk HA. apply insertion_step_ok; [lia|lia|done].
Qed.

Lemma final_insertion_sort_ok l first last : first <= last -> last <= length l ->
  exists l', final_insertion_sort less l first last = Ok l' /\ permutes first last l l' /\ apart less 1 first last l'.
Proof.
  intros Hfl Hlen. unfold final_insertion_sort. rewrite usub_ok by done. ostep.
  destruct (Nat.ltb_spec SORT_THRESHOLD (last - first)); [|by apply insertion_sort_ok].
  destruct (insertion_sort_ok l first (first + SORT_THRESHOLD)) as (l1 & -> & HP & HA); [lia|lia|]. ostep.
  pose proof (permutes_length _ _ _ _ HP) as Hl1.
  destruct (insert_all_ok (fun i k => unguarded_linear_insert less k i first) l1 first (first + SORT_THRESHOLD) last)
    as (l2 & -> & HP2 & HA2); [lia|lia|done| |].
  - intros i k Hi Hk HA'. apply linear_insert_ok; [lia|lia|done].
  - exists l2. split; [done|]. split; [|done]. refine (permutes_trans _ _ _ _ _ _ HP2).
    apply (permutes_wider first (first + SORT_THRESHOLD)); [lia|lia|done].
Qed.

End Correct.

(** ** Properties *)

(** C23: with a strict weak order, [std_sort] returns, without a panic, a
    permutation of the slice in which no element is less than one before it. *)
Theorem std_sort_correct {T} (less : T -> T -> bool) (l : list T) : StrictWeak less ->
  exists l', std_sort less l = Ok l' /\ l ≡ₚ l' /\ sorted less l'.
Proof.
  intros HW. unfold std_sort. destruct (Nat.eqb_spec (length l) 0) as [E|].
  { apply nil_length_inv in E as ->. exists []. split; [done|]. split; [done|]. intros i j x y. simpl. lia. }
  destruct (introsort_loop_ok less (2 * Nat.log2 (length l)) l 0 (length l)) as (l1 & -> & HP & _); [lia|done|].
  ostep. pose proof (permutes_length _ _ _ _ HP) as Hl1. rewrite <- Hl1.
  destruct (final_insertion_sort_ok less l1 0 (length l1)) as (l2 & -> & HP2 & HA); [lia|done|].
  exists l2. split; [done|]. split; [etrans; [apply HP|apply HP2]|].
  unfold sorted. by rewrite (permutes_length _ _ _ _ HP2).
Qed.

Lemma std_sort_correct_witness : exists l', std_sort Nat.ltb [3; 1; 2] = Ok l' /\ [3; 1; 2] ≡ₚ l' /\ sorted Nat.ltb l'.
Proof. exact (std_sort_correct Nat.ltb [3; 1; 2] ltb_strict_weak). Defined.

(** [introsort_loop] on its own, at any depth limit, permutes the range it
    is given, leaves the rest of the slice alone, and orders every two elements
    of it that are [SORT_THRESHOLD] or more places apart; the heap sort it
    falls back on orders the whole range. *)
Theorem introsort_loop_correct {T} (less : T -> T -> bool) (depth_limit : nat) (l : list T) (first last : nat) :
  StrictWeak less -> first <= last -> last <= length l ->
  (exists l', introsort_loop less depth_limit l first last = Ok l' /\ permutes first last l l' /\
    apart less SORT_THRESHOLD first last l') /\
  (exists l', heap_sort_range less l first last = Ok l' /\ permutes first last l l' /\ apart less 1 first last l').
Proof. intros HW ??. split; [by apply introsort_loop_ok|by apply heap_sort_ok]. Qed.

Lemma introsort_loop_correct_witness : let l := reverse (seq 0 20) in
  (exists l', introsort_loop Nat.ltb 0 l 1 19 = Ok l' /\ permutes 1 19 l l' /\
    apart Nat.ltb SORT_THRESHOLD 1 19 l') /\
  (exists l', heap_sort_range Nat.ltb l 1 19 = Ok l' /\ permutes 1 19 l l' /\ apart Nat.ltb 1 1 19 l').
Proof. apply (introsort_loop_correct Nat.ltb 0 (reverse (seq 0 20)) 1 19 ltb_strict_weak); simpl; lia. Defined.

(** [std_partial_sort_full], the heap sort of the whole slice, returns a
    sorted permutation of it. *)
Theorem std_partial_sort_correct {T} (less : T -> T -> bool) (l : list T) : StrictWeak less ->
  exists l', std_partial_sort_full less l = Ok l' /\ l ≡ₚ l' /\ sorted less l'.
Proof.
  intros HW. destruct (heap_sort_ok less l 0 (length l)) as (l' & E & HP & HA); [lia|done|].
  exists l'. split; [done|]. split; [apply HP|]. unfold sorted. by rewrite (permutes_length _ _ _ _ HP).
Qed.

Lemma std_partial_sort_correct_witness : exists l', std_partial_sort_full Nat.ltb [3; 1; 2] = Ok l' /\
  [3; 1; 2] ≡ₚ l' /\ sorted Nat.ltb l'.
Proof. exact (std_partial_sort_correct Nat.ltb [3; 1; 2] ltb_strict_weak). Defined.
