(* ===== verification/RangeMap.v ===== *)
(** [RangeMap] of [src/src/rangemap.rs]: records that cover intervals of a line
    and may overlap.  The map cuts the line into disjoint intervals and keeps,
    in a vector sorted by the end of the interval and a key of the record, one
    entry per interval and record that covers it.  This file holds the
    definitions, for the line [u64]; the theorems are in [RangeTree] (lookup and
    the cutting of intervals) and [RangeInsert] (insertion). *)
From stdpp Require Import base list numbers gmap.
From Stdlib Require Import ZArith Lia.
From S2P Require Import Prelude BTree Arena OpList.
Local Open Scope Z_scope.
Local Open Scope rust_scope.

(** ** Definitions *)

(** [RangeLine] for [u64]. *)
Definition plus_one (x : Z) : Z := u64 (x + 1).
Definition minus_one (x : Z) : Z := u64 (x - 1).

(** The traits [RangeSubsort] and [RangeRecord]. *)
Class RangeRecord (R Init S : Type) `{OrdKey S} : Type := {
  from_bool : bool -> S;
  new_record : Init -> Z -> Z -> R;
  get_first : R -> Z;
  get_last : R -> Z;
  get_subsort : R -> S
}.

Record AddrRange (S : Type) : Type := mk_AddrRange {
  part_first : Z;
  part_last : Z;
  part_a : Z;
  part_b : Z;
  subsort : S;
  part_value : nat
}.
Arguments mk_AddrRange {S} _ _ _ _ _ _.
Arguments part_first {S} _.
Arguments part_last {S} _.
Arguments part_a {S} _.
Arguments part_b {S} _.
Arguments subsort {S} _.
Arguments part_value {S} _.

(** A node of the list of records.  The source's array of links has one slot,
    the one the map's list uses. *)
Record RecordNode (R : Type) : Type := mk_RecordNode { record : R; node_links : gmap nat ListLinks }.
Arguments mk_RecordNode {R} _ _.
Arguments record {R} _.
Arguments node_links {R} _.

#[export] Instance record_linked {R} : LinkedNode (RecordNode R).
Proof.
  refine {| links t s := default links_default (node_links t !! s);
            set_links t s l := mk_RecordNode (record t) (<[s := l]> (node_links t)) |}.
  - intros t s l. simpl. by rewrite lookup_insert_eq.
  - intros t s s' l Hne. simpl. by rewrite lookup_insert_ne.
Defined.

Record RangeMap (R S : Type) : Type := mk_RangeMap {
  tree : list (AddrRange S);
  records : Arena (RecordNode R);
  record_list : IntrusiveList
}.
Arguments mk_RangeMap {R S} _ _ _.
Arguments tree {R S} _.
Arguments records {R S} _.
Arguments record_list {R S} _.

(** [Vec::insert], [Vec::remove] and [slice::partition_point] of a slice that is
    partitioned. *)
Definition vec_insert {A} (l : list A) (pos : nat) (x : A) : outcome (list A) :=
  if decide (pos <= length l)%nat then Ok (take pos l ++ x :: drop pos l) else Panic.

Definition vec_remove {A} (l : list A) (pos : nat) : outcome (list A) :=
  if decide (pos < length l)%nat then Ok (delete pos l) else Panic.

Fixpoint partition_point {A} (pred : A -> bool) (l : list A) : nat :=
  match l with
  | [] => 0
  | x :: l => if pred x then S (partition_point pred l) else 0
  end.

Section Tree.
Context {S : Type} `{OrdKey S}.
Implicit Types (t : list (AddrRange S)) (range : AddrRange S).

Definition compare_key range (last : Z) (sub : S) : comparison :=
  cmp_then (Z.compare (part_last range) last) (kcmp (subsort range) sub).

Definition key_less range (last : Z) (sub : S) : bool :=
  match compare_key range last sub with Lt => true | _ => false end.

Definition key_not_greater range (last : Z) (sub : S) : bool :=
  match compare_key range last sub with Gt => false | _ => true end.

Definition lower_bound t (last : Z) (sub : S) : nat := partition_point (fun range => key_less range last sub) t.

Definition upper_bound t (last : Z) (sub : S) : nat := partition_point (fun range => key_not_greater range last sub) t.

Definition insert_plain t range : outcome (list (AddrRange S) * nat) :=
  let pos := upper_bound t (part_last range) (subsort range) in
  let! t := vec_insert t pos range in
  Ok (t, pos).

(** The closure [less] of [insert_hint]. *)
Definition range_less (one two : AddrRange S) : bool := key_less one (part_last two) (subsort two).

Definition hint_position t (hint : nat) range : outcome nat :=
  let len := length t in
  if (hint =? len)%nat then
    if (0 <? len)%nat then
      let! prev := index t (len - 1) in
      if negb (range_less range prev) then Ok len else Ok (upper_bound t (part_last range) (subsort range))
    else Ok (upper_bound t (part_last range) (subsort range))
  else
    let! here := index t hint in
    if negb (range_less here range) then
      if (hint =? 0)%nat then Ok 0%nat
      else
        let! prev := index t (hint - 1) in
        if negb (range_less range prev) then Ok hint else Ok (upper_bound t (part_last range) (subsort range))
    else if (hint =? len - 1)%nat then Ok len
    else
      let! next := index t (hint + 1) in
      if negb (range_less next range) then Ok (hint + 1)%nat
      else Ok (lower_bound t (part_last range) (subsort range)).

Definition insert_hint t (hint : nat) range : outcome (list (AddrRange S) * nat) :=
  let! pos := hint_position t hint range in
  let! t := vec_insert t pos range in
  Ok (t, pos).

(** The entry with another start, or another interval. *)
Definition with_first range (f : Z) : AddrRange S :=
  mk_AddrRange f (part_last range) (part_a range) (part_b range) (subsort range) (part_value range).

Definition with_interval range (f l : Z) : AddrRange S :=
  mk_AddrRange f l (part_a range) (part_b range) (subsort range) (part_value range).

(** The two loops of [zip], on the entries from [iter] on. *)
Fixpoint drop_ending (line : Z) t : list (AddrRange S) :=
  match t with
  | [] => []
  | range :: rest => if part_last range =? line then drop_ending line rest else t
  end.

Fixpoint move_start (line first_value : Z) t : list (AddrRange S) :=
  match t with
  | [] => []
  | range :: rest =>
      if part_first range =? line then with_first range first_value :: move_start line first_value rest else t
  end.

Definition zip t (line : Z) (iter : nat) : outcome (list (AddrRange S)) :=
  let! range := index t iter in
  Ok (take iter t ++ move_start (plus_one line) (part_first range) (drop_ending line (drop iter t))).

(** A round of the loop of [unzip]: the tree, [iter], [hint] and [inserted]. *)
Definition unzip_step (line : Z) (st : list (AddrRange S) * nat * nat * nat)
    : outcome (list (AddrRange S) * nat * nat * nat + list (AddrRange S) * nat) :=
  let '(t, iter, hint, inserted) := st in
  if (iter =? length t)%nat then Ok (inr (t, inserted))
  else
    let! range := index t iter in
    if line <? part_first range then Ok (inr (t, inserted))
    else
      let! t := store t iter (with_first range (plus_one line)) in
      let! (t, pos) := insert_hint t hint (with_interval range (part_first range) line) in
      let hint := if (pos <=? hint)%nat then (hint + 1)%nat else hint in
      let iter := if (pos <=? iter)%nat then (iter + 1)%nat else iter in
      Ok (inl (t, (iter + 1)%nat, hint, (inserted + 1)%nat)).

Definition unzip t (line : Z) (iter : nat) : outcome (list (AddrRange S) * nat) :=
  let! range := index t iter in
  if part_last range =? line then Ok (t, 0%nat)
  else loop (Datatypes.S (length t)) (unzip_step line) (t, iter, iter, 0%nat).
End Tree.

Section Map.
Context {R Init S : Type} `{RangeRecord R Init S}.
Implicit Types (m : RangeMap R S) (t : list (AddrRange S)).

Definition rangemap_new : RangeMap R S := mk_RangeMap [] arena_new (list_new 0).

Definition empty m : bool := list_is_empty (record_list m).

Definition rangemap_clear m : RangeMap R S := mk_RangeMap [] (arena_clear (records m)) (list_new 0).

Definition list_ids m : outcome (list nat) := to_vec (record_list m) (records m).
Definition list_front m : option nat := front (record_list m).
Definition list_next m (id : nat) : outcome (option nat) := next_of (record_list m) (records m) id.

Definition get_record m (id : nat) : outcome R := let! n := get (records m) id in Ok (record n).

Definition begin_iter m : nat := 0.
Definition end_iter m : nat := length (tree m).

Definition get_value_iter m (iter : nat) : outcome nat := let! range := index (tree m) iter in Ok (part_value range).
Definition part m (iter : nat) : outcome R := let! v := get_value_iter m iter in get_record m v.
Definition part_range m (iter : nat) : outcome (AddrRange S) := index (tree m) iter.

Definition find_subsort t (point : Z) (sub1 sub2 : S) : outcome (nat * nat) :=
  let iter1 := lower_bound t point sub1 in
  if (iter1 =? length t)%nat then Ok (iter1, iter1)
  else
    let! range := index t iter1 in
    if point <? part_first range then Ok (iter1, iter1)
    else Ok (iter1, upper_bound t (part_last range) sub2).

Definition map_find t (point : Z) : outcome (nat * nat) := find_subsort t point (from_bool false) (from_bool true).

Definition find_begin t (point : Z) : nat := lower_bound t point (from_bool false).

Definition find_end t (point : Z) : outcome nat :=
  let iter := upper_bound t point (from_bool true) in
  if (iter =? length t)%nat then Ok iter
  else
    let! range := index t iter in
    if point <? part_first range then Ok iter
    else Ok (upper_bound t (part_last range) (from_bool true)).

Definition find_overlap t (point end_ : Z) : outcome nat :=
  let iter := lower_bound t point (from_bool false) in
  if (iter =? length t)%nat then Ok iter
  else
    let! range := index t iter in
    if part_first range <=? end_ then Ok iter else Ok (length t).

(** [while iter != self.tree.len()] from [iter] on. *)
Fixpoint first_after (point : Z) (iter : nat) (rest : list (AddrRange S)) : nat :=
  match rest with
  | [] => iter
  | range :: rest => if point <? part_a range then iter else first_after point (iter + 1) rest
  end.

Definition find_first_after t (point : Z) : outcome nat :=
  let! iter := find_end t point in
  Ok (first_after point iter (drop iter t)).

(** [while iter != 0] down from [iter]. *)
Fixpoint last_before t (point : Z) (iter : nat) : outcome nat :=
  match iter with
  | O => Ok (length t)
  | Datatypes.S iter =>
      let! range := index t iter in
      if part_b range <? point then Ok iter else last_before t point iter
  end.

Definition find_last_before t (point : Z) : outcome nat := last_before t point (find_begin t point).

(** *** Insertion *)

(** A round of the main loop of [insert]: the tree, [low] and [bound], for the
    entry [addrrange] of the new record; [inr] where the loop ends. *)
Definition insert_step (second : Z) (addrrange : AddrRange S) (st : list (AddrRange S) * nat * Z)
    : outcome (list (AddrRange S) * nat * Z + list (AddrRange S) * Z) :=
  let '(t, low, bound) := st in
  if (low =? length t)%nat then Ok (inr (t, bound))
  else
    let! here := index t low in
    if second <? part_first here then Ok (inr (t, bound))
    else if part_last here <? bound then Ok (inl (t, (low + 1)%nat, bound))
    else
      let! (t, low, bound) :=
        if bound <? part_first here then
          let! (t, pos) := insert_hint t low (with_interval addrrange bound (minus_one (part_first here))) in
          let low := if (pos <=? low)%nat then (low + 1)%nat else low in
          let! here := index t low in
          Ok (t, low, part_first here)
        else Ok (t, low, bound) in
      let! here := index t low in
      if part_last here <=? second then
        let! (t, pos) := insert_hint t low (with_interval addrrange bound (part_last here)) in
        let low := if (pos <=? low)%nat then (low + 1)%nat else low in
        let! here := index t low in
        if part_last here =? second then Ok (inr (t, bound))
        else Ok (inl (t, (low + 1)%nat, plus_one (part_last here)))
      else
        let! (t, _) := unzip t second low in
        Ok (inr (t, bound)).

(** Every round passes an entry that was there or a piece that was added, and a
    group of entries gets at most two pieces. *)
Definition insert_pieces t (low : nat) (bound second : Z) (addrrange : AddrRange S) : outcome (list (AddrRange S)) :=
  let! (t, bound) := loop (Datatypes.S (3 * length t)) (insert_step second addrrange) (t, low, bound) in
  if bound <=? second then
    let! (t, _) := insert_plain t (with_interval addrrange bound second) in
    Ok t
  else Ok t.

Definition rangemap_insert m (data : Init) (first_2 second : Z) : outcome (RangeMap R S * nat) :=
  let t := tree m in
  let bound := first_2 in
  let low := lower_bound t bound (from_bool false) in
  let! (t, low) :=
    if (low =? length t)%nat then Ok (t, low)
    else
      let! here := index t low in
      if part_first here <? bound then
        let! (t, shift) := unzip t (minus_one bound) low in
        Ok (t, (low + shift)%nat)
      else Ok (t, low) in
  let! (nodes, liter) := alloc (records m) (mk_RecordNode (new_record data first_2 second) ∅) in
  let! n := get nodes liter in
  let addrrange := mk_AddrRange second second first_2 second (get_subsort (record n)) liter in
  let spot := lower_bound t (part_last addrrange) (subsort addrrange) in
  let! position :=
    if (spot =? length t)%nat then Ok None
    else let! range := index t spot in Ok (Some (part_value range)) in
  let! (lst, nodes) := insert (record_list m) nodes position liter in
  let! t := insert_pieces t low bound second addrrange in
  Ok (mk_RangeMap t nodes lst, liter).

(** *** Removal *)

(** The loop down from [uplow]: is there a record that ends at [aminus1]? *)
Fixpoint ends_at t (aminus1 : Z) (uplow : nat) : outcome bool :=
  match uplow with
  | O => Ok false
  | Datatypes.S uplow =>
      let! range := index t uplow in
      if negb (part_last range =? aminus1) then Ok false
      else if part_b range =? aminus1 then Ok true
      else ends_at t aminus1 uplow
  end.

(** [leftsew], [rightsew], [leftoverlap] and [rightoverlap]. *)
Record sew : Type := mk_sew { leftsew : bool; rightsew : bool; leftoverlap : bool; rightoverlap : bool }.

Definition note_neighbour (first last : Z) (range : AddrRange S) (f : sew) : sew :=
  let f :=
    if part_a range <? first then mk_sew (leftsew f) (rightsew f) true (rightoverlap f)
    else if part_a range =? first then mk_sew false (rightsew f) (leftoverlap f) (rightoverlap f) else f in
  if last <? part_b range then mk_sew (leftsew f) (rightsew f) (leftoverlap f) true
  else if part_b range =? last then mk_sew (leftsew f) false (leftoverlap f) (rightoverlap f) else f.

Definition erase_step (rec : nat) (first last : Z) (st : list (AddrRange S) * nat * sew)
    : outcome (list (AddrRange S) * nat * sew + list (AddrRange S) * nat * sew) :=
  let '(t, low, f) := st in
  let! range := index t low in
  let! (t, low, f) :=
    if decide (part_value range = rec) then
      let! t := vec_remove t low in Ok (t, low, f)
    else Ok (t, (low + 1)%nat, note_neighbour first last range f) in
  if (low =? length t)%nat then Ok (inr (t, low, f))
  else
    let! range := index t low in
    if part_first range <=? last then Ok (inl (t, low, f)) else Ok (inr (t, low, f)).

Definition erase_tree t (rec : nat) (first last : Z) : outcome (list (AddrRange S)) :=
  let low := lower_bound t first (from_bool false) in
  let aminus1 := minus_one first in
  let! stop := ends_at t aminus1 low in
  let! (t, low, f) :=
    loop (Datatypes.S (length t)) (erase_step rec first last) (t, low, mk_sew (negb stop) true false false) in
  let! rsew :=
    if (low =? length t)%nat then Ok (rightsew f)
    else
      let! range := index t low in
      Ok (if minus_one (part_a range) =? last then false else rightsew f) in
  let! t :=
    if leftsew f && leftoverlap f then zip t aminus1 (lower_bound t aminus1 (from_bool false)) else Ok t in
  if rsew && rightoverlap f then zip t last (lower_bound t last (from_bool false)) else Ok t.

Definition rangemap_erase m (rec : nat) : outcome (RangeMap R S) :=
  let! r := get_record m rec in
  let! t := erase_tree (tree m) rec (get_first r) (get_last r) in
  let! (lst, nodes, _) := remove (record_list m) (records m) rec in
  let! (nodes, _) := arena_remove nodes rec in
  Ok (mk_RangeMap t nodes lst).

Definition erase_part m (iter : nat) : outcome (RangeMap R S) :=
  let! v := get_value_iter m iter in
  rangemap_erase m v.
End Map.

(** ** The records of the tests *)

Record TestRecord : Type := mk_TestRecord { test_first : Z; test_last : Z; tag : Z }.

#[export] Instance test_record : RangeRecord TestRecord Z Z := {|
  from_bool val := if val then 2 ^ 32 - 1 else 0;
  new_record data first last := mk_TestRecord first last data;
  get_first := test_first;
  get_last := test_last;
  get_subsort := tag
|}.

Fixpoint insert_tests (l : list (Z * Z * Z)) (m : RangeMap TestRecord Z) : outcome (RangeMap TestRecord Z) :=
  match l with
  | [] => Ok m
  | (tag, a, b) :: l => let! (m, _) := rangemap_insert m tag a b in insert_tests l m
  end.

Definition parts (m : outcome (RangeMap TestRecord Z)) : outcome (list (Z * Z * Z)) :=
  let! m := m in Ok ((fun r => (part_first r, part_last r, subsort r)) <$> tree m).

(** The assertions of the source's own tests. *)
Example overlapping_insert_and_erase :
  let m := insert_tests [(1, 10, 19); (2, 15, 24)] rangemap_new in
  parts m = Ok [(10, 14, 1); (15, 19, 1); (15, 19, 2); (20, 24, 2)] /\
  (let! m := m in list_ids m) = Ok [0; 1]%nat /\
  parts (let! m := m in rangemap_erase m 0) = Ok [(15, 24, 2)] /\
  parts (let! m := m in let! m := rangemap_erase m 0 in rangemap_erase m 1) = Ok [].
Proof. vm_compute. done. Qed.

Example nested_insert :
  let m := insert_tests [(1, 0, 99); (2, 40, 49)] rangemap_new in
  parts m = Ok [(0, 39, 1); (40, 49, 1); (40, 49, 2); (50, 99, 1)] /\ (let! m := m in list_ids m) = Ok [1; 0]%nat.
Proof. vm_compute. done. Qed.

(** Where another interval ends at the end of the new one, the last piece is
    entered twice. *)
Example insert_twice :
  parts (insert_tests [(1, 10, 19); (2, 10, 19)] rangemap_new) = Ok [(10, 19, 1); (10, 19, 2); (10, 19, 2)].
Proof. vm_compute. done. Qed.

(** Erasing a record whose neighbour on the right starts where it ends, under a
    record that covers both, stretches the neighbour over what is left of it. *)
Example erase_stretches :
  let m := insert_tests [(1, 0, 99); (3, 10, 49); (2, 50, 60)] rangemap_new in
  parts (let! m := m in rangemap_erase m 1) = Ok [(0, 60, 1); (0, 60, 2); (61, 99, 1)].
Proof. vm_compute. done. Qed.
