(* ===== verification/RangeTree.v ===== *)
(** The tree of [RangeMap]: what its entries mean, that [find] returns exactly
    the entries at a point, and that [unzip] cuts an interval in two. *)
From stdpp Require Import base list numbers gmap sorting.
From Stdlib Require Import ZArith Lia.
From S2P Require Import Prelude Bits BTree Arena OpList RangeMap.
Local Open Scope Z_scope.
Local Open Scope rust_scope.

(** ** Sorted entries *)

Lemma partition_point_split {A} (pred : A -> bool) (l : list A) :
  (partition_point pred l <= length l)%nat /\ (forall x, x ∈ take (partition_point pred l) l -> pred x = true) /\
  (forall y, l !! partition_point pred l = Some y -> pred y = false).
Proof.
  induction l as [|x l (IH1 & IH2 & IH3)]; simpl; [split; [lia|]; split; [intros ? []%not_elem_of_nil|done]|].
  destruct (pred x) eqn:E; simpl.
  - split; [lia|]. split; [|done]. intros y [->|Hy]%elem_of_cons; [done|by apply IH2].
  - split; [lia|]. split; [intros ? []%not_elem_of_nil|]. by intros y [= <-].
Qed.

Lemma partition_ext {A} (f g : A -> bool) l : (forall x, x ∈ l -> f x = g x) -> partition_point f l = partition_point g l.
Proof.
  induction l as [|x l IH]; intros Hx; [done|]. simpl. rewrite Hx by (by left). by rewrite IH by (intros y Hy; apply Hx; by right).
Qed.

Section Sorted.
Context {S : Type} `{OrdKey S}.
Implicit Types (t : list (AddrRange S)) (x y r : AddrRange S).

Definition key x : Z * S := (part_last x, subsort x).

Definition ordered : list (AddrRange S) -> Prop := StronglySorted (fun x y => kle (key x) (key y)).

Lemma key_less_spec x l s : key_less x l s = true <-> klt (key x) (l, s).
Proof. rewrite <- kltb_spec. done. Qed.

Lemma key_not_greater_spec x l s : key_not_greater x l s = true <-> kle (key x) (l, s).
Proof. rewrite <- kleb_spec. done. Qed.

Lemma range_less_spec x y : range_less x y = true <-> klt (key x) (key y).
Proof. apply key_less_spec. Qed.

(** A place where an entry keeps the order. *)
Definition fits_at t r (pos : nat) : Prop :=
  (pos <= length t)%nat /\ (forall x, x ∈ take pos t -> kle (key x) (key r)) /\
  (forall x, x ∈ drop pos t -> kle (key r) (key x)).

Lemma fits_ordered t r pos : ordered t -> fits_at t r pos -> ordered (take pos t ++ r :: drop pos t).
Proof.
  intros Ho (Hlen & Hlow & Hhigh). rewrite <- (take_drop pos t) in Ho. apply StronglySorted_app in Ho as (Hx & H1 & H2).
  apply StronglySorted_app. split; [|split; [done|]].
  - intros x y Hx1 [->|Hy]%elem_of_cons; [by apply Hlow|by apply Hx].
  - apply StronglySorted_cons. split; [|done]. apply Forall_forall. apply Hhigh.
Qed.

Lemma ordered_lookup t i j x y : ordered t -> (i < j)%nat -> t !! i = Some x -> t !! j = Some y -> kle (key x) (key y).
Proof.
  intros Ho Hij Hx Hy. rewrite <- (take_drop (i + 1) t) in Ho. apply StronglySorted_app in Ho as (Hall & _).
  apply Hall; apply list_elem_of_lookup; [exists i; by rewrite lookup_take_lt by lia|exists (j - (i + 1))%nat].
  rewrite lookup_drop. by replace (i + 1 + (j - (i + 1)))%nat with j by lia.
Qed.

(** It is enough to look at the two neighbours. *)
Lemma fits_neighbours t r pos : ordered t -> (pos <= length t)%nat ->
  (forall p, (0 < pos)%nat -> t !! (pos - 1)%nat = Some p -> kle (key p) (key r)) ->
  (forall q, t !! pos = Some q -> kle (key r) (key q)) -> fits_at t r pos.
Proof.
  intros Ho Hlen Hprev Hnext. split; [done|]. split.
  - intros x [i Hi]%list_elem_of_lookup. apply lookup_take_Some in Hi as [Hi Hlt].
    destruct (lookup_lt_is_Some_2 t (pos - 1) ltac:(lia)) as [p Hp]. apply (kle_trans _ (key p)); [|apply Hprev; [lia|done]].
    destruct (decide (i = pos - 1)%nat) as [->|]; [simplify_eq; apply kle_refl|].
    apply (ordered_lookup t i (pos - 1)); [done|lia|done|done].
  - intros x [i Hi]%list_elem_of_lookup. rewrite lookup_drop in Hi. pose proof (lookup_lt_Some _ _ _ Hi).
    destruct (lookup_lt_is_Some_2 t pos ltac:(lia)) as [q Hq]. apply (kle_trans _ (key q)); [by apply Hnext|].
    destruct (decide (i = 0)%nat) as [->|]; [rewrite Nat.add_0_r in Hi; simplify_eq; apply kle_refl|].
    apply (ordered_lookup t pos (pos + i)); [done|lia|done|done].
Qed.

Lemma upper_fits t r : ordered t -> fits_at t r (upper_bound t (part_last r) (subsort r)).
Proof.
  intros Ho. unfold upper_bound. destruct (partition_point_split (fun x => key_not_greater x (part_last r) (subsort r)) t) as (H1 & H2 & H3).
  apply fits_neighbours; [done|done| |].
  - intros p Hpos Hp. apply key_not_greater_spec, H2. apply list_elem_of_lookup. exists (partition_point (fun x => key_not_greater x (part_last r) (subsort r)) t - 1)%nat.
    by rewrite lookup_take_lt by lia.
  - intros q Hq. specialize (H3 q Hq). apply not_true_iff_false in H3. rewrite key_not_greater_spec in H3.
    apply not_kle in H3. apply kle_lt_eq. by left.
Qed.

Lemma lower_fits t r : ordered t -> fits_at t r (lower_bound t (part_last r) (subsort r)).
Proof.
  intros Ho. unfold lower_bound. destruct (partition_point_split (fun x => key_less x (part_last r) (subsort r)) t) as (H1 & H2 & H3).
  apply fits_neighbours; [done|done| |].
  - intros p Hpos Hp. apply kle_lt_eq. left. apply key_less_spec, H2. apply list_elem_of_lookup.
    exists (partition_point (fun x => key_less x (part_last r) (subsort r)) t - 1)%nat. by rewrite lookup_take_lt by lia.
  - intros q Hq. specialize (H3 q Hq). apply not_true_iff_false in H3. rewrite key_less_spec in H3.
    by apply not_klt in H3.
Qed.

(** The hint only saves time: wherever it points, the entry goes to a place
    that keeps the order. *)
Lemma hint_fits t hint r : ordered t -> (hint <= length t)%nat ->
  exists pos, hint_position t hint r = Ok pos /\ fits_at t r pos.
Proof.
  intros Ho Hh. unfold hint_position.
  assert (forall x y, negb (range_less x y) = true -> kle (key y) (key x)) as Hnot.
  { intros x y E. apply negb_true_iff, not_true_iff_false in E. rewrite range_less_spec in E. by apply not_klt. }
  destruct (Nat.eqb_spec hint (length t)) as [->|Hne].
  - destruct (Nat.ltb_spec 0 (length t)); [|eexists; split; [done|by apply upper_fits]].
    destruct (lookup_lt_is_Some_2 t (length t - 1) ltac:(lia)) as [p Hp]. rewrite (index_ok _ _ _ Hp). ostep.
    destruct (negb (range_less r p)) eqn:E; eexists; (split; [done|]); [|by apply upper_fits].
    apply fits_neighbours; [done|done| |].
    + intros p' _ Hp'. simplify_eq. by apply Hnot.
    + intros q Hq. apply lookup_lt_Some in Hq. lia.
  - destruct (lookup_lt_is_Some_2 t hint ltac:(lia)) as [h Hhere]. rewrite (index_ok _ _ _ Hhere). ostep.
    destruct (negb (range_less h r)) eqn:Eh.
    + apply Hnot in Eh. destruct (Nat.eqb_spec hint 0) as [->|Hpos].
      * eexists. split; [done|]. apply fits_neighbours; [done|lia|lia|]. intros q Hq. by simplify_eq.
      * destruct (lookup_lt_is_Some_2 t (hint - 1) ltac:(lia)) as [p Hp]. rewrite (index_ok _ _ _ Hp). ostep.
        destruct (negb (range_less r p)) eqn:E; eexists; (split; [done|]); [|by apply upper_fits].
        apply fits_neighbours; [done|lia| |].
        -- intros p' _ Hp'. simplify_eq. by apply Hnot.
        -- intros q Hq. by simplify_eq.
    + apply negb_false_iff in Eh. rewrite range_less_spec in Eh.
      assert (forall n, n = (hint + 1)%nat -> forall p, t !! (n - 1)%nat = Some p -> kle (key p) (key r)) as Hprev.
      { intros n -> p Hp. rewrite Nat.add_sub in Hp. simplify_eq. apply kle_lt_eq. by left. }
      destruct (Nat.eqb_spec hint (length t - 1)).
      * eexists. split; [done|]. apply fits_neighbours; [done|done|intros p _; apply Hprev; lia|].
        intros q Hq. apply lookup_lt_Some in Hq. lia.
      * destruct (lookup_lt_is_Some_2 t (hint + 1) ltac:(lia)) as [q Hq]. rewrite (index_ok _ _ _ Hq). ostep.
        destruct (negb (range_less q r)) eqn:E; eexists; (split; [done|]); [|by apply lower_fits].
        apply fits_neighbours; [done|lia|intros p _; by apply Hprev|]. intros q' Hq'. simplify_eq. by apply Hnot.
Qed.

Lemma insert_hint_ok t hint r : ordered t -> (hint <= length t)%nat ->
  exists pos, insert_hint t hint r = Ok (take pos t ++ r :: drop pos t, pos) /\ (pos <= length t)%nat /\
    ordered (take pos t ++ r :: drop pos t).
Proof.
  intros Ho Hh. destruct (hint_fits t hint r Ho Hh) as (pos & E & Hf). exists pos. unfold insert_hint. rewrite E. ostep.
  unfold vec_insert. rewrite decide_True by apply Hf. ostep. split; [done|]. split; [apply Hf|by apply fits_ordered].
Qed.

Lemma insert_plain_ok t r : ordered t ->
  exists pos, insert_plain t r = Ok (take pos t ++ r :: drop pos t, pos) /\ ordered (take pos t ++ r :: drop pos t).
Proof.
  intros Ho. pose proof (upper_fits t r Ho) as Hf. eexists. unfold insert_plain, vec_insert.
  rewrite decide_True by apply Hf. ostep. split; [done|]. by apply fits_ordered.
Qed.

(** Where the entries of an insertion are. *)
Lemma elem_of_insertion t pos r x : x ∈ take pos t ++ r :: drop pos t <-> x = r \/ x ∈ t.
Proof. rewrite <- (take_drop pos t) at 3. rewrite !elem_of_app, elem_of_cons. tauto. Qed.

Lemma lookup_insertion t pos r low : (pos <= length t)%nat -> (low < length t)%nat ->
  (take pos t ++ r :: drop pos t) !! (if (pos <=? low)%nat then (low + 1)%nat else low) = t !! low.
Proof.
  intros Hpos Hlow. assert (length (take pos t) = pos) as Hl by (rewrite length_take; lia).
  destruct (Nat.leb_spec pos low).
  - rewrite lookup_app_r by lia. rewrite Hl, lookup_cons_ne_0 by lia. rewrite lookup_drop. f_equal. lia.
  - rewrite lookup_app_l by lia. by rewrite lookup_take_lt.
Qed.
End Sorted.

(** ** What the entries mean *)

Section Meaning.
Context {S : Type} `{OrdKey S} (smin smax : S).
Implicit Types (t : list (AddrRange S)) (x y r : AddrRange S).

(** The records: their intervals and keys, by identifier. *)
Implicit Types recs : nat -> option (Z * Z * S).

Definition covers x (p : Z) : Prop := part_first x <= p <= part_last x.

Definition same_interval x y : Prop := part_first x = part_first y /\ part_last x = part_last y.

(** Two entries have the same interval or disjoint ones. *)
Definition compatible x y : Prop := same_interval x y \/ part_last x < part_first y \/ part_last y < part_first x.

Definition entry_ok recs x : Prop :=
  0 <= part_first x <= part_last x /\ part_last x < 2 ^ 64 /\
  recs (part_value x) = Some (part_a x, part_b x, subsort x) /\
  part_a x <= part_first x /\ part_last x <= part_b x /\ kle smin (subsort x) /\ kle (subsort x) smax.

(** The entries are sorted, do not straddle one another, and each is a piece of
    the record it names. *)
Record pieces_ok t recs : Prop := {
  tr_ordered : ordered t;
  tr_apart x y : x ∈ t -> y ∈ t -> compatible x y;
  tr_entry x : x ∈ t -> entry_ok recs x
}.

(** Every point of a record has a piece of it. *)
Definition covered t recs : Prop := forall id a b s p, recs id = Some (a, b, s) -> a <= p <= b ->
  exists x, x ∈ t /\ part_value x = id /\ covers x p.

Definition tree_ok t recs : Prop := pieces_ok t recs /\ covered t recs.

Lemma compatible_sym x y : compatible x y -> compatible y x.
Proof. unfold compatible, same_interval. lia. Qed.

Lemma key_last_le x y : kle (key x) (key y) -> part_last x <= part_last y.
Proof.
  unfold kle, key. cbn. destruct (Z.compare_spec (part_last x) (part_last y)); simpl; intros; [lia|lia|done].
Qed.

Lemma last_lt_key x l s : part_last x < l -> klt (key x) (l, s).
Proof. intros Hl. unfold klt, key. cbn. by rewrite (proj2 (Z.compare_lt_iff _ _) Hl). Qed.

(** The bounds that [from_bool] gives leave only the end of the interval. *)
Lemma less_min recs x l : entry_ok recs x -> key_less x l smin = (part_last x <? l).
Proof.
  intros (_ & _ & _ & _ & _ & Hmin & _). apply eq_true_iff_eq. rewrite key_less_spec, Z.ltb_lt. split; [|apply last_lt_key].
  unfold klt, key. cbn. destruct (Z.compare_spec (part_last x) l); simpl; try done.
  intros Hlt. by apply not_klt in Hmin.
Qed.

Lemma not_greater_max recs x l : entry_ok recs x -> key_not_greater x l smax = (part_last x <=? l).
Proof.
  intros (_ & _ & _ & _ & _ & _ & Hmax). apply eq_true_iff_eq. rewrite key_not_greater_spec, Z.leb_le.
  unfold kle, key. cbn. destruct (Z.compare_spec (part_last x) l); simpl; try lia.
  - split; [lia|]. intros _. exact Hmax.
  - split; [lia|done].
  - split; [done|lia].
Qed.

(** The first entry that ends at [l] or later. *)
Lemma lower_min t recs l : ordered t -> (forall x, x ∈ t -> entry_ok recs x) -> let n := lower_bound t l smin in
  (n <= length t)%nat /\ (forall x, x ∈ take n t -> part_last x < l) /\ (forall x, x ∈ drop n t -> l <= part_last x).
Proof.
  intros Ho He n. assert (n = partition_point (fun x => part_last x <? l) t) as ->.
  { apply partition_ext. intros x Hx. by apply (less_min recs), He. }
  destruct (partition_point_split (fun x => part_last x <? l) t) as (H1 & H2 & H3). split; [done|]. split.
  - intros x Hx. by apply Z.ltb_lt, H2.
  - intros x [i Hi]%list_elem_of_lookup. rewrite lookup_drop in Hi. pose proof (lookup_lt_Some _ _ _ Hi).
    destruct (lookup_lt_is_Some_2 t (partition_point (fun x => part_last x <? l) t) ltac:(lia)) as [y Hy].
    pose proof (H3 y Hy) as E. apply Z.ltb_ge in E. apply (Z.le_trans _ _ _ E).
    destruct (decide (i = 0)%nat) as [->|]; [rewrite Nat.add_0_r in Hi; simplify_eq; lia|].
    apply key_last_le. eapply ordered_lookup; [done| |done|done]. lia.
Qed.

(** The first entry that ends after [l]. *)
Lemma upper_max t recs l : ordered t -> (forall x, x ∈ t -> entry_ok recs x) -> let n := upper_bound t l smax in
  (n <= length t)%nat /\ (forall x, x ∈ take n t -> part_last x <= l) /\ (forall x, x ∈ drop n t -> l < part_last x).
Proof.
  intros Ho He n. assert (n = partition_point (fun x => part_last x <=? l) t) as ->.
  { apply partition_ext. intros x Hx. by apply (not_greater_max recs), He. }
  destruct (partition_point_split (fun x => part_last x <=? l) t) as (H1 & H2 & H3). split; [done|]. split.
  - intros x Hx. by apply Z.leb_le, H2.
  - intros x [i Hi]%list_elem_of_lookup. rewrite lookup_drop in Hi. pose proof (lookup_lt_Some _ _ _ Hi).
    destruct (lookup_lt_is_Some_2 t (partition_point (fun x => part_last x <=? l) t) ltac:(lia)) as [y Hy].
    pose proof (H3 y Hy) as E. apply Z.leb_gt in E. apply (Z.lt_le_trans _ _ _ E).
    destruct (decide (i = 0)%nat) as [->|]; [rewrite Nat.add_0_r in Hi; simplify_eq; lia|].
    apply key_last_le. eapply ordered_lookup; [done| |done|done]. lia.
Qed.

(** *** Looking up a point *)

(** The entries from [i] up to [j]. *)
Definition between t (i j : nat) : list (AddrRange S) := take (j - i) (drop i t).

Lemma between_elem t i j x : x ∈ between t i j <-> exists k, (i <= k < j)%nat /\ t !! k = Some x.
Proof.
  unfold between. rewrite list_elem_of_lookup. split.
  - intros [k Hk]. apply lookup_take_Some in Hk as [Hk Hlt]. rewrite lookup_drop in Hk. exists (i + k)%nat. split; [lia|done].
  - intros (k & Hk & Hx). exists (k - i)%nat. rewrite lookup_take_lt, lookup_drop by lia.
    by replace (i + (k - i))%nat with k by lia.
Qed.

Lemma take_elem t n x k : t !! k = Some x -> (k < n)%nat -> x ∈ take n t.
Proof. intros Hx Hk. apply list_elem_of_lookup. exists k. by rewrite lookup_take_lt. Qed.

Lemma drop_elem t n x k : t !! k = Some x -> (n <= k)%nat -> x ∈ drop n t.
Proof.
  intros Hx Hk. apply list_elem_of_lookup. exists (k - n)%nat. rewrite lookup_drop.
  by replace (n + (k - n))%nat with k by lia.
Qed.

Lemma find_ok t recs p : pieces_ok t recs -> exists i j,
  find_subsort t p smin smax = Ok (i, j) /\ (i <= j <= length t)%nat /\ (forall x, x ∈ between t i j <-> x ∈ t /\ covers x p).
Proof.
  intros HT. pose proof (tr_entry _ _ HT) as He. destruct (lower_min t recs p (tr_ordered _ _ HT) He) as (Hn & Hlow & Hhigh).
  unfold find_subsort. set (n := lower_bound t p smin) in *.
  assert (forall j, (forall k x, (n <= k < j)%nat -> t !! k = Some x -> covers x p) ->
    (forall k x, (j <= k)%nat -> t !! k = Some x -> p < part_first x) ->
    forall x, x ∈ between t n j <-> x ∈ t /\ covers x p) as Hrange.
  { intros j Hin Hout x. rewrite between_elem. split.
    - intros (k & Hk & Hx). split; [by eapply list_elem_of_lookup_2|by apply (Hin k)].
    - intros [[k Hk]%list_elem_of_lookup Hc]. exists k. split; [|done].
      destruct (decide (k < n)%nat); [pose proof (Hlow x (take_elem t n x k Hk ltac:(done))); unfold covers in Hc; lia|].
      destruct (decide (j <= k)%nat); [pose proof (Hout k x ltac:(done) Hk); unfold covers in Hc; lia|lia]. }
  destruct (Nat.eqb_spec n (length t)) as [E|Hne].
  { exists n, n. split; [done|]. split; [lia|]. apply Hrange; [intros; lia|]. intros k x Hk Hx. apply lookup_lt_Some in Hx. lia. }
  destruct (lookup_lt_is_Some_2 t n ltac:(lia)) as [g Hg]. rewrite (index_ok _ _ _ Hg). ostep.
  pose proof (Hhigh g (drop_elem t n g n Hg ltac:(done))) as Hlast.
  assert (g ∈ t) as Hgin by (by eapply list_elem_of_lookup_2).
  assert (forall k x, (n <= k)%nat -> t !! k = Some x -> same_interval g x \/ part_last g < part_first x) as Hafter.
  { intros k x Hk Hx. assert (x ∈ t) as Hxin by (by eapply list_elem_of_lookup_2).
    destruct (tr_apart _ _ HT g x Hgin Hxin) as [|[|Hbad]]; [by left|by right|].
    destruct (He x Hxin) as (Hr & _). assert (part_last g <= part_last x); [|destruct (He g Hgin); lia].
    destruct (decide (k = n)) as [->|]; [simplify_eq; lia|].
    apply key_last_le. eapply ordered_lookup; [apply HT| |done|done]. lia. }
  destruct (Z.ltb_spec p (part_first g)) as [Hgap|Hin].
  { exists n, n. split; [done|]. split; [lia|]. apply Hrange; [intros; lia|]. intros k x Hk Hx.
    destruct (Hafter k x Hk Hx) as [[<- _]|]; [done|]. destruct (He g Hgin). lia. }
  destruct (upper_max t recs (part_last g) (tr_ordered _ _ HT) He) as (Hm & Hup & Hdown).
  set (j := upper_bound t (part_last g) smax) in *. exists n, j. split; [done|]. split.
  { split; [|done]. destruct (decide (n <= j)%nat); [done|].
    pose proof (Hdown g (drop_elem t j g n Hg ltac:(lia))). lia. }
  apply Hrange.
  - intros k x Hk Hx. pose proof (Hup x (take_elem t j x k Hx ltac:(lia))). unfold covers.
    destruct (Hafter k x ltac:(lia) Hx) as [[<- <-]|Hlt]; [lia|].
    destruct (He x) as (Hr & _); [by eapply list_elem_of_lookup_2|]. lia.
  - intros k x Hk Hx. pose proof (Hdown x (drop_elem t j x k Hx Hk)).
    destruct (decide (n <= k)%nat) as [Hnk|]; [|pose proof (Hlow x (take_elem t n x k Hx ltac:(lia))); lia].
    destruct (Hafter k x Hnk Hx) as [[_ E]|]; lia.
Qed.

(** *** Splitting an interval *)

(** The entries of one interval stand together. *)
Lemma group_split t h g : ordered t -> (forall x y, x ∈ t -> y ∈ t -> compatible x y) ->
  (forall x, x ∈ t -> part_first x <= part_last x) -> t !! h = Some g ->
  (forall x, x ∈ take h t -> part_last x < part_first g) ->
  exists G R, t = take h t ++ G ++ R /\ g ∈ G /\ (forall x, x ∈ G -> same_interval g x) /\
    (forall x, x ∈ R -> part_last g < part_first x).
Proof.
  intros Ho Ha Hi Hg Hlow. set (rest := drop h t). set (pred := fun x => part_last x <=? part_last g).
  destruct (partition_point_split pred rest) as (H1 & H2 & H3). set (n := partition_point pred rest) in *.
  assert (g ∈ t) as Hgin by (by eapply list_elem_of_lookup_2).
  assert (forall k x, rest !! k = Some x -> x ∈ t /\ part_last g <= part_last x) as Hrest.
  { intros k x Hx. unfold rest in Hx. rewrite lookup_drop in Hx. split; [by eapply list_elem_of_lookup_2|].
    destruct (decide (k = 0)%nat) as [->|]; [rewrite Nat.add_0_r in Hx; simplify_eq; lia|].
    apply key_last_le. eapply ordered_lookup; [done| |done|done]. lia. }
  exists (take n rest), (drop n rest). split; [by rewrite (take_drop n rest); unfold rest; rewrite take_drop|].
  assert (forall x, x ∈ rest -> same_interval g x \/ part_last g < part_first x) as Hcases.
  { intros x [k Hk]%list_elem_of_lookup. destruct (Hrest k x Hk) as [Hx Hle].
    destruct (Ha g x Hgin Hx) as [|[|Hbad]]; [by left|by right|]. pose proof (Hi x Hx). pose proof (Hi g Hgin). lia. }
  split; [|split].
  - apply (take_elem _ _ _ 0%nat); [unfold rest; by rewrite lookup_drop, Nat.add_0_r|].
    destruct (decide (n = 0)%nat) as [E|]; [|lia]. rewrite E in H3.
    specialize (H3 g ltac:(unfold rest; by rewrite lookup_drop, Nat.add_0_r)). unfold pred in H3. apply Z.leb_gt in H3. lia.
  - intros x Hx. pose proof (H2 x Hx) as E. apply Z.leb_le in E.
    assert (x ∈ rest) as Hxr by (apply list_elem_of_lookup in Hx as [k Hk]; apply lookup_take_Some in Hk as [Hk _]; by eapply list_elem_of_lookup_2).
    destruct (Hcases x Hxr) as [|Hlt]; [done|].
    apply list_elem_of_lookup in Hxr as [k Hk]. destruct (Hrest k x Hk) as [Hxt _]. pose proof (Hi x Hxt). lia.
  - intros x [k Hk]%list_elem_of_lookup. rewrite lookup_drop in Hk.
    destruct (Hcases x) as [[_ E]|]; [by eapply list_elem_of_lookup_2| |done].
    assert (exists y, rest !! n = Some y) as [y Hy] by (apply lookup_lt_is_Some_2; apply lookup_lt_Some in Hk; lia).
    pose proof (H3 y Hy) as Ey. unfold pred in Ey. apply Z.leb_gt in Ey.
    assert (part_last y <= part_last x); [|lia]. unfold rest in Hk, Hy. rewrite lookup_drop in Hk, Hy.
    destruct (decide (k = 0)%nat) as [->|]; [rewrite Nat.add_0_r in Hk; simplify_eq; lia|].
    apply key_last_le. eapply ordered_lookup; [done| |done|done]. lia.
Qed.

(** The hint of [unzip] is always right. *)
Lemma hint_exact t hint r h : t !! hint = Some h -> kle (key r) (key h) ->
  (forall p, (0 < hint)%nat -> t !! (hint - 1)%nat = Some p -> kle (key p) (key r)) ->
  insert_hint t hint r = Ok (take hint t ++ r :: drop hint t, hint).
Proof.
  intros Hh Hle Hprev. pose proof (lookup_lt_Some _ _ _ Hh). unfold insert_hint, hint_position.
  destruct (Nat.eqb_spec hint (length t)); [lia|]. rewrite (index_ok _ _ _ Hh). ostep.
  assert (forall x y, kle (key y) (key x) -> negb (range_less x y) = true) as Hnot.
  { intros x y E. apply negb_true_iff, not_true_iff_false. rewrite range_less_spec. by apply not_klt. }
  rewrite (Hnot h r Hle). assert (vec_insert t hint r = Ok (take hint t ++ r :: drop hint t)) as Ev
    by (unfold vec_insert; by rewrite decide_True by lia).
  destruct (Nat.eqb_spec hint 0) as [->|]; [by rewrite Ev|].
  destruct (lookup_lt_is_Some_2 t (hint - 1) ltac:(lia)) as [p Hp]. rewrite (index_ok _ _ _ Hp).
  rewrite (Hnot r p) by (apply Hprev; [lia|done]). by rewrite Ev.
Qed.

Definition left_part (line : Z) x : AddrRange S := with_interval x (part_first x) line.
Definition right_part (line : Z) x : AddrRange S := with_first x (plus_one line).

Lemma same_last_key x y (l : Z) : part_last x = part_last y -> kle (key x) (key y) -> kle (l, subsort x) (l, subsort y).
Proof. intros E. unfold kle, key. cbn. rewrite E, !Z.compare_refl. done. Qed.

Lemma lower_line_key (l l' : Z) (s s' : S) : l < l' -> kle (l, s) (l', s').
Proof. intros Hl. unfold kle. cbn. by rewrite (proj2 (Z.compare_lt_iff _ _) Hl). Qed.

Section Unzip.
Context (A R : list (AddrRange S)) (first last line : Z).
Context (Hline : first <= line < last).
Context (HA : forall x, x ∈ A -> part_last x < first) (HR : forall x, x ∈ R -> last < part_first x).

Lemma unzip_loop G2 : forall G1 fuel, (length G2 < fuel)%nat -> ordered (G1 ++ G2) ->
  (forall x, x ∈ G1 ++ G2 -> part_first x = first /\ part_last x = last) ->
  loop fuel (unzip_step line)
    (A ++ (left_part line <$> G1) ++ (right_part line <$> G1) ++ G2 ++ R, (length A + 2 * length G1)%nat,
     (length A + length G1)%nat, length G1) =
  Ok (A ++ (left_part line <$> G1 ++ G2) ++ (right_part line <$> G1 ++ G2) ++ R, (length G1 + length G2)%nat).
Proof.
  induction G2 as [|g G2 IH]; intros G1 [|fuel] Hfuel Ho Hg; try (simpl in Hfuel; lia); cbn [loop]; unfold unzip_step at 1.
  - rewrite !app_nil_r, Nat.add_0_r. simpl (_ ++ R).
    destruct (Nat.eqb_spec (length A + 2 * length G1) (length (A ++ (left_part line <$> G1) ++ (right_part line <$> G1) ++ R))) as [E|E]; [done|].
    rewrite !length_app, !length_fmap in E. destruct R as [|r R']; [simpl in E; lia|].
    assert ((A ++ (left_part line <$> G1) ++ (right_part line <$> G1) ++ r :: R') !! (length A + 2 * length G1)%nat = Some r) as Hr.
    { rewrite !app_assoc, lookup_app_r by (rewrite !length_app, !length_fmap; lia).
      rewrite !length_app, !length_fmap. by replace (length A + 2 * length G1 - (length A + length G1 + length G1))%nat with 0%nat by lia. }
    rewrite (index_ok _ _ _ Hr). ostep. destruct (Z.ltb_spec line (part_first r)); [done|].
    pose proof (HR r ltac:(by left)). lia.
  - set (t0 := A ++ (left_part line <$> G1) ++ (right_part line <$> G1) ++ (g :: G2) ++ R).
    destruct (Hg g) as [Egf Egl]; [apply elem_of_app; right; by left|].
    assert (t0 !! (length A + 2 * length G1)%nat = Some g) as Hat.
    { unfold t0. rewrite !app_assoc, <- !app_assoc. rewrite !app_assoc. rewrite <- (app_assoc _ (g :: G2)).
      rewrite lookup_app_r by (rewrite !length_app, !length_fmap; lia). rewrite !length_app, !length_fmap.
      by replace (length A + 2 * length G1 - (length A + length G1 + length G1))%nat with 0%nat by lia. }
    pose proof (lookup_lt_Some _ _ _ Hat) as Hlt.
    destruct (Nat.eqb_spec (length A + 2 * length G1) (length t0)); [lia|]. rewrite (index_ok _ _ _ Hat). ostep.
    destruct (Z.ltb_spec line (part_first g)); [lia|]. rewrite store_ok by done.
    set (t1 := <[_ := _]> t0).
    assert (t1 = (A ++ (left_part line <$> G1)) ++ (right_part line <$> G1 ++ [g]) ++ G2 ++ R) as Et1.
    { unfold t1, t0. rewrite fmap_app. simpl.
      replace (A ++ (left_part line <$> G1) ++ (right_part line <$> G1) ++ g :: G2 ++ R)
        with ((A ++ (left_part line <$> G1) ++ (right_part line <$> G1)) ++ g :: G2 ++ R) by (by rewrite <- !app_assoc).
      rewrite insert_app_r_alt by (rewrite !length_app, !length_fmap; lia).
      rewrite !length_app, !length_fmap. match goal with |- context [<[?i := _]> (g :: _)] => replace i with 0%nat by lia end.
      simpl. by rewrite <- !app_assoc. }
    assert (length (A ++ (left_part line <$> G1)) = (length A + length G1)%nat) as Hl1 by (by rewrite length_app, length_fmap).
    set (r := with_interval g (part_first g) line).
    assert (exists h, t1 !! (length A + length G1)%nat = Some h /\ part_last h = last) as (h & Hh & Ehl).
    { rewrite Et1. destruct (lookup_lt_is_Some_2 (G1 ++ [g]) 0) as [x Hx]; [rewrite length_app; simpl; lia|].
      exists (right_part line x). split.
      - rewrite lookup_app_r by lia. rewrite Hl1, Nat.sub_diag, lookup_app_l by (rewrite length_fmap, length_app; simpl; lia).
        by rewrite list_lookup_fmap, Hx.
      - simpl. apply Hg. apply list_elem_of_lookup_2, elem_of_app in Hx as [Hx|Hx]; [|apply list_elem_of_singleton in Hx as ->]; apply elem_of_app; [by left|right; by left]. }
    rewrite (hint_exact t1 _ r h); [|done| |].
    2: { unfold key, r. simpl. rewrite Ehl. apply lower_line_key. lia. }
    2: { intros q Hpos' Hq. rewrite Et1, lookup_app_l in Hq by lia. apply list_elem_of_lookup_2, elem_of_app in Hq as [Hq|Hq].
      - apply kle_lt_eq. left. apply last_lt_key. pose proof (HA q Hq). simpl. lia.
      - apply list_elem_of_fmap in Hq as (x & -> & Hx). unfold key, r. simpl. apply same_last_key.
        + destruct (Hg x) as [_ ->]; [apply elem_of_app; by left|by rewrite Egl].
        + apply StronglySorted_app in Ho as (Hbetween & _). apply Hbetween; [done|by left]. }
    ostep. rewrite Nat.leb_refl, (proj2 (Nat.leb_le _ _)) by lia.
    rewrite Et1, <- Hl1, take_app_length, drop_app_length.
    specialize (IH (G1 ++ [g]) fuel). rewrite <- !app_assoc, !length_app in IH. simpl in Hfuel, IH.
    replace (length (A ++ (left_part line <$> G1)) + 1)%nat with (length A + (length G1 + 1))%nat by lia.
    replace (length A + 2 * length G1 + 1 + 1)%nat with (length A + 2 * (length G1 + 1))%nat by lia.
    replace (length G1 + length (g :: G2))%nat with (length G1 + 1 + length G2)%nat by (simpl; lia).
    rewrite <- IH; [|lia|done|done]. f_equal. rewrite !fmap_app, <- !app_assoc. repeat f_equal; lia.
Qed.
End Unzip.

(** Where an interval is split, in a tree of proper pieces. *)
Lemma unzip_ok t recs h g line : pieces_ok t recs -> t !! h = Some g -> (forall x, x ∈ take h t -> part_last x < part_first g) ->
  part_first g <= line < part_last g ->
  exists G R, t = take h t ++ G ++ R /\ g ∈ G /\ (forall x, x ∈ G -> same_interval g x) /\
    (forall x, x ∈ R -> part_last g < part_first x) /\
    unzip t line h = Ok (take h t ++ (left_part line <$> G) ++ (right_part line <$> G) ++ R, length G).
Proof.
  intros HT Hg Hlow Hline. assert (g ∈ t) as Hgin by (by eapply list_elem_of_lookup_2).
  destruct (tr_entry _ _ HT g Hgin) as (Hr & Hw & _).
  destruct (group_split t h g) as (G & R & Et & HgG & HG & HR); [apply HT|apply HT| |done|done|].
  { intros x Hx. apply (tr_entry _ _ HT x Hx). }
  exists G, R. do 4 (split; [done|]). unfold unzip. rewrite (index_ok _ _ _ Hg). ostep.
  destruct (Z.eqb_spec (part_last g) line); [lia|].
  assert (length (take h t) = h) as Hl by (rewrite length_take; apply lookup_lt_Some in Hg; lia).
  pose proof (unzip_loop (take h t) R (part_first g) (part_last g) line Hline Hlow HR G [] (Datatypes.S (length t))) as E.
  simpl in E. rewrite !Nat.add_0_r, Hl, <- Et in E. apply E.
  - rewrite Et, !length_app. lia.
  - pose proof (tr_ordered _ _ HT) as Ho. rewrite Et in Ho. apply StronglySorted_app in Ho as (_ & _ & Ho).
    by apply StronglySorted_app in Ho as (_ & Ho & _).
  - intros x Hx. by destruct (HG x Hx) as [<- <-].
Qed.

(** The pieces of a record stay where they were, in smaller parts. *)
Definition keeps_cover t t' : Prop := forall x p, x ∈ t -> covers x p ->
  exists x', x' ∈ t' /\ part_value x' = part_value x /\ covers x' p.

Lemma keeps_covered t t' recs : keeps_cover t t' -> covered t recs -> covered t' recs.
Proof.
  intros Hk Hc id a b s p Hid Hp. destruct (Hc id a b s p Hid Hp) as (x & Hx & <- & Hcx). by apply Hk.
Qed.

Section Split.
Context (A G R : list (AddrRange S)) (recs : nat -> option (Z * Z * S)) (g : AddrRange S) (line : Z).
Context (HT : pieces_ok (A ++ G ++ R) recs) (Hline : part_first g <= line < part_last g) (Hword : 0 <= part_first g /\ part_last g < 2 ^ 64).
Context (HA : forall x, x ∈ A -> part_last x < part_first g) (HG : forall x, x ∈ G -> same_interval g x).
Context (HR : forall x, x ∈ R -> part_last g < part_first x).

Local Notation split := (A ++ (left_part line <$> G) ++ (right_part line <$> G) ++ R).

Lemma right_start x : part_first (right_part line x) = line + 1.
Proof. simpl. unfold plus_one. apply u64_small. lia. Qed.

Lemma split_elem x : x ∈ split -> x ∈ A \/ x ∈ R \/ exists y, y ∈ G /\ (x = left_part line y \/ x = right_part line y).
Proof. clear HT Hline Hword HA HG HR g recs. rewrite !elem_of_app, !list_elem_of_fmap. naive_solver. Qed.

Lemma split_ordered : ordered split.
Proof.
  pose proof (tr_ordered _ _ HT) as Ho. apply StronglySorted_app in Ho as (HAx & HoA & Ho).
  apply StronglySorted_app in Ho as (HGR & HoG & HoR).
  assert (forall x y, part_last x < part_last y -> kle (key x) (key y)) as Hlt by (intros x y Hxy; apply kle_lt_eq; left; by apply last_lt_key).
  assert (forall l f, (forall x, x ∈ G -> key (f x) = (l, subsort x)) -> ordered (f <$> G)) as Hsame.
  { intros l f Hf. assert (forall x y, x ∈ G -> y ∈ G -> kle (key x) (key y) -> kle (key (f x)) (key (f y))) as Hmono.
    { intros x y Hx Hy Hk. rewrite !Hf by done. apply same_last_key; [|done]. destruct (HG x Hx), (HG y Hy). congruence. }
    clear -HoG Hmono. unfold ordered. induction HoG as [|x G' Hs IH Hall]; [constructor|].
    apply StronglySorted_cons. split; [|apply IH; intros; apply Hmono; by try right].
    apply Forall_forall. intros y (z & -> & Hz)%list_elem_of_fmap. apply Hmono; [by left|by right|].
    by apply (proj1 (Forall_forall _ _) Hall). }
  assert (forall x, x ∈ R -> part_last g < part_last x) as HRl.
  { intros x Hx. pose proof (HR x Hx). destruct (tr_entry _ _ HT x) as (Hr & _); [|lia]. rewrite !elem_of_app. tauto. }
  apply StronglySorted_app. split; [|split; [done|]]; [|apply StronglySorted_app; split; [|split]; [| |apply StronglySorted_app; split; [|split; [|done]]]].
  - intros x y Hx Hy. apply Hlt. pose proof (HA x Hx). rewrite !elem_of_app, !list_elem_of_fmap in Hy.
    destruct Hy as [(z & -> & Hz)|[(z & -> & Hz)|Hy]]; simpl; [lia|destruct (HG z Hz); lia|pose proof (HRl y Hy); lia].
  - intros x y (z & -> & Hz)%list_elem_of_fmap Hy. apply Hlt. rewrite elem_of_app, list_elem_of_fmap in Hy.
    destruct Hy as [(w & -> & Hw)|Hy]; simpl; [destruct (HG w Hw); lia|pose proof (HRl y Hy); lia].
  - by apply (Hsame line).
  - intros x y (z & -> & Hz)%list_elem_of_fmap Hy. apply Hlt. pose proof (HRl y Hy). destruct (HG z Hz). simpl. lia.
  - apply (Hsame (part_last g)). intros x Hx. destruct (HG x Hx) as [_ ->]. done.
Qed.

Lemma split_pieces : pieces_ok split recs.
Proof.
  assert (forall x, x ∈ A \/ x ∈ R -> x ∈ A ++ G ++ R) as Hold by (intros x; rewrite !elem_of_app; tauto).
  assert (forall x, x ∈ A \/ x ∈ R -> part_first x <= part_last x) as Hsize.
  { intros x Hx. destruct (tr_entry _ _ HT x (Hold x Hx)). lia. }
  constructor; [apply split_ordered| |].
  - intros x y Hx%split_elem Hy%split_elem.
    destruct Hx as [Hx|[Hx|(z & Hz & Hx)]]; destruct Hy as [Hy|[Hy|(w & Hw & Hy)]]; try (apply (tr_apart _ _ HT); apply Hold; tauto).
    all: try (pose proof (Hsize x ltac:(tauto))); try (pose proof (Hsize y ltac:(tauto))).
    all: try (pose proof (HA x Hx)); try (pose proof (HA y Hy)); try (pose proof (HR x Hx)); try (pose proof (HR y Hy)).
    all: try (destruct (HG z Hz)); try (destruct (HG w Hw)); unfold compatible, same_interval.
    all: try (destruct Hx as [->| ->]); try (destruct Hy as [->| ->]); rewrite ?right_start; simpl; lia.
  - intros x [Hx|[Hx|(z & Hz & Hx)]]%split_elem; [apply (tr_entry _ _ HT); apply Hold; tauto..|].
    destruct (tr_entry _ _ HT z) as (H1 & H2 & H3 & H4 & H5 & H6 & H7); [rewrite !elem_of_app; tauto|]. destruct (HG z Hz).
    destruct Hx as [->| ->]; unfold entry_ok; rewrite ?right_start; simpl; (repeat split; [lia|lia|lia|done|lia|lia|done|done]).
Qed.

Lemma split_cover : keeps_cover (A ++ G ++ R) split.
Proof.
  intros x p Hx Hc. rewrite !elem_of_app in Hx. destruct Hx as [Hx|[Hx|Hx]].
  - exists x. rewrite !elem_of_app. tauto.
  - destruct (Z.le_gt_cases p line).
    + exists (left_part line x). split; [|split; [done|unfold covers in *; simpl; lia]].
      rewrite !elem_of_app, !list_elem_of_fmap. right. left. by exists x.
    + exists (right_part line x). split; [|split; [done|unfold covers in *; rewrite right_start; simpl; lia]].
      rewrite !elem_of_app, !list_elem_of_fmap. right. right. left. by exists x.
  - exists x. rewrite !elem_of_app. tauto.
Qed.
End Split.
End Meaning.
