(* ===== verification/RangeInsert.v ===== *)
(** Insertion into a [RangeMap]: the loop that cuts the new record into pieces,
    and what the map holds afterwards. *)
From stdpp Require Import base list numbers gmap sorting.
From Stdlib Require Import ZArith Lia.
From S2P Require Import Prelude Bits BTree Arena OpList RangeMap RangeTree.
Local Open Scope Z_scope.
Local Open Scope rust_scope.

(** ** An entry beside the hint *)

Section Around.
Context {S : Type} `{OrdKey S}.
Implicit Types (t B D : list (AddrRange S)) (x r here : AddrRange S).

Lemma hint_around B here D r : ordered (B ++ here :: D) ->
  (exists B1 B2, B = B1 ++ B2 /\ insert_hint (B ++ here :: D) (length B) r = Ok (B1 ++ r :: B2 ++ here :: D, length B1) /\
    ordered (B1 ++ r :: B2 ++ here :: D)) \/
  (exists D1 D2, D = D1 ++ D2 /\
    insert_hint (B ++ here :: D) (length B) r = Ok (B ++ here :: D1 ++ r :: D2, (length B + 1 + length D1)%nat) /\
    ordered (B ++ here :: D1 ++ r :: D2)).
Proof.
  intros Ho. destruct (insert_hint_ok (B ++ here :: D) (length B) r Ho) as (pos & E & Hpos & Ho').
  { rewrite length_app. lia. }
  rewrite length_app in Hpos. simpl in Hpos. rewrite E. destruct (decide (pos <= length B)%nat).
  - left. exists (take pos B), (drop pos B). rewrite take_drop. split; [done|].
    rewrite take_app_le, drop_app_le in Ho' |- * by lia. split; [|done]. by rewrite length_take, Nat.min_l by lia.
  - right. exists (take (pos - length B - 1) D), (drop (pos - length B - 1) D). rewrite take_drop. split; [done|].
    assert (take pos (B ++ here :: D) ++ r :: drop pos (B ++ here :: D) =
      B ++ here :: take (pos - length B - 1) D ++ r :: drop (pos - length B - 1) D) as Et.
    { rewrite take_app_ge, drop_app_ge by lia. destruct (pos - length B)%nat as [|k] eqn:En; [lia|]. simpl.
      rewrite Nat.sub_0_r, <- app_assoc. done. }
    rewrite Et in Ho' |- *. split; [|done]. rewrite length_take, Nat.min_l by lia. do 2 f_equal. lia.
Qed.

(** Where the loop finds the entry it was at. *)
Lemma bumped_low B1 r B2 : (if (length B1 <=? length (B1 ++ B2))%nat then (length (B1 ++ B2) + 1)%nat else length (B1 ++ B2)) =
  length (B1 ++ r :: B2).
Proof. rewrite !length_app. simpl. destruct (Nat.leb_spec (length B1) (length B1 + length B2)); lia. Qed.

Lemma kept_low B n : (if (length B + 1 + n <=? length B)%nat then (length B + 1)%nat else length B) = length B.
Proof. destruct (Nat.leb_spec (length B + 1 + n) (length B)); lia. Qed.

Lemma drop_here B here D : drop (length B + 1) (B ++ here :: D) = D.
Proof. rewrite drop_app_ge by lia. by replace (length B + 1 - length B)%nat with 1%nat by lia. Qed.
End Around.

(** ** The loop *)

Section Insert.
Context {S : Type} `{OrdKey S} (smin smax : S) (recs : nat -> option (Z * Z * S)) (N : nat) (a b : Z) (s : S).
Context (Hab : 0 <= a <= b) (Hb : b < 2 ^ 64) (HN : recs N = Some (a, b, s)) (Hmin : kle smin s) (Hmax : kle s smax).
Implicit Types (t B D : list (AddrRange S)) (x r here : AddrRange S).

Local Abbreviation pieces := (fun t => pieces_ok smin smax t recs).

Definition addr_range : AddrRange S := mk_AddrRange b b a b s N.

Definition piece (f l : Z) : AddrRange S := with_interval addr_range f l.

(** The other records are still covered, the new one up to [bound]. *)
Record inserting t (bound : Z) : Prop := {
  in_pieces : pieces t;
  in_others id a' b' s' p : id <> N -> recs id = Some (a', b', s') -> a' <= p <= b' ->
    exists x, x ∈ t /\ part_value x = id /\ covers x p;
  in_filled p : a <= p < bound -> exists x, x ∈ t /\ part_value x = N /\ covers x p;
  in_bound : a <= bound <= b
}.

Lemma add_pieces t t' f l : pieces t -> a <= f <= l -> l <= b -> (forall x, x ∈ t -> compatible x (piece f l)) ->
  ordered t' -> (forall x, x ∈ t' <-> x = piece f l \/ x ∈ t) -> pieces t'.
Proof.
  intros HT Hf Hl Hc Ho Hx. constructor; [done| |].
  - intros x y [->|Hx1]%Hx [->|Hy]%Hx; [left; done|apply compatible_sym; auto|auto|by apply (tr_apart _ _ _ _ HT)].
  - intros x [->|Hx1]%Hx; [|by apply (tr_entry _ _ _ _ HT)]. unfold entry_ok. simpl. repeat split; try lia; done.
Qed.

(** A new piece is in; the bound may move past it. *)
Lemma add_inserting t t' f l bound : inserting t f -> f <= l -> l <= b -> (forall x, x ∈ t -> compatible x (piece f l)) ->
  ordered t' -> (forall x, x ∈ t' <-> x = piece f l \/ x ∈ t) -> f <= bound <= l + 1 -> bound <= b -> inserting t' bound.
Proof.
  intros [Hp Ho Hf Hr] Hfl Hl Hc Hord Hx Hbd Hbb. constructor; [apply (add_pieces t _ f l); [done|lia|done..]| | |lia].
  - intros id a' b' s' p Hid Hrec Hpp. destruct (Ho id a' b' s' p Hid Hrec Hpp) as (x & Hxt & Hv & Hcv). exists x. rewrite Hx. auto.
  - intros p Hpp. destruct (decide (p < f)) as [Hlt|Hge].
    + destruct (Hf p ltac:(lia)) as (x & Hxt & Hv & Hcv). exists x. rewrite Hx. auto.
    + exists (piece f l). rewrite Hx. split; [by left|]. split; [done|]. unfold covers. simpl. lia.
Qed.

Lemma after_here B here D x : pieces (B ++ here :: D) -> x ∈ D -> same_interval here x \/ part_last here < part_first x.
Proof.
  intros HT Hx. assert (here ∈ B ++ here :: D) as Hh by (apply elem_of_app; right; by left).
  assert (x ∈ B ++ here :: D) as Hx1 by (apply elem_of_app; right; by right).
  destruct (tr_apart _ _ _ _ HT here x Hh Hx1) as [?|[?|Hbad]]; [by left|by right|].
  pose proof (tr_ordered _ _ _ _ HT) as Ho. apply StronglySorted_app in Ho as (_ & _ & Ho).
  apply StronglySorted_cons in Ho as [Hall _]. pose proof (key_last_le _ _ (proj1 (Forall_forall _ _) Hall x Hx)).
  destruct (tr_entry _ _ _ _ HT here Hh). lia.
Qed.

(** The state of the loop: what is behind [low] ends before [bound], and no
    interval straddles [bound]. *)
Record round B D (bound : Z) : Prop := {
  ro_in : inserting (B ++ D) bound;
  ro_behind x : x ∈ B -> part_last x < bound;
  ro_apart x : x ∈ D -> part_last x < bound \/ bound <= part_first x
}.

(** Entries the bound has passed need one round, others three. *)
Definition weight (bound : Z) (D : list (AddrRange S)) : nat :=
  sum_list_with (fun x => if bound <=? part_last x then 3%nat else 1%nat) D.

Lemma weight_mono bound bound' D : bound <= bound' -> (weight bound' D <= weight bound D)%nat.
Proof.
  intros Hle. induction D as [|x D IH]; [done|]. unfold weight in *. simpl.
  destruct (Z.leb_spec bound (part_last x)), (Z.leb_spec bound' (part_last x)); lia.
Qed.

Lemma weight_insert bound D1 r D2 : part_last r < bound -> weight bound (D1 ++ r :: D2) = Datatypes.S (weight bound (D1 ++ D2)).
Proof.
  intros Hr. unfold weight. rewrite !sum_list_with_app. simpl. destruct (Z.leb_spec bound (part_last r)); lia.
Qed.

(** The loop leaves with the last piece still to enter. *)
Definition leaving (r : list (AddrRange S) * Z) : Prop :=
  inserting r.1 r.2 /\ forall x, x ∈ r.1 -> compatible x (piece r.2 b).

(** The first half of a round: the gap before [here]. *)
Lemma gap_round B here D bound : round B (here :: D) bound -> bound <= part_last here -> part_first here <= b ->
  exists B', round B' (here :: D) (part_first here) /\
  (if bound <? part_first here then
     let! (t, pos) := insert_hint (B ++ here :: D) (length B) (piece bound (minus_one (part_first here))) in
     let low := if (pos <=? length B)%nat then (length B + 1)%nat else length B in
     let! here := index t low in
     Ok (t, low, part_first here)
   else Ok (B ++ here :: D, length B, bound)) = Ok (B' ++ here :: D, length B', part_first here).
Proof.
  intros [HI Hbehind Hap] Hlast Hfirst. pose proof (in_pieces _ _ HI) as HT. destruct (in_bound _ _ HI) as [Hba Hbb].
  destruct (Hap here) as [?|Hstart]; [by left|lia|].
  destruct (tr_entry _ _ _ _ HT here) as (Hhere & _); [apply elem_of_app; right; by left|].
  destruct (Z.ltb_spec bound (part_first here)) as [Hgap|Hno].
  2: { replace (part_first here) with bound by lia. by exists B. }
  assert (minus_one (part_first here) = part_first here - 1) as -> by (apply u64_small; lia).
  set (r := piece bound (part_first here - 1)).
  assert (forall x, x ∈ D -> part_first here <= part_first x) as Hafter.
  { intros x Hx. destruct (after_here B here D x HT Hx) as [[-> _]|]; lia. }
  destruct (hint_around B here D r (tr_ordered _ _ _ _ HT)) as [(B1 & B2 & -> & E & Ho)|(D1 & D2 & -> & E & Ho)].
  2: { exfalso. apply StronglySorted_app in Ho as (_ & _ & Ho). apply StronglySorted_cons in Ho as [Hall _].
    assert (r ∈ D1 ++ r :: D2) as Hr by (apply elem_of_app; right; by left).
    pose proof (key_last_le _ _ (proj1 (Forall_forall _ _) Hall r Hr)). simpl in *. lia. }
  exists (B1 ++ r :: B2). rewrite E. ostep. rewrite (bumped_low B1 r B2).
  replace (B1 ++ r :: B2 ++ here :: D) with ((B1 ++ r :: B2) ++ here :: D) in * by (by rewrite <- app_assoc).
  cbv zeta. rewrite (index_ok _ _ here) by (by rewrite lookup_app_r, Nat.sub_diag by done). ostep. split; [|done].
  constructor.
  - apply (add_inserting ((B1 ++ B2) ++ here :: D) _ bound (part_first here - 1)); [done|lia|lia| |done| |lia|lia].
    + intros x [Hx|[->|Hx]%elem_of_cons]%elem_of_app; unfold compatible; simpl; [pose proof (Hbehind x Hx)|..]; [lia|lia|].
      pose proof (Hafter x Hx). lia.
    + intros x. rewrite !elem_of_app, !elem_of_cons. unfold r. tauto.
  - intros x. rewrite elem_of_app, elem_of_cons. intros [Hx|[->|Hx]]; [|simpl; lia|];
      (assert (part_last x < bound); [apply Hbehind, elem_of_app; tauto|lia]).
  - intros x [->|Hx]%elem_of_cons; right; [done|by apply Hafter].
Qed.

(** The piece beside [here], where [here] ends inside the new record. *)
Lemma beside_round B here D : round B (here :: D) (part_first here) -> part_first here <= part_last here ->
  exists B' D' pos,
  insert_hint (B ++ here :: D) (length B) (piece (part_first here) (part_last here)) = Ok (B' ++ here :: D', pos) /\
  (if (pos <=? length B)%nat then (length B + 1)%nat else length B) = length B' /\
  (forall x, x ∈ B' ++ here :: D' <-> x = piece (part_first here) (part_last here) \/ x ∈ B ++ here :: D) /\
  ordered (B' ++ here :: D') /\ (weight (part_last here + 1) D' <= Datatypes.S (weight (part_first here) D))%nat /\
  (forall x, x ∈ B' -> part_last x <= part_last here).
Proof.
  intros [HI Hbehind Hap] Hsize. set (r := piece _ _). pose proof (in_pieces _ _ HI) as HT.
  pose proof (weight_mono (part_first here) (part_last here + 1) D ltac:(lia)) as Hw.
  destruct (hint_around B here D r (tr_ordered _ _ _ _ HT)) as [(B1 & B2 & -> & E & Ho)|(D1 & D2 & -> & E & Ho)].
  - exists (B1 ++ r :: B2), D, (length B1). rewrite E, <- app_assoc. split; [done|]. split; [apply bumped_low|].
    split; [intros x; repeat (rewrite elem_of_app || rewrite elem_of_cons); tauto|]. split; [done|]. split; [lia|].
    intros x. rewrite elem_of_app, elem_of_cons. intros [Hx|[->|Hx]]; [|simpl; lia|];
      (assert (part_last x < part_first here); [apply Hbehind, elem_of_app; tauto|lia]).
  - exists B, (D1 ++ r :: D2), (length B + 1 + length D1)%nat. rewrite E. split; [done|]. split; [apply kept_low|].
    split; [intros x; repeat (rewrite elem_of_app || rewrite elem_of_cons); tauto|]. split; [done|].
    split; [rewrite weight_insert by (simpl; lia); lia|]. intros x Hx. pose proof (Hbehind x Hx). lia.
Qed.

(** Where [here] ends after the new record, it is cut. *)
Lemma cut_round B here D : round B (here :: D) (part_first here) -> part_first here <= b < part_last here ->
  exists t n, unzip (B ++ here :: D) b (length B) = Ok (t, n) /\ leaving (t, part_first here).
Proof.
  intros [HI Hbehind Hap] Hcut. pose proof (in_pieces _ _ HI) as HT.
  assert (take (length B) (B ++ here :: D) = B) as EB by apply take_app_length.
  destruct (unzip_ok smin smax (B ++ here :: D) recs (length B) here b) as (G & R & Et & Hin & HG & HR & E);
    [done|by rewrite lookup_app_r, Nat.sub_diag by done|by rewrite EB|done|].
  rewrite EB in Et, E. eexists _, _. split; [exact E|].
  destruct (tr_entry _ _ _ _ HT here) as (Hhere & Hw & _); [apply elem_of_app; right; by left|].
  rewrite Et in HT, HI. pose proof (split_cover B G R here b Hcut ltac:(lia)) as Hk.
  pose proof (split_pieces smin smax B G R recs here b HT Hcut ltac:(lia) Hbehind HG HR) as HT'. split.
  - destruct HI as [_ Ho Hf Hbd]. constructor; [done| | |done].
    + intros id a' b' s' p Hid Hrec Hpp. destruct (Ho id a' b' s' p Hid Hrec Hpp) as (x & Hxt & <- & Hcv). by apply Hk.
    + intros p Hpp. destruct (Hf p Hpp) as (x & Hxt & <- & Hcv). by apply Hk.
  - intros x Hx. simpl in Hx. assert (compatible x (left_part b here)) as Hc; [|exact Hc].
    apply (tr_apart _ _ _ _ HT'); [done|]. rewrite !elem_of_app, list_elem_of_fmap. right. left. by exists here.
Qed.

Definition at_round (st : list (AddrRange S) * nat * Z) : Prop :=
  exists B D, st.1.1 = B ++ D /\ st.1.2 = length B /\ round B D st.2.

Definition rounds_left (st : list (AddrRange S) * nat * Z) : nat := weight st.2 (drop st.1.2 st.1.1).

Lemma pass_round B here D bound : round B (here :: D) bound -> part_last here < bound -> round (B ++ [here]) D bound.
Proof.
  intros [HI Hbehind Hap] Hl. constructor.
  - by rewrite <- app_assoc.
  - intros x [Hx|Hx]%elem_of_app; [by apply Hbehind|]. by apply list_elem_of_singleton in Hx as ->.
  - intros x Hx. apply Hap. by right.
Qed.

Lemma insert_step_ok st : at_round st ->
  (exists st', insert_step b addr_range st = Ok (inl st') /\ at_round st' /\ (rounds_left st' < rounds_left st)%nat) \/
  (exists q, insert_step b addr_range st = Ok (inr q) /\ leaving q).
Proof.
  destruct st as [[t low] bound]. intros (B & D & Et & El & HR). simpl in Et, El, HR. subst t low. unfold insert_step, rounds_left. simpl.
  pose proof (ro_in _ _ _ HR) as HI. pose proof (in_pieces _ _ HI) as HT.
  destruct D as [|here D].
  { right. rewrite app_nil_r, Nat.eqb_refl. eexists. split; [done|]. split; [by rewrite app_nil_r in HI|].
    intros x Hx. right. left. by apply (ro_behind _ _ _ HR). }
  destruct (Nat.eqb_spec (length B) (length (B ++ here :: D))) as [E|_]; [rewrite length_app in E; simpl in E; lia|].
  assert ((B ++ here :: D) !! length B = Some here) as Hat by (by rewrite lookup_app_r, Nat.sub_diag by done).
  rewrite (index_ok _ _ _ Hat). ostep. rewrite drop_app_length.
  destruct (tr_entry _ _ _ _ HT here) as (Hhere & Hw & _); [by eapply list_elem_of_lookup_2|].
  destruct (Z.ltb_spec b (part_first here)) as [Hpast|Hin].
  { right. eexists. split; [done|]. split; [done|]. destruct (in_bound _ _ HI). intros x [Hx|[->|Hx]%elem_of_cons]%elem_of_app; simpl.
    - right. left. by apply (ro_behind _ _ _ HR).
    - right. right. done.
    - right. right. destruct (after_here B here D x HT Hx) as [[<- _]|]; simpl; lia. }
  destruct (Z.ltb_spec (part_last here) bound) as [Hpassed|Hnow].
  { left. eexists. split; [done|]. simpl. split.
    - exists (B ++ [here]), D. simpl. rewrite <- app_assoc, length_app. split; [done|]. split; [done|]. by apply pass_round.
    - rewrite drop_here.
      unfold weight. simpl. destruct (bound <=? part_last here); lia. }
  destruct (gap_round B here D bound HR Hnow Hin) as (B' & HR' & E). fold (piece bound (minus_one (part_first here))).
  unfold obind in E. rewrite E. clear E.
  assert ((B' ++ here :: D) !! length B' = Some here) as Hat' by (by rewrite lookup_app_r, Nat.sub_diag by done).
  rewrite (index_ok _ _ _ Hat'). ostep.
  destruct (Z.leb_spec (part_last here) b) as [Hends|Hlonger].
  2: { right. destruct (cut_round B' here D HR' ltac:(lia)) as (t & n & -> & Hl). by eexists. }
  fold (piece (part_first here) (part_last here)).
  destruct (beside_round B' here D HR' ltac:(lia)) as (B2 & D2 & pos & -> & El & Helem & Ho & Hwt & Hlow). ostep. cbv zeta. rewrite El.
  rewrite (index_ok _ _ here) by (by rewrite lookup_app_r, Nat.sub_diag by done). ostep.
  assert (forall x, x ∈ B' ++ here :: D -> compatible x (piece (part_first here) (part_last here))) as Hc.
  { intros x Hx. assert (compatible x here) as Hch; [|exact Hch].
    apply (tr_apart _ _ _ _ (in_pieces _ _ (ro_in _ _ _ HR'))); [done|]. apply elem_of_app. right. by left. }
  pose proof (add_inserting _ _ _ (part_last here) (part_first here) (ro_in _ _ _ HR') ltac:(lia) Hends Hc Ho Helem ltac:(lia) ltac:(lia)) as HI2.
  destruct (Z.eqb_spec (part_last here) b) as [Eb|Hne].
  { right. eexists. split; [done|]. split; [done|]. intros x Hx. simpl in Hx |- *. rewrite <- Eb.
    apply (tr_apart _ _ _ _ (in_pieces _ _ HI2)); [done|]. apply Helem. by left. }
  left. assert (plus_one (part_last here) = part_last here + 1) as -> by (apply u64_small; lia).
  eexists. split; [done|]. simpl. split.
  - exists (B2 ++ [here]), D2. simpl. rewrite <- app_assoc, length_app. split; [done|]. split; [done|]. constructor.
    + rewrite <- app_assoc. apply (add_inserting (B' ++ here :: D) _ (part_first here) (part_last here)); try done; [apply HR'|lia|lia|lia].
    + intros x [Hx|Hx]%elem_of_app; [pose proof (Hlow x Hx); lia|]. apply list_elem_of_singleton in Hx as ->. lia.
    + intros x Hx. destruct (tr_apart _ _ _ _ (in_pieces _ _ HI2) here x) as [[_ Es]|[Hlt|Hlt]]; [apply elem_of_app; right; by left| |lia|lia|].
      * apply elem_of_app. right. by right.
      * left. lia.
  - rewrite drop_here.
    unfold weight at 2. simpl. destruct (Z.leb_spec bound (part_last here)); [|lia].
    pose proof (weight_mono bound (part_first here) D) as Hm. fold (weight bound D).
    destruct (ro_apart _ _ _ HR here ltac:(by left)); [lia|]. specialize (Hm ltac:(lia)). lia.
Qed.

(** The whole insertion of the pieces. *)
Lemma insert_pieces_ok B D : round B D a -> exists t, insert_pieces (B ++ D) (length B) a b addr_range = Ok t /\ tree_ok smin smax t recs.
Proof.
  intros HR. unfold insert_pieces.
  destruct (loop_inv at_round leaving rounds_left (insert_step b addr_range) (Datatypes.S (3 * length (B ++ D))) (B ++ D, length B, a))
    as ([t bound] & -> & HI & Hc); [by exists B, D| |apply insert_step_ok|].
  { unfold rounds_left. simpl. rewrite drop_app_length. apply (Nat.le_lt_trans _ (3 * length D)); [|rewrite length_app; lia].
    unfold weight. clear. induction D as [|x D IH]; simpl; [lia|]. destruct (a <=? part_last x); lia. }
  ostep. simpl in HI, Hc. destruct (in_bound _ _ HI) as [Hba Hbb]. destruct (Z.leb_spec bound b); [|lia].
  fold (piece bound b). pose proof (in_pieces _ _ HI) as HT.
  destruct (insert_plain_ok t (piece bound b) (tr_ordered _ _ _ _ HT)) as (pos & -> & Ho). ostep. eexists. split; [done|].
  assert (forall x, x ∈ take pos t ++ piece bound b :: drop pos t <-> x = piece bound b \/ x ∈ t) as Hx by (intros; apply elem_of_insertion).
  split; [apply (add_pieces t _ bound b); [done|lia|lia|done..]|].
  intros id a' b' s' p Hid Hp. destruct (decide (id = N)) as [->|Hne].
  - rewrite HN in Hid. injection Hid as <- <- <-. destruct (decide (p < bound)).
    + destruct (in_filled _ _ HI p ltac:(lia)) as (x & Hxt & Hr). exists x. rewrite Hx. auto.
    + exists (piece bound b). rewrite Hx. split; [by left|]. split; [done|]. unfold covers. simpl. lia.
  - destruct (in_others _ _ HI id a' b' s' p Hne Hid Hp) as (x & Hxt & Hr). exists x. rewrite Hx. auto.
Qed.

(** The start: the interval that holds [a] is cut before it. *)
Lemma insert_start t : pieces t -> (forall id a' b' s' p, id <> N -> recs id = Some (a', b', s') -> a' <= p <= b' ->
    exists x, x ∈ t /\ part_value x = id /\ covers x p) ->
  exists B D, round B D a /\ (forall x, x ∈ B ++ D -> exists y, y ∈ t /\ part_value x = part_value y) /\
  (let low := lower_bound t a smin in
   if (low =? length t)%nat then Ok (t, low)
   else
     let! here := index t low in
     if part_first here <? a then
       let! (t, shift) := unzip t (minus_one a) low in
       Ok (t, (low + shift)%nat)
     else Ok (t, low)) = Ok (B ++ D, length B).
Proof.
  intros HT Hothers. destruct (lower_min smin smax t recs a (tr_ordered _ _ _ _ HT) (tr_entry _ _ _ _ HT)) as (Hn & Hlow & Hhigh).
  cbv zeta. set (low := lower_bound t a smin) in *.
  assert (length (take low t) = low) as Hl by (rewrite length_take; lia).
  assert ((forall x, x ∈ drop low t -> a <= part_first x) -> round (take low t) (drop low t) a) as Hround.
  { intros Hx. constructor; [|done|intros x Hd; right; by apply Hx]. rewrite take_drop. constructor; [done|done|lia|lia]. }
  destruct (Nat.eqb_spec low (length t)) as [E|Hne].
  { exists (take low t), (drop low t). rewrite take_drop, Hl. split; [|split; [eauto|done]]. apply Hround. intros x Hx. rewrite drop_ge in Hx by lia. by apply not_elem_of_nil in Hx. }
  destruct (lookup_lt_is_Some_2 t low ltac:(lia)) as [here Hat]. rewrite (index_ok _ _ _ Hat). ostep.
  pose proof (drop_S _ _ _ Hat) as Ed. pose proof (Hhigh here ltac:(rewrite Ed; by left)) as Hlast.
  assert (here ∈ t) as Hin by (by eapply list_elem_of_lookup_2). destruct (tr_entry _ _ _ _ HT here Hin) as (Hhere & Hw & _).
  destruct (Z.ltb_spec (part_first here) a) as [Hcut|Hno].
  2: { exists (take low t), (drop low t). rewrite take_drop, Hl. split; [|split; [eauto|done]]. apply Hround. intros x Hx. rewrite Ed in Hx.
    rewrite <- (take_drop low t), Ed in HT. apply elem_of_cons in Hx as [->|Hx]; [done|].
    destruct (after_here _ _ _ _ HT Hx) as [[<- _]|]; lia. }
  assert (minus_one a = a - 1) as -> by (apply u64_small; lia).
  assert (forall x, x ∈ take low t -> part_last x < part_first here) as Hbefore.
  { intros x Hx. pose proof (Hlow x Hx). assert (x ∈ t) as Hxt by (rewrite <- (take_drop low t); apply elem_of_app; by left).
    destruct (tr_apart _ _ _ _ HT x here Hxt Hin) as [[_ ?]|[?|?]]; [lia|done|]. destruct (tr_entry _ _ _ _ HT x Hxt). lia. }
  destruct (unzip_ok smin smax t recs low here (a - 1) HT Hat Hbefore ltac:(lia)) as (G & Rest & Et & Hg & HG & HR & E).
  rewrite E. ostep. exists (take low t ++ (left_part (a - 1) <$> G)), ((right_part (a - 1) <$> G) ++ Rest).
  rewrite <- app_assoc, length_app, length_fmap, Hl. split; [|split; [|done]].
  2: { intros x [Hx|[Hx|(y & Hy & Hx)]]%split_elem; [exists x..|exists y]; rewrite Et, !elem_of_app; [tauto|tauto|].
    split; [tauto|]. by destruct Hx as [->| ->]. }
  rewrite Et in HT, Hothers.
  assert (forall x, part_first (right_part (a - 1) x) = a) as Hright by (intros x; rewrite (right_start here (a - 1) ltac:(lia) ltac:(lia)); lia).
  constructor.
  - rewrite <- app_assoc. constructor; [by apply (split_pieces smin smax _ _ _ recs here); try done; lia| |lia|lia].
    intros id a' b' s' p Hid Hrec Hp. destruct (Hothers id a' b' s' p Hid Hrec Hp) as (x & Hx & <- & Hcv).
    by apply (split_cover (take low t) G Rest here (a - 1) ltac:(lia) ltac:(lia)).
  - intros x [Hx|(y & -> & Hy)%list_elem_of_fmap]%elem_of_app; [by apply Hlow|simpl; lia].
  - intros x [(y & -> & Hy)%list_elem_of_fmap|Hx]%elem_of_app; right; [by rewrite Hright|]. pose proof (HR x Hx). lia.
Qed.

End Insert.

(** ** The map *)

(** What the source asks of a record type: a record is where it was made. *)
Class RecordLaws (R Init S : Type) `{RangeRecord R Init S} : Prop := {
  get_first_new d a b : get_first (new_record d a b) = a;
  get_last_new d a b : get_last (new_record d a b) = b
}.

Section Maps.
Context {R Init S : Type} `{RecordLaws R Init S}.
Implicit Types (m : RangeMap R S) (nodes : Arena (RecordNode R)).

Definition record_at nodes (id : nat) : option R := record <$> try_get nodes id.

(** The intervals and keys of the records of an arena. *)
Definition intervals nodes (id : nat) : option (Z * Z * S) :=
  (fun r => (get_first r, get_last r, get_subsort r)) <$> record_at nodes id.

Record map_ok m (order : list nat) : Prop := {
  mo_tree : tree_ok (from_bool false) (from_bool true) (tree m) (intervals (records m));
  mo_linked : linked (records m) (record_list m) order;
  mo_all id : id ∈ order <-> is_Some (record_at (records m) id)
}.

(** *** The list of the records *)

Lemma write_links_record nodes s id f nodes' : write_links nodes s id f = Ok nodes' ->
  forall x, record_at nodes' x = record_at nodes x.
Proof.
  unfold write_links. rewrite get_try. destruct (try_get nodes id) as [n|] eqn:E; [|done]. ostep. intros Hp x.
  destruct (put_ok nodes id (set_links n s (f (links n s))) n E) as (nodes'' & E' & _ & _ & Hid & Hother).
  rewrite E' in Hp. injection Hp as <-. unfold record_at. destruct (decide (x = id)) as [->|Hne].
  - by rewrite Hid, E.
  - by rewrite Hother.
Qed.

Lemma insert_record l nodes pos id l' nodes' : OpList.insert l nodes pos id = Ok (l', nodes') ->
  forall x, record_at nodes' x = record_at nodes x.
Proof.
  unfold OpList.insert. destruct (match pos with Some _ => _ | None => _ end) as [prv| | |]; try done. ostep.
  destruct (write_links nodes _ id _) as [n1| | |] eqn:E1; try done.
  destruct prv as [previous|]; [destruct (write_links n1 _ previous _) as [n2| | |] eqn:E2; try done|];
    (destruct pos as [position|]; [destruct (write_links _ _ position _) as [n3| | |] eqn:E3; try done|]);
    intros [= _ <-] x; rewrite ?(write_links_record _ _ _ _ _ E3), ?(write_links_record _ _ _ _ _ E2); by apply (write_links_record _ _ _ _ _ E1).
Qed.

Lemma alloc_record nodes r : Z.of_nat (length (slots nodes)) < 2 ^ 32 -> let id := length (slots nodes) in
  exists nodes', alloc nodes (mk_RecordNode r ∅) = Ok (nodes', id) /\ length (slots nodes') = Datatypes.S id /\
  try_get nodes' id = Some (mk_RecordNode r ∅) /\ (forall x, x <> id -> try_get nodes' x = try_get nodes x).
Proof.
  intros Hlt id. unfold alloc, arena_from_index. destruct (Z.ltb_spec (Z.of_nat (length (slots nodes))) (2 ^ 32)) as [_|]; [|lia].
  ostep. eexists. split; [done|]. simpl. unfold try_get. simpl. split; [rewrite length_app; simpl; lia|]. split.
  - by rewrite lookup_app_r, Nat.sub_diag by done.
  - intros x Hx. destruct (decide (x < id)%nat).
    + by rewrite lookup_app_l.
    + rewrite lookup_ge_None_2 by (rewrite length_app; simpl; lia). by rewrite lookup_ge_None_2 by lia.
Qed.

(** *** Insertion *)

Lemma entry_weaken smin smax (recs recs' : nat -> option (Z * Z * S)) (x : AddrRange S) : (forall id r, recs id = Some r -> recs' id = Some r) ->
  entry_ok smin smax recs x -> entry_ok smin smax recs' x.
Proof. intros Hw (P1 & P2 & P3 & P4). split; [done|]. split; [done|]. split; [by apply Hw|done]. Qed.

Lemma tree_ok_ext smin smax (t : list (AddrRange S)) recs recs' : (forall id, recs' id = recs id) ->
  tree_ok smin smax t recs -> tree_ok smin smax t recs'.
Proof.
  intros E [HT Hc]. split.
  - constructor; [apply HT|apply HT|]. intros x Hx. eapply entry_weaken; [|by apply (tr_entry _ _ _ _ HT)]. intros id i. by rewrite E.
  - intros id a b s p. rewrite E. apply Hc.
Qed.

Lemma linked_grow nodes nodes' l order n : linked nodes l order -> (forall x, x ∈ order -> try_get nodes' x = try_get nodes x) ->
  length (slots nodes') = n -> Z.of_nat n <= 2 ^ 32 -> linked nodes' l order.
Proof.
  intros (P1 & P2 & P3 & P4 & P5 & P6) Hx <- Hn. repeat split; try done.
  eapply chain_ext; [|done]. intros x Hxo. unfold links_at. by rewrite Hx.
Qed.

Lemma insert_spec_map m order data a b : map_ok m order -> 0 <= a <= b -> b < 2 ^ 64 ->
  Z.of_nat (length (slots (records m))) < 2 ^ 32 ->
  kle (from_bool false) (get_subsort (new_record data a b)) -> kle (get_subsort (new_record data a b)) (from_bool true) ->
  exists m' order', let id := length (slots (records m)) in rangemap_insert m data a b = Ok (m', id) /\ map_ok m' order' /\
  length (slots (records m')) = Datatypes.S id /\
  record_at (records m) id = None /\ record_at (records m') id = Some (new_record data a b) /\
  forall j, j <> id -> record_at (records m') j = record_at (records m) j.
Proof.
  intros [[HT Hcov] Hlk Hall] Hab Hb Hlen Hmin Hmax. set (r := new_record data a b) in *. set (N := length (slots (records m))).
  destruct (alloc_record (records m) r Hlen) as (nodes & Ea & Hln & Hat & Hothers). fold N in Ea, Hln, Hat, Hothers.
  assert (try_get (records m) N = None) as Hnone by (unfold try_get; by rewrite lookup_ge_None_2).
  assert (N ∉ order) as Hnew by (rewrite Hall; unfold record_at; rewrite Hnone; by intros []).
  assert (forall j, j <> N -> record_at nodes j = record_at (records m) j) as Hrec by (intros j Hj; unfold record_at; by rewrite Hothers).
  assert (record_at nodes N = Some r) as HrN by (unfold record_at; by rewrite Hat).
  assert (intervals nodes N = Some (a, b, get_subsort r)) as HN.
  { unfold intervals. rewrite HrN. simpl. unfold r. by rewrite get_first_new, get_last_new. }
  destruct (insert_start (from_bool false) (from_bool true) (intervals nodes) N a b Hab Hb (tree m))
    as (B & D & Hround & Hvalues & Estart).
  { constructor; [apply HT|apply HT|]. intros x Hx. eapply entry_weaken; [|by apply (tr_entry _ _ _ _ HT)].
    intros j i Hj. unfold intervals in *. rewrite Hrec; [done|]. intros ->. unfold record_at in Hj. by rewrite Hnone in Hj. }
  { intros id a' b' s' p Hid Hi Hp. apply (Hcov id a' b' s'); [|done]. unfold intervals in *. by rewrite <- Hrec. }
  unfold rangemap_insert. cbv zeta in Estart |- *. rewrite Estart. ostep. fold r. rewrite Ea. ostep.
  rewrite get_try, Hat. ostep. simpl record.
  assert (exists l1 l2, order = l1 ++ l2 /\
    (if (lower_bound (B ++ D) b (get_subsort r) =? length (B ++ D))%nat then Ok None
     else let! range := index (B ++ D) (lower_bound (B ++ D) b (get_subsort r)) in Ok (Some (part_value range))) = Ok (hd_or l2 None))
    as (l1 & l2 & Eo & Epos).
  { destruct (Nat.eqb_spec (lower_bound (B ++ D) b (get_subsort r)) (length (B ++ D))) as [_|Hne];
      [exists order, []; by rewrite app_nil_r|].
    destruct (partition_point_split (fun x => key_less x b (get_subsort r)) (B ++ D)) as (Hle & _ & _).
    fold (lower_bound (B ++ D) b (get_subsort r)) in Hle.
    destruct (lookup_lt_is_Some_2 (B ++ D) (lower_bound (B ++ D) b (get_subsort r)) ltac:(lia)) as [x Hx].
    rewrite (index_ok _ _ _ Hx). ostep. apply list_elem_of_lookup_2 in Hx. destruct (Hvalues x Hx) as (y & Hy & ->).
    destruct (tr_entry _ _ _ _ HT y Hy) as (_ & _ & Hi & _). assert (part_value y ∈ order) as Hin.
    { apply Hall. unfold intervals in Hi. destruct (record_at (records m) (part_value y)); [by eexists|done]. }
    apply list_elem_of_split in Hin as (l1 & l2 & ->). by exists l1, (part_value y :: l2). }
  simpl part_last. simpl subsort. unfold obind in Epos. rewrite Epos. rewrite Eo in Hlk, Hnew.
  destruct (OpList.insert_spec nodes (record_list m) l1 l2 N) as (lst & nodes' & Ei & _ & Hlk' & Hframe); [|by rewrite Hat|done|].
  { eapply linked_grow; [done| |exact Hln|unfold N; lia]. intros x Hx. apply Hothers. by intros ->. }
  rewrite Ei. ostep. pose proof (insert_record _ _ _ _ _ _ Ei) as Hkeep.
  destruct (insert_pieces_ok (from_bool false) (from_bool true) (intervals nodes) N a b (get_subsort r) Hab Hb HN Hmin Hmax B D Hround)
    as (t & Et & HT').
  unfold addr_range in Et. rewrite Et. ostep. eexists _, (l1 ++ N :: l2). split; [done|]. simpl. split; [|split; [|split; [|split]]].
  - constructor; simpl; [|done|].
    + eapply tree_ok_ext; [|exact HT']. intros id. unfold intervals. by rewrite Hkeep.
    + intros id. rewrite Hkeep. destruct (decide (id = N)) as [->|Hne].
      * rewrite HrN. split; [by eexists|]. intros _. apply elem_of_app. right. by left.
      * rewrite Hrec by done. rewrite <- Hall, Eo, !elem_of_app, elem_of_cons. tauto.
  - destruct Hframe as [(<- & _) _]. done.
  - unfold record_at. by rewrite Hnone.
  - by rewrite Hkeep.
  - intros j Hj. rewrite Hkeep. by apply Hrec.
Qed.

(** The values of the entries that [find] returns. *)
Lemma find_values m order p : map_ok m order -> exists i j, map_find (tree m) p = Ok (i, j) /\ (i <= j <= length (tree m))%nat /\
  forall id, id ∈ part_value <$> between (tree m) i j <->
    exists r, record_at (records m) id = Some r /\ get_first r <= p <= get_last r.
Proof.
  intros [[HT Hcov] _ _]. destruct (find_ok (from_bool false) (from_bool true) (tree m) (intervals (records m)) p HT) as (i & j & E & Hij & Hx).
  exists i, j. split; [exact E|]. split; [done|]. intros id. rewrite list_elem_of_fmap. split.
  - intros (x & -> & [Hin Hc]%Hx). destruct (tr_entry _ _ _ _ HT x Hin) as (_ & _ & Hi & Ha & Hb & _). unfold intervals in Hi.
    destruct (record_at (records m) (part_value x)) as [r|]; [|done]. injection Hi as E1 E2 _. exists r. split; [done|].
    unfold covers in Hc. lia.
  - intros (r & Hr & Hp). destruct (Hcov id (get_first r) (get_last r) (get_subsort r) p) as (x & Hin & Hv & Hc);
      [unfold intervals; by rewrite Hr|done|]. exists x. split; [done|]. by apply Hx.
Qed.

(** C10: inserting a record keeps the map well formed (the entries are sorted,
    cut the line without straddling, each is a piece of its record, and every
    point of every record has a piece of it; the list links exactly the
    records), gives the record a fresh identifier, and changes no other
    record. *)
Theorem insert_keeps_map m order data a b : map_ok m order -> 0 <= a <= b -> b < 2 ^ 64 ->
  Z.of_nat (length (slots (records m))) < 2 ^ 32 ->
  kle (from_bool false) (get_subsort (new_record data a b)) -> kle (get_subsort (new_record data a b)) (from_bool true) ->
  exists m' id order', rangemap_insert m data a b = Ok (m', id) /\ map_ok m' order' /\ list_ids m' = Ok order' /\
  record_at (records m) id = None /\ record_at (records m') id = Some (new_record data a b) /\
  forall j, j <> id -> record_at (records m') j = record_at (records m) j.
Proof.
  intros Hm Hab Hb Hlen Hmin Hmax. destruct (insert_spec_map m order data a b Hm Hab Hb Hlen Hmin Hmax) as (m' & order' & E & Hm' & _ & Hrest).
  eexists m', _, order'. split; [exact E|]. split; [done|]. split; [|exact Hrest]. apply to_vec_spec, Hm'.
Qed.

(** *** Several insertions *)

Fixpoint insert_all (l : list (Init * Z * Z)) m : outcome (RangeMap R S) :=
  match l with
  | [] => Ok m
  | (data, a, b) :: l => let! (m, _) := rangemap_insert m data a b in insert_all l m
  end.

(** A request the map takes: an interval of [u64] and a key in the range. *)
Definition takes (q : Init * Z * Z) : Prop :=
  let '(data, a, b) := q in 0 <= a <= b /\ b < 2 ^ 64 /\
  kle (from_bool false) (get_subsort (new_record data a b)) /\ kle (get_subsort (new_record data a b)) (from_bool true).

Definition made (q : Init * Z * Z) : R := let '(data, a, b) := q in new_record data a b.

Lemma new_map_ok : map_ok rangemap_new [].
Proof.
  constructor; simpl.
  - split; [|by intros]. constructor; [constructor|intros x y []%not_elem_of_nil|intros x []%not_elem_of_nil].
  - repeat split; [constructor|done].
  - intros id. split; [intros []%not_elem_of_nil|by intros [? ?]].
Qed.

Lemma inserts_ok l : forall past m order, map_ok m order -> length (slots (records m)) = length past ->
  (forall id, record_at (records m) id = made <$> past !! id) -> Forall takes l ->
  Z.of_nat (length (past ++ l)) <= 2 ^ 32 ->
  exists m' order', insert_all l m = Ok m' /\ map_ok m' order' /\ forall id, record_at (records m') id = made <$> (past ++ l) !! id.
Proof.
  induction l as [|[[data a] b] l IH]; intros past m order Hm Hlen Hrec Hl Hbound.
  { exists m, order. by rewrite app_nil_r. }
  apply Forall_cons in Hl as [(Hab & Hb & Hmin & Hmax) Hl]. rewrite length_app in Hbound. simpl in Hbound.
  destruct (insert_spec_map m order data a b Hm Hab Hb ltac:(lia) Hmin Hmax) as (m1 & order1 & E & Hm1 & Hlen1 & _ & Hnew & Hold).
  simpl. rewrite E. ostep. rewrite Hlen in *. destruct (IH (past ++ [(data, a, b)]) m1 order1) as (m' & order' & E' & Hm' & Hrec'); [done| | |done| |].
  - rewrite Hlen1, length_app. simpl. lia.
  - intros id. destruct (decide (id = length past)) as [->|Hne].
    + by rewrite Hnew, lookup_app_r, Nat.sub_diag by done.
    + rewrite Hold, Hrec by done. destruct (decide (id < length past)%nat); [by rewrite lookup_app_l|].
      rewrite !lookup_ge_None_2; [done| |lia]. rewrite length_app. simpl. lia.
  - rewrite <- app_assoc, length_app. simpl. lia.
  - exists m', order'. split; [done|]. split; [done|]. intros id. by rewrite Hrec', <- app_assoc.
Qed.

(** C9: after any sequence of insertions into a new map, [find] at a point
    returns, without a panic, entries of exactly the records whose interval
    holds the point, whatever the overlaps; the list holds every record
    once. *)
Theorem find_after_inserts l : Forall takes l -> Z.of_nat (length l) <= 2 ^ 32 ->
  exists m order, insert_all l rangemap_new = Ok m /\ list_ids m = Ok order /\ order ≡ₚ seq 0 (length l) /\
  forall p, exists i j, map_find (tree m) p = Ok (i, j) /\ (i <= j <= length (tree m))%nat /\
    forall id, id ∈ part_value <$> between (tree m) i j <-> exists data a b, l !! id = Some (data, a, b) /\ a <= p <= b.
Proof.
  intros Hl Hlen. destruct (inserts_ok l [] rangemap_new [] new_map_ok) as (m & order & E & Hm & Hrec); [done|done|done|done|].
  exists m, order. split; [done|]. split; [apply to_vec_spec, Hm|]. split.
  - apply NoDup_Permutation; [apply Hm|apply NoDup_seq|]. intros id. rewrite (mo_all _ _ Hm), Hrec, fmap_is_Some, elem_of_seq.
    rewrite lookup_lt_is_Some. simpl. lia.
  - intros p. destruct (find_values m order p Hm) as (i & j & Ef & Hij & Hx). exists i, j. split; [done|]. split; [done|].
    intros id. rewrite Hx. setoid_rewrite Hrec. simpl. destruct (l !! id) as [[[data a] b]|] eqn:El; simpl.
    + split.
      * intros (r & [= <-] & Hp). rewrite get_first_new, get_last_new in Hp. by exists data, a, b.
      * intros (data' & a' & b' & [= <- <- <-] & Hp). eexists. split; [done|]. by rewrite get_first_new, get_last_new.
    + split; [by intros (? & ? & _)|by intros (? & ? & ? & ? & _)].
Qed.
End Maps.

#[export] Instance test_laws : RecordLaws TestRecord Z Z.
Proof. by constructor. Qed.

(** A record put into a map that holds another, which it cuts in two pieces. *)
Lemma insert_keeps_map_witness : exists m' id order',
  (let! (m, _) := rangemap_insert (rangemap_new : RangeMap TestRecord Z) 1 10 19 in rangemap_insert m 2 15 24) = Ok (m', id) /\
  map_ok m' order' /\ list_ids m' = Ok order' /\ record_at (records m') 0 = Some (new_record 1 10 19).
Proof.
  destruct (insert_keeps_map rangemap_new [] 1 10 19) as (m1 & id1 & order1 & E1 & Hm1 & _ & _ & Hrec & _);
    [apply new_map_ok|lia|lia|simpl; lia|vm_compute; discriminate|vm_compute; discriminate|].
  assert (id1 = 0%nat /\ length (slots (records m1)) = 1%nat) as [-> Hl].
  { vm_compute in E1. injection E1 as <- <-. by split. }
  destruct (insert_keeps_map m1 order1 2 15 24) as (m' & id & order' & E & Hm & Hids & Hnew & _ & Hrest);
    [exact Hm1|lia|lia|rewrite Hl; lia|vm_compute; discriminate|vm_compute; discriminate|].
  exists m', id, order'. rewrite E1. cbn [obind]. split; [exact E|]. split; [exact Hm|]. split; [exact Hids|].
  rewrite Hrest; [exact Hrec|]. intros <-. by rewrite Hrec in Hnew.
Defined.

Lemma find_after_inserts_witness : exists m order,
  insert_all [(1, 10, 19); (2, 15, 24); (3, 10, 19)] (rangemap_new : RangeMap TestRecord Z) = Ok m /\
  list_ids m = Ok order /\ order ≡ₚ [0; 1; 2]%nat.
Proof.
  destruct (find_after_inserts [(1, 10, 19); (2, 15, 24); (3, 10, 19)]) as (m & order & E & Hl & Hp & _).
  - repeat constructor; vm_compute; discriminate.
  - vm_compute. discriminate.
  - exists m, order. split; [exact E|]. split; [exact Hl|exact Hp].
Defined.
