(* ===== verification/Crc32.v ===== *)
(** The table-driven CRC of [src/src/crc32.rs], which the dynamic hashes use.
    One step with the table is eight steps of the bit-serial register with the
    reflected polynomial 0xedb88320. *)
From stdpp Require Import base list numbers.
From Stdlib Require Import ZArith Lia.
From S2P Require Import Prelude.
Local Open Scope Z_scope.

(** ** Definitions *)

Definition CRC32TAB : list Z :=
  [0x00000000; 0x77073096; 0xee0e612c; 0x990951ba; 0x076dc419; 0x706af48f; 0xe963a535; 0x9e6495a3;
   0x0edb8832; 0x79dcb8a4; 0xe0d5e91e; 0x97d2d988; 0x09b64c2b; 0x7eb17cbd; 0xe7b82d07; 0x90bf1d91;
   0x1db71064; 0x6ab020f2; 0xf3b97148; 0x84be41de; 0x1adad47d; 0x6ddde4eb; 0xf4d4b551; 0x83d385c7;
   0x136c9856; 0x646ba8c0; 0xfd62f97a; 0x8a65c9ec; 0x14015c4f; 0x63066cd9; 0xfa0f3d63; 0x8d080df5;
   0x3b6e20c8; 0x4c69105e; 0xd56041e4; 0xa2677172; 0x3c03e4d1; 0x4b04d447; 0xd20d85fd; 0xa50ab56b;
   0x35b5a8fa; 0x42b2986c; 0xdbbbc9d6; 0xacbcf940; 0x32d86ce3; 0x45df5c75; 0xdcd60dcf; 0xabd13d59;
   0x26d930ac; 0x51de003a; 0xc8d75180; 0xbfd06116; 0x21b4f4b5; 0x56b3c423; 0xcfba9599; 0xb8bda50f;
   0x2802b89e; 0x5f058808; 0xc60cd9b2; 0xb10be924; 0x2f6f7c87; 0x58684c11; 0xc1611dab; 0xb6662d3d;
   0x76dc4190; 0x01db7106; 0x98d220bc; 0xefd5102a; 0x71b18589; 0x06b6b51f; 0x9fbfe4a5; 0xe8b8d433;
   0x7807c9a2; 0x0f00f934; 0x9609a88e; 0xe10e9818; 0x7f6a0dbb; 0x086d3d2d; 0x91646c97; 0xe6635c01;
   0x6b6b51f4; 0x1c6c6162; 0x856530d8; 0xf262004e; 0x6c0695ed; 0x1b01a57b; 0x8208f4c1; 0xf50fc457;
   0x65b0d9c6; 0x12b7e950; 0x8bbeb8ea; 0xfcb9887c; 0x62dd1ddf; 0x15da2d49; 0x8cd37cf3; 0xfbd44c65;
   0x4db26158; 0x3ab551ce; 0xa3bc0074; 0xd4bb30e2; 0x4adfa541; 0x3dd895d7; 0xa4d1c46d; 0xd3d6f4fb;
   0x4369e96a; 0x346ed9fc; 0xad678846; 0xda60b8d0; 0x44042d73; 0x33031de5; 0xaa0a4c5f; 0xdd0d7cc9;
   0x5005713c; 0x270241aa; 0xbe0b1010; 0xc90c2086; 0x5768b525; 0x206f85b3; 0xb966d409; 0xce61e49f;
   0x5edef90e; 0x29d9c998; 0xb0d09822; 0xc7d7a8b4; 0x59b33d17; 0x2eb40d81; 0xb7bd5c3b; 0xc0ba6cad;
   0xedb88320; 0x9abfb3b6; 0x03b6e20c; 0x74b1d29a; 0xead54739; 0x9dd277af; 0x04db2615; 0x73dc1683;
   0xe3630b12; 0x94643b84; 0x0d6d6a3e; 0x7a6a5aa8; 0xe40ecf0b; 0x9309ff9d; 0x0a00ae27; 0x7d079eb1;
   0xf00f9344; 0x8708a3d2; 0x1e01f268; 0x6906c2fe; 0xf762575d; 0x806567cb; 0x196c3671; 0x6e6b06e7;
   0xfed41b76; 0x89d32be0; 0x10da7a5a; 0x67dd4acc; 0xf9b9df6f; 0x8ebeeff9; 0x17b7be43; 0x60b08ed5;
   0xd6d6a3e8; 0xa1d1937e; 0x38d8c2c4; 0x4fdff252; 0xd1bb67f1; 0xa6bc5767; 0x3fb506dd; 0x48b2364b;
   0xd80d2bda; 0xaf0a1b4c; 0x36034af6; 0x41047a60; 0xdf60efc3; 0xa867df55; 0x316e8eef; 0x4669be79;
   0xcb61b38c; 0xbc66831a; 0x256fd2a0; 0x5268e236; 0xcc0c7795; 0xbb0b4703; 0x220216b9; 0x5505262f;
   0xc5ba3bbe; 0xb2bd0b28; 0x2bb45a92; 0x5cb36a04; 0xc2d7ffa7; 0xb5d0cf31; 0x2cd99e8b; 0x5bdeae1d;
   0x9b64c2b0; 0xec63f226; 0x756aa39c; 0x026d930a; 0x9c0906a9; 0xeb0e363f; 0x72076785; 0x05005713;
   0x95bf4a82; 0xe2b87a14; 0x7bb12bae; 0x0cb61b38; 0x92d28e9b; 0xe5d5be0d; 0x7cdcefb7; 0x0bdbdf21;
   0x86d3d2d4; 0xf1d4e242; 0x68ddb3f8; 0x1fda836e; 0x81be16cd; 0xf6b9265b; 0x6fb077e1; 0x18b74777;
   0x88085ae6; 0xff0f6a70; 0x66063bca; 0x11010b5c; 0x8f659eff; 0xf862ae69; 0x616bffd3; 0x166ccf45;
   0xa00ae278; 0xd70dd2ee; 0x4e048354; 0x3903b3c2; 0xa7672661; 0xd06016f7; 0x4969474d; 0x3e6e77db;
   0xaed16a4a; 0xd9d65adc; 0x40df0b66; 0x37d83bf0; 0xa9bcae53; 0xdebb9ec5; 0x47b2cf7f; 0x30b5ffe9;
   0xbdbdf21c; 0xcabac28a; 0x53b39330; 0x24b4a3a6; 0xbad03605; 0xcdd70693; 0x54de5729; 0x23d967bf;
   0xb3667a2e; 0xc4614ab8; 0x5d681b02; 0x2a6f2b94; 0xb40bbe37; 0xc30c8ea1; 0x5a05df1b; 0x2d02ef8d].

(** The index is below 256, so the lookup cannot fail. *)
Definition crc_update (reg val : Z) : Z :=
  Z.lxor (nth (Z.to_nat (Z.land (Z.lxor reg val) 0xff)) CRC32TAB 0) (Z.shiftr reg 8).

(** ** The register *)

Definition POLYNOMIAL : Z := 0xedb88320.

(** One bit: shift right, and add the polynomial when a one falls out. *)
Definition bit_step (reg : Z) : Z :=
  Z.lxor (Z.shiftr reg 1) (if Z.odd reg then POLYNOMIAL else 0).

Definition byte_step (reg : Z) : Z := Nat.iter 8 bit_step reg.

(** The register after the bits of a byte, least significant first, are shifted
    in: the byte is added to the low end, then eight bits fall out. *)
Definition serial_update (reg val : Z) : Z := byte_step (Z.lxor reg val).

Lemma bit_step_lxor a b : bit_step (Z.lxor a b) = Z.lxor (bit_step a) (bit_step b).
Proof.
  unfold bit_step. rewrite Z.shiftr_lxor. rewrite <- !Z.bit0_odd, Z.lxor_spec, !Z.bit0_odd.
  destruct (Z.odd a), (Z.odd b); simpl; rewrite ?Z.lxor_0_r; apply Z.bits_inj'; intros i _;
    rewrite ?Z.lxor_spec; repeat match goal with |- context [Z.testbit ?x ?y] => destruct (Z.testbit x y) end; done.
Qed.

Lemma byte_step_lxor a b : byte_step (Z.lxor a b) = Z.lxor (byte_step a) (byte_step b).
Proof.
  unfold byte_step. generalize 8%nat as n. induction n as [|n IH]; [done|]. simpl. by rewrite IH, bit_step_lxor.
Qed.

(** Bits above the byte only move down. *)
Lemma bit_step_shift x : bit_step (Z.shiftl x 1) = x.
Proof.
  unfold bit_step. rewrite Z.shiftr_shiftl_l, Z.sub_diag, Z.shiftl_0_r by lia.
  rewrite <- Z.bit0_odd, Z.shiftl_spec_low by lia. apply Z.lxor_0_r.
Qed.

Lemma byte_step_shift x : byte_step (Z.shiftl x 8) = x.
Proof.
  unfold byte_step. assert (forall n, Nat.iter n bit_step (Z.shiftl x (Z.of_nat n)) = x) as H; [|apply (H 8%nat)].
  induction n as [|n IH]; [apply Z.shiftl_0_r|]. rewrite Nat.iter_succ_r.
  replace (Z.of_nat (S n)) with (Z.of_nat n + 1) by lia. rewrite <- Z.shiftl_shiftl by lia. by rewrite bit_step_shift.
Qed.

(** Every entry of the table is the register after its index. *)
Lemma table_entries : CRC32TAB = (fun i => byte_step (Z.of_nat i)) <$> seq 0 256.
Proof. vm_compute. reflexivity. Qed.

Lemma split_byte x : 0 <= x -> x = Z.lxor (Z.land x 0xff) (Z.shiftl (Z.shiftr x 8) 8).
Proof.
  intros Hx. change 0xff with (Z.ones 8). apply Z.bits_inj'. intros i Hi.
  rewrite Z.lxor_spec, Z.land_spec, Z.testbit_ones, Z.shiftl_spec by lia. destruct (Z.leb_spec 0 i); [|lia].
  destruct (Z.ltb_spec i 8).
  - rewrite (Z.testbit_neg_r _ (i - 8)) by lia. by rewrite andb_true_r, xorb_false_r.
  - rewrite Z.shiftr_spec by lia. replace (i - 8 + 8) with i by lia. by rewrite andb_false_r.
Qed.

Lemma entries_u32 : Forall is_u32 CRC32TAB.
Proof. repeat constructor; unfold is_u; lia. Qed.

(** The index of an update, and what is left of the register. *)
Lemma crc_index reg val : is_u32 val -> 0 <= reg ->
  Z.land (Z.lxor reg val) 0xff = Z.land (Z.lxor reg (u8 val)) 0xff /\
  Z.shiftr (Z.lxor reg (u8 val)) 8 = Z.shiftr reg 8 /\ 0 <= Z.land (Z.lxor reg val) 0xff < 256.
Proof.
  intros Hv Hr. pose proof (uw_range 8 val ltac:(lia)) as Hb. unfold is_u in Hb. change 0xff with (Z.ones 8).
  split; [|split].
  - apply Z.bits_inj'. intros i Hi. rewrite !Z.land_spec, !Z.lxor_spec, testbit_uw, Z.testbit_ones by lia.
    destruct (Z.leb_spec 0 i), (Z.ltb_spec i 8); simpl; by rewrite ?andb_false_r.
  - rewrite Z.shiftr_lxor, (Z.shiftr_div_pow2 (u8 val)), Z.div_small by lia. apply Z.lxor_0_r.
  - rewrite Z.land_ones by lia. by apply Z.mod_pos_bound.
Qed.

(** C38: updating the register by a value with the table is the bit-serial
    division of the register, with the low byte of the value shifted in, by the
    polynomial, and the register stays in 32 bits. *)
Theorem crc_update_correct (reg val : Z) : is_u32 reg -> is_u32 val ->
  crc_update reg val = serial_update reg (u8 val) /\ is_u32 (crc_update reg val).
Proof.
  intros Hr Hv. destruct (crc_index reg val Hv (proj1 Hr)) as (Ei & Es & Hi). unfold serial_update. split.
  - assert (0 <= Z.lxor reg (u8 val)) as Hx by (apply Z.lxor_nonneg; pose proof (uw_range 8 val); unfold is_u in *; lia).
    rewrite (split_byte _ Hx), byte_step_lxor, byte_step_shift, Es, <- Ei. unfold crc_update.
    f_equal. rewrite table_entries. apply nth_lookup_Some. rewrite list_lookup_fmap, lookup_seq_lt by lia. simpl.
    do 2 f_equal. lia.
  - apply lxor_is_u; [lia| |].
    + apply (Forall_nth is_u32); [apply entries_u32|]. change (length CRC32TAB) with 256%nat. lia.
    + unfold is_u in *. rewrite Z.shiftr_div_pow2 by lia. split; [apply Z.div_pos; lia|apply Z.div_lt_upper_bound; lia].
Qed.

Lemma crc_update_correct_witness :
  crc_update 0xffffffff 0x161 = serial_update 0xffffffff (u8 0x161) /\ is_u32 (crc_update 0xffffffff 0x161).
Proof. apply (crc_update_correct 0xffffffff 0x161); unfold is_u; lia. Defined.

(** The check value of the CRC-32 standard: the message [123456789]. *)
Example crc_check_value : Z.lxor (fold_left crc_update [49; 50; 51; 52; 53; 54; 55; 56; 57] 0xffffffff) 0xffffffff = 0xcbf43926.
Proof. vm_compute. reflexivity. Qed.
