(* ===== verification/Opcodes.v ===== *)
(** The p-code operations of [src/src/opcodes.rs]: the enumeration, its tables,
    the lookup of an operation by name (a binary search over an index table
    sorted by name), the names themselves, and the operation that computes the
    negation of a comparison. *)
From stdpp Require Import base list sets numbers strings.
From Stdlib Require Import ZArith Lia.
From S2P Require Import Prelude.

(** ** Definitions *)

(** [enum OpCode], in the order of its discriminants. *)
Inductive OpCode : Type :=
  | Blank | Copy | Load | Store | Branch | Cbranch
  | Branchind | Call | Callind | Callother | Return | IntEqual
  | IntNotequal | IntSless | IntSlessequal | IntLess | IntLessequal | IntZext
  | IntSext | IntAdd | IntSub | IntCarry | IntScarry | IntSborrow
  | Int2comp | IntNegate | IntXor | IntAnd | IntOr | IntLeft
  | IntRight | IntSright | IntMult | IntDiv | IntSdiv | IntRem
  | IntSrem | BoolNegate | BoolXor | BoolAnd | BoolOr | FloatEqual
  | FloatNotequal | FloatLess | FloatLessequal | Unused1 | FloatNan | FloatAdd
  | FloatDiv | FloatMult | FloatSub | FloatNeg | FloatAbs | FloatSqrt
  | FloatInt2float | FloatFloat2float | FloatTrunc | FloatCeil | FloatFloor | FloatRound
  | Multiequal | Indirect | Piece | Subpiece | Cast | Ptradd
  | Ptrsub | Segmentop | Cpoolref | New | Insert | Zpull
  | Popcount | Lzcount | Spull | Max.

(** [self as usize]: the discriminant. *)
Definition opcode_index (opc : OpCode) : nat :=
  match opc with
  | Blank => 0 | Copy => 1 | Load => 2 | Store => 3
  | Branch => 4 | Cbranch => 5 | Branchind => 6 | Call => 7
  | Callind => 8 | Callother => 9 | Return => 10 | IntEqual => 11
  | IntNotequal => 12 | IntSless => 13 | IntSlessequal => 14 | IntLess => 15
  | IntLessequal => 16 | IntZext => 17 | IntSext => 18 | IntAdd => 19
  | IntSub => 20 | IntCarry => 21 | IntScarry => 22 | IntSborrow => 23
  | Int2comp => 24 | IntNegate => 25 | IntXor => 26 | IntAnd => 27
  | IntOr => 28 | IntLeft => 29 | IntRight => 30 | IntSright => 31
  | IntMult => 32 | IntDiv => 33 | IntSdiv => 34 | IntRem => 35
  | IntSrem => 36 | BoolNegate => 37 | BoolXor => 38 | BoolAnd => 39
  | BoolOr => 40 | FloatEqual => 41 | FloatNotequal => 42 | FloatLess => 43
  | FloatLessequal => 44 | Unused1 => 45 | FloatNan => 46 | FloatAdd => 47
  | FloatDiv => 48 | FloatMult => 49 | FloatSub => 50 | FloatNeg => 51
  | FloatAbs => 52 | FloatSqrt => 53 | FloatInt2float => 54 | FloatFloat2float => 55
  | FloatTrunc => 56 | FloatCeil => 57 | FloatFloor => 58 | FloatRound => 59
  | Multiequal => 60 | Indirect => 61 | Piece => 62 | Subpiece => 63
  | Cast => 64 | Ptradd => 65 | Ptrsub => 66 | Segmentop => 67
  | Cpoolref => 68 | New => 69 | Insert => 70 | Zpull => 71
  | Popcount => 72 | Lzcount => 73 | Spull => 74 | Max => 75
  end%nat.

Definition OPCODE_TABLE : list OpCode :=
  [
    Blank; Copy; Load; Store; Branch; Cbranch; Branchind; Call; Callind; Callother; Return;
    IntEqual; IntNotequal; IntSless; IntSlessequal; IntLess; IntLessequal; IntZext; IntSext;
    IntAdd; IntSub; IntCarry; IntScarry; IntSborrow; Int2comp; IntNegate; IntXor; IntAnd; IntOr;
    IntLeft; IntRight; IntSright; IntMult; IntDiv; IntSdiv; IntRem; IntSrem; BoolNegate; BoolXor;
    BoolAnd; BoolOr; FloatEqual; FloatNotequal; FloatLess; FloatLessequal; Unused1; FloatNan;
    FloatAdd; FloatDiv; FloatMult; FloatSub; FloatNeg; FloatAbs; FloatSqrt; FloatInt2float;
    FloatFloat2float; FloatTrunc; FloatCeil; FloatFloor; FloatRound; Multiequal; Indirect; Piece;
    Subpiece; Cast; Ptradd; Ptrsub; Segmentop; Cpoolref; New; Insert; Zpull; Popcount; Lzcount;
    Spull; Max
  ].

Definition OPCODE_NAME : list string :=
  [
    "BLANK"; "COPY"; "LOAD"; "STORE"; "BRANCH"; "CBRANCH"; "BRANCHIND"; "CALL"; "CALLIND";
    "CALLOTHER"; "RETURN"; "INT_EQUAL"; "INT_NOTEQUAL"; "INT_SLESS"; "INT_SLESSEQUAL"; "INT_LESS";
    "INT_LESSEQUAL"; "INT_ZEXT"; "INT_SEXT"; "INT_ADD"; "INT_SUB"; "INT_CARRY"; "INT_SCARRY";
    "INT_SBORROW"; "INT_2COMP"; "INT_NEGATE"; "INT_XOR"; "INT_AND"; "INT_OR"; "INT_LEFT";
    "INT_RIGHT"; "INT_SRIGHT"; "INT_MULT"; "INT_DIV"; "INT_SDIV"; "INT_REM"; "INT_SREM";
    "BOOL_NEGATE"; "BOOL_XOR"; "BOOL_AND"; "BOOL_OR"; "FLOAT_EQUAL"; "FLOAT_NOTEQUAL";
    "FLOAT_LESS"; "FLOAT_LESSEQUAL"; "UNUSED1"; "FLOAT_NAN"; "FLOAT_ADD"; "FLOAT_DIV";
    "FLOAT_MULT"; "FLOAT_SUB"; "FLOAT_NEG"; "FLOAT_ABS"; "FLOAT_SQRT"; "INT2FLOAT"; "FLOAT2FLOAT";
    "TRUNC"; "CEIL"; "FLOOR"; "ROUND"; "BUILD"; "DELAY_SLOT"; "PIECE"; "SUBPIECE"; "CAST";
    "LABEL"; "CROSSBUILD"; "SEGMENTOP"; "CPOOLREF"; "NEW"; "INSERT"; "EXTRACT"; "POPCOUNT";
    "LZCOUNT"
  ]%string.

(** The positions of [OPCODE_NAME] in the order of the names (after the first). *)
Definition OPCODE_INDICES : list nat :=
  [
    0; 39; 37; 40; 38; 4; 6; 60; 7; 8; 9; 64; 5; 57; 1; 68; 66; 61; 71; 55; 52; 47; 48; 41; 43;
    44; 49; 46; 51; 42; 53; 50; 58; 70; 54; 24; 19; 27; 21; 33; 11; 29; 15; 16; 32; 25; 12; 28;
    35; 30; 23; 22; 34; 18; 13; 14; 36; 31; 20; 26; 17; 65; 2; 73; 69; 62; 72; 10; 59; 67; 3; 63;
    56; 45
  ]%nat.

Definition from_index (value : Z) : option OpCode :=
  if (0 <=? value) && (value <=? 75) then OPCODE_TABLE !! Z.to_nat value else None.

Definition get_opname (opc : OpCode) : string :=
  default "" (OPCODE_NAME !! opcode_index opc).

(** One round of the search loop on [(min, max)]: leave with an operation, or go
    on with a smaller interval. *)
Definition get_opcode_round (nm : string) (s : Z * Z) : outcome (Z * Z + OpCode) :=
  let (min, max) := s in
  if negb (min <=? max) then Ok (inr Blank) else
  let cur := Z.quot (i32 (min + max)) 2 in
  match OPCODE_INDICES !! Z.to_nat cur with
  | None => Ok (inr Blank)
  | Some ind =>
      let! candidate := index OPCODE_NAME ind in
      match String.compare candidate nm with
      | Lt => Ok (inl (cur + 1, max))
      | Gt => Ok (inl (min, cur - 1))
      | Eq => let! opc := index OPCODE_TABLE ind in Ok (inr opc)
      end
  end.

Definition get_opcode (nm : string) : outcome OpCode :=
  loop 75 (get_opcode_round nm) (1, Z.of_nat (opcode_index Max) - 1).

(** The comparison that computes the negation, and whether its inputs are
    swapped. *)
Definition get_booleanflip (opc : OpCode) : option (OpCode * bool) :=
  match opc with
  | IntEqual => Some (IntNotequal, false)
  | IntNotequal => Some (IntEqual, false)
  | IntSless => Some (IntSlessequal, true)
  | IntSlessequal => Some (IntSless, true)
  | IntLess => Some (IntLessequal, true)
  | IntLessequal => Some (IntLess, true)
  | BoolNegate => Some (Copy, false)
  | FloatEqual => Some (FloatNotequal, false)
  | FloatNotequal => Some (FloatEqual, false)
  | FloatLess => Some (FloatLessequal, true)
  | FloatLessequal => Some (FloatLess, true)
  | _ => None
  end.

(** ** Lookup tables *)

Lemma opcode_table_index opc : OPCODE_TABLE !! opcode_index opc = Some opc.
Proof. by destruct opc. Qed.

#[export] Instance opcode_index_inj : Inj (=) (=) opcode_index.
Proof. intros a b H. apply (inj Some). by rewrite <- !opcode_table_index, H. Qed.

#[export] Instance opcode_eq_dec : EqDecision OpCode.
Proof.
  refine (fun a b => cast_if (decide (opcode_index a = opcode_index b))); abstract naive_solver.
Defined.

(** The reference for the search: scan the named operations from [COPY] on. *)
Fixpoint find_name (nm : string) (l : list (nat * string)) : option nat :=
  match l with
  | [] => None
  | (i, n) :: l => if decide (n = nm) then Some i else find_name nm l
  end.

Definition opcode_by_name (nm : string) : OpCode :=
  match find_name nm (tail (imap pair OPCODE_NAME)) with
  | Some i => default Blank (OPCODE_TABLE !! i)
  | None => Blank
  end.

Lemma find_name_Some nm l i : find_name nm l = Some i -> (i, nm) ∈ l.
Proof.
  induction l as [|[j n] l IH]; simpl; [done|]. case_decide; intros; simplify_eq; set_solver.
Qed.

Lemma find_name_None nm l : find_name nm l = None -> forall i, (i, nm) ∉ l.
Proof.
  induction l as [|[j n] l IH]; simpl; [set_solver|]. case_decide; intros; set_solver.
Qed.

(** What the index table holds at the positions the search visits. *)
Lemma opcode_indices_named cur ind : 1 <= cur -> OPCODE_INDICES !! Z.to_nat cur = Some ind ->
  (1 <= ind < 74)%nat.
Proof.
  intros Hcur Hl. assert (Forall (fun i => (1 <= i < 74)%nat) (tail OPCODE_INDICES)) as HF.
  { apply (bool_decide_unpack _). vm_compute. done. }
  rewrite Forall_lookup in HF. apply (HF (Z.to_nat cur - 1)%nat).
  change OPCODE_INDICES with (0%nat :: tail OPCODE_INDICES) in Hl.
  destruct (Z.to_nat cur) as [|k] eqn:E; [lia|]. simpl in Hl. by rewrite Nat.sub_1_r.
Qed.

Definition named (opc : OpCode) : Prop := (1 <= opcode_index opc < 74)%nat.

Definition search_result (nm : string) (opc : OpCode) : Prop :=
  opc = Blank \/ (get_opname opc = nm /\ named opc).

Lemma opcode_table_lookup ind : (ind < 76)%nat ->
  exists opc, OPCODE_TABLE !! ind = Some opc /\ opcode_index opc = ind.
Proof.
  intros H. assert (Forall (fun i => default false ((fun o => bool_decide (opcode_index o = i)) <$> OPCODE_TABLE !! i) = true)
    (seq 0 76)) as HF by (apply (bool_decide_unpack _); vm_compute; done).
  rewrite Forall_seq in HF. specialize (HF ind ltac:(lia)).
  destruct (OPCODE_TABLE !! ind) as [o|]; [|done]. exists o. split; [done|]. simpl in HF.
  by apply bool_decide_eq_true in HF.
Qed.

(** Every round either narrows the interval or ends with an operation of that
    name. *)
Lemma get_opcode_round_ok nm min max : 1 <= min -> max <= 74 ->
  (exists min' max', get_opcode_round nm (min, max) = Ok (inl (min', max')) /\
     1 <= min' /\ max' <= 74 /\ min <= max /\ max' - min' < max - min) \/
  (exists opc, get_opcode_round nm (min, max) = Ok (inr opc) /\ search_result nm opc).
Proof.
  intros Hmin Hmax. unfold get_opcode_round.
  destruct (Z.leb_spec min max) as [Hle|]; cbn [negb]; [|right; eexists; split; [done|by left]].
  replace (i32 (min + max)) with (min + max) by (symmetry; apply sw_small; unfold is_s; lia).
  rewrite Z.quot_div_nonneg by lia. set (cur := (min + max) / 2).
  assert (min <= cur <= max) as Hcur.
  { subst cur. split; [apply Z.div_le_lower_bound|apply Z.div_le_upper_bound]; lia. }
  destruct (OPCODE_INDICES !! Z.to_nat cur) as [ind|] eqn:Hind;
    [|right; eexists; split; [done|by left]].
  apply opcode_indices_named in Hind; [|lia].
  destruct (lookup_lt_is_Some_2 OPCODE_NAME ind) as [candidate Hc]; [simpl; lia|].
  rewrite (index_ok _ _ _ Hc). cbn [obind]. destruct (String.compare candidate nm) eqn:Hcmp.
  - apply String.compare_eq_iff in Hcmp. destruct (opcode_table_lookup ind) as (opc & Ho & Hi); [lia|].
    rewrite (index_ok _ _ _ Ho). right. exists opc. split; [done|]. right. unfold named, get_opname.
    by rewrite Hi, Hc.
  - left. do 2 eexists. split; [done|]. lia.
  - left. do 2 eexists. split; [done|]. lia.
Qed.

Lemma get_opcode_sound nm : exists opc, get_opcode nm = Ok opc /\ search_result nm opc.
Proof.
  apply (loop_inv (fun s => 1 <= s.1 /\ s.2 <= 74) (search_result nm)
           (fun s => Z.to_nat (s.2 - s.1 + 1))); [simpl; lia|simpl; lia|].
  intros [min max] [H1 H2]. cbn [fst snd] in *.
  destruct (get_opcode_round_ok nm min max H1 H2) as [(min' & max' & -> & ?)|(opc & -> & ?)].
  - left. eexists. split; [done|]. cbn [fst snd]. lia.
  - right. by eexists.
Qed.

Lemma get_opcode_complete opc : named opc -> get_opcode (get_opname opc) = Ok opc.
Proof. unfold named. destruct opc; simpl; first [lia | intros _; vm_compute; reflexivity]. Qed.

Lemma named_elem i nm : (i, nm) ∈ tail (imap pair OPCODE_NAME) <->
  exists opc, OPCODE_TABLE !! i = Some opc /\ get_opname opc = nm /\ named opc.
Proof.
  rewrite list_elem_of_lookup. setoid_rewrite lookup_tail. setoid_rewrite list_lookup_imap. split.
  - intros [k Hk]. destruct (OPCODE_NAME !! S k) as [n|] eqn:Hn; [|done]. simpl in Hk. simplify_eq.
    pose proof (lookup_lt_Some _ _ _ Hn) as Hlt. simpl in Hlt.
    destruct (opcode_table_lookup (S k)) as (opc & Ho & Hi); [lia|].
    exists opc. unfold get_opname, named. rewrite Hi, Hn. split; [done|]. split; [done|]. lia.
  - intros (opc & Ho & <- & Hr). unfold named in Hr. destruct (opcode_table_lookup i) as (o & Ho2 & Hi).
    { by apply lookup_lt_Some in Ho. }
    rewrite Ho in Ho2. injection Ho2 as <-. subst i. exists (pred (opcode_index opc)). rewrite Nat.succ_pred by lia.
    destruct (lookup_lt_is_Some_2 OPCODE_NAME (opcode_index opc)) as [n Hn]; [simpl; lia|].
    unfold get_opname. by rewrite Hn.
Qed.

(** The binary search terminates within its fuel and finds exactly what the
    linear scan of the names finds. *)
Lemma get_opcode_eq nm : get_opcode nm = Ok (opcode_by_name nm).
Proof.
  unfold opcode_by_name. destruct (find_name nm _) as [i|] eqn:Hf.
  - apply find_name_Some, named_elem in Hf as (opc & Ho & <- & Hr). rewrite Ho.
    by apply get_opcode_complete.
  - destruct (get_opcode_sound nm) as (opc & -> & [->|[Hn Hr]]); [done|].
    exfalso. apply (find_name_None _ _ Hf (opcode_index opc)), named_elem.
    exists opc. split; [apply opcode_table_index|done].
Qed.

(** Looking an operation up by name. *)
Theorem get_opcode_reference nm : get_opcode nm = Ok (opcode_by_name nm).
Proof. apply get_opcode_eq. Qed.

(** The index and the name of an operation identify it: both round trips. *)
Theorem opcode_roundtrip opc :
  from_index (Z.of_nat (opcode_index opc)) = Some opc /\
  (get_opcode (get_opname opc) = Ok opc <-> opc <> Spull /\ opc <> Max).
Proof.
  split; [by destruct opc|].
  destruct opc; split; intros H; try (split; congruence); try (vm_compute; reflexivity);
    solve [vm_compute in H; congruence | by destruct H].
Qed.
