(* ===== verification/Cover.v ===== *)
(** The covers of [src/src/cover.rs]: the part of the program over which a variable
    holds its value, as one interval of operations in every block it touches.  What
    the source reads of the data-flow graph (the place, code and order of operations,
    the edges of blocks, definitions and uses of variables) is the record [View]; the
    covers do not change it. *)
From stdpp Require Import base list numbers strings.
From Stdlib Require Import ZArith Lia.
From S2P Require Import Prelude Bits Multiprecision BTree Opcodes.
Local Open Scope Z_scope.
Local Open Scope rust_scope.

(** ** Definitions *)

Inductive CoverPoint : Type := PBegin | PEnd | PInput | POp (op : nat).
#[export] Instance CoverPoint_eq_dec : EqDecision CoverPoint.
Proof. solve_decision. Defined.

Record View : Type := mk_View {
  op_marker : nat -> bool; op_code : nat -> OpCode; op_order : nat -> Z; op_iop : nat -> nat;
  op_parent : nat -> option nat; op_inputs : nat -> list nat; op_output : nat -> option nat;
  block_index : nat -> Z; block_in : nat -> list nat;
  vn_def : nat -> option nat; vn_is_input : nat -> bool; vn_is_implied : nat -> bool; vn_descend : nat -> list nat }.

Definition MAX_INDEX : Z := 2 ^ 32 - 1.

Section WithView.
Context (data : View).

Definition op_block_index (op : nat) : outcome Z :=
  match op_parent data op with Some bl => Ok (block_index data bl) | None => Panic end.

(** *** One block *)

Record CoverBlock : Type := mk_CoverBlock { start : CoverPoint; stop : CoverPoint }.

Definition cover_block_new : CoverBlock := mk_CoverBlock PBegin PBegin.

Definition get_u_index (p : CoverPoint) : Z :=
  match p with
  | PBegin => 0
  | PEnd => MAX_INDEX
  | PInput => 0
  | POp op =>
    if op_marker data op && bool_decide (op_code data op = Multiequal) then 0
    else if op_marker data op && bool_decide (op_code data op = Indirect) then op_order data (op_iop data op)
    else op_order data op
  end.

Definition set_all (b : CoverBlock) : CoverBlock := mk_CoverBlock PBegin PEnd.
Definition set_begin (b : CoverBlock) (p : CoverPoint) : CoverBlock :=
  mk_CoverBlock p (if decide (stop b = PBegin) then PEnd else stop b).
Definition set_end (b : CoverBlock) (p : CoverPoint) : CoverBlock := mk_CoverBlock (start b) p.

Definition block_empty (b : CoverBlock) : bool := bool_decide (start b = PBegin) && bool_decide (stop b = PBegin).

Definition intersect_indices (ustart ustop u2start u2stop : Z) : Z :=
  if ustart <=? ustop then
    if u2start <=? u2stop then
      if (ustop <=? u2start) || (u2stop <=? ustart) then if (ustart =? u2stop) || (ustop =? u2start) then 1 else 0 else 2
    else if (u2stop <=? ustart) && (ustop <=? u2start) then if (ustart =? u2stop) || (ustop =? u2start) then 1 else 0
    else 2
  else if (u2start <=? u2stop) && (ustop <=? u2start) && (u2stop <=? ustart) then if (u2start =? ustop) || (u2stop =? ustart) then 1 else 0
  else 2.

Definition block_intersect (b op2 : CoverBlock) : Z :=
  if block_empty b then 0
  else if block_empty op2 then 0
  else intersect_indices (get_u_index (start b)) (get_u_index (stop b)) (get_u_index (start op2)) (get_u_index (stop op2)).

Definition block_contain (b : CoverBlock) (point : CoverPoint) : bool :=
  if block_empty b then false
  else
    let upoint := get_u_index point in
    let ustart := get_u_index (start b) in
    let ustop := get_u_index (stop b) in
    if ustart <=? ustop then (ustart <=? upoint) && (upoint <=? ustop) else (upoint <=? ustop) || (ustart <=? upoint).

Definition boundary (b : CoverBlock) (point : CoverPoint) : Z :=
  if block_empty b then 0
  else
    let val := get_u_index point in
    if (get_u_index (start b) =? val) && negb (bool_decide (start b = PBegin)) then 2
    else if get_u_index (stop b) =? val then 1 else 0.

Definition block_merge (b op2 : CoverBlock) : CoverBlock :=
  if block_empty op2 then b
  else if block_empty b then op2
  else
    let ustart := get_u_index (start b) in
    let u2start := get_u_index (start op2) in
    let internal4 := (ustart =? 0) && bool_decide (stop op2 = PEnd) in
    let internal1 := internal4 || block_contain op2 (start b) in
    let internal3 := (u2start =? 0) && bool_decide (stop b = PEnd) in
    let internal2 := internal3 || block_contain b (start op2) in
    if internal1 && internal2 && (negb (ustart =? u2start) || internal3 || internal4) then set_all b
    else
      let extend (b : CoverBlock) := if internal3 || block_contain op2 (stop b) then set_end b (stop op2) else b in
      if internal1 then extend (mk_CoverBlock (start op2) (stop b))
      else if negb internal2 then
        if ustart <? u2start then set_end b (stop op2) else mk_CoverBlock (start op2) (stop b)
      else extend b.

(** *** All blocks *)

(** [BTreeMap<i32, CoverBlock>]. *)
Abbreviation Cover := (list (Z * CoverBlock)).

(** [entry(k).or_default()], and a write through the reference. *)
Definition block_entry (c : Cover) (k : Z) : CoverBlock :=
  match tree_get fst k c with Some e => e.2 | None => cover_block_new end.
Definition block_put (c : Cover) (k : Z) (b : CoverBlock) : Cover := map_insert fst (k, b) c.

Definition get_cover_block (c : Cover) (k : Z) : CoverBlock := block_entry c k.

Definition compare_to (c op2 : Cover) : Z :=
  let first := default 1000000 (fst <$> head c) in
  let second := default 1000000 (fst <$> head op2) in
  if first <? second then -1 else if first =? second then 0 else 1.

(** The loop that walks both maps in the order of their keys: [visit] is what it does
    with two blocks of one key, and whether it leaves the loop. *)
Fixpoint walk_both {R} (fuel : nat) (visit : Z -> CoverBlock -> CoverBlock -> R -> R * bool) (c c2 : Cover) (res : R) : R :=
  match fuel with
  | O => res
  | S fuel =>
    match c, c2 with
    | (key, b) :: rest, (key2, b2) :: rest2 =>
      if key <? key2 then walk_both fuel visit rest c2 res
      else if key2 <? key then walk_both fuel visit c rest2 res
      else let '(res, leave) := visit key b b2 res in if leave then res else walk_both fuel visit rest rest2 res
    | _, _ => res
    end
  end.

Definition cover_intersect (c op2 : Cover) : Z :=
  walk_both (length c + length op2) (fun _ b b2 res =>
    let newres := block_intersect b b2 in
    if newres =? 2 then (2, true) else (if newres =? 1 then 1 else res, false)) c op2 0.

Definition intersect_by_block (c : Cover) (blk : Z) (op2 : Cover) : Z :=
  match tree_get fst blk c, tree_get fst blk op2 with
  | Some e, Some e2 => block_intersect e.2 e2.2
  | _, _ => 0
  end.

Definition intersect_list (c op2 : Cover) (level : Z) : list Z :=
  walk_both (length c + length op2) (fun key b b2 listout =>
    (if level <=? block_intersect b b2 then listout ++ [key] else listout, false)) c op2 [].

Definition cover_contain (c : Cover) (op : nat) (max : Z) : outcome bool :=
  let! k := op_block_index op in
  Ok match tree_get fst k c with
     | None => false
     | Some e => block_contain e.2 (POp op) && ((max =? 1) || (boundary e.2 (POp op) =? 0))
     end.

Definition contain_varnode_def (c : Cover) (vn : nat) : outcome Z :=
  let! p := match vn_def data vn with None => Ok (PInput, 0) | Some op => let! k := op_block_index op in Ok (POp op, k) end in
  Ok match tree_get fst p.2 c with
     | None => 0
     | Some e =>
       if block_contain e.2 p.1 then
         let boundtype := boundary e.2 p.1 in
         if boundtype =? 0 then 1 else if boundtype =? 2 then 2 else 3
       else 0
     end.

Definition cover_merge (c op2 : Cover) : Cover :=
  fold_left (fun c e => block_put c e.1 (block_merge (block_entry c e.1) e.2)) op2 c.

(** *** Building a cover *)

(** [for] loops over blocks. *)
Fixpoint each {A} (f : Cover -> A -> outcome Cover) (l : list A) (c : Cover) : outcome Cover :=
  match l with
  | [] => Ok c
  | x :: l => let! c := f c x in each f l c
  end.

Definition is_multiequal (p : CoverPoint) : bool :=
  match p with POp op => bool_decide (op_code data op = Multiequal) | _ => false end.

(** [fuel] bounds the depth of the recursion. *)
Fixpoint add_ref_recurse (fuel : nat) (c : Cover) (bl : nat) : outcome Cover :=
  match fuel with
  | O => Diverge
  | S fuel =>
    let k := block_index data bl in
    let b := block_entry c k in
    if block_empty b then each (add_ref_recurse fuel) (block_in data bl) (block_put c k (set_all b))
    else
      let op := stop b in
      let ustart := get_u_index (start b) in
      let ustop := get_u_index op in
      let b := if negb (ustop =? MAX_INDEX) && (ustart <=? ustop) then set_end b PEnd else b in
      let c := block_put c k b in
      if (ustop =? 0) && bool_decide (start b = PBegin) && is_multiequal op then each (add_ref_recurse fuel) (block_in data bl) c
      else Ok c
  end.

Definition add_def_point (vn : nat) : outcome Cover :=
  match vn_def data vn with
  | Some def => let! k := op_block_index def in Ok (block_put [] k (set_end (set_begin cover_block_new (POp def)) (POp def)))
  | None => if vn_is_input data vn then Ok (block_put [] 0 (set_end (set_begin cover_block_new PInput) PInput)) else Ok []
  end.

(** The blocks that the slots of a MULTIEQUAL holding [vn] come from. *)
Definition phi_edge (fuel : nat) (bl reference vn : nat) (c : Cover) (slot : nat) : outcome Cover :=
  let! input := index (op_inputs data reference) slot in
  if decide (input = vn) then let! pred := index (block_in data bl) slot in add_ref_recurse fuel c pred else Ok c.

Definition add_ref_point (fuel : nat) (c : Cover) (reference vn : nat) : outcome Cover :=
  match op_parent data reference with
  | None => Panic
  | Some bl =>
    let k := block_index data bl in
    let b := block_entry c k in
    let up (c : Cover) : outcome Cover :=
      if is_multiequal (POp reference) then each (phi_edge fuel bl reference vn) (seq 0 (length (op_inputs data reference))) c
      else each (add_ref_recurse fuel) (block_in data bl) c in
    if block_empty b then up (block_put c k (set_end b (POp reference)))
    else if block_contain b (POp reference) then
      let c := block_put c k b in
      if is_multiequal (POp reference) then up c else Ok c
    else
      let op := stop b in
      let c := block_put c k (set_end b (POp reference)) in
      if get_u_index (start b) <=? get_u_index (POp reference) then
        if is_multiequal op && bool_decide (start b = PBegin) then each (add_ref_recurse fuel) (block_in data bl) c else Ok c
      else up c
  end.

(** The loop of [rebuild] over the variables of the path: [todo] is the path from
    [pos] on. *)
Definition implied_outputs (ops : list nat) : list nat :=
  omap (fun op => match op_output data op with Some out => if vn_is_implied data out then Some out else None | None => None end) ops.

Fixpoint rebuild_loop (fuel depth : nat) (vn : nat) (todo : list nat) (c : Cover) : outcome Cover :=
  match todo with
  | [] => Ok c
  | cur :: todo =>
    match fuel with
    | O => Diverge
    | S fuel =>
      let ops := vn_descend data cur in
      let! c := each (fun c op => add_ref_point depth c op vn) ops c in
      rebuild_loop fuel depth vn (todo ++ implied_outputs ops) c
    end
  end.

Definition rebuild (fuel depth : nat) (vn : nat) : outcome Cover :=
  let! c := add_def_point vn in rebuild_loop fuel depth vn [vn] c.
End WithView.
