(* ===== verification/CoverBlocks.v ===== *)
(** The intervals of [Cover] as sets of points.  A point is twice an index for an
    operation and odd for the step between two operations.  A cover whose stop comes
    before its start runs on through the end of the block and from its beginning. *)
From stdpp Require Import base list sorting sets numbers strings.
From Stdlib Require Import ZArith Lia.
From S2P Require Import Prelude Bits Multiprecision BTree Opcodes Cover.
Local Open Scope Z_scope.
Local Open Scope rust_scope.

Abbreviation cover_map := (list (Z * CoverBlock)).

(** ** Points *)

Section Points.
Context (data : View).
Abbreviation uidx := (get_u_index data).

(** The points of a block in a cover. *)
Definition covers (b : CoverBlock) (h : Z) : Prop :=
  block_empty b = false /\
  if uidx (start b) <=? uidx (stop b) then 2 * uidx (start b) <= h <= 2 * uidx (stop b)
  else 0 <= h <= 2 * uidx (stop b) \/ 2 * uidx (start b) <= h <= 2 * MAX_INDEX.

(** The same with the way from the end back to the beginning, for a cover that takes
    it, and the points that are not ends of a piece. *)
Definition spans (b : CoverBlock) (h : Z) : Prop :=
  block_empty b = false /\
  if uidx (start b) <=? uidx (stop b) then 2 * uidx (start b) <= h <= 2 * uidx (stop b) else h <= 2 * uidx (stop b) \/ 2 * uidx (start b) <= h.
Definition inner (b : CoverBlock) (h : Z) : Prop :=
  block_empty b = false /\
  if uidx (start b) <=? uidx (stop b) then 2 * uidx (start b) < h < 2 * uidx (stop b) else h < 2 * uidx (stop b) \/ 2 * uidx (start b) < h.

(** The common point of two intervals that touch is an end of the first. *)
Ltac common s e := first [exists (2 * s); lia|exists (2 * e); lia].

Lemma intersect_indices_spec s e s2 e2 : let r := intersect_indices s e s2 e2 in
  let P lo hi h := if lo <=? hi then 2 * lo <= h <= 2 * hi else h <= 2 * hi \/ 2 * lo <= h in
  let I lo hi h := if lo <=? hi then 2 * lo < h < 2 * hi else h < 2 * hi \/ 2 * lo < h in
  (r = 0 /\ (forall h, ~ (P s e h /\ P s2 e2 h))) \/
  (r = 1 /\ (exists h, P s e h /\ P s2 e2 h) /\ forall h, P s e h -> P s2 e2 h -> ~ I s e h /\ ~ I s2 e2 h) \/
  (r = 2 /\ exists h, P s e h /\ P s2 e2 h /\ (I s e h \/ I s2 e2 h)).
Proof.
  cbv zeta. unfold intersect_indices. destruct (Z.leb_spec s e), (Z.leb_spec s2 e2); simpl.
  - destruct (Z.leb_spec e s2); simpl; [|destruct (Z.leb_spec e2 s); simpl].
    + destruct (Z.eqb_spec s e2), (Z.eqb_spec e s2); simpl; [right; left..|left]; (split; [done|]); [split; [common s e|intros; lia]..|intros; lia].
    + destruct (Z.eqb_spec s e2), (Z.eqb_spec e s2); simpl; [right; left..|left]; (split; [done|]); [split; [common s e|intros; lia]..|intros; lia].
    + right. right. split; [done|]. destruct (Z.eq_dec s e); [exists (2 * s); lia|]. destruct (Z.eq_dec s2 e2); [exists (2 * s2); lia|]. exists (2 * Z.max s s2 + 1). lia.
  - destruct (Z.leb_spec e2 s); simpl; [destruct (Z.leb_spec e s2); simpl|].
    + destruct (Z.eqb_spec s e2), (Z.eqb_spec e s2); simpl; [right; left..|left]; (split; [done|]); [split; [common s e|intros; lia]..|intros; lia].
    + right. right. split; [done|]. exists (2 * e). lia.
    + right. right. split; [done|]. exists (2 * s). lia.
  - destruct (Z.leb_spec e s2); simpl; [destruct (Z.leb_spec e2 s); simpl|].
    + destruct (Z.eqb_spec s2 e), (Z.eqb_spec e2 s); simpl; [right; left..|left]; (split; [done|]); [split; [common s e|intros; lia]..|intros; lia].
    + right. right. split; [done|]. exists (2 * e2). lia.
    + right. right. split; [done|]. exists (2 * s2). lia.
  - right. right. split; [done|]. exists (2 * Z.min e e2 - 1). lia.
Qed.

(** The three answers of an intersection. *)
Lemma block_intersect_spec b b2 : let r := block_intersect data b b2 in
  (r = 0 /\ forall h, ~ (spans b h /\ spans b2 h)) \/
  (r = 1 /\ (exists h, spans b h /\ spans b2 h) /\ forall h, spans b h -> spans b2 h -> ~ inner b h /\ ~ inner b2 h) \/
  (r = 2 /\ exists h, spans b h /\ spans b2 h /\ (inner b h \/ inner b2 h)).
Proof.
  cbv zeta. unfold block_intersect, spans, inner. destruct (block_empty b) eqn:E; [left; split; [done|by intros h [[[=] _] _]]|].
  destruct (block_empty b2) eqn:E2; [left; split; [done|by intros h [_ [[=] _]]]|].
  destruct (intersect_indices_spec (uidx (start b)) (uidx (stop b)) (uidx (start b2)) (uidx (stop b2))) as [[Hr Hh]|[(Hr & (h & H1 & H2) & Hh)|(Hr & h & H1 & H2 & H3)]].
  - left. split; [done|]. intros h [[_ H1] [_ H2]]. by apply (Hh h).
  - right. left. split; [done|]. split; [by exists h|]. intros h' [_ H1'] [_ H2']. destruct (Hh h' H1' H2') as [N1 N2]. split; intros [_ HI]; [by apply N1|by apply N2].
  - right. right. split; [done|]. exists h. split_and!; [done..|]. destruct H3; [by left|by right].
Qed.

Lemma contain_covers b p : 0 <= uidx p <= MAX_INDEX -> block_contain data b p = true <-> covers b (2 * uidx p).
Proof.
  intros Hp. unfold block_contain, covers. destruct (block_empty b); [split; [done|by intros [[=] _]]|]. destruct (_ <=? uidx (stop b)) eqn:E;
    rewrite ?andb_true_iff, ?orb_true_iff, !Z.leb_le; split; (intros H; split || destruct H as [_ H]); done || lia.
Qed.

(** ** Merging blocks *)

Section Merge.
Context (Horder : forall op, 0 <= op_order data op <= MAX_INDEX).

Lemma uidx_range p : 0 <= uidx p <= MAX_INDEX.
Proof. unfold get_u_index, MAX_INDEX in *. destruct p as [| | |op]; [lia..|]. repeat case_match; (lia || apply Horder). Qed.

Lemma set_all_covers b h : covers (set_all b) h <-> 0 <= h <= 2 * MAX_INDEX.
Proof. unfold covers, set_all. simpl. unfold block_empty. simpl. unfold MAX_INDEX. split; [by intros [_ H]|by intros H]. Qed.

(** Interval arithmetic behind [merge]: the ends of two intervals, whether a stop is the
    end of the block, and the set a pair of ends stands for. *)
Definition ends (s e h : Z) : Prop := if s <=? e then 2 * s <= h <= 2 * e else 0 <= h <= 2 * e \/ 2 * s <= h <= 2 * MAX_INDEX.
Definition within (s e x : Z) : bool := if s <=? e then (s <=? x) && (x <=? e) else (x <=? e) || (s <=? x).

Lemma covers_ends b h : block_empty b = false -> covers b h <-> ends (uidx (start b)) (uidx (stop b)) h.
Proof. intros He. unfold covers, ends. rewrite He. tauto. Qed.

Lemma contain_within b p : block_empty b = false -> block_contain data b p = within (uidx (start b)) (uidx (stop b)) (uidx p).
Proof. intros He. unfold block_contain, within. by rewrite He. Qed.

(** The ends after a merge, in numbers; the flags say that a stop is the end itself. *)
Definition merged_ends (s e s2 e2 : Z) (last last2 : bool) : Z * Z :=
  let internal4 := (s =? 0) && last2 in
  let internal1 := internal4 || within s2 e2 s in
  let internal3 := (s2 =? 0) && last in
  let internal2 := internal3 || within s e s2 in
  if internal1 && internal2 && (negb (s =? s2) || internal3 || internal4) then (0, MAX_INDEX)
  else
    let e' := if internal3 || within s2 e2 e then e2 else e in
    if internal1 then (s2, e') else if negb internal2 then if s <? s2 then (s, e2) else (s2, e) else (s, e').

Lemma ends_prop s e h : ends s e h <-> (s <= e /\ 2 * s <= h <= 2 * e) \/ (e < s /\ (0 <= h <= 2 * e \/ 2 * s <= h <= 2 * MAX_INDEX)).
Proof. unfold ends. destruct (Z.leb_spec s e); lia. Qed.

Lemma within_prop s e x : (within s e x = true /\ ((s <= e /\ s <= x <= e) \/ (e < s /\ (x <= e \/ s <= x)))) \/
  (within s e x = false /\ ((s <= e /\ (x < s \/ e < x)) \/ (e < s /\ e < x < s))).
Proof. unfold within. destruct (Z.leb_spec s e), (Z.leb_spec s x), (Z.leb_spec x e); simpl; lia. Qed.

Lemma merged_ends_spec s e s2 e2 last last2 : 0 <= s <= MAX_INDEX -> 0 <= e <= MAX_INDEX -> 0 <= s2 <= MAX_INDEX -> 0 <= e2 <= MAX_INDEX ->
  (last = true -> e = MAX_INDEX) -> (last2 = true -> e2 = MAX_INDEX) -> let r := merged_ends s e s2 e2 last last2 in
  (forall h, ends s e h \/ ends s2 e2 h -> ends r.1 r.2 h) /\
  ((exists h, ends s e h /\ ends s2 e2 h) -> forall h, ends r.1 r.2 h -> ends s e h \/ ends s2 e2 h).
Proof.
  intros Hs He Hs2 He2 Hl Hl2. cbv zeta. unfold merged_ends.
  destruct (within_prop s2 e2 s) as [[-> W1]|[-> W1]], (within_prop s e s2) as [[-> W2]|[-> W2]], (within_prop s2 e2 e) as [[-> W3]|[-> W3]];
  destruct last, last2; try (specialize (Hl eq_refl)); try (specialize (Hl2 eq_refl)); rewrite ?andb_true_r, ?andb_false_r;
  destruct (Z.eqb_spec s 0), (Z.eqb_spec s2 0), (Z.eqb_spec s s2); try (exfalso; lia); cbn [andb orb negb fst snd];
  try (destruct (Z.ltb_spec s s2); cbn [andb orb negb fst snd]); try (exfalso; lia);
  (split; [intros h|intros [h0 Hq] h; revert Hq]; rewrite !ends_prop; unfold MAX_INDEX in *; lia).
Qed.

Lemma nonempty_ends b : block_empty b = false <-> ~ (start b = PBegin /\ stop b = PBegin).
Proof. unfold block_empty. rewrite andb_false_iff, !bool_decide_eq_false. destruct (decide (start b = PBegin)); tauto. Qed.

(** The merge of two blocks that are not empty, in numbers. *)
Lemma block_merge_ends b b2 : block_empty b = false -> block_empty b2 = false -> let m := block_merge data b b2 in
  block_empty m = false /\ (uidx (start m), uidx (stop m)) =
    merged_ends (uidx (start b)) (uidx (stop b)) (uidx (start b2)) (uidx (stop b2)) (bool_decide (stop b = PEnd)) (bool_decide (stop b2 = PEnd)).
Proof.
  intros Hb Hb2. unfold block_merge, merged_ends. cbv zeta. cbn [start stop]. rewrite Hb, Hb2, !(contain_within b2), !(contain_within b) by done.
  pose proof (uidx_range (start b)). pose proof (uidx_range (stop b)). pose proof (uidx_range (start b2)). pose proof (uidx_range (stop b2)).
  set (i4 := (uidx (start b) =? 0) && bool_decide (stop b2 = PEnd)). set (i3 := (uidx (start b2) =? 0) && bool_decide (stop b = PEnd)).
  apply nonempty_ends in Hb, Hb2. assert (forall p, p = PBegin -> uidx p = 0) as Hz by (by intros p ->).
  destruct (within_prop (uidx (start b2)) (uidx (stop b2)) (uidx (start b))) as [[-> W1]|[-> W1]], (within_prop (uidx (start b)) (uidx (stop b)) (uidx (start b2))) as [[-> W2]|[-> W2]];
    destruct i4, i3, (uidx (start b) =? uidx (start b2)); cbn [andb orb negb start stop set_all set_end]; try (split; [done|done]);
    destruct (within_prop (uidx (start b2)) (uidx (stop b2)) (uidx (stop b))) as [[E3 W3]|[E3 W3]]; rewrite ?E3; cbn [andb orb negb start stop set_end];
    try (destruct (Z.ltb_spec (uidx (start b)) (uidx (start b2))); cbn [andb orb negb start stop set_end]);
    (split; [|done]); apply nonempty_ends; cbn [start stop]; intros [E1 E2]; cbn [start stop set_end] in E1, E2; pose proof (Hz _ E1); pose proof (Hz _ E2); tauto || lia.
Qed.

Lemma block_merge_spec b b2 : let m := block_merge data b b2 in
  (forall h, covers b h \/ covers b2 h -> covers m h) /\
  (block_empty b = true \/ block_empty b2 = true \/ (exists h, covers b h /\ covers b2 h) -> forall h, covers m h -> covers b h \/ covers b2 h).
Proof.
  cbv zeta. assert (forall x h, block_empty x = true -> ~ covers x h) as Hno by (intros x h E [E' _]; congruence).
  destruct (block_empty b2) eqn:E2; [unfold block_merge; rewrite E2; split; intros; [destruct H; [done|by destruct (Hno b2 h)]|by left]|].
  destruct (block_empty b) eqn:E; [unfold block_merge; rewrite E, E2; split; intros; [destruct H; [by destruct (Hno b h)|done]|by right]|].
  destruct (block_merge_ends b b2 E E2) as [Em Ends]. set (m := block_merge data b b2) in *.
  destruct (merged_ends_spec (uidx (start b)) (uidx (stop b)) (uidx (start b2)) (uidx (stop b2)) (bool_decide (stop b = PEnd)) (bool_decide (stop b2 = PEnd))) as [Hsup Hexact];
    [apply uidx_range..|by intros ->%bool_decide_eq_true|by intros ->%bool_decide_eq_true|]. rewrite <- Ends in Hsup, Hexact. cbn [fst snd] in *. split.
  - intros h Hh. rewrite !covers_ends in * by done. by apply Hsup.
  - intros [?|[?|(h0 & H1 & H2)]] h Hh; [done..|]. rewrite !covers_ends in * by done. apply Hexact; [by exists h0|done].
Qed.
End Merge.
End Points.

(** ** Whole covers *)

Section Maps.
Context (data : View).
Abbreviation sorted_map := (sorted (A := Z * CoverBlock) fst).

Lemma entry_in (c : cover_map) k b : sorted_map c -> (k, b) ∈ c -> block_entry c k = b.
Proof. intros Hs Hin. unfold block_entry. rewrite (proj2 (tree_get_Some fst k c (k, b) Hs)); done. Qed.

Lemma entry_cases (c : cover_map) k : sorted_map c -> (k, block_entry c k) ∈ c \/ ((forall b, (k, b) ∉ c) /\ block_entry c k = cover_block_new).
Proof.
  intros Hs. unfold block_entry. destruct (tree_get fst k c) as [[k' b]|] eqn:E.
  - apply tree_get_Some in E as [Hin Hk]; [|done]. simpl in *. subst. by left.
  - right. split; [|done]. intros b Hin. by apply (proj1 (tree_get_None fst k c Hs) E (k, b)).
Qed.

Lemma entry_put (c : cover_map) k b k' : sorted_map c -> block_entry (block_put c k b) k' = if decide (k' = k) then b else block_entry c k'.
Proof.
  intros Hs. pose proof (sorted_map_insert fst (k, b) c Hs) as Hs'. unfold block_put. destruct (decide (k' = k)) as [->|Hne].
  - apply entry_in; [done|]. apply elem_of_map_insert; [done|by left].
  - destruct (entry_cases c k' Hs) as [Hin|[Hno E]].
    + apply entry_in; [done|]. apply elem_of_map_insert; [done|]. by right.
    + destruct (entry_cases (map_insert fst (k, b) c) k' Hs') as [Hin|[_ E']]; [|by rewrite E, E'].
      apply elem_of_map_insert in Hin as [[= ? ?]|[Hin _]]; [done| |done]. by apply Hno in Hin.
Qed.

Lemma sorted_put (c : cover_map) k b : sorted_map c -> sorted_map (block_put c k b).
Proof. apply sorted_map_insert. Qed.

(** The two maps have blocks of one key with this property. *)
Definition share (c c2 : cover_map) (P : Z -> CoverBlock -> CoverBlock -> Prop) : Prop := exists k b b2, (k, b) ∈ c /\ (k, b2) ∈ c2 /\ P k b b2.

Lemma not_after k b (c : cover_map) key b' : sorted_map ((k, b) :: c) -> key < k -> (key, b') ∉ (k, b) :: c.
Proof.
  intros [_ Hk]%sorted_cons Hlt [[= -> ->]|Hin]%elem_of_cons; [lia|]. specialize (Hk _ Hin). unfold klt in Hk. simpl in Hk. rewrite Z.compare_lt_iff in Hk. lia.
Qed.

Lemma share_left k b c k2 b2 c2 P : sorted_map ((k2, b2) :: c2) -> k < k2 -> share ((k, b) :: c) ((k2, b2) :: c2) P <-> share c ((k2, b2) :: c2) P.
Proof.
  intros Hs Hlt. split; intros (key & x & y & Hx & Hy & HP); exists key, x, y; split_and!; try done; [|by right].
  apply elem_of_cons in Hx as [[= -> ->]|Hx]; [|done]. by destruct (not_after k2 b2 c2 k y Hs Hlt).
Qed.

Lemma share_right k b c k2 b2 c2 P : sorted_map ((k, b) :: c) -> k2 < k -> share ((k, b) :: c) ((k2, b2) :: c2) P <-> share ((k, b) :: c) c2 P.
Proof.
  intros Hs Hlt. split; intros (key & x & y & Hx & Hy & HP); exists key, x, y; split_and!; try done; [|by right].
  apply elem_of_cons in Hy as [[= -> ->]|Hy]; [|done]. by destruct (not_after k b c k2 x Hs Hlt).
Qed.

Lemma share_both k b c b2 c2 P : sorted_map ((k, b) :: c) -> sorted_map ((k, b2) :: c2) -> share ((k, b) :: c) ((k, b2) :: c2) P <-> P k b b2 \/ share c c2 P.
Proof.
  intros Hs Hs2. apply sorted_cons in Hs as [_ Hk], Hs2 as [_ Hk2]. assert (forall key b (c : cover_map), (forall y, y ∈ c -> klt key (y : Z * CoverBlock).1) -> (key, b) ∉ c) as Hno.
  { intros key x l Hl Hin. by destruct (klt_irrefl key (Hl _ Hin)). }
  split.
  - intros (key & x & y & [Ex|Hx]%elem_of_cons & [Ey|Hy]%elem_of_cons & HP); simplify_eq; [by left|by destruct (Hno k y c2)|by destruct (Hno k x c)|right; by exists key, x, y].
  - intros [HP|(key & x & y & Hx & Hy & HP)]; [exists k, b, b2; split_and!; [by left..|done]|exists key, x, y; split_and!; [by right..|done]].
Qed.

Lemma share_nil c P : ~ share c [] P /\ ~ share [] c P.
Proof. split; intros (k & x & y & Hx & Hy & _); [by apply not_elem_of_nil in Hy|by apply not_elem_of_nil in Hx]. Qed.

Abbreviation visit_intersect := (fun (_ : Z) b b2 (res : Z) =>
    let newres := block_intersect data b b2 in if newres =? 2 then (2, true) else (if newres =? 1 then 1 else res, false)).
Abbreviation value v := (fun (_ : Z) b b2 => block_intersect data b b2 = v).

Lemma walk_intersect fuel : forall c c2 res, sorted_map c -> sorted_map c2 -> (length c + length c2 <= fuel)%nat -> res = 0 \/ res = 1 ->
  let r := walk_both fuel visit_intersect c c2 res in
  (r = 2 /\ share c c2 (value 2)) \/ (r = 1 /\ ~ share c c2 (value 2) /\ (res = 1 \/ share c c2 (value 1))) \/
  (r = 0 /\ res = 0 /\ ~ share c c2 (value 2) /\ ~ share c c2 (value 1)).
Proof.
  induction fuel as [|fuel IH]; intros c c2 res Hs Hs2 Hf Hres; cbv zeta.
  - destruct c, c2; simpl in Hf; try lia. simpl. destruct (share_nil [] (value 2)), (share_nil [] (value 1)). destruct Hres as [-> | ->]; [right; right|right; left]; split_and!; auto.
  - cbn [walk_both]. destruct c as [|[k b] c]; [|destruct c2 as [|[k2 b2] c2]].
    + destruct (share_nil c2 (value 2)), (share_nil c2 (value 1)). destruct Hres as [-> | ->]; [right; right|right; left]; split_and!; auto.
    + destruct (share_nil ((k, b) :: c) (value 2)), (share_nil ((k, b) :: c) (value 1)). destruct Hres as [-> | ->]; [right; right|right; left]; split_and!; auto.
    + pose proof (proj1 (proj1 (sorted_cons fst _ _) Hs)) as Hs'. pose proof (proj1 (proj1 (sorted_cons fst _ _) Hs2)) as Hs2'. simpl in Hf.
      destruct (Z.ltb_spec k k2); [|destruct (Z.ltb_spec k2 k)].
      * rewrite !share_left by done. apply IH; [done..|simpl; lia|done].
      * rewrite !share_right by done. apply IH; [done..|simpl; lia|done].
      * assert (k2 = k) as -> by lia. rewrite !share_both by done. destruct (Z.eqb_spec (block_intersect data b b2) 2) as [E|E]; [left; split; [done|by left]|].
        destruct (Z.eqb_spec (block_intersect data b b2) 1) as [E1|E1].
        -- destruct (IH c c2 1) as [[Hr ?]|[(Hr & ? & ?)|(? & ? & _)]]; [done..|lia|by right|left; split; [exact Hr|by right]| |done].
           right. left. split; [exact Hr|]. split; [intros [?|?]; done|]. right. by left.
        -- destruct (IH c c2 res) as [[Hr ?]|[(Hr & ? & Hv)|(Hr & Hv & ? & ?)]]; [done..|lia|done|left; split; [exact Hr|by right]| |].
           ++ right. left. split; [exact Hr|]. split; [intros [?|?]; done|]. destruct Hv; [by left|right; by right].
           ++ right. right. split; [exact Hr|]. split_and!; [done|intros [?|?]; done|intros [?|?]; done].
Qed.

(** Points in blocks of one key, and the entries under the key. *)
Lemma share_points (c c2 : cover_map) P : sorted_map c -> sorted_map c2 -> (forall b b2, P b b2 -> block_empty b = false /\ block_empty b2 = false) ->
  share c c2 (fun _ => P) <-> exists k, P (block_entry c k) (block_entry c2 k).
Proof.
  intros Hs Hs2 HP. split.
  - intros (k & b & b2 & Hb & Hb2 & H). exists k. by rewrite (entry_in c k b), (entry_in c2 k b2).
  - intros [k H]. destruct (HP _ _ H) as [E1 E2]. exists k, (block_entry c k), (block_entry c2 k).
    destruct (entry_cases c k Hs) as [H1|[_ E]]; [|by rewrite E in E1]. by destruct (entry_cases c2 k Hs2) as [H2|[_ E']]; [|rewrite E' in E2].
Qed.

(** The answer of [Cover::intersect] tells how two covers meet.  It is 0 when no
    block has a point in both, 2 when some block has a point in both that is not just an
    end of a piece of each, and 1 when the covers only touch at ends. *)
Theorem cover_intersect_exact (c c2 : cover_map) : sorted_map c -> sorted_map c2 -> let r := cover_intersect data c c2 in
  (r = 0 \/ r = 1 \/ r = 2) /\
  (r = 0 <-> forall k h, ~ (spans data (block_entry c k) h /\ spans data (block_entry c2 k) h)) /\
  (r = 2 <-> exists k h, spans data (block_entry c k) h /\ spans data (block_entry c2 k) h /\ (inner data (block_entry c k) h \/ inner data (block_entry c2 k) h)).
Proof.
  intros Hs Hs2. cbv zeta. unfold cover_intersect. pose proof (walk_intersect (length c + length c2) c c2 0 Hs Hs2 ltac:(lia) ltac:(by left)) as Hw. cbv zeta in Hw.
  set (r := walk_both _ _ _ _ _) in *. assert (forall v, v = 1 \/ v = 2 -> share c c2 (value v) <-> exists k, block_intersect data (block_entry c k) (block_entry c2 k) = v) as Hsh.
  { intros v Hv. apply share_points; [done..|]. intros b b2 Eb. unfold block_intersect in Eb. destruct (block_empty b); [lia|]. destruct (block_empty b2); [lia|done]. }
  rewrite !Hsh in Hw by auto.
  assert ((exists k, block_intersect data (block_entry c k) (block_entry c2 k) = 2) <->
    exists k h, spans data (block_entry c k) h /\ spans data (block_entry c2 k) h /\ (inner data (block_entry c k) h \/ inner data (block_entry c2 k) h)) as H2.
  { split; intros [k Hk]; exists k; pose proof (block_intersect_spec data (block_entry c k) (block_entry c2 k)) as Hb; cbv zeta in Hb.
    - destruct Hb as [[? _]|[[? _]|[_ Hb]]]; [lia|lia|done].
    - destruct Hk as (h & H1 & H2 & H3). destruct Hb as [[_ Hno]|[(_ & _ & Hno)|[? _]]]; [by destruct (Hno h)|destruct (Hno h H1 H2); tauto|done]. }
  assert ((exists k h, spans data (block_entry c k) h /\ spans data (block_entry c2 k) h) <->
    (exists k, block_intersect data (block_entry c k) (block_entry c2 k) = 2) \/ exists k, block_intersect data (block_entry c k) (block_entry c2 k) = 1) as H01.
  { split.
    - intros (k & h & H1 & H3). pose proof (block_intersect_spec data (block_entry c k) (block_entry c2 k)) as Hb. cbv zeta in Hb.
      destruct Hb as [[_ Hno]|[[? _]|[? _]]]; [by destruct (Hno h)|right; by exists k|left; by exists k].
    - intros [[k Hk]|[k Hk]]; pose proof (block_intersect_spec data (block_entry c k) (block_entry c2 k)) as Hb; cbv zeta in Hb.
      + destruct Hb as [[? _]|[[? _]|(_ & h & H1 & H3 & _)]]; [lia|lia|]. by exists k, h.
      + destruct Hb as [[? _]|[(_ & (h & H1 & H3) & _)|[? _]]]; [lia| |lia]. by exists k, h. }
  rewrite <- H2. assert (forall k h, spans data (block_entry c k) h /\ spans data (block_entry c2 k) h -> exists k h, spans data (block_entry c k) h /\ spans data (block_entry c2 k) h) as Hex by (intros k h ?; by exists k, h).
  destruct Hw as [[-> Hw]|[(-> & Hn & Hw)|(-> & _ & Hn & Hn1)]].
  - split_and!; [auto| |done]. split; [lia|]. intros Hno. destruct (proj2 H01 (or_introl Hw)) as (k & h & ?). by destruct (Hno k h).
  - destruct Hw as [?|Hw]; [lia|]. split_and!; [auto| |split; [lia|done]]. split; [lia|]. intros Hno. destruct (proj2 H01 (or_intror Hw)) as (k & h & ?). by destruct (Hno k h).
  - split_and!; [auto| |split; [lia|done]]. split; [|done]. intros _ k h Hkh. apply Hex in Hkh. apply H01 in Hkh. tauto.
Qed.

Lemma sorted_merge c2 : forall c, sorted_map c -> sorted_map (cover_merge data c c2).
Proof. induction c2 as [|[k b] c2 IH]; intros c Hs; [done|]. unfold cover_merge. simpl. apply IH. by apply sorted_put. Qed.

(** The blocks of a merged cover are the merged blocks. *)
Lemma entry_merge c2 k : sorted_map c2 -> forall c, sorted_map c -> block_entry (cover_merge data c c2) k = block_merge data (block_entry c k) (block_entry c2 k).
Proof.
  induction c2 as [|[key b] c2 IH]; intros Hs2 c Hs; [done|]. apply sorted_cons in Hs2 as [Hs2 Hk]. unfold cover_merge. cbn [fold_left fst snd]. fold (cover_merge data (block_put c key (block_merge data (block_entry c key) b)) c2).
  rewrite IH, entry_put by (done || by apply sorted_put). unfold block_entry at 5. cbn [tree_get fst]. destruct (decide (k = key)) as [->|Hne].
  - rewrite kcmp_refl. cbn [snd]. destruct (entry_cases c2 key Hs2) as [Hin|[_ ->]]; [by destruct (klt_irrefl key (Hk _ Hin))|done].
  - destruct (kcmp k key) eqn:E; [|done..]. by apply kcmp_eq in E.
Qed.

(** Merging covers loses nothing.  Every point of the two covers is a point of the
    merged one, and in a block where one of them is empty or the two have a point in
    common the merged cover has no other points. *)
Theorem cover_merge_correct (c c2 : cover_map) : (forall op, 0 <= op_order data op <= MAX_INDEX) -> sorted_map c -> sorted_map c2 ->
  sorted_map (cover_merge data c c2) /\ forall k, let b := block_entry c k in let b2 := block_entry c2 k in let m := block_entry (cover_merge data c c2) k in
  (forall h, covers data b h \/ covers data b2 h -> covers data m h) /\
  (block_empty b = true \/ block_empty b2 = true \/ (exists h, covers data b h /\ covers data b2 h) -> forall h, covers data m h -> covers data b h \/ covers data b2 h).
Proof.
  intros Ho Hs Hs2. split; [by apply sorted_merge|]. intros k. cbv zeta. rewrite entry_merge by done. by apply block_merge_spec.
Qed.
End Maps.

(** A loop: operation 1 of block 0 defines variable 0, operation 5 of block 1 uses it,
    and block 1 follows itself and block 0. *)
Definition demo_view : View :=
  mk_View (fun _ => false) (fun _ => Copy) (fun op => Z.max 1 (Z.min (Z.of_nat op) MAX_INDEX)) (fun op => op) (fun op => Some (if (op <? 3)%nat then 0%nat else 1%nat)) (fun _ => []) (fun _ => None)
    Z.of_nat (fun bl => match bl with 1%nat => [0; 1]%nat | 2%nat => [1%nat] | _ => [] end)
    (fun vn => match vn with O => Some 1%nat | _ => None end) (fun _ => false) (fun _ => false) (fun vn => match vn with O => [5%nat] | _ => [] end).

Example rebuild_demo : rebuild demo_view 1 3 0 = Ok [(0, mk_CoverBlock (POp 1) PEnd); (1, mk_CoverBlock PBegin PEnd)].
Proof. by vm_compute. Qed.

Definition cover_a : cover_map := [(0, mk_CoverBlock (POp 1) PEnd); (1, mk_CoverBlock PBegin (POp 5))].
Definition cover_b : cover_map := [(1, mk_CoverBlock (POp 5) (POp 9)); (4, mk_CoverBlock PBegin PEnd)].

Lemma sorted_two (k1 k2 : Z) (b1 b2 : CoverBlock) : k1 < k2 -> sorted (A := Z * CoverBlock) fst [(k1, b1); (k2, b2)].
Proof.
  intros Hlt. apply sorted_cons. split; [apply sorted_cons; split; [constructor|by intros y Hy%not_elem_of_nil]|]. intros y ->%list_elem_of_singleton. by apply Z.compare_lt_iff.
Qed.

Lemma cover_intersect_exact_witness : cover_intersect demo_view cover_a cover_b = 1 /\ exists k h, spans demo_view (block_entry cover_a k) h /\ spans demo_view (block_entry cover_b k) h.
Proof.
  destruct (cover_intersect_exact demo_view cover_a cover_b) as (_ & Hzero & _); [by apply sorted_two|by apply sorted_two|].
  split; [reflexivity|]. exists 1, 10. split; (split; [reflexivity|]); vm_compute; split; discriminate.
Defined.

Lemma demo_order op : 0 <= op_order demo_view op <= MAX_INDEX.
Proof. simpl. unfold MAX_INDEX. lia. Qed.

Lemma cover_merge_correct_witness : forall h, covers demo_view (block_entry (cover_merge demo_view cover_a cover_b) 1) h -> 0 <= h <= 18.
Proof.
  intros h Hh. destruct (cover_merge_correct demo_view cover_a cover_b demo_order) as [_ Hm]; [by apply sorted_two|by apply sorted_two|].
  destruct (Hm 1) as [_ Hexact]. destruct (Hexact ltac:(right; right; exists 10; split; (split; [reflexivity|]); vm_compute; split; discriminate) h Hh) as [[_ H]|[_ H]].
  - change (0 <= h <= 10) in H. lia.
  - change (10 <= h <= 18) in H. lia.
Defined.
