(* ===== verification/CoverFlow.v ===== *)
(** Building a cover: [rebuild], [add_ref_point] and [add_ref_recurse] of
    [src/src/cover.rs] walk the edges of the flow graph backwards from the uses of a
    variable to its definition.  The walk ends ([recurse_spec], [loop_spec]), and the
    cover it leaves is exactly the live range of the variable ([rebuild_exact]). *)
From stdpp Require Import base list sorting sets relations numbers strings.
From Stdlib Require Import ZArith Lia.
From S2P Require Import Prelude Bits Multiprecision BTree Opcodes Cover CoverBlocks.
Local Open Scope Z_scope.
Local Open Scope rust_scope.

Section Flow.
Context (data : View) (blocks : list nat).
Abbreviation uidx := (get_u_index data).
Abbreviation sorted_map := (sorted (A := Z * CoverBlock) fst).

(** What the graph has: orders that start at 1, MULTIEQUALs that are markers, blocks with
    different indices and predecessors among them. *)
Context (Horder : forall op, 0 < op_order data op <= MAX_INDEX).
Context (Hphi : forall op, op_code data op = Multiequal -> op_marker data op = true).
Context (Hidx : forall a b, a ∈ blocks -> b ∈ blocks -> block_index data a = block_index data b -> a = b).
Context (Hin : forall bl p, bl ∈ blocks -> p ∈ block_in data bl -> p ∈ blocks).

(** The cover of a block. *)
Definition at_block (c : cover_map) (bl : nat) : CoverBlock := block_entry c (block_index data bl).

(** The value lives at the end of the block. *)
Definition live_end (b : CoverBlock) : Prop := block_contain data b PEnd = true.

(** The value comes in from every predecessor: the cover goes back to the beginning of
    the block, and not only to a MULTIEQUAL there. *)
Definition needs (b : CoverBlock) : Prop :=
  block_empty b = false /\ (start b = PBegin \/ uidx (stop b) < uidx (start b)) /\ is_multiequal data (stop b) = false.

Definition closed (c : cover_map) : Prop := forall bl p, bl ∈ blocks -> p ∈ block_in data bl -> needs (at_block c bl) -> live_end (at_block c p).

(** ** Growth *)

(** How one block may change. *)
Record grown (b b' : CoverBlock) : Prop := mk_grown {
  gr_covers : forall h, covers data b h -> covers data b' h;
  gr_start : block_empty b = false -> block_empty b' = false /\ start b' = start b;
  gr_fresh : block_empty b = true -> block_empty b' = false -> start b' = PBegin;
  gr_needs : needs b -> needs b' }.

Definition grows (c c' : cover_map) : Prop := forall bl, bl ∈ blocks -> grown (at_block c bl) (at_block c' bl).

(** The blocks that need their predecessors after a step, and did not before, have them. *)
Definition served (c c' : cover_map) : Prop :=
  forall bl p, bl ∈ blocks -> p ∈ block_in data bl -> needs (at_block c' bl) -> needs (at_block c bl) \/ live_end (at_block c' p).

Lemma grown_refl b : grown b b.
Proof. split; try done. intros E E'. congruence. Qed.

Lemma grown_trans b b' b'' : grown b b' -> grown b' b'' -> grown b b''.
Proof.
  intros [C1 S1 F1 N1] [C2 S2 F2 N2]. split; [auto| | |auto].
  - intros E. destruct (S1 E) as [E' Hs1]. destruct (S2 E') as [E'' Hs2]. split; [done|congruence].
  - intros E E''. destruct (block_empty b') eqn:E'; [by apply F2|]. destruct (S2 eq_refl) as [_ ->]. by apply F1.
Qed.

Lemma uidx_ok p : 0 <= uidx p <= MAX_INDEX.
Proof. apply uidx_range. intros op. specialize (Horder op). lia. Qed.

Lemma uidx_phi p : is_multiequal data p = true -> uidx p = 0.
Proof. destruct p as [| | |op]; try done. simpl. intros H%bool_decide_eq_true. by rewrite (Hphi op H), bool_decide_true. Qed.

Lemma uidx_not_phi op : is_multiequal data (POp op) = false -> 0 < uidx (POp op).
Proof.
  simpl. intros H. rewrite H, andb_false_r. destruct (op_marker data op && _); apply Horder.
Qed.

Lemma live_end_covers b : live_end b <-> covers data b (2 * MAX_INDEX).
Proof. unfold live_end. rewrite contain_covers; [done|]. apply uidx_ok. Qed.

Lemma grown_live b b' : grown b b' -> live_end b -> live_end b'.
Proof. rewrite !live_end_covers. intros Hg. apply (gr_covers _ _ Hg). Qed.

Lemma grows_refl c : grows c c.
Proof. intros bl _. apply grown_refl. Qed.

Lemma grows_trans c c' c'' : grows c c' -> grows c' c'' -> grows c c''.
Proof. intros H1 H2 bl Hb. eapply grown_trans; [by apply H1|by apply H2]. Qed.

Lemma served_refl c : served c c.
Proof. intros bl p _ _ Hn. by left. Qed.

Lemma served_trans c c' c'' : served c c' -> grows c' c'' -> served c' c'' -> served c c''.
Proof.
  intros S1 G2 S2 bl p Hb Hp Hn. destruct (S2 bl p Hb Hp Hn) as [Hn'|?]; [|by right]. destruct (S1 bl p Hb Hp Hn') as [?|Hl]; [by left|].
  right. apply (grown_live _ _ (G2 p (Hin bl p Hb Hp)) Hl).
Qed.

Lemma served_closed c c' : closed c -> grows c c' -> served c c' -> closed c'.
Proof. intros Hc G S bl p Hb Hp Hn. destruct (S bl p Hb Hp Hn) as [Hn'|?]; [|done]. apply (grown_live _ _ (G p (Hin bl p Hb Hp))). by apply (Hc bl p). Qed.

Lemma at_put c bl b bl' : sorted_map c -> bl ∈ blocks -> bl' ∈ blocks -> at_block (block_put c (block_index data bl) b) bl' = if decide (bl' = bl) then b else at_block c bl'.
Proof.
  intros Hs Hb Hb'. unfold at_block. rewrite entry_put by done. destruct (decide (bl' = bl)) as [->|Hne]; [by rewrite decide_True|].
  rewrite decide_False; [done|]. intros E. by apply Hne, Hidx.
Qed.

(** Changing one block. *)
Lemma grows_put c bl b : sorted_map c -> bl ∈ blocks -> grown (at_block c bl) b -> grows c (block_put c (block_index data bl) b).
Proof. intros Hs Hb Hg bl' Hb'. rewrite at_put by done. destruct (decide (bl' = bl)) as [->|]; [done|apply grown_refl]. Qed.

(** A step that first changes a block and then serves its predecessors if it has to. *)
Lemma served_put c bl b c' : sorted_map c -> bl ∈ blocks -> grows (block_put c (block_index data bl) b) c' -> served (block_put c (block_index data bl) b) c' ->
  (needs b -> needs (at_block c bl) \/ forall p, p ∈ block_in data bl -> live_end (at_block c' p)) -> served c c'.
Proof.
  intros Hs Hb Hg Hsv Hnew bl' p Hb' Hp Hn. destruct (Hsv bl' p Hb' Hp Hn) as [Hn'|?]; [|by right]. rewrite at_put in Hn' by done.
  destruct (decide (bl' = bl)) as [->|]; [|by left]. destruct (Hnew Hn') as [?|Hall]; [by left|right; by apply Hall].
Qed.

(** ** The walk ends *)

(** A block from which the walk would go on. *)
Definition pending (b : CoverBlock) : bool := block_empty b || (bool_decide (start b = PBegin) && is_multiequal data (stop b)).
Definition calm (c c' : cover_map) : Prop := forall bl, bl ∈ blocks -> pending (at_block c' bl) = true -> pending (at_block c bl) = true.
Definition measure (c : cover_map) : nat := length (filter (fun bl => pending (at_block c bl) = true) blocks).

Lemma filter_le (P Q : nat -> Prop) `{!forall x, Decision (P x)} `{!forall x, Decision (Q x)} l : (forall x, x ∈ l -> P x -> Q x) ->
  (length (filter P l) <= length (filter Q l))%nat /\ ((exists x, x ∈ l /\ Q x /\ ~ P x) -> (length (filter P l) < length (filter Q l))%nat).
Proof.
  induction l as [|x l IH]; intros HPQ; [split; [done|by intros (x & ?%not_elem_of_nil & _)]|]. destruct IH as [IH1 IH2]; [intros y Hy; apply HPQ; by right|].
  rewrite !filter_cons. destruct (decide (P x)) as [Hp|Hp].
  - rewrite (decide_True (P := Q x)) by (apply HPQ; [by left|done]). simpl. split; [lia|]. intros (y & [->|Hy]%elem_of_cons & Hq & Hn); [done|].
    assert (exists x, x ∈ l /\ Q x /\ ~ P x) as Hex by (by exists y). specialize (IH2 Hex). lia.
  - destruct (decide (Q x)) as [Hq|Hq]; simpl; (split; [lia|]); [lia|]. intros (y & [->|Hy]%elem_of_cons & Hq' & Hn); [done|]. apply IH2. by exists y.
Qed.

Lemma measure_calm c c' : calm c c' -> (measure c' <= measure c)%nat.
Proof. intros Hc. by apply filter_le. Qed.

Lemma measure_less c c' bl : calm c c' -> bl ∈ blocks -> pending (at_block c bl) = true -> pending (at_block c' bl) = false -> (measure c' < measure c)%nat.
Proof. intros Hc Hb H1 H2. apply filter_le; [done|]. exists bl. split; [done|]. split; [done|]. by rewrite H2. Qed.

Lemma measure_bound c : (measure c <= length blocks)%nat.
Proof. apply length_filter. Qed.

(** What every step of the walk does. *)
Record step (c c' : cover_map) : Prop := mk_step { st_sorted : sorted_map c'; st_grows : grows c c'; st_served : served c c'; st_calm : calm c c' }.

Lemma step_refl c : sorted_map c -> step c c.
Proof. intros Hs. split; [done|apply grows_refl|apply served_refl|by intros bl]. Qed.

Lemma step_trans c c' c'' : step c c' -> step c' c'' -> step c c''.
Proof.
  intros [S1 G1 V1 C1] [S2 G2 V2 C2]. split; [done|by eapply grows_trans|by eapply served_trans|]. intros bl Hb Hp. by apply C1, C2.
Qed.

(** Loops of steps. *)
Lemma each_spec {A} (f : cover_map -> A -> outcome cover_map) (Post : A -> cover_map -> Prop) n l :
  (forall c x, x ∈ l -> sorted_map c -> (measure c < n)%nat -> exists c', f c x = Ok c' /\ step c c' /\ Post x c') ->
  (forall x c c', x ∈ l -> Post x c -> grows c c' -> Post x c') ->
  forall c, sorted_map c -> (measure c < n)%nat -> exists c', each f l c = Ok c' /\ step c c' /\ forall x, x ∈ l -> Post x c'.
Proof.
  induction l as [|x l IH]; intros Hf HP c Hs Hn; [exists c; split; [done|split; [by apply step_refl|by intros x ?%not_elem_of_nil]]|].
  destruct (Hf c x) as (c1 & E & S1 & P1); [by left|done..|]. cbn [each]. rewrite E. cbn [obind].
  destruct (IH) with (c := c1) as (c2 & E2 & S2 & P2); [intros; apply Hf; [by right|done..]|intros; eapply HP; [by right|done..]|apply S1| |].
  - pose proof (measure_calm c c1 (st_calm _ _ S1)). lia.
  - exists c2. split; [done|]. split; [by eapply step_trans|]. intros y [->|Hy]%elem_of_cons; [|by apply P2]. eapply HP; [by left|exact P1|apply S2].
Qed.

Lemma grown_all b : block_empty b = true -> grown b (set_all b).
Proof.
  intros E. split; [by intros h [E' _]; congruence|congruence|done|]. intros [E' _]. congruence.
Qed.

(** Stretching a cover that does not wrap to the end of the block. *)
Lemma grown_end b : block_empty b = false -> uidx (start b) <= uidx (stop b) -> grown b (set_end b PEnd).
Proof.
  intros E Hle. assert (block_empty (set_end b PEnd) = false) as E' by (apply nonempty_ends; simpl; by intros [_ [=]]). pose proof (uidx_ok (stop b)). pose proof (uidx_ok (start b)).
  split; [|done|congruence|].
  - intros h. rewrite !covers_ends by done. rewrite !ends_prop. cbn [set_end start stop]. change (uidx PEnd) with MAX_INDEX. lia.
  - intros (_ & Hs & Hp). split; [done|]. split; [|done]. simpl. destruct Hs as [?|?]; [by left|lia].
Qed.

Lemma live_all b : live_end (set_all b).
Proof. by vm_compute. Qed.

Lemma recurse_spec fuel : forall c bl, sorted_map c -> bl ∈ blocks -> (measure c < fuel)%nat ->
  exists c', add_ref_recurse data fuel c bl = Ok c' /\ step c c' /\ live_end (at_block c' bl).
Proof.
  induction fuel as [|fuel IH]; intros c bl Hs Hb Hm; [lia|]. cbn [add_ref_recurse]. fold (at_block c bl). set (b := at_block c bl).
  assert (forall b', grown b b' -> pending b' = false -> pending b = true ->
    exists c', each (add_ref_recurse data fuel) (block_in data bl) (block_put c (block_index data bl) b') = Ok c' /\ step c c' /\ grown b' (at_block c' bl)) as Hgo.
  { intros b' Hg Hp' Hp. set (c1 := block_put c (block_index data bl) b'). assert (sorted_map c1) as Hs1 by (by apply sorted_put).
    assert (calm c c1) as Hc1 by (intros bl' Hb'; unfold c1; rewrite at_put by done; destruct (decide (bl' = bl)) as [->|]; [by rewrite Hp'|done]).
    assert (at_block c1 bl = b') as Hat by (unfold c1; rewrite at_put by done; by rewrite decide_True).
    assert (measure c1 < measure c)%nat by (apply (measure_less c c1 bl); [done..|by rewrite Hat]).
    destruct (each_spec (add_ref_recurse data fuel) (fun p c => live_end (at_block c p)) fuel (block_in data bl)) with (c := c1) as (c' & -> & [S1 G1 V1 C1] & Hall); [| |done|lia|].
    - intros c2 p Hp2 Hs2 Hm2. apply IH; [done|by apply (Hin bl)|lia].
    - intros p c2 c3 Hp2 Hl Hg2. apply (grown_live _ _ (Hg2 p (Hin bl p Hb Hp2)) Hl).
    - exists c'. split; [done|]. split; [|rewrite <- Hat; by apply G1]. split; [done|eapply grows_trans; [by apply (grows_put c bl b')|done]| |intros bl' Hb' Hx; by apply Hc1, C1].
      eapply served_put; [done|done|done|done|]. intros _. by right. }
  destruct (block_empty b) eqn:E.
  - destruct (Hgo (set_all b)) as (c' & Ec & Hst & Hgr); [by apply grown_all|done|by unfold pending; rewrite E|]. exists c'. split; [done|]. split; [done|].
    apply (grown_live _ _ Hgr), live_all.
  - set (b' := if negb (uidx (stop b) =? MAX_INDEX) && (uidx (start b) <=? uidx (stop b)) then set_end b PEnd else b).
    assert (grown b b' /\ live_end b' /\ start b' = start b /\ (pending b' = true -> pending b = true)) as (Hg & Hl & Hst & Hp).
    { unfold b'. pose proof (uidx_ok (stop b)). pose proof (uidx_ok (start b)). destruct (Z.eqb_spec (uidx (stop b)) MAX_INDEX) as [Em|Em]; cbn [negb andb].
      - split_and!; [apply grown_refl| |done|done]. rewrite live_end_covers, covers_ends, ends_prop by done. lia.
      - destruct (Z.leb_spec (uidx (start b)) (uidx (stop b))).
        + pose proof (grown_end b E ltac:(lia)) as Hg. split_and!; [done| |done|].
          * rewrite live_end_covers, covers_ends, ends_prop by (apply nonempty_ends; simpl; by intros [_ [=]]). cbn [set_end start stop]. change (uidx PEnd) with MAX_INDEX. lia.
          * unfold pending. cbn [set_end start stop is_multiequal]. rewrite andb_false_r. destruct (gr_start _ _ Hg E) as [-> _]. done.
        + split_and!; [apply grown_refl| |done|done]. rewrite live_end_covers, covers_ends, ends_prop by done. lia. }
    destruct ((uidx (stop b) =? 0) && bool_decide (start b' = PBegin) && is_multiequal data (stop b)) eqn:Ego.
    + apply andb_prop in Ego as [[E0%Z.eqb_eq Eb%bool_decide_eq_true]%andb_prop Ephi]. rewrite Hst in Eb.
      assert (b' = set_end b PEnd) as Eb'. { unfold b'. rewrite E0, Eb. reflexivity. }
      destruct (Hgo b') as (c' & Ec & Hstep & Hgr); [done| | |exists c'; split; [done|split; [done|by apply (grown_live _ _ Hgr)]]].
      * rewrite Eb'. unfold pending. cbn [set_end start stop is_multiequal]. rewrite andb_false_r, orb_false_r. apply nonempty_ends. simpl. by intros [_ [=]].
      * unfold pending. rewrite Eb, Ephi, bool_decide_true by done. apply orb_true_r.
    + eexists. split; [done|]. assert (sorted_map (block_put c (block_index data bl) b')) as Hs1 by (by apply sorted_put).
      split; [|rewrite at_put by done; by rewrite decide_True]. split; [done|by apply grows_put| |].
      * eapply served_put; [done|done|apply grows_refl|apply served_refl|]. intros Hn. left. destruct Hn as (_ & Hs' & Hq). fold b. split; [done|].
        destruct Hs' as [Hb0|Hw].
        -- rewrite Hst in Hb0. split; [by left|]. destruct (is_multiequal data (stop b)) eqn:Ephi; [|done]. rewrite (uidx_phi _ Ephi), Hst, Hb0 in Ego. done.
        -- unfold b' in Hw, Hq. pose proof (uidx_ok (start b)). destruct (negb _ && _) eqn:Ec; [cbn [set_end start stop] in Hw; change (uidx PEnd) with MAX_INDEX in Hw; lia|].
           split; [by right|done].
      * intros bl' Hb'. rewrite at_put by done. destruct (decide (bl' = bl)) as [->|]; [done|done].
Qed.

(** ** One use *)

Lemma nonempty_op b op : block_empty (set_end b (POp op)) = false.
Proof. apply nonempty_ends. simpl. by intros [_ [=]]. Qed.

(** Moving the end of a cover to an operation outside it. *)
Lemma outside_cases b op : block_empty b = false -> block_contain data b (POp op) = false ->
  (uidx (start b) <= uidx (stop b) < uidx (POp op)) \/ (uidx (start b) <= uidx (stop b) /\ uidx (POp op) < uidx (start b)) \/
  (uidx (stop b) < uidx (POp op) < uidx (start b)).
Proof.
  intros E. rewrite contain_within by done. destruct (within_prop (uidx (start b)) (uidx (stop b)) (uidx (POp op))) as [[-> _]|[_ H]]; [done|]. intros _. lia.
Qed.

Lemma outside_phi b op : block_empty b = false -> block_contain data b (POp op) = false ->
  start b = PBegin \/ uidx (stop b) < uidx (start b) -> is_multiequal data (POp op) = false.
Proof.
  intros E Hc Hs. destruct (is_multiequal data (POp op)) eqn:Hp; [|done]. apply uidx_phi in Hp. pose proof (uidx_ok (start b)). pose proof (uidx_ok (stop b)).
  destruct (outside_cases b op E Hc) as [?|[[? ?]|?]]; destruct Hs as [Hs|?]; try lia. rewrite Hs in *. simpl in *. lia.
Qed.

Lemma grown_op b op : block_contain data b (POp op) = false -> grown b (set_end b (POp op)).
Proof.
  intros Hc. pose proof (nonempty_op b op) as E'. pose proof (uidx_ok (POp op)). pose proof (uidx_ok (start b)). pose proof (uidx_ok (stop b)). split.
  - intros h Hh. destruct Hh as [E Hh]. assert (covers data b h) as Hh' by done. rewrite covers_ends, ends_prop in Hh' |- * by done. cbn [set_end start stop].
    destruct (outside_cases b op E Hc) as [?|[[? ?]|?]]; lia.
  - done.
  - intros E _. unfold block_empty in E. apply andb_prop in E as [E%bool_decide_eq_true _]. exact E.
  - intros (E & Hs & Hp). split; [done|]. split; [|by apply (outside_phi b)]. cbn [set_end start stop].
    destruct Hs as [Hs|Hs]; [by left|]. right. destruct (outside_cases b op E Hc) as [?|[[? ?]|?]]; lia.
Qed.

Lemma contain_empty b p : block_empty b = true -> block_contain data b p = false.
Proof. intros E. unfold block_contain. by rewrite E. Qed.

Lemma op_covered b op : covers data (set_end b (POp op)) (2 * uidx (POp op)).
Proof.
  pose proof (uidx_ok (POp op)). pose proof (uidx_ok (start b)). rewrite covers_ends, ends_prop by apply nonempty_op. cbn [set_end start stop]. lia.
Qed.

Lemma calm_op b op : block_contain data b (POp op) = false -> pending (set_end b (POp op)) = true -> pending b = true.
Proof.
  intros Hc. unfold pending. rewrite nonempty_op. cbn [orb set_end start stop]. intros [Hs%bool_decide_eq_true Hp]%andb_prop. destruct (block_empty b) eqn:E; [done|].
  pose proof (outside_phi b op E Hc (or_introl Hs)). congruence.
Qed.

Section Point.
Context (depth vn bl reference : nat) (Hdepth : (length blocks < depth)%nat) (Hbl : bl ∈ blocks) (Hparent : op_parent data reference = Some bl).
Context (Hslots : is_multiequal data (POp reference) = true -> forall i, op_inputs data reference !! i = Some vn -> is_Some (block_in data bl !! i)).

(** The predecessors the walk goes to. *)
Definition source (p : nat) : Prop :=
  if is_multiequal data (POp reference) then exists i, op_inputs data reference !! i = Some vn /\ block_in data bl !! i = Some p else p ∈ block_in data bl.

Abbreviation up := (fun c => if is_multiequal data (POp reference) then each (phi_edge data depth bl reference vn) (seq 0 (length (op_inputs data reference))) c
  else each (add_ref_recurse data depth) (block_in data bl) c).

Lemma all_spec c : sorted_map c ->
  exists c', each (add_ref_recurse data depth) (block_in data bl) c = Ok c' /\ step c c' /\ forall p, p ∈ block_in data bl -> live_end (at_block c' p).
Proof.
  intros Hs. pose proof (measure_bound c). apply (each_spec _ (fun p c => live_end (at_block c p)) depth); [| |done|lia].
  - intros c1 p Hp Hs1 Hm1. apply recurse_spec; [done|by apply (Hin bl)|done].
  - intros p c1 c2 Hp Hl Hg. apply (grown_live _ _ (Hg p (Hin bl p Hbl Hp)) Hl).
Qed.

Lemma up_spec c : sorted_map c -> exists c', up c = Ok c' /\ step c c' /\ forall p, source p -> live_end (at_block c' p).
Proof.
  intros Hs. pose proof (measure_bound c). unfold source. destruct (is_multiequal data (POp reference)) eqn:Hphi'; [|by apply all_spec].
  destruct (each_spec (phi_edge data depth bl reference vn) (fun i c => op_inputs data reference !! i = Some vn -> forall p, block_in data bl !! i = Some p -> live_end (at_block c p))
    depth (seq 0 (length (op_inputs data reference)))) with (c := c) as (c' & E & Hst & Hpost); [| |done|lia|].
  - intros c1 i [_ Hi]%elem_of_seq Hs1 Hm1. unfold phi_edge, index. destruct (lookup_lt_is_Some_2 (op_inputs data reference) i ltac:(lia)) as [x Hx]. rewrite Hx. cbn [obind].
    destruct (decide (x = vn)) as [->|Hne]; [|exists c1; split; [done|split; [by apply step_refl|congruence]]].
    destruct (Hslots eq_refl i Hx) as [p Hp]. rewrite Hp. cbn [obind]. destruct (recurse_spec depth c1 p) as (c2 & E2 & S2 & L2); [done|eapply Hin; [exact Hbl|by eapply list_elem_of_lookup_2]|done|].
    exists c2. split; [done|]. split; [done|]. intros _ q [= <-]. done.
  - intros i c1 c2 _ H1 Hg Hi p Hp. eapply grown_live; [apply Hg; eapply Hin; [exact Hbl|by eapply list_elem_of_lookup_2]|by apply H1].
  - exists c'. split; [done|]. split; [done|]. intros p (i & Hi & Hp). eapply Hpost; [|done|done]. apply lookup_lt_Some in Hi. apply elem_of_seq. lia.
Qed.

(** A change of the block, and the predecessors served as far as it asks. *)
Lemma step_put c b c' : sorted_map c -> grown (at_block c bl) b -> (pending b = true -> pending (at_block c bl) = true) ->
  step (block_put c (block_index data bl) b) c' ->
  (needs b -> needs (at_block c bl) \/ forall p, p ∈ block_in data bl -> live_end (at_block c' p)) -> step c c'.
Proof.
  intros Hs Hg Hp [S1 G1 V1 C1] Hn. split; [done|eapply grows_trans; [by apply (grows_put c bl b)|done]|by eapply served_put|].
  intros bl' Hb' Hx. specialize (C1 bl' Hb' Hx). rewrite at_put in C1 by done. destruct (decide (bl' = bl)) as [->|]; auto.
Qed.

Lemma put_here c b c' : sorted_map c -> step (block_put c (block_index data bl) b) c' -> grown b (at_block c' bl).
Proof. intros Hs Hst. pose proof (st_grows _ _ Hst bl Hbl) as Hg. rewrite at_put in Hg by done. by rewrite decide_True in Hg. Qed.

Lemma point_spec c : sorted_map c -> exists c', add_ref_point data depth c reference vn = Ok c' /\ step c c' /\
  covers data (at_block c' bl) (2 * uidx (POp reference)) /\ (is_multiequal data (POp reference) = true -> forall p, source p -> live_end (at_block c' p)).
Proof.
  intros Hs. unfold add_ref_point. rewrite Hparent. cbv zeta. fold (at_block c bl). set (b := at_block c bl).
  assert (Hend : forall b', sorted_map (block_put c (block_index data bl) b')) by (intros; by apply sorted_put).
  destruct (block_contain data b (POp reference)) eqn:Ec.
  - assert (block_empty b = false) as E by (destruct (block_empty b) eqn:E; [by rewrite contain_empty in Ec|done]). rewrite E.
    assert (Hcov : forall c', step (block_put c (block_index data bl) b) c' -> covers data (at_block c' bl) (2 * uidx (POp reference))).
    { intros c' Hst. apply (gr_covers _ _ (put_here c b c' Hs Hst)), contain_covers; [apply uidx_ok|done]. }
    assert (Hstep : forall c', step (block_put c (block_index data bl) b) c' -> step c c') by (intros c' Hst; eapply (step_put c b); [done|apply grown_refl|done|done|by left]).
    destruct (up_spec (block_put c (block_index data bl) b) (Hend b)) as (c' & Eu & Hst & Hsrc).
    destruct (is_multiequal data (POp reference)) eqn:Hm; [exists c'; split_and!; [done|by apply Hstep|by apply Hcov|by intros _ p Hp; apply Hsrc]|].
    pose proof (step_refl _ (Hend b)) as Hr. eexists. split_and!; [done|by apply Hstep|by apply Hcov|done].
  - pose proof (grown_op b reference Ec) as Hg. pose proof (calm_op b reference Ec) as Hcalm. set (b' := set_end b (POp reference)) in *.
    assert (Hgo : forall c', step (block_put c (block_index data bl) b') c' ->
      (needs b' -> needs b \/ forall p, p ∈ block_in data bl -> live_end (at_block c' p)) -> step c c' /\ covers data (at_block c' bl) (2 * uidx (POp reference))).
    { intros c' Hst Hn. split; [by eapply (step_put c b')|]. apply (gr_covers _ _ (put_here c b' c' Hs Hst)), op_covered. }
    assert (Hup : exists c', up (block_put c (block_index data bl) b') = Ok c' /\ step c c' /\ covers data (at_block c' bl) (2 * uidx (POp reference)) /\
      (is_multiequal data (POp reference) = true -> forall p, source p -> live_end (at_block c' p))).
    { destruct (up_spec _ (Hend b')) as (c' & Eu & Hst & Hsrc). exists c'. split; [done|]. destruct (Hgo c' Hst) as [? ?]; [|done].
      intros (_ & _ & Hp). right. intros p Hin'. apply Hsrc. unfold source. cbn [set_end stop b'] in Hp. by rewrite Hp. }
    destruct (block_empty b) eqn:E; [exact Hup|]. destruct (Z.leb_spec (uidx (start b)) (uidx (POp reference))) as [Hle|Hlt]; [|exact Hup].
    assert (Hm : is_multiequal data (POp reference) = true -> start b = PBegin -> False).
    { intros Hm Hb. pose proof (outside_phi b reference E Ec (or_introl Hb)). congruence. }
    assert (Hsrc : is_multiequal data (POp reference) = true -> False).
    { intros Hp. pose proof (uidx_phi _ Hp). pose proof (uidx_ok (start b)). pose proof (uidx_ok (stop b)). destruct (outside_cases b reference E Ec) as [?|[[? ?]|?]]; lia. }
    destruct (is_multiequal data (stop b) && bool_decide (start b = PBegin)) eqn:Ego.
    + destruct (all_spec _ (Hend b')) as (c' & Eu & Hst & Hall). exists c'. split; [done|]. destruct (Hgo c' Hst) as [? ?]; [by right|]. by split_and!; [..|intros ?%Hsrc].
    + eexists. split; [done|]. destruct (Hgo _ (step_refl _ (Hend b'))) as [? ?]; [|by split_and!; [..|intros ?%Hsrc]].
      intros (_ & Hw & _). left. cbn [set_end start stop b'] in Hw. destruct Hw as [Hw|?]; [|lia]. split; [done|]. split; [by left|].
      rewrite Hw, bool_decide_true, andb_true_r in Ego by done. done.
Qed.
End Point.

(** ** Where the value lives *)

Section Live.
Context (vn : nat).

(** The block and the point where the value comes to be. *)
Definition origin_ok (o : option (nat * CoverPoint)) : Prop :=
  match o with
  | Some (bl, p) => bl ∈ blocks /\
    ((exists def, vn_def data vn = Some def /\ op_parent data def = Some bl /\ p = POp def) \/
     (vn_def data vn = None /\ vn_is_input data vn = true /\ block_index data bl = 0 /\ p = PInput))
  | None => vn_def data vn = None /\ vn_is_input data vn = false
  end.

Context (o : option (nat * CoverPoint)) (Ho : origin_ok o).

Definition born (bl : nat) : option CoverPoint := match o with Some (b, p) => if decide (bl = b) then Some p else None | None => None end.

(** The variables whose uses count as uses of [vn]: [vn] itself and the implied outputs
    of operations that use one of them. *)
Definition stands_for : nat -> nat -> Prop := rtc (fun a b => b ∈ implied_outputs data (vn_descend data a)).
Definition use (bl op : nat) : Prop := (exists x, stands_for vn x /\ op ∈ vn_descend data x) /\ op_parent data op = Some bl.

Context (Huse : forall x op, stands_for vn x -> op ∈ vn_descend data x -> exists bl, op_parent data op = Some bl /\ bl ∈ blocks /\
  (is_multiequal data (POp op) = true -> forall i, op_inputs data op !! i = Some vn -> is_Some (block_in data bl !! i))).

(** The blocks at whose end the value is still needed: those before a use that the value
    reaches from above, those that a MULTIEQUAL takes it from, and those before a block
    it only passes through. *)
Inductive live_out : nat -> Prop :=
  | out_use bl op p : use bl op -> is_multiequal data (POp op) = false -> (forall q, born bl = Some q -> uidx (POp op) < uidx q) ->
      p ∈ block_in data bl -> live_out p
  | out_phi bl op i p : use bl op -> is_multiequal data (POp op) = true -> op_inputs data op !! i = Some vn -> block_in data bl !! i = Some p -> live_out p
  | out_through bl p : live_out bl -> born bl = None -> p ∈ block_in data bl -> live_out p.

(** The points of a block (twice the order of operations, as in [covers]) where the
    value lives: in another block than its own, all of them when it lives at the end and
    otherwise those up to a use; in its own block, those from the definition to a use, to
    the end of the block when it lives there, and round the block when it is used
    before it is defined. *)
Definition live_at (bl : nat) (h : Z) : Prop :=
  match born bl with
  | None => (live_out bl /\ 0 <= h <= 2 * MAX_INDEX) \/ exists op, use bl op /\ 0 <= h <= 2 * uidx (POp op)
  | Some p => h = 2 * uidx p \/ (live_out bl /\ 2 * uidx p <= h <= 2 * MAX_INDEX) \/
      (exists op, use bl op /\ uidx p <= uidx (POp op) /\ 2 * uidx p <= h <= 2 * uidx (POp op)) \/
      (exists op, use bl op /\ uidx (POp op) < uidx p /\ (0 <= h <= 2 * uidx (POp op) \/ 2 * uidx p <= h <= 2 * MAX_INDEX))
  end.

Definition first_point (bl : nat) : CoverPoint := default PBegin (born bl).

(** A cover in the making: in order, begun where it must, and never too large. *)
Record partial (c : cover_map) : Prop := mk_partial {
  pa_sorted : sorted_map c;
  pa_start : forall bl, bl ∈ blocks -> block_empty (at_block c bl) = false -> start (at_block c bl) = first_point bl;
  pa_born : forall bl, bl ∈ blocks -> is_Some (born bl) -> block_empty (at_block c bl) = false;
  pa_live : forall bl h, bl ∈ blocks -> covers data (at_block c bl) h -> live_at bl h }.

Lemma born_point bl p : born bl = Some p -> p <> PBegin.
Proof.
  unfold born. destruct o as [[b q]|]; [|done]. destruct (decide _); [|done]. intros [= <-]. destruct Ho as (_ & [(def & _ & _ & ->)|(_ & _ & _ & ->)]); done.
Qed.

Lemma partial_put c bl b : partial c -> bl ∈ blocks -> block_empty b = false -> start b = first_point bl ->
  (forall h, covers data b h -> live_at bl h) -> partial (block_put c (block_index data bl) b).
Proof.
  intros [P1 P2 P3 P4] Hb E Hst Hl. split; [by apply sorted_put|intros bl' Hb'..|intros bl' h Hb']; rewrite at_put by done; destruct (decide (bl' = bl)) as [->|]; auto.
Qed.

Lemma partial_same c bl : partial c -> bl ∈ blocks -> block_empty (at_block c bl) = false -> partial (block_put c (block_index data bl) (at_block c bl)).
Proof. intros Hp Hb E. apply partial_put; [done..|by apply (pa_start c)|intros h; by apply (pa_live c)]. Qed.

Lemma each_partial {A} (f : cover_map -> A -> outcome cover_map) l : (forall c x c', x ∈ l -> partial c -> f c x = Ok c' -> partial c') ->
  forall c c', partial c -> each f l c = Ok c' -> partial c'.
Proof.
  induction l as [|x l IH]; intros Hf c c' Hp; cbn [each]; [by intros [= <-]|]. destruct (f c x) as [c1| | |] eqn:E; try done. cbn [obind].
  apply IH; [intros; eapply Hf; [by right|done..]|]. eapply Hf; [by left|done..].
Qed.

Lemma recurse_partial fuel : forall c bl c', partial c -> bl ∈ blocks -> live_out bl -> add_ref_recurse data fuel c bl = Ok c' -> partial c'.
Proof.
  induction fuel as [|fuel IH]; [done|]. intros c bl c' Hp Hb Hl. cbn [add_ref_recurse]. fold (at_block c bl). set (b := at_block c bl).
  assert (Hall : forall c1, born bl = None -> partial c1 -> each (add_ref_recurse data fuel) (block_in data bl) c1 = Ok c' -> partial c').
  { intros c1 Hn Hp1. apply each_partial; [|done]. intros c2 x c3 Hx Hp2. apply IH; [done|by apply (Hin bl)|by eapply out_through]. }
  destruct (block_empty b) eqn:E.
  - assert (born bl = None) as Hn by (apply eq_None_not_Some; intros Hs; pose proof (pa_born c Hp bl Hb Hs) as E'; unfold b in E; congruence).
    apply Hall; [done|]. apply partial_put; [done..|by unfold first_point; rewrite Hn|]. intros h Hh%set_all_covers. unfold live_at. rewrite Hn. by left.
  - pose proof (pa_start c Hp bl Hb E) as Hst. fold b in Hst. set (b' := if _ : bool then set_end b PEnd else b).
    assert (partial (block_put c (block_index data bl) b') /\ start b' = start b) as [Hp' Hst'].
    { unfold b'. destruct (negb _ && _) eqn:Ec; [|split; [by apply partial_same|done]]. apply andb_prop in Ec as [_ Hle%Z.leb_le]. split; [|done].
      assert (block_empty (set_end b PEnd) = false) as E' by (apply nonempty_ends; simpl; by intros [_ [=]]).
      apply partial_put; [done..|]. intros h. rewrite covers_ends, ends_prop by done. cbn [set_end start stop]. change (uidx PEnd) with MAX_INDEX.
      pose proof (uidx_ok (start b)). intros Hh. unfold live_at. rewrite Hst in *. unfold first_point in *. destruct (born bl) as [p|]; cbn [default from_option id] in *.
      - right. left. split; [done|]. lia.
      - left. split; [done|]. change (uidx PBegin) with 0 in *. change (get_u_index data PBegin) with 0 in *. lia. }
    destruct (_ && is_multiequal data (stop b)) eqn:Ego; [|by intros [= <-]]. apply andb_prop in Ego as [[_ Eb%bool_decide_eq_true]%andb_prop _].
    apply Hall; [|done]. rewrite Hst', Hst in Eb. unfold first_point in Eb. destruct (born bl) as [p|] eqn:Ep; [|done]. by destruct (born_point _ _ Ep).
Qed.

Lemma use_covers bl op b : use bl op -> start b = first_point bl -> (forall h, covers data b h -> live_at bl h) ->
  block_contain data b (POp op) = false -> forall h, covers data (set_end b (POp op)) h -> live_at bl h.
Proof.
  intros Hu Hst Hl Hc h. rewrite covers_ends, ends_prop by apply nonempty_op. cbn [set_end start stop]. rewrite Hst. pose proof (uidx_ok (POp op)).
  unfold live_at, first_point. destruct (born bl) as [p|]; cbn [default from_option id].
  - intros [[? ?]|[? ?]]; do 2 right; [left|right]; exists op; (split; [done|]); split; lia || done.
  - change (uidx PBegin) with 0. intros Hh. right. exists op. split; [done|]. lia.
Qed.

Lemma point_partial depth c bl op c' : partial c -> bl ∈ blocks -> use bl op -> add_ref_point data depth c op vn = Ok c' -> partial c'.
Proof.
  intros Hp Hb Hu. unfold add_ref_point. rewrite (proj2 Hu). cbv zeta. fold (at_block c bl). set (b := at_block c bl).
  assert (Hall : forall c1, is_multiequal data (POp op) = false -> (forall q, born bl = Some q -> uidx (POp op) < uidx q) -> partial c1 ->
    each (add_ref_recurse data depth) (block_in data bl) c1 = Ok c' -> partial c').
  { intros c1 Hm He Hp1. apply each_partial; [|done]. intros c2 x c3 Hx Hp2. apply recurse_partial; [done|by apply (Hin bl)|by eapply out_use]. }
  assert (Hphi1 : forall c1, is_multiequal data (POp op) = true -> partial c1 ->
    each (phi_edge data depth bl op vn) (seq 0 (length (op_inputs data op))) c1 = Ok c' -> partial c').
  { intros c1 Hm Hp1. apply each_partial; [|done]. intros c2 i c3 _ Hp2. unfold phi_edge, index. destruct (op_inputs data op !! i) as [x|] eqn:Ei; [|done]. cbn [obind].
    destruct (decide (x = vn)) as [->|]; [|by intros [= <-]]. destruct (block_in data bl !! i) as [p|] eqn:Ep; [|done]. cbn [obind].
    apply recurse_partial; [done|eapply Hin; [exact Hb|by eapply list_elem_of_lookup_2]|by eapply out_phi]. }
  assert (Hup : forall c1, (is_multiequal data (POp op) = false -> forall q, born bl = Some q -> uidx (POp op) < uidx q) -> partial c1 ->
    (if is_multiequal data (POp op) then each (phi_edge data depth bl op vn) (seq 0 (length (op_inputs data op))) c1
     else each (add_ref_recurse data depth) (block_in data bl) c1) = Ok c' -> partial c').
  { intros c1 He Hp1. destruct (is_multiequal data (POp op)) eqn:Em; [by apply Hphi1|by apply Hall; auto]. }
  destruct (block_empty b) eqn:E.
  - assert (born bl = None) as Hn by (apply eq_None_not_Some; intros Hs; pose proof (pa_born c Hp bl Hb Hs) as E'; unfold b in E; congruence).
    assert (start b = PBegin) as Hst by (unfold block_empty in E; by apply andb_prop in E as [?%bool_decide_eq_true _]).
    apply Hup; [by rewrite Hn|]. apply partial_put; [done|done|apply nonempty_op| |].
    + cbn [set_end start]. unfold first_point. by rewrite Hn.
    + apply use_covers; [done| |intros h [E' _]; congruence|by apply contain_empty]. unfold first_point. by rewrite Hn.
  - pose proof (pa_start c Hp bl Hb E) as Hst. fold b in Hst. destruct (block_contain data b (POp op)) eqn:Ec.
    + pose proof (partial_same c bl Hp Hb E) as Hsame. destruct (is_multiequal data (POp op)) eqn:Em; [|by intros [= <-]].
      by apply Hphi1.
    + assert (partial (block_put c (block_index data bl) (set_end b (POp op)))) as Hp'.
      { apply partial_put; [done|done|apply nonempty_op|done|]. apply use_covers; [done|done| |done]. intros h. by apply (pa_live c). }
      destruct (Z.leb_spec (uidx (start b)) (uidx (POp op))) as [Hle|Hlt].
      * destruct (_ && bool_decide (start b = PBegin)) eqn:Ego; [|by intros [= <-]]. apply andb_prop in Ego as [_ Eb%bool_decide_eq_true].
        apply Hall; [by apply (outside_phi b op E Ec); left| |done]. intros q Hq. exfalso. rewrite Hst in Eb. unfold first_point in Eb. rewrite Hq in Eb.
        by destruct (born_point _ _ Hq).
      * apply Hup; [|done]. intros _ q Hq. rewrite Hst in Hlt. unfold first_point in Hlt. by rewrite Hq in Hlt.
Qed.

(** *** All uses *)

(** The use is in the cover, and the blocks a MULTIEQUAL takes the value from are live
    at their ends. *)
Definition served_use (c : cover_map) (op : nat) : Prop := forall bl, op_parent data op = Some bl -> covers data (at_block c bl) (2 * uidx (POp op)) /\
  (is_multiequal data (POp op) = true -> forall p, source vn bl op p -> live_end (at_block c p)).

Lemma served_use_grows c c' x op : stands_for vn x -> op ∈ vn_descend data x -> grows c c' -> served_use c op -> served_use c' op.
Proof.
  intros Hx Hop Hg Hs bl Hpar. destruct (Huse x op Hx Hop) as (bl' & Hpar' & Hb & _). assert (bl' = bl) as -> by congruence.
  destruct (Hs bl Hpar) as [Hc Hp]. split; [by apply (gr_covers _ _ (Hg bl Hb))|]. intros Hm p Hsrc. eapply grown_live; [apply Hg|by apply Hp].
  unfold source in Hsrc. rewrite Hm in Hsrc. destruct Hsrc as (i & _ & Hi). eapply Hin; [exact Hb|by eapply list_elem_of_lookup_2].
Qed.

(** How many variables the loop of [rebuild] takes from the path for one of them. *)
Inductive costs : nat -> nat -> Prop :=
  | costs_all v ns : Forall2 costs (implied_outputs data (vn_descend data v)) ns -> costs v (S (sum_list ns)).

Lemma loop_spec depth : (length blocks < depth)%nat -> forall fuel todo ns c, (forall x, x ∈ todo -> stands_for vn x) -> Forall2 costs todo ns -> (sum_list ns <= fuel)%nat ->
  partial c -> exists c', rebuild_loop data fuel depth vn todo c = Ok c' /\ step c c' /\ partial c' /\
    forall t x op, t ∈ todo -> stands_for t x -> op ∈ vn_descend data x -> served_use c' op.
Proof.
  intros Hd. induction fuel as [|fuel IH]; intros todo ns c Ht Hc Hn Hp.
  - destruct Hc as [|v n todo ns Hv _]; [|destruct Hv; simpl in Hn; lia]. exists c. split; [done|]. split; [apply step_refl, Hp|]. split; [done|]. by intros t x op ?%not_elem_of_nil.
  - destruct Hc as [|v n todo ns Hv Hc].
    { exists c. split; [done|]. split; [apply step_refl, Hp|]. split; [done|]. by intros t x op ?%not_elem_of_nil. }
    destruct Hv as [v ms Hms]. cbn [rebuild_loop]. assert (Hv : stands_for vn v) by (apply Ht; by left).
    destruct (each_spec (fun c op => add_ref_point data depth c op vn) (fun op c => served_use c op) (S (length blocks)) (vn_descend data v)) with (c := c) as (c1 & E1 & S1 & P1).
    + intros c1 op Hop Hs1 _. destruct (Huse v op Hv Hop) as (bl & Hpar & Hb & Hsl). destruct (point_spec depth vn bl op Hd Hb Hpar Hsl c1 Hs1) as (c2 & E & Hst & Hcov & Hsrc).
      exists c2. split; [done|]. split; [done|]. intros bl' Hpar'. assert (bl' = bl) as -> by congruence. done.
    + intros op c1 c2 Hop Hs1 Hg. by eapply served_use_grows.
    + apply Hp.
    + pose proof (measure_bound c). lia.
    + rewrite E1. cbn [obind]. assert (partial c1) as Hp1.
      { eapply (each_partial _ _ _ c c1 Hp E1). Unshelve. intros c2 op c3 Hop Hp2. destruct (Huse v op Hv Hop) as (bl & Hpar & Hb & _). apply (point_partial depth c2 bl); [done|done|].
        split; [by exists v|done]. }
      destruct (IH (todo ++ implied_outputs data (vn_descend data v)) (ns ++ ms) c1) as (c2 & E2 & S2 & Hp2 & P2).
      * intros x [Hx|Hx]%elem_of_app; [apply Ht; by right|]. eapply rtc_r; [exact Hv|exact Hx].
      * by apply Forall2_app.
      * rewrite sum_list_with_app. simpl in Hn. lia.
      * done.
      * exists c2. split; [done|]. split; [by eapply step_trans|]. split; [done|]. intros t x op [->|Hin']%elem_of_cons Hx Hop.
        -- inversion Hx as [|? y ? Hy Hyx]; subst; [eapply served_use_grows; [exact Hv|exact Hop|apply S2|by apply P1]|]. eapply P2; [|exact Hyx|done]. apply elem_of_app. by right.
        -- eapply P2; [|exact Hx|done]. apply elem_of_app. by left.
Qed.

(** *** From the definition *)

Lemma born_block bl : is_Some (born bl) -> bl ∈ blocks.
Proof. unfold born. destruct o as [[b q]|]; [|by intros [? ?]]. destruct (decide _) as [->|]; [|by intros [? ?]]. intros _. apply Ho. Qed.

Lemma def_spec : exists c, add_def_point data vn = Ok c /\ partial c /\ closed c.
Proof.
  assert (Hone : forall bl p, o = Some (bl, p) -> bl ∈ blocks -> p <> PBegin -> let c := block_put [] (block_index data bl) (mk_CoverBlock p p) in partial c /\ closed c).
  { intros bl p Eo Hb Hp. cbv zeta. assert (sorted_map []) as Hs by constructor. assert (Hat : forall bl', bl' ∈ blocks ->
      at_block (block_put [] (block_index data bl) (mk_CoverBlock p p)) bl' = if decide (bl' = bl) then mk_CoverBlock p p else cover_block_new) by (intros bl' Hb'; by rewrite at_put).
    assert (block_empty (mk_CoverBlock p p) = false) as E by (apply nonempty_ends; simpl; by intros [? _]).
    assert (Hborn : forall bl', born bl' = if decide (bl' = bl) then Some p else None) by (intros; unfold born; by rewrite Eo). split.
    - split; [by apply sorted_put|..].
      + intros bl' Hb'. rewrite Hat by done. unfold first_point. rewrite Hborn. by destruct (decide (bl' = bl)).
      + intros bl' Hb' [q Hq]. rewrite Hborn in Hq. rewrite Hat by done. by destruct (decide (bl' = bl)).
      + intros bl' h Hb'. rewrite Hat by done. unfold live_at. rewrite Hborn. destruct (decide (bl' = bl)); [|by intros [? _]].
        rewrite covers_ends, ends_prop by done. cbn [start stop]. intros Hh. left. lia.
    - intros bl' q Hb' _. rewrite Hat by done. destruct (decide (bl' = bl)); [|by intros [? _]]. intros (_ & [Hst|Hw] & _); [done|]. cbn [start stop] in Hw. lia. }
  unfold add_def_point, op_block_index. destruct o as [[bl p]|] eqn:Eo.
  - destruct Ho as (Hb & [(def & -> & -> & ->)|(-> & -> & Ei & ->)]); cbn [obind].
    + eexists. split; [done|]. by apply (Hone bl).
    + eexists. split; [done|]. rewrite <- Ei. by apply (Hone bl).
  - destruct Ho as [-> ->]. exists []. split; [done|]. split.
    + split; [constructor|done| |by intros bl h _ [? _]]. intros bl _ [q Hq]. unfold born in Hq. by rewrite Eo in Hq.
    + by intros bl q _ _ [? _].
Qed.

(** A rank that falls along the implied variables bounds the path. *)
Lemma costs_exist (rank : nat -> nat) : (forall a b, b ∈ implied_outputs data (vn_descend data a) -> (rank b < rank a)%nat) -> forall v, exists n, costs v n.
Proof.
  intros Hr v. remember (rank v) as k eqn:Ek. revert v Ek. induction (lt_wf k) as [k _ IH]. intros v ->.
  assert (Hall : forall l, (forall b, b ∈ l -> b ∈ implied_outputs data (vn_descend data v)) -> exists ns, Forall2 costs l ns).
  { induction l as [|b l IHl]; intros Hl; [by exists []|]. destruct (IH (rank b)) with (v := b) as [n Hn]; [by apply Hr, Hl; left|done|].
    destruct IHl as [ns Hns]; [intros x Hx; apply Hl; by right|]. exists (n :: ns). by constructor. }
  destruct (Hall (implied_outputs data (vn_descend data v))) as [ns Hns]; [done|]. eexists. by constructor.
Qed.

(** *** The whole cover *)

Section Done.
Context (c : cover_map) (Hp : partial c) (Hc : closed c) (Hserved : forall x op, stands_for vn x -> op ∈ vn_descend data x -> served_use c op).

Lemma use_served bl op : use bl op -> bl ∈ blocks /\ covers data (at_block c bl) (2 * uidx (POp op)) /\
  (is_multiequal data (POp op) = true -> forall p, source vn bl op p -> live_end (at_block c p)).
Proof.
  intros [(x & Hx & Hop) Hpar]. destruct (Huse x op Hx Hop) as (bl' & Hpar' & Hb & _). assert (bl' = bl) as -> by congruence.
  split; [done|]. by apply (Hserved x op).
Qed.

Lemma covers_start bl h : bl ∈ blocks -> covers data (at_block c bl) h ->
  start (at_block c bl) = first_point bl /\ ends (uidx (first_point bl)) (uidx (stop (at_block c bl))) h.
Proof.
  intros Hb Hh. assert (block_empty (at_block c bl) = false) as E by apply Hh. pose proof (pa_start c Hp bl Hb E) as Hs. split; [done|].
  rewrite covers_ends in Hh by done. by rewrite Hs in Hh.
Qed.

Lemma live_out_covered p : live_out p -> p ∈ blocks /\ live_end (at_block c p).
Proof.
  induction 1 as [bl op p Hu Hm He Hin'|bl op i p Hu Hm Hi Hi'|bl p _ [Hb Hl] Hn Hin'].
  - destruct (use_served bl op Hu) as (Hb & Hcov & _). split; [by apply (Hin bl)|]. apply (Hc bl); [done|done|]. destruct (covers_start bl _ Hb Hcov) as [Hs Hends].
    pose proof (uidx_not_phi op Hm). rewrite ends_prop in Hends. split; [apply Hcov|]. rewrite Hs. unfold first_point in *. pose proof (uidx_ok (stop (at_block c bl))).
    destruct (born bl) as [q|]; cbn [default from_option id] in *.
    + specialize (He q eq_refl). split; [right; lia|]. destruct (is_multiequal data (stop _)) eqn:E; [|done]. apply uidx_phi in E. lia.
    + change (uidx PBegin) with 0 in Hends. split; [by left|]. destruct (is_multiequal data (stop _)) eqn:E; [|done]. apply uidx_phi in E. lia.
  - destruct (use_served bl op Hu) as (Hb & _ & Hsrc). split; [eapply Hin; [exact Hb|by eapply list_elem_of_lookup_2]|]. apply Hsrc; [done|]. unfold source. rewrite Hm. by exists i.
  - split; [by apply (Hin bl)|]. apply (Hc bl); [done|done|]. apply live_end_covers in Hl. destruct (covers_start bl _ Hb Hl) as [Hs Hends].
    split; [apply Hl|]. unfold first_point in *. rewrite Hn in *. cbn [default from_option id] in *. split; [by left|].
    destruct (is_multiequal data (stop _)) eqn:E; [|done]. apply uidx_phi in E. rewrite ends_prop in Hends. change (uidx PBegin) with 0 in Hends. unfold MAX_INDEX in *. lia.
Qed.

Lemma live_covered bl h : bl ∈ blocks -> live_at bl h -> covers data (at_block c bl) h.
Proof.
  intros Hb. assert (Hend : live_out bl -> covers data (at_block c bl) (2 * MAX_INDEX)) by (intros Hl; by apply live_end_covers, live_out_covered).
  assert (Hop : forall op, use bl op -> covers data (at_block c bl) (2 * uidx (POp op))) by (intros op Hu; by apply use_served).
  assert (Hcov : forall g, covers data (at_block c bl) g -> ends (uidx (first_point bl)) (uidx (stop (at_block c bl))) h -> covers data (at_block c bl) h).
  { intros g Hg He. destruct (covers_start bl g Hb Hg) as [Hs _]. rewrite covers_ends by apply Hg. by rewrite Hs. }
  pose proof (uidx_ok (first_point bl)). pose proof (uidx_ok (stop (at_block c bl))).
  assert (Hgo : forall g, covers data (at_block c bl) g -> (ends (uidx (first_point bl)) (uidx (stop (at_block c bl))) g -> ends (uidx (first_point bl)) (uidx (stop (at_block c bl))) h) -> covers data (at_block c bl) h).
  { intros g Hg He. apply (Hcov g Hg), He, covers_start; done. }
  unfold live_at. destruct (born bl) as [p|] eqn:Eb.
  - assert (first_point bl = p) as Ep by (unfold first_point; by rewrite Eb). rewrite Ep in *.
    intros [->|[[Hl Hh]|[(op & Hu & Hle & Hh)|(op & Hu & Hlt & Hh)]]].
    + pose proof (pa_born c Hp bl Hb ltac:(by exists p)) as E. rewrite covers_ends, ends_prop by done. rewrite (pa_start c Hp bl Hb E), Ep. lia.
    + apply (Hgo _ (Hend Hl)). rewrite !ends_prop. lia.
    + apply (Hgo _ (Hop op Hu)). rewrite !ends_prop. pose proof (uidx_ok (POp op)). lia.
    + apply (Hgo _ (Hop op Hu)). rewrite !ends_prop. lia.
  - assert (first_point bl = PBegin) as Ep by (unfold first_point; by rewrite Eb). rewrite Ep in *. change (uidx PBegin) with 0 in *.
    intros [[Hl Hh]|(op & Hu & Hh)].
    + apply (Hgo _ (Hend Hl)). rewrite !ends_prop. lia.
    + apply (Hgo _ (Hop op Hu)). rewrite !ends_prop. lia.
Qed.
End Done.

(** [rebuild] ends and leaves the live range of the variable, exactly: a point of a
    block is in the cover when the value is needed at the end of the block, or up to a
    use in it, from the definition on in the block of the definition.  Uses by a
    MULTIEQUAL count at the end of the block the value comes from, and uses of implied
    variables computed from the value count as uses of it. *)
Theorem rebuild_exact fuel depth n : costs vn n -> (n <= fuel)%nat -> (length blocks < depth)%nat ->
  exists c, rebuild data fuel depth vn = Ok c /\ sorted_map c /\ forall bl h, bl ∈ blocks -> covers data (at_block c bl) h <-> live_at bl h.
Proof.
  intros Hn Hf Hd. destruct def_spec as (c0 & E0 & Hp0 & Hc0). unfold rebuild. rewrite E0. cbn [obind].
  destruct (loop_spec depth Hd fuel [vn] [n] c0) as (c & E & Hst & Hp & Hserved); [by intros x ->%list_elem_of_singleton|by repeat constructor|simpl; lia|done|].
  exists c. split; [done|]. split; [apply Hp|]. intros bl h Hb. split; [by apply (pa_live c)|]. apply live_covered; [done| | |done].
  - eapply served_closed; [exact Hc0|apply Hst|apply Hst].
  - intros x op Hx Hop. eapply Hserved; [|exact Hx|exact Hop]. by left.
Qed.
End Live.
End Flow.

(** ** Example *)

(** The value that operation 1 defines lives round the loop of block 1, where
    operation 5 uses it. *)
Lemma rebuild_exact_witness : exists c, rebuild demo_view 1 3 0 = Ok c /\
  forall h, covers demo_view (block_entry c 1) h <-> live_at demo_view 0 (Some (0%nat, POp 1)) 1 h.
Proof.
  assert (Hstands : forall x, stands_for demo_view 0 x -> x = 0%nat).
  { intros x Hx. inversion Hx as [|? y ? Hy _]; subst; [done|]. vm_compute in Hy. by apply not_elem_of_nil in Hy. }
  destruct (rebuild_exact demo_view [0; 1]%nat) with (vn := 0%nat) (o := Some (0%nat, POp 1)) (fuel := 1%nat) (depth := 3%nat) (n := 1%nat)
    as (c & E & _ & H).
  - intros op. simpl. unfold MAX_INDEX. lia.
  - done.
  - intros a b _ _. simpl. lia.
  - intros bl p Hb Hp. rewrite !elem_of_cons, elem_of_nil in Hb |- *. destruct Hb as [->|[->|[]]]; cbn in Hp.
    + by apply not_elem_of_nil in Hp.
    + by rewrite !elem_of_cons, elem_of_nil in Hp.
  - split; [by left|]. left. by exists 1%nat.
  - intros x op ->%Hstands ->%list_elem_of_singleton. exists 1%nat. split; [done|]. split; [by right; left|]. done.
  - apply (costs_all demo_view 0 []). change (implied_outputs demo_view (vn_descend demo_view 0)) with (@nil nat). constructor.
  - lia.
  - simpl. lia.
  - exists c. split; [exact E|]. intros h. specialize (H 1%nat h). unfold at_block in H. change (block_index demo_view 1) with 1 in H.
    apply H. by right; left.
Defined.
