(* ===== verification/Packed.v ===== *)
(** The packed format of [src/src/marshal.rs]: [PackedEncode], which writes
    elements and attributes as bytes, and [PackedDecode], which reads them back.
    Bytes are integers below 256 and positions are integers (the buffer bounds
    them).  Names of elements and attributes only occur in messages. *)
From stdpp Require Import base list numbers strings pretty.
From Stdlib Require Import ZArith Lia Ascii.
From S2P Require Import Prelude Bits Opcodes Space Address RangeList Manager.

(** ** Definitions *)

Record AttributeId : Type := mk_AttributeId { attrib_name : string; attrib_id : Z }.
Record ElementId : Type := mk_ElementId { elem_name : string; elem_id : Z }.

Definition HEADER_MASK : Z := 0xc0.
Definition ELEMENT_START : Z := 0x40.
Definition ELEMENT_END : Z := 0x80.
Definition ATTRIBUTE : Z := 0xc0.
Definition HEADEREXTEND_MASK : Z := 0x20.
Definition ELEMENTID_MASK : Z := 0x1f.
Definition RAWDATA_MASK : Z := 0x7f.
Definition RAWDATA_BITSPERBYTE : Z := 7.
Definition RAWDATA_MARKER : Z := 0x80.
Definition TYPECODE_SHIFT : Z := 4.
Definition LENGTHCODE_MASK : Z := 0xf.
Definition TYPECODE_BOOLEAN : Z := 1.
Definition TYPECODE_SIGNEDINT_POSITIVE : Z := 2.
Definition TYPECODE_SIGNEDINT_NEGATIVE : Z := 3.
Definition TYPECODE_UNSIGNEDINT : Z := 4.
Definition TYPECODE_ADDRESSSPACE : Z := 5.
Definition TYPECODE_SPECIALSPACE : Z := 6.
Definition TYPECODE_STRING : Z := 7.
Definition SPECIALSPACE_STACK : Z := 0.
Definition SPECIALSPACE_JOIN : Z := 1.
Definition SPECIALSPACE_FSPEC : Z := 2.
Definition SPECIALSPACE_IOP : Z := 3.
Definition SPECIALSPACE_SPACEBASE : Z := 4.

(** *** Text *)

(** [String::from_utf8] and [String::from_utf8_lossy].  The length of the
    character at the front and whether it is well formed; an ill-formed one
    extends over the bytes that could still begin a character. *)
Definition utf8_next (bytes : list Z) : bool * nat :=
  let between lo hi b := (lo <=? b) && (b <=? hi) in
  let tail (lo hi : Z) (more : nat) (rest : list Z) :=
    let fix go (rest : list Z) (more n : nat) :=
      match more with
      | O => (true, n)
      | S more => match rest with
                  | b :: rest => if between 0x80 0xbf b then go rest more (S n) else (false, n)
                  | [] => (false, n)
                  end
      end in
    match rest with
    | b :: rest => if between lo hi b then go rest more 2%nat else (false, 1%nat)
    | [] => (false, 1%nat)
    end in
  match bytes with
  | [] => (true, 0%nat)
  | b :: rest =>
      if b <=? 0x7f then (true, 1%nat)
      else if between 0xc2 0xdf b then tail 0x80 0xbf 0%nat rest
      else if b =? 0xe0 then tail 0xa0 0xbf 1%nat rest
      else if between 0xe1 0xec b || between 0xee 0xef b then tail 0x80 0xbf 1%nat rest
      else if b =? 0xed then tail 0x80 0x9f 1%nat rest
      else if b =? 0xf0 then tail 0x90 0xbf 2%nat rest
      else if between 0xf1 0xf3 b then tail 0x80 0xbf 2%nat rest
      else if b =? 0xf4 then tail 0x80 0x8f 2%nat rest
      else (false, 1%nat)
  end.

(** The characters, each with whether it is well formed. *)
Fixpoint utf8_chunks (fuel : nat) (bytes : list Z) : list (bool * list Z) :=
  match fuel, bytes with
  | S fuel, _ :: _ =>
      let '(ok, n) := utf8_next bytes in (ok, take n bytes) :: utf8_chunks fuel (drop n bytes)
  | _, _ => []
  end.

Definition utf8_valid (bytes : list Z) : bool := forallb fst (utf8_chunks (length bytes) bytes).

Definition text_of (bytes : list Z) : list Z :=
  if utf8_valid bytes then bytes
  else concat (map (fun c : bool * list Z => if c.1 then c.2 else [0xef; 0xbf; 0xbd]) (utf8_chunks (length bytes) bytes)).

(** *** The decoder *)

Record PackedDecode : Type := mk_PackedDecode {
  manager : option Manager;
  buffer : list Z;
  limit : Z;
  start_pos : Z;
  cur_pos : Z;
  end_pos : Z;
  attribute_read : bool;
}.

Definition BUFFER_SIZE : Z := 1024.

Definition decode_new (m : option Manager) : PackedDecode := mk_PackedDecode m [] 0 0 0 0 true.

Definition end_of_stream : Error := Decoder "Unexpected end of stream".

Abbreviation dec := (stm PackedDecode).

Definition with_cur (d : PackedDecode) (p : Z) : PackedDecode :=
  mk_PackedDecode (manager d) (buffer d) (limit d) (start_pos d) p (end_pos d) (attribute_read d).
Definition with_end (d : PackedDecode) (p : Z) : PackedDecode :=
  mk_PackedDecode (manager d) (buffer d) (limit d) (start_pos d) (cur_pos d) p (attribute_read d).
Definition with_start (d : PackedDecode) (p : Z) : PackedDecode :=
  mk_PackedDecode (manager d) (buffer d) (limit d) p (cur_pos d) (end_pos d) (attribute_read d).
Definition with_read (d : PackedDecode) (b : bool) : PackedDecode :=
  mk_PackedDecode (manager d) (buffer d) (limit d) (start_pos d) (cur_pos d) (end_pos d) b.

Definition end_ingest (data : option (list Z)) : dec unit :=
  match data with
  | None => serr (Decoder "Ended ingestion without any input")
  | Some bytes =>
      let data_length := Z.of_nat (length bytes) in
      let limit := if data_length mod BUFFER_SIZE =? 0 then data_length + 1
                   else ((data_length + BUFFER_SIZE - 1) / BUFFER_SIZE) * BUFFER_SIZE in
      smodify (fun d => mk_PackedDecode (manager d) (bytes ++ [ELEMENT_END]) limit 0 0 0 (attribute_read d))
  end.

Fixpoint before_zero (data : list Z) : list Z :=
  match data with [] => [] | b :: data => if b =? 0 then [] else b :: before_zero data end.

Definition ingest_stream (data : list Z) : dec unit :=
  let bytes := before_zero data in
  if bool_decide (length bytes = 0%nat) then end_ingest None else end_ingest (Some bytes).

Definition byte_at (buf : list Z) (pos : Z) : Z := default 0 (buf !! Z.to_nat pos).

Definition get_byte (d : PackedDecode) (pos : Z) : Z := byte_at (buffer d) pos.

Definition get_byte_plus1 (pos : Z) : dec Z :=
  do! d <- sget ;;
  let next := pos + 1 in
  if next >=? limit d then serr end_of_stream else sret (get_byte d next).

(** [get_next_byte] on [cur_pos] and on [end_pos]: the position moves also when
    the end is reached. *)
Definition next_cur : dec Z :=
  do! d <- sget ;;
  smodify (fun d => with_cur d (cur_pos d + 1)) ;;!
  if cur_pos d + 1 >=? limit d then serr end_of_stream else sret (get_byte d (cur_pos d)).

Definition next_end : dec Z :=
  do! d <- sget ;;
  smodify (fun d => with_end d (end_pos d + 1)) ;;!
  if end_pos d + 1 >=? limit d then serr end_of_stream else sret (get_byte d (end_pos d)).

(** [advance_position] on [cur_pos]. *)
Definition advance_position (skip : Z) : dec unit :=
  do! d <- sget ;;
  let remaining := Z.max 0 (limit d - cur_pos d) in
  if remaining <=? skip then smodify (fun d => with_cur d (limit d)) ;;! serr end_of_stream
  else smodify (fun d => with_cur d (cur_pos d + skip)).

Fixpoint read_integer_loop (remaining : nat) (res : Z) : dec Z :=
  match remaining with
  | O => sret res
  | S remaining =>
      do! b <- next_cur ;;
      read_integer_loop remaining (Z.lor (u64 (Z.shiftl res RAWDATA_BITSPERBYTE)) (Z.land b RAWDATA_MASK))
  end.

Definition read_integer (len : Z) : dec Z := read_integer_loop (Z.to_nat len) 0.

Definition read_length_code (type_byte : Z) : Z := Z.land type_byte LENGTHCODE_MASK.

(** [type_byte >> TYPECODE_SHIFT]. *)
Definition type_code (type_byte : Z) : Z := Z.shiftr type_byte TYPECODE_SHIFT.

Definition skip_attribute_remaining (type_byte : Z) : dec unit :=
  let attrib_type := type_code type_byte in
  if (attrib_type =? TYPECODE_BOOLEAN) || (attrib_type =? TYPECODE_SPECIALSPACE) then sret tt else
  let length := read_length_code type_byte in
  do! length <- (if attrib_type =? TYPECODE_STRING then (do! n <- read_integer length ;; sret (u32 n)) else sret length) ;;
  advance_position length.

Definition read_attribute_header : dec Z :=
  do! header1 <- next_cur ;;
  (if negb (Z.land header1 HEADEREXTEND_MASK =? 0) then (do! _ <- next_cur ;; sret tt) else sret tt) ;;!
  next_cur.

Definition skip_attribute : dec unit :=
  do! type_byte <- read_attribute_header ;;
  skip_attribute_remaining type_byte.

(** The id in a header of which [header1] is the first byte and [more] reads the
    second. *)
Definition header_id (header1 : Z) (more : dec Z) : dec Z :=
  let id := Z.land header1 ELEMENTID_MASK in
  if negb (Z.land header1 HEADEREXTEND_MASK =? 0) then
    do! b <- more ;;
    sret (Z.lor (u32 (Z.shiftl id RAWDATA_BITSPERBYTE)) (Z.land b RAWDATA_MASK))
  else sret id.

Definition is_header (kind b : Z) : bool := Z.land b HEADER_MASK =? kind.

(** Fuel for the loops over a buffer: each round moves the position forward. *)
Definition rounds (d : PackedDecode) : nat := S (Z.to_nat (limit d)).

(** One round of [find_matching_attribute]. *)
Definition find_round (a : AttributeId) (_ : unit) : dec (unit + unit) :=
  do! d <- sget ;;
  let header1 := get_byte d (cur_pos d) in
  if negb (is_header ATTRIBUTE header1)
  then serr (Decoder ("Attribute " ++ attrib_name a ++ " is not present"))
  else
    do! id <- header_id header1 (get_byte_plus1 (cur_pos d)) ;;
    if attrib_id a =? id then sret (inr tt)
    else skip_attribute ;;! sret (inl tt).

Definition find_matching_attribute (a : AttributeId) : dec unit :=
  smodify (fun d => with_cur d (start_pos d)) ;;!
  do! d <- sget ;;
  sloop (rounds d) (find_round a) tt.

(** *** Elements *)

Definition peek_element : dec Z :=
  do! d <- sget ;;
  let header1 := get_byte d (end_pos d) in
  if negb (is_header ELEMENT_START header1) then sret 0
  else header_id header1 (get_byte_plus1 (end_pos d)).

(** The loop of [open_element] over the attributes. *)
Definition skip_attributes : dec unit :=
  do! d <- sget ;;
  sloop (rounds d) (fun _ : unit =>
    do! d <- sget ;;
    if is_header ATTRIBUTE (get_byte d (cur_pos d)) then skip_attribute ;;! sret (inl tt)
    else sret (inr tt)) tt.

Definition open_element : dec Z :=
  do! d <- sget ;;
  let header1 := get_byte d (end_pos d) in
  if negb (is_header ELEMENT_START header1) then sret 0 else
  do! _ <- next_end ;;
  do! id <- header_id header1 next_end ;;
  smodify (fun d => with_cur (with_start d (end_pos d)) (end_pos d)) ;;!
  skip_attributes ;;!
  smodify (fun d => with_read (with_cur (with_end d (cur_pos d)) (start_pos d)) true) ;;!
  sret id.

Definition open_element_expect (e : ElementId) : dec Z :=
  do! id <- open_element ;;
  if negb (id =? elem_id e) then
    if id =? 0 then serr (Decoder ("Expecting <" ++ elem_name e ++ "> but did not scan an element"))
    else serr (Decoder ("Expecting <" ++ elem_name e ++ "> but id did not match"))
  else sret id.

Definition close_element (id : Z) : dec unit :=
  do! header1 <- next_end ;;
  if negb (is_header ELEMENT_END header1) then serr (Decoder "Expecting element close") else
  do! close_id <- header_id header1 next_end ;;
  if negb (id =? close_id) then serr (Decoder "Did not see expected closing element") else sret tt.

(** One round of [close_element_skipping]; the head of [idstack] is the innermost
    open element. *)
Definition close_round (idstack : list Z) : dec (list Z + unit) :=
  do! d <- sget ;;
  let header1 := get_byte d (end_pos d) in
  do! idstack <-
    (if is_header ELEMENT_END header1 then
       match idstack with
       | [] => slift Panic
       | top :: idstack => close_element top ;;! sret idstack
       end
     else if is_header ELEMENT_START header1 then do! opened <- open_element ;; sret (opened :: idstack)
     else serr (Decoder "Corrupt stream")) ;;
  match idstack with [] => sret (inr tt) | _ => sret (inl idstack) end.

Definition close_element_skipping (id : Z) : dec unit :=
  do! d <- sget ;;
  sloop (rounds d) close_round [id].

(** *** Attributes *)

Definition get_next_attribute_id : dec Z :=
  do! d <- sget ;;
  (if negb (attribute_read d) then skip_attribute else sret tt) ;;!
  do! d <- sget ;;
  let header1 := get_byte d (cur_pos d) in
  if negb (is_header ATTRIBUTE header1) then sret 0 else
  do! id <- header_id header1 (get_byte_plus1 (cur_pos d)) ;;
  smodify (fun d => with_read d false) ;;!
  sret id.

Definition rewind_attributes : dec unit := smodify (fun d => with_read (with_cur d (start_pos d)) true).

Definition mark_read : dec unit := smodify (fun d => with_read d true).

(** Skips an attribute of the wrong type. *)
Definition wrong_attribute {A} (type_byte : Z) (message : string) : dec A :=
  skip_attribute_remaining type_byte ;;! mark_read ;;! serr (Decoder message).

Definition read_bool : dec bool :=
  do! type_byte <- read_attribute_header ;;
  mark_read ;;!
  if negb (type_code type_byte =? TYPECODE_BOOLEAN) then serr (Decoder "Expecting boolean attribute")
  else sret (negb (Z.land type_byte LENGTHCODE_MASK =? 0)).

Definition read_signed_integer : dec Z :=
  do! type_byte <- read_attribute_header ;;
  if type_code type_byte =? TYPECODE_SIGNEDINT_POSITIVE then
    do! res <- read_integer (read_length_code type_byte) ;;
    mark_read ;;! sret (i64 res)
  else if type_code type_byte =? TYPECODE_SIGNEDINT_NEGATIVE then
    do! res <- read_integer (read_length_code type_byte) ;;
    mark_read ;;! sret (i64 (- i64 res))
  else wrong_attribute type_byte "Expecting signed integer attribute".

Definition read_unsigned_integer : dec Z :=
  do! type_byte <- read_attribute_header ;;
  if negb (type_code type_byte =? TYPECODE_UNSIGNEDINT)
  then wrong_attribute type_byte "Expecting unsigned integer attribute"
  else
    do! res <- read_integer (read_length_code type_byte) ;;
    mark_read ;;! sret res.

(** [resize(n, 0)]. *)
Definition resize_zero (l : list Z) (n : nat) : list Z := take n l ++ replicate (n - length l) 0.

(** [l[lo..hi]]: the slice of a vector panics unless the bounds are in order and
    inside it. *)
Definition slice_range (l : list Z) (lo hi : Z) : outcome (list Z) :=
  if (0 <=? lo) && (lo <=? hi) && (hi <=? Z.of_nat (length l))
  then Ok (take (Z.to_nat (hi - lo)) (drop (Z.to_nat lo) l)) else Panic.

Definition read_string : dec (list Z) :=
  do! type_byte <- read_attribute_header ;;
  if negb (type_code type_byte =? TYPECODE_STRING)
  then wrong_attribute type_byte "Expecting string attribute"
  else
    do! length <- read_integer (read_length_code type_byte) ;;
    mark_read ;;!
    do! d <- sget ;;
    let buffer_len := Z.of_nat (List.length (buffer d)) in
    let start := Z.min (cur_pos d) buffer_len in
    let available := Z.max 0 (buffer_len - start) in
    let taken := Z.min length available in
    do! bytes <- slift (slice_range (buffer d) start (start + taken)) ;;
    let padding := Z.min length (Z.max 0 (limit d - start)) in
    let bytes := resize_zero bytes (Z.to_nat (Z.max padding taken)) in
    advance_position length ;;!
    sret (text_of bytes).

Definition read_space : dec nat :=
  do! type_byte <- read_attribute_header ;;
  let with_manager {A} (k : Manager -> dec A) : dec A :=
    do! d <- sget ;;
    match manager d with
    | Some m => k m
    | None => serr (Decoder "decoder has no address space manager")
    end in
  do! spc <-
    (if type_code type_byte =? TYPECODE_ADDRESSSPACE then
       do! res <- read_integer (read_length_code type_byte) ;;
       with_manager (fun m =>
         if res >=? u64 (num_spaces m) then serr (Decoder "Invalid address space index")
         else match get_space m (i32 res) with
              | Some spc => sret spc
              | None => serr (Decoder "Unknown address space index")
              end)
     else if type_code type_byte =? TYPECODE_SPECIALSPACE then
       let special_code := read_length_code type_byte in
       with_manager (fun m =>
         do! found <-
           (if special_code =? SPECIALSPACE_STACK then sret (stackspace m)
            else if special_code =? SPECIALSPACE_JOIN then sret (joinspace m)
            else serr (Decoder "Cannot marshal special address space")) ;;
         match found with
         | Some spc => sret spc
         | None => serr (Decoder "Unknown address space index")
         end)
     else wrong_attribute type_byte "Expecting space attribute") ;;
  mark_read ;;! sret spc.

Definition read_opcode : dec OpCode :=
  do! val <- read_signed_integer ;;
  let val := i32 val in
  if negb ((0 <=? val) && (val <? Z.of_nat (opcode_index Max))) then serr (Decoder "Bad encoded OpCode")
  else match from_index val with Some opc => sret opc | None => slift Panic end.

(** The readers of an attribute by its id. *)
Definition read_attr {A} (read : dec A) (a : AttributeId) : dec A :=
  find_matching_attribute a ;;!
  do! res <- read ;;
  smodify (fun d => with_cur d (start_pos d)) ;;!
  sret res.

Definition read_bool_attr : AttributeId -> dec bool := read_attr read_bool.
Definition read_signed_integer_attr : AttributeId -> dec Z := read_attr read_signed_integer.
Definition read_unsigned_integer_attr : AttributeId -> dec Z := read_attr read_unsigned_integer.
Definition read_string_attr : AttributeId -> dec (list Z) := read_attr read_string.
Definition read_space_attr : AttributeId -> dec nat := read_attr read_space.
Definition read_opcode_attr : AttributeId -> dec OpCode := read_attr read_opcode.

(** The type byte of the attribute, read on a copy of the position. *)
Definition peek_type : dec Z := fun d => (d, (read_attribute_header d).2).

(** Text as a string, and a quotation mark. *)
Definition string_of (text : list Z) : string := fold_right (fun b s => String (ascii_of_N (Z.to_N b)) s) EmptyString text.
Definition quote : string := String (ascii_of_nat 34) EmptyString.

(** [expect] is the text as bytes. *)
Definition read_signed_integer_expect_string (expect : list Z) (expectval : Z) : dec Z :=
  do! type_byte <- peek_type ;;
  if type_code type_byte =? TYPECODE_STRING then
    do! val <- read_string ;;
    if negb (bool_decide (val = expect))
    then serr (Decoder ("Expecting string " ++ quote ++ string_of expect ++ quote ++ " but read " ++ quote ++ string_of val ++ quote))
    else sret expectval
  else read_signed_integer.

Definition read_signed_integer_expect_string_attr (a : AttributeId) (expect : list Z) (expectval : Z) : dec Z :=
  read_attr (read_signed_integer_expect_string expect expectval) a.

(** ** The encoder *)

(** Each operation is the bytes it appends to [out]. *)
Definition write_header (header id : Z) : list Z :=
  if id >? 0x1f then
    [Z.lor (Z.lor header HEADEREXTEND_MASK) (u8 (Z.shiftr id RAWDATA_BITSPERBYTE));
     Z.lor (Z.land (u8 id) RAWDATA_MASK) RAWDATA_MARKER]
  else [Z.lor header (u8 id)].

(** The number of groups of seven bits, with the shift of the first. *)
Definition length_code (val : Z) : Z * Z :=
  if val =? 0 then (0, -1)
  else if val <? 0x800000000 then
    if val <? 0x200000 then
      if val <? 0x80 then (1, 0) else if val <? 0x4000 then (2, RAWDATA_BITSPERBYTE) else (3, 2 * RAWDATA_BITSPERBYTE)
    else if val <? 0x10000000 then (4, 3 * RAWDATA_BITSPERBYTE) else (5, 4 * RAWDATA_BITSPERBYTE)
  else if val <? 0x2000000000000 then
    if val <? 0x40000000000 then (6, 5 * RAWDATA_BITSPERBYTE) else (7, 6 * RAWDATA_BITSPERBYTE)
  else if val <? 0x100000000000000 then (8, 7 * RAWDATA_BITSPERBYTE)
  else if val <? 0x8000000000000000 then (9, 8 * RAWDATA_BITSPERBYTE)
  else (10, 9 * RAWDATA_BITSPERBYTE).

(** The loop of [write_integer]: [sa] goes down by seven while it is not negative. *)
Fixpoint write_groups (fuel : nat) (val sa : Z) : list Z :=
  match fuel with
  | O => []
  | S fuel =>
      if sa >=? 0 then
        Z.lor (Z.land (u8 (Z.shiftr val sa)) RAWDATA_MASK) RAWDATA_MARKER :: write_groups fuel val (sa - RAWDATA_BITSPERBYTE)
      else []
  end.

Definition write_integer (type_byte val : Z) : list Z :=
  let '(len_code, shift) := length_code val in
  Z.lor type_byte len_code :: write_groups 11 val shift.

Definition typed (code : Z) : Z := u8 (Z.shiftl code TYPECODE_SHIFT).

Definition encode_open (e : ElementId) : list Z := write_header ELEMENT_START (elem_id e).
Definition encode_close (e : ElementId) : list Z := write_header ELEMENT_END (elem_id e).

Definition write_bool (a : AttributeId) (val : bool) : list Z :=
  write_header ATTRIBUTE (attrib_id a) ++ [if val then Z.lor (typed TYPECODE_BOOLEAN) 1 else typed TYPECODE_BOOLEAN].

Definition write_signed_integer (a : AttributeId) (val : Z) : list Z :=
  write_header ATTRIBUTE (attrib_id a) ++
  (if val <? 0 then write_integer (typed TYPECODE_SIGNEDINT_NEGATIVE) (u64 (i64 (- val)))
   else write_integer (typed TYPECODE_SIGNEDINT_POSITIVE) (u64 val)).

Definition write_unsigned_integer (a : AttributeId) (val : Z) : list Z :=
  write_header ATTRIBUTE (attrib_id a) ++ write_integer (typed TYPECODE_UNSIGNEDINT) val.

Definition write_string (a : AttributeId) (val : list Z) : list Z :=
  write_header ATTRIBUTE (attrib_id a) ++ write_integer (typed TYPECODE_STRING) (Z.of_nat (length val)) ++ val.

Definition write_string_indexed (a : AttributeId) (ind : Z) (val : list Z) : list Z :=
  write_header ATTRIBUTE (u32 (attrib_id a + ind)) ++ write_integer (typed TYPECODE_STRING) (Z.of_nat (length val)) ++ val.

Definition write_space (a : AttributeId) (spc : AddrSpace) : list Z :=
  write_header ATTRIBUTE (attrib_id a) ++
  let special := typed TYPECODE_SPECIALSPACE in
  match space_type spc with
  | Fspec => [Z.lor special SPECIALSPACE_FSPEC]
  | Iop => [Z.lor special SPECIALSPACE_IOP]
  | Join => [Z.lor special SPECIALSPACE_JOIN]
  | Spacebase => if is_formal_stack_space spc then [Z.lor special SPECIALSPACE_STACK] else [Z.lor special SPECIALSPACE_SPACEBASE]
  | _ => write_integer (typed TYPECODE_ADDRESSSPACE) (u64 (i64 (space_index spc)))
  end.

Definition write_opcode (a : AttributeId) (opc : OpCode) : list Z :=
  write_header ATTRIBUTE (attrib_id a) ++ write_integer (typed TYPECODE_SIGNEDINT_POSITIVE) (Z.of_nat (opcode_index opc)).

(** ** Totality *)

(** The input of a decoder does not change, and positions only grow. *)
Definition dec_ok (d : PackedDecode) : Prop := 0 <= limit d /\ 0 <= start_pos d /\ 0 <= cur_pos d /\ 0 <= end_pos d.

Definition same_input (d d' : PackedDecode) : Prop :=
  buffer d' = buffer d /\ limit d' = limit d /\ manager d' = manager d.

#[export] Instance same_input_preorder : PreOrder same_input.
Proof.
  split; [done|]. intros a b c (? & ? & ?) (? & ? & ?). split_and!; congruence.
Qed.

Definition returns {A} (o : outcome A) : Prop := (exists a, o = Ok a) \/ (exists e, o = Err e).

(** [moves pos p n]: [p] returns on every input, and when it succeeds it has moved
    the position [pos] forward by at least [n], to a place below the limit. *)
Definition moves {A} (pos : PackedDecode -> Z) (p : dec A) (n : Z) : Prop := forall d, dec_ok d ->
  let '(d', o) := p d in
  dec_ok d' /\ same_input d d' /\ returns o /\
  (is_ok o = true -> pos d + n <= pos d' /\ (pos d' = pos d \/ pos d' < limit d)).

Lemma returns_stuck {A} : ~ returns (@Panic A) /\ ~ returns (@Diverge A).
Proof. split; intros [[? ?]|[? ?]]; done. Qed.

Lemma moves_bind_post {A B} (Q : A -> Prop) pos (p : dec A) (f : A -> dec B) n m : moves pos p n ->
  (forall d d' a, p d = (d', Ok a) -> Q a) -> (forall a, Q a -> moves pos (f a) m) -> moves pos (sbind p f) (n + m).
Proof.
  intros Hp HQ Hf d Hd. specialize (Hp d Hd). specialize (HQ d). unfold sbind. destruct (p d) as [d1 [a|e| |]].
  - destruct Hp as (H1 & H2 & _ & H5). specialize (Hf a (HQ _ _ eq_refl) d1 H1). destruct (f a d1) as [d2 o].
    destruct Hf as (F1 & F2 & F3 & F6). split_and!; [done|by etrans|done|].
    intros Ho. destruct (H5 eq_refl) as [? Hl], (F6 Ho) as [? Fl]. destruct H2 as (_ & El & _). lia.
  - destruct Hp as (H1 & H2 & H3 & _). split_and!; try done. right. by eexists.
  - destruct Hp as (_ & _ & H & _). by apply returns_stuck in H.
  - destruct Hp as (_ & _ & H & _). by apply returns_stuck in H.
Qed.

Lemma moves_bind {A B} pos (p : dec A) (f : A -> dec B) n m : moves pos p n -> (forall a, moves pos (f a) m) ->
  moves pos (sbind p f) (n + m).
Proof. intros Hp Hf. apply (moves_bind_post (fun _ => True)); auto. Qed.

(** Binding when the first part may leave the position. *)
Lemma moves_seq {A B} pos (p : dec A) (f : A -> dec B) n : moves pos p 0 -> (forall a, moves pos (f a) n) -> moves pos (sbind p f) n.
Proof. intros Hp Hf. apply (moves_bind pos p f 0 n Hp Hf). Qed.

Lemma moves_weaken {A} pos (p : dec A) n m : moves pos p n -> m <= n -> moves pos p m.
Proof.
  intros Hp Hm d Hd. specialize (Hp d Hd). destruct (p d) as [d' o]. destruct Hp as (? & ? & ? & H).
  split_and!; try done. intros Ho. destruct (H Ho). split; [lia|done].
Qed.

Lemma moves_get {A} pos (f : PackedDecode -> dec A) n : (forall d, moves pos (f d) n) -> moves pos (do! d <- sget ;; f d) n.
Proof. intros Hf d Hd. rewrite sbind_get. by apply Hf. Qed.

Lemma moves_ret {A} pos (a : A) : moves pos (sret a) 0.
Proof. intros d Hd. simpl. split_and!; try done; [left; by eexists|]. intros _. lia. Qed.

Lemma moves_err {A} pos e n : moves pos (@serr _ A e) n.
Proof. intros d Hd. simpl. split_and!; try done. right. by eexists. Qed.

(** A loop whose body leaves or moves forward terminates. *)
Lemma moves_loop {X R} pos (body : X -> dec (X + R)) (P : X -> Prop) (fuel : nat) :
  (forall x, P x -> moves pos (body x) 0) ->
  (forall x d d' x', P x -> dec_ok d -> body x d = (d', Ok (inl x')) -> P x' /\ pos d < pos d') ->
  forall x d, P x -> dec_ok d -> (Z.to_nat (limit d - pos d) < fuel)%nat ->
  let '(d', o) := sloop fuel body x d in
  dec_ok d' /\ same_input d d' /\ returns o /\
  (is_ok o = true -> pos d <= pos d' /\ (pos d' = pos d \/ pos d' < limit d)).
Proof.
  intros Hbody Hstep. induction fuel as [|fuel IH]; intros x d Hx Hd Hf; [lia|]. simpl.
  pose proof (Hbody x Hx d Hd) as Hb. specialize (Hstep x d). unfold sbind. destruct (body x d) as [d1 [[x'|r]|e| |]].
  - destruct Hb as (H1 & H2 & _ & H5). destruct (Hstep d1 x' Hx Hd eq_refl) as [Hx' Hm]. pose proof H2 as (_ & El & _).
    destruct (H5 eq_refl). specialize (IH x' d1 Hx' H1 ltac:(lia)). destruct (sloop fuel body x' d1) as [d2 o].
    destruct IH as (F1 & F2 & F3 & F6). split_and!; [done|by etrans|done|]. intros Ho. destruct (F6 Ho). lia.
  - destruct Hb as (H1 & H2 & _ & H5). unfold sret. split_and!; try done; [left; by eexists|]. intros _.
    destruct (H5 eq_refl). lia.
  - destruct Hb as (H1 & H2 & _). split_and!; try done. right. by eexists.
  - destruct Hb as (_ & _ & H & _). by apply returns_stuck in H.
  - destruct Hb as (_ & _ & H & _). by apply returns_stuck in H.
Qed.

Lemma moves_mark pos : (forall d b, pos (with_read d b) = pos d) -> moves pos mark_read 0.
Proof.
  intros Hpos d Hd. simpl. split_and!; try done; [left; by eexists|]. intros _. rewrite Hpos. lia.
Qed.

Lemma moves_next_cur : moves cur_pos next_cur 1.
Proof.
  intros d Hd. unfold dec_ok in Hd. unfold next_cur. rewrite sbind_get, sbind_modify.
  destruct (Z.geb_spec (cur_pos d + 1) (limit d)); unfold serr, sret; (split; [unfold dec_ok; simpl; lia|]);
    (split; [done|]); (split; [unfold returns; eauto|]); [done|]. intros _. simpl. lia.
Qed.

Lemma moves_next_end : moves end_pos next_end 1.
Proof.
  intros d Hd. unfold dec_ok in Hd. unfold next_end. rewrite sbind_get, sbind_modify.
  destruct (Z.geb_spec (end_pos d + 1) (limit d)); unfold serr, sret; (split; [unfold dec_ok; simpl; lia|]);
    (split; [done|]); (split; [unfold returns; eauto|]); [done|]. intros _. simpl. lia.
Qed.

Lemma moves_position skip : 0 <= skip -> moves cur_pos (advance_position skip) skip.
Proof.
  intros Hs d Hd. unfold dec_ok in Hd. unfold advance_position. rewrite sbind_get. cbv zeta.
  destruct (Z.leb_spec (Z.max 0 (limit d - cur_pos d)) skip).
  - rewrite sbind_modify. unfold serr. split; [unfold dec_ok; simpl; lia|]. split; [done|]. split; [right; by eexists|done].
  - unfold smodify. split; [unfold dec_ok; simpl; lia|]. split; [done|]. split; [left; by eexists|]. simpl. lia.
Qed.

#[local] Hint Resolve moves_ret moves_err moves_next_cur moves_next_end : core.
#[local] Hint Extern 1 (moves _ mark_read _) => by apply moves_mark : core.

Lemma moves_integer len : moves cur_pos (read_integer len) 0.
Proof.
  unfold read_integer. assert (H : forall n res, moves cur_pos (read_integer_loop n res) 0); [|apply H].
  induction n as [|n IH]; intros res; simpl; [auto|].
  eapply moves_weaken; [eapply moves_bind; [apply moves_next_cur|intros; apply IH]|lia].
Qed.

Lemma moves_skip_remaining tb : moves cur_pos (skip_attribute_remaining tb) 0.
Proof.
  unfold skip_attribute_remaining. destruct (_ || _); [auto|]. cbv zeta.
  match goal with |- moves _ (sbind ?p _) _ => set (read := p) end.
  assert (Hread : moves cur_pos read 0 /\ forall d d' v, read d = (d', Ok v) -> 0 <= v).
  { unfold read. destruct (_ =? TYPECODE_STRING).
    - split; [apply moves_seq; [apply moves_integer|auto]|]. intros d d' v (d1 & n & _ & E)%sbind_inv.
      unfold sret in E. injection E as _ <-. apply uw_range. lia.
    - split; [auto|]. intros d d' v E. unfold sret in E. injection E as _ <-. apply Z.land_nonneg. by right. }
  apply (moves_bind_post (fun n => 0 <= n) _ read _ 0 0); [apply Hread|apply Hread|]. intros n Hn.
  eapply moves_weaken; [by apply moves_position|lia].
Qed.

Lemma moves_header : moves cur_pos read_attribute_header 2.
Proof.
  apply (moves_bind _ _ _ 1 1); [auto|]. intros h. apply moves_seq; [|auto].
  destruct (negb _); [|auto]. eapply moves_weaken; [apply (moves_bind _ _ _ 1 0); auto|lia].
Qed.

Lemma moves_skip : moves cur_pos skip_attribute 2.
Proof. apply (moves_bind _ _ _ 2 0); [apply moves_header|intros; apply moves_skip_remaining]. Qed.

Lemma moves_plus1 pos p : moves pos (get_byte_plus1 p) 0.
Proof. apply moves_get. intros d. cbv zeta. destruct (_ >=? _); auto. Qed.

Lemma moves_header_id pos h p : moves pos p 0 -> moves pos (header_id h p) 0.
Proof. intros Hp. unfold header_id. cbv zeta. destruct (negb _); [|auto]. apply moves_seq; auto. Qed.

#[local] Hint Resolve moves_integer moves_skip_remaining moves_header moves_skip moves_plus1 moves_header_id : core.

Definition total {A} (p : dec A) : Prop := forall d, dec_ok d ->
  let '(d', o) := p d in dec_ok d' /\ same_input d d' /\ returns o.

Lemma moves_total {A} pos (p : dec A) n : moves pos p n -> total p.
Proof. intros Hp d Hd. specialize (Hp d Hd). destruct (p d). naive_solver. Qed.

Lemma total_bind_post {A B} (Q : A -> Prop) (p : dec A) (f : A -> dec B) : total p ->
  (forall d d' a, p d = (d', Ok a) -> Q a) -> (forall a, Q a -> total (f a)) -> total (sbind p f).
Proof.
  intros Hp HQ Hf d Hd. specialize (Hp d Hd). specialize (HQ d). unfold sbind.
  destruct (p d) as [d1 [a|e| |]]; destruct Hp as (H1 & H2 & H3).
  - specialize (Hf a (HQ _ _ eq_refl) d1 H1). destruct (f a d1) as [d2 o]. destruct Hf as (? & ? & ?).
    split_and!; [done|by etrans|done].
  - split_and!; [done..|]. right. by eexists.
  - by apply returns_stuck in H3.
  - by apply returns_stuck in H3.
Qed.

Lemma total_bind {A B} (p : dec A) (f : A -> dec B) : total p -> (forall a, total (f a)) -> total (sbind p f).
Proof. intros Hp Hf. apply (total_bind_post (fun _ => True)); auto. Qed.

Lemma read_integer_nonneg len d d' v : read_integer len d = (d', Ok v) -> 0 <= v.
Proof.
  unfold read_integer. assert (H : forall n res d, 0 <= res -> read_integer_loop n res d = (d', Ok v) -> 0 <= v); [|by apply H].
  clear d. induction n as [|n IH]; simpl; intros res d Hr; [unfold sret; congruence|].
  intros (d1 & b & _ & E)%sbind_inv. eapply IH; [|exact E]. apply Z.lor_nonneg. split; [apply uw_range; lia|].
  apply Z.land_nonneg. by right.
Qed.

(** The fuel of the loops is enough. *)
Lemma rounds_enough d pos : dec_ok d -> 0 <= pos -> (Z.to_nat (limit d - pos) < rounds d)%nat.
Proof. intros (H & _) Hp. unfold rounds. lia. Qed.

Lemma moves_loop_here {X R} pos (body : X -> dec (X + R)) (P : X -> Prop) x :
  (forall d, dec_ok d -> 0 <= pos d) -> P x ->
  (forall x, P x -> moves pos (body x) 0) ->
  (forall x d d' x', P x -> dec_ok d -> body x d = (d', Ok (inl x')) -> P x' /\ pos d < pos d') ->
  moves pos (do! d <- sget ;; sloop (rounds d) body x) 0.
Proof.
  intros Hpos Hx Hbody Hstep d Hd. rewrite sbind_get.
  pose proof (moves_loop pos body P (rounds d) Hbody Hstep x d Hx Hd (rounds_enough d _ Hd (Hpos d Hd))) as H.
  destruct (sloop _ _ _ _) as [d' o]. by rewrite Z.add_0_r.
Qed.

(** A round that skips an attribute moves forward. *)
Lemma skip_round d d' (x : unit) R : dec_ok d ->
  (skip_attribute ;;! sret (inl tt)) d = (d', Ok (inl x : unit + R)) -> cur_pos d < cur_pos d'.
Proof.
  intros Hd (d1 & [] & E & E2)%sbind_inv. pose proof (moves_skip d Hd) as H. rewrite E in H.
  destruct H as (_ & _ & _ & H). destruct (H eq_refl). unfold sret in E2. injection E2 as <-. lia.
Qed.

Lemma cur_nonneg d : dec_ok d -> 0 <= cur_pos d.
Proof. unfold dec_ok. lia. Qed.

Lemma end_nonneg d : dec_ok d -> 0 <= end_pos d.
Proof. unfold dec_ok. lia. Qed.

#[local] Hint Resolve cur_nonneg end_nonneg : core.

Lemma skip_attributes_moves : moves cur_pos skip_attributes 0.
Proof.
  apply (moves_loop_here _ _ (fun _ => True)); [auto|done|..].
  - intros _ _. apply moves_get. intros d. destruct (is_header _ _); [|auto].
    apply (moves_weaken _ _ 2); [|lia]. apply (moves_bind _ _ _ 2 0); auto.
  - intros x d d' x' _ Hd E. rewrite sbind_get in E. destruct (is_header _ _); [|done]. split; [done|].
    by eapply skip_round.
Qed.

Lemma find_loop_moves a : moves cur_pos (do! d <- sget ;; sloop (rounds d) (find_round a) tt) 0.
Proof.
  apply (moves_loop_here _ _ (fun _ => True)); [auto|done|..].
  - intros x _. apply moves_get. intros d. cbv zeta. destruct (negb _); [auto|]. apply moves_seq; [auto|]. intros id.
    destruct (_ =? _); [auto|]. apply (moves_weaken _ _ 2); [|lia]. apply (moves_bind _ _ _ 2 0); auto.
  - intros x d d' x' _ Hd E. unfold find_round in E. rewrite sbind_get in E. cbv zeta in E. destruct (negb _); [done|]. split; [done|].
    apply sbind_inv in E as (d1 & id & E1 & E2). pose proof (moves_header_id cur_pos (get_byte d (cur_pos d)) _ (moves_plus1 cur_pos (cur_pos d)) d Hd) as H.
    rewrite E1 in H. destruct H as (Hd1 & _ & _ & H). destruct (H eq_refl) as [? _]. destruct (_ =? _); [done|].
    apply skip_round in E2; [|done]. lia.
Qed.

Lemma find_matching_total a : total (find_matching_attribute a).
Proof.
  apply total_bind; [|intros []; by eapply moves_total, find_loop_moves].
  intros d Hd. simpl. split_and!; [unfold dec_ok in *; simpl; lia|done|left; by eexists].
Qed.

Lemma smodify_total f : (forall d, dec_ok d -> dec_ok (f d) /\ same_input d (f d)) -> total (smodify f).
Proof. intros Hf d Hd. destruct (Hf d Hd). simpl. split_and!; [done..|left; by eexists]. Qed.

(** From the end of the header on, [open_element] moves [end_pos] to [cur_pos]. *)
Lemma open_rest_moves (id : Z) : moves end_pos
  (smodify (fun d => with_cur (with_start d (end_pos d)) (end_pos d)) ;;!
   skip_attributes ;;!
   smodify (fun d => with_read (with_cur (with_end d (cur_pos d)) (start_pos d)) true) ;;!
   sret id) 0.
Proof.
  intros d Hd. rewrite sbind_modify. set (d0 := with_cur _ _).
  assert (Hd0 : dec_ok d0) by (unfold dec_ok in *; simpl; lia). pose proof (skip_attributes_moves d0 Hd0) as H.
  unfold sbind at 1. destruct (skip_attributes d0) as [d1 [[]|e| |]]; destruct H as (H1 & H2 & H3 & H4).
  - destruct (H4 eq_refl). rewrite sbind_modify. unfold sret. unfold dec_ok in *. simpl in *.
    split_and!; [lia..|done|left; by eexists|]. intros _. lia.
  - split_and!; [done..|right; by eexists|done].
  - by apply returns_stuck in H3.
  - by apply returns_stuck in H3.
Qed.

Lemma open_element_moves : moves end_pos open_element 0.
Proof.
  apply moves_get. intros d. cbv zeta. destruct (negb _); [auto|].
  apply (moves_weaken _ _ 1); [|lia]. apply (moves_bind _ _ _ 1 0); [auto|]. intros b.
  apply moves_seq; [|intros id; apply open_rest_moves].
  apply moves_header_id. eapply moves_weaken; [apply moves_next_end|lia].
Qed.

(** At the start of an element it moves. *)
Lemma open_element_start d d' id : dec_ok d -> is_header ELEMENT_START (get_byte d (end_pos d)) = true ->
  open_element d = (d', Ok id) -> end_pos d < end_pos d'.
Proof.
  intros Hd Hh. unfold open_element. rewrite sbind_get. cbv zeta. rewrite Hh. cbn [negb]. intros E.
  apply sbind_inv in E as (d1 & b & E1 & E2). pose proof (moves_next_end d Hd) as H1. rewrite E1 in H1.
  destruct H1 as (Hd1 & _ & _ & H1). destruct (H1 eq_refl) as [Hm _]. revert E2.
  match goal with |- ?p d1 = _ -> _ => assert (H : moves end_pos p 0) end.
  { apply moves_seq; [|intros i; apply open_rest_moves]. apply moves_header_id. eapply moves_weaken; [apply moves_next_end|lia]. }
  intros E2. specialize (H d1 Hd1). rewrite E2 in H. destruct H as (_ & _ & _ & H). destruct (H eq_refl). lia.
Qed.

Lemma close_element_moves id : moves end_pos (close_element id) 1.
Proof.
  apply (moves_bind _ _ _ 1 0); [auto|]. intros b. destruct (negb _); [auto|].
  apply moves_seq; [apply moves_header_id; eapply moves_weaken; [apply moves_next_end|lia]|].
  intros cid. destruct (negb _); auto.
Qed.

Lemma close_skipping_moves id : moves end_pos (close_element_skipping id) 0.
Proof.
  apply (moves_loop_here _ _ (fun st => st <> [])); [auto|done|..].
  - intros st Hst. apply moves_get. intros d. cbv zeta. apply moves_seq; [|intros []; auto].
    destruct (is_header ELEMENT_END _).
    + destruct st as [|top st]; [done|]. eapply moves_weaken; [apply (moves_bind _ _ _ 1 0); [apply close_element_moves|auto]|lia].
    + destruct (is_header ELEMENT_START _); [|auto]. apply moves_seq; [apply open_element_moves|auto].
  - intros st d d' st' Hst Hd E. unfold close_round in E. rewrite sbind_get in E. cbv zeta in E. apply sbind_inv in E as (d1 & st1 & E1 & E2).
    assert (st1 = st' /\ d1 = d' /\ st' <> []) as (-> & -> & Hne) by (destruct st1; unfold sret in E2; simplify_eq/=; done).
    split; [done|]. destruct (is_header ELEMENT_END _).
    + destruct st as [|top st]; [done|]. apply sbind_inv in E1 as (d2 & [] & E1 & E3). unfold sret in E3. injection E3 as -> _.
      pose proof (close_element_moves top d Hd) as H. rewrite E1 in H. destruct H as (_ & _ & _ & H). destruct (H eq_refl). lia.
    + destruct (is_header ELEMENT_START _) eqn:Eh; [|done]. apply sbind_inv in E1 as (d2 & o & E1 & E3). unfold sret in E3. injection E3 as -> _.
      by eapply open_element_start.
Qed.

Lemma total_get {A} (f : PackedDecode -> dec A) : (forall d, total (f d)) -> total (do! d <- sget ;; f d).
Proof. intros Hf d Hd. rewrite sbind_get. by apply Hf. Qed.

Lemma total_ret {A} (a : A) : total (sret a).
Proof. eapply (moves_total cur_pos), moves_ret. Qed.

Lemma total_err {A} e : total (@serr _ A e).
Proof. eapply (moves_total cur_pos), (moves_err _ _ 0). Qed.

Lemma total_rewind : total (smodify (fun d => with_cur d (start_pos d))).
Proof. apply smodify_total. intros d Hd. unfold dec_ok in *. simpl. split; [lia|done]. Qed.

Lemma total_cur {A} (p : dec A) n : moves cur_pos p n -> total p.
Proof. apply moves_total. Qed.

Lemma total_end {A} (p : dec A) n : moves end_pos p n -> total p.
Proof. apply moves_total. Qed.

#[local] Hint Resolve total_get total_ret total_err total_rewind total_bind find_matching_total : core.
#[local] Hint Resolve open_element_moves close_element_moves close_skipping_moves : core.
#[local] Hint Extern 2 (total _) => (eapply total_cur; solve [eauto]) || (eapply total_end; solve [eauto]) : core.

Lemma total_mark : total mark_read.
Proof. eapply (total_cur _ 0). auto. Qed.

Lemma total_wrong {A} tb msg : total (@wrong_attribute A tb msg).
Proof. apply total_bind; [auto|]. intros []. apply total_bind; auto using total_mark. Qed.

#[local] Hint Resolve total_mark total_wrong : core.

Lemma total_signed : total read_signed_integer.
Proof.
  apply total_bind; [auto|]. intros tb. destruct (_ =? _); [apply total_bind; auto|].
  destruct (_ =? _); [apply total_bind; auto|auto].
Qed.

Lemma total_unsigned : total read_unsigned_integer.
Proof. apply total_bind; [auto|]. intros tb. destruct (negb _); [auto|]. apply total_bind; auto. Qed.

Lemma total_bool : total read_bool.
Proof. apply total_bind; [auto|]. intros tb. apply total_bind; [auto|]. intros []. destruct (negb _); auto. Qed.

(** As [total_get], with the invariant of the state that is read. *)
Lemma total_get_ok {A} (f : PackedDecode -> dec A) : (forall d, dec_ok d -> total (f d)) -> total (do! d <- sget ;; f d).
Proof. intros H d Hd. by apply (H d Hd d). Qed.

Lemma total_lift {A} (a : A) : total (slift (Ok a)).
Proof. apply total_ret. Qed.

Lemma slice_range_ok l lo hi : 0 <= lo -> lo <= hi -> hi <= Z.of_nat (length l) ->
  slice_range l lo hi = Ok (take (Z.to_nat (hi - lo)) (drop (Z.to_nat lo) l)).
Proof. intros. unfold slice_range. by rewrite !(proj2 (Z.leb_le _ _)) by done. Qed.

(** The clamps of [read_string] keep its slice inside the buffer. *)
Lemma string_slice_ok d n : 0 <= cur_pos d -> 0 <= n ->
  let buffer_len := Z.of_nat (length (buffer d)) in
  let start := Z.min (cur_pos d) buffer_len in
  let taken := Z.min n (Z.max 0 (buffer_len - start)) in
  slice_range (buffer d) start (start + taken) = Ok (take (Z.to_nat taken) (drop (Z.to_nat start) (buffer d))).
Proof. intros Hc Hn. cbv zeta. rewrite slice_range_ok by lia. do 2 f_equal. lia. Qed.

Lemma total_string : total read_string.
Proof.
  apply total_bind; [auto|]. intros tb. destruct (negb _); [auto|].
  apply (total_bind_post (fun n => 0 <= n)); [auto|apply read_integer_nonneg|]. intros n Hn.
  apply total_bind; [auto|]. intros []. apply total_get_ok. intros d Hd. cbv zeta.
  rewrite string_slice_ok by (done || apply Hd). apply total_bind; [apply total_lift|]. intros bytes.
  apply total_bind; [|auto]. by eapply total_cur, moves_position.
Qed.

Lemma total_space : total read_space.
Proof.
  apply total_bind; [auto|]. intros tb. cbv zeta. apply total_bind; [|auto]. destruct (_ =? TYPECODE_ADDRESSSPACE).
  - apply total_bind; [auto|]. intros res. apply total_get. intros d. destruct (manager d) as [m|]; [|auto].
    destruct (_ >=? _); [auto|]. destruct (get_space m _); auto.
  - destruct (_ =? TYPECODE_SPECIALSPACE); [|auto]. apply total_get. intros d. destruct (manager d) as [m|]; [|auto].
    apply total_bind; [|intros []; auto]. destruct (_ =? _); [auto|]. destruct (_ =? _); auto.
Qed.

Lemma from_index_some val : 0 <= val < Z.of_nat (opcode_index Max) -> is_Some (from_index val).
Proof.
  intros H. unfold from_index. destruct (Z.leb_spec 0 val), (Z.leb_spec val 75); simpl in *; try lia.
  apply lookup_lt_is_Some. change (length OPCODE_TABLE) with 76%nat. lia.
Qed.

Lemma total_opcode : total read_opcode.
Proof.
  apply total_bind; [apply total_signed|]. intros val. cbv zeta.
  destruct (Z.leb_spec 0 (i32 val)), (Z.ltb_spec (i32 val) (Z.of_nat (opcode_index Max))); cbn [andb negb]; auto.
  destruct (from_index_some (i32 val)) as [opc ->]; [lia|auto].
Qed.

Lemma total_expect expect v : total (read_signed_integer_expect_string expect v).
Proof.
  apply total_bind.
  - intros d Hd. pose proof (moves_header d Hd) as H. unfold peek_type. destruct (read_attribute_header d) as [d' o].
    destruct H as (_ & _ & H & _). by split_and!.
  - intros tb. destruct (_ =? _); [|apply total_signed]. apply total_bind; [apply total_string|].
    intros val. destruct (negb _); auto.
Qed.

Lemma total_next : total get_next_attribute_id.
Proof.
  apply total_get. intros d. apply total_bind; [destruct (negb _); auto|]. intros []. apply total_get. intros d2. cbv zeta.
  destruct (negb _); [auto|]. apply total_bind; [auto|]. intros id. apply total_bind; [|auto].
  apply smodify_total. intros d3 Hd3. done.
Qed.

#[local] Hint Resolve total_signed total_unsigned total_bool total_string total_space total_opcode total_expect total_next : core.

Lemma total_attr {A} (p : dec A) a : total p -> total (read_attr p a).
Proof. intros Hp. unfold read_attr. auto 10. Qed.

(** The calls of the [Decoder] trait, with their result discarded. *)
Inductive call : Type :=
  | Peek | Open | OpenExpect (e : ElementId) | Close (id : Z) | CloseSkipping (id : Z) | NextAttribute | Rewind
  | ReadBool | ReadSigned | ReadUnsigned | ReadString | ReadSpace | ReadOpcode | ReadExpect (expect : list Z) (v : Z)
  | AttrBool (a : AttributeId) | AttrSigned (a : AttributeId) | AttrUnsigned (a : AttributeId)
  | AttrString (a : AttributeId) | AttrSpace (a : AttributeId) | AttrOpcode (a : AttributeId)
  | AttrExpect (a : AttributeId) (expect : list Z) (v : Z).

Definition discard {A} (p : dec A) : dec unit := do! _ <- p ;; sret tt.

Definition run_call (c : call) : dec unit :=
  match c with
  | Peek => discard peek_element | Open => discard open_element | OpenExpect e => discard (open_element_expect e)
  | Close id => close_element id | CloseSkipping id => close_element_skipping id
  | NextAttribute => discard get_next_attribute_id | Rewind => rewind_attributes
  | ReadBool => discard read_bool | ReadSigned => discard read_signed_integer
  | ReadUnsigned => discard read_unsigned_integer | ReadString => discard read_string
  | ReadSpace => discard read_space | ReadOpcode => discard read_opcode
  | ReadExpect expect v => discard (read_signed_integer_expect_string expect v)
  | AttrBool a => discard (read_bool_attr a) | AttrSigned a => discard (read_signed_integer_attr a)
  | AttrUnsigned a => discard (read_unsigned_integer_attr a) | AttrString a => discard (read_string_attr a)
  | AttrSpace a => discard (read_space_attr a) | AttrOpcode a => discard (read_opcode_attr a)
  | AttrExpect a expect v => discard (read_signed_integer_expect_string_attr a expect v)
  end.

Lemma run_call_total c : total (run_call c).
Proof.
  destruct c; simpl; unfold discard, read_bool_attr, read_signed_integer_attr, read_unsigned_integer_attr, read_string_attr,
    read_space_attr, read_opcode_attr, read_signed_integer_expect_string_attr; auto using total_attr.
  - apply total_bind; [|auto]. apply total_get. intros d. cbv zeta. destruct (negb _); auto.
  - apply total_bind; [|auto]. apply total_bind; [auto|]. intros id. destruct (negb _); [|auto]. destruct (_ =? _); auto.
Qed.

Lemma ingest_ok m data : dec_ok (ingest_stream data (decode_new m)).1.
Proof.
  unfold ingest_stream. destruct (bool_decide _); simpl; [done|]. unfold dec_ok. simpl.
  destruct (_ =? 0); [lia|]. assert (0 <= (Z.of_nat (length (before_zero data)) + BUFFER_SIZE - 1) / BUFFER_SIZE)
    by (apply Z.div_pos; unfold BUFFER_SIZE; lia). unfold BUFFER_SIZE in *. lia.
Qed.

(** C6: the decoder is total.  On any input bytes, after any sequence of calls,
    some of which may have failed, every call of the decoder returns a value or
    an error: no loop runs forever and nothing panics. *)
Theorem decoder_total m data calls c :
  let d := fold_left (fun d c => (run_call c d).1) calls (ingest_stream data (decode_new m)).1 in
  returns (run_call c d).2.
Proof.
  cbv zeta. pose proof (ingest_ok m data) as Hd. revert Hd. generalize (ingest_stream data (decode_new m)).1.
  induction calls as [|c' calls IH]; intros d Hd; simpl.
  - pose proof (run_call_total c d Hd) as H. destruct (run_call c d). apply H.
  - apply IH. pose proof (run_call_total c' d Hd) as H. destruct (run_call c' d). apply H.
Qed.
