(* ===== verification/PackedTrip.v ===== *)
(** What [PackedDecode] reads from what [PackedEncode] wrote: the values of single
    attributes, attributes looked up by id, skipped elements, and whole trees of
    elements. *)
From stdpp Require Import base list numbers strings.
From Stdlib Require Import ZArith Lia.
From S2P Require Import Prelude Bits Opcodes Space Address RangeList Manager Packed.

(** ** Reading known bytes *)

(** The input has the bytes [l] at [p], and at least one more byte. *)
Definition has (d : PackedDecode) (p : Z) (l : list Z) : Prop :=
  0 <= p /\ p + Z.of_nat (length l) < limit d /\ take (length l) (drop (Z.to_nat p) (buffer d)) = l.

Lemma has_app d p l1 l2 : has d p (l1 ++ l2) -> has d p l1 /\ has d (p + Z.of_nat (length l1)) l2.
Proof.
  intros (H0 & Hl & E). rewrite length_app in Hl, E. rewrite <- take_take_drop in E.
  pose proof (f_equal length E) as El. rewrite !length_app in El.
  assert (length (take (length l1) (drop (Z.to_nat p) (buffer d))) = length l1).
  { rewrite !length_take, !length_drop in *. lia. }
  apply app_inj_1 in E as [E1 E2]; [|done]. split; [by split_and!; [|lia|]|]. split_and!; [lia..|].
  rewrite drop_drop in E2. by replace (Z.to_nat (p + Z.of_nat (length l1))) with (Z.to_nat p + length l1)%nat by lia.
Qed.

Lemma has_byte d p b l : has d p (b :: l) -> get_byte d p = b /\ p + 1 < limit d /\ 0 <= p.
Proof.
  intros (H0 & Hl & E). simpl in Hl. split; [|lia]. unfold get_byte, byte_at.
  destruct (drop (Z.to_nat p) (buffer d)) as [|x r] eqn:Ed; [done|]. simpl in E. injection E as ->.
  assert (Hx : drop (Z.to_nat p) (buffer d) !! 0%nat = Some b) by by rewrite Ed. rewrite lookup_drop, Nat.add_0_r in Hx. by rewrite Hx.
Qed.

Lemma has_cons d p b l : has d p (b :: l) -> has d (p + 1) l.
Proof. intros H. by apply (has_app d p [b] l) in H as [_ H]. Qed.

Lemma has_same d d' p l : same_input d d' -> has d p l -> has d' p l.
Proof. intros (Eb & El & _). unfold has. by rewrite Eb, El. Qed.

(** The position a computation works on, and how it is set. *)
Class Position (pos : PackedDecode -> Z) (set_pos : PackedDecode -> Z -> PackedDecode) : Prop := {
  pos_set : forall d p, pos (set_pos d p) = p;
  set_set : forall d p q, set_pos (set_pos d p) q = set_pos d q;
  set_id : forall d, set_pos d (pos d) = d;
  set_input : forall d p, same_input d (set_pos d p);
}.

#[export] Instance cur_position : Position cur_pos with_cur.
Proof. by split; try by intros []. Qed.

#[export] Instance end_position : Position end_pos with_end.
Proof. by split; try by intros []. Qed.

Section Reads.
Context (pos : PackedDecode -> Z) (set_pos : PackedDecode -> Z -> PackedDecode) `{!Position pos set_pos}.

(** [p] reads exactly the bytes [l] and returns [a]. *)
Definition reads {A} (p : dec A) (l : list Z) (a : A) : Prop :=
  forall d, has d (pos d) l -> p d = (set_pos d (pos d + Z.of_nat (length l)), Ok a).

Lemma reads_bind {A B} (p : dec A) (f : A -> dec B) l1 l2 a b : reads p l1 a -> reads (f a) l2 b ->
  reads (sbind p f) (l1 ++ l2) b.
Proof.
  intros Hp Hf d [H1 H2]%has_app. rewrite (sbind_ok _ _ _ _ _ (Hp d H1)), Hf.
  - rewrite pos_set, set_set, length_app. do 2 f_equal. lia.
  - rewrite pos_set. eapply has_same; [apply set_input|done].
Qed.

Lemma reads_ret {A} (a : A) : reads (sret a) [] a.
Proof. intros d _. simpl. by rewrite Z.add_0_r, set_id. Qed.

Lemma reads_then {A B} (p : dec A) (f : A -> dec B) l a b : reads p l a -> reads (f a) [] b -> reads (sbind p f) l b.
Proof. intros Hp Hf. rewrite <- (app_nil_r l). by eapply reads_bind. Qed.

End Reads.

Lemma reads_next_cur b : reads cur_pos with_cur next_cur [b] b.
Proof.
  intros d H%has_byte. unfold next_cur. rewrite sbind_get, sbind_modify.
  destruct (Z.geb_spec (cur_pos d + 1) (limit d)); [lia|]. simpl. by destruct H as [-> _].
Qed.

Lemma reads_next_end b : reads end_pos with_end next_end [b] b.
Proof.
  intros d H%has_byte. unfold next_end. rewrite sbind_get, sbind_modify.
  destruct (Z.geb_spec (end_pos d + 1) (limit d)); [lia|]. simpl. by destruct H as [-> _].
Qed.

(** ** Integers *)

(** The [n] groups of seven bits of a value, the highest first. *)
Fixpoint groups (n : nat) (val : Z) : list Z :=
  match n with
  | O => []
  | S n => Z.lor (Z.land (u8 (Z.shiftr val (7 * Z.of_nat n))) RAWDATA_MASK) RAWDATA_MARKER :: groups n val
  end.

Lemma write_groups_eq fuel n val : (n < fuel)%nat -> write_groups fuel val (7 * (Z.of_nat n - 1)) = groups n val.
Proof.
  revert n. induction fuel as [|fuel IH]; intros n Hf; [lia|]. cbn [write_groups].
  destruct n as [|n]; [done|]. destruct (Z.geb_spec (7 * (Z.of_nat (S n) - 1)) 0); [|lia]. cbn [groups].
  replace (7 * (Z.of_nat (S n) - 1)) with (7 * Z.of_nat n) by lia. f_equal. rewrite <- IH by lia. f_equal.
  unfold RAWDATA_BITSPERBYTE. lia.
Qed.

Lemma group_bits x : Z.land (Z.lor (Z.land (u8 x) RAWDATA_MASK) RAWDATA_MARKER) RAWDATA_MASK = x mod 2 ^ 7.
Proof.
  unfold RAWDATA_MASK, RAWDATA_MARKER. rewrite Z.land_lor_distr_l. change (Z.land 0x80 0x7f) with 0.
  rewrite Z.lor_0_r, <- Z.land_assoc. change (Z.land 0x7f 0x7f) with (Z.ones 7). rewrite Z.land_ones by lia.
  change (u8 x mod 2 ^ 7) with (uw 7 (uw 8 x)). by rewrite uw_idem.
Qed.

Lemma join_group val n : 0 <= val < 2 ^ 64 -> 0 <= n ->
  Z.lor (u64 (Z.shiftl (Z.shiftr val (n + 7)) RAWDATA_BITSPERBYTE)) (Z.shiftr val n mod 2 ^ 7) = Z.shiftr val n.
Proof.
  intros Hv Hn. unfold RAWDATA_BITSPERBYTE. rewrite <- Z.shiftr_shiftr by lia.
  assert (Hs : 0 <= Z.shiftr val n <= val).
  { rewrite Z.shiftr_div_pow2 by lia. pose proof (pow2_pos n Hn). split; [apply Z.div_pos; lia|]. apply Z.div_le_upper_bound; nia. }
  set (x := Z.shiftr val n) in *. rewrite Z.shiftr_div_pow2 by lia.
  pose proof (Z.div_mod x (2 ^ 7) ltac:(lia)). pose proof (Z.mod_pos_bound x (2 ^ 7) ltac:(lia)).
  rewrite u64_small by (rewrite Z.shiftl_mul_pow2 by lia; lia). rewrite lor_add by (lia || (unfold is_u; lia)). lia.
Qed.

Lemma read_groups val n : 0 <= val < 2 ^ 64 ->
  reads cur_pos with_cur (read_integer_loop n (Z.shiftr val (7 * Z.of_nat n))) (groups n val) val.
Proof.
  intros Hv. induction n as [|n IH]; [apply reads_ret; apply _|]. cbn [read_integer_loop groups].
  match goal with |- context [?g :: groups n val] => change (g :: groups n val) with ([g] ++ groups n val) end.
  eapply reads_bind; [apply _|apply reads_next_cur|]. cbv beta. rewrite group_bits.
  replace (7 * Z.of_nat (S n)) with (7 * Z.of_nat n + 7) by lia. by rewrite join_group by lia.
Qed.

(** The length of a value in groups. *)
Lemma length_code_spec val : 0 <= val < 2 ^ 64 ->
  exists n sa, length_code val = (Z.of_nat n, sa) /\ val < 2 ^ (7 * Z.of_nat n) /\ (n <= 10)%nat /\
    write_groups 11 val sa = groups n val.
Proof.
  intros Hv. unfold length_code, RAWDATA_BITSPERBYTE. destruct (Z.eqb_spec val 0).
  { subst. exists 0%nat, (-1). split; [done|]. split; [done|]. split; [lia|done]. }
  assert (H : forall n, (n <= 10)%nat -> val < 2 ^ (7 * Z.of_nat n) ->
    exists n' sa, (Z.of_nat n, 7 * (Z.of_nat n - 1)) = (Z.of_nat n', sa) /\ val < 2 ^ (7 * Z.of_nat n') /\ (n' <= 10)%nat /\
    write_groups 11 val sa = groups n' val).
  { intros m Hm Hlt. exists m, (7 * (Z.of_nat m - 1)). split_and!; [done..|]. apply write_groups_eq. lia. }
  repeat match goal with |- context [?a <? ?b] => destruct (Z.ltb_spec a b) end;
    [apply (H 1%nat)|apply (H 2%nat)|apply (H 3%nat)|apply (H 4%nat)|apply (H 5%nat)|apply (H 6%nat)|apply (H 7%nat)|apply (H 8%nat)
    |apply (H 9%nat)|apply (H 10%nat)]; try lia; simpl; lia.
Qed.

(** What a type byte says. *)
Definition is_type_byte (b code n : Z) : Prop := type_code b = code /\ read_length_code b = n /\ b <> 0.

Lemma type_byte_spec code n : 1 <= code <= 7 -> 0 <= n < 16 -> is_type_byte (Z.lor (typed code) n) code n.
Proof.
  intros Hc Hn. assert (H : forallb (fun c => forallb (fun n => (type_code (Z.lor (typed c) n) =? c) &&
    (read_length_code (Z.lor (typed c) n) =? n) && negb (Z.lor (typed c) n =? 0)) (seqZ 0 16)) (seqZ 1 7) = true) by (vm_compute; reflexivity).
  rewrite forallb_forall in H. specialize (H code). rewrite forallb_forall in H. specialize (H ltac:(apply list_elem_of_In, elem_of_seqZ; lia) n ltac:(apply list_elem_of_In, elem_of_seqZ; lia)).
  apply andb_true_iff in H as [[H1%Z.eqb_eq H2%Z.eqb_eq]%andb_true_iff H3%negb_true_iff]. split_and!; [done..|]. by apply Z.eqb_neq in H3.
Qed.

(** An integer is a type byte with its number of groups, and the groups. *)
Lemma write_integer_eq code val : 1 <= code <= 7 -> 0 <= val < 2 ^ 64 -> exists tb n,
  write_integer (typed code) val = tb :: groups n val /\ is_type_byte tb code (Z.of_nat n) /\
  reads cur_pos with_cur (read_integer (Z.of_nat n)) (groups n val) val.
Proof.
  intros Hc Hv. destruct (length_code_spec val Hv) as (n & sa & E & Hn & H10 & Eg). exists (Z.lor (typed code) (Z.of_nat n)), n.
  unfold write_integer. rewrite E, Eg. split; [done|]. split; [apply type_byte_spec; lia|].
  unfold read_integer. rewrite Nat2Z.id. pose proof (read_groups val n Hv) as H.
  rewrite Z.shiftr_div_pow2, Z.div_small in H by lia. exact H.
Qed.

(** ** Headers *)

Definition header_ok (kind id : Z) (l : list Z) : bool :=
  match l with
  | b :: more =>
      (Z.land b HEADER_MASK =? kind) && negb (b =? 0) &&
      match more with
      | [] => (Z.land b HEADEREXTEND_MASK =? 0) && (Z.land b ELEMENTID_MASK =? id)
      | [b2] => negb (Z.land b HEADEREXTEND_MASK =? 0) && negb (b2 =? 0) &&
          (Z.lor (u32 (Z.shiftl (Z.land b ELEMENTID_MASK) RAWDATA_BITSPERBYTE)) (Z.land b2 RAWDATA_MASK) =? id)
      | _ => false
      end
  | [] => false
  end.

Definition is_kind (kind : Z) : Prop := kind = ELEMENT_START \/ kind = ELEMENT_END \/ kind = ATTRIBUTE.

(** Ids up to twelve bits fit a header. *)
Definition id_fits (id : Z) : Prop := 0 <= id < 4096.

Lemma write_header_ok kind id : is_kind kind -> id_fits id -> header_ok kind id (write_header kind id) = true.
Proof.
  intros Hk Hid. assert (H : forallb (fun k => forallb (fun id => header_ok k id (write_header k id)) (seqZ 0 4096))
    [ELEMENT_START; ELEMENT_END; ATTRIBUTE] = true) by (vm_compute; reflexivity).
  rewrite forallb_forall in H. specialize (H kind). rewrite forallb_forall in H. apply H.
  - simpl. destruct Hk as [-> | [-> | ->]]; auto.
  - apply list_elem_of_In, elem_of_seqZ. unfold id_fits in Hid. lia.
Qed.

(** The forms of a header. *)
Lemma header_cases kind id : is_kind kind -> id_fits id -> exists b,
  Z.land b HEADER_MASK = kind /\ b <> 0 /\
  ((write_header kind id = [b] /\ Z.land b HEADEREXTEND_MASK = 0 /\ Z.land b ELEMENTID_MASK = id) \/
   exists b2, write_header kind id = [b; b2] /\ Z.land b HEADEREXTEND_MASK <> 0 /\ b2 <> 0 /\
     Z.lor (u32 (Z.shiftl (Z.land b ELEMENTID_MASK) RAWDATA_BITSPERBYTE)) (Z.land b2 RAWDATA_MASK) = id).
Proof.
  intros Hk Hid. pose proof (write_header_ok kind id Hk Hid) as H. unfold header_ok in H.
  destruct (write_header kind id) as [|b [|b2 [|]]]; [done|..|by rewrite andb_false_r in H]; exists b.
  - rewrite !andb_true_iff, negb_true_iff, !Z.eqb_eq, Z.eqb_neq in H. destruct H as [[H1 H2] [H3 H4]].
    split_and!; [done..|]. left. by split_and!.
  - rewrite !andb_true_iff, !negb_true_iff, !Z.eqb_eq, !Z.eqb_neq in H. destruct H as [[H1 H2] [[H3 H4] H5]].
    split_and!; [done..|]. right. exists b2. by split_and!.
Qed.

(** The header at a position, without moving. *)
Lemma header_peek kind id d p rest : is_kind kind -> id_fits id -> has d p (write_header kind id ++ rest) ->
  Z.land (get_byte d p) HEADER_MASK = kind /\
  header_id (get_byte d p) (get_byte_plus1 p) d = (d, Ok id).
Proof.
  intros Hk Hid H. destruct (header_cases kind id Hk Hid) as (b & Hb & _ & [(E & Hx & Hi)|(b2 & E & Hx & _ & Hi)]);
    rewrite E in H; simpl in H; pose proof (has_byte _ _ _ _ H) as [-> Hl]; (split; [done|]); unfold header_id.
  - rewrite Hx. cbn [Z.eqb negb]. by rewrite Hi.
  - apply Z.eqb_neq in Hx. rewrite Hx. cbn [negb]. apply has_cons in H. pose proof (has_byte _ _ _ _ H) as (E2 & Hl2 & _).
    erewrite sbind_ok; [by rewrite Hi|]. unfold get_byte_plus1. rewrite sbind_get. cbv zeta.
    destruct (Z.geb_spec (p + 1) (limit d)); [lia|]. by rewrite E2.
Qed.

Lemma reads_header id tb : id_fits id -> reads cur_pos with_cur read_attribute_header (write_header ATTRIBUTE id ++ [tb]) tb.
Proof.
  intros Hid. destruct (header_cases ATTRIBUTE id) as (b & _ & _ & [(E & Hx & _)|(b2 & E & Hx & _)]); [by right; right|done|..]; rewrite E.
  - change ([b] ++ [tb]) with ([b] ++ ([] ++ [tb])). eapply reads_bind; [apply _|apply reads_next_cur|]. cbv beta. rewrite Hx.
    cbn [Z.eqb negb]. eapply reads_bind; [apply _|apply reads_ret; apply _|apply reads_next_cur].
  - change ([b; b2] ++ [tb]) with ([b] ++ ([b2] ++ [tb])). eapply reads_bind; [apply _|apply reads_next_cur|]. cbv beta.
    apply Z.eqb_neq in Hx. rewrite Hx. cbn [negb]. eapply reads_bind; [apply _| |apply reads_next_cur].
    eapply reads_then; [apply _|apply reads_next_cur|apply reads_ret; apply _].
Qed.

(** The header of an element is read by the byte and then the id. *)
Lemma reads_element_header kind id : is_kind kind -> id_fits id -> exists b more, write_header kind id = b :: more /\
  Z.land b HEADER_MASK = kind /\ reads end_pos with_end (header_id b next_end) more id.
Proof.
  intros Hk Hid. destruct (header_cases kind id Hk Hid) as (b & Hb & _ & [(E & Hx & Hi)|(b2 & E & Hx & _ & Hi)]); exists b.
  - exists []. split_and!; [done..|]. unfold header_id. rewrite Hx. cbn [Z.eqb negb]. rewrite Hi. apply reads_ret. apply _.
  - exists [b2]. split_and!; [done..|]. unfold header_id. apply Z.eqb_neq in Hx. rewrite Hx. cbn [negb].
    eapply reads_then; [apply _|apply reads_next_end|]. rewrite Hi. apply reads_ret. apply _.
Qed.

(** ** Attributes *)

Inductive value : Type :=
  | VBool (b : bool) | VSigned (z : Z) | VUnsigned (z : Z) | VString (text : list Z) | VSpace (r : nat) | VOpcode (opc : OpCode).

Inductive value_type : Type := TBool | TSigned | TUnsigned | TString | TSpace | TOpcode.

Definition type_of (v : value) : value_type :=
  match v with
  | VBool _ => TBool | VSigned _ => TSigned | VUnsigned _ => TUnsigned | VString _ => TString | VSpace _ => TSpace | VOpcode _ => TOpcode
  end.

(** The call of the decoder for a type. *)
Definition read_value (t : value_type) : dec value :=
  match t with
  | TBool => do! b <- read_bool ;; sret (VBool b)
  | TSigned => do! z <- read_signed_integer ;; sret (VSigned z)
  | TUnsigned => do! z <- read_unsigned_integer ;; sret (VUnsigned z)
  | TString => do! s <- read_string ;; sret (VString s)
  | TSpace => do! r <- read_space ;; sret (VSpace r)
  | TOpcode => do! o <- read_opcode ;; sret (VOpcode o)
  end.

Section Values.
Variable m : Manager.

(** The call of the encoder for a value. *)
Definition write_value (a : AttributeId) (v : value) : list Z :=
  match v with
  | VBool b => write_bool a b
  | VSigned z => write_signed_integer a z
  | VUnsigned z => write_unsigned_integer a z
  | VString s => write_string a s
  | VSpace r => write_space a (deref m r)
  | VOpcode o => write_opcode a o
  end.

(** Values of their Rust types; spaces are registered, and of the types the
    decoder reads back. *)
Definition valid_value (v : value) : Prop :=
  match v with
  | VBool _ => True
  | VSigned z => is_i64 z
  | VUnsigned z => is_u64 z
  | VString s => utf8_valid s = true /\ Forall (fun b => 0 < b < 256) s /\ Z.of_nat (length s) < 2 ^ 32
  | VSpace r =>
      match space_type (deref m r) with
      | Constant | Processor | Internal =>
          get_space m (space_index (deref m r)) = Some r /\ Z.of_nat (length (baselist m)) < 2 ^ 31
      | Join => joinspace m = Some r
      | Spacebase => is_formal_stack_space (deref m r) = true /\ stackspace m = Some r
      | _ => False
      end
  | VOpcode o => o <> Max
  end.

Lemma reads_advance l : reads cur_pos with_cur (advance_position (Z.of_nat (length l))) l tt.
Proof.
  intros d (H0 & Hl & _). unfold advance_position. rewrite sbind_get. cbv zeta.
  destruct (Z.leb_spec (Z.max 0 (limit d - cur_pos d)) (Z.of_nat (length l))); [lia|done].
Qed.

(** The part of an attribute after its header, as the decoder's branches see it. *)
Inductive body : list Z -> value -> Prop :=
  | body_bool b tb : type_code tb = TYPECODE_BOOLEAN -> negb (Z.land tb LENGTHCODE_MASK =? 0) = b -> body [tb] (VBool b)
  | body_int code tb n val v : is_type_byte tb code (Z.of_nat n) ->
      reads cur_pos with_cur (read_integer (Z.of_nat n)) (groups n val) val ->
      (code = TYPECODE_SIGNEDINT_POSITIVE /\ (v = VSigned (i64 val) \/
         exists opc, v = VOpcode opc /\ val = Z.of_nat (opcode_index opc) /\ (opcode_index opc < opcode_index Max)%nat) \/
       code = TYPECODE_SIGNEDINT_NEGATIVE /\ v = VSigned (i64 (- i64 val)) \/
       code = TYPECODE_UNSIGNEDINT /\ v = VUnsigned val \/
       code = TYPECODE_ADDRESSSPACE /\ exists r, v = VSpace r /\ val < u64 (num_spaces m) /\ get_space m (i32 val) = Some r) ->
      body (tb :: groups n val) v
  | body_string tb n s : is_type_byte tb TYPECODE_STRING (Z.of_nat n) -> utf8_valid s = true ->
      Z.of_nat (length s) < 2 ^ 32 ->
      reads cur_pos with_cur (read_integer (Z.of_nat n)) (groups n (Z.of_nat (length s))) (Z.of_nat (length s)) ->
      body (tb :: groups n (Z.of_nat (length s)) ++ s) (VString s)
  | body_special tb r : type_code tb = TYPECODE_SPECIALSPACE ->
      (read_length_code tb = SPECIALSPACE_STACK /\ stackspace m = Some r \/
       read_length_code tb = SPECIALSPACE_JOIN /\ joinspace m = Some r) -> body [tb] (VSpace r).

Lemma length_groups n val : length (groups n val) = n.
Proof. induction n as [|n IH]; simpl; congruence. Qed.

Lemma get_space_below r : get_space m (space_index (deref m r)) = Some r -> Z.of_nat (length (baselist m)) < 2 ^ 31 ->
  0 <= space_index (deref m r) < Z.of_nat (length (baselist m)).
Proof.
  unfold get_space. destruct (Z.ltb_spec (space_index (deref m r)) 0); [done|]. intros H1 H2. split; [lia|].
  destruct (baselist m !! Z.to_nat (space_index (deref m r))) as [x|] eqn:E; [|done]. apply lookup_lt_Some in E. lia.
Qed.

(** What the encoder writes is a header and such a body. *)
Lemma write_value_body a v : valid_value v -> exists l,
  write_value a v = write_header ATTRIBUTE (attrib_id a) ++ l /\ body l v.
Proof.
  assert (Hint : forall code val w, 1 <= code <= 7 -> 0 <= val < 2 ^ 64 ->
    (code = TYPECODE_SIGNEDINT_POSITIVE /\ (w = VSigned (i64 val) \/
         exists opc, w = VOpcode opc /\ val = Z.of_nat (opcode_index opc) /\ (opcode_index opc < opcode_index Max)%nat) \/
       code = TYPECODE_SIGNEDINT_NEGATIVE /\ w = VSigned (i64 (- i64 val)) \/
       code = TYPECODE_UNSIGNEDINT /\ w = VUnsigned val \/
       code = TYPECODE_ADDRESSSPACE /\ exists r, w = VSpace r /\ val < u64 (num_spaces m) /\ get_space m (i32 val) = Some r) ->
    body (write_integer (typed code) val) w).
  { intros code val w Hc Hv Hw. destruct (write_integer_eq code val Hc Hv) as (tb & n & -> & Ht & Hr). by eapply body_int. }
  destruct v as [b|z|z|s|r|o]; simpl; intros Hv; (eexists; split; [reflexivity|]).
  - destruct b; apply body_bool; reflexivity.
  - unfold is_s in Hv. destruct (Z.ltb_spec z 0).
    + apply Hint; [done|by apply uw_range|]. right. left. split; [done|]. f_equal.
      transitivity (i64 z); [symmetry; apply sw_small; [lia|done]|]. apply sw_congr. rewrite sw_uw by lia. word_ring.
    + apply Hint; [done|by apply uw_range|]. left. split; [done|]. left. f_equal. rewrite sw_uw by lia.
      symmetry. by apply sw_small.
  - apply Hint; [done|done|]. auto 10.
  - destruct Hv as (Hu & Hb & Hl). destruct (write_integer_eq TYPECODE_STRING (Z.of_nat (length s))) as (tb & n & E & Ht & Hr);
      [done|lia|]. rewrite E. by apply body_string.
  - destruct (space_type (deref m r)) eqn:Et; try done.
    1, 2, 4: destruct Hv as [Hg Hl]; destruct (get_space_below r Hg Hl) as [H0 H1];
      rewrite sw_small, u64_small by (lia || (unfold is_s; lia)); apply Hint; [done|lia|]; right; right; right;
      split; [done|]; exists r; split; [done|]; unfold num_spaces; rewrite sw_small, u64_small by (lia || (unfold is_s; lia));
      split; [lia|]; rewrite sw_small by (lia || (unfold is_s; lia)); done.
    + destruct Hv as [-> Hs]. by apply body_special; [|left].
    + by apply body_special; [|right].
  - assert (Ho : (opcode_index o < opcode_index Max)%nat) by (destruct o; done || (simpl; lia)).
    apply Hint; [done|split; [lia|]|].
    + change (opcode_index Max) with 75%nat in Ho. lia.
    + left. split; [done|]. right. by exists o.
Qed.

(** Skipping an attribute. *)
Lemma skip_value a v : id_fits (attrib_id a) -> valid_value v -> reads cur_pos with_cur skip_attribute (write_value a v) tt.
Proof.
  intros Ha Hv. destruct (write_value_body a v Hv) as (l & -> & Hb).
  assert (Hskip : forall tb rest, reads cur_pos with_cur (skip_attribute_remaining tb) rest tt ->
    reads cur_pos with_cur skip_attribute (write_header ATTRIBUTE (attrib_id a) ++ tb :: rest) tt).
  { intros tb rest H. change (tb :: rest) with ([tb] ++ rest). rewrite app_assoc.
    eapply reads_bind; [apply _|by apply reads_header|done]. }
  destruct Hb as [b tb Ht _|code tb n val v (Ht & Hn & _) Hr Hc|tb n s (Ht & Hn & _) Hu Hl Hr|tb r Ht _];
    apply Hskip; unfold skip_attribute_remaining; rewrite Ht; [apply reads_ret; apply _| | |apply reads_ret; apply _].
  - assert ((code =? TYPECODE_BOOLEAN) || (code =? TYPECODE_SPECIALSPACE) = false /\ (code =? TYPECODE_STRING) = false) as [-> ->]
      by (destruct Hc as [[-> _]|[[-> _]|[[-> _]|[-> _]]]]; done).
    change (groups n val) with ([] ++ groups n val). eapply reads_bind; [apply _|apply reads_ret; apply _|]. cbv beta. rewrite Hn.
    pose proof (reads_advance (groups n val)) as H. by rewrite length_groups in H.
  - cbn [Z.eqb orb TYPECODE_STRING TYPECODE_BOOLEAN TYPECODE_SPECIALSPACE Pos.eqb]. rewrite Hn.
    eapply reads_bind; [apply _| |].
    + eapply reads_then; [apply _|exact Hr|apply reads_ret; apply _].
    + rewrite (uw_small 32) by (unfold is_u; lia). apply reads_advance.
Qed.

(** [p] reads the bytes of an attribute with a decoder that has the manager. *)
Definition reads_value {A} (p : dec A) (l : list Z) (a : A) : Prop := forall d, manager d = Some m -> has d (cur_pos d) l ->
  p d = (with_read (with_cur d (cur_pos d + Z.of_nat (length l))) true, Ok a).

Lemma reads_value_bind {A B} (p : dec A) (f : A -> dec B) l1 l2 a b : reads cur_pos with_cur p l1 a -> reads_value (f a) l2 b ->
  reads_value (sbind p f) (l1 ++ l2) b.
Proof.
  intros Hp Hf d Hm [H1 H2]%has_app. rewrite (sbind_ok _ _ _ _ _ (Hp d H1)), Hf; [|done|done].
  simpl. rewrite length_app. unfold with_read, with_cur. simpl. do 2 f_equal. lia.
Qed.

Lemma reads_value_then {A B} (p : dec A) (g : A -> B) l a : reads_value p l a -> reads_value (do! x <- p ;; sret (g x)) l (g a).
Proof. intros Hp d Hm H. by rewrite (sbind_ok _ _ _ _ _ (Hp d Hm H)). Qed.

Lemma reads_value_mark {A} (a : A) : reads_value (mark_read ;;! sret a) [] a.
Proof. intros d Hm H. simpl. by rewrite Z.add_0_r. Qed.

Lemma reads_value_int {A} tb n val (g : Z -> A) : reads cur_pos with_cur (read_integer (Z.of_nat n)) (groups n val) val ->
  read_length_code tb = Z.of_nat n ->
  reads_value (do! res <- read_integer (read_length_code tb) ;; mark_read ;;! sret (g res)) (groups n val) (g val).
Proof.
  intros Hr ->. rewrite <- (app_nil_r (groups n val)). eapply reads_value_bind; [exact Hr|]. apply reads_value_mark.
Qed.

(** The readers after the header. *)
Lemma reads_after_header {A} a (f : Z -> dec A) tb rest v : id_fits (attrib_id a) -> reads_value (f tb) rest v ->
  reads_value (do! tb <- read_attribute_header ;; f tb) (write_header ATTRIBUTE (attrib_id a) ++ tb :: rest) v.
Proof.
  intros Ha H. change (tb :: rest) with ([tb] ++ rest). rewrite app_assoc.
  eapply reads_value_bind; [by apply reads_header|done].
Qed.

Lemma resize_full (l : list Z) n : n = length l -> resize_zero l n = l.
Proof. intros ->. unfold resize_zero. by rewrite firstn_all, Nat.sub_diag, app_nil_r. Qed.

Lemma reads_text s : utf8_valid s = true -> reads_value (mark_read ;;!
  (do! d <- sget ;;
   let buffer_len := Z.of_nat (List.length (buffer d)) in
   let start := Z.min (cur_pos d) buffer_len in
   let available := Z.max 0 (buffer_len - start) in
   let taken := Z.min (Z.of_nat (length s)) available in
   do! bytes <- slift (slice_range (buffer d) start (start + taken)) ;;
   let padding := Z.min (Z.of_nat (length s)) (Z.max 0 (limit d - start)) in
   let bytes := resize_zero bytes (Z.to_nat (Z.max padding taken)) in
   advance_position (Z.of_nat (length s)) ;;!
   sret (text_of bytes))) s s.
Proof.
  intros Hu d Hm (H0 & Hl & E). unfold mark_read. rewrite sbind_modify, sbind_get. cbv zeta. cbn [buffer with_read cur_pos limit].
  rewrite string_slice_ok, sbind_lift by lia. set (d1 := with_read d true).
  assert (Hlen : s <> [] -> cur_pos d + Z.of_nat (length s) <= Z.of_nat (length (buffer d))).
  { intros Hs. pose proof (f_equal length E) as El. rewrite length_take, length_drop in El.
    assert (0 < length s)%nat by (destruct s; [done|simpl; lia]). lia. }
  assert (Hbytes : resize_zero (take (Z.to_nat (Z.min (Z.of_nat (length s)) (Z.max 0 (Z.of_nat (length (buffer d)) - Z.min (cur_pos d) (Z.of_nat (length (buffer d)))))))
      (drop (Z.to_nat (Z.min (cur_pos d) (Z.of_nat (length (buffer d))))) (buffer d)))
    (Z.to_nat (Z.max (Z.min (Z.of_nat (length s)) (Z.max 0 (limit d - Z.min (cur_pos d) (Z.of_nat (length (buffer d))))))
       (Z.min (Z.of_nat (length s)) (Z.max 0 (Z.of_nat (length (buffer d)) - Z.min (cur_pos d) (Z.of_nat (length (buffer d)))))))) = s).
  { destruct (decide (s = [])) as [->|Hs].
    - rewrite !(Z.min_l (Z.of_nat (length (@nil Z)))) by (simpl; lia). done.
    - specialize (Hlen Hs). rewrite (Z.min_l (cur_pos d)) by lia.
      replace (Z.to_nat (Z.min (Z.of_nat (length s)) (Z.max 0 (Z.of_nat (length (buffer d)) - cur_pos d)))) with (length s) by lia.
      rewrite E. apply resize_full. lia. }
  rewrite Hbytes. unfold text_of. rewrite Hu.
  rewrite (sbind_ok _ _ d1 (with_cur d1 (cur_pos d + Z.of_nat (length s))) tt); [done|].
  apply (reads_advance s d1). by split_and!.
Qed.

Lemma read_value_ok a v : id_fits (attrib_id a) -> valid_value v -> reads_value (read_value (type_of v)) (write_value a v) v.
Proof.
  intros Ha Hv. destruct (write_value_body a v Hv) as (l & -> & Hb).
  destruct Hb as [b tb Ht Hb|code tb n val v (Ht & Hn & _) Hr Hc|tb n s (Ht & Hn & _) Hu Hl Hr|tb r Ht Hs].
  - apply reads_value_then. apply reads_after_header; [done|]. intros d Hm H. unfold mark_read. rewrite sbind_modify, Ht, Hb. simpl.
    by rewrite Z.add_0_r.
  - destruct Hc as [[-> [-> |(opc & -> & Hval & Ho)]]|[[-> ->]|[[-> ->]|[-> (r & -> & Hlt & Hg)]]]]; simpl.
    + apply reads_value_then. apply reads_after_header; [done|]. rewrite Ht. cbn [Z.eqb TYPECODE_SIGNEDINT_POSITIVE Pos.eqb].
      by apply (reads_value_int tb n val (fun res => i64 res)).
    + apply reads_value_then. intros d Hm H.
      assert (Hs : reads_value read_signed_integer (write_header ATTRIBUTE (attrib_id a) ++ tb :: groups n val) (i64 val)).
      { apply reads_after_header; [done|]. rewrite Ht. cbn [Z.eqb TYPECODE_SIGNEDINT_POSITIVE Pos.eqb].
        by apply (reads_value_int tb n val (fun res => i64 res)). }
      unfold read_opcode. rewrite (sbind_ok _ _ _ _ _ (Hs d Hm H)). change (opcode_index Max) with 75%nat in *. cbv zeta.
      rewrite (sw_small 64 val), (sw_small 32 val) by (lia || (unfold is_s; lia)).
      destruct (Z.leb_spec 0 val), (Z.ltb_spec val (Z.of_nat 75)); [|lia..]. cbn [andb negb]. rewrite Hval.
      unfold from_index. destruct (Z.leb_spec 0 (Z.of_nat (opcode_index opc))), (Z.leb_spec (Z.of_nat (opcode_index opc)) 75); [|lia..].
      cbn [andb]. by rewrite Nat2Z.id, opcode_table_index.
    + apply reads_value_then. apply reads_after_header; [done|]. rewrite Ht. cbn [Z.eqb TYPECODE_SIGNEDINT_POSITIVE TYPECODE_SIGNEDINT_NEGATIVE Pos.eqb].
      by apply (reads_value_int tb n val (fun res => i64 (- i64 res))).
    + apply reads_value_then. apply reads_after_header; [done|]. rewrite Ht. cbn [Z.eqb TYPECODE_UNSIGNEDINT Pos.eqb negb].
      by apply (reads_value_int tb n val (fun res => res)).
    + apply reads_value_then. apply reads_after_header; [done|]. cbv zeta. rewrite Ht.
      cbn [Z.eqb TYPECODE_ADDRESSSPACE Pos.eqb]. rewrite Hn. intros d Hm H.
      erewrite (sbind_ok _ _ d (with_cur d (cur_pos d + Z.of_nat (length (groups n val)))) r); [done|].
      rewrite (sbind_ok _ _ _ _ _ (Hr d H)), sbind_get. cbn [manager with_cur]. rewrite Hm.
      destruct (Z.geb_spec val (u64 (num_spaces m))); [lia|]. by rewrite Hg.
  - apply reads_value_then. apply reads_after_header; [done|]. rewrite Ht. cbn [Z.eqb TYPECODE_STRING Pos.eqb negb]. rewrite Hn.
    eapply reads_value_bind; [exact Hr|]. by apply reads_text.
  - apply reads_value_then. apply reads_after_header; [done|]. cbv zeta. rewrite Ht.
    cbn [Z.eqb TYPECODE_ADDRESSSPACE TYPECODE_SPECIALSPACE Pos.eqb]. intros d Hm H.
    erewrite (sbind_ok _ _ d (with_cur d (cur_pos d + Z.of_nat (length (@nil Z)))) r); [done|].
    rewrite Z.add_0_r, (set_id (pos := cur_pos)), sbind_get, Hm. destruct Hs as [[-> Hs]|[-> Hs]];
      cbn [Z.eqb SPECIALSPACE_STACK SPECIALSPACE_JOIN]; by rewrite Hs.
Qed.

(** ** Elements *)

Definition attr (id : Z) : AttributeId := mk_AttributeId "" id.
Definition elem (id : Z) : ElementId := mk_ElementId "" id.

Definition write_attrs (attrs : list (Z * value)) : list Z :=
  concat ((fun av : Z * value => write_value (attr av.1) av.2) <$> attrs).

Definition valid_attrs (attrs : list (Z * value)) : Prop := Forall (fun av : Z * value => id_fits av.1 /\ valid_value av.2) attrs.

Lemma write_attrs_cons id v attrs : write_attrs ((id, v) :: attrs) = write_value (attr id) v ++ write_attrs attrs.
Proof. done. Qed.

Lemma is_header_eq kind b : is_header kind b = true <-> Z.land b HEADER_MASK = kind.
Proof. apply Z.eqb_eq. Qed.

(** An attribute starts with an attribute header. *)
Lemma write_value_header id v : valid_value v -> exists l, write_value (attr id) v = write_header ATTRIBUTE id ++ l /\ l <> [].
Proof.
  intros Hv. destruct (write_value_body (attr id) v Hv) as (l & E & Hb). exists l. split; [done|]. by destruct Hb.
Qed.

Lemma length_write_value id v : valid_value v -> (0 < length (write_value (attr id) v))%nat.
Proof.
  intros Hv. destruct (write_value_header id v Hv) as (l & -> & Hl). rewrite length_app. destruct l; [done|]. simpl. lia.
Qed.

Lemma length_write_attrs attrs : valid_attrs attrs -> (length attrs <= length (write_attrs attrs))%nat.
Proof.
  induction 1 as [|[id v] attrs [_ Hv] Hattrs IH]; simpl; [lia|]. rewrite write_attrs_cons, length_app.
  pose proof (length_write_value id v Hv). lia.
Qed.

Lemma write_value_peek d p id v rest : id_fits id -> valid_value v -> has d p (write_value (attr id) v ++ rest) ->
  is_header ATTRIBUTE (get_byte d p) = true /\ header_id (get_byte d p) (get_byte_plus1 p) d = (d, Ok id).
Proof.
  intros Hid Hv. destruct (write_value_header id v Hv) as (l & -> & _). rewrite <- app_assoc. intros H.
  rewrite is_header_eq. by apply (header_peek ATTRIBUTE id d p (l ++ rest)); [right; right| |].
Qed.

(** The loop of [open_element]. *)
Lemma skip_attributes_ok attrs b rest : forall d, valid_attrs attrs -> is_header ATTRIBUTE b = false ->
  has d (cur_pos d) (write_attrs attrs ++ b :: rest) ->
  skip_attributes d = (with_cur d (cur_pos d + Z.of_nat (length (write_attrs attrs))), Ok tt).
Proof.
  intros d Hattrs Hb H. unfold skip_attributes. rewrite sbind_get.
  assert (Hf : (length attrs < rounds d)%nat).
  { destruct H as (H0 & Hl & _). rewrite length_app in Hl. pose proof (length_write_attrs attrs Hattrs). unfold rounds. lia. }
  revert Hf H. generalize (rounds d) as fuel. intros fuel. revert d fuel.
  induction Hattrs as [|[id v] attrs [Hid Hv] Hattrs IH]; intros d fuel Hf H; (destruct fuel as [|fuel]; [simpl in Hf; lia|]); cbn [sloop].
  - pose proof (has_byte _ _ _ _ H) as [E _]. erewrite (sbind_ok _ _ d d (inr tt)); [|rewrite sbind_get, E, Hb; done].
    simpl. by rewrite Z.add_0_r, (set_id (pos := cur_pos)).
  - rewrite write_attrs_cons, <- app_assoc in H. destruct (write_value_peek d _ id v _ Hid Hv H) as [Eh _].
    apply has_app in H as [H1 H2]. set (d1 := with_cur d (cur_pos d + Z.of_nat (length (write_value (attr id) v)))).
    erewrite (sbind_ok _ _ d d1 (inl tt)); [|rewrite sbind_get, Eh; by rewrite (sbind_ok _ _ _ _ _ (skip_value (attr id) v Hid Hv d H1))].
    rewrite IH; [|simpl in Hf; lia|done]. rewrite write_attrs_cons, length_app. unfold d1. simpl. unfold with_cur. simpl. do 2 f_equal. lia.
Qed.

(** The decoder inside an element whose attributes start at [p]. *)
Definition opened (d : PackedDecode) (p n : Z) : PackedDecode := mk_PackedDecode (manager d) (buffer d) (limit d) p p (p + n) true.

Lemma open_element_ok id attrs b rest d : id_fits id -> valid_attrs attrs -> is_header ATTRIBUTE b = false ->
  has d (end_pos d) (encode_open (elem id) ++ write_attrs attrs ++ b :: rest) ->
  open_element d = (opened d (end_pos d + Z.of_nat (length (encode_open (elem id)))) (Z.of_nat (length (write_attrs attrs))), Ok id).
Proof.
  intros Hid Hattrs Hb H. unfold encode_open in *. cbn [elem_id elem] in *.
  destruct (reads_element_header ELEMENT_START id) as (h & more & Ew & Hh & Hr); [by left|done|]. rewrite Ew in *.
  change ((h :: more) ++ write_attrs attrs ++ b :: rest) with ([h] ++ more ++ write_attrs attrs ++ b :: rest) in H.
  pose proof (has_byte _ _ _ _ H) as [Eb _]. apply has_app in H as [H1 H]. apply has_app in H as [H2 H3].
  unfold open_element. rewrite sbind_get. cbv zeta. rewrite Eb. apply is_header_eq in Hh. rewrite Hh. cbn [negb].
  rewrite (sbind_ok _ _ _ _ _ (reads_next_end h d H1)). simpl length in *.
  rewrite (sbind_ok _ _ _ _ _ (Hr (with_end d (end_pos d + 1)) H2)). cbn [end_pos with_end]. rewrite sbind_modify.
  destruct d as [mg bf lim st cu en rd]. cbn in *. set (q := en + 1 + Z.of_nat (length more)) in *.
  set (d2 := mk_PackedDecode mg bf lim q q q rd).
  assert (E2 : skip_attributes d2 = (with_cur d2 (cur_pos d2 + Z.of_nat (length (write_attrs attrs))), Ok tt)).
  { apply (skip_attributes_ok attrs b rest); [done..|]. exact H3. }
  rewrite (sbind_ok _ _ _ _ _ E2), sbind_modify. unfold opened. cbn.
  by replace (en + Z.of_nat (S (length more))) with q by (unfold q; lia).
Qed.

(** *** Reading attributes in order *)

Fixpoint read_attrs (types : list value_type) : dec (list (Z * value)) :=
  match types with
  | [] => sret []
  | t :: types =>
      do! id <- get_next_attribute_id ;;
      do! v <- read_value t ;;
      do! rest <- read_attrs types ;;
      sret ((id, v) :: rest)
  end.

Lemma with_read_id d : attribute_read d = true -> with_read d true = d.
Proof. destruct d. simpl. by intros ->. Qed.

Lemma read_attrs_ok attrs : forall d, valid_attrs attrs -> manager d = Some m -> attribute_read d = true ->
  has d (cur_pos d) (write_attrs attrs) ->
  read_attrs ((fun av : Z * value => type_of av.2) <$> attrs) d =
  (with_cur d (cur_pos d + Z.of_nat (length (write_attrs attrs))), Ok attrs).
Proof.
  induction attrs as [|[id v] attrs IH]; intros d Hattrs Hm Hread H.
  { simpl. by rewrite Z.add_0_r, (set_id (pos := cur_pos)). }
  apply Forall_cons in Hattrs as [[Hid Hv] Hattrs]. simpl in Hid, Hv. rewrite write_attrs_cons in H.
  destruct (write_value_peek d _ id v _ Hid Hv H) as [Eh Ei]. apply has_app in H as [H1 H2].
  rewrite fmap_cons. cbn [read_attrs snd].
  assert (En : get_next_attribute_id d = (with_read d false, Ok id)).
  { unfold get_next_attribute_id. rewrite sbind_get, Hread. cbn [negb]. unfold sret at 1. unfold sbind at 1. rewrite sbind_get. cbv zeta.
    rewrite Eh. cbn [negb]. by rewrite (sbind_ok _ _ _ _ _ Ei). }
  rewrite (sbind_ok _ _ _ _ _ En), (sbind_ok _ _ _ _ _ (read_value_ok (attr id) v Hid Hv (with_read d false) Hm H1)).
  set (d1 := with_read (with_cur (with_read d false) _) true).
  assert (E1 : d1 = with_cur d (cur_pos d + Z.of_nat (length (write_value (attr id) v)))).
  { unfold d1. destruct d. simpl in *. by rewrite Hread. }
  rewrite E1. rewrite (sbind_ok _ _ _ _ _ (IH (with_cur d _) Hattrs Hm Hread H2)). unfold sret.
  rewrite write_attrs_cons, length_app. unfold with_cur. simpl. do 2 f_equal. lia.
Qed.

Lemma close_element_ok id d : id_fits id -> has d (end_pos d) (encode_close (elem id)) ->
  close_element id d = (with_end d (end_pos d + Z.of_nat (length (encode_close (elem id)))), Ok tt).
Proof.
  intros Hid. unfold encode_close. cbn [elem_id elem].
  destruct (reads_element_header ELEMENT_END id) as (h & more & -> & Hh & Hr); [by right; left|done|]. intros H.
  change (h :: more) with ([h] ++ more) in H. apply has_app in H as [H1 H2]. unfold close_element.
  rewrite (sbind_ok _ _ _ _ _ (reads_next_end h d H1)). apply is_header_eq in Hh. rewrite Hh. cbn [negb].
  rewrite (sbind_ok _ _ _ _ _ (Hr (with_end d (end_pos d + Z.of_nat (length [h]))) H2)). rewrite Z.eqb_refl. cbn [negb].
  unfold sret. destruct d. simpl. unfold with_end. simpl. do 2 f_equal. lia.
Qed.

(** ** Trees *)

Inductive tree : Type := Node (id : Z) (attrs : list (Z * value)) (children : list tree).

Definition tree_ind' (P : tree -> Prop) (H : forall id attrs children, Forall P children -> P (Node id attrs children)) : forall t, P t :=
  fix go t := match t with
    | Node id attrs children =>
        H id attrs children ((fix all l : Forall P l := match l with [] => Forall_nil_2 P | t :: l => Forall_cons_2 P t l (go t) (all l) end) children)
    end.

Fixpoint encode_tree (t : tree) : list Z :=
  match t with
  | Node id attrs children =>
      encode_open (elem id) ++ write_attrs attrs ++ concat (map encode_tree children) ++ encode_close (elem id)
  end.

Definition encode_forest (ts : list tree) : list Z := concat (map encode_tree ts).

(** What a reader knows of a tree: the types of the attributes. *)
Inductive shape : Type := Shape (types : list value_type) (children : list shape).

Fixpoint shape_of (t : tree) : shape :=
  match t with Node _ attrs children => Shape ((fun av : Z * value => type_of av.2) <$> attrs) (map shape_of children) end.

Fixpoint read_tree (s : shape) : dec tree :=
  match s with
  | Shape types children =>
      do! id <- open_element ;;
      do! attrs <- read_attrs types ;;
      do! children <- fold_right (fun s k => do! t <- read_tree s ;; do! ts <- k ;; sret (t :: ts)) (sret []) children ;;
      close_element id ;;!
      sret (Node id attrs children)
  end.

Definition read_forest (ss : list shape) : dec (list tree) :=
  fold_right (fun s k => do! t <- read_tree s ;; do! ts <- k ;; sret (t :: ts)) (sret []) ss.

Fixpoint valid_tree (t : tree) : Prop :=
  match t with
  | Node id attrs children => id_fits id /\ valid_attrs attrs /\ fold_right (fun t P => valid_tree t /\ P) True children
  end.

Lemma valid_children children : fold_right (fun t P => valid_tree t /\ P) True children <-> Forall valid_tree children.
Proof. induction children as [|t ts IH]; simpl; [done|]. by rewrite IH, Forall_cons. Qed.

(** What follows the attributes of an element is not an attribute. *)
Lemma element_start_byte kind id : is_kind kind -> kind <> ATTRIBUTE -> id_fits id ->
  exists b more, write_header kind id = b :: more /\ is_header ATTRIBUTE b = false /\ is_header kind b = true.
Proof.
  intros Hk Hne Hid. destruct (reads_element_header kind id Hk Hid) as (b & more & E & Hb & _). exists b, more.
  split; [done|]. unfold is_header. rewrite Hb. split; [by apply Z.eqb_neq|by apply Z.eqb_eq].
Qed.

Lemma after_attrs id children : id_fits id -> Forall valid_tree children ->
  exists b more, encode_forest children ++ encode_close (elem id) = b :: more /\ is_header ATTRIBUTE b = false.
Proof.
  intros Hid Hch. destruct Hch as [|[cid attrs ch] ts (Hc & _) _].
  - destruct (element_start_byte ELEMENT_END id) as (b & more & E & Hb & _); [by right; left|done|done|]. by exists b, more.
  - destruct (element_start_byte ELEMENT_START cid) as (b & more & E & Hb & _); [by left|done|done|].
    unfold encode_forest. simpl. unfold encode_open at 1. cbn [elem_id elem]. rewrite E. simpl. eauto.
Qed.

(** [p] reads the bytes [l] at [end_pos], whatever happens to the other positions. *)
Definition reads_part {A} (p : dec A) (l : list Z) (a : A) : Prop := forall d, manager d = Some m -> has d (end_pos d) l ->
  exists d', p d = (d', Ok a) /\ same_input d d' /\ end_pos d' = end_pos d + Z.of_nat (length l).

Lemma reads_part_bind {A B} (p : dec A) (f : A -> dec B) l1 l2 a b : reads_part p l1 a -> reads_part (f a) l2 b ->
  reads_part (sbind p f) (l1 ++ l2) b.
Proof.
  intros Hp Hf d Hm [H1 H2]%has_app. destruct (Hp d Hm H1) as (d1 & E1 & Hs1 & Ee1). rewrite (sbind_ok _ _ _ _ _ E1).
  pose proof Hs1 as (_ & _ & Em). destruct (Hf d1) as (d2 & -> & Hs2 & Ee2); [congruence| |].
  - rewrite Ee1. by eapply has_same.
  - exists d2. split; [done|]. split; [by etrans|]. rewrite length_app. lia.
Qed.

Lemma reads_part_ret {A} (a : A) : reads_part (sret a) [] a.
Proof. intros d Hm H. exists d. split; [done|]. split; [done|]. simpl. lia. Qed.

Lemma reads_part_then {A B} (p : dec A) (f : A -> B) l a : reads_part p l a -> reads_part (do! x <- p ;; sret (f x)) l (f a).
Proof. intros Hp. rewrite <- (app_nil_r l). eapply reads_part_bind; [exact Hp|apply reads_part_ret]. Qed.

Lemma reads_part_close id : id_fits id -> reads_part (close_element id) (encode_close (elem id)) tt.
Proof.
  intros Hid d Hm H. exists (with_end d (end_pos d + Z.of_nat (length (encode_close (elem id))))).
  split; [by apply close_element_ok|]. by split.
Qed.

(** Opening an element and reading its attributes. *)
Lemma open_and_attrs id attrs b rest d : id_fits id -> valid_attrs attrs -> is_header ATTRIBUTE b = false -> manager d = Some m ->
  has d (end_pos d) (encode_open (elem id) ++ write_attrs attrs ++ b :: rest) ->
  let p := end_pos d + Z.of_nat (length (encode_open (elem id))) in
  let n := Z.of_nat (length (write_attrs attrs)) in
  open_element d = (opened d p n, Ok id) /\
  read_attrs ((fun av : Z * value => type_of av.2) <$> attrs) (opened d p n) = (with_cur (opened d p n) (p + n), Ok attrs).
Proof.
  intros Hid Hattrs Hb Hm H. cbv zeta. split; [by apply (open_element_ok id attrs b rest)|].
  apply has_app in H as [_ H]. apply has_app in H as [H _]. by apply read_attrs_ok.
Qed.

Lemma read_tree_ok : forall t, valid_tree t -> reads_part (read_tree (shape_of t)) (encode_tree t) t.
Proof.
  apply (tree_ind' (fun t => valid_tree t -> reads_part (read_tree (shape_of t)) (encode_tree t) t)).
  intros id attrs children IH (Hid & Hattrs & Hch) d Hm H. apply valid_children in Hch. cbn [encode_tree] in *.
  destruct (after_attrs id children Hid Hch) as (b & more & Eb & Hb). fold (encode_forest children) in *.
  pose proof H as Hx. rewrite Eb in Hx.
  destruct (open_and_attrs id attrs b more d Hid Hattrs Hb Hm Hx) as [Eo Ea].
  apply has_app in H as [_ H]. apply has_app in H as [_ H].
  cbn [shape_of read_tree]. rewrite (sbind_ok _ _ _ _ _ Eo), (sbind_ok _ _ _ _ _ Ea).
  fold (read_forest (map shape_of children)). set (d2 := with_cur _ _).
  assert (Hforest : reads_part (read_forest (map shape_of children)) (encode_forest children) children).
  { clear -IH Hch. induction children as [|t ts IHts]; [apply reads_part_ret|].
    apply Forall_cons in IH as [IHt IHs], Hch as [Ht Hts]. unfold read_forest. simpl.
    eapply (reads_part_bind _ _ (encode_tree t) (encode_forest ts) t); [by apply IHt|].
    apply (reads_part_then _ (fun ts => t :: ts)). by apply IHts. }
  destruct (reads_part_bind _ (fun ts => close_element id ;;! sret (Node id attrs ts)) _ _ children (Node id attrs children) Hforest
    (reads_part_then _ (fun _ => Node id attrs children) _ tt (reads_part_close id Hid)) d2) as (d3 & E3 & Hs3 & Ee3); [done|exact H|].
  exists d3. split; [exact E3|]. split; [done|]. rewrite Ee3. unfold d2, opened. simpl. rewrite !length_app. lia.
Qed.

(** *** Whole documents *)

Lemma before_zero_id l : Forall (fun b => b <> 0) l -> before_zero l = l.
Proof. induction 1 as [|b l Hb Hl IH]; simpl; [done|]. apply Z.eqb_neq in Hb. rewrite Hb. by f_equal. Qed.

Lemma groups_nonzero n val : Forall (fun b => b <> 0) (groups n val).
Proof.
  induction n as [|n IH]; simpl; constructor; [|done]. intros E. apply Z.lor_eq_0_iff in E as [_ E]. done.
Qed.

Lemma header_nonzero kind id : is_kind kind -> id_fits id -> Forall (fun b => b <> 0) (write_header kind id).
Proof.
  intros Hk Hid. destruct (header_cases kind id Hk Hid) as (b & _ & Hb & [(-> & _)|(b2 & -> & _ & Hb2 & _)]); by repeat constructor.
Qed.

Lemma value_nonzero id v : id_fits id -> valid_value v -> Forall (fun b => b <> 0) (write_value (attr id) v).
Proof.
  intros Hid Hv. destruct (write_value_body (attr id) v Hv) as (l & -> & Hb). apply Forall_app. split; [by apply header_nonzero; [right; right|]|].
  assert (Ht : forall tb code, 1 <= code -> type_code tb = code -> tb <> 0) by (intros tb code Hc Ec ->; by subst code).
  destruct Hb as [b tb Ht' _|code tb n val v (_ & _ & Hnz) _ _|tb n s (_ & _ & Hnz) _ _ _|tb r Ht' _].
  - constructor; [|constructor]. eapply Ht; [|exact Ht']. done.
  - constructor; [done|apply groups_nonzero].
  - constructor; [done|]. apply Forall_app. split; [apply groups_nonzero|]. destruct Hv as (_ & Hs & _).
    eapply Forall_impl; [exact Hs|]. simpl. lia.
  - constructor; [|constructor]. eapply Ht; [|exact Ht']. done.
Qed.

Lemma tree_nonzero : forall t, valid_tree t -> Forall (fun b => b <> 0) (encode_tree t).
Proof.
  apply (tree_ind' (fun t => valid_tree t -> Forall (fun b => b <> 0) (encode_tree t))).
  intros id attrs children IH (Hid & Hattrs & Hch). apply valid_children in Hch. cbn [encode_tree]. rewrite !Forall_app. split_and!.
  - apply header_nonzero; [by left|done].
  - unfold write_attrs. apply Forall_concat, Forall_fmap. eapply Forall_impl; [exact Hattrs|]. intros [i v] [Hi Hv]. by apply value_nonzero.
  - apply Forall_concat, Forall_fmap. clear -IH Hch. induction IH; [done|]. apply Forall_cons in Hch as [? ?]. constructor; auto.
  - apply header_nonzero; [by right; left|done].
Qed.

(** Ingested bytes are at the start of the input. *)
Lemma ingest_has l : l <> [] -> Forall (fun b => b <> 0) l ->
  let '(d, o) := ingest_stream l (decode_new (Some m)) in
  o = Ok tt /\ has d (end_pos d) l /\ manager d = Some m /\ end_pos d = 0 /\ attribute_read d = true.
Proof.
  intros Hne Hl. unfold ingest_stream. rewrite before_zero_id by done. rewrite bool_decide_false by (by destruct l).
  simpl. split_and!; try done. unfold has. simpl. split; [lia|]. split.
  - set (n := Z.of_nat (length l)). destruct (Z.eqb_spec (n mod BUFFER_SIZE) 0); [lia|]. unfold BUFFER_SIZE in *.
    pose proof (Z.div_mod n 1024 ltac:(lia)). pose proof (Z.mod_pos_bound n 1024 ltac:(lia)).
    assert ((n + 1024 - 1) / 1024 = n / 1024 + 1) as -> by (symmetry; apply (Z.div_unique _ _ _ (n mod 1024 - 1)); lia). lia.
  - rewrite drop_0. by rewrite take_app_length.
Qed.

(** C5: the round trip of the packed format.  A tree of elements with attributes of
    every type, written by the encoder and ingested, is read back as the same
    tree by a reader that knows the types, and the whole input is consumed.  The
    values are those of [valid_value]: strings are valid UTF-8 without a NUL (the
    ingestion stops at one), and spaces are constant, processor, unique and join
    spaces or the formal stack, found in the manager by what is written (an
    fspec, an iop or another spacebase space has no reader). *)
Theorem packed_roundtrip t : valid_tree t ->
  exists d, (ingest_stream (encode_tree t) ;;! read_tree (shape_of t)) (decode_new (Some m)) = (d, Ok t) /\
    end_pos d = Z.of_nat (length (encode_tree t)).
Proof.
  intros Hv. assert (Hne : encode_tree t <> []).
  { destruct t as [id attrs ch]. destruct Hv as (Hid & _). simpl. destruct (element_start_byte ELEMENT_START id) as (b & more & E & _);
      [by left|done|done|]. unfold encode_open. cbn [elem_id elem]. by rewrite E. }
  pose proof (ingest_has _ Hne (tree_nonzero t Hv)) as H. unfold sbind.
  destruct (ingest_stream (encode_tree t) (decode_new (Some m))) as [d0 o]. destruct H as (-> & Hh & Hm & He & _).
  destruct (read_tree_ok t Hv d0 Hm Hh) as (d & E & _ & Ee). exists d. split; [done|]. lia.
Qed.

(** ** Looking attributes up *)

(** The attributes before the first one with an id. *)
Fixpoint attrs_before (id : Z) (attrs : list (Z * value)) : list (Z * value) :=
  match attrs with [] => [] | av :: attrs => if id =? av.1 then [] else av :: attrs_before id attrs end.

Definition not_present {A} (a : AttributeId) : outcome A := Err (Decoder ("Attribute " ++ attrib_name a ++ " is not present")).

Lemma find_round_ok a attrs b rest : valid_attrs attrs -> is_header ATTRIBUTE b = false ->
  forall fuel d, (length attrs < fuel)%nat -> has d (cur_pos d) (write_attrs attrs ++ b :: rest) ->
  sloop fuel (find_round a) tt d =
  (with_cur d (cur_pos d + Z.of_nat (length (write_attrs (attrs_before (attrib_id a) attrs)))),
   match find (fun av : Z * value => attrib_id a =? av.1) attrs with Some _ => Ok tt | None => not_present a end).
Proof.
  intros Hattrs Hb. induction Hattrs as [|[id v] attrs [Hid Hv] Hattrs IH]; intros fuel d Hf H;
    (destruct fuel as [|fuel]; [simpl in Hf; lia|]); cbn [sloop].
  - apply has_byte in H as [E _]. unfold find_round, sbind at 1. rewrite sbind_get. cbv zeta. rewrite E, Hb. cbn [negb].
    simpl. by rewrite Z.add_0_r, (set_id (pos := cur_pos)).
  - rewrite write_attrs_cons, <- app_assoc in H. destruct (write_value_peek d _ id v _ Hid Hv H) as [Eh Ei].
    cbn [find attrs_before fst]. apply has_app in H as [H1 H2]. destruct (Z.eqb_spec (attrib_id a) id) as [En|En].
    + erewrite sbind_ok; [|unfold find_round; rewrite sbind_get; cbv zeta; rewrite Eh; cbn [negb]; rewrite (sbind_ok _ _ _ _ _ Ei);
        apply Z.eqb_eq in En; by rewrite En]. simpl. by rewrite Z.add_0_r, (set_id (pos := cur_pos)).
    + set (d1 := with_cur d (cur_pos d + Z.of_nat (length (write_value (attr id) v)))).
      rewrite (sbind_ok _ _ d d1 (inl tt)); [|unfold find_round; rewrite sbind_get; cbv zeta; rewrite Eh; cbn [negb]; rewrite (sbind_ok _ _ _ _ _ Ei);
        apply Z.eqb_neq in En; rewrite En; by rewrite (sbind_ok _ _ _ _ _ (skip_value (attr id) v Hid Hv d H1))].
      rewrite IH; [|simpl in Hf; lia|exact H2]. rewrite write_attrs_cons, length_app. unfold d1, with_cur. simpl. do 2 f_equal. lia.
Qed.

(** The attribute that is found stands where the search stops. *)
Lemma found_at id attrs av : find (fun av : Z * value => id =? av.1) attrs = Some av ->
  exists after, attrs = attrs_before id attrs ++ av :: after.
Proof.
  induction attrs as [|x attrs IH]; simpl; [done|]. destruct (id =? x.1); [intros [= ->]; by exists attrs|].
  intros H. destruct (IH H) as [after E]. exists after. simpl. by rewrite <- E.
Qed.

Lemma write_attrs_app l1 l2 : write_attrs (l1 ++ l2) = write_attrs l1 ++ write_attrs l2.
Proof. unfold write_attrs. by rewrite fmap_app, concat_app. Qed.

Lemma find_matching_ok attrs a d b rest : valid_attrs attrs -> is_header ATTRIBUTE b = false ->
  has d (start_pos d) (write_attrs attrs ++ b :: rest) ->
  find_matching_attribute a d =
  (with_cur d (start_pos d + Z.of_nat (length (write_attrs (attrs_before (attrib_id a) attrs)))),
   match find (fun av : Z * value => attrib_id a =? av.1) attrs with Some _ => Ok tt | None => not_present a end).
Proof.
  intros Hattrs Hb H. unfold find_matching_attribute. rewrite sbind_modify, sbind_get.
  rewrite (find_round_ok a attrs b rest Hattrs Hb); [done| |exact H].
  destruct H as (H0 & Hl & _). rewrite length_app in Hl. pose proof (length_write_attrs attrs Hattrs). unfold rounds. simpl. lia.
Qed.

(** An attribute is found by its id.  In an element with attributes [attrs],
    the readers that take an id return the value of the first attribute with
    that id, wherever the reading of attributes stood, and go back to the first
    attribute; an id that no attribute has is an error. *)
Theorem attribute_lookup attrs a d b rest : valid_attrs attrs -> is_header ATTRIBUTE b = false -> manager d = Some m ->
  has d (start_pos d) (write_attrs attrs ++ b :: rest) ->
  match find (fun av : Z * value => attrib_id a =? av.1) attrs with
  | Some (_, v) => read_attr (read_value (type_of v)) a d = (with_read (with_cur d (start_pos d)) true, Ok v)
  | None => forall A (p : dec A), (read_attr p a d).2 = not_present a
  end.
Proof.
  intros Hattrs Hb Hm H. pose proof (find_matching_ok attrs a d b rest Hattrs Hb H) as E. unfold read_attr.
  destruct (find _ attrs) as [[id v]|] eqn:Ef.
  - destruct (found_at _ _ _ Ef) as [after Ea]. assert (Hav : id_fits id /\ valid_value v).
    { unfold valid_attrs in Hattrs. rewrite Ea, Forall_app, Forall_cons in Hattrs. apply Hattrs. }
    destruct Hav as [Hid Hv]. rewrite Ea, write_attrs_app, write_attrs_cons, <- !app_assoc in H.
    apply has_app in H as [_ H]. apply has_app in H as [H _].
    rewrite (sbind_ok _ _ _ _ _ E), (sbind_ok _ _ _ _ _ (read_value_ok (attr id) v Hid Hv (with_cur d _) Hm H)). done.
  - intros A p. unfold sbind. by rewrite E.
Qed.

(** ** Skipping elements *)

Fixpoint events (t : tree) : nat :=
  match t with Node _ _ children => (2 + fold_right (fun t n => events t + n) 0 children)%nat end.

Definition forest_events (ts : list tree) : nat := fold_right (fun t n => events t + n)%nat 0%nat ts.

(** After [k] rounds on [l] the stack is as it was. *)
Definition rounds_over (l : list Z) (k : nat) : Prop := forall st fuel d, st <> [] -> has d (end_pos d) l ->
  exists d', sloop (k + fuel) close_round st d = sloop fuel close_round st d' /\ same_input d d' /\
    end_pos d' = end_pos d + Z.of_nat (length l).

Lemma rounds_over_app l1 l2 k1 k2 : rounds_over l1 k1 -> rounds_over l2 k2 -> rounds_over (l1 ++ l2) (k1 + k2).
Proof.
  intros H1 H2 st fuel d Hst [Ha Hb]%has_app. rewrite <- Nat.add_assoc.
  destruct (H1 st (k2 + fuel)%nat d Hst Ha) as (d1 & -> & Hs1 & E1).
  destruct (H2 st fuel d1 Hst) as (d2 & -> & Hs2 & E2); [rewrite E1; by eapply has_same|].
  exists d2. split; [done|]. split; [by etrans|]. rewrite length_app. lia.
Qed.

Lemma close_round_end id st d : id_fits id -> has d (end_pos d) (encode_close (elem id)) -> exists d',
  close_round (id :: st) d = (d', Ok (match st with [] => inr tt | _ => inl st end)) /\ same_input d d' /\
  end_pos d' = end_pos d + Z.of_nat (length (encode_close (elem id))).
Proof.
  intros Hid H. exists (with_end d (end_pos d + Z.of_nat (length (encode_close (elem id))))). split; [|done].
  destruct (element_start_byte ELEMENT_END id) as (b & more & E & _ & Hb); [by right; left|done|done|].
  pose proof H as Hx. unfold encode_close in Hx. cbn [elem_id elem] in Hx. rewrite E in Hx. apply has_byte in Hx as [Eb _].
  unfold close_round. rewrite sbind_get. cbv zeta. rewrite Eb, Hb.
  erewrite (sbind_ok _ _ d _ st); [|rewrite (sbind_ok _ _ _ _ _ (close_element_ok id d Hid H)); reflexivity]. by destruct st.
Qed.

Lemma rounds_over_tree : forall t, valid_tree t -> rounds_over (encode_tree t) (events t).
Proof.
  apply (tree_ind' (fun t => valid_tree t -> rounds_over (encode_tree t) (events t))).
  intros id attrs children IH (Hid & Hattrs & Hch) st fuel d Hst H. apply valid_children in Hch. cbn [encode_tree events] in *.
  fold (encode_forest children) in *. fold (forest_events children).
  destruct (after_attrs id children Hid Hch) as (b & more & Eb & Hb). pose proof H as Hx. rewrite Eb in Hx.
  pose proof (open_element_ok id attrs b more d Hid Hattrs Hb Hx) as Eo.
  destruct (element_start_byte ELEMENT_START id) as (h & hm & Eh & _ & Hh); [by left|done|done|].
  assert (Eb0 : get_byte d (end_pos d) = h).
  { unfold encode_open in H. cbn [elem_id elem] in H. rewrite Eh in H. by apply has_byte in H as [? _]. }
  assert (Hend : is_header ELEMENT_END h = false).
  { unfold is_header in *. apply Z.eqb_eq in Hh. rewrite Hh. done. }
  apply has_app in H as [_ H]. apply has_app in H as [_ H].
  set (d1 := opened d _ _) in *.
  assert (E1 : close_round st d = (d1, Ok (inl (id :: st)))).
  { unfold close_round. rewrite sbind_get. cbv zeta. rewrite Eb0, Hend, Hh.
    by erewrite sbind_ok by (rewrite (sbind_ok _ _ _ _ _ Eo); reflexivity). }
  replace (2 + forest_events children + fuel)%nat with (S (forest_events children + S fuel)) by lia. cbn [sloop].
  rewrite (sbind_ok _ _ _ _ _ E1).
  assert (Hforest : rounds_over (encode_forest children) (forest_events children)).
  { clear -IH Hch. induction children as [|t ts IHts].
    - intros st fuel d Hst H. exists d. split; [done|]. split; [done|]. simpl. lia.
    - apply Forall_cons in IH as [IHt IHs], Hch as [Ht Hts]. apply (rounds_over_app (encode_tree t)); [by apply IHt|by apply IHts]. }
  pose proof H as H'. apply has_app in H as [Hf Hc]. destruct (Hforest (id :: st) (S fuel) d1) as (d2 & E2 & Hs2 & Ee2); [done|exact Hf|].
  rewrite E2. cbn [sloop]. destruct (close_round_end id st d2 Hid) as (d3 & E3 & Hs3 & Ee3).
  { rewrite Ee2. by eapply has_same; [|exact Hc]. }
  rewrite (sbind_ok _ _ _ _ _ E3). destruct st as [|s0 st0]; [done|]. exists d3. split; [done|]. split; [by etrans; [|etrans]|].
  rewrite Ee3, Ee2. unfold d1, opened. simpl. rewrite !length_app. lia.
Qed.

Lemma rounds_over_forest ts : Forall valid_tree ts -> rounds_over (encode_forest ts) (forest_events ts).
Proof.
  induction 1 as [|t ts Ht Hts IH].
  - intros st fuel d Hst H. exists d. split; [done|]. split; [done|]. simpl. lia.
  - apply (rounds_over_app (encode_tree t)); [by apply rounds_over_tree|done].
Qed.

Lemma events_length : forall t, valid_tree t -> (events t <= length (encode_tree t))%nat.
Proof.
  apply (tree_ind' (fun t => valid_tree t -> (events t <= length (encode_tree t))%nat)).
  intros id attrs children IH (Hid & Hattrs & Hch). apply valid_children in Hch. cbn [encode_tree events].
  assert (Hh : forall kind, is_kind kind -> (1 <= length (write_header kind id))%nat).
  { intros kind Hk. destruct (header_cases kind id Hk Hid) as (b & _ & _ & [(-> & _)|(b2 & -> & _)]); simpl; lia. }
  pose proof (Hh ELEMENT_START (or_introl eq_refl)). pose proof (Hh ELEMENT_END (or_intror (or_introl eq_refl))).
  unfold encode_open, encode_close. cbn [elem_id elem]. rewrite !length_app.
  assert (fold_right (fun t n => (events t + n)%nat) 0%nat children <= length (concat (map encode_tree children)))%nat; [|lia].
  clear -IH Hch. induction IH as [|t ts Ht _ IH]; simpl; [lia|]. apply Forall_cons in Hch as [Hv Hch]. rewrite length_app.
  specialize (Ht Hv). specialize (IH Hch). lia.
Qed.

Lemma forest_events_length ts : Forall valid_tree ts -> (forest_events ts <= length (encode_forest ts))%nat.
Proof.
  induction 1 as [|t ts Ht _ IH]; simpl; [lia|]. unfold encode_forest in *. simpl. rewrite length_app.
  pose proof (events_length t Ht). lia.
Qed.

(** An element can be left without reading its children.  Whatever children of
    an element are still to come, [close_element_skipping] skips them with all
    they contain, checks their closing ids, and leaves the decoder behind the
    end of the element. *)
Theorem close_skipping_correct id ts d : id_fits id -> Forall valid_tree ts ->
  has d (end_pos d) (encode_forest ts ++ encode_close (elem id)) ->
  exists d', close_element_skipping id d = (d', Ok tt) /\ same_input d d' /\
    end_pos d' = end_pos d + Z.of_nat (length (encode_forest ts ++ encode_close (elem id))).
Proof.
  intros Hid Hts H. pose proof H as H'. apply has_app in H as [Hf Hc]. unfold close_element_skipping. rewrite sbind_get.
  assert (Hr : exists k, rounds d = (forest_events ts + S k)%nat).
  { destruct H' as (H0 & Hl & _). rewrite length_app in Hl. pose proof (forest_events_length ts Hts).
    exists (rounds d - forest_events ts - 1)%nat. unfold rounds. lia. }
  destruct Hr as (k & ->). destruct (rounds_over_forest ts Hts [id] (S k) d) as (d1 & -> & Hs1 & E1); [done|done|].
  cbn [sloop]. destruct (close_round_end id [] d1 Hid) as (d2 & E2 & Hs2 & Ee2).
  { rewrite E1. by eapply has_same. }
  rewrite (sbind_ok _ _ _ _ _ E2). exists d2. split; [done|]. split; [by etrans|]. rewrite length_app. lia.
Qed.
End Values.

(** ** Examples *)

(** An element with an attribute of each type and two children. *)
Definition sample_attrs : list (Z * value) :=
  [(1, VBool true); (300, VSigned (- 2 ^ 63)); (5, VUnsigned (2 ^ 64 - 1)); (6, VString [0x68; 0xc3; 0xa9]); (7, VSpace 1); (8, VOpcode IntAdd)].

Definition sample_children : list tree := [Node 0x50 [] []; Node 4 [(300, VSigned 12)] [Node 5 [] []]].

Definition sample_tree : tree := Node 3 sample_attrs sample_children.

Lemma sample_attrs_valid : valid_attrs sample_manager sample_attrs.
Proof.
  unfold sample_attrs. repeat (constructor; [split; [unfold id_fits; cbn [fst]; lia|]|]); cbn [snd valid_value].
  - exact I.
  - unfold is_s. lia.
  - unfold is_u. lia.
  - split; [reflexivity|]. split; [repeat constructor|simpl; lia].
  - assert (E : space_type (deref sample_manager 1) = Processor) by (vm_compute; reflexivity). rewrite E.
    split; vm_compute; reflexivity.
  - discriminate.
  - constructor.
Qed.

Lemma sample_children_valid : Forall (valid_tree sample_manager) sample_children.
Proof.
  assert (Hleaf : forall id, id_fits id -> valid_tree sample_manager (Node id [] [])) by (intros id Hid; by repeat split; try apply Hid; constructor).
  constructor; [apply Hleaf; unfold id_fits; lia|]. constructor; [|constructor].
  split; [unfold id_fits; lia|]. split.
  - constructor; [|constructor]. split; [unfold id_fits; simpl; lia|]. unfold valid_value, is_s. simpl. lia.
  - split; [apply Hleaf; unfold id_fits; lia|done].
Qed.

Lemma packed_roundtrip_witness : exists d,
  (ingest_stream (encode_tree sample_manager sample_tree) ;;! read_tree (shape_of sample_tree)) (decode_new (Some sample_manager))
  = (d, Ok sample_tree).
Proof.
  destruct (packed_roundtrip sample_manager sample_tree) as (d & E & _).
  - split; [unfold id_fits; lia|]. split; [exact sample_attrs_valid|]. apply valid_children. exact sample_children_valid.
  - exists d. exact E.
Defined.

(** The bytes of the sample at the start of an input. *)
Definition sample_decoder (l : list Z) : PackedDecode := mk_PackedDecode (Some sample_manager) l 1024 0 0 0 true.

Lemma sample_has l rest : Z.of_nat (length l) < 1024 -> has (sample_decoder (l ++ rest)) 0 l.
Proof. intros H. split; [lia|]. split; [simpl; lia|]. simpl. by rewrite drop_0, take_app_length. Qed.

Definition sample_inside : PackedDecode := sample_decoder (write_attrs sample_manager sample_attrs ++ encode_close (elem 3)).

Lemma attribute_lookup_witness :
  (read_attr (read_value TSigned) (mk_AttributeId "off" 300) sample_inside).2 = Ok (VSigned (- 2 ^ 63)) /\
  (read_unsigned_integer_attr (mk_AttributeId "off" 9) sample_inside).2 = Err (Decoder "Attribute off is not present").
Proof.
  assert (H : has sample_inside 0 (write_attrs sample_manager sample_attrs ++ [0x83])).
  { unfold sample_inside. rewrite <- (app_nil_r (write_attrs _ _ ++ encode_close _)). apply sample_has. vm_compute. reflexivity. }
  split.
  - assert (E := attribute_lookup sample_manager sample_attrs (mk_AttributeId "off" 300) sample_inside 0x83 [] sample_attrs_valid eq_refl eq_refl H).
    assert (E2 : read_attr (read_value TSigned) (mk_AttributeId "off" 300) sample_inside =
      (with_read (with_cur sample_inside 0) true, Ok (VSigned (- 2 ^ 63)))) by exact E.
    rewrite E2. reflexivity.
  - exact (attribute_lookup sample_manager sample_attrs (mk_AttributeId "off" 9) sample_inside 0x83 [] sample_attrs_valid eq_refl eq_refl H _ _).
Defined.

Lemma close_skipping_correct_witness : exists d',
  close_element_skipping 3 (sample_decoder (encode_forest sample_manager sample_children ++ encode_close (elem 3))) = (d', Ok tt).
Proof.
  destruct (close_skipping_correct sample_manager 3 sample_children
    (sample_decoder (encode_forest sample_manager sample_children ++ encode_close (elem 3)))) as (d' & E & _).
  - unfold id_fits. lia.
  - exact sample_children_valid.
  - rewrite <- (app_nil_r (encode_forest _ _ ++ _)) at 1. apply sample_has. vm_compute. reflexivity.
  - exists d'. exact E.
Defined.
