(* ===== verification/OpBehavior.v ===== *)
(** The p-code semantics of [src/src/opbehavior.rs]: the [OpBehavior] trait as a
    record of its methods, one value per behaviour with the evaluation and the
    input recovery of the source, and the table [register_instructions] builds.

    The floating-point behaviours are dispatch over a table of formats; the
    formats themselves ([src/src/float.rs]) are an interface here, the class
    [FloatFormat]. *)
From stdpp Require Import base list sets numbers strings.
From Stdlib Require Import ZArith Lia.
From S2P Require Import Prelude Bits Opcodes.

(** ** Definitions *)

(** The trait.  Sizes are [i32] byte counts, operands [u64]. *)
Record OpBehavior : Type := {
  behavior_opcode : OpCode;
  is_special : bool;
  is_unary : bool;
  evaluate_unary (sizeout sizein in1 : Z) : outcome Z;
  evaluate_binary (sizeout sizein in1 in2 : Z) : outcome Z;
  evaluate_ternary (sizeout sizein in1 in2 in3 : Z) : outcome Z;
  recover_input_binary (slot sizeout out sizein input : Z) : outcome Z;
  recover_input_unary (sizeout out sizein : Z) : outcome Z;
}.

Definition lossy_recovery : Error :=
  Lowlevel "Cannot recover input parameter without loss of information".

Definition unary_unimplemented (opcode : OpCode) : Error :=
  Lowlevel ("Unary emulation unimplemented for " ++ get_opname opcode).

Definition binary_unimplemented (opcode : OpCode) : Error :=
  Lowlevel ("Binary emulation unimplemented for " ++ get_opname opcode).

Definition ternary_unimplemented (opcode : OpCode) : Error :=
  Lowlevel ("Ternary emulation unimplemented for " ++ get_opname opcode).

(** [value as i64 as u64]. *)
Definition cxx_int (value : Z) : Z := u64 (i64 value).

(** A behaviour with every method the trait's default: [OpBehaviorGeneric]. *)
Definition new_special (opcode : OpCode) (isunary isspecial : bool) : OpBehavior := {|
  behavior_opcode := opcode;
  is_special := isspecial;
  is_unary := isunary;
  evaluate_unary := fun _ _ _ => Err (unary_unimplemented opcode);
  evaluate_binary := fun _ _ _ _ => Err (binary_unimplemented opcode);
  evaluate_ternary := fun _ _ _ _ _ => Err (ternary_unimplemented opcode);
  recover_input_binary := fun _ _ _ _ _ => Err lossy_recovery;
  recover_input_unary := fun _ _ _ => Err lossy_recovery;
|}.

Definition new_generic (opcode : OpCode) (isunary : bool) : OpBehavior := new_special opcode isunary false.

(** [simple_behavior!]: the trait's defaults except for the methods given. *)
Definition simple_unary (opcode : OpCode) (eval : Z -> Z -> Z -> outcome Z)
    (recover : option (Z -> Z -> Z -> outcome Z)) : OpBehavior := {|
  behavior_opcode := opcode;
  is_special := false;
  is_unary := true;
  evaluate_unary := eval;
  evaluate_binary := evaluate_binary (new_generic opcode true);
  evaluate_ternary := evaluate_ternary (new_generic opcode true);
  recover_input_binary := recover_input_binary (new_generic opcode true);
  recover_input_unary := default (recover_input_unary (new_generic opcode true)) recover;
|}.

Definition simple_binary (opcode : OpCode) (eval : Z -> Z -> Z -> Z -> outcome Z)
    (recover : option (Z -> Z -> Z -> Z -> Z -> outcome Z)) : OpBehavior := {|
  behavior_opcode := opcode;
  is_special := false;
  is_unary := false;
  evaluate_unary := evaluate_unary (new_generic opcode false);
  evaluate_binary := eval;
  evaluate_ternary := evaluate_ternary (new_generic opcode false);
  recover_input_binary := default (recover_input_binary (new_generic opcode false)) recover;
  recover_input_unary := recover_input_unary (new_generic opcode false);
|}.

Definition simple_ternary (opcode : OpCode) (eval : Z -> Z -> Z -> Z -> Z -> outcome Z) : OpBehavior := {|
  behavior_opcode := opcode;
  is_special := false;
  is_unary := false;
  evaluate_unary := evaluate_unary (new_generic opcode false);
  evaluate_binary := evaluate_binary (new_generic opcode false);
  evaluate_ternary := eval;
  recover_input_binary := recover_input_binary (new_generic opcode false);
  recover_input_unary := recover_input_unary (new_generic opcode false);
|}.

(** *** Copy and comparisons *)

Definition OpBehaviorCopy : OpBehavior := simple_unary Copy
  (fun _ _ in1 => Ok in1)
  (Some (fun _ out _ => Ok out)).

Definition OpBehaviorEqual : OpBehavior := simple_binary IntEqual
  (fun _ _ in1 in2 => Ok (b2z (in1 =? in2))) None.

Definition OpBehaviorNotEqual : OpBehavior := simple_binary IntNotequal
  (fun _ _ in1 in2 => Ok (b2z (negb (in1 =? in2)))) None.

Definition signed_less (sizein in1 in2 : Z) (or_equal : bool) : Z :=
  if sizein <=? 0 then 0 else
  let mask := shl64 0x80 (u32 (i32 (8 * i32 (sizein - 1)))) in
  let bit1 := Z.land in1 mask in
  let bit2 := Z.land in2 mask in
  if negb (bit1 =? bit2) then b2z (negb (bit1 =? 0))
  else if or_equal then b2z (in1 <=? in2)
  else b2z (in1 <? in2).

Definition OpBehaviorIntSless : OpBehavior := simple_binary IntSless
  (fun _ sizein in1 in2 => Ok (signed_less sizein in1 in2 false)) None.

Definition OpBehaviorIntSlessEqual : OpBehavior := simple_binary IntSlessequal
  (fun _ sizein in1 in2 => Ok (signed_less sizein in1 in2 true)) None.

Definition OpBehaviorIntLess : OpBehavior := simple_binary IntLess
  (fun _ _ in1 in2 => Ok (b2z (in1 <? in2))) None.

Definition OpBehaviorIntLessEqual : OpBehavior := simple_binary IntLessequal
  (fun _ _ in1 in2 => Ok (b2z (in1 <=? in2))) None.

(** *** Extensions *)

Definition zext_range : Error := Evaluation "Output is not in range of zext operation".
Definition sext_range : Error := Evaluation "Output is not in range of sext operation".

Definition OpBehaviorIntZext : OpBehavior := simple_unary IntZext
  (fun _ _ in1 => Ok in1)
  (Some (fun _ out sizein =>
    let mask := calc_mask sizein in
    if negb (Z.land mask out =? out) then Err zext_range else Ok out)).

Definition OpBehaviorIntSext : OpBehavior := simple_unary IntSext
  (fun sizeout sizein in1 => Ok (sign_extend_size in1 sizein sizeout))
  (Some (fun sizeout out sizein =>
    let masklong := calc_mask sizeout in
    let maskshort := calc_mask sizein in
    if Z.land out (Z.lxor maskshort (Z.shiftr maskshort 1)) =? 0 then
      if negb (Z.land out maskshort =? out) then Err sext_range
      else Ok (Z.land out maskshort)
    else if negb (Z.land out (Z.lxor masklong maskshort) =? Z.lxor masklong maskshort) then Err sext_range
    else Ok (Z.land out maskshort))).

(** *** Arithmetic *)

Definition OpBehaviorIntAdd : OpBehavior := simple_binary IntAdd
  (fun sizeout _ in1 in2 => Ok (Z.land (u64 (in1 + in2)) (calc_mask sizeout)))
  (Some (fun _ sizeout out _ input => Ok (Z.land (u64 (out - input)) (calc_mask sizeout)))).

Definition OpBehaviorIntSub : OpBehavior := simple_binary IntSub
  (fun sizeout _ in1 in2 => Ok (Z.land (u64 (in1 - in2)) (calc_mask sizeout)))
  (Some (fun slot sizeout out _ input =>
    let res := if slot =? 0 then u64 (input + out) else u64 (input - out) in
    Ok (Z.land res (calc_mask sizeout)))).

Definition OpBehaviorIntCarry : OpBehavior := simple_binary IntCarry
  (fun _ sizein in1 in2 => Ok (b2z (in1 >? Z.land (u64 (in1 + in2)) (calc_mask sizein)))) None.

Definition sign_bit_of (value sizein : Z) : Z :=
  u32 (Z.land (shr64 value (u32 (i32 (i32 (sizein * 8) - 1)))) 1).

Definition OpBehaviorIntScarry : OpBehavior := simple_binary IntScarry
  (fun _ sizein in1 in2 =>
    let res := u64 (in1 + in2) in
    let first := sign_bit_of in1 sizein in
    let second := sign_bit_of in2 sizein in
    let result := sign_bit_of res sizein in
    let result := Z.lxor result first in
    let first := Z.lxor first second in
    let first := Z.lxor first 1 in
    let result := Z.land result first in
    Ok result) None.

Definition OpBehaviorIntSborrow : OpBehavior := simple_binary IntSborrow
  (fun _ sizein in1 in2 =>
    let res := u64 (in1 - in2) in
    let first := sign_bit_of in1 sizein in
    let second := sign_bit_of in2 sizein in
    let result := sign_bit_of res sizein in
    let first := Z.lxor first result in
    let result := Z.lxor result second in
    let result := Z.lxor result 1 in
    let first := Z.land first result in
    Ok first) None.

Definition OpBehaviorInt2Comp : OpBehavior := simple_unary Int2comp
  (fun _ sizein in1 => Ok (uintb_negate (u64 (in1 - 1)) sizein))
  (Some (fun _ out sizein => Ok (uintb_negate (u64 (out - 1)) sizein))).

Definition OpBehaviorIntNegate : OpBehavior := simple_unary IntNegate
  (fun _ sizein in1 => Ok (uintb_negate in1 sizein))
  (Some (fun _ out sizein => Ok (uintb_negate out sizein))).

Definition OpBehaviorIntXor : OpBehavior := simple_binary IntXor
  (fun _ _ in1 in2 => Ok (Z.lxor in1 in2)) None.

Definition OpBehaviorIntAnd : OpBehavior := simple_binary IntAnd
  (fun _ _ in1 in2 => Ok (Z.land in1 in2)) None.

Definition OpBehaviorIntOr : OpBehavior := simple_binary IntOr
  (fun _ _ in1 in2 => Ok (Z.lor in1 in2)) None.

(** *** Shifts *)

Definition left_range : Error := Evaluation "Output is not in range of left shift operation".
Definition right_range : Error := Evaluation "Output is not in range of right shift operation".

Definition OpBehaviorIntLeft : OpBehavior := simple_binary IntLeft
  (fun sizeout _ in1 in2 =>
    if in2 >=? cxx_int (i32 (sizeout * 8)) then Ok 0
    else Ok (Z.land (shl64 in1 (u32 in2)) (calc_mask sizeout)))
  (Some (fun slot sizeout out _ input =>
    if negb (slot =? 0) || (input >=? cxx_int (i32 (sizeout * 8))) then Err lossy_recovery else
    let shift_amount := i32 input in
    let shifted := shl64 out (u32 (i32 (i32 (sizeout * 8) - shift_amount))) in
    if negb (Z.land shifted (calc_mask sizeout) =? 0) then Err left_range
    else Ok (shr64 out (u32 shift_amount)))).

Definition OpBehaviorIntRight : OpBehavior := simple_binary IntRight
  (fun sizeout _ in1 in2 =>
    if in2 >=? cxx_int (i32 (sizeout * 8)) then Ok 0
    else Ok (shr64 (Z.land in1 (calc_mask sizeout)) (u32 in2)))
  (Some (fun slot sizeout out sizein input =>
    if negb (slot =? 0) || (input >=? cxx_int (i32 (sizeout * 8))) then Err lossy_recovery else
    let shift_amount := i32 input in
    if negb (shr64 out (u32 (i32 (i32 (sizein * 8) - shift_amount))) =? 0) then Err right_range
    else Ok (shl64 out (u32 shift_amount)))).

(** The counting loop of the signed right shift's recovery. *)
Fixpoint sright_count (rounds : nat) (testval count : Z) : Z :=
  match rounds with
  | O => count
  | S rounds =>
      let count := if negb (Z.land testval 1 =? 0) then count + 1 else count in
      sright_count rounds (Z.shiftr testval 1) count
  end.

Definition OpBehaviorIntSright : OpBehavior := simple_binary IntSright
  (fun sizeout sizein in1 in2 =>
    if in2 >=? cxx_int (i32 (sizeout * 8)) then
      Ok (if signbit_negative in1 sizein then calc_mask sizeout else 0)
    else
      let shift_amount := u32 in2 in
      let res := shr64 in1 shift_amount in
      if signbit_negative in1 sizein then
        let mask := calc_mask sizein in
        Ok (Z.lor res (Z.lxor (shr64 mask shift_amount) mask))
      else Ok res)
  (Some (fun slot sizeout out sizein input =>
    if negb (slot =? 0) || (input >=? cxx_int (i32 (sizeout * 8))) then Err lossy_recovery else
    let shift_amount := i32 input in
    let testval := shr64 out (u32 (i32 (i32 (i32 (sizein * 8) - shift_amount) - 1))) in
    let count := sright_count (Z.to_nat (shift_amount + 1)) testval 0 in
    if negb (count =? shift_amount + 1) then Err right_range
    else Ok (shl64 out (u32 shift_amount)))).

(** *** Multiplication and division *)

Definition divide_by_0 : Error := Evaluation "Divide by 0".
Definition remainder_by_0 : Error := Evaluation "Remainder by 0".

Definition OpBehaviorIntMult : OpBehavior := simple_binary IntMult
  (fun sizeout _ in1 in2 => Ok (Z.land (u64 (in1 * in2)) (calc_mask sizeout))) None.

Definition OpBehaviorIntDiv : OpBehavior := simple_binary IntDiv
  (fun _ _ in1 in2 => if in2 =? 0 then Err divide_by_0 else Ok (in1 / in2)) None.

Definition OpBehaviorIntSdiv : OpBehavior := simple_binary IntSdiv
  (fun sizeout sizein in1 in2 =>
    if in2 =? 0 then Err divide_by_0 else
    let num := sign_extend (i64 in1) (i32 (i32 (sizein * 8) - 1)) in
    let denom := sign_extend (i64 in2) (i32 (i32 (sizein * 8) - 1)) in
    if denom =? 0 then Err divide_by_0 else
    let sres := i64 (Z.quot num denom) in
    Ok (u64 (zero_extend sres (i32 (i32 (sizeout * 8) - 1))))) None.

Definition OpBehaviorIntRem : OpBehavior := simple_binary IntRem
  (fun _ _ in1 in2 => if in2 =? 0 then Err remainder_by_0 else Ok (in1 mod in2)) None.

Definition OpBehaviorIntSrem : OpBehavior := simple_binary IntSrem
  (fun sizeout sizein in1 in2 =>
    if in2 =? 0 then Err remainder_by_0 else
    let val := sign_extend (i64 in1) (i32 (i32 (sizein * 8) - 1)) in
    let modulus := sign_extend (i64 in2) (i32 (i32 (sizein * 8) - 1)) in
    if modulus =? 0 then Err remainder_by_0 else
    let sres := i64 (Z.rem val modulus) in
    Ok (u64 (zero_extend sres (i32 (i32 (sizeout * 8) - 1))))) None.

(** *** Booleans, pieces, pointers and counts *)

Definition OpBehaviorBoolNegate : OpBehavior := simple_unary BoolNegate
  (fun _ _ in1 => Ok (Z.lxor in1 1)) None.

Definition OpBehaviorBoolXor : OpBehavior := simple_binary BoolXor
  (fun _ _ in1 in2 => Ok (Z.lxor in1 in2)) None.

Definition OpBehaviorBoolAnd : OpBehavior := simple_binary BoolAnd
  (fun _ _ in1 in2 => Ok (Z.land in1 in2)) None.

Definition OpBehaviorBoolOr : OpBehavior := simple_binary BoolOr
  (fun _ _ in1 in2 => Ok (Z.lor in1 in2)) None.

Definition OpBehaviorPiece : OpBehavior := simple_binary Piece
  (fun sizeout sizein in1 in2 =>
    let shift_amount := i32 (i32 (sizeout - sizein) * 8) in
    Ok (Z.lor (shl64 in1 (u32 shift_amount)) in2)) None.

Definition OpBehaviorSubpiece : OpBehavior := simple_binary Subpiece
  (fun sizeout _ in1 in2 =>
    if in2 >=? 8 then Ok 0
    else Ok (Z.land (shr64 in1 (u32 (u64 (in2 * 8)))) (calc_mask sizeout))) None.

Definition OpBehaviorPtradd : OpBehavior := simple_ternary Ptradd
  (fun sizeout _ in1 in2 in3 => Ok (Z.land (u64 (in1 + u64 (in2 * in3))) (calc_mask sizeout))).

Definition OpBehaviorPtrsub : OpBehavior := simple_binary Ptrsub
  (fun sizeout _ in1 in2 => Ok (Z.land (u64 (in1 + in2)) (calc_mask sizeout))) None.

Definition OpBehaviorPopcount : OpBehavior := simple_unary Popcount
  (fun _ _ in1 => Ok (cxx_int (popcount in1))) None.

Definition OpBehaviorLzcount : OpBehavior := simple_unary Lzcount
  (fun _ sizein in1 =>
    let unused_bits := u64 (8 * u64 (8 - cxx_int sizein)) in
    Ok (u64 (cxx_int (count_leading_zeros in1) - unused_bits))) None.

(** *** Floating point: dispatch over a table of formats *)

(** The methods of [crate::float::FloatFormat] the behaviours call. *)
Class FloatFormat (F : Type) := {
  get_size : F -> Z;
  op_equal : F -> Z -> Z -> Z;
  op_not_equal : F -> Z -> Z -> Z;
  op_less : F -> Z -> Z -> Z;
  op_less_equal : F -> Z -> Z -> Z;
  op_nan : F -> Z -> Z;
  op_add : F -> Z -> Z -> Z;
  op_div : F -> Z -> Z -> Z;
  op_mult : F -> Z -> Z -> Z;
  op_sub : F -> Z -> Z -> Z;
  op_neg : F -> Z -> Z;
  op_abs : F -> Z -> Z;
  op_sqrt : F -> Z -> Z;
  op_trunc : F -> Z -> Z -> Z;
  op_ceil : F -> Z -> Z;
  op_floor : F -> Z -> Z;
  op_round : F -> Z -> Z;
  op_int2float : F -> Z -> Z -> Z;
  op_float2float : F -> Z -> F -> Z;
}.

Section Floats.
Context {F : Type} `{FloatFormat F}.

(** [FloatFormatTable::get_float_format]: the first format of that size. *)
Definition get_float_format (formats : list F) (size : Z) : option F :=
  List.find (fun format => get_size format =? size) formats.

(** [float_binary!] and [float_unary!]. *)
Definition float_binary (opcode : OpCode) (method : F -> Z -> Z -> Z) (formats : list F) : OpBehavior :=
  simple_binary opcode (fun _ sizein in1 in2 =>
    match get_float_format formats sizein with
    | Some format => Ok (method format in1 in2)
    | None => Err (binary_unimplemented opcode)
    end) None.

Definition float_unary (opcode : OpCode) (method : F -> Z -> Z) (formats : list F) : OpBehavior :=
  simple_unary opcode (fun _ sizein in1 =>
    match get_float_format formats sizein with
    | Some format => Ok (method format in1)
    | None => Err (unary_unimplemented opcode)
    end) None.

Definition OpBehaviorFloatEqual : list F -> OpBehavior := float_binary FloatEqual op_equal.
Definition OpBehaviorFloatNotEqual : list F -> OpBehavior := float_binary FloatNotequal op_not_equal.
Definition OpBehaviorFloatLess : list F -> OpBehavior := float_binary FloatLess op_less.
Definition OpBehaviorFloatLessEqual : list F -> OpBehavior := float_binary FloatLessequal op_less_equal.
Definition OpBehaviorFloatNan : list F -> OpBehavior := float_unary FloatNan op_nan.
Definition OpBehaviorFloatAdd : list F -> OpBehavior := float_binary FloatAdd op_add.
Definition OpBehaviorFloatDiv : list F -> OpBehavior := float_binary FloatDiv op_div.
Definition OpBehaviorFloatMult : list F -> OpBehavior := float_binary FloatMult op_mult.
Definition OpBehaviorFloatSub : list F -> OpBehavior := float_binary FloatSub op_sub.
Definition OpBehaviorFloatNeg : list F -> OpBehavior := float_unary FloatNeg op_neg.
Definition OpBehaviorFloatAbs : list F -> OpBehavior := float_unary FloatAbs op_abs.
Definition OpBehaviorFloatSqrt : list F -> OpBehavior := float_unary FloatSqrt op_sqrt.
Definition OpBehaviorFloatCeil : list F -> OpBehavior := float_unary FloatCeil op_ceil.
Definition OpBehaviorFloatFloor : list F -> OpBehavior := float_unary FloatFloor op_floor.
Definition OpBehaviorFloatRound : list F -> OpBehavior := float_unary FloatRound op_round.

Definition OpBehaviorFloatInt2Float (formats : list F) : OpBehavior := simple_unary FloatInt2float
  (fun sizeout sizein in1 =>
    match get_float_format formats sizeout with
    | Some format => Ok (op_int2float format in1 sizein)
    | None => Err (unary_unimplemented FloatInt2float)
    end) None.

Definition OpBehaviorFloatFloat2Float (formats : list F) : OpBehavior := simple_unary FloatFloat2float
  (fun sizeout sizein in1 =>
    match get_float_format formats sizeout with
    | None => Err (unary_unimplemented FloatFloat2float)
    | Some formatout =>
        match get_float_format formats sizein with
        | None => Err (unary_unimplemented FloatFloat2float)
        | Some formatin => Ok (op_float2float formatin in1 formatout)
        end
    end) None.

Definition OpBehaviorFloatTrunc (formats : list F) : OpBehavior := simple_unary FloatTrunc
  (fun sizeout sizein in1 =>
    match get_float_format formats sizein with
    | Some format => Ok (op_trunc format in1 sizeout)
    | None => Err (unary_unimplemented FloatTrunc)
    end) None.

(** *** The instruction table *)

Definition special (opcode : OpCode) : OpBehavior := new_special opcode false true.
Definition plain (opcode : OpCode) : OpBehavior := new_generic opcode false.

(** The assignments [inst\[opcode.index()\] = behavior] of
    [register_instructions], in source order. *)
Definition registrations (formats : list F) : list (OpCode * OpBehavior) :=
  [
    (Copy, OpBehaviorCopy);
    (Load, special Load);
    (Store, special Store);
    (Branch, special Branch);
    (Cbranch, special Cbranch);
    (Branchind, special Branchind);
    (Call, special Call);
    (Callind, special Callind);
    (Callother, special Callother);
    (Return, special Return);
    (Multiequal, special Multiequal);
    (Indirect, special Indirect);
    (Piece, OpBehaviorPiece);
    (Subpiece, OpBehaviorSubpiece);
    (IntEqual, OpBehaviorEqual);
    (IntNotequal, OpBehaviorNotEqual);
    (IntSless, OpBehaviorIntSless);
    (IntSlessequal, OpBehaviorIntSlessEqual);
    (IntLess, OpBehaviorIntLess);
    (IntLessequal, OpBehaviorIntLessEqual);
    (IntZext, OpBehaviorIntZext);
    (IntSext, OpBehaviorIntSext);
    (IntAdd, OpBehaviorIntAdd);
    (IntSub, OpBehaviorIntSub);
    (IntCarry, OpBehaviorIntCarry);
    (IntScarry, OpBehaviorIntScarry);
    (IntSborrow, OpBehaviorIntSborrow);
    (Int2comp, OpBehaviorInt2Comp);
    (IntNegate, OpBehaviorIntNegate);
    (IntXor, OpBehaviorIntXor);
    (IntAnd, OpBehaviorIntAnd);
    (IntOr, OpBehaviorIntOr);
    (IntLeft, OpBehaviorIntLeft);
    (IntRight, OpBehaviorIntRight);
    (IntSright, OpBehaviorIntSright);
    (IntMult, OpBehaviorIntMult);
    (IntDiv, OpBehaviorIntDiv);
    (IntSdiv, OpBehaviorIntSdiv);
    (IntRem, OpBehaviorIntRem);
    (IntSrem, OpBehaviorIntSrem);
    (BoolNegate, OpBehaviorBoolNegate);
    (BoolXor, OpBehaviorBoolXor);
    (BoolAnd, OpBehaviorBoolAnd);
    (BoolOr, OpBehaviorBoolOr);
    (Cast, special Cast);
    (Ptradd, plain Ptradd);
    (Ptrsub, plain Ptrsub);
    (FloatEqual, OpBehaviorFloatEqual formats);
    (FloatNotequal, OpBehaviorFloatNotEqual formats);
    (FloatLess, OpBehaviorFloatLess formats);
    (FloatLessequal, OpBehaviorFloatLessEqual formats);
    (FloatNan, OpBehaviorFloatNan formats);
    (FloatAdd, OpBehaviorFloatAdd formats);
    (FloatDiv, OpBehaviorFloatDiv formats);
    (FloatMult, OpBehaviorFloatMult formats);
    (FloatSub, OpBehaviorFloatSub formats);
    (FloatNeg, OpBehaviorFloatNeg formats);
    (FloatAbs, OpBehaviorFloatAbs formats);
    (FloatSqrt, OpBehaviorFloatSqrt formats);
    (FloatInt2float, OpBehaviorFloatInt2Float formats);
    (FloatFloat2float, OpBehaviorFloatFloat2Float formats);
    (FloatTrunc, OpBehaviorFloatTrunc formats);
    (FloatCeil, OpBehaviorFloatCeil formats);
    (FloatFloor, OpBehaviorFloatFloor formats);
    (FloatRound, OpBehaviorFloatRound formats);
    (Segmentop, special Segmentop);
    (Cpoolref, special Cpoolref);
    (New, special New);
    (Insert, plain Insert);
    (Zpull, plain Zpull);
    (Popcount, OpBehaviorPopcount);
    (Lzcount, OpBehaviorLzcount);
    (Spull, plain Spull)
  ].

Definition register (inst : list (option OpBehavior)) (entry : OpCode * OpBehavior) :
    outcome (list (option OpBehavior)) :=
  store inst (opcode_index entry.1) (Some entry.2).

Fixpoint register_all (inst : list (option OpBehavior)) (entries : list (OpCode * OpBehavior)) :
    outcome (list (option OpBehavior)) :=
  match entries with
  | [] => Ok inst
  | entry :: entries => let! inst := register inst entry in register_all inst entries
  end.

Definition register_instructions (inst : list (option OpBehavior)) (float_formats : list F) :
    outcome (list (option OpBehavior)) :=
  register_all (inst ++ replicate (opcode_index Max) None) (registrations float_formats).

Definition build_behaviors (float_formats : list F) : outcome (list (option OpBehavior)) :=
  register_instructions [] float_formats.

End Floats.

(** Exposes the method of a behaviour that a statement calls. *)
Ltac eval_op :=
  cbv beta iota zeta delta [evaluate_unary evaluate_binary evaluate_ternary
    recover_input_unary recover_input_binary simple_unary simple_binary simple_ternary
    default from_option id
    OpBehaviorCopy OpBehaviorEqual OpBehaviorNotEqual OpBehaviorIntSless
    OpBehaviorIntSlessEqual OpBehaviorIntLess OpBehaviorIntLessEqual OpBehaviorIntZext
    OpBehaviorIntSext OpBehaviorIntAdd OpBehaviorIntSub OpBehaviorIntCarry
    OpBehaviorIntScarry OpBehaviorIntSborrow OpBehaviorInt2Comp OpBehaviorIntNegate
    OpBehaviorIntXor OpBehaviorIntAnd OpBehaviorIntOr OpBehaviorIntLeft
    OpBehaviorIntRight OpBehaviorIntSright OpBehaviorIntMult OpBehaviorIntDiv
    OpBehaviorIntSdiv OpBehaviorIntRem OpBehaviorIntSrem OpBehaviorBoolNegate
    OpBehaviorBoolXor OpBehaviorBoolAnd OpBehaviorBoolOr OpBehaviorPiece
    OpBehaviorSubpiece OpBehaviorPtradd OpBehaviorPtrsub OpBehaviorPopcount
    OpBehaviorLzcount].

(** ** Comparisons and overflow flags *)

(** The signed comparison of the source is the comparison of the signed values
    of the operands. *)
Lemma signed_less_eq size in1 in2 or_equal : 1 <= size <= 8 ->
  is_u (8 * size) in1 -> is_u (8 * size) in2 ->
  signed_less size in1 in2 or_equal =
  b2z (if or_equal then sw (8 * size) in1 <=? sw (8 * size) in2 else sw (8 * size) in1 <? sw (8 * size) in2).
Proof.
  intros Hs H1 H2. unfold signed_less. destruct (Z.leb_spec size 0); [lia|].
  rewrite !land_signmask by done. pose proof (pow2_pos (8 * size - 1) ltac:(lia)).
  pose proof (pow2_pred (8 * size) ltac:(lia)). unfold is_u in H1, H2.
  destruct (word_cases (8 * size) in1 ltac:(lia) H1) as [(?&->&->)|(?&->&->)];
    destruct (word_cases (8 * size) in2 ltac:(lia) H2) as [(?&->&->)|(?&->&->)];
    rewrite ?Z.eqb_refl; cbn [negb];
    try (destruct (Z.eqb_spec 0 (2 ^ (8 * size - 1))); [lia|]);
    try (destruct (Z.eqb_spec (2 ^ (8 * size - 1)) 0); [lia|]); cbn [negb];
    destruct or_equal; f_equal; lia.
Qed.

Lemma sign_bit_of_eq value size : 1 <= size <= 8 ->
  sign_bit_of value size = b2z (Z.testbit value (8 * size - 1)).
Proof.
  intros Hs. unfold sign_bit_of, shr64. nocast. rewrite Z.mod_small by lia.
  rewrite land_1, Z.shiftr_spec by lia. replace (0 + (size * 8 - 1)) with (8 * size - 1) by lia.
  by destruct (Z.testbit _ _).
Qed.

(** The sign bit of a 64-bit wrapped result is that of the result wrapped at
    the operand's width. *)
Lemma testbit_sign_u64 z size : 1 <= size <= 8 ->
  Z.testbit (u64 z) (8 * size - 1) = negb (uw (8 * size) z <? 2 ^ (8 * size - 1)).
Proof. intros. rewrite testbit_sign, uw_idem by lia. done. Qed.

Lemma scarry_bits (a b r : bool) :
  Z.land (Z.lxor (b2z r) (b2z a)) (Z.lxor (Z.lxor (b2z a) (b2z b)) 1) = b2z (xorb r a && eqb a b).
Proof. by destruct a, b, r. Qed.

Lemma sborrow_bits (a b r : bool) :
  Z.land (Z.lxor (b2z a) (b2z r)) (Z.lxor (Z.lxor (b2z r) (b2z b)) 1) = b2z (xorb a r && eqb r b).
Proof. by destruct a, b, r. Qed.

(** Decides the sign bit of a wrapped result. *)
Ltac sign_case :=
  match goal with |- context [?a <? 2 ^ ?b] => destruct (Z.ltb_spec a (2 ^ b)) end;
  cbn [xorb Bool.eqb andb negb].

(** Signed comparison. *)
Theorem signed_compare_correct size sizeout in1 in2 : 1 <= size <= 8 ->
  is_u (8 * size) in1 -> is_u (8 * size) in2 ->
  evaluate_binary OpBehaviorIntSless sizeout size in1 in2 =
    Ok (b2z (sw (8 * size) in1 <? sw (8 * size) in2)) /\
  evaluate_binary OpBehaviorIntSlessEqual sizeout size in1 in2 =
    Ok (b2z (sw (8 * size) in1 <=? sw (8 * size) in2)).
Proof. intros. eval_op. by rewrite !signed_less_eq by done. Qed.

(** -1 < 1 on bytes. *)
Lemma signed_compare_correct_witness :
  evaluate_binary OpBehaviorIntSless 1 1 0xff 1 = Ok 1 /\
  evaluate_binary OpBehaviorIntSlessEqual 1 1 0xff 1 = Ok 1.
Proof. apply (signed_compare_correct 1 1 0xff 1); unfold is_u; lia. Defined.

Lemma carry_eq size in1 in2 : 1 <= size <= 8 -> is_u (8 * size) in1 -> is_u (8 * size) in2 ->
  (in1 >? Z.land (u64 (in1 + in2)) (calc_mask size)) = (2 ^ (8 * size) <=? in1 + in2).
Proof.
  intros Hs H1 H2. rewrite land_u64_calc_mask, uw_add_cases by (done || lia). unfold is_u in *.
  destruct (Z.ltb_spec (in1 + in2) (2 ^ (8 * size))); lia.
Qed.

(** C39: the carry flags report exactly the overflow of the mathematical sum or
    difference: unsigned for [INT_CARRY], signed for [INT_SCARRY] and
    [INT_SBORROW]. *)
Theorem overflow_flags_correct size sizeout in1 in2 : 1 <= size <= 8 ->
  is_u (8 * size) in1 -> is_u (8 * size) in2 ->
  evaluate_binary OpBehaviorIntCarry sizeout size in1 in2 =
    Ok (b2z (2 ^ (8 * size) <=? in1 + in2)) /\
  evaluate_binary OpBehaviorIntScarry sizeout size in1 in2 =
    Ok (b2z (negb (fits (8 * size) (sw (8 * size) in1 + sw (8 * size) in2)))) /\
  evaluate_binary OpBehaviorIntSborrow sizeout size in1 in2 =
    Ok (b2z (negb (fits (8 * size) (sw (8 * size) in1 - sw (8 * size) in2)))).
Proof.
  intros Hs H1 H2. eval_op.
  rewrite carry_eq, !sign_bit_of_eq, !testbit_sign_u64, scarry_bits, sborrow_bits by (done || lia).
  rewrite uw_add_cases, uw_sub_cases by (done || lia). unfold fits.
  pose proof (pow2_pred (8 * size) ltac:(lia)). unfold is_u in H1, H2.
  split; [done|]. split; do 2 f_equal.
  - destruct (word_cases (8 * size) in1 ltac:(lia) H1) as [(?&->&->)|(?&->&->)];
      destruct (word_cases (8 * size) in2 ltac:(lia) H2) as [(?&->&->)|(?&->&->)];
      destruct (Z.ltb_spec (in1 + in2) (2 ^ (8 * size))); sign_case; lia.
  - destruct (word_cases (8 * size) in1 ltac:(lia) H1) as [(?&->&->)|(?&->&->)];
      destruct (word_cases (8 * size) in2 ltac:(lia) H2) as [(?&->&->)|(?&->&->)];
      destruct (Z.ltb_spec in1 in2); sign_case; lia.
Qed.

(** On bytes: 0x80 + 0x80 carries both ways, 0x80 - 1 borrows. *)
Lemma overflow_flags_correct_witness :
  evaluate_binary OpBehaviorIntCarry 1 1 0x80 0x80 = Ok 1 /\
  evaluate_binary OpBehaviorIntScarry 1 1 0x80 0x80 = Ok 1 /\
  evaluate_binary OpBehaviorIntSborrow 1 1 0x80 1 = Ok 1.
Proof.
  split; [|split]; [apply (overflow_flags_correct 1 1 0x80 0x80)..|apply (overflow_flags_correct 1 1 0x80 1)];
    unfold is_u; lia.
Defined.

(** ** Arithmetic and shifts *)

Lemma uintb_negate_u64 z size : 0 <= size <= 8 -> uintb_negate (u64 z) size = uw (8 * size) (- z - 1).
Proof. intros. rewrite uintb_negate_eq by done. apply uw_neg_congr, uw_idem. lia. Qed.

Lemma cxx_int_bits size : 1 <= size <= 8 -> cxx_int (i32 (size * 8)) = 8 * size.
Proof. intros. unfold cxx_int. nocast. rewrite sw_small; [|lia|unfold is_s; lia]. nocast. lia. Qed.

(** The arithmetic behaviours compute the integer operation modulo the
    width of the output. *)
Theorem arithmetic_correct size sizein in1 in2 in3 : 1 <= size <= 8 ->
  let w := 8 * size in
  evaluate_binary OpBehaviorIntAdd size sizein in1 in2 = Ok (uw w (in1 + in2)) /\
  evaluate_binary OpBehaviorIntSub size sizein in1 in2 = Ok (uw w (in1 - in2)) /\
  evaluate_binary OpBehaviorIntMult size sizein in1 in2 = Ok (uw w (in1 * in2)) /\
  evaluate_binary OpBehaviorPtrsub size sizein in1 in2 = Ok (uw w (in1 + in2)) /\
  evaluate_ternary OpBehaviorPtradd size sizein in1 in2 in3 = Ok (uw w (in1 + in2 * in3)) /\
  evaluate_unary OpBehaviorInt2Comp size size in1 = Ok (uw w (- in1)) /\
  evaluate_unary OpBehaviorIntNegate size size in1 = Ok (uw w (- in1 - 1)).
Proof.
  intros Hs w. eval_op. rewrite !land_u64_calc_mask, uintb_negate_u64, uintb_negate_eq by lia.
  fold w. repeat split.
  - by rewrite uw_add_idem by lia.
  - do 2 f_equal. lia.
Qed.

(** 200 + 100 on bytes, and so on. *)
Lemma arithmetic_correct_witness :
  evaluate_binary OpBehaviorIntAdd 1 1 200 100 = Ok (uw 8 300) /\ uw 8 300 = 44.
Proof. split; [|reflexivity]. apply (arithmetic_correct 1 1 200 100 0). lia. Defined.

(** The bits filled in by the signed shift of a negative word. *)
Lemma sright_fill w s x : 0 <= s < w -> is_u w x -> Z.testbit x (w - 1) = true ->
  Z.lor (Z.shiftr x s) (Z.lxor (Z.shiftr (Z.ones w) s) (Z.ones w)) = uw w (Z.shiftr (sw w x) s).
Proof.
  intros Hs Hx Hneg. apply Z.bits_inj'. intros i Hi.
  rewrite Z.lor_spec, Z.lxor_spec, !Z.shiftr_spec, testbit_uw, Z.shiftr_spec by lia.
  rewrite testbit_sw by lia. rewrite !Z.testbit_ones by lia.
  destruct (Z.ltb_spec i w), (Z.ltb_spec (i + s) w); try lia;
    destruct (Z.leb_spec 0 i); try lia; destruct (Z.leb_spec 0 (i + s)); try lia; cbn [andb xorb].
  - rewrite Z.min_l by lia. apply orb_false_r.
  - rewrite Z.min_r, Hneg by lia. apply orb_true_r.
  - rewrite (testbit_above w x) by (done || lia). done.
Qed.

(** The shifts, for every shift amount (also beyond the width). *)
Theorem shift_correct size in1 in2 : 1 <= size <= 8 ->
  is_u (8 * size) in1 -> is_u64 in2 ->
  let w := 8 * size in
  evaluate_binary OpBehaviorIntLeft size size in1 in2 = Ok (uw w (in1 * 2 ^ in2)) /\
  evaluate_binary OpBehaviorIntRight size size in1 in2 = Ok (in1 / 2 ^ in2) /\
  evaluate_binary OpBehaviorIntSright size size in1 in2 = Ok (uw w (sw w in1 / 2 ^ in2)).
Proof.
  intros Hs H1 H2 w. eval_op. rewrite cxx_int_bits, signbit_negative_eq by done. fold w.
  unfold is_u in H2. rewrite Z.geb_leb. destruct (Z.leb_spec w in2) as [Hge|Hlt].
  - destruct (div_pow_out w in1 in2) as [-> ->]; [lia|done|]. rewrite uw_shiftl_out by lia.
    split; [done|]. split; [done|]. destruct (Z.testbit in1 (w - 1)); [|done].
    f_equal. rewrite calc_mask_size by lia. rewrite <- land_ones_uw by lia. by rewrite Z.land_m1_l.
  - unfold shl64, shr64. nocast. rewrite Z.mod_small by lia.
    rewrite land_u64_calc_mask, Z.shiftl_mul_pow2 by lia. split; [done|].
    rewrite land_calc_mask, uw_small, <- !Z.shiftr_div_pow2 by (done || lia). split; [done|].
    destruct (Z.testbit in1 (w - 1)) eqn:T.
    + rewrite calc_mask_size by lia. f_equal. apply sright_fill; (done || lia).
    + f_equal. destruct (word_cases w in1 ltac:(lia) H1) as [(? & _ & ->)|(? & ? & _)]; [|congruence].
      symmetry. apply uw_small. unfold is_u in *. split; [apply Z.shiftr_nonneg; lia|].
      rewrite Z.shiftr_div_pow2 by lia. apply Z.div_lt_upper_bound; [apply pow2_pos; lia|].
      pose proof (pow2_pos in2 ltac:(lia)). subst w. pose proof (pow2_pos (8 * size) ltac:(lia)).
      assert (1 * 2 ^ (8 * size) <= 2 ^ in2 * 2 ^ (8 * size)) by (apply Z.mul_le_mono_nonneg_r; lia). lia.
Qed.

(** -128 shifted right by 3, and by more than the width. *)
Lemma shift_correct_witness :
  evaluate_binary OpBehaviorIntSright 1 1 0x80 3 = Ok (uw 8 (-128 / 2 ^ 3)) /\
  evaluate_binary OpBehaviorIntSright 1 1 0x80 9 = Ok (uw 8 (-128 / 2 ^ 9)).
Proof.
  split; [apply (shift_correct 1 0x80 3)|apply (shift_correct 1 0x80 9)]; unfold is_u; lia.
Defined.

(** ** Division *)

Lemma sign_extend_operand size z : 1 <= size <= 8 ->
  sign_extend (i64 z) (i32 (i32 (size * 8) - 1)) = sw (8 * size) z.
Proof.
  intros. nocast. rewrite sign_extend_eq by lia. replace (size * 8 - 1 + 1) with (8 * size) by lia.
  apply sw_congr. by apply uw_sw_le; lia.
Qed.

Lemma zero_extend_result size z : 1 <= size <= 8 ->
  u64 (zero_extend (i64 z) (i32 (i32 (size * 8) - 1))) = uw (8 * size) z.
Proof.
  intros. nocast. rewrite zero_extend_u64 by lia. replace (size * 8 - 1 + 1) with (8 * size) by lia.
  by apply uw_sw_le; lia.
Qed.

Lemma sw_zero w z : 0 < w -> is_u w z -> sw w z = 0 <-> z = 0.
Proof.
  intros Hw Hz. pose proof (pow2_pred w Hw). unfold is_u in Hz.
  destruct (word_cases w z Hw Hz) as [(? & _ & ->)|(? & _ & ->)]; lia.
Qed.

(** C40: signed division and remainder truncate toward zero, the overflowing
    quotient wraps, and a zero divisor is the only error. *)
Theorem signed_division_correct size in1 in2 : 1 <= size <= 8 ->
  is_u (8 * size) in1 -> is_u (8 * size) in2 ->
  let w := 8 * size in
  evaluate_binary OpBehaviorIntSdiv size size in1 in2 =
    (if in2 =? 0 then Err (Evaluation "Divide by 0")
     else Ok (uw w (Z.quot (sw w in1) (sw w in2)))) /\
  evaluate_binary OpBehaviorIntSrem size size in1 in2 =
    (if in2 =? 0 then Err (Evaluation "Remainder by 0")
     else Ok (uw w (Z.rem (sw w in1) (sw w in2)))).
Proof.
  intros Hs H1 H2 w. eval_op. rewrite !sign_extend_operand, !zero_extend_result by done. fold w.
  pose proof (sw_zero w in2 ltac:(lia) H2). destruct (Z.eqb_spec in2 0) as [->|N]; [done|].
  destruct (Z.eqb_spec (sw w in2) 0); [tauto|done].
Qed.

(** -7 / 2 = -3 and -7 rem 2 = -1 on bytes; -128 / -1 wraps. *)
Lemma signed_division_correct_witness :
  evaluate_binary OpBehaviorIntSdiv 1 1 0xf9 2 = Ok (uw 8 (-3)) /\
  evaluate_binary OpBehaviorIntSrem 1 1 0xf9 2 = Ok (uw 8 (-1)) /\
  evaluate_binary OpBehaviorIntSdiv 1 1 0x80 0xff = Ok (uw 8 128).
Proof.
  split; [|split];
    [apply (signed_division_correct 1 0xf9 2)..|apply (signed_division_correct 1 0x80 0xff)];
    unfold is_u; lia.
Defined.

(** ** Recovering inputs *)

Lemma ones_lxor_half n : 0 < n -> Z.lxor (Z.ones n) (Z.shiftr (Z.ones n) 1) = 2 ^ (n - 1).
Proof.
  intros Hn. apply Z.bits_inj'. intros i Hi.
  rewrite Z.lxor_spec, Z.shiftr_spec, !Z.testbit_ones, Z.pow2_bits_eqb by lia.
  destruct (Z.leb_spec 0 i), (Z.leb_spec 0 (i + 1)), (Z.ltb_spec i n), (Z.ltb_spec (i + 1) n),
    (Z.eqb_spec (n - 1) i); simpl; lia || done.
Qed.

Lemma ones_lxor_above m n : 0 <= m <= n -> Z.lxor (Z.ones n) (Z.ones m) = Z.shiftl (Z.ones (n - m)) m.
Proof.
  intros Hn. apply Z.bits_inj'. intros i Hi.
  rewrite Z.lxor_spec, Z.shiftl_spec, !Z.testbit_ones by lia.
  destruct (Z.leb_spec 0 i), (Z.ltb_spec i n), (Z.ltb_spec i m), (Z.leb_spec 0 (i - m)),
    (Z.ltb_spec (i - m) (n - m)); simpl; lia || done.
Qed.

Lemma land_pow2 z k : 0 <= k -> (Z.land z (2 ^ k) =? 0) = negb (Z.testbit z k).
Proof.
  intros Hk. pose proof (pow2_pos k Hk).
  assert (Z.land z (2 ^ k) = if Z.testbit z k then 2 ^ k else 0) as ->.
  { apply Z.bits_inj'. intros i Hi. rewrite Z.land_spec, Z.pow2_bits_eqb by lia.
    destruct (Z.testbit z k) eqn:T; rewrite ?Z.pow2_bits_eqb, ?Z.bits_0 by lia;
      destruct (Z.eqb_spec k i); subst; rewrite ?T, ?andb_false_r; done. }
  destruct (Z.testbit z k); lia.
Qed.

(** The test that all bits of [out] from [m] to [n - 1] are ones. *)
Lemma land_above_ones m n out : 0 <= m <= n -> is_u n out ->
  (Z.land out (Z.lxor (Z.ones n) (Z.ones m)) =? Z.lxor (Z.ones n) (Z.ones m)) = (2 ^ n - 2 ^ m <=? out).
Proof.
  intros Hm Ho. rewrite ones_lxor_above by done. unfold is_u in Ho.
  assert (2 ^ n = 2 ^ m * 2 ^ (n - m)) as En by (rewrite <- Z.pow_add_r by lia; f_equal; lia).
  pose proof (pow2_pos m ltac:(lia)). pose proof (pow2_pos (n - m) ltac:(lia)).
  assert (Z.land out (Z.shiftl (Z.ones (n - m)) m) = Z.shiftl (out / 2 ^ m) m) as ->.
  { apply Z.bits_inj'. intros i Hi. rewrite Z.land_spec, !Z.shiftl_spec by lia.
    rewrite <- Z.shiftr_div_pow2 by lia. destruct (Z.lt_ge_cases i m).
    - rewrite !(Z.testbit_neg_r _ (i - m)) by lia. apply andb_false_r.
    - rewrite Z.shiftr_spec, Z.testbit_ones by lia. replace (i - m + m) with i by lia.
      destruct (Z.leb_spec 0 (i - m)), (Z.ltb_spec (i - m) (n - m)); try lia; cbn [andb]; [by rewrite andb_true_r|].
      rewrite (testbit_above n out) by (done || lia). done. }
  rewrite !Z.shiftl_mul_pow2, Z.ones_equiv by lia.
  pose proof (Z.div_mod out (2 ^ m) ltac:(lia)). pose proof (Z.mod_pos_bound out (2 ^ m) ltac:(lia)).
  apply eq_true_iff_eq. rewrite Z.eqb_eq, Z.leb_le. rewrite En in *. clear En Hm.
  generalize dependent (2 ^ m). intros P. generalize (out / P) (out mod P) (2 ^ (n - m)).
  intros q r R ? ? ? ?. split; intros; [nia|]. f_equal. assert (q < R) by nia. assert (R - 1 <= q) by nia. lia.
Qed.

(** The sign-extension test and its answer. *)
Lemma sext_recover m n out : 0 < m <= n -> is_u n out ->
  (if Z.testbit out (m - 1) then 2 ^ n - 2 ^ m <= out else out < 2 ^ m) <->
  uw n (sw m out) = out.
Proof.
  intros Hm Ho. pose proof (pow2_pred m ltac:(lia)). pose proof (pow2_pos (m - 1) ltac:(lia)).
  assert (2 ^ m <= 2 ^ n) by (apply Z.pow_le_mono_r; lia). unfold is_u in Ho.
  pose proof (uw_range m out ltac:(lia)) as Hu. unfold is_u in Hu.
  assert (uw m out = out mod 2 ^ m) as Em by done.
  rewrite testbit_sign, sw_uw_cases by lia. destruct (Z.ltb_spec (uw m out) (2 ^ (m - 1))); cbn [negb].
  - rewrite (uw_small n (uw m out)) by (unfold is_u; lia). split; intros; [|lia].
    rewrite Em. apply Z.mod_small. lia.
  - assert (uw n (uw m out - 2 ^ m) = uw m out - 2 ^ m + 2 ^ n) as ->.
    { symmetry. apply (Z.mod_unique_pos _ _ (-1)); lia. }
    split; intros; [|lia].
    assert (uw m out = out - (2 ^ n - 2 ^ m)); [|lia]. rewrite Em. symmetry.
    assert (2 ^ n = 2 ^ m * 2 ^ (n - m)) as En by (rewrite <- Z.pow_add_r by lia; f_equal; lia).
    apply Z.mod_unique_pos with (2 ^ (n - m) - 1); lia.
Qed.

Lemma ok_inj {A} (a b : A) : Ok a = Ok b <-> a = b.
Proof. naive_solver. Qed.

Lemma uw_opp_swap w a b : is_u w b -> uw w (- b) = a -> uw w (- a) = b.
Proof.
  intros Hb <-. unfold uw. rewrite <- Z.sub_0_l, Zminus_mod_idemp_r.
  replace (0 - - b) with b by lia. by apply uw_small.
Qed.

Lemma uw_neg_swap w a b : 0 <= w -> is_u w b -> uw w (- b - 1) = a -> uw w (- a - 1) = b.
Proof.
  intros Hw Hb <-. rewrite (uw_neg_congr w _ (- b - 1)) by (apply uw_idem; lia).
  replace (- (- b - 1) - 1) with b by lia. by apply uw_small.
Qed.

(** Recovering the input of a unary operation succeeds exactly on the
    outputs the operation can produce, and returns the input that produces
    them. *)
Theorem recover_unary_exact sizein sizeout x out :
  1 <= sizein <= sizeout -> sizeout <= 8 -> is_u (8 * sizein) x -> is_u (8 * sizeout) out ->
  (recover_input_unary OpBehaviorCopy sizeout out sizein = Ok x <->
     evaluate_unary OpBehaviorCopy sizeout sizein x = Ok out) /\
  (recover_input_unary OpBehaviorIntZext sizeout out sizein = Ok x <->
     evaluate_unary OpBehaviorIntZext sizeout sizein x = Ok out) /\
  (recover_input_unary OpBehaviorIntSext sizeout out sizein = Ok x <->
     evaluate_unary OpBehaviorIntSext sizeout sizein x = Ok out) /\
  (sizein = sizeout ->
     (recover_input_unary OpBehaviorInt2Comp sizeout out sizein = Ok x <->
        evaluate_unary OpBehaviorInt2Comp sizeout sizein x = Ok out) /\
     (recover_input_unary OpBehaviorIntNegate sizeout out sizein = Ok x <->
        evaluate_unary OpBehaviorIntNegate sizeout sizein x = Ok out)).
Proof.
  intros Hs Hso Hx Ho. eval_op. split; [naive_solver|]. split.
  { rewrite Z.land_comm, land_calc_mask by lia. unfold is_u in *.
    destruct (Z.eqb_spec (uw (8 * sizein) out) out) as [E|N]; cbn [negb]; [naive_solver|].
    split; [done|]. intros [= <-]. by rewrite uw_small in N. }
  split.
  - rewrite !calc_mask_size, ones_lxor_half, land_pow2, land_above_ones by (done || lia).
    rewrite land_ones_uw by lia. rewrite sign_extend_size_eq by lia.
    pose proof (sext_recover (8 * sizein) (8 * sizeout) out ltac:(lia) Ho) as Hsx.
    assert (HK : uw (8 * sizeout) (sw (8 * sizein) x) = out <->
                 uw (8 * sizein) out = x /\ uw (8 * sizeout) (sw (8 * sizein) out) = out).
    { split; [|intros [<- E]; by rewrite sw_uw by lia].
      intros E. assert (uw (8 * sizein) out = x) as Ex.
      { rewrite <- E, uw_idem, uw_sw, uw_small by (done || lia). done. }
      split; [done|]. rewrite <- (sw_uw (8 * sizein) out), Ex by lia. done. }
    assert (Hsm : uw (8 * sizein) out = out <-> out < 2 ^ (8 * sizein)).
    { split; [intros <-; apply uw_range; lia|]. intros. apply uw_small. unfold is_u in *. lia. }
    destruct (Z.testbit out (8 * sizein - 1)); cbn [negb].
    + destruct (Z.leb_spec (2 ^ (8 * sizeout) - 2 ^ (8 * sizein)) out); cbn [negb].
      * rewrite !ok_inj, HK. tauto.
      * split; [done|]. rewrite ok_inj, HK. intros [_ ?%Hsx]. lia.
    + destruct (Z.eqb_spec (uw (8 * sizein) out) out) as [E|N]; cbn [negb].
      * rewrite !ok_inj, HK. tauto.
      * split; [done|]. rewrite ok_inj, HK. tauto.
  - intros <-. rewrite !uintb_negate_u64, !uintb_negate_eq, !ok_inj by lia.
    replace (- (out - 1) - 1) with (- out) by lia. replace (- (x - 1) - 1) with (- x) by lia.
    split; split; intros; first [apply uw_opp_swap; assumption | apply uw_neg_swap; [lia|assumption..]].
Qed.

(** Sign extension of the byte 0xfe to 16 bits and back; 0x80fe has no preimage. *)
Lemma recover_unary_exact_witness :
  recover_input_unary OpBehaviorIntSext 2 0xfffe 1 = Ok 0xfe /\
  recover_input_unary OpBehaviorIntSext 2 0x80fe 1 <> Ok 0xfe.
Proof.
  split; [|intros H];
    [apply (recover_unary_exact 1 2 0xfe 0xfffe)|apply (recover_unary_exact 1 2 0xfe 0x80fe) in H];
    unfold is_u; try lia; [reflexivity|discriminate].
Defined.

(** Solving a modular equation for one of its words. *)
Lemma uw_eq_iff w a x : 0 <= w -> is_u w x -> (uw w a = x <-> (2 ^ w | a - x)).
Proof.
  intros Hw Hx. pose proof (pow2_pos w Hw). split.
  - intros <-. exists (a / 2 ^ w). pose proof (Z.div_mod a (2 ^ w)). unfold uw. lia.
  - intros [k E]. symmetry. apply (Z.mod_unique_pos _ _ k); [done|lia].
Qed.

Lemma uw_solve w a b x out : 0 <= w -> is_u w x -> is_u w out -> b - out = x - a \/ b - out = a - x ->
  (uw w a = x <-> uw w b = out).
Proof.
  intros Hw Hx Ho E. rewrite !uw_eq_iff by done.
  destruct E as [-> | ->]; [|done]. replace (x - a) with (- (a - x)) by lia. by rewrite Z.divide_opp_r.
Qed.

(** Recovering an operand of an addition, a subtraction or a lossless
    shift. *)
Theorem recover_binary_exact size x y out :
  1 <= size <= 8 -> is_u (8 * size) x -> is_u (8 * size) y -> is_u (8 * size) out ->
  let w := 8 * size in
  (forall slot, recover_input_binary OpBehaviorIntAdd slot size out size y = Ok x <->
     evaluate_binary OpBehaviorIntAdd size size x y = Ok out) /\
  (recover_input_binary OpBehaviorIntSub 0 size out size y = Ok x <->
     evaluate_binary OpBehaviorIntSub size size x y = Ok out) /\
  (recover_input_binary OpBehaviorIntSub 1 size out size y = Ok x <->
     evaluate_binary OpBehaviorIntSub size size y x = Ok out) /\
  (y < w -> (size < 8 \/ 0 < y) ->
     (recover_input_binary OpBehaviorIntLeft 0 size out size y = Ok x <-> x * 2 ^ y = out) /\
     (recover_input_binary OpBehaviorIntRight 0 size out size y = Ok x <-> x = out * 2 ^ y)).
Proof.
  intros Hs Hx Hy Ho w. eval_op. rewrite !land_u64_calc_mask by lia. fold w. cbn [Z.eqb].
  setoid_rewrite ok_inj. do 3 (split; [intros; rewrite ?land_u64_calc_mask by lia; apply uw_solve; [lia|done|done|lia]|]).
  intros Hyw H8. cbn [negb orb]. unfold is_u in Hx, Hy, Ho. rewrite cxx_int_bits by done. fold w.
  rewrite Z.geb_leb, (proj2 (Z.leb_gt w y) Hyw). replace (size * 8) with w by lia.
  unfold shl64, shr64. nocast. rewrite !Z.mod_small by lia. rewrite land_u64_calc_mask by lia. fold w.
  rewrite !Z.shiftl_mul_pow2, !Z.shiftr_div_pow2 by lia.
  pose proof (pow2_pos y ltac:(lia)). pose proof (pow2_pos (w - y) ltac:(lia)).
  assert (2 ^ w = 2 ^ y * 2 ^ (w - y)) as Ew by (rewrite <- Z.pow_add_r by lia; f_equal; lia).
  fold w in Hx, Hy, Ho. split.
  - unfold uw. rewrite Ew, Z.mul_mod_distr_r by lia.
    destruct (Z.eqb_spec (out mod 2 ^ y * 2 ^ (w - y)) 0) as [E|N]; cbn [negb].
    + assert (out mod 2 ^ y = 0) by nia. rewrite ok_inj.
      pose proof (Z.div_mod out (2 ^ y) ltac:(lia)). split; [intros <-; lia|].
      intros <-. apply Z.div_mul. lia.
    + split; [done|]. intros <-. rewrite Z.mod_mul in N by lia. lia.
  - destruct (Z.eqb_spec (out / 2 ^ (w - y)) 0) as [E|N]; cbn [negb].
    + apply Z.div_small_iff in E; [|lia]. assert (2 ^ w <= 2 ^ 64) by (apply Z.pow_le_mono_r; lia).
      rewrite u64_small, ok_inj by nia. naive_solver.
    + split; [done|]. intros ->. exfalso. apply N, Z.div_small. nia.
Qed.

(** 0xb0 = 0x0b << 4 on bytes. *)
Lemma recover_binary_exact_witness :
  recover_input_binary OpBehaviorIntLeft 0 1 0xb0 1 4 = Ok 0x0b /\
  recover_input_binary OpBehaviorIntSub 1 1 0xff 1 4 = Ok 5.
Proof.
  split; [apply (recover_binary_exact 1 0x0b 4 0xb0)|apply (recover_binary_exact 1 5 4 0xff)];
    unfold is_u; try lia; reflexivity.
Defined.

Lemma sright_count_le n : forall v c, sright_count n v c <= c + Z.of_nat n.
Proof.
  induction n as [|n IH]; intros v c; [simpl; lia|]. cbn [sright_count].
  etrans; [apply IH|]. destruct (negb _); lia.
Qed.

(** One zero bit among those counted keeps the count below the maximum. *)
Lemma sright_count_lt n : forall v c, (exists i, 0 <= i < Z.of_nat n /\ Z.testbit v i = false) ->
  sright_count n v c < c + Z.of_nat n.
Proof.
  induction n as [|n IH]; intros v c (i & Hi & Hb); [lia|]. cbn [sright_count].
  destruct (Z.eq_dec i 0) as [->|].
  - rewrite land_1, Hb. pose proof (sright_count_le n (Z.shiftr v 1) c). simpl. lia.
  - assert (sright_count n (Z.shiftr v 1) (if negb (Z.land v 1 =? 0) then c + 1 else c) <
      (if negb (Z.land v 1 =? 0) then c + 1 else c) + Z.of_nat n).
    { apply IH. exists (i - 1). split; [lia|]. rewrite Z.shiftr_spec by lia.
      by replace (i - 1 + 1) with i by lia. }
    destruct (negb _); lia.
Qed.

(** Three recoveries refuse outputs that have a preimage: a shift by 0 of a
    full 64-bit word, and every non-negative output of a signed right shift. *)
Theorem recover_shift_refused out size s : is_u64 out -> out <> 0 ->
  1 <= size <= 8 -> 0 <= s < 8 * size ->
  recover_input_binary OpBehaviorIntLeft 0 8 out 8 0 = Err left_range /\
  recover_input_binary OpBehaviorIntRight 0 8 out 8 0 = Err right_range /\
  (out < 2 ^ (8 * size - 1) ->
     recover_input_binary OpBehaviorIntSright 0 size out size s = Err right_range).
Proof.
  intros Ho Hn0 Hs Hsh. eval_op. unfold is_u in Ho. split; [|split].
  - change (_ || _) with false. cbv iota. change (u32 (i32 (i32 (8 * 8) - i32 0))) with 64. unfold shl64. change (64 mod 64) with 0.
    rewrite Z.shiftl_0_r, land_u64_calc_mask, u64_small by lia.
    by destruct (Z.eqb_spec out 0).
  - change (_ || _) with false. cbv iota. change (u32 (i32 (i32 (8 * 8) - i32 0))) with 64. unfold shr64. change (64 mod 64) with 0.
    rewrite Z.shiftr_0_r. by destruct (Z.eqb_spec out 0).
  - intros Hlt. rewrite cxx_int_bits by done.
    rewrite Z.geb_leb, (proj2 (Z.leb_gt (8 * size) s)) by lia. change (negb (0 =? 0) || false) with false. cbv iota.
    unfold shr64. nocast. rewrite Z.mod_small by lia.
    assert (sright_count (Z.to_nat (s + 1)) (Z.shiftr out (size * 8 - s - 1)) 0 < 0 + Z.of_nat (Z.to_nat (s + 1))).
    { apply sright_count_lt. exists s. split; [lia|]. rewrite Z.shiftr_spec by lia.
      replace (s + (size * 8 - s - 1)) with (8 * size - 1) by lia.
      apply (testbit_above (8 * size - 1)); [unfold is_u|]; lia. }
    match goal with |- context [?a =? s + 1] => destruct (Z.eqb_spec a (s + 1)); [lia|done] end.
Qed.

(** A full word shifted by nothing, and 2 = 4 >> 1 on bytes. *)
Lemma recover_shift_refused_witness :
  recover_input_binary OpBehaviorIntLeft 0 8 5 8 0 = Err left_range /\
  evaluate_binary OpBehaviorIntLeft 8 8 5 0 = Ok 5 /\
  recover_input_binary OpBehaviorIntSright 0 1 2 1 1 = Err right_range /\
  evaluate_binary OpBehaviorIntSright 1 1 4 1 = Ok 2.
Proof.
  split; [|split; [reflexivity|split; [|reflexivity]]];
    [apply (recover_shift_refused 5 1 0)|apply (recover_shift_refused 2 1 1)]; unfold is_u; lia.
Defined.

(** ** Concatenation and truncation *)

Lemma subpiece_eq k size x c : 1 <= k <= 8 -> 0 <= c < 8 ->
  evaluate_binary OpBehaviorSubpiece k size x c = Ok (uw (8 * k) (x / 2 ^ (8 * c))).
Proof.
  intros Hk Hc. eval_op. rewrite Z.geb_leb, (proj2 (Z.leb_gt 8 c)) by lia.
  unfold shr64. nocast. rewrite Z.mod_small by lia.
  rewrite land_calc_mask, Z.shiftr_div_pow2 by lia. by rewrite (Z.mul_comm c 8).
Qed.

Lemma piece_eq s1 s2 hi lo : 1 <= s1 -> 1 <= s2 -> s1 + s2 <= 8 ->
  is_u (8 * s1) hi -> is_u (8 * s2) lo ->
  evaluate_binary OpBehaviorPiece (s1 + s2) s1 hi lo = Ok (hi * 2 ^ (8 * s2) + lo).
Proof.
  intros H1 H2 H8 Hhi Hlo. eval_op. replace (s1 + s2 - s1) with s2 by lia.
  unfold shl64. nocast. rewrite Z.mod_small by lia. rewrite u64_small, (Z.mul_comm s2 8).
  - f_equal. apply lor_add; [lia|done].
  - rewrite Z.shiftl_mul_pow2 by lia. unfold is_u in Hhi.
    assert (2 ^ (8 * s1) * 2 ^ (s2 * 8) <= 2 ^ 64) by (rewrite <- Z.pow_add_r by lia; apply Z.pow_le_mono_r; lia).
    pose proof (pow2_pos (s2 * 8) ltac:(lia)). nia.
Qed.

(** [PIECE] and [SUBPIECE] are inverse to each other: the pieces of a
    concatenation are its operands, and the concatenation of the two pieces of a
    value is the value. *)
Theorem piece_subpiece_inverse s1 s2 hi lo x : 1 <= s1 -> 1 <= s2 -> s1 + s2 <= 8 ->
  is_u (8 * s1) hi -> is_u (8 * s2) lo -> is_u (8 * (s1 + s2)) x ->
  (let! p := evaluate_binary OpBehaviorPiece (s1 + s2) s1 hi lo in
   let! a := evaluate_binary OpBehaviorSubpiece s1 (s1 + s2) p s2 in
   let! b := evaluate_binary OpBehaviorSubpiece s2 (s1 + s2) p 0 in Ok (a, b)) = Ok (hi, lo) /\
  (let! a := evaluate_binary OpBehaviorSubpiece s1 (s1 + s2) x s2 in
   let! b := evaluate_binary OpBehaviorSubpiece s2 (s1 + s2) x 0 in
   evaluate_binary OpBehaviorPiece (s1 + s2) s1 a b) = Ok x.
Proof.
  intros H1 H2 H8 Hhi Hlo Hx. rewrite !subpiece_eq by lia. ostep. rewrite Z.mul_0_r, Z.div_1_r.
  pose proof (pow2_pos (8 * s2) ltac:(lia)). unfold is_u in Hx.
  replace (8 * (s1 + s2)) with (8 * s1 + 8 * s2) in Hx by lia. rewrite Z.pow_add_r in Hx by lia. split.
  - rewrite piece_eq by done. cbv iota beta. rewrite !subpiece_eq by lia. cbv iota beta.
    rewrite Z.mul_0_r, Z.div_1_r, Z.div_add_l, (Z.div_small lo), Z.add_0_r by (done || lia).
    rewrite uw_small by done. do 2 f_equal. unfold uw. rewrite Z.add_comm, Z.mod_add by lia. by apply uw_small.
  - rewrite piece_eq by (done || (apply uw_range; lia)). f_equal.
    rewrite (uw_small (8 * s1)).
    + unfold uw. rewrite Z.mul_comm. symmetry. apply Z.div_mod. lia.
    + unfold is_u. split; [apply Z.div_pos; lia|]. apply Z.div_lt_upper_bound; lia.
Qed.

Lemma piece_subpiece_inverse_witness :
  (let! p := evaluate_binary OpBehaviorPiece 3 1 0xab 0xcdef in
   let! a := evaluate_binary OpBehaviorSubpiece 1 3 p 2 in
   let! b := evaluate_binary OpBehaviorSubpiece 2 3 p 0 in Ok (a, b)) = Ok (0xab, 0xcdef).
Proof. apply (piece_subpiece_inverse 1 2 0xab 0xcdef 0); unfold is_u; lia. Defined.

(** ** The instruction table *)

Section Table.
Context {F : Type} `{FloatFormat F}.

(** What a caller of the table gets for an operation. *)
Definition behavior_of (inst : list (option OpBehavior)) (opc : OpCode) : option OpBehavior :=
  mjoin (inst !! opcode_index opc).

(** The table has a slot per operation; every operation except [Blank],
    [Unused1] and the end marker has a behaviour, filed under its own opcode. *)
Theorem build_behaviors_table (formats : list F) : exists inst,
  build_behaviors formats = Ok inst /\ length inst = opcode_index Max /\
  forall opc, match behavior_of inst opc with
              | Some b => behavior_opcode b = opc
              | None => opc = Blank \/ opc = Unused1 \/ opc = Max
              end.
Proof.
  eexists. split; [reflexivity|]. split; [reflexivity|].
  intros opc. destruct opc; cbn; tauto.
Qed.

Definition table (formats : list F) : list (option OpBehavior) :=
  match build_behaviors formats with Ok inst => inst | _ => [] end.

Lemma table_ok (formats : list F) : build_behaviors formats = Ok (table formats).
Proof.
  assert (exists inst, build_behaviors formats = Ok inst) as [inst E] by (eexists; reflexivity).
  unfold table. by rewrite E.
Qed.

(** The behaviours of the integer comparisons and of the two operations
    [get_booleanflip] pairs with them. *)
Lemma table_comparisons (formats : list F) :
  behavior_of (table formats) IntEqual = Some OpBehaviorEqual /\
  behavior_of (table formats) IntNotequal = Some OpBehaviorNotEqual /\
  behavior_of (table formats) IntSless = Some OpBehaviorIntSless /\
  behavior_of (table formats) IntSlessequal = Some OpBehaviorIntSlessEqual /\
  behavior_of (table formats) IntLess = Some OpBehaviorIntLess /\
  behavior_of (table formats) IntLessequal = Some OpBehaviorIntLessEqual /\
  behavior_of (table formats) BoolNegate = Some OpBehaviorBoolNegate /\
  behavior_of (table formats) Copy = Some OpBehaviorCopy.
Proof. repeat split. Qed.

(** Running a behaviour on its operands: unary ones ignore the second. *)
Definition evaluate (b : OpBehavior) (sizeout sizein in1 in2 : Z) : outcome Z :=
  if is_unary b then evaluate_unary b sizeout sizein in1 else evaluate_binary b sizeout sizein in1 in2.

Lemma booleanflip_integer opc opc' swap : get_booleanflip opc = Some (opc', swap) ->
  (opcode_index opc < opcode_index FloatEqual)%nat ->
  (opc, opc', swap) ∈ [(IntEqual, IntNotequal, false); (IntNotequal, IntEqual, false);
    (IntSless, IntSlessequal, true); (IntSlessequal, IntSless, true);
    (IntLess, IntLessequal, true); (IntLessequal, IntLess, true); (BoolNegate, Copy, false)].
Proof. destruct opc; try done; intros [= <- <-] Hi; first [set_solver|cbn in Hi; lia]. Qed.

(** The operation [get_booleanflip] names, applied to the operands (swapped
    when it says so), computes the negation: for the integer comparisons at
    every size, and for the boolean negation on a boolean. *)
Theorem booleanflip_negates (formats : list F) inst opc opc' (swap : bool) b b' size sizeout in1 in2 :
  build_behaviors formats = Ok inst -> get_booleanflip opc = Some (opc', swap) ->
  (opcode_index opc < opcode_index FloatEqual)%nat ->
  behavior_of inst opc = Some b -> behavior_of inst opc' = Some b' ->
  1 <= size <= 8 -> is_u (8 * size) in1 -> is_u (8 * size) in2 -> (opc = BoolNegate -> is_u 1 in1) ->
  exists r, evaluate b sizeout size in1 in2 = Ok (b2z r) /\
    evaluate b' sizeout size (if swap then in2 else in1) (if swap then in1 else in2) = Ok (b2z (negb r)).
Proof.
  intros Hinst Hflip Hint Hb Hb' Hs H1 H2 Hbool.
  assert (inst = table formats) as -> by (unfold table; by rewrite Hinst).
  clear Hinst. pose proof (table_comparisons formats) as E. generalize dependent (table formats).
  intros t Hb Hb' (E1&E2&E3&E4&E5&E6&E7&E8).
  pose proof (booleanflip_integer _ _ _ Hflip Hint) as Hcase. rewrite !elem_of_cons, elem_of_nil in Hcase.
  destruct Hcase as [E|[E|[E|[E|[E|[E|[E|[]]]]]]]]; injection E as -> -> ->;
    rewrite ?E1, ?E2, ?E3, ?E4, ?E5, ?E6, ?E7, ?E8 in Hb; rewrite ?E1, ?E2, ?E3, ?E4, ?E5, ?E6, ?E7, ?E8 in Hb';
    apply (inj Some) in Hb; apply (inj Some) in Hb'; subst b b'; unfold evaluate; cbn [is_unary]; eval_op;
    rewrite ?signed_less_eq by done.
  - eexists; split; [done|]. done.
  - eexists; split; [done|]. by rewrite negb_involutive.
  - eexists; split; [done|]. by rewrite Z.ltb_antisym, negb_involutive.
  - eexists; split; [done|]. by rewrite Z.leb_antisym, negb_involutive.
  - eexists; split; [done|]. by rewrite Z.ltb_antisym, negb_involutive.
  - eexists; split; [done|]. by rewrite Z.leb_antisym, negb_involutive.
  - specialize (Hbool eq_refl). unfold is_u in Hbool. exists (in1 =? 0).
    assert (in1 = 0 \/ in1 = 1) as [-> | ->] by lia; done.
Qed.
End Table.

(** A format table for the witness: one format whose operations are trivial. *)
Definition unit_format : FloatFormat unit := {|
  get_size := fun _ => 4;
  op_equal := fun _ a b => b2z (a =? b);
  op_not_equal := fun _ a b => b2z (negb (a =? b));
  op_less := fun _ a b => b2z (a <? b);
  op_less_equal := fun _ a b => b2z (a <=? b);
  op_nan := fun _ _ => 0;
  op_add := fun _ a _ => a;
  op_div := fun _ a _ => a;
  op_mult := fun _ a _ => a;
  op_sub := fun _ a _ => a;
  op_neg := fun _ a => a;
  op_abs := fun _ a => a;
  op_sqrt := fun _ a => a;
  op_trunc := fun _ a _ => a;
  op_ceil := fun _ a => a;
  op_floor := fun _ a => a;
  op_round := fun _ a => a;
  op_int2float := fun _ a _ => a;
  op_float2float := fun _ a _ => a;
|}.

(** -1 < 1 on bytes, and not 1 <= -1. *)
Lemma booleanflip_negates_witness : exists r,
  evaluate OpBehaviorIntSless 1 1 0xff 1 = Ok (b2z r) /\
  evaluate OpBehaviorIntSlessEqual 1 1 1 0xff = Ok (b2z (negb r)).
Proof.
  destruct (@table_comparisons unit unit_format [tt]) as (_ & _ & E3 & E4 & _).
  apply (@booleanflip_negates unit unit_format [tt] (@table unit unit_format [tt])
           IntSless IntSlessequal true OpBehaviorIntSless OpBehaviorIntSlessEqual 1 1 0xff 1);
    [apply table_ok | reflexivity | simpl; lia | exact E3 | exact E4
    | lia | unfold is_u; lia | unfold is_u; lia | discriminate].
Defined.
