(* ===== verification/CircleRange.v ===== *)
(** [CircleRange] of [src/src/rangeutil.rs]: a set of machine values given as an
    arc of the circle of integers modulo [mask + 1], with a stride.  The methods
    that change the range in place return the changed range (with the method's
    own result).  The remainders the source takes by [step] panic on a zero step;
    only the empty range made by [new] has one, and every statement below is
    about ranges with a positive step ([circle_wf]). *)
From stdpp Require Import base list numbers strings.
From Stdlib Require Import ZArith Lia Ascii.
From S2P Require Import Prelude Bits Opcodes.

(** ** Definitions *)

Record CircleRange : Type := mk_CircleRange {
  left : Z;
  right : Z;
  mask : Z;
  isempty : bool;
  step : Z;
}.

Definition step_value (stp : Z) : Z := u64 (i64 stp).

Definition ARRANGE : string := "gcgbegdagggggggeggggcgbggggggggcdfgggggggegdggggbgggfggggcgbegda".

Definition circle_new : CircleRange := mk_CircleRange 0 0 0 true 0.

Definition new_range (lft rgt size stp : Z) : CircleRange :=
  let m := calc_mask size in
  mk_CircleRange (Z.land lft m) (Z.land rgt m) m false stp.

Definition new_bool (val : bool) : CircleRange :=
  mk_CircleRange (if val then 1 else 0) (b2z val + 1) 0xff false 1.

Definition new_single (val size : Z) : CircleRange :=
  let m := calc_mask size in
  mk_CircleRange val (Z.land (u64 (val + 1)) m) m false 1.

(** Field updates. *)
Definition with_left (r : CircleRange) (l : Z) := mk_CircleRange l (right r) (mask r) (isempty r) (step r).
Definition with_right (r : CircleRange) (x : Z) := mk_CircleRange (left r) x (mask r) (isempty r) (step r).
Definition with_arc (r : CircleRange) (l x : Z) := mk_CircleRange l x (mask r) (isempty r) (step r).
Definition with_mask (r : CircleRange) (m : Z) := mk_CircleRange (left r) (right r) m (isempty r) (step r).
Definition with_empty (r : CircleRange) (e : bool) := mk_CircleRange (left r) (right r) (mask r) e (step r).
Definition with_step (r : CircleRange) (s : Z) := mk_CircleRange (left r) (right r) (mask r) (isempty r) s.

Definition normalize (r : CircleRange) : CircleRange :=
  if left r =? right r then
    let l := if negb (step r =? 1) then left r mod step_value (step r) else 0 in
    with_arc r l l
  else r.

Definition complement (r : CircleRange) : CircleRange :=
  if isempty r then mk_CircleRange 0 0 (mask r) false (step r)
  else if left r =? right r then with_empty r true
  else with_arc r (right r) (left r).

Definition contains (r : CircleRange) (val : Z) : bool :=
  if isempty r then false
  else if negb (step r =? 1) && negb (left r mod step_value (step r) =? val mod step_value (step r)) then false
  else if left r <? right r then
    if val <? left r then false
    else if right r <=? val then false
    else true
  else if right r <? left r then
    if val <? right r then true
    else if val >=? left r then true
    else false
  else true.

Definition convert_to_boolean (r : CircleRange) : CircleRange * bool :=
  if isempty r then (r, false) else
  let contains_zero := contains r 0 in
  let contains_one := contains r 1 in
  let r := mk_CircleRange (left r) (right r) 0xff (isempty r) 1 in
  if contains_zero && contains_one then (mk_CircleRange 0 2 (mask r) false (step r), true)
  else if contains_zero then (mk_CircleRange 0 1 (mask r) false (step r), false)
  else if contains_one then (mk_CircleRange 1 2 (mask r) false (step r), false)
  else (with_empty r true, false).

(** [new_stride] and [new_domain] return the new ends and whether the range
    became empty. *)
Definition new_stride (msk stp old_step rem myleft myright : Z) : bool * Z * Z :=
  if negb (old_step =? 1) && negb (u32 (myleft mod step_value old_step) =? rem mod u32 old_step)
  then (true, myleft, myright) else
  let orig_order := myleft <? myright in
  let left_rem := u32 (myleft mod step_value stp) in
  let right_rem := u32 (myright mod step_value stp) in
  let myleft :=
    if left_rem >? rem then u64 (myleft + u32 (u32 (rem + u32 stp) - left_rem))
    else u64 (myleft + u32 (rem - left_rem)) in
  let myright :=
    if right_rem >? rem then u64 (myright + u32 (u32 (rem + u32 stp) - right_rem))
    else u64 (myright + u32 (rem - right_rem)) in
  let myleft := Z.land myleft msk in
  let myright := Z.land myright msk in
  let new_order := myleft <? myright in
  (negb (Bool.eqb orig_order new_order), myleft, myright).

Definition new_domain (new_mask new_step myleft myright : Z) : bool * Z * Z :=
  let rem := if negb (new_step =? 1) then myleft mod step_value new_step else 0 in
  if (myleft >? new_mask) && (myright >? new_mask) then
    if myleft <? myright then (true, myleft, myright) else (false, rem, rem)
  else
    let myleft := if myleft >? new_mask then rem else myleft in
    let myright := if myright >? new_mask then rem else myright in
    if myleft =? myright then (false, rem, rem) else (false, myleft, myright).

Definition overlap_bits (op1left op1right op2left op2right : Z) : Z :=
  let val := if op1left <=? op1right then 0x20 else 0 in
  let val := Z.lor val (if op1left <=? op2left then 0x10 else 0) in
  let val := Z.lor val (if op1left <=? op2right then 0x8 else 0) in
  let val := Z.lor val (if op1right <=? op2left then 4 else 0) in
  let val := Z.lor val (if op1right <=? op2right then 2 else 0) in
  Z.lor val (if op2left <=? op2right then 1 else 0).

Definition encode_range_overlaps (op1left op1right op2left op2right : Z) : ascii :=
  default "g"%char (String.get (Z.to_nat (overlap_bits op1left op1right op2left op2right)) ARRANGE).

Definition set_range (lft rgt size stp : Z) : CircleRange :=
  let m := calc_mask size in mk_CircleRange (Z.land lft m) (Z.land rgt m) m false stp.

Definition set_range_single (val size : Z) : CircleRange :=
  let m := calc_mask size in mk_CircleRange val (Z.land (u64 (val + 1)) m) m false 1.

Definition set_full (size : Z) : CircleRange := mk_CircleRange 0 0 (calc_mask size) false 1.

Definition is_full (r : CircleRange) : bool := negb (isempty r) && (step r =? 1) && (left r =? right r).

Definition is_single (r : CircleRange) : bool :=
  negb (isempty r) && (right r =? Z.land (u64 (left r + step_value (step r))) (mask r)).

Definition get_min (r : CircleRange) : Z := left r.
Definition get_max (r : CircleRange) : Z := Z.land (u64 (right r - step_value (step r))) (mask r).
Definition get_end (r : CircleRange) : Z := right r.

Definition get_size (r : CircleRange) : Z :=
  if isempty r then 0 else
  let stp := step_value (step r) in
  if left r <? right r then u64 (right r - left r) / stp
  else
    let val := u64 (u64 (mask r - u64 (left r - right r)) + stp) / stp in
    if val =? 0 then
      if step r >? 1 then u64 (mask r / stp + 1) else mask r
    else val.

Definition get_max_info (r : CircleRange) : Z :=
  let half_point := Z.lxor (mask r) (Z.shiftr (mask r) 1) in
  if contains r half_point then i32 (64 - count_leading_zeros half_point) else
  let size_left :=
    if Z.land half_point (left r) =? 0 then count_leading_zeros (left r)
    else count_leading_zeros (Z.land (not64 (left r)) (mask r)) in
  let size_right :=
    if Z.land half_point (right r) =? 0 then count_leading_zeros (right r)
    else count_leading_zeros (Z.land (not64 (right r)) (mask r)) in
  i32 (64 - (if size_right <? size_left then size_right else size_left)).

(** [get_next] advances [val] and says whether it is still inside. *)
Definition get_next (r : CircleRange) (val : Z) : Z * bool :=
  let val := Z.land (u64 (val + step_value (step r))) (mask r) in
  (val, negb (val =? right r)).

Definition contains_range (r op2 : CircleRange) : bool :=
  if isempty r then isempty op2
  else if isempty op2 then true
  else if (step r >? step op2) && negb (is_single op2) then false
  else if left r =? right r then true
  else if left op2 =? right op2 then false
  else if negb (left r mod step_value (step r) =? left op2 mod step_value (step r)) then false
  else if (left r =? left op2) && (right r =? right op2) then true
  else
    let overlap_code := encode_range_overlaps (left r) (right r) (left op2) (right op2) in
    if decide (overlap_code = "c"%char) then true
    else if bool_decide (overlap_code = "b"%char) && (right r =? right op2) then true
    else false.

(** The last part of [intersect], on arcs of the same step and domain: the new
    range, whose mask and step are then set, or [None] for "two pieces". *)
Definition intersect_arcs (r : CircleRange) (myleft myright op2left op2right : Z) : option CircleRange :=
  if myleft =? myright then Some (with_arc r op2left op2right)
  else if op2left =? op2right then Some (with_arc r myleft myright)
  else
    let overlap_code := encode_range_overlaps myleft myright op2left op2right in
    if decide (overlap_code = "a"%char \/ overlap_code = "f"%char) then Some (with_empty r true)
    else if decide (overlap_code = "b"%char) then
      let r := with_arc r op2left myright in
      Some (if left r =? right r then with_empty r true else r)
    else if decide (overlap_code = "c"%char) then Some (with_arc r op2left op2right)
    else if decide (overlap_code = "d"%char) then Some (with_arc r myleft myright)
    else if decide (overlap_code = "e"%char) then
      let r := with_arc r myleft op2right in
      Some (if left r =? right r then with_empty r true else r)
    else if decide (overlap_code = "g"%char) then
      if myleft =? op2right then
        let r := with_arc r op2left myright in
        Some (if left r =? right r then with_empty r true else r)
      else if op2left =? myright then
        let r := with_arc r myleft op2right in
        Some (if left r =? right r then with_empty r true else r)
      else None
    else None.

Definition intersect (r op2 : CircleRange) : CircleRange * Z :=
  if isempty r then (r, 0)
  else if isempty op2 then (with_empty r true, 0)
  else
    let '(empty1, new_step, myleft, myright, op2left, op2right) :=
      if step r <? step op2 then
        let rem := u32 (left op2 mod step_value (step op2)) in
        let '(e, l, x) := new_stride (mask r) (step op2) (step r) rem (left r) (right r) in
        (e, step op2, l, x, left op2, right op2)
      else if step op2 <? step r then
        let rem := u32 (left r mod step_value (step r)) in
        let '(e, l, x) := new_stride (mask op2) (step r) (step op2) rem (left op2) (right op2) in
        (e, step r, left r, right r, l, x)
      else (false, step r, left r, right r, left op2, right op2) in
    if (empty1 : bool) then (with_empty r true, 0) else
    let new_mask := Z.land (mask r) (mask op2) in
    let '(empty2, myleft, myright, op2left, op2right) :=
      if negb (mask r =? new_mask) then
        let '(e, l, x) := new_domain new_mask new_step myleft myright in (e, l, x, op2left, op2right)
      else if negb (mask op2 =? new_mask) then
        let '(e, l, x) := new_domain new_mask new_step op2left op2right in (e, myleft, myright, l, x)
      else (false, myleft, myright, op2left, op2right) in
    if (empty2 : bool) then (with_empty r true, 0) else
    match intersect_arcs r myleft myright op2left op2right with
    | None => (r, 2)
    | Some r' => (with_step (with_mask r' new_mask) new_step, 0)
    end.

Definition set_nz_mask (r : CircleRange) (nzmask size : Z) : CircleRange * bool :=
  let trans := bit_transitions nzmask size in
  if trans >? 2 then (r, false) else
  let hasstep := Z.land nzmask 1 =? 0 in
  if negb hasstep && (trans =? 2) then (r, false) else
  if trans =? 0 then
    (mk_CircleRange 0 (if hasstep then 1 else 0) (calc_mask size) false 1, true)
  else
    let shift := leastsigbit_set nzmask in
    let stp := i32 (Z.shiftl 1 (u32 shift mod 32)) in
    let m := calc_mask size in
    (mk_CircleRange 0 (Z.land (u64 (nzmask + step_value stp)) m) m false stp, true).

(** The last part of [circle_union], on proper arcs of one stride: the new ends,
    or the status it returns without them. *)
Definition union_arc (l a_right ol b_right rem : Z) : (Z * Z) + Z :=
  let overlap_code := encode_range_overlaps l a_right ol b_right in
  if decide (overlap_code = "a"%char \/ overlap_code = "f"%char) then
    if a_right =? ol then inl (l, b_right)
    else if l =? b_right then inl (ol, a_right)
    else inr 2
  else if decide (overlap_code = "b"%char) then inl (l, b_right)
  else if decide (overlap_code = "c"%char) then inl (l, a_right)
  else if decide (overlap_code = "d"%char) then inl (ol, b_right)
  else if decide (overlap_code = "e"%char) then inl (ol, a_right)
  else if decide (overlap_code = "g"%char) then inl (rem, rem)
  else inr (-1).

(** The common stride: a single element takes the stride of the other range. *)
Definition union_stride (r op2 : CircleRange) : option (Z * Z * Z) :=
  if step r <? step op2 then
    if is_single r then
      Some (Z.land (u64 (left r + step_value (step op2))) (mask r), right op2, step op2)
    else None
  else if step op2 <? step r then
    if is_single op2 then
      Some (right r, Z.land (u64 (left op2 + step_value (step r))) (mask r), step r)
    else None
  else Some (right r, right op2, step r).

Definition circle_union (r op2 : CircleRange) : CircleRange * Z :=
  if isempty op2 then (r, 0)
  else if isempty r then (op2, 0)
  else if negb (mask r =? mask op2) then (r, 2)
  else
    match union_stride r op2 with
    | None => (r, 2)
    | Some (a_right, b_right, new_step) =>
        let rem := if negb (new_step =? 1) then left r mod step_value new_step else 0 in
        if negb (new_step =? 1) && negb (rem =? left op2 mod step_value new_step) then (r, 2)
        else if (left r =? a_right) || (left op2 =? b_right) then (with_step (with_arc r rem rem) new_step, 0)
        else
          match union_arc (left r) a_right (left op2) b_right rem with
          | inl (l, x) => (with_step (with_arc r l x) new_step, 0)
          | inr status => (r, status)
          end
    end.

Definition minimal_container (r op2 : CircleRange) (max_step : Z) : CircleRange * bool :=
  let singles :=
    if is_single r && is_single op2 then
      let (min, max) := if get_min r <? get_min op2 then (get_min r, get_min op2) else (get_min op2, get_min r) in
      let diff := u64 (max - min) in
      if (diff >? 0) && (diff <=? step_value max_step) && (leastsigbit_set diff =? mostsigbit_set diff) then
        Some (mk_CircleRange min (Z.land (u64 (max + step_value (i32 diff))) (mask r)) (mask r) (isempty r) (i32 diff))
      else None
    else None in
  match singles with
  | Some r => (r, false)
  | None =>
      let a_right := u64 (u64 (right r - step_value (step r)) + 1) in
      let b_right := u64 (u64 (right op2 - step_value (step op2)) + 1) in
      let r := with_mask (with_step r 1) (Z.lor (mask r) (mask op2)) in
      let overlap_code := encode_range_overlaps (left r) a_right (left op2) b_right in
      let r :=
        if decide (overlap_code = "a"%char) then
          let vacant_size1 := u64 (u64 (left r + u64 (mask r - b_right)) + 1) in
          let vacant_size2 := u64 (left op2 - a_right) in
          if vacant_size1 <? vacant_size2 then with_arc r (left op2) a_right else with_right r b_right
        else if decide (overlap_code = "f"%char) then
          let vacant_size1 := u64 (u64 (left op2 + u64 (mask r - a_right)) + 1) in
          let vacant_size2 := u64 (left r - b_right) in
          if vacant_size1 <? vacant_size2 then with_right r b_right else with_arc r (left op2) a_right
        else if decide (overlap_code = "b"%char) then with_right r b_right
        else if decide (overlap_code = "c"%char) then with_right r a_right
        else if decide (overlap_code = "d"%char) then with_arc r (left op2) b_right
        else if decide (overlap_code = "e"%char) then with_arc r (left op2) a_right
        else if decide (overlap_code = "g"%char) then with_arc r 0 0
        else r in
      let r := normalize r in
      (r, left r =? right r)
  end.

Definition invert (r : CircleRange) : CircleRange * Z := (complement (with_step r 1), step r).

Definition set_stride (r : CircleRange) (new_step rem : Z) : CircleRange :=
  let iseverything := negb (isempty r) && (left r =? right r) in
  if new_step =? step r then r else
  let a_right := u64 (right r - step_value (step r)) in
  let r := with_step r new_step in
  if step r =? 1 then r else
  let stp := step_value (step r) in
  let cur_rem := left r mod stp in
  let lft := u64 (u64 (left r - cur_rem) + rem) in
  let cur_rem := a_right mod stp in
  let a_right := u64 (u64 (a_right - cur_rem) + rem) in
  let r := with_arc r lft (u64 (a_right + stp)) in
  if negb iseverything && (left r =? right r) then with_empty r true else r.

Definition pull_back_unary (r : CircleRange) (opc : OpCode) (in_size out_size : Z) : CircleRange * bool :=
  if isempty r then (r, true) else
  let stp := step_value (step r) in
  match opc with
  | BoolNegate =>
      let (r, both) := convert_to_boolean r in
      if (both : bool) then (r, true) else
      let r := with_left r (Z.lxor (left r) 1) in
      (with_right r (u64 (left r + 1)), true)
  | Copy => (r, true)
  | Int2comp =>
      let val := Z.land (u64 (u64 (not64 (left r) + 1) + stp)) (mask r) in
      let lft := Z.land (u64 (u64 (not64 (right r) + 1) + stp)) (mask r) in
      (with_arc r lft val, true)
  | IntNegate =>
      let val := Z.land (u64 (not64 (left r) + stp)) (mask r) in
      let lft := Z.land (u64 (not64 (right r) + stp)) (mask r) in
      (with_arc r lft val, true)
  | IntZext =>
      let val := calc_mask in_size in
      let rem := left r mod stp in
      let zextrange := mk_CircleRange rem (u64 (u64 (val + 1) + rem)) (mask r) false (step r) in
      let (r, ret) := intersect r zextrange in
      if negb (ret =? 0) then (r, false)
      else (mk_CircleRange (Z.land (left r) val) (Z.land (right r) val) (Z.land (mask r) val) (isempty r) (step r), true)
  | IntSext =>
      let val := calc_mask in_size in
      let rem := Z.land (left r) stp in
      let lft := u64 (Z.lxor val (Z.shiftr val 1) + rem) in
      let sextrange := mk_CircleRange lft (sign_extend_size lft in_size out_size) (mask r) false (step r) in
      let (sextrange, ret) := intersect sextrange r in
      if negb (ret =? 0) || negb (isempty sextrange) then (r, false)
      else (mk_CircleRange (Z.land (left r) val) (Z.land (right r) val) (Z.land (mask r) val) (isempty r) (step r), true)
  | _ => (r, false)
  end.

(** The common frame of the comparisons of [pull_back_binary]: reduce the output
    to a boolean, move to the input's domain, set the true side ([None] when no
    input is true), complement it when the output is false. *)
Definition pull_back_compare (r : CircleRange) (in_size : Z) (true_side : Z -> option (Z * Z)) : CircleRange :=
  let (r, both_true_false) := convert_to_boolean r in
  let r := with_mask r (calc_mask in_size) in
  if (both_true_false : bool) then r else
  let yescomplement := left r =? 0 in
  let r :=
    match true_side (mask r) with
    | None => with_empty r true
    | Some (l, x) => with_arc r l x
    end in
  if yescomplement then complement r else r.

Definition pull_back_binary (r : CircleRange) (opc : OpCode) (val slot in_size out_size : Z) : CircleRange * bool :=
  if isempty r then (r, true) else
  match opc with
  | IntEqual => (pull_back_compare r in_size (fun m => Some (val, Z.land (u64 (val + 1)) m)), true)
  | IntNotequal => (pull_back_compare r in_size (fun m => Some (Z.land (u64 (val + 1)) m, val)), true)
  | IntLess => (pull_back_compare r in_size (fun m =>
      if slot =? 0 then if val =? 0 then None else Some (0, val)
      else if val =? m then None else Some (Z.land (u64 (val + 1)) m, 0)), true)
  | IntLessequal => (pull_back_compare r in_size (fun m =>
      if slot =? 0 then Some (0, Z.land (u64 (val + 1)) m) else Some (val, 0)), true)
  | IntSless => (pull_back_compare r in_size (fun m =>
      if slot =? 0 then
        if val =? u64 (Z.shiftr m 1 + 1) then None else Some (u64 (Z.shiftr m 1 + 1), val)
      else if val =? Z.shiftr m 1 then None
      else Some (Z.land (u64 (val + 1)) m, u64 (Z.shiftr m 1 + 1))), true)
  | IntSlessequal => (pull_back_compare r in_size (fun m =>
      if slot =? 0 then Some (u64 (Z.shiftr m 1 + 1), Z.land (u64 (val + 1)) m)
      else Some (val, u64 (Z.shiftr m 1 + 1))), true)
  | IntCarry => (pull_back_compare r in_size (fun m =>
      if val =? 0 then None else Some (Z.land (u64 (u64 (m - val) + 1)) m, 0)), true)
  | IntAdd => (with_arc r (Z.land (u64 (left r - val)) (mask r)) (Z.land (u64 (right r - val)) (mask r)), true)
  | IntSub =>
      if slot =? 0 then
        (with_arc r (Z.land (u64 (left r + val)) (mask r)) (Z.land (u64 (right r + val)) (mask r)), true)
      else
        (with_arc r (Z.land (u64 (val - left r)) (mask r)) (Z.land (u64 (val - right r)) (mask r)), true)
  | IntRight =>
      if negb (step r =? 1) then (r, false) else
      let right_bound := u64 (shr64 (calc_mask in_size) (u32 val) + 1) in
      if ((left r >=? right_bound) && (right r >=? right_bound) && (left r >=? right r))
         || ((left r =? 0) && (right r >=? right_bound)) || (left r =? right r)
      then (with_arc r 0 0, true)
      else
        let lft := if left r >? right_bound then right_bound else left r in
        let rgt := if right r >? right_bound then 0 else right r in
        let r := with_arc r (Z.land (shl64 lft (u32 val)) (mask r)) (Z.land (shl64 rgt (u32 val)) (mask r)) in
        (if left r =? right r then with_empty r true else r, true)
  | IntSright =>
      if negb (step r =? 1) then (r, false) else
      let rightb := calc_mask in_size in
      let leftb := shr64 rightb (u32 (u64 (val + 1))) in
      let rightb := Z.lxor rightb leftb in
      let leftb := u64 (leftb + 1) in
      if ((left r >=? leftb) && (left r <=? rightb) && (right r >=? leftb) && (right r <=? rightb)
          && (left r >=? right r)) || (left r =? right r)
      then (with_arc r 0 0, true)
      else
        let lft := if (left r >? leftb) && (left r <? rightb) then leftb else left r in
        let rgt := if (right r >? leftb) && (right r <? rightb) then rightb else right r in
        let r := with_arc r (Z.land (shl64 lft (u32 val)) (mask r)) (Z.land (shl64 rgt (u32 val)) (mask r)) in
        (if left r =? right r then with_empty r true else r, true)
  | _ => (r, false)
  end.

Definition widen (r op2 : CircleRange) (left_is_stable : bool) : CircleRange :=
  let r :=
    if left_is_stable then
      let stp := step_value (step r) in
      let lmod := left r mod stp in
      let modulus := right op2 mod stp in
      let rgt :=
        if modulus <=? lmod then u64 (right op2 + u64 (lmod - modulus))
        else u64 (right op2 - u64 (modulus - lmod)) in
      with_right r (Z.land rgt (mask r))
    else with_left r (Z.land (left op2) (mask r)) in
  normalize r.

(** [translate2_op]: the status and, when it is 0, the comparison, its constant
    and the constant's slot. *)
Definition translate2_op (r : CircleRange) : Z * option (OpCode * Z * Z) :=
  if isempty r then (3, None)
  else if negb (step r =? 1) then (2, None)
  else if right r =? Z.land (u64 (left r + 1)) (mask r) then (0, Some (IntEqual, left r, 0))
  else if left r =? Z.land (u64 (right r + 1)) (mask r) then (0, Some (IntNotequal, right r, 0))
  else if left r =? right r then (1, None)
  else if left r =? 0 then (0, Some (IntLess, right r, 1))
  else if right r =? 0 then (0, Some (IntLess, Z.land (u64 (left r - 1)) (mask r), 0))
  else if left r =? u64 (Z.shiftr (mask r) 1 + 1) then (0, Some (IntSless, right r, 1))
  else if right r =? u64 (Z.shiftr (mask r) 1 + 1) then (0, Some (IntSless, Z.land (u64 (left r - 1)) (mask r), 0))
  else (2, None).

Definition circle_eq (r op2 : CircleRange) : bool :=
  if negb (Bool.eqb (isempty r) (isempty op2)) then false
  else if isempty r then true
  else (left r =? left op2) && (right r =? right op2) && (mask r =? mask op2) && (step r =? step op2).

(** ** Arcs *)

(** Membership in the arc from [l] up to, but not including, [x]. *)
Definition arc (l x v : Z) : bool :=
  if l <? x then (l <=? v) && (v <? x) else if x <? l then (v <? x) || (l <=? v) else true.

Definition same_residue (stp a b : Z) : bool := (stp =? 1) || (a mod step_value stp =? b mod step_value stp).

Lemma contains_eq r v :
  contains r v = negb (isempty r) && same_residue (step r) (left r) v && arc (left r) (right r) v.
Proof.
  unfold contains, same_residue, arc. destruct (isempty r); [done|]. cbn [negb andb].
  rewrite Z.geb_leb. destruct (Z.eqb_spec (step r) 1); cbn [negb andb orb].
  - destruct (Z.ltb_spec (left r) (right r)), (Z.ltb_spec (right r) (left r)), (Z.ltb_spec v (left r)),
      (Z.leb_spec (right r) v), (Z.leb_spec (left r) v), (Z.ltb_spec v (right r)); try done; lia.
  - destruct (_ =? _); cbn [negb andb]; [|done].
    destruct (Z.ltb_spec (left r) (right r)), (Z.ltb_spec (right r) (left r)), (Z.ltb_spec v (left r)),
      (Z.leb_spec (right r) v), (Z.leb_spec (left r) v), (Z.ltb_spec v (right r)); try done; lia.
Qed.

(** The value range, the stride and the ends fit together. *)
Definition circle_wf (n : Z) (r : CircleRange) : Prop :=
  0 < n <= 64 /\ mask r = 2 ^ n - 1 /\ 0 <= left r < 2 ^ n /\ 0 <= right r < 2 ^ n /\
  1 <= step r < 2 ^ 31 /\ (step r | 2 ^ n) /\ (step r | left r - right r).

Definition circle_wfb (n : Z) (r : CircleRange) : bool :=
  (0 <? n) && (n <=? 64) && (mask r =? 2 ^ n - 1) && (0 <=? left r) && (left r <? 2 ^ n) &&
  (0 <=? right r) && (right r <? 2 ^ n) && (1 <=? step r) && (step r <? 2 ^ 31) &&
  (2 ^ n mod step r =? 0) && ((left r - right r) mod step r =? 0).

Lemma circle_wfb_ok n r : circle_wfb n r = true -> circle_wf n r.
Proof.
  unfold circle_wfb, circle_wf. intros H. repeat (apply andb_true_iff in H as [H ?]).
  repeat match goal with
  | E : (_ <=? _) = true |- _ => apply Z.leb_le in E
  | E : (_ <? _) = true |- _ => apply Z.ltb_lt in E
  | E : (_ =? _) = true |- _ => apply Z.eqb_eq in E
  end. repeat split; try lia; apply Z.mod_divide; lia.
Qed.

Lemma step_value_eq stp : 1 <= stp < 2 ^ 31 -> step_value stp = stp.
Proof. intros. unfold step_value. rewrite sw_small by (unfold is_s; lia). apply u64_small. lia. Qed.

Lemma mod_eq_divide a b s : 0 < s -> a mod s = b mod s <-> (s | a - b).
Proof.
  intros Hs. rewrite <- Z.mod_divide by lia. split; intros E.
  - by rewrite Zminus_mod, E, Z.sub_diag.
  - apply Z.mod_divide in E; [|lia]. destruct E as [k E]. replace a with (b + k * s) by lia. apply Z.mod_add. lia.
Qed.

Lemma same_residue_divide stp a b : 1 <= stp < 2 ^ 31 -> same_residue stp a b = true <-> (stp | a - b).
Proof.
  intros Hs. unfold same_residue. rewrite step_value_eq, orb_true_iff, !Z.eqb_eq, mod_eq_divide by lia.
  split; [intros [->|?]; [apply Z.divide_1_l|done]|by right].
Qed.

Lemma same_residue_trans stp a b v : 1 <= stp < 2 ^ 31 -> (stp | a - b) ->
  same_residue stp a v = same_residue stp b v.
Proof.
  intros Hs Hab. apply eq_true_iff_eq. rewrite !same_residue_divide by done. split; intros Hv.
  - replace (b - v) with ((a - v) - (a - b)) by lia. by apply Z.divide_sub_r.
  - replace (a - v) with ((b - v) + (a - b)) by lia. by apply Z.divide_add_r.
Qed.

(** Decides the six comparisons behind an overlap code. *)
Ltac overlap_cases a b c d :=
  unfold encode_range_overlaps, overlap_bits;
  destruct (Z.leb_spec a b), (Z.leb_spec a c), (Z.leb_spec a d), (Z.leb_spec b c), (Z.leb_spec b d), (Z.leb_spec c d);
  try lia;
  match goal with |- context [String.get ?k ?s] =>
    let x := eval vm_compute in (String.get k s) in change (String.get k s) with x end; cbn [default from_option id].

(** Follows the branch of a concrete overlap code. *)
Ltac follow_code E :=
  repeat match type of E with context [decide ?P] =>
    first [rewrite (decide_False (P := P)) in E by (intuition discriminate)
          |rewrite (decide_True (P := P)) in E by intuition] end.

Ltac arc_cases :=
  unfold arc; repeat match goal with
  | |- context [?a <? ?b] => destruct (Z.ltb_spec a b); try lia
  | |- context [?a <=? ?b] => destruct (Z.leb_spec a b); try lia
  end; try done; try lia.

Lemma intersect_arcs_spec r ml mr ol or_ r' v : isempty r = false ->
  intersect_arcs r ml mr ol or_ = Some r' ->
  mask r' = mask r /\ step r' = step r /\ (isempty r' = false -> left r' = ml \/ left r' = ol) /\
  negb (isempty r') && arc (left r') (right r') v = arc ml mr v && arc ol or_ v.
Proof.
  intros He. unfold intersect_arcs.
  destruct (Z.eqb_spec ml mr) as [->|N1].
  { intros [= <-]. cbn. rewrite He. split; [done|]. split; [done|]. split; [by right|]. unfold arc at 2.
    by rewrite Z.ltb_irrefl. }
  destruct (Z.eqb_spec ol or_) as [->|N2].
  { intros [= <-]. cbn. rewrite He. split; [done|]. split; [done|]. split; [by left|]. unfold arc at 3.
    by rewrite Z.ltb_irrefl, andb_true_r. }
  overlap_cases ml mr ol or_; intros E; follow_code E; cbn [with_arc left right] in E;
    repeat match type of E with context [?a =? ?b] => destruct (Z.eqb_spec a b); try lia end;
    try discriminate E; injection E as <-; cbn [mask step isempty left right with_arc with_empty]; rewrite ?He;
    (split; [done|]; split; [done|]; split; [auto|]); arc_cases.
Qed.

Lemma mask_range n m : 0 < n -> m = 2 ^ n - 1 -> m = Z.ones n.
Proof. intros Hn ->. rewrite Z.ones_equiv. lia. Qed.

Lemma land_mask n z m : 0 < n -> m = 2 ^ n - 1 -> Z.land z m = uw n z.
Proof. intros Hn ->%mask_range; [|done]. apply land_ones_uw. lia. Qed.

Lemma land_mask_u64 n z m : 0 < n <= 64 -> m = 2 ^ n - 1 -> Z.land (u64 z) m = uw n z.
Proof. intros Hn ->%(land_mask n (u64 z)); [|lia]. apply uw_idem. lia. Qed.

(** Intersecting two ranges of one domain, stride and residue is exact whenever
    the method reports success. *)
Lemma intersect_same n r op2 r' v : circle_wf n r -> circle_wf n op2 ->
  isempty r = false -> isempty op2 = false -> step r = step op2 -> (step r | left r - left op2) ->
  intersect r op2 = (r', 0) -> contains r' v = contains r v && contains op2 v.
Proof.
  intros (Hn & Hm1 & _ & _ & Hs1 & _) (_ & Hm2 & _ & _ & Hs2 & _) He1 He2 Es Hres. unfold intersect.
  rewrite He1, He2, <- Es, Z.ltb_irrefl, Hm2, <- Hm1, Z.land_diag, Z.eqb_refl. cbn [negb].
  destruct (intersect_arcs r (left r) (right r) (left op2) (right op2)) as [q|] eqn:E; [|done].
  intros [= <-]. destruct (intersect_arcs_spec _ _ _ _ _ _ v He1 E) as (_ & _ & Hl & Ha).
  rewrite !contains_eq. cbn [isempty step left right with_step with_mask]. rewrite He1, He2, <- Es. cbn [negb andb].
  rewrite <- (same_residue_trans (step r) (left r) (left op2)) by done.
  destruct (isempty q); cbn [negb andb] in *.
  - rewrite <- andb_assoc, (andb_comm (arc _ _ _)), <- !andb_assoc, (andb_comm (arc (left op2) _ _)), <- Ha.
    by rewrite !andb_false_r.
  - assert (same_residue (step r) (left q) v = same_residue (step r) (left r) v) as ->.
    { destruct Hl as [-> | ->]; [done|done|]. symmetry. by apply same_residue_trans. }
    rewrite Ha. destruct (same_residue _ _ _), (arc (left r) _ _), (arc (left op2) _ _); done.
Qed.

Lemma divide_small s d : 0 < s -> (s | d) -> - s < d < s -> d = 0.
Proof. intros Hs [k ->] Hd. assert (k = 0) by nia. lia. Qed.

Lemma single_arc n s l v : 0 < n <= 64 -> 1 <= s < 2 ^ 31 -> (s | 2 ^ n) -> 0 <= l < 2 ^ n -> 0 <= v < 2 ^ n ->
  same_residue s l v && arc l (uw n (l + s)) v = (v =? l).
Proof.
  intros Hn Hs Hd Hl Hv. pose proof (Z.divide_pos_le s (2 ^ n) ltac:(lia) Hd) as Hle.
  assert (Hr : uw n (l + s) = if l + s <? 2 ^ n then l + s else l + s - 2 ^ n).
  { unfold uw. destruct (Z.ltb_spec (l + s) (2 ^ n)); [apply Z.mod_small; lia|].
    symmetry. apply Z.mod_unique_pos with 1; lia. }
  apply eq_true_iff_eq. rewrite andb_true_iff, same_residue_divide, Z.eqb_eq by done. rewrite Hr. split.
  - intros [Hdv Ha]. destruct (Z.ltb_spec (l + s) (2 ^ n)).
    + assert (l - v = 0); [|lia]. apply (divide_small s); [lia|done|]. revert Ha. arc_cases.
    + destruct (Z.lt_ge_cases v l).
      * assert (l - v - 2 ^ n = 0); [|lia]. apply (divide_small s); [lia|by apply Z.divide_sub_r|].
        revert Ha. arc_cases.
      * assert (l - v = 0); [|lia]. apply (divide_small s); [lia|done|]. lia.
  - intros ->. split; [rewrite Z.sub_diag; apply Z.divide_0_r|]. destruct (Z.ltb_spec (l + s) (2 ^ n)); arc_cases.
Qed.

Lemma single_contains n r v : circle_wf n r -> is_single r = true -> 0 <= v < 2 ^ n ->
  contains r v = (v =? left r).
Proof.
  intros (Hn & Hm & Hl & Hr & Hs & Hd & _) Hsg Hv. unfold is_single in Hsg.
  apply andb_true_iff in Hsg as [He Er%Z.eqb_eq]. rewrite step_value_eq, (land_mask_u64 n) in Er by done.
  rewrite contains_eq, He, Er. cbn [andb]. by apply (single_arc n).
Qed.

Lemma union_arc_spec l ar ol br rem l' x' v : l <> ar -> ol <> br ->
  union_arc l ar ol br rem = inl (l', x') ->
  (l' = l \/ l' = ol \/ l' = rem) /\ arc l' x' v = arc l ar v || arc ol br v.
Proof.
  intros N1 N2. unfold union_arc. overlap_cases l ar ol br; intros E; follow_code E;
    repeat match type of E with context [?a =? ?b] => destruct (Z.eqb_spec a b); try lia end;
    try discriminate E; injection E as <- <-; (split; [auto|]); arc_cases.
Qed.

Lemma union_arc_status l ar ol br rem st : union_arc l ar ol br rem = inr st -> st = 2 \/ st = -1.
Proof. unfold union_arc. repeat (case_decide || destruct (_ =? _)); naive_solver. Qed.

(** The ends and the stride after the single-element adjustment describe the
    same sets. *)
Lemma union_stride_spec n r op2 a_right b_right new_step : circle_wf n r -> circle_wf n op2 ->
  isempty r = false -> isempty op2 = false ->
  union_stride r op2 = Some (a_right, b_right, new_step) ->
  1 <= new_step < 2 ^ 31 /\ forall v, 0 <= v < 2 ^ n ->
    contains r v = same_residue new_step (left r) v && arc (left r) a_right v /\
    contains op2 v = same_residue new_step (left op2) v && arc (left op2) b_right v.
Proof.
  intros Hw1 Hw2 He1 He2. pose proof Hw1 as (Hn & Hm1 & Hl1 & _ & Hs1 & Hd1 & _).
  pose proof Hw2 as (_ & Hm2 & Hl2 & _ & Hs2 & Hd2 & _). unfold union_stride.
  destruct (Z.ltb_spec (step r) (step op2)); [|destruct (Z.ltb_spec (step op2) (step r))].
  - destruct (is_single r) eqn:Hsg; [|done]. intros [= <- <- <-]. split; [done|]. intros v Hv.
    rewrite (single_contains n r v Hw1 Hsg Hv), step_value_eq, (land_mask_u64 n), (single_arc n) by done.
    split; [done|]. rewrite contains_eq, He2. done.
  - destruct (is_single op2) eqn:Hsg; [|done]. intros [= <- <- <-]. split; [done|]. intros v Hv.
    rewrite (single_contains n op2 v Hw2 Hsg Hv), step_value_eq, (land_mask_u64 n), (single_arc n) by done.
    split; [rewrite contains_eq, He1; done|done].
  - assert (step op2 = step r) as Es by lia. intros [= <- <- <-]. split; [done|]. intros v Hv.
    rewrite !contains_eq, He1, He2, Es. done.
Qed.

Lemma arc_full a v : arc a a v = true.
Proof. unfold arc. by rewrite Z.ltb_irrefl. Qed.

Lemma arc_trivial l x v : l = x -> arc l x v = true.
Proof. intros ->. apply arc_full. Qed.

(** The union is exact whenever the method reports success, for all strides. *)
Lemma circle_union_same n r op2 r' v : circle_wf n r -> circle_wf n op2 ->
  isempty r = false -> isempty op2 = false -> 0 <= v < 2 ^ n ->
  circle_union r op2 = (r', 0) -> contains r' v = contains r v || contains op2 v.
Proof.
  intros Hw1 Hw2 He1 He2 Hv. unfold circle_union. rewrite He1, He2.
  destruct (negb (mask r =? mask op2)); [by intros [=]|].
  destruct (union_stride r op2) as [[[a_right b_right] s]|] eqn:Es; [|by intros [=]].
  destruct (union_stride_spec n r op2 a_right b_right s Hw1 Hw2 He1 He2 Es) as [Hs Hc].
  destruct (Hc v Hv) as [-> ->]. rewrite step_value_eq by done.
  set (rem := if negb (s =? 1) then left r mod s else 0).
  destruct (negb (s =? 1) && negb (rem =? left op2 mod s)) eqn:Hrem; [by intros [=]|].
  assert (Hr1 : same_residue s rem v = same_residue s (left r) v).
  { apply same_residue_trans; [done|]. unfold rem. destruct (Z.eqb_spec s 1) as [->|]; [apply Z.divide_1_l|]. cbn [negb].
    apply mod_eq_divide; [lia|]. apply Z.mod_mod. lia. }
  assert (Hr2 : same_residue s (left op2) v = same_residue s (left r) v).
  { rewrite <- Hr1. apply same_residue_trans; [done|].
    destruct (Z.eqb_spec s 1) as [->|N]; [apply Z.divide_1_l|]. cbn [negb andb] in Hrem.
    destruct (Z.eqb_spec rem (left op2 mod s)) as [E|]; [rewrite E|done]. apply mod_eq_divide; [lia|].
    symmetry. apply Z.mod_mod. lia. }
  destruct ((left r =? a_right) || (left op2 =? b_right)) eqn:Hfull.
  - intros [= <-]. rewrite contains_eq. cbn [isempty step left right with_step with_arc].
    rewrite He1, Hr1, Hr2, arc_full. cbn [negb andb].
    apply orb_true_iff in Hfull as [E%Z.eqb_eq|E%Z.eqb_eq]; rewrite (arc_trivial _ _ v E);
      destruct (same_residue s (left r) v), (arc (left r) a_right v), (arc (left op2) b_right v); done.
  - apply orb_false_iff in Hfull as [N1%Z.eqb_neq N2%Z.eqb_neq].
    destruct (union_arc _ _ _ _ _) as [[l x]|st] eqn:Eu; [|by intros [= _ ->]; apply union_arc_status in Eu as [?|?]].
    intros [= <-]. destruct (union_arc_spec _ _ _ _ _ _ _ v N1 N2 Eu) as [Hl Ha].
    rewrite contains_eq. cbn [isempty step left right with_step with_arc]. rewrite He1, Ha, Hr2. cbn [negb andb].
    assert (same_residue s l v = same_residue s (left r) v) as -> by (destruct Hl as [-> |[-> | ->]]; done).
    destruct (same_residue s (left r) v), (arc (left r) a_right v), (arc (left op2) b_right v); done.
Qed.

(** Intersection of two ranges of one domain, stride and residue: a
    reported success is the exact intersection. *)
Theorem intersect_exact n r op2 r' v : circle_wf n r -> circle_wf n op2 ->
  isempty r = false -> isempty op2 = false -> step r = step op2 -> (step r | left r - left op2) ->
  intersect r op2 = (r', 0) -> contains r' v = contains r v && contains op2 v.
Proof. apply intersect_same. Qed.

(** [0xf0, 0x10) and [0x08, 0xf8) in a byte would be two pieces; with [0x20, 0xf8)
    the intersection is [0xf0, 0xf8). *)
Lemma intersect_exact_witness :
  intersect (new_range 0xf0 0x10 1 1) (new_range 0x20 0xf8 1 1) = (mk_CircleRange 0xf0 0xf8 0xff false 1, 0) /\
  contains (mk_CircleRange 0xf0 0xf8 0xff false 1) 0xf3 =
    contains (new_range 0xf0 0x10 1 1) 0xf3 && contains (new_range 0x20 0xf8 1 1) 0xf3.
Proof.
  split; [reflexivity|]. apply (intersect_exact 8); try reflexivity.
  - apply circle_wfb_ok. reflexivity.
  - apply circle_wfb_ok. reflexivity.
  - apply Z.divide_1_l.
Defined.

(** With different strides, the intersection can lose elements: [0, 0xff) in
    a byte and the even bytes have 0 in common, and the method answers "empty". *)
Theorem intersect_strides_lossy : exists r op2,
  circle_wf 8 r /\ circle_wf 8 op2 /\ contains r 0 = true /\ contains op2 0 = true /\
  (intersect r op2).2 = 0 /\ contains (intersect r op2).1 0 = false.
Proof.
  exists (new_range 0 0xff 1 1), (new_range 0 0 1 2).
  split; [by apply circle_wfb_ok|]. split; [by apply circle_wfb_ok|]. by vm_compute.
Qed.

(** The union is exact whenever it reports success, whatever the strides. *)
Theorem circle_union_exact n r op2 r' v : circle_wf n r -> circle_wf n op2 -> 0 <= v < 2 ^ n ->
  circle_union r op2 = (r', 0) -> contains r' v = contains r v || contains op2 v.
Proof.
  intros Hw1 Hw2 Hv. destruct (isempty op2) eqn:He2; [|destruct (isempty r) eqn:He1].
  - unfold circle_union. rewrite He2. intros [= <-]. rewrite (contains_eq op2), He2. cbn [negb andb]. by rewrite orb_false_r.
  - unfold circle_union. rewrite He1, He2. intros [= <-]. by rewrite (contains_eq r), He1.
  - by apply (circle_union_same n).
Qed.

Lemma circle_union_exact_witness :
  circle_union (new_range 0x10 0x20 1 2) (new_single 0x20 1) = (mk_CircleRange 0x10 0x22 0xff false 2, 0) /\
  contains (mk_CircleRange 0x10 0x22 0xff false 2) 0x20 =
    contains (new_range 0x10 0x20 1 2) 0x20 || contains (new_single 0x20 1) 0x20.
Proof.
  split; [reflexivity|]. apply (circle_union_exact 8); try lia; try reflexivity.
  - apply circle_wfb_ok. reflexivity.
  - apply circle_wfb_ok. reflexivity.
Defined.

Lemma complement_contains r v : step r = 1 -> contains (complement r) v = negb (contains r v).
Proof.
  intros Hs. rewrite !contains_eq. unfold complement, same_residue.
  destruct (isempty r) eqn:He.
  - cbn [isempty left right step negb andb]. rewrite Hs. cbn [Z.eqb Pos.eqb orb andb]. apply arc_full.
  - destruct (Z.eqb_spec (left r) (right r)) as [E|N]; cbn [isempty left right step negb andb with_empty with_arc];
      rewrite Hs, ?He; cbn [Z.eqb Pos.eqb orb andb negb].
    + by rewrite (arc_trivial _ _ v E).
    + arc_cases.
Qed.
