(* ===== verification/CirclePull.v ===== *)
(** Value-set analysis meets the p-code semantics: the ranges [CircleRange]
    computes backwards through an operation ([pull_back_unary] and
    [pull_back_binary]) and the comparison it builds for a range
    ([translate2_op]), against the behaviours of [OpBehavior]. *)
From stdpp Require Import base list sets numbers strings.
From Stdlib Require Import ZArith Lia.
From S2P Require Import Prelude Bits Opcodes OpBehavior CircleRange.

(** ** Comparisons *)

Lemma not_contains_zero n r : circle_wf n r -> isempty r = false -> contains r 0 = false -> left r <> 0.
Proof.
  intros (_ & _ & _ & Hr & Hs & _) He. rewrite contains_eq, He. cbn [negb andb]. intros Hc E. rewrite E in Hc.
  assert (same_residue (step r) 0 0 = true) as Hres by (apply same_residue_divide; [done|apply Z.divide_0_r]).
  rewrite Hres in Hc. revert Hc. arc_cases.
Qed.

(** A true side and its set. *)
Definition side (o : option (Z * Z)) (v : Z) : bool :=
  match o with Some (l, x) => arc l x v | None => false end.

(** When the output range allows exactly one of 0 and 1, or neither, the
    pulled-back range holds exactly the inputs with that truth value. *)
Lemma pull_back_compare_spec n r in_size true_side v : circle_wf n r -> isempty r = false ->
  contains r 0 && contains r 1 = false ->
  contains (pull_back_compare r in_size true_side) v =
  contains r (b2z (side (true_side (calc_mask in_size)) v)).
Proof.
  intros Hw He Hnb. unfold pull_back_compare, convert_to_boolean. rewrite He.
  pose proof (not_contains_zero n r Hw He) as Hz. rewrite Hnb.
  assert (Hb : contains r (b2z (side (true_side (calc_mask in_size)) v)) =
    if side (true_side (calc_mask in_size)) v then contains r 1 else contains r 0).
  { by destruct (side _ v). }
  rewrite Hb. clear Hb. set (T := true_side (calc_mask in_size)).
  assert (Hset : forall q, step q = 1 -> isempty q = false ->
    contains (match T with None => with_empty q true | Some (l, x) => with_arc q l x end) v = side T v).
  { intros q Hs Hq. rewrite contains_eq. unfold same_residue. destruct T as [[l x]|]; cbn; rewrite ?Hs, ?Hq; done. }
  destruct (contains r 0) eqn:E0; [|destruct (contains r 1) eqn:E1].
  - cbn [andb] in Hnb. rewrite Hnb. cbn [mask with_mask left step isempty with_empty Z.eqb]. fold T.
    rewrite complement_contains by (by destruct T as [[l x]|]). rewrite Hset by done. by destruct (side T v).
  - cbn [mask with_mask left step isempty with_empty Z.eqb]. fold T. rewrite Hset by done. by destruct (side T v).
  - cbn [mask with_mask left step isempty with_empty]. fold T.
    rewrite (proj2 (Z.eqb_neq _ _) (Hz eq_refl)). rewrite contains_eq.
    destruct T as [[l x]|]; cbn -[arc]; [by destruct (arc l x v)|done].
Qed.

(** The comparisons and their behaviours. *)
Definition comparisons : list (OpCode * OpBehavior) :=
  [(IntEqual, OpBehaviorEqual); (IntNotequal, OpBehaviorNotEqual);
   (IntLess, OpBehaviorIntLess); (IntLessequal, OpBehaviorIntLessEqual);
   (IntSless, OpBehaviorIntSless); (IntSlessequal, OpBehaviorIntSlessEqual);
   (IntCarry, OpBehaviorIntCarry)].

(** The operands in the order of the slot that holds the input. *)
Definition operands (slot v val : Z) : Z * Z := if slot =? 0 then (v, val) else (val, v).

Lemma half_mask size : 1 <= size <= 8 ->
  Z.shiftr (calc_mask size) 1 = 2 ^ (8 * size - 1) - 1 /\
  u64 (Z.shiftr (calc_mask size) 1 + 1) = 2 ^ (8 * size - 1).
Proof.
  intros Hs. rewrite calc_mask_pow, Z.shiftr_div_pow2 by lia. pose proof (pow2_pred (8 * size) ltac:(lia)) as E.
  pose proof (pow2_pos (8 * size - 1) ltac:(lia)).
  assert ((2 ^ (8 * size) - 1) / 2 ^ 1 = 2 ^ (8 * size - 1) - 1) as ->.
  { symmetry. apply (Z.div_unique_pos _ _ _ 1); lia. }
  split; [done|]. rewrite Z.sub_add. apply u64_small. split; [lia|]. apply Z.pow_lt_mono_r; lia.
Qed.

Lemma next_val size val : 1 <= size <= 8 -> is_u (8 * size) val ->
  Z.land (u64 (val + 1)) (calc_mask size) = if val =? 2 ^ (8 * size) - 1 then 0 else val + 1.
Proof.
  intros Hs Hv. rewrite land_u64_calc_mask by lia. unfold uw, is_u in *.
  destruct (Z.eqb_spec val (2 ^ (8 * size) - 1)) as [->|].
  - rewrite Z.sub_add. apply Z.mod_same. lia.
  - apply Z.mod_small. lia.
Qed.

Lemma carry_start size val : 1 <= size <= 8 -> is_u (8 * size) val -> val <> 0 ->
  Z.land (u64 (u64 (calc_mask size - val) + 1)) (calc_mask size) = 2 ^ (8 * size) - val.
Proof.
  intros Hs Hv Hnz. rewrite land_u64_calc_mask, calc_mask_pow by lia. unfold is_u in *.
  pose proof (Z.pow_le_mono_r 2 (8 * size) 64 ltac:(lia) ltac:(lia)).
  rewrite u64_small by lia. unfold uw. rewrite Z.mod_small; lia.
Qed.

(** A goal between a comparison and an arc: case analysis on the signs of the
    operands, where they are compared as signed, and on every test. *)
Ltac side_cases :=
  unfold side; repeat match goal with
  | |- context [?a =? ?b] => destruct (Z.eqb_spec a b); try lia
  end; cbn [negb]; arc_cases.

(** C34: pulling a range back through a comparison with a constant, in either
    slot, gives exactly the inputs whose result is in the range, as long as the
    range does not allow both results. *)
Theorem pull_back_compare_exact n r opc b val slot in_size out_size v out :
  circle_wf n r -> isempty r = false -> contains r 0 && contains r 1 = false ->
  (opc, b) ∈ comparisons -> 1 <= in_size <= 8 -> is_u (8 * in_size) val -> is_u (8 * in_size) v ->
  evaluate_binary b out_size in_size (operands slot v val).1 (operands slot v val).2 = Ok out ->
  (pull_back_binary r opc val slot in_size out_size).2 = true /\
  contains (pull_back_binary r opc val slot in_size out_size).1 v = contains r out.
Proof.
  intros Hw He Hnb Hop Hs Hval Hv Hev. unfold pull_back_binary. rewrite He.
  pose proof (half_mask in_size Hs) as [Hh1 Hh2]. pose proof (next_val in_size val Hs Hval) as Hn.
  pose proof (pow2_pred (8 * in_size) ltac:(lia)). pose proof (pow2_pos (8 * in_size - 1) ltac:(lia)).
  pose proof (calc_mask_pow in_size ltac:(lia)) as Hm.
  assert (Hfin : forall ts, out = b2z (side (ts (calc_mask in_size)) v) ->
    contains (pull_back_compare r in_size ts) v = contains r out).
  { intros ts ->. by apply (pull_back_compare_spec n). }
  unfold comparisons in Hop. rewrite !elem_of_cons, elem_of_nil in Hop. unfold operands in Hev.
  destruct Hop as [E|[E|[E|[E|[E|[E|[E|[]]]]]]]]; injection E as -> ->; (split; [done|]); apply Hfin; revert Hev;
    eval_op; rewrite ?Hh2, ?Hh1, ?Hn; destruct (Z.eqb_spec slot 0) as [_|_]; cbn [fst snd];
    rewrite ?signed_less_eq, ?carry_eq by done; intros [= <-]; f_equal;
    try (destruct (Z.eqb_spec val 0); [|rewrite carry_start by done]); rewrite ?Hm;
    destruct (word_cases (8 * in_size) v ltac:(lia) Hv) as [(Hv1 & _ & Hv2)|(Hv1 & _ & Hv2)];
    destruct (word_cases (8 * in_size) val ltac:(lia) Hval) as [(Hx1 & _ & Hx2)|(Hx1 & _ & Hx2)];
    rewrite ?Hv2, ?Hx2; clear Hv2 Hx2.
  all: unfold is_u in Hval, Hv; clear Hfin Hh1 Hh2 Hn Hm Hw He Hnb Hs.
  all: set (m := 2 ^ (8 * in_size)) in *; set (h := 2 ^ (8 * in_size - 1)) in *; clearbody m h.
  all: side_cases.
Qed.

Lemma pull_back_compare_exact_witness :
  (pull_back_binary (new_bool true) IntSless 0x80 0 1 1).2 = true /\
  contains (pull_back_binary (new_bool true) IntSless 0x80 1 1 1).1 0x05 = contains (new_bool true) 1.
Proof.
  split; [reflexivity|].
  apply (pull_back_compare_exact 8 (new_bool true) IntSless OpBehaviorIntSless 0x80 1 1 1 0x05 1);
    try reflexivity; try (unfold is_u; lia); try lia.
  - apply circle_wfb_ok. reflexivity.
  - apply list_elem_of_In. cbn. tauto.
Defined.

(** ** Arithmetic *)

(** An arc as a distance from its start. *)
Lemma arc_mod M l x v : 0 <= l < M -> 0 <= x < M -> 0 <= v < M ->
  arc l x v = (l =? x) || ((v - l) mod M <? (x - l) mod M).
Proof.
  intros Hl Hx Hv.
  assert (E : forall a, 0 <= a < M -> (a - l) mod M = if l <=? a then a - l else a - l + M).
  { intros a Ha. destruct (Z.leb_spec l a); [apply Z.mod_small; lia|].
    symmetry. apply Z.mod_unique_pos with (-1); lia. }
  rewrite !E by done. destruct (Z.eqb_spec l x) as [->|]; [apply arc_full|]. cbn [orb].
  destruct (Z.leb_spec l v), (Z.leb_spec l x); arc_cases.
Qed.

Lemma uw_shift_eqb n l x k : 0 <= n -> 0 <= l < 2 ^ n -> 0 <= x < 2 ^ n ->
  (uw n (l + k) =? uw n (x + k)) = (l =? x).
Proof.
  intros Hn Hl Hx. apply eq_true_iff_eq. rewrite !Z.eqb_eq. split; [|by intros ->].
  intros E. apply mod_eq_divide in E; [|apply pow2_pos; done].
  assert (l - x = 0); [|lia]. apply (divide_small (2 ^ n)); [lia| |lia].
  by replace (l - x) with (l + k - (x + k)) by lia.
Qed.

Lemma uw_sub_uw n a b : 0 <= n -> (uw n a - uw n b) mod 2 ^ n = (a - b) mod 2 ^ n.
Proof. intros Hn. unfold uw. by rewrite <- Zminus_mod. Qed.

(** Turning the circle. *)
Lemma arc_rotate n l x v k : 0 <= n -> 0 <= l < 2 ^ n -> 0 <= x < 2 ^ n -> 0 <= v < 2 ^ n ->
  arc (uw n (l + k)) (uw n (x + k)) (uw n (v + k)) = arc l x v.
Proof.
  intros Hn Hl Hx Hv. rewrite !(arc_mod (2 ^ n)) by (done || by apply uw_range).
  rewrite uw_shift_eqb, !uw_sub_uw by done.
  by replace (v + k - (l + k)) with (v - l) by lia; replace (x + k - (l + k)) with (x - l) by lia.
Qed.

Lemma uw_divide n s z : 0 <= n -> (s | 2 ^ n) -> (s | z - uw n z).
Proof.
  intros Hn Hd. unfold uw. rewrite Z.mod_eq by (pose proof (pow2_pos n Hn); lia).
  replace (z - (z - 2 ^ n * (z / 2 ^ n))) with (2 ^ n * (z / 2 ^ n)) by lia. by apply Z.divide_mul_l.
Qed.

Lemma residue_rotate n s l v k : 0 <= n -> 1 <= s < 2 ^ 31 -> (s | 2 ^ n) ->
  same_residue s (uw n (l + k)) (uw n (v + k)) = same_residue s l v.
Proof.
  intros Hn Hs Hd. apply eq_true_iff_eq. rewrite !same_residue_divide by done.
  pose proof (uw_divide n s (l + k) Hn Hd) as [a Ha]. pose proof (uw_divide n s (v + k) Hn Hd) as [b Hb].
  split; intros [c Hc]; [exists (c + a - b)|exists (c - a + b)]; lia.
Qed.

(** Mirroring the circle: the first element of the mirrored arc is the mirror of
    the last element of the arc, one stride before its end. *)
Lemma arc_mirror n s l x v k : 0 <= n -> 1 <= s -> (s | 2 ^ n) -> (s | l - x) -> (s | l - v) ->
  0 <= l < 2 ^ n -> 0 <= x < 2 ^ n -> 0 <= v < 2 ^ n ->
  arc (uw n (k - x + s)) (uw n (k - l + s)) (uw n (k - v)) = arc l x v.
Proof.
  intros Hn Hs Hd Hlx Hlv Hl Hx Hv. rewrite !(arc_mod (2 ^ n)) by (done || by apply uw_range).
  rewrite !uw_sub_uw by done. f_equal.
  - replace (k - x + s) with (- x + (k + s)) by lia. replace (k - l + s) with (- l + (k + s)) by lia.
    apply eq_true_iff_eq. rewrite !Z.eqb_eq. split; [|by intros ->]. intros E.
    apply mod_eq_divide in E; [|by apply pow2_pos].
    assert (l - x = 0); [|lia]. apply (divide_small (2 ^ n)); [lia| |lia].
    by replace (l - x) with (- x + (k + s) - (- l + (k + s))) by lia.
  - replace (k - v - (k - x + s)) with (x - v - s) by lia. replace (k - l + s - (k - x + s)) with (x - l) by lia.
    assert (Hb : forall z, (s | z) -> exists q, z mod 2 ^ n = s * q /\ 0 <= s * q <= 2 ^ n - s).
    { intros z Hz. pose proof (Z.mod_pos_bound z (2 ^ n) ltac:(lia)) as Hr.
      destruct (uw_divide n s z Hn Hd) as [a Ha]. destruct Hz as [b Hz']. destruct Hd as [c Hc]. unfold uw in Ha.
      exists (b - a). split; [lia|]. split; [lia|]. assert (b - a <= c - 1); [|nia]. assert (b - a < c); nia. }
    destruct (Hb (v - l)) as (q & Eq & Hq). { destruct Hlv as [a Ha]. exists (- a). lia. }
    destruct (Hb (x - l)) as (d & Ed & Hd'). { destruct Hlx as [a Ha]. exists (- a). lia. }
    assert (Em : (x - v - s) mod 2 ^ n = if q <? d then s * d - s * q - s else s * d - s * q - s + 2 ^ n).
    { replace (x - v - s) with ((x - l) - (v - l) - s) by lia.
      rewrite <- Zminus_mod_idemp_l, (Zminus_mod (x - l)), Eq, Ed, Zminus_mod_idemp_l.
      destruct (Z.ltb_spec q d); [apply Z.mod_small; nia|]. symmetry. apply Z.mod_unique_pos with (-1); nia. }
    rewrite Em, Eq, Ed. apply eq_true_iff_eq. destruct (Z.ltb_spec q d); rewrite !Z.ltb_lt; split; nia.
Qed.

(** A range moved back by [k] holds the values that reach the range when [k] is
    added. *)
Lemma rotate_contains n r k v : circle_wf n r -> 0 <= v < 2 ^ n ->
  contains (with_arc r (uw n (left r - k)) (uw n (right r - k))) v = contains r (uw n (v + k)).
Proof.
  intros (Hn & _ & Hl & Hr & Hs & Hd & _) Hv. rewrite !contains_eq. cbn [isempty step left right with_arc].
  assert (uw n (uw n (v + k) + - k) = v) as Ev.
  { rewrite <- (uw_small n v Hv) at 2. word_ring. }
  pose proof (uw_range n (v + k) ltac:(lia)).
  rewrite <- Ev at 1 2. rewrite <- !Z.add_opp_r, residue_rotate, arc_rotate by (done || lia). done.
Qed.

(** A range mirrored at [k] holds the values whose distance to [k] it held. *)
Lemma mirror_contains n r k v : circle_wf n r -> 0 <= v < 2 ^ n ->
  contains (with_arc r (uw n (k - right r + step r)) (uw n (k - left r + step r))) v = contains r (uw n (k - v)).
Proof.
  intros (Hn & _ & Hl & Hr & Hs & Hd & Hlr) Hv. rewrite !contains_eq. cbn [isempty step left right with_arc].
  destruct (isempty r); [done|]. cbn [negb andb]. set (u := uw n (k - v)).
  assert (Hu : 0 <= u < 2 ^ n) by (apply uw_range; lia).
  assert (Ev : uw n (k - u) = v).
  { rewrite <- (uw_small n v Hv). unfold u. word_ring. }
  assert (Hres : same_residue (step r) (uw n (k - right r + step r)) v = same_residue (step r) (left r) u).
  { apply eq_true_iff_eq. rewrite !same_residue_divide by done. rewrite <- Ev at 1.
    destruct (uw_divide n (step r) (k - right r + step r) ltac:(lia) Hd) as [a Ha].
    destruct (uw_divide n (step r) (k - u) ltac:(lia) Hd) as [b Hb]. destruct Hlr as [c Hc].
    split; intros [d Hd']; exists (c + 1 - a + b - d); lia. }
  rewrite Hres. destruct (same_residue (step r) (left r) u) eqn:E; [|done]. cbn [andb].
  apply same_residue_divide in E; [|done]. rewrite <- Ev at 1. apply arc_mirror; (done || lia).
Qed.

(** Adding or subtracting a constant. *)
Definition translations : list (OpCode * OpBehavior * Z) :=
  [(IntAdd, OpBehaviorIntAdd, 0); (IntAdd, OpBehaviorIntAdd, 1); (IntSub, OpBehaviorIntSub, 0)].

(** Pulling a range of any stride back through the addition of a constant
    (in either slot) or the subtraction of one gives exactly the inputs whose
    result is in the range. *)
Theorem pull_back_add_exact r opc b val slot size v out :
  1 <= size <= 8 -> circle_wf (8 * size) r -> isempty r = false -> (opc, b, slot) ∈ translations ->
  is_u (8 * size) v ->
  evaluate_binary b size size (operands slot v val).1 (operands slot v val).2 = Ok out ->
  (pull_back_binary r opc val slot size size).2 = true /\
  contains (pull_back_binary r opc val slot size size).1 v = contains r out.
Proof.
  intros Hs Hw He Hop Hv. pose proof Hw as (Hn & Hm & _).
  assert (Hrot : forall k, contains (with_arc r (Z.land (u64 (left r - k)) (mask r)) (Z.land (u64 (right r - k)) (mask r))) v
    = contains r (uw (8 * size) (v + k))).
  { intros k. rewrite !(land_mask_u64 (8 * size)) by done. by apply rotate_contains. }
  unfold translations in Hop. rewrite !elem_of_cons, elem_of_nil in Hop. unfold pull_back_binary, operands.
  rewrite He. destruct Hop as [E|[E|[E|[]]]]; injection E as -> -> ->; eval_op; cbn [Z.eqb fst snd];
    rewrite land_u64_calc_mask by lia; intros [= <-]; (split; [done|]).
  - apply Hrot.
  - rewrite (Z.add_comm val v). apply Hrot.
  - rewrite <- (Z.add_opp_r v val), <- Hrot. by rewrite !Z.sub_opp_r.
Qed.

Lemma pull_back_add_exact_witness :
  (pull_back_binary (new_range 0x02 0x10 1 2) IntAdd 0xfe 0 1 1).2 = true /\
  contains (pull_back_binary (new_range 0x02 0x10 1 2) IntAdd 0xfe 0 1 1).1 0x06 = contains (new_range 0x02 0x10 1 2) 0x04.
Proof.
  apply (pull_back_add_exact _ IntAdd OpBehaviorIntAdd); try reflexivity; try (unfold is_u; lia); try lia.
  - apply circle_wfb_ok. reflexivity.
  - apply list_elem_of_In. cbn. tauto.
Defined.

(** The unary operations that permute the circle. *)
Definition reflections : list (OpCode * OpBehavior) :=
  [(Copy, OpBehaviorCopy); (Int2comp, OpBehaviorInt2Comp); (IntNegate, OpBehaviorIntNegate)].

(** Pulling a range of any stride back through a copy, a negation or a
    complement gives exactly the inputs whose result is in the range. *)
Theorem pull_back_unary_exact r opc b size v out :
  1 <= size <= 8 -> circle_wf (8 * size) r -> isempty r = false -> (opc, b) ∈ reflections ->
  is_u (8 * size) v -> evaluate_unary b size size v = Ok out ->
  (pull_back_unary r opc size size).2 = true /\ contains (pull_back_unary r opc size size).1 v = contains r out.
Proof.
  intros Hs Hw He Hop Hv. pose proof Hw as (Hn & Hm & _ & _ & Hst & _).
  unfold reflections in Hop. rewrite !elem_of_cons, elem_of_nil in Hop. unfold pull_back_unary.
  rewrite He, step_value_eq by done.
  destruct Hop as [E|[E|[E|[]]]]; injection E as -> ->; eval_op; intros [= <-]; (split; [done|]); [done|..];
    cbn [fst]; rewrite uintb_negate_eq, !(land_mask_u64 (8 * size)) by (done || lia); unfold not64, Z.lnot.
  - replace (uw (8 * size) (- u64 (v - 1) - 1)) with (uw (8 * size) (0 - v)) by word_ring.
    rewrite <- mirror_contains by done. do 2 f_equal; word_ring.
  - replace (uw (8 * size) (- v - 1)) with (uw (8 * size) (-1 - v)) by word_ring.
    rewrite <- mirror_contains by done. do 2 f_equal; word_ring.
Qed.

Lemma pull_back_unary_exact_witness :
  (pull_back_unary (new_range 0x04 0x10 1 4) Int2comp 1 1).2 = true /\
  contains (pull_back_unary (new_range 0x04 0x10 1 4) Int2comp 1 1).1 0xf8 = contains (new_range 0x04 0x10 1 4) 0x08.
Proof.
  apply (pull_back_unary_exact _ Int2comp OpBehaviorInt2Comp); try reflexivity; try (unfold is_u; lia); try lia.
  - apply circle_wfb_ok. reflexivity.
  - apply list_elem_of_In. cbn. tauto.
Defined.

(** ** The comparison for a range *)

(** The behaviour of the comparison [translate2_op] names. *)
Definition compare_behavior (opc : OpCode) : option OpBehavior :=
  match opc with
  | IntEqual => Some OpBehaviorEqual
  | IntNotequal => Some OpBehaviorNotEqual
  | IntLess => Some OpBehaviorIntLess
  | IntSless => Some OpBehaviorIntSless
  | _ => None
  end.

(** When [translate2_op] answers with a comparison, that comparison with the
    constant in the slot it names is true exactly on the range; status 1 is the
    full circle and status 3 the empty range. *)
Theorem translate2_op_exact size r v : 1 <= size <= 8 -> circle_wf (8 * size) r -> is_u (8 * size) v ->
  match translate2_op r with
  | (0, Some (opc, c, cslot)) => exists b, compare_behavior opc = Some b /\
      evaluate_binary b 1 size (operands cslot c v).1 (operands cslot c v).2 = Ok (b2z (contains r v))
  | (1, None) => contains r v = true
  | (2, None) => True
  | (3, None) => contains r v = false
  | _ => False
  end.
Proof.
  intros Hs Hw Hv. pose proof Hw as (_ & Hm & Hl & Hr & _). rewrite contains_eq. unfold translate2_op.
  destruct (isempty r); [done|]. destruct (Z.eqb_spec (step r) 1) as [E1|]; [|done]. rewrite E1.
  pose proof (half_mask size Hs) as [_ Hh]. rewrite (calc_mask_pow size), <- Hm in Hh by lia. rewrite Hh.
  pose proof (next_val size (left r) Hs Hl) as Hln. pose proof (next_val size (right r) Hs Hr) as Hrn.
  rewrite (calc_mask_pow size), <- Hm in Hln, Hrn by lia. rewrite Hln, Hrn. clear Hln Hrn Hh.
  pose proof (pow2_pred (8 * size) ltac:(lia)) as Hp. pose proof (pow2_pos (8 * size - 1) ltac:(lia)).
  rewrite Hm, (land_mask_u64 (8 * size)), uw_sub_cases by (done || lia || (unfold is_u; lia)).
  cbn [negb andb same_residue Z.eqb Pos.eqb orb].
  repeat match goal with |- context [if ?a =? ?b then (_, _) else _] => destruct (Z.eqb_spec a b) end.
  all: try done; try (rewrite (arc_trivial _ _ v); done).
  all: try (destruct (Z.ltb_spec (left r) 1); [lia|]).
  all: eexists; (split; [reflexivity|]); unfold operands; cbn [Z.eqb fst snd]; eval_op;
    rewrite ?signed_less_eq by (done || (unfold is_u; lia)); do 2 f_equal.
  all: destruct (Z.eqb_spec (left r) (2 ^ (8 * size) - 1)), (Z.eqb_spec (right r) (2 ^ (8 * size) - 1)); try lia.
  all: destruct (word_cases (8 * size) v ltac:(lia) Hv) as [(Hv1 & _ & Hv2)|(Hv1 & _ & Hv2)]; rewrite ?Hv2.
  all: unfold is_u in Hv; try (rewrite sw_uw_cases by lia; rewrite uw_small by (unfold is_u; lia)).
  all: try match goal with |- context [if ?a <? ?b then _ else _] => destruct (Z.ltb_spec a b) end; side_cases.
Qed.

(** ** Where the pulled-back range is not the preimage *)

(** A range that allows both results of a comparison says nothing about the
    input, but the method answers with the two inputs 0 and 1. *)
Theorem pull_back_both_wrong : exists r, circle_wf 8 r /\ isempty r = false /\
  (pull_back_binary r IntLess 10 0 1 1).2 = true /\
  evaluate_binary OpBehaviorIntLess 1 1 5 10 = Ok 1 /\ contains r 1 = true /\
  contains (pull_back_binary r IntLess 10 0 1 1).1 5 = false.
Proof. exists (set_full 1). split; [by apply circle_wfb_ok|]. by vm_compute. Qed.

(** Through a subtraction from a constant the ends of the range are not
    exchanged: 10 - 9 = 1 is in [0, 3), but 9 is not in the range answered. *)
Theorem pull_back_sub_wrong : exists r, circle_wf 8 r /\ isempty r = false /\
  (pull_back_binary r IntSub 10 1 1 1).2 = true /\
  evaluate_binary OpBehaviorIntSub 1 1 10 9 = Ok 1 /\ contains r 1 = true /\
  contains (pull_back_binary r IntSub 10 1 1 1).1 9 = false.
Proof. exists (new_range 0 3 1 1). split; [by apply circle_wfb_ok|]. by vm_compute. Qed.

Lemma translate2_op_exact_witness :
  translate2_op (new_range 0x80 0x10 1 1) = (0, Some (IntSless, 0x10, 1)) /\
  exists b, compare_behavior IntSless = Some b /\
    evaluate_binary b 1 1 0xf0 0x10 = Ok (b2z (contains (new_range 0x80 0x10 1 1) 0xf0)).
Proof.
  split; [reflexivity|].
  apply (translate2_op_exact 1 (new_range 0x80 0x10 1 1) 0xf0).
  - lia.
  - apply circle_wfb_ok. reflexivity.
  - unfold is_u. lia.
Defined.
