(* ===== verification/CirclePush.v ===== *)
(** [CircleRange::push_forward_unary], [push_forward_binary] and
    [push_forward_trinary] of [src/src/rangeutil.rs]: the range of the results
    of an operation on ranges of inputs, and its soundness against the
    behaviours of [OpBehavior]. *)
From stdpp Require Import base list sets numbers strings.
From Stdlib Require Import ZArith Lia Znumtheory Zpow_facts.
From S2P Require Import Prelude Bits Opcodes OpBehavior CircleRange CirclePull.

(** ** Definitions *)

(** The first argument is the range the method overwrites; the boolean is the
    method's result.  A method that gives up has already written some fields. *)
Definition push_forward_unary (r : CircleRange) (opc : OpCode) (in1 : CircleRange)
    (in_size out_size : Z) : CircleRange * bool :=
  if isempty in1 then (with_empty r true, true) else
  let stp := step_value (step in1) in
  match opc with
  | Cast | Copy => (in1, true)
  | IntZext =>
      if left in1 =? right in1 then
        let lft := left in1 mod stp in
        (mk_CircleRange lft (u64 (u64 (mask in1 + 1) + lft)) (calc_mask out_size) false (step in1), true)
      else
        let rgt := Z.land (u64 (right in1 - stp)) (mask in1) in
        if rgt <? left in1 then
          (mk_CircleRange (left in1) rgt (calc_mask out_size) false (step in1), false)
        else
          (mk_CircleRange (left in1) (u64 (rgt + stp)) (calc_mask out_size) false (step in1), true)
  | IntSext =>
      if left in1 =? right in1 then
        let rem := left in1 mod stp in
        let rgt := Z.shiftr (calc_mask in_size) 1 in
        let lft := u64 (Z.lxor (calc_mask out_size) rgt + rem) in
        (mk_CircleRange lft (u64 (u64 (rgt + 1) + rem)) (calc_mask out_size) false (step in1), true)
      else
        let lft := sign_extend_size (left in1) in_size out_size in
        let rgt := sign_extend_size (Z.land (u64 (right in1 - stp)) (mask in1)) in_size out_size in
        if i64 rgt <? i64 lft then
          (mk_CircleRange lft rgt (calc_mask out_size) false (step in1), false)
        else
          (mk_CircleRange lft (Z.land (u64 (rgt + stp)) (calc_mask out_size)) (calc_mask out_size) false (step in1), true)
  | Int2comp =>
      let rgt := Z.land (u64 (u64 (not64 (left in1) + 1) + stp)) (mask in1) in
      let lft := Z.land (u64 (u64 (not64 (right in1) + 1) + stp)) (mask in1) in
      (normalize (mk_CircleRange lft rgt (mask in1) false (step in1)), true)
  | IntNegate =>
      let lft := Z.land (u64 (not64 (right in1) + stp)) (mask in1) in
      let rgt := Z.land (u64 (not64 (left in1) + stp)) (mask in1) in
      (normalize (mk_CircleRange lft rgt (mask in1) false (step in1)), true)
  | BoolNegate | FloatNan => (mk_CircleRange 0 2 0xff false 1, true)
  | _ => (r, false)
  end.

(** The size of a proper range, as [IntAdd] estimates it. *)
Definition add_extent (lft rgt msk stp : Z) : Z :=
  if lft <? rgt then rgt - lft else u64 (u64 (msk - u64 (lft - rgt)) + stp).

Definition push_forward_add (in1 in2 : CircleRange) : CircleRange :=
  let msk := Z.lor (mask in1) (mask in2) in
  if (left in1 =? right in1) || (left in2 =? right in2) then
    let stp := if step in1 <? step in2 then step in1 else step in2 in
    let lft := u64 (left in1 + left in2) mod step_value stp in
    mk_CircleRange lft lft msk false stp
  else if is_single in2 then
    mk_CircleRange (Z.land (u64 (left in1 + left in2)) msk) (Z.land (u64 (right in1 + left in2)) msk) msk false (step in1)
  else if is_single in1 then
    mk_CircleRange (Z.land (u64 (left in2 + left in1)) msk) (Z.land (u64 (right in2 + left in1)) msk) msk false (step in2)
  else
    let stp := if step in1 <? step in2 then step in1 else step in2 in
    let size1 := add_extent (left in1) (right in1) (mask in1) (step_value (step in1)) in
    let lft := Z.land (u64 (left in1 + left in2)) msk in
    let rgt := Z.land (u64 (u64 (u64 (u64 (right in1 - step_value (step in1)) + right in2)
                 - step_value (step in2)) + step_value stp)) msk in
    let sizenew := add_extent lft rgt msk (step_value stp) in
    let rgt := if sizenew <? size1 then lft else rgt in
    normalize (mk_CircleRange lft rgt msk false stp).

(** [while step < max_step { if (tmp & 1) != 0 { break } step <<= 1; tmp >>= 1 }]:
    each round doubles the step, so 32 rounds pass every [i32] bound. *)
Fixpoint mult_step (fuel : nat) (stp tmp max_step : Z) : Z :=
  match fuel with
  | O => stp
  | S fuel =>
      if negb (stp <? max_step) then stp
      else if negb (Z.land tmp 1 =? 0) then stp
      else mult_step fuel (i32 (Z.shiftl stp 1)) (Z.shiftr tmp 1) max_step
  end.

(** [while step < max_step && tmp > 0 { step <<= 1; tmp -= 1 }]. *)
Fixpoint shift_step (fuel : nat) (stp tmp max_step : Z) : Z :=
  match fuel with
  | O => stp
  | S fuel =>
      if (stp <? max_step) && (tmp >? 0) then shift_step fuel (i32 (Z.shiftl stp 1)) (tmp - 1) max_step
      else stp
  end.

Definition push_forward_mult (r in1 in2 : CircleRange) (max_step : Z) : CircleRange * bool :=
  let msk := Z.lor (mask in1) (mask in2) in
  let operand :=
    if is_single in1 then Some (get_min in1, step in2)
    else if is_single in2 then Some (get_min in2, step in1)
    else None in
  match operand with
  | None => (mk_CircleRange (left r) (right r) msk false (step r), false)
  | Some (const_val, stp) =>
      let stp := mult_step 32 stp (u32 const_val) max_step in
      let whole_size := i32 (64 - count_leading_zeros msk) in
      if i32 (get_max_info in1 + get_max_info in2) >? whole_size then
        let lft := u64 (left in1 * left in2) mod step_value stp in
        (normalize (mk_CircleRange lft lft msk false stp), true)
      else
        let low := u64 (left in1 * left in2) in
        let high := u64 (u64 (right in1 - step_value (step in1)) * u64 (right in2 - step_value (step in2))) in
        if negb (Z.land const_val (Z.lxor msk (Z.shiftr msk 1)) =? 0) then
          (mk_CircleRange (Z.land high msk) (Z.land (u64 (low + step_value stp)) msk) msk false stp, true)
        else
          (mk_CircleRange (Z.land low msk) (Z.land (u64 (high + step_value stp)) msk) msk false stp, true)
  end.

Definition push_forward_left (r in1 in2 : CircleRange) (max_step : Z) : CircleRange * bool :=
  if negb (is_single in2) then (r, false) else
  let sa := u32 (get_min in2) in
  let stp := shift_step 32 (step in1) sa max_step in
  let lft := Z.land (shl64 (left in1) sa) (mask in1) in
  let rgt := Z.land (shl64 (right in1) sa) (mask in1) in
  let whole_size := i32 (64 - count_leading_zeros (mask in1)) in
  if u32 (u32 (get_max_info in1) + sa) >? u32 whole_size
  then (normalize (mk_CircleRange lft lft (mask in1) false stp), true)
  else (mk_CircleRange lft rgt (mask in1) false stp, true).

Definition push_forward_subpiece (r in1 in2 : CircleRange) (out_size : Z) : CircleRange * bool :=
  if negb (is_single in2) then (r, false) else
  let sa := i32 (i32 (left in2) * 8) in
  let msk := calc_mask out_size in
  let stp := if sa =? 0 then step in1 else 1 in
  let range := Z.abs (right in1 - left in1) in
  if (range =? 0) || (shr64 range (u32 sa) >? msk) then (mk_CircleRange 0 0 msk false stp, true)
  else
    let lft := shr64 (left in1) (u32 sa) in
    let rgt := u64 (shr64 (u64 (right in1 - step_value (step in1))) (u32 sa) + step_value stp) in
    (normalize (mk_CircleRange (Z.land lft msk) (Z.land rgt msk) msk false stp), true).

(** The end of the right shifts: a range that closed on itself is one value. *)
Definition open_range (lft rgt msk : Z) : CircleRange :=
  mk_CircleRange lft (if lft =? rgt then Z.land (u64 (lft + 1)) msk else rgt) msk false 1.

Definition push_forward_right (r in1 in2 : CircleRange) (out_size : Z) : CircleRange * bool :=
  if negb (is_single in2) then (r, false) else
  let sa := u32 (i32 (left in2)) in
  let msk := calc_mask out_size in
  if left in1 <? right in1 then
    (open_range (shr64 (left in1) sa) (u64 (shr64 (u64 (right in1 - step_value (step in1))) sa + 1)) msk, true)
  else (open_range 0 (shr64 (mask in1) sa) msk, true).

Definition push_forward_sright (r in1 in2 : CircleRange) (in_size out_size : Z) : CircleRange * bool :=
  if negb (is_single in2) then (r, false) else
  let sa := u32 (i32 (left in2)) in
  let msk := calc_mask out_size in
  let bit_pos := i32 (8 * in_size - 1) in
  let val_left := sign_extend (i64 (left in1)) bit_pos in
  let val_right := sign_extend (i64 (right in1)) bit_pos in
  let '(val_left, val_right) :=
    if val_left >=? val_right then
      let val_right := i64 (Z.shiftr msk 1) in
      (sign_extend (i64 (val_right + 1)) bit_pos, val_right)
    else (val_left, val_right) in
  let lft := Z.land (u64 (ishr64 val_left sa)) msk in
  let rgt := Z.land (u64 (i64 (ishr64 (i64 (val_right - step in1)) sa + 1))) msk in
  (open_range lft rgt msk, true).

Definition push_forward_binary (r : CircleRange) (opc : OpCode) (in1 in2 : CircleRange)
    (in_size out_size max_step : Z) : CircleRange * bool :=
  if isempty in1 || isempty in2 then (with_empty r true, true) else
  match opc with
  | Ptrsub | IntAdd => (push_forward_add in1 in2, true)
  | IntMult => push_forward_mult r in1 in2 max_step
  | IntLeft => push_forward_left r in1 in2 max_step
  | Subpiece => push_forward_subpiece r in1 in2 out_size
  | IntRight => push_forward_right r in1 in2 out_size
  | IntSright => push_forward_sright r in1 in2 in_size out_size
  | IntEqual | IntNotequal | IntSless | IntSlessequal | IntLess | IntLessequal
  | IntCarry | IntScarry | IntSborrow | BoolXor | BoolAnd | BoolOr
  | FloatEqual | FloatNotequal | FloatLess | FloatLessequal => (mk_CircleRange 0 2 0xff false 1, true)
  | _ => (r, false)
  end.

Definition push_forward_trinary (r : CircleRange) (opc : OpCode) (in1 in2 in3 : CircleRange)
    (in_size out_size max_step : Z) : CircleRange * bool :=
  if negb (bool_decide (opc = Ptradd)) then (r, false) else
  let (tmp_range, ok) := push_forward_binary circle_new IntMult in2 in3 in_size in_size max_step in
  if negb ok then (r, false)
  else push_forward_binary r IntAdd in1 tmp_range in_size out_size max_step.

(** ** The step loops end *)

Lemma double_step stp max_step : 1 <= stp < max_step -> max_step <= 2 ^ 30 -> i32 (Z.shiftl stp 1) = 2 * stp.
Proof. intros Hs Hm. rewrite Z.shiftl_mul_pow2 by lia. rewrite sw_small by (unfold is_s; lia). lia. Qed.

(** More rounds change nothing once the step could have reached the bound. *)
Lemma mult_step_fuel fuel k stp tmp max_step : 1 <= stp -> max_step <= 2 ^ 30 -> max_step <= stp * 2 ^ Z.of_nat fuel ->
  mult_step (fuel + k) stp tmp max_step = mult_step fuel stp tmp max_step.
Proof.
  revert stp tmp. induction fuel as [|fuel IH]; intros stp tmp Hs Hm Hf.
  - destruct k; [done|]. cbn [mult_step Nat.add]. destruct (Z.ltb_spec stp max_step); [lia|done].
  - cbn [mult_step Nat.add]. destruct (Z.ltb_spec stp max_step); [|done]. cbn [negb].
    destruct (negb (Z.land tmp 1 =? 0)); [done|]. rewrite (double_step stp max_step) by lia.
    apply IH; [lia|done|]. rewrite Nat2Z.inj_succ, Z.pow_succ_r in Hf by lia. lia.
Qed.

Lemma shift_step_fuel fuel k stp tmp max_step : 1 <= stp -> max_step <= 2 ^ 30 -> max_step <= stp * 2 ^ Z.of_nat fuel ->
  shift_step (fuel + k) stp tmp max_step = shift_step fuel stp tmp max_step.
Proof.
  revert stp tmp. induction fuel as [|fuel IH]; intros stp tmp Hs Hm Hf.
  - destruct k; [done|]. cbn [shift_step Nat.add]. destruct (Z.ltb_spec stp max_step); [lia|done].
  - cbn [shift_step Nat.add]. destruct (Z.ltb_spec stp max_step); [|done]. cbn [andb].
    destruct (tmp >? 0); [|done]. rewrite (double_step stp max_step) by lia.
    apply IH; [lia|done|]. rewrite Nat2Z.inj_succ, Z.pow_succ_r in Hf by lia. lia.
Qed.

(** The 32 rounds of the definitions are all the rounds of the source's loops. *)
Lemma step_loops_complete k stp tmp max_step : 1 <= stp -> max_step <= 2 ^ 30 ->
  mult_step (32 + k) stp tmp max_step = mult_step 32 stp tmp max_step /\
  shift_step (32 + k) stp tmp max_step = shift_step 32 stp tmp max_step.
Proof.
  intros Hs Hm. split; [apply mult_step_fuel|apply shift_step_fuel]; try done; change (Z.of_nat 32) with 32; lia.
Qed.

(** ** Distances from the start *)

(** Membership as a distance from the start of the range. *)
Lemma contains_dist n r v : circle_wf n r -> isempty r = false -> 0 <= v < 2 ^ n ->
  contains r v = true <->
  (step r | (v - left r) mod 2 ^ n) /\ (left r = right r \/ (v - left r) mod 2 ^ n < (right r - left r) mod 2 ^ n).
Proof.
  intros (Hn & _ & Hl & Hr & Hs & Hd & _) He Hv. rewrite contains_eq, He, (arc_mod (2 ^ n)) by done.
  cbn [negb andb]. rewrite andb_true_iff, orb_true_iff, Z.eqb_eq, Z.ltb_lt, same_residue_divide by done.
  destruct (uw_divide n (step r) (v - left r) ltac:(lia) Hd) as [a Ha]. unfold uw in Ha.
  assert ((step r | left r - v) <-> (step r | (v - left r) mod 2 ^ n)) as ->; [|done].
  split; intros [b Hb]; exists (- b - a); lia.
Qed.

(** The distance to the end is a multiple of the step, and so at most one step
    short of the whole circle. *)
Lemma dist_multiple n s z : 0 < n -> 1 <= s -> (s | 2 ^ n) -> (s | z) ->
  (s | z mod 2 ^ n) /\ 0 <= z mod 2 ^ n <= 2 ^ n - s.
Proof.
  intros Hn Hs Hd Hz. pose proof (Z.mod_pos_bound z (2 ^ n) ltac:(apply pow2_pos; lia)) as Hb.
  assert (Hm : (s | z mod 2 ^ n)).
  { destruct (uw_divide n s z ltac:(lia) Hd) as [a Ha]. destruct Hz as [b Hz']. unfold uw in Ha. exists (b - a). lia. }
  split; [done|]. split; [lia|]. destruct Hm as [a Ha], Hd as [b Hb'].
  rewrite Ha, Hb' in *. assert (a < b) by nia. nia.
Qed.

Lemma normalize_contains n r v : circle_wf n r -> contains (normalize r) v = contains r v.
Proof.
  intros (_ & _ & _ & _ & Hs & _). unfold normalize. destruct (Z.eqb_spec (left r) (right r)) as [E|]; [|done].
  rewrite !contains_eq. cbn [isempty step left right with_arc]. rewrite arc_full, (arc_trivial _ _ v E).
  rewrite step_value_eq by done. do 2 f_equal. apply same_residue_trans; [done|].
  destruct (Z.eqb_spec (step r) 1) as [->|]; [apply Z.divide_1_l|]. cbn [negb].
  apply mod_eq_divide; [lia|]. apply Z.mod_mod. lia.
Qed.

(** The last element of a proper range. *)
Definition last_of (r : CircleRange) : Z := Z.land (u64 (right r - step_value (step r))) (mask r).

Lemma last_of_eq n r : circle_wf n r -> last_of r = uw n (right r - step r).
Proof. intros (Hn & Hm & _ & _ & Hs & _). unfold last_of. by rewrite step_value_eq, (land_mask_u64 n). Qed.

Lemma mod_sub_cases M a b : 0 <= a < M -> 0 <= b < M -> (a - b) mod M = if b <=? a then a - b else a - b + M.
Proof.
  intros Ha Hb. destruct (Z.leb_spec b a); [apply Z.mod_small; lia|].
  symmetry. apply Z.mod_unique_pos with (-1); lia.
Qed.

(** The elements of a proper range are at most as far from its start as its last
    element. *)
Lemma last_of_dist n r v : circle_wf n r -> isempty r = false -> left r <> right r -> 0 <= v < 2 ^ n ->
  contains r v = true ->
  0 <= last_of r < 2 ^ n /\ (v - left r) mod 2 ^ n <= (last_of r - left r) mod 2 ^ n.
Proof.
  intros Hw He Hne Hv Hc. rewrite (last_of_eq n) by done. pose proof Hw as (Hn & _ & Hl & Hr & Hs & Hd & Hlr).
  destruct (proj1 (contains_dist n r v Hw He Hv) Hc) as [Hdv [?|Hlt]]; [done|].
  split; [apply uw_range; lia|].
  destruct (dist_multiple n (step r) (right r - left r)) as [Hdd Hdb]; [lia|lia|done| |].
  { destruct Hlr as [a Ha]. exists (- a). lia. }
  assert (Hstep : (v - left r) mod 2 ^ n <= (right r - left r) mod 2 ^ n - step r).
  { destruct Hdv as [a Ha], Hdd as [b Hb]. rewrite Ha, Hb in *. assert (a < b) by nia. nia. }
  assert ((uw n (right r - step r) - left r) mod 2 ^ n = (right r - left r) mod 2 ^ n - step r) as ->; [|done].
  pose proof (Z.mod_pos_bound (v - left r) (2 ^ n) ltac:(lia)).
  rewrite <- (Z.mod_small ((right r - left r) mod 2 ^ n - step r) (2 ^ n)) by lia.
  change (uw n (uw n (right r - step r) - left r) = uw n (uw n (right r - left r) - step r)). word_ring.
Qed.

(** A proper range whose last element is not below its first does not pass 0. *)
Lemma last_of_bound n r v : circle_wf n r -> isempty r = false -> left r <> right r -> 0 <= v < 2 ^ n ->
  contains r v = true ->
  0 <= last_of r < 2 ^ n /\ (left r <= last_of r -> left r <= v <= last_of r) /\
  (last_of r < left r -> v <= last_of r \/ left r <= v).
Proof.
  intros Hw He Hne Hv Hc. destruct (last_of_dist n r v Hw He Hne Hv Hc) as [Hb Hd].
  pose proof Hw as (_ & _ & Hl & _). split; [done|].
  rewrite !mod_sub_cases in Hd by done.
  destruct (Z.leb_spec (left r) v), (Z.leb_spec (left r) (last_of r)); lia.
Qed.

(** ** Unary operations *)

Lemma contains_residue n r v : circle_wf n r -> isempty r = false -> contains r v = true ->
  (step r | left r - v).
Proof.
  intros (_ & _ & _ & _ & Hs & _) He Hc. rewrite contains_eq, He in Hc. cbn [negb andb] in Hc.
  apply andb_true_iff in Hc as [Hc _]. by apply same_residue_divide in Hc.
Qed.

(** The residue of a value is at most the value. *)
Lemma residue_le s l v : 1 <= s -> (s | l - v) -> 0 <= v -> 0 <= l mod s <= v /\ (s | l mod s - v).
Proof.
  intros Hs Hd Hv. assert (l mod s = v mod s) as -> by (apply mod_eq_divide; [lia|done]).
  split; [split; [apply Z.mod_pos_bound; lia|apply Z.mod_le; lia]|].
  apply mod_eq_divide; [lia|]. apply Z.mod_mod. lia.
Qed.

Lemma mk_contains l x m s v : 1 <= s < 2 ^ 31 -> (s | l - v) -> arc l x v = true ->
  contains (mk_CircleRange l x m false s) v = true.
Proof.
  intros Hs Hd Ha. rewrite contains_eq. cbn [isempty left right step negb andb]. rewrite Ha, andb_true_r.
  by apply same_residue_divide.
Qed.

Lemma zext_sound q r isz osz v r' : 1 <= isz < osz -> osz <= 8 -> circle_wf (8 * isz) r -> isempty r = false ->
  is_u (8 * isz) v -> contains r v = true ->
  push_forward_unary q IntZext r isz osz = (r', true) -> contains r' v = true.
Proof.
  intros Hi Ho Hw He Hv Hc. pose proof Hw as (Hn & Hm & Hl & Hr & Hs & Hd & _). unfold is_u in Hv.
  pose proof (contains_residue _ _ _ Hw He Hc) as Hres. pose proof (Z.divide_pos_le (step r) (2 ^ (8 * isz)) ltac:(lia) Hd) as Hsle.
  pose proof (Z.pow_le_mono_r 2 (8 * isz) 56 ltac:(lia) ltac:(lia)).
  unfold push_forward_unary. rewrite He. fold (last_of r). rewrite !step_value_eq by done.
  destruct (Z.eqb_spec (left r) (right r)) as [E|Hne].
  - intros [= <-]. destruct (residue_le (step r) (left r) v ltac:(lia) Hres ltac:(lia)) as [Hle Hdv].
    apply mk_contains; [done|done|]. pose proof (Z.mod_pos_bound (left r) (step r) ltac:(lia)).
    rewrite Hm, Z.sub_add, (u64_small (2 ^ (8 * isz))), u64_small by lia. arc_cases.
  - destruct (last_of_bound _ r v Hw He Hne Hv Hc) as (Hlb & Hin & _).
    destruct (Z.ltb_spec (last_of r) (left r)); intros [= <-].
    apply mk_contains; [done|done|]. rewrite u64_small by lia. specialize (Hin ltac:(lia)). arc_cases.
Qed.

Lemma lxor_ones a b : 0 <= b <= a -> Z.lxor (2 ^ a - 1) (2 ^ b - 1) = 2 ^ a - 2 ^ b.
Proof.
  intros Hb. rewrite !Z.sub_1_r, <- !Z.ones_equiv by lia.
  assert (Z.lxor (Z.ones a) (Z.ones b) = Z.ldiff (Z.ones a) (Z.ones b)) as ->.
  { apply Z.bits_inj'. intros i Hi. rewrite Z.lxor_spec, Z.ldiff_spec, !Z.testbit_ones_nonneg by lia.
    destruct (Z.ltb_spec i a), (Z.ltb_spec i b); try done; lia. }
  rewrite <- Z.sub_nocarry_ldiff; [rewrite !Z.ones_equiv; lia|].
  apply Z.bits_inj'. intros i Hi. rewrite Z.ldiff_spec, !Z.testbit_ones_nonneg, Z.bits_0 by lia.
  destruct (Z.ltb_spec i a), (Z.ltb_spec i b); try done; lia.
Qed.

(** Sign extension moves the words with the sign bit up and keeps the others. *)
Lemma sext_cases n o z : 0 < n <= o -> is_u n z ->
  uw o (sw n z) = if z <? 2 ^ (n - 1) then z else z + (2 ^ o - 2 ^ n).
Proof.
  intros Hn Hz. pose proof (Z.pow_le_mono_r 2 n o ltac:(lia) ltac:(lia)). pose proof (pow2_pred n ltac:(lia)).
  unfold is_u in Hz. destruct (word_cases n z ltac:(lia) Hz) as [(? & _ & ->)|(? & _ & ->)];
    destruct (Z.ltb_spec z (2 ^ (n - 1))); try lia; unfold uw.
  - apply Z.mod_small. lia.
  - symmetry. apply Z.mod_unique_pos with (-1); lia.
Qed.

Lemma sext_residue n o s a b : 0 < n <= o -> (s | 2 ^ n) -> (s | a - b) ->
  (s | uw o (sw n a) - uw o (sw n b)).
Proof.
  intros Hn Hd [k Hk]. assert (Ho : (s | 2 ^ o)).
  { apply (Z.divide_trans _ (2 ^ n)); [done|]. exists (2 ^ (o - n)). rewrite <- Z.pow_add_r by lia. f_equal. lia. }
  assert (Hs : forall z, (s | z - uw o (sw n z))).
  { intros z. destruct (uw_divide o s (sw n z) ltac:(lia) Ho) as [i Hi].
    destruct (uw_divide n s (sw n z) ltac:(lia) Hd) as [j Hj]. destruct (uw_divide n s z ltac:(lia) Hd) as [l Hl'].
    rewrite uw_sw in Hj by lia. exists (l - j + i). lia. }
  destruct (Hs a) as [i Hi], (Hs b) as [j Hj]. exists (k - i + j). lia.
Qed.

(** One step past the last element of an aligned interval of words. *)
Lemma arc_to_last o s L R X : 0 < o -> 1 <= s -> (s | 2 ^ o) -> (s | L - R) -> 0 <= L <= X -> X <= R < 2 ^ o ->
  arc L (uw o (R + s)) X = true.
Proof.
  intros Ho Hs Hd HLR HL HR. pose proof (Z.divide_pos_le s (2 ^ o) ltac:(lia) Hd).
  unfold uw. destruct (Z.lt_ge_cases (R + s) (2 ^ o)).
  - rewrite Z.mod_small by lia. arc_cases.
  - rewrite <- (Z.mod_unique_pos (R + s) (2 ^ o) 1 (R + s - 2 ^ o)) by lia.
    assert (R + s - 2 ^ o <= L); [|arc_cases].
    destruct (residue_le s R L) as [Hle _]; [lia| |lia|].
    { destruct HLR as [k Hk]. exists (- k). lia. }
    assert (R mod s = R + s - 2 ^ o) as E; [|lia].
    destruct Hd as [k Hk]. symmetry. apply Z.mod_unique_pos with (k - 1); lia.
Qed.

Lemma sext_full_sound n o s l v : 0 < n < o -> o <= 64 -> 1 <= s < 2 ^ 31 -> (s | 2 ^ (n - 1)) ->
  0 <= l -> is_u n v -> (s | l - v) ->
  contains (mk_CircleRange (u64 (2 ^ o - 2 ^ (n - 1) + l mod s)) (u64 (2 ^ (n - 1) + l mod s)) (2 ^ o - 1) false s)
    (uw o (sw n v)) = true.
Proof.
  intros Hn Ho Hs Hd Hl Hv Hlv. pose proof (pow2_pred n ltac:(lia)) as Hp.
  pose proof (pow2_pos (n - 1) ltac:(lia)). unfold is_u in Hv.
  assert (Hno : 2 * 2 ^ n <= 2 ^ o) by (rewrite <- Z.pow_succ_r by lia; apply Z.pow_le_mono_r; lia).
  pose proof (Z.pow_le_mono_r 2 o 64 ltac:(lia) ltac:(lia)).
  pose proof (Z.divide_pos_le s (2 ^ (n - 1)) ltac:(lia) Hd).
  destruct (residue_le s l v ltac:(lia) Hlv ltac:(lia)) as [Hle Hdv].
  pose proof (Z.mod_pos_bound l s ltac:(lia)). rewrite !u64_small by lia.
  assert (Hdn : (s | 2 ^ n)) by (rewrite Hp; by apply Z.divide_mul_r).
  assert (Hdo : (s | 2 ^ o)).
  { apply (Z.divide_trans _ (2 ^ n)); [done|]. exists (2 ^ (o - n)). rewrite <- Z.pow_add_r by lia. f_equal. lia. }
  rewrite sext_cases by (lia || done). destruct (Z.ltb_spec v (2 ^ (n - 1))).
  - apply mk_contains; [done| |arc_cases].
    destruct Hd as [a Ha], Hdo as [b Hb], Hdv as [c Hc]. exists (b - a + c). lia.
  - assert (Hd2 : (s | 2 ^ o - 2 ^ (n - 1) + l mod s - (v + (2 ^ o - 2 ^ n)))).
    { destruct Hd as [a Ha], Hdv as [c Hc]. exists (a + c). lia. }
    apply mk_contains; [done|done|].
    destruct (residue_le s (l mod s) (v - 2 ^ (n - 1)) ltac:(lia)) as [Hle2 _]; [|lia|].
    { destruct Hd as [a Ha], Hdv as [c Hc]. exists (a + c). lia. }
    rewrite Z.mod_mod in Hle2 by lia. arc_cases.
Qed.

Lemma sext_arc_sound n o r v : circle_wf n r -> n < o -> o <= 64 -> isempty r = false -> left r <> right r ->
  is_u n v -> contains r v = true ->
  sw 64 (uw o (sw n (left r))) <= sw 64 (uw o (sw n (last_of r))) ->
  arc (uw o (sw n (left r))) (uw o (uw o (sw n (last_of r)) + step r)) (uw o (sw n v)) = true.
Proof.
  intros Hw Hno Ho He Hne Hv Hc. pose proof Hw as (Hn & _ & Hl & Hr & Hs & Hd & Hlr).
  destruct (last_of_bound n r v Hw He Hne Hv Hc) as (Hb & Hin & Hwrap).
  pose proof (pow2_pred n ltac:(lia)). pose proof (pow2_pos (n - 1) ltac:(lia)).
  assert (Hnn : 2 * 2 ^ n <= 2 ^ o) by (rewrite <- Z.pow_succ_r by lia; apply Z.pow_le_mono_r; lia).
  assert (Hdl : (step r | left r - last_of r)).
  { rewrite (last_of_eq n) by done. destruct (uw_divide n (step r) (right r - step r) ltac:(lia) Hd) as [a Ha].
    destruct Hlr as [b Hb']. exists (b + 1 + a). lia. }
  assert (Hdo : (step r | 2 ^ o)).
  { apply (Z.divide_trans _ (2 ^ n)); [done|]. exists (2 ^ (o - n)). rewrite <- Z.pow_add_r by lia. f_equal. lia. }
  pose proof (sext_residue n o (step r) _ _ ltac:(lia) Hd Hdl) as HLR. unfold is_u in Hv.
  rewrite !sext_cases in * by (lia || (unfold is_u; lia)).
  destruct (Z.lt_ge_cases o 64) as [Ho64|Ho64].
  - assert (Hsm : forall z, 0 <= z < 2 ^ o -> sw 64 z = z).
    { intros z Hz. apply sw_small; [lia|]. unfold is_s. pose proof (Z.pow_le_mono_r 2 o 63 ltac:(lia) ltac:(lia)). lia. }
    rewrite !Hsm by (repeat destruct (_ <? _); lia). intros Hle.
    apply arc_to_last; [lia|lia|done|done|..];
      destruct (Z.ltb_spec (left r) (2 ^ (n - 1))), (Z.ltb_spec (last_of r) (2 ^ (n - 1))), (Z.ltb_spec v (2 ^ (n - 1))); lia.
  - replace o with 64 in * by lia. pose proof (Z.divide_pos_le (step r) (2 ^ n) ltac:(lia) Hd).
    assert (Hlo : forall z, 0 <= z < 2 ^ (n - 1) -> sw 64 z = z).
    { intros z Hz. apply sw_small; unfold is_s; lia. }
    assert (Hhi : forall z, 2 ^ (n - 1) <= z < 2 ^ n -> sw 64 (z + (2 ^ 64 - 2 ^ n)) = z - 2 ^ n).
    { intros z Hz. rewrite sw_uw_cases, uw_small by (unfold is_u; lia).
      destruct (Z.ltb_spec (z + (2 ^ 64 - 2 ^ n)) (2 ^ (64 - 1))); lia. }
    destruct (Z.ltb_spec (left r) (2 ^ (n - 1))), (Z.ltb_spec (last_of r) (2 ^ (n - 1)));
      rewrite ?Hlo, ?Hhi by lia; intros Hle; try lia.
    + destruct (Z.ltb_spec v (2 ^ (n - 1))); apply arc_to_last; (done || lia).
    + rewrite uw_small by (unfold is_u; lia). destruct (Z.ltb_spec v (2 ^ (n - 1))); arc_cases.
    + destruct (Z.ltb_spec v (2 ^ (n - 1))); apply arc_to_last; (done || lia).
Qed.

Lemma sext_sound q r isz osz v r' : 1 <= isz < osz -> osz <= 8 -> circle_wf (8 * isz) r -> isempty r = false ->
  (step r | 2 ^ (8 * isz - 1)) -> is_u (8 * isz) v -> contains r v = true ->
  push_forward_unary q IntSext r isz osz = (r', true) -> contains r' (sign_extend_size v isz osz) = true.
Proof.
  intros Hi Ho Hw He Hst Hv Hc. pose proof Hw as (Hn & Hm & Hl & Hr & Hs & Hd & Hlr).
  pose proof (contains_residue _ _ _ Hw He Hc) as Hres. rewrite sign_extend_size_eq by lia.
  pose proof (half_mask isz ltac:(lia)) as [Hh _]. pose proof (pow2_pos (8 * isz - 1) ltac:(lia)).
  unfold push_forward_unary. rewrite He. fold (last_of r).
  destruct (Z.eqb_spec (left r) (right r)) as [E|Hne].
  - rewrite Hh, (calc_mask_pow osz), lxor_ones, step_value_eq by lia. intros [= <-].
    rewrite (u64_small (2 ^ (8 * isz - 1) - 1 + 1)) by (pose proof (Z.pow_lt_mono_r 2 (8 * isz - 1) 64 ltac:(lia) ltac:(lia) ltac:(lia)); lia).
    rewrite Z.sub_add. apply sext_full_sound; (done || lia).
  - rewrite !sign_extend_size_eq, step_value_eq by lia. destruct (Z.ltb_spec (i64 (uw (8 * osz) (sw (8 * isz) (last_of r))))
      (i64 (uw (8 * osz) (sw (8 * isz) (left r))))); intros [= <-].
    apply mk_contains; [done|apply sext_residue; (done || lia)|].
    rewrite (land_u64_calc_mask _ osz) by lia. apply sext_arc_sound; (done || lia).
Qed.

Lemma mirror_push n r k v m : circle_wf n r -> isempty r = false -> 0 <= v < 2 ^ n -> m = 2 ^ n - 1 ->
  contains r v = true ->
  contains (normalize (mk_CircleRange (uw n (k - right r + step r)) (uw n (k - left r + step r)) m false (step r)))
    (uw n (k - v)) = true.
Proof.
  intros Hw He Hv -> Hc. pose proof Hw as (Hn & Hm & Hl & Hr & Hs & Hd & Hlr).
  assert (E : mk_CircleRange (uw n (k - right r + step r)) (uw n (k - left r + step r)) (2 ^ n - 1) false (step r)
    = with_arc r (uw n (k - right r + step r)) (uw n (k - left r + step r))).
  { unfold with_arc. by rewrite He, Hm. }
  rewrite E, (normalize_contains n), mirror_contains.
  - rewrite <- Hc. f_equal. rewrite <- (uw_small n v Hv) at 2. word_ring.
  - done.
  - apply uw_range. lia.
  - split; [done|]. split; [done|]. cbn [left right step with_arc]. split; [apply uw_range; lia|].
    split; [apply uw_range; lia|]. split; [done|]. split; [done|].
    destruct (uw_divide n (step r) (k - right r + step r) ltac:(lia) Hd) as [a Ha].
    destruct (uw_divide n (step r) (k - left r + step r) ltac:(lia) Hd) as [b Hb]. destruct Hlr as [c Hc'].
    exists (c - a + b). lia.
Qed.

(** The unary operations with a transfer function of their own, and the widths
    they are used at. *)
Definition unary_transfers : list (OpCode * OpBehavior) :=
  [(Copy, OpBehaviorCopy); (Int2comp, OpBehaviorInt2Comp); (IntNegate, OpBehaviorIntNegate);
   (IntZext, OpBehaviorIntZext); (IntSext, OpBehaviorIntSext)].

Definition unary_widths (opc : OpCode) (isz osz : Z) : Prop :=
  match opc with IntZext | IntSext => isz < osz | _ => isz = osz end.

(** Pushing a range forward through a copy, a negation, a complement or an
    extension never loses a value: the result of the operation on any element is
    an element of the new range. *)
Theorem push_forward_unary_sound q r opc b isz osz v out r' :
  (opc, b) ∈ unary_transfers -> unary_widths opc isz osz -> 1 <= isz -> osz <= 8 ->
  circle_wf (8 * isz) r -> (step r | 2 ^ (8 * isz - 1)) -> is_u (8 * isz) v -> contains r v = true ->
  evaluate_unary b osz isz v = Ok out ->
  push_forward_unary q opc r isz osz = (r', true) -> contains r' out = true.
Proof.
  intros Hop Hwd Hi Ho Hw Hst Hv Hc. pose proof Hw as (Hn & Hm & _ & _ & Hs & _).
  assert (He : isempty r = false) by (rewrite contains_eq in Hc; by destruct (isempty r)).
  unfold unary_transfers in Hop. rewrite !elem_of_cons, elem_of_nil in Hop.
  destruct Hop as [E|[E|[E|[E|[E|[]]]]]]; injection E as -> ->; eval_op; cbn in Hwd; intros [= <-].
  - unfold push_forward_unary. rewrite He. by intros [= <-].
  - unfold push_forward_unary. rewrite He, step_value_eq, uintb_negate_eq, !(land_mask_u64 (8 * isz)) by (done || lia).
    intros [= <-]. subst osz.
    replace (uw (8 * isz) (- u64 (v - 1) - 1)) with (uw (8 * isz) (0 - v)) by word_ring.
    erewrite <- (mirror_push (8 * isz) r 0 v (mask r)) by done. do 3 f_equal; unfold not64; word_ring.
  - unfold push_forward_unary. rewrite He, step_value_eq, uintb_negate_eq, !(land_mask_u64 (8 * isz)) by (done || lia).
    intros [= <-]. subst osz.
    replace (uw (8 * isz) (- v - 1)) with (uw (8 * isz) (-1 - v)) by word_ring.
    erewrite <- (mirror_push (8 * isz) r (-1) v (mask r)) by done. do 3 f_equal; unfold not64; word_ring.
  - apply zext_sound; (done || lia).
  - apply sext_sound; (done || lia).
Qed.

Lemma push_forward_unary_sound_witness :
  push_forward_unary circle_new IntSext (new_range 0x70 0x90 1 2) 1 2 = (mk_CircleRange 0x70 0xff90 0xffff false 2, true) /\
  contains (mk_CircleRange 0x70 0xff90 0xffff false 2) 0xff80 = true.
Proof.
  split; [reflexivity|].
  apply (push_forward_unary_sound circle_new (new_range 0x70 0x90 1 2) IntSext OpBehaviorIntSext 1 2 0x80);
    try reflexivity; try lia; try (unfold is_u; lia).
  - apply list_elem_of_In. cbn. tauto.
  - apply circle_wfb_ok. reflexivity.
  - by exists 64.
Defined.

(** ** Addition *)

Lemma divide_pow2_le s1 s2 n : 0 <= n -> 0 < s1 <= s2 -> (s1 | 2 ^ n) -> (s2 | 2 ^ n) -> (s1 | s2).
Proof.
  intros Hn Hs H1 H2. destruct (Zdivide_power_2 s1 2 n) as [a ->]; [lia|lia|apply prime_2|done|].
  destruct (Zdivide_power_2 s2 2 n) as [b ->]; [lia|lia|apply prime_2|done|].
  destruct (Z.lt_ge_cases a 0); [rewrite (Z.pow_neg_r 2 a) in Hs by lia; lia|].
  assert (a <= b).
  { destruct (Z.lt_ge_cases b a) as [Hlt|]; [|lia]. pose proof (Z.pow_lt_mono_r 2 b a ltac:(lia) ltac:(lia) Hlt). lia. }
  exists (2 ^ (b - a)). rewrite <- Z.pow_add_r by lia. f_equal. lia.
Qed.

(** An element of a proper range, by its distance from the start. *)
Lemma contains_offset n r v : circle_wf n r -> isempty r = false -> left r <> right r -> 0 <= v < 2 ^ n ->
  contains r v = true ->
  exists d D, (step r | d) /\ (step r | D) /\ 0 <= d <= D - step r /\ D <= 2 ^ n - step r /\
    v = uw n (left r + d) /\ right r = uw n (left r + D).
Proof.
  intros Hw He Hne Hv Hc. pose proof Hw as (Hn & _ & Hl & Hr & Hs & Hd & Hlr).
  destruct (proj1 (contains_dist n r v Hw He Hv) Hc) as [Hdv [?|Hlt]]; [done|].
  destruct (dist_multiple n (step r) (right r - left r)) as [Hdd Hdb]; [lia|lia|done| |].
  { destruct Hlr as [a Ha]. exists (- a). lia. }
  exists ((v - left r) mod 2 ^ n), ((right r - left r) mod 2 ^ n).
  pose proof (Z.mod_pos_bound (v - left r) (2 ^ n) ltac:(lia)).
  split; [done|]. split; [done|]. split; [|split; [lia|]].
  - destruct Hdv as [a Ha], Hdd as [b Hb]. rewrite Ha, Hb in *. split; [lia|]. assert (a < b) by nia. nia.
  - change ((v - left r) mod 2 ^ n) with (uw n (v - left r)).
    change ((right r - left r) mod 2 ^ n) with (uw n (right r - left r)). split.
    + rewrite <- (uw_small n v Hv) at 1. word_ring.
    + rewrite <- (uw_small n (right r) Hr) at 1. word_ring.
Qed.

Lemma add_extent_eq n l D s : 0 < n <= 64 -> 0 <= l < 2 ^ n -> 1 <= s -> 0 < D <= 2 ^ n - s ->
  add_extent l (uw n (l + D)) (2 ^ n - 1) s = if l + D <? 2 ^ n then D else D - 1 + s.
Proof.
  intros Hn Hl Hs HD. unfold add_extent. change (uw n (l + D)) with ((l + D) mod 2 ^ n). pose proof (Z.pow_le_mono_r 2 n 64 ltac:(lia) ltac:(lia)).
  destruct (Z.ltb_spec (l + D) (2 ^ n)).
  - rewrite Z.mod_small by lia. destruct (Z.ltb_spec l (l + D)); lia.
  - rewrite <- (Z.mod_unique_pos (l + D) (2 ^ n) 1 (l + D - 2 ^ n)) by lia.
    destruct (Z.ltb_spec l (l + D - 2 ^ n)); [lia|].
    rewrite (u64_small (l - _)), (u64_small (2 ^ n - 1 - _)), u64_small by lia. lia.
Qed.

(** The general case of [IntAdd]: the bound on the size detects a wrap. *)
Lemma add_arc_sound n s1 s2 s D1 D2 d1 d2 l1 l2 : 0 < n <= 64 -> 1 <= s -> s <= s1 -> s <= s2 ->
  0 <= d1 <= D1 - s1 -> 0 <= d2 <= D2 - s2 -> D1 <= 2 ^ n - s1 -> D2 <= 2 ^ n - s2 -> (s | 2 ^ n) ->
  (s | D1 + D2 - s1 - s2) -> 0 <= l1 < 2 ^ n ->
  let lft := uw n (l1 + l2) in
  let rgt := uw n (lft + (D1 + D2 - s1 - s2 + s)) in
  arc lft (if add_extent lft rgt (2 ^ n - 1) s <? add_extent l1 (uw n (l1 + D1)) (2 ^ n - 1) s1 then lft else rgt)
    (uw n (lft + (d1 + d2))) = true.
Proof.
  intros Hn Hs Hs1 Hs2 Hd1 Hd2 HD1 HD2 Hd HdT Hl1 lft rgt. set (T := D1 + D2 - s1 - s2 + s) in *.
  assert (Hlft : 0 <= lft < 2 ^ n) by (apply uw_range; lia).
  assert (HdT' : (s | T)). { destruct HdT as [a Ha]. exists (a + 1). unfold T. lia. }
  rewrite (add_extent_eq n l1 D1 s1) by lia.
  destruct (Z.lt_ge_cases T (2 ^ n)) as [HT|HT].
  - destruct (_ <? _); [apply arc_full|]. rewrite (arc_mod (2 ^ n)) by (done || apply uw_range; lia).
    assert (Hx : forall k, 0 <= k < 2 ^ n -> (uw n (lft + k) - lft) mod 2 ^ n = k).
    { intros k Hk. rewrite <- (uw_small n k) at 2 by (unfold is_u; lia).
      change (uw n (uw n (lft + k) - lft) = uw n k). word_ring. }
    unfold rgt. rewrite !Hx by lia. apply orb_true_iff. right. apply Z.ltb_lt. lia.
  - assert (E : rgt = uw n (lft + (T - 2 ^ n))).
    { unfold rgt. replace (lft + T) with (lft + (T - 2 ^ n) + 1 * 2 ^ n) by lia. unfold uw.
      rewrite Z.mod_add by lia. done. }
    destruct (Z.eq_dec T (2 ^ n)) as [->|HTne].
    { replace rgt with lft; [destruct (_ <? _); apply arc_full|]. rewrite E, Z.sub_diag, Z.add_0_r.
      symmetry. by apply uw_small. }
    rewrite E. rewrite add_extent_eq; [|done|done|lia|].
    + destruct (Z.ltb_spec (lft + (T - 2 ^ n)) (2 ^ n)), (Z.ltb_spec (l1 + D1) (2 ^ n));
        match goal with |- context [if ?a <? ?b then _ else _] => destruct (Z.ltb_spec a b); [apply arc_full|lia] end.
    + lia.
Qed.

Lemma min_step_divides n s1 s2 : 0 <= n -> 1 <= s1 -> 1 <= s2 -> (s1 | 2 ^ n) -> (s2 | 2 ^ n) ->
  let s := if s1 <? s2 then s1 else s2 in (s | s1) /\ (s | s2) /\ s <= s1 /\ s <= s2 /\ (s = s1 \/ s = s2).
Proof.
  intros Hn H1 H2 D1 D2 s. unfold s. destruct (Z.ltb_spec s1 s2).
  - split; [done|]. split; [by apply (divide_pow2_le _ _ n); try lia|]. lia.
  - split; [by apply (divide_pow2_le _ _ n); try lia|]. split; [done|]. lia.
Qed.

Lemma residue_sum n s a b v w : 0 < n <= 64 -> 1 <= s -> (s | 2 ^ n) -> (s | a - v) -> (s | b - w) ->
  (s | u64 (a + b) mod s - uw n (v + w)) /\ (s | uw n (a + b) - uw n (v + w)).
Proof.
  intros Hn Hs Hd [i Hi] [j Hj]. assert (Hd64 : (s | 2 ^ 64)).
  { apply (Z.divide_trans _ (2 ^ n)); [done|]. exists (2 ^ (64 - n)). rewrite <- Z.pow_add_r by lia. f_equal. lia. }
  destruct (uw_divide 64 s (a + b) ltac:(lia) Hd64) as [k Hk]. destruct (uw_divide n s (a + b) ltac:(lia) Hd) as [k' Hk'].
  destruct (uw_divide n s (v + w) ltac:(lia) Hd) as [l Hl].
  assert ((s | u64 (a + b) mod s - u64 (a + b))) as [p Hp] by (apply mod_eq_divide; [lia|apply Z.mod_mod; lia]).
  split; [exists (p - k + i + j + l)|exists (i + j - k' + l)]; lia.
Qed.

(** A range moved by [k]. *)
Lemma rotate_push n r k v : circle_wf n r -> isempty r = false -> 0 <= v < 2 ^ n -> contains r v = true ->
  contains (mk_CircleRange (uw n (left r + k)) (uw n (right r + k)) (mask r) false (step r)) (uw n (v + k)) = true.
Proof.
  intros (Hn & _ & Hl & Hr & Hs & Hd & _) He Hv <-. rewrite !contains_eq. cbn [isempty step left right].
  by rewrite He, residue_rotate, arc_rotate by (done || lia).
Qed.

Lemma add_sound n r1 r2 v w : circle_wf n r1 -> circle_wf n r2 -> isempty r1 = false -> isempty r2 = false ->
  0 <= v < 2 ^ n -> 0 <= w < 2 ^ n -> contains r1 v = true -> contains r2 w = true ->
  contains (push_forward_add r1 r2) (uw n (v + w)) = true.
Proof.
  intros Hw1 Hw2 He1 He2 Hv Hw Hc1 Hc2. pose proof Hw1 as (Hn & Hm1 & Hl1 & Hr1 & Hs1 & Hd1 & _).
  pose proof Hw2 as (_ & Hm2 & Hl2 & Hr2 & Hs2 & Hd2 & _).
  destruct (min_step_divides n (step r1) (step r2)) as (Hm & Hm' & Hle & Hle' & Hmin); try (done || lia).
  unfold push_forward_add. set (s := if step r1 <? step r2 then step r1 else step r2) in *.
  assert (Hs : 1 <= s < 2 ^ 31) by (destruct Hmin; lia).
  assert (Hds : (s | 2 ^ n)) by (destruct Hmin as [-> | ->]; done). clearbody s.
  rewrite Hm2, <- Hm1, Z.lor_diag, !(step_value_eq s), !step_value_eq by done.
  pose proof (contains_residue n r1 v Hw1 He1 Hc1) as Hv1. pose proof (contains_residue n r2 w Hw2 He2 Hc2) as Hv2.
  assert (Hsv : (s | left r1 - v)) by (by apply (Z.divide_trans _ (step r1))).
  assert (Hsw : (s | left r2 - w)) by (by apply (Z.divide_trans _ (step r2))).
  destruct (Z.eqb_spec (left r1) (right r1)) as [|Hne1]; [|destruct (Z.eqb_spec (left r2) (right r2)) as [|Hne2]];
    cbn [orb].
  1,2: apply mk_contains; [done|apply residue_sum; (done || lia)|apply arc_full].
  rewrite !(land_mask_u64 n) by done.
  destruct (is_single r2) eqn:Hsg2; [|destruct (is_single r1) eqn:Hsg1].
  - rewrite (single_contains n) in Hc2 by done. apply Z.eqb_eq in Hc2 as ->. by apply rotate_push.
  - rewrite (single_contains n) in Hc1 by done. apply Z.eqb_eq in Hc1 as ->. rewrite Hm1, <- Hm2, (Z.add_comm (left r1)).
    by apply rotate_push.
  - destruct (contains_offset n r1 v) as (d1 & D1 & Hdd1 & HDD1 & Hb1 & HB1 & Ev & Er1); try done.
    destruct (contains_offset n r2 w) as (d2 & D2 & Hdd2 & HDD2 & Hb2 & HB2 & Ew & Er2); try done.
    set (lft := uw n (left r1 + left r2)). set (T := D1 + D2 - step r1 - step r2 + s).
    assert (HdT : (s | D1 + D2 - step r1 - step r2)).
    { repeat apply Z.divide_sub_r; try apply Z.divide_add_r; try done;
        first [by apply (Z.divide_trans _ (step r1))|by apply (Z.divide_trans _ (step r2))]. }
    replace (uw n (u64 (u64 (u64 (right r1 - step r1) + right r2) - step r2) + s)) with (uw n (lft + T));
      [|rewrite Er1, Er2; unfold lft, T; word_ring].
    replace (uw n (v + w)) with (uw n (lft + (d1 + d2))) by (rewrite Ev, Ew; unfold lft; word_ring).
    rewrite (normalize_contains n).
    + apply mk_contains; [done| |].
      * replace (uw n (lft + (d1 + d2))) with (uw n (v + w)) by (rewrite Ev, Ew; unfold lft; word_ring).
        apply residue_sum; (done || lia).
      * rewrite Er1, Hm1. by apply add_arc_sound; try lia.
    + assert (Hlft : 0 <= lft < 2 ^ n) by (apply uw_range; lia).
      split; [done|]. split; [done|]. cbn [left right step]. split; [done|]. split.
      { destruct (add_extent lft _ _ _ <? _); [done|apply uw_range; lia]. }
      split; [done|]. split; [done|]. destruct (add_extent lft _ _ _ <? _); [rewrite Z.sub_diag; apply Z.divide_0_r|].
      destruct (uw_divide n s (lft + T) ltac:(lia) Hds) as [a Ha]. destruct HdT as [b Hb].
      exists (a - b - 1). unfold T in Ha |- *. lia.
Qed.

(** The additions and their behaviours. *)
Definition additions : list (OpCode * OpBehavior) := [(IntAdd, OpBehaviorIntAdd); (Ptrsub, OpBehaviorPtrsub)].

(** C35: pushing two ranges, of any strides, forward through an addition never
    loses a sum, wrapped sums included. *)
Theorem push_forward_add_sound q opc b r1 r2 size max_step v w out :
  (opc, b) ∈ additions -> 1 <= size <= 8 -> circle_wf (8 * size) r1 -> circle_wf (8 * size) r2 ->
  is_u (8 * size) v -> is_u (8 * size) w -> contains r1 v = true -> contains r2 w = true ->
  evaluate_binary b size size v w = Ok out ->
  (push_forward_binary q opc r1 r2 size size max_step).2 = true /\
  contains (push_forward_binary q opc r1 r2 size size max_step).1 out = true.
Proof.
  intros Hop Hs Hw1 Hw2 Hv Hw Hc1 Hc2.
  assert (He1 : isempty r1 = false) by (rewrite contains_eq in Hc1; by destruct (isempty r1)).
  assert (He2 : isempty r2 = false) by (rewrite contains_eq in Hc2; by destruct (isempty r2)).
  unfold additions in Hop. rewrite !elem_of_cons, elem_of_nil in Hop. unfold push_forward_binary. rewrite He1, He2.
  destruct Hop as [E|[E|[]]]; injection E as -> ->; eval_op; rewrite land_u64_calc_mask by lia; intros [= <-];
    (split; [done|]); by apply add_sound.
Qed.

Lemma push_forward_add_sound_witness :
  (push_forward_binary circle_new IntAdd (new_range 0xf0 0x10 1 4) (new_range 2 0x22 1 8) 1 1 32).1 =
    mk_CircleRange 0xf2 0x2a 0xff false 4 /\
  contains (push_forward_binary circle_new IntAdd (new_range 0xf0 0x10 1 4) (new_range 2 0x22 1 8) 1 1 32).1 0x1e = true.
Proof.
  split; [reflexivity|].
  apply (push_forward_add_sound circle_new IntAdd OpBehaviorIntAdd (new_range 0xf0 0x10 1 4) (new_range 2 0x22 1 8) 1 32 0x0c 0x12);
    try reflexivity; try lia; try (unfold is_u; lia); try (apply circle_wfb_ok; reflexivity).
  apply list_elem_of_In. cbn. tauto.
Defined.

(** ** Where a value is lost *)

(** The right shifts, the left shift and the truncation lose values on ranges
    that pass 0 or the sign change. *)
Theorem push_forward_lossy :
  (let r' := (push_forward_binary circle_new IntRight (set_full 1) (new_single 4 1) 1 1 32).1 in
   contains (set_full 1) 0xff = true /\ contains r' 0x0f = false) /\
  (let r' := (push_forward_binary circle_new IntSright (set_full 1) (new_single 0 1) 1 1 32).1 in
   contains (set_full 1) 0x7f = true /\ contains r' 0x7f = false) /\
  (let r' := (push_forward_binary circle_new IntLeft (new_range 0x81 2 1 1) (new_single 1 1) 1 1 32).1 in
   contains (new_range 0x81 2 1 1) 0x90 = true /\ contains r' 0x20 = false) /\
  (let r' := (push_forward_binary circle_new Subpiece (new_range 2 1 2 1) (new_single 0 2) 2 1 32).1 in
   contains (new_range 2 1 2 1) 0x101 = true /\ contains r' 1 = false).
Proof. by vm_compute. Qed.
