(* ===== verification/BitRange.v ===== *)
(** [BitRange] of [src/src/address.rs]: a run of bits inside a container of
    bytes, of either byte order.  The methods that change the range in place
    return the changed range. *)
From stdpp Require Import base list numbers strings.
From Stdlib Require Import ZArith Lia.
From S2P Require Import Prelude Bits.

(** ** Definitions *)

Record BitRange : Type := mk_BitRange {
  byte_offset : Z;
  byte_size : Z;
  least_sig_bit : Z;
  num_bits : Z;
  is_big_endian : bool;
}.

Definition bitrange_default : BitRange := mk_BitRange (-1) (-1) (-1) (-1) false.

Definition new_bytes (b_off b_size : Z) (big_endian : bool) : BitRange :=
  mk_BitRange b_off b_size 0 (i32 (b_size * 8)) big_endian.

Definition bitrange_new (b_off b_size least num : Z) (big_endian : bool) : BitRange :=
  mk_BitRange b_off b_size least num big_endian.

Definition translate_lsb (r op2 : BitRange) : Z :=
  let op2_sig := least_sig_bit op2 in
  if is_big_endian r then
    let this_pos := i32 (byte_offset r + byte_size r) in
    let op2_pos := i32 (byte_offset op2 + byte_size op2) in
    i32 (op2_sig + i32 (8 * i32 (this_pos - op2_pos)))
  else i32 (op2_sig + i32 (8 * i32 (byte_offset op2 - byte_offset r))).

(** Field updates. *)
Definition with_bits (r : BitRange) (lsb num : Z) : BitRange :=
  mk_BitRange (byte_offset r) (byte_size r) lsb num (is_big_endian r).
Definition with_container (r : BitRange) (off size : Z) : BitRange :=
  mk_BitRange off size (least_sig_bit r) (num_bits r) (is_big_endian r).

Definition from_container (op2 : BitRange) (off sz : Z) : BitRange :=
  let res := mk_BitRange off sz 0 (num_bits op2) (is_big_endian op2) in
  with_bits res (translate_lsb res op2) (num_bits res).

Definition bitrange_empty (r : BitRange) : bool := num_bits r <=? 0.

Definition compare (r op2 : BitRange) : Z :=
  if negb (byte_offset r =? byte_offset op2) then if byte_offset r <? byte_offset op2 then -1 else 1
  else if negb (byte_size r =? byte_size op2) then if byte_size r <? byte_size op2 then -1 else 1
  else if negb (least_sig_bit r =? least_sig_bit op2) then if least_sig_bit r <? least_sig_bit op2 then -1 else 1
  else if negb (num_bits r =? num_bits op2) then if num_bits r <? num_bits op2 then -1 else 1
  else 0.

Definition overlap_test (r op2 : BitRange) : Z :=
  let op2_sig := translate_lsb r op2 in
  let this_most := i32 (least_sig_bit r + num_bits r) in
  let op2_most := i32 (op2_sig + num_bits op2) in
  let rest :=
    if (least_sig_bit r =? op2_sig) && (this_most =? op2_most) then 0
    else if (op2_sig <=? least_sig_bit r) && (op2_most >=? this_most) then 2
    else if (least_sig_bit r <=? op2_sig) && (this_most >=? op2_most) then 3
    else 4 in
  if is_big_endian r then
    if least_sig_bit r >=? op2_most then -1
    else if op2_sig >=? this_most then 1
    else rest
  else if this_most <=? op2_sig then -1
  else if op2_most <=? least_sig_bit r then 1
  else rest.

Definition intersection (r op2 : BitRange) : BitRange :=
  let op2_sig := translate_lsb r op2 in
  let op2_most := i32 (op2_sig + num_bits op2) in
  let this_most := i32 (least_sig_bit r + num_bits r) in
  let r :=
    if op2_sig >? least_sig_bit r
    then with_bits r op2_sig (i32 (num_bits r - i32 (op2_sig - least_sig_bit r))) else r in
  let r :=
    if op2_most <? this_most
    then with_bits r (least_sig_bit r) (i32 (num_bits r - i32 (this_most - op2_most))) else r in
  if num_bits r <? 0 then with_bits r 0 0 else r.

Definition get_mask (r : BitRange) : Z :=
  let res := if u32 (num_bits r) >=? 64 then 0 else shl64 1 (u32 (num_bits r)) in
  let res := u64 (res - 1) in
  shl64 res (u32 (least_sig_bit r)).

Definition intersect_mask (r : BitRange) (mask : Z) : BitRange :=
  let mask := Z.land mask (get_mask r) in
  if mask =? 0 then with_bits r 0 0 else
  let new_least_sig := leastsigbit_set mask in
  let new_most_sig := i32 (mostsigbit_set mask + 1) in
  let this_most := i32 (least_sig_bit r + num_bits r) in
  let r :=
    if new_least_sig >? least_sig_bit r
    then with_bits r new_least_sig (i32 (num_bits r - i32 (new_least_sig - least_sig_bit r))) else r in
  if new_most_sig <? this_most
  then with_bits r (least_sig_bit r) (i32 (num_bits r - i32 (this_most - new_most_sig))) else r.

Definition shift (r : BitRange) (left_shift_amount : Z) : BitRange :=
  let r := with_bits r (i32 (least_sig_bit r + left_shift_amount)) (num_bits r) in
  let most := i32 (least_sig_bit r + num_bits r) in
  let r :=
    if least_sig_bit r <? 0 then with_bits r 0 (i32 (num_bits r + least_sig_bit r))
    else if most >? i32 (byte_size r * 8)
    then with_bits r (least_sig_bit r) (i32 (num_bits r - i32 (most - i32 (byte_size r * 8)))) else r in
  if num_bits r <? 0 then with_bits r 0 0 else r.

Definition truncate_most_sig_bytes (r : BitRange) (num : Z) : BitRange :=
  let r := with_container r (if is_big_endian r then i32 (byte_offset r + num) else byte_offset r)
             (i32 (byte_size r - num)) in
  let max_offset := i32 (least_sig_bit r + num_bits r) in
  let r :=
    if max_offset >? i32 (byte_size r * 8)
    then with_bits r (least_sig_bit r) (i32 (num_bits r - i32 (max_offset - i32 (byte_size r * 8)))) else r in
  if num_bits r <? 0 then with_bits r (least_sig_bit r) 0 else r.

Definition truncate_least_sig_bytes (r : BitRange) (num : Z) : BitRange :=
  let r := with_container r (if is_big_endian r then byte_offset r else i32 (byte_offset r + num))
             (i32 (byte_size r - num)) in
  let r := with_bits r (i32 (least_sig_bit r - i32 (num * 8))) (num_bits r) in
  if least_sig_bit r <? 0 then
    let r := with_bits r 0 (i32 (num_bits r + least_sig_bit r)) in
    if num_bits r <? 0 then with_bits r (least_sig_bit r) 0 else r
  else r.

Definition extend_bytes (r : BitRange) (num : Z) : BitRange :=
  with_container r (if is_big_endian r then i32 (byte_offset r - num) else byte_offset r) (i32 (byte_size r + num)).

Definition is_byte_range (r : BitRange) : bool :=
  (Z.land (num_bits r) 7 =? 0) && (Z.land (least_sig_bit r) 7 =? 0).

Definition is_most_significant (r : BitRange) : bool :=
  i32 (8 * byte_size r) =? i32 (least_sig_bit r + num_bits r).

Definition minimize_container (r : BitRange) : BitRange :=
  let trunc := Z.quot (least_sig_bit r) 8 in
  let r :=
    if is_big_endian r then with_container r (byte_offset r) (i32 (byte_size r - trunc))
    else with_container r (i32 (byte_offset r + trunc)) (byte_size r) in
  let r := with_bits r (Z.land (least_sig_bit r) 7) (num_bits r) in
  let num := i32 (byte_size r - Z.quot (i32 (i32 (least_sig_bit r + num_bits r) + 7)) 8) in
  if num >? 0 then
    with_container r (if is_big_endian r then i32 (byte_offset r + num) else byte_offset r) (i32 (byte_size r - num))
  else r.

Definition expand_to_most (r : BitRange) : BitRange :=
  with_bits r (least_sig_bit r) (i32 (i32 (8 * byte_size r) - least_sig_bit r)).

(** ** Bits of memory *)

(** The position of a container's bit 0 among all bits, in order of significance:
    from the low end of memory for a little endian container, from the high end
    for a big endian one. *)
Definition origin (r : BitRange) : Z :=
  if is_big_endian r then - 8 * (byte_offset r + byte_size r) else 8 * byte_offset r.

(** The bits a range holds. *)
Definition holds (r : BitRange) (p : Z) : Prop :=
  origin r + least_sig_bit r <= p < origin r + least_sig_bit r + num_bits r.

(** The bits of its container. *)
Definition in_container (r : BitRange) (p : Z) : Prop := origin r <= p < origin r + 8 * byte_size r.

(** Sizes far from the bounds of [i32], and no negative length. *)
Definition small (z : Z) : Prop := - 2 ^ 20 <= z <= 2 ^ 20.

Definition bits_ok (r : BitRange) : Prop :=
  small (byte_offset r) /\ small (byte_size r) /\ small (least_sig_bit r) /\ 0 <= num_bits r <= 2 ^ 20.

(** Drops the casts of small results and decides the tests. *)
Ltac no_wrap := repeat match goal with
  | |- context [i32 ?z] => rewrite (sw_small 32 z) by (unfold is_s; lia)
  | H : context [i32 ?z] |- _ => rewrite (sw_small 32 z) in H by (unfold is_s; lia)
  end.

Ltac bit_cases := repeat match goal with
  | |- context [?a <? ?b] => destruct (Z.ltb_spec a b)
  | |- context [?a <=? ?b] => destruct (Z.leb_spec a b)
  | |- context [?a >? ?b] => rewrite (Z.gtb_ltb a b)
  | |- context [?a >=? ?b] => rewrite (Z.geb_leb a b)
  | |- context [?a =? ?b] => destruct (Z.eqb_spec a b)
  end.

Lemma translate_lsb_eq r op2 : bits_ok r -> bits_ok op2 -> is_big_endian r = is_big_endian op2 ->
  translate_lsb r op2 = origin op2 + least_sig_bit op2 - origin r.
Proof.
  intros (? & ? & ? & ?) (? & ? & ? & ?) E. unfold small in *. unfold translate_lsb, origin. rewrite <- E.
  destruct (is_big_endian r); no_wrap; lia.
Qed.

Lemma origin_bound r : bits_ok r -> - 2 ^ 25 <= origin r <= 2 ^ 25.
Proof. intros (? & ? & ? & ?). unfold small, origin in *. destruct (is_big_endian r); lia. Qed.

(** The code of [overlap_test] on two runs of bits: -1 and 1 when one lies
    wholly before the other in memory order, 0 when they are the same bits, 2 and 3 when
    one holds the other, 4 when they overlap otherwise. *)
Theorem overlap_test_correct r op2 : bits_ok r -> bits_ok op2 -> is_big_endian r = is_big_endian op2 ->
  0 < num_bits r -> 0 < num_bits op2 ->
  match overlap_test r op2 with
  | -1 => forall p q, holds r p -> holds op2 q -> if is_big_endian r then q < p else p < q
  | 1 => forall p q, holds r p -> holds op2 q -> if is_big_endian r then p < q else q < p
  | 0 => forall p, holds r p <-> holds op2 p
  | 2 => (forall p, holds r p -> holds op2 p) /\ exists p, holds op2 p /\ ~ holds r p
  | 3 => (forall p, holds op2 p -> holds r p) /\ exists p, holds r p /\ ~ holds op2 p
  | 4 => (exists p, holds r p /\ holds op2 p) /\ (exists p, holds r p /\ ~ holds op2 p) /\
         exists p, holds op2 p /\ ~ holds r p
  | _ => False
  end.
Proof.
  intros Hr Ho E Hn1 Hn2. pose proof (origin_bound r Hr). pose proof (origin_bound op2 Ho).
  unfold overlap_test. rewrite translate_lsb_eq by done. destruct Hr as (_ & _ & ? & ?), Ho as (_ & _ & ? & ?).
  unfold holds, small in *. set (o1 := origin r) in *. set (o2 := origin op2) in *. clearbody o1 o2. no_wrap.
  assert (Hend : forall P : Z -> Prop, P (o1 + least_sig_bit r) \/ P (o1 + least_sig_bit r + num_bits r - 1) \/
    P (o2 + least_sig_bit op2) \/ P (o2 + least_sig_bit op2 + num_bits op2 - 1) -> exists p, P p) by naive_solver.
  rewrite !Z.geb_leb. destruct (is_big_endian r); bit_cases; cbn [andb]; try lia;
    repeat split; intros; try lia; apply Hend; lia.
Qed.

Lemma overlap_test_correct_witness :
  overlap_test (mk_BitRange 0 4 4 8 true) (mk_BitRange 2 2 0 8 true) = 4 /\
  exists p, holds (mk_BitRange 0 4 4 8 true) p /\ holds (mk_BitRange 2 2 0 8 true) p.
Proof.
  split; [reflexivity|].
  assert (Hok : forall o z l, small o -> small z -> small l -> bits_ok (mk_BitRange o z l 8 true)) by (unfold bits_ok, small; cbn; lia).
  assert (H := overlap_test_correct (mk_BitRange 0 4 4 8 true) (mk_BitRange 2 2 0 8 true)
    (Hok 0 4 4 ltac:(unfold small; lia) ltac:(unfold small; lia) ltac:(unfold small; lia))
    (Hok 2 2 0 ltac:(unfold small; lia) ltac:(unfold small; lia) ltac:(unfold small; lia)) eq_refl eq_refl eq_refl).
  change (overlap_test (mk_BitRange 0 4 4 8 true) (mk_BitRange 2 2 0 8 true)) with 4 in H. apply H.
Defined.

Lemma origin_with_bits r l n : origin (with_bits r l n) = origin r.
Proof. done. Qed.

Lemma holds_with_bits r l n p : holds (with_bits r l n) p <-> origin r + l <= p < origin r + l + n.
Proof. done. Qed.

(** Follows one test of an operation on a range whose fields are known. *)
Ltac follow_test :=
  match goal with |- context [if ?a <? ?b then _ else _] => destruct (Z.ltb_spec a b) end;
  cbn [least_sig_bit num_bits byte_size byte_offset is_big_endian with_bits with_container] in *; no_wrap.

(** Names the origin of a range, keeping only its bounds. *)
Ltac name_origin r o H :=
  let B := fresh in pose proof (origin_bound r ltac:(assumption)) as B; remember (origin r) as o eqn:H; symmetry in H.

Lemma intersection_holds r op2 p : bits_ok r -> bits_ok op2 -> is_big_endian r = is_big_endian op2 ->
  holds (intersection r op2) p <-> holds r p /\ holds op2 p.
Proof.
  intros Hr Ho E. unfold intersection. rewrite translate_lsb_eq by done. name_origin r o1 E1. name_origin op2 o2 E2.
  destruct Hr as (_ & _ & ? & ?), Ho as (_ & _ & ? & ?). unfold small in *.
  no_wrap. rewrite Z.gtb_ltb. follow_test; follow_test; follow_test;
    rewrite ?holds_with_bits; unfold holds; rewrite ?origin_with_bits, ?E1, ?E2; lia.
Qed.

Lemma truncate_most_holds r k p : bits_ok r -> 0 <= least_sig_bit r -> 0 <= k <= byte_size r ->
  let r' := truncate_most_sig_bytes r k in
  origin r' = origin r /\ byte_size r' = byte_size r - k /\ (holds r' p <-> holds r p /\ in_container r' p).
Proof.
  intros Hr Hl Hk. destruct Hr as (? & ? & ? & ?). unfold small in *. unfold truncate_most_sig_bytes.
  cbn [least_sig_bit num_bits byte_size byte_offset is_big_endian with_bits with_container]. no_wrap.
  rewrite Z.gtb_ltb. unfold holds, in_container, origin.
  destruct (is_big_endian r) eqn:B; no_wrap; follow_test; follow_test; rewrite ?B; lia.
Qed.

Lemma truncate_least_holds r k p : bits_ok r -> 0 <= k <= byte_size r ->
  least_sig_bit r + num_bits r <= 8 * byte_size r ->
  let r' := truncate_least_sig_bytes r k in
  origin r' = origin r + 8 * k /\ byte_size r' = byte_size r - k /\ (holds r' p <-> holds r p /\ in_container r' p).
Proof.
  intros Hr Hk Hin. destruct Hr as (? & ? & ? & ?). unfold small in *. unfold truncate_least_sig_bytes.
  cbn [least_sig_bit num_bits byte_size byte_offset is_big_endian with_bits with_container]. no_wrap.
  unfold holds, in_container, origin.
  destruct (is_big_endian r) eqn:B; no_wrap; follow_test; try follow_test; rewrite ?B; lia.
Qed.

Lemma shift_holds r k p : bits_ok r -> small k -> 0 <= least_sig_bit r -> least_sig_bit r + num_bits r <= 8 * byte_size r ->
  holds (shift r k) p <-> holds r (p - k) /\ in_container r p.
Proof.
  intros Hr Hk Hl Hin. destruct Hr as (? & ? & ? & ?). unfold small in *. unfold shift.
  cbn [least_sig_bit num_bits byte_size byte_offset is_big_endian with_bits with_container]. no_wrap.
  rewrite Z.gtb_ltb. unfold in_container. follow_test; follow_test; try follow_test;
    rewrite ?holds_with_bits; unfold holds; rewrite ?origin_with_bits;
    cbn [least_sig_bit num_bits with_bits]; lia.
Qed.

(** The operations that cut a run of bits hold exactly the bits they should:
    those of both runs for [intersection], those left in the smaller container
    for the truncations, and the moved bits that stay in the container for
    [shift]. *)
Theorem bit_set_operations r op2 k p : bits_ok r -> bits_ok op2 -> is_big_endian r = is_big_endian op2 ->
  0 <= least_sig_bit r -> least_sig_bit r + num_bits r <= 8 * byte_size r -> 0 <= k <= byte_size r ->
  (holds (intersection r op2) p <-> holds r p /\ holds op2 p) /\
  (holds (truncate_most_sig_bytes r k) p <-> holds r p /\ in_container (truncate_most_sig_bytes r k) p) /\
  (holds (truncate_least_sig_bytes r k) p <-> holds r p /\ in_container (truncate_least_sig_bytes r k) p) /\
  (holds (shift r k) p <-> holds r (p - k) /\ in_container r p) /\
  (holds (shift r (- k)) p <-> holds r (p + k) /\ in_container r p).
Proof.
  intros Hr Ho E Hl Hin Hk. assert (small k /\ small (- k)) as [? ?] by (destruct Hr as (_ & ? & _); unfold small in *; lia).
  split; [by apply intersection_holds|]. split; [by apply truncate_most_holds|]. split; [by apply truncate_least_holds|].
  split; [by apply shift_holds|]. rewrite <- (Z.sub_opp_r p k). by apply shift_holds.
Qed.

Lemma bit_set_operations_witness :
  (holds (intersection (mk_BitRange 0 4 4 8 false) (mk_BitRange 1 2 0 8 false)) 9 <->
     holds (mk_BitRange 0 4 4 8 false) 9 /\ holds (mk_BitRange 1 2 0 8 false) 9) /\
  (holds (shift (mk_BitRange 0 4 4 8 false) 2) 13 <->
     holds (mk_BitRange 0 4 4 8 false) (13 - 2) /\ in_container (mk_BitRange 0 4 4 8 false) 13).
Proof.
  destruct (bit_set_operations (mk_BitRange 0 4 4 8 false) (mk_BitRange 1 2 0 8 false) 2 9) as (H & _);
    unfold bits_ok, small; cbn; try lia.
  split; [exact H|]. clear H.
  apply (bit_set_operations (mk_BitRange 0 4 4 8 false) (mk_BitRange 1 2 0 8 false) 2 13);
    unfold bits_ok, small; cbn; try lia; reflexivity.
Defined.

(** [minimize_container] keeps the bits and leaves the smallest container of
    whole bytes: its first and its last byte hold bits of the run. *)
Theorem minimize_container_correct r : bits_ok r -> 0 <= least_sig_bit r -> 0 < num_bits r ->
  least_sig_bit r + num_bits r <= 8 * byte_size r ->
  let r' := minimize_container r in
  (forall p, holds r' p <-> holds r p) /\ is_big_endian r' = is_big_endian r /\
  0 <= least_sig_bit r' < 8 /\ 8 * (byte_size r' - 1) < least_sig_bit r' + num_bits r' <= 8 * byte_size r'.
Proof.
  intros (? & ? & ? & ?) Hl Hn Hin. unfold small in *. unfold minimize_container.
  cbn [least_sig_bit num_bits byte_size byte_offset is_big_endian with_bits with_container].
  rewrite Z.quot_div_nonneg by lia.
  pose proof (Z.div_mod (least_sig_bit r) 8 ltac:(lia)) as Hd. pose proof (Z.mod_pos_bound (least_sig_bit r) 8 ltac:(lia)).
  pose proof (Z.div_pos (least_sig_bit r) 8 ltac:(lia) ltac:(lia)). set (q := least_sig_bit r / 8) in *.
  destruct (is_big_endian r) eqn:B; cbn [least_sig_bit num_bits byte_size byte_offset is_big_endian with_bits with_container];
    rewrite !(Z.land_ones _ 3) by lia; change (2 ^ 3) with 8; set (m := least_sig_bit r mod 8) in *; clearbody q m; no_wrap;
    rewrite Z.quot_div_nonneg, Z.gtb_ltb by lia; pose proof (Z.div_mod (m + num_bits r + 7) 8 ltac:(lia));
    pose proof (Z.mod_pos_bound (m + num_bits r + 7) 8 ltac:(lia)); set (c := (m + num_bits r + 7) / 8) in *;
    set (e := (m + num_bits r + 7) mod 8) in *; clearbody c e; no_wrap; follow_test;
    unfold holds, origin; cbn [least_sig_bit num_bits byte_size byte_offset is_big_endian with_bits with_container];
    rewrite !B; no_wrap; repeat split; intros; try done; lia.
Qed.

Lemma minimize_container_correct_witness :
  minimize_container (mk_BitRange 0 8 20 9 true) = mk_BitRange 4 2 4 9 true /\
  8 * (2 - 1) < 4 + 9 <= 8 * 2.
Proof.
  split; [reflexivity|].
  apply (minimize_container_correct (mk_BitRange 0 8 20 9 true)); unfold bits_ok, small; cbn; lia.
Defined.

(** ** Masks *)

Lemma get_mask_testbit r i : 0 <= least_sig_bit r -> 0 < num_bits r -> least_sig_bit r + num_bits r <= 64 -> 0 <= i ->
  Z.testbit (get_mask r) i = (least_sig_bit r <=? i) && (i <? least_sig_bit r + num_bits r).
Proof.
  intros Hl Hn Hin Hi. unfold get_mask, shl64. rewrite !(uw_small 32) by (unfold is_u; lia).
  assert (E : u64 ((if num_bits r >=? 64 then 0 else u64 (Z.shiftl 1 (num_bits r mod 64))) - 1) = Z.ones (num_bits r)).
  { rewrite Z.geb_leb, Z.ones_equiv. destruct (Z.leb_spec 64 (num_bits r)).
    - by replace (num_bits r) with 64 by lia.
    - rewrite Z.mod_small, Z.shiftl_mul_pow2, Z.mul_1_l by lia.
      pose proof (Z.pow_lt_mono_r 2 (num_bits r) 64 ltac:(lia) ltac:(lia) ltac:(lia)).
      pose proof (pow2_pos (num_bits r) ltac:(lia)). rewrite !u64_small by (rewrite ?u64_small; lia). lia. }
  rewrite E, testbit_uw by lia. rewrite Z.mod_small, Z.shiftl_spec by lia.
  destruct (Z.leb_spec (least_sig_bit r) i); cbn [andb].
  - rewrite Z.testbit_ones_nonneg by lia. destruct (Z.ltb_spec i 64), (Z.ltb_spec (i - least_sig_bit r) (num_bits r)),
      (Z.ltb_spec i (least_sig_bit r + num_bits r)); try done; lia.
  - rewrite Z.testbit_neg_r by lia. by rewrite andb_false_r.
Qed.

(** The run of a range inside its container. *)
Definition in_run (r : BitRange) (i : Z) : Prop := least_sig_bit r <= i < least_sig_bit r + num_bits r.

(** [intersect_mask] gives the shortest run that holds every bit of the mask
    in the range: its two ends are such bits, and it is empty when there is
    none. *)
Theorem intersect_mask_correct r mask : 0 <= least_sig_bit r -> 0 < num_bits r ->
  least_sig_bit r + num_bits r <= 64 -> is_u 64 mask ->
  let r' := intersect_mask r mask in
  (forall i, 0 <= i -> Z.testbit mask i = true -> in_run r i -> in_run r' i) /\
  (num_bits r' = 0 \/
   0 < num_bits r' /\ least_sig_bit r <= least_sig_bit r' /\
   least_sig_bit r' + num_bits r' <= least_sig_bit r + num_bits r /\
   Z.testbit mask (least_sig_bit r') = true /\ Z.testbit mask (least_sig_bit r' + num_bits r' - 1) = true).
Proof.
  intros Hl Hn Hin Hm. unfold intersect_mask. set (m := Z.land mask (get_mask r)).
  assert (Hbit : forall i, 0 <= i -> Z.testbit m i = true <-> Z.testbit mask i = true /\ in_run r i).
  { intros i Hi. unfold m, in_run. rewrite Z.land_spec, get_mask_testbit by lia.
    rewrite !andb_true_iff, Z.leb_le, Z.ltb_lt. done. }
  destruct (Z.eqb_spec m 0) as [E|Hnz].
  { split; [|by left]. intros i Hi Hmi Hr. exfalso. assert (Z.testbit m i = true) as Hb by (by apply Hbit).
    rewrite E, Z.bits_0 in Hb. done. }
  assert (Hpos : 0 < m).
  { assert (0 <= m); [|lia]. apply Z.land_nonneg. left. unfold is_u in Hm. lia. }
  destruct (leastsigbit_set_spec m Hpos) as (Hl0 & Hl1 & Hl2). rewrite mostsigbit_set_eq by done.
  pose proof (Z.bit_log2 m Hpos) as Hh1. pose proof (Z.log2_nonneg m).
  destruct (proj1 (Hbit _ Hl0) Hl1) as [Hml Hrl]. destruct (proj1 (Hbit _ ltac:(done)) Hh1) as [Hmh Hrh].
  assert (Hlh : leastsigbit_set m <= Z.log2 m).
  { destruct (Z.le_gt_cases (leastsigbit_set m) (Z.log2 m)); [done|]. by rewrite Z.bits_above_log2 in Hl1 by lia. }
  unfold in_run in Hrl, Hrh. rewrite !Z.gtb_ltb. no_wrap.
  set (lo := leastsigbit_set m) in *. set (hi := Z.log2 m) in *.
  assert (Hcover : forall i, 0 <= i -> Z.testbit mask i = true -> in_run r i -> lo <= i <= hi).
  { intros i Hi Hmi Hri. assert (Z.testbit m i = true) as Hb by (by apply Hbit). split.
    - destruct (Z.le_gt_cases lo i); [done|]. rewrite Hl2 in Hb by lia. done.
    - destruct (Z.le_gt_cases i hi); [done|]. rewrite Z.bits_above_log2 in Hb by lia. done. }
  assert (Hres : forall r', least_sig_bit r' = lo -> num_bits r' = hi + 1 - lo ->
    (forall i, 0 <= i -> Z.testbit mask i = true -> in_run r i -> in_run r' i) /\
    (num_bits r' = 0 \/ 0 < num_bits r' /\ least_sig_bit r <= least_sig_bit r' /\
     least_sig_bit r' + num_bits r' <= least_sig_bit r + num_bits r /\
     Z.testbit mask (least_sig_bit r') = true /\ Z.testbit mask (least_sig_bit r' + num_bits r' - 1) = true)).
  { intros r' E1 E2. split.
    - intros i Hi Hmi Hri. unfold in_run. rewrite E1, E2. specialize (Hcover i Hi Hmi Hri). lia.
    - right. rewrite E1, E2. replace (lo + (hi + 1 - lo) - 1) with hi by lia. repeat split; try done; lia. }
  apply Hres; follow_test; follow_test; lia.
Qed.

Lemma intersect_mask_correct_witness :
  intersect_mask (mk_BitRange 0 8 4 40 false) 0xf00f0 = mk_BitRange 0 8 4 16 false /\
  in_run (mk_BitRange 0 8 4 16 false) 17.
Proof.
  split; [reflexivity|].
  apply (intersect_mask_correct (mk_BitRange 0 8 4 40 false) 0xf00f0); unfold is_u, in_run; cbn; try lia; reflexivity.
Defined.
