(* ===== verification/Block.v ===== *)
(** The blocks of [src/src/block.rs] and the operations on their edges.  A block
    lists the edges into it and the edges out of it; each end of an edge names
    the block at the other end and the position of its twin in that block's
    list ([reverse_index]).  The functions of [Funcdata] used here only touch
    the arena [blocks], which is the state.  The methods for the edges in and
    the edges out are written twice in the source, word for word with the two
    lists exchanged; here they are one definition with the [side] as argument.

    The invariant is that twins name each other.  [half_delete_edge_eq] gives
    the effect of the shifting loop in closed form, and the effect of every
    other operation follows from it. *)
From stdpp Require Import base list gmap numbers strings.
From Stdlib Require Import ZArith Lia.
From S2P Require Import Prelude Bits Address RangeList OpList Opcodes Arena.

(** ** Definitions *)

Record BlockEdge : Type := mk_BlockEdge { label : Z; point : nat; reverse_index : Z }.

Inductive BlockType : Type :=
  | T_Plain | T_Basic | T_Graph | T_Copy | T_Goto | T_MultiGoto | T_Ls | T_Condition | T_If | T_IfElse
  | T_IfNoExit | T_IfGoto | T_WhileDo | T_DoWhile | T_Switch | T_InfLoop.

#[export] Instance BlockType_eq_dec : EqDecision BlockType.
Proof. solve_decision. Defined.

Record BlockBasicData : Type := mk_BlockBasicData { op : IntrusiveList; cover : RangeList }.

Record CaseOrder : Type := mk_CaseOrder {
  case_block : nat; basicblock : nat; case_label : Z; depth : Z; case_chain : Z; outindex : Z;
  case_gototype : Z; isexit : bool; isdefault : bool }.

Definition case_compare (first second : CaseOrder) : bool :=
  if negb (case_label first =? case_label second) then case_label first <? case_label second
  else depth first <? depth second.

Inductive BlockKind : Type :=
  | K_Plain
  | K_Basic (data : BlockBasicData)
  | K_Graph
  | K_Copy (copy : option nat)
  | K_Goto (gototarget : nat) (gototype : Z)
  | K_MultiGoto (gotoedges : list nat) (defaultswitch : bool)
  | K_List
  | K_Condition (opc : OpCode)
  | K_If
  | K_IfElse
  | K_IfNoExit
  | K_IfGoto (gototype : Z) (gototarget : nat)
  | K_WhileDo (initialize_op iterate_op loop_def : option nat)
  | K_DoWhile
  | K_InfLoop
  | K_Switch (jump : option nat) (caseblocks : list CaseOrder).

Record FlowBlock : Type := mk_FlowBlock {
  parent : option nat;
  immed_dom : option nat;
  copymap : option nat;
  intothis : list BlockEdge;
  outofthis : list BlockEdge;
  flags : Z;
  block_index : Z;
  visitcount : Z;
  numdesc : Z;
  leaf_count : Z;
  structure_depth : Z;
  block_list : list nat;
  kind : BlockKind }.

Definition F_GOTO_GOTO : Z := 1.
Definition F_SWITCH_OUT : Z := 0x10.
Definition F_UNSTRUCTURED_TARG : Z := 0x20.
Definition F_MARK : Z := 0x80.
Definition F_MARK2 : Z := 0x100.
Definition F_ENTRY_POINT : Z := 0x200.
Definition F_INTERIOR_GOTOOUT : Z := 0x400.
Definition F_INTERIOR_GOTOIN : Z := 0x800.
Definition F_FLIP_PATH : Z := 0x10000.

Definition F_GOTO_EDGE : Z := 1.
Definition F_LOOP_EDGE : Z := 2.
Definition F_DEFAULTSWITCH_EDGE : Z := 4.
Definition F_IRREDUCIBLE : Z := 8.
Definition F_TREE_EDGE : Z := 0x10.
Definition F_FORWARD_EDGE : Z := 0x20.
Definition F_CROSS_EDGE : Z := 0x40.
Definition F_BACK_EDGE : Z := 0x80.
Definition F_LOOP_EXIT_EDGE : Z := 0x100.
Definition F_IMMED_COPY : Z := 0x200.

(** [x & !y] on [u32]. *)
Definition without (x y : Z) : Z := Z.land x (u32 (Z.lnot y)).

Definition block_new (k : BlockKind) : FlowBlock := mk_FlowBlock None None None [] [] 0 0 0 0 1 0 [] k.

Definition new_graph_kind (k : BlockKind) : FlowBlock :=
  let b := block_new k in
  mk_FlowBlock (parent b) (immed_dom b) (copymap b) (intothis b) (outofthis b) (flags b) (block_index b)
    (visitcount b) (numdesc b) 0 (structure_depth b) (block_list b) (kind b).

Definition BASIC_LIST : nat := 0%nat.

Definition new_basic : FlowBlock := block_new (K_Basic (mk_BlockBasicData (list_new BASIC_LIST) [])).
Definition new_copy (bl : option nat) : FlowBlock := block_new (K_Copy bl).
Definition new_goto (bl : nat) : FlowBlock := new_graph_kind (K_Goto bl F_GOTO_GOTO).
Definition new_multi_goto : FlowBlock := new_graph_kind (K_MultiGoto [] false).
Definition new_condition (opc : OpCode) : FlowBlock := new_graph_kind (K_Condition opc).
Definition new_if_goto (target : nat) : FlowBlock := new_graph_kind (K_IfGoto F_GOTO_GOTO target).
Definition new_while_do : FlowBlock := new_graph_kind (K_WhileDo None None None).

Definition is_graph (b : FlowBlock) : bool :=
  match kind b with K_Plain | K_Basic _ | K_Copy _ => false | _ => true end.

Definition get_type (b : FlowBlock) : BlockType :=
  match kind b with
  | K_Plain => T_Plain | K_Basic _ => T_Basic | K_Graph => T_Graph | K_Copy _ => T_Copy | K_Goto _ _ => T_Goto
  | K_MultiGoto _ _ => T_MultiGoto | K_List => T_Ls | K_Condition _ => T_Condition | K_If => T_If
  | K_IfElse => T_IfElse | K_IfNoExit => T_IfNoExit | K_IfGoto _ _ => T_IfGoto | K_WhileDo _ _ _ => T_WhileDo
  | K_DoWhile => T_DoWhile | K_InfLoop => T_InfLoop | K_Switch _ _ => T_Switch
  end.

(** *** Fields of a block and of the arena *)

Inductive side : Type := Into | OutOf.

#[export] Instance side_eq_dec : EqDecision side.
Proof. solve_decision. Defined.

Definition other (s : side) : side := match s with Into => OutOf | OutOf => Into end.

Definition edges (s : side) (b : FlowBlock) : list BlockEdge :=
  match s with Into => intothis b | OutOf => outofthis b end.

(** Writes to both lists at once, to the flags, and to the other fields. *)
Definition with_edges (f : side -> list BlockEdge -> list BlockEdge) (b : FlowBlock) : FlowBlock :=
  mk_FlowBlock (parent b) (immed_dom b) (copymap b) (f Into (intothis b)) (f OutOf (outofthis b)) (flags b)
    (block_index b) (visitcount b) (numdesc b) (leaf_count b) (structure_depth b) (block_list b) (kind b).

Definition with_flags (f : Z -> Z) (b : FlowBlock) : FlowBlock :=
  mk_FlowBlock (parent b) (immed_dom b) (copymap b) (intothis b) (outofthis b) (f (flags b))
    (block_index b) (visitcount b) (numdesc b) (leaf_count b) (structure_depth b) (block_list b) (kind b).

Definition with_parent (x : option nat) (b : FlowBlock) : FlowBlock :=
  mk_FlowBlock x (immed_dom b) (copymap b) (intothis b) (outofthis b) (flags b)
    (block_index b) (visitcount b) (numdesc b) (leaf_count b) (structure_depth b) (block_list b) (kind b).

Definition with_immed_dom (x : option nat) (b : FlowBlock) : FlowBlock :=
  mk_FlowBlock (parent b) x (copymap b) (intothis b) (outofthis b) (flags b)
    (block_index b) (visitcount b) (numdesc b) (leaf_count b) (structure_depth b) (block_list b) (kind b).

Definition with_copymap (x : option nat) (b : FlowBlock) : FlowBlock :=
  mk_FlowBlock (parent b) (immed_dom b) x (intothis b) (outofthis b) (flags b)
    (block_index b) (visitcount b) (numdesc b) (leaf_count b) (structure_depth b) (block_list b) (kind b).

Definition with_index (x : Z) (b : FlowBlock) : FlowBlock :=
  mk_FlowBlock (parent b) (immed_dom b) (copymap b) (intothis b) (outofthis b) (flags b)
    x (visitcount b) (numdesc b) (leaf_count b) (structure_depth b) (block_list b) (kind b).

Definition with_visitcount (x : Z) (b : FlowBlock) : FlowBlock :=
  mk_FlowBlock (parent b) (immed_dom b) (copymap b) (intothis b) (outofthis b) (flags b)
    (block_index b) x (numdesc b) (leaf_count b) (structure_depth b) (block_list b) (kind b).

Definition with_numdesc (x : Z) (b : FlowBlock) : FlowBlock :=
  mk_FlowBlock (parent b) (immed_dom b) (copymap b) (intothis b) (outofthis b) (flags b)
    (block_index b) (visitcount b) x (leaf_count b) (structure_depth b) (block_list b) (kind b).

Definition with_leaf_count (x : Z) (b : FlowBlock) : FlowBlock :=
  mk_FlowBlock (parent b) (immed_dom b) (copymap b) (intothis b) (outofthis b) (flags b)
    (block_index b) (visitcount b) (numdesc b) x (structure_depth b) (block_list b) (kind b).

Definition with_structure_depth (x : Z) (b : FlowBlock) : FlowBlock :=
  mk_FlowBlock (parent b) (immed_dom b) (copymap b) (intothis b) (outofthis b) (flags b)
    (block_index b) (visitcount b) (numdesc b) (leaf_count b) x (block_list b) (kind b).

Definition with_list (x : list nat) (b : FlowBlock) : FlowBlock :=
  mk_FlowBlock (parent b) (immed_dom b) (copymap b) (intothis b) (outofthis b) (flags b)
    (block_index b) (visitcount b) (numdesc b) (leaf_count b) (structure_depth b) x (kind b).

Definition with_kind (x : BlockKind) (b : FlowBlock) : FlowBlock :=
  mk_FlowBlock (parent b) (immed_dom b) (copymap b) (intothis b) (outofthis b) (flags b)
    (block_index b) (visitcount b) (numdesc b) (leaf_count b) (structure_depth b) (block_list b) x.

Definition Blocks : Type := Arena FlowBlock.

(** [self.blocks\[bl\]] with a write to it. *)
Definition edit (B : Blocks) (bl : nat) (f : FlowBlock -> FlowBlock) : outcome Blocks :=
  let! b := get B bl in put B bl (f b).

(** A write to one of the two lists of [bl]. *)
Definition on_side (s : side) (f : list BlockEdge -> list BlockEdge) (s' : side) (l : list BlockEdge) : list BlockEdge :=
  if decide (s' = s) then f l else l.

Definition edit_edges (B : Blocks) (s : side) (bl : nat) (f : list BlockEdge -> list BlockEdge) : outcome Blocks :=
  edit B bl (with_edges (on_side s f)).

(** [self.blocks\[bl\].list\[slot\]] with a write to the edge; [slot] is a [usize]. *)
Definition edit_edge (B : Blocks) (s : side) (bl : nat) (slot : Z) (f : BlockEdge -> BlockEdge) : outcome Blocks :=
  let! b := get B bl in
  let! e := index (edges s b) (Z.to_nat slot) in
  edit_edges B s bl (<[Z.to_nat slot := f e]>).

Definition get_edge (B : Blocks) (s : side) (bl : nat) (slot : Z) : outcome BlockEdge :=
  let! b := get B bl in index (edges s b) (Z.to_nat slot).

(** [size_in], [size_out], [get_in], [get_out], [get_in_rev_index], [get_out_rev_index]. *)
Definition size_edges (s : side) (b : FlowBlock) : Z := i32 (Z.of_nat (length (edges s b))).

Definition get_neighbour (s : side) (b : FlowBlock) (index : Z) : outcome nat :=
  let! e := Prelude.index (edges s b) (Z.to_nat (u64 index)) in Ok (point e).

Definition get_rev_index (s : side) (b : FlowBlock) (index : Z) : outcome Z :=
  let! e := Prelude.index (edges s b) (Z.to_nat (u64 index)) in Ok (reverse_index e).

(** [get_in_index], [get_out_index]. *)
Definition get_edge_index (s : side) (b : FlowBlock) (bl : nat) : Z :=
  match list_find (fun e => point e = bl) (edges s b) with
  | None => -1
  | Some (position, _) => i32 (Z.of_nat position)
  end.

(** [(edge.label & mask) != 0]. *)
Definition has_label (mask : Z) (e : BlockEdge) : bool := negb (Z.land (label e) mask =? 0).

Definition is_mark (b : FlowBlock) : bool := negb (Z.land (flags b) F_MARK =? 0).
Definition set_mark : FlowBlock -> FlowBlock := with_flags (fun fl => Z.lor fl F_MARK).
Definition clear_mark : FlowBlock -> FlowBlock := with_flags (fun fl => without fl F_MARK).

(** *** Edges *)

Definition block_add_in_edge (B : Blocks) (bl source : nat) (lab : Z) : outcome Blocks :=
  let! src := get B source in
  let ourrev := i32 (Z.of_nat (length (outofthis src))) in
  let! b := get B bl in
  let brev := i32 (Z.of_nat (length (intothis b))) in
  let! B := edit_edges B Into bl (fun l => l ++ [mk_BlockEdge lab source ourrev]) in
  edit_edges B OutOf source (fun l => l ++ [mk_BlockEdge lab bl brev]).

Definition with_rev (f : Z -> Z) (e : BlockEdge) : BlockEdge :=
  mk_BlockEdge (label e) (point e) (f (reverse_index e)).

(** One round of the loop that closes the gap at [slot]; [Vec::pop] at its end. *)
Definition half_delete_step (s : side) (bl : nat) (st : Blocks * Z) : outcome (Blocks * Z + Blocks) :=
  let '(B, slot) := st in
  let! b := get B bl in
  let next := u64 (slot + 1) in
  if next <? Z.of_nat (length (edges s b)) then
    let! edge := get_edge B s bl next in
    let! B := edit_edge B s bl slot (fun _ => edge) in
    let! B := edit_edge B (other s) (point edge) (u64 (reverse_index edge)) (with_rev (fun r => i32 (r - 1))) in
    Ok (inl (B, next))
  else
    let! B := edit_edges B s bl (fun l => take (length l - 1) l) in
    Ok (inr B).

(** [block_half_delete_in_edge] and [block_half_delete_out_edge].  The loop makes
    a round per edge behind the gap. *)
Definition half_delete_edge (s : side) (B : Blocks) (bl : nat) (slot : Z) : outcome Blocks :=
  let! b := get B bl in
  loop (S (length (edges s b))) (half_delete_step s bl) (B, u64 slot).

(** [block_remove_in_edge], [block_remove_out_edge]. *)
Definition remove_edge_at (s : side) (B : Blocks) (bl : nat) (slot : Z) : outcome Blocks :=
  let! edge := get_edge B s bl (u64 slot) in
  let! B := half_delete_edge s B bl slot in
  half_delete_edge (other s) B (point edge) (reverse_index edge).

(** [block_replace_in_edge], [block_replace_out_edge]. *)
Definition replace_edge_at (s : side) (B : Blocks) (bl : nat) (num : Z) (source : nat) : outcome Blocks :=
  let slot := u64 num in
  let! oldedge := get_edge B s bl slot in
  let! B := half_delete_edge (other s) B (point oldedge) (reverse_index oldedge) in
  let! src := get B source in
  let newrev := i32 (Z.of_nat (length (edges (other s) src))) in
  let! edge := get_edge B s bl slot in
  let! B := edit_edge B s bl slot (fun e => mk_BlockEdge (label e) source newrev) in
  edit_edges B (other s) source (fun l => l ++ [mk_BlockEdge (label edge) bl num]).

Definition block_replace_edges_thru (B : Blocks) (bl : nat) (input out : Z) : outcome Blocks :=
  let! inedge := get_edge B Into bl (u64 input) in
  let! outedge := get_edge B OutOf bl (u64 out) in
  let inb := point inedge in
  let inblock_outslot := reverse_index inedge in
  let outb := point outedge in
  let outblock_inslot := reverse_index outedge in
  let! B := edit_edge B OutOf inb (u64 inblock_outslot) (fun e => mk_BlockEdge (label e) outb outblock_inslot) in
  let! B := edit_edge B Into outb (u64 outblock_inslot) (fun e => mk_BlockEdge (label e) inb inblock_outslot) in
  let! B := half_delete_edge Into B bl input in
  half_delete_edge OutOf B bl out.

(** [Vec::swap(0, 1)] panics when there are not two elements. *)
Definition swap01 (l : list BlockEdge) : outcome (list BlockEdge) :=
  match l with x :: y :: l => Ok (y :: x :: l) | _ => Panic end.

Definition block_swap_edges (B : Blocks) (bl : nat) : outcome Blocks :=
  let! b := get B bl in
  let! l := swap01 (outofthis b) in
  let! B := edit_edges B OutOf bl (fun _ => l) in
  let! first := get_edge B OutOf bl 0 in
  let! B := edit_edge B Into (point first) (u64 (reverse_index first)) (with_rev (fun _ => 0)) in
  let! second := get_edge B OutOf bl 1 in
  let! B := edit_edge B Into (point second) (u64 (reverse_index second)) (with_rev (fun _ => 1)) in
  edit B bl (with_flags (fun fl => Z.lxor fl F_FLIP_PATH)).

Definition with_label (f : Z -> Z) (e : BlockEdge) : BlockEdge :=
  mk_BlockEdge (f (label e)) (point e) (reverse_index e).

(** The two ends of an edge out of [bl] get the label [f label]. *)
Definition relabel_out_edge (f : Z -> Z) (B : Blocks) (bl : nat) (index : Z) : outcome Blocks :=
  let! B := edit_edge B OutOf bl (u64 index) (with_label f) in
  let! edge := get_edge B OutOf bl (u64 index) in
  edit_edge B Into (point edge) (u64 (reverse_index edge)) (with_label f).

Definition block_set_out_edge_flag (B : Blocks) (bl : nat) (index lab : Z) : outcome Blocks :=
  relabel_out_edge (fun l => Z.lor l lab) B bl index.

Definition block_clear_out_edge_flag (B : Blocks) (bl : nat) (index lab : Z) : outcome Blocks :=
  relabel_out_edge (fun l => without l lab) B bl index.

(** One round of [block_eliminate_in_dups] and [block_eliminate_out_dups]; the
    state is [indval] and [slot]. *)
Definition eliminate_dups_step (s : side) (bl dup : nat) (st : Blocks * Z * Z) : outcome (Blocks * Z * Z + Blocks) :=
  let '(B, indval, slot) := st in
  let! b := get B bl in
  if slot <? Z.of_nat (length (edges s b)) then
    let! e := get_edge B s bl slot in
    if bool_decide (point e = dup) then
      if indval =? -1 then Ok (inl (B, i32 slot, slot + 1))
      else
        let! B := edit_edge B s bl (u64 indval) (with_label (fun l => Z.lor l (label e))) in
        let! e := get_edge B s bl slot in
        let rev := reverse_index e in
        let! B := half_delete_edge s B bl (i32 slot) in
        let! B := half_delete_edge (other s) B dup rev in
        Ok (inl (B, indval, slot))
    else Ok (inl (B, indval, slot + 1))
  else Ok (inr B).

(** A round leaves fewer edges to look at. *)
Definition eliminate_dups (s : side) (B : Blocks) (bl dup : nat) : outcome Blocks :=
  let! b := get B bl in
  loop (S (length (edges s b))) (eliminate_dups_step s bl dup) (B, -1, 0).

(** *** The consistency check *)

(** The edges of one side of [bl] from position [slot] on. *)
Fixpoint check_side (s : side) (B : Blocks) (bl : nat) (slot : nat) (l : list BlockEdge) : outcome unit :=
  match l with
  | [] => Ok tt
  | edge :: l =>
      let rev := u64 (reverse_index edge) in
      let! o := get B (point edge) in
      let side_name := match s with Into => "Intothis" | OutOf => "Outofthis" end%string in
      if Z.of_nat (length (edges (other s) o)) <=? rev then
        Err (Lowlevel (match s with Into => "Not enough outofthis blocks" | OutOf => "Not enough intothis blocks" end))
      else
        let! edger := index (edges (other s) o) (Z.to_nat rev) in
        if negb (bool_decide (point edger = bl)) then Err (Lowlevel (side_name ++ " edge mismatch"))
        else if negb (reverse_index edger =? i32 (Z.of_nat slot)) then Err (Lowlevel (side_name ++ " index mismatch"))
        else check_side s B bl (S slot) l
  end.

Definition block_check_edges (B : Blocks) (bl : nat) : outcome unit :=
  let! block := get B bl in
  let! _ := check_side Into B bl 0 (intothis block) in
  check_side OutOf B bl 0 (outofthis block).

(** ** Writes as maps over the arena *)

Definition map_blocks (f : nat -> FlowBlock -> FlowBlock) (B : Blocks) : Blocks :=
  mk_Arena (imap (fun p o => f p <$> o) (slots B)) (live B).

Definition map_edges (f : nat -> side -> list BlockEdge -> list BlockEdge) (B : Blocks) : Blocks :=
  map_blocks (fun p => with_edges (f p)) B.

Lemma try_get_map f B p : try_get (map_blocks f B) p = f p <$> try_get B p.
Proof. unfold try_get, map_blocks. cbn. rewrite list_lookup_imap. by destruct (slots B !! p) as [[b|]|]. Qed.

Lemma map_blocks_ext f g B : (forall p b, try_get B p = Some b -> f p b = g p b) -> map_blocks f B = map_blocks g B.
Proof.
  intros E. unfold map_blocks. f_equal. apply list_eq. intros p. rewrite !list_lookup_imap.
  destruct (slots B !! p) as [[b|]|] eqn:Hp; cbn; [|done..]. rewrite E; [done|]. unfold try_get. by rewrite Hp.
Qed.

Lemma map_blocks_comp f g B : map_blocks g (map_blocks f B) = map_blocks (fun p b => g p (f p b)) B.
Proof.
  unfold map_blocks. cbn. f_equal. apply list_eq. intros p. rewrite !list_lookup_imap.
  by destruct (slots B !! p) as [[b|]|].
Qed.

Lemma map_blocks_id B : map_blocks (fun _ b => b) B = B.
Proof.
  destruct B as [l n]. unfold map_blocks. cbn. f_equal. apply list_eq. intros p. rewrite list_lookup_imap.
  by destruct (l !! p) as [[b|]|].
Qed.

Lemma with_edges_edges f b s : edges s (with_edges f b) = f s (edges s b).
Proof. by destruct s. Qed.

Lemma with_edges_ext f g b : (forall s, f s (edges s b) = g s (edges s b)) -> with_edges f b = with_edges g b.
Proof. intros E. unfold with_edges. pose proof (E Into) as E1. pose proof (E OutOf) as E2. cbn in *. by rewrite E1, E2. Qed.

Lemma map_edges_ext f g B :
  (forall p b s, try_get B p = Some b -> f p s (edges s b) = g p s (edges s b)) -> map_edges f B = map_edges g B.
Proof. intros E. apply map_blocks_ext. intros p b Hb. apply with_edges_ext. intros s. by apply E. Qed.

Lemma map_edges_comp f g B : map_edges g (map_edges f B) = map_edges (fun p s l => g p s (f p s l)) B.
Proof. unfold map_edges. rewrite map_blocks_comp. done. Qed.

Lemma map_edges_id f B : (forall p b s, try_get B p = Some b -> f p s (edges s b) = edges s b) -> map_edges f B = B.
Proof.
  intros E. rewrite <- (map_blocks_id B) at 2. apply map_blocks_ext. intros p b Hb.
  transitivity (with_edges (fun _ l => l) b); [apply with_edges_ext; intros s; by apply E|by destruct b].
Qed.

Lemma try_get_edges f B p : try_get (map_edges f B) p = with_edges (f p) <$> try_get B p.
Proof. apply try_get_map. Qed.

Lemma edit_eq B bl f b : try_get B bl = Some b ->
  edit B bl f = Ok (map_blocks (fun p x => if decide (p = bl) then f x else x) B).
Proof.
  intros Hb. unfold edit. rewrite get_try, Hb. cbn [obind]. unfold put, try_get in *.
  destruct (slots B !! bl) as [[b'|]|] eqn:E; cbn in Hb; [|done..]. injection Hb as ->. f_equal.
  unfold map_blocks. f_equal. apply list_eq. intros p. rewrite list_lookup_imap.
  destruct (decide (p = bl)) as [->|Hne].
  - rewrite E. cbn. rewrite list_lookup_insert_eq; [done|by eapply lookup_lt_Some].
  - rewrite list_lookup_insert_ne by done. by destruct (slots B !! p) as [[]|].
Qed.

(** The write to one list of one block. *)
Definition at_list (bl : nat) (s : side) (f : list BlockEdge -> list BlockEdge) (p : nat) (s' : side)
    (l : list BlockEdge) : list BlockEdge :=
  if decide (p = bl /\ s' = s) then f l else l.

Lemma edit_edges_eq B s bl f b : try_get B bl = Some b -> edit_edges B s bl f = Ok (map_edges (at_list bl s f) B).
Proof.
  intros Hb. unfold edit_edges. rewrite (edit_eq _ _ _ _ Hb). f_equal. apply map_blocks_ext. intros p x Hx.
  destruct (decide (p = bl)) as [->|Hne].
  - apply with_edges_ext. intros s'. unfold on_side, at_list. by destruct s, s'; simplify_option_eq; naive_solver.
  - transitivity (with_edges (fun _ l => l) x); [by destruct x|]. apply with_edges_ext. intros s'. unfold at_list.
    rewrite decide_False; naive_solver.
Qed.

Lemma insert_alter (l : list BlockEdge) k e f : l !! k = Some e -> <[k := f e]> l = alter f k l.
Proof.
  intros He. apply list_eq. intros i. destruct (decide (i = k)) as [->|Hne].
  - rewrite list_lookup_alter_eq, He, list_lookup_insert_eq; [done|by eapply lookup_lt_Some].
  - by rewrite list_lookup_alter_ne, list_lookup_insert_ne by done.
Qed.

(** ** Edges by position *)

Definition edge_at (B : Blocks) (s : side) (p k : nat) (e : BlockEdge) : Prop :=
  exists b, try_get B p = Some b /\ edges s b !! k = Some e.

Lemma edge_at_inj B s p k e e' : edge_at B s p k e -> edge_at B s p k e' -> e = e'.
Proof. intros (b & Hb & He) (b' & Hb' & He'). by simplify_eq. Qed.

Lemma get_edge_eq B s p k e z : edge_at B s p k e -> z = Z.of_nat k -> get_edge B s p z = Ok e.
Proof. intros (b & Hb & He) ->. unfold get_edge. rewrite get_try, Hb. cbn [obind]. rewrite Nat2Z.id. by apply index_ok. Qed.

Lemma edit_edge_eq B s p k e f z : edge_at B s p k e -> z = Z.of_nat k ->
  edit_edge B s p z f = Ok (map_edges (at_list p s (alter f k)) B).
Proof.
  intros (b & Hb & He) ->. unfold edit_edge. rewrite get_try, Hb. cbn [obind]. rewrite Nat2Z.id, (index_ok _ _ _ He).
  cbn [obind]. rewrite (edit_edges_eq _ _ _ _ _ Hb). f_equal. apply map_edges_ext. intros q x s' Hx. unfold at_list.
  destruct (decide _) as [[-> ->]|]; [|done]. simplify_eq. by apply insert_alter.
Qed.

(** The edge at the other end names this block and this position. *)
Definition twins (B : Blocks) (s : side) (p k : nat) (e : BlockEdge) : Prop :=
  exists j e', reverse_index e = Z.of_nat j /\ edge_at B (other s) (point e) j e' /\
    point e' = p /\ reverse_index e' = Z.of_nat k.

(** The lists are shorter than the range of the [i32] positions. *)
Definition small (B : Blocks) : Prop :=
  forall p b s, try_get B p = Some b -> Z.of_nat (length (edges s b)) < 2 ^ 31.

Lemma other_other s : other (other s) = s.
Proof. by destruct s. Qed.

Lemma other_ne s : other s <> s.
Proof. by destruct s. Qed.

Lemma edge_at_small B s p k e : small B -> edge_at B s p k e -> Z.of_nat k < 2 ^ 31.
Proof. intros Hs (b & Hb & He). apply lookup_lt_Some in He. specialize (Hs p b s Hb). lia. Qed.

Lemma edge_at_map f B s p k e :
  edge_at (map_edges f B) s p k e <-> exists b, try_get B p = Some b /\ f p s (edges s b) !! k = Some e.
Proof.
  unfold edge_at. rewrite try_get_edges. split.
  - intros (b & Hb & He). destruct (try_get B p) as [b0|]; [|done]. injection Hb as <-. rewrite with_edges_edges in He. eauto.
  - intros (b & Hb & He). rewrite Hb. eexists. split; [done|]. by rewrite with_edges_edges.
Qed.

(** ** Closing a gap *)

(** The positions behind [n] in the list of [bl] move one down, up to [c]. *)
Definition shift_upto (bl n c : nat) (e : BlockEdge) : BlockEdge :=
  if decide (point e = bl /\ Z.of_nat n < reverse_index e <= Z.of_nat c) then with_rev Z.pred e else e.

Definition shift (bl n : nat) (e : BlockEdge) : BlockEdge :=
  if decide (point e = bl /\ Z.of_nat n < reverse_index e) then with_rev Z.pred e else e.

Definition half_deleted (s : side) (bl n p : nat) (s' : side) (l : list BlockEdge) : list BlockEdge :=
  if decide (s' = s) then if decide (p = bl) then delete n l else l else shift bl n <$> l.

(** The state of the loop at [slot = c]. *)
Definition half_way (s : side) (bl n c p : nat) (s' : side) (l : list BlockEdge) : list BlockEdge :=
  if decide (s' = s) then if decide (p = bl) then take c (delete n l) ++ drop c l else l else shift_upto bl n c <$> l.

Lemma half_way_lookup (l : list BlockEdge) n c k : (n <= c < length l)%nat -> (c <= k)%nat ->
  (take c (delete n l) ++ drop c l) !! k = l !! k.
Proof.
  intros Hc Hk. assert (Hn : is_Some (l !! n)) by (apply lookup_lt_is_Some; lia).
  rewrite lookup_app_r; rewrite length_take, length_delete by done; [|lia].
  rewrite lookup_drop. f_equal. lia.
Qed.

Lemma half_way_next (l : list BlockEdge) n c e f : (n <= c)%nat -> l !! S c = Some e -> (forall x, f x = e) ->
  alter f c (take c (delete n l) ++ drop c l) = take (S c) (delete n l) ++ drop (S c) l.
Proof.
  intros Hc He Hf. pose proof (lookup_lt_Some _ _ _ He) as Hl.
  assert (Hn : is_Some (l !! n)) by (apply lookup_lt_is_Some; lia).
  assert (Hlen : length (take c (delete n l)) = c) by (rewrite length_take, length_delete by done; lia).
  destruct (lookup_lt_is_Some_2 l c ltac:(lia)) as [x Hx].
  rewrite (drop_S l x c Hx).
  rewrite alter_app_r_alt, Hlen, Nat.sub_diag by lia. cbn. rewrite Hf.
  rewrite (take_S_r (delete n l) c e); [by rewrite <- app_assoc|]. by rewrite list_lookup_delete_ge.
Qed.

Lemma half_way_last (l : list BlockEdge) n : (n < length l)%nat ->
  let m := take (length l - 1) (delete n l) ++ drop (length l - 1) l in take (length m - 1) m = delete n l.
Proof.
  intros Hn. assert (Hl : length (delete n l) = (length l - 1)%nat) by (apply length_delete, lookup_lt_is_Some; lia).
  cbn zeta. rewrite length_app, length_take, length_drop, Hl, (take_ge (delete n l)) by lia.
  rewrite take_app_le by lia. apply take_ge. lia.
Qed.

Lemma shift_upto_point bl n c e : point (shift_upto bl n c e) = point e.
Proof. unfold shift_upto. by destruct (decide _). Qed.

Lemma shift_point bl n e : point (shift bl n e) = point e.
Proof. unfold shift. by destruct (decide _). Qed.

Section HalfDelete.
Context (B : Blocks) (s : side) (bl n : nat) (b : FlowBlock).
Hypothesis Hb : try_get B bl = Some b.
Hypothesis Hn : (n < length (edges s b))%nat.
Hypothesis Hsmall : small B.
(** The edges behind the gap have their twins. *)
Hypothesis Hown : forall k e, (n < k)%nat -> edge_at B s bl k e -> twins B s bl k e.
Hypothesis Htwin : forall p k e, edge_at B (other s) p k e -> point e = bl -> Z.of_nat n < reverse_index e ->
  twins B (other s) p k e.

Lemma shift_step c e j e' p k x : (n <= c)%nat -> edge_at B s bl (S c) e ->
  reverse_index e = Z.of_nat j -> edge_at B (other s) (point e) j e' -> point e' = bl -> reverse_index e' = Z.of_nat (S c) ->
  edge_at B (other s) p k x ->
  shift_upto bl n (S c) x =
    if decide (p = point e /\ k = j) then with_rev (fun r => i32 (r - 1)) (shift_upto bl n c x) else shift_upto bl n c x.
Proof.
  intros Hc He Hj He' Hp' Hr' Hx. pose proof (edge_at_small _ _ _ _ _ Hsmall He) as Hb31.
  destruct (decide (p = point e /\ k = j)) as [[-> ->]|Hne].
  - pose proof (edge_at_inj _ _ _ _ _ _ Hx He') as ->. unfold shift_upto. rewrite decide_True by (split; [done|lia]).
    rewrite decide_False by lia. unfold with_rev. f_equal. rewrite Hr'. rewrite sw_small; unfold is_s; lia.
  - unfold shift_upto. destruct (decide (point x = bl /\ Z.of_nat n < reverse_index x <= Z.of_nat c)) as [[? ?]|Hno].
    + rewrite decide_True by (split; [done|lia]). done.
    + rewrite decide_False; [done|]. intros [Hpx Hrx]. assert (Hr : reverse_index x = Z.of_nat (S c)) by lia.
      destruct (Htwin p k x Hx Hpx ltac:(lia)) as (j0 & e0 & Hj0 & He0 & Hp0 & Hr0).
      rewrite other_other, Hpx in He0. assert (j0 = S c) as -> by lia. pose proof (edge_at_inj _ _ _ _ _ _ He0 He) as ->.
      apply Hne. split; [done|lia].
Qed.

Lemma half_step c : (n <= c)%nat -> (S c < length (edges s b))%nat ->
  half_delete_step s bl (map_edges (half_way s bl n c) B, Z.of_nat c) =
  Ok (inl (map_edges (half_way s bl n (S c)) B, Z.of_nat (S c))).
Proof.
  intros Hc Hlt. unfold half_delete_step. rewrite get_try, try_get_edges, Hb. cbn [obind fmap option_fmap option_map].
  pose proof (Hsmall bl b s Hb) as Hb31.
  assert (Hhw : half_way s bl n c bl s (edges s b) = take c (delete n (edges s b)) ++ drop c (edges s b)).
  { unfold half_way. by rewrite !decide_True. }
  rewrite with_edges_edges, Hhw.
  assert (Hlen : length (take c (delete n (edges s b)) ++ drop c (edges s b)) = length (edges s b)).
  { rewrite length_app, length_take, length_drop, length_delete by (apply lookup_lt_is_Some; lia). lia. }
  rewrite Hlen. rewrite u64_small by lia. replace (Z.of_nat c + 1) with (Z.of_nat (S c)) by lia.
  destruct (Z.ltb_spec (Z.of_nat (S c)) (Z.of_nat (length (edges s b)))); [|lia].
  destruct (lookup_lt_is_Some_2 (edges s b) (S c) Hlt) as [e He].
  destruct (lookup_lt_is_Some_2 (edges s b) c ltac:(lia)) as [x0 Hx0].
  assert (Heat : edge_at B s bl (S c) e) by (by exists b).
  destruct (Hown (S c) e ltac:(lia) Heat) as (j & e' & Hj & He' & Hp' & Hr').
  assert (Hj31 : Z.of_nat j < 2 ^ 31) by (by eapply edge_at_small).
  rewrite (get_edge_eq _ s bl (S c) e); [|apply edge_at_map; exists b; rewrite Hhw, half_way_lookup by lia; done|done].
  cbn [obind].
  erewrite (edit_edge_eq _ s bl c x0); [|apply edge_at_map; exists b; rewrite Hhw, half_way_lookup by lia; done|done].
  cbn [obind]. rewrite map_edges_comp.
  erewrite (edit_edge_eq _ (other s) (point e) j (shift_upto bl n c e')).
  2:{ apply edge_at_map. destruct He' as (b' & Hb' & He'). exists b'. split; [done|]. unfold at_list, half_way.
      pose proof (other_ne s). rewrite !(decide_False (P := _ /\ other s = s)), decide_False by naive_solver.
      by rewrite list_lookup_fmap, He'. }
  2:{ rewrite u64_small; lia. }
  cbn [obind]. rewrite map_edges_comp. do 3 f_equal. apply map_edges_ext. intros p x s' Hx. unfold at_list, half_way.
  destruct (decide (s' = s)) as [->|Hs'].
  - pose proof (other_ne s). rewrite (decide_False (P := _ /\ s = other s)) by naive_solver.
    destruct (decide (p = bl)) as [->|Hp].
    + rewrite decide_True by done. simplify_eq. by eapply half_way_next.
    + rewrite decide_False by naive_solver. done.
  - assert (s' = other s) as -> by (by destruct s, s').
    rewrite (decide_False (P := _ /\ other s = s)) by naive_solver.
    apply list_eq. intros k. rewrite list_lookup_fmap.
    destruct (edges (other s) x !! k) as [y|] eqn:Ey.
    + pose proof (shift_step c e j e' p k y Hc Heat Hj He' Hp' Hr' ltac:(by exists x)) as Hst. cbn. rewrite Hst.
      destruct (decide (p = point e /\ k = j)) as [[-> ->]|Hne].
      * rewrite decide_True by done. rewrite list_lookup_alter_eq, list_lookup_fmap, Ey. done.
      * destruct (decide (p = point e /\ other s = other s)) as [[-> _]|_]; [rewrite list_lookup_alter_ne by naive_solver|];
          by rewrite list_lookup_fmap, Ey.
    + destruct (decide (p = point e /\ other s = other s)); cbn; apply lookup_ge_None; rewrite ?length_alter, length_fmap;
        by apply lookup_ge_None.
Qed.

(** The loop removes position [n] and moves the positions behind it down, at
    both ends. *)
Lemma half_delete_edge_eq z : u64 z = Z.of_nat n ->
  half_delete_edge s B bl z = Ok (map_edges (half_deleted s bl n) B).
Proof.
  intros Hz. unfold half_delete_edge. rewrite get_try, Hb. cbn [obind]. rewrite Hz.
  assert (Hgen : forall m c, (n <= c < length (edges s b))%nat -> (length (edges s b) - c <= m)%nat ->
    loop m (half_delete_step s bl) (map_edges (half_way s bl n c) B, Z.of_nat c) = Ok (map_edges (half_deleted s bl n) B)).
  { induction m as [|m IH]; intros c Hc Hm; [lia|]. cbn [loop].
    destruct (decide (S c < length (edges s b))%nat) as [Hlt|Hge].
    - rewrite half_step by lia. cbn [obind]. apply IH; lia.
    - assert (c = length (edges s b) - 1)%nat as -> by lia. clear IH Hge. unfold half_delete_step.
      rewrite get_try, try_get_edges, Hb. cbn [obind fmap option_fmap option_map]. rewrite with_edges_edges.
      set (c := (length (edges s b) - 1)%nat) in *. pose proof (Hsmall bl b s Hb).
      assert (Hhw : half_way s bl n c bl s (edges s b) = take c (delete n (edges s b)) ++ drop c (edges s b)).
      { unfold half_way. by rewrite !decide_True. }
      rewrite Hhw. rewrite length_app, length_take, length_drop, length_delete by (apply lookup_lt_is_Some; lia).
      rewrite u64_small by lia. destruct (Z.ltb_spec (Z.of_nat c + 1)
        (Z.of_nat (Nat.min c (length (edges s b) - 1) + (length (edges s b) - c)))); [lia|].
      erewrite edit_edges_eq by (by rewrite try_get_edges, Hb). cbn [obind]. rewrite map_edges_comp. f_equal.
      apply map_edges_ext. intros p x s' Hx. unfold at_list, half_way, half_deleted.
      destruct (decide (s' = s)) as [->|Hs'].
      + destruct (decide (p = bl)) as [->|Hp].
        * rewrite decide_True by done. simplify_eq. by apply half_way_last.
        * by rewrite decide_False by naive_solver.
      + rewrite decide_False by naive_solver. assert (s' = other s) as -> by (by destruct s, s').
        apply list_fmap_ext. intros k y Hy.
        assert (Hyat : edge_at B (other s) p k y) by (by exists x).
        unfold shift_upto, shift. destruct (decide (point y = bl /\ Z.of_nat n < reverse_index y)) as [[Hpy Hry]|Hno].
        * rewrite decide_True; [done|]. split; [done|]. split; [done|].
          destruct (Htwin p k y Hyat Hpy Hry) as (j & e' & Hj & (b' & Hb' & He') & _). rewrite other_other, Hpy in *.
          simplify_eq. apply lookup_lt_Some in He'. lia.
        * rewrite decide_False; [done|]. naive_solver lia. }
  rewrite <- (Hgen (S (length (edges s b))) n) by lia. f_equal. f_equal. symmetry. apply map_edges_id.
  intros p x s' Hx. unfold half_way. destruct (decide (s' = s)) as [->|_].
  - destruct (decide (p = bl)) as [->|_]; [|done]. simplify_eq. rewrite delete_take_drop.
    rewrite take_app_le by (rewrite length_take; lia). rewrite take_take, Nat.min_id. apply take_drop.
  - rewrite <- (list_fmap_id (edges s' x)) at 2. apply list_fmap_ext. intros k y _. unfold shift_upto.
    rewrite decide_False; [done|lia].
Qed.
End HalfDelete.

(** ** The invariant *)

Definition edges_ok (B : Blocks) : Prop :=
  small B /\ forall s p k e, edge_at B s p k e -> twins B s p k e.

(** Where the edge at position [k] is after position [n] of [bl] is gone, and
    what it says. *)
Definition moved (s : side) (bl n : nat) (s' : side) (p k : nat) : nat :=
  if decide (s' = s /\ p = bl /\ (n < k)%nat) then Nat.pred k else k.

Definition renamed (s : side) (bl n : nat) (s' : side) (e : BlockEdge) : BlockEdge :=
  if decide (s' = s) then e else shift bl n e.

Lemma half_deleted_edge B s bl n s' p k e :
  edge_at (map_edges (half_deleted s bl n) B) s' p k e <->
  exists k0 e0, edge_at B s' p k0 e0 /\ ~ (s' = s /\ p = bl /\ k0 = n) /\ k = moved s bl n s' p k0 /\ e = renamed s bl n s' e0.
Proof.
  rewrite edge_at_map. unfold half_deleted, renamed, moved. split.
  - intros (b & Hb & He). destruct (decide (s' = s)) as [->|Hs].
    + destruct (decide (p = bl)) as [->|Hp].
      * rewrite list_lookup_delete in He. destruct (decide (k < n)%nat).
        -- exists k, e. split; [by exists b|]. split; [intros (_ & _ & ?); lia|]. split; [|done]. by rewrite decide_False by (intros (_ & _ & ?); lia).
        -- exists (S k), e. split; [by exists b|]. split; [intros (_ & _ & ?); lia|]. split; [|done]. rewrite decide_True by (repeat split; lia). done.
      * exists k, e. split; [by exists b|]. split; [naive_solver|]. split; [|done]. by rewrite decide_False by naive_solver.
    + rewrite list_lookup_fmap in He. destruct (edges s' b !! k) as [e0|] eqn:E; [|done]. injection He as <-.
      exists k, e0. split; [by exists b|]. split; [naive_solver|]. split; [|done]. by rewrite decide_False by naive_solver.
  - intros (k0 & e0 & (b & Hb & He) & Hne & -> & ->). exists b. split; [done|]. destruct (decide (s' = s)) as [->|Hs].
    + destruct (decide (p = bl)) as [->|Hp].
      * rewrite list_lookup_delete. destruct (decide (s = s /\ bl = bl /\ (n < k0)%nat)) as [(_ & _ & ?)|Hno].
        -- rewrite decide_False by lia. by replace (S (Nat.pred k0)) with k0 by lia.
        -- rewrite decide_True; [done|]. assert (k0 <> n) by naive_solver. assert (~ (n < k0)%nat) by naive_solver. lia.
      * by rewrite decide_False by naive_solver.
    + rewrite (decide_False (P := s' = s /\ _)) by naive_solver. by rewrite list_lookup_fmap, He.
Qed.

Lemma renamed_point s bl n s' e : point (renamed s bl n s' e) = point e.
Proof. unfold renamed. destruct (decide _); [done|apply shift_point]. Qed.

Lemma renamed_label s bl n s' e : label (renamed s bl n s' e) = label e.
Proof. unfold renamed, shift. destruct (decide _); [done|]. by destruct (decide _). Qed.

Lemma renamed_rev s bl n s' e j : reverse_index e = Z.of_nat j ->
  reverse_index (renamed s bl n s' e) = Z.of_nat (moved s bl n (other s') (point e) j).
Proof.
  intros Hj. unfold renamed, moved, shift. destruct (decide (s' = s)) as [->|Hs].
  - pose proof (other_ne s). by rewrite decide_False by naive_solver.
  - assert (other s' = s) as -> by (by destruct s, s').
    destruct (decide (point e = bl /\ Z.of_nat n < reverse_index e)) as [[? ?]|Hno].
    + rewrite decide_True by (repeat split; [done|lia]). cbn. lia.
    + rewrite decide_False; [done|]. intros (_ & ? & ?). apply Hno. split; [done|lia].
Qed.

(** Twins stay twins as long as neither is the edge that goes. *)
Lemma half_deleted_twins B s bl n s' p k e j e' :
  edge_at B s' p k e -> reverse_index e = Z.of_nat j -> edge_at B (other s') (point e) j e' ->
  point e' = p -> reverse_index e' = Z.of_nat k ->
  ~ (s' = s /\ p = bl /\ k = n) -> ~ (other s' = s /\ point e = bl /\ j = n) ->
  twins (map_edges (half_deleted s bl n) B) s' p (moved s bl n s' p k) (renamed s bl n s' e).
Proof.
  intros He Hj He' Hp' Hk' Hn1 Hn2. exists (moved s bl n (other s') (point e) j), (renamed s bl n (other s') e').
  split; [by apply renamed_rev|]. rewrite renamed_point. split.
  - apply half_deleted_edge. by exists j, e'.
  - rewrite renamed_point. split; [done|]. rewrite (renamed_rev _ _ _ _ _ k Hk'), other_other, Hp'. done.
Qed.

Lemma small_map f B : small B -> (forall p s l, (length (f p s l) <= length l)%nat) -> small (map_edges f B).
Proof.
  intros Hs Hf p b s Hb. rewrite try_get_edges in Hb. destruct (try_get B p) as [b0|] eqn:E; [|done]. injection Hb as <-.
  rewrite with_edges_edges. specialize (Hs p b0 s E). specialize (Hf p s (edges s b0)). lia.
Qed.

Lemma length_half_deleted s bl n p s' l : (length (half_deleted s bl n p s' l) <= length l)%nat.
Proof.
  unfold half_deleted. destruct (decide _); [|by rewrite length_fmap]. destruct (decide _); [|done].
  destruct (l !! n) eqn:E; [rewrite length_delete by done; lia|]. rewrite delete_take_drop, length_app, length_take, length_drop.
  apply lookup_ge_None in E. lia.
Qed.

(** Every edge but one has its twin, and no edge claims to be that one's. *)
Definition ok_but (B : Blocks) (s0 : side) (q j : nat) : Prop :=
  small B /\ forall s p k e, edge_at B s p k e -> ~ (s = s0 /\ p = q /\ k = j) ->
    twins B s p k e /\ ~ (other s = s0 /\ point e = q /\ reverse_index e = Z.of_nat j).

(** One half gone leaves the other half dangling. *)
Lemma half_deleted_dangling B s bl n e j : edges_ok B -> edge_at B s bl n e -> reverse_index e = Z.of_nat j ->
  ok_but (map_edges (half_deleted s bl n) B) (other s) (point e) j.
Proof.
  intros [Hsm Hok] He Hj. split; [apply small_map; [done|intros; apply length_half_deleted]|].
  intros s' p k x (k0 & x0 & Hx0 & Hne & -> & ->)%half_deleted_edge Hnot.
  destruct (Hok _ _ _ _ Hx0) as (j0 & x' & Hj0 & Hx' & Hp' & Hk').
  assert (Hn2 : ~ (other s' = s /\ point x0 = bl /\ j0 = n)).
  { intros (<- & Hp0 & ->). rewrite Hp0 in Hx'. pose proof (edge_at_inj _ _ _ _ _ _ Hx' He) as ->. apply Hnot.
    rewrite other_other. split; [done|]. split; [done|]. unfold moved. rewrite decide_False; [lia|]. pose proof (other_ne s'). naive_solver. }
  split; [by eapply half_deleted_twins|]. rewrite renamed_point, (renamed_rev _ _ _ _ _ j0) by done.
  intros (Hs & Hp & Hr). apply Hne. assert (s' = s) as -> by (by destruct s, s'). pose proof (other_ne s).
  unfold moved in Hr. rewrite decide_False in Hr by naive_solver. assert (j0 = j) as -> by lia.
  destruct (Hok _ _ _ _ He) as (j1 & e' & Hj1 & He' & Hpe & Hke). assert (j1 = j) as -> by lia.
  rewrite Hp in Hx'. pose proof (edge_at_inj _ _ _ _ _ _ Hx' He') as ->. split; [done|]. split; [congruence|lia].
Qed.

(** Removing the dangling half restores the invariant. *)
Lemma dangling_removed B s q j : ok_but B s q j -> edges_ok (map_edges (half_deleted s q j) B).
Proof.
  intros [Hsm Hok]. split; [apply small_map; [done|intros; apply length_half_deleted]|].
  intros s' p k x (k0 & x0 & Hx0 & Hne & -> & ->)%half_deleted_edge.
  destruct (Hok _ _ _ _ Hx0 Hne) as [(j0 & x' & Hj0 & Hx' & Hp' & Hk') Hn]. eapply half_deleted_twins; try done.
  intros (? & ? & ->). by apply Hn.
Qed.

(** ** What the operations do *)

(** The edges of one side of a block without the positions of the twins. *)
Definition ends (e : BlockEdge) : Z * nat := (label e, point e).
Definition view (B : Blocks) (s : side) (p : nat) : option (list (Z * nat)) :=
  (fun b => ends <$> edges s b) <$> try_get B p.

(** Nothing but the lists of edges differs. *)
Definition same_rest (B B' : Blocks) : Prop := exists f, B' = map_edges f B.

#[global] Instance same_rest_preorder : PreOrder same_rest.
Proof.
  split.
  - intros B. exists (fun _ _ l => l). symmetry. by apply map_edges_id.
  - intros B1 B2 B3 [f ->] [g ->]. eexists. apply map_edges_comp.
Qed.

Lemma same_rest_live B B' p : same_rest B B' -> is_Some (try_get B' p) <-> is_Some (try_get B p).
Proof. intros [f ->]. rewrite try_get_edges. apply fmap_is_Some. Qed.

Lemma same_rest_get B B' p b' : same_rest B B' -> try_get B' p = Some b' ->
  exists b f, try_get B p = Some b /\ b' = with_edges f b.
Proof. intros [f ->]. rewrite try_get_edges. destruct (try_get B p) as [b|]; [|done]. intros [= <-]. eauto. Qed.

Lemma same_rest_map f B : same_rest B (map_edges f B).
Proof. by exists f. Qed.

Lemma view_map f B s p : view (map_edges f B) s p = (fun b => ends <$> f p s (edges s b)) <$> try_get B p.
Proof. unfold view. rewrite try_get_edges. destruct (try_get B p); cbn; [|done]. by rewrite with_edges_edges. Qed.

(** The change of one list. *)
Definition on_list (s0 : side) (p0 : nat) (f : list (Z * nat) -> list (Z * nat)) (v : side -> nat -> option (list (Z * nat)))
    (s : side) (p : nat) : option (list (Z * nat)) :=
  if decide (s = s0 /\ p = p0) then f <$> v s p else v s p.

Lemma on_list_ext s0 p0 f v w s p : (forall s p, v s p = w s p) -> on_list s0 p0 f v s p = on_list s0 p0 f w s p.
Proof. intros E. unfold on_list. by rewrite E. Qed.

Lemma on_list_here s p f v : on_list s p f v s p = f <$> v s p.
Proof. unfold on_list. by rewrite decide_True. Qed.

Lemma on_list_side s0 p0 f v s p : s <> s0 -> on_list s0 p0 f v s p = v s p.
Proof. intros Hs. unfold on_list. rewrite decide_False; [done|]. by intros [? _]. Qed.

Lemma on_list_point s0 p0 f v s p : p <> p0 -> on_list s0 p0 f v s p = v s p.
Proof. intros Hp. unfold on_list. rewrite decide_False; [done|]. by intros [_ ?]. Qed.

Lemma on_list_comm s0 p0 f s1 p1 g v s p : s0 <> s1 ->
  on_list s0 p0 f (on_list s1 p1 g v) s p = on_list s1 p1 g (on_list s0 p0 f v) s p.
Proof. intros Hne. unfold on_list. destruct (decide _) as [[-> _]|], (decide _) as [[? _]|]; congruence. Qed.

Lemma fmap_delete {A C} (f : A -> C) (n : nat) (l : list A) : f <$> delete n l = delete n (f <$> l).
Proof. by rewrite !delete_take_drop, fmap_app, fmap_take, fmap_drop. Qed.

Lemma view_half_deleted B s bl n s' p :
  view (map_edges (half_deleted s bl n) B) s' p = on_list s bl (delete n) (view B) s' p.
Proof.
  rewrite view_map. unfold on_list, view, half_deleted. destruct (try_get B p) as [b|]; cbn; [|by destruct (decide _)].
  destruct (decide (s' = s)) as [->|Hs].
  - destruct (decide (p = bl)) as [->|Hp].
    + rewrite decide_True by done. by rewrite fmap_delete.
    + by rewrite decide_False by naive_solver.
  - rewrite decide_False by naive_solver. f_equal. rewrite <- list_fmap_compose. apply list_fmap_ext. intros k e _.
    unfold ends. cbn. rewrite shift_point. unfold shift. by destruct (decide _).
Qed.

Lemma u64_nat n : Z.of_nat n < 2 ^ 31 -> u64 (Z.of_nat n) = Z.of_nat n.
Proof. intros. apply u64_small. lia. Qed.

(** Half a deletion, from a state with its invariant or with one half dangling. *)
Lemma half_delete_ok B s bl n e : edges_ok B -> edge_at B s bl n e ->
  half_delete_edge s B bl (Z.of_nat n) = Ok (map_edges (half_deleted s bl n) B).
Proof.
  intros [Hsm Hok] He. pose proof (edge_at_small _ _ _ _ _ Hsm He). destruct He as (b & Hb & He).
  apply half_delete_edge_eq with b; auto using u64_nat. by eapply lookup_lt_Some.
Qed.

Lemma half_delete_dangling_ok B s q j e : ok_but B s q j -> edge_at B s q j e ->
  half_delete_edge s B q (Z.of_nat j) = Ok (map_edges (half_deleted s q j) B).
Proof.
  intros [Hsm Hok] He. pose proof (edge_at_small _ _ _ _ _ Hsm He). destruct He as (b & Hb & He).
  apply half_delete_edge_eq with b; auto using u64_nat; [by eapply lookup_lt_Some|..].
  - intros k x Hk Hx. apply (Hok s q k x Hx). lia.
  - intros p k x Hx Hp Hr. apply (Hok _ _ _ _ Hx). pose proof (other_ne s). naive_solver.
Qed.

(** The half that is left after [half_deleted s bl n] is where the edge pointed. *)
Lemma dangling_edge B s bl n e j : edges_ok B -> edge_at B s bl n e -> reverse_index e = Z.of_nat j ->
  exists e', edge_at (map_edges (half_deleted s bl n) B) (other s) (point e) j e'.
Proof.
  intros [Hsm Hok] He Hj. destruct (Hok _ _ _ _ He) as (j' & e' & Hj' & He' & _). assert (j' = j) as -> by lia.
  exists (renamed s bl n (other s) e'). apply half_deleted_edge. exists j, e'. split; [done|]. pose proof (other_ne s).
  split; [naive_solver|]. split; [|done]. unfold moved. by rewrite decide_False by naive_solver.
Qed.

Lemma remove_edge_ok B s bl n e : edges_ok B -> edge_at B s bl n e ->
  exists B' j, remove_edge_at s B bl (Z.of_nat n) = Ok B' /\ edges_ok B' /\ same_rest B B' /\
    reverse_index e = Z.of_nat j /\
    forall s' p, view B' s' p = on_list (other s) (point e) (delete j) (on_list s bl (delete n) (view B)) s' p.
Proof.
  intros Hok He. destruct (proj2 Hok _ _ _ _ He) as (j & e' & Hj & He' & _).
  pose proof (edge_at_small _ _ _ _ _ (proj1 Hok) He).
  destruct (dangling_edge B s bl n e j Hok He Hj) as [x Hx].
  pose proof (half_deleted_dangling B s bl n e j Hok He Hj) as Hd.
  eexists _, j. unfold remove_edge_at. rewrite (get_edge_eq B s bl n e) by (auto using u64_nat). cbn [obind].
  rewrite (half_delete_ok B s bl n e) by done. cbn [obind]. rewrite Hj, (half_delete_dangling_ok _ _ _ _ _ Hd Hx).
  split; [done|]. split; [by apply dangling_removed|]. split; [rewrite map_edges_comp; apply same_rest_map|].
  split; [done|]. intros s' p. rewrite view_half_deleted. apply on_list_ext. intros s1 p1. apply view_half_deleted.
Qed.

(** *** Adding and redirecting *)

(** One more edge fits the lists of [p]. *)
Definition room (B : Blocks) (s : side) (p : nat) : Prop :=
  exists b, try_get B p = Some b /\ Z.of_nat (length (edges s b)) + 1 < 2 ^ 31.

Lemma edge_at_push B s p x s' q k e :
  edge_at (map_edges (at_list p s (fun l => l ++ [x])) B) s' q k e <->
  edge_at B s' q k e \/ (s' = s /\ q = p /\ e = x /\ exists b, try_get B p = Some b /\ k = length (edges s b)).
Proof.
  rewrite edge_at_map. unfold at_list, edge_at. split.
  - intros (b & Hb & He). destruct (decide (q = p /\ s' = s)) as [[-> ->]|Hne]; [|eauto].
    apply lookup_app_Some in He as [He|[Hk He]]; [eauto|]. right. apply list_lookup_singleton_Some in He as [? ->].
    split_and!; try done. exists b. split; [done|lia].
  - intros [(b & Hb & He)|(-> & -> & -> & b & Hb & ->)]; exists b; (split; [done|]).
    + destruct (decide _); [by apply lookup_app_l_Some|done].
    + rewrite decide_True by done. by rewrite lookup_app_r, Nat.sub_diag by lia.
Qed.

Lemma view_push B s p x s' q :
  view (map_edges (at_list p s (fun l => l ++ [x])) B) s' q = on_list s p (fun l => l ++ [ends x]) (view B) s' q.
Proof.
  rewrite view_map. unfold on_list, view, at_list. destruct (try_get B q); cbn; [|by destruct (decide _)].
  destruct (decide (q = p /\ s' = s)) as [[-> ->]|]; [rewrite decide_True by done|rewrite decide_False by naive_solver]; [|done].
  by rewrite fmap_app.
Qed.

Lemma small_push B s p x : small B -> room B s p -> small (map_edges (at_list p s (fun l => l ++ [x])) B).
Proof.
  intros Hs (b & Hb & Hr) q c s' Hc. rewrite try_get_edges in Hc. destruct (try_get B q) as [c0|] eqn:E; [|done].
  injection Hc as <-. rewrite with_edges_edges. unfold at_list. specialize (Hs q c0 s' E).
  destruct (decide _) as [[-> ->]|]; [|done]. simplify_eq. rewrite length_app. cbn. lia.
Qed.

(** A push at the other end gives the dangling half its twin. *)
Lemma attach B s bl n x lab m c : ok_but B s bl n -> edge_at B s bl n x -> room B (other s) (point x) ->
  try_get B (point x) = Some c -> length (edges (other s) c) = m -> reverse_index x = Z.of_nat m ->
  edges_ok (map_edges (at_list (point x) (other s) (fun l => l ++ [mk_BlockEdge lab bl (Z.of_nat n)])) B).
Proof.
  intros [Hsm Hok] Hx Hroom Hc Hm Hr. split; [by apply small_push|].
  intros s' p k e [He|(-> & -> & -> & b & Hb & ->)]%edge_at_push.
  - destruct (decide (s' = s /\ p = bl /\ k = n)) as [(-> & -> & ->)|Hne].
    + pose proof (edge_at_inj _ _ _ _ _ _ He Hx) as ->. exists m, (mk_BlockEdge lab bl (Z.of_nat n)).
      split; [done|]. split; [|done]. apply edge_at_push. right. eauto 8.
    + destruct (Hok _ _ _ _ He Hne) as [(j & e' & Hj & He' & Hp' & Hk') _]. exists j, e'. split; [done|]. split; [|done].
      apply edge_at_push. by left.
  - simplify_eq. exists n, x. split; [done|]. rewrite other_other. split; [|done]. apply edge_at_push. by left.
Qed.

Lemma edge_at_alter B s p n f s' q k e :
  edge_at (map_edges (at_list p s (alter f n)) B) s' q k e <->
  exists e0, edge_at B s' q k e0 /\ e = if decide (s' = s /\ q = p /\ k = n) then f e0 else e0.
Proof.
  rewrite edge_at_map. unfold at_list, edge_at. split.
  - intros (b & Hb & He). destruct (decide (q = p /\ s' = s)) as [[-> ->]|Hne].
    + destruct (decide (k = n)) as [->|Hk].
      * rewrite list_lookup_alter_eq in He. destruct (edges s b !! n) as [e0|] eqn:E; [|done]. injection He as <-.
        exists e0. split; [eauto|]. by rewrite decide_True.
      * rewrite list_lookup_alter_ne in He by done. exists e. split; [eauto|]. by rewrite decide_False by naive_solver.
    + exists e. split; [eauto|]. by rewrite decide_False by naive_solver.
  - intros (e0 & (b & Hb & He) & ->). exists b. split; [done|].
    destruct (decide (q = p /\ s' = s)) as [[-> ->]|Hne].
    + destruct (decide (s = s /\ p = p /\ k = n)) as [(_ & _ & ->)|Hk].
      * by rewrite list_lookup_alter_eq, He.
      * by rewrite list_lookup_alter_ne by naive_solver.
    + by rewrite decide_False by naive_solver.
Qed.

Lemma small_alter B s p n f : small B -> small (map_edges (at_list p s (alter f n)) B).
Proof.
  intros Hs. apply small_map; [done|]. intros q s' l. unfold at_list. destruct (decide _); [|done].
  rewrite length_alter. done.
Qed.

(** What the dangling half says does not matter. *)
Lemma ok_but_alter B s bl n f : ok_but B s bl n -> ok_but (map_edges (at_list bl s (alter f n)) B) s bl n.
Proof.
  intros [Hsm Hok]. split; [by apply small_alter|]. intros s' p k e (e0 & He & ->)%edge_at_alter Hne.
  rewrite decide_False by done. destruct (Hok _ _ _ _ He Hne) as [(j & e' & Hj & He' & Hp' & Hk') Hno].
  split; [|done]. exists j, e'. split; [done|]. split; [|done]. apply edge_at_alter. exists e'. split; [done|].
  rewrite decide_False; [done|]. intros (? & ? & ->). by apply Hno.
Qed.

Lemma edges_ok_but B s p b : edges_ok B -> try_get B p = Some b -> ok_but B s p (length (edges s b)).
Proof.
  intros [Hsm Hok] Hb. split; [done|]. intros s' q k e He _. split; [by apply Hok|]. intros (<- & <- & Hr).
  destruct (Hok _ _ _ _ He) as (j & e' & Hj & (b' & Hb' & He') & _). simplify_eq. apply lookup_lt_Some in He'. lia.
Qed.

Lemma ok_but_push B s p b x : ok_but B s p (length (edges s b)) -> try_get B p = Some b -> room B s p ->
  ok_but (map_edges (at_list p s (fun l => l ++ [x])) B) s p (length (edges s b)).
Proof.
  intros [Hsm Hok] Hb Hr. split; [by apply small_push|]. intros s' q k e [He|(-> & -> & -> & b' & Hb' & ->)]%edge_at_push Hne;
    [|simplify_eq; naive_solver].
  destruct (Hok _ _ _ _ He Hne) as [(j & e' & Hj & He' & Hp' & Hk') Hno]. split; [|done].
  exists j, e'. split; [done|]. split; [|done]. apply edge_at_push. by left.
Qed.

Lemma add_edge_ok B bl source lab : edges_ok B -> room B Into bl -> room B OutOf source ->
  exists B', block_add_in_edge B bl source lab = Ok B' /\ edges_ok B' /\ same_rest B B' /\
    forall s p, view B' s p =
      on_list OutOf source (fun l => l ++ [(lab, bl)]) (on_list Into bl (fun l => l ++ [(lab, source)]) (view B)) s p.
Proof.
  intros Hok Hrb Hrs. pose proof Hrb as (b & Hb & Hlb). pose proof Hrs as (c & Hc & Hlc). cbn [edges] in Hlb, Hlc.
  unfold block_add_in_edge. rewrite !get_try, Hb, Hc. cbn [obind]. rewrite !i32_small by lia.
  rewrite (edit_edges_eq _ _ _ _ _ Hb). cbn [obind].
  set (x := mk_BlockEdge lab source (Z.of_nat (length (outofthis c)))).
  set (B1 := map_edges (at_list bl Into (fun l => l ++ [x])) B).
  assert (Hc1 : exists c1, try_get B1 source = Some c1 /\ edges OutOf c1 = outofthis c).
  { unfold B1. rewrite try_get_edges, Hc. eexists. split; [done|]. rewrite with_edges_edges. unfold at_list.
    by rewrite decide_False by naive_solver. }
  destruct Hc1 as (c1 & Hc1 & Hl1). rewrite (edit_edges_eq _ _ _ _ _ Hc1). eexists. split; [done|]. split; [|split].
  - apply (attach B1 Into bl (length (intothis b)) x lab (length (outofthis c)) c1).
    + apply (ok_but_push B Into bl b x); [by apply edges_ok_but|done..].
    + apply edge_at_push. right. split_and!; try done. by exists b.
    + exists c1. split; [done|]. cbn [other]. rewrite Hl1. lia.
    + done.
    + cbn [other]. by rewrite Hl1.
    + done.
  - unfold B1. rewrite map_edges_comp. apply same_rest_map.
  - intros s p. rewrite view_push. apply on_list_ext. intros s1 p1. apply view_push.
Qed.

Lemma view_alter B s p n lab q x s' r : edge_at B s p n x ->
  view (map_edges (at_list p s (alter (fun e => mk_BlockEdge (label e) q lab) n)) B) s' r =
  on_list s p (<[n := (label x, q)]>) (view B) s' r.
Proof.
  intros (b & Hb & Hx). rewrite view_map. unfold on_list, view, at_list.
  destruct (decide (r = p /\ s' = s)) as [[-> ->]|]; [rewrite decide_True by done|rewrite decide_False by naive_solver; done].
  rewrite Hb. cbn. f_equal. rewrite <- (insert_alter _ _ _ _ Hx). by rewrite list_fmap_insert.
Qed.

(** Redirecting the edge at [n] of [bl] to [source]; the old neighbour keeps
    room, and so does [source] unless it is the old neighbour. *)
Lemma replace_edge_ok B s bl n e source : edges_ok B -> edge_at B s bl n e -> room B (other s) source ->
  exists B' j, replace_edge_at s B bl (Z.of_nat n) source = Ok B' /\ edges_ok B' /\ same_rest B B' /\
    reverse_index e = Z.of_nat j /\
    forall s' p, view B' s' p =
      on_list (other s) source (fun l => l ++ [(label e, bl)])
        (on_list s bl (<[n := (label e, source)]>) (on_list (other s) (point e) (delete j) (view B))) s' p.
Proof.
  intros Hok He (c & Hc & Hlc). destruct (proj2 Hok _ _ _ _ He) as (j & e' & Hj & He' & Hp' & Hk').
  pose proof (edge_at_small _ _ _ _ _ (proj1 Hok) He).
  unfold replace_edge_at. rewrite (get_edge_eq B s bl n e) by (auto using u64_nat). cbn [obind].
  rewrite Hj, (half_delete_ok B (other s) (point e) j e') by done. cbn [obind].
  pose proof (half_deleted_dangling B (other s) (point e) j e' n Hok He' Hk') as Hd.
  destruct (dangling_edge B (other s) (point e) j e' n Hok He' Hk') as [x Hx].
  rewrite other_other, Hp' in Hd, Hx.
  set (B1 := map_edges (half_deleted (other s) (point e) j) B) in *.
  assert (Hc1 : exists c1, try_get B1 source = Some c1 /\ Z.of_nat (length (edges (other s) c1)) + 1 < 2 ^ 31).
  { unfold B1. rewrite try_get_edges, Hc. eexists. split; [done|]. rewrite with_edges_edges.
    pose proof (length_half_deleted (other s) (point e) j source (other s) (edges (other s) c)). lia. }
  destruct Hc1 as (c1 & Hc1 & Hl1). rewrite get_try, Hc1. cbn [obind]. rewrite i32_small by lia.
  rewrite (get_edge_eq B1 s bl n x) by (auto using u64_nat). cbn [obind].
  rewrite (edit_edge_eq B1 s bl n x) by (auto using u64_nat). cbn [obind].
  assert (Hlab : label x = label e).
  { apply half_deleted_edge in Hx as (k0 & e0 & He0 & _ & Hk0 & ->). pose proof (other_ne s). unfold moved in Hk0.
    rewrite decide_False in Hk0 by naive_solver. subst k0. by rewrite renamed_label, (edge_at_inj _ _ _ _ _ _ He0 He). }
  set (B2 := map_edges (at_list bl s _) B1).
  assert (Hc2 : exists c2, try_get B2 source = Some c2 /\ edges (other s) c2 = edges (other s) c1).
  { unfold B2. rewrite try_get_edges, Hc1. eexists. split; [done|]. rewrite with_edges_edges. unfold at_list.
    pose proof (other_ne s). by rewrite decide_False by naive_solver. }
  destruct Hc2 as (c2 & Hc2 & Hl2). rewrite (edit_edges_eq _ _ _ _ _ Hc2). eexists _, j. split; [done|]. split; [|split; [|split; [done|]]].
  - apply (attach B2 s bl n (mk_BlockEdge (label x) source (Z.of_nat (length (edges (other s) c1)))) (label x)
      (length (edges (other s) c1)) c2).
    + by apply ok_but_alter.
    + apply edge_at_alter. exists x. split; [done|]. by rewrite decide_True.
    + exists c2. cbn. rewrite Hl2. done.
    + done.
    + by rewrite Hl2.
    + done.
  - unfold B2, B1. rewrite !map_edges_comp. apply same_rest_map.
  - intros s' p. rewrite view_push. unfold ends. cbn [label point]. rewrite <- Hlab. apply on_list_ext. intros s1 p1.
    unfold B2. rewrite (view_alter _ _ _ _ _ _ _ _ _ Hx). apply on_list_ext. intros s2 p2. apply view_half_deleted.
Qed.

(** *** Labels, flags and the order of the two ways out *)

Lemma edge_at_blocks f B s p k e : (forall p b s, edges s (f p b) = edges s b) ->
  edge_at (map_blocks f B) s p k e <-> edge_at B s p k e.
Proof.
  intros Hf. unfold edge_at. rewrite try_get_map. split.
  - intros (b & Hb & He). destruct (try_get B p) as [b0|]; [|done]. injection Hb as <-. rewrite Hf in He. eauto.
  - intros (b & Hb & He). rewrite Hb. eexists. split; [done|]. by rewrite Hf.
Qed.

(** The invariant speaks of the edges only. *)
Lemma edges_ok_blocks f B : (forall p b s, edges s (f p b) = edges s b) -> edges_ok B -> edges_ok (map_blocks f B).
Proof.
  intros Hf [Hsm Hok]. split.
  - intros p b s Hb. rewrite try_get_map in Hb. destruct (try_get B p) as [b0|] eqn:E; [|done]. injection Hb as <-.
    rewrite Hf. by apply (Hsm p).
  - intros s p k e He. rewrite edge_at_blocks in He by done. destruct (Hok _ _ _ _ He) as (j & e' & Hj & He' & H1 & H2).
    exists j, e'. rewrite edge_at_blocks by done. done.
Qed.

Lemma view_blocks f B s p : (forall p b s, edges s (f p b) = edges s b) -> view (map_blocks f B) s p = view B s p.
Proof. intros Hf. unfold view. rewrite try_get_map. destruct (try_get B p); cbn; [|done]. by rewrite Hf. Qed.

(** Labels play no part in the invariant. *)
Lemma edges_ok_labels g B : (forall p s k e, point (g p s k e) = point e /\ reverse_index (g p s k e) = reverse_index e) ->
  edges_ok B -> edges_ok (map_edges (fun p s => imap (g p s)) B).
Proof.
  intros Hg [Hsm Hok]. split.
  - apply small_map; [done|]. intros p s l. by rewrite length_imap.
  - assert (Hat : forall s p k e, edge_at (map_edges (fun p s => imap (g p s)) B) s p k e <->
      exists e0, edge_at B s p k e0 /\ e = g p s k e0).
    { intros s p k e. rewrite edge_at_map. unfold edge_at. split.
      - intros (b & Hb & He). rewrite list_lookup_imap in He. destruct (edges s b !! k) eqn:E; [|done]. injection He as <-. eauto.
      - intros (e0 & (b & Hb & He) & ->). exists b. split; [done|]. by rewrite list_lookup_imap, He. }
    intros s p k e (e0 & He & ->)%Hat. destruct (Hg p s k e0) as [Hp0 Hr0].
    destruct (Hok _ _ _ _ He) as (j & e' & Hj & He' & H1 & H2). exists j, (g (point e0) (other s) j e').
    destruct (Hg (point e0) (other s) j e') as [Hp1 Hr1]. rewrite Hp0, Hr0, Hp1, Hr1. split; [done|]. split; [|done].
    apply Hat. by exists e'.
Qed.

Lemma alter_imap {A} (f : A -> A) n (l : list A) : alter f n l = imap (fun k x => if decide (k = n) then f x else x) l.
Proof.
  apply list_eq. intros k. rewrite list_lookup_imap. destruct (decide (k = n)) as [->|Hne].
  - rewrite list_lookup_alter_eq. by destruct (l !! n).
  - rewrite list_lookup_alter_ne by done. by destruct (l !! k).
Qed.

Lemma edges_ok_alter_label B s p n f : edges_ok B -> edges_ok (map_edges (at_list p s (alter (with_label f) n)) B).
Proof.
  intros Hok. rewrite (map_edges_ext _ (fun q s' => imap (fun k e =>
    if decide (q = p /\ s' = s) then if decide (k = n) then with_label f e else e else e))).
  - apply edges_ok_labels; [|done]. intros q s' k e. by repeat case_decide.
  - intros q b s' _. cbn. unfold at_list. destruct (decide (q = p /\ s' = s)).
    + apply alter_imap.
    + symmetry. apply list_eq. intros k. rewrite list_lookup_imap. by destruct (edges s' b !! k).
Qed.

(** The two ends of an edge are relabelled together. *)
Lemma relabel_ok f B bl n e : edges_ok B -> edge_at B OutOf bl n e ->
  exists B' j, relabel_out_edge f B bl (Z.of_nat n) = Ok B' /\ edges_ok B' /\ same_rest B B' /\ reverse_index e = Z.of_nat j /\
    B' = map_edges (at_list (point e) Into (alter (with_label f) j)) (map_edges (at_list bl OutOf (alter (with_label f) n)) B).
Proof.
  intros Hok He. destruct (proj2 Hok _ _ _ _ He) as (j & e' & Hj & He' & Hp' & Hk').
  pose proof (edge_at_small _ _ _ _ _ (proj1 Hok) He). pose proof (edge_at_small _ _ _ _ _ (proj1 Hok) He').
  unfold relabel_out_edge. rewrite (edit_edge_eq _ _ _ n e) by (auto using u64_nat). cbn [obind].
  rewrite (get_edge_eq _ OutOf bl n (with_label f e)).
  2:{ apply edge_at_alter. exists e. split; [done|]. by rewrite decide_True. }
  2:{ auto using u64_nat. }
  cbn [obind]. rewrite (edit_edge_eq _ Into (point (with_label f e)) j e').
  2:{ apply edge_at_alter. exists e'. split; [done|]. by rewrite decide_False by naive_solver. }
  2:{ cbn. rewrite Hj. auto using u64_nat. }
  eexists _, j. split; [done|]. split; [by apply edges_ok_alter_label, edges_ok_alter_label|].
  split; [rewrite map_edges_comp; apply same_rest_map|]. done.
Qed.

(** Exchanging the two ways out, and telling the twins. *)
Definition swapped (bl : nat) (x y : BlockEdge) (jx jy p : nat) (s : side) (l : list BlockEdge) : list BlockEdge :=
  match s with
  | OutOf => if decide (p = bl) then y :: x :: drop 2 l else l
  | Into => imap (fun k e => if decide (p = point x /\ k = jx) then with_rev (fun _ => 1) e
                             else if decide (p = point y /\ k = jy) then with_rev (fun _ => 0) e else e) l
  end.

Lemma swap_edges_eq B bl b x y l jx jy : edges_ok B -> try_get B bl = Some b -> outofthis b = x :: y :: l ->
  reverse_index x = Z.of_nat jx -> reverse_index y = Z.of_nat jy ->
  block_swap_edges B bl = Ok (map_blocks (fun p b => if decide (p = bl) then with_flags (fun fl => Z.lxor fl F_FLIP_PATH) b else b)
    (map_edges (swapped bl x y jx jy) B)).
Proof.
  intros [Hsm Hok] Hb Hl Hx Hy. unfold block_swap_edges. rewrite get_try, Hb. cbn [obind]. rewrite Hl. cbn [swap01 obind].
  assert (Hxat : edge_at B OutOf bl 0 x) by (exists b; cbn; by rewrite Hl).
  assert (Hyat : edge_at B OutOf bl 1 y) by (exists b; cbn; by rewrite Hl).
  destruct (Hok _ _ _ _ Hxat) as (jx' & x' & Hjx & Hx' & Hpx & Hkx). assert (jx' = jx) as -> by lia.
  destruct (Hok _ _ _ _ Hyat) as (jy' & y' & Hjy & Hy' & Hpy & Hky). assert (jy' = jy) as -> by lia.
  pose proof (edge_at_small _ _ _ _ _ Hsm Hx'). pose proof (edge_at_small _ _ _ _ _ Hsm Hy').
  rewrite (edit_edges_eq _ _ _ _ _ Hb). cbn [obind].
  rewrite (get_edge_eq _ OutOf bl 0 y); [|apply edge_at_map; exists b; split; [done|]; unfold at_list; by rewrite decide_True|done].
  cbn [obind]. rewrite (edit_edge_eq _ Into (point y) jy y').
  2:{ apply edge_at_map. destruct Hy' as (c & Hc & Hy'). exists c. split; [done|]. unfold at_list. by rewrite decide_False by naive_solver. }
  2:{ rewrite Hjy. auto using u64_nat. }
  cbn [obind]. rewrite map_edges_comp.
  rewrite (get_edge_eq _ OutOf bl 1 x).
  2:{ apply edge_at_map. exists b. split; [done|]. unfold at_list. rewrite decide_False by naive_solver. by rewrite decide_True. }
  2:{ done. }
  assert (Hdist : ~ (point x = point y /\ jx = jy)).
  { intros [Hp ->]. rewrite Hp in Hx'. pose proof (edge_at_inj _ _ _ _ _ _ Hx' Hy') as ->. lia. }
  cbn [obind]. rewrite (edit_edge_eq _ Into (point x) jx x').
  2:{ apply edge_at_map. destruct Hx' as (c & Hc & Hx'). exists c. split; [done|]. unfold at_list.
      rewrite (decide_False (P := point x = bl /\ Into = OutOf)) by naive_solver.
      destruct (decide _) as [[Hp _]|]; [|done]. rewrite list_lookup_alter_ne; [done|]. naive_solver. }
  2:{ rewrite Hjx. auto using u64_nat. }
  cbn [obind]. rewrite map_edges_comp.
  rewrite (edit_eq _ _ _ _ ltac:(rewrite try_get_edges, Hb; reflexivity)). do 2 f_equal.
  apply map_edges_ext. intros p c s Hc. unfold at_list, swapped. destruct s.
  - rewrite (decide_False (P := p = bl /\ Into = OutOf)) by naive_solver. apply list_eq. intros k. rewrite list_lookup_imap.
    destruct (decide (p = point x /\ Into = Into)) as [[-> _]|Hpx0], (decide (_ = point y /\ Into = Into)) as [[Hpy0 _]|Hpy0];
      rewrite ?alter_imap, ?list_lookup_imap; destruct (edges Into c !! k) as [e|]; try done; cbn;
      repeat case_decide; naive_solver.
  - rewrite (decide_False (P := p = point x /\ OutOf = Into)), (decide_False (P := p = point y /\ OutOf = Into)) by naive_solver.
    destruct (decide (p = bl /\ OutOf = OutOf)) as [[-> _]|Hne].
    + rewrite decide_True by done. simplify_eq. cbn [edges]. by rewrite Hl.
    + by rewrite decide_False by naive_solver.
Qed.

Lemma swap_edges_ok B bl b x y l : edges_ok B -> try_get B bl = Some b -> outofthis b = x :: y :: l ->
  exists B', block_swap_edges B bl = Ok B' /\ edges_ok B' /\
    forall s p, view B' s p = on_list OutOf bl (fun v => ends y :: ends x :: drop 2 v) (view B) s p.
Proof.
  intros Hok Hb Hl. assert (Hxat : edge_at B OutOf bl 0 x) by (exists b; cbn; by rewrite Hl).
  assert (Hyat : edge_at B OutOf bl 1 y) by (exists b; cbn; by rewrite Hl). pose proof (proj2 Hok) as Htw.
  destruct (Htw _ _ _ _ Hxat) as (jx & x' & Hjx & Hx' & Hpx & Hkx).
  destruct (Htw _ _ _ _ Hyat) as (jy & y' & Hjy & Hy' & Hpy & Hky).
  rewrite (swap_edges_eq B bl b x y l jx jy) by done. eexists. split; [done|]. split.
  - apply edges_ok_blocks; [intros p c s; by destruct (decide _), s|]. split.
    + intros p c s Hc. rewrite try_get_edges in Hc. destruct (try_get B p) as [c0|] eqn:E; [|done]. injection Hc as <-.
      rewrite with_edges_edges. pose proof (proj1 Hok p c0 s E). unfold swapped. destruct s; [by rewrite length_imap|].
      destruct (decide (p = bl)) as [->|]; [|done]. simplify_eq. cbn [edges] in *. rewrite Hl in *. done.
    + assert (Hin : forall p k e, edge_at (map_edges (swapped bl x y jx jy) B) Into p k e <-> exists e0, edge_at B Into p k e0 /\
        e = if decide (p = point x /\ k = jx) then with_rev (fun _ => 1) e0
            else if decide (p = point y /\ k = jy) then with_rev (fun _ => 0) e0 else e0).
      { intros p k e. rewrite edge_at_map. unfold edge_at, swapped. split.
        - intros (c & Hc & He). rewrite list_lookup_imap in He. destruct (edges Into c !! k) as [e0|] eqn:E; [|done].
          injection He as <-. eauto.
        - intros (e0 & (c & Hc & He) & ->). exists c. split; [done|]. by rewrite list_lookup_imap, He. }
      assert (Hout : forall p k e, edge_at (map_edges (swapped bl x y jx jy) B) OutOf p k e <->
        if decide (p = bl /\ k = 0%nat) then e = y else if decide (p = bl /\ k = 1%nat) then e = x else edge_at B OutOf p k e).
      { intros p k e. rewrite edge_at_map. unfold edge_at, swapped. destruct (decide (p = bl)) as [->|Hp].
        - destruct k as [|[|k]]; rewrite ?(decide_True (P := bl = bl /\ _)) by done.
          + split; [intros (c & _ & [= <-]); done|]. intros ->. by exists b.
          + rewrite decide_False, decide_True by naive_solver. split; [intros (c & _ & [= <-]); done|]. intros ->. by exists b.
          + rewrite !decide_False by naive_solver. setoid_rewrite Hb. split; intros (c & [= <-] & He); exists b; (split; [done|]); cbn in *.
            * by rewrite Hl in *.
            * by rewrite Hl in *.
        - by rewrite !decide_False by naive_solver. }
      intros s p k e He. destruct s.
      * apply Hin in He as (e0 & He & ->). destruct (Htw _ _ _ _ He) as (j & e' & Hj & He' & Hp' & Hk').
        destruct (decide (p = point x /\ k = jx)) as [[-> ->]|Hne].
        { pose proof (edge_at_inj _ _ _ _ _ _ He Hx') as ->. exists 1%nat, x. split; [done|]. split; [|done].
          apply Hout. cbn. rewrite Hpx. by rewrite decide_False, decide_True by naive_solver. }
        destruct (decide (p = point y /\ k = jy)) as [[-> ->]|Hne'].
        { pose proof (edge_at_inj _ _ _ _ _ _ He Hy') as ->. exists 0%nat, y. split; [done|]. split; [|done].
          apply Hout. cbn. rewrite Hpy. by rewrite decide_True. }
        exists j, e'. split; [done|]. split; [|done]. apply Hout.
        rewrite !decide_False; [done|..]; intros [Hbl ->]; rewrite Hbl in He'.
        -- pose proof (edge_at_inj _ _ _ _ _ _ He' Hyat) as ->. apply Hne'. split; [done|lia].
        -- pose proof (edge_at_inj _ _ _ _ _ _ He' Hxat) as ->. apply Hne. split; [done|lia].
      * apply Hout in He. destruct (decide (p = bl /\ k = 0%nat)) as [[-> ->]|Hne0].
        { subst e. exists jy, (with_rev (fun _ => 0) y'). split; [done|]. split; [|done]. apply Hin. exists y'. split; [done|].
          rewrite decide_False, decide_True; [done..|]. intros [Hp ->]. rewrite Hp in Hy'.
          pose proof (edge_at_inj _ _ _ _ _ _ Hy' Hx') as ->. lia. }
        destruct (decide (p = bl /\ k = 1%nat)) as [[-> ->]|Hne1].
        { subst e. exists jx, (with_rev (fun _ => 1) x'). split; [done|]. split; [|done]. apply Hin. exists x'. split; [done|].
          by rewrite decide_True. }
        destruct (Htw _ _ _ _ He) as (j & e' & Hj & He' & Hp' & Hk'). exists j, e'. split; [done|]. split; [|done].
        apply Hin. exists e'. split; [done|]. rewrite !decide_False; [done|..]; intros [Hp ->]; rewrite Hp in He'.
        -- pose proof (edge_at_inj _ _ _ _ _ _ He' Hy') as ->. apply Hne1. split; [congruence|lia].
        -- pose proof (edge_at_inj _ _ _ _ _ _ He' Hx') as ->. apply Hne0. split; [congruence|lia].
  - intros s p. rewrite view_blocks by (intros q c s'; by destruct (decide _), s'). rewrite view_map. unfold on_list, view, swapped.
    destruct (try_get B p) as [c|] eqn:E; cbn; [|by destruct (decide _)]. destruct s.
    + rewrite decide_False by naive_solver. f_equal. apply list_eq. intros k. rewrite !list_lookup_fmap, list_lookup_imap.
      destruct (edges Into c !! k) as [e|]; [|done]. cbn. by repeat case_decide.
    + destruct (decide (p = bl)) as [->|Hp]; [rewrite decide_True by done|by rewrite decide_False by naive_solver].
      simplify_eq. cbn. by rewrite fmap_drop.
Qed.

(** *** The check decides the invariant *)

Lemma check_side_ok s B bl l slot : small B -> Z.of_nat (slot + length l) < 2 ^ 31 ->
  (forall e, e ∈ l -> is_Some (try_get B (point e)) /\ is_i32 (reverse_index e)) ->
  check_side s B bl slot l = Ok tt <-> forall k e, l !! k = Some e -> twins B s bl (slot + k) e.
Proof.
  revert slot. induction l as [|e l IH]; intros slot Hsm Hlen Hl.
  { split; [|done]. intros _ k e Hk. by rewrite lookup_nil in Hk. }
  destruct (Hl e ltac:(by left)) as [[o Ho] Hr]. unfold is_s in Hr. cbn in Hlen. cbn [check_side]. rewrite get_try, Ho. cbn [obind].
  pose proof (Hsm (point e) o (other s) Ho) as Hlo.
  assert (Hhead : twins B s bl slot e <-> exists j e', reverse_index e = Z.of_nat j /\ edges (other s) o !! j = Some e' /\
    point e' = bl /\ reverse_index e' = Z.of_nat slot).
  { unfold twins, edge_at. split; [|naive_solver]. intros (j & e' & Hj & (b & Hb & He') & Hp & Hk). simplify_eq. eauto 8. }
  assert (Hsplit : (forall k x, (e :: l) !! k = Some x -> twins B s bl (slot + k) x) <->
    twins B s bl slot e /\ forall k x, l !! k = Some x -> twins B s bl (S slot + k) x).
  { split.
    - intros H. split; [specialize (H 0%nat e eq_refl); by rewrite Nat.add_0_r in H|].
      intros k x Hx. specialize (H (S k) x Hx). by replace (S slot + k)%nat with (slot + S k)%nat by lia.
    - intros [H0 H] [|k] x Hx; [injection Hx as <-; by rewrite Nat.add_0_r|].
      replace (slot + S k)%nat with (S slot + k)%nat by lia. by apply H. }
  rewrite Hsplit, Hhead. rewrite <- (IH (S slot)) by (done || lia || (intros x Hx; apply Hl; by right)). clear IH Hsplit Hhead.
  assert (Hu : u64 (reverse_index e) = if decide (0 <= reverse_index e) then reverse_index e else reverse_index e + 2 ^ 64).
  { destruct (decide (0 <= reverse_index e)); [apply u64_small; lia|]. unfold uw. symmetry. apply Z.mod_unique_pos with (-1); lia. }
  destruct (Z.leb_spec (Z.of_nat (length (edges (other s) o))) (u64 (reverse_index e))) as [Hge|Hlt].
  { split; [by destruct s|]. intros [(j & e' & Hj & He' & _) _]. apply lookup_lt_Some in He'. rewrite Hj, u64_nat in Hge by lia. lia. }
  destruct (decide (0 <= reverse_index e)); [|lia].
  destruct (lookup_lt_is_Some_2 (edges (other s) o) (Z.to_nat (reverse_index e)) ltac:(lia)) as [e' He'].
  rewrite Hu, (index_ok _ _ _ He'). cbn [obind]. rewrite i32_small by lia.
  case_bool_decide as Hp; cbn [negb].
  2:{ split; [by destruct s|]. intros [(j & e2 & Hj & He2 & Hp2 & _) _]. rewrite Hj, Nat2Z.id in He'. naive_solver. }
  destruct (Z.eqb_spec (reverse_index e') (Z.of_nat slot)) as [Hk|Hk]; cbn [negb].
  2:{ split; [by destruct s|]. intros [(j & e2 & Hj & He2 & _ & Hk2) _]. rewrite Hj, Nat2Z.id in He'. naive_solver. }
  split; [|naive_solver]. intros H. split; [|done]. exists (Z.to_nat (reverse_index e)), e'. split_and!; try done. lia.
Qed.

(** Edges name live blocks and their positions are [i32] values: the typing of
    the lists. *)
Definition well_typed (B : Blocks) : Prop :=
  small B /\ forall s p k e, edge_at B s p k e -> is_Some (try_get B (point e)) /\ is_i32 (reverse_index e).

Lemma edges_ok_typed B : edges_ok B -> well_typed B.
Proof.
  intros [Hsm Hok]. split; [done|]. intros s p k e He. destruct (Hok _ _ _ _ He) as (j & e' & Hj & He' & _).
  pose proof (edge_at_small _ _ _ _ _ Hsm He'). destruct He' as (b & Hb & _). split; [by eexists|]. unfold is_s. lia.
Qed.

Lemma check_block_ok B p b : well_typed B -> try_get B p = Some b ->
  block_check_edges B p = Ok tt <-> forall s k e, edge_at B s p k e -> twins B s p k e.
Proof.
  intros [Hsm Hty] Hb. unfold block_check_edges. rewrite get_try, Hb. cbn [obind].
  assert (Hside : forall s, check_side s B p 0 (edges s b) = Ok tt <-> forall k e, edge_at B s p k e -> twins B s p k e).
  { intros s. rewrite check_side_ok; [|done|cbn; by apply (Hsm p)|].
    - unfold edge_at. rewrite Hb. split; [intros H k e (b' & [= <-] & He); by apply (H k)|]. intros H k e He. apply H. eauto.
    - intros e [k He]%list_elem_of_lookup. apply (Hty s p k e). by exists b. }
  pose proof (Hside Into) as HI. pose proof (Hside OutOf) as HO. cbn [edges] in HI, HO.
  destruct (check_side Into B p 0 (intothis b)) as [[]| | |] eqn:E; cbn [obind].
  - rewrite HO. split; [intros H [] ; [by apply HI|done]|]. intros H. apply H.
  - split; [done|]. intros H. discriminate (proj2 HI (H Into)).
  - split; [done|]. intros H. discriminate (proj2 HI (H Into)).
  - split; [done|]. intros H. discriminate (proj2 HI (H Into)).
Qed.

(** The invariant of a given arena, by evaluation. *)
Definition typed_edge (B : Blocks) (e : BlockEdge) : bool :=
  match try_get B (point e) with Some _ => (- 2 ^ 31 <=? reverse_index e) && (reverse_index e <? 2 ^ 31) | None => false end.

Definition checked_block (B : Blocks) (p : nat) : bool :=
  match try_get B p with
  | None => true
  | Some b => forallb (fun s => (Z.of_nat (length (edges s b)) <? 2 ^ 31) && forallb (typed_edge B) (edges s b)) [Into; OutOf] &&
      match block_check_edges B p with Ok _ => true | _ => false end
  end.

Definition checked_arena (B : Blocks) : bool := forallb (checked_block B) (seq 0 (length (slots B))).

Lemma checked_arena_ok B : checked_arena B = true -> edges_ok B.
Proof.
  intros H. unfold checked_arena in H. rewrite forallb_forall in H.
  assert (Hb : forall p b, try_get B p = Some b -> checked_block B p = true).
  { intros p b Hb. apply H, in_seq. unfold try_get in Hb. destruct (slots B !! p) eqn:E; [|done]. apply lookup_lt_Some in E. lia. }
  assert (Hs : forall p b s, try_get B p = Some b -> Z.of_nat (length (edges s b)) < 2 ^ 31 /\ forall e, e ∈ edges s b -> typed_edge B e = true).
  { intros p b s Hp. pose proof (Hb p b Hp) as Hc. unfold checked_block in Hc. rewrite Hp, andb_true_iff, forallb_forall in Hc.
    destruct Hc as [Hc _]. specialize (Hc s ltac:(destruct s; cbn; auto)). rewrite andb_true_iff, Z.ltb_lt, forallb_forall in Hc.
    split; [apply Hc|]. intros e He. apply Hc. by apply list_elem_of_In. }
  assert (Hty : well_typed B).
  { split; [intros p b s Hp; by apply (Hs p b s)|]. intros s p k e (b & Hp & He). destruct (Hs p b s Hp) as [_ Ht].
    specialize (Ht e ltac:(by eapply list_elem_of_lookup_2)). unfold typed_edge in Ht. destruct (try_get B (point e)); [|done].
    rewrite andb_true_iff, Z.leb_le, Z.ltb_lt in Ht. split; [by eexists|]. unfold is_s. lia. }
  split; [apply Hty|]. intros s p k e He. destruct He as (b & Hp & He). apply (proj1 (check_block_ok B p b Hty Hp)); [|by exists b].
  pose proof (Hb p b Hp) as Hc. unfold checked_block in Hc. rewrite Hp, andb_true_iff in Hc. destruct Hc as [_ Hc].
  by destruct (block_check_edges B p) as [[]| | |].
Qed.
