(* ===== verification/BlockGraph.v ===== *)
(** The operations of [src/src/block.rs] on whole blocks of the flow graph: the
    containers and the start block, removing and splicing blocks, the search
    for what a block reaches, and walks up the dominator tree. *)
From stdpp Require Import base list gmap numbers strings.
From Stdlib Require Import ZArith Lia.
From S2P Require Import Prelude Bits Arena Block.

(** ** Definitions *)

(** *** Members of a graph *)

Definition block_add_block (B : Blocks) (graph bl : nat) : outcome Blocks :=
  let! b := get B bl in
  let min := block_index b in
  let depth := i32 (structure_depth b + 1) in
  let! B := edit B bl (with_parent (Some graph)) in
  edit B graph (fun g =>
    let g := match block_list g with
             | [] => with_index min g
             | _ => if min <? block_index g then with_index min g else g
             end in
    let g := with_list (block_list g ++ [bl]) g in
    let g := with_leaf_count (i32 (leaf_count g + leaf_count b)) g in
    if depth >? structure_depth g then with_structure_depth depth g else g).

Definition new_member (B : Blocks) (graph : nat) (b : FlowBlock) : outcome (Blocks * nat) :=
  let! (B, ret) := alloc B b in
  let! B := block_add_block B graph ret in
  Ok (B, ret).

Definition block_new_block (B : Blocks) (graph : nat) : outcome (Blocks * nat) := new_member B graph (block_new K_Plain).
Definition block_new_block_basic (B : Blocks) (graph : nat) : outcome (Blocks * nat) := new_member B graph new_basic.

Definition block_set_start_block (B : Blocks) (graph bl : nat) : outcome Blocks :=
  let! g := get B graph in
  let! first := index (block_list g) 0 in
  let! f := get B first in
  let entry := negb (Z.land (flags f) F_ENTRY_POINT =? 0) in
  if entry && bool_decide (bl = first) then Ok B else
  let! B := if entry then edit B first (with_flags (fun fl => without fl F_ENTRY_POINT)) else Ok B in
  let! g := get B graph in
  let l := block_list g in
  let position := match list_find (eq bl) l with Some (i, _) => i | None => length l end in
  let! l := for_down (Nat.min position (length l - 1)) 1 (fun slot l =>
              let! x := index l (slot - 1) in store l slot x) l in
  let! l := store l 0 bl in
  let! B := edit B graph (with_list l) in
  edit B bl (with_flags (fun fl => Z.lor fl F_ENTRY_POINT)).

Definition block_get_start_block (B : Blocks) (graph : nat) : outcome nat :=
  let! g := get B graph in
  match block_list g with
  | [] => Err (Lowlevel "No start block registered")
  | first :: _ =>
      let! f := get B first in
      if Z.land (flags f) F_ENTRY_POINT =? 0 then Err (Lowlevel "No start block registered") else Ok first
  end.

(** *** Edges between blocks *)

Definition block_add_edge (B : Blocks) (begin end_ : nat) : outcome Blocks := block_add_in_edge B end_ begin 0.

Definition block_add_loop_edge (B : Blocks) (begin : nat) (outindex : Z) : outcome Blocks :=
  block_set_out_edge_flag B begin outindex F_LOOP_EDGE.

Definition block_remove_edge (B : Blocks) (begin end_ : nat) : outcome Blocks :=
  let! b := get B end_ in
  let slot := match list_find (fun e => point e = begin) (intothis b) with
              | Some (i, _) => i
              | None => length (intothis b)
              end in
  remove_edge_at Into B end_ (i32 (Z.of_nat slot)).

Definition switch_edge_step (input outbefore outafter : nat) (st : Blocks * nat) : outcome (Blocks * nat + Blocks) :=
  let '(B, slot) := st in
  let! b := get B input in
  if decide (slot < length (outofthis b))%nat then
    let! e := index (outofthis b) slot in
    let! B := if bool_decide (point e = outbefore) then replace_edge_at OutOf B input (i32 (Z.of_nat slot)) outafter
              else Ok B in
    Ok (inl (B, S slot))
  else Ok (inr B).

(** Redirecting keeps the number of edges out of [input]. *)
Definition block_switch_edge (B : Blocks) (input outbefore outafter : nat) : outcome Blocks :=
  let! b := get B input in
  loop (S (length (outofthis b))) (switch_edge_step input outbefore outafter) (B, 0%nat).

Definition block_move_out_edge (B : Blocks) (blold : nat) (slot : Z) (blnew : nat) : outcome Blocks :=
  let! b := get B blold in
  let! outbl := get_neighbour OutOf b slot in
  let! rev := get_rev_index OutOf b slot in
  replace_edge_at Into B outbl rev blnew.

(** *** Removing blocks *)

(** The recursion goes down the tree of blocks, which is no deeper than the
    arena is long. *)
Fixpoint destroy (fuel : nat) (B : Blocks) (bl : nat) : outcome Blocks :=
  match fuel with
  | O => Diverge
  | S fuel =>
      let! b := get B bl in
      let! B :=
        if is_graph b then
          let! B := edit B bl (with_list []) in
          foldl (fun r child => let! B := r in destroy fuel B child) (Ok B) (block_list b)
        else Ok B in
      let! (B, _) := arena_remove B bl in
      Ok B
  end.

Definition block_destroy (B : Blocks) (bl : nat) : outcome Blocks := destroy (S (length (slots B))) B bl.

(** [while self.blocks\[bl\].size_in() > 0 { ... }] and the same for the edges out. *)
Definition drop_edges_step (s : side) (bl : nat) (B : Blocks) : outcome (Blocks + Blocks) :=
  let! b := get B bl in
  if size_edges s b >? 0 then
    let! p := get_neighbour s b 0 in
    let! B := match s with Into => block_remove_edge B p bl | OutOf => block_remove_edge B bl p end in
    Ok (inl B)
  else Ok (inr B).

Definition drop_edges (s : side) (B : Blocks) (bl : nat) : outcome Blocks :=
  let! b := get B bl in loop (S (length (edges s b))) (drop_edges_step s bl) B.

Definition block_remove_block (B : Blocks) (graph bl : nat) : outcome Blocks :=
  let! B := drop_edges Into B bl in
  let! B := drop_edges OutOf B bl in
  let! B := edit B graph (fun g =>
    match list_find (eq bl) (block_list g) with
    | Some (position, _) => with_list (delete position (block_list g)) g
    | None => g
    end) in
  block_destroy B bl.

(** The inner loop of [block_remove_from_flow]: every edge into [bl] is sent on to
    [bbout].  When [bl] is its own last successor there is no end to it. *)
Definition forward_step (bl bbout : nat) (B : Blocks) : outcome (Blocks + Blocks) :=
  let! b := get B bl in
  if size_edges Into b >? 0 then
    let! bbin := get_neighbour Into b 0 in
    let! e := index (intothis b) 0 in
    let! B := replace_edge_at OutOf B bbin (reverse_index e) bbout in
    Ok (inl B)
  else Ok (inr B).

Definition flow_step (fuel : nat) (bl : nat) (B : Blocks) : outcome (Blocks + Blocks) :=
  let! b := get B bl in
  if size_edges OutOf b >? 0 then
    let lastslot := i32 (size_edges OutOf b - 1) in
    let! bbout := get_neighbour OutOf b lastslot in
    let! B := remove_edge_at OutOf B bl lastslot in
    let! B := loop fuel (forward_step bl bbout) B in
    Ok (inl B)
  else Ok (inr B).

(** Fuel for both loops: the edges into and out of the block. *)
Definition block_remove_from_flow (B : Blocks) (bl : nat) : outcome Blocks :=
  let! b := get B bl in
  loop (S (length (outofthis b))) (flow_step (S (length (intothis b))) bl) B.

Definition block_remove_from_flow_split (B : Blocks) (bl : nat) (flipflow : bool) : outcome Blocks :=
  let! B := if flipflow then block_replace_edges_thru B bl 0 1 else block_replace_edges_thru B bl 1 1 in
  block_replace_edges_thru B bl 0 0.

Definition block_splice_block (B : Blocks) (graph bl : nat) : outcome Blocks :=
  let! b := get B bl in
  let! outbl :=
    if size_edges OutOf b =? 1 then
      let! candidate := get_neighbour OutOf b 0 in
      let! c := get B candidate in
      Ok (if size_edges Into c =? 1 then Some candidate else None)
    else Ok None in
  match outbl with
  | None => Err (Lowlevel "Can only splice a block with 1 output to a block with 1 input")
  | Some outbl =>
      let fl1 := Z.land (flags b) (Z.lor F_UNSTRUCTURED_TARG F_ENTRY_POINT) in
      let! o := get B outbl in
      let fl2 := Z.land (flags o) F_SWITCH_OUT in
      let! B := remove_edge_at OutOf B bl 0 in
      let! o := get B outbl in
      let szout := size_edges OutOf o in
      let! B := for_up (Z.to_nat szout) 0 (fun _ B => block_move_out_edge B outbl 0 bl) B in
      let! B := block_remove_block B graph outbl in
      edit B bl (with_flags (fun _ => Z.lor fl1 fl2))
  end.

(** *** Searches *)

(** The successors of one block: those without a mark get one and join [res]. *)
Definition visit_step (blk : nat) (slot : nat) (st : Blocks * list nat) : outcome (Blocks * list nat) :=
  let '(B, res) := st in
  let! b := get B blk in
  let! blk2 := get_neighbour OutOf b (Z.of_nat slot) in
  let! b2 := get B blk2 in
  if is_mark b2 then Ok (B, res)
  else let! B := edit B blk2 set_mark in Ok (B, res ++ [blk2]).

Definition reach_step (st : Blocks * list nat * nat) : outcome (Blocks * list nat * nat + Blocks * list nat) :=
  let '(B, res, total) := st in
  if decide (total < length res)%nat then
    let! blk := index res total in
    let! b := get B blk in
    let! r := for_up (Z.to_nat (size_edges OutOf b)) 0 (visit_step blk) (B, res) in
    Ok (inl (r, S total))
  else Ok (inr (B, res)).

(** The clean-up loops: unmark what was found, or unmark and collect the rest. *)
Definition unmark_all (l : list nat) (B : Blocks) : outcome Blocks :=
  foldl (fun r blk => let! B := r in edit B blk clear_mark) (Ok B) l.

Definition collect_unmarked (l : list nat) (B : Blocks) : outcome (Blocks * list nat) :=
  foldl (fun r blk =>
    let! st := r in
    let '(B, res) := st : Blocks * list nat in
    let! b := get B blk in
    if is_mark b then let! B := edit B blk clear_mark in Ok (B, res) else Ok (B, res ++ [blk])) (Ok (B, [])) l.

(** A block joins [res] once, so the arena bounds the rounds. *)
Definition block_collect_reachable (B : Blocks) (graph : nat) (res : list nat) (bl : nat) (un : bool)
    : outcome (Blocks * list nat) :=
  let! B := edit B bl set_mark in
  let! (B, res) := loop (S (length res + length (slots B))) reach_step (B, res ++ [bl], 0%nat) in
  if un then
    let! g := get B graph in
    collect_unmarked (block_list g) B
  else let! B := unmark_all res B in Ok (B, res).

(** ** Edges between blocks *)

Lemma view_edge B s p k x : (exists l, view B s p = Some l /\ l !! k = Some x) <-> exists e, edge_at B s p k e /\ ends e = x.
Proof.
  unfold view, edge_at. split.
  - intros (l & Hl & Hx). destruct (try_get B p) as [b|]; [|done]. injection Hl as <-. rewrite list_lookup_fmap in Hx.
    destruct (edges s b !! k) as [e|] eqn:E; [|done]. injection Hx as <-. eauto.
  - intros (e & (b & Hb & He) & <-). rewrite Hb. eexists. split; [done|]. by rewrite list_lookup_fmap, He.
Qed.

(** An edge between two blocks, found from the end of it. *)
Lemma block_remove_edge_ok B begin end_ k e : edges_ok B -> edge_at B Into end_ k e -> point e = begin ->
  exists B' n j x y, block_remove_edge B begin end_ = Ok B' /\ edges_ok B' /\ same_rest B B' /\
    edge_at B Into end_ n x /\ point x = begin /\ edge_at B OutOf begin j y /\ point y = end_ /\
    forall s p, view B' s p = on_list OutOf begin (delete j) (on_list Into end_ (delete n) (view B)) s p.
Proof.
  intros Hok He Hp. destruct He as (b & Hb & He). unfold block_remove_edge. rewrite get_try, Hb. cbn [obind].
  destruct (list_find (fun e => point e = begin) (intothis b)) as [[n x]|] eqn:Hf.
  2:{ apply list_find_None in Hf. rewrite Forall_lookup in Hf. by destruct (Hf k e He). }
  apply list_find_Some in Hf as (Hx & Hpx & _). assert (Hxat : edge_at B Into end_ n x) by (by exists b).
  pose proof (edge_at_small _ _ _ _ _ (proj1 Hok) Hxat). rewrite i32_small by lia.
  destruct (remove_edge_ok B Into end_ n x Hok Hxat) as (B' & j & E & Hok' & Hsame & Hj & Hv).
  destruct (proj2 Hok _ _ _ _ Hxat) as (j' & y & Hj' & Hy & Hpy & _). assert (j' = j) as -> by lia. rewrite Hpx in Hy, Hv.
  by exists B', n, j, x, y.
Qed.

(** ** Removing blocks *)

Definition avoids (bl : nat) (l : list (Z * nat)) : list (Z * nat) := filter (fun x => x.2 <> bl) l.

Lemma filter_delete {A} (P : A -> Prop) `{!forall x, Decision (P x)} (l : list A) j x :
  l !! j = Some x -> ~ P x -> filter P (delete j l) = filter P l.
Proof.
  intros Hj Hx. rewrite delete_take_drop. rewrite <- (take_drop_middle l j x Hj) at 3.
  rewrite !filter_app, filter_cons_False by done. done.
Qed.

Lemma filter_all {A} (P : A -> Prop) `{!forall x, Decision (P x)} (l : list A) :
  (forall x, x ∈ l -> P x) -> filter P l = l.
Proof.
  induction l as [|x l IH]; intros Hl; [done|]. rewrite filter_cons_True by (apply Hl; by left). f_equal. apply IH.
  intros y Hy. apply Hl. by right.
Qed.

Lemma view_live B s p : is_Some (view B s p) <-> is_Some (try_get B p).
Proof. unfold view. apply fmap_is_Some. Qed.

(** No edge is left that would need a twin in an empty list. *)
Lemma avoids_none B s bl p l : edges_ok B -> view B s bl = Some [] -> view B (other s) p = Some l -> avoids bl l = l.
Proof.
  intros [_ Hok] H0 Hl. unfold avoids. apply filter_all. intros x [k Hx]%list_elem_of_lookup Hp.
  destruct (proj1 (view_edge B (other s) p k x)) as (e & He & <-); [by exists l|]. cbn in Hp.
  destruct (Hok _ _ _ _ He) as (j & e' & _ & He' & _). rewrite other_other, Hp in He'.
  destruct (proj2 (view_edge B s bl j (ends e'))) as (l' & Hl' & Hx'); [by exists e'|]. simplify_eq.
Qed.

Definition count (s : side) (bl : nat) (B : Blocks) : nat :=
  match view B s bl with Some l => length l | None => 0%nat end.

Lemma count_edges s bl B b : try_get B bl = Some b -> count s bl B = length (edges s b).
Proof. intros Hb. unfold count, view. rewrite Hb. cbn. by rewrite length_fmap. Qed.

(** One edge of [bl] goes; the lists on the other side lose an edge to [bl]. *)
Lemma drop_edges_step_ok s bl B b : edges_ok B -> try_get B bl = Some b -> (0 < length (edges s b))%nat ->
  exists B', drop_edges_step s bl B = Ok (inl B') /\ edges_ok B' /\ same_rest B B' /\ (count s bl B' < count s bl B)%nat /\
    (forall p, p <> bl -> view B' s p = view B s p) /\
    (forall p, avoids bl <$> view B' (other s) p = avoids bl <$> view B (other s) p).
Proof.
  intros Hok Hb Hlen. unfold drop_edges_step. rewrite get_try, Hb. cbn [obind]. unfold size_edges.
  pose proof (proj1 Hok bl b s Hb). rewrite i32_small by lia. destruct (Z.gtb_spec (Z.of_nat (length (edges s b))) 0); [|lia].
  destruct (lookup_lt_is_Some_2 (edges s b) 0 Hlen) as [e0 He0]. unfold get_neighbour. change (Z.to_nat (u64 0)) with 0%nat.
  rewrite (index_ok _ _ _ He0). cbn [obind]. assert (Hat : edge_at B s bl 0 e0) by (by exists b).
  assert (Hgoal : forall B' n j x y, edges_ok B' -> same_rest B B' -> edge_at B s bl n x -> edge_at B (other s) (point e0) j y ->
    point y = bl -> (forall s' p, view B' s' p = on_list (other s) (point e0) (delete j) (on_list s bl (delete n) (view B)) s' p) ->
    (count s bl B' < count s bl B)%nat /\ (forall p, p <> bl -> view B' s p = view B s p) /\
    (forall p, avoids bl <$> view B' (other s) p = avoids bl <$> view B (other s) p)).
  { intros B' n j x y Hok' Hsame Hx Hy Hpy Hv. pose proof (other_ne s). split; [|split].
    - unfold count. rewrite Hv. unfold on_list. rewrite decide_False, decide_True by naive_solver.
      unfold view. rewrite Hb. cbn. destruct Hx as (b' & Hb' & Hx). simplify_eq.
      rewrite length_delete by (rewrite list_lookup_fmap, Hx; by eexists). rewrite length_fmap. lia.
    - intros p Hp. rewrite Hv. unfold on_list. by rewrite !decide_False by naive_solver.
    - intros p. rewrite Hv. unfold on_list. rewrite (decide_False (P := other s = s /\ _)) by naive_solver.
      destruct (decide _) as [[_ ->]|]; [|done]. destruct Hy as (c & Hc & Hy). unfold view. rewrite Hc. cbn. f_equal.
      unfold avoids. eapply filter_delete; [by rewrite list_lookup_fmap, Hy|]. cbn. naive_solver. }
  destruct s.
  - destruct (block_remove_edge_ok B (point e0) bl 0 e0 Hok Hat eq_refl) as (B' & n & j & x & y & -> & Hok' & Hs & Hx & Hpx & Hy & Hpy & Hv).
    exists B'. cbn [obind]. destruct (Hgoal B' n j x y) as (? & ? & ?); try done.
  - destruct (proj2 Hok _ _ _ _ Hat) as (j0 & y0 & _ & Hy0 & Hpy0 & _).
    destruct (block_remove_edge_ok B bl (point e0) j0 y0 Hok Hy0 Hpy0) as (B' & n & j & x & y & -> & Hok' & Hs & Hx & Hpx & Hy & Hpy & Hv).
    exists B'. cbn [obind]. destruct (Hgoal B' j n y x) as (? & ? & ?); try done.
    intros s' p. rewrite Hv. by apply on_list_comm.
Qed.

Lemma drop_edges_ok s bl B b : edges_ok B -> try_get B bl = Some b ->
  exists B', drop_edges s B bl = Ok B' /\ edges_ok B' /\ same_rest B B' /\ view B' s bl = Some [] /\
    (forall p, p <> bl -> view B' s p = view B s p) /\
    (forall p, view B' (other s) p = avoids bl <$> view B (other s) p).
Proof.
  intros Hok Hb. unfold drop_edges. rewrite get_try, Hb. cbn [obind].
  set (I := fun B1 => edges_ok B1 /\ same_rest B B1 /\ (forall p, p <> bl -> view B1 s p = view B s p) /\
    (forall p, avoids bl <$> view B1 (other s) p = avoids bl <$> view B (other s) p)).
  destruct (loop_inv I (fun B1 => I B1 /\ view B1 s bl = Some []) (count s bl) (drop_edges_step s bl)
    (S (length (edges s b))) B) as (B' & -> & (Hok' & Hs & Hv1 & Hv2) & Hnil).
  - repeat split; try apply Hok; done.
  - rewrite (count_edges _ _ _ _ Hb). lia.
  - intros B1 (Hok1 & Hs1 & Hv1 & Hv2). destruct (proj2 (same_rest_live B B1 bl Hs1)) as [b1 Hb1]; [by eexists|].
    destruct (decide (0 < length (edges s b1))%nat) as [Hlen|Hlen].
    + left. destruct (drop_edges_step_ok s bl B1 b1 Hok1 Hb1 Hlen) as (B2 & E & Hok2 & Hs2 & Hc & Hw1 & Hw2).
      exists B2. split; [done|]. split; [|done]. split; [done|]. split; [by transitivity B1|]. split.
      * intros p Hp. rewrite Hw1 by done. by apply Hv1.
      * intros p. by rewrite Hw2.
    + right. exists B1. assert (Hn : edges s b1 = []) by (destruct (edges s b1); [done|cbn in Hlen; lia]).
      unfold drop_edges_step. rewrite get_try, Hb1. cbn [obind]. unfold size_edges. rewrite Hn. cbn.
      split; [done|]. split; [done|]. unfold view. rewrite Hb1. cbn. by rewrite Hn.
  - exists B'. split_and!; try done. intros p. rewrite <- Hv2. destruct (view B' (other s) p) as [l|] eqn:E; [|done].
    cbn. f_equal. symmetry. by eapply avoids_none.
Qed.

(** A block without its edges. *)
Definition rest (b : FlowBlock) : FlowBlock := with_edges (fun _ _ => []) b.

Lemma same_rest_rest B B' p : same_rest B B' -> rest <$> try_get B' p = rest <$> try_get B p.
Proof. intros [f ->]. rewrite try_get_edges. by destruct (try_get B p). Qed.

Lemma arena_remove_ok (B : Blocks) bl b : try_get B bl = Some b ->
  exists B', arena_remove B bl = Ok (B', b) /\ forall p, try_get B' p = if decide (p = bl) then None else try_get B p.
Proof.
  unfold arena_remove, try_get. destruct (slots B !! bl) as [[x|]|] eqn:E; [|done..]. intros [= ->]. eexists. split; [done|].
  intros p. cbn. destruct (decide (p = bl)) as [->|Hp].
  - rewrite list_lookup_insert_eq; [done|by eapply lookup_lt_Some].
  - by rewrite list_lookup_insert_ne.
Qed.

Lemma edges_ok_remove B B' bl : edges_ok B -> (forall s, view B s bl = Some []) ->
  (forall p, try_get B' p = if decide (p = bl) then None else try_get B p) -> edges_ok B'.
Proof.
  intros [Hsm Hok] Hnil Hget. split.
  - intros p b s Hb. rewrite Hget in Hb. destruct (decide _); [done|]. by apply (Hsm p).
  - intros s p k e (b & Hb & He). rewrite Hget in Hb. destruct (decide (p = bl)) as [|Hp]; [done|].
    destruct (Hok s p k e) as (j & e' & Hj & He' & H1 & H2); [by exists b|]. exists j, e'. split; [done|]. split; [|done].
    destruct (decide (point e = bl)) as [Hpe|Hpe].
    + rewrite Hpe in He'. destruct (proj2 (view_edge B (other s) bl j (ends e'))) as (l & Hl & Hx); [by exists e'|].
      rewrite Hnil in Hl. by simplify_eq.
    + destruct He' as (c & Hc & He'). exists c. rewrite Hget, decide_False by done. done.
Qed.

(** Without its mention of [bl], if it has one. *)
Definition remove_first (bl : nat) (l : list nat) : list nat :=
  match list_find (eq bl) l with Some (position, _) => delete position l | None => l end.

Lemma remove_block_ok B graph bl b g : edges_ok B -> try_get B bl = Some b -> is_graph b = false ->
  try_get B graph = Some g -> graph <> bl ->
  exists B', block_remove_block B graph bl = Ok B' /\ edges_ok B' /\
    (forall s p, view B' s p = if decide (p = bl) then None else avoids bl <$> view B s p) /\
    (forall p, rest <$> try_get B' p = if decide (p = bl) then None
       else if decide (p = graph) then Some (with_list (remove_first bl (block_list g)) (rest g)) else rest <$> try_get B p).
Proof.
  intros Hok Hb Hleaf Hg Hne. unfold block_remove_block.
  destruct (drop_edges_ok Into bl B b Hok Hb) as (B1 & -> & Hok1 & Hs1 & Hn1 & Hv1 & Hw1). cbn [obind other] in *.
  destruct (proj2 (same_rest_live B B1 bl Hs1)) as [b1 Hb1]; [by eexists|].
  destruct (drop_edges_ok OutOf bl B1 b1 Hok1 Hb1) as (B2 & -> & Hok2 & Hs2 & Hn2 & Hv2 & Hw2). cbn [obind other] in *.
  assert (Hs02 : same_rest B B2) by (by transitivity B1).
  destruct (proj2 (same_rest_live B B2 bl Hs02)) as [b2 Hb2]; [by eexists|].
  destruct (proj2 (same_rest_live B B2 graph Hs02)) as [g2 Hg2]; [by eexists|].
  rewrite (edit_eq _ _ _ _ Hg2). cbn [obind].
  set (F := fun p x => if decide (p = graph) then _ else x). set (B3 := map_blocks F B2).
  assert (HF : forall p c s, edges s (F p c) = edges s c).
  { intros p c s. unfold F. destruct (decide _); [|done]. destruct (list_find _ _) as [[]|]; by destruct s. }
  assert (Hb3 : try_get B3 bl = Some b2).
  { unfold B3. rewrite try_get_map, Hb2. cbn. unfold F. by rewrite decide_False. }
  unfold block_destroy. cbn [destroy]. rewrite get_try, Hb3. cbn [obind].
  assert (Hk : is_graph b2 = false).
  { pose proof (same_rest_rest B B2 bl Hs02) as E. rewrite Hb, Hb2 in E. unfold rest, with_edges in E. unfold is_graph in *.
    by injection E as ? ? ? ? ? ? ? ? ? ? ->. }
  rewrite Hk. cbn [obind]. destruct (arena_remove_ok B3 bl b2 Hb3) as (B4 & -> & Hget). exists B4. cbn [obind].
  split; [done|]. split; [|split].
  - apply (edges_ok_remove B3 B4 bl); [by apply edges_ok_blocks| |done]. intros s. unfold B3. rewrite view_blocks by done.
    destruct s; [|done]. by rewrite Hw2, Hn1.
  - intros s p. unfold view at 1. rewrite Hget. destruct (decide (p = bl)) as [|Hp]; [done|].
    fold (view B3 s p). unfold B3. rewrite view_blocks by done. destruct s.
    + by rewrite Hw2, Hv1.
    + by rewrite Hv2, Hw1.
  - intros p. rewrite Hget. destruct (decide (p = bl)); [done|]. unfold B3. rewrite try_get_map.
    pose proof (same_rest_rest B B2 p Hs02) as E. destruct (decide (p = graph)) as [->|Hp].
    + rewrite Hg, Hg2 in *. cbn in *. unfold F. rewrite decide_True by done. unfold remove_first, rest, with_edges in *.
      injection E as E1 E2 E3 E4 E5 E6 E7 E8 E9 E10 E11. rewrite <- E1, <- E2, <- E3, <- E4, <- E5, <- E6, <- E7, <- E8, <- E9, <- E10, <- E11.
      by destruct (list_find _ _) as [[]|].
    + rewrite <- E. destruct (try_get B2 p); [|done]. cbn. unfold F. by rewrite decide_False.
Qed.

(** ** Taking a block out of the flow *)

Definition redirect (bl bbout : nat) (x : Z * nat) : Z * nat := if decide (x.2 = bl) then (x.1, bbout) else x.
Definition redirect_all (bl bbout : nat) (l : list (Z * nat)) : list (Z * nat) := redirect bl bbout <$> l.

Definition points (B : Blocks) (s : side) (p : nat) : option (list nat) := (fun l => l.*2) <$> view B s p.

Lemma same_size B s p b : small B -> try_get B p = Some b -> size_edges s b = Z.of_nat (length (edges s b)).
Proof. intros Hs Hb. unfold size_edges. specialize (Hs p b s Hb). by rewrite i32_small by lia. Qed.

Lemma view_get B s p b : try_get B p = Some b -> view B s p = Some (ends <$> edges s b).
Proof. intros Hb. unfold view. by rewrite Hb. Qed.

(** The edges of [bl] on side [s] move, first to last, to the end of those of
    [bbout]; the blocks at their other ends are told. *)
Definition forwarding (s : side) (bl bbout : nat) (B B1 : Blocks) : Prop :=
  edges_ok B1 /\ same_rest B B1 /\
  (forall p, redirect_all bl bbout <$> view B1 (other s) p = redirect_all bl bbout <$> view B (other s) p) /\
  (forall p, p <> bl -> p <> bbout -> view B1 s p = view B s p) /\
  exists l m l0 m0, points B1 s bbout = Some l /\ points B1 s bl = Some m /\
    points B s bbout = Some l0 /\ points B s bl = Some m0 /\ l ++ m = l0 ++ m0.

Lemma forwarding_refl s bl bbout B b c : edges_ok B -> try_get B bl = Some b -> try_get B bbout = Some c ->
  forwarding s bl bbout B B.
Proof.
  intros Hok Hb Hc. split; [done|]. split; [reflexivity|]. split; [done|]. split; [done|]. unfold points.
  rewrite (view_get _ _ _ _ Hb), (view_get _ _ _ _ Hc). eexists _, _, _, _. done.
Qed.

(** Redirecting the first edge of [bl]. *)
Lemma forward_one s bl bbout B B1 b c b1 e rest_ : forwarding s bl bbout B B1 -> bl <> bbout ->
  try_get B bl = Some b -> try_get B bbout = Some c -> Z.of_nat (length (edges s b) + length (edges s c)) < 2 ^ 31 ->
  try_get B1 bl = Some b1 -> edges s b1 = e :: rest_ ->
  exists B2, replace_edge_at (other s) B1 (point e) (reverse_index e) bbout = Ok B2 /\ forwarding s bl bbout B B2 /\
    view B2 s bl = Some (ends <$> rest_).
Proof.
  intros (Hok & Hs & Ho & Hi & l & m & l0 & m0 & El & Em & El0 & Em0 & Elm) Hne Hb Hc Hroom Hb1 Eb.
  destruct (proj2 (same_rest_live B B1 bbout Hs)) as [c1 Hc1]; [by eexists|].
  assert (Hat : edge_at B1 s bl 0 e) by (exists b1; by rewrite Eb).
  destruct (proj2 Hok _ _ _ _ Hat) as (j & y & Hj & Hy & Hpy & Hry).
  unfold points in *. rewrite (view_get _ _ _ _ Hc1) in El. rewrite (view_get _ _ _ _ Hb1) in Em. rewrite (view_get _ _ _ _ Hc) in El0.
  rewrite (view_get _ _ _ _ Hb) in Em0. cbn [fmap option_fmap option_map] in El, Em, El0, Em0. rewrite Eb in Em.
  injection El as <-. injection Em as <-. injection El0 as <-. injection Em0 as <-.
  assert (Hlens : (length (edges s c1) + S (length rest_) = length (edges s c) + length (edges s b))%nat).
  { apply (f_equal length) in Elm. rewrite !length_app in Elm. cbn in Elm. rewrite !length_fmap in Elm. lia. }
  assert (Hroom1 : room B1 (other (other s)) bbout) by (rewrite other_other; exists c1; split; [done|lia]).
  destruct (replace_edge_ok B1 (other s) (point e) j y bbout Hok Hy Hroom1) as (B2 & n & E & Hok2 & Hs2 & Hn & Hv).
  assert (n = 0%nat) as -> by lia. rewrite other_other in Hv. rewrite Hpy in Hv. pose proof (other_ne s) as Hos.
  assert (Hvb : view B2 s bl = Some (ends <$> rest_)).
  { rewrite Hv, on_list_point, on_list_side, on_list_here, (view_get _ _ _ _ Hb1) by done. cbn. by rewrite Eb. }
  assert (Hvc : view B2 s bbout = Some ((ends <$> edges s c1) ++ [(label y, point e)])).
  { by rewrite Hv, on_list_here, on_list_side, on_list_point, (view_get _ _ _ _ Hc1) by done. }
  exists B2. rewrite Hj. split; [done|]. split; [|done].
  split; [done|]. split; [by transitivity B1|]. split; [|split].
  - intros p. rewrite <- Ho, Hv, on_list_side by done. destruct (decide (p = point e)) as [->|Hp].
    + rewrite on_list_here, on_list_side by done. destruct Hy as (d & Hd & Hy). rewrite (view_get _ _ _ _ Hd). cbn. f_equal.
      unfold redirect_all. rewrite list_fmap_insert. apply list_insert_id. rewrite !list_lookup_fmap, Hy. cbn. f_equal.
      unfold redirect, ends. cbn. by rewrite Hpy, decide_True, decide_False by done.
    + by rewrite on_list_point, on_list_side by done.
  - intros p Hp1 Hp2. rewrite <- Hi by done. by rewrite Hv, on_list_point, on_list_side, on_list_point by done.
  - unfold points. rewrite Hvb, Hvc, (view_get _ _ _ _ Hb), (view_get _ _ _ _ Hc). cbn. eexists _, _, _, _. do 4 (split; [done|]).
    rewrite <- Elm. rewrite fmap_app, <- app_assoc. done.
Qed.

Lemma forward_step_ok bl bbout B B1 b c : forwarding Into bl bbout B B1 -> bl <> bbout ->
  try_get B bl = Some b -> try_get B bbout = Some c -> Z.of_nat (length (intothis b) + length (intothis c)) < 2 ^ 31 ->
  (0 < count Into bl B1)%nat ->
  exists B2, forward_step bl bbout B1 = Ok (inl B2) /\ forwarding Into bl bbout B B2 /\ (count Into bl B2 < count Into bl B1)%nat.
Proof.
  intros Hf Hne Hb Hc Hroom Hcnt. pose proof Hf as (Hok & Hs & _).
  destruct (proj2 (same_rest_live B B1 bl Hs)) as [b1 Hb1]; [by eexists|].
  rewrite (count_edges _ _ _ _ Hb1) in *. cbn [edges] in *.
  destruct (intothis b1) as [|e ins] eqn:Eb; [cbn in Hcnt; lia|].
  destruct (forward_one Into bl bbout B B1 b c b1 e ins Hf Hne Hb Hc Hroom Hb1 Eb) as (B2 & E & Hf2 & Hvb).
  exists B2. split; [|split; [done|]].
  - unfold forward_step. rewrite get_try, Hb1. cbn [obind]. rewrite (same_size B1 Into bl b1) by (done || apply Hok). cbn [edges].
    rewrite Eb. change (Z.of_nat (length (e :: ins)) >? 0) with true. cbn iota. unfold get_neighbour. cbn [edges]. rewrite Eb.
    change (index (e :: ins) (Z.to_nat (u64 0))) with (Ok e). cbn [obind]. change (index (e :: ins) 0) with (Ok e). cbn [obind].
    cbn [other] in E. by rewrite E.
  - unfold count. rewrite Hvb. cbn. rewrite length_fmap. lia.
Qed.

Lemma forward_ok bl bbout B b c : edges_ok B -> bl <> bbout -> try_get B bl = Some b -> try_get B bbout = Some c ->
  Z.of_nat (length (intothis b) + length (intothis c)) < 2 ^ 31 -> forall fuel, (length (intothis b) < fuel)%nat ->
  exists B', loop fuel (forward_step bl bbout) B = Ok B' /\ forwarding Into bl bbout B B' /\ view B' Into bl = Some [].
Proof.
  intros Hok Hne Hb Hc Hroom fuel Hfuel.
  apply (loop_inv (forwarding Into bl bbout B) (fun B' => forwarding Into bl bbout B B' /\ view B' Into bl = Some []) (count Into bl)).
  - by eapply forwarding_refl.
  - by rewrite (count_edges _ _ _ _ Hb).
  - intros B1 HI. destruct (decide (0 < count Into bl B1)%nat) as [Hcnt|Hcnt].
    + left. destruct (forward_step_ok bl bbout B B1 b c HI Hne Hb Hc Hroom Hcnt) as (B2 & ? & ? & ?). eauto.
    + right. exists B1. pose proof HI as (Hok1 & Hs & _). destruct (proj2 (same_rest_live B B1 bl Hs)) as [b1 Hb1]; [by eexists|].
      rewrite (count_edges _ _ _ _ Hb1) in Hcnt. assert (Hn : intothis b1 = []) by (cbn in Hcnt; destruct (intothis b1); [done|cbn in Hcnt; lia]).
      unfold forward_step. rewrite get_try, Hb1. cbn [obind]. unfold size_edges. cbn [edges]. rewrite Hn. cbn.
      split; [done|]. split; [done|]. rewrite (view_get _ _ _ _ Hb1). cbn. by rewrite Hn.
Qed.

(** One round that takes the last edge out of [bl], before the forwarding. *)
Lemma last_edge_out B bl b outs e : edges_ok B -> try_get B bl = Some b -> outofthis b = outs ++ [e] -> forall fuel,
  exists B1 j y, edges_ok B1 /\ same_rest B B1 /\ edge_at B Into (point e) j y /\ point y = bl /\
    (forall s p, view B1 s p = on_list Into (point e) (delete j) (on_list OutOf bl (delete (length outs)) (view B)) s p) /\
    flow_step fuel bl B = let! B2 := loop fuel (forward_step bl (point e)) B1 in Ok (inl B2).
Proof.
  intros Hok Hb Hl fuel. assert (Hat : edge_at B OutOf bl (length outs) e).
  { exists b. cbn. by rewrite Hl, lookup_app_r, Nat.sub_diag by lia. }
  destruct (proj2 Hok _ _ _ _ Hat) as (j & y & Hj & Hy & Hpy & _).
  destruct (remove_edge_ok B OutOf bl (length outs) e Hok Hat) as (B1 & j' & E & Hok1 & Hs1 & Hj' & Hv).
  assert (j' = j) as -> by lia. pose proof (edge_at_small _ _ _ _ _ (proj1 Hok) Hat).
  exists B1, j, y. split_and!; try done. unfold flow_step. rewrite get_try, Hb. cbn [obind].
  rewrite (same_size B OutOf bl b) by (done || apply Hok). cbn [edges]. rewrite Hl, length_app. cbn [length].
  destruct (Z.gtb_spec (Z.of_nat (length outs + 1)) 0); [|lia].
  replace (Z.of_nat (length outs + 1) - 1) with (Z.of_nat (length outs)) by lia. rewrite i32_small by lia.
  unfold get_neighbour. cbn [edges]. rewrite Hl, u64_nat, Nat2Z.id by lia.
  rewrite (index_ok _ _ e) by (by rewrite lookup_app_r, Nat.sub_diag by lia). cbn [obind]. by rewrite E.
Qed.

Lemma delete_last {A} (l : list A) x : delete (length l) (l ++ [x]) = l.
Proof. rewrite delete_take_drop, take_app_length, drop_ge, app_nil_r by (rewrite length_app; cbn; lia). done. Qed.

Lemma forward_nothing bl bbout B fuel : view B Into bl = Some [] -> loop (S fuel) (forward_step bl bbout) B = Ok B.
Proof.
  intros Hn. unfold view in Hn. destruct (try_get B bl) as [b|] eqn:Hb; [|done]. injection Hn as Hn. apply fmap_nil_inv in Hn.
  cbn [loop]. unfold forward_step. rewrite get_try, Hb. cbn [obind]. unfold size_edges. cbn [edges]. by rewrite Hn.
Qed.

(** Without edges into [bl], the rounds drop its edges out one by one. *)
Lemma drain_ok bl B fuel f0 : edges_ok B -> view B Into bl = Some [] -> (count OutOf bl B < fuel)%nat ->
  exists B', loop fuel (flow_step (S f0) bl) B = Ok B' /\ edges_ok B' /\ same_rest B B' /\ view B' OutOf bl = Some [] /\
    (forall p, p <> bl -> view B' OutOf p = view B OutOf p) /\ (forall p, view B' Into p = avoids bl <$> view B Into p).
Proof.
  intros Hok Hin Hfuel.
  set (I := fun B1 => edges_ok B1 /\ same_rest B B1 /\ view B1 Into bl = Some [] /\ (forall p, p <> bl -> view B1 OutOf p = view B OutOf p) /\
    (forall p, avoids bl <$> view B1 Into p = avoids bl <$> view B Into p)).
  destruct (loop_inv I (fun B1 => I B1 /\ view B1 OutOf bl = Some []) (count OutOf bl) (flow_step (S f0) bl) fuel B)
    as (B' & E & (Hok' & Hs' & Hin' & Hv1 & Hv2) & Hnil); [unfold I; by split_and!|done|..].
  - intros B1 (Hok1 & Hs1 & Hin1 & Hv1 & Hv2). pose proof Hin1 as Hb1. unfold view in Hb1.
    destruct (try_get B1 bl) as [b1|] eqn:Eb; [|done]. clear Hb1. destruct (outofthis b1) as [|e outs _] eqn:El using rev_ind.
    + right. exists B1. unfold flow_step. rewrite get_try, Eb. cbn [obind]. unfold size_edges. cbn [edges]. rewrite El. cbn.
      split; [done|]. split; [done|]. rewrite (view_get _ _ _ _ Eb). cbn. by rewrite El.
    + left. destruct (last_edge_out B1 bl b1 outs e Hok1 Eb El (S f0)) as (B2 & j & y & Hok2 & Hs2 & Hy & Hpy & Hv & ->).
      assert (Hin2 : view B2 Into bl = Some []).
      { rewrite Hv. unfold on_list. rewrite (decide_False (P := Into = OutOf /\ bl = bl)) by naive_solver.
        destruct (decide _) as [[_ ->]|]; [|done]. by rewrite Hin1. }
      rewrite forward_nothing by done. exists B2. cbn [obind]. split; [done|]. split; [|].
      * split; [done|]. split; [by transitivity B1|]. split; [done|]. split.
        -- intros p Hp. rewrite Hv. unfold on_list. rewrite !decide_False by naive_solver. by apply Hv1.
        -- intros p. rewrite <- Hv2, Hv. unfold on_list. rewrite (decide_False (P := Into = OutOf /\ p = bl)) by naive_solver.
           destruct (decide _) as [[_ ->]|]; [|done]. destruct Hy as (c & Hc & Hy). cbn [edges] in Hy. rewrite (view_get _ _ _ _ Hc). cbn. f_equal.
           unfold avoids. eapply filter_delete; [by rewrite list_lookup_fmap, Hy|]. cbn. naive_solver.
      * rewrite (count_edges _ _ _ _ Eb). unfold count. rewrite Hv. unfold on_list. rewrite decide_False, decide_True by naive_solver.
        rewrite (view_get _ _ _ _ Eb). cbn [fmap option_fmap option_map edges]. rewrite El.
        rewrite length_delete, length_fmap, length_app by (rewrite list_lookup_fmap, lookup_app_r, Nat.sub_diag by lia; by eexists).
        cbn. lia.
  - exists B'. split_and!; try done. intros p. rewrite <- Hv2. destruct (view B' Into p) as [l|] eqn:El; [|done]. cbn. f_equal. symmetry.
    by apply (avoids_none B' OutOf bl p).
Qed.

Lemma avoids_points bl l : (avoids bl l).*2 = filter (fun p => p <> bl) l.*2.
Proof.
  unfold avoids. induction l as [|x l IH]; [done|]. cbn [fmap list_fmap]. rewrite !filter_cons.
  destruct (decide (x.2 <> bl)); cbn; by rewrite IH.
Qed.

Lemma redirect_none B bl bbout p l : edges_ok B -> view B Into bl = Some [] -> view B OutOf p = Some l -> redirect_all bl bbout l = l.
Proof.
  intros Hok H0 Hl. pose proof (avoids_none B Into bl p l Hok H0 Hl) as Ha. unfold redirect_all.
  rewrite <- (list_fmap_id l) at 2. apply list_fmap_ext. intros k x Hx. unfold redirect. rewrite decide_False; [done|].
  assert (Hin : x ∈ avoids bl l) by (rewrite Ha; by eapply list_elem_of_lookup_2). by apply list_elem_of_filter in Hin as [? _].
Qed.

(** A block that is not its own successor. *)
Definition no_self_edge (B : Blocks) (bl : nat) : Prop := forall k e, edge_at B OutOf bl k e -> point e <> bl.

Lemma no_self_edge_in B bl m : edges_ok B -> no_self_edge B bl -> points B Into bl = Some m -> filter (fun p => p <> bl) m = m.
Proof.
  intros [_ Hok] Hself Hm. apply filter_all. intros p [k Hp]%list_elem_of_lookup ->. unfold points in Hm.
  destruct (view B Into bl) as [l|] eqn:El; [|done]. injection Hm as <-. rewrite list_lookup_fmap in Hp.
  destruct (l !! k) as [x|] eqn:Ex; [|done]. injection Hp as Hp.
  destruct (proj1 (view_edge B Into bl k x)) as (e & He & <-); [by exists l|]. cbn in Hp.
  destruct (Hok _ _ _ _ He) as (j & e' & _ & He' & Hp' & _). rewrite Hp in He'. by apply (Hself j e').
Qed.

(** Taking a block without an edge to itself out of the flow sends every edge
    that came into it on to its last successor, drops its own edges, and keeps
    all other edges in their order. *)
Theorem remove_from_flow_correct B bl b outs e c : edges_ok B -> try_get B bl = Some b -> outofthis b = outs ++ [e] ->
  no_self_edge B bl -> try_get B (point e) = Some c -> Z.of_nat (length (intothis b) + length (intothis c)) < 2 ^ 31 ->
  exists B' l m, block_remove_from_flow B bl = Ok B' /\ edges_ok B' /\ same_rest B B' /\
    (forall s, view B' s bl = Some []) /\
    (forall p, p <> bl -> view B' OutOf p = redirect_all bl (point e) <$> view B OutOf p) /\
    (forall p, p <> bl -> p <> point e -> view B' Into p = avoids bl <$> view B Into p) /\
    points B Into (point e) = Some l /\ points B Into bl = Some m /\
    points B' Into (point e) = Some (filter (fun p => p <> bl) l ++ m).
Proof.
  intros Hok Hb Hl Hself Hc Hroom. assert (Hat : edge_at B OutOf bl (length outs) e).
  { exists b. cbn. by rewrite Hl, lookup_app_r, Nat.sub_diag by lia. }
  pose proof (Hself _ _ Hat) as Hne.
  unfold block_remove_from_flow. rewrite get_try, Hb. cbn [obind]. rewrite Hl, length_app. cbn [length]. cbn [loop].
  destruct (last_edge_out B bl b outs e Hok Hb Hl (S (length (intothis b)))) as (B1 & j & y & Hok1 & Hs1 & Hy & Hpy & Hv & ->).
  assert (Hv1 : view B1 Into bl = view B Into bl) by (rewrite Hv, on_list_point, on_list_side by done; done).
  assert (Hv2 : view B1 Into (point e) = delete j <$> view B Into (point e)) by (rewrite Hv, on_list_here, on_list_side by done; done).
  assert (Hv3 : view B1 OutOf bl = delete (length outs) <$> view B OutOf bl) by (rewrite Hv, on_list_side, on_list_here by done; done).
  destruct (proj2 (same_rest_live B B1 bl Hs1)) as [b1 Hb1]; [by eexists|].
  destruct (proj2 (same_rest_live B B1 (point e) Hs1)) as [c1 Hc1]; [by eexists|].
  rewrite (view_get _ _ _ _ Hb1), (view_get _ _ _ _ Hb) in Hv1. rewrite (view_get _ _ _ _ Hc1), (view_get _ _ _ _ Hc) in Hv2.
  cbn [edges fmap option_fmap option_map] in Hv1, Hv2. injection Hv1 as Hv1. injection Hv2 as Hv2.
  assert (Hlb : length (intothis b1) = length (intothis b)) by (rewrite <- (length_fmap ends), Hv1, length_fmap; done).
  destruct Hy as (c' & Hc' & Hy). rewrite Hc in Hc'. injection Hc' as <-. cbn [edges] in Hy.
  assert (Hlc : (length (intothis c1) <= length (intothis c))%nat).
  { rewrite <- (length_fmap ends), Hv2, length_delete, length_fmap by (rewrite list_lookup_fmap, Hy; by eexists). lia. }
  destruct (forward_ok bl (point e) B1 b1 c1 Hok1 ltac:(done) Hb1 Hc1 ltac:(lia) (S (length (intothis b))) ltac:(lia))
    as (B2 & -> & (Hok2 & Hs2 & Ho & Hi & l2 & m2 & l1 & m1 & El2 & Em2 & El1 & Em1 & Elm) & Hnil).
  cbn [obind other] in *. destruct (drain_ok bl B2 (length outs + 1) (length (intothis b)) Hok2 Hnil) as (B3 & -> & Hok3 & Hs3 & Hn3 & Hw1 & Hw2).
  { assert (E : count OutOf bl B2 = count OutOf bl B1).
    { unfold count. pose proof (Ho bl) as E. destruct (view B2 OutOf bl), (view B1 OutOf bl); cbn in E; try done.
      injection E as E. apply (f_equal length) in E. unfold redirect_all in E. by rewrite !length_fmap in E. }
    rewrite E. unfold count. rewrite Hv3, (view_get _ _ _ _ Hb). cbn [fmap option_fmap option_map edges]. rewrite Hl.
    rewrite length_delete, length_fmap, length_app by (rewrite list_lookup_fmap, lookup_app_r, Nat.sub_diag by lia; by eexists). cbn. lia. }
  unfold points in *. rewrite (view_get _ _ _ _ Hb), (view_get _ _ _ _ Hc). cbn [fmap option_fmap option_map edges].
  exists B3. eexists _, _. split; [done|]. split; [done|]. split; [transitivity B1; [done|]; by transitivity B2|].
  split; [intros [|]; [by rewrite Hw2, Hnil|done]|]. split; [|split; [|split; [done|split; [done|]]]].
  - intros p Hp. rewrite Hw1 by done. replace (view B OutOf p) with (view B1 OutOf p) by (rewrite Hv, on_list_side, on_list_point by done; done).
    rewrite <- Ho. destruct (view B2 OutOf p) as [l|] eqn:E; [|done]. cbn. f_equal. symmetry. by apply (redirect_none B2 bl (point e) p).
  - intros p Hp1 Hp2. rewrite Hw2, Hi by done. by rewrite Hv, on_list_point, on_list_side by done.
  - rewrite Hw2. rewrite Hnil in Em2. injection Em2 as <-. rewrite app_nil_r in Elm. subst l2.
    destruct (view B2 Into (point e)) as [v|]; [|done]. injection El2 as El2. cbn. f_equal. rewrite avoids_points, El2, filter_app.
    rewrite (view_get _ _ _ _ Hc1) in El1. rewrite (view_get _ _ _ _ Hb1) in Em1. cbn in El1, Em1. injection El1 as <-. injection Em1 as <-.
    rewrite Hv1, Hv2, fmap_delete. f_equal.
    + apply (filter_delete _ _ j bl); [|naive_solver]. rewrite !list_lookup_fmap, Hy. cbn. by rewrite Hpy.
    + apply (no_self_edge_in B bl); [done..|]. unfold points. by rewrite (view_get _ _ _ _ Hb).
Qed.

(** ** Splicing a block into its only predecessor *)

Lemma move_out_edge_eq B bl b e outs blnew : try_get B bl = Some b -> outofthis b = e :: outs ->
  block_move_out_edge B bl 0 blnew = replace_edge_at Into B (point e) (reverse_index e) blnew.
Proof.
  intros Hb Hl. unfold block_move_out_edge. rewrite get_try, Hb. cbn [obind]. unfold get_neighbour, get_rev_index.
  cbn [edges]. rewrite Hl. done.
Qed.

(** The loop that hands the edges out of [outbl] over to [bl]. *)
Lemma move_all_ok B outbl bl o b : edges_ok B -> bl <> outbl -> try_get B outbl = Some o -> try_get B bl = Some b ->
  outofthis b = [] ->
  exists B', for_up (length (outofthis o)) 0 (fun _ B => block_move_out_edge B outbl 0 bl) B = Ok B' /\
    forwarding OutOf outbl bl B B' /\ view B' OutOf outbl = Some [].
Proof.
  intros Hok Hne Ho Hb Hnil.
  destruct (for_up_inv (fun i B1 => forwarding OutOf outbl bl B B1 /\ count OutOf outbl B1 = (length (outofthis o) - i)%nat)
    (fun _ B => block_move_out_edge B outbl 0 bl) (length (outofthis o)) 0 B) as (B' & E & Hf & Hcnt).
  - split; [by eapply forwarding_refl|]. rewrite (count_edges _ _ _ _ Ho). cbn. lia.
  - intros i B1 Hi [Hf Hc]. pose proof Hf as (Hok1 & Hs1 & _).
    destruct (proj2 (same_rest_live B B1 outbl Hs1)) as [o1 Ho1]; [by eexists|]. rewrite (count_edges _ _ _ _ Ho1) in Hc. cbn in Hc.
    destruct (outofthis o1) as [|e outs] eqn:El; [cbn in Hc; lia|].
    destruct (forward_one OutOf outbl bl B B1 o b o1 e outs Hf ltac:(done) Ho Hb) as (B2 & E & Hf2 & Hv); [|done|done|].
    { cbn [edges]. rewrite Hnil. pose proof (proj1 Hok outbl o OutOf Ho). cbn in *. lia. }
    exists B2. rewrite (move_out_edge_eq B1 outbl o1 e outs bl Ho1 El). split; [done|]. split; [done|].
    unfold count. rewrite Hv, length_fmap. cbn in Hc. lia.
  - exists B'. split; [done|]. split; [done|]. cbn in Hcnt. rewrite Nat.sub_diag in Hcnt. unfold count in Hcnt.
    destruct Hf as (_ & Hs & _). destruct (proj2 (same_rest_live B B' outbl Hs)) as [o1 Ho1]; [by eexists|].
    rewrite (view_get _ _ _ _ Ho1) in *. cbn [edges] in *. rewrite length_fmap in Hcnt. by destruct (outofthis o1).
Qed.

(** Splicing the only successor of a block, which has no other predecessor,
    into the block removes the successor; its ways out become the block's, in
    order, and every edge from it now comes from the block. *)
Theorem splice_block_correct B graph bl b g e o : edges_ok B -> try_get B bl = Some b -> outofthis b = [e] ->
  try_get B (point e) = Some o -> length (intothis o) = 1%nat -> is_graph o = false -> bl <> point e ->
  try_get B graph = Some g -> graph <> point e ->
  exists B', block_splice_block B graph bl = Ok B' /\ edges_ok B' /\ try_get B' (point e) = None /\
    points B' OutOf bl = points B OutOf (point e) /\
    (forall p, p <> bl -> p <> point e -> view B' OutOf p = view B OutOf p) /\
    (forall p, p <> point e -> view B' Into p = redirect_all (point e) bl <$> view B Into p) /\
    flags <$> try_get B' bl = Some (Z.lor (Z.land (flags b) (Z.lor F_UNSTRUCTURED_TARG F_ENTRY_POINT)) (Z.land (flags o) F_SWITCH_OUT)).
Proof.
  intros Hok Hb Hl Ho Hlen Hleaf Hne Hg Hgne. unfold block_splice_block. rewrite get_try, Hb. cbn [obind].
  rewrite (same_size B OutOf bl b) by (done || apply Hok). cbn [edges]. rewrite Hl. change (Z.of_nat (length [e]) =? 1) with true. cbn iota.
  unfold get_neighbour. cbn [edges]. rewrite Hl. change (index [e] (Z.to_nat (u64 0))) with (Ok e). cbn [obind].
  rewrite get_try, Ho. cbn [obind]. rewrite (same_size B Into (point e) o) by (done || apply Hok). cbn [edges]. rewrite Hlen.
  change (Z.of_nat 1 =? 1) with true. cbn iota beta delta [obind]. rewrite get_try, Ho. cbn [obind].
  assert (Hat : edge_at B OutOf bl 0 e) by (exists b; cbn; by rewrite Hl).
  destruct (remove_edge_ok B OutOf bl 0 e Hok Hat) as (B1 & j & E1 & Hok1 & Hs1 & Hj & Hv). change (Z.of_nat 0) with 0 in E1. rewrite E1. cbn [obind].
  destruct (proj2 Hok _ _ _ _ Hat) as (j' & y & Hj' & (o' & Ho' & Hy) & Hpy & _). assert (j' = j) as -> by lia.
  assert (o' = o) as -> by congruence. cbn [edges other] in Hy.
  assert (j = 0%nat) as -> by (apply lookup_lt_Some in Hy; lia). cbn [other] in Hv.
  assert (HvO : view B1 OutOf bl = Some []) by (rewrite Hv, on_list_side, on_list_here, (view_get _ _ _ _ Hb) by done; cbn; by rewrite Hl).
  assert (HvI : view B1 Into (point e) = Some []).
  { rewrite Hv, on_list_here, on_list_side, (view_get _ _ _ _ Ho) by done. cbn. destruct (intothis o) as [|? [|]]; cbn in Hlen; try lia. done. }
  assert (HvOo : view B1 OutOf (point e) = view B OutOf (point e)) by (rewrite Hv, on_list_side, on_list_point by done; done).
  destruct (proj2 (same_rest_live B B1 bl Hs1)) as [b1 Hb1]; [by eexists|].
  destruct (proj2 (same_rest_live B B1 (point e) Hs1)) as [o1 Ho1]; [by eexists|].
  rewrite get_try, Ho1. cbn [obind]. rewrite (same_size B1 OutOf (point e) o1) by (done || apply Hok1). rewrite Nat2Z.id. cbn [edges].
  destruct (move_all_ok B1 (point e) bl o1 b1 Hok1 Hne Ho1 Hb1) as (B2 & -> & (Hok2 & Hs2 & Ho2 & Hi2 & l2 & m2 & l1 & m1 & El2 & Em2 & El1 & Em1 & Elm) & Hnil).
  { rewrite (view_get _ _ _ _ Hb1) in HvO. injection HvO as HvO. by apply fmap_nil_inv in HvO. }
  cbn [obind other] in *. assert (Hs02 : same_rest B B2) by (by transitivity B1).
  destruct (proj2 (same_rest_live B B2 bl Hs02)) as [b2 Hb2]; [by eexists|].
  destruct (proj2 (same_rest_live B B2 (point e) Hs02)) as [o2 Ho2']; [by eexists|].
  destruct (proj2 (same_rest_live B B2 graph Hs02)) as [g2 Hg2]; [by eexists|].
  assert (Hleaf2 : is_graph o2 = false).
  { destruct (same_rest_get B B2 (point e) o2 Hs02 Ho2') as (o3 & f & Ho3 & ->). assert (o3 = o) as -> by congruence. done. }
  destruct (remove_block_ok B2 graph (point e) o2 g2 Hok2 Ho2' Hleaf2 Hg2 Hgne) as (B3 & -> & Hok3 & Hv3 & Hr3). cbn [obind].
  assert (Hb3 : is_Some (try_get B3 bl)).
  { apply (view_live B3 Into). rewrite Hv3, decide_False, (view_get _ _ _ _ Hb2) by done. by eexists. }
  destruct Hb3 as [b3 Hb3]. rewrite (edit_eq _ _ _ _ Hb3). eexists. split; [done|].
  set (F := fun p x => if decide (p = bl) then _ else x). assert (HF : forall p c s, edges s (F p c) = edges s c).
  { intros p c s. unfold F. destruct (decide _); by destruct s. }
  assert (HvB : forall p, p <> point e -> view B3 Into p = redirect_all (point e) bl <$> view B Into p).
  { intros p Hp. rewrite Hv3, decide_False by done. replace (view B Into p) with (view B1 Into p) by (by rewrite Hv, on_list_point, on_list_side).
    rewrite <- Ho2. destruct (view B2 Into p) as [v|] eqn:Ev; [|done]. cbn. f_equal. rewrite (avoids_none B2 OutOf (point e) p v) by done.
    symmetry. pose proof (avoids_none B2 OutOf (point e) p v Hok2 Hnil Ev) as Ha. unfold redirect_all.
    rewrite <- (list_fmap_id v) at 2. apply list_fmap_ext. intros k x Hx. unfold redirect. rewrite decide_False; [done|].
    assert (Hin : x ∈ avoids (point e) v) by (rewrite Ha; by eapply list_elem_of_lookup_2). by apply list_elem_of_filter in Hin as [? _]. }
  assert (HvI2 : view B2 Into (point e) = Some []).
  { pose proof (Ho2 (point e)) as E. rewrite HvI in E. destruct (view B2 Into (point e)) as [[|]|]; by cbn in E. }
  assert (HvOut : forall p, p <> point e -> view B3 OutOf p = view B2 OutOf p).
  { intros p Hp. rewrite Hv3, decide_False by done. destruct (view B2 OutOf p) as [v|] eqn:Ev; [|done]. cbn. f_equal. by apply (avoids_none B2 Into (point e) p). }
  split; [by apply edges_ok_blocks|]. split; [|split; [|split; [|split]]].
  - rewrite try_get_map. pose proof (Hr3 (point e)) as E. rewrite decide_True in E by done. by destruct (try_get B3 (point e)).
  - unfold points in *. rewrite view_blocks, HvOut, <- HvOo by done. rewrite El2, Em1. f_equal. rewrite HvO in El1. rewrite Hnil in Em2.
    injection El1 as <-. injection Em2 as <-. by rewrite app_nil_r in Elm.
  - intros p Hp1 Hp2. rewrite view_blocks, HvOut, Hi2 by done. by rewrite Hv, on_list_point, on_list_point by done.
  - intros p Hp. rewrite view_blocks by done. by apply HvB.
  - rewrite try_get_map, Hb3. cbn. unfold F. by rewrite decide_True.
Qed.

(** ** What a block reaches *)

(** The arena with the blocks of [M] marked. *)
Definition mark_set (M : list nat) (B : Blocks) : Blocks :=
  map_blocks (fun p b => if decide (p ∈ M) then set_mark b else b) B.

(** No block is marked; the flags are [u32]. *)
Definition unmarked (B : Blocks) : Prop := forall p b, try_get B p = Some b -> is_mark b = false /\ is_u32 (flags b).

Lemma is_mark_set b : is_mark (set_mark b) = true.
Proof.
  unfold is_mark. cbn. apply negb_true_iff, Z.eqb_neq. intros E. apply (f_equal (fun z => Z.testbit z 7)) in E.
  rewrite Z.land_spec, Z.lor_spec in E. change (Z.testbit F_MARK 7) with true in E. rewrite orb_true_r in E. done.
Qed.

Lemma clear_set_mark b : is_mark b = false -> is_u32 (flags b) -> clear_mark (set_mark b) = b.
Proof.
  intros Hm Hu. unfold is_mark in Hm. apply negb_false_iff, Z.eqb_eq in Hm.
  assert (E : without (Z.lor (flags b) F_MARK) F_MARK = flags b); [|destruct b; unfold clear_mark, set_mark, with_flags; cbn in *; by rewrite E].
  apply Z.bits_inj'. intros i Hi. unfold without. rewrite Z.land_spec, Z.lor_spec, testbit_uw, Z.lnot_spec by lia.
  apply (f_equal (fun z => Z.testbit z i)) in Hm. rewrite Z.land_spec, Z.bits_0 in Hm.
  destruct (Z.ltb_spec i 32) as [Hlt|Hge]; cbn [andb].
  - destruct (Z.testbit (flags b) i), (Z.testbit F_MARK i); done.
  - rewrite (testbit_above 32 (flags b)) by (done || lia). apply andb_false_r.
Qed.

Lemma try_get_mark M B p : try_get (mark_set M B) p = (fun b => if decide (p ∈ M) then set_mark b else b) <$> try_get B p.
Proof. apply try_get_map. Qed.

Lemma mark_set_edges M B s p b : try_get (mark_set M B) p = Some b -> exists b0, try_get B p = Some b0 /\ edges s b = edges s b0.
Proof.
  rewrite try_get_mark. destruct (try_get B p) as [b0|]; [|done]. intros [= <-]. exists b0. split; [done|].
  destruct (decide _); by destruct s.
Qed.

Lemma is_mark_mark M B p b : unmarked B -> try_get (mark_set M B) p = Some b -> is_mark b = bool_decide (p ∈ M).
Proof.
  intros Hun. rewrite try_get_mark. destruct (try_get B p) as [b0|] eqn:E; [|done]. intros [= <-]. case_decide as Hp.
  - by rewrite is_mark_set, bool_decide_true.
  - rewrite bool_decide_false by done. by apply (Hun p).
Qed.

Lemma mark_more M B x b : x ∉ M -> try_get B x = Some b -> edit (mark_set M B) x set_mark = Ok (mark_set (M ++ [x]) B).
Proof.
  intros Hx Hb. rewrite (edit_eq _ _ _ (if decide (x ∈ M) then set_mark b else b)) by (by rewrite try_get_mark, Hb).
  f_equal. unfold mark_set. rewrite map_blocks_comp. apply map_blocks_ext. intros p c Hc.
  destruct (decide (p = x)) as [->|Hp].
  - rewrite decide_False, decide_True by set_solver. done.
  - destruct (decide (p ∈ M)); [rewrite decide_True by set_solver|rewrite decide_False by set_solver]; done.
Qed.

Lemma mark_less M B x b : unmarked B -> x ∉ M -> try_get B x = Some b -> edit (mark_set (x :: M) B) x clear_mark = Ok (mark_set M B).
Proof.
  intros Hun Hx Hb. rewrite (edit_eq _ _ _ (if decide (x ∈ x :: M) then set_mark b else b)) by (by rewrite try_get_mark, Hb).
  f_equal. unfold mark_set. rewrite map_blocks_comp. apply map_blocks_ext. intros p c Hc.
  destruct (decide (p = x)) as [->|Hp].
  - rewrite decide_True, decide_False by set_solver. by apply clear_set_mark; eapply Hun.
  - destruct (decide (p ∈ M)); [rewrite decide_True by set_solver|rewrite decide_False by set_solver]; done.
Qed.

Lemma mark_none B : mark_set [] B = B.
Proof. unfold mark_set. rewrite <- (map_blocks_id B) at 2. apply map_blocks_ext. intros p b _. by rewrite decide_False by set_solver. Qed.

Lemma unmark_all_ok B l : unmarked B -> NoDup l -> (forall x, x ∈ l -> is_Some (try_get B x)) -> unmark_all l (mark_set l B) = Ok B.
Proof.
  intros Hun Hnd Hl. unfold unmark_all. induction l as [|x l IH]; [by rewrite mark_none|].
  apply NoDup_cons in Hnd as [Hx Hnd]. destruct (Hl x ltac:(by left)) as [b Hb]. cbn [foldl obind].
  rewrite (mark_less l B x b) by done. apply IH; [done|]. intros y Hy. apply Hl. by right.
Qed.

(** Blocks joined by an edge. *)
Definition flows (B : Blocks) (p q : nat) : Prop := exists k e, edge_at B OutOf p k e /\ point e = q.

(** The successors of [blk] up to position [i] have been visited. *)
Definition visited (B : Blocks) (blk : nat) (res0 : list nat) (i : nat) (st : Blocks * list nat) : Prop :=
  exists added, st = (mark_set (res0 ++ added) B, res0 ++ added) /\ NoDup (res0 ++ added) /\
    (forall x, x ∈ added -> flows B blk x /\ is_Some (try_get B x)) /\
    forall k e, (k < i)%nat -> edge_at B OutOf blk k e -> point e ∈ res0 ++ added.

Lemma visit_all_ok B blk b res0 : edges_ok B -> unmarked B -> try_get B blk = Some b -> NoDup res0 ->
  exists added, for_up (length (outofthis b)) 0 (visit_step blk) (mark_set res0 B, res0) =
      Ok (mark_set (res0 ++ added) B, res0 ++ added) /\ NoDup (res0 ++ added) /\
    (forall x, x ∈ added -> flows B blk x /\ is_Some (try_get B x)) /\ forall q, flows B blk q -> q ∈ res0 ++ added.
Proof.
  intros [Hsm Hok] Hun Hb Hnd.
  destruct (for_up_inv (visited B blk res0) (visit_step blk) (length (outofthis b)) 0 (mark_set res0 B, res0))
    as (st & E & added & -> & Hnd' & Hadd & Hall).
  - exists []. rewrite app_nil_r. split; [done|]. split; [done|]. split; [set_solver|]. intros; lia.
  - intros i st Hi (added & -> & Hnd1 & Hadd & Hall). destruct (lookup_lt_is_Some_2 (outofthis b) i ltac:(lia)) as [e He].
    assert (Hat : edge_at B OutOf blk i e) by (by exists b). pose proof (edge_at_small _ _ _ _ _ Hsm Hat).
    destruct (Hok _ _ _ _ Hat) as (j & e' & _ & (c & Hc & _) & _).
    unfold visit_step. rewrite get_try, try_get_mark, Hb. cbn [obind fmap option_fmap option_map].
    unfold get_neighbour. rewrite u64_nat, Nat2Z.id by done.
    replace (edges OutOf (if decide (blk ∈ res0 ++ added) then set_mark b else b)) with (outofthis b) by (by destruct (decide _)).
    rewrite (index_ok _ _ _ He). cbn [obind]. rewrite get_try, try_get_mark, Hc. cbn [obind fmap option_fmap option_map].
    rewrite (is_mark_mark (res0 ++ added) B (point e)) by (done || by rewrite try_get_mark, Hc).
    assert (Hprev : forall k x, (k < S i)%nat -> edge_at B OutOf blk k x -> point x ∈ res0 ++ added \/ point x = point e).
    { intros k x Hk Hx. destruct (decide (k = i)) as [->|]; [right; by rewrite (edge_at_inj _ _ _ _ _ _ Hx Hat)|left].
      apply (Hall k); [lia|done]. }
    case_bool_decide as Hm.
    + eexists. split; [done|]. exists added. split; [done|]. split; [done|]. split; [done|]. intros k x Hk Hx.
      destruct (Hprev k x Hk Hx) as [?| ->]; done.
    + rewrite (mark_more (res0 ++ added) B (point e) c) by done. cbn [obind]. eexists. split; [done|]. exists (added ++ [point e]).
      rewrite app_assoc. split; [done|]. split; [|split].
      * apply NoDup_app. split; [done|]. split; [|apply NoDup_singleton]. intros x Hx ->%list_elem_of_singleton. done.
      * intros x [Hx| ->%list_elem_of_singleton]%elem_of_app; [by apply Hadd|]. split; [by exists i, e|by eexists].
      * intros k x Hk Hx. destruct (Hprev k x Hk Hx) as [?| ->]; set_solver.
  - exists added. split; [done|]. split; [done|]. split; [done|]. intros q (k & e & Hat & <-).
    apply (Hall k); [|done]. destruct Hat as (b' & Hb' & He). assert (b' = b) as -> by congruence. apply lookup_lt_Some in He. cbn in *. lia.
Qed.

(** The state of the search: what is found is reached, and what the blocks
    before [total] flow to is found. *)
Definition searching (B : Blocks) (bl : nat) (st : Blocks * list nat * nat) : Prop :=
  exists res total, st = (mark_set res B, res, total) /\ NoDup res /\ bl ∈ res /\ (total <= length res)%nat /\
    (forall x, x ∈ res -> rtc (flows B) bl x /\ is_Some (try_get B x)) /\
    forall i x q, (i < total)%nat -> res !! i = Some x -> flows B x q -> q ∈ res.

Lemma live_bound (B : Blocks) l : NoDup l -> (forall x, x ∈ l -> is_Some (try_get B x)) -> (length l <= length (slots B))%nat.
Proof.
  intros Hnd Hl. rewrite <- (length_seq (length (slots B)) 0). apply submseteq_length, NoDup_submseteq; [done|].
  intros x Hx. apply elem_of_seq. destruct (Hl x Hx) as [b Hb]. unfold try_get in Hb.
  destruct (slots B !! x) eqn:E; [|done]. apply lookup_lt_Some in E. lia.
Qed.

Lemma reach_step_ok B bl st : edges_ok B -> unmarked B -> searching B bl st ->
  (exists st', reach_step st = Ok (inl st') /\ searching B bl st' /\ st'.2 = S (st.2)) \/
  (exists res, reach_step st = Ok (inr (mark_set res B, res)) /\ NoDup res /\ forall x, x ∈ res <-> rtc (flows B) bl x).
Proof.
  intros Hok Hun (res & total & -> & Hnd & Hbl & Htot & Hreach & Hclosed). unfold reach_step.
  destruct (decide (total < length res)%nat) as [Hlt|Hge].
  - left. destruct (lookup_lt_is_Some_2 res total Hlt) as [blk Hblk]. rewrite (index_ok _ _ _ Hblk). cbn [obind].
    destruct (Hreach blk) as [Hr [b Hb]]; [by eapply list_elem_of_lookup_2|].
    rewrite get_try, try_get_mark, Hb. cbn [obind fmap option_fmap option_map].
    replace (size_edges OutOf (if decide (blk ∈ res) then set_mark b else b)) with (size_edges OutOf b) by (by destruct (decide _)).
    rewrite (same_size B OutOf blk b), Nat2Z.id by (done || apply Hok). cbn [edges].
    destruct (visit_all_ok B blk b res Hok Hun Hb Hnd) as (added & -> & Hnd' & Hadd & Hall). cbn [obind].
    eexists. split; [done|]. split; [|done]. exists (res ++ added), (S total). rewrite length_app.
    split; [done|]. split; [done|]. split; [set_solver|]. split; [lia|]. split.
    + intros x [Hx|Hx]%elem_of_app; [by apply Hreach|]. destruct (Hadd x Hx) as [Hf Hl]. split; [|done]. by eapply rtc_r.
    + intros i x q Hi Hx Hq. rewrite lookup_app_l in Hx by lia. destruct (decide (i = total)) as [->|Hne].
      * assert (x = blk) as -> by congruence. by apply Hall.
      * apply elem_of_app. left. apply (Hclosed i x q); [lia|done|done].
  - right. exists res. split; [done|]. split; [done|]. intros x. split; [intros Hx; by apply Hreach|].
    revert x. apply (rtc_ind_r (fun x => x ∈ res)); [done|]. intros y z _ Hf [i Hi]%list_elem_of_lookup.
    apply (Hclosed i y z); [|done|done]. apply lookup_lt_Some in Hi. lia.
Qed.

Lemma search_ok B bl fuel st : edges_ok B -> unmarked B -> searching B bl st -> (length (slots B) < fuel + st.2)%nat ->
  exists res, loop fuel reach_step st = Ok (mark_set res B, res) /\ NoDup res /\ forall x, x ∈ res <-> rtc (flows B) bl x.
Proof.
  intros Hok Hun. revert st. induction fuel as [|fuel IH]; intros st Hst Hf.
  { destruct Hst as (res & total & -> & Hnd & _ & Htot & Hreach & _). cbn in Hf.
    pose proof (live_bound B res Hnd (fun x Hx => proj2 (Hreach x Hx))). lia. }
  cbn [loop]. destruct (reach_step_ok B bl st Hok Hun Hst) as [(st' & -> & Hst' & Hm)|(res & -> & Hnd & Hres)]; cbn [obind]; [|by exists res].
  apply IH; [done|]. rewrite Hm. lia.
Qed.

Lemma mark_set_ext M M' B : (forall x, x ∈ M <-> x ∈ M') -> mark_set M B = mark_set M' B.
Proof.
  intros E. apply map_blocks_ext. intros p b _. destruct (decide (p ∈ M)) as [Hp|Hp], (decide (p ∈ M')) as [Hp'|Hp']; try done;
    exfalso; specialize (E p); tauto.
Qed.

Lemma collect_unmarked_ok B M l : unmarked B -> NoDup l -> (forall x, x ∈ l -> is_Some (try_get B x)) -> (forall x, x ∈ M -> x ∈ l) ->
  collect_unmarked l (mark_set M B) = Ok (B, filter (fun x => x ∉ M) l).
Proof.
  intros Hun Hnd Hl Hsub. unfold collect_unmarked.
  assert (Hgen : forall l1 l2 acc M1, l = l1 ++ l2 -> (forall x, x ∈ M1 <-> x ∈ M /\ x ∉ l1) ->
    foldl (fun r blk => let! st := r in let '(B, res) := st : Blocks * list nat in let! b := get B blk in
      if is_mark b then let! B := edit B blk clear_mark in Ok (B, res) else Ok (B, res ++ [blk])) (Ok (mark_set M1 B, acc)) l2 =
    Ok (B, acc ++ filter (fun x => x ∉ M) l2)).
  { intros l1 l2. revert l1. induction l2 as [|x l2 IH]; intros l1 acc M1 El HM1.
    - cbn. rewrite app_nil_r. rewrite (mark_set_ext M1 []), mark_none; [done|]. intros y. rewrite HM1, elem_of_nil. split; [|done].
      intros [Hy Hn]. apply Hn. rewrite app_nil_r in El. subst l1. by apply Hsub.
    - assert (Hx : x ∉ l1) by (intros Hx; rewrite El in Hnd; apply list.NoDup_app in Hnd as (_ & Hd & _); apply (Hd x Hx); by left).
      destruct (Hl x) as [b Hb]; [rewrite El; set_solver|]. cbn [foldl obind]. rewrite get_try, try_get_mark, Hb.
      cbn [obind fmap option_fmap option_map]. rewrite (is_mark_mark M1 B x) by (done || by rewrite try_get_mark, Hb).
      rewrite filter_cons. case_bool_decide as Hm.
      + rewrite (mark_set_ext M1 (x :: filter (fun y => y <> x) M1)).
        2:{ intros y. rewrite elem_of_cons, list_elem_of_filter. destruct (decide (y = x)) as [->|]; naive_solver. }
        rewrite (mark_less _ B x b) by (done || (rewrite list_elem_of_filter; naive_solver)). cbn [obind].
        rewrite (IH (l1 ++ [x])); [|by rewrite <- app_assoc|].
        * apply HM1 in Hm as [Hm _]. rewrite decide_False by (intros Hn; by apply Hn). done.
        * intros y. rewrite list_elem_of_filter, HM1. set_solver.
      + rewrite (IH (l1 ++ [x])); [|by rewrite <- app_assoc|].
        * rewrite decide_True; [by rewrite <- app_assoc|]. intros Hn. apply Hm. by apply HM1.
        * intros y. rewrite HM1. rewrite HM1 in Hm. set_solver. }
  apply (Hgen [] l [] M eq_refl). set_solver.
Qed.

(** ** Properties *)

Lemma flows_view B p q : flows B p q <-> exists l, view B OutOf p = Some l /\ q ∈ l.*2.
Proof.
  split.
  - intros (k & e & He & <-). destruct (proj2 (view_edge B OutOf p k (ends e))) as (l & Hl & Hx); [by exists e|]. exists l. split; [done|].
    apply list_elem_of_fmap. exists (ends e). split; [done|by eapply list_elem_of_lookup_2].
  - intros (l & Hl & (x & -> & [k Hx]%list_elem_of_lookup)%list_elem_of_fmap).
    destruct (proj1 (view_edge B OutOf p k x)) as (e & He & <-); [by exists l|]. by exists k, e.
Qed.

(** Removing a block takes away it, its edges and its mention in the graph,
    and nothing else: the flow between the other blocks is what it was, every
    list of edges keeps its order, and every other field of every block stays. *)
Theorem remove_block_correct B graph bl b g : edges_ok B -> try_get B bl = Some b -> is_graph b = false ->
  try_get B graph = Some g -> graph <> bl ->
  exists B', block_remove_block B graph bl = Ok B' /\ edges_ok B' /\
    (forall p q, flows B' p q <-> flows B p q /\ p <> bl /\ q <> bl) /\
    (forall s p, view B' s p = if decide (p = bl) then None else avoids bl <$> view B s p) /\
    (forall p, rest <$> try_get B' p = if decide (p = bl) then None
       else if decide (p = graph) then Some (with_list (remove_first bl (block_list g)) (rest g)) else rest <$> try_get B p).
Proof.
  intros Hok Hb Hleaf Hg Hne. destruct (remove_block_ok B graph bl b g Hok Hb Hleaf Hg Hne) as (B' & E & Hok' & Hv & Hr).
  exists B'. split; [done|]. split; [done|]. split; [|done]. intros p q. rewrite !flows_view, Hv.
  destruct (decide (p = bl)) as [->|Hp]; [naive_solver|]. destruct (view B OutOf p) as [l|]; cbn; [|naive_solver]. split.
  - intros (l' & [= <-] & Hq). rewrite avoids_points, list_elem_of_filter in Hq. naive_solver.
  - intros ((l' & [= <-] & Hq) & _ & Hqb). exists (avoids bl l). split; [done|]. rewrite avoids_points, list_elem_of_filter. done.
Qed.

(** C36: [block_collect_reachable] finds exactly the blocks that the block flows
    to, each once, or with [un] the members of the graph that it does not flow
    to, in their order; it ends, and leaves the blocks as they were (every mark
    is taken back). *)
Theorem collect_reachable_correct B graph g bl un : edges_ok B -> unmarked B -> try_get B graph = Some g ->
  is_Some (try_get B bl) -> NoDup (block_list g) -> (forall x, x ∈ block_list g -> is_Some (try_get B x)) ->
  (un = true -> forall x, rtc (flows B) bl x -> x ∈ block_list g) ->
  exists res, block_collect_reachable B graph [] bl un = Ok (B, res) /\ NoDup res /\
    if un then sublist res (block_list g) /\ (forall x, x ∈ res <-> x ∈ block_list g /\ ~ rtc (flows B) bl x)
    else forall x, x ∈ res <-> rtc (flows B) bl x.
Proof.
  intros Hok Hun Hg [b Hb] Hnd Hlive Hsub. unfold block_collect_reachable.
  replace (edit B bl set_mark) with (edit (mark_set [] B) bl set_mark) by (by rewrite mark_none).
  rewrite (mark_more [] B bl b) by (done || set_solver). cbn [obind app length].
  destruct (search_ok B bl (S (0 + length (slots (mark_set [bl] B)))) (mark_set [bl] B, [bl], 0%nat)) as (res & -> & Hndr & Hres); try done.
  - exists [bl], 0%nat. split; [done|]. split; [apply NoDup_singleton|]. split; [by left|]. split; [cbn; lia|]. split; [|lia].
    intros x ->%list_elem_of_singleton. split; [reflexivity|by eexists].
  - cbn. rewrite length_imap. lia.
  - cbn [obind]. assert (Hl : forall x, x ∈ res -> is_Some (try_get B x)).
    { intros x Hx. apply Hres in Hx. revert x Hx. apply (rtc_ind_r (fun x => is_Some (try_get B x))); [by eexists|].
      intros y z _ (k & e & He & <-) _. destruct (proj2 Hok _ _ _ _ He) as (j & e' & _ & (c & Hc & _) & _). by eexists. }
    destruct un.
    + rewrite get_try, try_get_mark, Hg. cbn [obind fmap option_fmap option_map].
      replace (block_list (if decide (graph ∈ res) then set_mark g else g)) with (block_list g) by (by destruct (decide _)).
      rewrite collect_unmarked_ok; [|done..|intros x Hx; apply Hsub; [done|by apply Hres]]. eexists. split; [done|].
      split; [by apply list.NoDup_filter|]. split; [apply sublist_filter|]. intros x. rewrite list_elem_of_filter, Hres. tauto.
    + rewrite unmark_all_ok by done. cbn [obind]. by exists res.
Qed.

(** ** Examples *)

(** A graph of [n] blocks, numbered in the order of creation, with the given
    edges.  The graph is block 0 of the arena. *)
Fixpoint add_members (B : Blocks) (n k : nat) : outcome Blocks :=
  match n with
  | O => Ok B
  | S n => let! (B, r) := block_new_block B 0 in let! B := edit B r (with_index (Z.of_nat k)) in add_members B n (S k)
  end.

Definition flow_graph (n : nat) (l : list (nat * nat)) : Blocks :=
  match (let! (B, _) := alloc arena_new (new_graph_kind K_Graph) in
         let! B := add_members B n 0 in
         foldl (fun r e => let! B := r in block_add_edge B e.1 e.2) (Ok B) l) with
  | Ok B => B
  | _ => arena_new
  end.

(** Two ways from block 1 to block 4, and a way back. *)
Definition diamond : Blocks := Eval vm_compute in flow_graph 5 [(1, 2); (1, 3); (2, 4); (3, 4); (4, 1); (4, 5)]%nat.

Definition block_at (B : Blocks) (p : nat) : FlowBlock := match try_get B p with Some b => b | None => block_new K_Plain end.
Definition out_edge (B : Blocks) (p k : nat) : BlockEdge :=
  match outofthis (block_at B p) !! k with Some e => e | None => mk_BlockEdge 0 0 0 end.

Lemma remove_block_witness : exists B', block_remove_block diamond 0 3 = Ok B' /\ edges_ok B' /\
  (forall p q, flows B' p q <-> flows diamond p q /\ p <> 3%nat /\ q <> 3%nat) /\
  (forall s p, view B' s p = if decide (p = 3%nat) then None else avoids 3 <$> view diamond s p) /\
  (forall p, rest <$> try_get B' p = if decide (p = 3%nat) then None
     else if decide (p = 0%nat) then Some (with_list (remove_first 3 (block_list (block_at diamond 0))) (rest (block_at diamond 0)))
     else rest <$> try_get diamond p).
Proof.
  apply (remove_block_correct diamond 0 3 (block_at diamond 3) (block_at diamond 0)); [apply checked_arena_ok|..]; try reflexivity. done.
Defined.

Lemma remove_from_flow_witness : exists B' l m, block_remove_from_flow diamond 4 = Ok B' /\ edges_ok B' /\ same_rest diamond B' /\
  (forall s, view B' s 4 = Some []) /\
  (forall p, p <> 4%nat -> view B' OutOf p = redirect_all 4 5 <$> view diamond OutOf p) /\
  (forall p, p <> 4%nat -> p <> 5%nat -> view B' Into p = avoids 4 <$> view diamond Into p) /\
  points diamond Into 5 = Some l /\ points diamond Into 4 = Some m /\
  points B' Into 5 = Some (filter (fun p => p <> 4%nat) l ++ m).
Proof.
  apply (remove_from_flow_correct diamond 4 (block_at diamond 4) [out_edge diamond 4 0] (out_edge diamond 4 1) (block_at diamond 5));
    [by apply checked_arena_ok|done|done| |done|done].
  intros k e (b & [= <-] & He). destruct k as [|[|k]]; first [by injection He as <-|done].
Defined.

Definition chain : Blocks := Eval vm_compute in flow_graph 4 [(1, 2); (2, 3); (2, 4); (3, 1)]%nat.

Lemma splice_block_witness : exists B', block_splice_block chain 0 1 = Ok B' /\ edges_ok B' /\ try_get B' 2 = None /\
  points B' OutOf 1 = points chain OutOf 2 /\
  (forall p, p <> 1%nat -> p <> 2%nat -> view B' OutOf p = view chain OutOf p) /\
  (forall p, p <> 2%nat -> view B' Into p = redirect_all 2 1 <$> view chain Into p) /\
  flags <$> try_get B' 1%nat = Some 0.
Proof.
  apply (splice_block_correct chain 0 1 (block_at chain 1) (block_at chain 0) (out_edge chain 1 0) (block_at chain 2));
    [by apply checked_arena_ok|done..].
Defined.

Lemma collect_reachable_witness : exists res, block_collect_reachable chain 0 [] 2 true = Ok (chain, res) /\ NoDup res /\
  sublist res (block_list (block_at chain 0)) /\
  (forall x, x ∈ res <-> x ∈ block_list (block_at chain 0) /\ ~ rtc (flows chain) 2%nat x).
Proof.
  apply (collect_reachable_correct chain 0 (block_at chain 0) 2 true).
  - by apply checked_arena_ok.
  - intros p b Hb. destruct p as [|[|[|[|[|p]]]]]; try (injection Hb as <-; by vm_compute). done.
  - done.
  - by eexists.
  - by apply (bool_decide_unpack (NoDup _)).
  - intros x Hx. cbn in Hx. repeat (apply elem_of_cons in Hx as [->|Hx]; [by eexists|]). by apply elem_of_nil in Hx.
  - intros _ x Hx. revert x Hx. apply (rtc_ind_r (fun x => x ∈ block_list (block_at chain 0))); [cbn; set_solver|].
    intros y z _ (k & e & (b & Hb & He) & <-) Hy. cbn in Hy. repeat (apply elem_of_cons in Hy as [->|Hy];
      [injection Hb as <-; destruct k as [|[|k]]; cbn in He; try (injection He as <-); cbn; set_solver|]). by apply elem_of_nil in Hy.
Defined.

Definition looping : Blocks := Eval vm_compute in flow_graph 2 [(1, 2); (2, 2)]%nat.
Definition looping_left : Blocks :=
  Eval vm_compute in match remove_edge_at OutOf looping 2 0 with Ok B => B | _ => arena_new end.

Lemma forward_forever fuel : loop fuel (forward_step 2 2) looping_left = Diverge.
Proof. induction fuel as [|fuel IH]; [done|]. cbn [loop]. replace (forward_step 2 2 looping_left) with (Ok (inl looping_left) : outcome (Blocks + Blocks)) by (by vm_compute). exact IH. Qed.

(** A block that is its own last successor is not taken out of the flow: however
    long the loop runs, the edge into the block is led back to the block. *)
Lemma remove_from_flow_loops fuel rounds : loop (S rounds) (flow_step fuel 2) looping = Diverge.
Proof.
  cbn [loop]. assert (E : flow_step fuel 2 looping = let! B := loop fuel (forward_step 2 2) looping_left in Ok (inl B)) by reflexivity.
  rewrite E, forward_forever. done.
Qed.
