(* ===== verification/Dominators.v ===== *)
(** Why the dominator search of [block_calc_forward_dominator] is right, on a
    graph whose nodes are the numbers below [n] and whose entry is 0.  The
    search keeps a parent for each node it has seen and replaces it by the
    nearest common ancestor of the predecessors seen so far, node after node in
    increasing order, until a pass changes nothing.  [Inv] is its invariant at
    position [c] of a pass: among other things every true dominator of a node
    stays among its ancestors, and a parent only ever moves up, which bounds the
    number of passes. *)
From stdpp Require Import base list relations numbers.
From Stdlib Require Import Lia.

(** ** Definitions *)

Section Dominators.
Context (n : nat) (pred : nat -> list nat) (t : nat -> nat).
Hypothesis pred_lt : forall v p, (0 < v < n)%nat -> p ∈ pred v -> (p < n)%nat.
(** Every node has a predecessor that comes before it. *)
Hypothesis t_pred : forall v, (0 < v < n)%nat -> t v ∈ pred v /\ (t v < v)%nat.

(** Reached from the entry without passing [d]. *)
Inductive avoiding (d : nat) : nat -> Prop :=
  | avoid_entry : d <> 0%nat -> avoiding d 0
  | avoid_edge p v : (0 < v < n)%nat -> avoiding d p -> p ∈ pred v -> v <> d -> avoiding d v.

(** Every path from the entry to [v] passes [d]. *)
Definition dominates (d v : nat) : Prop := ~ avoiding d v.

Definition parents : Type := nat -> option nat.

Definition seen (D : parents) (v : nat) : Prop := v = 0%nat \/ is_Some (D v).

(** [u] is [v] or an ancestor of it. *)
Inductive above (D : parents) (u : nat) : nat -> Prop :=
  | above_refl : above D u u
  | above_step v o : (0 < v)%nat -> D v = Some o -> above D u o -> above D u v.

(** Common to the predecessors seen so far, and the nearest such node. *)
Definition common (D : parents) (v x : nat) : Prop := forall p, p ∈ pred v -> seen D p -> above D x p.
Definition nearest (D : parents) (v a : nat) : Prop := common D v a /\ forall x, common D v x -> above D x a.

Definition upd (D : parents) (v o : nat) : parents := fun w => if decide (w = v) then Some o else D w.

(** One node of a pass: children of the entry may be passed over. *)
Definition visit (D : parents) (v : nat) (D' : parents) : Prop :=
  (D v = Some 0%nat /\ D' = D) \/
  exists a, nearest D v a /\ ((D v = Some a /\ D' = D) \/ (D v <> Some a /\ D' = upd D v a)).

Inductive before : nat -> nat -> Prop :=
  | before_refl v : before v v
  | before_step u v : (0 < v < n)%nat -> before u (t v) -> before u v.

(** At position [c] of a pass; the nodes below [m] have been seen. *)
Record Inv (D : parents) (c m : nat) : Prop := {
  inv_tree : forall v o, (0 < v)%nat -> D v = Some o -> (o < v /\ v < n)%nat /\ seen D o;
  inv_seen : forall v, (0 < v < m)%nat -> is_Some (D v);
  inv_before : forall v o, (0 < v)%nat -> D v = Some o -> before o v;
  inv_fresh : forall v o, (0 < v < c)%nat -> D v = Some o -> above D o (t v);
  inv_near : forall v o x, (0 < v)%nat -> D v = Some o -> common D v x -> (x <= o)%nat;
  inv_dom : forall w d, (w < n)%nat -> seen D w -> dominates d w -> above D d w;
  inv_down : forall w o d, (0 < w)%nat -> D w = Some o -> dominates d w -> above D d o -> d <> o -> dominates d o }.

(** ** Ancestors *)

Lemma above_trans D x y z : above D x y -> above D y z -> above D x z.
Proof. intros Hx Hy. induction Hy as [|z o Hz Ho _ IH]; [done|]. by eapply above_step. Qed.

Lemma above_le D c m x v : Inv D c m -> above D x v -> (x <= v)%nat.
Proof. intros HI Hx. induction Hx as [|v o Hv Ho _ IH]; [done|]. pose proof (inv_tree _ _ _ HI v o Hv Ho). lia. Qed.

Lemma above_inv D x v : above D x v -> x = v \/ exists o, (0 < v)%nat /\ D v = Some o /\ above D x o.
Proof. intros Hx. inversion Hx; subst; eauto. Qed.

Lemma entry_above D c m v : Inv D c m -> seen D v -> above D 0 v.
Proof.
  intros HI. induction (lt_wf v) as [v _ IH]. intros [->|[o Ho]]; [constructor|].
  destruct (decide (v = 0%nat)) as [->|Hv]; [constructor|].
  destruct (inv_tree _ _ _ HI v o ltac:(lia) Ho) as [[Hlt _] Hs]. eapply above_step; [lia|done|]. by apply IH.
Qed.

Lemma above_before D c m x v : Inv D c m -> above D x v -> before x v.
Proof.
  intros HI Hx. induction Hx as [|v o Hv Ho _ IH]; [constructor|]. pose proof (inv_before _ _ _ HI v o Hv Ho) as Hb.
  clear - IH Hb. induction Hb as [|o v Hv _ IHb]; [done|]. constructor; [done|]. by apply IHb.
Qed.

Lemma below_seen D c m v : Inv D c m -> (v < m)%nat -> seen D v.
Proof. intros HI Hv. destruct (decide (v = 0%nat)) as [->|]; [by left|]. right. apply (inv_seen _ _ _ HI). lia. Qed.

(** What dominates a node dominates its ancestors below it. *)
Lemma down_chain D c m o w d : Inv D c m -> above D o w -> dominates d w -> above D d o -> d <> o -> dominates d o.
Proof.
  intros HI Ho. induction Ho as [|w o' Hw Ho' Habove IH]; intros Hd Hdo Hne; [done|]. apply IH; [|done|done].
  apply (inv_down _ _ _ HI w o' d); [done|done|done|by eapply above_trans|].
  pose proof (above_le _ _ _ _ _ HI Hdo). pose proof (above_le _ _ _ _ _ HI Habove). intros ->. lia.
Qed.

Lemma dominates_pred d v p : (0 < v < n)%nat -> dominates d v -> d <> v -> p ∈ pred v -> dominates d p.
Proof. intros Hv Hd Hne Hp Ha. apply Hd. by eapply avoid_edge. Qed.

(** The ancestors of a node behind [x] lead to [x] along the nodes already
    visited in this pass. *)
Lemma before_path D c m o a x : Inv D c m -> (c <= m)%nat -> before o a -> (a < c)%nat -> above D x a -> (x <= o)%nat -> above D x o.
Proof.
  intros HI Hcm Hb. induction Hb as [|o a Ha Hb IH]; intros Hac Hx Hxo; [done|]. destruct (t_pred a Ha) as [_ Hta].
  assert (Ho : (o <= t a)%nat).
  { clear - Hb t_pred. induction Hb as [|u v Hv _ IH]; [done|]. pose proof (proj2 (t_pred v Hv)). lia. }
  destruct (above_inv _ _ _ Hx) as [->|(p & _ & Hp & Hxp)]; [lia|]. apply IH; [lia| |done].
  eapply above_trans; [exact Hxp|]. apply (inv_fresh _ _ _ HI a p); [lia|done].
Qed.

(** ** A change of one parent *)

Section Update.
Context (D : parents) (v m a : nat).
Hypothesis HI : Inv D v m.
Hypothesis Hvm : (v <= m)%nat.
Hypothesis Hv : (0 < v < n)%nat.
Hypothesis Ha : nearest D v a.

Lemma nearest_lt : (a < v)%nat.
Proof.
  destruct (t_pred v Hv) as [Hp Hlt]. assert (Hs : seen D (t v)) by (apply (below_seen D v m _ HI); lia).
  pose proof (above_le _ _ _ _ _ HI (proj1 Ha (t v) Hp Hs)). lia.
Qed.

Lemma nearest_t : above D a (t v).
Proof. destruct (t_pred v Hv) as [Hp Hlt]. apply (proj1 Ha); [done|]. apply (below_seen D v m _ HI); lia. Qed.

Lemma nearest_seen : seen D a.
Proof.
  assert (H : forall x w, above D x w -> seen D w -> seen D x).
  { intros x w Hx. induction Hx as [|w o Hw Ho _ IH]; [done|]. intros _. apply IH. by eapply (inv_tree _ _ _ HI w). }
  eapply H; [apply nearest_t|]. destruct (t_pred v Hv). apply (below_seen D v m _ HI); lia.
Qed.

(** The parent moves up. *)
Lemma nearest_up o : D v = Some o -> above D a o.
Proof.
  intros Ho. pose proof (inv_before _ _ _ HI v o ltac:(lia) Ho) as Hb. pose proof (inv_tree _ _ _ HI v o ltac:(lia) Ho) as [[Hlt _] _].
  inversion Hb as [|? ? _ Hb']; subst; [lia|]. destruct (t_pred v Hv) as [_ Htv].
  apply (before_path D v m o (t v) a HI Hvm Hb'); [lia|apply nearest_t|]. apply (inv_near _ _ _ HI v o a); [lia|done|apply Ha].
Qed.

Notation D' := (upd D v a).

Lemma upd_here : D' v = Some a.
Proof. unfold upd. by rewrite decide_True. Qed.

Lemma upd_other w : w <> v -> D' w = D w.
Proof. intros Hw. unfold upd. by rewrite decide_False. Qed.

Lemma upd_seen w : seen D w -> seen D' w.
Proof. intros [->|Hw]; [by left|]. right. unfold upd. destruct (decide (w = v)); [by eexists|done]. Qed.

Lemma upd_seen_inv w : seen D' w -> w = v \/ seen D w.
Proof. intros [->|Hw]; [right; by left|]. unfold upd in Hw. destruct (decide (w = v)); [by left|]. right. by right. Qed.

(** Below [v] nothing changes. *)
Lemma upd_below x w : (w < v)%nat -> above D x w <-> above D' x w.
Proof.
  intros Hw. split; intros Hx.
  - induction Hx as [|w o H0 Ho _ IH]; [constructor|]. pose proof (inv_tree _ _ _ HI w o H0 Ho). eapply above_step; [done| |apply IH; lia].
    by rewrite upd_other by lia.
  - induction Hx as [|w o H0 Ho _ IH]; [constructor|]. rewrite upd_other in Ho by lia. pose proof (inv_tree _ _ _ HI w o H0 Ho).
    eapply above_step; [done|done|apply IH; lia].
Qed.

(** Ancestors are only lost. *)
Lemma upd_shrink x w : seen D w -> above D' x w -> above D x w.
Proof.
  intros Hs Hx. induction Hx as [|w o Hw Ho Hxo IH]; [constructor|]. destruct (decide (w = v)) as [->|Hne].
  - rewrite upd_here in Ho. injection Ho as <-. destruct Hs as [->|[o Ho]]; [lia|].
    eapply above_step; [lia|done|]. eapply above_trans; [|by apply nearest_up]. apply upd_below; [apply nearest_lt|done].
  - rewrite upd_other in Ho by done. eapply above_step; [done|done|]. apply IH. by eapply (inv_tree _ _ _ HI w).
Qed.

Lemma upd_split x w : above D x w -> above D' x w \/ (above D v w /\ above D' v w /\ above D x v).
Proof.
  intros Hx. induction Hx as [|w o Hw Ho Hx IH]; [left; constructor|]. destruct (decide (w = v)) as [->|Hne].
  - right. split; [constructor|]. split; [constructor|]. by eapply above_step.
  - destruct IH as [IH|(H1 & H2 & H3)].
    + left. eapply above_step; [done| |done]. by rewrite upd_other.
    + right. split; [by eapply above_step|]. split; [|done]. eapply above_step; [done| |done]. by rewrite upd_other.
Qed.

Lemma upd_common w x : common D' w x -> common D w x.
Proof. intros Hc p Hp Hs. apply upd_shrink; [done|]. apply Hc; [done|]. by apply upd_seen. Qed.

Lemma upd_dom_here d : dominates d v -> above D' d v.
Proof.
  intros Hd. destruct (decide (d = v)) as [->|Hne]; [constructor|]. eapply above_step; [lia|apply upd_here|].
  apply upd_below; [apply nearest_lt|]. apply (proj2 Ha). intros p Hp Hs. pose proof (pred_lt v p Hv Hp).
  apply (inv_dom _ _ _ HI); [lia|done|]. by eapply dominates_pred.
Qed.

Lemma upd_inv : Inv D' (S v) (Nat.max m (S v)).
Proof.
  pose proof nearest_lt as Hlt. split.
  - intros w o Hw Ho. destruct (decide (w = v)) as [->|Hne].
    + rewrite upd_here in Ho. injection Ho as <-. split; [lia|]. apply upd_seen, nearest_seen.
    + rewrite upd_other in Ho by done. destruct (inv_tree _ _ _ HI w o Hw Ho) as [? ?]. split; [done|]. by apply upd_seen.
  - intros w Hw. destruct (decide (w = v)) as [->|Hne]; [rewrite upd_here; by eexists|]. rewrite upd_other by done.
    apply (inv_seen _ _ _ HI). lia.
  - intros w o Hw Ho. destruct (decide (w = v)) as [->|Hne].
    + rewrite upd_here in Ho. injection Ho as <-. constructor; [done|]. eapply above_before; [done|apply nearest_t].
    + rewrite upd_other in Ho by done. by apply (inv_before _ _ _ HI).
  - intros w o Hw Ho. destruct (t_pred w ltac:(lia)) as [_ Htw]. destruct (decide (w = v)) as [->|Hne].
    + rewrite upd_here in Ho. injection Ho as <-. apply upd_below; [done|apply nearest_t].
    + rewrite upd_other in Ho by done. apply upd_below; [lia|]. apply (inv_fresh _ _ _ HI); [lia|done].
  - intros w o x Hw Ho Hc. destruct (decide (w = v)) as [->|Hne].
    + rewrite upd_here in Ho. injection Ho as <-. eapply above_le; [exact HI|]. apply (proj2 Ha). by apply upd_common.
    + rewrite upd_other in Ho by done. apply (inv_near _ _ _ HI w); [done|done|]. by apply upd_common.
  - intros w d Hw Hs Hd. destruct (decide (w = v)) as [->|Hne]; [by apply upd_dom_here|].
    destruct (upd_seen_inv w Hs) as [->|Hs0]; [done|]. pose proof (inv_dom _ _ _ HI w d Hw Hs0 Hd) as Hab.
    destruct (upd_split d w Hab) as [?|(H1 & H2 & H3)]; [done|]. destruct (decide (d = v)) as [->|Hdv]; [done|].
    eapply above_trans; [|exact H2]. apply upd_dom_here. by eapply down_chain.
  - intros w o d Hw Ho Hd Hdo Hne. destruct (decide (w = v)) as [->|Hwv].
    + rewrite upd_here in Ho. injection Ho as <-. apply upd_below in Hdo; [|done].
      pose proof (above_le _ _ _ _ _ HI Hdo). destruct (t_pred v Hv) as [Htp Htl].
      apply (down_chain D v m a (t v) d HI nearest_t); [|done|done]. eapply dominates_pred; [done|done|lia|done].
    + rewrite upd_other in Ho by done. apply (inv_down _ _ _ HI w o d); [done|done|done| |done].
      apply upd_shrink; [|done]. by eapply (inv_tree _ _ _ HI w).
Qed.
End Update.

(** ** A pass *)

Lemma visit_inv D v m D' : Inv D v m -> (v <= m)%nat -> (0 < v < n)%nat -> visit D v D' -> Inv D' (S v) (Nat.max m (S v)).
Proof.
  intros HI Hvm Hv Hvis.
  assert (Hkeep : forall o, D v = Some o -> above D o (t v) -> Inv D (S v) (Nat.max m (S v))).
  { intros o Ho Hab. split; try apply HI.
    - intros w Hw. destruct (decide (w = v)) as [->|]; [by eexists|]. apply (inv_seen _ _ _ HI). lia.
    - intros w o' Hw Ho'. destruct (decide (w = v)) as [->|]; [by simplify_eq|]. apply (inv_fresh _ _ _ HI); [lia|done]. }
  destruct Hvis as [[H0 ->]|(a & Ha & [[Ho ->]|[_ ->]])].
  - apply (Hkeep 0%nat); [done|]. destruct (t_pred v Hv). eapply entry_above; [done|]. apply (below_seen D v m _ HI). lia.
  - apply (Hkeep a); [done|]. by eapply nearest_t.
  - by apply upd_inv.
Qed.

(** What a pass can still take away. *)
Definition rank_of (D : parents) (v : nat) : nat := match D v with Some o => o | None => n end.
Definition rank (D : parents) : nat := sum_list (rank_of D <$> seq 1 (n - 1)).

Lemma sum_list_le {A} (f g : A -> nat) l : (forall x, x ∈ l -> (f x <= g x)%nat) -> (sum_list (f <$> l) <= sum_list (g <$> l))%nat.
Proof.
  induction l as [|x l IH]; intros Hl; cbn; [lia|]. pose proof (Hl x ltac:(by left)). assert (sum_list (f <$> l) <= sum_list (g <$> l))%nat; [|lia].
  apply IH. intros y Hy. apply Hl. by right.
Qed.

Lemma sum_list_lt {A} (f g : A -> nat) l y : (forall x, x ∈ l -> (f x <= g x)%nat) -> y ∈ l -> (f y < g y)%nat ->
  (sum_list (f <$> l) < sum_list (g <$> l))%nat.
Proof.
  intros Hl (l1 & l2 & ->)%list_elem_of_split Hy. rewrite !fmap_app, !sum_list_with_app. cbn.
  pose proof (sum_list_le f g l1 ltac:(intros; apply Hl; set_solver)). pose proof (sum_list_le f g l2 ltac:(intros; apply Hl; set_solver)). lia.
Qed.

Lemma visit_rank D v m D' : Inv D v m -> (v <= m)%nat -> (0 < v < n)%nat -> visit D v D' -> D' = D \/ (rank D' < rank D)%nat.
Proof.
  intros HI Hvm Hv [[_ ->]|(a & Ha & [[_ ->]|[Hne ->]])]; [by left..|]. right. unfold rank.
  assert (Hlt : (rank_of (upd D v a) v < rank_of D v)%nat).
  { unfold rank_of. rewrite upd_here. destruct (D v) as [o|] eqn:Ho.
    - pose proof (above_le _ _ _ _ _ HI (nearest_up D v m a HI Hvm Hv Ha o Ho)). assert (a <> o) by congruence. lia.
    - pose proof (nearest_lt D v m a HI Hvm Hv Ha). lia. }
  apply (sum_list_lt _ _ _ v); [|apply elem_of_seq; lia|done]. intros w _. destruct (decide (w = v)) as [->|Hwv]; [lia|].
  unfold rank_of. by rewrite upd_other.
Qed.

Lemma rank_bound D : (forall v o, (0 < v < n)%nat -> D v = Some o -> (o < n)%nat) -> (rank D <= n * n)%nat.
Proof.
  intros HD. unfold rank. transitivity (sum_list ((fun _ => n) <$> seq 1 (n - 1))).
  - apply sum_list_le. intros v Hv. apply elem_of_seq in Hv. unfold rank_of. destruct (D v) as [o|] eqn:E; [|done].
    pose proof (HD v o ltac:(lia) E). lia.
  - assert (H : forall l : list nat, sum_list ((fun _ => n) <$> l) = (length l * n)%nat) by (induction l as [|? l IH]; cbn; [done|]; by rewrite IH).
    rewrite H, length_seq. nia.
Qed.

(** ** The result *)

(** Nothing to change. *)
Definition stable (D : parents) : Prop :=
  forall v, (0 < v < n)%nat -> D v = Some 0%nat \/ exists a, nearest D v a /\ D v = Some a.

Lemma stable_dominates D : Inv D n n -> stable D -> forall v u, (v < n)%nat -> above D u v <-> dominates u v.
Proof.
  intros HI Hst v u Hv. split.
  - intros Hab Hav. revert Hab. induction Hav as [H0|p v Hvn Hp IH Hpv Hne]; intros Hab.
    + destruct (above_inv _ _ _ Hab) as [->|(o & ? & _)]; [done|lia].
    + destruct (above_inv _ _ _ Hab) as [->|(o & _ & Ho & Huo)]; [done|].
      assert (Hpn : (p < n)%nat) by (by eapply pred_lt). apply IH; [done|].
      assert (Hs : seen D p) by (by apply (below_seen D n n p HI)).
      eapply above_trans; [exact Huo|]. destruct (Hst v Hvn) as [E|(a & Ha & E)]; rewrite E in Ho; injection Ho as <-.
      * by eapply entry_above.
      * by apply (proj1 Ha).
  - intros Hd. apply (inv_dom _ _ _ HI); [done| |done]. by apply (below_seen D n n v HI).
Qed.

(** The parent of a node is its immediate dominator. *)
Lemma stable_immediate D v : Inv D n n -> stable D -> (0 < v < n)%nat ->
  exists o, D v = Some o /\ (o < v)%nat /\ dominates o v /\ forall d, dominates d v -> d <> v -> dominates d o.
Proof.
  intros HI Hst Hv. destruct (inv_seen _ _ _ HI v Hv) as [o Ho]. exists o.
  destruct (inv_tree _ _ _ HI v o ltac:(lia) Ho) as [[Hlt _] _]. split; [done|]. split; [done|]. split.
  - apply (stable_dominates D HI Hst v o); [lia|]. eapply above_step; [lia|done|constructor].
  - intros d Hd Hne. apply (stable_dominates D HI Hst) in Hd; [|lia]. destruct (above_inv _ _ _ Hd) as [->|(o' & _ & Ho' & Hdo)]; [done|].
    simplify_eq. apply (stable_dominates D HI Hst); [lia|done].
Qed.

(** ** The start *)

Lemma before_entry v : (v < n)%nat -> before 0 v.
Proof.
  induction (lt_wf v) as [v _ IH]. intros Hv. destruct (decide (v = 0%nat)) as [->|Hne]; [constructor|].
  destruct (t_pred v ltac:(lia)). constructor; [lia|]. apply IH; lia.
Qed.

Lemma start_inv D : (forall v o, D v = Some o -> o = 0%nat /\ (v < n)%nat /\ ((0 < v)%nat -> 0%nat ∈ pred v)) -> Inv D 1 1.
Proof.
  intros HD.
  assert (H0 : forall x, above D x 0 -> x = 0%nat) by (intros x Hx; destruct (above_inv _ _ _ Hx) as [->|(? & ? & _)]; [done|lia]).
  split.
  - intros v o Hv Ho. destruct (HD v o Ho) as (-> & ? & _). split; [lia|by left].
  - lia.
  - intros v o Hv Ho. destruct (HD v o Ho) as (-> & ? & _). by apply before_entry.
  - lia.
  - intros v o x Hv Ho Hc. destruct (HD v o Ho) as (-> & ? & Hp). rewrite (H0 x); [done|]. apply Hc; [by apply Hp|by left].
  - intros w d Hw Hs Hd. destruct (decide (d = w)) as [->|Hne]; [constructor|].
    assert (Hd0 : d = 0%nat).
    { destruct (decide (d = 0%nat)) as [|Hnz]; [done|]. exfalso. apply Hd. destruct (decide (w = 0%nat)) as [->|Hwz]; [by constructor|].
      destruct Hs as [->|[o Ho]]; [by constructor|]. destruct (HD w o Ho) as (-> & _ & Hp).
      eapply avoid_edge; [lia|by constructor|apply Hp; lia|done]. }
    subst d. destruct Hs as [->|[o Ho]]; [done|]. destruct (HD w o Ho) as (-> & _ & _). eapply above_step; [lia|done|constructor].
  - intros w o d Hw Ho Hd Hdo Hne. destruct (HD w o Ho) as (-> & _). by rewrite (H0 d) in Hne.
Qed.

Lemma next_pass D m : Inv D n m -> (n <= m)%nat -> Inv D 1 n.
Proof. intros HI Hm. split; try apply HI; [|lia]. intros v Hv. apply (inv_seen _ _ _ HI). lia. Qed.

End Dominators.
