(* ===== verification/BlockEdges.v ===== *)
(** Sequences of edge operations of [src/src/block.rs], the consistency check
    [block_check_edges] as a decision of the invariant, and the removal of
    duplicate edges ([eliminate_dups], which models
    [block_eliminate_in_dups] and [block_eliminate_out_dups]). *)
From stdpp Require Import base list gmap numbers strings.
From Stdlib Require Import ZArith Lia.
From S2P Require Import Prelude Bits Arena Block BlockGraph.

(** ** Definitions *)

(** A call of one of the operations on edges. *)
Inductive edge_call : Type :=
  | C_add_edge (begin end_ : nat)
  | C_remove_at (s : side) (bl slot : nat)
  | C_replace_at (s : side) (bl slot source : nat)
  | C_swap (bl : nat)
  | C_set_flag (bl slot : nat) (lab : Z)
  | C_clear_flag (bl slot : nat) (lab : Z)
  | C_remove_edge (begin end_ : nat)
  | C_eliminate_dups (s : side) (bl dup : nat).

Definition call_edge_op (B : Blocks) (c : edge_call) : outcome Blocks :=
  match c with
  | C_add_edge begin end_ => block_add_edge B begin end_
  | C_remove_at s bl slot => remove_edge_at s B bl (Z.of_nat slot)
  | C_replace_at s bl slot source => replace_edge_at s B bl (Z.of_nat slot) source
  | C_swap bl => block_swap_edges B bl
  | C_set_flag bl slot lab => block_set_out_edge_flag B bl (Z.of_nat slot) lab
  | C_clear_flag bl slot lab => block_clear_out_edge_flag B bl (Z.of_nat slot) lab
  | C_remove_edge begin end_ => block_remove_edge B begin end_
  | C_eliminate_dups s bl dup => eliminate_dups s B bl dup
  end.

(** What the caller of an operation has to see to: the edges it names exist, and
    no list grows past the range of its positions. *)
Definition edge_call_ok (B : Blocks) (c : edge_call) : Prop :=
  match c with
  | C_add_edge begin end_ => room B OutOf begin /\ room B Into end_
  | C_remove_at s bl slot => exists e, edge_at B s bl slot e
  | C_replace_at s bl slot source => (exists e, edge_at B s bl slot e) /\ room B (other s) source
  | C_swap bl => exists e, edge_at B OutOf bl 1 e
  | C_set_flag bl slot _ | C_clear_flag bl slot _ => exists e, edge_at B OutOf bl slot e
  | C_remove_edge begin end_ => exists k e, edge_at B Into end_ k e /\ point e = begin
  | C_eliminate_dups s bl dup => is_Some (try_get B bl)
  end.

Definition call_edge_ops (B : Blocks) (cs : list edge_call) : outcome Blocks :=
  foldl (fun r c => let! B := r in call_edge_op B c) (Ok B) cs.

(** Every call is made as it should be, in the state the calls before it leave. *)
Inductive edge_calls_ok : Blocks -> list edge_call -> Prop :=
  | edge_calls_done B : edge_calls_ok B []
  | edge_calls_next B c cs : edge_call_ok B c -> (forall B', call_edge_op B c = Ok B' -> edge_calls_ok B' cs) -> edge_calls_ok B (c :: cs).

(** ** Duplicates *)

(** Without the later mentions of [dup]. *)
Fixpoint keep_first (dup : nat) (found : bool) (l : list nat) : list nat :=
  match l with
  | [] => []
  | x :: l => if decide (x = dup) then if found then keep_first dup found l else x :: keep_first dup true l
              else x :: keep_first dup found l
  end.

Lemma points_live B s p b : try_get B p = Some b -> points B s p = Some (point <$> edges s b).
Proof. intros Hb. unfold points. rewrite (view_get _ _ _ _ Hb). cbn. by rewrite <- list_fmap_compose. Qed.

Lemma points_view B B' s p : view B' s p = view B s p -> points B' s p = points B s p.
Proof. unfold points. by intros ->. Qed.

Lemma take_delete_last {A} (l : list A) n : take n (delete n l) = take n l.
Proof. revert n. induction l as [|x l IH]; intros [|n]; [done..|]. cbn. by rewrite IH. Qed.

Lemma drop_delete_last {A} (l : list A) n : drop n (delete n l) = drop (S n) l.
Proof. revert n. induction l as [|x l IH]; intros [|n]; [done..|]. cbn [delete list_delete drop]. apply IH. Qed.

(** The lists away from the duplicates stay, and so does what [dup] lists of
    other blocks. *)
Definition apart (s : side) (bl dup : nat) (B B' : Blocks) : Prop :=
  (forall s' p, (s', p) <> (s, bl) -> (s', p) <> (other s, dup) -> view B' s' p = view B s' p) /\
  filter (fun p => p <> bl) <$> points B' (other s) dup = filter (fun p => p <> bl) <$> points B (other s) dup.

#[global] Instance apart_preorder s bl dup : PreOrder (apart s bl dup).
Proof.
  split; [by intros B|]. intros B1 B2 B3 [H1 H1'] [H2 H2']. split; [|congruence]. intros s' p Hs Hp. by rewrite H2, H1.
Qed.

Lemma view_label B s p n f s' q : (s', q) <> (s, p) -> view (map_edges (at_list p s (alter (with_label f) n)) B) s' q = view B s' q.
Proof. intros Hne. rewrite view_map. unfold at_list, view. destruct (try_get B q); [|done]. cbn. by rewrite decide_False by naive_solver. Qed.

Lemma points_label B s p n f s' q : points (map_edges (at_list p s (alter (with_label f) n)) B) s' q = points B s' q.
Proof.
  unfold points. rewrite view_map. unfold view, at_list. destruct (try_get B q) as [b|]; [|done]. cbn. f_equal. rewrite <- !list_fmap_compose.
  destruct (decide _) as [[-> ->]|]; [|done]. apply list_eq. intros k. rewrite !list_lookup_fmap, list_lookup_alter.
  destruct (decide (n = k)) as [->|]; [|done]. by destruct (edges s b !! k).
Qed.

(** The round that merges the duplicate at [k] into the edge at [i]. *)
Lemma merge_dup_ok s bl dup B l i k e : edges_ok B -> points B s bl = Some l -> (i < k)%nat -> edge_at B s bl k e -> point e = dup ->
  exists B', eliminate_dups_step s bl dup (B, Z.of_nat i, Z.of_nat k) = Ok (inl (B', Z.of_nat i, Z.of_nat k)) /\
    edges_ok B' /\ same_rest B B' /\ points B' s bl = Some (delete k l) /\ apart s bl dup B B'.
Proof.
  intros Hok Hl Hik He Hp. pose proof (edge_at_small _ _ _ _ _ (proj1 Hok) He) as Hk. destruct He as (b & Hb & He).
  pose proof (lookup_lt_Some _ _ _ He) as Hlt. destruct (lookup_lt_is_Some_2 (edges s b) i ltac:(lia)) as [ei Hi].
  unfold eliminate_dups_step. rewrite get_try, Hb. cbn [obind]. destruct (Z.ltb_spec (Z.of_nat k) (Z.of_nat (length (edges s b)))); [|lia].
  rewrite (get_edge_eq B s bl k e) by (done || by exists b). cbn [obind]. rewrite bool_decide_true by done.
  destruct (Z.eqb_spec (Z.of_nat i) (-1)); [lia|].
  rewrite (edit_edge_eq B s bl i ei) by ((by exists b) || (rewrite u64_nat; lia)). cbn [obind].
  set (f := fun x => Z.lor x (label e)). set (B1 := map_edges (at_list bl s (alter (with_label f) i)) B).
  assert (Hok1 : edges_ok B1) by (by apply edges_ok_alter_label).
  assert (He1 : edge_at B1 s bl k e).
  { apply edge_at_alter. exists e. split; [by exists b|]. by rewrite decide_False by (intros (_ & _ & ->); lia). }
  rewrite (get_edge_eq B1 s bl k e) by done. cbn [obind]. rewrite i32_small by lia.
  destruct (remove_edge_ok B1 s bl k e Hok1 He1) as (B' & j & E & Hok' & Hs' & Hj & Hv). unfold remove_edge_at in E.
  rewrite (get_edge_eq B1 s bl k e) in E by (auto using u64_nat). cbn [obind] in E. rewrite Hp in E, Hv.
  destruct (half_delete_edge s B1 bl (Z.of_nat k)) as [B2| | |] eqn:E2; try done. cbn [obind] in E |- *. rewrite E. cbn [obind].
  pose proof (other_ne s) as Hos.
  exists B'. split; [done|]. split; [done|]. split; [transitivity B1; [apply same_rest_map|done]|]. split; [|split].
  - unfold points. rewrite Hv, on_list_side, on_list_here by done. change (option_map _ _) with ((delete k : list (Z * nat) -> _) <$> view B1 s bl).
    assert (Hl1 : points B1 s bl = Some l) by (unfold B1; by rewrite points_label). unfold points in Hl1.
    destruct (view B1 s bl) as [v|]; [|done]. cbn in *. injection Hl1 as <-. by rewrite fmap_delete.
  - intros s' p H1 H2. rewrite Hv. unfold on_list. rewrite !decide_False by naive_solver. by apply view_label.
  - assert (Hl1 : points B1 (other s) dup = points B (other s) dup) by (apply points_label). unfold points in *.
    rewrite Hv, on_list_here, on_list_side by done. rewrite <- Hl1.
    destruct (proj2 Hok1 _ _ _ _ He1) as (j' & e' & Hj' & He' & Hpe & _). assert (j' = j) as -> by lia. rewrite Hp in He'.
    destruct (proj2 (view_edge B1 (other s) dup j (ends e'))) as (v & Hve & Hx); [by exists e'|]. rewrite Hve. cbn.
    f_equal. rewrite fmap_delete. apply (filter_delete _ _ _ bl); [|by intros Hn].
    rewrite list_lookup_fmap, Hx. cbn. by rewrite Hpe.
Qed.

Lemma eliminate_loop s bl dup fuel B k (found : bool) indval l : edges_ok B -> points B s bl = Some l -> (k <= length l)%nat ->
  (length l < fuel + k)%nat -> (if found then exists i, indval = Z.of_nat i /\ (i < k)%nat else indval = -1) ->
  exists B', loop fuel (eliminate_dups_step s bl dup) (B, indval, Z.of_nat k) = Ok B' /\ edges_ok B' /\ same_rest B B' /\
    points B' s bl = Some (take k l ++ keep_first dup found (drop k l)) /\ apart s bl dup B B'.
Proof.
  revert B k found indval l. induction fuel as [|fuel IH]; intros B k found indval l Hok Hl Hk Hf Hi; [lia|]. cbn [loop].
  assert (Hb : exists b, try_get B bl = Some b /\ point <$> edges s b = l).
  { unfold points, view in Hl. destruct (try_get B bl) as [b|]; [|done]. exists b. split; [done|]. cbn in Hl. injection Hl as <-.
    by rewrite <- list_fmap_compose. }
  destruct Hb as (b & Hb & Hpb). assert (Hlen : length (edges s b) = length l) by (by rewrite <- Hpb, length_fmap).
  pose proof (proj1 Hok bl b s Hb) as Hsm.
  destruct (decide (k = length l)) as [->|Hne].
  { unfold eliminate_dups_step at 1. rewrite get_try, Hb. cbn [obind]. destruct (Z.ltb_spec (Z.of_nat (length l)) (Z.of_nat (length (edges s b)))); [lia|]. cbn [obind].
    exists B. split; [done|]. split; [done|]. split; [done|]. split; [|done]. rewrite drop_all, firstn_all. cbn. by rewrite app_nil_r. }
  destruct (lookup_lt_is_Some_2 (edges s b) k ltac:(lia)) as [e He]. assert (Hat : edge_at B s bl k e) by (by exists b).
  assert (Hlk : l !! k = Some (point e)) by (by rewrite <- Hpb, list_lookup_fmap, He).
  rewrite (drop_S _ _ _ Hlk). cbn [keep_first].
  assert (Hnext : forall ind f, (if f : bool then exists i, ind = Z.of_nat i /\ (i < S k)%nat else ind = -1) ->
    exists B', loop fuel (eliminate_dups_step s bl dup) (B, ind, Z.of_nat k + 1) = Ok B' /\ edges_ok B' /\ same_rest B B' /\
    points B' s bl = Some (take k l ++ point e :: keep_first dup f (drop (S k) l)) /\ apart s bl dup B B').
  { intros ind f Hind. destruct (IH B (S k) f ind l) as (B' & E & H1 & H2 & H3 & H4); [done|done|lia|lia|done|].
    exists B'. replace (Z.of_nat k + 1) with (Z.of_nat (S k)) by lia. split; [done|]. split; [done|]. split; [done|]. split; [|done].
    rewrite H3. rewrite (take_S_r _ _ _ Hlk). by rewrite <- app_assoc. }
  destruct (decide (point e = dup)) as [Hd|Hd].
  - destruct found.
    + destruct Hi as (i & -> & Hik). destruct (merge_dup_ok s bl dup B l i k e Hok Hl Hik Hat Hd) as (B1 & E1 & Hok1 & Hs1 & Hl1 & Ha1).
      rewrite E1. cbn [obind]. destruct (IH B1 k true (Z.of_nat i) (delete k l)) as (B' & E & H1 & H2 & H3 & H4); [done|done|..].
      * rewrite length_delete by (by eexists). lia.
      * rewrite length_delete by (by eexists). lia.
      * by exists i.
      * exists B'. split; [done|]. split; [done|]. split; [by transitivity B1|]. split; [by rewrite H3, take_delete_last, drop_delete_last|by transitivity B1].
    + unfold eliminate_dups_step at 1. rewrite get_try, Hb. cbn [obind]. destruct (Z.ltb_spec (Z.of_nat k) (Z.of_nat (length (edges s b)))); [|lia].
      rewrite (get_edge_eq B s bl k e) by done. cbn [obind]. rewrite bool_decide_true by done. rewrite Hi. cbn [Z.eqb]. cbn [obind].
      rewrite i32_small by lia. apply Hnext. exists k. split; [done|lia].
  - unfold eliminate_dups_step at 1. rewrite get_try, Hb. cbn [obind]. destruct (Z.ltb_spec (Z.of_nat k) (Z.of_nat (length (edges s b)))); [|lia].
    rewrite (get_edge_eq B s bl k e) by done. cbn [obind]. rewrite bool_decide_false by done. cbn [obind]. apply Hnext.
    destruct found; [|done]. destruct Hi as (i & -> & ?). exists i. split; [done|lia].
Qed.

Lemma eliminate_dups_ok s bl dup B b : edges_ok B -> try_get B bl = Some b ->
  exists B', eliminate_dups s B bl dup = Ok B' /\ edges_ok B' /\ same_rest B B' /\
    points B' s bl = Some (keep_first dup false (point <$> edges s b)) /\ apart s bl dup B B'.
Proof.
  intros Hok Hb. unfold eliminate_dups. rewrite get_try, Hb. cbn [obind]. change 0 with (Z.of_nat 0).
  pose proof (eliminate_loop s bl dup (S (length (edges s b))) B 0 false (-1) (point <$> edges s b)) as H. rewrite drop_0 in H.
  apply H; [done|by apply points_live|lia|rewrite length_fmap; lia|done].
Qed.

(** ** Properties *)

Lemma call_edge_op_ok B c : edges_ok B -> edge_call_ok B c -> exists B', call_edge_op B c = Ok B' /\ edges_ok B' /\
  forall p, is_Some (try_get B' p) <-> is_Some (try_get B p).
Proof.
  assert (Hlive : forall B', same_rest B B' -> forall p, is_Some (try_get B' p) <-> is_Some (try_get B p)) by (intros B' H p; by apply same_rest_live).
  intros Hok Hc. destruct c; cbn in *.
  - destruct Hc as [Hb He]. destruct (add_edge_ok B end_ begin 0 Hok He Hb) as (B' & E & ? & ? & _). eauto 6.
  - destruct Hc as [e He]. destruct (remove_edge_ok B s bl slot e Hok He) as (B' & j & E & ? & ? & _). eauto 6.
  - destruct Hc as [[e He] Hr]. destruct (replace_edge_ok B s bl slot e source Hok He Hr) as (B' & j & E & ? & ? & _). eauto 6.
  - destruct Hc as (y & b & Hb & Hy). cbn in Hy. destruct (outofthis b) as [|x [|y' l]] eqn:El; try done.
    destruct (swap_edges_ok B bl b x y' l Hok Hb El) as (B' & E & Hok' & Hv). exists B'. split; [done|]. split; [done|]. intros p.
    rewrite <- !(view_live _ OutOf), Hv. unfold on_list. destruct (decide _); [|done]. by rewrite fmap_is_Some.
  - destruct Hc as [e He]. destruct (relabel_ok (fun l => Z.lor l lab) B bl slot e Hok He) as (B' & j & E & ? & ? & _). eauto 6.
  - destruct Hc as [e He]. destruct (relabel_ok (fun l => without l lab) B bl slot e Hok He) as (B' & j & E & ? & ? & _). eauto 6.
  - destruct Hc as (k & e & He & Hp). destruct (block_remove_edge_ok B begin end_ k e Hok He Hp) as (B' & n & j & x & y & E & ? & ? & _). eauto 6.
  - destruct Hc as [b Hb]. destruct (eliminate_dups_ok s bl dup B b Hok Hb) as (B' & E & ? & ? & _). eauto 6.
Qed.

(** The consistency check of the blocks decides the invariant of the edges:
    on an arena whose edges name live blocks, [block_check_edges] accepts every
    block exactly when every edge has its twin, in the other block and on the
    other side, and the two name each other. *)
Theorem check_edges_exact B : well_typed B ->
  (forall p, is_Some (try_get B p) -> block_check_edges B p = Ok tt) <-> edges_ok B.
Proof.
  intros Hty. split.
  - intros H. split; [apply Hty|]. intros s p k e He. assert (Hb : exists b, try_get B p = Some b) by (destruct He as (b & Hb & _); by exists b).
    destruct Hb as [b Hb]. by apply (proj1 (check_block_ok B p b Hty Hb) (H p ltac:(by eexists))).
  - intros Hok p [b Hb]. apply (check_block_ok B p b Hty Hb). intros s k e. apply Hok.
Qed.

(** C28: any sequence of additions, removals, redirections, swaps, flag changes
    and duplicate removals on the edges, each naming edges that exist, runs to
    its end and keeps the two ends of every edge in step (each names the block
    and the place of the other; labels are not compared); afterwards the check
    of the source accepts every block. *)
Theorem edge_calls_keep_twins B cs : edges_ok B -> edge_calls_ok B cs ->
  exists B', call_edge_ops B cs = Ok B' /\ edges_ok B' /\
    (forall p, is_Some (try_get B' p) <-> is_Some (try_get B p)) /\
    forall p, is_Some (try_get B' p) -> block_check_edges B' p = Ok tt.
Proof.
  intros Hok Hcs. revert Hok. unfold call_edge_ops. induction Hcs as [B|B c cs Hc _ IH]; intros Hok; cbn [foldl].
  - exists B. split; [done|]. split; [done|]. split; [done|]. intros p [b Hb].
    apply (check_block_ok B p b (edges_ok_typed B Hok) Hb). intros s k e. apply Hok.
  - destruct (call_edge_op_ok B c Hok Hc) as (B1 & E & Hok1 & Hl1). cbn [obind]. rewrite E.
    destruct (IH B1 E Hok1) as (B' & E' & Hok' & Hl' & Hchk). exists B'. split; [done|]. split; [done|]. split; [|done].
    intros p. by rewrite Hl', Hl1.
Qed.

Lemma check_edges_witness : (forall p, is_Some (try_get diamond p) -> block_check_edges diamond p = Ok tt) <-> edges_ok diamond.
Proof. apply (check_edges_exact diamond). apply edges_ok_typed, checked_arena_ok. reflexivity. Defined.

(** A second edge from block 2 to block 4, merged into the first; then the ways
    out of block 1 change places and block 3 is led to block 5. *)
Definition sample_calls : list edge_call :=
  [C_add_edge 2 4; C_set_flag 2 1 F_GOTO_EDGE; C_eliminate_dups Into 4 2; C_swap 1; C_replace_at OutOf 3 0 5; C_remove_at Into 5 0].

Lemma edge_calls_witness : exists B', call_edge_ops diamond sample_calls = Ok B' /\ edges_ok B' /\
  (forall p, is_Some (try_get B' p) <-> is_Some (try_get diamond p)) /\
  forall p, is_Some (try_get B' p) -> block_check_edges B' p = Ok tt.
Proof.
  apply (edge_calls_keep_twins diamond sample_calls); [by apply checked_arena_ok|]. unfold sample_calls.
  repeat (apply edge_calls_next; [repeat split; eexists; try split; reflexivity || (eexists; split; reflexivity)|
    let E := fresh "E" in intros B' E; vm_compute in E; injection E as <-]). apply edge_calls_done.
Defined.
