(* ===== verification/BlockDom.v ===== *)
(** The dominator tree of [src/src/block.rs]: [block_calc_forward_dominator], which
    finds the immediate dominator of every block of a graph, and the walks up
    the tree it leaves behind.  The blocks come numbered in reverse post order;
    the search works on those numbers, and [Dominators] shows why it is right.

    [finger]s are positions in the post order, so a smaller finger is a block
    with a larger number. *)
From stdpp Require Import base list gmap numbers strings.
From Stdlib Require Import ZArith Lia.
From S2P Require Import Prelude Bits Arena Block BlockGraph Dominators.

(** ** Definitions *)

Definition block_create_virtual_root (B : Blocks) (rootlist : list nat) : outcome (Blocks * nat) :=
  let! (B, newroot) := alloc B (block_new K_Plain) in
  let! B := foldl (fun r root => let! B := r in block_add_in_edge B root newroot 0) (Ok B) rootlist in
  Ok (B, newroot).

(** The loop that forgets the old dominators and turns the list round. *)
Definition reset_step (l : list nat) (numnodes : Z) (slot : nat) (st : Blocks * list nat) : outcome (Blocks * list nat) :=
  let '(B, postorder) := st in
  let! child := index l slot in
  let! B := edit B child (with_immed_dom None) in
  let! postorder := store postorder (Z.to_nat (u64 (i32 (numnodes - i32 (Z.of_nat slot))))) child in
  Ok (B, postorder).

(** The first predecessor that has a dominator; the variable keeps its last value
    otherwise. *)
Definition first_step (B : Blocks) (b : FlowBlock) (st : Z * option nat) : outcome (Z * option nat + Z * option nat) :=
  let '(slot, new_idom) := st in
  if slot <? size_edges Into b then
    let! p := get_neighbour Into b slot in
    let! c := get B p in
    if bool_decide (is_Some (immed_dom c)) then Ok (inr (slot, Some p)) else Ok (inl (i32 (slot + 1), Some p))
  else Ok (inr (slot, new_idom)).

(** [while finger < bound { finger = numnodes - index of the dominator }]. *)
Definition climb_step (B : Blocks) (postorder : list nat) (numnodes bound finger : Z) : outcome (Z + Z) :=
  if finger <? bound then
    let! p := index postorder (Z.to_nat (u64 finger)) in
    let! b := get B p in
    match immed_dom b with
    | None => Panic
    | Some dom => let! d := get B dom in Ok (inl (i32 (numnodes - block_index d)))
    end
  else Ok (inr finger).

(** A finger moves up at every step, and there are as many as blocks. *)
Definition climb (B : Blocks) (postorder : list nat) (numnodes bound finger : Z) : outcome Z :=
  loop (S (length postorder)) (climb_step B postorder numnodes bound) finger.

Definition intersect_step (B : Blocks) (postorder : list nat) (numnodes : Z) (st : Z * Z) : outcome (Z * Z + Z) :=
  let '(finger1, finger2) := st in
  if finger1 =? finger2 then Ok (inr finger1) else
  let! finger1 := climb B postorder numnodes finger2 finger1 in
  let! finger2 := climb B postorder numnodes finger1 finger2 in
  Ok (inl (finger1, finger2)).

Definition intersect_fingers (B : Blocks) (postorder : list nat) (numnodes finger1 finger2 : Z) : outcome Z :=
  loop (S (2 * length postorder)) (intersect_step B postorder numnodes) (finger1, finger2).

(** One of the other predecessors. *)
Definition merge_step (B : Blocks) (postorder : list nat) (numnodes : Z) (b : FlowBlock) (st : Z * option nat)
    : outcome (Z * option nat + option nat) :=
  let '(slot, new_idom) := st in
  if slot <? size_edges Into b then
    let! rho := get_neighbour Into b slot in
    let! r := get B rho in
    if bool_decide (is_Some (immed_dom r)) then
      match new_idom with
      | None => Panic
      | Some candidate =>
          let! c := get B candidate in
          let! finger := intersect_fingers B postorder numnodes (i32 (numnodes - block_index r)) (i32 (numnodes - block_index c)) in
          let! p := index postorder (Z.to_nat (u64 finger)) in
          Ok (inl (i32 (slot + 1), Some p))
      end
    else Ok (inl (i32 (slot + 1), new_idom))
  else Ok (inr new_idom).

(** The body of the loop over the post order; the state is the arena, [new_idom]
    and [changed]. *)
Definition dom_visit (postorder : list nat) (numnodes : Z) (rootnode : nat) (position : nat) (st : Blocks * option nat * bool)
    : outcome (Blocks * option nat * bool) :=
  let '(B, new_idom, changed) := st in
  let! cur := index postorder position in
  let! b := get B cur in
  if bool_decide (immed_dom b = Some rootnode) then Ok (B, new_idom, changed) else
  let fuel := S (length (intothis b)) in
  let! (slot, new_idom) := loop fuel (first_step B b) (0, new_idom) in
  let! new_idom := loop fuel (merge_step B postorder numnodes b) (i32 (slot + 1), new_idom) in
  if bool_decide (immed_dom b = new_idom) then Ok (B, new_idom, changed)
  else let! B := edit B cur (with_immed_dom new_idom) in Ok (B, new_idom, true).

(** [while changed { ... }], whose first round always runs. *)
Definition dom_pass (postorder : list nat) (numnodes : Z) (rootnode : nat) (st : Blocks * option nat)
    : outcome (Blocks * option nat + Blocks) :=
  let '(B, new_idom) := st in
  let! r := for_down (length postorder - 1) 0 (dom_visit postorder numnodes rootnode) (B, new_idom, false) in
  let '(B, new_idom, changed) := r : Blocks * option nat * bool in
  if changed : bool then Ok (inl (B, new_idom)) else Ok (inr B).

(** [while self.blocks\[root\].size_out() > 0 { ... }]. *)
Definition unroot_step (root : nat) (B : Blocks) : outcome (Blocks + Blocks) :=
  let! b := get B root in
  if size_edges OutOf b >? 0 then
    let! B := remove_edge_at OutOf B root (i32 (size_edges OutOf b - 1)) in Ok (inl B)
  else Ok (inr B).

Definition remove_virtual_root (B : Blocks) (postorder : list nat) (nlist root : nat) : outcome Blocks :=
  let! B := for_up nlist 0 (fun slot (B : Blocks) =>
    let! p := index postorder slot in
    let! b := get B p in
    if bool_decide (immed_dom b = Some root) then edit B p (with_immed_dom None) else Ok B) B in
  let! b := get B root in
  let! B := loop (S (length (outofthis b))) (unroot_step root) B in
  let! (B, _) := arena_remove B root in
  Ok B.

(** Each pass that changes something lowers a sum of numbers below the length of
    the list, one per block, which bounds the passes. *)
Definition block_calc_forward_dominator (B : Blocks) (graph : nat) (rootlist : list nat) : outcome Blocks :=
  let! g := get B graph in
  let l := block_list g in
  match l with
  | [] => Ok B
  | first :: _ =>
      let numnodes := i32 (i32 (Z.of_nat (length l)) - 1) in
      let! (B, postorder) := for_up (length l) 0 (reset_step l numnodes) (B, replicate (length l) first) in
      let! (B, postorder, virtualroot) :=
        if decide (1 < length rootlist)%nat then
          let! (B, root) := block_create_virtual_root B rootlist in Ok (B, postorder ++ [root], Some root)
        else Ok (B, postorder, None) in
      match list.last postorder with
      | None => Panic
      | Some source =>
          let! s := get B source in
          let! (B, postorder, virtualroot, source) :=
            if negb (size_edges Into s =? 0) then
              if bool_decide (rootlist = [source]) then
                let! (B, root) := block_create_virtual_root B rootlist in Ok (B, postorder ++ [root], Some root, root)
              else Err (Lowlevel "Problems finding root node of graph")
            else Ok (B, postorder, virtualroot, source) in
          let! B := edit B source (with_immed_dom (Some source)) in
          let! s := get B source in
          let! B := for_up (Z.to_nat (size_edges OutOf s)) 0 (fun slot (B : Blocks) =>
            let! s := get B source in
            let! out := get_neighbour OutOf s (Z.of_nat slot) in
            edit B out (with_immed_dom (Some source))) B in
          match list.last postorder with
          | None => Panic
          | Some rootnode =>
              let! B := loop (S (S (length l * length l))) (dom_pass postorder numnodes rootnode) (B, None) in
              match virtualroot with
              | Some root => remove_virtual_root B postorder (length l) root
              | None => edit B rootnode (with_immed_dom None)
              end
          end
      end
  end.

(** ** The search on the numbers of the blocks *)

Section Search.
Context (B0 : Blocks) (ls : list nat) (rootnode : nat) (extra : list nat).
Notation n := (length ls).
Notation postorder := (reverse ls ++ extra).
Notation numnodes := (Z.of_nat n - 1).

Hypothesis Hnd : NoDup ls.
Hypothesis Hblk : forall i p, ls !! i = Some p -> exists b, try_get B0 p = Some b /\ block_index b = Z.of_nat i.
Hypothesis Hsmall : small B0.
Hypothesis Hn : Z.of_nat n < 2 ^ 31.

(** The number of a block of the list. *)
Definition number (p : nat) : option nat := fst <$> list_find (eq p) ls.

Lemma number_spec p i : number p = Some i <-> ls !! i = Some p.
Proof.
  unfold number. split.
  - destruct (list_find (eq p) ls) as [[j q]|] eqn:E; [|done]. intros [= <-]. apply list_find_Some in E as (E & <- & _). done.
  - intros Hi. destruct (list_find_elem_of (eq p) ls p) as [[j q] E]; [by eapply list_elem_of_lookup_2|done|]. rewrite E. cbn. f_equal.
    apply list_find_Some in E as (E & <- & _). by eapply NoDup_lookup.
Qed.

(** The block whose number is the parent of [i]. *)
Definition dom_val (D : parents) (i : nat) : option nat := if decide (i = 0%nat) then Some rootnode else D i ≫= (ls !!.).

(** The arena with the parents of [D]. *)
Definition set_doms (D : parents) : Blocks :=
  map_blocks (fun p b => match number p with Some i => with_immed_dom (dom_val D i) b | None => b end) B0.

Definition ins (v : nat) : list nat :=
  match ls !! v ≫= try_get B0 with Some b => point <$> intothis b | None => [] end.

(** The predecessors by number. *)
Definition pred_of (v : nat) : list nat := omap number (ins v).

Lemma get_doms D i p b : ls !! i = Some p -> try_get B0 p = Some b ->
  get (set_doms D) p = Ok (with_immed_dom (dom_val D i) b).
Proof.
  intros Hi Hb. rewrite get_try. unfold set_doms. rewrite try_get_map, Hb. cbn. by rewrite (proj2 (number_spec p i) Hi).
Qed.

Lemma edit_doms D v p a : (0 < v)%nat -> ls !! v = Some p -> (a < n)%nat ->
  edit (set_doms D) p (with_immed_dom (ls !! a)) = Ok (set_doms (upd D v a)).
Proof.
  intros Hv Hp Ha. destruct (Hblk v p Hp) as (b & Hb & _). unfold set_doms.
  rewrite (edit_eq _ _ _ (with_immed_dom (dom_val D v) b)) by (by rewrite try_get_map, Hb, (proj2 (number_spec p v) Hp)).
  f_equal. rewrite map_blocks_comp. apply map_blocks_ext. intros q c Hc. destruct (decide (q = p)) as [->|Hq].
  - rewrite (proj2 (number_spec p v) Hp). unfold dom_val, upd. rewrite !(decide_False (P := v = 0%nat)) by lia.
    by rewrite !(decide_True (P := v = v)).
  - destruct (number q) as [i|] eqn:Eq; [|done]. unfold dom_val, upd. destruct (decide (i = 0%nat)); [done|].
    rewrite decide_False; [done|]. intros ->. apply number_spec in Eq. naive_solver.
Qed.

Lemma postorder_lookup a p : ls !! a = Some p -> postorder !! (n - 1 - a)%nat = Some p.
Proof.
  intros Ha. pose proof (lookup_lt_Some _ _ _ Ha). rewrite lookup_app_l by (rewrite length_reverse; lia).
  rewrite <- Ha. rewrite reverse_lookup by lia. f_equal. lia.
Qed.

Definition finger (a : nat) : Z := numnodes - Z.of_nat a.

Lemma finger_index a p : ls !! a = Some p -> index postorder (Z.to_nat (u64 (finger a))) = Ok p.
Proof.
  intros Ha. pose proof (lookup_lt_Some _ _ _ Ha). unfold finger. rewrite u64_small by lia.
  replace (Z.to_nat (numnodes - Z.of_nat a)) with (n - 1 - a)%nat by lia. by apply index_ok, postorder_lookup.
Qed.

Lemma finger_of a p b : ls !! a = Some p -> block_index b = Z.of_nat a -> i32 (numnodes - block_index b) = finger a.
Proof. intros Ha Hb. pose proof (lookup_lt_Some _ _ _ Ha). unfold finger. rewrite Hb, i32_small by lia. done. Qed.

(** Predecessors of all blocks but the first are in the list, and one of them
    comes before. *)
Hypothesis Hins : forall v p, (0 < v)%nat -> p ∈ ins v -> p ∈ ls.
Hypothesis Hearly : forall v, (0 < v < n)%nat -> exists q, q ∈ pred_of v /\ (q < v)%nat.

Definition early (v : nat) : nat :=
  match list_find (fun q => q < v)%nat (pred_of v) with Some (_, q) => q | None => 0%nat end.

Lemma early_spec v : (0 < v < n)%nat -> early v ∈ pred_of v /\ (early v < v)%nat.
Proof.
  intros Hv. destruct (Hearly v Hv) as (q & Hq & Hlt). unfold early.
  destruct (list_find_elem_of (fun q => q < v)%nat (pred_of v) q Hq Hlt) as [[i r] E]. rewrite E.
  apply list_find_Some in E as (E & Hr & _). split; [by eapply list_elem_of_lookup_2|done].
Qed.

Lemma pred_of_lt v p : p ∈ pred_of v -> (p < n)%nat.
Proof. intros (q & _ & Hq)%list_elem_of_omap. apply number_spec in Hq. by eapply lookup_lt_Some. Qed.

Notation Inv := (Inv n pred_of early).
Notation above := Dominators.above.

Lemma dom_val_seen D c m i : Inv D c m -> (i < n)%nat -> is_Some (dom_val D i) <-> seen D i.
Proof.
  intros HI Hi. unfold dom_val, seen. destruct (decide (i = 0%nat)) as [->|Hne].
  - split; [by left|by eexists].
  - split.
    + intros [x Hx]. right. by destruct (D i).
    + intros [?|[o Ho]]; [done|]. rewrite Ho. cbn. apply lookup_lt_is_Some.
      destruct (inv_tree _ _ _ _ _ _ HI i o ltac:(lia) Ho) as [[? ?] _]. lia.
Qed.

Section Climb.
Context (D : parents) (c m : nat).
Hypothesis HI : Inv D c m.

Lemma number_lookup i : (i < n)%nat -> exists p b, ls !! i = Some p /\ try_get B0 p = Some b /\ block_index b = Z.of_nat i.
Proof.
  intros Hi. destruct (lookup_lt_is_Some_2 ls i Hi) as [p Hp]. destruct (Hblk i p Hp) as (b & Hb & Hx). eauto.
Qed.

(** Following the parents of [a] until they are no longer behind [b]. *)
Lemma climb_loop fuel a b : (a < n)%nat -> (b < n)%nat -> seen D a -> (a < fuel)%nat ->
  exists a', loop fuel (climb_step (set_doms D) postorder numnodes (finger b)) (finger a) = Ok (finger a') /\
    (a' <= b)%nat /\ (a' <= a)%nat /\ (a <= b -> a' = a)%nat /\ seen D a' /\ above D a' a /\
    forall x, (x <= b)%nat -> above D x a -> above D x a'.
Proof.
  revert a. induction fuel as [|fuel IH]; intros a Ha Hb Hs Hf; [lia|]. cbn [loop]. unfold climb_step at 1.
  destruct (Z.ltb_spec (finger a) (finger b)) as [Hlt|Hge]; unfold finger in *.
  - destruct (number_lookup a Ha) as (p & bp & Hp & Hbp & _). fold (finger a). rewrite (finger_index a p Hp). cbn [obind].
    rewrite (get_doms D a p bp Hp Hbp). cbn [obind with_immed_dom immed_dom].
    assert (Ha0 : (0 < a)%nat) by lia. unfold dom_val. rewrite decide_False by lia.
    destruct Hs as [->|[o Ho]]; [lia|]. rewrite Ho. cbn [mbind option_bind].
    destruct (inv_tree _ _ _ _ _ _ HI a o Ha0 Ho) as [[Hoa _] Hso].
    destruct (number_lookup o ltac:(lia)) as (q & bq & Hq & Hbq & Hxq). rewrite Hq, (get_doms D o q bq Hq Hbq). cbn [obind].
    rewrite (finger_of o q) by done. cbn [obind].
    destruct (IH o ltac:(lia) Hb Hso ltac:(lia)) as (a' & E & H1 & H2 & _ & H4 & H5 & H6). exists a'. unfold finger in E.
    split; [done|]. split; [done|]. split; [lia|]. split; [lia|]. split; [done|]. split; [by eapply above_step|].
    intros x Hx Hxa. apply H6; [done|]. destruct (above_inv _ _ _ Hxa) as [->|(o' & _ & Ho' & Hxo)]; [lia|]. by simplify_eq.
  - exists a. cbn [obind]. split; [done|]. split; [lia|]. split; [lia|]. split; [done|]. split; [done|]. split; [constructor|done].
Qed.

Lemma intersect_loop fuel a b : (a < n)%nat -> (b < n)%nat -> seen D a -> seen D b -> (a + b < fuel)%nat ->
  exists r, loop fuel (intersect_step (set_doms D) postorder numnodes) (finger a, finger b) = Ok (finger r) /\ (r < n)%nat /\ seen D r /\
    above D r a /\ above D r b /\ forall x, above D x a -> above D x b -> above D x r.
Proof.
  revert a b. induction fuel as [|fuel IH]; intros a b Ha Hb Hsa Hsb Hf; [lia|]. cbn [loop]. unfold intersect_step at 1.
  destruct (Z.eqb_spec (finger a) (finger b)) as [E|E]; unfold finger in E.
  - assert (a = b) as -> by lia. exists b. cbn [obind]. split; [done|]. split; [done|]. split; [done|]. split; [constructor|]. split; [constructor|]. done.
  - assert (Hlen : (n <= length postorder)%nat) by (rewrite length_app, length_reverse; lia).
    unfold climb. destruct (climb_loop (S (length postorder)) a b Ha Hb Hsa ltac:(lia)) as (a' & -> & H1 & H2 & H3 & H4 & H5 & H6).
    cbn [obind]. destruct (climb_loop (S (length postorder)) b a' Hb ltac:(lia) Hsb ltac:(lia)) as (b' & -> & G1 & G2 & G3 & G4 & G5 & G6).
    cbn [obind]. assert (Hless : (a' + b' < a + b)%nat).
    { destruct (decide (a <= b)%nat); [rewrite (H3 ltac:(lia)) in *; lia|lia]. }
    destruct (IH a' b' ltac:(lia) ltac:(lia) H4 G4 ltac:(lia)) as (r & Er & K1 & K2 & K3 & K4 & K5). exists r. split; [done|].
    split; [done|]. split; [done|]. split; [by apply (above_trans _ _ a')|]. split; [by apply (above_trans _ _ b')|]. intros x Hxa Hxb.
    pose proof (above_le _ _ _ _ _ _ _ _ HI Hxb). assert (Hxa' : above D x a') by (by apply H6).
    pose proof (above_le _ _ _ _ _ _ _ _ HI Hxa'). apply K5; [done|]. by apply G6.
Qed.
End Climb.

Section Visit.
Context (D : parents) (c m v p : nat) (b : FlowBlock).
Hypothesis HI : Inv D c m.
Hypothesis Hv : (0 < v < n)%nat.
Hypothesis Hvm : (v <= m)%nat.
Hypothesis Hp : ls !! v = Some p.
Hypothesis Hb : try_get B0 p = Some b.
Notation bD := (with_immed_dom (dom_val D v) b).

Lemma ins_eq : ins v = point <$> intothis b.
Proof. unfold ins. rewrite Hp. cbn. by rewrite Hb. Qed.

Lemma in_edge k e : intothis b !! k = Some e -> exists i q, ls !! i = Some (point e) /\ (i < n)%nat /\ ins v !! k = Some (point e) /\
  try_get B0 (point e) = Some q /\ block_index q = Z.of_nat i.
Proof.
  intros He. assert (Hk : ins v !! k = Some (point e)) by (by rewrite ins_eq, list_lookup_fmap, He).
  assert (Hin : point e ∈ ls) by (apply (Hins v); [lia|by eapply list_elem_of_lookup_2]).
  apply list_elem_of_lookup in Hin as [i Hi]. destruct (Hblk i _ Hi) as (q & Hq & Hx). exists i, q.
  pose proof (lookup_lt_Some _ _ _ Hi). done.
Qed.

Lemma size_ins : size_edges Into bD = Z.of_nat (length (intothis b)).
Proof. unfold size_edges. cbn [edges with_immed_dom intothis]. pose proof (Hsmall p b Into Hb). cbn in *. by rewrite i32_small by lia. Qed.

Lemma neighbour_ins k e : intothis b !! k = Some e -> get_neighbour Into bD (Z.of_nat k) = Ok (point e).
Proof.
  intros He. pose proof (lookup_lt_Some _ _ _ He). pose proof (Hsmall p b Into Hb). cbn [edges] in *.
  unfold get_neighbour. cbn [edges with_immed_dom intothis]. rewrite u64_nat, Nat2Z.id by lia. by rewrite (index_ok _ _ _ He).
Qed.

(** Common to the predecessors among the first [k] edges that have been seen. *)
Definition common_upto (k x : nat) : Prop := forall q i, q ∈ take k (ins v) -> ls !! i = Some q -> seen D i -> above D x i.
Definition near_upto (k a : nat) : Prop :=
  (a < n)%nat /\ seen D a /\ common_upto k a /\ forall x, common_upto k x -> above D x a.

Lemma common_upto_S k x e i : intothis b !! k = Some e -> ls !! i = Some (point e) ->
  common_upto (S k) x <-> common_upto k x /\ (seen D i -> above D x i).
Proof.
  intros He Hi. destruct (in_edge k e He) as (j & q & _ & _ & Hk & _). unfold common_upto. rewrite (take_S_r _ _ _ Hk). split.
  - intros H. split; [intros q' i' Hq'; apply H; set_solver|]. intros Hs. apply (H (point e)); [set_solver|done|done].
  - intros [H1 H2] q' i' Hq' Hi' Hs. apply elem_of_app in Hq' as [Hq'| ->%list_elem_of_singleton]; [by apply (H1 q')|].
    assert (i' = i) as -> by (by eapply NoDup_lookup). by apply H2.
Qed.

Lemma nearest_upto a : near_upto (length (intothis b)) a -> nearest pred_of D v a.
Proof.
  intros (Hn' & Hs & Hc & Hx). assert (Hiff : forall x, common_upto (length (intothis b)) x <-> common pred_of D v x).
  { intros x. unfold common_upto, common. rewrite take_ge by (by rewrite ins_eq, length_fmap). split.
    - intros H i (q & Hq & Hi)%list_elem_of_omap Hsi. apply number_spec in Hi. by apply (H q).
    - intros H q i Hq Hi Hsi. apply H; [|done]. apply list_elem_of_omap. exists q. split; [done|]. by apply number_spec. }
  split; [by apply Hiff|]. intros x Hx'. apply Hx. by apply Hiff.
Qed.

(** The first predecessor that has been seen. *)
Lemma first_loop fuel k ni : (length (intothis b) < fuel + k)%nat -> (forall x, common_upto k x) ->
  exists k' a q, loop fuel (first_step (set_doms D) bD) (Z.of_nat k, ni) = Ok (Z.of_nat k', Some q) /\ ls !! a = Some q /\
    near_upto (S k') a /\ (k' < length (intothis b))%nat.
Proof.
  revert k ni. induction fuel as [|fuel IH]; intros k ni Hf Hnone.
  { exfalso. (* some predecessor has been seen *) destruct (early_spec v Hv) as [He Hlt].
    apply list_elem_of_omap in He as (q & Hq & Hi). apply number_spec in Hi.
    specialize (Hnone (S (early v)) q (early v)). pose proof (above_le _ _ _ _ _ _ _ _ HI (Hnone ltac:(rewrite take_ge; [done|rewrite ins_eq, length_fmap; lia]) Hi
      ltac:(apply (below_seen _ _ _ D c m _ HI); lia))). lia. }
  cbn [loop]. unfold first_step at 1. rewrite size_ins. destruct (Z.ltb_spec (Z.of_nat k) (Z.of_nat (length (intothis b)))) as [Hlt|Hge].
  - destruct (lookup_lt_is_Some_2 (intothis b) k ltac:(lia)) as [e He]. rewrite (neighbour_ins k e He). cbn [obind].
    destruct (in_edge k e He) as (i & q & Hi & Hin & Hk & Hq & Hx). rewrite (get_doms D i _ q Hi Hq). cbn [obind with_immed_dom immed_dom].
    pose proof (dom_val_seen D c m i HI Hin) as Hseen. case_bool_decide as Hs; cbn [obind].
    + exists k, i, (point e). split; [done|]. split; [done|]. split; [|lia]. split; [done|]. split; [by apply Hseen|]. split.
      * apply (common_upto_S k i e i He Hi). split; [done|]. intros _. constructor.
      * intros x Hc. apply (common_upto_S k x e i He Hi) in Hc as [_ Hc]. apply Hc. by apply Hseen.
    + pose proof (Hsmall p b Into Hb). cbn [edges] in *. rewrite i32_small by lia. replace (Z.of_nat k + 1) with (Z.of_nat (S k)) by lia.
      apply IH; [lia|]. intros x. apply (common_upto_S k x e i He Hi). split; [done|]. intros Hsi. destruct Hs. by apply Hseen.
  - exfalso. destruct (early_spec v Hv) as [He Hlt]. apply list_elem_of_omap in He as (q & Hq & Hi). apply number_spec in Hi.
    specialize (Hnone (S (early v)) q (early v)). pose proof (above_le _ _ _ _ _ _ _ _ HI (Hnone ltac:(rewrite take_ge; [done|rewrite ins_eq, length_fmap; lia]) Hi
      ltac:(apply (below_seen _ _ _ D c m _ HI); lia))). lia.
Qed.

(** The other predecessors. *)
Lemma merge_loop fuel k a q : (length (intothis b) < fuel + k)%nat -> near_upto k a -> ls !! a = Some q -> (k <= length (intothis b))%nat ->
  exists a' q', loop fuel (merge_step (set_doms D) postorder numnodes bD) (Z.of_nat k, Some q) = Ok (Some q') /\ ls !! a' = Some q' /\
    near_upto (length (intothis b)) a'.
Proof.
  revert k a q. induction fuel as [|fuel IH]; intros k a q Hf Hnear Ha Hk; [lia|]. cbn [loop]. unfold merge_step at 1. rewrite size_ins.
  pose proof (Hsmall p b Into Hb). cbn [edges] in *.
  destruct (Z.ltb_spec (Z.of_nat k) (Z.of_nat (length (intothis b)))) as [Hlt|Hge].
  - destruct (lookup_lt_is_Some_2 (intothis b) k ltac:(lia)) as [e He]. rewrite (neighbour_ins k e He). cbn [obind].
    destruct (in_edge k e He) as (i & r & Hi & Hin & _ & Hr & Hx). rewrite (get_doms D i _ r Hi Hr). cbn [obind with_immed_dom immed_dom].
    pose proof (dom_val_seen D c m i HI Hin) as Hseen. rewrite !(i32_small (Z.of_nat k + 1)) by lia. replace (Z.of_nat k + 1) with (Z.of_nat (S k)) by lia.
    destruct Hnear as (Han & Has & Hc & Hmax). case_bool_decide as Hs; cbn [obind].
    + destruct (Hblk a q Ha) as (cb & Hcb & Hcx). rewrite (get_doms D a q cb Ha Hcb). cbn [obind with_immed_dom block_index].
      rewrite (finger_of i _ r Hi Hx), (finger_of a q cb Ha Hcx). unfold intersect_fingers.
      destruct (intersect_loop D c m HI (S (2 * length postorder)) i a Hin Han ltac:(by apply Hseen) Has) as (s & -> & Hsn & Hss & H1 & H2 & H3).
      { rewrite length_app, length_reverse. lia. }
      cbn [obind]. destruct (lookup_lt_is_Some_2 ls s Hsn) as [sp Hsp]. rewrite (finger_index s sp Hsp). cbn [obind].
      apply (IH (S k) s sp); [lia| |done|lia]. split; [done|]. split; [done|]. split.
      * apply (common_upto_S k s e i He Hi). split; [|done]. intros q' i' Hq' Hi' Hsi'. apply (above_trans _ _ a); [done|]. by apply (Hc q').
      * intros x Hc'. apply (common_upto_S k x e i He Hi) in Hc' as [Hc1 Hc2]. apply H3; [apply Hc2; by apply Hseen|]. by apply Hmax.
    + apply (IH (S k) a q); [lia| |done|lia]. split; [done|]. split; [done|]. split.
      * apply (common_upto_S k a e i He Hi). split; [done|]. intros Hsi. destruct Hs. by apply Hseen.
      * intros x Hc'. apply (common_upto_S k x e i He Hi) in Hc' as [Hc1 _]. by apply Hmax.
  - assert (k = length (intothis b)) as -> by lia. cbn [obind]. exists a, q. done.
Qed.
End Visit.

(** The entry is the root itself, or hangs from an added root. *)
Hypothesis Hroot : (extra = [] /\ ls !! 0%nat = Some rootnode) \/ (extra = [rootnode] /\ rootnode ∉ ls).

Lemma dom_val_root D v : (0 < v)%nat -> dom_val D v = Some rootnode -> D v = Some 0%nat.
Proof.
  intros Hv Hd. unfold dom_val in Hd. rewrite decide_False in Hd by lia. destruct (D v) as [o|]; [|done]. cbn in Hd. f_equal.
  destruct Hroot as [[_ H0]|[_ Hno]]; [by eapply NoDup_lookup|]. destruct Hno. by eapply list_elem_of_lookup_2.
Qed.

Lemma dom_visit_ok D m v ni ch : Inv D v m -> (v <= m)%nat -> (0 < v < n)%nat ->
  exists D' ni' ch', dom_visit postorder numnodes rootnode (n - 1 - v) (set_doms D, ni, ch) = Ok (set_doms D', ni', ch') /\
    visit pred_of D v D' /\
    ((D' = D /\ ch' = ch /\ (D v = Some 0%nat \/ exists a, nearest pred_of D v a /\ D v = Some a)) \/ (D' <> D /\ ch' = true)).
Proof.
  intros HI Hvm Hv. destruct (number_lookup v ltac:(lia)) as (p & b & Hp & Hb & _). unfold dom_visit.
  rewrite (index_ok _ _ _ (postorder_lookup v p Hp)). cbn [obind]. rewrite (get_doms D v p b Hp Hb). cbn [obind with_immed_dom immed_dom].
  case_bool_decide as Hr.
  { apply dom_val_root in Hr; [|lia]. exists D, ni, ch. split; [done|]. split; [left; done|]. left. auto. }
  change (intothis (with_immed_dom (dom_val D v) b)) with (intothis b).
  destruct (first_loop D v m v p b HI Hv Hvm Hp Hb (S (length (intothis b))) 0 ni ltac:(lia)) as (k & a & q & E1 & Ha & Hnear & Hk).
  { intros x q i Hq. cbn in Hq. by apply elem_of_nil in Hq. }
  change (Z.of_nat 0) with 0 in E1. rewrite E1. cbn [obind].
  pose proof (Hsmall p b Into Hb). cbn [edges] in *. rewrite i32_small by lia. replace (Z.of_nat k + 1) with (Z.of_nat (S k)) by lia.
  destruct (merge_loop D v m v p b HI Hv Hvm Hp Hb (S (length (intothis b))) (S k) a q ltac:(lia) Hnear Ha ltac:(lia)) as (a' & q' & E2 & Ha' & Hnear').
  rewrite E2. cbn [obind]. pose proof (nearest_upto D v p b Hp Hb a' Hnear') as Hbest.
  case_bool_decide as Hd.
  - assert (Ho : D v = Some a').
    { unfold dom_val in Hd. rewrite decide_False in Hd by lia. destruct (D v) as [o|]; [|done]. cbn in Hd. f_equal. by eapply NoDup_lookup. }
    exists D, (Some q'), ch. split; [done|]. split; [right; exists a'; auto|]. left. split; [done|]. split; [done|]. right. by exists a'.
  - assert (Ho : D v <> Some a').
    { intros Ho. apply Hd. unfold dom_val. rewrite decide_False by lia. by rewrite Ho. }
    rewrite <- Ha'. rewrite (edit_doms D v p a') by (done || lia || by eapply lookup_lt_Some). cbn [obind].
    eexists _, _, _. split; [done|]. split; [right; exists a'; auto|]. right. split; [|done]. intros E. apply Ho. rewrite <- E. apply upd_here.
Qed.

(** What a pass has done when it comes to node [c]. *)
Definition passing (D : parents) (m c : nat) (st : Blocks * option nat * bool) : Prop :=
  exists D' ni ch, st = (set_doms D', ni, ch) /\ Inv D' c (Nat.max m c) /\
    (if ch : bool then (rank n D' < rank n D)%nat
     else D' = D /\ forall v, (0 < v < c)%nat -> D v = Some 0%nat \/ exists a, nearest pred_of D v a /\ D v = Some a).

Lemma passing_step D m v st : (1 <= m)%nat -> (0 < v < n)%nat -> passing D m v st ->
  exists st', dom_visit postorder numnodes rootnode (n - 1 - v) st = Ok st' /\ passing D m (S v) st'.
Proof.
  intros Hm Hv (D1 & ni & ch & -> & HI & Hch).
  destruct (dom_visit_ok D1 (Nat.max m v) v ni ch HI ltac:(lia) Hv) as (D2 & ni' & ch' & E & Hvis & Hres).
  eexists. split; [done|]. exists D2, ni', ch'. split; [done|].
  pose proof (visit_inv n pred_of early (fun v p _ Hp => pred_of_lt v p Hp) early_spec D1 v (Nat.max m v) D2 HI ltac:(lia) Hv Hvis) as HI2.
  split; [by replace (Nat.max m (S v)) with (Nat.max (Nat.max m v) (S v)) by lia|].
  destruct Hres as [(-> & -> & Hst)|[Hne ->]].
  - destruct ch; [done|]. destruct Hch as [-> Hch]. split; [done|]. intros w Hw. destruct (decide (w = v)) as [->|]; [done|]. apply Hch. lia.
  - destruct (visit_rank n pred_of early (fun v p _ Hp => pred_of_lt v p Hp) early_spec D1 v (Nat.max m v) D2 HI ltac:(lia) Hv Hvis) as [?|Hlt]; [done|].
    destruct ch; [lia|]. destruct Hch as [-> _]. done.
Qed.

Lemma dom_pass_ok D m ni : (0 < n)%nat -> Inv D 1 m -> (1 <= m)%nat ->
  exists r, dom_pass postorder numnodes rootnode (set_doms D, ni) = Ok r /\
    ((exists D' ni', r = inl (set_doms D', ni') /\ Inv D' n (Nat.max m n) /\ (rank n D' < rank n D)%nat) \/
     (r = inr (set_doms D) /\ Inv D n (Nat.max m n) /\ stable n pred_of D)).
Proof.
  intros Hpos HI Hm. unfold dom_pass.
  destruct (for_down_inv (fun i st => passing D m (Nat.max 1 (n - i)) st) (dom_visit postorder numnodes rootnode)
    (length postorder - 1) 0 (set_doms D, ni, false)) as (st & -> & D' & ni' & ch & -> & HI' & Hch).
  - exists D, ni, false. split; [done|]. assert (Hlen : (n <= length postorder)%nat) by (rewrite length_app, length_reverse; lia).
    replace (Nat.max 1 (n - (0 + (length postorder - 1)))) with 1%nat by lia.
    split; [by replace (Nat.max m 1) with m by lia|]. split; [done|lia].
  - intros i st Hi Hst. destruct (decide (i = n - 1)%nat) as [->|Hne].
    + (* the entry is passed over *) assert (Hex : extra = [rootnode]).
      { destruct Hroot as [[E _]|[E _]]; [|done]. rewrite length_app, length_reverse, E in Hi. cbn in Hi. lia. }
      destruct Hst as (D1 & ni1 & ch1 & -> & HI1 & Hch1). destruct (number_lookup 0 Hpos) as (p & b & Hp & Hb & _).
      exists (set_doms D1, ni1, ch1). split.
      * unfold dom_visit. pose proof (postorder_lookup 0 p Hp) as Hl. rewrite Nat.sub_0_r in Hl. rewrite (index_ok _ _ _ Hl). cbn [obind].
        rewrite (get_doms D1 0 p b Hp Hb). cbn [obind with_immed_dom immed_dom]. unfold dom_val. rewrite decide_True by done.
        by rewrite bool_decide_true.
      * replace (Nat.max 1 (n - S (n - 1))) with 1%nat in * by lia. replace (Nat.max 1 (n - (n - 1))) with 1%nat by lia. by exists D1, ni1, ch1.
    + assert (Hlen : (length postorder <= S n)%nat).
      { rewrite length_app, length_reverse. destruct Hroot as [[-> _]|[-> _]]; cbn; lia. }
      replace (Nat.max 1 (n - S i)) with (n - 1 - i)%nat in Hst by lia.
      destruct (passing_step D m (n - 1 - i) st Hm ltac:(lia) Hst) as (st' & E & Hst').
      exists st'. replace (n - 1 - (n - 1 - i))%nat with i in E by lia. split; [done|].
      by replace (Nat.max 1 (n - i)) with (S (n - 1 - i)) by lia.
  - replace (Nat.max 1 (n - 0)) with n in * by lia. cbn [obind]. destruct ch.
    + eexists. split; [done|]. left. eauto.
    + destruct Hch as [-> Hst]. eexists. split; [done|]. by right.
Qed.

Lemma dom_passes_ok fuel D m ni : (0 < n)%nat -> Inv D 1 m -> (1 <= m)%nat -> (rank n D < fuel)%nat ->
  exists D', loop fuel (dom_pass postorder numnodes rootnode) (set_doms D, ni) = Ok (set_doms D') /\ Inv D' n n /\ stable n pred_of D'.
Proof.
  intros Hpos. revert D m ni. induction fuel as [|fuel IH]; intros D m ni HI Hm Hf; [lia|]. cbn [loop].
  destruct (dom_pass_ok D m ni Hpos HI Hm) as (r & -> & [(D' & ni' & -> & HI' & Hlt)|(-> & HI' & Hst)]); cbn [obind].
  - apply (IH D' n ni'); [|lia|lia]. by apply (next_pass _ _ _ D' (Nat.max m n)); [|lia].
  - exists D. split; [done|]. split; [|done]. split; try apply HI'. intros v Hv. apply (inv_seen _ _ _ _ _ _ HI'). lia.
Qed.

End Search.

(** ** The call on a graph with one entry *)

(** Reached from [entry] without passing [d], and its opposite. *)
Inductive flow_avoiding (B : Blocks) (entry d : nat) : nat -> Prop :=
  | flow_entry : d <> entry -> flow_avoiding B entry d entry
  | flow_edge p v : flow_avoiding B entry d p -> flows B p v -> v <> d -> flow_avoiding B entry d v.

Definition flow_dominates (B : Blocks) (entry d v : nat) : Prop := ~ flow_avoiding B entry d v.

(** A graph whose blocks are numbered by their place in the list, closed under
    its edges, every block but the first with an edge from an earlier one: what
    the search for a spanning tree leaves behind. *)
Record numbered (B : Blocks) (graph : nat) (ls : list nat) : Prop := {
  num_graph : exists g, try_get B graph = Some g /\ block_list g = ls;
  num_nodup : NoDup ls;
  num_index : forall i p, ls !! i = Some p -> exists b, try_get B p = Some b /\ block_index b = Z.of_nat i;
  num_closed : forall p q, flows B p q -> p ∈ ls <-> q ∈ ls;
  num_early : forall i p, (0 < i)%nat -> ls !! i = Some p -> exists j q, (j < i)%nat /\ ls !! j = Some q /\ flows B q p;
  num_small : Z.of_nat (length ls) < 2 ^ 31 }.

(** Forgetting the dominators of [ls]. *)
Definition forget (ls : list nat) (B : Blocks) : Blocks :=
  map_blocks (fun p b => if decide (p ∈ ls) then with_immed_dom None b else b) B.

Lemma forget_edges (ls : list nat) s (p : nat) b : edges s (if decide (p ∈ ls) then with_immed_dom None b else b) = edges s b.
Proof. destruct (decide _); by destruct s. Qed.

Lemma reset_ok (B : Blocks) (ls : list nat) (first : nat) : NoDup ls -> (forall p, p ∈ ls -> is_Some (try_get B p)) -> Z.of_nat (length ls) < 2 ^ 31 ->
  for_up (length ls) 0 (reset_step ls (Z.of_nat (length ls) - 1)) (B, replicate (length ls) first) = Ok (forget ls B, reverse ls).
Proof.
  intros Hnd Hl Hs.
  destruct (for_up_inv (fun i st => exists post, st = (forget (take i ls) B, post) /\ length post = length ls /\
      forall j p, (j < i)%nat -> ls !! j = Some p -> post !! (length ls - 1 - j)%nat = Some p)
    (reset_step ls (Z.of_nat (length ls) - 1)) (length ls) 0 (B, replicate (length ls) first)) as (st & -> & post & -> & Hlen & Hpost).
  - exists (replicate (length ls) first). split; [|split; [apply length_replicate|lia]]. f_equal. unfold forget.
    rewrite <- (map_blocks_id B) at 1. apply map_blocks_ext. intros p b _. by rewrite decide_False by (cbn; set_solver).
  - intros i st Hi (post & -> & Hlen & Hpost). destruct (lookup_lt_is_Some_2 ls i ltac:(lia)) as [c Hc].
    unfold reset_step. rewrite (index_ok _ _ _ Hc). cbn [obind]. destruct (Hl c) as [b Hb]; [by eapply list_elem_of_lookup_2|].
    rewrite (edit_eq _ _ _ (if decide (c ∈ take i ls) then with_immed_dom None b else b)) by (unfold forget; by rewrite try_get_map, Hb).
    cbn [obind]. rewrite (i32_small (Z.of_nat i)), (i32_small (_ - _ - _)), u64_small by lia.
    replace (Z.to_nat (Z.of_nat (length ls) - 1 - Z.of_nat i)) with (length ls - 1 - i)%nat by lia.
    rewrite store_ok by lia. cbn [obind]. eexists. split; [done|]. eexists. split; [|split; [by rewrite length_insert|]].
    + f_equal. unfold forget. rewrite map_blocks_comp. apply map_blocks_ext. intros q d _. rewrite (take_S_r _ _ _ Hc).
      destruct (decide (q = c)) as [->|Hq].
      * rewrite (decide_True (P := c ∈ _ ++ _)) by set_solver. by destruct (decide _).
      * destruct (decide (q ∈ take i ls)); [rewrite decide_True by set_solver|rewrite decide_False by set_solver]; done.
    + intros j p Hj Hp. destruct (decide (j = i)) as [->|Hne].
      * simplify_eq. apply list_lookup_insert_eq. lia.
      * rewrite list_lookup_insert_ne by lia. apply Hpost; [lia|done].
  - cbn [Nat.add] in *. rewrite take_ge by lia. do 2 f_equal. apply list_eq. intros k.
    destruct (decide (k < length ls)%nat) as [Hk|Hk].
    + rewrite reverse_lookup by done. destruct (lookup_lt_is_Some_2 ls (length ls - S k) ltac:(lia)) as [p Hp]. rewrite Hp.
      rewrite <- (Hpost (length ls - S k)%nat p ltac:(lia) Hp). f_equal. lia.
    + rewrite !lookup_ge_None_2; [done|rewrite length_reverse; lia|lia].
Qed.

Lemma flows_in B q p : edges_ok B -> flows B q p <-> exists k e, edge_at B Into p k e /\ point e = q.
Proof.
  intros [_ Hok]. split.
  - intros (k & e & He & <-). destruct (Hok _ _ _ _ He) as (j & e' & _ & He' & Hp & _). by exists j, e'.
  - intros (k & e & He & <-). destruct (Hok _ _ _ _ He) as (j & e' & _ & He' & Hp & _). by exists j, e'.
Qed.

Section Bridge.
Context (B B0 : Blocks) (graph : nat) (ls : list nat) (entry : nat).
Hypothesis Hok : edges_ok B.
Hypothesis Hnum : numbered B graph ls.
Hypothesis Hentry : ls !! 0%nat = Some entry.
(** The blocks of the list as the search sees them: an edge into the entry may
    have been added. *)
Hypothesis Hsame : forall i p, (0 < i)%nat -> ls !! i = Some p -> points B0 Into p = points B Into p.

Lemma ins_flows i p q : (0 < i)%nat -> ls !! i = Some p -> q ∈ ins B0 ls i <-> flows B q p.
Proof.
  intros Hi Hp. pose proof (Hsame i p Hi Hp) as Hs. destruct (num_index _ _ _ Hnum i p Hp) as (b & Hb & _).
  rewrite (flows_in B q p Hok). unfold points in Hs. rewrite (view_get B Into p b Hb) in Hs. unfold view in Hs.
  unfold ins. rewrite Hp. cbn [mbind option_bind]. destruct (try_get B0 p) as [b0|]; [|done]. cbn in Hs. injection Hs as Hs.
  assert (E : point <$> intothis b0 = point <$> intothis b) by (rewrite <- !list_fmap_compose in Hs; exact Hs).
  rewrite E. split.
  - intros (e & -> & [k Hk]%list_elem_of_lookup)%list_elem_of_fmap. exists k, e. split; [by exists b|done].
  - intros (k & e & (b' & Hb' & He) & <-). assert (b' = b) as -> by congruence. apply list_elem_of_fmap. exists e. split; [done|].
    by eapply list_elem_of_lookup_2.
Qed.

Lemma pred_flows i p j q : (0 < i)%nat -> ls !! i = Some p -> ls !! j = Some q -> j ∈ pred_of B0 ls i <-> flows B q p.
Proof.
  intros Hi Hp Hq. pose proof (num_nodup _ _ _ Hnum) as Hnd. rewrite <- (ins_flows i p q Hi Hp). unfold pred_of. rewrite list_elem_of_omap. split.
  - intros (q' & Hq' & Hj). apply (number_spec ls Hnd) in Hj. by simplify_eq.
  - intros Hin. exists q. split; [done|]. by apply (number_spec ls Hnd).
Qed.

Lemma bridge_ins v p : (0 < v)%nat -> p ∈ ins B0 ls v -> p ∈ ls.
Proof.
  intros Hv Hp. destruct (ls !! v) as [x|] eqn:Hx; [|unfold ins in Hp; rewrite Hx in Hp; by apply elem_of_nil in Hp].
  apply (ins_flows v x p Hv Hx) in Hp. apply (num_closed _ _ _ Hnum p x Hp). by eapply list_elem_of_lookup_2.
Qed.

Lemma bridge_early v : (0 < v < length ls)%nat -> exists q, q ∈ pred_of B0 ls v /\ (q < v)%nat.
Proof.
  intros Hv. destruct (lookup_lt_is_Some_2 ls v ltac:(lia)) as [p Hp].
  destruct (num_early _ _ _ Hnum v p ltac:(lia) Hp) as (j & q & Hj & Hq & Hf). exists j. split; [|done]. apply (pred_flows v p j q); [lia|done..].
Qed.

Lemma avoiding_flow j d i p : ls !! j = Some d -> ls !! i = Some p ->
  avoiding (length ls) (pred_of B0 ls) j i <-> flow_avoiding B entry d p.
Proof.
  intros Hd Hp. pose proof (num_nodup _ _ _ Hnum) as Hnd. split.
  - intros Ha. revert p Hp. induction Ha as [H0|u v Hv Hu IH Huv Hne]; intros p Hp.
    + assert (p = entry) as -> by congruence. constructor. intros ->. apply H0. by eapply NoDup_lookup.
    + assert (Hul : (u < length ls)%nat) by (by eapply pred_of_lt). destruct (lookup_lt_is_Some_2 ls u Hul) as [q Hq].
      eapply flow_edge; [by apply IH|by apply (pred_flows v p u q ltac:(lia) Hp Hq)|]. intros ->. apply Hne. by eapply NoDup_lookup.
  - intros Ha. revert i Hp. induction Ha as [H0|q v Ha IH Hf Hne]; intros i Hp.
    + assert (i = 0%nat) as -> by (by eapply NoDup_lookup). constructor. intros ->. congruence.
    + destruct (decide (i = 0%nat)) as [->|Hi].
      * (* back at the entry *) constructor. intros ->. congruence.
      * assert (Hq : q ∈ ls) by (apply (num_closed _ _ _ Hnum q v Hf); by eapply list_elem_of_lookup_2).
        apply list_elem_of_lookup in Hq as [k Hk]. pose proof (lookup_lt_Some _ _ _ Hp). eapply avoid_edge; [lia|by apply (IH k)| |].
        -- by apply (pred_flows i v k q ltac:(lia) Hp Hk).
        -- intros ->. congruence.
Qed.

(** Only blocks of the list dominate blocks of the list. *)
Lemma dominator_in_list d p : p ∈ ls -> flow_dominates B entry d p -> d ∈ ls.
Proof.
  intros [i Hi]%list_elem_of_lookup Hd. destruct (decide (d ∈ ls)) as [|Hno]; [done|]. exfalso. apply Hd. clear Hd. revert p Hi.
  induction (lt_wf i) as [i _ IH]. intros p Hp. destruct (decide (i = 0%nat)) as [->|Hne].
  - assert (p = entry) as -> by congruence. constructor. intros ->. apply Hno. by eapply list_elem_of_lookup_2.
  - destruct (num_early _ _ _ Hnum i p ltac:(lia) Hp) as (j & q & Hj & Hq & Hf). eapply flow_edge; [by apply (IH j Hj)|done|].
    intros ->. apply Hno. by eapply list_elem_of_lookup_2.
Qed.

(** What the parents of a finished search say of the blocks. *)
Definition is_immediate (p o : nat) : Prop :=
  o ∈ ls /\ o <> p /\ flow_dominates B entry o p /\ forall d, flow_dominates B entry d p -> d <> p -> flow_dominates B entry d o.

Lemma immediate_of D i p : (0 < i)%nat -> ls !! i = Some p ->
  Inv (length ls) (pred_of B0 ls) (early B0 ls) D (length ls) (length ls) -> stable (length ls) (pred_of B0 ls) D ->
  exists o q, D i = Some o /\ ls !! o = Some q /\ is_immediate p q.
Proof.
  intros Hi Hp HI Hst. pose proof (num_nodup _ _ _ Hnum) as Hnd. pose proof (lookup_lt_Some _ _ _ Hp) as Hil.
  destruct (stable_immediate (length ls) (pred_of B0 ls) (early B0 ls) (fun v p _ Hp => pred_of_lt B0 ls Hnd v p Hp) D i HI Hst ltac:(lia))
    as (o & Ho & Hlt & Hdom & Hmax).
  destruct (lookup_lt_is_Some_2 ls o ltac:(lia)) as [q Hq]. exists o, q. split; [done|]. split; [done|].
  split; [by eapply list_elem_of_lookup_2|]. split; [intros ->; assert (o = i) by (by eapply NoDup_lookup); lia|]. split.
  - intros Ha. apply Hdom. by apply (avoiding_flow o q i p Hq Hp).
  - intros d Hd Hne. assert (Hdl : d ∈ ls) by (eapply dominator_in_list; [|exact Hd]; by eapply list_elem_of_lookup_2).
    apply list_elem_of_lookup in Hdl as [j Hj]. intros Ha. apply (Hmax j).
    + intros Ha'. apply Hd. by apply (avoiding_flow j d i p Hj Hp).
    + intros ->. congruence.
    + by apply (avoiding_flow j d o q Hj Hq).
Qed.
End Bridge.

(** *** The entry has no edges into it *)

Section Entry.
Context (B : Blocks) (graph : nat) (ls : list nat) (entry : nat).
Hypothesis Hok : edges_ok B.
Hypothesis Hnum : numbered B graph ls.
Hypothesis Hentry : ls !! 0%nat = Some entry.
Notation n := (length ls).

Lemma entry_pos : (0 < n)%nat.
Proof. by eapply lookup_lt_Some. Qed.

Lemma match_entry {A} (x : A) (y : nat -> A) : match ls with [] => x | first :: _ => y first end = y entry.
Proof. clear Hok Hnum. destruct ls; by simplify_eq/=. Qed.

Lemma members_live p : p ∈ ls -> is_Some (try_get B p).
Proof. intros [i Hi]%list_elem_of_lookup. destruct (num_index _ _ _ Hnum i p Hi) as (b & Hb & _). by eexists. Qed.

Lemma forget_get p : try_get (forget ls B) p = (fun b => if decide (p ∈ ls) then with_immed_dom None b else b) <$> try_get B p.
Proof. apply try_get_map. Qed.

Lemma forget_ok : edges_ok (forget ls B).
Proof. apply edges_ok_blocks; [|done]. intros p b s. apply forget_edges. Qed.

Lemma forget_view s p : view (forget ls B) s p = view B s p.
Proof. apply view_blocks. intros q b s'. apply forget_edges. Qed.

Lemma forget_index i p : ls !! i = Some p -> exists b, try_get (forget ls B) p = Some b /\ block_index b = Z.of_nat i.
Proof.
  intros Hi. destruct (num_index _ _ _ Hnum i p Hi) as (b & Hb & Hx). rewrite forget_get, Hb. eexists. split; [done|]. by destruct (decide _).
Qed.

(** The search starts with the successors of the entry. *)
Lemma first_children D b : try_get B entry = Some b -> intothis b = [] ->
  (forall v o, D v = Some o -> o = 0%nat /\ (v < n)%nat /\ ((0 < v)%nat -> 0%nat ∈ pred_of (forget ls B) ls v)) ->
  exists D', for_up (length (outofthis b)) 0 (fun slot (B : Blocks) =>
      let! s := get B entry in let! out := get_neighbour OutOf s (Z.of_nat slot) in edit B out (with_immed_dom (Some entry)))
      (set_doms (forget ls B) ls entry D) = Ok (set_doms (forget ls B) ls entry D') /\
    (forall v o, D' v = Some o -> o = 0%nat /\ (v < n)%nat /\ ((0 < v)%nat -> 0%nat ∈ pred_of (forget ls B) ls v)).
Proof.
  intros Hb Hin HD. pose proof (num_nodup _ _ _ Hnum) as Hnd.
  destruct (for_up_inv (fun _ st => exists D', st = set_doms (forget ls B) ls entry D' /\
      (forall v o, D' v = Some o -> o = 0%nat /\ (v < n)%nat /\ ((0 < v)%nat -> 0%nat ∈ pred_of (forget ls B) ls v)))
    (fun slot (B : Blocks) => let! s := get B entry in let! out := get_neighbour OutOf s (Z.of_nat slot) in edit B out (with_immed_dom (Some entry)))
    (length (outofthis b)) 0 (set_doms (forget ls B) ls entry D)) as (st & E & D' & -> & HD'); [by exists D| |by exists D'].
  intros k st Hk (D1 & -> & HD1). destruct (lookup_lt_is_Some_2 (outofthis b) k ltac:(lia)) as [e He].
  assert (Hat : edge_at B OutOf entry k e) by (by exists b). pose proof (edge_at_small _ _ _ _ _ (proj1 Hok) Hat).
  erewrite (get_doms (forget ls B) ls entry Hnd D1 0 entry) by (done || by rewrite forget_get, Hb). cbn [obind].
  unfold get_neighbour. replace (edges OutOf (with_immed_dom _ _)) with (outofthis b) by (by destruct (decide (entry ∈ ls))).
  rewrite u64_nat, Nat2Z.id, (index_ok _ _ _ He) by done. cbn [obind].
  assert (Hf : flows B entry (point e)) by (by exists k, e).
  assert (Hq : point e ∈ ls) by (apply (num_closed _ _ _ Hnum entry (point e) Hf); by eapply list_elem_of_lookup_2).
  apply list_elem_of_lookup in Hq as [i Hi]. assert (Hi0 : (0 < i)%nat).
  { destruct (decide (i = 0%nat)) as [->|]; [|lia]. assert (Hpe : point e = entry) by congruence. rewrite Hpe in Hf.
    apply (flows_in B entry entry Hok) in Hf as (k' & e' & (b' & Hb' & He') & _). assert (b' = b) as -> by congruence.
    cbn in He'. by rewrite Hin in He'. }
  replace (Some entry) with (ls !! 0%nat) by done.
  rewrite (edit_doms (forget ls B) ls entry Hnd forget_index D1 i (point e) 0 Hi0 Hi entry_pos). eexists. split; [done|].
  eexists. split; [done|]. intros v o. unfold upd. destruct (decide (v = i)) as [->|]; [|by apply HD1]. intros [= <-].
  split; [done|]. split; [by eapply lookup_lt_Some|]. intros _.
  apply (pred_flows B (forget ls B) graph ls Hok Hnum) with (p := point e) (q := entry); try done.
  intros i' p' _ _. unfold points. by rewrite forget_view.
Qed.

Lemma set_doms_rest B0 rootnode D p : NoDup ls -> try_get (set_doms B0 ls rootnode D) p =
  (fun b => match number ls p with Some i => with_immed_dom (dom_val ls rootnode D i) b | None => b end) <$> try_get B0 p.
Proof. intros _. apply try_get_map. Qed.

(** The outcome of the call: only the dominators of the members change, and they
    are right. *)
Definition dominators_found (B' : Blocks) : Prop :=
  (forall p b, try_get B p = Some b -> exists b', try_get B' p = Some b' /\ rest (with_immed_dom None b') = rest (with_immed_dom None b) /\
    (p ∉ ls -> immed_dom b' = immed_dom b)) /\
  (forall s p, is_Some (try_get B p) -> view B' s p = view B s p) /\
  (exists b, try_get B' entry = Some b /\ immed_dom b = None) /\
  forall p, p ∈ ls -> p <> entry -> exists b o, try_get B' p = Some b /\ immed_dom b = Some o /\ is_immediate B ls entry p o.

Lemma calc_dominator_plain b : try_get B entry = Some b -> intothis b = [] ->
  exists B', block_calc_forward_dominator B graph [entry] = Ok B' /\ edges_ok B' /\ dominators_found B'.
Proof.
  intros Hb Hin. pose proof (num_nodup _ _ _ Hnum) as Hnd. pose proof (num_small _ _ _ Hnum) as Hsm. pose proof entry_pos as Hpos.
  destruct (num_graph _ _ _ Hnum) as (g & Hg & Hgl). unfold block_calc_forward_dominator. rewrite get_try, Hg. cbn [obind]. rewrite Hgl.
  rewrite (match_entry (Ok B)).
  rewrite (i32_small (Z.of_nat n)), (i32_small (_ - 1)) by lia. rewrite (reset_ok B ls entry Hnd members_live Hsm). cbn [obind].
  rewrite decide_False by (cbn; lia). cbn [obind].
  assert (Hlast : list.last (reverse ls) = Some entry) by (by rewrite last_reverse, head_lookup). rewrite Hlast.
  assert (Hin_ls : entry ∈ ls) by (by eapply list_elem_of_lookup_2).
  rewrite get_try, forget_get, Hb. cbn [obind fmap option_fmap option_map]. rewrite decide_True by done.
  unfold size_edges at 1. cbn [edges with_immed_dom intothis]. rewrite Hin. cbn [length]. change (i32 (Z.of_nat 0) =? 0) with true. cbn [negb obind].
  assert (Hedit : edit (forget ls B) entry (with_immed_dom (Some entry)) = Ok (set_doms (forget ls B) ls entry (fun _ => None))).
  { rewrite (edit_eq _ _ _ (with_immed_dom None b)) by (rewrite forget_get, Hb; cbn; by rewrite decide_True). f_equal. apply map_blocks_ext. intros p c Hc.
    destruct (decide (p = entry)) as [->|Hp].
    - by rewrite (proj2 (number_spec ls Hnd entry 0) Hentry).
    - destruct (number ls p) as [i|] eqn:Ei; [|done]. apply (number_spec ls Hnd) in Ei. unfold dom_val. rewrite decide_False by (intros ->; congruence).
      cbn. rewrite forget_get in Hc. destruct (try_get B p); [|done]. cbn in Hc. rewrite decide_True in Hc by (by eapply list_elem_of_lookup_2).
      by injection Hc as <-. }
  rewrite Hedit. cbn [obind]. erewrite (get_doms (forget ls B) ls entry Hnd _ 0 entry) by (done || by rewrite forget_get, Hb). cbn [obind].
  replace (size_edges OutOf (with_immed_dom _ _)) with (size_edges OutOf b) by (by destruct (decide (entry ∈ ls))).
  rewrite (same_size B OutOf entry b), Nat2Z.id by (done || apply Hok). cbn [edges].
  destruct (first_children (fun _ => None) b Hb Hin ltac:(done)) as (D1 & -> & HD1). cbn [obind]. rewrite Hlast.
  assert (Hsamep : forall i p, (0 < i)%nat -> ls !! i = Some p -> points (forget ls B) Into p = points B Into p) by (intros; unfold points; by rewrite forget_view).
  pose proof (bridge_ins B (forget ls B) graph ls Hok Hnum Hsamep) as HI. pose proof (bridge_early B (forget ls B) graph ls Hok Hnum Hsamep) as HE.
  destruct (dom_passes_ok (forget ls B) ls entry [] Hnd forget_index (proj1 forget_ok) Hsm HI HE ltac:(by left)
    (S (S (n * n))) D1 1 None Hpos) as (D & E & HInv & Hst).
  - apply start_inv; [|done]. intros v Hv. by apply early_spec.
  - done.
  - pose proof (rank_bound n D1 ltac:(intros v o Hv Ho; destruct (HD1 v o Ho) as (-> & _); lia)). lia.
  - rewrite app_nil_r in E. rewrite E. cbn [obind].
    assert (Hget : forall p, try_get (set_doms (forget ls B) ls entry D) p = (fun c => match number ls p with Some i => with_immed_dom (dom_val ls entry D i) c | None => c end) <$> try_get B p).
    { intros p. rewrite set_doms_rest, forget_get by done. destruct (try_get B p); [|done]. cbn. f_equal.
      destruct (number ls p) as [i|] eqn:Ei; [destruct (decide _); done|]. rewrite decide_False; [done|].
      intros [i Hi]%list_elem_of_lookup. apply (number_spec ls Hnd) in Hi. congruence. }
    erewrite edit_eq by (by rewrite Hget, Hb). eexists. split; [done|].
    set (F := fun p x => if decide (p = entry) then with_immed_dom None x else x).
    assert (HF : forall p c s, edges s (F p c) = edges s c) by (intros p c s; unfold F; destruct (decide _); by destruct s).
    assert (Hok' : edges_ok (set_doms (forget ls B) ls entry D)).
    { apply edges_ok_blocks; [|apply forget_ok]. intros p c s. destruct (number ls p); by destruct s. }
    split; [by apply edges_ok_blocks|]. split; [|split; [|split]].
    + intros p c Hc. rewrite try_get_map, Hget, Hc. eexists. split; [done|]. unfold F. destruct (number ls p) as [i|] eqn:Ei; destruct (decide (p = entry)) as [->|];
        (split; [done|]); intros Hno; try done; exfalso; apply Hno; try done. apply (number_spec ls Hnd) in Ei. by eapply list_elem_of_lookup_2.
    + intros s p _. rewrite view_blocks by done. unfold set_doms. rewrite view_blocks; [apply forget_view|]. intros q c s'. destruct (number ls q); by destruct s'.
    + rewrite try_get_map, Hget, Hb. eexists. split; [done|]. cbn. unfold F. by rewrite decide_True.
    + intros p [i Hi]%list_elem_of_lookup Hne. destruct (num_index _ _ _ Hnum i p Hi) as (c & Hc & _).
      assert (Hi0 : (0 < i)%nat) by (destruct (decide (i = 0%nat)) as [->|]; [congruence|lia]).
      destruct (immediate_of B (forget ls B) graph ls entry Hok Hnum Hentry Hsamep D i p Hi0 Hi HInv Hst) as (o & q & Ho & Hq & Him).
      rewrite try_get_map, Hget, Hc. eexists _, q. split; [done|]. split; [|done]. cbn. unfold F. rewrite decide_False by done.
      rewrite (proj2 (number_spec ls Hnd p i) Hi). cbn. unfold dom_val. rewrite decide_False by lia. by rewrite Ho.
Qed.
End Entry.

(** *** The entry has edges into it: a root is added and taken away again *)

Lemma alloc_ok (B : Blocks) x : Z.of_nat (length (slots B)) < 2 ^ 32 ->
  exists B', alloc B x = Ok (B', length (slots B)) /\
    forall p, try_get B' p = if decide (p = length (slots B)) then Some x else try_get B p.
Proof.
  intros Hs. unfold alloc, arena_from_index. destruct (Z.ltb_spec (Z.of_nat (length (slots B))) (2 ^ 32)); [|lia].
  eexists. split; [done|]. intros p. unfold try_get. cbn. destruct (decide (p = length (slots B))) as [->|Hne].
  - by rewrite lookup_app_r, Nat.sub_diag by lia.
  - destruct (decide (p < length (slots B))%nat) as [Hlt|Hge]; [by rewrite lookup_app_l by done|].
    rewrite !lookup_ge_None_2; [done|lia|rewrite length_app; cbn; lia].
Qed.

Lemma alloc_edges_ok (B B' : Blocks) x v : edges_ok B -> (forall s, edges s x = []) -> try_get B v = None ->
  (forall p, try_get B' p = if decide (p = v) then Some x else try_get B p) -> edges_ok B'.
Proof.
  intros [Hsm Hok] Hx Hv Hget.
  assert (Hat : forall s p k e, edge_at B' s p k e <-> edge_at B s p k e).
  { intros s p k e. unfold edge_at. rewrite Hget. destruct (decide (p = v)) as [->|]; [|done]. rewrite Hv. split; [|by intros (? & ? & _)].
    intros (b & [= <-] & He). by rewrite Hx in He. }
  split.
  - intros p b s Hb. rewrite Hget in Hb. destruct (decide (p = v)); [|by apply (Hsm p)]. injection Hb as <-. rewrite Hx. cbn. lia.
  - intros s p k e He. apply Hat in He. destruct (Hok _ _ _ _ He) as (j & e' & Hj & He' & H). exists j, e'. split; [done|]. split; [|done]. by apply Hat.
Qed.

(** A block without its edges and its dominator. *)
Definition clean (b : FlowBlock) : FlowBlock := rest (with_immed_dom None b).

Lemma same_rest_clean B B' p : same_rest B B' -> clean <$> try_get B' p = clean <$> try_get B p.
Proof. intros [f ->]. rewrite try_get_edges. by destruct (try_get B p). Qed.

Lemma same_rest_dom B B' p : same_rest B B' -> immed_dom <$> try_get B' p = immed_dom <$> try_get B p.
Proof. intros [f ->]. rewrite try_get_edges. by destruct (try_get B p). Qed.

(** The added root [v], with its one edge to the entry. *)
Definition rooted (B Br : Blocks) (ls : list nat) (entry v : nat) (l : list (Z * nat)) : Prop :=
  edges_ok Br /\ try_get B v = None /\
  view B Into entry = Some l /\ view Br Into entry = Some (l ++ [(0, v)]) /\
  view Br OutOf v = Some [(0, entry)] /\ view Br Into v = Some [] /\
  (forall s p, p <> v -> (s, p) <> (Into, entry) -> view Br s p = view B s p) /\
  (forall p, p <> v -> clean <$> try_get Br p = clean <$> try_get B p) /\
  (forall p, p <> v -> p ∉ ls -> immed_dom <$> try_get Br p = immed_dom <$> try_get B p) /\
  (forall p b, p ∈ ls -> try_get Br p = Some b -> immed_dom b = None).

Lemma create_root_ok B ls entry b : edges_ok B -> try_get B entry = Some b -> entry ∈ ls ->
  Z.of_nat (length (intothis b)) + 1 < 2 ^ 31 -> Z.of_nat (length (slots B)) < 2 ^ 32 ->
  exists Br l, block_create_virtual_root (forget ls B) [entry] = Ok (Br, length (slots B)) /\ rooted B Br ls entry (length (slots B)) l.
Proof.
  intros Hok Hb Hin Hroom Hslots. set (v := length (slots B)). unfold block_create_virtual_root.
  assert (Hlen : length (slots (forget ls B)) = v) by (unfold forget, map_blocks; cbn; apply length_imap).
  assert (Hv : try_get B v = None) by (unfold try_get; by rewrite lookup_ge_None_2).
  destruct (alloc_ok (forget ls B) (block_new K_Plain)) as (Ba & -> & Hget); [by rewrite Hlen|]. rewrite Hlen in Hget |- *. cbn [obind foldl].
  assert (Hvf : try_get (forget ls B) v = None) by (unfold forget; by rewrite try_get_map, Hv).
  assert (Hoka : edges_ok Ba) by (apply (alloc_edges_ok (forget ls B) Ba (block_new K_Plain) v); [by apply forget_ok|by intros []|done..]).
  assert (Hvne : entry <> v) by (intros ->; congruence).
  assert (Hviewa : forall s p, p <> v -> view Ba s p = view B s p).
  { intros s p Hp. unfold view at 1. rewrite Hget, decide_False by done. fold (view (forget ls B) s p). apply forget_view. }
  assert (Hbe : exists ba, try_get Ba entry = Some ba /\ edges Into ba = intothis b).
  { rewrite Hget, decide_False by done. unfold forget. rewrite try_get_map, Hb. eexists. split; [done|]. apply (forget_edges ls Into entry b). }
  destruct Hbe as (ba & Hba & Hei).
  assert (Hva : try_get Ba v = Some (block_new K_Plain)) by (by rewrite Hget, decide_True).
  destruct (add_edge_ok Ba entry v 0 Hoka) as (Br & -> & Hokr & Hsr & Hvr).
  { exists ba. rewrite Hei. done. }
  { exists (block_new K_Plain). cbn. split; [done|lia]. }
  cbn [obind]. exists Br, (ends <$> intothis b). split; [done|]. split; [done|]. split; [done|].
  split; [by rewrite (view_get _ _ _ _ Hb)|]. split; [|split; [|split; [|split; [|split; [|split]]]]].
  - rewrite Hvr, on_list_side, on_list_here, Hviewa, (view_get _ _ _ _ Hb) by done. done.
  - rewrite Hvr, on_list_here, on_list_side by done. unfold view. by rewrite Hva.
  - rewrite Hvr, on_list_side, on_list_point by done. unfold view. by rewrite Hva.
  - intros s p Hp Hse. rewrite Hvr, on_list_point by done. unfold on_list. rewrite decide_False by (intros [-> ->]; done). by apply Hviewa.
  - intros p Hp. rewrite (same_rest_clean _ _ p Hsr), Hget, decide_False by done. unfold forget. rewrite try_get_map.
    destruct (try_get B p); [|done]. cbn. by destruct (decide _).
  - intros p Hp Hno. rewrite (same_rest_dom _ _ p Hsr), Hget, decide_False by done. unfold forget. rewrite try_get_map.
    destruct (try_get B p); [|done]. cbn. by rewrite decide_False.
  - intros p c Hp Hc. pose proof (same_rest_dom _ _ p Hsr) as Hd. rewrite Hc, Hget in Hd. destruct (decide (p = v)); [by injection Hd as ->|].
    unfold forget in Hd. rewrite try_get_map in Hd. destruct (try_get B p); [|done]. cbn in Hd. rewrite decide_True in Hd by done. by injection Hd as ->.
Qed.

Lemma unroot_ok B v b entry l : edges_ok B -> try_get B v = Some b -> view B OutOf v = Some [(0, entry)] -> view B Into v = Some [] ->
  view B Into entry = Some (l ++ [(0, v)]) -> (forall x, x ∈ l -> x.2 <> v) ->
  exists B', (let! B := loop (S (length (outofthis b))) (unroot_step v) B in let! (B, _) := arena_remove B v in Ok B) = Ok B' /\ edges_ok B' /\
    try_get B' v = None /\ view B' Into entry = Some l /\
    (forall s p, p <> v -> (s, p) <> (Into, entry) -> view B' s p = view B s p) /\
    forall p, p <> v -> rest <$> try_get B' p = rest <$> try_get B p.
Proof.
  intros Hok Hb Hout Hin Hent Hl. rewrite (view_get _ _ _ _ Hb) in Hout. injection Hout as Hout. cbn [edges] in Hout.
  destruct (outofthis b) as [|e [|]] eqn:Eb; try done. injection Hout as _ Hpe. cbn [length loop].
  assert (Hat : edge_at B OutOf v 0 e) by (exists b; cbn; by rewrite Eb).
  destruct (remove_edge_ok B OutOf v 0 e Hok Hat) as (B1 & j & E & Hok1 & Hs1 & Hj & Hv). change (Z.of_nat 0) with 0 in E.
  destruct (proj2 Hok _ _ _ _ Hat) as (j' & y & Hj' & Hy & Hpy & _). assert (j' = j) as -> by lia. rewrite Hpe in *. cbn [other] in *.
  assert (Hne : entry <> v).
  { intros ->. rewrite Hin in Hent. injection Hent as Hent. by destruct l. }
  assert (Hjl : j = length l).
  { destruct (proj2 (view_edge B Into entry j (ends y))) as (l' & Hl' & Hx); [by exists y|]. rewrite Hent in Hl'. injection Hl' as <-.
    apply lookup_app_Some in Hx as [Hx|[Hge Hx]].
    - exfalso. apply (Hl (ends y)); [by eapply list_elem_of_lookup_2|done].
    - apply list_lookup_singleton_Some in Hx as [Hx _]. lia. }
  unfold unroot_step at 1. rewrite get_try, Hb. cbn [obind]. rewrite (same_size B OutOf v b) by (done || apply Hok). cbn [edges]. rewrite Eb.
  change (Z.of_nat (length [e]) >? 0) with true. cbn iota. change (i32 (Z.of_nat (length [e]) - 1)) with 0. rewrite E. cbn [obind].
  destruct (proj2 (same_rest_live B B1 v Hs1)) as [b1 Hb1]; [by eexists|].
  assert (Hv1 : view B1 OutOf v = Some []).
  { rewrite Hv, on_list_side, on_list_here, (view_get _ _ _ _ Hb) by done. cbn. by rewrite Eb. }
  assert (Hv2 : view B1 Into v = Some []) by (by rewrite Hv, on_list_point, on_list_side).
  pose proof Hv1 as Hn1. rewrite (view_get _ _ _ _ Hb1) in Hn1. injection Hn1 as Hn1. apply fmap_nil_inv in Hn1.
  unfold unroot_step at 1. rewrite get_try, Hb1. cbn [obind]. unfold size_edges at 1. cbn [edges]. rewrite Hn1. cbn [length].
  change (i32 (Z.of_nat 0) >? 0) with false. cbn iota. cbn [obind].
  destruct (arena_remove_ok B1 v b1 Hb1) as (B2 & -> & Hget). cbn [obind]. exists B2. split; [done|]. split; [|split; [|split; [|split]]].
  - apply (edges_ok_remove B1 B2 v Hok1); [by intros []|done].
  - by rewrite Hget, decide_True.
  - unfold view. rewrite Hget, decide_False by done. fold (view B1 Into entry). rewrite Hv, on_list_here, on_list_side, Hent by done.
    cbn. f_equal. rewrite Hjl. apply delete_last.
  - intros s p Hp Hse. unfold view at 1. rewrite Hget, decide_False by done. fold (view B1 s p). rewrite Hv. unfold on_list at 1.
    rewrite decide_False by (intros [-> ->]; done). by rewrite on_list_point.
  - intros p Hp. rewrite Hget, decide_False by done. by apply same_rest_rest.
Qed.

Section Rooted.
Context (B Br : Blocks) (graph : nat) (ls : list nat) (entry v : nat) (l : list (Z * nat)).
Hypothesis Hok : edges_ok B.
Hypothesis Hnum : numbered B graph ls.
Hypothesis Hentry : ls !! 0%nat = Some entry.
Hypothesis Hr : rooted B Br ls entry v l.
Notation n := (length ls).

(** The added root is its own dominator. *)
Definition self_rooted : Blocks := map_blocks (fun p b => if decide (p = v) then with_immed_dom (Some v) b else b) Br.

Lemma root_fresh : v ∉ ls.
Proof. intros Hv. destruct (members_live B graph ls Hnum v Hv) as [b Hb]. destruct Hr as (_ & Hn & _). congruence. Qed.

Lemma self_rooted_ok : edges_ok self_rooted.
Proof. apply edges_ok_blocks; [|apply Hr]. intros p b s. destruct (decide _); by destruct s. Qed.

Lemma self_rooted_view s p : view self_rooted s p = view Br s p.
Proof. apply view_blocks. intros q b s'. destruct (decide _); by destruct s'. Qed.

Lemma self_rooted_index i p : ls !! i = Some p -> exists b, try_get self_rooted p = Some b /\ block_index b = Z.of_nat i.
Proof.
  intros Hi. destruct (num_index _ _ _ Hnum i p Hi) as (b & Hb & Hx). destruct Hr as (_ & _ & _ & _ & _ & _ & _ & Hc & _).
  assert (Hp : p <> v) by (intros ->; apply root_fresh; by eapply list_elem_of_lookup_2).
  specialize (Hc p Hp). rewrite Hb in Hc. destruct (try_get Br p) as [b'|] eqn:E; [|done]. exists b'. unfold self_rooted. rewrite try_get_map, E. cbn.
  rewrite decide_False by done. split; [done|]. unfold clean, rest, with_edges in Hc. injection Hc as ? ? ? Hi' ? ? ? ? ? ?. cbn in *. congruence.
Qed.

Lemma self_rooted_points i p : (0 < i)%nat -> ls !! i = Some p -> points self_rooted Into p = points B Into p.
Proof.
  intros Hi Hp. unfold points. rewrite self_rooted_view. destruct Hr as (_ & _ & _ & _ & _ & _ & Hv & _). rewrite Hv; [done|..].
  - intros ->. apply root_fresh. by eapply list_elem_of_lookup_2.
  - intros [= ->]. pose proof (num_nodup _ _ _ Hnum). assert (i = 0%nat) by (by eapply NoDup_lookup). lia.
Qed.

(** The entry lets go of the added root. *)
Definition released (D : parents) : Blocks :=
  map_blocks (fun p b => if decide (p = entry) then with_immed_dom None b else b) (set_doms self_rooted ls v D).

Lemma release_ok D : for_up n 0 (fun slot (B : Blocks) =>
    let! p := index (reverse ls ++ [v]) slot in
    let! b := get B p in
    if bool_decide (immed_dom b = Some v) then edit B p (with_immed_dom None) else Ok B) (set_doms self_rooted ls v D) = Ok (released D).
Proof.
  pose proof (num_nodup _ _ _ Hnum) as Hnd. pose proof (entry_pos ls entry Hentry) as Hpos.
  destruct (for_up_inv (fun i st => st = if decide (i = n) then released D else set_doms self_rooted ls v D) (fun slot (B : Blocks) =>
    let! p := index (reverse ls ++ [v]) slot in let! b := get B p in
    if bool_decide (immed_dom b = Some v) then edit B p (with_immed_dom None) else Ok B) n 0 (set_doms self_rooted ls v D)) as (st & E & ->).
  - by rewrite decide_False by lia.
  - intros i st Hi ->. rewrite (decide_False (P := i = n)) by lia. eexists. split; [|done].
    destruct (lookup_lt_is_Some_2 ls (n - 1 - i) ltac:(lia)) as [p Hp]. destruct (self_rooted_index _ _ Hp) as (b & Hb & _).
    pose proof (postorder_lookup ls [v] (n - 1 - i) p Hp) as Hl. replace (n - 1 - (n - 1 - i))%nat with i in Hl by lia.
    rewrite (index_ok _ _ _ Hl). cbn [obind]. rewrite (get_doms self_rooted ls v Hnd D _ p b Hp Hb). cbn [obind with_immed_dom immed_dom].
    case_bool_decide as Hd.
    + assert (Hz : (n - 1 - i = 0)%nat).
      { destruct (decide (n - 1 - i = 0)%nat) as [|Hne]; [done|]. exfalso. unfold dom_val in Hd. rewrite decide_False in Hd by done.
        destruct (D (n - 1 - i)%nat) as [o|]; [|done]. cbn in Hd. apply root_fresh. by eapply list_elem_of_lookup_2. }
      rewrite decide_True by lia. rewrite Hz in Hp. assert (p = entry) as -> by congruence.
      erewrite edit_eq; [done|]. rewrite set_doms_rest, Hb by done. done.
    + rewrite decide_False; [done|]. intros Hi'. apply Hd. unfold dom_val. by rewrite decide_True by lia.
  - rewrite E. by rewrite decide_True.
Qed.

Lemma hang_ok : edit self_rooted entry (with_immed_dom (Some v)) = Ok (set_doms self_rooted ls v (fun _ => None)).
Proof.
  pose proof (num_nodup _ _ _ Hnum) as Hnd. destruct (self_rooted_index 0 entry Hentry) as (b & Hb & _).
  rewrite (edit_eq _ _ _ _ Hb). f_equal. apply map_blocks_ext. intros p c Hc. destruct (decide (p = entry)) as [->|Hp].
  - by rewrite (proj2 (number_spec ls Hnd entry 0) Hentry).
  - destruct (number ls p) as [i|] eqn:Ei; [|done]. apply (number_spec ls Hnd) in Ei. unfold dom_val. rewrite decide_False by (intros ->; congruence).
    cbn. assert (Hin : p ∈ ls) by (by eapply list_elem_of_lookup_2). unfold self_rooted in Hc. rewrite try_get_map in Hc.
    destruct (try_get Br p) as [c0|] eqn:E0; [|done]. cbn in Hc. rewrite decide_False in Hc by (intros ->; by apply root_fresh).
    injection Hc as <-. destruct Hr as (_ & _ & _ & _ & _ & _ & _ & _ & _ & Hd). specialize (Hd p c0 Hin E0). destruct c0; cbn in *; by subst.
Qed.

Lemma rooted_passes : exists D,
  loop (S (S (n * n))) (dom_pass (reverse ls ++ [v]) (Z.of_nat n - 1) v) (set_doms self_rooted ls v (fun _ => None), None) = Ok (set_doms self_rooted ls v D) /\
  Inv n (pred_of self_rooted ls) (early self_rooted ls) D n n /\ stable n (pred_of self_rooted ls) D.
Proof.
  pose proof (num_nodup _ _ _ Hnum) as Hnd. pose proof (num_small _ _ _ Hnum) as Hsm.
  pose proof (bridge_ins B self_rooted graph ls Hok Hnum self_rooted_points) as HI.
  pose proof (bridge_early B self_rooted graph ls Hok Hnum self_rooted_points) as HE.
  apply (dom_passes_ok self_rooted ls v [v] Hnd self_rooted_index (proj1 self_rooted_ok) Hsm HI HE
    ltac:(right; split; [done|apply root_fresh]) (S (S (n * n))) (fun _ => None) 1 None (entry_pos ls entry Hentry)).
  - apply start_inv; [|done]. intros w Hw. by apply early_spec.
  - done.
  - pose proof (rank_bound n (fun _ => None) ltac:(done)). lia.
Qed.

Lemma released_get D p : try_get (released D) p =
  (fun b => if decide (p = entry) then with_immed_dom None b else
    match number ls p with Some i => with_immed_dom (dom_val ls v D i) b | None => b end) <$> try_get self_rooted p.
Proof.
  pose proof (num_nodup _ _ _ Hnum) as Hnd. unfold released. rewrite try_get_map, set_doms_rest by done. destruct (try_get self_rooted p); [|done]. cbn. f_equal.
  destruct (decide (p = entry)); [|done]. by destruct (number ls p).
Qed.

Lemma released_view D s p : view (released D) s p = view Br s p.
Proof.
  rewrite <- self_rooted_view. unfold released, set_doms. rewrite !view_blocks; [done|..]; intros q b s'; [destruct (number ls q)|destruct (decide _)]; by destruct s'.
Qed.

Lemma released_ok D : edges_ok (released D).
Proof.
  apply edges_ok_blocks; [intros p b s; destruct (decide _); by destruct s|].
  apply edges_ok_blocks; [intros p b s; destruct (number ls p); by destruct s|apply self_rooted_ok].
Qed.

Lemma unrooted_dom D i p q o : (0 < i)%nat -> ls !! i = Some p -> D i = Some o -> ls !! o = Some q ->
  immed_dom <$> try_get (released D) p = Some (Some q).
Proof.
  pose proof (num_nodup _ _ _ Hnum) as Hnd. intros Hi Hp Ho Hq. rewrite released_get. destruct (self_rooted_index i p Hp) as (b & -> & _). cbn.
  rewrite decide_False; [|intros ->; assert (i = 0%nat) by (by eapply NoDup_lookup); lia].
  rewrite (proj2 (number_spec ls Hnd p i) Hp). cbn. unfold dom_val. rewrite decide_False by lia. rewrite Ho. cbn. by rewrite Hq.
Qed.

Lemma released_rest D p : p <> v -> clean <$> try_get (released D) p = clean <$> try_get B p.
Proof.
  intros Hp. destruct Hr as (_ & _ & _ & _ & _ & _ & _ & Hc & _). rewrite <- (Hc p Hp), released_get. unfold self_rooted. rewrite try_get_map.
  destruct (try_get Br p); [|done]. cbn. rewrite (decide_False (P := p = v)) by done. f_equal. destruct (decide (p = entry)); [done|]. by destruct (number ls p).
Qed.

Lemma released_outside D p : p <> v -> p ∉ ls -> immed_dom <$> try_get (released D) p = immed_dom <$> try_get B p.
Proof.
  pose proof (num_nodup _ _ _ Hnum) as Hnd. intros Hp Hno. destruct Hr as (_ & _ & _ & _ & _ & _ & _ & _ & Hd & _).
  rewrite <- (Hd p Hp Hno), released_get. unfold self_rooted. rewrite try_get_map. destruct (try_get Br p); [|done]. cbn.
  rewrite (decide_False (P := p = v)) by done. rewrite (decide_False (P := p = entry)) by (intros ->; apply Hno; by eapply list_elem_of_lookup_2).
  destruct (number ls p) as [i|] eqn:Ei; [|done]. apply (number_spec ls Hnd) in Ei. destruct Hno. by eapply list_elem_of_lookup_2.
Qed.

(** Taking the added root away again leaves the dominators. *)
Lemma remove_root_ok D : Inv n (pred_of self_rooted ls) (early self_rooted ls) D n n -> stable n (pred_of self_rooted ls) D ->
  exists B', remove_virtual_root (set_doms self_rooted ls v D) (reverse ls ++ [v]) n v = Ok B' /\ edges_ok B' /\ dominators_found B ls entry B'.
Proof.
  intros HInv Hst. unfold remove_virtual_root. rewrite release_ok. cbn [obind].
  pose proof Hr as (_ & Hvn & Hlv & Hev & Hov & Hiv & Hvv & _).
  assert (Hlive : is_Some (try_get (released D) v)) by (apply (view_live _ OutOf); by rewrite released_view, Hov).
  destruct Hlive as [rb Hrb]. rewrite get_try, Hrb. cbn [obind].
  destruct (unroot_ok (released D) v rb entry l (released_ok D) Hrb) as (B' & -> & Hok' & Hgone & Hent & Hview & Hrest); try by rewrite released_view.
  { intros x [k Hk]%list_elem_of_lookup Hxv. destruct (proj1 (view_edge B Into entry k x)) as (e & He & Hx); [by exists l|].
    destruct (proj2 Hok _ _ _ _ He) as (j & e' & _ & (b' & Hb' & _) & _). subst x. cbn in Hxv. rewrite Hxv in Hb'. congruence. }
  assert (Hpv : forall p, is_Some (try_get B p) -> p <> v) by (intros p [b Hb] ->; congruence).
  assert (Hdom : forall p, p <> v -> immed_dom <$> try_get B' p = immed_dom <$> try_get (released D) p).
  { intros p Hp. specialize (Hrest p Hp). destruct (try_get B' p) as [x|], (try_get (released D) p) as [y|]; try done.
    apply (inj Some) in Hrest. cbn. f_equal. destruct x, y. unfold rest, with_edges in *. cbn in *. congruence. }
  exists B'. split; [done|]. split; [done|]. split; [|split; [|split]].
  - intros p b Hb. assert (Hp : p <> v) by (apply Hpv; by eexists).
    pose proof (released_rest D p Hp) as Hc. specialize (Hrest p Hp). rewrite Hb in Hc. specialize (Hdom p Hp).
    destruct (try_get (released D) p) as [c|] eqn:Ec; [|done]. destruct (try_get B' p) as [b'|] eqn:Eb'; [|done]. exists b'. split; [done|].
    apply (inj Some) in Hc, Hrest, Hdom. split.
    + change (clean b' = clean b). rewrite <- Hc. unfold clean. clear -Hrest. destruct b', c. unfold rest, with_edges, with_immed_dom in *. cbn in *. congruence.
    + intros Hno. pose proof (released_outside D p Hp Hno) as Ho. rewrite Ec, Hb in Ho. cbn in Ho. congruence.
  - intros s p Hp. apply Hpv in Hp. destruct (decide ((s, p) = (Into, entry))) as [[= -> ->]|Hne]; [by rewrite Hent|].
    by rewrite Hview, released_view, Hvv.
  - destruct (members_live B graph ls Hnum entry) as [b Hb]; [by eapply list_elem_of_lookup_2|]. assert (Hp : entry <> v) by (apply Hpv; by eexists).
    specialize (Hdom entry Hp). destruct (self_rooted_index 0 entry Hentry) as (c & Hc & _). rewrite released_get, Hc in Hdom. cbn in Hdom.
    rewrite decide_True in Hdom by done. destruct (try_get B' entry) as [b'|]; [|done]. exists b'. split; [done|]. by injection Hdom.
  - intros p [i Hi]%list_elem_of_lookup Hne. assert (Hi0 : (0 < i)%nat) by (destruct i; [congruence|lia]).
    destruct (immediate_of B self_rooted graph ls entry Hok Hnum Hentry self_rooted_points D i p Hi0 Hi HInv Hst) as (o & q & Ho & Hq & Him).
    assert (Hp : p <> v) by (intros ->; apply root_fresh; by eapply list_elem_of_lookup_2).
    specialize (Hdom p Hp). rewrite (unrooted_dom D i p q o Hi0 Hi Ho Hq) in Hdom. destruct (try_get B' p) as [b'|]; [|done].
    exists b', q. split; [done|]. split; [by injection Hdom|done].
Qed.

End Rooted.

(** *** The entry has edges into it *)

Lemma calc_dominator_looped B graph ls entry b : edges_ok B -> numbered B graph ls -> ls !! 0%nat = Some entry ->
  try_get B entry = Some b -> intothis b <> [] -> Z.of_nat (length (intothis b)) + 1 < 2 ^ 31 -> Z.of_nat (length (slots B)) < 2 ^ 32 ->
  exists B', block_calc_forward_dominator B graph [entry] = Ok B' /\ edges_ok B' /\ dominators_found B ls entry B'.
Proof.
  intros Hok Hnum Hentry Hb Hin Hroom Hslots. pose proof (num_nodup _ _ _ Hnum) as Hnd. pose proof (num_small _ _ _ Hnum) as Hsm.
  pose proof (entry_pos ls entry Hentry) as Hpos. assert (Hels : entry ∈ ls) by (by eapply list_elem_of_lookup_2).
  destruct (num_graph _ _ _ Hnum) as (g & Hg & Hgl). unfold block_calc_forward_dominator. rewrite get_try, Hg. cbn [obind]. rewrite Hgl.
  rewrite (match_entry ls entry Hentry (Ok B)).
  rewrite (i32_small (Z.of_nat (length ls))), (i32_small (_ - 1)) by lia.
  rewrite (reset_ok B ls entry Hnd (members_live B graph ls Hnum) Hsm). cbn [obind].
  rewrite decide_False by (cbn; lia). cbn [obind].
  assert (Hlast : list.last (reverse ls) = Some entry) by (by rewrite last_reverse, head_lookup). rewrite Hlast.
  rewrite get_try, forget_get, Hb. cbn [obind fmap option_fmap option_map]. rewrite decide_True by done.
  replace (size_edges Into (with_immed_dom None b)) with (Z.of_nat (length (intothis b))) by (symmetry; apply i32_small; cbn; lia).
  destruct (Z.eqb_spec (Z.of_nat (length (intothis b))) 0) as [Hz|_]; [destruct (intothis b); [done|cbn in Hz; lia]|]. cbn [negb].
  rewrite bool_decide_true by done.
  destruct (create_root_ok B ls entry b Hok Hb Hels Hroom Hslots) as (Br & l & -> & Hr). set (v := length (slots B)) in *. cbn [obind].
  pose proof Hr as (_ & _ & _ & _ & Hov & _).
  assert (Hvr : is_Some (try_get Br v)) by (apply (view_live Br OutOf); by rewrite Hov). destruct Hvr as [rb Hrb].
  rewrite (edit_eq _ _ _ _ Hrb). cbn [obind]. fold (self_rooted Br v).
  assert (Hrs : try_get (self_rooted Br v) v = Some (with_immed_dom (Some v) rb)).
  { unfold self_rooted. rewrite try_get_map, Hrb. cbn. by rewrite decide_True. }
  rewrite get_try, Hrs. cbn [obind]. pose proof Hov as Hout. rewrite (view_get _ _ _ _ Hrb) in Hout. injection Hout as Hout. cbn [edges] in Hout.
  destruct (outofthis rb) as [|e [|]] eqn:Eb; try done. injection Hout as _ Hpe.
  unfold size_edges at 1. cbn [edges with_immed_dom outofthis]. rewrite Eb. change (Z.to_nat (i32 (Z.of_nat (length [e])))) with 1%nat. cbn [for_up].
  rewrite get_try, Hrs. cbn [obind]. unfold get_neighbour. cbn [edges with_immed_dom outofthis]. rewrite Eb.
  change (index [e] (Z.to_nat (u64 (Z.of_nat 0)))) with (Ok e). cbn [obind]. rewrite Hpe.
  rewrite (hang_ok B Br graph ls entry v l Hnum Hentry Hr). cbn [obind]. rewrite last_snoc.
  destruct (rooted_passes B Br graph ls entry v l Hok Hnum Hentry Hr) as (D & -> & HInv & Hst). cbn [obind].
  by apply (remove_root_ok B Br graph ls entry v l Hok Hnum Hentry Hr).
Qed.

(** ** Properties *)

(** C27: on a graph with one entry, numbered the way the spanning tree numbers it,
    the search for dominators ends and gives every block but the entry its
    immediate dominator: a block of the graph other than it, on every path from
    the entry to it, and behind every other block with that property.  Nothing
    else of the blocks changes, also when the entry has edges into it and a
    root is added for the search. *)
Theorem calc_dominator_correct B graph ls entry : edges_ok B -> numbered B graph ls -> ls !! 0%nat = Some entry ->
  room B Into entry -> Z.of_nat (length (slots B)) < 2 ^ 32 ->
  exists B', block_calc_forward_dominator B graph [entry] = Ok B' /\ edges_ok B' /\ dominators_found B ls entry B'.
Proof.
  intros Hok Hnum Hentry (b & Hb & Hroom) Hslots. destruct (decide (intothis b = [])) as [Hin|Hin].
  - by apply (calc_dominator_plain B graph ls entry Hok Hnum Hentry b).
  - by apply (calc_dominator_looped B graph ls entry b).
Qed.

Definition members : list nat := [1; 2; 3; 4; 5]%nat.

Lemma diamond_numbered : numbered diamond 0 members.
Proof.
  assert (Hflow : forall p q, flows diamond p q -> p ∈ members /\ q ∈ members).
  { intros p q (k & e & (b & Hb & He) & <-). destruct p as [|[|[|[|[|[|p]]]]]]; try discriminate Hb; injection Hb as <-;
      destruct k as [|[|k]]; cbn in He; try discriminate He; injection He as <-; split; vm_compute; set_solver. }
  split.
  - by eexists.
  - by apply (bool_decide_unpack (NoDup _)).
  - intros i p Hi. destruct i as [|[|[|[|[|i]]]]]; try discriminate Hi; injection Hi as <-; by eexists.
  - intros p q Hf. destruct (Hflow p q Hf). tauto.
  - intros i p Hi Hp. destruct i as [|[|[|[|[|i]]]]]; try discriminate Hp; [lia|..]; injection Hp as <-.
    + exists 0%nat, 1%nat. split; [lia|]. split; [done|]. by exists 0%nat, (out_edge diamond 1 0); split; [eexists|].
    + exists 0%nat, 1%nat. split; [lia|]. split; [done|]. by exists 1%nat, (out_edge diamond 1 1); split; [eexists|].
    + exists 1%nat, 2%nat. split; [lia|]. split; [done|]. by exists 0%nat, (out_edge diamond 2 0); split; [eexists|].
    + exists 3%nat, 4%nat. split; [lia|]. split; [done|]. by exists 1%nat, (out_edge diamond 4 1); split; [eexists|].
  - done.
Qed.

Lemma calc_dominator_witness : exists B', block_calc_forward_dominator diamond 0 [1%nat] = Ok B' /\ edges_ok B' /\
  dominators_found diamond members 1 B'.
Proof.
  apply (calc_dominator_correct diamond 0 members 1); [by apply checked_arena_ok|apply diamond_numbered|done|by eexists|done].
Defined.

Definition two_entries : Blocks := Eval vm_compute in flow_graph 3 [(1, 3); (2, 3)]%nat.

(** With two entries the added root keeps the number 0 it was created with, the
    number of the first entry, and the search takes the one for the other: the
    block both entries lead to gets the first entry as its dominator, although
    it is reached from the second one without passing it. *)
Example two_entries_dominator :
  match block_calc_forward_dominator two_entries 0 [1; 2]%nat with Ok B' => immed_dom (block_at B' 3) | _ => None end = Some 1%nat /\
  flow_avoiding two_entries 2 1 3.
Proof.
  split; [by vm_compute|]. apply (flow_edge _ _ _ 2); [by constructor| |done]. exists 0%nat, (out_edge two_entries 2 0).
  split; [by eexists|done].
Qed.
