(* ===== verification/BlockTree.v ===== *)
(** The depth-first search of [src/src/block.rs]: [block_find_spanning_tree]
    numbers the blocks of a graph in reverse post order and sorts its edges into
    tree, back, forward and cross edges, [block_find_irreducible] and
    [block_calc_loop] mark the edges of loops, and [block_structure_loops] puts
    them together.

    A search is described by what it has done so far (a [search]): the order in
    which blocks were reached, the order in which they were left, the stack, the
    sizes and the labels given out.  [paint] is the arena of a search. *)
From stdpp Require Import base list gmap numbers strings.
From Stdlib Require Import ZArith Lia.
From S2P Require Import Prelude Bits Arena Block BlockGraph BlockEdges Dominators BlockDom.

(** ** Definitions *)

Definition block_clear_edge_flags (B : Blocks) (graph : nat) (fl : Z) : outcome Blocks :=
  let! g := get B graph in
  foldl (fun r child => let! B := r in edit B child (with_edges (fun _ l => with_label (fun x => without x fl) <$> l)))
    (Ok B) (block_list g).

Definition SEARCH_FLAGS : Z :=
  Z.lor F_IRREDUCIBLE (Z.lor F_TREE_EDGE (Z.lor F_FORWARD_EDGE (Z.lor F_CROSS_EDGE
    (Z.lor F_BACK_EDGE (Z.lor F_LOOP_EDGE F_LOOP_EXIT_EDGE))))).

(** The variables of the search.  [state] and [istate], which grow and shrink
    together, are one stack of pairs with its top first. *)
Record tree_state : Type := mk_tree_state {
  t_blocks : Blocks; t_preorder : list nat; t_stack : list (nat * Z);
  t_rpostorder : list (option nat); t_rpostcount : Z }.

(** A block is reached. *)
Definition enter_block (st : tree_state) (bl : nat) : outcome tree_state :=
  let pre := t_preorder st in
  let! B := edit (t_blocks st) bl (with_visitcount (i32 (Z.of_nat (length pre)))) in
  let! B := edit B bl (with_numdesc 1) in
  Ok (mk_tree_state B (pre ++ [bl]) ((bl, 0) :: t_stack st) (t_rpostorder st) (t_rpostcount st)).

(** One round of [while let Some(curbl) = state.last().copied()]. *)
Definition tree_step (st : tree_state) : outcome (tree_state + tree_state) :=
  match t_stack st with
  | [] => Ok (inr st)
  | (curbl, curstate) :: stack =>
      let B := t_blocks st in
      let! cur := get B curbl in
      if size_edges OutOf cur <=? curstate then
        let rpostcount := u64 (t_rpostcount st - 1) in
        let! B := edit B curbl (with_index (i32 rpostcount)) in
        let! rpostorder := store (t_rpostorder st) (Z.to_nat rpostcount) (Some curbl) in
        let! B :=
          match stack with
          | [] => Ok B
          | (parentbl, _) :: _ =>
              let! cur := get B curbl in
              edit B parentbl (fun p => with_numdesc (i32 (numdesc p + numdesc cur)) p)
          end in
        Ok (inl (mk_tree_state B (t_preorder st) stack rpostorder rpostcount))
      else
        let edgenum := curstate in
        let stack := (curbl, i32 (curstate + 1)) :: stack in
        let next B := mk_tree_state B (t_preorder st) stack (t_rpostorder st) (t_rpostcount st) in
        let! edge := get_edge B OutOf curbl (u64 edgenum) in
        if has_label F_IRREDUCIBLE edge then Ok (inl (next B)) else
        let! childbl := get_neighbour OutOf cur edgenum in
        let! child := get B childbl in
        if visitcount child =? -1 then
          let! B := block_set_out_edge_flag B curbl edgenum F_TREE_EDGE in
          let! st := enter_block (next B) childbl in
          Ok (inl st)
        else
          let! B := block_set_out_edge_flag B curbl edgenum
            (if block_index child =? -1 then Z.lor F_BACK_EDGE F_LOOP_EDGE
             else if visitcount cur <? visitcount child then F_FORWARD_EDGE else F_CROSS_EDGE) in
          Ok (inl (next B))
  end.

(** A round leaves a block or passes an edge. *)
Definition arena_weight (B : Blocks) (p : nat) : nat := match try_get B p with Some b => S (length (outofthis b)) | None => 0 end.
Definition tree_fuel (B : Blocks) : nat := S (sum_list_with (arena_weight B) (seq 0 (length (slots B)))).

(** The search for the next root that was not reached yet; the others are taken
    off the list. *)
Definition next_root_step (B : Blocks) (st : list nat * nat) : outcome (list nat * nat + list nat * nat * option nat) :=
  let '(rootlist, rootindex) := st in
  match rootlist !! rootindex with
  | None => Ok (inr (rootlist, rootindex, None))
  | Some candidate =>
      let! c := get B candidate in
      if visitcount c =? -1 then Ok (inr (rootlist, S rootindex, Some candidate))
      else Ok (inl (delete rootindex rootlist, rootindex))
  end.

(** The first member that was not reached, or the last member. *)
Fixpoint choose_start (B : Blocks) (chosen : nat) (l : list nat) : outcome nat :=
  match l with
  | [] => Ok chosen
  | child :: l => let! c := get B child in if visitcount c =? -1 then Ok child else choose_start B child l
  end.

(** One round of [while preorder.len() < list.len()]; the state also has
    [rootlist], [rootindex] and [extraroots]. *)
Definition root_step (l : list nat) (st : tree_state * list nat * nat * bool)
    : outcome (tree_state * list nat * nat * bool + tree_state * list nat * bool) :=
  let '(st, rootlist, rootindex, extraroots) := st in
  if decide (length (t_preorder st) < length l)%nat then
    let B := t_blocks st in
    let! (rootlist, rootindex, startbl) := loop (S (length rootlist)) (next_root_step B) (rootlist, rootindex) in
    let! (rootlist, rootindex, startbl, extraroots) :=
      match startbl with
      | Some startbl => Ok (rootlist, rootindex, startbl, extraroots)
      | None =>
          let! first := index l 0 in
          let! chosen := choose_start B first l in
          Ok (rootlist ++ [chosen], S rootindex, chosen, true)
      end in
    let! st := enter_block st startbl in
    let! st := loop (tree_fuel (t_blocks st)) tree_step st in
    Ok (inl (st, rootlist, rootindex, extraroots))
  else Ok (inr (st, rootlist, extraroots)).

(** One round of [for repeat in 0..2], up to the test of [extraroots]. *)
Definition tree_attempt (B : Blocks) (graph : nat) (l preorder rootlist : list nat) (rpostorder : list (option nat))
    : outcome (tree_state * list nat * bool) :=
  let! B := block_clear_edge_flags B graph SEARCH_FLAGS in
  loop (S (length l)) (root_step l) (mk_tree_state B preorder [] rpostorder (Z.of_nat (length l)), rootlist, 0%nat, false).

Definition reset_block (child : nat) (b : FlowBlock) : FlowBlock :=
  with_copymap (Some child) (with_visitcount (-1) (with_index (-1) b)).

(** [Vec::swap]. *)
Definition swap_at (l : list nat) (i j : nat) : outcome (list nat) :=
  let! x := index l i in let! y := index l j in Ok (<[j := x]> (<[i := y]> l)).

Definition swap_ends (l : list nat) : outcome (list nat) :=
  if decide (1 < length l)%nat then swap_at l 0 (length l - 1) else Ok l.

Definition collect_order (rpostorder : list (option nat)) : outcome (list nat) :=
  foldl (fun r o => let! l := r in match o with Some x => Ok (l ++ [x]) | None => Panic end) (Ok []) rpostorder.

Definition block_find_spanning_tree (B : Blocks) (graph : nat) (preorder rootlist : list nat)
    : outcome (Blocks * list nat * list nat) :=
  let! g := get B graph in
  let l := block_list g in
  match l with
  | [] => Ok (B, preorder, rootlist)
  | first :: _ =>
      let! (B, rootlist) := foldl (fun r child =>
        let! (B, rootlist) := r in
        let! B := edit B child (reset_block child) in
        let! b := get B child in
        Ok (B, if size_edges Into b =? 0 then rootlist ++ [child] else rootlist)) (Ok (B, rootlist)) l in
      let! rootlist := if decide (rootlist = []) then Ok [first] else swap_ends rootlist in
      let origrootpos := (length rootlist - 1)%nat in
      let! (st, rootlist, extraroots) := tree_attempt B graph l preorder rootlist (replicate (length l) None) in
      let! (st, rootlist) :=
        if extraroots : bool then
          let! rootlist := swap_at rootlist (length rootlist - 1) origrootpos in
          let! B := foldl (fun r child => let! B := r in edit B child (reset_block child)) (Ok (t_blocks st)) l in
          let! (st, rootlist, extraroots) := tree_attempt B graph l [] rootlist (t_rpostorder st) in
          if extraroots : bool then Err (Lowlevel "Could not generate spanning tree") else Ok (st, rootlist)
        else Ok (st, rootlist) in
      let! rootlist := swap_ends rootlist in
      let! order := collect_order (t_rpostorder st) in
      let! B := edit (t_blocks st) graph (with_list order) in
      Ok (B, t_preorder st, rootlist)
  end.

(** *** Irreducible edges *)

(** The sources of the back edges into [head], one per edge. *)
Definition back_source_step (head : nat) (slot : nat) (st : Blocks * list nat) : outcome (Blocks * list nat) :=
  let '(B, reachunder) := st in
  let! edge := get_edge B Into head (Z.of_nat slot) in
  if negb (has_label F_BACK_EDGE edge) then Ok (B, reachunder) else
  let source := point edge in
  if bool_decide (source = head) then Ok (B, reachunder) else
  let! s := get B source in
  match copymap s with
  | None => Panic
  | Some ymap => let! B := edit B ymap set_mark in Ok (B, reachunder ++ [ymap])
  end.

(** An edge into a block [member] under [head]; the state also has
    [irreduciblecount] and [needrebuild]. *)
Definition under_edge_step (head member : nat) (slot : nat) (st : Blocks * list nat * Z * bool)
    : outcome (Blocks * list nat * Z * bool) :=
  let '(B, reachunder, count, needrebuild) := st in
  let! edge := get_edge B Into member (Z.of_nat slot) in
  if has_label F_IRREDUCIBLE edge then Ok st else
  let source := point edge in
  let! s := get B source in
  match copymap s with
  | None => Panic
  | Some yprime =>
      let! x := get B head in
      let! y := get B yprime in
      if (visitcount x >? visitcount y) || (i32 (visitcount x + numdesc x) <=? visitcount y) then
        let edgeout := reverse_index edge in
        let! B := block_set_out_edge_flag B source edgeout F_IRREDUCIBLE in
        let! edge := get_edge B Into member (Z.of_nat slot) in
        if has_label F_TREE_EDGE edge then Ok (B, reachunder, i32 (count + 1), true)
        else
          let! B := block_clear_out_edge_flag B source edgeout (Z.lor F_CROSS_EDGE F_FORWARD_EDGE) in
          Ok (B, reachunder, i32 (count + 1), needrebuild)
      else if negb (is_mark y) && negb (bool_decide (yprime = head)) then
        let! B := edit B yprime set_mark in Ok (B, reachunder ++ [yprime], count, needrebuild)
      else Ok st
  end.

(** One round of [while queue_index < reachunder.len()]. *)
Definition under_step (head : nat) (st : Blocks * list nat * Z * bool * nat)
    : outcome (Blocks * list nat * Z * bool * nat + Blocks * list nat * Z * bool) :=
  let '(B, reachunder, count, needrebuild, queue_index) := st in
  match reachunder !! queue_index with
  | None => Ok (inr (B, reachunder, count, needrebuild))
  | Some member =>
      let! b := get B member in
      let! st := for_up (Z.to_nat (size_edges Into b)) 0 (under_edge_step head member) (B, reachunder, count, needrebuild) in
      let '(B, reachunder, count, needrebuild) := st in
      Ok (inl (B, reachunder, count, needrebuild, S queue_index))
  end.

(** The blocks pushed after the first ones are marked and no block is pushed
    while it is marked, so the queue is no longer than the edges into [head] and
    the blocks together. *)
Definition irreducible_step (preorder : list nat) (position : nat) (st : Blocks * Z * bool) : outcome (Blocks * Z * bool) :=
  let '(B, count, needrebuild) := st in
  let! head := index preorder position in
  let! h := get B head in
  let! (B, reachunder) := for_up (Z.to_nat (size_edges Into h)) 0 (back_source_step head) (B, []) in
  let! st := loop (S (length reachunder + length (slots B))) (under_step head) (B, reachunder, count, needrebuild, 0%nat) in
  let '(B, reachunder, count, needrebuild) := st in
  let! B := foldl (fun r member => let! B := r in edit B member (fun b => with_copymap (Some head) (clear_mark b))) (Ok B) reachunder in
  Ok (B, count, needrebuild).

Definition block_find_irreducible (B : Blocks) (preorder : list nat) (irreduciblecount : Z) : outcome (Blocks * Z * bool) :=
  for_down (length preorder) 0 (irreducible_step preorder) (B, irreduciblecount, false).

(** *** Loop edges *)

(** One round of [while let Some(bl) = path.last().copied()]; [path] and [state]
    are one stack of pairs with its top first. *)
Definition calc_loop_step (st : Blocks * list (nat * Z)) : outcome (Blocks * list (nat * Z) + Blocks) :=
  let '(B, path) := st in
  match path with
  | [] => Ok (inr B)
  | (bl, slot) :: path' =>
      let! b := get B bl in
      if slot >=? size_edges OutOf b then
        let! B := edit B bl (with_flags (fun fl => without fl F_MARK2)) in Ok (inl (B, path'))
      else
        let path := (bl, i32 (slot + 1)) :: path' in
        let! edge := get_edge B OutOf bl (u64 slot) in
        if has_label F_LOOP_EDGE edge then Ok (inl (B, path)) else
        let! nextbl := get_neighbour OutOf b slot in
        let! c := get B nextbl in
        if negb (Z.land (flags c) F_MARK2 =? 0) then
          let! B := block_add_loop_edge B bl slot in Ok (inl (B, path))
        else if Z.land (flags c) F_MARK =? 0 then
          let! B := edit B nextbl (with_flags (fun fl => Z.lor fl (Z.lor F_MARK F_MARK2))) in Ok (inl (B, (nextbl, 0) :: path))
        else Ok (inl (B, path))
  end.

Definition block_calc_loop (B : Blocks) (graph : nat) : outcome Blocks :=
  let! g := get B graph in
  match block_list g with
  | [] => Ok B
  | first :: _ =>
      let! B := edit B first (with_flags (fun fl => Z.lor fl (Z.lor F_MARK F_MARK2))) in
      let! B := loop (tree_fuel B) calc_loop_step (B, [(first, 0)]) in
      foldl (fun r child => let! B := r in edit B child (with_flags (fun fl => without fl (Z.lor F_MARK F_MARK2))))
        (Ok B) (block_list g)
  end.

(** One round of the loop of [block_structure_loops]. *)
Definition structure_loops_step (graph : nat) (st : Blocks * list nat * Z) : outcome (Blocks * list nat * Z + Blocks * list nat * Z) :=
  let '(B, rootlist, count) := st in
  let! (B, preorder, rootlist) := block_find_spanning_tree B graph [] rootlist in
  let! (B, count, needrebuild) := block_find_irreducible B preorder count in
  if needrebuild : bool then
    let! B := block_clear_edge_flags B graph
      (Z.lor F_TREE_EDGE (Z.lor F_FORWARD_EDGE (Z.lor F_CROSS_EDGE (Z.lor F_BACK_EDGE F_LOOP_EDGE)))) in
    Ok (inl (B, [], count))
  else Ok (inr (B, rootlist, count)).

(** The number of rounds is not bounded by the code; it is an argument. *)
Definition block_structure_loops (rounds : nat) (B : Blocks) (graph : nat) (rootlist : list nat) : outcome (Blocks * list nat) :=
  let! (B, rootlist, count) := loop rounds (structure_loops_step graph) (B, rootlist, 0) in
  let! B := if count >? 0 then block_calc_loop B graph else Ok B in
  Ok (B, rootlist).

(** ** Orders *)

Definition before (l : list nat) (x y : nat) : Prop := exists i j, (i < j)%nat /\ l !! i = Some x /\ l !! j = Some y.

Lemma before_app l x y z : before l x y -> before (l ++ [z]) x y.
Proof. intros (i & j & Hij & Hi & Hj). exists i, j. split; [done|]. by rewrite !lookup_app_l by (eapply lookup_lt_Some; done). Qed.

Lemma before_last l x z : x ∈ l -> before (l ++ [z]) x z.
Proof.
  intros [i Hi]%list_elem_of_lookup. pose proof (lookup_lt_Some _ _ _ Hi). exists i, (length l). split; [done|].
  rewrite lookup_app_l, lookup_app_r, Nat.sub_diag by lia. done.
Qed.

Lemma before_in l x y : before l x y -> x ∈ l /\ y ∈ l.
Proof. intros (i & j & _ & Hi & Hj). split; by eapply list_elem_of_lookup_2. Qed.

Lemma before_app_inv l x y z : z ∉ l -> before (l ++ [z]) x y -> before l x y \/ (y = z /\ x ∈ l).
Proof.
  intros Hz (i & j & Hij & Hi & Hj). apply lookup_app_Some in Hj as [Hj|[Hge Hj]].
  - pose proof (lookup_lt_Some _ _ _ Hj). rewrite lookup_app_l in Hi by lia. left. by exists i, j.
  - apply list_lookup_singleton_Some in Hj as [Hj ->]. right. split; [done|]. rewrite lookup_app_l in Hi by lia. by eapply list_elem_of_lookup_2.
Qed.

Lemma before_asym l x y : NoDup l -> before l x y -> before l y x -> False.
Proof.
  intros Hnd (i & j & Hij & Hi & Hj) (i' & j' & Hij' & Hi' & Hj').
  assert (j = i') by (by eapply NoDup_lookup). assert (i = j') by (by eapply NoDup_lookup). lia.
Qed.

Lemma before_number l x y i j : NoDup l -> l !! i = Some x -> l !! j = Some y -> before l x y <-> (i < j)%nat.
Proof.
  intros Hnd Hi Hj. split; [|intros; by exists i, j]. intros (i' & j' & Hij & Hi' & Hj').
  assert (i' = i) by (by eapply NoDup_lookup). assert (j' = j) by (by eapply NoDup_lookup). lia.
Qed.

Lemma number_none l p : p ∉ l -> number l p = None.
Proof.
  intros Hp. unfold number. destruct (list_find (eq p) l) as [[i q]|] eqn:E; [|done]. apply list_find_Some in E as (E & <- & _).
  destruct Hp. by eapply list_elem_of_lookup_2.
Qed.

Lemma number_some l p : p ∈ l -> NoDup l -> exists i, number l p = Some i /\ l !! i = Some p.
Proof. intros [i Hi]%list_elem_of_lookup Hnd. exists i. split; [by apply number_spec|done]. Qed.

Lemma number_snoc l q p : NoDup l -> q ∉ l -> number (l ++ [q]) p = if decide (p = q) then Some (length l) else number l p.
Proof.
  intros Hnd Hq. assert (Hnd' : NoDup (l ++ [q])) by (apply NoDup_app; split; [done|]; split; [set_solver|apply NoDup_singleton]).
  destruct (decide (p = q)) as [->|Hp].
  - apply number_spec; [done|]. by rewrite lookup_app_r, Nat.sub_diag by lia.
  - destruct (decide (p ∈ l)) as [Hin|Hno].
    + destruct (number_some l p Hin Hnd) as (i & -> & Hi). apply number_spec; [done|]. by rewrite lookup_app_l by (by eapply lookup_lt_Some).
    + rewrite !number_none; [done|done|]. set_solver.
Qed.

(** ** A search *)

Record search : Type := mk_search {
  s_pre : list nat; s_post : list nat; s_stack : list (nat * nat); s_desc : nat -> nat; s_label : nat -> nat -> Z }.

Inductive edge_kind : Type := Tree | Back | Forward | Cross.

Definition kind_label (k : edge_kind) : Z :=
  match k with Tree => F_TREE_EDGE | Back => Z.lor F_BACK_EDGE F_LOOP_EDGE | Forward => F_FORWARD_EDGE | Cross => F_CROSS_EDGE end.

(** An edge from [x] to [q], by the orders in which the two are reached and left.
    What is reached after the start of a tree edge and before its end is left
    before its end is. *)
Definition classified (pre post : list nat) (x q : nat) (k : edge_kind) : Prop :=
  match k with
  | Tree => before pre x q /\ (x ∈ post -> before post q x) /\
      forall z, before pre x z -> before pre z q -> z ∈ post /\ (q ∈ post -> before post z q)
  | Forward => before pre x q /\ (x ∈ post -> before post q x)
  | Back => (q = x \/ before pre q x) /\ (q ∈ post -> q = x \/ before post x q)
  | Cross => before pre q x /\ q ∈ post /\ (x ∈ post -> before post q x)
  end.

(** The stack, top first: the blocks on it were reached in its order, and
    everything reached since [x] is counted below [x]. *)
Fixpoint stacked (pre : list nat) (desc : nat -> nat) (stack : list nat) (limit : nat) : Prop :=
  match stack with
  | [] => True
  | x :: stack => exists i, pre !! i = Some x /\ (i < limit)%nat /\ desc x = (limit - i)%nat /\ stacked pre desc stack i
  end.

Section Tree.
Context (C : Blocks) (ls : list nat).
Notation n := (length ls).
Hypothesis Hok : edges_ok C.
Hypothesis Hnd : NoDup ls.
Hypothesis Hlive : forall p, p ∈ ls -> exists b, try_get C p = Some b /\ visitcount b = -1 /\ block_index b = -1.
Hypothesis Hclosed : forall p q, flows C p q -> p ∈ ls -> q ∈ ls.
Hypothesis Hclean : forall p k e, p ∈ ls -> edge_at C OutOf p k e -> Z.land (label e) SEARCH_FLAGS = 0.
Hypothesis Hn : Z.of_nat n < 2 ^ 31.

(** The arena of a search. *)
Definition paint_edges (A : search) (p : nat) (s : side) (l : list BlockEdge) : list BlockEdge :=
  imap (fun k e => with_label (fun x => Z.lor x (match s with OutOf => s_label A p k | Into => s_label A (point e) (Z.to_nat (reverse_index e)) end)) e) l.

Definition paint_block (A : search) (p : nat) (b : FlowBlock) : FlowBlock :=
  let b := match number (s_pre A) p with Some i => with_visitcount (Z.of_nat i) (with_numdesc (Z.of_nat (s_desc A p)) b) | None => b end in
  let b := match number (s_post A) p with Some i => with_index (Z.of_nat (n - 1 - i)) b | None => b end in
  with_edges (paint_edges A p) b.

Definition paint (A : search) : Blocks := map_blocks (paint_block A) C.

Definition search_state (A : search) : tree_state :=
  mk_tree_state (paint A) (s_pre A) ((fun '(x, k) => (x, Z.of_nat k)) <$> s_stack A)
    (replicate (n - length (s_post A)) None ++ (Some <$> reverse (s_post A))) (Z.of_nat (n - length (s_post A))).

Definition out_point (x k : nat) : option nat := try_get C x ≫= (fun b => point <$> outofthis b !! k).

(** The edges a search has looked at. *)
Definition passed (A : search) (x k : nat) : Prop :=
  (x ∈ s_post A /\ is_Some (out_point x k)) \/ exists m, (x, m) ∈ s_stack A /\ (k < m)%nat.

Record Searching (roots : list nat) (A : search) : Prop := {
  sr_pre : NoDup (s_pre A) /\ forall x, x ∈ s_pre A -> x ∈ ls;
  sr_post : NoDup (s_post A);
  sr_split : forall x, x ∈ s_pre A <-> x ∈ s_post A \/ x ∈ (s_stack A).*1;
  sr_disj : forall x, x ∈ s_post A -> x ∉ (s_stack A).*1;
  sr_slots : forall x m, (x, m) ∈ s_stack A -> (m <= length (outofthis (block_at C x)))%nat;
  sr_stack : stacked (s_pre A) (s_desc A) (s_stack A).*1 (length (s_pre A));
  sr_passed : forall x k q, passed A x k -> out_point x k = Some q ->
    exists kind, s_label A x k = kind_label kind /\ q ∈ s_pre A /\ classified (s_pre A) (s_post A) x q kind;
  sr_fresh : forall x k, ~ passed A x k -> s_label A x k = 0;
  sr_parent : forall v, v ∈ s_pre A -> v ∉ roots -> exists p k, out_point p k = Some v /\ s_label A p k = F_TREE_EDGE /\
    p ∈ s_pre A /\ classified (s_pre A) (s_post A) p v Tree;
  sr_desc : forall x i, x ∈ s_post A -> s_pre A !! i = Some x -> (i + s_desc A x <= length (s_pre A))%nat /\
    forall j y, s_pre A !! j = Some y -> (i <= j)%nat -> (j < i + s_desc A x)%nat <-> (y = x \/ before (s_post A) y x) }.

(** *** The arena of a search *)

Lemma try_get_paint A p : try_get (paint A) p = paint_block A p <$> try_get C p.
Proof. apply try_get_map. Qed.

Definition paint_fields (A : search) (p : nat) (b : FlowBlock) : FlowBlock :=
  let b := match number (s_pre A) p with Some i => with_visitcount (Z.of_nat i) (with_numdesc (Z.of_nat (s_desc A p)) b) | None => b end in
  match number (s_post A) p with Some i => with_index (Z.of_nat (n - 1 - i)) b | None => b end.

Lemma paint_split A : paint A = map_edges (paint_edges A) (map_blocks (paint_fields A) C).
Proof. unfold map_edges. by rewrite map_blocks_comp. Qed.

Lemma paint_fields_edges A p b s : edges s (paint_fields A p b) = edges s b.
Proof. unfold paint_fields. destruct (number (s_pre A) p), (number (s_post A) p), s; done. Qed.

Lemma paint_ok A : edges_ok (paint A).
Proof.
  rewrite paint_split. apply (edges_ok_labels (fun p s k e => with_label _ e)); [done|]. apply edges_ok_blocks; [|done]. intros p b s. apply paint_fields_edges.
Qed.

Lemma paint_block_edges A p b s : edges s (paint_block A p b) = paint_edges A p s (edges s b).
Proof. unfold paint_block. rewrite with_edges_edges. f_equal. apply paint_fields_edges. Qed.

Lemma edge_at_paint A s x k e : edge_at C s x k e ->
  edge_at (paint A) s x k (with_label (fun l => Z.lor l (match s with OutOf => s_label A x k | Into => s_label A (point e) (Z.to_nat (reverse_index e)) end)) e).
Proof.
  intros (b & Hb & He). exists (paint_block A x b). rewrite try_get_paint, Hb. split; [done|]. rewrite paint_block_edges.
  unfold paint_edges. by rewrite list_lookup_imap, He.
Qed.

Lemma out_point_edge x k q : out_point x k = Some q <-> exists e, edge_at C OutOf x k e /\ point e = q.
Proof.
  unfold out_point, edge_at. split.
  - destruct (try_get C x) as [b|]; [|done]. cbn. destruct (outofthis b !! k) as [e|] eqn:E; [|done]. intros [= <-]. eauto.
  - intros (e & (b & -> & He) & <-). cbn in *. by rewrite He.
Qed.

Lemma out_point_flows x k q : out_point x k = Some q -> flows C x q.
Proof. intros (e & He & <-)%out_point_edge. by exists k, e. Qed.

(** One more label. *)
Definition add_label (A : search) (x k : nat) (f : Z) : search :=
  mk_search (s_pre A) (s_post A) (s_stack A) (s_desc A)
    (fun y j => if decide (y = x /\ j = k) then Z.lor (s_label A x k) f else s_label A y j).

(** Which edge in names an edge out as its twin. *)
Lemma twin_key_point x k e j p i d : edge_at C OutOf x k e -> reverse_index e = Z.of_nat j -> edge_at C Into p i d ->
  point d = x -> Z.to_nat (reverse_index d) = k -> p = point e /\ i = j.
Proof.
  intros He Hj Hd Hp Hk. destruct (proj2 Hok _ _ _ _ Hd) as (k' & e' & Hk' & He' & Hpe & Hre). cbn in He'.
  assert (k' = k) as -> by lia. rewrite Hp in He'. pose proof (edge_at_inj _ _ _ _ _ _ He' He) as ->. split; [done|lia].
Qed.

Lemma twin_key x k e j i d : edge_at C OutOf x k e -> reverse_index e = Z.of_nat j -> edge_at C Into (point e) i d ->
  point d = x /\ Z.to_nat (reverse_index d) = k <-> j = i.
Proof.
  intros He Hj Hd. split; [intros [? ?]; by destruct (twin_key_point x k e j (point e) i d)|]. intros ->.
  destruct (proj2 Hok _ _ _ _ He) as (j' & d' & Hj' & Hd' & Hp & Hr). cbn in Hd'. assert (j' = i) as -> by lia.
  pose proof (edge_at_inj _ _ _ _ _ _ Hd' Hd) as ->. split; [done|lia].
Qed.

Lemma paint_label A x k e f : edge_at C OutOf x k e ->
  block_set_out_edge_flag (paint A) x (Z.of_nat k) f = Ok (paint (add_label A x k f)).
Proof.
  intros He. destruct (relabel_ok (fun l => Z.lor l f) (paint A) x k _ (paint_ok A) (edge_at_paint A OutOf x k e He)) as (B' & j & E & _ & _ & Hj & ->).
  unfold block_set_out_edge_flag. rewrite E. f_equal. cbn [point reverse_index with_label] in Hj |- *. rewrite !paint_split, !map_edges_comp.
  change (paint_fields (add_label A x k f)) with (paint_fields A). apply map_edges_ext. intros p b s Hb.
  rewrite try_get_map in Hb. destruct (try_get C p) as [c|] eqn:Hc; [|done]. injection Hb as <-. rewrite paint_fields_edges.
  destruct s; unfold at_list; apply list_eq; intros i.
  - (* the end of the edge *) rewrite (decide_False (P := p = x /\ Into = OutOf)) by naive_solver. unfold paint_edges.
    rewrite list_lookup_imap. destruct (decide (p = point e /\ Into = Into)) as [[-> _]|Hp].
    + rewrite list_lookup_alter, !list_lookup_imap.
      assert (Hkey : forall d, edges Into c !! i = Some d -> point d = x /\ Z.to_nat (reverse_index d) = k <-> j = i).
      { intros d Hd. apply (twin_key x k e j i d); [done..|by exists c]. }
      destruct (decide (j = i)) as [->|Hne]; destruct (edges Into c !! i) as [d|]; cbn -[edges]; try done.
      * destruct (proj2 (Hkey d eq_refl) eq_refl) as [-> ->]. rewrite decide_True by done. unfold with_label. cbn. by rewrite Z.lor_assoc.
      * specialize (Hkey d eq_refl). by rewrite decide_False by tauto.
    + rewrite list_lookup_imap. destruct (edges Into c !! i) as [d|] eqn:Ed; cbn; [|done]. rewrite decide_False; [done|].
      intros [Hd Hk]. apply Hp. split; [|done]. by apply (twin_key_point x k e j p i d); try done; exists c.
  - rewrite (decide_False (P := p = point e /\ OutOf = Into)) by naive_solver. unfold paint_edges. rewrite list_lookup_imap.
    destruct (decide (p = x /\ OutOf = OutOf)) as [[-> _]|Hp].
    + rewrite list_lookup_alter, !list_lookup_imap. destruct (decide (k = i)) as [->|Hne].
      * destruct (edges OutOf c !! i) as [d|]; cbn; [|done]. rewrite decide_True by done. unfold with_label. cbn. by rewrite Z.lor_assoc.
      * destruct (edges OutOf c !! i) as [d|]; cbn; [|done]. by rewrite decide_False by naive_solver.
    + rewrite list_lookup_imap. destruct (edges OutOf c !! i) as [d|]; cbn; [|done]. by rewrite decide_False by naive_solver.
Qed.

(** *** The moves of the search *)

Definition enter (A : search) (q : nat) : search :=
  mk_search (s_pre A ++ [q]) (s_post A) ((q, 0%nat) :: s_stack A) (fun p => if decide (p = q) then 1%nat else s_desc A p) (s_label A).

Definition leave (A : search) (x : nat) (stack : list (nat * nat)) : search :=
  mk_search (s_pre A) (s_post A ++ [x]) stack
    (fun p => match stack with (y, _) :: _ => if decide (p = y) then (s_desc A y + s_desc A x)%nat else s_desc A p | [] => s_desc A p end) (s_label A).

Definition pass (A : search) (x k : nat) (stack : list (nat * nat)) (f : Z) : search :=
  add_label (mk_search (s_pre A) (s_post A) ((x, S k) :: stack) (s_desc A) (s_label A)) x k f.

Lemma get_paint A x : x ∈ ls -> exists b, try_get C x = Some b /\ get (paint A) x = Ok (paint_block A x b).
Proof. intros Hx. destruct (Hlive x Hx) as (b & Hb & _). exists b. split; [done|]. by rewrite get_try, try_get_paint, Hb. Qed.

Lemma enter_paint A q : NoDup (s_pre A) -> q ∉ s_pre A -> q ∉ s_post A -> (length (s_pre A) < n)%nat -> q ∈ ls ->
  enter_block (search_state A) q = Ok (search_state (enter A q)).
Proof.
  intros Hp Hq Hqp Hlen Hin. destruct (Hlive q Hin) as (b & Hb & _). unfold enter_block. cbn [t_blocks t_preorder search_state].
  assert (Hg : try_get (paint A) q = Some (paint_block A q b)) by (by rewrite try_get_paint, Hb).
  rewrite (edit_eq _ _ _ _ Hg). cbn [obind]. erewrite edit_eq by (by rewrite try_get_map, Hg). cbn [obind].
  rewrite i32_small by lia. unfold search_state. do 2 f_equal. unfold paint. rewrite !map_blocks_comp. apply map_blocks_ext.
  intros p c Hc. unfold paint_block. cbn [s_pre s_post s_desc enter]. rewrite number_snoc by done. destruct (decide (p = q)) as [->|Hpq]; [|done].
  rewrite (number_none (s_pre A) q), (number_none (s_post A) q) by done. done.
Qed.

Lemma stacked_in pre desc stack limit x : stacked pre desc stack limit -> x ∈ stack -> exists i, pre !! i = Some x /\ (i < limit)%nat.
Proof.
  revert limit. induction stack as [|y stack IH]; intros limit Hs Hx; [by apply elem_of_nil in Hx|].
  destruct Hs as (i & Hi & Hlt & _ & Hs). apply elem_of_cons in Hx as [->|Hx]; [by exists i|]. destruct (IH i Hs Hx) as (j & ? & ?). exists j. split; [done|lia].
Qed.

Lemma stacked_ext pre pre' desc desc' stack limit : stacked pre desc stack limit ->
  (forall i x, pre !! i = Some x -> pre' !! i = Some x) -> (forall x, x ∈ stack -> desc' x = desc x) -> stacked pre' desc' stack limit.
Proof.
  revert limit. induction stack as [|y stack IH]; intros limit Hs Hp Hd; [done|]. destruct Hs as (i & Hi & Hlt & He & Hs).
  exists i. split; [by apply Hp|]. split; [done|]. split; [rewrite Hd by (by left); done|]. apply IH; [done..|]. intros x Hx. apply Hd. by right.
Qed.

Lemma stacked_nodup pre desc stack limit : NoDup pre -> stacked pre desc stack limit -> NoDup stack.
Proof.
  intros Hp. revert limit. induction stack as [|y stack IH]; intros limit Hs; [constructor|]. destruct Hs as (i & Hi & Hlt & _ & Hs).
  constructor; [|by eapply IH]. intros Hy. destruct (stacked_in _ _ _ _ _ Hs Hy) as (j & Hj & ?). assert (i = j) by (by eapply NoDup_lookup). lia.
Qed.

(** The top of the stack was reached last of the blocks on it. *)
Lemma top_last A roots x k stack y : Searching roots A -> s_stack A = (x, k) :: stack -> y ∈ s_pre A -> y ∉ s_post A -> y = x \/ before (s_pre A) y x.
Proof.
  intros HS Es Hy Hno. pose proof (sr_stack _ _ HS) as Hs. rewrite Es in Hs. destruct Hs as (i & Hi & _ & _ & Hs).
  destruct (proj1 (sr_split _ _ HS y) Hy) as [?|Hst]; [done|]. rewrite Es in Hst. apply elem_of_cons in Hst as [->|Hst]; [by left|].
  destruct (stacked_in _ _ _ _ _ Hs Hst) as (j & Hj & ?). right. by exists j, i.
Qed.

Lemma top_facts A roots x k stack : Searching roots A -> s_stack A = (x, k) :: stack ->
  x ∈ s_pre A /\ x ∉ s_post A /\ x ∈ ls /\ x ∉ stack.*1 /\ (length (s_post A) < n)%nat /\ (length (s_pre A) <= n)%nat.
Proof.
  intros HS Es. assert (Hst : x ∈ (s_stack A).*1) by (rewrite Es; by left).
  assert (Hpre : x ∈ s_pre A) by (apply (sr_split _ _ HS); by right).
  assert (Hno : x ∉ s_post A) by (intros Hp; by apply (sr_disj _ _ HS x)). destruct (sr_pre _ _ HS) as [Hnp Hsub].
  pose proof (stacked_nodup _ _ _ _ Hnp (sr_stack _ _ HS)) as Hns. rewrite Es in Hns. apply NoDup_cons in Hns as [Hns _].
  split; [done|]. split; [done|]. split; [by apply Hsub|]. split; [done|]. split.
  - assert (Hle : (length (s_post A ++ [x]) <= n)%nat); [|rewrite length_app in Hle; cbn in Hle; lia].
    apply submseteq_length, NoDup_submseteq.
    + apply NoDup_app. split; [apply (sr_post _ _ HS)|]. split; [set_solver|apply NoDup_singleton].
    + intros y [Hy|Hy%list_elem_of_singleton]%elem_of_app; [apply Hsub, (sr_split _ _ HS); by left|subst y; by apply Hsub].
  - by apply submseteq_length, NoDup_submseteq.
Qed.

(** *** The moves keep the invariant *)

Lemma classified_enter pre post x y q kind : q ∉ pre -> classified pre post x y kind -> classified (pre ++ [q]) post x y kind.
Proof.
  intros Hq. destruct kind; cbn; intros H; [|by intuition eauto using before_app..]. destruct H as (H1 & H2 & H3). pose proof (before_in _ _ _ H1) as [_ Hy].
  split; [by apply before_app|]. split; [done|]. intros z Hxz Hzy. apply before_app_inv in Hzy as [Hzy|[-> _]]; [|done..]. pose proof (before_in _ _ _ Hzy) as [Hz _].
  apply before_app_inv in Hxz as [Hxz|[-> _]]; [by apply H3|done..].
Qed.

Lemma classified_leave pre post z a b kind : NoDup pre -> classified pre post a b kind -> a ∈ pre -> b ∈ pre ->
  (forall y, y ∈ pre -> y ∉ post -> y = z \/ before pre y z) -> classified pre (post ++ [z]) a b kind.
Proof.
  intros Hnd' Hc Ha Hb Htop.
  assert (Hirr : forall y, ~ before pre y y) by (intros y Hy; by apply (before_asym pre y y)).
  assert (Hlate : before pre z b -> b ∈ post).
  { intros Hz. destruct (decide (b ∈ post)) as [|Hno]; [done|]. exfalso. destruct (Htop b Hb Hno) as [->|Hbz]; [by apply (Hirr z)|by apply (before_asym pre z b)]. }
  assert (Hin : forall y, y ∈ post ++ [z] -> y ∈ post \/ y = z) by set_solver.
  destruct kind; cbn in *.
  - destruct Hc as (H1 & H2 & H3). split; [done|]. split; [intros [Hp| ->]%Hin; [by apply before_app, H2|]; by apply before_last, Hlate|].
    intros y Hay Hyb. destruct (H3 y Hay Hyb) as [Hy Hyp]. split; [set_solver|]. intros [Hp| ->]%Hin; [by apply before_app, Hyp|by apply before_last].
  - destruct Hc as [H1 H2]. split; [done|]. intros [Hp| ->]%Hin.
    + destruct (H2 Hp) as [->|Hbe]; [by left|right; by apply before_app].
    + destruct (decide (a ∈ post)) as [Hap|Hno]; [right; by apply before_last|]. left. destruct (Htop a Ha Hno) as [->|Haz]; [done|].
      destruct H1 as [->|H1]; [done|]. by destruct (before_asym pre z a).
  - destruct Hc as [H1 H2]. split; [done|]. intros [Hp| ->]%Hin; [by apply before_app, H2|]. by apply before_last, Hlate.
  - destruct Hc as (H1 & H2 & H3). split; [done|]. split; [set_solver|]. intros [Hp| ->]%Hin; [by apply before_app, H3|by apply before_last].
Qed.

Lemma passed_in roots A x k : Searching roots A -> passed A x k -> x ∈ s_pre A.
Proof.
  intros HS [[Hx _]|(m & Hx & _)]; apply (sr_split _ _ HS); [by left|right]. apply list_elem_of_fmap. by exists (x, m).
Qed.

Lemma outs_point x k : is_Some (out_point x k) <-> (k < length (outofthis (block_at C x)))%nat.
Proof.
  unfold out_point, block_at. destruct (try_get C x) as [b|]; cbn; [|split; [by intros []|lia]]. rewrite fmap_is_Some. apply lookup_lt_is_Some.
Qed.

Lemma leave_keeps roots A x k stack : Searching roots A -> s_stack A = (x, k) :: stack -> k = length (outofthis (block_at C x)) ->
  Searching roots (leave A x stack).
Proof.
  intros HS Es Hk. destruct (top_facts A roots x k stack HS Es) as (Hxp & Hxo & Hxl & Hxs & _). destruct (sr_pre _ _ HS) as [Hnp Hsub].
  pose proof (sr_stack _ _ HS) as Hs. rewrite Es in Hs. destruct Hs as (i & Hi & Hlt & Hdx & Hs). cbn [fst] in Hi, Hdx.
  assert (Hpass : forall a j, passed (leave A x stack) a j <-> passed A a j).
  { intros a j. unfold passed, leave. cbn [s_post s_stack]. rewrite Es. split.
    - intros [[[Ha| ->%list_elem_of_singleton]%elem_of_app Hj]|(m & Ha & Hj)]; [left; done|right; exists k|right; exists m; split; [by right|done]].
      split; [by left|]. subst k. by apply outs_point.
    - intros [[Ha Hj]|(m & [[= -> ->]|Ha]%elem_of_cons & Hj)]; [left; split; [set_solver|done]| |right; by exists m].
      left. split; [set_solver|]. apply outs_point. by subst k. }
  assert (Hcl : forall a b kind, a ∈ s_pre A -> b ∈ s_pre A -> classified (s_pre A) (s_post A) a b kind -> classified (s_pre A) (s_post A ++ [x]) a b kind).
  { intros a b kind Ha Hb Hc. apply classified_leave; try done. intros y Hy Hno. by apply (top_last A roots x k stack). }
  split; cbn [s_pre s_post s_stack s_desc s_label leave].
  - done.
  - apply NoDup_app. split; [apply (sr_post _ _ HS)|]. split; [set_solver|apply NoDup_singleton].
  - intros y. rewrite (sr_split _ _ HS y), Es. cbn. rewrite elem_of_app, elem_of_cons, list_elem_of_singleton. tauto.
  - intros y [Hy| ->%list_elem_of_singleton]%elem_of_app; [|done]. pose proof (sr_disj _ _ HS y Hy) as Hd. rewrite Es in Hd. cbn in Hd. set_solver.
  - intros y m Hy. apply (sr_slots _ _ HS). rewrite Es. by right.
  - destruct stack as [|[y m] stack]; [done|]. cbn in Hs |- *. destruct Hs as (i' & Hi' & Hlt' & Hdy & Hs). exists i'. split; [done|]. split; [lia|].
    rewrite decide_True by done. split; [lia|]. eapply stacked_ext; [done|done|]. intros z Hz. rewrite decide_False; [done|]. intros ->.
    destruct (stacked_in _ _ _ _ _ Hs Hz) as (j & Hj & ?). assert (j = i') by (by eapply NoDup_lookup). lia.
  - intros a j q Hp%Hpass Hq. destruct (sr_passed _ _ HS a j q Hp Hq) as (kind & Hl & Hqi & Hc). exists kind. split; [done|]. split; [done|].
    apply Hcl; [by eapply passed_in|done..].
  - intros a j Hp. apply (sr_fresh _ _ HS). by rewrite Hpass in Hp.
  - intros v Hv Hr. destruct (sr_parent _ _ HS v Hv Hr) as (p & j & H1 & H2 & H3 & H4). exists p, j. split; [done|]. split; [done|]. split; [done|]. by apply (Hcl p v Tree).
  - assert (Hdesc : forall a, a ∉ stack.*1 -> (match stack with (y, _) :: _ => if decide (a = y) then (s_desc A y + s_desc A x)%nat else s_desc A a | [] => s_desc A a end) = s_desc A a).
    { intros a Ha. destruct stack as [|[y m] t]; [done|]. rewrite decide_False; [done|]. intros ->. apply Ha. by left. }
    intros a ia [Ha| ->%list_elem_of_singleton]%elem_of_app Hia.
    + rewrite Hdesc by (pose proof (sr_disj _ _ HS a Ha) as Hd; rewrite Es in Hd; cbn in Hd; set_solver).
      destruct (sr_desc _ _ HS a ia Ha Hia) as [Hle Hd]. split; [done|]. intros j y Hj Hij. rewrite (Hd j y Hj Hij).
      split; intros [->|Hb]; [by left|right; by apply before_app|by left|]. right. apply before_app_inv in Hb as [Hb|[-> _]]; [done..|done].
    + rewrite Hdesc by done. assert (ia = i) as -> by (by eapply NoDup_lookup). rewrite Hdx. split; [lia|]. intros j y Hj Hij.
      pose proof (lookup_lt_Some _ _ _ Hj). split; [|intros _; lia]. intros _. assert (Hy : y ∈ s_pre A) by (by eapply list_elem_of_lookup_2).
      destruct (decide (y ∈ s_post A)) as [Hyp|Hno]; [right; by apply before_last|]. destruct (top_last A roots x k stack y HS Es Hy Hno) as [->|Hb]; [by left|].
      apply (before_number _ y x j i) in Hb; [lia|done..].
Qed.

Lemma passed_pass A x k stack f a j : s_stack A = (x, k) :: stack -> x ∉ stack.*1 ->
  passed (pass A x k stack f) a j <-> passed A a j \/ (a = x /\ j = k).
Proof.
  intros Es Hxs. unfold passed. cbn [s_post s_stack pass add_label]. rewrite Es. split.
  - intros [H|(m & [[= -> ->]|Ha]%elem_of_cons & Hj)]; [by left; left| |left; right; exists m; split; [by right|done]].
    destruct (decide (j = k)) as [->|]; [by right|]. left. right. exists k. split; [by left|lia].
  - intros [[H|(m & [[= -> ->]|Ha]%elem_of_cons & Hj)]|[-> ->]]; [by left| |right; exists m; split; [by right|done]|].
    + right. exists (S k). split; [by left|lia].
    + right. exists (S k). split; [by left|lia].
Qed.

Lemma top_unpassed A roots x k stack : Searching roots A -> s_stack A = (x, k) :: stack -> ~ passed A x k.
Proof.
  intros HS Es. destruct (top_facts A roots x k stack HS Es) as (_ & Hxo & _ & Hxs & _). intros [[H _]|(m & H & Hm)]; [done|].
  rewrite Es in H. apply elem_of_cons in H as [[= ->]|H]; [lia|]. apply Hxs. apply list_elem_of_fmap. by exists (x, m).
Qed.

(** What the label of an edge says after [pass]. *)
Lemma pass_label A roots x k stack f a j : Searching roots A -> s_stack A = (x, k) :: stack ->
  s_label (pass A x k stack f) a j = if decide (a = x /\ j = k) then f else s_label A a j.
Proof.
  intros HS Es. cbn. destruct (decide _); [|done]. by rewrite (sr_fresh _ _ HS x k (top_unpassed A roots x k stack HS Es)).
Qed.

Lemma pass_slots A roots x k stack q : Searching roots A -> s_stack A = (x, k) :: stack -> out_point x k = Some q ->
  forall y m, (y, m) ∈ (x, S k) :: stack -> (m <= length (outofthis (block_at C y)))%nat.
Proof.
  intros HS Es Hq y m [[= -> ->]|Hy]%elem_of_cons.
  - assert (k < length (outofthis (block_at C x)))%nat by (apply outs_point; by eexists). lia.
  - apply (sr_slots _ _ HS). rewrite Es. by right.
Qed.

(** An edge to a block reached before. *)
Lemma pass_keeps roots A x k stack q kind : Searching roots A -> s_stack A = (x, k) :: stack -> out_point x k = Some q ->
  q ∈ s_pre A -> classified (s_pre A) (s_post A) x q kind -> Searching roots (pass A x k stack (kind_label kind)).
Proof.
  intros HS Es Hq Hqp Hc. destruct (top_facts A roots x k stack HS Es) as (Hxp & Hxo & Hxl & Hxs & _).
  pose proof (passed_pass A x k stack (kind_label kind)) as Hpass. pose proof (top_unpassed A roots x k stack HS Es) as Hun.
  assert (Hfst : ((x, S k) :: stack).*1 = (s_stack A).*1) by (by rewrite Es).
  split; cbn [s_pre s_post s_stack s_desc pass add_label]; rewrite ?Hfst; try apply HS.
  - by apply (pass_slots A roots x k stack q).
  - intros a j r Hp Hr. fold (pass A x k stack (kind_label kind)). apply Hpass in Hp; [|done..]. rewrite (pass_label A roots) by done.
    destruct Hp as [Hp|[-> ->]].
    + destruct (sr_passed _ _ HS a j r Hp Hr) as (kd & Hl & H). exists kd. split; [|done]. rewrite decide_False; [done|]. by intros [-> ->].
    + exists kind. rewrite decide_True by done. by simplify_eq.
  - intros a j Hp. fold (pass A x k stack (kind_label kind)). rewrite Hpass in Hp by done. rewrite (pass_label A roots) by done.
    rewrite decide_False by tauto. apply (sr_fresh _ _ HS). tauto.
  - intros v Hv Hr. destruct (sr_parent _ _ HS v Hv Hr) as (p & j & H1 & H2 & H3 & H4). exists p, j. split; [done|].
    fold (pass A x k stack (kind_label kind)). rewrite (pass_label A roots) by done. split; [|done]. destruct (decide (p = x /\ j = k)) as [[-> ->]|]; [|done].
    exfalso. rewrite (sr_fresh _ _ HS x k Hun) in H2. done.
Qed.

(** The parts of the invariant that entering a block keeps. *)
Lemma enter_desc roots A q x i : Searching roots A -> q ∉ s_pre A -> x ∈ s_post A -> (s_pre A ++ [q]) !! i = Some x ->
  (i + (if decide (x = q) then 1 else s_desc A x) <= length (s_pre A ++ [q]))%nat /\
  forall j y, (s_pre A ++ [q]) !! j = Some y -> (i <= j)%nat ->
    (j < i + (if decide (x = q) then 1 else s_desc A x))%nat <-> (y = x \/ before (s_post A) y x).
Proof.
  intros HS Hq Hx Hi. assert (Hxp : x ∈ s_pre A) by (apply (sr_split _ _ HS); by left). rewrite (decide_False (P := x = q)) by (intros ->; done).
  assert (Hi' : s_pre A !! i = Some x).
  { apply lookup_app_Some in Hi as [?|[_ Hi]]; [done|]. apply list_lookup_singleton_Some in Hi as [_ <-]. done. }
  destruct (sr_desc _ _ HS x i Hx Hi') as [Hle Hd]. rewrite length_app. split; [lia|]. intros j y Hj Hij.
  apply lookup_app_Some in Hj as [Hj|[Hge Hj]]; [by apply Hd|]. apply list_lookup_singleton_Some in Hj as [Hj <-]. split; [lia|].
  intros [->|Hb]; [done|]. apply before_in in Hb as [Hb _]. destruct Hq. apply (sr_split _ _ HS). by left.
Qed.

Lemma enter_stack roots A q (stack : list (nat * nat)) : Searching roots A -> q ∉ s_pre A -> stack.*1 = (s_stack A).*1 ->
  stacked (s_pre A ++ [q]) (fun p => if decide (p = q) then 1%nat else s_desc A p) (q :: stack.*1) (length (s_pre A ++ [q])).
Proof.
  intros HS Hq ->. exists (length (s_pre A)). rewrite lookup_app_r, Nat.sub_diag, length_app by lia. split; [done|]. cbn. split; [lia|].
  rewrite decide_True by done. split; [lia|]. eapply stacked_ext; [apply (sr_stack _ _ HS)| |].
  - intros i x Hi. by apply lookup_app_l_Some.
  - intros x Hx. rewrite decide_False; [done|]. intros ->. apply Hq, (sr_split _ _ HS). by right.
Qed.

Lemma tree_keeps roots A x k stack q : Searching roots A -> s_stack A = (x, k) :: stack -> out_point x k = Some q ->
  q ∉ s_pre A -> Searching roots (enter (pass A x k stack F_TREE_EDGE) q).
Proof.
  intros HS Es Hq Hqp. destruct (top_facts A roots x k stack HS Es) as (Hxp & Hxo & Hxl & Hxs & _). destruct (sr_pre _ _ HS) as [Hnp Hsub].
  pose proof (passed_pass A x k stack F_TREE_EDGE) as Hpass. pose proof (top_unpassed A roots x k stack HS Es) as Hun.
  assert (Hfst : ((x, S k) :: stack).*1 = (s_stack A).*1) by (by rewrite Es).
  assert (Hql : q ∈ ls) by (eapply Hclosed; [by eapply out_point_flows|done]).
  assert (Hqo : q ∉ s_post A) by (intros H; apply Hqp, (sr_split _ _ HS); by left).
  assert (Hpe : forall a j, passed (enter (pass A x k stack F_TREE_EDGE) q) a j <-> passed (pass A x k stack F_TREE_EDGE) a j).
  { intros a j. unfold passed, enter. cbn [s_post s_stack]. split; [|intros [H|(m & H & Hm)]; [by left|right; exists m; split; [by right|done]]].
    intros [H|(m & [[= -> ->]|H]%elem_of_cons & Hm)]; [by left|lia|right; by exists m]. }
  assert (Hnew : classified (s_pre A ++ [q]) (s_post A) x q Tree).
  { split; [by apply before_last|]. split; [done|]. intros z Hxz Hzq. split; [|done]. apply before_app_inv in Hzq as [Hzq|[_ Hz]]; [exfalso; by destruct (before_in _ _ _ Hzq)| |done].
    apply before_app_inv in Hxz as [Hxz|[-> _]]; [|done..]. destruct (decide (z ∈ s_post A)) as [|Hno]; [done|]. exfalso.
    destruct (top_last A roots x k stack z HS Es Hz Hno) as [->|Hzx]; [by apply (before_asym (s_pre A) x x)|by apply (before_asym (s_pre A) x z)]. }
  split; cbn [s_pre s_post s_stack s_desc enter pass add_label].
  - split; [apply NoDup_app; split; [done|]; split; [set_solver|apply NoDup_singleton]|]. intros y [Hy| ->%list_elem_of_singleton]%elem_of_app; [by apply Hsub|done].
  - apply (sr_post _ _ HS).
  - intros y. rewrite fmap_cons, Hfst, elem_of_app, (sr_split _ _ HS y). cbn [fst]. rewrite !elem_of_cons. pose proof (not_elem_of_nil y). tauto.
  - intros y Hy. rewrite fmap_cons, Hfst, not_elem_of_cons. split; [by intros ->|by apply (sr_disj _ _ HS)].
  - intros y m [[= -> ->]|Hy]%elem_of_cons; [lia|]. by apply (pass_slots A roots x k stack q).
  - by apply (enter_stack roots).
  - intros a j r Hp Hr. apply Hpe, Hpass in Hp; [|done..]. change (s_label (enter ?A _)) with (s_label A). rewrite (pass_label A roots) by done.
    destruct Hp as [Hp|[-> ->]].
    + destruct (sr_passed _ _ HS a j r Hp Hr) as (kd & Hl & Hin & Hc). exists kd. rewrite decide_False by (by intros [-> ->]). split; [done|].
      split; [set_solver|by apply classified_enter].
    + exists Tree. rewrite decide_True by done. simplify_eq. split; [done|]. split; [set_solver|done].
  - intros a j Hp. change (s_label (enter ?A _)) with (s_label A). rewrite (pass_label A roots) by done. rewrite Hpe, Hpass in Hp by done.
    rewrite decide_False by tauto. apply (sr_fresh _ _ HS). tauto.
  - intros v Hv Hr. change (s_label (enter ?A _)) with (s_label A). apply elem_of_app in Hv as [Hv|Hv].
    + destruct (sr_parent _ _ HS v Hv Hr) as (p & j & H1 & H2 & H3 & H4). exists p, j. split; [done|]. rewrite (pass_label A roots) by done.
      split; [|split; [set_solver|by apply classified_enter]]. destruct (decide (p = x /\ j = k)) as [[-> ->]|]; done.
    + apply list_elem_of_singleton in Hv as ->. exists x, k. rewrite (pass_label A roots), decide_True by done. split; [done|]. split; [done|]. split; [set_solver|done].
  - intros y i Hy Hi. by apply (enter_desc roots).
Qed.

(** A new root. *)
Lemma root_keeps roots A r : Searching roots A -> s_stack A = [] -> r ∉ s_pre A -> r ∈ ls -> Searching (r :: roots) (enter A r).
Proof.
  intros HS Es Hr Hrl. destruct (sr_pre _ _ HS) as [Hnp Hsub].
  assert (Hro : r ∉ s_post A) by (intros H; apply Hr, (sr_split _ _ HS); by left).
  assert (Hpe : forall a j, passed (enter A r) a j <-> passed A a j).
  { intros a j. unfold passed, enter. cbn [s_post s_stack]. rewrite Es. split; [|intros [H|(m & H & Hm)]; [by left|by apply elem_of_nil in H]].
    intros [H|(m & [[= -> ->]|H]%elem_of_cons & Hm)]; [by left|lia|by apply elem_of_nil in H]. }
  split; cbn [s_pre s_post s_stack s_desc s_label enter].
  - split; [apply NoDup_app; split; [done|]; split; [set_solver|apply NoDup_singleton]|]. intros y [Hy| ->%list_elem_of_singleton]%elem_of_app; [by apply Hsub|done].
  - apply (sr_post _ _ HS).
  - intros y. rewrite elem_of_app, (sr_split _ _ HS y), Es. cbn. rewrite !elem_of_cons. pose proof (not_elem_of_nil y). tauto.
  - intros y Hy. rewrite Es. cbn. rewrite not_elem_of_cons. split; [by intros ->|apply not_elem_of_nil].
  - intros y m [[= -> ->]|Hy]%elem_of_cons; [lia|]. rewrite Es in Hy. by apply elem_of_nil in Hy.
  - by apply (enter_stack roots).
  - intros a j q Hp%Hpe Hq. destruct (sr_passed _ _ HS a j q Hp Hq) as (kd & Hl & Hin & Hc). exists kd. split; [done|]. split; [set_solver|by apply classified_enter].
  - intros a j Hp. apply (sr_fresh _ _ HS). by rewrite <- Hpe.
  - intros v [Hv| ->%list_elem_of_singleton]%elem_of_app Hn'; [|set_solver].
    destruct (sr_parent _ _ HS v Hv ltac:(set_solver)) as (p & j & H1 & H2 & H3 & H4). exists p, j. split; [done|]. split; [done|]. split; [set_solver|by apply classified_enter].
  - intros y i Hy Hi. by apply (enter_desc roots).
Qed.

(** *** A round of the loop *)

Lemma paint_visit A x b : try_get C x = Some b -> x ∈ ls -> NoDup (s_pre A) ->
  visitcount (paint_block A x b) = match number (s_pre A) x with Some i => Z.of_nat i | None => -1 end.
Proof.
  intros Hb Hx Hp. destruct (Hlive x Hx) as (b' & Hb' & Hv & _). assert (b' = b) as -> by congruence.
  unfold paint_block. destruct (number (s_pre A) x), (number (s_post A) x); cbn; done.
Qed.

Lemma paint_index A x b : try_get C x = Some b -> x ∈ ls ->
  block_index (paint_block A x b) = match number (s_post A) x with Some i => Z.of_nat (n - 1 - i) | None => -1 end.
Proof.
  intros Hb Hx. destruct (Hlive x Hx) as (b' & Hb' & _ & Hv). assert (b' = b) as -> by congruence.
  unfold paint_block. destruct (number (s_pre A) x), (number (s_post A) x); cbn; done.
Qed.

Lemma paint_size A x b : try_get C x = Some b -> size_edges OutOf (paint_block A x b) = Z.of_nat (length (outofthis b)).
Proof.
  intros Hb. unfold size_edges. rewrite paint_block_edges. unfold paint_edges. rewrite length_imap. apply i32_small.
  pose proof (proj1 Hok x b OutOf Hb). cbn in *. lia.
Qed.

Lemma paint_neighbour A x b k e : try_get C x = Some b -> outofthis b !! k = Some e -> get_neighbour OutOf (paint_block A x b) (Z.of_nat k) = Ok (point e).
Proof.
  intros Hb He. pose proof (edge_at_small C OutOf x k e (proj1 Hok) ltac:(by exists b)).
  unfold get_neighbour. rewrite paint_block_edges. unfold paint_edges. rewrite u64_nat, Nat2Z.id by done. unfold index. rewrite list_lookup_imap. cbn [edges]. by rewrite He.
Qed.

Lemma painted_irreducible A roots x k e : Searching roots A -> x ∈ ls -> edge_at C OutOf x k e -> ~ passed A x k ->
  has_label F_IRREDUCIBLE (with_label (fun l => Z.lor l (s_label A x k)) e) = false.
Proof.
  intros HS Hx He Hun. rewrite (sr_fresh _ _ HS x k Hun). unfold has_label. cbn. rewrite Z.lor_0_r.
  assert (E : Z.land (label e) F_IRREDUCIBLE = Z.land (Z.land (label e) SEARCH_FLAGS) F_IRREDUCIBLE) by (by rewrite <- Z.land_assoc).
  by rewrite E, (Hclean x k e Hx He).
Qed.

Lemma leave_paint A roots x stack y m : Searching roots A -> s_stack A = (x, m) :: stack -> m = length (outofthis (block_at C x)) ->
  y = search_state (leave A x stack) -> tree_step (search_state A) = Ok (inl y).
Proof.
  intros HS Es Hm ->. destruct (top_facts A roots x m stack HS Es) as (Hxp & Hxo & Hxl & Hxs & Hlen & Hlep). destruct (sr_pre _ _ HS) as [Hnp Hsub].
  destruct (Hlive x Hxl) as (b & Hb & _). assert (Hbx : block_at C x = b) by (unfold block_at; by rewrite Hb).
  unfold tree_step. cbn [t_stack t_blocks t_preorder t_rpostorder t_rpostcount search_state]. rewrite Es. cbn [fmap list_fmap].
  rewrite get_try, try_get_paint, Hb. cbn [obind fmap option_fmap option_map]. rewrite (paint_size A x b Hb), Hm, Hbx, Z.leb_refl.
  rewrite u64_small by lia. rewrite i32_small by lia.
  replace (Z.to_nat (Z.of_nat (n - length (s_post A)) - 1)) with (n - S (length (s_post A)))%nat by lia.
  assert (Hgx : try_get (paint A) x = Some (paint_block A x b)) by (by rewrite try_get_paint, Hb).
  rewrite (edit_eq _ _ _ _ Hgx). cbn [obind]. rewrite store_ok by (rewrite length_app, length_replicate; lia). cbn [obind].
  assert (Hrp : <[(n - S (length (s_post A)))%nat := Some x]> (replicate (n - length (s_post A)) None ++ (Some <$> reverse (s_post A))) =
    replicate (n - length (s_post A ++ [x])) None ++ (Some <$> reverse (s_post A ++ [x]))).
  { rewrite reverse_app, length_app. cbn [length reverse rev_append app]. replace (n - length (s_post A))%nat with ((n - (length (s_post A) + 1)) + 1)%nat by lia.
    rewrite replicate_add, <- app_assoc. rewrite insert_app_r_alt by (rewrite length_replicate; lia). rewrite length_replicate. f_equal.
    replace (n - S (length (s_post A)) - (n - (length (s_post A) + 1)))%nat with 0%nat by lia. done. }
  rewrite Hrp. unfold search_state. cbn [s_pre s_post s_stack leave].
  replace (Z.of_nat (n - length (s_post A)) - 1) with (Z.of_nat (n - length (s_post A ++ [x]))) by (rewrite length_app; cbn; lia).
  pose proof (sr_stack _ _ HS) as Hs. rewrite Es in Hs. destruct Hs as (i & Hi & Hlt & Hdx & Hs). cbn [fst] in Hi, Hdx.
  assert (Hidx : Z.of_nat (n - length (s_post A ++ [x])) = Z.of_nat (n - 1 - length (s_post A))) by (rewrite length_app; cbn; lia).
  destruct stack as [|[z mz] stack].
  - cbn [obind fmap list_fmap]. do 3 f_equal. unfold paint. rewrite map_blocks_comp. apply map_blocks_ext. intros p c Hc. unfold paint_block.
    cbn [s_pre s_post s_desc s_stack leave]. rewrite number_snoc by (done || apply (sr_post _ _ HS)). destruct (decide (p = x)) as [->|]; [|done].
    rewrite (number_none (s_post A) x) by done. rewrite Hidx. done.
  - cbn [fmap list_fmap]. cbn in Hs. destruct Hs as (i' & Hi' & Hlt' & Hdz & _).
    assert (Hzl : z ∈ ls) by (apply Hsub; by eapply list_elem_of_lookup_2). destruct (Hlive z Hzl) as (c & Hc & _).
    assert (Hzx : z <> x) by (intros ->; apply Hxs; by left).
    assert (Hnum : forall q j, s_pre A !! j = Some q -> number (s_pre A) q = Some j) by (intros q j Hq; by apply number_spec).
    rewrite get_try, try_get_map, Hgx. cbn [obind fmap option_fmap option_map]. rewrite decide_True by done.
    erewrite edit_eq by (rewrite try_get_map, try_get_paint, Hc; done). cbn [obind]. do 3 f_equal.
    unfold paint. rewrite !map_blocks_comp. apply map_blocks_ext. intros p d Hd. unfold paint_block.
    cbn [s_pre s_post s_desc s_stack leave]. rewrite number_snoc by (done || apply (sr_post _ _ HS)).
    destruct (decide (p = z)) as [->|Hpz].
    + rewrite !(decide_False (P := z = x)) by done. rewrite (Hnum z i' Hi'), (Hnum x i Hi), (number_none (s_post A) x) by done.
      rewrite (number_none (s_post A) z) by (intros Hz; apply (sr_disj _ _ HS z Hz); rewrite Es; right; by left).
      cbn [numdesc with_edges with_index with_visitcount with_numdesc]. rewrite i32_small by lia.
      rewrite <- Nat2Z.inj_add. done.
    + destruct (decide (p = x)) as [->|]; [|done]. rewrite (number_none (s_post A) x) by done. rewrite Hidx. done.
Qed.

(** The rounds made so far. *)
Definition outs (x : nat) : nat := length (outofthis (block_at C x)).
Definition work (A : search) : nat := (sum_list_with (fun x => S (outs x)) (s_post A) + sum_list_with snd (s_stack A))%nat.

Lemma tree_step_ok roots A x k stack : Searching roots A -> s_stack A = (x, k) :: stack ->
  exists A', tree_step (search_state A) = Ok (inl (search_state A')) /\ Searching roots A' /\ work A' = S (work A) /\ s_pre A `prefix_of` s_pre A'.
Proof.
  intros HS Es. destruct (top_facts A roots x k stack HS Es) as (Hxp & Hxo & Hxl & Hxs & Hlen & Hlep). destruct (sr_pre _ _ HS) as [Hnp Hsub].
  destruct (Hlive x Hxl) as (b & Hb & _). assert (Hbx : block_at C x = b) by (unfold block_at; by rewrite Hb).
  pose proof (sr_slots _ _ HS x k ltac:(rewrite Es; by left)) as Hk. rewrite Hbx in Hk.
  destruct (decide (k = length (outofthis b))) as [Hall|Hmore].
  { exists (leave A x stack). split; [apply (leave_paint A roots x stack _ k); [done|done|by rewrite Hbx|done]|].
    split; [apply (leave_keeps roots A x k stack); [done|done|by rewrite Hbx]|]. split; [|done].
    unfold work, outs. rewrite Es. cbn [s_post s_stack leave]. rewrite sum_list_with_app. cbn. rewrite Hbx. lia. }
  destruct (lookup_lt_is_Some_2 (outofthis b) k ltac:(lia)) as [e He]. assert (Hat : edge_at C OutOf x k e) by (by exists b).
  assert (Hq : out_point x k = Some (point e)) by (apply out_point_edge; by exists e).
  pose proof (top_unpassed A roots x k stack HS Es) as Hun. pose proof (edge_at_small _ _ _ _ _ (proj1 Hok) Hat) as Hsk.
  assert (Hql : point e ∈ ls) by (eapply Hclosed; [by eapply out_point_flows|done]). destruct (Hlive (point e) Hql) as (c & Hc & _).
  assert (Hwork : forall f, work (pass A x k stack f) = S (work A)) by (intros f; unfold work; rewrite Es; cbn; lia).
  unfold tree_step. cbn [t_stack t_blocks t_preorder t_rpostorder t_rpostcount search_state]. rewrite Es. cbn [fmap list_fmap].
  rewrite get_try, try_get_paint, Hb. cbn [obind fmap option_fmap option_map]. rewrite (paint_size A x b Hb).
  destruct (Z.leb_spec (Z.of_nat (length (outofthis b))) (Z.of_nat k)); [lia|].
  rewrite (get_edge_eq _ _ _ k _ _ (edge_at_paint A OutOf x k e Hat)) by (by apply u64_nat). cbn [obind].
  rewrite (painted_irreducible A roots x k e HS Hxl Hat Hun). rewrite (paint_neighbour A x b k e Hb He). cbn [obind].
  rewrite get_try, try_get_paint, Hc. cbn [obind fmap option_fmap option_map].
  rewrite (paint_visit A (point e) c Hc Hql Hnp), (paint_visit A x b Hb Hxl Hnp), (paint_index A (point e) c Hc Hql).
  pose proof (proj1 Hok x b OutOf Hb) as Hsb. cbn [edges] in Hsb. rewrite i32_small by lia. replace (Z.of_nat k + 1) with (Z.of_nat (S k)) by lia.
  assert (Hpaint : forall f, block_set_out_edge_flag (paint A) x (Z.of_nat k) f = Ok (paint (pass A x k stack f))).
  { intros f. by rewrite (paint_label A x k e f Hat). }
  destruct (decide (point e ∈ s_pre A)) as [Hin|Hnew].
  - destruct (number_some _ _ Hin Hnp) as (j & -> & Hj). destruct (number_some _ _ Hxp Hnp) as (i & -> & Hi).
    destruct (Z.eqb_spec (Z.of_nat j) (-1)) as [|_]; [lia|].
    assert (Hkind : exists kind, classified (s_pre A) (s_post A) x (point e) kind /\
      (if match number (s_post A) (point e) with Some i => Z.of_nat (n - 1 - i) | None => -1 end =? -1 then Z.lor F_BACK_EDGE F_LOOP_EDGE
       else if Z.of_nat i <? Z.of_nat j then F_FORWARD_EDGE else F_CROSS_EDGE) = kind_label kind).
    { destruct (decide (point e ∈ s_post A)) as [Hpo|Hno].
      - destruct (number_some _ _ Hpo (sr_post _ _ HS)) as (l & -> & Hl). destruct (Z.eqb_spec (Z.of_nat (n - 1 - l)) (-1)) as [|_]; [lia|].
        destruct (Z.ltb_spec (Z.of_nat i) (Z.of_nat j)) as [Hij|Hij].
        + exists Forward. split; [|done]. split; [by exists i, j; split; [lia|]|done].
        + exists Cross. split; [|done]. assert (Hne : i <> j) by (intros ->; assert (Hpx : point e = x) by congruence; by rewrite Hpx in Hpo).
          split; [exists j, i; split; [lia|done]|]. split; [done|]. done.
      - rewrite (number_none _ _ Hno). exists Back. split; [|done]. split; [by apply (top_last A roots x k stack)|]. done. }
    destruct Hkind as (kind & Hcl & ->). rewrite Hpaint. cbn [obind]. exists (pass A x k stack (kind_label kind)).
    split; [done|]. split; [by apply (pass_keeps roots A x k stack (point e))|]. split; [apply Hwork|done].
  - rewrite (number_none _ _ Hnew). cbn [Z.eqb Pos.eqb]. rewrite Hpaint. cbn [obind].
    assert (Hlt : (length (s_pre A) < n)%nat).
    { assert (Hle : (length (s_pre A ++ [point e]) <= n)%nat); [|rewrite length_app in Hle; cbn in Hle; lia]. apply submseteq_length, NoDup_submseteq.
      - apply NoDup_app. split; [done|]. split; [set_solver|apply NoDup_singleton].
      - intros y [Hy|Hy%list_elem_of_singleton]%elem_of_app; [by apply Hsub|by subst y]. }
    match goal with |- context [enter_block ?st _] => change st with (search_state (pass A x k stack F_TREE_EDGE)) end.
    rewrite enter_paint; [|done|done|intros Hp; apply Hnew, (sr_split _ _ HS); by left|done|done]. cbn [obind]. eexists. split; [done|]. split; [by apply (tree_keeps roots A x k stack)|]. split; [|by exists [point e]].
    rewrite <- (Hwork F_TREE_EDGE). unfold work. cbn. lia.
Qed.

(** *** The loop *)

Lemma sum_part (f : nat -> nat) (X Y : list nat) : NoDup X -> (forall x, x ∈ X -> x ∈ Y) -> (sum_list_with f X <= sum_list_with f Y)%nat.
Proof.
  clear Hn.
  intros HX Hsub. destruct (submseteq_Permutation X Y) as [Z HZ]; [by apply NoDup_submseteq|]. rewrite HZ, sum_list_with_app. lia.
Qed.

Lemma sum_le (f g : nat -> nat) (X : list nat) : (forall x, x ∈ X -> (f x <= g x)%nat) -> (sum_list_with f X <= sum_list_with g X)%nat.
Proof.
  clear Hn.
  induction X as [|x X IH]; intros H; [done|]. cbn. pose proof (H x ltac:(by left)). assert (sum_list_with f X <= sum_list_with g X)%nat; [|lia].
  apply IH. intros y Hy. apply H. by right.
Qed.

Lemma stack_sum (stack : list (nat * nat)) : (forall x m, (x, m) ∈ stack -> (m <= outs x)%nat) -> (sum_list_with snd stack <= sum_list_with (fun x => S (outs x)) stack.*1)%nat.
Proof.
  clear Hn.
  induction stack as [|[x m] stack IH]; intros H; [done|]. cbn. pose proof (H x m ltac:(by left)).
  assert (sum_list_with snd stack <= sum_list_with (fun x => S (outs x)) stack.*1)%nat; [|cbn in *; lia]. apply IH. intros y k Hy. apply H. by right.
Qed.

(** Blocks that are done and the positions of those under way weigh less than the
    fuel. *)
Lemma weigh post (stack : list (nat * nat)) : NoDup (post ++ stack.*1) -> (forall x, x ∈ post ++ stack.*1 -> is_Some (try_get C x)) ->
  (forall x m, (x, m) ∈ stack -> (m <= outs x)%nat) ->
  (sum_list_with (fun x => S (outs x)) post + sum_list_with snd stack < tree_fuel C)%nat.
Proof.
  clear Hn.
  intros Hnd' Hin Hs. unfold tree_fuel. apply Nat.lt_succ_r. pose proof (stack_sum stack Hs).
  transitivity (sum_list_with (fun x => S (outs x)) (post ++ stack.*1)); [rewrite sum_list_with_app; lia|].
  transitivity (sum_list_with (arena_weight C) (post ++ stack.*1)).
  - apply sum_le. intros x Hx. destruct (Hin x Hx) as [b Hb]. unfold arena_weight, outs, block_at. by rewrite Hb.
  - apply sum_part; [done|]. intros x Hx. destruct (Hin x Hx) as [b Hb]. apply elem_of_seq. unfold try_get in Hb.
    destruct (slots C !! x) eqn:E; [|done]. apply lookup_lt_Some in E. lia.
Qed.

Lemma work_bound roots A : Searching roots A -> (work A < tree_fuel C)%nat.
Proof.
  intros HS. destruct (sr_pre _ _ HS) as [Hnp Hsub]. apply weigh.
  - apply NoDup_app. split; [apply (sr_post _ _ HS)|]. split; [apply (sr_disj _ _ HS)|]. by eapply stacked_nodup, (sr_stack _ _ HS).
  - intros x Hx. destruct (Hlive x) as (b & Hb & _); [|by exists b]. apply Hsub, (sr_split _ _ HS). by apply elem_of_app.
  - intros x m. apply (sr_slots _ _ HS).
Qed.

Lemma tree_fuel_paint A : tree_fuel (paint A) = tree_fuel C.
Proof.
  unfold tree_fuel. f_equal. unfold paint at 2. cbn [map_blocks slots]. rewrite length_imap.
  induction (seq 0 (length (slots C))) as [|x l IH]; [done|]. cbn. rewrite IH. f_equal. unfold arena_weight. rewrite try_get_paint.
  destruct (try_get C x) as [b|]; [|done]. cbn [fmap option_fmap option_map]. f_equal. pose proof (paint_block_edges A x b OutOf) as E. cbn [edges] in E. rewrite E. apply length_imap.
Qed.

Lemma tree_loop roots A fuel : Searching roots A -> (tree_fuel C <= fuel + work A)%nat ->
  exists A', loop fuel tree_step (search_state A) = Ok (search_state A') /\ Searching roots A' /\ s_stack A' = [] /\ s_pre A `prefix_of` s_pre A'.
Proof.
  revert A. induction fuel as [|fuel IH]; intros A HS Hf; [pose proof (work_bound roots A HS); lia|].
  cbn [loop]. destruct (s_stack A) as [|[x k] stack] eqn:Es.
  - exists A. split; [|done]. unfold tree_step at 1. cbn [t_stack search_state]. by rewrite Es.
  - destruct (tree_step_ok roots A x k stack HS Es) as (A1 & -> & HS1 & Hw & Hp). cbn [obind].
    destruct (IH A1 HS1 ltac:(lia)) as (A' & E & HS' & Es' & Hp'). exists A'. split; [done|]. split; [done|]. split; [done|]. by transitivity (s_pre A1).
Qed.

(** When the stack is empty, everything that can be reached has been. *)
Lemma finished_closed roots A x q : Searching roots A -> s_stack A = [] -> x ∈ s_pre A -> rtc (flows C) x q -> q ∈ s_pre A.
Proof.
  intros HS Es Hx. induction 1 as [|x y z (k & e & He & <-) _ IH]; [done|]. apply IH.
  assert (Hq : out_point x k = Some (point e)) by (apply out_point_edge; by exists e).
  destruct (sr_passed _ _ HS x k (point e)) as (kind & _ & Hin & _); [|done|done]. left. split; [|by eexists].
  apply (sr_split _ _ HS) in Hx as [Hx|Hx]; [done|]. rewrite Es in Hx. by apply elem_of_nil in Hx.
Qed.

(** *** A whole search from one root *)

Definition nothing : search := mk_search [] [] [] (fun _ => 0%nat) (fun _ _ => 0).

Lemma paint_nothing : paint nothing = C.
Proof.
  unfold paint. rewrite <- (map_blocks_id C) at 2. apply map_blocks_ext. intros p b _. unfold paint_block. cbn [number list_find s_pre s_post nothing fmap option_fmap option_map].
  assert (Hid : forall (g : nat -> BlockEdge -> Z) l, (forall k e, g k e = 0) -> imap (fun k e => with_label (fun x => Z.lor x (g k e)) e) l = l).
  { intros g l Hg. apply list_eq. intros i. rewrite list_lookup_imap. destruct (l !! i) as [e|]; [|done]. cbn. unfold with_label. rewrite Hg, Z.lor_0_r. by destruct e. }
  transitivity (with_edges (fun _ l => l) b); [|by destruct b]. apply with_edges_ext. intros s. unfold paint_edges. apply Hid. by intros; destruct s.
Qed.

Lemma searching_nothing : Searching [] nothing.
Proof.
  assert (Hno : forall {A} (x : A), x ∈ [] -> False) by (intros A x; apply not_elem_of_nil).
  split; cbn.
  - split; [constructor|]. intros x Hx. by apply Hno in Hx.
  - constructor.
  - intros x. split; [intros Hx; by apply Hno in Hx|intros [Hx|Hx]; by apply Hno in Hx].
  - intros x Hx. by apply Hno in Hx.
  - intros x m Hx. by apply Hno in Hx.
  - done.
  - intros x k q [[Hx _]|(m & Hx & _)]; by apply Hno in Hx.
  - done.
  - intros v Hv. by apply Hno in Hv.
  - intros x i Hx. by apply Hno in Hx.
Qed.

Lemma whole_search r : r ∈ ls -> (forall p, p ∈ ls -> rtc (flows C) r p) ->
  exists A, root_step ls (search_state nothing, [r], 0%nat, false) = Ok (inl (search_state A, [r], 1%nat, false)) /\
    Searching [r] A /\ s_pre A ≡ₚ ls /\ s_post A ≡ₚ ls /\ s_pre A !! 0%nat = Some r /\ last (s_post A) = Some r.
Proof.
  intros Hr Hreach. assert (Hpos : (0 < n)%nat) by (destruct ls; [by apply elem_of_nil in Hr|cbn; lia]).
  destruct (Hlive r Hr) as (b & Hb & Hv & _). unfold root_step. rewrite decide_True by (cbn; lia).
  cbn [length loop next_root_step lookup list_lookup]. unfold search_state at 1. cbn [t_blocks]. rewrite paint_nothing, get_try, Hb. cbn [obind]. rewrite Hv. cbn [Z.eqb Pos.eqb obind].
  rewrite enter_paint; [|constructor|apply not_elem_of_nil|apply not_elem_of_nil|cbn; lia|done]. cbn [obind].
  pose proof (root_keeps [] nothing r searching_nothing eq_refl (not_elem_of_nil r) Hr) as HS.
  destruct (tree_loop [r] (enter nothing r) (tree_fuel (t_blocks (search_state (enter nothing r)))) HS) as (A & -> & HA & Es & Hpre).
  { unfold search_state. cbn [t_blocks]. rewrite tree_fuel_paint. lia. }
  cbn [obind]. exists A. split; [done|]. split; [done|]. destruct (sr_pre _ _ HA) as [Hnp Hsub]. destruct Hpre as [t Ht]. cbn in Ht.
  assert (H0 : s_pre A !! 0%nat = Some r) by (by rewrite Ht).
  assert (Hall : forall p, p ∈ s_pre A <-> p ∈ ls).
  { intros p. split; [apply Hsub|]. intros Hp. apply (finished_closed [r] A r p HA Es); [by eapply list_elem_of_lookup_2|by apply Hreach]. }
  assert (Hpost : forall p, p ∈ s_post A <-> p ∈ ls).
  { intros p. rewrite <- Hall, (sr_split _ _ HA p), Es. cbn. pose proof (not_elem_of_nil p). tauto. }
  split; [by apply NoDup_Permutation|]. split; [by apply NoDup_Permutation; [apply HA|..]|]. split; [done|].
  destruct (last (s_post A)) as [z|] eqn:Ez.
  - f_equal. apply last_Some in Ez as [l El]. assert (Hz : z ∈ s_post A) by (rewrite El; set_solver).
    destruct (decide (z = r)) as [|Hne]; [done|]. exfalso. destruct (sr_parent _ _ HA z) as (p & k & _ & _ & Hp & _ & Hlast & _); [by apply Hall, Hpost|set_solver|].
    assert (Hpp : p ∈ s_post A) by (by apply Hpost, Hall). destruct (Hlast Hpp) as (i & j & Hij & Hi & Hj).
    assert (i = length l); [|pose proof (lookup_lt_Some _ _ _ Hj) as Hlt; rewrite El, length_app in Hlt; cbn in Hlt; lia].
    apply (NoDup_lookup (s_post A) i (length l) z); [apply HA|done|]. rewrite El. by rewrite lookup_app_r, Nat.sub_diag by lia.
  - apply last_None in Ez. destruct (not_elem_of_nil r). rewrite <- Ez. by apply Hpost.
Qed.

End Tree.

(** ** The whole call *)

(** A loop that edits each block of a list. *)
Definition edit_all (f : nat -> FlowBlock -> FlowBlock) (l : list nat) (B : Blocks) : Blocks :=
  map_blocks (fun p b => if decide (p ∈ l) then f p b else b) B.

Lemma edit_all_snoc f l x B b : x ∉ l -> try_get B x = Some b -> edit (edit_all f l B) x (f x) = Ok (edit_all f (l ++ [x]) B).
Proof.
  intros Hx Hb. unfold edit_all. rewrite (edit_eq _ _ _ b) by (rewrite try_get_map, Hb; cbn; by rewrite decide_False).
  f_equal. rewrite map_blocks_comp. apply map_blocks_ext. intros p c Hc. destruct (decide (p = x)) as [->|Hp].
  - by rewrite (decide_False (P := x ∈ l)), (decide_True (P := x ∈ l ++ [x])) by set_solver.
  - destruct (decide (p ∈ l)); [rewrite decide_True by set_solver|rewrite decide_False by set_solver]; done.
Qed.

Lemma edit_all_nil f B : edit_all f [] B = B.
Proof. unfold edit_all. rewrite <- (map_blocks_id B) at 2. apply map_blocks_ext. intros p b _. by rewrite decide_False by (apply not_elem_of_nil). Qed.

Lemma fold_edit_ok f l B : NoDup l -> (forall x, x ∈ l -> is_Some (try_get B x)) ->
  foldl (fun r child => let! B := r in edit B child (f child)) (Ok B) l = Ok (edit_all f l B).
Proof.
  intros Hnd Hl. rewrite <- (edit_all_nil f B) at 1.
  cut (forall k l', l = l' ++ k -> foldl (fun r child => let! B := r in edit B child (f child)) (Ok (edit_all f l' B)) k = Ok (edit_all f l B)).
  { intros H. by apply (H l []). }
  induction k as [|x k IH]; intros l' E; cbn [foldl].
  - by rewrite E, app_nil_r.
  - destruct (Hl x ltac:(set_solver)) as [b Hb]. cbn [obind]. rewrite E in Hnd. apply NoDup_app in Hnd as (_ & Hd & _).
    rewrite (edit_all_snoc f l' x B b) by (done || intros Hx; apply (Hd x Hx); by left). apply IH. by rewrite <- app_assoc.
Qed.

Definition clear_labels (fl : Z) (b : FlowBlock) : FlowBlock := with_edges (fun _ l => with_label (fun x => without x fl) <$> l) b.

(** The arena the search starts from. *)
Definition cleared (ls : list nat) (B : Blocks) : Blocks :=
  edit_all (fun p b => clear_labels SEARCH_FLAGS (reset_block p b)) ls B.

(** A graph whose members can all be reached from one of them, which has no
    edges into it or comes first. *)
Record rooted_graph (B : Blocks) (graph : nat) (ls : list nat) (r : nat) : Prop := {
  rg_graph : exists g, try_get B graph = Some g /\ block_list g = ls;
  rg_nodup : NoDup ls;
  rg_live : forall p, p ∈ ls -> is_Some (try_get B p);
  rg_closed : forall p q, flows B p q -> p ∈ ls <-> q ∈ ls;
  rg_root : r ∈ ls;
  rg_reach : forall p, p ∈ ls -> rtc (flows B) r p;
  rg_first : (exists b, try_get B r = Some b /\ intothis b = []) \/ ls !! 0%nat = Some r;
  rg_small : Z.of_nat (length ls) < 2 ^ 31 }.

Lemma flows_points (B : Blocks) p q : flows B p q <-> exists l, points B OutOf p = Some l /\ q ∈ l.
Proof.
  rewrite flows_view. unfold points. destruct (view B OutOf p) as [l|]; cbn; [|naive_solver]. split.
  - intros (l' & [= <-] & Hq). eauto.
  - intros (l' & [= <-] & Hq). eauto.
Qed.

Section Call.
Context (B : Blocks) (graph : nat) (ls : list nat) (r : nat).
Hypothesis Hok : edges_ok B.
Hypothesis Hrg : rooted_graph B graph ls r.

Lemma cleared_get p : try_get (cleared ls B) p = (fun b => if decide (p ∈ ls) then clear_labels SEARCH_FLAGS (reset_block p b) else b) <$> try_get B p.
Proof. apply try_get_map. Qed.

Lemma edge_at_cleared s p k e : edge_at (cleared ls B) s p k e <->
  exists e0, edge_at B s p k e0 /\ e = if decide (p ∈ ls) then with_label (fun x => without x SEARCH_FLAGS) e0 else e0.
Proof.
  unfold edge_at. rewrite cleared_get. split.
  - intros (b & Hb & He). destruct (try_get B p) as [b0|]; [|done]. injection Hb as <-. destruct (decide (p ∈ ls)) as [Hin|Hin].
    + unfold clear_labels in He. rewrite with_edges_edges, list_lookup_fmap in He. replace (edges s (reset_block p b0)) with (edges s b0) in He by (by destruct s).
      destruct (edges s b0 !! k) as [e0|] eqn:E; [|done]. injection He as <-. eauto.
    + eauto.
  - intros (e0 & (b & -> & He) & ->). eexists. split; [done|]. destruct (decide (p ∈ ls)); [|done].
    unfold clear_labels. rewrite with_edges_edges, list_lookup_fmap. replace (edges s (reset_block p b)) with (edges s b) by (by destruct s). by rewrite He.
Qed.

Lemma flows_cleared p q : flows (cleared ls B) p q <-> flows B p q.
Proof.
  unfold flows. split.
  - intros (k & e & He & <-). apply edge_at_cleared in He as (e0 & He & ->). exists k, e0. split; [done|]. by destruct (decide _).
  - intros (k & e & He & <-). exists k. eexists. split; [apply edge_at_cleared; by exists e|]. by destruct (decide _).
Qed.

Lemma cleared_ok : edges_ok (cleared ls B).
Proof.
  split.
  - intros p b s Hb. rewrite cleared_get in Hb. destruct (try_get B p) as [b0|] eqn:E; [|done]. injection Hb as <-. pose proof (proj1 Hok p b0 s E).
    destruct (decide (p ∈ ls)); [|done]. unfold clear_labels. rewrite with_edges_edges, length_fmap. by destruct s.
  - intros s p k e Hc. apply edge_at_cleared in Hc as (e0 & He & ->). destruct (proj2 Hok _ _ _ _ He) as (j & e' & Hj & He' & Hp & Hr).
    exists j. eexists. split; [by destruct (decide _)|]. split.
    + apply edge_at_cleared. exists e'. split; [by destruct (decide _)|]. reflexivity.
    + by destruct (decide (p ∈ ls)), (decide (point _ ∈ ls)).
Qed.

Lemma cleared_live p : p ∈ ls -> exists b, try_get (cleared ls B) p = Some b /\ visitcount b = -1 /\ block_index b = -1.
Proof.
  intros Hp. destruct (rg_live _ _ _ _ Hrg p Hp) as [b Hb]. rewrite cleared_get, Hb. cbn. rewrite decide_True by done. by eexists.
Qed.

Lemma cleared_clean p k e : p ∈ ls -> edge_at (cleared ls B) OutOf p k e -> Z.land (label e) SEARCH_FLAGS = 0.
Proof.
  intros Hp Hc. apply edge_at_cleared in Hc as (e0 & _ & ->). rewrite decide_True by done. cbn. unfold without. rewrite <- Z.land_assoc. apply Z.land_0_r.
Qed.

(** The loop over the members collects those without edges into them. *)
Definition no_in (p : nat) : bool := match try_get B p with Some b => size_edges Into b =? 0 | None => false end.

Lemma init_loop : foldl (fun r child =>
    let! (B, rootlist) := r in
    let! B := edit B child (reset_block child) in
    let! b := get B child in
    Ok (B, if size_edges Into b =? 0 then rootlist ++ [child] else rootlist)) (Ok (B, [])) ls = Ok (edit_all reset_block ls B, filter no_in ls).
Proof.
  rewrite <- (edit_all_nil reset_block B) at 1. set (step := fun r child => _). pose proof (rg_nodup _ _ _ _ Hrg) as Hnd.
  cut (forall k l', ls = l' ++ k -> foldl step (Ok (edit_all reset_block l' B, filter no_in l')) k = Ok (edit_all reset_block ls B, filter no_in ls)).
  { intros H. by apply (H ls []). }
  induction k as [|x k IH]; intros l' E; cbn [foldl].
  - by rewrite E, app_nil_r.
  - destruct (rg_live _ _ _ _ Hrg x ltac:(rewrite E; set_solver)) as [b Hb]. pose proof Hnd as Hnd'. rewrite E in Hnd'. apply NoDup_app in Hnd' as (_ & Hd & _).
    unfold step at 2. cbn [obind]. rewrite (edit_all_snoc reset_block l' x B b) by (done || intros Hx; apply (Hd x Hx); by left). cbn [obind].
    rewrite get_try. unfold edit_all at 1. rewrite try_get_map, Hb. cbn [fmap option_fmap option_map obind]. rewrite decide_True by set_solver.
    rewrite <- (IH (l' ++ [x])) by (by rewrite <- app_assoc). f_equal. do 2 f_equal. rewrite filter_app, filter_cons, filter_nil.
    change (size_edges Into (reset_block x b)) with (size_edges Into b). assert (Hno : no_in x = (size_edges Into b =? 0)) by (unfold no_in; by rewrite Hb).
    destruct (decide (no_in x)) as [Hi|Hi]; rewrite Hno in Hi; destruct (size_edges Into b =? 0); try done. by rewrite app_nil_r.
Qed.

Lemma reached_in p b : p ∈ ls -> p <> r -> try_get B p = Some b -> intothis b <> [].
Proof.
  intros Hp Hne Hb. pose proof (rg_reach _ _ _ _ Hrg p Hp) as Hr. apply rtc_inv_r in Hr as [->|(q & _ & Hf)]; [done|].
  apply (flows_in B q p Hok) in Hf as (k & e & (b' & Hb' & He) & _). assert (b' = b) as -> by congruence. intros Hn. cbn in He. by rewrite Hn in He.
Qed.

Lemma no_in_spec p b : try_get B p = Some b -> no_in p <-> intothis b = [].
Proof.
  intros Hb. unfold no_in. rewrite Hb. rewrite (same_size B Into p b) by (done || apply Hok). cbn [edges]. split.
  - intros H%Is_true_true%Z.eqb_eq. destruct (intothis b); [done|cbn in H; lia].
  - intros ->. done.
Qed.

Lemma roots_ok first rest : ls = first :: rest ->
  (if decide (filter no_in ls = []) then Ok [first] else swap_ends (filter no_in ls)) = Ok [r].
Proof.
  intros E. assert (Hsub : forall p, p ∈ filter no_in ls -> p = r).
  { intros p [Hp Hin]%list_elem_of_filter. destruct (decide (p = r)) as [|Hne]; [done|]. destruct (rg_live _ _ _ _ Hrg p Hin) as [b Hb].
    apply (no_in_spec p b Hb) in Hp. by destruct (reached_in p b Hin Hne Hb). }
  assert (Hnd : NoDup (filter no_in ls)) by (apply list.NoDup_filter, (rg_nodup _ _ _ _ Hrg)).
  destruct (filter no_in ls) as [|x [|y l]] eqn:Ef.
  - rewrite decide_True by done. do 2 f_equal. destruct (rg_first _ _ _ _ Hrg) as [(b & Hb & Hn)|H0]; [|rewrite E in H0; by injection H0].
    exfalso. destruct (not_elem_of_nil r). rewrite <- Ef. apply list_elem_of_filter. split; [by apply (no_in_spec r b Hb)|apply (rg_root _ _ _ _ Hrg)].
  - rewrite decide_False by done. rewrite (Hsub x) by (by left). done.
  - exfalso. apply NoDup_cons in Hnd as [Hx _]. apply Hx. rewrite (Hsub x), (Hsub y) by set_solver. by left.
Qed.

Lemma clear_ok B1 : B1 = edit_all reset_block ls B -> block_clear_edge_flags B1 graph SEARCH_FLAGS = Ok (cleared ls B).
Proof.
  intros ->. destruct (rg_graph _ _ _ _ Hrg) as (g & Hg & Hl). unfold block_clear_edge_flags. rewrite get_try. unfold edit_all at 1. rewrite try_get_map, Hg. cbn [fmap option_fmap option_map obind].
  replace (block_list (if decide (graph ∈ ls) then reset_block graph g else g)) with ls by (by destruct (decide _)).
  change (fun r child => let! B := r in edit B child (with_edges (fun _ l => with_label (fun x => without x SEARCH_FLAGS) <$> l)))
    with (fun r child => let! B := r in edit B child ((fun _ => clear_labels SEARCH_FLAGS) child)).
  rewrite fold_edit_ok; [|apply (rg_nodup _ _ _ _ Hrg)|].
  - f_equal. unfold edit_all, cleared. rewrite map_blocks_comp. apply map_blocks_ext. intros p b _. by destruct (decide (p ∈ ls)).
  - intros x Hx. unfold edit_all. rewrite try_get_map. destruct (rg_live _ _ _ _ Hrg x Hx) as [b ->]. by eexists.
Qed.

Lemma collect_some (l : list nat) : collect_order (Some <$> l) = Ok l.
Proof.
  unfold collect_order. set (step := fun r o => _). cut (forall k l' : list nat, foldl step (Ok l') (Some <$> k) = Ok (l' ++ k)); [intros H; apply (H l [])|].
  induction k as [|x k IH]; intros l'; [by rewrite app_nil_r|]. cbn. rewrite IH. by rewrite <- app_assoc.
Qed.

(** What the orders say of an edge of the given kind. *)
Definition sorted_edge (pre order : list nat) (x q : nat) (kind : edge_kind) : Prop :=
  match kind with
  | Tree => before pre x q /\ before order x q /\ forall z, before pre x z -> before pre z q -> before order q z
  | Forward => before pre x q /\ before order x q
  | Back => (q = x \/ before pre q x) /\ (q = x \/ before order q x)
  | Cross => before pre q x /\ before order x q
  end.

(** An edge seen from its start or from its end. *)
Definition along (s : side) (P : nat -> nat -> edge_kind -> Prop) (x q : nat) : edge_kind -> Prop :=
  match s with OutOf => P x q | Into => P q x end.

(** The fields that a search does not touch. *)
Definition kept (b : FlowBlock) : FlowBlock :=
  rest (with_list [] (with_copymap None (with_index 0 (with_visitcount 0 (with_numdesc 0 b))))).

(** The outcome of the call. *)
Record spanning (B' : Blocks) (pre order : list nat) : Prop := {
  sp_edges : edges_ok B';
  sp_numbered : numbered B' graph order;
  sp_pre : pre ≡ₚ ls /\ pre !! 0%nat = Some r;
  sp_order : order ≡ₚ ls /\ order !! 0%nat = Some r;
  sp_points : forall s p, points B' s p = points B s p;
  sp_kept : forall p, kept <$> try_get B' p = kept <$> try_get B p;
  sp_slots : length (slots B') = length (slots B);
  sp_visit : forall i x, pre !! i = Some x -> exists b, try_get B' x = Some b /\ visitcount b = Z.of_nat i /\ copymap b = Some x /\ 0 <= numdesc b <= Z.of_nat (length ls) - Z.of_nat i /\
    forall j y, pre !! j = Some y -> Z.of_nat i <= Z.of_nat j < Z.of_nat i + numdesc b <-> y = x \/ (before pre x y /\ before order x y);
  sp_labels : forall s x k e, x ∈ ls -> edge_at B s x k e -> exists e' kind, edge_at B' s x k e' /\ point e' = point e /\
    label e' = Z.lor (without (label e) SEARCH_FLAGS) (kind_label kind) /\ along s (sorted_edge pre order) x (point e) kind;
  sp_tree : forall v, v ∈ ls -> v <> r -> exists p k e, edge_at B' OutOf p k e /\ point e = v /\ has_label F_TREE_EDGE e = true /\ before order p v }.

Lemma before_reverse (l : list nat) x y : before (reverse l) x y <-> before l y x.
Proof.
  assert (H : forall l x y, before l x y -> before (reverse l) y x).
  { clear. intros l x y (i & j & Hij & Hi & Hj). pose proof (lookup_lt_Some _ _ _ Hj). exists (length l - S j)%nat, (length l - S i)%nat.
    rewrite !reverse_lookup by lia. split; [lia|]. replace (length l - S (length l - S j))%nat with j by lia.
    by replace (length l - S (length l - S i))%nat with i by lia. }
  split; [|apply H]. intros Hb. apply H in Hb. by rewrite reverse_involutive in Hb.
Qed.

Section Finish.
Context (A : search).
Notation C := (cleared ls B).
Notation order := (reverse (s_post A)).
Hypothesis HA : Searching C ls [r] A.
Hypothesis Hpre : s_pre A ≡ₚ ls.
Hypothesis Hpost : s_post A ≡ₚ ls.
Hypothesis Hpre0 : s_pre A !! 0%nat = Some r.
Hypothesis Hlast : last (s_post A) = Some r.

Definition finished : Blocks := map_blocks (fun p b => if decide (p = graph) then with_list order b else b) (paint C ls A).

Lemma finished_edges s p b : edges s (if decide (p = graph) then with_list order b else b) = edges s b.
Proof. destruct (decide _); by destruct s. Qed.

Lemma all_passed x k : x ∈ ls -> is_Some (out_point C x k) -> passed C A x k.
Proof. intros Hx Hk. left. split; [by rewrite Hpost|done]. Qed.

Lemma passed_kind x k q : x ∈ ls -> out_point C x k = Some q ->
  exists kind, s_label A x k = kind_label kind /\ sorted_edge (s_pre A) order x q kind.
Proof.
  intros Hx Hq. destruct (sr_passed _ _ _ _ HA x k q) as (kind & Hl & Hin & Hc); [apply all_passed; [done|by eexists]|done|].
  exists kind. split; [done|]. assert (Hxp : x ∈ s_post A) by (by rewrite Hpost). assert (Hqp : q ∈ s_post A) by (by rewrite Hpost, <- Hpre).
  destruct kind; cbn in *; rewrite ?before_reverse; [|naive_solver..]. destruct Hc as (H1 & H2 & H3). split; [done|]. split; [by apply H2|].
  intros z Hxz Hzq. apply before_reverse. by apply (H3 z Hxz Hzq).
Qed.

Lemma finished_labels s x k e : x ∈ ls -> edge_at B s x k e -> exists e' kind, edge_at finished s x k e' /\ point e' = point e /\
  label e' = Z.lor (without (label e) SEARCH_FLAGS) (kind_label kind) /\ along s (sorted_edge (s_pre A) order) x (point e) kind.
Proof.
  intros Hx He. assert (He1 : edge_at C s x k (with_label (fun l => without l SEARCH_FLAGS) e)).
  { apply edge_at_cleared. exists e. split; [done|]. by rewrite decide_True. }
  destruct (proj2 cleared_ok _ _ _ _ He1) as (j & e' & Hj & He' & Hp & Hk). cbn in Hj, He'.
  assert (Hkind : exists kind, match s with OutOf => s_label A x k | Into => s_label A (point e) (Z.to_nat (reverse_index e)) end = kind_label kind /\
    along s (sorted_edge (s_pre A) order) x (point e) kind).
  { destruct s; cbn in *.
    - rewrite Hj, Nat2Z.id. apply passed_kind; [|apply out_point_edge; by exists e']. apply (rg_closed _ _ _ _ Hrg (point e) x); [|done].
      apply flows_cleared. by exists j, e'.
    - apply passed_kind; [done|]. apply out_point_edge. by eexists. }
  destruct Hkind as (kind & Hl & Hs). eexists _, kind. split; [apply edge_at_blocks; [intros; apply finished_edges|by apply edge_at_paint]|].
  split; [done|]. split; [|done]. cbn. by rewrite Hl.
Qed.

Lemma finished_visit i x : s_pre A !! i = Some x -> exists b, try_get finished x = Some b /\ visitcount b = Z.of_nat i /\ copymap b = Some x /\
  0 <= numdesc b <= Z.of_nat (length ls) - Z.of_nat i /\ forall j y, s_pre A !! j = Some y -> Z.of_nat i <= Z.of_nat j < Z.of_nat i + numdesc b <-> y = x \/ (before (s_pre A) x y /\ before order x y).
Proof.
  intros Hi. assert (Hx : x ∈ ls) by (rewrite <- Hpre; by eapply list_elem_of_lookup_2). destruct (sr_pre _ _ _ _ HA) as [Hnp _].
  destruct (rg_live _ _ _ _ Hrg x Hx) as [b0 Hb0]. unfold finished. rewrite try_get_map, try_get_paint, cleared_get, Hb0. eexists. split; [done|].
  cbn [fmap option_fmap option_map]. rewrite (decide_True (P := x ∈ ls)) by done. set (b := clear_labels SEARCH_FLAGS (reset_block x b0)).
  assert (Hn : number (s_pre A) x = Some i) by (by apply number_spec).
  set (b' := if decide (x = graph) then _ else _). assert (Hv : visitcount b' = Z.of_nat i /\ numdesc b' = Z.of_nat (s_desc A x) /\ copymap b' = Some x).
  { unfold b', paint_block. rewrite Hn. destruct (decide _), (number (s_post A) x); done. }
  destruct Hv as (-> & -> & ->). split; [done|]. split; [done|].
  destruct (sr_desc _ _ _ _ HA x i ltac:(by rewrite Hpost) Hi) as [Hle Hd]. assert (Hlen : length (s_pre A) = length ls) by (by rewrite Hpre).
  split; [lia|]. intros j y Hj. rewrite before_reverse. split.
  - intros Hij. destruct (proj1 (Hd j y Hj ltac:(lia)) ltac:(lia)) as [->|Hb']; [by left|right]. split; [|done]. exists i, j. split; [|done].
    destruct (decide (i = j)) as [->|]; [|lia]. simplify_eq. destruct Hb' as (a & c & Hac & Ha & Hc).
    assert (a = c) by (by eapply (NoDup_lookup (s_post A)); [apply HA|..]). lia.
  - intros Hy. assert (Hij : (i <= j)%nat).
    { destruct Hy as [->|[Hxy _]]; [by rewrite (NoDup_lookup _ i j x Hnp Hi Hj)|]. apply (before_number _ x y i j) in Hxy; [lia|done..]. }
    assert (j < i + s_desc A x)%nat; [|lia]. apply (Hd j y Hj Hij). naive_solver.
Qed.

Lemma parent_edge v : v ∈ ls -> v <> r -> exists p k e, edge_at finished OutOf p k e /\ point e = v /\ has_label F_TREE_EDGE e = true /\ before order p v.
Proof.
  intros Hv Hne. destruct (sr_parent _ _ _ _ HA v) as (p & k & Hq & Hl & Hp & _ & Hb & _); [by rewrite Hpre|set_solver|].
  apply out_point_edge in Hq as (e & He & <-). exists p, k. eexists. split; [apply edge_at_blocks; [intros; apply finished_edges|by apply edge_at_paint]|].
  split; [done|]. split.
  - unfold has_label. cbn. rewrite Hl. rewrite negb_true_iff. apply Z.eqb_neq. intros E.
    assert (Ht : Z.testbit (Z.land (Z.lor (label e) F_TREE_EDGE) F_TREE_EDGE) 4 = true) by (rewrite Z.land_spec, Z.lor_spec; cbn; by rewrite orb_true_r).
    by rewrite E in Ht.
  - apply before_reverse, Hb. by rewrite Hpost, <- Hpre.
Qed.

Lemma finished_points s p : points finished s p = points B s p.
Proof.
  unfold points, finished. rewrite view_blocks by (intros; apply finished_edges). unfold view. rewrite try_get_paint, cleared_get.
  destruct (try_get B p) as [b|]; [|done]. cbn [fmap option_fmap option_map]. rewrite paint_block_edges. f_equal. rewrite <- !list_fmap_compose.
  apply list_eq. intros i. unfold paint_edges. rewrite !list_lookup_fmap, list_lookup_imap.
  destruct (decide (p ∈ ls)); [|by destruct (edges s b !! i)].
  unfold clear_labels. rewrite with_edges_edges, list_lookup_fmap. replace (edges s (reset_block p b)) with (edges s b) by (by destruct s). by destruct (edges s b !! i).
Qed.

Lemma finished_kept p : kept <$> try_get finished p = kept <$> try_get B p.
Proof.
  unfold finished. rewrite try_get_map, try_get_paint, cleared_get. destruct (try_get B p) as [b|]; [|done]. cbn [fmap option_fmap option_map]. f_equal.
  unfold paint_block. destruct (decide (p ∈ ls)), (decide (p = graph)), (number (s_pre A) p), (number (s_post A) p); done.
Qed.

Lemma order_first : order !! 0%nat = Some r.
Proof. by rewrite <- head_lookup, head_reverse. Qed.

Lemma finished_numbered : numbered finished graph order.
Proof.
  pose proof (sr_post _ _ _ _ HA) as Hnd. assert (Hlen : length (s_post A) = length ls) by (by rewrite Hpost).
  assert (Hmem : forall p, p ∈ order <-> p ∈ ls) by (intros p; by rewrite reverse_Permutation, Hpost).
  assert (Hndo : NoDup order) by (by rewrite reverse_Permutation).
  split.
  - destruct (rg_graph _ _ _ _ Hrg) as (g & Hg & _). unfold finished. rewrite try_get_map, try_get_paint, cleared_get, Hg. eexists. split; [done|].
    by rewrite decide_True.
  - done.
  - intros i p Hi. pose proof (lookup_lt_Some _ _ _ Hi) as Hlt. rewrite length_reverse in Hlt. rewrite reverse_lookup in Hi by done.
    assert (Hp : p ∈ ls) by (rewrite <- Hpost; by eapply list_elem_of_lookup_2). destruct (cleared_live p Hp) as (b & Hb & _).
    unfold finished. rewrite try_get_map, try_get_paint, Hb. eexists. split; [done|].
    transitivity (block_index (paint_block ls A p b)); [by destruct (decide _)|]. rewrite (paint_index C ls cleared_live A p b Hb Hp).
    rewrite (proj2 (number_spec (s_post A) Hnd p _) Hi). lia.
  - intros p q Hf. rewrite !Hmem. apply (rg_closed _ _ _ _ Hrg). revert Hf. rewrite !flows_points. by rewrite finished_points.
  - intros i p Hi Hp. assert (Hne : p <> r).
    { intros ->. pose proof order_first. assert (i = 0%nat) by (by apply (NoDup_lookup order i 0 r); [done|..]). lia. }
    destruct (parent_edge p) as (x & k & e & He & Hpe & _ & (a & c & Hac & Ha & Hc)); [apply Hmem; by eapply list_elem_of_lookup_2|done|].
    exists a, x. assert (c = i) as -> by (by apply (NoDup_lookup order c i p); [done|..]). split; [done|]. split; [done|]. by exists k, e.
  - rewrite length_reverse, Hlen. apply (rg_small _ _ _ _ Hrg).
Qed.

Lemma finished_spanning : spanning finished (s_pre A) order.
Proof.
  split.
  - apply edges_ok_blocks; [intros; apply finished_edges|]. apply paint_ok, cleared_ok.
  - apply finished_numbered.
  - done.
  - split; [by rewrite reverse_Permutation|apply order_first].
  - apply finished_points.
  - apply finished_kept.
  - unfold finished, paint, cleared, edit_all, map_blocks. cbn [slots]. by rewrite !length_imap.
  - apply finished_visit.
  - apply finished_labels.
  - apply parent_edge.
Qed.

End Finish.

Lemma find_tree_ok : exists B' pre order, block_find_spanning_tree B graph [] [] = Ok (B', pre, [r]) /\ spanning B' pre order.
Proof.
  destruct (rg_graph _ _ _ _ Hrg) as (g & Hg & Hl). assert (Hex : exists first rest, ls = first :: rest).
  { destruct ls as [|first rest]; [|eauto]. destruct (not_elem_of_nil r). apply (rg_root _ _ _ _ Hrg). }
  destruct Hex as (first & rest_ & El). unfold block_find_spanning_tree. rewrite get_try, Hg. cbn [obind]. rewrite Hl.
  pose proof init_loop as Hinit. pose proof (roots_ok first rest_ El) as Hroots. pose proof (clear_ok _ eq_refl) as Hclear.
  pose proof (rg_small _ _ _ _ Hrg) as Hsm.
  destruct (whole_search (cleared ls B) ls cleared_ok (rg_nodup _ _ _ _ Hrg) cleared_live) with (r := r) as (A & Hstep & HA & Hpre & Hpost & H0 & Hlast).
  { intros p q Hf Hp. apply flows_cleared in Hf. by apply (rg_closed _ _ _ _ Hrg p q Hf). }
  { apply cleared_clean. }
  { done. }
  { apply (rg_root _ _ _ _ Hrg). }
  { intros p Hp. pose proof (rg_reach _ _ _ _ Hrg p Hp) as Hr. clear -Hr. induction Hr as [|x y z Hxy _ IH]; [done|]. eapply rtc_l; [|done]. by apply flows_cleared. }
  exists (finished A), (s_pre A), (reverse (s_post A)). split; [|by apply finished_spanning].
  rewrite El at 1. cbn iota. rewrite Hinit. cbn [obind]. rewrite Hroots. cbn [obind length Nat.sub]. unfold tree_attempt. rewrite Hclear. cbn [obind].
  assert (Hlen : length (s_pre A) = length ls) by (by rewrite Hpre). assert (Hlen' : length (s_post A) = length ls) by (by rewrite Hpost).
  assert (Hrun : loop (S (length ls)) (root_step ls) (mk_tree_state (cleared ls B) [] [] (replicate (length ls) None) (Z.of_nat (length ls)), [r], 0%nat, false) =
    Ok (search_state (cleared ls B) ls A, [r], false)).
  { rewrite El at 1. cbn [length loop]. replace (mk_tree_state (cleared ls B) [] [] (replicate (length ls) None) (Z.of_nat (length ls))) with (search_state (cleared ls B) ls nothing).
    2:{ unfold search_state. rewrite paint_nothing. cbn. by rewrite Nat.sub_0_r, app_nil_r. }
    rewrite Hstep. cbn [obind loop]. unfold root_step at 1. rewrite decide_False by (cbn; lia). done. }
  rewrite Hrun. cbn [obind]. change (swap_ends [r]) with (Ok [r] : outcome (list nat)). cbn [obind].
  unfold search_state at 1. cbn [t_rpostorder]. rewrite Hlen', Nat.sub_diag. cbn [replicate app]. rewrite collect_some. cbn [obind].
  unfold search_state. cbn [t_blocks t_preorder].
  erewrite edit_eq by (rewrite try_get_paint, cleared_get, Hg; done). done.
Qed.

End Call.

(** ** Properties *)

(** C25: on a graph whose blocks are all reached from one entry the search ends
    with that entry as the only root.  Both orders list every block once, the
    entry first; every block is numbered by its place in the reverse post order
    and every block but the entry has a tree edge from an earlier one; each edge
    gets the label of its kind and the kinds are what the two orders say (a back
    edge does not go forward in the new list, a cross edge goes forward to a
    block reached earlier, the others go down the tree); the size of a block is
    the number of blocks below it, which follow it in preorder.  No edge is
    added, removed or moved. *)
Theorem spanning_tree_correct B graph ls r : edges_ok B -> rooted_graph B graph ls r ->
  exists B' pre order, block_find_spanning_tree B graph [] [] = Ok (B', pre, [r]) /\ spanning B graph ls r B' pre order.
Proof. intros Hok Hrg. by apply find_tree_ok. Qed.

(** The members of [diamond] in another order, their edges as before. *)
Definition shuffled : Blocks := Eval vm_compute in map_blocks (fun p b => if decide (p = 0%nat) then with_list [1; 4; 2; 5; 3]%nat b else b) diamond.

Lemma shuffled_rooted : rooted_graph shuffled 0 [1; 4; 2; 5; 3]%nat 1.
Proof.
  assert (Hflow : forall p q, flows shuffled p q -> p ∈ [1; 4; 2; 5; 3]%nat /\ q ∈ [1; 4; 2; 5; 3]%nat).
  { intros p q (k & e & (b & Hb & He) & <-). destruct p as [|[|[|[|[|[|p]]]]]]; try discriminate Hb; injection Hb as <-;
      destruct k as [|[|k]]; cbn in He; try discriminate He; injection He as <-; split; vm_compute; set_solver. }
  assert (Hedge : forall p k, (k < length (outofthis (block_at shuffled p)))%nat -> is_Some (try_get shuffled p) -> flows shuffled p (point (out_edge shuffled p k))).
  { intros p k Hk [b Hb]. unfold block_at in Hk. rewrite Hb in Hk. destruct (lookup_lt_is_Some_2 _ _ Hk) as [e He]. exists k, e. split; [by exists b|].
    unfold out_edge, block_at. by rewrite Hb, He. }
  assert (H2 : flows shuffled 1 2) by (apply (Hedge 1%nat 0%nat); [cbn; lia|by eexists]). assert (H3 : flows shuffled 1 3) by (apply (Hedge 1%nat 1%nat); [cbn; lia|by eexists]).
  assert (H4 : flows shuffled 2 4) by (apply (Hedge 2%nat 0%nat); [cbn; lia|by eexists]). assert (H5 : flows shuffled 4 5) by (apply (Hedge 4%nat 1%nat); [cbn; lia|by eexists]).
  split.
  - by eexists.
  - by apply (bool_decide_unpack (NoDup _)).
  - intros p Hp. repeat (apply elem_of_cons in Hp as [->|Hp]; [by eexists|]). by apply elem_of_nil in Hp.
  - intros p q Hf. destruct (Hflow p q Hf). tauto.
  - by left.
  - intros p Hp. repeat (apply elem_of_cons in Hp as [->|Hp]; [eauto 6 using rtc_l, rtc_refl|]). by apply elem_of_nil in Hp.
  - by right.
  - done.
Qed.

Lemma spanning_tree_witness : exists B' pre order, block_find_spanning_tree shuffled 0 [] [] = Ok (B', pre, [1%nat]) /\
  spanning shuffled 0 [1; 4; 2; 5; 3]%nat 1 B' pre order.
Proof. apply (spanning_tree_correct shuffled 0 [1; 4; 2; 5; 3]%nat 1); [by apply checked_arena_ok|apply shuffled_rooted]. Defined.
