(* ===== verification/BlockLoops.v ===== *)
(** The loops of the flow graph ([block_find_irreducible], [block_calc_loop] and
    [block_structure_loops] of [src/src/block.rs]) on a graph that was searched
    by [block_find_spanning_tree].

    Marking irreducible edges and loops changes labels, marks and [copymap]s
    only; [alike] says that two arenas differ in no more than these. *)
From stdpp Require Import base list gmap numbers strings.
From Stdlib Require Import ZArith Lia Sorted.
From S2P Require Import Prelude Bits Arena Block BlockGraph BlockEdges Dominators BlockDom BlockTree.

(** ** Arenas that differ in labels and marks *)

Definition MARKS : Z := Z.lor F_MARK F_MARK2.
Definition FREE_LABELS : Z := Z.lor F_IRREDUCIBLE (Z.lor F_CROSS_EDGE F_FORWARD_EDGE).

Definition skeleton (b : FlowBlock) : FlowBlock :=
  with_copymap None (with_flags (fun fl => without fl MARKS) (clear_labels FREE_LABELS b)).

Definition alike (B B' : Blocks) : Prop :=
  length (slots B') = length (slots B) /\ forall p, skeleton <$> try_get B' p = skeleton <$> try_get B p.

#[global] Instance alike_equivalence : Equivalence alike.
Proof.
  split; [by intros B|intros B B' [H1 H2]; by split|]. intros B1 B2 B3 [H1 H2] [H3 H4]. split; [congruence|]. intros p. by rewrite H4, H2.
Qed.

Lemma alike_get B B' p b : alike B B' -> try_get B p = Some b -> exists b', try_get B' p = Some b' /\ skeleton b' = skeleton b.
Proof. intros [_ H] Hb. specialize (H p). rewrite Hb in H. destruct (try_get B' p) as [b'|]; [|done]. exists b'. split; [done|]. by apply (inj Some) in H. Qed.

Lemma skeleton_edges b b' s : skeleton b' = skeleton b ->
  with_label (fun l => without l FREE_LABELS) <$> edges s b' = with_label (fun l => without l FREE_LABELS) <$> edges s b.
Proof. intros H. assert (E : edges s (skeleton b') = edges s (skeleton b)) by (by rewrite H). destruct s; exact E. Qed.

Lemma skeleton_fields b b' : skeleton b' = skeleton b ->
  visitcount b' = visitcount b /\ numdesc b' = numdesc b /\ block_index b' = block_index b /\ block_list b' = block_list b /\ immed_dom b' = immed_dom b.
Proof. intros H. unfold skeleton, clear_labels, with_edges in H. cbn in H. by injection H. Qed.

Lemma alike_edge B B' s p k e : alike B B' -> edge_at B s p k e -> exists e', edge_at B' s p k e' /\ point e' = point e /\
  reverse_index e' = reverse_index e /\ without (label e') FREE_LABELS = without (label e) FREE_LABELS.
Proof.
  intros Ha (b & Hb & He). destruct (alike_get B B' p b Ha Hb) as (b' & Hb' & Hs). apply (skeleton_edges b b' s) in Hs.
  assert (Hk := f_equal (fun l => l !! k) Hs). cbn in Hk. rewrite !list_lookup_fmap, He in Hk. destruct (edges s b' !! k) as [e'|] eqn:E; [|done].
  cbn in Hk. apply (inj Some) in Hk. unfold with_label in Hk. injection Hk as H1 H2 H3. exists e'. split; [by exists b'|done].
Qed.

Lemma alike_ok B B' : alike B B' -> edges_ok B -> edges_ok B'.
Proof.
  intros Ha [Hsm Hok]. assert (Ha' : alike B' B) by done. split.
  - intros p b' s Hb'. destruct (alike_get B' B p b' Ha' Hb') as (b & Hb & Hs). apply (skeleton_edges b' b s) in Hs.
    rewrite <- (length_fmap (with_label (fun l => without l FREE_LABELS))), <- Hs, length_fmap. by apply (Hsm p).
  - intros s p k e' He'. destruct (alike_edge B' B s p k e' Ha' He') as (e & He & Hp & Hr & _). destruct (Hok _ _ _ _ He) as (j & x & Hj & Hx & Hpx & Hkx).
    destruct (alike_edge B B' _ _ _ _ Ha Hx) as (x' & Hx' & Hp' & Hr' & _). exists j, x'. rewrite Hp', Hr'. split; [lia|]. split; [by rewrite <- Hp|done].
Qed.

Lemma alike_flows B B' p q : alike B B' -> flows B p q <-> flows B' p q.
Proof.
  intros Ha. split; intros (k & e & He & <-).
  - destruct (alike_edge B B' _ _ _ _ Ha He) as (e' & He' & Hp & _). by exists k, e'.
  - destruct (alike_edge B' B _ _ _ _ ltac:(done) He) as (e' & He' & Hp & _). by exists k, e'.
Qed.

Lemma alike_points B B' s p : alike B B' -> points B' s p = points B s p.
Proof.
  intros Ha. unfold points, view. destruct (try_get B p) as [b|] eqn:Hb.
  - destruct (alike_get B B' p b Ha Hb) as (b' & -> & Hs). apply (skeleton_edges b b' s) in Hs. cbn. f_equal. rewrite <- !list_fmap_compose.
    apply (f_equal (fmap point)) in Hs. rewrite <- !list_fmap_compose in Hs. exact Hs.
  - destruct Ha as [_ H]. specialize (H p). rewrite Hb in H. by destruct (try_get B' p).
Qed.

Lemma alike_numbered B B' graph l : alike B B' -> numbered B graph l -> numbered B' graph l.
Proof.
  intros Ha Hn. split; try apply Hn.
  - destruct (num_graph _ _ _ Hn) as (g & Hg & Hl). destruct (alike_get B B' graph g Ha Hg) as (g' & Hg' & Hs). exists g'. split; [done|].
    apply skeleton_fields in Hs as (_ & _ & _ & -> & _). done.
  - intros i p Hi. destruct (num_index _ _ _ Hn i p Hi) as (b & Hb & Hx). destruct (alike_get B B' p b Ha Hb) as (b' & Hb' & Hs). exists b'. split; [done|].
    by apply skeleton_fields in Hs as (_ & _ & -> & _).
  - intros p q Hf. apply (alike_flows B B' p q Ha) in Hf. by apply (num_closed _ _ _ Hn).
  - intros i p Hi Hp. destruct (num_early _ _ _ Hn i p Hi Hp) as (j & q & Hj & Hq & Hf). exists j, q. split; [done|]. split; [done|]. by apply (alike_flows B B' q p Ha).
Qed.

(** A flag that the search for irreducible edges does not touch. *)
Lemma same_label f e e' : Z.land (u32 (Z.lnot FREE_LABELS)) f = f -> without (label e') FREE_LABELS = without (label e) FREE_LABELS ->
  has_label f e' = has_label f e.
Proof.
  intros Hf He. unfold has_label. unfold without in He. rewrite <- Hf, !Z.land_assoc. by rewrite He.
Qed.

Lemma edit_alike B p b f : try_get B p = Some b -> skeleton (f b) = skeleton b ->
  exists B', edit B p f = Ok B' /\ alike B B' /\ forall q, try_get B' q = if decide (q = p) then Some (f b) else try_get B q.
Proof.
  intros Hb Hf. rewrite (edit_eq _ _ _ _ Hb). eexists. split; [done|].
  assert (Hget : forall q, try_get (map_blocks (fun q x => if decide (q = p) then f x else x) B) q = if decide (q = p) then Some (f b) else try_get B q).
  { intros q. rewrite try_get_map. destruct (decide (q = p)) as [->|]; [by rewrite Hb|by destruct (try_get B q)]. }
  split; [|done]. split; [apply length_imap|]. intros q. rewrite Hget. destruct (decide (q = p)) as [->|]; [|done]. rewrite Hb. cbn. by rewrite Hf.
Qed.

Lemma skeleton_relabel b g : (forall s, with_label (fun l => without l FREE_LABELS) <$> g s (edges s b) = with_label (fun l => without l FREE_LABELS) <$> edges s b) ->
  skeleton (with_edges g b) = skeleton b.
Proof. intros Hg. pose proof (Hg Into) as H1. pose proof (Hg OutOf) as H2. cbn in H1, H2. unfold skeleton, clear_labels, with_edges. cbn. by rewrite H1, H2. Qed.

Lemma alter_free f k (l : list BlockEdge) : (forall x, without (f x) FREE_LABELS = without x FREE_LABELS) ->
  with_label (fun l => without l FREE_LABELS) <$> alter (with_label f) k l = with_label (fun l => without l FREE_LABELS) <$> l.
Proof.
  intros Hf. apply list_eq. intros i. rewrite !list_lookup_fmap, list_lookup_alter. destruct (decide (k = i)) as [->|]; [|done].
  destruct (l !! i) as [e|]; [|done]. cbn. unfold with_label. cbn. by rewrite Hf.
Qed.

Lemma relabel_alike B x k e f : edges_ok B -> edge_at B OutOf x k e -> (forall l, without (f l) FREE_LABELS = without l FREE_LABELS) ->
  exists B', relabel_out_edge f B x (Z.of_nat k) = Ok B' /\ alike B B' /\ forall p, rest <$> try_get B' p = rest <$> try_get B p.
Proof.
  intros Hok He Hf. destruct (relabel_ok f B x k e Hok He) as (B' & j & E & _ & Hs & _ & HB). exists B'. split; [done|].
  split; [|intros p; by apply same_rest_rest]. rewrite HB. unfold map_edges. rewrite map_blocks_comp. split; [apply length_imap|].
  intros p. rewrite try_get_map. destruct (try_get B p) as [b|]; [|done]. cbn [fmap option_fmap option_map]. f_equal.
  rewrite skeleton_relabel; [rewrite skeleton_relabel; [done|]|]; intros s; rewrite ?with_edges_edges; unfold at_list;
    (destruct (decide _); [by apply alter_free|done]).
Qed.

Lemma without_lor l f m : Z.land f (u32 (Z.lnot m)) = 0 -> without (Z.lor l f) m = without l m.
Proof. intros Hf. unfold without. by rewrite Z.land_lor_distr_l, Hf, Z.lor_0_r. Qed.

Lemma without_without l f m : Z.land (u32 (Z.lnot f)) (u32 (Z.lnot m)) = u32 (Z.lnot m) -> without (without l f) m = without l m.
Proof. intros Hf. unfold without. by rewrite <- Z.land_assoc, Hf. Qed.

Lemma skeleton_mark b : skeleton (set_mark b) = skeleton b.
Proof. unfold skeleton, set_mark, clear_labels, with_edges, with_flags, with_copymap. cbn -[without]. by rewrite without_lor. Qed.

Lemma skeleton_unmark b u : skeleton (with_copymap u (clear_mark b)) = skeleton b.
Proof. unfold skeleton, clear_mark, clear_labels, with_edges, with_flags, with_copymap. cbn -[without]. by rewrite without_without. Qed.

Definition has_flag (f : Z) (b : FlowBlock) : bool := negb (Z.land (flags b) f =? 0).

Lemma has_flag_set f g b : has_flag f (with_flags (fun fl => Z.lor fl g) b) = has_flag f b || negb (Z.land g f =? 0).
Proof.
  unfold has_flag. cbn. rewrite Z.land_lor_distr_l. destruct (Z.eqb_spec (Z.land (flags b) f) 0) as [->|H1].
  - by rewrite Z.lor_0_l.
  - destruct (Z.eqb_spec (Z.lor (Z.land (flags b) f) (Z.land g f)) 0) as [H|]; [|done]. apply Z.lor_eq_0_iff in H as [? _]. done.
Qed.

Lemma has_flag_clear f g b : Z.land (u32 (Z.lnot g)) f = f -> has_flag f (with_flags (fun fl => without fl g) b) = has_flag f b.
Proof. intros H. unfold has_flag. cbn. unfold without. by rewrite <- Z.land_assoc, H. Qed.

Lemma has_flag_clear_all f g b : Z.land (u32 (Z.lnot g)) f = 0 -> has_flag f (with_flags (fun fl => without fl g) b) = false.
Proof. intros H. unfold has_flag. cbn. unfold without. by rewrite <- Z.land_assoc, H, Z.land_0_r. Qed.

(** No block carries a mark. *)
Definition quiet (B : Blocks) : Prop := forall p b, try_get B p = Some b -> has_flag F_MARK b = false /\ has_flag F_MARK2 b = false.

(** A loop that edits the blocks of a list, some of them more than once. *)
Lemma edit_each g : (forall b, skeleton (g b) = skeleton b) -> (forall b, g (g b) = g b) -> forall l (B1 : Blocks), (forall m, m ∈ l -> exists b, try_get B1 m = Some b) ->
  exists B2, foldl (fun r child => let! B := r in edit B child g) (Ok B1) l = Ok B2 /\ alike B1 B2 /\
    forall p, try_get B2 p = (fun b => if decide (p ∈ l) then g b else b) <$> try_get B1 p.
Proof.
  intros Hg Hgg. induction l as [|m l IH]; intros B1 Hl; cbn [foldl].
  - exists B1. split; [done|]. split; [done|]. intros p. destruct (try_get B1 p) as [b|]; [|done]. cbn. by rewrite decide_False by (apply not_elem_of_nil).
  - destruct (Hl m ltac:(by left)) as [b Hb]. destruct (edit_alike B1 m b g Hb (Hg b)) as (B2 & E & Ha & Hget). cbn [obind]. rewrite E.
    destruct (IH B2) as (B3 & E3 & Ha3 & Hget3).
    { intros m' Hm'. rewrite Hget. destruct (decide (m' = m)); [by eexists|]. apply Hl. by right. }
    exists B3. split; [done|]. split; [by transitivity B2|]. intros p. rewrite Hget3, Hget. destruct (decide (p = m)) as [->|Hp].
    + rewrite Hb. cbn. rewrite (decide_True (P := m ∈ m :: l)) by (by left). destruct (decide (m ∈ l)); [by rewrite Hgg|done].
    + destruct (try_get B1 p) as [c|]; [|done]. cbn. f_equal. destruct (decide (p ∈ l)); [rewrite decide_True by (by right)|rewrite decide_False by (by rewrite not_elem_of_cons)]; done.
Qed.

(** ** Irreducible edges *)

Section Irreducible.
Context (B B0 : Blocks) (graph : nat) (ls : list nat) (r : nat) (pre order : list nat).
Hypothesis Hok : edges_ok B.
Hypothesis Hrg : rooted_graph B graph ls r.
Hypothesis Hsp : spanning B graph ls r B0 pre order.

Lemma pre_nodup : NoDup pre.
Proof. rewrite (proj1 (sp_pre _ _ _ _ _ _ _ Hsp)). apply (rg_nodup _ _ _ _ Hrg). Qed.

Lemma pre_member x : x ∈ ls <-> x ∈ pre.
Proof. by rewrite (proj1 (sp_pre _ _ _ _ _ _ _ Hsp)). Qed.

Lemma pre_closed s x k e : x ∈ ls -> edge_at B0 s x k e -> point e ∈ ls.
Proof.
  intros Hx He. pose proof (sp_numbered _ _ _ _ _ _ _ Hsp) as Hn. assert (Hmem : forall p, p ∈ order <-> p ∈ ls) by (intros p; by rewrite (proj1 (sp_order _ _ _ _ _ _ _ Hsp))).
  destruct s.
  - apply Hmem, (num_closed _ _ _ Hn (point e) x); [|by apply Hmem]. apply (flows_in B0 _ _ (sp_edges _ _ _ _ _ _ _ Hsp)). by exists k, e.
  - apply Hmem, (num_closed _ _ _ Hn x (point e)); [|by apply Hmem]. by exists k, e.
Qed.

(** The label of an edge as the search left it. *)
Lemma tree_label s x k e : x ∈ ls -> edge_at B0 s x k e -> exists l kind, label e = Z.lor (without l SEARCH_FLAGS) (kind_label kind) /\
  along s (sorted_edge pre order) x (point e) kind.
Proof.
  intros Hx He. pose proof (sp_points _ _ _ _ _ _ _ Hsp s x) as Hp. pose proof He as (b' & Hb' & He'). destruct (rg_live _ _ _ _ Hrg x Hx) as [b Hb].
  rewrite (points_live _ _ _ _ Hb), (points_live _ _ _ _ Hb') in Hp. injection Hp as Hp. assert (Hk := f_equal (fun l => l !! k) Hp). cbn in Hk.
  rewrite !list_lookup_fmap, He' in Hk. destruct (edges s b !! k) as [e0|] eqn:E; [|done].
  destruct (sp_labels _ _ _ _ _ _ _ Hsp s x k e0 Hx ltac:(by exists b)) as (e1 & kind & He1 & Hp1 & Hl & Hs).
  pose proof (edge_at_inj _ _ _ _ _ _ He1 He) as ->. exists (label e0), kind. split; [done|]. by rewrite Hp1.
Qed.

Lemma kind_of_label f kind l : Z.land (u32 (Z.lnot SEARCH_FLAGS)) f = 0 -> Z.land (Z.lor (without l SEARCH_FLAGS) (kind_label kind)) f = Z.land (kind_label kind) f.
Proof. intros Hf. unfold without. by rewrite Z.land_lor_distr_l, <- Z.land_assoc, Hf, Z.land_0_r. Qed.

Lemma back_label x k e : x ∈ ls -> edge_at B0 Into x k e -> has_label F_BACK_EDGE e = true -> sorted_edge pre order (point e) x Back.
Proof.
  intros Hx He Hl. destruct (tree_label Into x k e Hx He) as (l & kind & El & Hs). unfold has_label in Hl. rewrite El, kind_of_label in Hl by done.
  by destruct kind.
Qed.

Lemma tree_label_in x k e : x ∈ ls -> edge_at B0 Into x k e -> has_label F_TREE_EDGE e = true -> sorted_edge pre order (point e) x Tree.
Proof.
  intros Hx He Hl. destruct (tree_label Into x k e Hx He) as (l & kind & El & Hs). unfold has_label in Hl. rewrite El, kind_of_label in Hl by done.
  by destruct kind.
Qed.

(** How many blocks are at or below [x]. *)
Definition size_of (x : nat) : Z := match try_get B0 x with Some b => numdesc b | None => 0 end.

Lemma visited_block x i : pre !! i = Some x -> exists b, try_get B0 x = Some b /\ visitcount b = Z.of_nat i /\ numdesc b = size_of x /\ 0 <= size_of x <= Z.of_nat (length ls) - Z.of_nat i.
Proof.
  intros Hi. destruct (sp_visit _ _ _ _ _ _ _ Hsp i x Hi) as (b & Hb & Hv & _ & Hd & _). exists b. unfold size_of. by rewrite Hb.
Qed.

Lemma below_spec x i y j : pre !! i = Some x -> pre !! j = Some y ->
  Z.of_nat i <= Z.of_nat j < Z.of_nat i + size_of x <-> y = x \/ (before pre x y /\ before order x y).
Proof.
  intros Hi Hj. destruct (sp_visit _ _ _ _ _ _ _ Hsp i x Hi) as (b & Hb & _ & _ & _ & H). unfold size_of. rewrite Hb. by apply H.
Qed.

(** Every member stands for itself or for a head at or after [limit]. *)
Definition copies (limit : nat) (B1 : Blocks) : Prop :=
  forall y j, pre !! j = Some y -> exists b u i, try_get B1 y = Some b /\ copymap b = Some u /\ pre !! i = Some u /\ (i = j \/ (limit <= i <= j)%nat).

Definition marked (reach : list nat) (B1 : Blocks) : Prop :=
  forall p b, try_get B1 p = Some b -> is_mark b = bool_decide (p ∈ reach) /\ has_flag F_MARK2 b = false.

(** At work on the head [x], the block number [i]. *)
Record heading (x i : nat) (reach : list nat) (B1 : Blocks) : Prop := {
  hd_alike : alike B0 B1;
  hd_copies : copies (S i) B1;
  hd_marked : marked reach B1;
  hd_below : forall m, m ∈ reach -> exists j, pre !! j = Some m /\ (i < j)%nat /\ Z.of_nat j < Z.of_nat i + size_of x }.

Lemma copies_ext limit (B1 B2 : Blocks) : copies limit B1 -> (forall p b, try_get B1 p = Some b -> exists b', try_get B2 p = Some b' /\ copymap b' = copymap b) -> copies limit B2.
Proof.
  intros Hc H y j Hj. destruct (Hc y j Hj) as (b & u & i & Hb & Hu & Hi). destruct (H y b Hb) as (b' & Hb' & Hu'). exists b', u, i. by rewrite Hu'.
Qed.

Lemma head_mark x i reach B1 u j : heading x i reach B1 -> pre !! j = Some u -> (i < j)%nat -> Z.of_nat j < Z.of_nat i + size_of x ->
  exists B2, edit B1 u set_mark = Ok B2 /\ heading x i (reach ++ [u]) B2.
Proof.
  intros HH Hu Hij Hj. destruct (visited_block u j Hu) as (b0 & Hb0 & _).
  destruct (alike_get B0 B1 u b0 (hd_alike _ _ _ _ HH) Hb0) as (b & Hb & _).
  destruct (edit_alike B1 u b set_mark Hb (skeleton_mark b)) as (B2 & E & Ha & Hget). exists B2. split; [done|]. split.
  - transitivity B1; [apply HH|done].
  - apply (copies_ext _ B1); [apply HH|]. intros p c Hc. rewrite Hget. destruct (decide (p = u)) as [->|]; [|by exists c]. exists (set_mark b).
    split; [done|]. cbn. congruence.
  - intros p c Hc. rewrite Hget in Hc. destruct (decide (p = u)) as [->|Hp].
    + injection Hc as <-. rewrite is_mark_set, bool_decide_true by set_solver. split; [done|]. unfold set_mark. rewrite has_flag_set.
      by rewrite (proj2 (hd_marked _ _ _ _ HH u b Hb)).
    + destruct (hd_marked _ _ _ _ HH p c Hc) as [-> ->]. split; [|done]. apply bool_decide_ext. set_solver.
  - intros m [Hm| ->%list_elem_of_singleton]%elem_of_app; [by apply HH|]. by exists j.
Qed.

Lemma copy_of x i reach B1 y j : heading x i reach B1 -> pre !! j = Some y -> exists b u k, get B1 y = Ok b /\ copymap b = Some u /\
  pre !! k = Some u /\ (k = j \/ (S i <= k <= j)%nat).
Proof.
  intros HH Hy. destruct (hd_copies _ _ _ _ HH y j Hy) as (b & u & k & Hb & Hu & Hk). exists b, u, k. rewrite get_try, Hb. done.
Qed.

Lemma back_source_ok x i reach B1 slot e : heading x i reach B1 -> pre !! i = Some x -> edge_at B0 Into x slot e ->
  exists B2 reach', back_source_step x slot (B1, reach) = Ok (B2, reach') /\ heading x i reach' B2.
Proof.
  intros HH Hi He. assert (Hx : x ∈ ls) by (apply pre_member; by eapply list_elem_of_lookup_2).
  destruct (alike_edge B0 B1 _ _ _ _ (hd_alike _ _ _ _ HH) He) as (e1 & He1 & Hp1 & _ & Hl1). pose proof (edge_at_small _ _ _ _ _ (proj1 (sp_edges _ _ _ _ _ _ _ Hsp)) He).
  unfold back_source_step. rewrite (get_edge_eq B1 Into x slot e1) by done. cbn [obind]. rewrite (same_label F_BACK_EDGE e e1) by done.
  destruct (has_label F_BACK_EDGE e) eqn:Eb; cbn [negb]; [|by exists B1, reach]. rewrite Hp1. case_bool_decide as Hs; [by exists B1, reach|].
  destruct (back_label x slot e Hx He Eb) as [Hb1 Hb2].
  destruct Hb1 as [Hb1|Hb1]; [congruence|]. destruct Hb2 as [Hb2|Hb2]; [congruence|].
  assert (Hy : exists j, pre !! j = Some (point e)) by (destruct Hb1 as (a & j & _ & _ & Hj); by exists j). destruct Hy as [j Hj].
  pose proof pre_nodup as Hnp. pose proof (proj1 (before_number pre x (point e) i j Hnp Hi Hj) Hb1) as Hij.
  pose proof (proj2 (below_spec x i (point e) j Hi Hj) ltac:(by right)) as Hlt.
  destruct (copy_of x i reach B1 (point e) j HH Hj) as (b & u & k & -> & Hu & Hk & Hkj). cbn [obind]. rewrite Hu.
  destruct (head_mark x i reach B1 u k HH Hk ltac:(lia) ltac:(lia)) as (B2 & -> & HH2). cbn [obind]. by exists B2, (reach ++ [u]).
Qed.

(** A tree edge to a block below the head starts at or below the head. *)
Lemma tree_edge_inside x i m jm y jy : pre !! i = Some x -> pre !! jm = Some m -> (i < jm)%nat -> Z.of_nat jm < Z.of_nat i + size_of x ->
  pre !! jy = Some y -> sorted_edge pre order y m Tree -> (i <= jy < jm)%nat.
Proof.
  intros Hi Hm Him Hlt Hy (H1 & H2 & H3). pose proof pre_nodup as Hnp.
  assert (Hyo : NoDup order) by (rewrite (proj1 (sp_order _ _ _ _ _ _ _ Hsp)); apply (rg_nodup _ _ _ _ Hrg)).
  apply (before_number pre y m jy jm) in H1; [|done..]. split; [|done]. destruct (decide (i <= jy)%nat) as [|Hlt']; [done|]. exfalso.
  destruct (proj1 (below_spec x i m jm Hi Hm) ltac:(lia)) as [->|[Hxm Hxo]].
  - assert (jm = i) by (by apply (NoDup_lookup pre jm i x)). lia.
  - assert (Hmx : before order m x); [|by apply (before_asym order x m)]. apply H3; [|done]. apply (before_number pre y x jy i); [done..|lia].
Qed.

Lemma head_relabel x i reach (B1 : Blocks) y k e f : heading x i reach B1 -> edge_at B1 OutOf y k e ->
  (forall l, without (f l) FREE_LABELS = without l FREE_LABELS) ->
  exists B2, relabel_out_edge f B1 y (Z.of_nat k) = Ok B2 /\ heading x i reach B2.
Proof.
  intros HH He Hf. pose proof (alike_ok _ _ (hd_alike _ _ _ _ HH) (sp_edges _ _ _ _ _ _ _ Hsp)) as Hok1.
  destruct (relabel_alike B1 y k e f Hok1 He Hf) as (B2 & E & Ha & Hr). exists B2. split; [done|].
  assert (Hsame : forall p b', try_get B2 p = Some b' -> exists b, try_get B1 p = Some b /\ rest b' = rest b).
  { intros p b' Hb'. specialize (Hr p). rewrite Hb' in Hr. destruct (try_get B1 p) as [b|]; [|done]. exists b. split; [done|]. by apply (inj Some) in Hr. }
  split.
  - transitivity B1; [apply HH|done].
  - apply (copies_ext _ B1); [apply HH|]. intros p b Hb. specialize (Hr p). rewrite Hb in Hr. destruct (try_get B2 p) as [b'|]; [|done]. exists b'.
    split; [done|]. apply (inj Some) in Hr. unfold rest, with_edges in Hr. by injection Hr.
  - intros p b' Hb'. destruct (Hsame p b' Hb') as (b & Hb & Hrest). 
    unfold rest, with_edges in Hrest. injection Hrest as ? ? ? Hfl ? ? ? ? ? ? ?. destruct (hd_marked _ _ _ _ HH p b Hb) as [Hma Hmb].
    unfold is_mark, has_flag in *. by rewrite Hfl.
  - apply HH.
Qed.

Lemma under_edge_ok x i reach B1 m jm slot e count : heading x i reach B1 -> pre !! i = Some x -> pre !! jm = Some m -> (i < jm)%nat ->
  Z.of_nat jm < Z.of_nat i + size_of x -> edge_at B0 Into m slot e ->
  exists B2 count' ext, under_edge_step x m slot (B1, reach, count, false) = Ok (B2, reach ++ ext, count', false) /\
    heading x i (reach ++ ext) B2 /\ NoDup ext /\ forall u, u ∈ ext -> u ∉ reach.
Proof.
  intros HH Hi Hm Him Hlt He. assert (Hml : m ∈ ls) by (apply pre_member; by eapply list_elem_of_lookup_2).
  pose proof (hd_alike _ _ _ _ HH) as Ha. pose proof (alike_ok _ _ Ha (sp_edges _ _ _ _ _ _ _ Hsp)) as Hok1.
  assert (Hstay : exists B2 count' ext, Ok (B1, reach, count, false) = Ok (B2, reach ++ ext, count', false) /\ heading x i (reach ++ ext) B2 /\ NoDup ext /\ forall u, u ∈ ext -> u ∉ reach).
  { exists B1, count, []. rewrite app_nil_r. split; [done|]. split; [done|]. split; [constructor|]. intros u Hu. by apply elem_of_nil in Hu. }
  destruct (alike_edge B0 B1 _ _ _ _ Ha He) as (e1 & He1 & Hp1 & _ & Hl1).
  unfold under_edge_step. rewrite (get_edge_eq B1 Into m slot e1) by done. cbn [obind]. destruct (has_label F_IRREDUCIBLE e1); [done|]. rewrite Hp1.
  assert (Hyl : point e ∈ ls) by (by apply (pre_closed Into m slot e)). apply pre_member, list_elem_of_lookup in Hyl as [jy Hjy].
  destruct (copy_of x i reach B1 (point e) jy HH Hjy) as (b & u & k & -> & Hu & Hk & Hkj). cbn [obind]. rewrite Hu.
  destruct (visited_block x i Hi) as (bx & Hbx & Hvx & Hdx & Hsx). destruct (visited_block u k Hk) as (bu & Hbu & Hvu & _).
  destruct (alike_get B0 B1 x bx Ha Hbx) as (bx1 & Hbx1 & (Hx1 & Hx2 & _)%skeleton_fields). destruct (alike_get B0 B1 u bu Ha Hbu) as (bu1 & Hbu1 & (Hu1 & _)%skeleton_fields).
  rewrite !get_try, Hbx1, Hbu1. cbn [obind]. rewrite Hx1, Hx2, Hu1, Hvx, Hdx, Hvu. pose proof (lookup_lt_Some _ _ _ Hi) as Hil. pose proof (lookup_lt_Some _ _ _ Hm) as Hml'.
  pose proof (rg_small _ _ _ _ Hrg) as Hsm. assert (Hlen : length pre = length ls) by (by rewrite (proj1 (sp_pre _ _ _ _ _ _ _ Hsp))).
  rewrite i32_small by lia.
  destruct ((Z.of_nat i >? Z.of_nat k) || (Z.of_nat i + size_of x <=? Z.of_nat k)) eqn:Eout.
  - (* the edge is irreducible *)
    destruct (proj2 Hok1 _ _ _ _ He1) as (ko & eo & Hko & Heo & Hpo & _). cbn in Heo. rewrite Hp1 in Heo. rewrite Hko.
    destruct (head_relabel x i reach B1 (point e) ko eo (fun l => Z.lor l F_IRREDUCIBLE) HH Heo) as (B2 & E2 & HH2); [intros l; by apply without_lor|].
    unfold block_set_out_edge_flag. rewrite E2. cbn [obind]. destruct (alike_edge B0 B2 _ _ _ _ (hd_alike _ _ _ _ HH2) He) as (e2 & He2 & _ & _ & Hl2).
    rewrite (get_edge_eq B2 Into m slot e2) by done. cbn [obind]. rewrite (same_label F_TREE_EDGE e e2) by done.
    destruct (has_label F_TREE_EDGE e) eqn:Et.
    + exfalso. pose proof (tree_edge_inside x i m jm (point e) jy Hi Hm Him Hlt Hjy (tree_label_in m slot e Hml He Et)). lia.
    + destruct (alike_edge B1 B2 _ _ _ _ ltac:(transitivity B0; [symmetry; apply HH|apply HH2]) Heo) as (eo2 & Heo2 & _).
      destruct (head_relabel x i reach B2 (point e) ko eo2 (fun l => without l (Z.lor F_CROSS_EDGE F_FORWARD_EDGE)) HH2 Heo2) as (B3 & E3 & HH3); [intros l; by apply without_without|].
      unfold block_clear_out_edge_flag. rewrite E3. cbn [obind]. exists B3, (i32 (count + 1)), []. rewrite app_nil_r. split; [done|]. split; [done|]. split; [constructor|].
      intros v Hv. by apply elem_of_nil in Hv.
  - rewrite (proj1 (hd_marked _ _ _ _ HH u bu1 Hbu1)). case_bool_decide as Hin; cbn [negb andb]; [done|]. case_bool_decide as Hux; cbn [negb]; [done|].
    assert (Hne : i <> k) by (intros ->; apply Hux; congruence).
    destruct (head_mark x i reach B1 u k HH Hk ltac:(lia) ltac:(lia)) as (B2 & -> & HH2). cbn [obind]. exists B2, count, [u]. split; [done|]. split; [done|].
    split; [apply NoDup_singleton|]. by intros v ->%list_elem_of_singleton.
Qed.

Lemma alike_size (B1 : Blocks) s p b1 b0 : alike B0 B1 -> try_get B0 p = Some b0 -> try_get B1 p = Some b1 ->
  Z.to_nat (size_edges s b1) = length (edges s b0) /\ forall k, (k < length (edges s b0))%nat -> exists e, edge_at B0 s p k e.
Proof.
  intros Ha Hb0 Hb1. pose proof (alike_ok _ _ Ha (sp_edges _ _ _ _ _ _ _ Hsp)) as Hok1.
  destruct (alike_get B0 B1 p b0 Ha Hb0) as (b & Hb & Hs). assert (b = b1) as -> by congruence. apply (skeleton_edges b0 b1 s) in Hs.
  apply (f_equal length) in Hs. rewrite !length_fmap in Hs. rewrite (same_size B1 s p b1) by (done || apply Hok1). split; [lia|].
  intros k Hk. destruct (lookup_lt_is_Some_2 (edges s b0) k Hk) as [e He]. exists e. by exists b0.
Qed.

Lemma under_member_ok x i reach B1 m jm count b : heading x i reach B1 -> pre !! i = Some x -> pre !! jm = Some m -> (i < jm)%nat ->
  Z.of_nat jm < Z.of_nat i + size_of x -> try_get B1 m = Some b ->
  exists B2 count' ext, for_up (Z.to_nat (size_edges Into b)) 0 (under_edge_step x m) (B1, reach, count, false) = Ok (B2, reach ++ ext, count', false) /\
    heading x i (reach ++ ext) B2 /\ NoDup ext /\ forall u, u ∈ ext -> u ∉ reach.
Proof.
  intros HH Hi Hm Him Hlt Hb. destruct (visited_block m jm Hm) as (b0 & Hb0 & _).
  destruct (alike_size B1 Into m b b0 (hd_alike _ _ _ _ HH) Hb0 Hb) as [-> Hedge].
  destruct (for_up_inv (fun _ st => exists B2 count' ext, st = (B2, reach ++ ext, count', false) /\ heading x i (reach ++ ext) B2 /\ NoDup ext /\ forall u, u ∈ ext -> u ∉ reach)
    (under_edge_step x m) (length (edges Into b0)) 0 (B1, reach, count, false)) as (st & E & B2 & count' & ext & -> & H).
  - exists B1, count, []. rewrite app_nil_r. split; [done|]. split; [done|]. split; [constructor|]. intros u Hu. by apply elem_of_nil in Hu.
  - intros k st Hk (B2 & count' & ext & -> & HH2 & Hnd & Hnew). destruct (Hedge k ltac:(lia)) as [e He].
    destruct (under_edge_ok x i (reach ++ ext) B2 m jm k e count' HH2 Hi Hm Him Hlt He) as (B3 & c3 & ext3 & -> & HH3 & Hnd3 & Hnew3).
    eexists. split; [done|]. exists B3, c3, (ext ++ ext3). rewrite app_assoc. split; [done|]. split; [done|]. split.
    + apply NoDup_app. split; [done|]. split; [|done]. intros u Hu Hu3. apply (Hnew3 u Hu3). set_solver.
    + intros u [Hu|Hu]%elem_of_app; [by apply Hnew|]. intros Hr. apply (Hnew3 u Hu). set_solver.
  - exists B2, count', ext. by rewrite E.
Qed.

Lemma heading_live x i reach B1 m : heading x i reach B1 -> m ∈ reach -> exists b, try_get B1 m = Some b.
Proof.
  intros HH Hm. destruct (hd_below _ _ _ _ HH m Hm) as (j & Hj & _). destruct (visited_block m j Hj) as (b0 & Hb0 & _).
  destruct (alike_get B0 B1 m b0 (hd_alike _ _ _ _ HH) Hb0) as (b & Hb & _). by exists b.
Qed.

(** Only the first blocks of the queue can be there twice. *)
Lemma queue_bound x i reach0 new B1 : heading x i (reach0 ++ new) B1 -> NoDup new -> (length (reach0 ++ new) <= length reach0 + length (slots B0))%nat.
Proof.
  intros HH Hnd. rewrite length_app. assert (length new <= length (slots B1))%nat.
  - apply live_bound; [done|]. intros m Hm. destruct (heading_live x i (reach0 ++ new) B1 m HH) as [b Hb]; [set_solver|by exists b].
  - rewrite (proj1 (hd_alike _ _ _ _ HH)) in H. lia.
Qed.

Lemma under_loop x i reach0 fuel B1 new count q : pre !! i = Some x -> heading x i (reach0 ++ new) B1 -> NoDup new ->
  (q <= length (reach0 ++ new))%nat -> (length reach0 + length (slots B0) < fuel + q)%nat ->
  exists B2 reach' count', loop fuel (under_step x) (B1, reach0 ++ new, count, false, q) = Ok (B2, reach', count', false) /\ heading x i reach' B2.
Proof.
  intros Hi. revert B1 new count q. induction fuel as [|fuel IH]; intros B1 new count q HH Hnd Hq Hf.
  { pose proof (queue_bound x i reach0 new B1 HH Hnd). lia. }
  cbn [loop]. unfold under_step at 1. destruct ((reach0 ++ new) !! q) as [m|] eqn:Em; cbn [obind]; [|by exists B1, (reach0 ++ new), count].
  assert (Hm : m ∈ reach0 ++ new) by (by eapply list_elem_of_lookup_2). pose proof (lookup_lt_Some _ _ _ Em) as Hlt.
  destruct (hd_below _ _ _ _ HH m Hm) as (j & Hj & Hij & Hsz). destruct (heading_live x i _ B1 m HH Hm) as [b Hb]. rewrite get_try, Hb. cbn [obind].
  destruct (under_member_ok x i (reach0 ++ new) B1 m j count b HH Hi Hj Hij Hsz Hb) as (B2 & count' & ext & -> & HH2 & Hnde & Hnew). cbn [obind].
  rewrite <- app_assoc in *. apply (IH B2 (new ++ ext) count' (S q)); [done| |rewrite !length_app in *; lia|lia].
  apply NoDup_app. split; [done|]. split; [|done]. intros u Hu Hue. apply (Hnew u Hue). set_solver.
Qed.

(** The members of the loop are handed over to the head. *)
Definition hand_over (x : nat) (b : FlowBlock) : FlowBlock := with_copymap (Some x) (clear_mark b).

Lemma hand_over_twice x b : hand_over x (hand_over x b) = hand_over x b.
Proof. unfold hand_over, clear_mark, with_copymap, with_flags. cbn -[without]. by rewrite without_without. Qed.

(** Between two heads. *)
Definition between (limit : nat) (B1 : Blocks) : Prop := alike B0 B1 /\ copies limit B1 /\ marked [] B1.

Lemma irreducible_step_ok i B1 count : (i < length pre)%nat -> between (S i) B1 ->
  exists B2 count', irreducible_step pre i (B1, count, false) = Ok (B2, count', false) /\ between i B2.
Proof.
  intros Hil (Ha & Hc & Hm). destruct (lookup_lt_is_Some_2 pre i Hil) as [x Hi]. unfold irreducible_step. rewrite (index_ok _ _ _ Hi). cbn [obind].
  destruct (visited_block x i Hi) as (b0 & Hb0 & _). destruct (alike_get B0 B1 x b0 Ha Hb0) as (b & Hb & _). rewrite get_try, Hb. cbn [obind].
  destruct (alike_size B1 Into x b b0 Ha Hb0 Hb) as [-> Hedge].
  destruct (for_up_inv (fun _ st => exists B2 reach, st = (B2, reach) /\ heading x i reach B2) (back_source_step x) (length (edges Into b0)) 0 (B1, [])) as (st & -> & B2 & reach & -> & HH).
  - exists B1, []. split; [done|]. split; [done|done|done|]. intros m Hm'. by apply elem_of_nil in Hm'.
  - intros k st Hk (B2 & reach & -> & HH). destruct (Hedge k ltac:(lia)) as [e He].
    destruct (back_source_ok x i reach B2 k e HH Hi He) as (B3 & reach' & -> & HH3). eexists. split; [done|]. by exists B3, reach'.
  - cbn [obind]. rewrite <- (app_nil_r reach) in HH.
    destruct (under_loop x i reach (S (length reach + length (slots B2))) B2 [] count 0 Hi HH) as (B3 & reach' & count' & E & HH3);
      [constructor|lia|rewrite (proj1 (hd_alike _ _ _ _ HH)); lia|].
    rewrite app_nil_r in E. rewrite E. cbn [obind].
    destruct (edit_each (hand_over x) (fun b => skeleton_unmark b (Some x)) (hand_over_twice x) reach' B3) as (B4 & E4 & Ha4 & Hget); [intros m Hm'; by apply (heading_live x i reach')|]. unfold hand_over in E4. rewrite E4. cbn [obind].
    exists B4, count'. split; [done|]. split; [transitivity B3; [apply HH3|done]|]. split.
    + intros y j Hj. destruct (hd_copies _ _ _ _ HH3 y j Hj) as (c & u & k & Hcy & Hu & Hk & Hkj). rewrite Hget, Hcy. destruct (decide (y ∈ reach')) as [Hin|Hno].
      * exists (hand_over x c), x, i. split; [done|]. split; [done|]. split; [done|]. right. destruct (hd_below _ _ _ _ HH3 y Hin) as (j' & Hj' & ? & _).
        assert (j' = j) as -> by (by apply (NoDup_lookup pre j' j y); [apply pre_nodup|..]). lia.
      * exists c, u, k. split; [done|]. split; [done|]. split; [done|]. destruct Hkj as [->|Hkj]; [by left|right; lia].
    + intros p c Hp. rewrite Hget in Hp. destruct (try_get B3 p) as [d|] eqn:Ed; [|done]. injection Hp as <-. rewrite bool_decide_false by (apply not_elem_of_nil).
      pose proof (hd_marked _ _ _ _ HH3 p d Ed) as [Hd Hd2]. destruct (decide (p ∈ reach')) as [Hin|Hno].
      * change (is_mark (hand_over x d)) with (has_flag F_MARK (clear_mark d)). change (has_flag F_MARK2 (hand_over x d)) with (has_flag F_MARK2 (clear_mark d)).
        unfold clear_mark. by rewrite has_flag_clear_all, has_flag_clear.
      * by rewrite bool_decide_false in Hd.
Qed.

Lemma find_irreducible_ok count : quiet B ->
  exists B1 count', block_find_irreducible B0 pre count = Ok (B1, count', false) /\ alike B0 B1 /\ quiet B1.
Proof.
  intros Hquiet. unfold block_find_irreducible.
  destruct (for_down_inv (fun i st => exists B1 c, st = (B1, c, false) /\ between i B1) (irreducible_step pre) (length pre) 0 (B0, count, false)) as (st & -> & B1 & c & -> & Ha & _ & Hm).
  - exists B0, count. split; [done|]. split; [done|]. split.
    + intros y j Hj. destruct (sp_visit _ _ _ _ _ _ _ Hsp j y Hj) as (b & Hb & _ & Hc & _). exists b, y, j. split; [done|]. split; [done|]. split; [done|]. by left.
    + intros p b0 Hb0. rewrite bool_decide_false by (apply not_elem_of_nil). pose proof (sp_kept _ _ _ _ _ _ _ Hsp p) as Hk. rewrite Hb0 in Hk.
      destruct (try_get B p) as [b|] eqn:Hb; [|done]. apply (inj Some) in Hk. unfold is_mark. assert (Hf : flags (kept b0) = flags (kept b)) by (by rewrite Hk).
      cbn in Hf. unfold has_flag. rewrite Hf. by apply (Hquiet p).
  - intros i st Hi (B1 & c & -> & HB). destruct (irreducible_step_ok i B1 c ltac:(lia) HB) as (B2 & c' & -> & HB2). eexists. split; [done|]. by exists B2, c'.
  - exists B1, c. split; [done|]. split; [done|]. intros p b Hb. destruct (Hm p b Hb) as [H1 H2]. rewrite bool_decide_false in H1 by (apply not_elem_of_nil). done.
Qed.
End Irreducible.

(** ** Loop edges *)

Lemma before_total l x y : x ∈ l -> y ∈ l -> x = y \/ before l x y \/ before l y x.
Proof.
  intros [i Hi]%list_elem_of_lookup [j Hj]%list_elem_of_lookup. destruct (Nat.lt_trichotomy i j) as [|[->|]].
  - right. left. by exists i, j.
  - left. congruence.
  - right. right. by exists j, i.
Qed.

Lemma before_trans l x y z : NoDup l -> before l x y -> before l y z -> before l x z.
Proof.
  intros Hnd (i & j & Hij & Hi & Hj) (j' & k & Hjk & Hj' & Hk). assert (j' = j) by (by apply (NoDup_lookup l j' j y)). exists i, k. split; [lia|done].
Qed.

Lemma skeleton_set_flags b f : Z.land f (u32 (Z.lnot MARKS)) = 0 -> skeleton (with_flags (fun fl => Z.lor fl f) b) = skeleton b.
Proof. intros Hf. unfold skeleton, clear_labels, with_edges, with_flags, with_copymap. cbn -[without]. by rewrite without_lor. Qed.

Lemma skeleton_clear_flags b f : Z.land (u32 (Z.lnot f)) (u32 (Z.lnot MARKS)) = u32 (Z.lnot MARKS) -> skeleton (with_flags (fun fl => without fl f) b) = skeleton b.
Proof. intros Hf. unfold skeleton, clear_labels, with_edges, with_flags, with_copymap. cbn -[without]. by rewrite without_without. Qed.

Section Loops.
Context (B1 : Blocks) (graph : nat) (order : list nat).
Hypothesis Hok : edges_ok B1.
Hypothesis Hn : numbered B1 graph order.
Hypothesis Hquiet : quiet B1.
Hypothesis Hfwd : forall x k e, x ∈ order -> edge_at B1 OutOf x k e -> has_label F_LOOP_EDGE e = false -> before order x (point e).

(** The walk has left the blocks [F] and is on the path [path]. *)
Record walking (F : list nat) (path : list (nat * nat)) (B2 : Blocks) : Prop := {
  wk_alike : alike B1 B2;
  wk_nodup : NoDup (F ++ path.*1);
  wk_in : forall x, x ∈ F ++ path.*1 -> x ∈ order;
  wk_marks : forall p b, try_get B2 p = Some b ->
    has_flag F_MARK b = bool_decide (p ∈ F ++ path.*1) /\ has_flag F_MARK2 b = bool_decide (p ∈ path.*1);
  wk_slots : forall x m, (x, m) ∈ path -> (m <= outs B1 x)%nat;
  wk_sorted : StronglySorted (fun a b => before order b a) path.*1 }.

Definition walk_state (path : list (nat * nat)) (B2 : Blocks) : Blocks * list (nat * Z) := (B2, (fun '(x, k) => (x, Z.of_nat k)) <$> path).
Definition walked (F : list nat) (path : list (nat * nat)) : nat := (sum_list_with (fun x => S (outs B1 x)) F + sum_list_with snd path)%nat.

Lemma member_block x : x ∈ order -> exists b, try_get B1 x = Some b.
Proof. intros Hx. destruct (members_live B1 graph order Hn x Hx) as [b Hb]. by exists b. Qed.

Lemma enter_walk F path B2 q b : walking F path B2 -> q ∈ order -> q ∉ F ++ path.*1 -> (forall y, y ∈ path.*1 -> before order y q) -> try_get B2 q = Some b ->
  exists B3, edit B2 q (with_flags (fun fl => Z.lor fl (Z.lor F_MARK F_MARK2))) = Ok B3 /\ walking F ((q, 0%nat) :: path) B3.
Proof.
  intros HW Hq Hnew Hbef Hb. destruct (edit_alike B2 q b (with_flags (fun fl => Z.lor fl (Z.lor F_MARK F_MARK2))) Hb (skeleton_set_flags b (Z.lor F_MARK F_MARK2) eq_refl)) as (B3 & E & Ha & Hget).
  exists B3. split; [done|]. assert (Hmem : forall x, x ∈ F ++ ((q, 0%nat) :: path).*1 <-> x = q \/ x ∈ F ++ path.*1) by (intros x; cbn; set_solver).
  split.
  - transitivity B2; [apply HW|done].
  - cbn. rewrite <- Permutation_middle. constructor; [done|apply HW].
  - intros x [->|Hx]%Hmem; [done|by apply HW].
  - intros p c Hc. rewrite Hget in Hc. rewrite (bool_decide_ext _ _ (Hmem p)). destruct (decide (p = q)) as [->|Hp].
    + injection Hc as <-. rewrite !has_flag_set. change (Z.land (Z.lor F_MARK F_MARK2) F_MARK =? 0) with false. change (Z.land (Z.lor F_MARK F_MARK2) F_MARK2 =? 0) with false.
      cbn [negb]. rewrite !orb_true_r. rewrite !bool_decide_true by (cbn; set_solver). done.
    + destruct (wk_marks _ _ _ HW p c Hc) as [-> ->]. split; apply bool_decide_ext; cbn; set_solver.
  - intros x m [[= -> ->]|Hx]%elem_of_cons; [lia|by apply (wk_slots _ _ _ HW)].
  - cbn. constructor; [apply HW|]. apply Forall_forall. done.
Qed.

Lemma leave_walk F path B2 x k b : walking F ((x, k) :: path) B2 -> try_get B2 x = Some b ->
  exists B3, edit B2 x (with_flags (fun fl => without fl F_MARK2)) = Ok B3 /\ walking (F ++ [x]) path B3.
Proof.
  intros HW Hb. destruct (edit_alike B2 x b (with_flags (fun fl => without fl F_MARK2)) Hb (skeleton_clear_flags b F_MARK2 eq_refl)) as (B3 & E & Ha & Hget).
  exists B3. split; [done|]. assert (Hp0 : (F ++ [x]) ++ path.*1 = F ++ ((x, k) :: path).*1) by (by rewrite <- app_assoc).
  assert (Hx : x ∉ path.*1).
  { pose proof (wk_nodup _ _ _ HW) as Hnd. apply NoDup_app in Hnd as (_ & _ & Hnd). cbn in Hnd. by apply NoDup_cons in Hnd as [? _]. }
  split; rewrite ?Hp0.
  - transitivity B2; [apply HW|done].
  - apply HW.
  - apply HW.
  - intros p c Hc. rewrite Hget in Hc. destruct (decide (p = x)) as [->|Hp].
    + injection Hc as <-. destruct (wk_marks _ _ _ HW x b Hb) as [H1 _]. rewrite has_flag_clear, H1, has_flag_clear_all by done. split; [done|].
      symmetry. by apply bool_decide_eq_false.
    + destruct (wk_marks _ _ _ HW p c Hc) as [-> ->]. split; [done|]. apply bool_decide_ext. cbn. set_solver.
  - intros y m Hy. apply (wk_slots _ _ _ HW). by right.
  - pose proof (wk_sorted _ _ _ HW) as Hs. cbn in Hs. by apply StronglySorted_inv in Hs as [? _].
Qed.

Lemma next_walk F path B2 x k : walking F ((x, k) :: path) B2 -> (k < outs B1 x)%nat -> walking F ((x, S k) :: path) B2.
Proof.
  intros HW Hk. split; try apply HW. intros y m [[= -> ->]|Hy]%elem_of_cons; [lia|]. apply (wk_slots _ _ _ HW). by right.
Qed.

Lemma calc_loop_step_ok F x k path B2 : walking F ((x, k) :: path) B2 ->
  exists B3 F' path', calc_loop_step (walk_state ((x, k) :: path) B2) = Ok (inl (walk_state path' B3)) /\ walking F' path' B3 /\
    walked F' path' = S (walked F ((x, k) :: path)).
Proof.
  intros HW. assert (Hx : x ∈ order) by (apply (wk_in _ _ _ HW); cbn; set_solver). destruct (member_block x Hx) as [b1 Hb1].
  pose proof (wk_alike _ _ _ HW) as Ha. pose proof (alike_ok _ _ Ha Hok) as Hok2. destruct (alike_get B1 B2 x b1 Ha Hb1) as (b & Hb & Hs).
  apply (skeleton_edges b1 b OutOf) in Hs. assert (Hlen : length (outofthis b) = outs B1 x).
  { apply (f_equal length) in Hs. rewrite !length_fmap in Hs. unfold outs, block_at. by rewrite Hb1. }
  pose proof (wk_slots _ _ _ HW x k ltac:(by left)) as Hk. pose proof (proj1 Hok2 x b OutOf Hb) as Hsb. cbn [edges] in Hsb.
  unfold calc_loop_step, walk_state. cbn [fmap list_fmap]. rewrite get_try, Hb. cbn [obind]. rewrite (same_size B2 OutOf x b) by (done || apply Hok2). cbn [edges].
  destruct (decide (k = outs B1 x)) as [->|Hmore].
  { destruct (Z.geb_spec (Z.of_nat (outs B1 x)) (Z.of_nat (length (outofthis b)))); [|lia].
    destruct (leave_walk F path B2 x (outs B1 x) b HW Hb) as (B3 & -> & HW3). cbn [obind]. exists B3, (F ++ [x]), path. split; [done|]. split; [done|].
    unfold walked. rewrite sum_list_with_app. cbn. lia. }
  destruct (Z.geb_spec (Z.of_nat k) (Z.of_nat (length (outofthis b)))); [lia|].
  destruct (lookup_lt_is_Some_2 (outofthis b) k ltac:(lia)) as [e He]. assert (Hat : edge_at B2 OutOf x k e) by (by exists b).
  rewrite u64_nat by lia. rewrite (get_edge_eq B2 OutOf x k e) by done. cbn [obind]. rewrite i32_small by lia. replace (Z.of_nat k + 1) with (Z.of_nat (S k)) by lia.
  pose proof (next_walk F path B2 x k HW ltac:(lia)) as HW'.
  assert (Hstay : exists B3 F' path', Ok (inl (B2, (x, Z.of_nat (S k)) :: list_fmap _ _ (fun '(x, k) => (x, Z.of_nat k)) path)) = Ok (inl (walk_state path' B3) : _ + Blocks) /\
    walking F' path' B3 /\ walked F' path' = S (walked F ((x, k) :: path))).
  { exists B2, F, ((x, S k) :: path). split; [done|]. split; [done|]. unfold walked. cbn. lia. }
  destruct (has_label F_LOOP_EDGE e) eqn:El; [done|].
  unfold get_neighbour. cbn [edges]. rewrite u64_nat, Nat2Z.id by lia. rewrite (index_ok _ _ _ He). cbn [obind].
  destruct (alike_edge B2 B1 _ _ _ _ ltac:(by symmetry) Hat) as (e1 & He1 & Hp1 & _ & Hl1).
  assert (Hbef : before order x (point e)) by (rewrite <- Hp1; apply (Hfwd x k e1 Hx He1); by rewrite (same_label F_LOOP_EDGE e e1)).
  assert (Hq : point e ∈ order) by (by apply before_in in Hbef as [_ ?]). destruct (member_block (point e) Hq) as [c1 Hc1].
  destruct (alike_get B1 B2 (point e) c1 Ha Hc1) as (c & Hc & _). rewrite get_try, Hc. cbn [obind].
  pose proof (num_nodup _ _ _ Hn) as Hno. pose proof (wk_sorted _ _ _ HW) as Hsort. cbn in Hsort. apply StronglySorted_inv in Hsort as [_ Hsort]. rewrite Forall_forall in Hsort.
  assert (Hpath : forall y, y ∈ ((x, S k) :: path).*1 -> before order y (point e)).
  { intros y [->|Hy]%elem_of_cons; [done|]. apply (before_trans order y x); [done|by apply Hsort|done]. }
  destruct (wk_marks _ _ _ HW' (point e) c Hc) as [Hm1 Hm2]. unfold has_flag in Hm1, Hm2. rewrite Hm2. case_bool_decide as Hp2.
  { exfalso. pose proof (Hpath _ Hp2). by apply (before_asym order (point e) (point e)). }
  destruct (Z.land (flags c) F_MARK =? 0); cbn [negb] in Hm1; [|done].
  symmetry in Hm1. apply bool_decide_eq_false in Hm1. destruct (enter_walk F ((x, S k) :: path) B2 (point e) c HW' Hq Hm1 Hpath Hc) as (B3 & -> & HW3). cbn [obind].
  exists B3, F, ((point e, 0%nat) :: (x, S k) :: path). split; [done|]. split; [done|]. unfold walked. cbn. lia.
Qed.

Lemma walk_loop fuel F path B2 : walking F path B2 -> (tree_fuel B1 <= fuel + walked F path)%nat ->
  exists B3 F', loop fuel calc_loop_step (walk_state path B2) = Ok B3 /\ walking F' [] B3.
Proof.
  revert F path B2. induction fuel as [|fuel IH]; intros F path B2 HW Hf.
  { exfalso. assert (walked F path < tree_fuel B1)%nat; [|lia]. apply weigh; [apply HW| |apply HW]. intros x Hx. destruct (member_block x) as [b Hb]; [by apply HW|by exists b]. }
  cbn [loop]. destruct path as [|[x k] path].
  - exists B2, F. done.
  - destruct (calc_loop_step_ok F x k path B2 HW) as (B3 & F' & path' & -> & HW3 & Hw). cbn [obind]. apply (IH F' path' B3 HW3). lia.
Qed.

Lemma alike_fuel (B2 : Blocks) : alike B1 B2 -> tree_fuel B2 = tree_fuel B1.
Proof.
  intros Ha. unfold tree_fuel. rewrite (proj1 Ha). f_equal. induction (seq 0 (length (slots B1))) as [|x l IH]; [done|]. cbn. rewrite IH. f_equal.
  unfold arena_weight. destruct (try_get B1 x) as [b|] eqn:Hb.
  - destruct (alike_get B1 B2 x b Ha Hb) as (b' & -> & Hs). apply (skeleton_edges b b' OutOf), (f_equal length) in Hs. rewrite !length_fmap in Hs. cbn in Hs. by rewrite Hs.
  - destruct Ha as [_ H]. specialize (H x). rewrite Hb in H. by destruct (try_get B2 x).
Qed.

(** The walk finds no loop that is not marked. *)
Lemma calc_loop_ok : exists B3, block_calc_loop B1 graph = Ok B3 /\ alike B1 B3 /\ quiet B3.
Proof.
  destruct (num_graph _ _ _ Hn) as (g & Hg & Hl). unfold block_calc_loop. rewrite get_try, Hg. cbn [obind]. rewrite Hl.
  destruct (order !! 0%nat) as [first|] eqn:Eo.
  2:{ apply lookup_ge_None in Eo. assert (E0 : order = []) by (apply nil_length_inv; lia). rewrite E0. by exists B1. }
  rewrite (match_entry order first Eo (Ok B1)). assert (Hfirst : first ∈ order) by (by eapply list_elem_of_lookup_2). destruct (member_block first Hfirst) as [b Hb].
  assert (HW0 : walking [] [] B1).
  { split; cbn; [done|constructor|by intros ? ?%elem_of_nil| |by intros ? ? ?%elem_of_nil|constructor].
    intros p c Hc. rewrite !bool_decide_false by (apply not_elem_of_nil). by apply (Hquiet p). }
  destruct (enter_walk [] [] B1 first b HW0 Hfirst (not_elem_of_nil first) ltac:(by intros y ?%elem_of_nil) Hb) as (B2 & -> & HW2). cbn [obind].
  rewrite (alike_fuel B2 (wk_alike _ _ _ HW2)).
  destruct (walk_loop (tree_fuel B1) [] [(first, 0%nat)] B2 HW2 ltac:(lia)) as (B3 & F & E & HW3). unfold walk_state in E. cbn [fmap list_fmap] in E. change (Z.of_nat 0) with 0 in E.
  rewrite E. cbn [obind].
  destruct (edit_each (with_flags (fun fl => without fl (Z.lor F_MARK F_MARK2)))) with (l := order) (B1 := B3) as (B4 & -> & Ha4 & Hget).
  { intros c. by apply skeleton_clear_flags. }
  { intros c. unfold with_flags. cbn -[without]. by rewrite without_without. }
  { intros m Hm. destruct (member_block m Hm) as [c Hc]. destruct (alike_get B1 B3 m c (wk_alike _ _ _ HW3) Hc) as (c' & Hc' & _). by exists c'. }
  exists B4. split; [done|]. split; [transitivity B3; [apply HW3|done]|]. intros p c Hc. rewrite Hget in Hc. destruct (try_get B3 p) as [d|] eqn:Ed; [|done]. injection Hc as <-.
  destruct (wk_marks _ _ _ HW3 p d Ed) as [H1 H2]. destruct (decide (p ∈ order)) as [Hp|Hp].
  - by rewrite !has_flag_clear_all.
  - rewrite H1, H2. split; apply bool_decide_eq_false; [|apply not_elem_of_nil]. intros Hin. by apply Hp, (wk_in _ _ _ HW3).
Qed.

End Loops.

(** ** The whole of [block_structure_loops] *)

(** The edges marked as loop edges are those that do not go forward in the list. *)
Definition loops_marked (B : Blocks) (order : list nat) : Prop :=
  forall x k e, x ∈ order -> edge_at B OutOf x k e -> has_label F_LOOP_EDGE e = true <-> point e = x \/ before order (point e) x.

Section Structure.
Context (B : Blocks) (graph : nat) (ls : list nat) (r : nat).
Hypothesis Hok : edges_ok B.
Hypothesis Hrg : rooted_graph B graph ls r.
Hypothesis Hquiet : quiet B.

Lemma spanning_loops B0 pre order : spanning B graph ls r B0 pre order -> loops_marked B0 order.
Proof.
  intros Hsp x k e Hx He. assert (Hxl : x ∈ ls) by (by rewrite <- (proj1 (sp_order _ _ _ _ _ _ _ Hsp))).
  assert (Hno : NoDup order) by (rewrite (proj1 (sp_order _ _ _ _ _ _ _ Hsp)); apply (rg_nodup _ _ _ _ Hrg)).
  destruct (tree_label B B0 graph ls r pre order Hrg Hsp OutOf x k e Hxl He) as (l & kind & El & Hs). unfold has_label. rewrite El, (kind_of_label F_LOOP_EDGE) by done.
  assert (Hfw : before order x (point e) -> point e = x \/ before order (point e) x -> False).
  { intros H [E|H']; [rewrite E in H; by apply (before_asym order x x)|by apply (before_asym order x (point e))]. }
  destruct kind; cbn in Hs |- *.
  - split; [done|]. intros H. exfalso. by apply Hfw; [apply Hs|].
  - split; [intros _; apply Hs|done].
  - split; [done|]. intros H. exfalso. by apply Hfw; [apply Hs|].
  - split; [done|]. intros H. exfalso. by apply Hfw; [apply Hs|].
Qed.

Lemma alike_loops (B0 B1 : Blocks) order : alike B0 B1 -> loops_marked B0 order -> loops_marked B1 order.
Proof.
  intros Ha Hl x k e Hx He. destruct (alike_edge B1 B0 _ _ _ _ ltac:(by symmetry) He) as (e0 & He0 & Hp & _ & Hlab).
  rewrite <- (same_label F_LOOP_EDGE e e0) by done. rewrite <- Hp. by apply (Hl x k).
Qed.

Lemma structure_loops_ok rounds : exists B' order, block_structure_loops (S rounds) B graph [] = Ok (B', [r]) /\ edges_ok B' /\ numbered B' graph order /\
  order ≡ₚ ls /\ order !! 0%nat = Some r /\ (forall s p, points B' s p = points B s p) /\ loops_marked B' order /\
  length (slots B') = length (slots B).
Proof.
  destruct (find_tree_ok B graph ls r Hok Hrg) as (B0 & pre & order & E & Hsp). unfold block_structure_loops. cbn [loop]. unfold structure_loops_step at 1.
  rewrite E. cbn [obind]. destruct (find_irreducible_ok B B0 graph ls r pre order Hok Hrg Hsp 0) as (B1 & count & -> & Ha1 & Hq1); [done|]. cbn [obind].
  pose proof (alike_ok _ _ Ha1 (sp_edges _ _ _ _ _ _ _ Hsp)) as Hok1. pose proof (alike_numbered _ _ _ _ Ha1 (sp_numbered _ _ _ _ _ _ _ Hsp)) as Hn1.
  pose proof (alike_loops _ _ _ Ha1 (spanning_loops B0 pre order Hsp)) as Hl1.
  assert (Hstep : exists B2, (if count >? 0 then block_calc_loop B1 graph else Ok B1) = Ok B2 /\ alike B1 B2).
  { destruct (count >? 0); [|by exists B1]. destruct (calc_loop_ok B1 graph order Hok1 Hn1 Hq1) as (B2 & -> & Ha2 & _); [|by exists B2].
    intros x k e Hx He Hno. destruct (before_total order x (point e)) as [->|[H|H]]; try done.
    - apply (num_closed _ _ _ Hn1 x (point e)); [by exists k, e|done].
    - rewrite (proj2 (Hl1 _ k e Hx He)) in Hno; [done|by left].
    - rewrite (proj2 (Hl1 x k e Hx He)) in Hno; [done|by right]. }
  destruct Hstep as (B2 & -> & Ha2). cbn [obind]. exists B2, order. split; [done|]. split; [by apply (alike_ok B1)|]. split; [by apply (alike_numbered B1)|].
  split; [apply (sp_order _ _ _ _ _ _ _ Hsp)|]. split; [apply (sp_order _ _ _ _ _ _ _ Hsp)|]. split; [|split; [by apply (alike_loops B1)|]].
  2:{ rewrite (proj1 Ha2), (proj1 Ha1). apply (sp_slots _ _ _ _ _ _ _ Hsp). }
  intros s p. rewrite (alike_points B1 B2), (alike_points B0 B1) by done. apply (sp_points _ _ _ _ _ _ _ Hsp).
Qed.
End Structure.

(** ** Properties *)

(** C26: on a graph, closed under its edges, with no marked block, all reached from one
    entry ([rooted_graph]), the loop of [block_structure_loops] ends in its first round:
    after the search from the entry no irreducible edge is a tree edge.  The blocks are
    left numbered from the entry on, their edges in place, and the edges marked
    as loop edges are exactly those that do not go forward in the new list, so
    every cycle has one. *)
Theorem structure_loops_correct B graph ls r rounds : edges_ok B -> rooted_graph B graph ls r -> quiet B ->
  exists B' order, block_structure_loops (S rounds) B graph [] = Ok (B', [r]) /\ edges_ok B' /\ numbered B' graph order /\
    order ≡ₚ ls /\ order !! 0%nat = Some r /\ (forall s p, points B' s p = points B s p) /\ loops_marked B' order.
Proof.
  intros Hok Hrg Hq. destruct (structure_loops_ok B graph ls r Hok Hrg Hq rounds) as (B' & order & E & H1 & H2 & H3 & H4 & H5 & H6 & _).
  by exists B', order.
Qed.

Lemma immediate_same (B B' : Blocks) ls ls' entry p o : (forall x y, flows B' x y <-> flows B x y) -> ls' ≡ₚ ls ->
  is_immediate B' ls' entry p o -> is_immediate B ls entry p o.
Proof.
  intros Hf Hp (H1 & H2 & H3 & H4). assert (Ha : forall d v, flow_avoiding B' entry d v <-> flow_avoiding B entry d v).
  { intros d v. split; (induction 1 as [|x y _ IH Hxy Hne]; [by constructor|]; eapply flow_edge; [done|by apply Hf|done]). }
  assert (Hd : forall d v, flow_dominates B' entry d v <-> flow_dominates B entry d v) by (intros d v; unfold flow_dominates; by rewrite Ha).
  split; [by rewrite <- Hp|]. split; [done|]. split; [by apply Hd|]. intros d Hdp Hne. apply Hd. apply H4; [by apply Hd|done].
Qed.

(** C24: on a graph, closed under its edges, with no marked block, all reached from one
    entry ([rooted_graph]), structuring the loops and then computing dominators, as the
    functions are called together, gives every block but the entry its immediate
    dominator in the original flow, and the entry none. *)
Theorem loops_then_dominators B graph ls r rounds : edges_ok B -> rooted_graph B graph ls r -> quiet B ->
  room B Into r -> Z.of_nat (length (slots B)) < 2 ^ 32 ->
  exists B', (let! (B, rootlist) := block_structure_loops (S rounds) B graph [] in block_calc_forward_dominator B graph rootlist) = Ok B' /\
    edges_ok B' /\ (forall s p, is_Some (try_get B p) -> points B' s p = points B s p) /\
    (exists b, try_get B' r = Some b /\ immed_dom b = None) /\
    forall p, p ∈ ls -> p <> r -> exists b o, try_get B' p = Some b /\ immed_dom b = Some o /\ is_immediate B ls r p o.
Proof.
  intros Hok Hrg Hq Hroom Hslots. destruct (structure_loops_ok B graph ls r Hok Hrg Hq rounds) as (B1 & order & -> & Hok1 & Hn & Hperm & H0 & Hpts & _ & Hsl). cbn [obind].
  assert (Hf : forall x y, flows B1 x y <-> flows B x y) by (intros x y; by rewrite !flows_points, Hpts).
  destruct (rg_live _ _ _ _ Hrg r (rg_root _ _ _ _ Hrg)) as [b Hb].
  assert (Hr1 : exists b1, try_get B1 r = Some b1 /\ length (intothis b1) = length (intothis b)).
  { pose proof (Hpts Into r) as Hp. rewrite (points_live _ _ _ _ Hb) in Hp. unfold points, view in Hp. destruct (try_get B1 r) as [b1|]; [|done]. exists b1.
    split; [done|]. cbn in Hp. injection Hp as Hp. apply (f_equal length) in Hp. by rewrite !length_fmap in Hp. }
  destruct Hr1 as (b1 & Hb1 & Hlen). destruct Hroom as (b' & Hb' & Hroom). assert (b' = b) as -> by congruence. cbn in Hroom.
  assert (Hcalc : exists B2, block_calc_forward_dominator B1 graph [r] = Ok B2 /\ edges_ok B2 /\ dominators_found B1 order r B2).
  { destruct (decide (intothis b1 = [])) as [Hin|Hin]; [by apply (calc_dominator_plain B1 graph order r Hok1 Hn H0 b1)|].
    apply (calc_dominator_looped B1 graph order r b1); try done; lia. }
  destruct Hcalc as (B2 & -> & Hok2 & Hd1 & Hd2 & Hd3 & Hd4). exists B2. split; [done|]. split; [done|]. split; [|split; [done|]].
  - intros s p [c Hc]. rewrite <- Hpts. apply points_view, Hd2. pose proof (Hpts s p) as Hp. rewrite (points_live _ _ _ _ Hc) in Hp.
    unfold points, view in Hp. destruct (try_get B1 p); [by eexists|done].
  - intros p Hp Hne. destruct (Hd4 p) as (c & o & Hc & Ho & Him); [by rewrite Hperm|done|]. exists c, o. split; [done|]. split; [done|].
    by apply (immediate_same B B1 ls order).
Qed.

Lemma shuffled_quiet : quiet shuffled.
Proof. intros p b Hb. destruct p as [|[|[|[|[|[|p]]]]]]; try discriminate Hb; by injection Hb as <-. Qed.

Lemma structure_loops_witness : exists B' order, block_structure_loops 1 shuffled 0 [] = Ok (B', [1%nat]) /\ edges_ok B' /\ numbered B' 0 order /\
  order ≡ₚ [1; 4; 2; 5; 3]%nat /\ order !! 0%nat = Some 1%nat /\ (forall s p, points B' s p = points shuffled s p) /\ loops_marked B' order.
Proof.
  apply (structure_loops_correct shuffled 0 [1; 4; 2; 5; 3]%nat 1 0); [by apply checked_arena_ok|apply shuffled_rooted|apply shuffled_quiet].
Defined.

Lemma loops_then_dominators_witness : exists B',
  (let! (B, rootlist) := block_structure_loops 1 shuffled 0 [] in block_calc_forward_dominator B 0 rootlist) = Ok B' /\
  edges_ok B' /\ (forall s p, is_Some (try_get shuffled p) -> points B' s p = points shuffled s p) /\
  (exists b, try_get B' 1%nat = Some b /\ immed_dom b = None) /\
  forall p, p ∈ [1; 4; 2; 5; 3]%nat -> p <> 1%nat -> exists b o, try_get B' p = Some b /\ immed_dom b = Some o /\ is_immediate shuffled [1; 4; 2; 5; 3]%nat 1 p o.
Proof.
  apply (loops_then_dominators shuffled 0 [1; 4; 2; 5; 3]%nat 1 0); [by apply checked_arena_ok|apply shuffled_rooted|apply shuffled_quiet|by eexists|done].
Defined.
